(* ===== verification/_CoqProject ===== *)
-Q . S2P
Prelude.v
Crash.v
Text.v
GoJson.v
Float64.v
RoomState.v
Limits.v
ListenTogether.v
Http.v
Gate.v
ServeFile.v
Failure.v
Inspector.v
Metadata.v
Artwork.v
Id3.v
Wav.v
Mp3.v
Flac.v
Mp4.v
M4a.v
Ogg.v
OggStream.v
Inspect.v
ImportErrors.v
Disk.v
MapDisk.v
Storage.v
Paths.v
StoreSteps.v
Journal.v
Swap.v
ReplaceFiles.v
Replacement.v
ReplaceSafety.v
Restart.v
TrackReplacement.v
Values.v
PlayQueue.v
Prog.v
Telemetry.v
OutputDevices.v
Adaptive.v
SettingsFile.v
Processing.v
ProcessingSafety.v
LoadTiming.v
Lifecycle.v
Session.v
Desktop.v
Mpv.v
Controller.v
Events.v
CommandSafety.v
PlaybackSafety.v
PlaybackRuns.v
SearchData.v
Search.v
EditDistance.v
SearchMatch.v
SearchOrder.v
SearchService.v
StreamUrl.v
Icy.v
Hls.v
RadioProxy.v
ExternalTokens.v
YtDlp.v
ExternalCache.v
ExternalSource.v
ExternalSafety.v
ExternalStream.v
ExternalFlight.v
ExternalHttp.v
Catalog.v
Deletion.v
DeletionSteps.v
DeletionSafety.v
