(* ===== verification/Prelude.v ===== *)
(** * Harmony: its own logic, verified

    The repository is a self-hosted music system: a Rust Music Server (server/),
    a Rust Desktop core (desktop/core/), and TypeScript clients. This library
    models the parts of the server and of the Desktop core that decide something
    on their own, and proves what makes them right. What only moves data between
    SQLite, axum, a remote server, D-Bus or a decoder is left out, and listed at
    the end.

    ** Files and the code they model

    Shared by all:

    - Prelude: outcomes ([Ok], [Err], [Panic], [OutOfFuel]), the state and
      failure monad [M], slices, bytes and machine integers, and the tactics and
      hints the other files share.
    - Crash: a Hoare logic for operations the process can end in: [wp m Q X C]
      says how [m] returns, fails and is interrupted.
    - Text: Rust strings as lists of scalar values, with UTF-8 encoding and
      decoding (also lossy), trimming, splitting, decimal printing and parsing.
    - Float64: binary64, over the Standard Library's SpecFloat.

    The Music Server (paths under src/server/src/):

    - GoJson (gojson.rs): JSON escaping, civil dates, RFC 3339 and SQLite times.
    - RoomState (modules/listen_together/room_state.rs): the Room's queue,
      playhead and commands.
    - Limits (limits.rs): token buckets and the read budgets of a Guest.
    - ListenTogether (service.rs): the one Room behind its lock, its Guests,
      sessions, Invite Link, feed and audio streams. Each entry point of the
      service is one computation on the record [ListenTogether]; [run_call] is
      one step and [reachable] any interleaving of them.
    - Http (respond.rs, query.rs): API errors and Go's query parsing.
    - Gate (gate.rs, handlers.rs, static_assets.rs): what a Guest's request may
      reach, the Listen Together handlers, event streams, embedded pages.
    - ServeFile (modules/playback/serve_file.rs): conditional and range requests.
    - Failure (inspect/errors.rs and the data of inspect/mod.rs): the failures
      an import reports and the values it produces.
    - Inspector, Inspect (inspect/mod.rs): reads, cancellation, progress and
      hashing over a [World] (the file's bytes, which operations fail, how much
      each read grants, when the caller cancels, what the progress reporter
      answers), and the dispatch on a file's signature.
    - Metadata (inspect/metadata.rs, modules/library/genres.rs): tags to title,
      credits, positions, genres, year, ReplayGain and lyrics.
    - Artwork (inspect/artwork.rs): signatures, animation and limits.
    - Id3 (inspect/id3.rs): ID3v2 headers, frames, texts, pictures, the tag.
    - Wav (inspect/wav.rs): RIFF chunks, the format, samples, the inspection.
    - Mp3 (inspect/mp3.rs): Layer III frame headers, the frames, the ID3v1 and
      APEv2 trailers, the inspection.
    - Flac (inspect/flac.rs): metadata blocks, Vorbis comments, pictures, the
      decoding loop and the technical values, the inspection.
    - Mp4, M4a (inspect/m4a.rs): atoms and freeform credits; what ffprobe and
      ffmpeg answer, and the inspection made of it.
    - Ogg, OggStream (inspect/ogg.rs): pages, packets and comments; what an
      accepted stream is.
    - ImportErrors (modules/managed_import/errors.rs, parts of service.rs): the
      failures of an import, their joins, and what a client reads of them.
    - Disk, MapDisk: relative paths and a file system as a class with its laws,
      and the finite map that satisfies them.
    - Storage (managed_import/storage.rs): every operation of Managed Storage;
      Paths and StoreSteps hold what its paths and its single steps keep.
    - Journal, Replacement (managed_import/replacement.rs, repository.rs): the
      journal table, the transactions, a Track Replacement and its recovery.
    - Swap, ReplaceFiles, ReplaceSafety, Restart, TrackReplacement: the states a
      replacement's files and rows can be in, up to the promises it keeps.
    - Catalog, Deletion (managed_import/deletion.rs): the rows of the Library
      that a deletion reads and writes, and the permanent deletion of Tracks and
      Albums; DeletionSteps says what the statements make of the rows,
      DeletionSafety what a deletion and its recovery promise.
    - SearchData (searchdata.rs): how names and queries are normalized.
    - Search (modules/search/index.rs, rank.rs): the index and the ranking;
      EditDistance, SearchMatch and SearchOrder prove the distance, what is
      found, and the order of what is found.
    - SearchService (modules/search/repository.rs, service.rs, handlers.rs): the
      kept index behind its lock, and a search from request to answer.
    - StreamUrl, Icy, Hls, RadioProxy (modules/radio/stream.rs): which addresses
      the server may fetch, ICY metadata, HLS playlists and their tokens, and
      the proxy of a station's stream.
    - ExternalTokens, YtDlp (modules/external_source/token.rs, yt_dlp.rs): the
      signed ids of External Tracks; yt-dlp's arguments and its output.
    - ExternalCache, ExternalSource (external_source/service.rs): the caches and
      every operation of the service; ExternalFlight is the table of running
      resolutions as a step relation; ExternalSafety and ExternalStream hold
      what the service asks of the network and what a listener gets.
    - ExternalHttp (external_source/handlers.rs, http.rs): headers both ways.

    The Desktop core (paths under src/desktop/core/src/):

    - Values: the JSON accessors the core uses, as a class.
    - PlayQueue (playback_navigation.rs): the Queue, its order, its steps.
    - Prog: programs of threads that share memory, as trees of atomic actions,
      calls of the world and locks; alone ([run]) or interleaved ([step]).
    - Telemetry (telemetry.rs), OutputDevices (output_device.rs), LoadTiming
      (playback_load_timing.rs): what is reported of the audio path, the devices
      there are, how long a source takes to start.
    - Adaptive (adaptive_system_rate.rs): the forced PipeWire rate and its marker.
    - SettingsFile, Processing, ProcessingSafety (processing.rs): a file replaced
      by renaming, the Processing Profile, and what both keep.
    - Lifecycle (playback_lifecycle.rs, playback_restore.rs): snapshots of the
      session, restarts, restoring.
    - Session, Desktop, Mpv, Controller, Events (playback.rs): the session's
      state, what the threads share, the player process, the commands, and the
      event thread. CommandSafety, PlaybackSafety and PlaybackRuns hold what
      single commands keep, what every interleaving keeps, and what one
      undisturbed program does.

    ** How the parts fit together

    A request passes Gate, which classifies it, authenticates the cookie against
    ListenTogether, spends a budget of Limits and hands the rest to the router;
    a command ends in RoomState. A Track's bytes leave through ServeFile. An
    import hashes the file on Inspector's ground, dispatches on its signature,
    collects tags (Id3 for MP3 and WAV), normalizes them with Metadata, checks
    the cover with Artwork, and joins every failure with Failure. The inspectors
    run in the monad [M Io Failure], the service in [M ListenTogether ...]; the
    lemmas [preserves_*] and [keeps_*] carry an invariant through either.

    A search normalizes its query with SearchData, takes the index SearchService
    keeps (reloading it when the library's revision or the user changed) and
    ranks it with Search. A radio request goes through RadioProxy: StreamUrl
    guards the URL, Hls or Icy treats the answer. The External Source runs YtDlp,
    remembers what it resolved in ExternalCache, and reuses StreamUrl, Hls and
    the header rules of RadioProxy for what it fetches.

    The Desktop core runs the commands of Controller on the threads of its
    callers and the loop of Events on its own; both are programs of Prog over the
    record of Desktop, and take its locks in one order. They move the Queue
    (PlayQueue), change the session (Session), talk to mpv (Mpv) and to PipeWire
    (Adaptive, OutputDevices), and save through SettingsFile and Lifecycle.

    ** What the theorems show

    - Listen Together: in every reachable state the Guest limit holds, exactly
      the sessions that ended are revoked and no snapshot carries the Invite
      Link; a join, a sweep, closing and opening an audio stream do exactly what
      they should on each branch; the Room's commands keep it well formed,
      refine a playhead clock over a queue, and panic only where the revision, an
      i64, ran out; buckets admit exactly their burst.
    - HTTP: the gate denies by default, which is stated on the route tables and
      path rules and not on [classify]; what a Guest sees has no file paths;
      percent-encoded queries round-trip; ranges mean what RFC 7233 says, stay
      inside the file, and the bytes delivered are the announced ones, part by
      part where a multipart answer has several.
    - Times: stored times round-trip and are the proleptic Gregorian calendar.
    - Imports: every inspection ends, whatever the file's bytes and whatever
      ffprobe and ffmpeg print. A panic is left in the cases the theorems name,
      each told by the file or by what the tools say of it ([Inspect.known_panic]):
      a TAG mark inside an MP3's ID3v2 tag, a Vorbis granule position more than
      2^60 samples from zero, and numbers about an M4A's stream that do not fit;
      a FLAC's needs half an exbibyte. Hashing covers the whole file; the
      signature chooses the container; normalization is total and yields storable metadata; ID3v2
      frames, FLAC comments and pictures and freeform credits parse back as they
      were written; accepted artwork is a still image of its declared kind. What
      a WAV, MP3, FLAC, Ogg or M4A inspection accepts is tiled by its chunks,
      frames, blocks, pages or packets, and its technical values are those of
      what was decoded.
    - Managed Import: a joined failure keeps its causes. Whatever fails while a
      Track is replaced and wherever the process ends, the previous Track is kept
      or the replacement is in place and in the Library; on a host that only
      stops the process finitely often, a replacement that can be finished
      ([TrackReplacement.finishable]) ends with one of the two and nothing in
      between. A committed replacement whose previous directory is
      already gone is the exception recovery never finishes. A deleted Track is
      whole, or hidden and journaled, or gone from consistent tables with its
      files and no others; recovery finishes every journaled deletion whose files
      are gone or unchanged in a directory that is there, every table being what
      these removals leave, and a changed file, audio or cover, stays and stops it.
    - Search: the distance is the fewest edits; an entity is found exactly when
      its name and credits explain the query's words; the result is sorted by an
      order stated field by field, complete and bounded per kind, and independent
      of the index's order; a search is answered from the library as its user sees
      it at a revision between the one it began at and the one it ends at,
      whatever runs beside it, in a bounded number of moves; a Guest never sees a
      playlist.
    - Radio: the refused addresses are exactly a list of networks; a playlist is
      rewritten exactly when it may be, line by line; a token stands for its URL,
      its station and its hour; a request fetches at most one URL, a public one;
      a listener gets the audio without its metadata.
    - External Source: the caches stay bounded; over any calls only public URLs
      are asked for, and only for ids that carry this server's MAC; a chunked
      stream is the
      file's bytes; however requests interleave one run per Track is in flight
      and every request that stays is answered.
    - Desktop: whatever commands and events interleave, session and Queue stay
      valid, no program panics and no threads deadlock; the end of a file makes
      of the session what a function of session and Queue says, and gives mpv
      exactly the commands that make it play the session's source; a player is
      restarted exactly when it was stable; every snapshot is valid; shuffling
      and stepping tour the Queue; a forced rate is always remembered; a settings
      request changes exactly what it asks for, or nothing; the boundary of a load
      separates its events; a dropped session ends its player and its thread;
      waiting for a device ends.

    ** Fuel and bounds

    Loops that the source bounds by an offset or a count run on fuel, and the
    theorems show it suffices: a frame, box or chunk takes at least its header,
    so the data's length is enough rounds; a read grants at least one byte, so
    the bytes still wanted are; a tag or list walk drops a character each round.
    [Flac.inspect] alone takes its fuel as an argument, because the packets come
    from the decoder: the hypothesis [flac_answers] says it reaches the end of
    the stream, or an error, within that many. [hash_loop] runs on the length of
    the file, [remove_empty_up] on the length of the path, [restarts] on a bound of
    the turns at which the host ends the process. [Icy.feed_loop] runs on the
    bytes pending, [Hls.rewrite_attributes] on the length of the line,
    [ExternalSource.read_chunks] on the chunks of the plan ([chunk_rounds]), and
    waiting for a device on its 201 observations ([OBSERVE_ROUNDS]). The event
    thread's loop takes its number of turns as an argument, and what holds of it
    holds for every number. No result depends on the fuel: every theorem excludes
    [OutOfFuel]. Integers keep their width: u32, u64 and i64 bounds are written
    out where the code adds, multiplies or casts, and an operation that panics is
    [Panic].

    ** Parameters

    Third-party code is a class with its operations as fields, and with its
    documented laws where a theorem needs them ([PlaybackRuns.MpvPlayer], what mpv's
    commands do to what sounds): the hash and MAC
    crates and base64 ([Crypto], [Base64], [TokenCodec], [TrackCodec]), the image
    crate ([Images]), Unicode tables and float parsing ([Unicode],
    [Normalization]), mime_guess and httpdate ([HttpLibs]), the url crate
    ([Urls]), serde_json ([Json], [SerdeJson], [JsonText], [TextJson],
    [JsonString], [SourceFormat], [SettingsFormat], [SnapshotFormat],
    [FloatText]), symphonia's
    and libvorbis' decoders ([Mpa], [FlacLib], [VorbisLib]), ffprobe and ffmpeg
    ([Tools]), the escapes of [{:?}] ([Debug]), the order of a [HashMap]
    ([HashOrder], [WalkOrder]), and the router, codecs and library lookups behind
    the gate. [FileSystem] is the file system below Managed Storage's root handle,
    [Host] what each operation meets (carried out, refused, its answer lost, the
    process ended) with the hash and the random names, [LibraryRows] the
    statements on the Library and the Import History (Catalog is such a Library). [AdaptiveWorld] and
    [FilesWorld] are what PipeWire and the disk answer the Desktop; its other
    calls (mpv, timers, output devices) are the constructors of [dcall], answered
    in any way [reply_ok] allows. What a search finds in the database is a
    function of the revision. A radio or External Source request gets the
    answers of the remote servers, of the yt-dlp process and of the clock at each
    [Moment] as arguments. What a theorem needs of one is a hypothesis (that an
    image library answers instead of panicking), and the witnesses instantiate
    each class.

    ** Not modelled

    Managed Import's plan, previews, the commit of a new Track and the batch
    service; the tables that only cascade with a deleted Track, and publishing
    its Queue invalidations; the station directory and the stations' table; the timings
    the External Source logs; configuration; owner access; library queries,
    covers, waveforms, lyrics, artist information, playlists, preferences: SQL,
    remote clients and HTTP glue with little logic of their own. Of the Desktop
    core, the bridge to the Electron shell, the media proxy, D-Bus and the
    observability layers. The TypeScript clients: another language. *)

From stdpp Require Export base tactics list gmap strings pretty.
From Stdlib Require Export ZArith Lia.
From Stdlib Require Strings.Ascii Strings.String.
From Stdlib Require Export Strings.Byte.

Open Scope Z_scope.

(** ** Outcomes

    A Rust function that can fail returns [Ok] or [Err]; one that can panic
    (an index out of bounds, a checked subtraction that underflows) can also
    end in [Panic]; a loop run with too little fuel ends in [OutOfFuel]. The
    theorems rule the last two out. *)
Inductive outcome (E A : Type) : Type :=
| Ok (a : A)
| Err (e : E)
| Panic
| OutOfFuel.
Arguments Ok {E A} a.
Arguments Err {E A} e.
Arguments Panic {E A}.
Arguments OutOfFuel {E A}.

#[export] Instance outcome_ret {E} : MRet (outcome E) := fun _ a => Ok a.
#[export] Instance outcome_bind {E} : MBind (outcome E) := fun _ _ f m =>
  match m with
  | Ok a => f a
  | Err e => Err e
  | Panic => Panic
  | OutOfFuel => OutOfFuel
  end.
#[export] Instance outcome_fmap {E} : FMap (outcome E) := fun _ _ f m =>
  match m with
  | Ok a => Ok (f a)
  | Err e => Err e
  | Panic => Panic
  | OutOfFuel => OutOfFuel
  end.

(** [Result::map_err]. *)
Definition map_err {E F A} (f : E → F) (m : outcome E A) : outcome F A :=
  match m with
  | Ok a => Ok a
  | Err e => Err (f e)
  | Panic => Panic
  | OutOfFuel => OutOfFuel
  end.

(** [Option::ok_or]. *)
Definition ok_or {E A} (o : option A) (e : E) : outcome E A :=
  match o with Some a => Ok a | None => Err e end.

(** [Result::ok] of an outcome that returned. *)
Definition ok_of {E A} (m : outcome E A) : option A :=
  match m with Ok a => Some a | _ => None end.

(** [Result::err]. *)
Definition err_of {E A} (m : outcome E A) : option E :=
  match m with Err e => Some e | _ => None end.

(** The call came back with a value or an error: no panic, no missing fuel. *)
Definition returns {E A} (m : outcome E A) : Prop :=
  match m with Ok _ | Err _ => True | Panic | OutOfFuel => False end.

#[export] Instance returns_dec {E A} (m : outcome E A) : Decision (returns m).
Proof. destruct m; simpl; apply _. Defined.

Lemma returns_bind {E A B} (m : outcome E A) (f : A → outcome E B) :
  returns m → (∀ a, m = Ok a → returns (f a)) → returns (m ≫= f).
Proof. destruct m; simpl; auto. Qed.

Lemma returns_map_err {E F A} (f : E → F) (m : outcome E A) :
  returns (map_err f m) ↔ returns m.
Proof. by destruct m. Qed.

Lemma returns_fmap {E A B} (f : A → B) (m : outcome E A) :
  returns (f <$> m) ↔ returns m.
Proof. by destruct m. Qed.

Lemma returns_ok_or {E A} (o : option A) (e : E) : returns (ok_or o e).
Proof. by destruct o. Qed.

Lemma bind_Ok {E A B} (m : outcome E A) (f : A → outcome E B) b :
  m ≫= f = Ok b ↔ ∃ a, m = Ok a ∧ f a = Ok b.
Proof.
  split; [|intros (a & -> & Hf); exact Hf].
  destruct m; simpl; intros H; try discriminate; eauto.
Qed.

Lemma ok_or_Ok {E A} (o : option A) (e : E) a : ok_or o e = Ok a ↔ o = Some a.
Proof. destruct o; simpl; split; congruence. Qed.

Lemma map_err_Ok {E F A} (f : E → F) (m : outcome E A) a :
  map_err f m = Ok a ↔ m = Ok a.
Proof. destruct m; simpl; split; congruence. Qed.

(** Peels the binds of a hypothesis [m ≫= f = Ok b]. *)
Ltac peel_binds :=
  repeat match goal with
  | H : mbind _ _ = Ok _ |- _ => apply bind_Ok in H as (? & ? & H)
  | H : ok_or _ _ = Ok _ |- _ => apply ok_or_Ok in H
  | H : map_err _ _ = Ok _ |- _ => apply map_err_Ok in H
  | H : Ok _ = Ok _ |- _ => injection H as H; try subst
  | H : Err _ = Ok _ |- _ => discriminate H
  | H : Panic = Ok _ |- _ => discriminate H
  | H : OutOfFuel = Ok _ |- _ => discriminate H
  | H : (match ?x with Some _ => _ | None => _ end) = Ok _ |- _ =>
      destruct x eqn:?
  | H : (if ?x then _ else _) = Ok _ |- _ => destruct x eqn:?
  end.

Create HintDb rust.
#[export] Hint Resolve returns_ok_or : rust.
#[export] Hint Extern 1 (returns (Ok _)) => exact I : rust.
#[export] Hint Extern 1 (returns (Err _)) => exact I : rust.
#[export] Hint Extern 1 (returns (mret _)) => exact I : rust.

(** ** Bytes, slices and byte-order decoding *)

#[export] Instance byte_eq_dec : EqDecision byte := Byte.byte_eq_dec.

Definition b2z (b : byte) : Z := Z.of_N (Byte.to_N b).
Definition z2b (z : Z) : byte := default x00 (Byte.of_N (Z.to_N (z mod 256))).

Lemma b2z_range b : 0 <= b2z b < 256.
Proof. unfold b2z. pose proof (Byte.to_N_bounded b). lia. Qed.

Lemma z2b_b2z b : z2b (b2z b) = b.
Proof.
  unfold z2b. rewrite Z.mod_small by apply b2z_range.
  unfold b2z. by rewrite N2Z.id, Byte.of_to_N.
Qed.

Lemma b2z_z2b z : b2z (z2b z) = z mod 256.
Proof.
  unfold z2b, b2z. pose proof (Z.mod_pos_bound z 256 ltac:(lia)) as Hr.
  destruct (Byte.of_N (Z.to_N (z mod 256))) as [b|] eqn:Hb; simpl.
  - apply Byte.to_of_N in Hb. rewrite Hb. lia.
  - apply Byte.of_N_None_iff in Hb. lia.
Qed.

Lemma b2z_inj a b : b2z a = b2z b → a = b.
Proof. intros H. by rewrite <-(z2b_b2z a), <-(z2b_b2z b), H. Qed.

(** The length of a slice as a [usize]. *)
Definition zlen {A} (l : list A) : Z := Z.of_nat (length l).

Lemma zlen_nonneg {A} (l : list A) : 0 <= zlen l.
Proof. unfold zlen. lia. Qed.

Lemma zlen_app {A} (l k : list A) : zlen (l ++ k) = zlen l + zlen k.
Proof. unfold zlen. rewrite length_app. lia. Qed.

Lemma zlen_cons {A} (x : A) (l : list A) : zlen (x :: l) = 1 + zlen l.
Proof. unfold zlen. simpl. lia. Qed.

(** The [n] elements from offset [a], clipped to the list. *)
Definition sub {A} (l : list A) (a n : Z) : list A :=
  take (Z.to_nat n) (drop (Z.to_nat a) l).

Lemma zlen_sub {A} (l : list A) a n :
  0 <= a → 0 <= n → a + n <= zlen l → zlen (sub l a n) = n.
Proof.
  unfold zlen, sub. intros. rewrite length_take, length_drop. lia.
Qed.

(** [&data[a..b]]: panics unless [a <= b <= data.len()]. *)
Definition slice {E A} (l : list A) (a b : Z) : outcome E (list A) :=
  if (0 <=? a) && (a <=? b) && (b <=? zlen l) then Ok (sub l a (b - a)) else Panic.

(** [&data[a..]]. *)
Definition slice_from {E A} (l : list A) (a : Z) : outcome E (list A) :=
  slice l a (zlen l).

(** [data[i]]. *)
Definition index {E A} (l : list A) (i : Z) : outcome E A :=
  if 0 <=? i then
    match l !! Z.to_nat i with Some x => Ok x | None => Panic end
  else Panic.

Lemma slice_in {E A} (l : list A) a b :
  0 <= a → a <= b → b <= zlen l → @slice E A l a b = Ok (sub l a (b - a)).
Proof.
  intros. unfold slice.
  by rewrite (proj2 (Z.leb_le 0 a)), (proj2 (Z.leb_le a b)), (proj2 (Z.leb_le b _)) by lia.
Qed.

Lemma returns_slice {E A} (l : list A) a b :
  0 <= a → a <= b → b <= zlen l → returns (@slice E A l a b).
Proof. intros. by rewrite slice_in. Qed.

Lemma slice_Ok {E A} (l : list A) a b r :
  @slice E A l a b = Ok r → 0 <= a ∧ a <= b ∧ b <= zlen l ∧ r = sub l a (b - a).
Proof.
  unfold slice. destruct (_ && _) eqn:Hc; [|discriminate].
  intros [= <-]. rewrite !andb_true_iff, !Z.leb_le in Hc. tauto.
Qed.

Lemma index_in {E A} (l : list A) i :
  0 <= i → i < zlen l → ∃ x, @index E A l i = Ok x ∧ l !! Z.to_nat i = Some x.
Proof.
  intros. unfold index, zlen in *. rewrite (proj2 (Z.leb_le 0 i)) by lia.
  destruct (lookup_lt_is_Some_2 l (Z.to_nat i)) as [x Hx]; [lia|].
  rewrite Hx. eauto.
Qed.

Lemma returns_index {E A} (l : list A) i :
  0 <= i → i < zlen l → returns (@index E A l i).
Proof. intros ? ?. by destruct (@index_in E A l i) as (x & -> & _). Qed.

(** [from_le_bytes] and [from_be_bytes] of a slice. *)
Fixpoint le (l : list byte) : Z :=
  match l with
  | [] => 0
  | b :: l => b2z b + 256 * le l
  end.

Definition be (l : list byte) : Z := foldl (λ v b, 256 * v + b2z b) 0 l.

(** [to_le_bytes] of an integer of [n] bytes. *)
Fixpoint to_le (n : nat) (z : Z) : list byte :=
  match n with
  | O => []
  | S n => z2b z :: to_le n (z / 256)
  end.

Lemma length_to_le n z : length (to_le n z) = n.
Proof. revert z. induction n; intros; simpl; auto. Qed.

Lemma le_bound l : 0 <= le l < 256 ^ zlen l.
Proof.
  induction l as [|b l IH]; simpl; [unfold zlen; simpl; lia|].
  rewrite zlen_cons, Z.pow_add_r by (pose proof (zlen_nonneg l); lia).
  pose proof (b2z_range b). lia.
Qed.

Lemma le_to_le n z : le (to_le n z) = z mod 256 ^ Z.of_nat n.
Proof.
  revert z. induction n as [|n IH]; intros z; simpl.
  - by rewrite Z.mod_1_r.
  - rewrite IH, b2z_z2b.
    replace (Z.of_nat (S n)) with (1 + Z.of_nat n) by lia.
    rewrite Z.pow_add_r, Z.pow_1_r by lia.
    rewrite (Z.rem_mul_r z 256) by lia. lia.
Qed.

Lemma be_snoc l b : be (l ++ [b]) = 256 * be l + b2z b.
Proof. unfold be. by rewrite foldl_app. Qed.

Lemma be_bound l : 0 <= be l < 256 ^ zlen l.
Proof.
  induction l as [|b l IH] using rev_ind; [unfold zlen; simpl; unfold be; simpl; lia|].
  rewrite be_snoc, zlen_app. change (zlen [b]) with 1.
  rewrite Z.pow_add_r, Z.pow_1_r by (pose proof (zlen_nonneg l); lia).
  pose proof (b2z_range b). lia.
Qed.

(** ** Text

    A Rust [String] is a sequence of Unicode scalar values. *)
Abbreviation str := (list Z).

(** Text and byte literals, for ASCII only. *)
Definition st (s : string) : str :=
  (λ a, Z.of_N (Ascii.N_of_ascii a)) <$> String.list_ascii_of_string s.
Definition bs (s : string) : list byte := String.list_byte_of_string s.
Arguments st _%_string_scope : simpl never.
Arguments bs _%_string_scope : simpl never.

(** ** Machine integers *)

Definition u32_max : Z := 2 ^ 32 - 1.
Definition u64_max : Z := 2 ^ 64 - 1.
Definition i64_max : Z := 2 ^ 63 - 1.
Definition i64_min : Z := - 2 ^ 63.

Definition is_i64 (z : Z) : Prop := i64_min <= z <= i64_max.
Definition is_u64 (z : Z) : Prop := 0 <= z <= u64_max.

(** [a - b] and [a + b] on [u64] or [usize]: an overflow panics. *)
Definition sub_u64 {E} (a b : Z) : outcome E Z := if a <? b then Panic else Ok (a - b).
Definition add_u64 {E} (a b : Z) : outcome E Z := if u64_max <? a + b then Panic else Ok (a + b).
Definition mul_u64 {E} (a b : Z) : outcome E Z := if u64_max <? a * b then Panic else Ok (a * b).
(** [a / b]: a division by zero panics. *)
Definition div_u64 {E} (a b : Z) : outcome E Z := if b =? 0 then Panic else Ok (a / b).

(** [a + b] and [a * b] on [i64]. *)
Definition add_i64 {E} (a b : Z) : outcome E Z := if (i64_min <=? a + b) && (a + b <=? i64_max) then Ok (a + b) else Panic.
Definition mul_i64 {E} (a b : Z) : outcome E Z := if (i64_min <=? a * b) && (a * b <=? i64_max) then Ok (a * b) else Panic.
Definition sub_i64 {E} (a b : Z) : outcome E Z := if (i64_min <=? a - b) && (a - b <=? i64_max) then Ok (a - b) else Panic.

Lemma sub_u64_Ok {E} a b : b <= a → @sub_u64 E a b = Ok (a - b).
Proof. intros. unfold sub_u64. by rewrite (proj2 (Z.ltb_ge a b)). Qed.
Lemma add_u64_Ok {E} a b : a + b <= u64_max → @add_u64 E a b = Ok (a + b).
Proof. intros. unfold add_u64. by rewrite (proj2 (Z.ltb_ge _ _)). Qed.
Lemma add_i64_Ok {E} a b : i64_min <= a + b <= i64_max → @add_i64 E a b = Ok (a + b).
Proof. intros ?. unfold add_i64. by rewrite (proj2 (Z.leb_le _ (a + b))), (proj2 (Z.leb_le (a + b) _)) by lia. Qed.
Lemma mul_i64_Ok {E} a b : i64_min <= a * b <= i64_max → @mul_i64 E a b = Ok (a * b).
Proof. intros ?. unfold mul_i64. by rewrite (proj2 (Z.leb_le _ (a * b))), (proj2 (Z.leb_le (a * b) _)) by lia. Qed.
Lemma sub_i64_Ok {E} a b : i64_min <= a - b <= i64_max → @sub_i64 E a b = Ok (a - b).
Proof. intros ?. unfold sub_i64. by rewrite (proj2 (Z.leb_le _ (a - b))), (proj2 (Z.leb_le (a - b) _)) by lia. Qed.
Lemma mul_u64_Ok {E} a b : a * b <= u64_max → @mul_u64 E a b = Ok (a * b).
Proof. intros. unfold mul_u64. by rewrite (proj2 (Z.ltb_ge _ _)). Qed.
Lemma div_u64_Ok {E} a b : b ≠ 0 → @div_u64 E a b = Ok (a / b).
Proof. intros. unfold div_u64. by rewrite (proj2 (Z.eqb_neq b 0)). Qed.

(** What the checked operations answer, on every operand. *)
Definition i64_result {E} (n : Z) (o : outcome E Z) : Prop :=
  match o with
  | Ok m => m = n ∧ i64_min <= n <= i64_max
  | Panic => n < i64_min ∨ i64_max < n
  | _ => False
  end.

Lemma i64_result_if {E} n : @i64_result E n (if (i64_min <=? n) && (n <=? i64_max) then Ok n else Panic).
Proof. destruct (Z.leb_spec i64_min n), (Z.leb_spec n i64_max); simpl; auto. Qed.

Lemma add_i64_cases {E} a b : @i64_result E (a + b) (add_i64 a b).
Proof. apply i64_result_if. Qed.
Lemma sub_i64_cases {E} a b : @i64_result E (a - b) (sub_i64 a b).
Proof. apply i64_result_if. Qed.
Lemma mul_i64_cases {E} a b : @i64_result E (a * b) (mul_i64 a b).
Proof. apply i64_result_if. Qed.
Lemma mul_u64_cases {E} a b :
  match @mul_u64 E a b with Ok n => n = a * b ∧ n <= u64_max | Panic => u64_max < a * b | _ => False end.
Proof. unfold mul_u64. by destruct (Z.ltb_spec u64_max (a * b)). Qed.

(** [as i64]. *)
Definition as_i64 (z : Z) : Z := (z + 2 ^ 63) mod 2 ^ 64 - 2 ^ 63.

Lemma as_i64_id z : is_i64 z → as_i64 z = z.
Proof. unfold is_i64, i64_min, i64_max, as_i64. intros. rewrite Z.mod_small; lia. Qed.

(** [saturating_add] and [saturating_sub] on [i64]. *)
Definition sat_i64 (z : Z) : Z := Z.max i64_min (Z.min i64_max z).

Lemma sat_i64_id z : is_i64 z → sat_i64 z = z.
Proof. unfold sat_i64, is_i64. lia. Qed.

Lemma sat_i64_range z : is_i64 (sat_i64 z).
Proof. unfold sat_i64, is_i64, i64_min, i64_max. lia. Qed.

(** Rewrites the boolean tests of the code into propositions. *)
Ltac bool_to_prop :=
  repeat match goal with
  | H : _ && _ = true |- _ => apply andb_true_iff in H as [? ?]
  | H : _ && _ = false |- _ => apply andb_false_iff in H
  | H : _ || _ = false |- _ => apply orb_false_iff in H as [? ?]
  | H : _ || _ = true |- _ => apply orb_true_iff in H
  | H : negb _ = true |- _ => apply negb_true_iff in H
  | H : negb _ = false |- _ => apply negb_false_iff in H
  | H : (_ <=? _) = true |- _ => apply Z.leb_le in H
  | H : (_ <=? _) = false |- _ => apply Z.leb_gt in H
  | H : (_ <? _) = true |- _ => apply Z.ltb_lt in H
  | H : (_ <? _) = false |- _ => apply Z.ltb_ge in H
  | H : (_ =? _) = true |- _ => apply Z.eqb_eq in H
  | H : (_ =? _) = false |- _ => apply Z.eqb_neq in H
  | H : bool_decide _ = true |- _ => apply bool_decide_eq_true in H
  | H : bool_decide _ = false |- _ => apply bool_decide_eq_false in H
  end.

(** ** State and failure

    A computation over a shared state of type [S] that can fail with [E]: what
    it changed before failing stays changed, as with a Rust [&mut] behind [?]. *)
Definition M (S E A : Type) : Type := S → outcome E A * S.

#[export] Instance M_ret {S E} : MRet (M S E) := fun _ a s => (Ok a, s).
#[export] Instance M_bind {S E} : MBind (M S E) := fun _ _ f m s =>
  match m s with
  | (Ok a, s') => f a s'
  | (Err e, s') => (Err e, s')
  | (Panic, s') => (Panic, s')
  | (OutOfFuel, s') => (OutOfFuel, s')
  end.

Definition get {S E} : M S E S := fun s => (Ok s, s).
Definition put {S E} (s : S) : M S E unit := fun _ => (Ok tt, s).
Definition modify {S E} (f : S → S) : M S E unit := fun s => (Ok tt, f s).
Definition fail {S E A} (e : E) : M S E A := fun s => (Err e, s).
(** A computation that does not touch the state. *)
Definition lift {S E A} (o : outcome E A) : M S E A := fun s => (o, s).
(** Runs [m] and hands its failure to the caller as a value. *)
Definition try {S E A} (m : M S E A) : M S E (outcome E A) := fun s =>
  match m s with
  | (Panic, s') => (Panic, s')
  | (OutOfFuel, s') => (OutOfFuel, s')
  | (o, s') => (Ok o, s')
  end.

(** [m] keeps [I] whatever way it ends, and ends in [Ok] or [Err]. *)
Definition preserves {S E A} (I : S → Prop) (m : M S E A) : Prop :=
  ∀ s, I s → I (m s).2 ∧ returns (m s).1.

Lemma preserves_ret {S E A} (I : S → Prop) (a : A) : preserves I (mret a : M S E A).
Proof. intros s Hs. done. Qed.

Lemma preserves_bind {S E A B} (I : S → Prop) (m : M S E A) (f : A → M S E B) :
  preserves I m → (∀ a, preserves I (f a)) → preserves I (m ≫= f).
Proof.
  intros Hm Hf s Hs. destruct (Hm s Hs) as [HI Hr].
  unfold mbind, M_bind. destruct (m s) as [[a|e| |] s'] eqn:Hms; simpl in *; try done.
  by apply Hf.
Qed.

Lemma preserves_fail {S E A} (I : S → Prop) (e : E) : preserves I (fail e : M S E A).
Proof. intros s Hs. done. Qed.

Lemma preserves_lift {S E A} (I : S → Prop) (o : outcome E A) :
  returns o → preserves I (lift o : M S E A).
Proof. intros Ho s Hs. done. Qed.

Lemma preserves_modify {S E} (I : S → Prop) (f : S → S) :
  (∀ s, I s → I (f s)) → preserves I (modify f : M S E unit).
Proof. intros Hf s Hs. split; [by apply Hf|done]. Qed.

#[export] Hint Resolve preserves_ret preserves_fail : rust.

(** Evaluates a computation of [M] on the state it is applied to. *)
Ltac run_m :=
  unfold mbind, M_bind, get, put, modify, fail, lift, mret, M_ret; simpl.
Tactic Notation "run_m" "in" hyp(H) :=
  unfold mbind, M_bind, get, put, modify, fail, lift, mret, M_ret in H; simpl in H.

(** What a successful computation did, step by step. *)
Lemma M_bind_Ok {S E A B} (m : M S E A) (f : A → M S E B) s b s' :
  (m ≫= f) s = (Ok b, s') ↔ ∃ a s1, m s = (Ok a, s1) ∧ f a s1 = (Ok b, s').
Proof.
  unfold mbind, M_bind. split.
  - destruct (m s) as [[a|e| |] s1]; try done. eauto.
  - intros (a & s1 & -> & Hf). exact Hf.
Qed.

(** Runs [m] with its errors passed through [f]. *)
Definition on_err {S E F A} (f : E → F) (m : M S E A) : M S F A := fun s =>
  let '(o, s') := m s in (map_err f o, s').

Lemma on_err_Ok {S E F A} (f : E → F) (m : M S E A) s a s' :
  on_err f m s = (Ok a, s') ↔ m s = (Ok a, s').
Proof. unfold on_err. destruct (m s) as [[] s1]; simpl; split; congruence. Qed.

Lemma preserves_on_err {S E F A} (I : S → Prop) (f : E → F) (m : M S E A) :
  preserves I m → preserves I (on_err f m).
Proof.
  intros Hm s Hs. destruct (Hm s Hs) as [HI Hr]. unfold on_err.
  destruct (m s) as [o s']. simpl in *. by rewrite returns_map_err.
Qed.

Lemma preserves_try {S E A} (I : S → Prop) (m : M S E A) : preserves I m → preserves I (try m).
Proof.
  intros Hm s Hs. destruct (Hm s Hs) as [HI Hr]. unfold try.
  by destruct (m s) as [[] s'].
Qed.

Lemma preserves_get {S E} (I : S → Prop) : preserves I (get : M S E S).
Proof. intros s Hs. by split. Qed.

(** A step whose value [f] needs a fact about: [P] holds of what [m] returns. *)
Lemma preserves_bind_with {S E A B} (I : S → Prop) (P : A → Prop) (m : M S E A) (f : A → M S E B) :
  preserves I m → (∀ s a s', I s → m s = (Ok a, s') → P a) →
  (∀ a, P a → preserves I (f a)) → preserves I (m ≫= f).
Proof.
  intros Hm HP Hf s Hs. destruct (Hm s Hs) as [HI Hr].
  unfold mbind, M_bind. destruct (m s) as [[a|e| |] s'] eqn:Hms; simpl in *; try done.
  apply Hf; [by apply (HP s a s')|done].
Qed.

#[export] Hint Resolve preserves_bind preserves_on_err preserves_try preserves_get : rust.

(** Splits what a successful computation did into its steps. *)
Ltac peel_m :=
  repeat match goal with
  | H : (_ ≫= _) _ = (Ok _, _) |- _ => apply M_bind_Ok in H as (? & ? & ? & H)
  | H : on_err _ _ _ = (Ok _, _) |- _ => apply on_err_Ok in H
  | H : get _ = (Ok _, _) |- _ => injection H as <- <-
  | H : mret _ _ = (Ok _, _) |- _ => injection H as H; try subst
  | H : fail _ _ = (Ok _, _) |- _ => discriminate H
  | H : (if ?x then _ else _) _ = (Ok _, _) |- _ => destruct x eqn:?
  | H : (match ?x with Some _ => _ | None => _ end) _ = (Ok _, _) |- _ => destruct x eqn:?
  end.

(** Adjacent parts of a list. *)
Lemma sub_app {A} (l : list A) a n m : 0 <= a → 0 <= n → 0 <= m →
  sub l a n ++ sub l (a + n) m = sub l a (n + m).
Proof.
  intros. unfold sub. rewrite !Z2Nat.inj_add by lia. rewrite <-drop_drop.
  apply take_take_drop.
Qed.

Lemma sub_sub {A} (l : list A) a n b m : 0 <= a → 0 <= b → 0 <= m → b + m <= n →
  sub (sub l a n) b m = sub l (a + b) m.
Proof.
  intros. unfold sub. rewrite skipn_firstn_comm, take_take, drop_drop.
  f_equal; [lia|f_equal; lia].
Qed.

Lemma sub_whole {A} (l : list A) : sub l 0 (zlen l) = l.
Proof. unfold sub, zlen. rewrite Nat2Z.id. simpl. rewrite drop_0. apply firstn_all. Qed.

Lemma sub_le {A} (l : list A) a n : zlen (sub l a n) <= Z.max 0 n.
Proof. unfold sub, zlen. rewrite length_take. lia. Qed.

(** ** Parts of a concatenation *)

Lemma slice_app {E A} (pre a post : list A) n : n = zlen pre →
  @slice E A (pre ++ a ++ post) n (n + zlen a) = Ok a.
Proof.
  intros ->. pose proof (zlen_nonneg pre). pose proof (zlen_nonneg a). pose proof (zlen_nonneg post).
  rewrite slice_in by (rewrite ?zlen_app; lia). f_equal. unfold sub, zlen.
  replace (Z.to_nat (Z.of_nat (length pre) + Z.of_nat (length a) - Z.of_nat (length pre)))
    with (length a) by lia.
  rewrite Nat2Z.id, drop_app_length. by rewrite take_app_length.
Qed.

Lemma slice_from_app {E A} (pre post : list A) n : n = zlen pre →
  @slice_from E A (pre ++ post) n = Ok post.
Proof.
  intros ->. unfold slice_from. rewrite zlen_app.
  pose proof (slice_app (E:=E) pre post [] (zlen pre) eq_refl) as H. by rewrite app_nil_r in H.
Qed.

Lemma slice_from_in {E A} (l : list A) a :
  0 <= a → a <= zlen l → ∃ r, @slice_from E A l a = Ok r ∧ zlen r = zlen l - a.
Proof.
  intros. unfold slice_from. rewrite slice_in by lia. eexists. split; [done|].
  apply zlen_sub; lia.
Qed.

Lemma slice_total {E A} (l : list A) a b :
  0 <= a → a <= b → b <= zlen l → ∃ r, @slice E A l a b = Ok r ∧ zlen r = b - a.
Proof. intros. rewrite slice_in by lia. eexists. split; [done|]. apply zlen_sub; lia. Qed.

(** Big-endian is little-endian backwards. *)
Lemma be_le_reverse l : be l = le (reverse l).
Proof.
  induction l as [|b l IH] using rev_ind; [done|].
  rewrite be_snoc, reverse_snoc. simpl. lia.
Qed.

Definition to_be (n : nat) (z : Z) : list byte := reverse (to_le n z).

Lemma be_to_be n z : be (to_be n z) = z mod 256 ^ Z.of_nat n.
Proof. unfold to_be. by rewrite be_le_reverse, reverse_involutive, le_to_le. Qed.

Lemma length_to_be n z : length (to_be n z) = n.
Proof. unfold to_be. by rewrite length_reverse, length_to_le. Qed.

(** The value of a computation that succeeds, in part. *)
Lemma Ok_part {S E A B} (f : A → B) (r : outcome E A * S) b :
  option_map f (ok_of r.1) = Some b → ∃ a s, r = (Ok a, s) ∧ f a = b.
Proof. destruct r as [[a|e| |] s]; try discriminate. intros E'. injection E' as <-. by exists a, s. Defined.
