(* ===== verification/Crash.v ===== *)
(** Reasoning about computations that can stop anywhere. A [Panic] outcome of a
    computation over durable state is the process ending at that point, killed
    or panicking; what it had written stays. [wp m Q X C s] says that [m], run
    from [s], ends: with a value in [Q], with an error in [X], or stopped in
    [C], the crash condition. *)

From S2P Require Import Prelude.

Section Crash.
Context {S E : Type}.

Definition wp {A} (m : M S E A) (Q : A → S → Prop) (X : E → S → Prop) (C : S → Prop)
    (s : S) : Prop :=
  match m s with
  | (Ok a, s') => Q a s'
  | (Err e, s') => X e s'
  | (Panic, s') => C s'
  | (OutOfFuel, _) => False
  end.

Lemma wp_ret {A} (a : A) (Q : A → S → Prop) X C s : Q a s → wp (mret a : M S E A) Q X C s.
Proof. done. Qed.

Lemma wp_fail {A} e (Q : A → S → Prop) (X : E → S → Prop) C s : X e s → wp (fail e : M S E A) Q X C s.
Proof. done. Qed.

Lemma wp_bind {A B} (m : M S E A) (f : A → M S E B) Q X C s :
  wp m (λ a, wp (f a) Q X C) X C s → wp (m ≫= f) Q X C s.
Proof. unfold wp, mbind, M_bind. by destruct (m s) as [[] ?]. Qed.

Lemma wp_conseq {A} (m : M S E A) (Q Q' : A → S → Prop) (X X' : E → S → Prop) (C C' : S → Prop) s :
  wp m Q X C s → (∀ a s, Q a s → Q' a s) → (∀ e s, X e s → X' e s) → (∀ s, C s → C' s) →
  wp m Q' X' C' s.
Proof. unfold wp. destruct (m s) as [[] ?]; auto. Qed.

Lemma wp_and {A} (m : M S E A) (Q Q' : A → S → Prop) (X X' : E → S → Prop) (C C' : S → Prop) s :
  wp m Q X C s → wp m Q' X' C' s →
  wp m (λ a s, Q a s ∧ Q' a s) (λ e s, X e s ∧ X' e s) (λ s, C s ∧ C' s) s.
Proof. unfold wp. destruct (m s) as [[] ?]; auto. Qed.

Lemma wp_try {A} (m : M S E A) (Q : outcome E A → S → Prop) X C s :
  wp m (λ a, Q (Ok a)) (λ e, Q (Err e)) C s → wp (try m) Q X C s.
Proof. unfold wp, try. by destruct (m s) as [[] ?]. Qed.

Lemma wp_lift {A} (o : outcome E A) (Q : A → S → Prop) (X : E → S → Prop) (C : S → Prop) s :
  match o with Ok a => Q a s | Err e => X e s | Panic => C s | OutOfFuel => False end →
  wp (lift o) Q X C s.
Proof. unfold wp, lift. by destruct o. Qed.

Lemma wp_if {A} (b : bool) (m n : M S E A) Q X C s :
  (b = true → wp m Q X C s) → (b = false → wp n Q X C s) → wp (if b then m else n) Q X C s.
Proof. destruct b; auto. Qed.

(** [I] holds wherever the computation ends or stops. *)
Definition always {A} (I : S → Prop) (m : M S E A) : Prop :=
  ∀ s, I s → wp m (λ _, I) (λ _, I) I s.

Lemma always_ret {A} (I : S → Prop) (a : A) : always I (mret a : M S E A).
Proof. intros s Hs. exact Hs. Qed.

Lemma always_fail {A} (I : S → Prop) (e : E) : always I (fail e : M S E A).
Proof. intros s Hs. exact Hs. Qed.

Lemma always_bind {A B} (I : S → Prop) (m : M S E A) (f : A → M S E B) :
  always I m → (∀ a, always I (f a)) → always I (m ≫= f).
Proof.
  intros Hm Hf s Hs. apply wp_bind. eapply wp_conseq; [by apply Hm|..]; [apply Hf|done..].
Qed.

Lemma always_try {A} (I : S → Prop) (m : M S E A) : always I m → always I (try m).
Proof. intros Hm s Hs. apply wp_try. by apply Hm. Qed.
End Crash.

Lemma wp_on_err {S E F A} (f : E → F) (m : M S E A) (Q : A → S → Prop) (X : F → S → Prop) C s :
  wp m Q (λ e, X (f e)) C s → wp (on_err f m) Q X C s.
Proof. unfold wp, on_err. by destruct (m s) as [[] ?]. Qed.

Lemma always_on_err {S E F A} (f : E → F) (I : S → Prop) (m : M S E A) :
  always I m → always I (on_err f m).
Proof. intros Hm s Hs. apply wp_on_err. by apply Hm. Qed.

#[export] Hint Resolve always_ret always_fail always_bind always_try always_on_err : rust.
