(* ===== verification/Text.v ===== *)
(** Rust's [str] operations on sequences of Unicode scalar values: whitespace
    and control classes, trimming, splitting, searching, integer parsing, and
    the UTF-8 coding that gives byte lengths and byte offsets. *)

From S2P Require Import Prelude.

Definition in_range (lo hi c : Z) : bool := (lo <=? c) && (c <=? hi).

(** [char::is_whitespace]: the White_Space property. *)
Definition is_whitespace (c : Z) : bool :=
  in_range 9 13 c || (c =? 32) || (c =? 133) || (c =? 160) || (c =? 5760) ||
  in_range 8192 8202 c || (c =? 8232) || (c =? 8233) || (c =? 8239) ||
  (c =? 8287) || (c =? 12288).

(** [char::is_control]: general category Cc. *)
Definition is_control (c : Z) : bool := in_range 0 31 c || in_range 127 159 c.

Definition is_digit (c : Z) : bool := in_range 48 57 c.

(** [char::to_ascii_lowercase]. *)
Definition ascii_lower (c : Z) : Z := if in_range 65 90 c then c + 32 else c.

(** ** Trimming *)

Fixpoint trim_start (p : Z → bool) (s : str) : str :=
  match s with
  | [] => []
  | c :: s' => if p c then trim_start p s' else s
  end.

Definition trim_end (p : Z → bool) (s : str) : str := reverse (trim_start p (reverse s)).

(** [str::trim_matches]; [str::trim] is the case of whitespace. *)
Definition trim_matches (p : Z → bool) (s : str) : str := trim_end p (trim_start p s).
Definition trim (s : str) : str := trim_matches is_whitespace s.

(** ** Prefixes and suffixes *)

Fixpoint strip_prefix (pre s : str) : option str :=
  match pre, s with
  | [], _ => Some s
  | p :: pre', c :: s' => if p =? c then strip_prefix pre' s' else None
  | _, [] => None
  end.

Definition starts_with (pre s : str) : bool := bool_decide (is_Some (strip_prefix pre s)).

Definition strip_suffix (suf s : str) : option str :=
  reverse <$> strip_prefix (reverse suf) (reverse s).

(** ** Splitting *)

(** [str::split] on a class of characters: always at least one part. *)
Fixpoint split (p : Z → bool) (s : str) : list str :=
  match s with
  | [] => [[]]
  | c :: s' =>
      if p c then [] :: split p s'
      else match split p s' with
           | [] => [[c]]
           | w :: ws => (c :: w) :: ws
           end
  end.

(** [str::split_once] on one character. *)
Fixpoint split_once (sep : Z) (s : str) : option (str * str) :=
  match s with
  | [] => None
  | c :: s' =>
      if c =? sep then Some ([], s')
      else match split_once sep s' with
           | Some (a, b) => Some (c :: a, b)
           | None => None
           end
  end.

(** [str::split_once] on a string pattern. *)
Fixpoint split_once_str (pat s : str) : option (str * str) :=
  match strip_prefix pat s with
  | Some rest => Some ([], rest)
  | None =>
      match s with
      | [] => None
      | c :: s' =>
          match split_once_str pat s' with
          | Some (a, b) => Some (c :: a, b)
          | None => None
          end
      end
  end.

(** [str::contains] a string. *)
Definition contains (pat s : str) : bool := bool_decide (is_Some (split_once_str pat s)).

(** [str::lines]: the text between line feeds, without a carriage return before
    one, and without an empty last line. *)
Fixpoint chomp_lines (ws : list str) : list str :=
  match ws with
  | [] => []
  | [w] => if bool_decide (w = []) then [] else [w]
  | w :: ws => default w (strip_suffix [13] w) :: chomp_lines ws
  end.
Definition lines (s : str) : list str := chomp_lines (split (Z.eqb 10) s).

(** [str]'s order: by bytes, which for UTF-8 is by scalar values. *)
Fixpoint str_leb (a b : str) : bool :=
  match a, b with
  | [], _ => true
  | _, [] => false
  | x :: a, y :: b => if x =? y then str_leb a b else x <? y
  end.

Definition str_le (a b : str) : Prop := str_leb a b = true.
#[export] Instance str_le_dec : RelDecision str_le.
Proof. intros a b. unfold str_le. apply _. Defined.

(** [str::split_whitespace]: the non-empty runs between whitespace. *)
Definition split_whitespace (s : str) : list str :=
  filter (λ w, w ≠ []) (split is_whitespace s).

(** [slice::join] with a separator. *)
Fixpoint join (sep : str) (ws : list str) : str :=
  match ws with
  | [] => []
  | [w] => w
  | w :: ws' => w ++ sep ++ join sep ws'
  end.

(** [str::replace] of a pattern by a string, left to right; the fuel is the
    length of the text, which every step shortens for a non-empty pattern. *)
Fixpoint replace_fuel (fuel : nat) (pat by_ s : str) : str :=
  match fuel with
  | O => s
  | S fuel =>
      match split_once_str pat s with
      | None => s
      | Some (a, b) => a ++ by_ ++ replace_fuel fuel pat by_ b
      end
  end.
Definition replace (pat by_ s : str) : str := replace_fuel (length s) pat by_ s.

(** [str::replacen(c, by, 1)] for one character. *)
Definition replace_first (c : Z) (by_ s : str) : str :=
  match split_once c s with
  | None => s
  | Some (a, b) => a ++ by_ ++ b
  end.

(** [str::rfind] of a class: what precedes the last match, and the match with
    what follows it. *)
Fixpoint rsplit_at (p : Z → bool) (s : str) : option (str * str) :=
  match s with
  | [] => None
  | c :: s' =>
      match rsplit_at p s' with
      | Some (a, b) => Some (c :: a, b)
      | None => if p c then Some ([], s) else None
      end
  end.

(** Rust's [{:?}] of a string, whose escapes follow Unicode's tables. *)
Class Debug := { debug_str : str → str }.

(** One that escapes nothing, for the examples. *)
Definition plain_debug : Debug := {| debug_str := λ s, s |}.

(** ** UTF-8 *)

Definition utf8_width (c : Z) : Z :=
  if c <? 128 then 1 else if c <? 2048 then 2 else if c <? 65536 then 3 else 4.

(** [str::len]: the length in bytes. *)
Definition str_len (s : str) : Z := foldr (λ c n, utf8_width c + n) 0 s.

Definition encode_char (c : Z) : list byte :=
  if c <? 128 then [z2b c]
  else if c <? 2048 then [z2b (192 + c / 64); z2b (128 + c mod 64)]
  else if c <? 65536 then
    [z2b (224 + c / 4096); z2b (128 + c / 64 mod 64); z2b (128 + c mod 64)]
  else
    [z2b (240 + c / 262144); z2b (128 + c / 4096 mod 64);
     z2b (128 + c / 64 mod 64); z2b (128 + c mod 64)].

(** [str::as_bytes]. *)
Definition encode (s : str) : list byte := s ≫= encode_char.

Definition is_cont (b : Z) : bool := in_range 128 191 b.

(** One step of Rust's UTF-8 validation ([core::str::lossy]): the scalar and its
    width, or the number of bytes of the maximal invalid prefix. *)
Definition decode_char (d : list byte) : option (Z * nat + nat) :=
  match b2z <$> d with
  | [] => None
  | b0 :: rest =>
      let b n := nth n rest (-1) in
      Some (
      if b0 <? 128 then inl (b0, 1%nat)
      else if in_range 194 223 b0 then
        if is_cont (b 0%nat) then inl ((b0 - 192) * 64 + (b 0%nat - 128), 2%nat)
        else inr 1%nat
      else if in_range 224 239 b0 then
        let second_ok :=
          if b0 =? 224 then in_range 160 191 (b 0%nat)
          else if b0 =? 237 then in_range 128 159 (b 0%nat)
          else is_cont (b 0%nat) in
        if negb second_ok then inr 1%nat
        else if negb (is_cont (b 1%nat)) then inr 2%nat
        else inl ((b0 - 224) * 4096 + (b 0%nat - 128) * 64 + (b 1%nat - 128), 3%nat)
      else if in_range 240 244 b0 then
        let second_ok :=
          if b0 =? 240 then in_range 144 191 (b 0%nat)
          else if b0 =? 244 then in_range 128 143 (b 0%nat)
          else is_cont (b 0%nat) in
        if negb second_ok then inr 1%nat
        else if negb (is_cont (b 1%nat)) then inr 2%nat
        else if negb (is_cont (b 2%nat)) then inr 3%nat
        else inl ((b0 - 240) * 262144 + (b 0%nat - 128) * 4096 +
                  (b 1%nat - 128) * 64 + (b 2%nat - 128), 4%nat)
      else inr 1%nat)
  end.

(** Walks the bytes; every step consumes at least one. *)
Fixpoint decode_fuel (fuel : nat) (d : list byte) : list (option Z) :=
  match fuel with
  | O => []
  | S fuel =>
      match decode_char d with
      | None => []
      | Some (inl (c, n)) => Some c :: decode_fuel fuel (drop n d)
      | Some (inr n) => None :: decode_fuel fuel (drop n d)
      end
  end.

(** The text of [d], with [None] for each maximal invalid sequence. *)
Definition decode (d : list byte) : list (option Z) := decode_fuel (length d) d.

(** [std::str::from_utf8]. *)
Definition from_utf8 (d : list byte) : option str := mapM id (decode d).

Definition REPLACEMENT_CHARACTER : Z := 65533.

(** [String::from_utf8_lossy]. *)
Definition from_utf8_lossy (d : list byte) : str :=
  default REPLACEMENT_CHARACTER <$> decode d.

(** ** Integers *)

Definition all_digits (s : str) : bool := forallb is_digit s.

Definition digits_value (s : str) : Z := foldl (λ v c, 10 * v + (c - 48)) 0 s.

(** An optional leading sign: whether it is a minus, and the rest. *)
Definition split_sign (s : str) : bool * str :=
  match s with
  | c :: d => if c =? 43 then (false, d) else if c =? 45 then (true, d) else (false, s)
  | [] => (false, s)
  end.

(** [str::parse::<i64>]: an optional sign, then digits, within range. *)
Definition parse_i64 (s : str) : option Z :=
  let '(neg, digits) := split_sign s in
  if bool_decide (digits = []) || negb (all_digits digits) then None
  else
    let v := if neg : bool then - digits_value digits else digits_value digits in
    if (i64_min <=? v) && (v <=? i64_max) then Some v else None.

(** [str::parse::<u64>]: an optional plus, then digits, within range. *)
Definition parse_u64 (s : str) : option Z :=
  let digits := default s (strip_prefix [43] s) in
  if bool_decide (digits = []) || negb (all_digits digits) then None
  else if digits_value digits <=? u64_max then Some (digits_value digits) else None.

(** The decimal digits of a non-negative number, least significant first. *)
Fixpoint show_rev (fuel : nat) (n : Z) : str :=
  match fuel with
  | O => []
  | S fuel => 48 + n mod 10 :: (if n <? 10 then [] else show_rev fuel (n / 10))
  end.

(** [format!("{n}")]: as many digits as binary digits are enough fuel. *)
Definition show_nonneg (n : Z) : str := reverse (show_rev (S (Z.to_nat (Z.log2 n))) n).
Definition show (n : Z) : str :=
  if n <? 0 then 45 :: show_nonneg (- n) else show_nonneg n.

(** ** Lemmas *)

Lemma trim_start_suffix p s : ∃ pre, s = pre ++ trim_start p s ∧ forallb p pre = true.
Proof.
  induction s as [|c s IH]; simpl; [by exists []|].
  destruct (p c) eqn:Hc; [|by exists []].
  destruct IH as (pre & Hs & Hp). exists (c :: pre). simpl. rewrite Hc. by rewrite Hs at 1.
Qed.

Lemma trim_start_head p s c s' : trim_start p s = c :: s' → p c = false.
Proof.
  induction s as [|d s IH]; simpl; [done|]. destruct (p d) eqn:Hd; [auto|congruence].
Qed.

Lemma trim_start_le p s : (length (trim_start p s) <= length s)%nat.
Proof.
  destruct (trim_start_suffix p s) as (pre & Hs & _). rewrite Hs at 2.
  rewrite length_app. lia.
Qed.

Lemma trim_end_le p s : (length (trim_end p s) <= length s)%nat.
Proof.
  unfold trim_end. rewrite length_reverse.
  etransitivity; [apply trim_start_le|]. by rewrite length_reverse.
Qed.

Lemma trim_matches_le p s : (length (trim_matches p s) <= length s)%nat.
Proof. etransitivity; [apply trim_end_le|apply trim_start_le]. Qed.

Lemma trim_start_id p s : (∀ c s', s = c :: s' → p c = false) → trim_start p s = s.
Proof. destruct s as [|c s]; [done|]. intros H. simpl. by rewrite (H c s). Qed.

Lemma trim_end_snoc_id p s c : p c = false → trim_end p (s ++ [c]) = s ++ [c].
Proof.
  intros Hc. unfold trim_end. rewrite reverse_snoc. simpl. rewrite Hc.
  by rewrite <-reverse_snoc, reverse_involutive.
Qed.

Lemma strip_prefix_Some pre s rest : strip_prefix pre s = Some rest ↔ s = pre ++ rest.
Proof.
  revert s. induction pre as [|p pre IH]; intros s; simpl; [split; congruence|].
  destruct s as [|c s]; [done|]. destruct (p =? c) eqn:Hpc; bool_to_prop.
  - subst. rewrite IH. split; congruence.
  - split; congruence.
Qed.

Lemma starts_with_iff pre s : starts_with pre s = true ↔ ∃ rest, s = pre ++ rest.
Proof. unfold starts_with. rewrite bool_decide_eq_true. unfold is_Some. by setoid_rewrite strip_prefix_Some. Qed.

Lemma strip_suffix_Some suf s rest : strip_suffix suf s = Some rest ↔ s = rest ++ suf.
Proof.
  unfold strip_suffix. rewrite fmap_Some. setoid_rewrite strip_prefix_Some. split.
  - intros (x & Hx & ->). apply (f_equal reverse) in Hx.
    by rewrite reverse_involutive, reverse_app, reverse_involutive in Hx.
  - intros ->. exists (reverse rest). by rewrite reverse_app, reverse_involutive.
Qed.

Lemma split_once_Some sep s a b :
  split_once sep s = Some (a, b) ↔ s = a ++ sep :: b ∧ sep ∉ a.
Proof.
  revert a. induction s as [|c s IH]; intros a; simpl.
  { split; [done|]. intros [H _]. by destruct a. }
  destruct (c =? sep) eqn:Hc; bool_to_prop.
  - subst. split.
    + intros [= <- <-]. split; [done|]. apply not_elem_of_nil.
    + intros [H Hn]. destruct a as [|x a]; simplify_eq/=; [done|].
      by destruct Hn; left.
  - destruct (split_once sep s) as [[a' b']|] eqn:Hs.
    + split.
      * intros [= <- <-]. destruct (proj1 (IH a') eq_refl) as [-> Hn]. split; [done|].
        apply not_elem_of_cons. split; [congruence|done].
      * intros [H Hn]. destruct a as [|x a]; simplify_eq/=.
        apply not_elem_of_cons in Hn as [? Hn].
        pose proof (proj2 (IH a) (conj eq_refl Hn)). by simplify_eq.
    + split; [done|]. intros [H Hn]. destruct a as [|x a]; simplify_eq/=.
      apply not_elem_of_cons in Hn as [? Hn].
      by pose proof (proj2 (IH a) (conj eq_refl Hn)).
Qed.

Lemma split_once_None sep s : split_once sep s = None ↔ sep ∉ s.
Proof.
  split.
  - intros H (a & b & -> & Hn)%list_elem_of_split_l.
    rewrite (proj2 (split_once_Some sep _ a b)) in H; done.
  - intros Hn. destruct (split_once sep s) as [[a b]|] eqn:Hs; [|done].
    apply split_once_Some in Hs as [-> _]. destruct Hn.
    apply elem_of_app. right. left.
Qed.

Lemma split_ne p s : split p s ≠ [].
Proof. destruct s; simpl; [done|]. repeat case_match; done. Qed.

Lemma str_len_nonneg s : 0 <= str_len s.
Proof.
  induction s as [|c s IH]; simpl; [lia|]. unfold utf8_width. repeat case_match; lia.
Qed.

Lemma digits_value_snoc s c : digits_value (s ++ [c]) = 10 * digits_value s + (c - 48).
Proof. unfold digits_value. by rewrite foldl_app. Qed.

Lemma digits_value_nonneg s : all_digits s = true → 0 <= digits_value s.
Proof.
  unfold all_digits. induction s as [|c s IH] using rev_ind; [done|].
  rewrite forallb_app, digits_value_snoc. simpl. intros. bool_to_prop.
  unfold is_digit, in_range in *. bool_to_prop. specialize (IH ltac:(done)). lia.
Qed.

Lemma digits_value_reverse_cons c s :
  digits_value (reverse (c :: s)) = 10 * digits_value (reverse s) + (c - 48).
Proof. by rewrite reverse_cons, digits_value_snoc. Qed.

Lemma show_rev_value fuel n :
  0 <= n < 2 ^ Z.of_nat fuel → digits_value (reverse (show_rev fuel n)) = n.
Proof.
  revert n. induction fuel as [|fuel IH]; intros n Hn; [simpl in *; unfold digits_value; simpl; lia|].
  rewrite Nat2Z.inj_succ, Z.pow_succ_r in Hn by lia. cbn [show_rev].
  rewrite digits_value_reverse_cons. destruct (n <? 10) eqn:Hs; bool_to_prop.
  - change (digits_value (reverse [])) with 0. Z.div_mod_to_equations; lia.
  - rewrite IH; [|split; [apply Z.div_pos; lia|apply Z.div_lt_upper_bound; lia]].
    pose proof (Z.div_mod n 10). lia.
Qed.

Lemma show_rev_digits fuel n : 0 <= n → all_digits (show_rev fuel n) = true.
Proof.
  revert n. induction fuel as [|fuel IH]; intros n Hn; [done|].
  cbn [show_rev all_digits forallb]. apply andb_true_iff. split.
  - pose proof (Z.mod_pos_bound n 10 ltac:(lia)). unfold is_digit, in_range.
    apply andb_true_iff. split; apply Z.leb_le; lia.
  - case_match; [done|]. apply IH, Z.div_pos; lia.
Qed.

Lemma all_digits_reverse s : all_digits (reverse s) = all_digits s.
Proof.
  apply eq_bool_prop_intro. unfold all_digits.
  rewrite !Is_true_true, !forallb_forall. split; intros H x Hx; apply H;
    rewrite <-list_elem_of_In in *; by apply elem_of_reverse.
Qed.

Lemma show_nonneg_digits n : 0 <= n → all_digits (show_nonneg n) = true.
Proof. intros. unfold show_nonneg. rewrite all_digits_reverse. by apply show_rev_digits. Qed.

Lemma show_nonneg_value n : 0 <= n → digits_value (show_nonneg n) = n.
Proof.
  intros Hn. unfold show_nonneg. apply show_rev_value. split; [done|].
  rewrite Nat2Z.inj_succ, Z2Nat.id by apply Z.log2_nonneg.
  destruct (decide (n = 0)) as [->|]; [done|]. apply Z.log2_spec. lia.
Qed.

Lemma show_nonneg_not_nil n : show_nonneg n ≠ [].
Proof.
  unfold show_nonneg. cbn [show_rev]. rewrite reverse_cons. by intros []%app_nil.
Qed.

Lemma split_sign_digits s : all_digits s = true → split_sign s = (false, s).
Proof.
  destruct s as [|c s]; [done|]. simpl. intros Hd. bool_to_prop.
  unfold is_digit, in_range in *. bool_to_prop.
  by rewrite (proj2 (Z.eqb_neq c 43)), (proj2 (Z.eqb_neq c 45)) by lia.
Qed.

(** Printing and parsing an [i64] agree. *)
Lemma parse_show n : is_i64 n → parse_i64 (show n) = Some n.
Proof.
  intros Hn. unfold parse_i64, show.
  assert (Hin : (i64_min <=? n) && (n <=? i64_max) = true).
  { apply andb_true_iff; rewrite !Z.leb_le. exact Hn. }
  destruct (Z.ltb_spec n 0) as [Hneg|Hneg].
  - cbn [split_sign]. rewrite Z.eqb_refl. simpl.
    rewrite bool_decide_eq_false_2 by apply show_nonneg_not_nil.
    rewrite show_nonneg_digits, show_nonneg_value by lia. simpl.
    by rewrite Z.opp_involutive, Hin.
  - rewrite split_sign_digits by (by apply show_nonneg_digits).
    rewrite bool_decide_eq_false_2 by apply show_nonneg_not_nil.
    rewrite show_nonneg_digits, show_nonneg_value by lia. simpl. by rewrite Hin.
Qed.

(** ** Searching and trimming text of a known shape *)

Lemma all_digits_elem s c : all_digits s = true → c ∈ s → is_digit c = true.
Proof.
  unfold all_digits. rewrite forallb_forall. intros H Hc.
  by apply H, list_elem_of_In.
Qed.

Lemma digit_class c : is_digit c = true →
  48 <= c <= 57 ∧ is_whitespace c = false ∧ utf8_width c = 1.
Proof.
  unfold is_digit, in_range. intros Hd. bool_to_prop. split; [lia|].
  unfold is_whitespace, in_range, utf8_width.
  repeat match goal with |- context [?a <=? ?b] => destruct (Z.leb_spec a b); try lia end;
  repeat match goal with |- context [?a =? ?b] => destruct (Z.eqb_spec a b); try lia end;
  repeat match goal with |- context [?a <? ?b] => destruct (Z.ltb_spec a b); try lia end; done.
Qed.

Lemma trim_end_id p s c : last s = Some c → p c = false → trim_end p s = s.
Proof.
  intros (s' & ->)%last_Some Hc. by apply trim_end_snoc_id.
Qed.

Lemma trim_id s : (∀ c, c ∈ s → is_whitespace c = false) → trim s = s.
Proof.
  intros H. unfold trim, trim_matches. rewrite trim_start_id.
  - destruct (last s) as [c|] eqn:Hl.
    + apply (trim_end_id _ _ c); [done|]. apply H. apply last_Some in Hl as [s' ->].
      apply elem_of_app. right. by left.
    + apply last_None in Hl as ->. done.
  - intros c s' ->. apply H. by left.
Qed.

Lemma trim_end_cons p c s :
  p c = false → trim_end p (c :: s) = c :: trim_end p s.
Proof.
  intros Hc. unfold trim_end. rewrite reverse_cons.
  assert (∀ l, trim_start p (l ++ [c]) = trim_start p l ++ [c]) as ->.
  { induction l as [|x l IH]; simpl; [by rewrite Hc|]. by destruct (p x). }
  by rewrite reverse_snoc.
Qed.

Lemma trim_end_prefix p s : ∃ suf, s = trim_end p s ++ suf ∧ forallb p suf = true.
Proof.
  destruct (trim_start_suffix p (reverse s)) as (pre & Hs & Hp).
  exists (reverse pre). split.
  - unfold trim_end. by rewrite <-reverse_app, <-Hs, reverse_involutive.
  - rewrite forallb_forall in *. intros x Hx. apply Hp.
    rewrite <-list_elem_of_In in Hx |- *. by rewrite elem_of_reverse in Hx.
Qed.

Lemma trim_start_idemp p s : trim_start p (trim_start p s) = trim_start p s.
Proof. apply trim_start_id. intros c s' H. by eapply trim_start_head. Qed.

Lemma trim_end_idemp p s : trim_end p (trim_end p s) = trim_end p s.
Proof. unfold trim_end. by rewrite reverse_involutive, trim_start_idemp. Qed.

Lemma rsplit_at_last p a c b :
  p c = true → (∀ x, x ∈ b → p x = false) → rsplit_at p (a ++ c :: b) = Some (a, c :: b).
Proof.
  intros Hc Hb. induction a as [|x a IH]; simpl; [|by rewrite IH].
  assert (rsplit_at p b = None) as ->; [|by rewrite Hc].
  induction b as [|y b IHb]; [done|]. simpl. rewrite IHb.
  - rewrite Hb; [done|]. by left.
  - intros x Hx. apply Hb. by right.
Qed.

Lemma replace_first_app c by_ a b :
  c ∉ a → replace_first c by_ (a ++ c :: b) = a ++ by_ ++ b.
Proof. intros Hc. unfold replace_first. by rewrite (proj2 (split_once_Some c _ a b)). Qed.

Lemma str_len_ge s : Z.of_nat (length s) <= str_len s.
Proof.
  induction s as [|c s IH]; [done|]. cbn [str_len foldr length].
  change (foldr _ 0 s) with (str_len s).
  unfold utf8_width. repeat case_match; lia.
Qed.

Lemma digits_value_zeros s : forallb (λ c, c =? 48) s = true → digits_value s = 0.
Proof.
  induction s as [|c s IH] using rev_ind; [done|].
  rewrite forallb_app, digits_value_snoc. simpl. intros. bool_to_prop.
  rewrite IH by done. lia.
Qed.

Lemma strip_suffix_ne c d s : c ≠ d → strip_suffix [c] (s ++ [d]) = None.
Proof.
  intros Hcd. unfold strip_suffix. rewrite reverse_snoc, reverse_singleton. simpl.
  by rewrite (proj2 (Z.eqb_neq c d)).
Qed.

Lemma trim_ends s c d :
  head s = Some c → last s = Some d →
  is_whitespace c = false → is_whitespace d = false → trim s = s.
Proof.
  intros Hc Hd Hwc Hwd. unfold trim, trim_matches.
  rewrite trim_start_id; [by apply (trim_end_id _ _ d)|]. intros c' s' ->. by simplify_eq/=.
Qed.

Lemma trim_end_app p a s :
  s ≠ [] → (∀ c, c ∈ s → p c = false) → trim_end p (a ++ s) = a ++ s.
Proof.
  intros Hne Hp. destruct s as [|c s' _] using rev_ind; [done|].
  rewrite (assoc_L (++)). apply trim_end_snoc_id, Hp, elem_of_app. right. by left.
Qed.

(** ** UTF-8 round trip *)

(** The Unicode scalar values: what a [char] can hold. *)
Definition scalar (c : Z) : bool := in_range 0 55295 c || in_range 57344 1114111 c.

Lemma b2z_small z : 0 <= z < 256 → b2z (z2b z) = z.
Proof. intros. rewrite b2z_z2b. by apply Z.mod_small. Qed.

(** Decides every comparison in the goal that the context settles. *)
Ltac settle :=
  repeat match goal with
  | |- context [?a <=? ?b] =>
      first [ rewrite (proj2 (Z.leb_le a b)) by lia | rewrite (proj2 (Z.leb_gt a b)) by lia ]
  | |- context [?a <? ?b] =>
      first [ rewrite (proj2 (Z.ltb_lt a b)) by lia | rewrite (proj2 (Z.ltb_ge a b)) by lia ]
  | |- context [?a =? ?b] =>
      first [ rewrite (proj2 (Z.eqb_eq a b)) by lia | rewrite (proj2 (Z.eqb_neq a b)) by lia ]
  end; cbn [andb orb negb].

Lemma decode_encode_char c d : scalar c = true →
  decode_char (encode_char c ++ d) = Some (inl (c, length (encode_char c))) ∧
  (0 < length (encode_char c))%nat.
Proof.
  unfold scalar, in_range. intros Hc. rewrite orb_true_iff, !andb_true_iff, !Z.leb_le in Hc.
  unfold encode_char.
  destruct (Z.ltb_spec c 128); [|destruct (Z.ltb_spec c 2048); [|destruct (Z.ltb_spec c 65536)]];
    (split; [|simpl; lia]); unfold decode_char; cbn [app fmap list_fmap length nth];
    rewrite !b2z_small by (Z.div_mod_to_equations; lia); unfold is_cont, in_range.
  - settle. done.
  - assert (194 <= 192 + c / 64 <= 223) by (Z.div_mod_to_equations; lia).
    assert (0 <= c mod 64 < 64) by (Z.div_mod_to_equations; lia).
    settle. do 3 f_equal. Z.div_mod_to_equations; lia.
  - assert (224 <= 224 + c / 4096 <= 239) by (Z.div_mod_to_equations; lia).
    assert (0 <= c / 64 mod 64 < 64) by (Z.div_mod_to_equations; lia).
    assert (0 <= c mod 64 < 64) by (Z.div_mod_to_equations; lia).
    settle.
    assert (c = c / 4096 * 4096 + c / 64 mod 64 * 64 + c mod 64) as E
      by (Z.div_mod_to_equations; lia).
    destruct (Z.eqb_spec (224 + c / 4096) 224); [|destruct (Z.eqb_spec (224 + c / 4096) 237)];
      settle; do 3 f_equal; lia.
  - assert (240 <= 240 + c / 262144 <= 244) by (Z.div_mod_to_equations; lia).
    assert (0 <= c / 4096 mod 64 < 64) by (Z.div_mod_to_equations; lia).
    assert (0 <= c / 64 mod 64 < 64) by (Z.div_mod_to_equations; lia).
    assert (0 <= c mod 64 < 64) by (Z.div_mod_to_equations; lia).
    settle.
    assert (c = c / 262144 * 262144 + c / 4096 mod 64 * 4096 + c / 64 mod 64 * 64 + c mod 64) as E
      by (Z.div_mod_to_equations; lia).
    destruct (Z.eqb_spec (240 + c / 262144) 240); [|destruct (Z.eqb_spec (240 + c / 262144) 244)];
      settle; do 3 f_equal; lia.
Qed.

Lemma decode_fuel_encode s fuel : forallb scalar s = true →
  (length (encode s) <= fuel)%nat → decode_fuel fuel (encode s) = Some <$> s.
Proof.
  revert fuel. induction s as [|c s IH]; intros fuel Hs Hf; [by destruct fuel|].
  cbn [forallb] in Hs. apply andb_true_iff in Hs as [Hc Hs].
  change (encode (c :: s)) with (encode_char c ++ encode s) in *.
  destruct (decode_encode_char c (encode s) Hc) as [Hd Hl].
  rewrite length_app in Hf. destruct fuel as [|fuel]; [lia|]. cbn [decode_fuel].
  rewrite Hd, drop_app_length. simpl. rewrite IH; [done|done|lia].
Qed.

Lemma decode_encode s : forallb scalar s = true → decode (encode s) = Some <$> s.
Proof. intros. by apply decode_fuel_encode. Qed.

Lemma from_utf8_encode s : forallb scalar s = true → from_utf8 (encode s) = Some s.
Proof.
  intros Hs. unfold from_utf8. rewrite decode_encode by done.
  apply mapM_Some_2, Forall2_fmap_l. clear Hs.
  induction s as [|c s IH]; by constructor.
Qed.

Lemma from_utf8_lossy_encode s : forallb scalar s = true → from_utf8_lossy (encode s) = s.
Proof.
  intros Hs. unfold from_utf8_lossy. rewrite decode_encode by done.
  clear Hs. induction s as [|c s IH]; [done|]. by f_equal/=.
Qed.

(** ** Splitting what was joined *)

Lemma split_no p w : (∀ c, c ∈ w → p c = false) → split p w = [w].
Proof.
  induction w as [|c w IH]; intros H; [done|]. simpl.
  rewrite H, IH; [done| |by left]. intros; apply H; by right.
Qed.

Lemma split_app p w c s : (∀ c, c ∈ w → p c = false) → p c = true →
  split p (w ++ c :: s) = w :: split p s.
Proof.
  intros Hw Hc. induction w as [|x w IH]; simpl; [by rewrite Hc|].
  rewrite (Hw x) by (by left). rewrite IH; [done|]. intros; apply Hw; by right.
Qed.

Lemma split_join p c ws : p c = true → ws ≠ [] →
  Forall (λ w, ∀ x, x ∈ w → p x = false) ws → split p (join [c] ws) = ws.
Proof.
  intros Hc Hne Hws. induction Hws as [|w ws Hw Hws IH]; [done|].
  destruct ws as [|w' ws]; [by apply split_no|].
  change (join [c] (w :: w' :: ws)) with (w ++ c :: join [c] (w' :: ws)).
  rewrite split_app by done. by rewrite IH.
Qed.

(** ** Numbers inside larger text *)

Lemma show_pos n : 0 <= n → show n = show_nonneg n.
Proof. intros. unfold show. by rewrite (proj2 (Z.ltb_ge n 0)). Qed.

Lemma show_digits n : 0 <= n → all_digits (show n) = true.
Proof. intros. rewrite show_pos by done. by apply show_nonneg_digits. Qed.

Lemma show_not_elem n c : 0 <= n → is_digit c = false → c ∉ show n.
Proof. intros Hn Hc Hin. pose proof (all_digits_elem _ _ (show_digits n Hn) Hin). congruence. Qed.

Lemma show_not_nil n : 0 <= n → show n ≠ [].
Proof. intros. rewrite show_pos by done. apply show_nonneg_not_nil. Qed.

Lemma trim_matches_id p s : (∀ c, c ∈ s → p c = false) → trim_matches p s = s.
Proof.
  intros H. unfold trim_matches. rewrite trim_start_id.
  - destruct s as [|c s' _] using rev_ind; [done|]. apply trim_end_snoc_id, H, elem_of_app.
    right. by left.
  - intros c s' ->. apply H. by left.
Qed.

Lemma length_encode_char c : Z.of_nat (length (encode_char c)) = utf8_width c.
Proof. unfold encode_char, utf8_width. by repeat case_match. Qed.

(** [as_bytes().len()] is [len()]. *)
Lemma zlen_encode s : zlen (encode s) = str_len s.
Proof.
  induction s as [|c s IH]; [done|].
  change (encode (c :: s)) with (encode_char c ++ encode s).
  rewrite zlen_app, IH. unfold zlen. by rewrite length_encode_char.
Qed.

Lemma str_len_app a b : str_len (a ++ b) = str_len a + str_len b.
Proof. rewrite <-!zlen_encode. unfold encode. by rewrite bind_app, zlen_app. Qed.

Lemma trim_matches_ends p s c d :
  head s = Some c → last s = Some d → p c = false → p d = false → trim_matches p s = s.
Proof.
  intros Hc Hd Hpc Hpd. unfold trim_matches.
  rewrite trim_start_id; [by apply (trim_end_id _ _ d)|]. intros c' s' ->. by simplify_eq/=.
Qed.

Lemma length_show_rev fuel n : (length (show_rev fuel n) <= fuel)%nat.
Proof.
  revert n. induction fuel as [|fuel IH]; intros n; [done|]. cbn [show_rev length].
  destruct (n <? 10); simpl; [lia|]. specialize (IH (n / 10)). lia.
Qed.

Lemma str_len_digits s : all_digits s = true → str_len s = Z.of_nat (length s).
Proof.
  intros Hs. induction s as [|c s IH]; [done|]. cbn [all_digits forallb] in Hs.
  apply andb_true_iff in Hs as [Hc Hs]. apply digit_class in Hc as (_ & _ & Hw).
  change (str_len (c :: s)) with (utf8_width c + str_len s). rewrite Hw, IH by done. simpl length. lia.
Qed.

(** A number below [2 ^ k] takes at most [k] digits. *)
Lemma str_len_show n k : 0 <= n < 2 ^ k → 0 < k → 1 <= str_len (show n) <= k.
Proof.
  intros Hn Hk. rewrite str_len_digits by (apply show_digits; lia).
  split.
  - pose proof (show_not_nil n ltac:(lia)). destruct (show n); [done|]. simpl. lia.
  - rewrite show_pos by lia. unfold show_nonneg. rewrite length_reverse.
    pose proof (length_show_rev (S (Z.to_nat (Z.log2 n))) n) as Hl.
    assert (Z.log2 n < k).
    { destruct (decide (n = 0)) as [->|]; [simpl; lia|]. apply Z.log2_lt_pow2; lia. }
    pose proof (Z.log2_nonneg n). lia.
Qed.

(** ** The parts of a split *)

Lemma split_parts p s w c : w ∈ split p s → c ∈ w → c ∈ s ∧ p c = false.
Proof.
  revert w. induction s as [|x s IH]; intros w; simpl.
  { intros ->%list_elem_of_singleton []%not_elem_of_nil. }
  destruct (p x) eqn:Hx.
  - intros [->|Hw]%elem_of_cons Hc; [by apply not_elem_of_nil in Hc|].
    destruct (IH w Hw Hc). split; [by right|done].
  - destruct (split p s) as [|v vs] eqn:Hs.
    + intros ->%list_elem_of_singleton ->%list_elem_of_singleton. split; [left|]; done.
    + intros [->|Hw]%elem_of_cons Hc.
      * apply elem_of_cons in Hc as [->|Hc]; [split; [left|]; done|].
        destruct (IH v ltac:(left) Hc). split; [by right|done].
      * destruct (IH w ltac:(by right) Hc). split; [by right|done].
Qed.

Definition sum_len (ws : list str) : Z := foldr (λ w n, str_len w + n) 0 ws.

Lemma sum_len_cons w ws : sum_len (w :: ws) = str_len w + sum_len ws.
Proof. done. Qed.

Lemma str_len_cons c s : str_len (c :: s) = utf8_width c + str_len s.
Proof. done. Qed.

Lemma utf8_width_range c : 1 <= utf8_width c <= 4.
Proof. unfold utf8_width. repeat case_match; lia. Qed.

(** A split only drops the separators, each at least a byte. *)
Lemma split_sum_len p s : sum_len (split p s) + zlen (split p s) <= str_len s + 1.
Proof.
  induction s as [|c s IH]; [done|]. rewrite str_len_cons. pose proof (utf8_width_range c).
  cbn [split]. destruct (p c).
  - rewrite sum_len_cons, zlen_cons. change (str_len []) with 0. lia.
  - revert IH. pose proof (split_ne p s) as Hne. destruct (split p s) as [|w ws]; [done|intros IH].
    rewrite !sum_len_cons, !zlen_cons, str_len_cons in *. lia.
Qed.

Lemma join_len ws : ws ≠ [] → str_len (join [32] ws) = sum_len ws + zlen ws - 1.
Proof.
  induction ws as [|w ws IH]; [done|]. intros _. destruct ws as [|v ws].
  - cbn [join]. unfold sum_len, zlen. simpl. lia.
  - change (join [32] (w :: v :: ws)) with (w ++ 32 :: join [32] (v :: ws)).
    rewrite str_len_app, str_len_cons, IH by done.
    rewrite (sum_len_cons w), (zlen_cons w). change (utf8_width 32) with 1. lia.
Qed.

Lemma filter_sum_len ws : sum_len (filter (λ w, w ≠ []) ws) = sum_len ws ∧
  zlen (filter (λ w, w ≠ []) ws) <= zlen ws.
Proof.
  induction ws as [|w ws [IH1 IH2]]; [done|]. rewrite filter_cons, zlen_cons, sum_len_cons.
  case_decide as Hw; rewrite ?sum_len_cons, ?zlen_cons; [lia|].
  destruct w as [|c w]; [change (str_len []) with 0; lia|]. discriminate Hw.
Qed.

Lemma elem_of_join_space c ws : c ∈ join [32] ws → c = 32 ∨ ∃ w, w ∈ ws ∧ c ∈ w.
Proof.
  induction ws as [|w ws IH]; [intros []%not_elem_of_nil|]. destruct ws as [|v ws].
  - simpl. intros Hc. right. exists w. split; [left|]; done.
  - change (join [32] (w :: v :: ws)) with (w ++ 32 :: join [32] (v :: ws)).
    rewrite elem_of_app, elem_of_cons. intros [?|[?|Hc]]; [|by left|].
    + right. exists w. split; [left|]; done.
    + destruct (IH Hc) as [?|(u & ? & ?)]; [by left|]. right. exists u. split; [by right|done].
Qed.

(** Splitting at whitespace and joining with spaces: shorter, and stable. *)
Lemma split_whitespace_join s : split_whitespace s ≠ [] →
  str_len (join [32] (split_whitespace s)) <= str_len s ∧
  split_whitespace (join [32] (split_whitespace s)) = split_whitespace s ∧
  ∀ c, c ∈ join [32] (split_whitespace s) → c = 32 ∨ (c ∈ s ∧ is_whitespace c = false).
Proof.
  intros Hne. assert (Hw : ∀ w, w ∈ split_whitespace s →
    w ≠ [] ∧ ∀ c, c ∈ w → c ∈ s ∧ is_whitespace c = false).
  { unfold split_whitespace. intros w [? Hin]%list_elem_of_filter. split; [done|].
    intros c Hc. by eapply split_parts. }
  split_and!.
  - rewrite join_len by done. unfold split_whitespace.
    destruct (filter_sum_len (split is_whitespace s)) as [-> ?].
    pose proof (split_sum_len is_whitespace s). lia.
  - set (ws := split_whitespace s) in *. unfold split_whitespace.
    rewrite split_join; [|done|done|].
    + clear Hne. clearbody ws. induction ws as [|w ws IH]; [done|].
      rewrite filter_cons_True by (apply Hw; left). f_equal. apply IH.
      intros v Hv. apply Hw. by right.
    + apply Forall_forall. intros w Hin c Hc. by apply (Hw w Hin).
  - intros c [->|(w & Hin & Hc)]%elem_of_join_space; [by left|right]. by apply (Hw w Hin).
Qed.

(** ** Searching for text *)

Lemma strip_prefix_app pat s : strip_prefix pat (pat ++ s) = Some s.
Proof. by apply strip_prefix_Some. Qed.

Lemma split_once_str_cons pat c s : strip_prefix pat (c :: s) = None →
  split_once_str pat (c :: s) = (λ ab, (c :: ab.1, ab.2)) <$> split_once_str pat s.
Proof. intros H. cbn [split_once_str]. rewrite H. by destruct (split_once_str pat s) as [[? ?]|]. Qed.

Lemma split_once_str_parts pat s a b :
  split_once_str pat s = Some (a, b) → s = a ++ pat ++ b.
Proof.
  revert a. induction s as [|c s IH]; intros a Hs.
  - cbn in Hs. destruct (strip_prefix pat []) as [r|] eqn:Hp; [|done]. simplify_eq.
    by apply strip_prefix_Some in Hp.
  - destruct (strip_prefix pat (c :: s)) as [r|] eqn:Hp.
    + cbn in Hs. rewrite Hp in Hs. simplify_eq. by apply strip_prefix_Some in Hp.
    + rewrite split_once_str_cons in Hs by done.
      destruct (split_once_str pat s) as [[a' b']|]; [|done]. simpl in Hs. simplify_eq.
      simpl. f_equal. by apply IH.
Qed.

(** The first occurrence is found, and no later one. *)
Lemma split_once_str_least pat u w : ∃ a b,
  split_once_str pat (u ++ pat ++ w) = Some (a, b) ∧ (length a <= length u)%nat.
Proof.
  induction u as [|c u (a & b & IH & Hl)].
  - exists [], w. split; [|done]. cbn [app]. destruct (pat ++ w) eqn:He; cbn; by rewrite <-He, strip_prefix_app.
  - destruct (strip_prefix pat ((c :: u) ++ pat ++ w)) as [r|] eqn:Hp.
    + exists [], r. cbn [app] in *. cbn. rewrite Hp. split; [done|lia].
    + cbn [app] in *. rewrite split_once_str_cons, IH by done. eexists _, b. split; [done|]. simpl. lia.
Qed.

Lemma contains_iff pat s : contains pat s = true ↔ ∃ a b, s = a ++ pat ++ b.
Proof.
  unfold contains. rewrite bool_decide_eq_true. split.
  - intros [[a b] Hs]. exists a, b. by apply split_once_str_parts.
  - intros (a & b & ->). destruct (split_once_str_least pat a b) as (? & ? & -> & _). eauto.
Qed.

Lemma split_once_str_Some pat s a b : pat ≠ [] →
  split_once_str pat s = Some (a, b) → s = a ++ pat ++ b ∧ contains pat a = false.
Proof.
  intros Hne Hs. split; [by apply split_once_str_parts|]. apply not_true_is_false.
  intros (u & v & ->)%contains_iff. pose proof (split_once_str_parts _ _ _ _ Hs) as ->.
  destruct (split_once_str_least pat u (v ++ pat ++ b)) as (a' & b' & Hl & Hlen).
  rewrite <-!(assoc_L (++)), Hl in Hs. simplify_eq. rewrite !length_app in Hlen.
  destruct pat; [done|]. simpl in *. lia.
Qed.

Lemma split_once_str_None pat s : split_once_str pat s = None ↔ contains pat s = false.
Proof. unfold contains. rewrite bool_decide_eq_false, eq_None_not_Some. done. Qed.

(** A pattern whose first character it does not repeat is found after any text
    without it. *)
Lemma split_once_str_app c pat a b : c ∉ pat → contains (c :: pat) a = false →
  split_once_str (c :: pat) (a ++ (c :: pat) ++ b) = Some (a, b).
Proof.
  intros Hc. induction a as [|x a IH]; intros Ha.
  - pose proof (strip_prefix_app (c :: pat) b) as Hp. cbn [app] in *. cbn [split_once_str]. by rewrite Hp.
  - destruct (strip_prefix (c :: pat) ((x :: a) ++ (c :: pat) ++ b)) as [r|] eqn:Hp.
    + exfalso. apply strip_prefix_Some in Hp. cbn [app] in Hp. injection Hp as -> Hp.
      destruct (decide (length pat <= length a)%nat) as [Hl|Hl].
      * assert (a = pat ++ drop (length pat) a) as He.
        { rewrite <-(take_drop (length pat) a) at 1. f_equal.
          apply (f_equal (take (length pat))) in Hp.
          by rewrite take_app_le, take_app_length in Hp by done. }
        assert (contains (c :: pat) (c :: a) = true); [|congruence].
        apply contains_iff. exists [], (drop (length pat) a). simpl. by f_equal.
      * apply Hc. apply (f_equal (λ l, l !! length a)) in Hp.
        rewrite lookup_app_r, Nat.sub_diag, lookup_app_l in Hp by lia. simpl in Hp.
        symmetry in Hp. by eapply list_elem_of_lookup_2.
    + cbn [app] in *. rewrite split_once_str_cons, IH by
        (done || (apply not_true_is_false; intros (u & v & ->)%contains_iff;
          assert (contains (c :: pat) (x :: u ++ (c :: pat) ++ v) = true); [|congruence];
          apply contains_iff; by exists (x :: u), v)). done.
Qed.

(** Parsing a printed [u64]. *)
Lemma parse_u64_range s n : parse_u64 s = Some n → 0 <= n <= u64_max.
Proof.
  unfold parse_u64. destruct (_ || _) eqn:Hc; [done|]. apply orb_false_iff in Hc as [_ Hd%negb_false_iff].
  destruct (Z.leb_spec (digits_value (default s (strip_prefix [43] s))) u64_max); [|done]. intros [= <-].
  split; [by apply digits_value_nonneg|done].
Qed.

Lemma parse_u64_show n : 0 ≤ n ≤ u64_max → parse_u64 (show n) = Some n.
Proof.
  intros [Hn Hm]. unfold parse_u64. pose proof (show_digits n Hn) as Hd. rewrite (show_pos n Hn) in *.
  assert (strip_prefix [43] (show_nonneg n) = None) as ->.
  { pose proof (show_nonneg_not_nil n). destruct (show_nonneg n) as [|c s]; [done|]. cbn [strip_prefix]. cbn [all_digits forallb] in Hd.
    destruct (43 =? c) eqn:Hc; [|done]. apply Z.eqb_eq in Hc as <-. by vm_compute in Hd. }
  cbn [from_option id]. rewrite bool_decide_eq_false_2 by apply show_nonneg_not_nil. rewrite Hd. cbn [orb negb].
  rewrite show_nonneg_value by done. by rewrite (proj2 (Z.leb_le _ _)).
Qed.
