(* ===== verification/GoJson.v ===== *)
(** Time and text formatting shared by the Music Server's responses and its
    database (server/src/gojson.rs): civil dates from Unix time, RFC 3339 and
    SQLite timestamps, and the characters Go's JSON escapes. A [SystemTime] is a
    signed count of nanoseconds since the Unix epoch. *)

From S2P Require Import Prelude Text.

(** ** JSON escaping *)

(** The loop of [gojson::to_string] over the text serde_json produced. *)
Definition escape_char (c : Z) : str :=
  if c =? 60 then st "\u003c"
  else if c =? 62 then st "\u003e"
  else if c =? 38 then st "\u0026"
  else if c =? 8232 then st "\u2028"
  else if c =? 8233 then st "\u2029"
  else [c].

Definition escape_json (json : str) : str := json ≫= escape_char.

(** ** Civil time *)

Record Civil := mkCivil {
  year : Z; month : Z; day : Z; hour : Z; minute : Z; second : Z }.

(** [gojson::civil]; Rust's [div_euclid]/[rem_euclid] by a positive divisor and
    its division of non-negative numbers are both [Z]'s. *)
Definition civil_date (days : Z) : Z * Z * Z :=
  let z := days + 719468 in
  let era := z / 146097 in
  let day_of_era := z mod 146097 in
  let year_of_era :=
    (day_of_era - day_of_era / 1460 + day_of_era / 36524 - day_of_era / 146096) / 365 in
  let day_of_year :=
    day_of_era - (365 * year_of_era + year_of_era / 4 - year_of_era / 100) in
  let month_index := (5 * day_of_year + 2) / 153 in
  let day := day_of_year - (153 * month_index + 2) / 5 + 1 in
  let month := if month_index <? 10 then month_index + 3 else month_index - 9 in
  let year := year_of_era + era * 400 + (if month <=? 2 then 1 else 0) in
  (year, month, day).

Definition civil (seconds : Z) : Civil :=
  let days := seconds / 86400 in
  let second_of_day := seconds mod 86400 in
  let '(year, month, day) := civil_date days in
  {| year := year; month := month; day := day;
     hour := second_of_day / 3600; minute := second_of_day / 60 mod 60;
     second := second_of_day mod 60 |}.

Definition NANOS : Z := 1000000000.

(** [gojson::split_time]. *)
Definition split_time (time : Z) : Z * Z :=
  if 0 <=? time then (time / NANOS, time mod NANOS)
  else
    let before := - time in
    let nanos := before mod NANOS in
    if nanos =? 0 then (- (before / NANOS), 0)
    else (- (before / NANOS) - 1, NANOS - nanos).

(** [{n:0w}]: zero padded to width [w], the sign included. *)
Definition pad_number (w : nat) (n : Z) : str :=
  let digits := show (Z.abs n) in
  let sign := if n <? 0 then st "-" else [] in
  sign ++ replicate (w - length sign - length digits) 48 ++ digits.

Definition is_zero_char (c : Z) : bool := c =? 48.

(** [gojson::fraction]. *)
Definition fraction (nanos : Z) : str :=
  if nanos =? 0 then []
  else trim_end is_zero_char (st "." ++ pad_number 9 nanos).

(** The shared layout of [rfc3339_nano] and [sqlite_time]. *)
Definition format_time (sep : str) (zone : str) (time : Z) : str :=
  let '(seconds, nanos) := split_time time in
  let c := civil seconds in
  pad_number 4 (year c) ++ st "-" ++ pad_number 2 (month c) ++ st "-" ++
  pad_number 2 (day c) ++ sep ++ pad_number 2 (hour c) ++ st ":" ++
  pad_number 2 (minute c) ++ st ":" ++ pad_number 2 (second c) ++
  fraction nanos ++ zone.

Definition rfc3339_nano (time : Z) : str := format_time (st "T") (st "Z") time.
Definition sqlite_time (time : Z) : str := format_time (st " ") (st "+00:00") time.

(** ** Stored times *)

Definition is_sign (c : Z) : bool := (c =? 43) || (c =? 45).

(** [&offset[..n]] and [&offset[n..]] by byte offset: panics off a character
    boundary. *)
Fixpoint split_bytes (n : Z) (s : str) : outcome Empty_set (str * str) :=
  if n =? 0 then Ok ([], s)
  else match s with
  | [] => Panic
  | c :: s' =>
      if n <? utf8_width c then Panic
      else '(a, b) ← split_bytes (n - utf8_width c) s'; Ok (c :: a, b)
  end.

(** [gojson::split_zone]. *)
Definition split_zone (value : str) : outcome Empty_set (str * str) :=
  match strip_suffix (st "Z") value with
  | Some rest => Ok (rest, st "Z")
  | None =>
      match rsplit_at is_sign value with
      | Some (before, offset) =>
          if 10 <? str_len before then
            offset ←
              (if (str_len offset =? 5) && negb (bool_decide (58 ∈ offset)) then
                 '(a, b) ← split_bytes 3 offset; Ok (a ++ st ":" ++ b)
               else Ok offset);
            let offset := if bool_decide (offset = st "+00:00") then st "Z" else offset in
            Ok (trim_end is_whitespace before, offset)
          else Ok (value, st "Z")
      | None => Ok (value, st "Z")
      end
  end.

(** Drops a fraction's trailing zeros, and the point when nothing is left. *)
Definition trim_fraction (date_time : str) : str :=
  match split_once 46 date_time with
  | Some (whole, frac) =>
      let frac := trim_end is_zero_char frac in
      if bool_decide (frac = []) then whole else whole ++ st "." ++ frac
  | None => date_time
  end.

(** [gojson::time]. *)
Definition time (stored : str) : outcome Empty_set str :=
  '(date_time, zone) ← split_zone (trim stored);
  Ok (trim_fraction (replace_first 32 (st "T") date_time) ++ zone).

(** [gojson::sqlite_time_from_stored]. *)
Definition sqlite_time_from_stored (stored : str) : outcome Empty_set str :=
  '(date_time, zone) ← split_zone (trim stored);
  let date_time := trim_fraction date_time in
  let zone := if bool_decide (zone = st "Z") then st "+00:00" else zone in
  Ok (replace_first 84 (st " ") date_time ++ zone).

(** ** Specification: the proleptic Gregorian calendar *)

Definition leap (y : Z) : bool :=
  (y mod 4 =? 0) && (negb (y mod 100 =? 0) || (y mod 400 =? 0)).

Definition month_days (y m : Z) : Z :=
  nth (Z.to_nat m) [0; 31; if leap y then 29 else 28; 31; 30; 31; 30; 31; 31; 30; 31; 30; 31] 0.

Definition valid_date (y m d : Z) : bool :=
  (1 <=? m) && (m <=? 12) && (1 <=? d) && (d <=? month_days y m).

(** Days before year [y] and before month [m] of it, from year 1. *)
Definition days_before_year (y : Z) : Z :=
  365 * (y - 1) + (y - 1) / 4 - (y - 1) / 100 + (y - 1) / 400.
Definition days_before_month (y m : Z) : Z :=
  foldr (λ i n, month_days y (Z.of_nat i) + n) 0 (seq 1 (Z.to_nat m - 1)).

(** Days from 1970-01-01 to the given date. *)
Definition day_number (y m d : Z) : Z :=
  days_before_year y + days_before_month y m + (d - 1) - 719162.

(** ** Proofs: dates *)

(** Days of the era before its [y]-th year, the year starting in March. *)
Definition era_days (y : Z) : Z := 365 * y + y / 4 - y / 100.

Lemma year_of_era_bounds doe : 0 <= doe < 146097 →
  let y := (doe - doe / 1460 + doe / 36524 - doe / 146096) / 365 in
  0 <= y <= 399 ∧ 0 <= doe - era_days y <= 365.
Proof. intros H y. unfold y, era_days. clear y. Z.div_mod_to_equations; lia. Qed.

Lemma year_of_era_leap doe : 0 <= doe < 146097 →
  let y := (doe - doe / 1460 + doe / 36524 - doe / 146096) / 365 in
  doe - era_days y = 365 →
  (y + 1) mod 4 = 0 ∧ ((y + 1) mod 100 = 0 → (y + 1) mod 400 = 0).
Proof. intros H y. unfold y, era_days. clear y. Z.div_mod_to_equations; lia. Qed.

(** Days before each month, the year starting in March. *)
Definition march_offset (m : Z) : Z :=
  nth (Z.to_nat m) [0; 306; 337; 0; 31; 61; 92; 122; 153; 184; 214; 245; 275] 0.

Definition month_of (doy : Z) : Z :=
  let i := (5 * doy + 2) / 153 in if i <? 10 then i + 3 else i - 9.
Definition day_of (doy : Z) : Z :=
  let i := (5 * doy + 2) / 153 in doy - (153 * i + 2) / 5 + 1.

Definition month_ok (doy : Z) : bool :=
  let m := month_of doy in let d := day_of doy in
  (1 <=? m) && (m <=? 12) && (1 <=? d) &&
  (if m =? 2 then (d <=? 28) || ((d =? 29) && (doy =? 365)) else d <=? month_days 1 m) &&
  (march_offset m + d - 1 =? doy).

Lemma month_ok_all doy : 0 <= doy <= 365 → month_ok doy = true.
Proof.
  intros H.
  assert (Hall : forallb (λ n, month_ok (Z.of_nat n)) (seq 0 366) = true)
    by (vm_compute; reflexivity).
  rewrite forallb_forall in Hall. rewrite <-(Z2Nat.id doy) by lia.
  apply Hall, in_seq. lia.
Qed.

Lemma month_days_same y m : m ≠ 2 → month_days y m = month_days 1 m.
Proof.
  intros Hm. unfold month_days.
  destruct (Z.to_nat m) as [|[|[|n]]] eqn:Hn; try done. lia.
Qed.

Lemma days_before_year_succ y :
  days_before_year (y + 1) = days_before_year y + 365 + (if leap y then 1 else 0).
Proof.
  unfold days_before_year, leap.
  destruct (y mod 4 =? 0) eqn:H4, (y mod 100 =? 0) eqn:H100, (y mod 400 =? 0) eqn:H400;
    simpl; bool_to_prop; Z.div_mod_to_equations; lia.
Qed.

Lemma month_cases m : 1 <= m <= 12 →
  m = 1 ∨ m = 2 ∨ m = 3 ∨ m = 4 ∨ m = 5 ∨ m = 6 ∨ m = 7 ∨ m = 8 ∨ m = 9 ∨
  m = 10 ∨ m = 11 ∨ m = 12.
Proof. lia. Qed.

Lemma days_before_month_march y m : 1 <= m <= 12 →
  days_before_month y m =
    march_offset m +
    (if m <=? 2 then -306 else 59 + (if leap y then 1 else 0)).
Proof.
  intros Hc%month_cases. unfold days_before_month, month_days.
  repeat destruct Hc as [->|Hc]; try subst m; by destruct (leap y).
Qed.

(** A date counted from the March-based year [y] it falls in. *)
Lemma day_number_march y m d :
  1 <= m <= 12 →
  day_number (y + (if m <=? 2 then 1 else 0)) m d =
    days_before_year (y + 1) - 306 + march_offset m + (d - 1) - 719162.
Proof.
  intros Hm. unfold day_number. rewrite days_before_month_march by done.
  destruct (m <=? 2); [lia|]. rewrite Z.add_0_r, days_before_year_succ. lia.
Qed.

Lemma civil_date_day days :
  ∃ y m d, civil_date days = (y, m, d) ∧ valid_date y m d = true ∧ day_number y m d = days.
Proof.
  unfold civil_date. set (z := days + 719468). set (era := z / 146097).
  set (doe := z mod 146097).
  pose proof (Z.mod_pos_bound z 146097 ltac:(lia)) as Hdoe. fold doe in Hdoe.
  assert (Hz : z = 146097 * era + doe) by (apply Z.div_mod; lia).
  set (yoe := (doe - doe / 1460 + doe / 36524 - doe / 146096) / 365).
  destruct (year_of_era_bounds doe Hdoe) as [Hy Hdoy]. fold yoe in Hy, Hdoy.
  pose proof (year_of_era_leap doe Hdoe) as Hleap. cbv zeta in Hleap. fold yoe in Hleap.
  fold (era_days yoe). set (doy := doe - era_days yoe) in *.
  fold (month_of doy) (day_of doy).
  pose proof (month_ok_all doy Hdoy) as Hok. unfold month_ok in Hok. bool_to_prop.
  eexists _, _, _. split; [done|].
  replace (yoe + era * 400 + (if month_of doy <=? 2 then 1 else 0))
    with ((yoe + 400 * era) + (if month_of doy <=? 2 then 1 else 0)) by lia.
  split.
  - unfold valid_date. rewrite !andb_true_iff, !Z.leb_le. split_and!; try lia.
    destruct (month_of doy =? 2) eqn:Hm; bool_to_prop;
      [|rewrite month_days_same by done; bool_to_prop; lia].
    rewrite Hm in *. simpl. unfold month_days. simpl.
    match goal with H : _ ∨ _ |- _ => destruct H end; bool_to_prop;
      [case_match; lia|].
    destruct Hleap as [Hl4 Hl100]; [lia|].
    assert (leap (yoe + 400 * era + 1) = true) as ->; [|lia].
    unfold leap. replace (yoe + 400 * era + 1) with (yoe + 1 + (4 * era) * 100) by lia.
    rewrite Z.mod_add by lia.
    replace (yoe + 1 + 4 * era * 100) with (yoe + 1 + (100 * era) * 4) by lia.
    rewrite Z.mod_add by lia.
    replace (yoe + 1 + 100 * era * 4) with (yoe + 1 + era * 400) by lia.
    rewrite Z.mod_add by lia. rewrite Hl4. simpl.
    destruct ((yoe + 1) mod 100 =? 0) eqn:E; bool_to_prop; [|done].
    by rewrite (Hl100 E).
  - rewrite day_number_march by lia. unfold days_before_year.
    replace (yoe + 400 * era + 1 - 1) with (yoe + (100 * era) * 4) by lia.
    rewrite Z.div_add by lia.
    replace (yoe + 100 * era * 4) with (yoe + (4 * era) * 100) by lia.
    rewrite Z.div_add by lia.
    replace (yoe + 4 * era * 100) with (yoe + era * 400) by lia.
    rewrite Z.div_add, (Z.div_small yoe 400) by lia.
    unfold doy, era_days, z in *. lia.
Qed.

(** [civil] inverts the Gregorian calendar. For every second, before the
    epoch too, the fields it returns are a valid date and time of day, and
    counting the days of that date by the leap-year rules gives the second
    back. *)
Theorem civil_correct seconds :
  let c := civil seconds in
  valid_date (year c) (month c) (day c) = true ∧
  0 <= hour c < 24 ∧ 0 <= minute c < 60 ∧ 0 <= second c < 60 ∧
  day_number (year c) (month c) (day c) * 86400 +
    hour c * 3600 + minute c * 60 + second c = seconds.
Proof.
  unfold civil. destruct (civil_date_day (seconds / 86400)) as (y & m & d & -> & Hv & Hd).
  simpl. rewrite Hv, Hd. split; [done|].
  pose proof (Z.mod_pos_bound seconds 86400 ltac:(lia)).
  pose proof (Z.div_mod seconds 86400 ltac:(lia)).
  set (s := seconds mod 86400) in *. Z.div_mod_to_equations; lia.
Qed.

(** ** Proofs: timestamps *)

(** Digits and separators of a timestamp: no whitespace, no letters. *)
Definition stamp_char (c : Z) : bool := is_digit c || (c =? 45) || (c =? 58) || (c =? 46).

Lemma stamp_char_facts c : stamp_char c = true →
  is_whitespace c = false ∧ c ≠ 32 ∧ c ≠ 84 ∧ c ≠ 90 ∧ c ≠ 43.
Proof.
  unfold stamp_char. rewrite !orb_true_iff. intros [[[H|H]|H]|H].
  - destruct (digit_class c H) as (? & ? & _). split; [done|lia].
  - bool_to_prop. by subst.
  - bool_to_prop. by subst.
  - bool_to_prop. by subst.
Qed.

(** Every character of [s] is in the class [p]. *)
Definition all_chars (p : Z → bool) (s : str) : Prop := ∀ c, c ∈ s → p c = true.

Lemma all_chars_app p a b : all_chars p a → all_chars p b → all_chars p (a ++ b).
Proof. intros Ha Hb c [?|?]%elem_of_app; auto. Qed.

Lemma all_chars_digits s : all_digits s = true → all_chars is_digit s.
Proof. intros H c Hc. by apply (all_digits_elem s). Qed.

Lemma all_chars_weaken (p q : Z → bool) s :
  (∀ c, p c = true → q c = true) → all_chars p s → all_chars q s.
Proof. intros Hpq Hp c Hc. auto. Qed.

(** A number's characters: digits and perhaps a minus sign. *)
Definition number_char (c : Z) : bool := is_digit c || (c =? 45).

Lemma pad_number_chars w n : all_chars number_char (pad_number w n).
Proof.
  unfold pad_number. intros c. rewrite !elem_of_app. unfold number_char. intros [H|[H|H]].
  - destruct (n <? 0); [|by apply not_elem_of_nil in H].
    apply list_elem_of_singleton in H as ->. done.
  - by apply elem_of_replicate in H as [-> _].
  - unfold show in H. rewrite (proj2 (Z.ltb_ge _ _)) in H by lia.
    by rewrite (all_digits_elem _ _ (show_nonneg_digits (Z.abs n) ltac:(lia)) H).
Qed.

Lemma pad_number_digits w n : 0 <= n → all_digits (pad_number w n) = true.
Proof.
  intros Hn. unfold pad_number, show.
  rewrite (proj2 (Z.ltb_ge n 0)), (proj2 (Z.ltb_ge _ _)), Z.abs_eq by lia. simpl.
  unfold all_digits. rewrite forallb_app. apply andb_true_iff. split.
  - induction (_ - _ - _)%nat; simpl; auto.
  - by apply show_nonneg_digits.
Qed.

Lemma pad_number_value w n : 0 <= n → digits_value (pad_number w n) = n.
Proof.
  intros Hn. unfold pad_number, show.
  rewrite (proj2 (Z.ltb_ge n 0)), (proj2 (Z.ltb_ge _ _)), Z.abs_eq by lia. simpl.
  assert (∀ k s, digits_value (replicate k 48 ++ s) = digits_value s) as ->.
  { intros k s. unfold digits_value. rewrite foldl_app.
    assert (foldl (λ v c, 10 * v + (c - 48)) 0 (replicate k 48) = 0) as ->; [|done].
    induction k as [|k IH]; [done|]. by rewrite replicate_S_end, foldl_snoc, IH. }
  by apply show_nonneg_value.
Qed.

Lemma pad_number_length w n : (w <= length (pad_number w n))%nat.
Proof.
  unfold pad_number. rewrite !length_app, length_replicate. lia.
Qed.

(** A fraction is empty, or a point and digits that do not end in zero. *)
Lemma fraction_cases nanos : 0 <= nanos →
  fraction nanos = [] ∨
  ∃ f, fraction nanos = 46 :: f ∧ all_digits f = true ∧ f ≠ [] ∧
       trim_end is_zero_char f = f.
Proof.
  intros Hn. unfold fraction. destruct (nanos =? 0) eqn:Hz; [by left|right].
  bool_to_prop. change (st ".") with [46]. simpl.
  rewrite trim_end_cons by done. exists (trim_end is_zero_char (pad_number 9 nanos)).
  destruct (trim_end_prefix is_zero_char (pad_number 9 nanos)) as (suf & Hsuf & Hp).
  pose proof (pad_number_digits 9 nanos Hn) as Hd.
  split_and!; [done| |intros Hnil|apply trim_end_idemp].
  - rewrite Hsuf in Hd. unfold all_digits in *. rewrite forallb_app in Hd.
    by apply andb_true_iff in Hd as [? _].
  - rewrite Hnil in Hsuf. simpl in Hsuf.
    pose proof (pad_number_value 9 nanos Hn) as Hv. rewrite Hsuf in Hv.
    rewrite digits_value_zeros in Hv by done. lia.
Qed.

Lemma split_time_nanos t : 0 <= (split_time t).2 < NANOS.
Proof.
  unfold split_time, NANOS. destruct (Z.leb_spec 0 t); simpl.
  - apply Z.mod_pos_bound. lia.
  - pose proof (Z.mod_pos_bound (- t) 1000000000 ltac:(lia)).
    destruct (_ =? 0) eqn:E; simpl; bool_to_prop; lia.
Qed.

Definition clock_char (c : Z) : bool := is_digit c || (c =? 58).

Lemma format_time_shape t : ∃ D H F,
  (∀ sep zone, format_time sep zone t = D ++ sep ++ H ++ F ++ zone) ∧
  all_chars number_char D ∧ (10 <= length D)%nat ∧ all_chars clock_char H ∧ H ≠ [] ∧
  (F = [] ∨ ∃ f, F = 46 :: f ∧ all_digits f = true ∧ f ≠ [] ∧ trim_end is_zero_char f = f).
Proof.
  unfold format_time. pose proof (split_time_nanos t) as Hn.
  destruct (split_time t) as [seconds nanos]. simpl in Hn.
  destruct (civil_correct seconds) as (_ & Hh & Hm & Hs & _).
  set (c := civil seconds) in *.
  exists (pad_number 4 (year c) ++ st "-" ++ pad_number 2 (month c) ++ st "-" ++
          pad_number 2 (day c)).
  exists (pad_number 2 (hour c) ++ st ":" ++ pad_number 2 (minute c) ++ st ":" ++
          pad_number 2 (second c)).
  exists (fraction nanos). split_and!.
  - intros sep zone. by rewrite <-!(assoc_L (++)).
  - assert (all_chars number_char (st "-"))
      by (intros x ->%list_elem_of_singleton; reflexivity).
    repeat first [apply pad_number_chars | assumption | apply all_chars_app].
  - rewrite !length_app. pose proof (pad_number_length 4 (year c)).
    pose proof (pad_number_length 2 (month c)). pose proof (pad_number_length 2 (day c)).
    change (length (st "-")) with 1%nat. lia.
  - assert (all_chars clock_char (st ":"))
      by (intros x ->%list_elem_of_singleton; reflexivity).
    assert (∀ w n, 0 <= n → all_chars clock_char (pad_number w n)) as Hpad.
    { intros w n ?. apply (all_chars_weaken is_digit);
        [intros x Hx; unfold clock_char; by rewrite Hx|].
      by apply all_chars_digits, pad_number_digits. }
    repeat first [apply Hpad; lia | assumption | apply all_chars_app].
  - pose proof (pad_number_length 2 (hour c)).
    destruct (pad_number 2 (hour c)); simpl in *; [lia|done].
  - apply fraction_cases. lia.
Qed.

Lemma number_stamp s : all_chars number_char s → all_chars stamp_char s.
Proof.
  apply all_chars_weaken. unfold number_char, stamp_char. intros c.
  destruct (is_digit c); [done|]. simpl. by intros ->.
Qed.

Lemma clock_stamp s : all_chars clock_char s → all_chars stamp_char s.
Proof.
  apply all_chars_weaken. unfold clock_char, stamp_char. intros c.
  destruct (is_digit c); [done|]. simpl. intros ->. by rewrite orb_true_r.
Qed.

Lemma fraction_stamp F :
  (F = [] ∨ ∃ f, F = 46 :: f ∧ all_digits f = true ∧ f ≠ [] ∧ trim_end is_zero_char f = f) →
  all_chars stamp_char F.
Proof.
  intros [->|(f & -> & Hd & _)] c; [by intros []%not_elem_of_nil|].
  intros [->|Hc]%elem_of_cons; [done|].
  unfold stamp_char. by rewrite (all_digits_elem f c Hd Hc).
Qed.

Lemma stamp_not_elem s c :
  all_chars stamp_char s → c = 32 ∨ c = 84 ∨ c = 90 ∨ c = 43 → c ∉ s.
Proof. intros Hs Hc Hin. destruct (stamp_char_facts c (Hs c Hin)). lia. Qed.

(** [trim_fraction] leaves a canonical fraction alone. *)
Lemma trim_fraction_id B F :
  46 ∉ B →
  (F = [] ∨ ∃ f, F = 46 :: f ∧ all_digits f = true ∧ f ≠ [] ∧ trim_end is_zero_char f = f) →
  trim_fraction (B ++ F) = B ++ F.
Proof.
  intros HB [->|(f & -> & _ & Hne & Ht)]; unfold trim_fraction.
  - rewrite app_nil_r. by rewrite (proj2 (split_once_None 46 B)).
  - rewrite (proj2 (split_once_Some 46 _ B f) (conj eq_refl HB)), Ht.
    by rewrite bool_decide_eq_false_2.
Qed.

(** The date and time of a stamp carry no point outside the fraction. *)
Lemma no_point D H sep :
  all_chars number_char D → all_chars clock_char H → 46 ∉ sep → 46 ∉ D ++ sep ++ H.
Proof.
  intros HD HH Hs [Hin|[Hin|Hin]%elem_of_app]%elem_of_app;
    [by specialize (HD _ Hin)|done|by specialize (HH _ Hin)].
Qed.

Section Stamp.
Variables (d : Z) (D' H F : str).
Let D := d :: D'.
Hypothesis HD : all_chars number_char D.
Hypothesis Hlen : (10 <= length D)%nat.
Hypothesis HH : all_chars clock_char H.
Hypothesis HHne : H ≠ [].
Hypothesis HF : F = [] ∨
  ∃ f, F = 46 :: f ∧ all_digits f = true ∧ f ≠ [] ∧ trim_end is_zero_char f = f.

Lemma stamp_tail_chars : all_chars stamp_char (H ++ F).
Proof. apply all_chars_app; [by apply clock_stamp|by apply fraction_stamp]. Qed.

Lemma stamp_head : is_whitespace d = false.
Proof. apply stamp_char_facts, (number_stamp D HD). by left. Qed.

Lemma time_of_stamp :
  time (D ++ st " " ++ H ++ F ++ st "+00:00") = Ok (D ++ st "T" ++ H ++ F ++ st "Z").
Proof.
  set (B := D ++ 32 :: H ++ F).
  replace (D ++ st " " ++ H ++ F ++ st "+00:00") with (B ++ 43 :: st "00:00")
    by (unfold B; by rewrite <-(assoc_L (++)); simpl; rewrite <-(assoc_L (++))).
  unfold time, split_zone.
  rewrite (trim_ends _ d 48); [|done|by rewrite last_app_cons|apply stamp_head|done].
  replace (strip_suffix (st "Z") (B ++ 43 :: st "00:00")) with (@None str).
  2: { symmetry.
       change (B ++ 43 :: st "00:00") with (B ++ (st "+00:0" ++ [48])).
       rewrite (assoc_L (++)). by apply strip_suffix_ne. }
  rewrite rsplit_at_last; [|done|].
  2: { intros x Hx. repeat (apply elem_of_cons in Hx as [->|Hx]; [done|]).
       by apply not_elem_of_nil in Hx. }
  assert (10 < str_len B) as Hlong.
  { pose proof (str_len_ge B). unfold B in *. rewrite length_app in *. simpl in *. lia. }
  rewrite (proj2 (Z.ltb_lt _ _) Hlong). simpl.
  assert (trim_end is_whitespace B = B) as ->.
  { unfold B. replace (D ++ 32 :: H ++ F) with ((D ++ [32]) ++ H ++ F)
      by (by rewrite <-(assoc_L (++))).
    apply trim_end_app; [by destruct H|].
    intros c Hc. by apply stamp_char_facts, stamp_tail_chars. }
  unfold B. rewrite replace_first_app by (apply stamp_not_elem; [by apply number_stamp|lia]).
  replace (D ++ st "T" ++ H ++ F) with ((D ++ st "T" ++ H) ++ F)
    by (by rewrite <-!(assoc_L (++))).
  rewrite trim_fraction_id by (try apply no_point; done || (intros ?%list_elem_of_singleton; done)).
  by rewrite <-!(assoc_L (++)).
Qed.

Lemma stored_of_stamp :
  sqlite_time_from_stored (D ++ st "T" ++ H ++ F ++ st "Z") =
    Ok (D ++ st " " ++ H ++ F ++ st "+00:00").
Proof.
  set (B := (D ++ 84 :: H) ++ F).
  replace (D ++ st "T" ++ H ++ F ++ st "Z") with (B ++ [90])
    by (unfold B; by rewrite <-!(assoc_L (++))).
  unfold sqlite_time_from_stored, split_zone.
  rewrite (trim_ends _ d 90); [|done|by rewrite last_snoc|apply stamp_head|done].
  rewrite (proj2 (strip_suffix_Some (st "Z") (B ++ [90]) B) eq_refl).
  cbn -[app trim_fraction replace_first st].
  unfold B. rewrite trim_fraction_id; [|by apply (no_point D H [84]); try done; intros ?%list_elem_of_singleton|done].
  rewrite <-(assoc_L (++)). change ((84 :: H) ++ F) with (84 :: H ++ F).
  rewrite replace_first_app by (apply stamp_not_elem; [by apply number_stamp|lia]).
  by rewrite <-!(assoc_L (++)).
Qed.
End Stamp.

(** stored times survive the database. A time the server writes with
    [sqlite_time] reads back through [time] as the RFC 3339 text of the same
    instant, and that text stored again through [sqlite_time_from_stored] is the
    text the database held, for every instant to the nanosecond. *)
Theorem sqlite_time_roundtrip t :
  time (sqlite_time t) = Ok (rfc3339_nano t) ∧
  sqlite_time_from_stored (rfc3339_nano t) = Ok (sqlite_time t).
Proof.
  destruct (format_time_shape t) as ([|d D] & H & F & Hfmt & HD & Hlen & HH & Hne & HF);
    [simpl in Hlen; lia|].
  unfold sqlite_time, rfc3339_nano. rewrite !Hfmt. split.
  - by apply time_of_stamp.
  - by apply stored_of_stamp.
Qed.
