(* ===== verification/Float64.v ===== *)
(** IEEE 754 binary64 arithmetic as Rust's [f64] computes it, on the
    executable [spec_float] of the standard library: the operations the
    sources use, and the few order facts their callers need. *)

From Stdlib Require Export Floats.SpecFloat.
From S2P Require Import Prelude.

Definition prec : Z := 53.
Definition emax : Z := 1024.

Abbreviation f64 := spec_float.

Definition fadd : f64 → f64 → f64 := SFadd prec emax.
Definition fsub : f64 → f64 → f64 := SFsub prec emax.
Definition fmul : f64 → f64 → f64 := SFmul prec emax.
Definition fdiv : f64 → f64 → f64 := SFdiv prec emax.
(** [a <= b] and [a < b]; false when either is NaN. *)
Definition fle : f64 → f64 → bool := SFleb.
Definition flt : f64 → f64 → bool := SFltb.

(** [n as f64] of an integer: round to nearest, ties to even. *)
Definition of_Z (n : Z) : f64 := binary_normalize prec emax n 0 false.

Definition is_nan (x : f64) : bool :=
  match x with S754_nan => true | _ => false end.
Definition is_finite (x : f64) : bool :=
  match x with S754_zero _ | S754_finite _ _ _ => true | _ => false end.

(** [f64::min]: the lesser number; the other operand when one is NaN. *)
Definition fmin (a b : f64) : f64 :=
  if is_nan a then b else if is_nan b then a else if fle a b then a else b.

(** [x as i64]: towards zero, saturating; zero for NaN. *)
Definition to_i64 (x : f64) : Z :=
  match x with
  | S754_nan | S754_zero _ => 0
  | S754_infinity s => if s : bool then i64_min else i64_max
  | S754_finite s m e =>
      let n := if 0 <=? e then Z.pos m * 2 ^ e else Z.pos m / 2 ^ (- e) in
      sat_i64 (if s : bool then - n else n)
  end.

(** ** Order *)

Lemma fle_refl x : is_nan x = false → fle x x = true.
Proof.
  destruct x as [s|s| |s m e]; try done; unfold fle, SFleb, SFcompare.
  - by destruct s.
  - intros _. destruct s; rewrite Z.compare_refl, ?Pos.compare_cont_refl; done.
Qed.

Lemma fmin_le_r a b : is_nan b = false → fle (fmin a b) b = true.
Proof.
  intros Hb. unfold fmin. destruct (is_nan a); [by apply fle_refl|].
  rewrite Hb. destruct (fle a b) eqn:Hab; [done|by apply fle_refl].
Qed.

(** A number with a positive sign bit: not NaN and not negative. *)
Definition nonneg (x : f64) : bool :=
  match x with
  | S754_zero _ => true
  | S754_infinity s => negb s
  | S754_nan => false
  | S754_finite s _ _ => negb s
  end.

Lemma nonneg_not_nan x : nonneg x = true → is_nan x = false.
Proof. by destruct x. Qed.

Lemma iter_pos_shr_nonneg p r : 0 <= shr_m r →  0 <= shr_m (SpecFloat.iter_pos shr_1 p r).
Proof.
  revert r. induction p as [p IH|p IH|]; intros r Hr; simpl.
  - apply IH, IH. destruct r as [[|q|q] ? ?]; simpl in *; try lia; destruct q; simpl; lia.
  - by apply IH, IH.
  - destruct r as [[|q|q] ? ?]; simpl in *; try lia; destruct q; simpl; lia.
Qed.

Lemma shr_nonneg r e n : 0 <= shr_m r → 0 <= shr_m (fst (shr r e n)).
Proof. intros. destruct n; simpl; auto using iter_pos_shr_nonneg. Qed.

Lemma shr_fexp_nonneg m e l : 0 <= m → 0 <= shr_m (fst (shr_fexp prec emax m e l)).
Proof. intros. unfold shr_fexp. apply shr_nonneg. by destruct l as [|[]]. Qed.

(** Rounding a non-negative magnitude with a positive sign never goes below
    zero or to NaN. *)
Lemma round_aux_nonneg m e l :
  0 <= m → nonneg (binary_round_aux prec emax false m e l) = true.
Proof.
  intros Hm. unfold binary_round_aux.
  pose proof (shr_fexp_nonneg m e l Hm) as H1.
  destruct (shr_fexp prec emax m e l) as [r1 e1]. simpl in H1.
  assert (H2 : 0 <= round_nearest_even (shr_m r1) (loc_of_shr_record r1)).
  { unfold round_nearest_even. destruct (loc_of_shr_record r1) as [|[]]; try lia.
    destruct (Z.even _); lia. }
  pose proof (shr_fexp_nonneg _ e1 loc_Exact H2) as H3.
  destruct (shr_fexp prec emax _ e1 loc_Exact) as [r2 e2]. simpl in H3.
  destruct (shr_m r2) as [|p|p]; simpl; try done. by destruct (_ <=? _).
Qed.

Lemma normalize_nonneg m e : 0 <= m → nonneg (binary_normalize prec emax m e false) = true.
Proof.
  destruct m as [|p|p]; try done; intros _. unfold binary_normalize, binary_round.
  by destruct (shl_align _ _ _) as [mz ez]; apply round_aux_nonneg.
Qed.

Lemma of_Z_nonneg n : 0 <= n → nonneg (of_Z n) = true.
Proof. apply normalize_nonneg. Qed.

Lemma fmul_nonneg a b :
  nonneg a = true → nonneg b = true → is_finite a = true → is_finite b = true →
  nonneg (fmul a b) = true.
Proof.
  destruct a as [sa|sa| |sa ma ea], b as [sb|sb| |sb mb eb]; try done.
  simpl. destruct sa, sb; try done. intros. by apply round_aux_nonneg.
Qed.

Lemma fadd_nonneg a b : nonneg a = true → nonneg b = true → nonneg (fadd a b) = true.
Proof.
  destruct a as [sa|sa| |sa ma ea], b as [sb|sb| |sb mb eb]; try done;
    simpl; try (destruct sa; done); try (destruct sb; done); try (by destruct sa, sb).
  destruct sa, sb; try done. intros _ _. apply normalize_nonneg. simpl. lia.
Qed.

Lemma fdiv_nonneg a b :
  nonneg a = true → nonneg b = true → is_finite a = true → is_finite b = true →
  (∀ s, b ≠ S754_zero s) → nonneg (fdiv a b) = true.
Proof.
  destruct a as [sa|sa| |sa ma ea], b as [sb|sb| |sb mb eb]; try done; simpl;
    try (by intros _ _ _ _ H; destruct (H sb)).
  destruct sa, sb; try done. intros _ _ _ _ _. unfold fdiv, SFdiv.
  unfold SFdiv_core_binary.
  set (e' := Z.min _ _). set (s := _ - e').
  set (m' := match s with Z.pos _ => _ | Z0 => _ | Z.neg _ => _ end).
  assert (0 <= m') as Hm'.
  { unfold m'. destruct s; try done. rewrite Z.shiftl_nonneg. done. }
  destruct (Z.div_eucl m' (Z.pos mb)) as [q r] eqn:Hqr.
  apply round_aux_nonneg.
  pose proof (Z_div_mod m' (Z.pos mb) ltac:(lia)) as Hdm. rewrite Hqr in Hdm. nia.
Qed.

Lemma fmin_nonneg a b : nonneg a = true → nonneg b = true → nonneg (fmin a b) = true.
Proof.
  intros Ha Hb. unfold fmin.
  destruct (is_nan a), (is_nan b); try done. by destruct (fle a b).
Qed.

(** Of two numbers the one that is not less is at least the other. *)
Lemma not_flt_fle a b : is_nan a = false → is_nan b = false → flt a b = false → fle b a = true.
Proof.
  unfold flt, fle, SFltb, SFleb. destruct a as [sa|sa| |sa ma ea], b as [sb|sb| |sb mb eb]; try done; cbn;
    try (by destruct sa); try (by destruct sb); try (by destruct sa, sb).
  intros _ _. destruct sa, sb; try done; rewrite (Z.compare_antisym eb ea); destruct (Z.compare eb ea); cbn; try done;
    fold (Pos.compare ma mb) (Pos.compare mb ma); rewrite (Pos.compare_antisym mb ma); by destruct (Pos.compare mb ma).
Qed.

Lemma round_aux_not_nan s m e l : 0 <= m → is_nan (binary_round_aux prec emax s m e l) = false.
Proof.
  intros Hm. unfold binary_round_aux. pose proof (shr_fexp_nonneg m e l Hm) as H1.
  destruct (shr_fexp prec emax m e l) as [r1 e1]. cbn in H1.
  assert (0 <= round_nearest_even (shr_m r1) (loc_of_shr_record r1)) as H2.
  { unfold round_nearest_even. destruct (loc_of_shr_record r1) as [|[]]; try lia. destruct (Z.even _); lia. }
  pose proof (shr_fexp_nonneg _ e1 loc_Exact H2) as H3. destruct (shr_fexp prec emax _ e1 loc_Exact) as [r2 e2]. cbn in H3.
  destruct (shr_m r2) as [|p|p]; try done. by destruct (_ <=? _).
Qed.

(** A number over one that is neither zero nor infinite is a number. *)
Lemma fdiv_not_nan a s m e : is_nan a = false → is_nan (fdiv a (S754_finite s m e)) = false.
Proof.
  destruct a as [sa|sa| |sa ma ea]; try done; intros _. unfold fdiv, SFdiv, SFdiv_core_binary.
  set (e' := Z.min _ _). set (d := _ - e'). set (m' := match d with Z.pos _ => _ | Z0 => _ | Z.neg _ => _ end).
  assert (0 <= m') as Hm' by (unfold m'; destruct d; try done; by rewrite Z.shiftl_nonneg).
  destruct (Z.div_eucl m' (Z.pos m)) as [q r] eqn:Hqr. apply round_aux_not_nan.
  pose proof (Z_div_mod m' (Z.pos m) ltac:(lia)) as Hdm. rewrite Hqr in Hdm. nia.
Qed.
