(* ===== verification/RoomState.v ===== *)
(** The Room State (server/src/modules/listen_together/room_state.rs): the
    snapshot a Room shares with its clients and what each command does to it.
    Time comes in as an argument, as in the code. *)

From S2P Require Import Prelude.

Definition MAX_ROOM_QUEUE_TRACKS : Z := 500.

Record RoomState := mkRoomState {
  revision : Z;
  track_ids : list str;
  current_index : option Z;
  playing : bool;
  position_ms : Z;
  position_at_ms : Z;
  lyrics_open : bool;
  guest_count : Z;
  max_guests : Z;
  expires_at : str;
  invite_url : option str;
}.

Inductive SkipDirection := Next | Previous.

Inductive Command :=
| PlayTracks (tracks : list str) (index : Z)
| Resume
| Pause
| Seek (position : Z)
| Skip (direction : SkipDirection) (from_track_id : option str) (from_index : option Z)
| SetLyricsOpen (open : bool).

(** What serde yields for the machine-integer fields of a command. *)
Definition command_typed (c : Command) : Prop :=
  match c with
  | PlayTracks _ i => is_u64 i
  | Seek p => is_i64 p
  | Skip _ _ (Some i) => is_u64 i
  | _ => True
  end.

(** [Command::validate]. *)
Definition validate (c : Command) : outcome str unit :=
  match c with
  | PlayTracks tracks index =>
      if zlen tracks =? 0 then Err (st "trackIds cannot be empty")
      else if MAX_ROOM_QUEUE_TRACKS <? zlen tracks then
        Err (st "trackIds holds too many Tracks")
      else if zlen tracks <=? index then Err (st "index is outside trackIds")
      else Ok tt
  | Seek position =>
      if position <? 0 then Err (st "positionMs cannot be negative") else Ok tt
  | _ => Ok tt
  end.

(** ** The operations *)

Definition new (max : Z) (expires : str) (now_ms : Z) : RoomState := {|
  revision := 1; track_ids := []; current_index := None; playing := false;
  position_ms := 0; position_at_ms := now_ms; lyrics_open := false;
  guest_count := 0; max_guests := max; expires_at := expires; invite_url := None |}.

(** Field updates. *)
Definition with_position (position now_ms : Z) (s : RoomState) : RoomState := {|
  revision := revision s; track_ids := track_ids s; current_index := current_index s;
  playing := playing s; position_ms := position; position_at_ms := now_ms;
  lyrics_open := lyrics_open s; guest_count := guest_count s; max_guests := max_guests s;
  expires_at := expires_at s; invite_url := invite_url s |}.
Definition with_playing (p : bool) (s : RoomState) : RoomState := {|
  revision := revision s; track_ids := track_ids s; current_index := current_index s;
  playing := p; position_ms := position_ms s; position_at_ms := position_at_ms s;
  lyrics_open := lyrics_open s; guest_count := guest_count s; max_guests := max_guests s;
  expires_at := expires_at s; invite_url := invite_url s |}.
Definition with_current (i : Z) (s : RoomState) : RoomState := {|
  revision := revision s; track_ids := track_ids s; current_index := Some i;
  playing := playing s; position_ms := position_ms s; position_at_ms := position_at_ms s;
  lyrics_open := lyrics_open s; guest_count := guest_count s; max_guests := max_guests s;
  expires_at := expires_at s; invite_url := invite_url s |}.
Definition with_tracks (ts : list str) (s : RoomState) : RoomState := {|
  revision := revision s; track_ids := ts; current_index := current_index s;
  playing := playing s; position_ms := position_ms s; position_at_ms := position_at_ms s;
  lyrics_open := lyrics_open s; guest_count := guest_count s; max_guests := max_guests s;
  expires_at := expires_at s; invite_url := invite_url s |}.
Definition with_lyrics (b : bool) (s : RoomState) : RoomState := {|
  revision := revision s; track_ids := track_ids s; current_index := current_index s;
  playing := playing s; position_ms := position_ms s; position_at_ms := position_at_ms s;
  lyrics_open := b; guest_count := guest_count s; max_guests := max_guests s;
  expires_at := expires_at s; invite_url := invite_url s |}.
Definition with_revision (r : Z) (s : RoomState) : RoomState := {|
  revision := r; track_ids := track_ids s; current_index := current_index s;
  playing := playing s; position_ms := position_ms s; position_at_ms := position_at_ms s;
  lyrics_open := lyrics_open s; guest_count := guest_count s; max_guests := max_guests s;
  expires_at := expires_at s; invite_url := invite_url s |}.
Definition with_guest_count (n : Z) (s : RoomState) : RoomState := {|
  revision := revision s; track_ids := track_ids s; current_index := current_index s;
  playing := playing s; position_ms := position_ms s; position_at_ms := position_at_ms s;
  lyrics_open := lyrics_open s; guest_count := n; max_guests := max_guests s;
  expires_at := expires_at s; invite_url := invite_url s |}.
Definition with_invite_url (u : option str) (s : RoomState) : RoomState := {|
  revision := revision s; track_ids := track_ids s; current_index := current_index s;
  playing := playing s; position_ms := position_ms s; position_at_ms := position_at_ms s;
  lyrics_open := lyrics_open s; guest_count := guest_count s; max_guests := max_guests s;
  expires_at := expires_at s; invite_url := u |}.

(** [RoomState::playhead]: saturating [i64] arithmetic. *)
Definition playhead (s : RoomState) (now_ms : Z) : Z :=
  if playing s then
    let elapsed := Z.max (sat_i64 (now_ms - position_at_ms s)) 0 in
    sat_i64 (position_ms s + elapsed)
  else position_ms s.

Definition set_position (s : RoomState) (position now_ms : Z) : RoomState :=
  with_position position now_ms s.

Definition start_track (s : RoomState) (index now_ms : Z) : RoomState :=
  set_position (with_current index s) 0 now_ms.

(** [RoomState::skip]: whether anything changed, and the new state.
    [self.track_ids[index]] panics out of bounds. *)
Definition skip (s : RoomState) (direction : SkipDirection)
    (from_track_id : option str) (from_index : option Z) (now_ms : Z)
    : outcome Empty_set (bool * RoomState) :=
  match current_index s with
  | None => Ok (false, s)
  | Some i =>
      stale ← match from_track_id with
              | None => Ok false
              | Some id => t ← index (track_ids s) i; Ok (negb (bool_decide (t = id)))
              end;
      let moved := match from_index with None => false | Some from => negb (from =? i) end in
      if stale || moved then Ok (false, s)
      else match direction with
      | Next =>
          if i + 1 <? zlen (track_ids s) then Ok (true, start_track s (i + 1) now_ms)
          else
            let changed := playing s || negb (position_ms s =? 0) in
            Ok (changed,
                if changed then set_position (with_playing false s) 0 now_ms else s)
      | Previous => Ok (true, start_track s (Z.max (i - 1) 0) now_ms)
      end
  end.

(** [RoomState::apply]. *)
Definition apply_inner (s : RoomState) (c : Command) (now_ms : Z)
    : outcome Empty_set (bool * RoomState) :=
  match c with
  | PlayTracks tracks index =>
      Ok (true, with_playing true (start_track (with_tracks tracks s) index now_ms))
  | Resume =>
      if bool_decide (is_Some (current_index s)) && negb (playing s) then
        Ok (true, with_playing true (with_position (position_ms s) now_ms s))
      else Ok (false, s)
  | Pause =>
      if playing s then
        Ok (true, with_playing false (set_position s (playhead s now_ms) now_ms))
      else Ok (false, s)
  | Seek position =>
      if bool_decide (is_Some (current_index s)) then
        Ok (true, set_position s position now_ms)
      else Ok (false, s)
  | Skip direction from_track_id from_index =>
      skip s direction from_track_id from_index now_ms
  | SetLyricsOpen open =>
      if negb (bool_decide (lyrics_open s = open)) then Ok (true, with_lyrics open s)
      else Ok (false, s)
  end.

(** [self.revision += 1], an [i64] that panics past its end. *)
Definition raise_revision (s : RoomState) : outcome Empty_set RoomState :=
  n ← add_i64 (revision s) 1; Ok (with_revision n s).

Definition apply (s : RoomState) (c : Command) (now_ms : Z)
    : outcome Empty_set (bool * RoomState) :=
  '(changed, s') ← apply_inner s c now_ms;
  if changed : bool then s' ← raise_revision s'; Ok (true, s') else Ok (false, s').

Definition set_guest_count (s : RoomState) (n : Z) : outcome Empty_set RoomState :=
  raise_revision (with_guest_count n s).

(** ** Well-formed states *)

(** The current Track is in the Queue, nothing plays without one, and the
    Queue and the position are within the contract's bounds. *)
Record wf (s : RoomState) : Prop := {
  wf_revision : 1 <= revision s <= i64_max;
  wf_index : ∀ i, current_index s = Some i → 0 <= i < zlen (track_ids s);
  wf_playing : playing s = true → is_Some (current_index s);
  wf_position : 0 <= position_ms s <= i64_max;
  wf_idle : current_index s = None → track_ids s = [] ∧ position_ms s = 0;
  wf_queue : zlen (track_ids s) <= MAX_ROOM_QUEUE_TRACKS;
  wf_invite : invite_url s = None;
}.

(** A wall clock reading the server stamps on a command. *)
Definition valid_now (now_ms : Z) : Prop := 0 <= now_ms <= i64_max.

(** ** Specification: the transport a Room promises its clients

    Listeners hear one queue at one playhead: the clock either runs since a
    start instant or is stopped at a position. *)
Inductive clock := Running (start : Z) | Stopped (pos : Z).

Record Transport := mkTransport {
  t_queue : list str;
  t_current : option Z;
  t_clock : clock;
}.

Definition head_at (c : clock) (now : Z) : Z :=
  match c with Running start => now - start | Stopped pos => pos end.

(** Moves the playhead to [p] without starting or stopping the clock. *)
Definition jump (c : clock) (p now : Z) : clock :=
  match c with Running _ => Running (now - p) | Stopped _ => Stopped p end.

(** The Track and position a skip names, if any, are the current ones. *)
Definition reports_current (t : Transport) (i : Z) (id : option str) (from : option Z)
    : bool :=
  from_option (λ x, bool_decide (t_queue t !! Z.to_nat i = Some x)) true id &&
  from_option (λ j, j =? i) true from.

Definition t_skip (t : Transport) (d : SkipDirection) (id : option str)
    (from : option Z) (now : Z) : Transport :=
  match t_current t with
  | None => t
  | Some i =>
      if negb (reports_current t i id from) then t
      else match d with
      | Next =>
          if i + 1 <? zlen (t_queue t)
          then mkTransport (t_queue t) (Some (i + 1)) (jump (t_clock t) 0 now)
          else mkTransport (t_queue t) (Some i) (Stopped 0)
      | Previous =>
          mkTransport (t_queue t) (Some (Z.max (i - 1) 0)) (jump (t_clock t) 0 now)
      end
  end.

Definition t_step (t : Transport) (c : Command) (now : Z) : Transport :=
  match c with
  | PlayTracks tracks i => mkTransport tracks (Some i) (Running now)
  | Resume =>
      match t_current t with
      | None => t
      | Some _ => mkTransport (t_queue t) (t_current t)
                    (Running (now - head_at (t_clock t) now))
      end
  | Pause => mkTransport (t_queue t) (t_current t) (Stopped (head_at (t_clock t) now))
  | Seek p =>
      match t_current t with
      | None => t
      | Some _ => mkTransport (t_queue t) (t_current t) (jump (t_clock t) p now)
      end
  | Skip d id from => t_skip t d id from now
  | SetLyricsOpen _ => t
  end.

(** The transport a snapshot stands for. *)
Definition transport (s : RoomState) : Transport :=
  mkTransport (track_ids s) (current_index s)
    (if playing s then Running (position_at_ms s - position_ms s)
     else Stopped (position_ms s)).

(** ** Proofs *)

Ltac unfold_room :=
  unfold apply, apply_inner, start_track, set_position, with_position, with_playing,
    with_current, with_tracks, with_lyrics, with_revision in *; simpl in *.

Lemma new_wf max expires now : wf (new max expires now).
Proof. split; simpl; try done; unfold zlen, is_i64, i64_min, i64_max, MAX_ROOM_QUEUE_TRACKS; simpl; lia. Qed.

(** Raising the revision panics at the last [i64], and does nothing else. *)
Lemma raise_cases s : 1 <= revision s <= i64_max →
  raise_revision s = Ok (with_revision (revision s + 1) s) ∧ revision s < i64_max ∨
  raise_revision s = Panic ∧ revision s = i64_max.
Proof.
  unfold raise_revision. intros Hr. destruct (decide (revision s = i64_max)) as [->|Hne].
  - by right.
  - left. rewrite add_i64_Ok by (unfold i64_min, i64_max in *; lia). simpl. split; [done|lia].
Qed.

Lemma with_revision_wf n s : wf s → 1 <= n <= i64_max → wf (with_revision n s).
Proof. by intros []; split. Qed.

(** The state after a Guest joined or left. *)
Definition counted (n : Z) (s : RoomState) : RoomState := with_revision (revision s + 1) (with_guest_count n s).

Lemma set_guest_count_cases s n : wf s →
  set_guest_count s n = Ok (counted n s) ∧ wf (counted n s) ∨
  set_guest_count s n = Panic ∧ revision s = i64_max.
Proof.
  intros Hwf. destruct (raise_cases (with_guest_count n s) (wf_revision s Hwf)) as [[Hr Hlt]|Hr]; [left|by right].
  split; [done|]. simpl in Hlt. apply with_revision_wf; [by destruct Hwf; split|]. pose proof (wf_revision s Hwf). simpl. lia.
Qed.

Lemma raise_Ok s s' : raise_revision s = Ok s' → s' = with_revision (revision s + 1) s.
Proof. unfold raise_revision, add_i64. case_match; [|done]. simpl. congruence. Qed.

Lemma validate_PlayTracks tracks i :
  command_typed (PlayTracks tracks i) → validate (PlayTracks tracks i) = Ok tt →
  0 <= i < zlen tracks ∧ zlen tracks <= MAX_ROOM_QUEUE_TRACKS.
Proof.
  simpl. unfold is_u64. intros ?. repeat case_match; try done; bool_to_prop. lia.
Qed.

Lemma validate_Seek p :
  command_typed (Seek p) → validate (Seek p) = Ok tt → 0 <= p <= i64_max.
Proof. simpl. unfold is_i64. case_match; [done|]. bool_to_prop. lia. Qed.

Lemma playhead_range s now : wf s → 0 <= playhead s now <= i64_max.
Proof.
  intros [_ _ _ Hp _ _ _]. unfold playhead. destruct (playing s); [|done].
  unfold sat_i64, i64_min, i64_max in *. lia.
Qed.

(** A skip on a well-formed state never indexes out of the Queue. *)
Lemma skip_cases s d id from now : wf s →
  ∃ changed s', skip s d id from now = Ok (changed, s') ∧ wf s' ∧
    revision s' = revision s ∧ (changed = false → s' = s) ∧
    guest_count s' = guest_count s ∧ max_guests s' = max_guests s ∧
    lyrics_open s' = lyrics_open s ∧ expires_at s' = expires_at s.
Proof.
  intros Hwf. unfold skip. destruct (current_index s) as [i|] eqn:Hi.
  2: { eexists _, _. split_and!; eauto. }
  pose proof (wf_index s Hwf i Hi) as Hr.
  destruct (@index_in Empty_set str (track_ids s) i) as (t & Ht & _); [lia..|].
  assert (∃ b, match id with
     | None => Ok false
     | Some id => t ← @index Empty_set _ (track_ids s) i; Ok (negb (bool_decide (t = id)))
     end = Ok b) as [stale ->].
  { destruct id as [id|]; [rewrite Ht; simpl|]; eauto. }
  simpl. destruct (stale || _); [eexists _, _; split_and!; eauto|].
  destruct d.
  - destruct (i + 1 <? zlen (track_ids s)) eqn:Hlast; bool_to_prop.
    + eexists _, _. split; [done|]. destruct Hwf. unfold_room.
      split_and!; try done. split; simpl; try done.
      intros ? [= <-]. lia.
    + eexists _, _. split; [done|].
      destruct (playing s || _) eqn:Hc; [|done].
      destruct Hwf. unfold_room. split_and!; try done.
      split; simpl; try done. intros H. congruence.
  - eexists _, _. split; [done|]. destruct Hwf. unfold_room.
    split_and!; try done. split; simpl; try done.
    intros ? [= <-]. lia.
Qed.

Lemma apply_Ok s c now changed s' : apply s c now = Ok (changed, s') →
  ∃ s1, apply_inner s c now = Ok (changed, s1) ∧
    s' = if changed : bool then with_revision (revision s1 + 1) s1 else s1.
Proof.
  unfold apply. destruct (apply_inner s c now) as [[ch s1]|[]| |]; [|done..]. simpl.
  destruct ch; [|intros [= <- <-]; by exists s1].
  destruct (raise_revision s1) as [s2|[]| |] eqn:E; [|done..]. apply raise_Ok in E as ->.
  intros [= <- <-]. by exists s1.
Qed.

Lemma skip_rises s d id from now changed s' : skip s d id from now = Ok (changed, s') → revision s' = revision s.
Proof.
  unfold skip. destruct (current_index s) as [i|]; [|by intros [= _ <-]].
  destruct (match id with None => _ | Some _ => _ end) as [b|[]| |]; simpl; try done.
  destruct (b || _); [by intros [= _ <-]|]. destruct d; [|by intros [= _ <-]].
  destruct (i + 1 <? _); [by intros [= _ <-]|]. intros [= _ <-]. by destruct (playing s || _).
Qed.

Lemma apply_rises s c now changed s' : apply s c now = Ok (changed, s') → revision s' <= revision s + 1.
Proof.
  intros (s1 & Hin & ->)%apply_Ok. assert (revision s1 = revision s) as Hrev.
  { destruct c; simpl in Hin; try (by eapply skip_rises); repeat case_match; by simplify_eq/=. }
  destruct changed; simpl; lia.
Qed.

(** Whether the Lyrics View is open after a command. *)
Definition lyrics_after (c : Command) (s : RoomState) : bool :=
  match c with SetLyricsOpen open => open | _ => lyrics_open s end.

(** Every command either leaves the state alone or applies it, and returns. *)
Lemma apply_inner_cases s c now :
  wf s → command_typed c → validate c = Ok tt →
  ∃ changed s', apply_inner s c now = Ok (changed, s') ∧ wf s' ∧
    revision s' = revision s ∧ (changed = false → s' = s) ∧
    guest_count s' = guest_count s ∧ max_guests s' = max_guests s ∧
    lyrics_open s' = lyrics_after c s ∧ expires_at s' = expires_at s.
Proof.
  intros Hwf Hty Hv. destruct c as [tracks i| | |p|d id from|open]; simpl.
  - apply validate_PlayTracks in Hv as [? ?]; [|done]. destruct Hwf.
    eexists _, _. split; [done|]. unfold_room. split_and!; try done.
    split; simpl; try done. by intros ? [= <-].
  - case_match eqn:Hc; [|eexists _, _; by split_and!].
    bool_to_prop. destruct Hwf. eexists _, _. split; [done|]. unfold_room.
    by split_and!.
  - destruct (playing s) eqn:Hp; [|eexists _, _; by split_and!].
    pose proof (playhead_range s now Hwf). destruct Hwf as [? ? Hpl ? ? ? ?].
    eexists _, _. split; [done|]. unfold_room. split_and!; try done.
    split; simpl; try done. intros H'. rewrite H' in Hpl. destruct (Hpl Hp). done.
  - apply validate_Seek in Hv; [|done].
    case_match eqn:Hc; [|eexists _, _; by split_and!].
    bool_to_prop. destruct Hwf. eexists _, _. split; [done|]. unfold_room.
    split_and!; try done. split; simpl; try done.
    intros H'. rewrite H' in Hc. by destruct Hc.
  - by apply skip_cases.
  - case_match eqn:Hc; eexists _, _; (split; [done|]); unfold_room.
    + destruct Hwf. by split_and!.
    + by bool_to_prop; split_and!.
Qed.

Lemma apply_cases s c now :
  wf s → command_typed c → validate c = Ok tt →
  match apply s c now with
  | Ok (changed, s') =>
      wf s' ∧ guest_count s' = guest_count s ∧ max_guests s' = max_guests s ∧
      expires_at s' = expires_at s ∧ lyrics_open s' = lyrics_after c s ∧
      (if changed then revision s' = revision s + 1 else s' = s)
  | Panic => revision s = i64_max
  | _ => False
  end.
Proof.
  intros Hwf Hty Hv.
  destruct (apply_inner_cases s c now Hwf Hty Hv)
    as (changed & s' & Heq & Hwf' & Hrev & Hsame & Hg & Hm & Hl & He).
  unfold apply. rewrite Heq. simpl. destruct changed; [|specialize (Hsame eq_refl) as ->; by split_and!].
  destruct (raise_cases s' (wf_revision s' Hwf')) as [[-> Hlt]|[-> Hmax]]; simpl; [|congruence].
  split_and!; try done; [|lia]. apply with_revision_wf; [done|].
  pose proof (wf_revision s' Hwf'). lia.
Qed.

Lemma apply_keeps_wf s c now changed s' : wf s → command_typed c → validate c = Ok tt →
  apply s c now = Ok (changed, s') → wf s'.
Proof. intros Hwf Hty Hv Ha. pose proof (apply_cases s c now Hwf Hty Hv) as H. rewrite Ha in H. apply H. Qed.

(** C12: a validated command on a well-formed Room State keeps it well formed
    (the current Track lies in the Queue, nothing plays without a current Track,
    the position is a non-negative [i64], the Queue holds at most 500 Tracks),
    opens or closes the Lyrics View only when it says so, leaves the Guests and
    the expiry alone, raises the revision by exactly one when it reports a
    change, and otherwise leaves the whole state as it was. It panics only at
    the last revision an [i64] has. *)
Theorem apply_correct s c now :
  wf s → command_typed c → validate c = Ok tt →
  match apply s c now with
  | Ok (changed, s') =>
      wf s' ∧ guest_count s' = guest_count s ∧ max_guests s' = max_guests s ∧
      expires_at s' = expires_at s ∧ lyrics_open s' = lyrics_after c s ∧
      (if changed then revision s' = revision s + 1 else s' = s)
  | Panic => revision s = i64_max
  | _ => False
  end.
Proof. apply apply_cases. Qed.

(** The clock reading at [now] is not before the last stamp, and the playhead
    still fits in an [i64] (292 million years of playing). *)
Definition clock_ok (s : RoomState) (now : Z) : Prop :=
  0 <= position_at_ms s <= now ∧ now <= i64_max ∧
  position_ms s + (now - position_at_ms s) <= i64_max.

Lemma playhead_head_at s now :
  wf s → clock_ok s now → playhead s now = head_at (t_clock (transport s)) now.
Proof.
  intros Hwf (? & ? & ?). destruct (wf_position s Hwf). unfold playhead, transport. simpl.
  destruct (playing s); [|done]. simpl.
  rewrite (sat_i64_id (now - _)) by (unfold is_i64, i64_min, i64_max in *; lia).
  rewrite Z.max_l by lia.
  rewrite sat_i64_id by (unfold is_i64, i64_min, i64_max in *; lia). lia.
Qed.

Lemma reports_current_stale s i id from :
  0 <= i < zlen (track_ids s) →
  match id with
  | None => Ok false
  | Some id => t ← @index Empty_set _ (track_ids s) i; Ok (negb (bool_decide (t = id)))
  end = Ok (negb (from_option (λ x, bool_decide (track_ids s !! Z.to_nat i = Some x)) true id)) ∧
  match from with None => false | Some from => negb (from =? i) end =
    negb (from_option (λ j, j =? i) true from).
Proof.
  intros Hr. split; [|by destruct from].
  destruct id as [id|]; [|done]. simpl.
  destruct (@index_in Empty_set str (track_ids s) i) as (t & -> & ->); [lia..|]. simpl.
  do 2 f_equal. apply bool_decide_ext. split; congruence.
Qed.

Lemma skip_refines s d id from now changed s' :
  wf s → skip s d id from now = Ok (changed, s') →
  transport s' = t_skip (transport s) d id from now.
Proof.
  intros Hwf. unfold skip, t_skip, transport at 2. simpl.
  destruct (current_index s) as [i|] eqn:Hi; [|by intros [= <- <-]].
  pose proof (wf_index s Hwf i Hi) as Hr.
  destruct (reports_current_stale s i id from Hr) as [-> ->]. simpl.
  unfold reports_current. simpl. rewrite negb_andb.
  destruct (_ || _); [by intros [= <- <-]; unfold transport; rewrite Hi|].
  destruct d.
  - case_match eqn:Hlast; [by intros [= <- <-]; unfold transport; simpl; destruct (playing s)|].
    intros [= <- <-].
    destruct (playing s) eqn:Hp; simpl; [unfold transport; simpl; by rewrite Hi|].
    destruct (position_ms s =? 0) eqn:Hz; bool_to_prop; simpl;
      unfold transport; simpl; by rewrite ?Hp, ?Hz, Hi.
  - intros [= <- <-]. unfold transport. simpl. by destruct (playing s).
Qed.

(** C13: the Room State implements the shared transport. Read through
    [transport], each command moves the queue, the current Track and the clock
    exactly as the specification does, as long as the server clock does not run
    backwards; and the playhead a snapshot gives for a later moment is the
    specified one. *)
Theorem apply_refines_transport s c now changed s' :
  wf s → clock_ok s now → apply s c now = Ok (changed, s') →
  transport s' = t_step (transport s) c now ∧
  ∀ later, wf s' → clock_ok s' later →
    playhead s' later = head_at (t_clock (t_step (transport s) c now)) later.
Proof.
  intros Hwf Hclk Heq.
  assert (Htr : transport s' = t_step (transport s) c now).
  2: { split; [done|]. intros later Hwf' Hl. by rewrite <-Htr, playhead_head_at. }
  pose proof (playhead_head_at s now Hwf Hclk) as Hph.
  apply apply_Ok in Heq as (s1 & Hin & ->).
  assert (transport (if changed then with_revision (revision s1 + 1) s1 else s1) = transport s1) as -> by (by destruct changed).
  destruct c as [tracks i| | |p|d id from|open]; simpl in Hin |- *.
  - injection Hin as <- <-. unfold transport; simpl. by rewrite Z.sub_0_r.
  - destruct (current_index s) as [i|] eqn:Hi; simpl in Hin;
      [|injection Hin as <- <-; unfold transport; by rewrite Hi].
    destruct (playing s) eqn:Hp; injection Hin as <- <-; unfold transport; simpl;
      rewrite ?Hp, ?Hi; simpl; f_equal; f_equal; lia.
  - destruct (playing s) eqn:Hp; injection Hin as <- <-; unfold transport in *; simpl;
      rewrite ?Hp in *; simpl in *; by rewrite ?Hph.
  - destruct (current_index s) as [i|] eqn:Hi; simpl in Hin; injection Hin as <- <-;
      unfold transport; simpl; rewrite ?Hi; [|done]. by destruct (playing s).
  - by eapply skip_refines.
  - case_match; injection Hin as <- <-; done.
Qed.

Lemma skip_revision n s d id from now : skip (with_revision n s) d id from now =
  '(changed, s') ← skip s d id from now; Ok (changed, with_revision n s').
Proof.
  unfold skip. simpl. destruct (current_index s) as [i|]; [|done].
  destruct (match id with None => _ | Some _ => _ end) as [b|[]| |]; simpl; try done.
  destruct (b || _); [done|]. destruct d; [|done]. destruct (i + 1 <? _); [done|]. by destruct (playing s || _).
Qed.

(** the end of a Track counts once. When every client reports the end of
    the same queue position, the first report is the only one that can change
    the Room, whatever the Track is and even if it is queued twice in a row. *)
Theorem skip_report_once s id i now now' changed s' :
  wf s → apply s (Skip Next id (Some i)) now = Ok (changed, s') →
  apply s' (Skip Next id (Some i)) now' = Ok (false, s').
Proof.
  intros Hwf (s1 & Hskip & ->)%apply_Ok. simpl in Hskip. unfold apply. simpl.
  cut (skip s1 Next id (Some i) now' = Ok (false, s1)).
  { intros Hs. destruct changed; [by rewrite skip_revision, Hs|by rewrite Hs]. }
  unfold skip in Hskip. destruct (current_index s) as [j|] eqn:Hj.
  2: { injection Hskip as <- <-. unfold skip. by rewrite Hj. }
  pose proof (wf_index s Hwf j Hj) as Hr.
  destruct (reports_current_stale s j id (Some i) Hr) as [Hst Hmv].
  rewrite Hst, Hmv in Hskip. simpl in Hskip. clear Hmv.
  destruct (negb _ || _) eqn:Hc in Hskip.
  { injection Hskip as <- <-. unfold skip. rewrite Hj, Hst. simpl. by rewrite Hc. }
  bool_to_prop. subst i.
  destruct (j + 1 <? zlen (track_ids s)) eqn:Hlast.
  - injection Hskip as <- <-. bool_to_prop. unfold skip. simpl.
    destruct (reports_current_stale s (j + 1) id (Some j)) as [-> ->]; [lia|]. simpl.
    rewrite (proj2 (Z.eqb_neq j (j + 1))) by lia. simpl. by rewrite orb_true_r.
  - injection Hskip as <- <-. destruct (playing s || _) eqn:Hch; simpl.
    + unfold skip; simpl. rewrite Hj, Hst. simpl.
      destruct (negb _ || _); [done|]. by rewrite Hlast.
    + unfold skip. rewrite Hj, Hst. simpl.
      destruct (negb _ || _); [done|]. rewrite Hlast. by rewrite Hch.
Qed.

(** ** Witnesses on a Room that plays two Tracks *)

Definition example_room : RoomState :=
  with_playing true (start_track (with_tracks [st "a"; st "a"] (new 8 (st "2026-10-31T00:00:00Z") 0)) 0 1000).

Lemma example_room_wf : wf example_room.
Proof.
  split; try done.
  - intros i [= <-]. vm_compute. split; congruence.
Qed.

Lemma apply_correct_witness :
  apply example_room (Seek 5000) 2000 = Ok (true, with_revision 2 (with_position 5000 2000 example_room)) ∧
  match apply example_room (Seek 5000) 2000 with
  | Ok (changed, s') =>
      wf s' ∧ guest_count s' = guest_count example_room ∧ max_guests s' = max_guests example_room ∧
      expires_at s' = expires_at example_room ∧ lyrics_open s' = lyrics_after (Seek 5000) example_room ∧
      (if changed then revision s' = revision example_room + 1 else s' = example_room)
  | Panic => revision example_room = i64_max
  | _ => False
  end.
Proof.
  split; [by vm_compute|].
  apply (apply_correct example_room (Seek 5000) 2000);
    [exact example_room_wf | vm_compute; split; congruence | reflexivity].
Defined.

Lemma apply_refines_transport_witness :
  clock_ok example_room 4000 ∧
  ∃ s', apply example_room Pause 4000 = Ok (true, s') ∧
    transport s' = mkTransport [st "a"; st "a"] (Some 0) (Stopped 3000).
Proof.
  split; [repeat split; vm_compute; congruence|].
  eexists. split; [vm_compute; reflexivity|].
  etransitivity;
    [refine (proj1 (apply_refines_transport example_room Pause 4000 true _ _ _ _));
      [exact example_room_wf | repeat split; vm_compute; congruence
      | vm_compute; reflexivity]
    | reflexivity].
Defined.

Lemma skip_report_once_witness :
  ∃ s', apply example_room (Skip Next (Some (st "a")) (Some 0)) 2000 = Ok (true, s') ∧
    current_index s' = Some 1 ∧
    apply s' (Skip Next (Some (st "a")) (Some 0)) 2001 = Ok (false, s').
Proof.
  eexists. split; [vm_compute; reflexivity|]. split; [reflexivity|].
  apply (skip_report_once example_room (Some (st "a")) 0 2000 2001 true);
    [exact example_room_wf | vm_compute; reflexivity].
Defined.
