(* ===== verification/Limits.v ===== *)
(** Rate limits of the Guest Listener
    (server/src/modules/listen_together/limits.rs): token buckets in [f64]
    arithmetic, and the read budgets of one Guest. An [Instant] is a count of
    nanoseconds on the monotonic clock. *)

From S2P Require Import Prelude Float64.

(** [std::time::Instant] and [std::time::Duration], in nanoseconds. *)
Abbreviation Instant := Z.
Abbreviation Duration := Z.

Definition NANOS_PER_SEC : Z := 1000000000.

Definition saturating_duration_since (now earlier : Instant) : Duration :=
  Z.max 0 (now - earlier).

(** [Duration::as_secs_f64]. *)
Definition as_secs_f64 (d : Duration) : f64 :=
  fadd (of_Z (d / NANOS_PER_SEC)) (fdiv (of_Z (d mod NANOS_PER_SEC)) (of_Z NANOS_PER_SEC)).

Record Rate := mkRate { burst : f64; per_second : f64 }.

(** The literal 0.2 is the double nearest to 1/5. *)
Definition COMMANDS : Rate := mkRate (of_Z 20) (of_Z 20).
Definition JOINS : Rate := mkRate (of_Z 20) (fdiv (of_Z 1) (of_Z 5)).
Definition LIBRARY : Rate := mkRate (of_Z 1000) (of_Z 60).
Definition PHOTOS : Rate := mkRate (of_Z 120) (of_Z 10).
Definition LOOKUPS : Rate := mkRate (of_Z 40) (of_Z 2).
Definition ROOM : Rate := COMMANDS.

Definition MAX_AUDIO_STREAMS : Z := 4.

Inductive Budget := Library | Photos | Lookups | Room.

#[export] Instance Budget_eq_dec : EqDecision Budget.
Proof. solve_decision. Defined.

Record TokenBucket := mkBucket {
  rate : Rate;
  tokens : f64;
  refilled_at : Instant;
}.

(** [TokenBucket::new]. *)
Definition bucket_new (r : Rate) (now : Instant) : TokenBucket := mkBucket r (burst r) now.

(** The refill of [TokenBucket::take]. *)
Definition refill (b : TokenBucket) (now : Instant) : f64 :=
  let elapsed := saturating_duration_since now (refilled_at b) in
  fmin (fadd (tokens b) (fmul (as_secs_f64 elapsed) (per_second (rate b)))) (burst (rate b)).

(** [TokenBucket::take]. *)
Definition bucket_take (b : TokenBucket) (now : Instant) : bool * TokenBucket :=
  let t := refill b now in
  let allowed := fle (of_Z 1) t in
  (allowed, mkBucket (rate b) (if allowed then fsub t (of_Z 1) else t) now).

Record ReadBudgets := mkReads {
  library : TokenBucket;
  photos : TokenBucket;
  lookups : TokenBucket;
  room : TokenBucket;
}.

(** [ReadBudgets::new]. *)
Definition reads_new (now : Instant) : ReadBudgets :=
  mkReads (bucket_new LIBRARY now) (bucket_new PHOTOS now)
          (bucket_new LOOKUPS now) (bucket_new ROOM now).

Definition bucket_of (r : ReadBudgets) (b : Budget) : TokenBucket :=
  match b with
  | Library => library r | Photos => photos r | Lookups => lookups r | Room => room r
  end.

(** [ReadBudgets::take]. *)
Definition reads_take (r : ReadBudgets) (b : Budget) (now : Instant) : bool * ReadBudgets :=
  let '(ok, bucket) := bucket_take (bucket_of r b) now in
  (ok, match b with
       | Library => mkReads bucket (photos r) (lookups r) (room r)
       | Photos => mkReads (library r) bucket (lookups r) (room r)
       | Lookups => mkReads (library r) (photos r) bucket (room r)
       | Room => mkReads (library r) (photos r) (lookups r) bucket
       end).

#[global] Arguments bucket_take : simpl never.
#[global] Arguments reads_take : simpl never.

(** [n] takes at the same instant: how many were allowed, and the bucket left. *)
Fixpoint take_many (n : nat) (b : TokenBucket) (now : Instant) : nat * TokenBucket :=
  match n with
  | O => (O, b)
  | S n =>
      let '(ok, b) := bucket_take b now in
      let '(k, b) := take_many n b now in
      ((if ok then S k else k), b)
  end.

(** ** Facts *)

Lemma take_rate b now : rate (bucket_take b now).2 = rate b.
Proof. done. Qed.

Lemma refill_le_burst b now :
  is_nan (burst (rate b)) = false → fle (refill b now) (burst (rate b)) = true.
Proof. apply fmin_le_r. Qed.

(** A bucket refilled at [now] keeps its tokens however often it is asked at
    [now] or earlier: no elapsed time, no refill. *)
Lemma refill_no_time t r at_ now : now <= at_ →
  refill (mkBucket r t at_) now =
    fmin (fadd t (fmul (as_secs_f64 0) (per_second r))) (burst r).
Proof.
  intros. unfold refill, saturating_duration_since. simpl.
  by replace (Z.max 0 (now - at_)) with 0 by lia.
Qed.

Lemma take_no_time t r at_ now : now <= at_ →
  bucket_take (mkBucket r t at_) now =
    let t' := fmin (fadd t (fmul (as_secs_f64 0) (per_second r))) (burst r) in
    (fle (of_Z 1) t', mkBucket r (if fle (of_Z 1) t' then fsub t' (of_Z 1) else t') now).
Proof. intros. unfold bucket_take. by rewrite refill_no_time. Qed.

(** The same [n] takes with the instant factored out, for evaluation. *)
Fixpoint drain (n : nat) (r : Rate) (t : f64) : nat * f64 :=
  match n with
  | O => (O, t)
  | S n =>
      let t' := fmin (fadd t (fmul (as_secs_f64 0) (per_second r))) (burst r) in
      let ok := fle (of_Z 1) t' in
      let '(k, t) := drain n r (if ok then fsub t' (of_Z 1) else t') in
      ((if ok then S k else k), t)
  end.

Lemma take_many_drain n r t now :
  take_many n (mkBucket r t now) now =
    (let '(k, t') := drain n r t in (k, mkBucket r t' now)).
Proof.
  revert t. induction n as [|n IH]; intros t; [done|].
  cbn [take_many drain]. rewrite take_no_time by lia. cbv beta iota zeta.
  rewrite IH. by destruct (drain _ _ _).
Qed.

(** The burst of each configured rate, as a count. *)
Definition configured : list (Rate * nat) :=
  [(COMMANDS, 20%nat); (JOINS, 20%nat); (LIBRARY, 1000%nat); (PHOTOS, 120%nat);
   (LOOKUPS, 40%nat)].

Lemma drain_app a b r t :
  drain (a + b) r t =
    (let '(k, t') := drain a r t in let '(l, t'') := drain b r t' in ((k + l)%nat, t'')).
Proof.
  revert t. induction a as [|a IH]; intros t; [simpl; by destruct (drain b r t)|].
  cbn [Nat.add drain]. rewrite IH. destruct (drain a r _) as [k t1].
  destruct (drain b r t1). by destruct (fle (of_Z 1) _).
Qed.

Lemma drain_le n r t : ((drain n r t).1 <= n)%nat.
Proof.
  revert t. induction n as [|n IH]; intros t; [done|]. cbn [drain]. cbv zeta.
  match goal with |- context [drain n r ?t1] =>
    specialize (IH t1); destruct (drain n r t1) end.
  cbn [fst] in *. destruct (fle (of_Z 1) _); cbn [fst]; lia.
Qed.

Lemma drain_empty n r t : drain 1 r t = (0%nat, t) → drain n r t = (0%nat, t).
Proof.
  intros H. induction n as [|n IH]; [done|].
  change (S n) with (1 + n)%nat. by rewrite drain_app, H, IH.
Qed.

(** A rate whose burst of [k] drains to nothing allows [min n k] at once. *)
Lemma drain_burst n k r t t0 :
  drain k r t = (k, t0) → drain 1 r t0 = (0%nat, t0) → (drain n r t).1 = (n `min` k)%nat.
Proof.
  intros Hk H0. destruct (decide (n <= k)%nat) as [Hle|Hgt].
  - replace k with (n + (k - n))%nat in Hk by lia. rewrite drain_app in Hk.
    pose proof (drain_le n r t). destruct (drain n r t) as [a t1].
    pose proof (drain_le (k - n) r t1). destruct (drain (k - n) r t1) as [b t2].
    simplify_eq/=. lia.
  - replace n with (k + (n - k))%nat by lia.
    rewrite drain_app, Hk, (drain_empty _ _ _ H0). simpl. lia.
Qed.

Lemma configured_drains r k :
  (r, k) ∈ configured →
  ∃ t0, drain k r (burst r) = (k, t0) ∧ drain 1 r t0 = (0%nat, t0) ∧
        is_nan (burst r) = false.
Proof.
  intros Hin. exists (S754_zero false). unfold configured in Hin.
  repeat (apply elem_of_cons in Hin as [[= -> ->]|Hin];
    [split_and!; vm_compute; reflexivity|]).
  by apply not_elem_of_nil in Hin.
Qed.

(** a full bucket gives out exactly its burst. For every configured rate
    and any number [n] of requests at the instant the bucket was filled, the
    bucket allows [min n burst] of them in exact [f64] arithmetic; and a refill
    never leaves more than the burst, however long the bucket was left alone. *)
Theorem bucket_burst_exact r k n now :
  (r, k) ∈ configured →
  (take_many n (bucket_new r now) now).1 = (n `min` k)%nat ∧
  ∀ t at_ later, fle (refill (mkBucket r t at_) later) (burst r) = true.
Proof.
  intros (t0 & Hk & H0 & Hnan)%configured_drains. split.
  - unfold bucket_new. rewrite take_many_drain.
    pose proof (drain_burst n k r _ t0 Hk H0). by destruct (drain n r _).
  - intros. by apply (refill_le_burst (mkBucket r t at_)).
Qed.

Lemma bucket_burst_exact_witness :
  (JOINS, 20%nat) ∈ configured ∧
  (take_many 25 (bucket_new JOINS 7) 7).1 = 20%nat ∧
  ∀ t at_ later, fle (refill (mkBucket JOINS t at_) later) (burst JOINS) = true.
Proof.
  assert ((JOINS, 20%nat) ∈ configured) as Hin by (unfold configured; right; left).
  split; [exact Hin|]. apply (bucket_burst_exact JOINS 20 25 7 Hin).
Defined.
