(* ===== verification/ListenTogether.v ===== *)
(** The Listen Together service
    (server/src/modules/listen_together/service.rs): one Room behind one lock,
    its Guests, its Invite Link and its feed. Every method is a computation over
    the service's state; the clock readings it takes are its argument, and so
    are the random UUIDs it draws. Watch channels live in the state: a feed per
    Room generation, and a revocation cell per Guest session. *)

From S2P Require Import Prelude Text GoJson RoomState Float64 Limits.

(** Cryptographic crates (sha2, hmac, hex, base64): parameters of the model. *)
Class Crypto := {
  sha256 : list byte → list byte;
  hmac_sha256 : list byte → list byte → list byte;
  hex_encode : list byte → str;
  base64_url : list byte → str;
}.

Record Timings := mkTimings {
  room_lifetime : Duration;
  guest_grace : Duration;
  sweep_interval : Duration;
}.

Inductive RoomError :=
| Disabled
| AlreadyOpen
| RoomNotFound
| InviteInvalid
| Full
| SessionEnded
| RateLimited
| BadCommand (reason : str)
| UnknownTrack
| LibraryFailed (cause : str).

(** What the library answers for a Track: SQLite, a parameter. *)
Inductive LibraryError := LibraryNotFound | LibraryOther (text : str).

(** What a feed carries. *)
Inductive Feed := State (s : RoomState) | Closed.

(** A session as a request holds it: its key and its revocation cell. *)
Record GuestSession := mkSession { key : str; revoked_rx : Z }.

Inductive Client := Owner | AsGuest (session : GuestSession).

Record Joined := mkJoined { session_token : str; joined_state : RoomState }.

Record Presence := mkPresence { p_generation : Z; p_key : str }.
Record Subscription := mkSubscription {
  events : Z;  (* the generation whose feed it follows *)
  sub_invite_url : option str;
  presence : option Presence;
}.

Record AudioStreamSlot := mkSlot { a_generation : Z; a_key : str; a_id : Z }.
Record AudioStream := mkStream { id : Z; target : str }.

Record Guest := mkGuest {
  open_streams : Z;
  disconnected_at : Instant;
  commands : TokenBucket;
  reads : ReadBudgets;
  audio_streams : list AudioStream;
  revoked : Z;
}.

Record Room := mkRoom {
  generation : Z;
  state : RoomState;
  closes_at : Instant;
  room_invite_url : str;
  invite_key : str;
  invite_tag : list byte;
  guests : gmap str Guest;
  owner_commands : TokenBucket;
}.

(** The service, with the channels its Rooms and sessions were given. *)
Record ListenTogether := mkLT {
  public_origin : option str;
  max_room_guests : Z;
  timings : Timings;
  next_generation : Z;
  next_audio_stream : Z;
  joins : TokenBucket;
  slot : option Room;
  feeds : gmap Z Feed;
  ended : gmap Z bool;  (* revocation cells: whether the session has ended *)
  next_cell : Z;
}.

Abbreviation Service A := (M ListenTogether RoomError A).

(** The readings one call takes: the monotonic clock when it takes the lock and
    when it acts, and the wall clock in nanoseconds since the epoch. *)
Record Clock := mkClock { at_lock : Instant; at_action : Instant; wall : Z }.

(** [now_ms]. *)
Definition now_ms (c : Clock) : Z :=
  if wall c <? 0 then 0 else Z.min (wall c / 1000000) i64_max.

(** ** Field updates *)

Definition with_slot (r : option Room) (s : ListenTogether) : ListenTogether :=
  mkLT (public_origin s) (max_room_guests s) (timings s) (next_generation s)
       (next_audio_stream s) (joins s) r (feeds s) (ended s) (next_cell s).
Definition with_feed (g : Z) (f : Feed) (s : ListenTogether) : ListenTogether :=
  mkLT (public_origin s) (max_room_guests s) (timings s) (next_generation s)
       (next_audio_stream s) (joins s) (slot s) (<[g := f]> (feeds s)) (ended s) (next_cell s).
Definition with_ended (e : gmap Z bool) (s : ListenTogether) : ListenTogether :=
  mkLT (public_origin s) (max_room_guests s) (timings s) (next_generation s)
       (next_audio_stream s) (joins s) (slot s) (feeds s) e (next_cell s).
Definition with_next_generation (g : Z) (s : ListenTogether) : ListenTogether :=
  mkLT (public_origin s) (max_room_guests s) (timings s) g
       (next_audio_stream s) (joins s) (slot s) (feeds s) (ended s) (next_cell s).
Definition with_next_audio (a : Z) (s : ListenTogether) : ListenTogether :=
  mkLT (public_origin s) (max_room_guests s) (timings s) (next_generation s)
       a (joins s) (slot s) (feeds s) (ended s) (next_cell s).
Definition with_joins (b : TokenBucket) (s : ListenTogether) : ListenTogether :=
  mkLT (public_origin s) (max_room_guests s) (timings s) (next_generation s)
       (next_audio_stream s) b (slot s) (feeds s) (ended s) (next_cell s).
Definition with_next_cell (c : Z) (s : ListenTogether) : ListenTogether :=
  mkLT (public_origin s) (max_room_guests s) (timings s) (next_generation s)
       (next_audio_stream s) (joins s) (slot s) (feeds s) (ended s) c.

Definition room_with_state (st : RoomState) (r : Room) : Room :=
  mkRoom (generation r) st (closes_at r) (room_invite_url r) (invite_key r)
         (invite_tag r) (guests r) (owner_commands r).
Definition room_with_guests (g : gmap str Guest) (r : Room) : Room :=
  mkRoom (generation r) (state r) (closes_at r) (room_invite_url r) (invite_key r)
         (invite_tag r) g (owner_commands r).
Definition room_with_owner_commands (b : TokenBucket) (r : Room) : Room :=
  mkRoom (generation r) (state r) (closes_at r) (room_invite_url r) (invite_key r)
         (invite_tag r) (guests r) b.

Definition guest_with_streams (n : Z) (at_ : Instant) (g : Guest) : Guest :=
  mkGuest n at_ (commands g) (reads g) (audio_streams g) (revoked g).
Definition guest_with_commands (b : TokenBucket) (g : Guest) : Guest :=
  mkGuest (open_streams g) (disconnected_at g) b (reads g) (audio_streams g) (revoked g).
Definition guest_with_reads (b : ReadBudgets) (g : Guest) : Guest :=
  mkGuest (open_streams g) (disconnected_at g) (commands g) b (audio_streams g) (revoked g).
Definition guest_with_audio (a : list AudioStream) (g : Guest) : Guest :=
  mkGuest (open_streams g) (disconnected_at g) (commands g) (reads g) a (revoked g).

Definition count {A} (m : gmap str A) : Z := Z.of_nat (size m).

(** ** Room methods *)

(** [Room::owner_view] and [Room::view]. *)
Definition owner_view (r : Room) : RoomState :=
  with_invite_url (Some (room_invite_url r)) (state r).
Definition view (r : Room) (c : Client) : RoomState :=
  match c with Owner => owner_view r | AsGuest _ => state r end.

(** [Room::require]. *)
Definition require (r : Room) (c : Client) : outcome RoomError unit :=
  match c with
  | AsGuest session =>
      if bool_decide (is_Some (guests r !! key session)) then Ok tt else Err SessionEnded
  | Owner => Ok tt
  end.

(** [guest.revoked.send_replace(true)], and what dropping the sender of a
    replaced Guest tells its receivers. *)
Definition end_session (g : Guest) (e : gmap Z bool) : gmap Z bool := <[revoked g := true]> e.
Definition end_sessions (gs : gmap str Guest) (e : gmap Z bool) : gmap Z bool :=
  foldr (λ kg, end_session kg.2) e (map_to_list gs).

(** [Room::publish]. *)
Definition publish (r : Room) : Service unit :=
  modify (with_feed (generation r) (State (state r))).

(** Writes the Room back behind the lock. *)
Definition set_room (r : Room) : Service unit := modify (with_slot (Some r)).

(** [Room::close]: the feed first, then every Guest session. *)
Definition close_room (r : Room) : Service unit :=
  _ ← modify (with_feed (generation r) Closed);
  modify (λ s, with_ended (end_sessions (guests r) (ended s)) s).

(** [ListenTogether::lock]: an expired Room is closed first. *)
Definition lock (c : Clock) : Service (option Room) :=
  s ← get;
  match slot s with
  | Some r =>
      if closes_at r <=? at_lock c then
        _ ← modify (with_slot None); _ ← close_room r; mret None
      else mret (Some r)
  | None => mret None
  end.

(** [ListenTogether::with_room]. *)
Definition with_room {A} (c : Clock) (action : Room → Service A) : Service A :=
  r ← lock c;
  match r with
  | Some r => action r
  | None => fail RoomNotFound
  end.

(** The Guest a session stands for, or the error of a session that ended. *)
Definition guest_of (r : Room) (session : GuestSession) : Service Guest :=
  lift (ok_or (guests r !! key session) SessionEnded).

Definition set_guest (r : Room) (k : str) (g : Guest) : Service unit :=
  set_room (room_with_guests (<[k := g]> (guests r)) r).

Section Service.
Context `{Crypto}.

(** [random_token] of three UUIDs; [session_key]; [invite_mac]. *)
Definition random_token (uuids : list byte) : str := base64_url (sha256 uuids).
Definition session_key (token : str) : str := hex_encode (sha256 (encode token)).
Definition invite_mac (k token : str) : list byte := hmac_sha256 (encode k) (encode token).

(** [Room::invite_matches]. *)
Definition invite_matches (r : Room) (token : str) : bool :=
  bool_decide (invite_mac (invite_key r) token = invite_tag r).

(** [ListenTogether::open]; [spawn_sweeper] only schedules [sweep]. *)
Definition open (c : Clock) (token_uuids key_uuids : list byte) : Service RoomState :=
  s ← get;
  origin ← lift (ok_or (public_origin s) Disabled);
  r ← lock c;
  if bool_decide (is_Some r) then fail AlreadyOpen else
  s ← get;
  let token := random_token token_uuids in
  let invite_key := random_token key_uuids in
  let lifetime := room_lifetime (timings s) in
  let state := RoomState.new (max_room_guests s) (rfc3339_nano (wall c + lifetime)) (now_ms c) in
  let generation := next_generation s in
  let room := {|
    generation := generation; state := state;
    closes_at := at_action c + lifetime;
    room_invite_url := origin ++ st "/join#" ++ token;
    invite_key := invite_key; invite_tag := invite_mac invite_key token;
    guests := ∅; owner_commands := bucket_new COMMANDS (at_action c) |} in
  _ ← modify (with_next_generation (generation + 1));
  _ ← publish room;
  _ ← set_room room;
  mret (owner_view room).

(** [ListenTogether::close]. *)
Definition close (c : Clock) : Service unit :=
  r ← lock c;
  match r with
  | None => fail RoomNotFound
  | Some r => _ ← modify (with_slot None); close_room r
  end.

(** [ListenTogether::room]. *)
Definition room (c : Clock) (client : Client) : Service RoomState :=
  with_room c (λ r, _ ← lift (require r client); mret (view r client)).

(** [ListenTogether::take_join]. *)
Definition take_join (c : Clock) : Service unit :=
  s ← get;
  let '(ok, b) := bucket_take (joins s) (at_action c) in
  _ ← modify (with_joins b);
  if ok : bool then mret tt else fail RateLimited.

(** [ListenTogether::take_read]. *)
Definition take_read (c : Clock) (session : GuestSession) (b : Budget) : Service unit :=
  with_room c (λ r,
    g ← guest_of r session;
    let '(ok, reads) := reads_take (reads g) b (at_action c) in
    _ ← set_guest r (key session) (guest_with_reads reads g);
    if ok : bool then mret tt else fail RateLimited).

(** [Vec::remove] of the first stream of [target], if there is one. *)
Fixpoint remove_target (t : str) (l : list AudioStream) : option (list AudioStream) :=
  match l with
  | [] => None
  | a :: l => if bool_decide (target a = t) then Some l else cons a <$> remove_target t l
  end.

(** [ListenTogether::open_audio_stream]. *)
Definition open_audio_stream (c : Clock) (session : GuestSession) (t : str)
    : Service AudioStreamSlot :=
  with_room c (λ r,
    g ← guest_of r session;
    streams ← lift (
      if MAX_AUDIO_STREAMS <=? zlen (audio_streams g) then
        ok_or (remove_target t (audio_streams g)) RateLimited
      else Ok (audio_streams g));
    s ← get;
    let id := next_audio_stream s in
    _ ← modify (with_next_audio (id + 1));
    _ ← set_guest r (key session) (guest_with_audio (streams ++ [mkStream id t]) g);
    mret (mkSlot (generation r) (key session) id)).

(** [ListenTogether::audio_stream_ended], when an [AudioStreamSlot] drops. *)
Definition audio_stream_ended (c : Clock) (h : AudioStreamSlot) : Service unit :=
  r ← lock c;
  match r with
  | Some r =>
      if generation r =? a_generation h then
        match guests r !! a_key h with
        | Some g =>
            set_guest r (a_key h)
              (guest_with_audio (filter (λ a, id a ≠ a_id h) (audio_streams g)) g)
        | None => mret tt
        end
      else mret tt
  | None => mret tt
  end.

(** The session a joining browser already holds, if the Room still has it. *)
Definition live_session (r : Room) (current : option str) : option str :=
  match current with
  | Some t => if bool_decide (is_Some (guests r !! session_key t)) then Some t else None
  | None => None
  end.

Definition empty_err {A} (o : outcome Empty_set A) : outcome RoomError A :=
  map_err (λ e : Empty_set, match e with end) o.

(** [ListenTogether::join]. *)
Definition join_room (c : Clock) (token : str) (current : option str) (uuids : list byte)
    (r : Room) : Service Joined :=
  if negb (invite_matches r token) then fail InviteInvalid else
  match live_session r current with
  | Some current => mret (mkJoined current (state r))
  | None =>
      if max_guests (state r) <=? count (guests r) then fail Full else
      s ← get;
      let session_token := random_token uuids in
      let k := session_key session_token in
      let cell := next_cell s in
      let g := mkGuest 0 (at_action c) (bucket_new COMMANDS (at_action c))
                 (reads_new (at_action c)) [] cell in
      let replaced := match guests r !! k with
                      | Some old => end_session old (ended s) | None => ended s end in
      _ ← modify (λ s, with_next_cell (cell + 1) (with_ended (<[cell := false]> replaced) s));
      let gs := <[k := g]> (guests r) in
      st ← lift (empty_err (set_guest_count (state r) (count gs)));
      let r := room_with_state st (room_with_guests gs r) in
      _ ← set_room r;
      _ ← publish r;
      mret (mkJoined session_token (state r))
  end.

Definition map_not_found {A} (m : Service A) : Service A := fun s =>
  let '(o, s') := m s in
  (map_err (λ e, match e with RoomNotFound => InviteInvalid | e => e end) o, s').

Definition join (c : Clock) (token : str) (current : option str) (uuids : list byte)
    : Service Joined :=
  map_not_found (with_room c (join_room c token current uuids)).

(** [ListenTogether::authenticate]. *)
Definition authenticate (c : Clock) (token : str) : Service (option GuestSession) :=
  r ← lock c;
  mret (r ≫= λ r, g ← guests r !! session_key token;
                  Some (mkSession (session_key token) (revoked g))).

(** [ListenTogether::leave]. *)
Definition leave (c : Clock) (session : GuestSession) : Service unit :=
  with_room c (λ r,
    g ← guest_of r session;
    _ ← modify (λ s, with_ended (end_session g (ended s)) s);
    let gs := delete (key session) (guests r) in
    st ← lift (empty_err (set_guest_count (state r) (count gs)));
    let r := room_with_state st (room_with_guests gs r) in
    _ ← set_room r;
    publish r).

(** [Room::take_command]. *)
Definition take_command (c : Clock) (client : Client) (r : Room) : Service unit :=
  match client with
  | Owner =>
      let '(ok, b) := bucket_take (owner_commands r) (at_action c) in
      _ ← set_room (room_with_owner_commands b r);
      if ok : bool then mret tt else fail RateLimited
  | AsGuest session =>
      g ← guest_of r session;
      let '(ok, b) := bucket_take (commands g) (at_action c) in
      _ ← set_guest r (key session) (guest_with_commands b g);
      if ok : bool then mret tt else fail RateLimited
  end.

(** The second critical section of [ListenTogether::command]. *)
Definition apply_command (c : Clock) (client : Client) (cmd : Command) : Service RoomState :=
  with_room c (λ r,
    _ ← lift (require r client);
    '(changed, st) ← lift (empty_err (apply (state r) cmd (now_ms c)));
    let r := room_with_state st r in
    _ ← set_room r;
    _ ← (if changed : bool then publish r else mret tt);
    mret (view r client)).

(** [ListenTogether::require_tracks]: every distinct Track, until one fails. *)
Fixpoint require_all (get_track : str → outcome LibraryError unit) (ids : list str)
    : outcome RoomError unit :=
  match ids with
  | [] => Ok tt
  | t :: ids =>
      match get_track t with
      | Ok _ => require_all get_track ids
      | Err LibraryNotFound => Err UnknownTrack
      | Err (LibraryOther text) => Err (LibraryFailed text)
      | Panic => Panic
      | OutOfFuel => OutOfFuel
      end
  end.
Definition require_tracks (get_track : str → outcome LibraryError unit) (ids : list str)
    : outcome RoomError unit :=
  require_all get_track (elements (list_to_set ids : gset str)).

(** The checks between the two critical sections. *)
Definition check_command (get_track : str → outcome LibraryError unit) (cmd : Command)
    : outcome RoomError unit :=
  _ ← map_err BadCommand (validate cmd);
  match cmd with
  | PlayTracks tracks _ => require_tracks get_track tracks
  | _ => Ok tt
  end.

(** [ListenTogether::command], when nothing else runs between its parts. *)
Definition command (c1 c2 : Clock) (get_track : str → outcome LibraryError unit)
    (client : Client) (cmd : Command) : Service RoomState :=
  _ ← with_room c1 (take_command c1 client);
  _ ← lift (check_command get_track cmd);
  apply_command c2 client cmd.

(** [ListenTogether::subscribe]. *)
Definition subscribe (c : Clock) (client : Client) : Service Subscription :=
  with_room c (λ r,
    _ ← lift (require r client);
    p ← match client with
        | Owner => mret None
        | AsGuest session =>
            _ ← match guests r !! key session with
                | Some g => set_guest r (key session)
                    (guest_with_streams (open_streams g + 1) (disconnected_at g) g)
                | None => mret tt
                end;
            mret (Some (mkPresence (generation r) (key session)))
        end;
    mret (mkSubscription (generation r)
            (match client with Owner => Some (room_invite_url r) | _ => None end) p)).

(** [ListenTogether::stream_ended], when a [Presence] drops. *)
Definition stream_ended (c : Clock) (p : Presence) : Service unit :=
  r ← lock c;
  match r with
  | Some r =>
      if generation r =? p_generation p then
        match guests r !! p_key p with
        | Some g =>
            let n := Z.max (open_streams g - 1) 0 in
            set_guest r (p_key p)
              (guest_with_streams n (if n =? 0 then at_action c else disconnected_at g) g)
        | None => mret tt
        end
      else mret tt
  | None => mret tt
  end.

(** Whether a Guest keeps their place in a sweep at [now]. *)
Definition stays (grace : Duration) (now : Instant) (g : Guest) : bool :=
  (0 <? open_streams g) || (saturating_duration_since now (disconnected_at g) <? grace).

(** [ListenTogether::sweep]. *)
Definition sweep (c : Clock) (gen : Z) : Service bool :=
  r ← lock c;
  match r with
  | Some r =>
      if generation r =? gen then
        s ← get;
        let keep := filter (λ kg, stays (guest_grace (timings s)) (at_action c) kg.2 = true) (guests r) in
        let gone := filter (λ kg, stays (guest_grace (timings s)) (at_action c) kg.2 = false) (guests r) in
        _ ← modify (with_ended (end_sessions gone (ended s)));
        let r' := room_with_guests keep r in
        if count keep =? count (guests r) then _ ← set_room r'; mret true
        else
          st ← lift (empty_err (set_guest_count (state r') (count keep)));
          let r' := room_with_state st r' in
          _ ← set_room r'; _ ← publish r'; mret true
      else mret false
  | None => mret false
  end.
End Service.

(** [ListenTogether::with_timings]. *)
Definition with_timings (origin : option str) (max : Z) (t : Timings) (now : Instant)
    : ListenTogether :=
  mkLT origin max t 1 1 (bucket_new JOINS now) None ∅ ∅ 1.

(** ** Reachable states

    The service runs as any sequence of calls: each holds the lock for its
    whole step, and a command is two steps with a library read between them. *)
Inductive Call :=
| CallOpen (token_uuids key_uuids : list byte)
| CallClose
| CallRoom (client : Client)
| CallTakeJoin
| CallTakeRead (session : GuestSession) (b : Budget)
| CallOpenAudio (session : GuestSession) (t : str)
| CallAudioEnded (h : AudioStreamSlot)
| CallJoin (token : str) (current : option str) (uuids : list byte)
| CallAuthenticate (token : str)
| CallLeave (session : GuestSession)
| CallTakeCommand (client : Client)
| CallApplyCommand (client : Client) (cmd : Command)
| CallSubscribe (client : Client)
| CallStreamEnded (p : Presence)
| CallSweep (gen : Z).

Definition void {A} (m : Service A) : Service unit := _ ← m; mret tt.

Definition run_call `{Crypto} (c : Clock) (call : Call) : Service unit :=
  match call with
  | CallOpen t k => void (open c t k)
  | CallClose => close c
  | CallRoom client => void (room c client)
  | CallTakeJoin => take_join c
  | CallTakeRead session b => take_read c session b
  | CallOpenAudio session t => void (open_audio_stream c session t)
  | CallAudioEnded h => audio_stream_ended c h
  | CallJoin token current uuids => void (join c token current uuids)
  | CallAuthenticate token => void (authenticate c token)
  | CallLeave session => leave c session
  | CallTakeCommand client => with_room c (take_command c client)
  | CallApplyCommand client cmd => void (apply_command c client cmd)
  | CallSubscribe client => void (subscribe c client)
  | CallStreamEnded p => stream_ended c p
  | CallSweep gen => void (sweep c gen)
  end.

(** Only a command that passed its checks reaches the second critical section. *)
Definition call_ok (call : Call) : Prop :=
  match call with
  | CallApplyCommand _ cmd => command_typed cmd ∧ validate cmd = Ok tt
  | _ => True
  end.

(** The states after [n] calls. A call that panics is the last one: it poisons
    the lock, and every later call panics at it. *)
Inductive reachable `{Crypto} : nat → ListenTogether → Prop :=
| reach_start origin max t now : 0 <= max → reachable 0 (with_timings origin max t now)
| reach_call n s c call : reachable n s → call_ok call → returns (run_call c call s).1 →
    reachable (S n) (run_call c call s).2.

(** ** The invariant *)

Definition audio_ok (next : Z) (l : list AudioStream) : Prop :=
  zlen l <= MAX_AUDIO_STREAMS ∧ NoDup (id <$> l) ∧ Forall (λ a, id a < next) l.

Record room_inv (s : ListenTogether) (r : Room) : Prop := {
  ri_wf : wf (state r);
  ri_count : guest_count (state r) = count (guests r);
  ri_max : count (guests r) <= max_guests (state r);
  ri_audio k g : guests r !! k = Some g → audio_ok (next_audio_stream s) (audio_streams g);
  ri_streams k g : guests r !! k = Some g → 0 <= open_streams g;
  ri_feed : feeds s !! generation r = Some (State (state r));
  ri_live k g : guests r !! k = Some g → ended s !! revoked g = Some false;
  ri_inj k k' g g' : guests r !! k = Some g → guests r !! k' = Some g' →
    revoked g = revoked g' → k = k';
}.

Record inv (s : ListenTogether) : Prop := {
  inv_limit : 0 <= max_room_guests s;
  inv_room r : slot s = Some r → room_inv s r;
  inv_feed g f : feeds s !! g = Some f →
    g < next_generation s ∧ (f = Closed ∨ ∃ r, slot s = Some r ∧ generation r = g);
  inv_cell c b : ended s !! c = Some b → c < next_cell s;
  inv_live c : ended s !! c = Some false →
    ∃ r k g, slot s = Some r ∧ guests r !! k = Some g ∧ revoked g = c;
}.

(** The open Room's revision, and the one that cannot be raised. *)
Definition top (s : ListenTogether) : Z := from_option (λ r, revision (state r)) 0 (slot s).
Definition worn (s : ListenTogether) : Prop := top s = i64_max.

(** A computation that keeps the invariant whatever way it ends, panics only when
    the revision cannot be raised, and gives [Q] when it succeeds. *)
Definition keeps {A} (P : ListenTogether → Prop) (m : Service A)
    (Q : A → ListenTogether → Prop) : Prop :=
  ∀ s, P s →
    match m s with
    | (Ok a, s') => Q a s'
    | (Err _, s') => inv s'
    | (Panic, s') => worn s'
    | (OutOfFuel, _) => False
    end.

Lemma keeps_bind {A B} P (m : Service A) (f : A → Service B) R Q :
  keeps P m R → (∀ a, keeps (R a) (f a) Q) → keeps P (m ≫= f) Q.
Proof.
  intros Hm Hf s Hs. specialize (Hm s Hs). unfold mbind, M_bind.
  destruct (m s) as [[a|e| |] s']; try done. exact (Hf a s' Hm).
Qed.

Lemma keeps_weaken {A} (P P' : ListenTogether → Prop) (m : Service A) (Q Q' : A → ListenTogether → Prop) :
  keeps P m Q → (∀ s, P' s → P s) → (∀ a s, Q a s → Q' a s) → keeps P' m Q'.
Proof.
  intros Hm HP HQ s Hs. specialize (Hm s (HP s Hs)).
  destruct (m s) as [[a|e| |] s']; auto.
Qed.

Lemma keeps_ret {A} (a : A) (P : A → ListenTogether → Prop) : keeps (P a) (mret a) P.
Proof. intros s Hs. exact Hs. Qed.

Lemma keeps_fail {A} P e (Q : A → ListenTogether → Prop) :
  (∀ s, P s → inv s) → keeps P (fail e) Q.
Proof. intros HP s Hs. exact (HP s Hs). Qed.

Lemma keeps_lift {A} P (o : outcome RoomError A) Q :
  returns o → (∀ s, P s → inv s) → (∀ a s, o = Ok a → P s → Q a s) → keeps P (lift o) Q.
Proof. intros Ho HP HQ s Hs. unfold lift. destruct o; try done; auto. Qed.

Lemma keeps_modify P f Q : (∀ s, P s → Q (f s)) → keeps P (modify f) (λ _, Q).
Proof. intros HQ s Hs. by apply HQ. Qed.

Lemma keeps_get P (Q : ListenTogether → ListenTogether → Prop) :
  (∀ s, P s → Q s s) → keeps P get Q.
Proof. intros HQ s Hs. by apply HQ. Qed.

(** Ending the sessions of a set of Guests sets their cells and no other. *)
Lemma foldr_end_in l e (c : Z) :
  Exists (λ kg : str * Guest, revoked kg.2 = c) l →
  foldr (λ kg, end_session kg.2) e l !! c = Some true.
Proof.
  induction 1 as [kg l Hkg|kg l Hl IH]; cbn [foldr]; unfold end_session.
  - subst. apply lookup_insert_eq.
  - destruct (decide (revoked kg.2 = c)) as [->|Hne]; [apply lookup_insert_eq|].
    by rewrite lookup_insert_ne.
Qed.

Lemma foldr_end_out l e (c : Z) :
  Forall (λ kg : str * Guest, revoked kg.2 ≠ c) l →
  foldr (λ kg, end_session kg.2) e l !! c = e !! c.
Proof.
  induction 1 as [|kg l Hkg Hl IH]; [done|]; cbn [foldr]; unfold end_session.
  by rewrite lookup_insert_ne.
Qed.

Lemma end_sessions_in gs e k g :
  gs !! k = Some g → end_sessions gs e !! revoked g = Some true.
Proof.
  intros Hk. apply foldr_end_in, Exists_exists. exists (k, g).
  by rewrite elem_of_map_to_list.
Qed.

Lemma end_sessions_out gs e c :
  (∀ k g, gs !! k = Some g → revoked g ≠ c) → end_sessions gs e !! c = e !! c.
Proof.
  intros Hout. apply foldr_end_out, Forall_forall. intros [k g] Hin.
  apply elem_of_map_to_list in Hin. eauto.
Qed.

Lemma end_sessions_false gs e c :
  end_sessions gs e !! c = Some false →
  e !! c = Some false ∧ ∀ k g, gs !! k = Some g → revoked g ≠ c.
Proof.
  intros Hc. assert (∀ k g, gs !! k = Some g → revoked g ≠ c) as Hout.
  { intros k g Hk <-. rewrite (end_sessions_in gs e k g Hk) in Hc. congruence. }
  by rewrite end_sessions_out in Hc.
Qed.

(** A cell of the table stays in the table. *)
Lemma end_sessions_dom gs e c b (n : Z) :
  (∀ c b, e !! c = Some b → c < n) → (∀ k g, gs !! k = Some g → revoked g < n) →
  end_sessions gs e !! c = Some b → c < n.
Proof.
  intros He Hg Hc. destruct (decide (Exists (λ kg : str * Guest, revoked kg.2 = c) (map_to_list gs)))
    as [([k g] & Hin & <-)%Exists_exists|Hno].
  - apply elem_of_map_to_list in Hin. eauto.
  - apply (He c b). rewrite <-Hc. symmetry. apply foldr_end_out.
    apply not_Exists_Forall in Hno; [done|]. intros ?. apply _.
Qed.

Lemma room_cell_lt s r k g :
  inv s → slot s = Some r → guests r !! k = Some g → revoked g < next_cell s.
Proof. intros Hinv Hr Hk. eapply inv_cell; [done|]. by eapply ri_live; [apply inv_room|]. Qed.

(** ** The invariant is kept by every step *)

(** Taking the Room out of its slot and closing it. *)
Lemma close_room_inv s r :
  inv s → slot s = Some r →
  inv (with_ended (end_sessions (guests r) (ended s)) (with_feed (generation r) Closed (with_slot None s))).
Proof.
  intros Hinv Hr. destruct (inv_feed s Hinv (generation r) (State (state r))) as [Hg _];
    [by apply ri_feed, inv_room|].
  split; simpl; [apply Hinv|done| | |].
  - intros g f [[<- <-]|[Hne Hf]]%lookup_insert_Some; [by split; [|left]|].
    destruct (inv_feed s Hinv g f Hf) as [? [->|(r' & Hr' & <-)]]; [by split; [|left]|].
    rewrite Hr in Hr'. by injection Hr' as ->.
  - intros c b. apply end_sessions_dom; [apply Hinv|]. intros. by eapply room_cell_lt.
  - intros c (Hc & Hout)%end_sessions_false.
    destruct (inv_live s Hinv c Hc) as (r' & k & g & Hr' & Hk & Hrev).
    rewrite Hr in Hr'. injection Hr' as <-. by destruct (Hout k g Hk).
Qed.

Definition locked (r : option Room) (s : ListenTogether) : Prop := inv s ∧ slot s = r.

Lemma lock_keeps c : keeps inv (lock c) (λ r s, locked r s).
Proof.
  intros s Hs. unfold lock, close_room. run_m.
  destruct (slot s) as [r|] eqn:Hr; [|by split].
  destruct (closes_at r <=? at_lock c); [|by split].
  split; [by apply close_room_inv|done].
Qed.

Lemma with_room_keeps {A} c (action : Room → Service A) Q :
  (∀ r, keeps (locked (Some r)) (action r) Q) → keeps inv (with_room c action) Q.
Proof.
  intros Ha. eapply keeps_bind; [apply lock_keeps|].
  intros [r|]; [apply Ha|]. apply keeps_fail. by intros s [].
Qed.

(** Replacing the Room's Guests by Guests with the same sessions, its state
    untouched. *)
Lemma set_guests_inv s r gs :
  inv s → slot s = Some r →
  (∀ k, revoked <$> gs !! k = revoked <$> guests r !! k) →
  (∀ k g, gs !! k = Some g → audio_ok (next_audio_stream s) (audio_streams g) ∧ 0 <= open_streams g) →
  inv (with_slot (Some (room_with_guests gs r)) s).
Proof.
  intros Hinv Hr Hrev Hg. destruct (inv_room s Hinv r Hr).
  assert (Hback : ∀ k g, gs !! k = Some g → ∃ g0, guests r !! k = Some g0 ∧ revoked g0 = revoked g).
  { intros k g Hk. specialize (Hrev k). rewrite Hk in Hrev. simpl in Hrev.
    destruct (guests r !! k); simplify_eq/=; eauto. }
  assert (Hsize : size gs = size (guests r)).
  { rewrite <-!(size_dom (D := gset str)). f_equal. apply set_eq. intros k.
    rewrite !elem_of_dom. specialize (Hrev k).
    destruct (gs !! k), (guests r !! k); simplify_eq/=; split; intros []; eauto. }
  split; simpl; [apply Hinv| | |apply Hinv|].
  - intros ? [= <-]. split; simpl; auto; unfold count; rewrite ?Hsize; auto.
    + by intros k g [? ?]%Hg.
    + by intros k g [? ?]%Hg.
    + intros k g (g0 & H0 & <-)%Hback. eauto.
    + intros k k' g g' (g0 & H0 & <-)%Hback (g1 & H1 & <-)%Hback. eauto.
  - intros g f Hf. destruct (inv_feed s Hinv g f Hf) as [? [->|(r' & Hr' & <-)]];
      (split; [done|]); [by left|right]. rewrite Hr in Hr'. injection Hr' as <-. by eexists.
  - intros c Hc. destruct (inv_live s Hinv c Hc) as (r' & k & g & Hr' & Hk & Hc').
    rewrite Hr in Hr'. injection Hr' as <-. specialize (Hrev k). rewrite Hk in Hrev.
    destruct (gs !! k) as [g'|] eqn:Hk'; simplify_eq/=. eexists _, k, g'. by split_and!.
Qed.

Lemma set_guest_keeps r k g g' :
  guests r !! k = Some g → revoked g' = revoked g →
  keeps (λ s, locked (Some r) s ∧ audio_ok (next_audio_stream s) (audio_streams g') ∧
              0 <= open_streams g')
    (set_guest r k g') (λ _, inv).
Proof.
  intros Hk Hrev s ((Hinv & Hr) & Ha & Ho). simpl. apply set_guests_inv; [done..| |].
  - intros k'. destruct (decide (k = k')) as [<-|?].
    + rewrite lookup_insert_eq, Hk. simpl. by rewrite Hrev.
    + by rewrite lookup_insert_ne.
  - intros k' g0 [[<- <-]|[? ?]]%lookup_insert_Some; [done|].
    destruct (inv_room s Hinv r Hr). eauto.
Qed.

(** Changing the Room's state and Guests together, and publishing it. *)
Lemma publish_inv s r st gs next_c e :
  inv s → slot s = Some r → wf st → max_guests st = max_guests (state r) →
  guest_count st = count gs → count gs <= max_guests st →
  (∀ k g, gs !! k = Some g → audio_ok (next_audio_stream s) (audio_streams g) ∧
     0 <= open_streams g ∧ e !! revoked g = Some false) →
  (∀ k k' g g', gs !! k = Some g → gs !! k' = Some g' → revoked g = revoked g' → k = k') →
  (∀ c b, e !! c = Some b → c < next_c) →
  (∀ c, e !! c = Some false → ∃ k g, gs !! k = Some g ∧ revoked g = c) →
  let r' := room_with_state st (room_with_guests gs r) in
  inv (with_feed (generation r) (State st)
         (with_slot (Some r') (with_next_cell next_c (with_ended e s)))).
Proof.
  intros Hinv Hr Hwf Hmax Hcount Hle Hg Hinj Hc Hlive r'.
  destruct (inv_feed s Hinv (generation r) (State (state r))) as [Hgen _];
    [by apply ri_feed, inv_room|].
  split; simpl; [apply Hinv| | |done|].
  - intros ? [= <-]. split; simpl; try done; try (by intros k g (? & ? & ?)%Hg).
    by rewrite lookup_insert_eq.
  - intros g f [[<- <-]|[Hne Hf]]%lookup_insert_Some.
    { split; [done|]. right. by exists r'. }
    destruct (inv_feed s Hinv g f Hf) as [? [->|(r0 & Hr0 & <-)]]; [by split; [|left]|].
    rewrite Hr in Hr0. by injection Hr0 as ->.
  - intros c (k & g & ? & ?)%Hlive. by exists r', k, g.
Qed.

(** Reads a Guest's facts off the invariant. *)
Lemma guest_facts s r k g :
  locked (Some r) s → guests r !! k = Some g →
  audio_ok (next_audio_stream s) (audio_streams g) ∧ 0 <= open_streams g.
Proof.
  intros [Hinv Hr] Hk. destruct (inv_room s Hinv r Hr). eauto.
Qed.

(** A step on one Guest of the Room that keeps their streams. *)
Lemma guest_step_keeps {A} r session (f : Guest → Service A) Q :
  (∀ g, guests r !! key session = Some g → keeps (locked (Some r)) (f g) Q) →
  keeps (locked (Some r)) (g ← guest_of r session; f g) Q.
Proof.
  intros Hf. unfold guest_of. destruct (guests r !! key session) as [g|] eqn:Hk.
  - intros s Hs. run_m. apply (Hf g eq_refl s Hs).
  - intros s [Hs _]. run_m. done.
Qed.

Lemma keeps_locked_inv r : ∀ s, locked r s → inv s.
Proof. by intros s []. Qed.

(** Spending from a bucket: the Guest is written back whether or not it had a
    token. *)
Lemma spend_keeps r k g g' (ok : bool) :
  guests r !! k = Some g → revoked g' = revoked g →
  audio_streams g' = audio_streams g → open_streams g' = open_streams g →
  keeps (locked (Some r))
    (_ ← set_guest r k g'; if ok then mret tt else fail RateLimited) (λ _, inv).
Proof.
  intros Hk Hrev Ha Ho. apply (keeps_bind _ _ _ (λ _, inv)).
  - eapply keeps_weaken; [by apply (set_guest_keeps r k g)|simpl|done].
    intros s Hs. destruct (guest_facts s r k g Hs Hk). rewrite Ha, Ho. by split_and!.
  - intros _. destruct ok; [apply (keeps_ret tt (λ _, inv))|by apply keeps_fail].
Qed.

Lemma room_keeps c client : keeps inv (room c client) (λ _, inv).
Proof.
  apply with_room_keeps. intros r. apply (keeps_bind _ _ _ (λ _, locked (Some r))).
  - apply keeps_lift; [|by apply keeps_locked_inv|done].
    destruct client as [|session]; simpl; [done|]. by case_match.
  - intros _ s [? _]. done.
Qed.

Lemma take_read_keeps c session b : keeps inv (take_read c session b) (λ _, inv).
Proof.
  apply with_room_keeps. intros r. apply guest_step_keeps. intros g Hg.
  destruct (reads_take (reads g) b (at_action c)) as [ok reads']. by apply (spend_keeps r _ g).
Qed.

Lemma take_command_keeps c client :
  keeps inv (with_room c (take_command c client)) (λ _, inv).
Proof.
  apply with_room_keeps. intros r. destruct client as [|session].
  - unfold take_command. destruct (bucket_take (owner_commands r) (at_action c)) as [ok b].
    intros s [Hinv Hr]. run_m.
    assert (inv (with_slot (Some (room_with_owner_commands b r)) s)) as Hinv'.
    { destruct Hinv as [? Hroom Hfeed ? Hlive]. split; simpl; [done| | |done|].
      - intros ? [= <-]. destruct (Hroom r Hr). by split.
      - intros g f Hf. destruct (Hfeed g f Hf) as [? [->|(r' & Hr' & <-)]];
          (split; [done|]); [by left|right]. simplify_eq. by eexists.
      - intros c0 Hc. destruct (Hlive c0 Hc) as (r' & k & g & ? & ? & ?). simplify_eq.
        by eexists _, k, g. }
    by destruct ok.
  - apply guest_step_keeps. intros g Hg.
    destruct (bucket_take (commands g) (at_action c)) as [ok b]. by apply (spend_keeps r _ g).
Qed.

(** Streams a Guest gives up never break the bound. *)
Lemma audio_ok_sublist next l l' : sublist l' l → audio_ok next l → audio_ok next l'.
Proof.
  intros Hsub (Hlen & Hnd & Hlt). split_and!.
  - apply sublist_length in Hsub. unfold zlen in *. lia.
  - apply (sublist_NoDup (id <$> l') (id <$> l)); [done|]. by apply fmap_sublist.
  - rewrite Forall_forall in *. intros a Ha. apply Hlt. by apply (elem_of_sublist l' l).
Qed.

Lemma audio_ok_next next next' l : next <= next' → audio_ok next l → audio_ok next' l.
Proof.
  intros Hn (? & ? & Hlt). split_and!; try done.
  eapply Forall_impl; [done|]. simpl. lia.
Qed.

Lemma audio_ok_snoc next l t :
  zlen l < MAX_AUDIO_STREAMS → audio_ok next l → audio_ok (next + 1) (l ++ [mkStream next t]).
Proof.
  intros Hlen (_ & Hnd & Hlt). split_and!.
  - rewrite zlen_app. change (zlen [mkStream next t]) with 1. lia.
  - rewrite fmap_app. apply NoDup_app. split_and!; [done| |apply NoDup_singleton].
    intros i (a & -> & Ha)%list_elem_of_fmap Hi%list_elem_of_singleton.
    rewrite Forall_forall in Hlt. specialize (Hlt a Ha). simpl in *. lia.
  - apply Forall_app. split; [eapply Forall_impl; [done|]; simpl; lia|].
    apply Forall_singleton. simpl. lia.
Qed.

Lemma audio_ok_nil next : audio_ok next [].
Proof. split_and!; [done|by apply NoDup_nil|done]. Qed.

Lemma remove_target_sublist t l l' :
  remove_target t l = Some l' → sublist l' l ∧ zlen l' = zlen l - 1.
Proof.
  revert l'. induction l as [|a l IH]; intros l'; [done|]. simpl.
  case_match; [intros [= <-]; rewrite zlen_cons; split; [by apply sublist_cons|lia]|].
  destruct (remove_target t l) as [l0|]; [|done]. intros [= <-].
  destruct (IH l0 eq_refl). rewrite !zlen_cons. split; [by apply sublist_skip|lia].
Qed.

Lemma with_next_audio_inv s n :
  next_audio_stream s <= n → inv s → inv (with_next_audio n s).
Proof.
  intros Hn [? Hroom ? ? ?]. split; simpl; try done.
  intros r Hr. destruct (Hroom r Hr). split; simpl; try done.
  intros k g Hk. eapply audio_ok_next; eauto.
Qed.

Lemma open_audio_stream_keeps c session t :
  keeps inv (open_audio_stream c session t) (λ _, inv).
Proof.
  apply with_room_keeps. intros r. apply guest_step_keeps. intros g Hg.
  apply (keeps_bind _ _ _ (λ l s, locked (Some r) s ∧ zlen l < MAX_AUDIO_STREAMS ∧
                                  audio_ok (next_audio_stream s) l)).
  { intros s Hs. destruct (guest_facts s r _ g Hs Hg) as [Ha _]. unfold lift.
    destruct (MAX_AUDIO_STREAMS <=? zlen (audio_streams g)) eqn:Hfull; bool_to_prop.
    - destruct (remove_target t (audio_streams g)) as [l|] eqn:Hrm; simpl; [|apply Hs].
      apply remove_target_sublist in Hrm as [Hsub Hl].
      split_and!; [done| |by eapply audio_ok_sublist].
      destruct Ha as [? _]. lia.
    - by split_and!. }
  intros l. apply (keeps_bind _ _ _ (λ s0 s, s0 = s ∧ locked (Some r) s ∧
      zlen l < MAX_AUDIO_STREAMS ∧ audio_ok (next_audio_stream s) l)).
  { by apply keeps_get. }
  intros s0. apply (keeps_bind _ _ _ (λ _ s, locked (Some r) s ∧
      audio_ok (next_audio_stream s) (l ++ [mkStream (next_audio_stream s0) t]))).
  { apply keeps_modify. intros s (-> & [Hinv Hr] & Hlen & Ha).
    split; [split; [apply with_next_audio_inv; [lia|done]|done]|].
    by apply audio_ok_snoc. }
  intros _. apply (keeps_bind _ _ _ (λ _, inv)); [|intros ?; apply (keeps_ret _ (λ _, inv))].
  eapply keeps_weaken; [by apply (set_guest_keeps r _ g)|simpl|done].
  intros s [Hs Ha]. destruct (guest_facts s r _ g Hs Hg). by split_and!.
Qed.

(** A handle's end touches its Guest only, and only in its own Room. *)
Lemma handle_keeps c gen k (f : Guest → Guest) :
  (∀ g, revoked (f g) = revoked g) →
  (∀ g, sublist (audio_streams (f g)) (audio_streams g)) →
  (∀ g, 0 <= open_streams g → 0 <= open_streams (f g)) →
  keeps inv (r ← lock c;
    match r with
    | Some r =>
        if generation r =? gen then
          match guests r !! k with
          | Some g => set_guest r k (f g)
          | None => mret tt
          end
        else mret tt
    | None => mret tt
    end) (λ _, inv).
Proof.
  intros Hrev Ha Ho. eapply keeps_bind; [apply lock_keeps|].
  intros [r|]; [|intros s []; done].
  destruct (generation r =? gen); [|intros s []; done].
  destruct (guests r !! k) as [g|] eqn:Hk; [|intros s []; done].
  eapply keeps_weaken; [by apply (set_guest_keeps r k g)|simpl|done].
  intros s Hs. destruct (guest_facts s r k g Hs Hk).
  split_and!; [done|eapply audio_ok_sublist; [apply Ha|done]|auto].
Qed.

Lemma audio_stream_ended_keeps c h : keeps inv (audio_stream_ended c h) (λ _, inv).
Proof.
  apply (handle_keeps c _ _ (λ g, guest_with_audio (filter (λ a, id a ≠ a_id h) (audio_streams g)) g)).
  - done.
  - intros g. apply sublist_filter.
  - done.
Qed.

Lemma stream_ended_keeps c p : keeps inv (stream_ended c p) (λ _, inv).
Proof.
  apply (handle_keeps c _ _ (λ g, let n := Z.max (open_streams g - 1) 0 in
    guest_with_streams n (if n =? 0 then at_action c else disconnected_at g) g)).
  - done.
  - intros g. reflexivity.
  - intros g ?. simpl. lia.
Qed.

Lemma subscribe_keeps c client : keeps inv (subscribe c client) (λ _, inv).
Proof.
  apply with_room_keeps. intros r. apply (keeps_bind _ _ _ (λ _, locked (Some r))).
  { apply keeps_lift; [|by apply keeps_locked_inv|done].
    destruct client; simpl; [done|]. by case_match. }
  intros _. apply (keeps_bind _ _ _ (λ _, inv)); [|intros ?; apply (keeps_ret _ (λ _, inv))].
  destruct client as [|session]; [intros s []; done|].
  apply (keeps_bind _ _ _ (λ _, inv)); [|intros ?; apply (keeps_ret _ (λ _, inv))].
  destruct (guests r !! key session) as [g|] eqn:Hk; [|intros s []; done].
  eapply keeps_weaken; [by apply (set_guest_keeps r _ g)|simpl|done].
  intros s Hs. destruct (guest_facts s r _ g Hs Hk). split_and!; [done..|lia].
Qed.

Lemma authenticate_keeps `{Crypto} c token : keeps inv (authenticate c token) (λ _, inv).
Proof.
  eapply keeps_bind; [apply lock_keeps|]. intros r s [? _]. done.
Qed.

Lemma with_joins_inv s b : inv s → inv (with_joins b s).
Proof.
  intros [? Hroom ? ? ?]. split; simpl; try done.
  intros r Hr. by destruct (Hroom r Hr).
Qed.

Lemma take_join_keeps c : keeps inv (take_join c) (λ _, inv).
Proof.
  intros s Hs. unfold take_join, mbind, M_bind, get.
  destruct (bucket_take (joins s) (at_action c)) as [ok b].
  pose proof (with_joins_inv s b Hs). by destruct ok.
Qed.

Lemma close_keeps c : keeps inv (close c) (λ _, inv).
Proof.
  eapply keeps_bind; [apply lock_keeps|].
  intros [r|]; [|apply keeps_fail, keeps_locked_inv].
  intros s [Hs Hr]. unfold close_room. run_m. by apply close_room_inv.
Qed.

Lemma ended_fresh s : inv s → ended s !! next_cell s = None.
Proof.
  intros Hinv. destruct (ended s !! next_cell s) eqn:Hc; [|done].
  apply (inv_cell s Hinv) in Hc. lia.
Qed.

(** What a join writes, computed. *)
Lemma join_insert_inv s r k g :
  locked (Some r) s → count (guests r) < max_guests (state r) →
  audio_streams g = [] → open_streams g = 0 → revoked g = next_cell s →
  let e := match guests r !! k with
           | Some old => end_session old (ended s) | None => ended s end in
  let gs := <[k := g]> (guests r) in
  let st := counted (count gs) (state r) in
  wf st → inv (with_feed (generation r) (State st)
         (with_slot (Some (room_with_state st (room_with_guests gs r)))
            (with_next_cell (next_cell s + 1) (with_ended (<[next_cell s := false]> e) s)))).
Proof.
  intros [Hinv Hr] Hlt Ha Ho Hc e gs st Hst. destruct (inv_room s Hinv r Hr).
  assert (Hold : ∀ k' g', k' ≠ k → guests r !! k' = Some g' → e !! revoked g' = Some false).
  { intros k' g' Hne Hk'. unfold e. destruct (guests r !! k) as [old|] eqn:Hk; [|eauto].
    unfold end_session. rewrite lookup_insert_ne; [by eauto|].
    intros Heq. apply Hne. symmetry. by eapply ri_inj0. }
  apply publish_inv; try done.
  - unfold gs, count in *. simpl. destruct (guests r !! k) eqn:Hk.
    + rewrite map_size_insert_Some by eauto. lia.
    + rewrite map_size_insert_None by done. lia.
  - unfold gs. intros k' g' [[<- <-]|[Hne Hk']]%lookup_insert_Some.
    + rewrite Ha, Ho, Hc. split_and!; [apply audio_ok_nil|done|apply lookup_insert_eq].
    + split_and!; eauto. rewrite lookup_insert_ne; [by eauto|].
      pose proof (room_cell_lt s r k' g' Hinv Hr Hk'). lia.
  - unfold gs. intros k1 k2 g1 g2 [[<- <-]|[Hne1 Hk1]]%lookup_insert_Some
      [[<- <-]|[Hne2 Hk2]]%lookup_insert_Some; rewrite ?Hc; try done; [| |by eauto].
    + pose proof (room_cell_lt s r k2 g2 Hinv Hr Hk2). lia.
    + pose proof (room_cell_lt s r k1 g1 Hinv Hr Hk1). lia.
  - intros c b [[<- <-]|[Hne Hcb]]%lookup_insert_Some; [lia|].
    assert (c < next_cell s); [|lia]. unfold e in Hcb.
    destruct (guests r !! k) as [old|] eqn:Hk; [|by eapply inv_cell].
    unfold end_session in Hcb. apply lookup_insert_Some in Hcb as [[<- _]|[_ Hcb]];
      [by eapply room_cell_lt|by eapply inv_cell].
  - unfold gs. intros c [[<- _]|[Hne Hcb]]%lookup_insert_Some.
    { exists k, g. by rewrite lookup_insert_eq. }
    assert (ended s !! c = Some false ∧ ∀ old, guests r !! k = Some old → revoked old ≠ c)
      as [Hl Hout].
    { unfold e in Hcb. destruct (guests r !! k) as [old|]; [|done].
      unfold end_session in Hcb. apply lookup_insert_Some in Hcb as [[_ ?]|[? ?]]; [done|].
      split; [done|]. by intros ? [= <-]. }
    destruct (inv_live s Hinv c Hl) as (r0 & k0 & g0 & Hr0 & Hk0 & Hrev).
    rewrite Hr in Hr0. injection Hr0 as <-. exists k0, g0.
    rewrite lookup_insert_ne; [done|]. intros <-. by destruct (Hout g0 Hk0).
Qed.

(** Counting the Guests anew, in the open Room. *)
Lemma count_cases s r n : locked (Some r) s →
  set_guest_count (state r) n = Ok (counted n (state r)) ∧ wf (counted n (state r)) ∨
  set_guest_count (state r) n = Panic ∧ worn s.
Proof.
  intros [Hinv Hr]. destruct (inv_room s Hinv r Hr). unfold worn, top. rewrite Hr. by apply set_guest_count_cases.
Qed.

Ltac count_guests Hs :=
  match goal with |- context [set_guest_count _ ?n] =>
    destruct (count_cases _ _ n Hs) as [[-> Hst]|[-> Hmax]]; simpl
  end.

Lemma join_room_keeps `{Crypto} c token current uuids r :
  keeps (locked (Some r)) (join_room c token current uuids r) (λ _, inv).
Proof.
  unfold join_room. destruct (invite_matches r token); simpl;
    [|apply keeps_fail, keeps_locked_inv].
  destruct (live_session r current); [intros s []; done|].
  destruct (max_guests (state r) <=? count (guests r)) eqn:Hfull;
    [apply keeps_fail, keeps_locked_inv|]. bool_to_prop.
  intros s Hs. unfold set_room, publish. run_m.
  count_guests Hs;
    [by apply join_insert_inv|exact Hmax].
Qed.

Lemma join_keeps `{Crypto} c token current uuids :
  keeps inv (join c token current uuids) (λ _, inv).
Proof.
  intros s Hs. unfold join, map_not_found.
  pose proof (with_room_keeps c (join_room c token current uuids) (λ _, inv)
    (λ r, join_room_keeps c token current uuids r) s Hs) as Hk.
  destruct (with_room _ _ s) as [[| | |] s']; done.
Qed.

(** What removing Guests writes: those gone are ended, the rest kept. *)
Lemma remove_guests_inv s r gs e :
  locked (Some r) s → gs ⊆ guests r →
  (∀ k g, gs !! k = Some g → e !! revoked g = Some false) →
  (∀ c b, e !! c = Some b → c < next_cell s) →
  (∀ c, e !! c = Some false → ∃ k g, gs !! k = Some g ∧ revoked g = c) →
  let st := counted (count gs) (state r) in
  wf st → inv (with_feed (generation r) (State st)
         (with_slot (Some (room_with_state st (room_with_guests gs r))) (with_ended e s))).
Proof.
  intros [Hinv Hr] Hsub Hlive Hlt Hback st Hst. destruct (inv_room s Hinv r Hr).
  assert (Hle : count gs <= count (guests r)).
  { unfold count. apply map_subseteq_size in Hsub. lia. }
  assert (∀ k g, gs !! k = Some g → guests r !! k = Some g) as Hin.
  { intros k g Hk. by eapply lookup_weaken. }
  pose proof (publish_inv s r st gs (next_cell s) e Hinv Hr) as Hp.
  unfold with_next_cell in Hp. destruct s. apply Hp; try done.
  - simpl. lia.
  - intros k g Hk. split_and!; eauto.
  - intros k k' g g' ?%Hin ?%Hin. eauto.
Qed.

(** The cells left after some Guests are ended are those of the others. *)
Lemma ended_back (s : ListenTogether) (r : Room) (gone keep : gmap str Guest) (c : Z) :
  locked (Some r) s →
  (∀ k g, guests r !! k = Some g → gone !! k = Some g ∨ keep !! k = Some g) →
  end_sessions gone (ended s) !! c = Some false →
  ∃ k g, keep !! k = Some g ∧ revoked g = c.
Proof.
  intros [Hinv Hr] Hsplit (Hl & Hout)%end_sessions_false.
  destruct (inv_live s Hinv c Hl) as (r0 & k & g & Hr0 & Hk & Hrev).
  rewrite Hr in Hr0. injection Hr0 as <-.
  destruct (Hsplit k g Hk) as [Hg|Hg]; [by destruct (Hout k g Hg)|eauto].
Qed.

(** Ending some Guests leaves the others' cells alone. *)
Lemma ended_keep (s : ListenTogether) (r : Room) (gone keep : gmap str Guest) k g :
  locked (Some r) s → gone ⊆ guests r → keep ⊆ guests r → gone ##ₘ keep →
  keep !! k = Some g → end_sessions gone (ended s) !! revoked g = Some false.
Proof.
  intros [Hinv Hr] Hg Hk Hdisj Hkg. destruct (inv_room s Hinv r Hr).
  pose proof (lookup_weaken _ _ _ _ Hkg Hk) as Hin.
  rewrite end_sessions_out; [eauto|]. intros k' g' Hk' Heq.
  pose proof (lookup_weaken _ _ _ _ Hk' Hg) as Hin'.
  pose proof (ri_inj0 _ _ _ _ Hin' Hin Heq) as <-.
  by eapply map_disjoint_spec.
Qed.

Lemma ended_lt (s : ListenTogether) (r : Room) (gone : gmap str Guest) (c : Z) b :
  locked (Some r) s → gone ⊆ guests r →
  end_sessions gone (ended s) !! c = Some b → c < next_cell s.
Proof.
  intros [Hinv Hr] Hg. apply end_sessions_dom; [apply Hinv|].
  intros k g Hk. by eapply room_cell_lt; [..|eapply lookup_weaken].
Qed.

Lemma split_guests_inv (s : ListenTogether) (r : Room) (gone keep : gmap str Guest) :
  locked (Some r) s → gone ⊆ guests r → keep ⊆ guests r → gone ##ₘ keep →
  (∀ k g, guests r !! k = Some g → gone !! k = Some g ∨ keep !! k = Some g) →
  let st := counted (count keep) (state r) in
  wf st → inv (with_feed (generation r) (State st)
         (with_slot (Some (room_with_state st (room_with_guests keep r)))
            (with_ended (end_sessions gone (ended s)) s))).
Proof.
  intros Hs Hg Hk Hdisj Hsplit. apply remove_guests_inv; [done..| | |].
  - intros. by eapply (ended_keep s r gone keep).
  - intros c b. by apply (ended_lt s r gone c b).
  - intros c. by apply (ended_back s r gone keep c).
Qed.

Lemma leave_keeps c session : keeps inv (leave c session) (λ _, inv).
Proof.
  apply with_room_keeps. intros r. apply guest_step_keeps. intros g Hg s Hs.
  unfold set_room, publish. run_m.
  pose proof (split_guests_inv s r {[key session := g]} (delete (key session) (guests r)) Hs) as Hi.
  unfold end_sessions in Hi. rewrite map_to_list_singleton in Hi.
  count_guests Hs; [|exact Hmax].
  apply Hi; [..|done].
  - by apply map_singleton_subseteq_l.
  - apply delete_subseteq.
  - apply map_disjoint_singleton_l, lookup_delete_eq.
  - intros k g'. destruct (decide (key session = k)) as [<-|Hne].
    + rewrite Hg. intros [= <-]. left. apply lookup_singleton_eq.
    + right. by rewrite lookup_delete_ne.
Qed.

(** The Guests a sweep keeps, or those it ends. *)
Definition swept (grace : Duration) (now : Instant) (b : bool) (gs : gmap str Guest)
    : gmap str Guest :=
  filter (λ kg, stays grace now kg.2 = b) gs.

Lemma swept_split grace now gs :
  swept grace now false gs ⊆ gs ∧ swept grace now true gs ⊆ gs ∧
  swept grace now false gs ##ₘ swept grace now true gs ∧
  ∀ k g, gs !! k = Some g →
    swept grace now false gs !! k = Some g ∨ swept grace now true gs !! k = Some g.
Proof.
  unfold swept. split_and!; try apply map_filter_subseteq.
  - apply map_disjoint_spec. intros k g g' [H1 Hf]%map_lookup_filter_Some
      [H2 Ht]%map_lookup_filter_Some. rewrite H1 in H2. injection H2 as <-. simpl in *. congruence.
  - intros k g Hk. rewrite !map_lookup_filter_Some. simpl. destruct (stays grace now g); auto.
Qed.

Lemma swept_all grace now gs :
  count (swept grace now true gs) = count gs →
  swept grace now true gs = gs ∧ swept grace now false gs = ∅.
Proof.
  intros Hc. destruct (swept_split grace now gs) as (Hf & Ht & Hd & _).
  assert (swept grace now true gs = gs) as Heq.
  { apply map_subseteq_size_eq; [done|]. unfold count in Hc. lia. }
  split; [done|]. rewrite Heq in Hd. apply map_empty. intros k.
  destruct (swept grace now false gs !! k) as [g|] eqn:Hk; [|done].
  exfalso. eapply map_disjoint_spec; [exact Hd|exact Hk|]. by eapply lookup_weaken.
Qed.

Lemma sweep_keeps c gen : keeps inv (sweep c gen) (λ _, inv).
Proof.
  eapply keeps_bind; [apply lock_keeps|]. intros [r|]; [|intros s []; done].
  destruct (generation r =? gen); [|intros s []; done].
  intros s Hs. unfold set_room, publish. run_m.
  set (now := at_action c). set (grace := guest_grace (timings s)).
  fold (swept grace now true (guests r)) (swept grace now false (guests r)).
  destruct (swept_split grace now (guests r)) as (Hf & Ht & Hd & Hsplit).
  destruct (count (swept grace now true (guests r)) =? count (guests r)) eqn:Hc; simpl.
  - bool_to_prop. destruct (swept_all grace now (guests r) Hc) as [-> ->].
    destruct Hs as [Hinv Hr].
    pose proof (set_guests_inv s r (guests r) Hinv Hr (λ k, eq_refl)) as Hi.
    destruct s. apply Hi. intros k g Hk. by eapply guest_facts.
  - count_guests Hs;
      [by apply split_guests_inv|exact Hmax].
Qed.

Lemma empty_err_inner {A} (o : outcome Empty_set A) a : o = Ok a → empty_err o = Ok a.
Proof. by intros ->. Qed.

Lemma apply_command_keeps c client cmd :
  command_typed cmd → validate cmd = Ok tt →
  keeps inv (apply_command c client cmd) (λ _, inv).
Proof.
  intros Hty Hv. apply with_room_keeps. intros r.
  apply (keeps_bind _ _ _ (λ _, locked (Some r))).
  { apply keeps_lift; [|by apply keeps_locked_inv|done].
    destruct client; simpl; [done|]. by case_match. }
  intros _ s [Hinv Hr]. destruct (inv_room s Hinv r Hr).
  pose proof (apply_cases (state r) cmd (now_ms c) ri_wf0 Hty Hv) as Happ.
  destruct (apply (state r) cmd (now_ms c)) as [[changed st]|[]| |] eqn:Heq; [|unfold worn, top; run_m; by rewrite Hr|done].
  destruct Happ as (Hwf & Hg & Hm & _ & _ & Hch). unfold set_room, publish. run_m.
  assert (Hpub : ∀ st', wf st' → guest_count st' = guest_count (state r) →
    max_guests st' = max_guests (state r) →
    inv (with_feed (generation r) (State st') (with_slot (Some (room_with_state st' r)) s))).
  { intros st' Hwf' Hg' Hm'.
    pose proof (publish_inv s r st' (guests r) (next_cell s) (ended s) Hinv Hr) as Hp.
    destruct s, r. apply Hp; simpl in *; try congruence.
    - intros k g Hk. split_and!; eauto.
    - intros k k' g g' ??. eauto.
    - apply Hinv.
    - intros c0 Hc. destruct (inv_live _ Hinv c0 Hc) as (r0 & k & g & Hr0 & ? & ?).
      simplify_eq/=. eauto. }
  destruct changed; simpl.
  - by apply (Hpub st).
  - subst st.
    pose proof (set_guests_inv s r (guests r) Hinv Hr (λ k, eq_refl)) as Hi.
    destruct r. apply Hi. intros k g Hk. split; eauto.
Qed.

Lemma open_keeps `{Crypto} c t k : keeps inv (open c t k) (λ _, inv).
Proof.
  unfold open. apply (keeps_bind _ _ _ (λ _, inv)); [by apply keeps_get|]. intros s0.
  apply (keeps_bind _ _ _ (λ _, inv)); [apply keeps_lift; auto with rust|]. intros origin.
  eapply keeps_bind; [apply lock_keeps|]. intros [r|]; simpl; [apply keeps_fail, keeps_locked_inv|].
  intros s [Hinv Hr]. unfold set_room, publish. run_m. split; simpl.
  - apply Hinv.
  - intros ? [= <-]. split; simpl.
    + apply new_wf.
    + by unfold count; rewrite map_size_empty.
    + unfold count; rewrite map_size_empty. apply Hinv.
    + intros ? ?. by rewrite lookup_empty.
    + intros ? ?. by rewrite lookup_empty.
    + by rewrite lookup_insert_eq.
    + intros ? ?. by rewrite lookup_empty.
    + intros ? ? ? ?. by rewrite lookup_empty.
  - intros g f [[<- <-]|[Hne Hf]]%lookup_insert_Some; [split; [lia|right; by eexists]|].
    destruct (inv_feed s Hinv g f Hf) as [? [->|(r & Hr' & _)]]; [split; [lia|by left]|congruence].
  - apply Hinv.
  - intros c0 Hc. destruct (inv_live s Hinv c0 Hc) as (r & _ & _ & Hr' & _). congruence.
Qed.

(** ** Properties of reachable services *)

Lemma keeps_void {A} (m : Service A) :
  keeps inv m (λ _, inv) → keeps inv (void m) (λ _, inv).
Proof. intros Hm. eapply keeps_bind; [exact Hm|]. by intros a s. Qed.

#[local] Hint Resolve keeps_void open_keeps close_keeps room_keeps take_join_keeps
  take_read_keeps open_audio_stream_keeps audio_stream_ended_keeps join_keeps
  authenticate_keeps leave_keeps take_command_keeps apply_command_keeps subscribe_keeps
  stream_ended_keeps sweep_keeps : core.

Lemma run_call_keeps `{Crypto} c call :
  call_ok call → keeps inv (run_call c call) (λ _, inv).
Proof. destruct call; simpl; intros Hok; try destruct Hok; auto. Qed.

Lemma start_inv origin max t now : 0 <= max → inv (with_timings origin max t now).
Proof.
  intros. split; simpl; try done; intros *; by rewrite lookup_empty.
Qed.

Lemma reachable_inv `{Crypto} n s : reachable n s → inv s.
Proof.
  induction 1 as [|n s c call _ IH Hok Hr]; [by apply start_inv|].
  pose proof (run_call_keeps c call Hok s IH) as Hk.
  by destruct (run_call c call s) as [[| | |] s'].
Qed.

(** ** How fast the revision rises *)

Lemma lock_cases c s : (∃ r, slot s = Some r ∧ lock c s = (Ok (Some r), s)) ∨
  ∃ s', slot s' = None ∧ lock c s = (Ok None, s').
Proof.
  unfold lock, close_room. run_m. destruct (slot s) as [r|] eqn:Hr; [|right; by exists s].
  destruct (closes_at r <=? at_lock c); [|left; by exists r].
  right. eexists. split; [|reflexivity]. done.
Qed.

(** A call raises the revision at most once. *)
Definition rises {A} (m : Service A) : Prop := ∀ s, inv s → top (m s).2 <= top s + 1.

Lemma top_range s : inv s → 0 <= top s <= i64_max.
Proof.
  intros Hinv. unfold top. destruct (slot s) as [r|] eqn:Hr; [|done]. simpl.
  destruct (inv_room s Hinv r Hr) as [Hwf]. pose proof (wf_revision _ Hwf). lia.
Qed.

Lemma lock_rises {A} c (f : option Room → Service A) :
  (∀ s r, slot s = Some r → 1 <= revision (state r) → top (f (Some r) s).2 <= revision (state r) + 1) →
  (∀ s, slot s = None → top (f None s).2 <= 1) → rises (lock c ≫= f).
Proof.
  intros Hf Hn s Hinv. unfold mbind, M_bind. destruct (lock_cases c s) as [(r & Hr & ->)|(s' & Hs' & ->)].
  - unfold top at 2. rewrite Hr. apply Hf; [done|]. destruct (inv_room s Hinv r Hr) as [Hwf]. apply (wf_revision _ Hwf).
  - pose proof (top_range s Hinv). pose proof (Hn s' Hs'). lia.
Qed.

Lemma with_room_rises {A} c (action : Room → Service A) :
  (∀ s r, slot s = Some r → 1 <= revision (state r) → top (action r s).2 <= revision (state r) + 1) → rises (with_room c action).
Proof.
  intros Ha. apply lock_rises; [done|]. intros s Hs. unfold top. simpl. by rewrite Hs.
Qed.

Lemma count_rises st n st' : empty_err (set_guest_count st n) = Ok st' → revision st' = revision st + 1.
Proof. by intros ->%map_err_Ok%raise_Ok. Qed.

Lemma applied_rises st cmd now changed st' : empty_err (apply st cmd now) = Ok (changed, st') →
  revision st' <= revision st + 1.
Proof. by intros Ha%map_err_Ok%apply_rises. Qed.

Ltac rise := intros s r Hr Hpos; unfold set_guest, set_room, publish, guest_of; run_m;
  repeat (case_match; simpl in *; simplify_eq/=);
  repeat match goal with
  | E : empty_err (set_guest_count _ _) = Ok _ |- _ => apply count_rises in E
  | E : empty_err (apply _ _ _) = Ok _ |- _ => apply applied_rises in E
  end; unfold top; simpl; rewrite ?Hr; simpl; try lia.

Ltac rise_none := intros s Hs; run_m; unfold top; simpl; rewrite ?Hs; simpl; lia.

Lemma void_rises {A} (m : Service A) : rises m → rises (void m).
Proof. intros Hm s Hs. specialize (Hm s Hs). unfold void, mbind, M_bind. by destruct (m s) as [[] s']. Qed.

Lemma run_call_rises `{Crypto} c call : rises (run_call c call).
Proof.
  destruct call; simpl; try apply void_rises.
  - intros s Hs. pose proof (top_range s Hs). unfold open, set_room, publish. run_m.
    destruct (ok_or _ _) as [o|e| |]; simpl; try lia.
    destruct (lock_cases c s) as [(r & Hr & ->)|(s' & Hs' & ->)]; simpl; [lia|]. unfold top at 1. simpl. lia.
  - unfold close, close_room. apply lock_rises; [rise|rise_none].
  - apply with_room_rises. rise.
  - intros s0 Hs0. unfold take_join. run_m.
    destruct (fle _ _); change (top s0 <= top s0 + 1); lia.
  - apply with_room_rises. rise.
  - apply with_room_rises. rise.
  - apply lock_rises; [rise|rise_none].
  - assert (rises (with_room c (join_room c token current uuids))) as Hw
      by (apply with_room_rises; unfold join_room; rise).
    intros s Hs. specialize (Hw s Hs). unfold join, map_not_found. by destruct (with_room _ _ s) as [o s'].
  - apply lock_rises; [rise|rise_none].
  - apply with_room_rises. rise.
  - apply with_room_rises. unfold take_command; rise.
  - apply with_room_rises. rise.
  - apply with_room_rises. rise.
  - apply lock_rises; [rise|rise_none].
  - apply lock_rises; [rise|rise_none].
Qed.

Lemma reachable_top `{Crypto} n s : reachable n s → top s <= Z.of_nat n.
Proof.
  induction 1 as [|n s c call Hs IH Hok Hr]; [done|].
  pose proof (run_call_rises c call s (reachable_inv n s Hs)). lia.
Qed.

(** C1: whatever clients do and in whatever order, the Room stays sound. Over
    every interleaving of calls, a command's two critical sections included, and
    for every clock: no call panics before the revision, an [i64] that a call
    raises at most once, ran out, which takes 2^63 - 2 calls; the Room State is
    well formed and its Guest count is the number of Guests, never above the
    limit; each Guest holds at most four distinct audio streams; the feed of the
    open Room shows its current state and the feed of every other Room shows
    that it closed; and a session is live exactly when its Guest is in the open
    Room. *)
Theorem reachable_sound `{Crypto} n s :
  reachable n s →
  inv s ∧ ∀ c call, call_ok call →
    returns (run_call c call s).1 ∨ (run_call c call s).1 = Panic ∧ i64_max <= Z.of_nat n + 1.
Proof.
  intros Hn. pose proof (reachable_inv n s Hn) as Hinv. split; [done|]. intros c call Hok.
  pose proof (run_call_keeps c call Hok s Hinv) as Hk. pose proof (run_call_rises c call s Hinv) as Hr.
  pose proof (reachable_top n s Hn) as Ht.
  destruct (run_call c call s) as [[| | |] s']; [by left..| |done]. right. split; [done|]. unfold worn in Hk. simpl in Hr. lia.
Qed.

(** The lock leaves an open, unexpired Room alone. *)
Lemma lock_open c s r :
  slot s = Some r → at_lock c < closes_at r → lock c s = (Ok (Some r), s).
Proof.
  intros Hr Hc. unfold lock. run_m. rewrite Hr.
  by rewrite (proj2 (Z.leb_gt _ _) Hc).
Qed.

(** What the lock does to a Room at its hour. *)
Definition closed_room (r : Room) (s : ListenTogether) : ListenTogether :=
  with_ended (end_sessions (guests r) (ended s)) (with_feed (generation r) Closed (with_slot None s)).

Lemma lock_expired c s r :
  slot s = Some r → closes_at r <= at_lock c → lock c s = (Ok None, closed_room r s).
Proof.
  intros Hr Hc. unfold lock, close_room. run_m. rewrite Hr.
  by rewrite (proj2 (Z.leb_le _ _) Hc).
Qed.

Lemma closed_room_ended r s k g :
  guests r !! k = Some g → ended (closed_room r s) !! revoked g = Some true.
Proof. apply end_sessions_in. Qed.

Lemma closed_room_none_live r s :
  inv s → slot s = Some r → ∀ x, ended (closed_room r s) !! x ≠ Some false.
Proof.
  intros Hinv Hr x Hx. pose proof (close_room_inv s r Hinv Hr) as Hc.
  destruct (inv_live _ Hc x Hx) as (r' & _ & _ & Hr' & _). done.
Qed.

(** closing a Room, or letting its lifetime run out, ends everything at
    once. After [close], or after any session check at or past the closing time,
    no Room is open, its feed carries the end, no session of any Room is live,
    and no cookie authenticates any more. *)
Theorem close_revokes_all `{Crypto} s r c c' token :
  inv s → slot s = Some r →
  let expired := bool_decide (closes_at r <= at_lock c) in
  let s' := if expired then (authenticate c token s).2 else (close c s).2 in
  (if expired then (authenticate c token s).1 = Ok None else (close c s).1 = Ok tt) ∧
  slot s' = None ∧ feeds s' !! generation r = Some Closed ∧
  (∀ x, ended s' !! x ≠ Some false) ∧
  (∀ k g, guests r !! k = Some g → ended s' !! revoked g = Some true) ∧
  authenticate c' token s' = (Ok None, s').
Proof.
  intros Hinv Hr. cbv zeta.
  assert (Hs' : (if bool_decide (closes_at r <= at_lock c) then (authenticate c token s).2
                 else (close c s).2) = closed_room r s ∧
    (if bool_decide (closes_at r <= at_lock c) then (authenticate c token s).1 = Ok None
     else (close c s).1 = Ok tt)).
  { case_bool_decide as Hexp.
    - unfold authenticate, mbind, M_bind. by rewrite (lock_expired c s r).
    - unfold close, close_room, mbind, M_bind. by rewrite (lock_open c s r) by (done || lia). }
  destruct Hs' as [-> Ho]. split_and!; [done..|by apply lookup_insert_eq| | |].
  - by apply closed_room_none_live.
  - intros k g. apply closed_room_ended.
  - done.
Qed.

(** The open Room a successful call acted on. *)
Lemma with_room_Ok {A} c (action : Room → Service A) s a :
  inv s → (with_room c action s).1 = Ok a →
  ∃ r s', inv s' ∧ slot s' = Some r ∧ (action r s').1 = Ok a.
Proof.
  intros Hinv. unfold with_room, mbind, M_bind. pose proof (lock_keeps c s Hinv) as Hl.
  destruct (lock c s) as [[[r|]|e| |] s']; try done. destruct Hl. eauto.
Qed.

Lemma bind_M_Ok {A B} (m : Service A) (f : A → Service B) s b :
  ((m ≫= f) s).1 = Ok b → ∃ a s', m s = (Ok a, s') ∧ (f a s').1 = Ok b.
Proof.
  unfold mbind, M_bind. destruct (m s) as [[a|e| |] s']; try done. eauto.
Qed.

Lemma room_invite_None s r : inv s → slot s = Some r → invite_url (state r) = None.
Proof. intros Hinv Hr. by destruct (inv_room s Hinv r Hr) as [[]]. Qed.

Lemma room_guest_view c session s st :
  inv s → (room c (AsGuest session) s).1 = Ok st → invite_url st = None.
Proof.
  intros Hinv (r & s' & Hinv' & Hr & Heq)%with_room_Ok; [|done].
  apply bind_M_Ok in Heq as ([] & s2 & _ & Heq). injection Heq as <-.
  by eapply room_invite_None.
Qed.

Lemma apply_command_view c session cmd s st :
  inv s → command_typed cmd → validate cmd = Ok tt →
  (apply_command c (AsGuest session) cmd s).1 = Ok st → invite_url st = None.
Proof.
  intros Hinv Hty Hv (r & s' & Hinv' & Hr & Heq)%with_room_Ok; [|done].
  apply bind_M_Ok in Heq as ([] & s2 & _ & Heq).
  apply bind_M_Ok in Heq as ([changed st'] & s3 & Happ & Heq).
  apply bind_M_Ok in Heq as ([] & s4 & _ & Heq).
  apply bind_M_Ok in Heq as ([] & s5 & _ & Heq). injection Heq as <-. simpl.
  destruct (inv_room s' Hinv' r Hr). injection Happ as Happ%map_err_Ok _.
  pose proof (apply_keeps_wf (state r) cmd (now_ms c) changed st' ri_wf0 Hty Hv Happ) as Hwf1. by destruct Hwf1.
Qed.

Lemma keeps_state {A} (m : Service A) s :
  inv s → keeps inv m (λ _, inv) → returns (m s).1 → inv (m s).2.
Proof. intros Hinv Hk. specialize (Hk s Hinv). by destruct (m s) as [[| | |] s']. Qed.

Lemma command_view c c2 get_track session cmd s st :
  inv s → command_typed cmd →
  (command c c2 get_track (AsGuest session) cmd s).1 = Ok st → invite_url st = None.
Proof.
  intros Hinv Hty Hc. unfold command in Hc.
  apply bind_M_Ok in Hc as ([] & s1 & H1 & Hc).
  pose proof (keeps_state _ s Hinv (take_command_keeps c (AsGuest session))) as Hinv1.
  rewrite H1 in Hinv1. specialize (Hinv1 I). simpl in Hinv1.
  apply bind_M_Ok in Hc as ([] & s2 & H2 & Hc). injection H2 as Hcheck <-.
  unfold check_command in Hcheck. apply bind_Ok in Hcheck as ([] & Hv%map_err_Ok & _).
  by eapply apply_command_view.
Qed.

Lemma join_view `{Crypto} c token current uuids s j :
  inv s → (join c token current uuids s).1 = Ok j → invite_url (joined_state j) = None.
Proof.
  intros Hinv. unfold join, map_not_found.
  destruct (with_room c (join_room c token current uuids) s) as [o s1] eqn:Hw.
  cbn [fst]. intros Ho%map_err_Ok. subst o.
  destruct (with_room_Ok c (join_room c token current uuids) s j Hinv) as (r & s' & Hinv' & Hr & Heq);
    [by rewrite Hw|].
  pose proof (room_invite_None s' r Hinv' Hr) as Hnone.
  unfold join_room in Heq. destruct (negb _); [done|].
  destruct (live_session r current); [injection Heq as <-; done|].
  destruct (_ <=? _); [done|]. run_m in Heq.
  destruct (empty_err _) as [st|e| |] eqn:Est; [|done..]. apply map_err_Ok, raise_Ok in Est as ->.
  injection Heq as <-. done.
Qed.

(** the Invite Link never reaches a Guest. In every reachable state, every
    snapshot a feed carries and every state a Guest's call returns has no Invite
    Link, whatever the Owner did; the Owner's own view of the open Room has it. *)
Theorem guests_never_see_invite `{Crypto} n s :
  reachable n s →
  (∀ g st, feeds s !! g = Some (State st) → invite_url st = None) ∧
  (∀ c session st, (room c (AsGuest session) s).1 = Ok st → invite_url st = None) ∧
  (∀ c c2 get_track session cmd st, command_typed cmd →
     (command c c2 get_track (AsGuest session) cmd s).1 = Ok st → invite_url st = None) ∧
  (∀ c token current uuids j, (join c token current uuids s).1 = Ok j →
     invite_url (joined_state j) = None) ∧
  (∀ c r, slot s = Some r → at_lock c < closes_at r →
     invite_url <$> ok_of (room c Owner s).1 = Some (Some (room_invite_url r))).
Proof.
  intros Hreach. pose proof (reachable_inv n s Hreach) as Hinv. split_and!.
  - intros g st Hf. destruct (inv_feed s Hinv g _ Hf) as [_ [?|(r & Hr & <-)]]; [done|].
    destruct (inv_room s Hinv r Hr). rewrite ri_feed0 in Hf. injection Hf as <-.
    by eapply room_invite_None.
  - intros. by eapply room_guest_view.
  - intros. by eapply command_view.
  - intros. by eapply join_view.
  - intros c r Hr Hc. unfold room, with_room, mbind, M_bind. by rewrite (lock_open c s r).
Qed.

(** ** Joining *)

Lemma with_room_open {A} c (action : Room → Service A) s r :
  slot s = Some r → at_lock c < closes_at r → with_room c action s = action r s.
Proof. intros Hr Hc. unfold with_room, mbind, M_bind. by rewrite (lock_open c s r). Qed.

Lemma authenticate_open `{Crypto} c s r token :
  slot s = Some r → at_lock c < closes_at r →
  authenticate c token s =
    (Ok (g ← guests r !! session_key token; Some (mkSession (session_key token) (revoked g))), s).
Proof. intros Hr Hc. unfold authenticate, mbind at 1, M_bind. by rewrite (lock_open c s r). Qed.

Lemma join_room_new `{Crypto} c token current uuids r s :
  invite_matches r token = true → live_session r current = None →
  count (guests r) < max_guests (state r) → wf (state r) → revision (state r) < i64_max →
  ∃ r' s', join_room c token current uuids r s =
             (Ok (mkJoined (random_token uuids) (state r')), s') ∧
    slot s' = Some r' ∧ closes_at r' = closes_at r ∧ generation r' = generation r ∧
    guests r' !! session_key (random_token uuids) =
      Some (mkGuest 0 (at_action c) (bucket_new COMMANDS (at_action c))
              (reads_new (at_action c)) [] (next_cell s)) ∧
    state r' = counted (count (guests r')) (state r) ∧
    feeds s' !! generation r = Some (State (state r')).
Proof.
  intros Hm Hl Hfull Hwf Hmax. unfold join_room. rewrite Hm, Hl. simpl.
  rewrite (proj2 (Z.leb_gt _ _) Hfull). unfold set_room, publish. run_m.
  set (gs := <[session_key (random_token uuids) := _]> (guests r)).
  destruct (set_guest_count_cases (state r) (count gs) Hwf) as [[-> _]|[_ ?]]; [|lia]. simpl.
  exists (room_with_state (counted (count gs) (state r)) (room_with_guests gs r)).
  eexists. split; [reflexivity|]. simpl.
  split_and!; try done; unfold gs; by rewrite lookup_insert_eq.
Qed.

(** who gets in. On an open Room, a wrong token is refused as invalid; a
    browser whose session is live keeps it and takes no second place; at the
    limit everyone else is refused; and none of these changes anything. Any other
    join is admitted: its cookie authenticates at once with a live session, the
    revision rises by one, the new state is published, and the limit holds. *)
Theorem join_admits `{Crypto} c token current uuids s r :
  inv s → slot s = Some r → at_lock c < closes_at r → revision (state r) < i64_max →
  if negb (invite_matches r token) then
    join c token current uuids s = (Err InviteInvalid, s)
  else match live_session r current with
  | Some t => join c token current uuids s = (Ok (mkJoined t (state r)), s)
  | None =>
      if max_guests (state r) <=? count (guests r) then
        join c token current uuids s = (Err Full, s)
      else ∃ st s',
        join c token current uuids s = (Ok (mkJoined (random_token uuids) st), s') ∧
        revision st = revision (state r) + 1 ∧ guest_count st <= max_guests st ∧
        max_guests st = max_guests (state r) ∧
        feeds s' !! generation r = Some (State st) ∧
        ∀ c', at_lock c' < closes_at r → ∃ cell,
          authenticate c' (random_token uuids) s' =
            (Ok (Some (mkSession (session_key (random_token uuids)) cell)), s') ∧
          ended s' !! cell = Some false
  end.
Proof.
  intros Hinv Hr Hc Hmax. unfold join, map_not_found. rewrite (with_room_open c _ s r Hr Hc).
  destruct (invite_matches r token) eqn:Hm; simpl; [|unfold join_room; by rewrite Hm].
  destruct (live_session r current) as [t|] eqn:Hl; [unfold join_room; by rewrite Hm, Hl|].
  destruct (max_guests (state r) <=? count (guests r)) eqn:Hfull.
  { unfold join_room. by rewrite Hm, Hl, Hfull. }
  bool_to_prop.
  destruct (join_room_new c token current uuids r s Hm Hl Hfull (ri_wf s r (inv_room s Hinv r Hr)) Hmax)
    as (r' & s' & Hj & Hr' & Hcl & Hgen & Hg & Hst & Hfeed).
  rewrite Hj. simpl. exists (state r'), s'.
  assert (Hinv' : inv s').
  { pose proof (join_room_keeps c token current uuids r s (conj Hinv Hr)) as Hk. by rewrite Hj in Hk. }
  destruct (inv_room s' Hinv' r' Hr').
  split_and!; try done; [by rewrite Hst|lia|by rewrite Hst|].
  intros c' Hc'. exists (next_cell s). rewrite (authenticate_open c' s' r') by congruence.
  rewrite Hg. split; [done|]. by apply (ri_live0 _ _ Hg).
Qed.

(** ** Audio streams *)

Lemma remove_target_None t l :
  remove_target t l = None ↔ Forall (λ a, target a ≠ t) l.
Proof.
  induction l as [|a l IH]; simpl; [done|]. rewrite Forall_cons, <-IH.
  case_bool_decide as Ht; [split; [done|by intros [? _]]|].
  destruct (remove_target t l); simpl; split; try done; by intros [_ ?].
Qed.

(** a seek is never refused. While the Guest's session lasts, asking for a
    Track fails only when the Guest holds four streams and none is of that
    Track, and then changes nothing; otherwise the new stream is the newest of at
    most four, and at the limit it takes the place of that Track's oldest one. *)
Theorem open_audio_stream_outcome c session t s r g :
  inv s → slot s = Some r → at_lock c < closes_at r → guests r !! key session = Some g →
  let '(o, s') := open_audio_stream c session t s in
  if bool_decide (MAX_AUDIO_STREAMS <= zlen (audio_streams g) ∧
                  Forall (λ a, target a ≠ t) (audio_streams g))
  then o = Err RateLimited ∧ s' = s
  else ∃ r' g' kept,
    o = Ok (mkSlot (generation r) (key session) (next_audio_stream s)) ∧
    slot s' = Some r' ∧ guests r' !! key session = Some g' ∧ reads g' = reads g ∧
    audio_streams g' = kept ++ [mkStream (next_audio_stream s) t] ∧
    zlen (audio_streams g') <= MAX_AUDIO_STREAMS ∧
    (if MAX_AUDIO_STREAMS <=? zlen (audio_streams g)
     then remove_target t (audio_streams g) = Some kept else kept = audio_streams g).
Proof.
  intros Hinv Hr Hc Hg. destruct (guest_facts s r _ g (conj Hinv Hr) Hg) as [(Hlen & _) _].
  unfold open_audio_stream. rewrite (with_room_open c _ s r Hr Hc).
  unfold guest_of, set_guest, set_room. rewrite Hg. run_m.
  destruct (MAX_AUDIO_STREAMS <=? zlen (audio_streams g)) eqn:Hfull; bool_to_prop.
  - destruct (remove_target t (audio_streams g)) as [l|] eqn:Hrm; simpl.
    + rewrite bool_decide_eq_false_2
        by (intros [_ Hn%remove_target_None]; congruence).
      eexists _, (guest_with_audio (l ++ [mkStream (next_audio_stream s) t]) g), l.
      split; [done|]. split; [done|]. split; [apply lookup_insert_eq|].
      split_and!; try done.
      simpl. rewrite zlen_app. apply remove_target_sublist in Hrm as [_ ->].
      change (zlen [mkStream (next_audio_stream s) t]) with 1. lia.
    + rewrite bool_decide_eq_true_2; [done|]. split; [done|]. by apply remove_target_None.
  - simpl. rewrite bool_decide_eq_false_2 by lia.
    eexists _, (guest_with_audio (audio_streams g ++ [mkStream (next_audio_stream s) t]) g),
      (audio_streams g).
    split; [done|]. split; [done|]. split; [apply lookup_insert_eq|].
    split_and!; try done.
    simpl. rewrite zlen_app. change (zlen [mkStream (next_audio_stream s) t]) with 1. lia.
Qed.

(** A read is charged to the Guest's allowance, and refused when that is spent. *)
Lemma take_read_open c session b s r g :
  slot s = Some r → at_lock c < closes_at r → guests r !! key session = Some g →
  let taken := reads_take (reads g) b (at_action c) in
  take_read c session b s = (if taken.1 then Ok tt else Err RateLimited,
    with_slot (Some (room_with_guests (<[key session := guest_with_reads taken.2 g]> (guests r)) r)) s).
Proof.
  intros Hr Hc Hg. unfold take_read. rewrite (with_room_open c _ s r Hr Hc).
  unfold guest_of, set_guest, set_room. rewrite Hg. cbn [ok_or].
  unfold mbind, M_bind, lift. destruct (reads_take (reads g) b (at_action c)) as [[] reads']; done.
Qed.

(** At its hour the Room is gone for every call. *)
Lemma with_room_expired {A} c (action : Room → Service A) s r :
  slot s = Some r → closes_at r <= at_lock c → with_room c action s = (Err RoomNotFound, closed_room r s).
Proof. intros Hr Hc. unfold with_room, mbind, M_bind. by rewrite (lock_expired c s r). Qed.

(** ** Sweeping *)

(** a sweep removes exactly the Guests gone too long. On the open Room it
    keeps the Guests with an open event stream or whose last one ended within the
    grace period and ends the sessions of the others and of no one else; the
    snapshot is republished with a higher revision only when someone left. A
    sweep for an earlier Room finds nothing to do and stops its sweeper. *)
Theorem sweep_removes_absent c gen s r :
  inv s → slot s = Some r → at_lock c < closes_at r → revision (state r) < i64_max →
  let '(o, s') := sweep c gen s in
  if negb (generation r =? gen) then o = Ok false ∧ s' = s
  else o = Ok true ∧ ∃ r', slot s' = Some r' ∧
    (∀ k g, guests r' !! k = Some g ↔
       guests r !! k = Some g ∧ stays (guest_grace (timings s)) (at_action c) g = true) ∧
    (∀ k g, guests r !! k = Some g →
       ended s' !! revoked g = Some (negb (stays (guest_grace (timings s)) (at_action c) g))) ∧
    feeds s' !! generation r = Some (State (state r')) ∧
    (if count (guests r') =? count (guests r) then state r' = state r
     else revision (state r') = revision (state r) + 1).
Proof.
  intros Hinv Hr Hc Hmax.
  unfold sweep, mbind at 1, M_bind. rewrite (lock_open c s r Hr Hc).
  destruct (generation r =? gen); simpl; [|done].
  unfold set_room, publish. run_m.
  set (now := at_action c). set (grace := guest_grace (timings s)).
  fold (swept grace now true (guests r)) (swept grace now false (guests r)).
  assert (Hend : ∀ k g, guests r !! k = Some g →
    end_sessions (swept grace now false (guests r)) (ended s) !! revoked g =
      Some (negb (stays grace now g))).
  { intros k g Hkg. destruct (inv_room s Hinv r Hr).
    destruct (swept_split grace now (guests r)) as (Hf & Ht & Hd & _).
    destruct (stays grace now g) eqn:Hst; simpl.
    - apply (ended_keep s r _ (swept grace now true (guests r)) k); try done.
      by apply map_lookup_filter_Some.
    - apply (end_sessions_in _ _ k). by apply map_lookup_filter_Some. }
  assert (Hin : ∀ k g, swept grace now true (guests r) !! k = Some g ↔
    guests r !! k = Some g ∧ stays grace now g = true).
  { intros k g. unfold swept. by rewrite map_lookup_filter_Some. }
  destruct (inv_room s Hinv r Hr).
  destruct (set_guest_count_cases (state r) (count (swept grace now true (guests r))) ri_wf0) as [[-> _]|[_ ?]]; [|lia].
  destruct (count (swept grace now true (guests r)) =? count (guests r)) eqn:Hcount;
    simpl; (split; [done|]); eexists; (split; [done|]); simpl;
    rewrite Hcount; split_and!; try done.
  by rewrite lookup_insert_eq.
Qed.

(** ** Witnesses: a Room with one Guest, on toy cryptography *)

Definition example_crypto : Crypto := {|
  sha256 := λ l, l; hmac_sha256 := λ k m, k ++ m;
  hex_encode := λ l, b2z <$> l; base64_url := λ l, b2z <$> l |}.

Definition SECOND : Z := 1000000000.
Definition example_clock (seconds : Z) : Clock :=
  mkClock (seconds * SECOND) (seconds * SECOND) (seconds * SECOND).

Definition example_start : ListenTogether :=
  with_timings (Some (st "https://h")) 2 (mkTimings (3600 * SECOND) (60 * SECOND) SECOND) 0.
Definition example_open : ListenTogether :=
  (@run_call example_crypto (example_clock 1) (CallOpen (bs "tok") (bs "key")) example_start).2.
Definition example_joined : ListenTogether :=
  (@run_call example_crypto (example_clock 2) (CallJoin (st "tok") None (bs "g1")) example_open).2.
Definition example_session : GuestSession := mkSession (st "g1") 1.
Definition dummy_room : Room :=
  mkRoom 0 (new 0 [] 0) 0 [] [] [] ∅ (bucket_new COMMANDS 0).
Definition example_lt_room : Room := default dummy_room (slot example_joined).
Definition dummy_guest : Guest := mkGuest 0 0 (bucket_new COMMANDS 0) (reads_new 0) [] 0.
Definition example_guest : Guest :=
  default dummy_guest (guests example_lt_room !! key example_session).

Lemma example_reachable : @reachable example_crypto 2 example_joined.
Proof.
  unfold example_joined, example_open. repeat apply reach_call; try by vm_compute.
  by apply reach_start.
Qed.

Lemma example_inv : inv example_joined.
Proof. exact (@reachable_inv example_crypto _ _ example_reachable). Qed.

Lemma example_slot : slot example_joined = Some example_lt_room.
Proof. vm_compute. reflexivity. Qed.

Lemma reachable_sound_witness :
  @reachable example_crypto 2 example_joined ∧ inv example_joined.
Proof.
  split; [exact example_reachable|].
  apply (@reachable_sound example_crypto 2 example_joined example_reachable).
Defined.

Lemma close_revokes_all_witness :
  let s' := (close (example_clock 3) example_joined).2 in
  slot s' = None ∧ ended s' !! revoked example_guest = Some true ∧
  @authenticate example_crypto (example_clock 4) (st "g1") s' = (Ok None, s').
Proof.
  pose proof (@close_revokes_all example_crypto example_joined example_lt_room
    (example_clock 3) (example_clock 4) (st "g1") example_inv example_slot) as H.
  assert (bool_decide (closes_at example_lt_room <= at_lock (example_clock 3)) = false) as E
    by (vm_compute; reflexivity).
  rewrite E in H. destruct H as (_ & H1 & _ & _ & H2 & H3).
  split; [exact H1|]. split; [|exact H3].
  apply (H2 (key example_session)). vm_compute. reflexivity.
Defined.

Lemma guests_never_see_invite_witness :
  ∃ rs, (room (example_clock 3) (AsGuest example_session) example_joined).1 = Ok rs ∧
        invite_url rs = None.
Proof.
  destruct (@guests_never_see_invite example_crypto 2 example_joined example_reachable)
    as (_ & H & _).
  exists (state example_lt_room). split; [vm_compute; reflexivity|].
  apply (H (example_clock 3) example_session). vm_compute. reflexivity.
Defined.

Lemma join_admits_witness :
  ∃ rs s', @join example_crypto (example_clock 3) (st "tok") (Some (st "g0")) (bs "g2") example_joined =
    (Ok (mkJoined (@random_token example_crypto (bs "g2")) rs), s') ∧
    revision rs = revision (state example_lt_room) + 1 ∧ guest_count rs <= max_guests rs.
Proof.
  pose proof (@join_admits example_crypto (example_clock 3) (st "tok") (Some (st "g0")) (bs "g2")
    example_joined example_lt_room example_inv example_slot ltac:(vm_compute; reflexivity) ltac:(vm_compute; reflexivity)) as H.
  assert (negb (@invite_matches example_crypto example_lt_room (st "tok")) = false) as E1
    by (vm_compute; reflexivity).
  assert (@live_session example_crypto example_lt_room (Some (st "g0")) = None) as E2
    by (vm_compute; reflexivity).
  assert ((max_guests (state example_lt_room) <=? count (guests example_lt_room)) = false) as E3
    by (vm_compute; reflexivity).
  rewrite E1, E2, E3 in H. destruct H as (rs & s' & H1 & H2 & H3 & _).
  exists rs, s'. split; [exact H1|]. split; [exact H2|exact H3].
Defined.

Lemma open_audio_stream_outcome_witness :
  ∃ r' g' kept, slot (open_audio_stream (example_clock 3) example_session (st "/t/1") example_joined).2 = Some r' ∧
    guests r' !! key example_session = Some g' ∧
    audio_streams g' = kept ++ [mkStream 1 (st "/t/1")].
Proof.
  pose proof (open_audio_stream_outcome (example_clock 3) example_session (st "/t/1")
    example_joined example_lt_room example_guest example_inv example_slot
    ltac:(vm_compute; reflexivity) ltac:(vm_compute; reflexivity)) as H.
  destruct (open_audio_stream _ _ _ _) as [o s'].
  assert (bool_decide (MAX_AUDIO_STREAMS <= zlen (audio_streams example_guest) ∧
    Forall (λ a, target a ≠ st "/t/1") (audio_streams example_guest)) = false) as E
    by (vm_compute; reflexivity).
  rewrite E in H. destruct H as (r' & g' & kept & _ & H1 & H2 & _ & H3 & _).
  exists r', g', kept. split; [exact H1|]. split; [exact H2|exact H3].
Defined.

Lemma sweep_removes_absent_witness :
  (sweep (example_clock 63) 1 example_joined).1 = Ok true ∧
  ∃ r', slot (sweep (example_clock 63) 1 example_joined).2 = Some r' ∧
        guests r' !! key example_session = None.
Proof.
  pose proof (sweep_removes_absent (example_clock 63) 1 example_joined example_lt_room
    example_inv example_slot ltac:(vm_compute; reflexivity) ltac:(vm_compute; reflexivity)) as H.
  destruct (sweep (example_clock 63) 1 example_joined) as [o s'].
  assert (negb (generation example_lt_room =? 1) = false) as E by (vm_compute; reflexivity).
  rewrite E in H. destruct H as (H0 & r' & H1 & H2 & _).
  split; [exact H0|]. exists r'. split; [exact H1|].
  destruct (guests r' !! key example_session) as [g|] eqn:Hg; [|reflexivity].
  apply H2 in Hg as [Hg Hs].
  assert (g = example_guest) as -> by (unfold example_guest; rewrite Hg; reflexivity).
  vm_compute in Hs. discriminate Hs.
Defined.
