(* ===== verification/Http.v ===== *)
(** The API error shape (respond.rs), query strings read the way the Go server
    read them (query.rs), and the embedded Web Client's files
    (static_assets.rs). A raw header or query is what axum hands over. *)

From S2P Require Import Prelude Text.

(** ** respond.rs *)

Record ErrorBody := mkErrorBody {
  error : str;
  code : str;
  message : str;
  field : str;
  reason : str
}.

Record ApiError := mkApiError { status : Z; body : ErrorBody }.

Definition api_error (status : Z) (code message : str) : ApiError := {|
  status := status;
  body := {| error := code; code := code; message := message; field := []; reason := [] |}
|}.

Definition with_field (f : str) (e : ApiError) : ApiError := {|
  status := status e;
  body := {| error := error (body e); code := code (body e); message := message (body e);
             field := f; reason := reason (body e) |}
|}.

Definition with_reason (r : str) (e : ApiError) : ApiError := {|
  status := status e;
  body := {| error := error (body e); code := code (body e); message := message (body e);
             field := field (body e); reason := r |}
|}.

Definition bad_request (message : str) : ApiError := api_error 400 (st "bad_request") message.
Definition not_found (message : str) : ApiError := api_error 404 (st "not_found") message.

(** [ApiError::internal]: the cause goes to the log only. *)
Definition internal (cause : str) : ApiError :=
  api_error 500 (st "internal_error") (st "internal server error").

(** ** query.rs *)

(** One hexadecimal digit. *)
Definition hex_digit (c : Z) : option Z :=
  if in_range 48 57 c then Some (c - 48)
  else if in_range 97 102 c then Some (c - 87)
  else if in_range 65 70 c then Some (c - 55)
  else None.

(** [u8::from_str_radix(hex, 16)] of two bytes: a leading plus is a sign. *)
Definition hex_byte (a b : byte) : option byte :=
  if b2z a =? 43 then z2b <$> hex_digit (b2z b)
  else x ← hex_digit (b2z a); y ← hex_digit (b2z b); Some (z2b (16 * x + y)).

(** The loop of [unescape]. [text.get(index + 1..index + 3)] is [None] past the
    end and off a character boundary; no byte of a longer character is a
    hexadecimal digit, so those pairs are refused by [hex_byte] as well. *)
Fixpoint unescape_bytes (bytes : list byte) : option (list byte) :=
  match bytes with
  | [] => Some []
  | c :: rest =>
      if b2z c =? 37 then
        match rest with
        | a :: b :: rest => x ← hex_byte a b; d ← unescape_bytes rest; Some (x :: d)
        | _ => None
        end
      else if b2z c =? 43 then d ← unescape_bytes rest; Some (z2b 32 :: d)
      else d ← unescape_bytes rest; Some (c :: d)
  end.

Definition unescape (text : str) : option str :=
  from_utf8_lossy <$> unescape_bytes (encode text).

(** [GoQuery]: the pairs in their order. *)
Definition GoQuery : Type := list (str * str).

Definition parse_pair (pair : str) : option (str * str) :=
  let '(key, value) := default (pair, []) (split_once 61 pair) in
  k ← unescape key; v ← unescape value; Some (k, v).

Definition keep_pair (pair : str) : bool :=
  negb (bool_decide (pair = [])) && negb (bool_decide (59 ∈ pair)).

Definition parse (raw : str) : GoQuery :=
  omap parse_pair (filter (λ pair, keep_pair pair = true) (split (Z.eqb 38) raw)).

(** [GoQuery::get]: the first value, or the empty text. *)
Definition query_get (q : GoQuery) (key : str) : str :=
  default [] (snd <$> head (filter (λ kv, kv.1 = key) q)).

(** [GoQuery::values]. *)
Definition values (q : GoQuery) (key : str) : option (list str) :=
  let found := snd <$> filter (λ kv, kv.1 = key) q in
  if bool_decide (found = []) then None else Some found.

(** ** A client's encoding of a query

    Every byte of every key and value as [%XX], the strictest form of percent
    encoding; what the server has to read back. *)
Definition hex_char (n : Z) : Z := if n <? 10 then 48 + n else 55 + n.
Definition escape_byte (b : byte) : str := [37; hex_char (b2z b / 16); hex_char (b2z b mod 16)].
Definition escape (s : str) : str := encode s ≫= escape_byte.
Definition render_pair (kv : str * str) : str := escape kv.1 ++ 61 :: escape kv.2.
Definition render (q : GoQuery) : str := join [38] (render_pair <$> q).

Definition escaped_char (c : Z) : bool := (c =? 37) || in_range 48 57 c || in_range 65 70 c.

Lemma hex_digit_char n : 0 <= n < 16 → hex_digit (hex_char n) = Some n ∧
  escaped_char (hex_char n) = true ∧ hex_char n ≠ 43 ∧ 0 <= hex_char n < 128.
Proof.
  intros. unfold hex_digit, hex_char, escaped_char, in_range.
  destruct (Z.ltb_spec n 10); settle; split_and!; try done; try lia; f_equal; lia.
Qed.

Lemma encode_ascii_cons c s : 0 <= c < 128 → encode (c :: s) = z2b c :: encode s.
Proof.
  intros. change (encode (c :: s)) with (encode_char c ++ encode s).
  unfold encode_char. by rewrite (proj2 (Z.ltb_lt c 128)) by lia.
Qed.

Lemma b2z_ascii c : 0 <= c < 128 → b2z (z2b c) = c.
Proof. intros. apply b2z_small. lia. Qed.

Lemma unescape_escape_bytes d s : unescape_bytes (encode ((d ≫= escape_byte) ++ s)) =
  (app d) <$> unescape_bytes (encode s).
Proof.
  induction d as [|b d IH].
  { change ([] ≫= escape_byte) with (@nil Z). cbn [app].
    by destruct (unescape_bytes (encode s)). }
  rewrite bind_cons, <-(assoc_L (++)). unfold escape_byte at 1. cbn [app].
  pose proof (b2z_range b) as Hb.
  destruct (hex_digit_char (b2z b / 16)) as (H1 & _ & H1' & H1r);
    [Z.div_mod_to_equations; lia|].
  destruct (hex_digit_char (b2z b mod 16)) as (H2 & _ & _ & H2r);
    [Z.div_mod_to_equations; lia|].
  rewrite !encode_ascii_cons by (done || lia). cbn [unescape_bytes].
  rewrite b2z_ascii by lia. cbn [Z.eqb Pos.eqb].
  unfold hex_byte. rewrite !b2z_ascii by done.
  rewrite (proj2 (Z.eqb_neq (hex_char _) 43)) by done.
  rewrite H1, H2. cbn [mbind option_bind]. rewrite <-Z.div_mod, z2b_b2z, IH by done.
  by destruct (unescape_bytes (encode s)).
Qed.

Lemma unescape_escape s : forallb scalar s = true → unescape (escape s) = Some s.
Proof.
  intros Hs. unfold unescape, escape.
  rewrite <-(app_nil_r (_ ≫= escape_byte)), unescape_escape_bytes. simpl.
  by rewrite app_nil_r, from_utf8_lossy_encode.
Qed.

Lemma escape_chars s c : c ∈ escape s → escaped_char c = true.
Proof.
  unfold escape. intros (b & Hc & _)%list_elem_of_bind.
  pose proof (b2z_range b) as Hb. unfold escape_byte in Hc.
  repeat (apply elem_of_cons in Hc as [->|Hc]); [done| | |by apply not_elem_of_nil in Hc];
    apply hex_digit_char; Z.div_mod_to_equations; lia.
Qed.

Lemma escape_not_elem s c : escaped_char c = false → c ∉ escape s.
Proof. intros Hc H%escape_chars. congruence. Qed.

Lemma parse_render_pair kv : forallb scalar kv.1 = true → forallb scalar kv.2 = true →
  parse_pair (render_pair kv) = Some kv.
Proof.
  destruct kv as [k v]; simpl. intros Hk Hv. unfold parse_pair, render_pair.
  rewrite (proj2 (split_once_Some 61 _ (escape k) (escape v))).
  - simpl. by rewrite !unescape_escape.
  - split; [done|]. by apply escape_not_elem.
Qed.

Lemma render_pair_not_elem kv c : escaped_char c = false → c ≠ 61 → c ∉ render_pair kv.
Proof.
  intros Hc Hne. unfold render_pair. rewrite elem_of_app, elem_of_cons.
  intros [?|[?|?]]; [by eapply escape_not_elem|done|by eapply escape_not_elem].
Qed.

(** a query survives its encoding. Whatever keys and values a client
    percent-encodes (repeated keys, empty values, any Unicode text), the server
    reads exactly those pairs in their order, so [get] answers the first value
    of a key and [values] all of them. *)
Theorem query_roundtrip (q : GoQuery) key :
  Forall (λ kv, forallb scalar kv.1 = true ∧ forallb scalar kv.2 = true) q →
  parse (render q) = q ∧
  query_get (parse (render q)) key = default [] (snd <$> head (filter (λ kv, kv.1 = key) q)) ∧
  (values (parse (render q)) key = None ↔ ∀ v, (key, v) ∉ q).
Proof.
  intros Hq. assert (parse (render q) = q) as E.
  { unfold parse, render. destruct q as [|kv q']; [done|]. set (q := kv :: q') in *.
    rewrite split_join; [|done|done|].
    2: { apply Forall_fmap, Forall_forall. intros p _ x Hx. simpl in Hx.
         apply Z.eqb_neq. intros <-. revert Hx. by apply render_pair_not_elem. }
    clearbody q. clear kv q'. induction Hq as [|kv q [Hk Hv] Hq IH]; [done|].
    rewrite fmap_cons, filter_cons_True.
    - cbn [omap list_omap]. by rewrite parse_render_pair, IH.
    - unfold keep_pair. rewrite !bool_decide_eq_false_2; [done| |].
      + by apply render_pair_not_elem.
      + unfold render_pair. by destruct (escape _). }
  rewrite E. split_and!; [done..|]. unfold values. case_bool_decide as Hf.
  - split; [|done]. intros _ v Hv.
    assert (v ∈ snd <$> filter (λ kv, kv.1 = key) q) as Hin.
    { apply list_elem_of_fmap. exists (key, v). split; [done|]. by apply list_elem_of_filter. }
    rewrite Hf in Hin. by apply not_elem_of_nil in Hin.
  - split; [done|]. intros Hn. destruct Hf.
    destruct (filter _ q) as [|[k v] l] eqn:Hl; [done|].
    assert ((k, v) ∈ filter (λ kv, kv.1 = key) q) as [Hk Hin]%list_elem_of_filter
      by (rewrite Hl; by left).
    simpl in Hk. subst. by destruct (Hn v).
Qed.

Lemma query_roundtrip_witness :
  let q := [(st "q", st "a b"); (st "all", st "true"); (st "q", [8364])] in
  parse (render q) = q ∧ query_get (parse (render q)) (st "q") = st "a b".
Proof.
  intros q. destruct (query_roundtrip q (st "q")) as (H1 & H2 & _).
  - repeat constructor.
  - split; [exact H1|]. rewrite H2. reflexivity.
Defined.

(** A percent escape with a sign instead of its first digit is read too. *)
Lemma unescape_sign : unescape (st "%+f") = Some [15].
Proof. reflexivity. Qed.
