(* ===== verification/Gate.v ===== *)
(** The Guest Listener's deny-by-default gate (gate.rs), the Web Client's
    static files it falls through to (static_assets.rs) and the Listen Together
    handlers behind it (handlers.rs). The router, the JSON codec and the header
    codec are parameters; the service is the model of ListenTogether.v. *)

From stdpp Require Import gmap.
From S2P Require Import Prelude Text RoomState Limits ListenTogether Http.

Set Warnings "-register-all".

(** ** Routes *)

Definition TRACK_STREAM : str := st "/api/v1/tracks/{track_id}/stream".
Definition ARTIST_PHOTO : str := st "/api/v1/library/artists/{artist_id}/photo".

Definition PUBLIC_ROUTES : list (str * str) := [
  (st "GET", st "/api/v1/health");
  (st "GET", st "/api/v1/listen-together/session");
  (st "POST", st "/api/v1/listen-together/join")
].

Definition LOOKUP_ROUTES : list str := [
  st "/api/v1/library/artists/{artist_id}/biography";
  st "/api/v1/library/artists/{artist_id}/popular-tracks";
  st "/api/v1/library/albums/{album_id}/online-genres";
  st "/api/v1/library/tracks/play-counts";
  st "/api/v1/library/tracks/{track_id}/lyrics";
  st "/api/v1/library/tracks/{track_id}/waveform"
].

Definition SESSION_ROUTES : list (str * str) := [
  (st "GET", st "/api/v1/me");
  (st "GET", st "/api/v1/preferences");
  (st "GET", st "/api/v1/library/artists");
  (st "GET", st "/api/v1/library/artists/{artist_id}");
  (st "GET", ARTIST_PHOTO);
  (st "GET", st "/api/v1/library/artists/{artist_id}/biography");
  (st "GET", st "/api/v1/library/artists/{artist_id}/popular-tracks");
  (st "GET", st "/api/v1/library/albums");
  (st "GET", st "/api/v1/library/albums/{album_id}");
  (st "GET", st "/api/v1/library/albums/{album_id}/online-genres");
  (st "GET", st "/api/v1/library/albums/{album_id}/cover");
  (st "GET", st "/api/v1/library/tracks");
  (st "GET", st "/api/v1/library/tracks/play-counts");
  (st "GET", st "/api/v1/library/tracks/{track_id}");
  (st "GET", st "/api/v1/library/tracks/{track_id}/lyrics");
  (st "GET", st "/api/v1/library/tracks/{track_id}/waveform");
  (st "GET", st "/api/v1/library/search");
  (st "GET", TRACK_STREAM);
  (st "HEAD", TRACK_STREAM);
  (st "GET", st "/api/v1/listen-together/room");
  (st "GET", st "/api/v1/listen-together/room/events");
  (st "GET", st "/api/v1/listen-together/room/clock");
  (st "POST", st "/api/v1/listen-together/room/commands");
  (st "POST", st "/api/v1/listen-together/leave")
].

Inductive Access := Public | Session | Denied.

Definition under (path prefix : str) : bool :=
  match strip_prefix prefix path with
  | Some rest => bool_decide (rest = []) || starts_with (st "/") rest
  | None => false
  end.

Definition is_web_client_path (path : str) : bool :=
  negb (under path (st "/api")) && negb (under path (st "/docs")).

Definition classify (method : str) (route : option str) (path : str) : Access :=
  match route with
  | None =>
      if (bool_decide (method = st "GET") || bool_decide (method = st "HEAD"))
         && is_web_client_path path
      then Public else Denied
  | Some route =>
      if bool_decide ((method, route) ∈ PUBLIC_ROUTES) then Public
      else if bool_decide ((method, route) ∈ SESSION_ROUTES) then Session
      else Denied
  end.

Definition budget (method route : str) : option Budget :=
  if bool_decide (method = st "POST") then None
  else Some (
    if bool_decide (route = ARTIST_PHOTO) then Photos
    else if bool_decide (route ∈ LOOKUP_ROUTES) then Lookups
    else if starts_with (st "/api/v1/listen-together/") route then Limits.Room
    else Library).

(** ** Cookies *)

(** The listener's settings: [None] when Listen Together is not configured. *)
Definition is_secure (settings : option bool) : bool := default false settings.

Definition cookie_name (settings : option bool) : str :=
  if is_secure settings then st "__Host-harmony_guest" else st "harmony_guest".

(** [cookies] are the Cookie headers' values in order, [None] where [to_str]
    refuses one. *)
Definition session_cookie (settings : option bool) (cookies : list (option str)) : option str :=
  let name := cookie_name settings in
  let pairs :=
    omap (λ pair, split_once 61 (trim pair)) (omap (λ v, v) cookies ≫= split (Z.eqb 59)) in
  snd <$> head (filter (λ kv, kv.1 = name) pairs).

(** ** JSON values and the file paths in them *)

Inductive Json :=
| JNull
| JBool (b : bool)
| JNumber (text : str)
| JString (s : str)
| JArray (items : list Json)
| JObject (fields : list (str * Json)).

Definition FILE_PATH : str := st "filePath".

Fixpoint blank_file_paths (value : Json) : Json :=
  match value with
  | JArray items => JArray (map blank_file_paths items)
  | JObject fields =>
      JObject (map (λ kv, (kv.1, if bool_decide (kv.1 = FILE_PATH) then JString []
                                 else blank_file_paths kv.2)) fields)
  | _ => value
  end.

(** ** Requests and responses *)

Record Request := mkRequest {
  method : str;
  route : option str;
  path : str;
  cookies : list (option str)
}.

(** What ends a body before its data does. *)
Inductive Stop := SessionRevoked (cell : Z) | Superseded (id : Z).

(** A response's body: its bytes or the failure to read them. [stops] are the
    signals it was wrapped with and [holds] the audio stream slot that drops
    with it. *)
Record Response := mkResponse {
  response_status : Z;
  content_type : option (list byte);
  content_length : option Z;
  set_cookie : option str;
  response_body : option (list byte);
  stops : list Stop;
  holds : option AudioStreamSlot
}.

Definition with_stops (s : list Stop) (h : option AudioStreamSlot) (r : Response) : Response := {|
  response_status := response_status r; content_type := content_type r;
  content_length := content_length r; set_cookie := set_cookie r;
  response_body := response_body r; stops := s; holds := h
|}.

Definition with_body (b : list byte) (length : option Z) (r : Response) : Response := {|
  response_status := response_status r; content_type := content_type r;
  content_length := length; set_cookie := set_cookie r;
  response_body := Some b; stops := stops r; holds := holds r
|}.

Definition end_with_session (r : Response) (session : GuestSession)
    (audio : option AudioStreamSlot) : Response :=
  match audio with
  | None => with_stops (SessionRevoked (revoked_rx session) :: stops r) (holds r) r
  | Some slot =>
      with_stops (Superseded (a_id slot) :: SessionRevoked (revoked_rx session) :: stops r)
        (Some slot) r
  end.

Fixpoint bytes_start_with (pre d : list byte) : bool :=
  match pre, d with
  | [], _ => true
  | p :: pre, b :: d => bool_decide (p = b) && bytes_start_with pre d
  | _, [] => false
  end.

(** How the server writes what this file only passes on: an [ApiError] and a
    JSON value as bytes, and JSON bytes as a value. *)
Class Codec := {
  error_response : ApiError → Response;
  from_slice : list byte → option Json;
  to_vec : Json → list byte
}.

Section Gate.
Context `{Crypto} `{Codec}.

Definition without_file_paths (r : Response) : Response :=
  let is_json :=
    match content_type r with
    | Some v => bytes_start_with (bs "application/json") v
    | None => false
    end in
  if negb is_json then r else
  match response_body r with
  | None => error_response (internal (st "read a library response"))
  | Some bytes =>
      match from_slice bytes with
      | None => with_body bytes (content_length r) r
      | Some value => with_body (to_vec (blank_file_paths value)) None r
      end
  end.

(** [RoomError]'s [Display]. *)
Definition room_error_text (e : RoomError) : str :=
  match e with
  | Disabled => st "Listen Together is not configured"
  | AlreadyOpen => st "a Room is already open"
  | RoomNotFound => st "no Room is open"
  | InviteInvalid => st "the Invite Link is invalid, expired or revoked"
  | Full => st "the Room is full"
  | SessionEnded => st "the Guest session has ended"
  | RateLimited => st "too many requests"
  | BadCommand text => text
  | UnknownTrack => st "trackIds holds a Track that is not in the library"
  | LibraryFailed cause => st "read Tracks: " ++ cause
  end.

(** [impl From<RoomError> for ApiError]. *)
Definition room_api_error (e : RoomError) : ApiError :=
  let message := room_error_text e in
  match e with
  | Disabled => api_error 404 (st "listen_together_disabled") message
  | AlreadyOpen => api_error 409 (st "conflict") message
  | RoomNotFound => not_found message
  | InviteInvalid => api_error 404 (st "invite_invalid") message
  | Full => api_error 409 (st "room_full") message
  | SessionEnded => api_error 401 (st "unauthorized") message
  | RateLimited => api_error 429 (st "rate_limited") message
  | BadCommand _ => bad_request message
  | UnknownTrack => with_field (st "trackIds") (bad_request message)
  | LibraryFailed cause => internal cause
  end.

Definition guest_session (settings : option bool) (c : Clock) (cookies : list (option str))
    : Service (option GuestSession) :=
  match session_cookie settings cookies with
  | None => mret None
  | Some token => authenticate c token
  end.

(** A session request's checks, before the router sees it: the answer that
    refuses it, or its session and its place among the audio streams. *)
Definition admit_session (settings : option bool) (c1 c2 c3 : Clock) (request : Request)
    : Service (Response + GuestSession * option AudioStreamSlot) :=
  session ← guest_session settings c1 (cookies request);
  match session with
  | None =>
      mret (inl (error_response (api_error 401 (st "unauthorized")
        (st "join the Room through its Invite Link first"))))
  | Some session =>
      spent ← try (match route request ≫= budget (method request) with
                   | None => mret tt
                   | Some b => take_read c2 session b
                   end);
      match spent with
      | Err e => mret (inl (error_response (room_api_error e)))
      | _ =>
          let streams := bool_decide (route request = Some TRACK_STREAM)
                         && bool_decide (method request = st "GET") in
          audio ← try (if streams then
                         slot ← open_audio_stream c3 session (path request); mret (Some slot)
                       else mret None);
          match audio with
          | Err e => mret (inl (error_response (room_api_error e)))
          | Ok audio => mret (inr (session, audio))
          | Panic => lift Panic
          | OutOfFuel => lift OutOfFuel
          end
      end
  end.

(** What happens to the router's answer on its way back to a Guest. *)
Definition finish_session (request : Request) (session : GuestSession)
    (audio : option AudioStreamSlot) (response : Response) : Response :=
  match route request with
  | Some r =>
      if bool_decide (r = TRACK_STREAM) then end_with_session response session audio
      else if starts_with (st "/api/v1/library/") r then without_file_paths response
      else response
  | None => response
  end.

(** [guest_gate]. [next] is the router behind it, which sees the session the
    gate attached. *)
Definition guest_gate (settings : option bool) (c1 c2 c3 : Clock)
    (next : Request → option GuestSession → Service Response) (request : Request)
    : Service Response :=
  match classify (method request) (route request) (path request) with
  | Denied => mret (error_response (not_found (st "not found")))
  | Public => next request None
  | Session =>
      admitted ← admit_session settings c1 c2 c3 request;
      match admitted with
      | inl refusal => mret refusal
      | inr (session, audio) =>
          response ← next request (Some session);
          mret (finish_session request session audio response)
      end
  end.
End Gate.

(** ** static_assets.rs *)

Inductive Page :=
| ApiNotFound
| MethodNotAllowed
| Asset (mime : str) (data : list byte)
| PageNotFound.

(** [trim_start_matches] of one string, as often as it matches; each match
    shortens the text, so its length is enough fuel. *)
Fixpoint trim_prefixes (fuel : nat) (pat s : str) : str :=
  match fuel with
  | O => s
  | S fuel =>
      match strip_prefix pat s with
      | Some rest => trim_prefixes fuel pat rest
      | None => s
      end
  end.
Definition trim_start_matches (pat s : str) : str := trim_prefixes (length s) pat s.

(** [asset] over the files embedded in the binary. *)
Definition asset (files : str → option (str * list byte)) (path : str) : option Page :=
  (λ f, Asset f.1 f.2) <$> files path.

Definition web (files : str → option (str * list byte)) (method path : str) : Page :=
  if bool_decide (path = st "/api") || starts_with (st "/api/") path then ApiNotFound
  else if negb (bool_decide (method = st "GET")) && negb (bool_decide (method = st "HEAD"))
  then MethodNotAllowed
  else
    let index :=
      match files (st "index.html") with
      | Some f => Asset (st "text/html; charset=utf-8") f.2
      | None => PageNotFound
      end in
    let path := trim_start_matches (st "/") path in
    if bool_decide (path = []) then index else default index (asset files path).

Definition ends_with (suf s : str) : bool := bool_decide (is_Some (strip_suffix suf s)).

Definition docs (files : str → option (str * list byte)) (path : str) : Page :=
  let path := trim_start_matches (st "/") (trim_start_matches (st "/docs") path) in
  let path := if bool_decide (path = []) || ends_with (st "/") path
              then path ++ st "index.html" else path in
  default PageNotFound (asset files path).

Definition api_reference (files : str → option (str * list byte)) (path : str) : Page :=
  default PageNotFound (asset files (trim_start_matches (st "/api/docs/scalar/") path)).

(** ** The handlers behind the gate *)

Definition MAX_COMMAND_BYTES : Z := 64 * 1024.
Definition MAX_JOIN_BYTES : Z := 1024.
Definition MAX_TOKEN_CHARS : Z := 128.

(** How a handler reads a body ([axum::body::to_bytes], which fails past its
    limit) and the JSON types in it, and writes a snapshot and a header. *)
Class Wire := {
  RawBody : Type;
  to_bytes : RawBody → Z → option (list byte);
  parse_join : list byte → option str;
  parse_command : list byte → option Command;
  room_json : RoomState → list byte;
  header_value : str → option str
}.

Section Handlers.
Context `{Crypto} `{Codec} `{Wire}.

(** [?] on a service call inside a handler. *)
Definition api {A} (m : Service A) : M ListenTogether ApiError A := fun s =>
  let '(o, s') := m s in (map_err room_api_error o, s').

Definition decode_body {A} (parse : list byte → option A) (body : RawBody) (limit : Z)
    : outcome ApiError A :=
  bytes ← ok_or (to_bytes body limit) (bad_request (st "request body is too large"));
  ok_or (parse bytes) (bad_request (st "invalid JSON body")).

(** [handlers::session_cookie]: the Set-Cookie value. *)
Definition set_session_cookie (settings : option bool) (value attributes : str)
    : outcome ApiError str :=
  let secure := if is_secure settings then st "; Secure" else [] in
  ok_or (header_value (cookie_name settings ++ st "=" ++ value ++
           st "; Path=/; HttpOnly; SameSite=Strict" ++ secure ++ attributes))
    (internal (st "failed to parse header value")).

Definition json_response (status : Z) (cookie : option str) (body : list byte) : Response :=
  mkResponse status (Some (bs "application/json")) None cookie (Some body) [] None.

Definition join_handler (settings : option bool) (c1 c2 : Clock) (uuids : list byte)
    (cookies : list (option str)) (body : RawBody) : M ListenTogether ApiError Response :=
  _ ← api (take_join c1);
  token ← lift (decode_body parse_join body MAX_JOIN_BYTES);
  if bool_decide (token = []) || (MAX_TOKEN_CHARS <? zlen token) then
    fail (with_field (st "token") (bad_request (st "token has the wrong length")))
  else
    joined ← api (join c2 token (session_cookie settings cookies) uuids);
    cookie ← lift (set_session_cookie settings (session_token joined) []);
    mret (json_response 200 (Some cookie) (room_json (joined_state joined))).

Definition leave_handler (settings : option bool) (c : Clock) (session : GuestSession)
    : M ListenTogether ApiError Response :=
  _ ← api (leave c session);
  cookie ← lift (set_session_cookie settings [] (st "; Max-Age=0"));
  mret (mkResponse 204 None None (Some cookie) (Some []) [] None).

(** [owner_command] and [guest_command]. *)
Definition command_handler (c1 c2 : Clock) (get_track : str → outcome LibraryError unit)
    (client : Client) (body : RawBody) : M ListenTogether ApiError Response :=
  cmd ← lift (decode_body parse_command body MAX_COMMAND_BYTES);
  room ← api (command c1 c2 get_track client cmd);
  mret (json_response 200 None (room_json room)).

(** [owner_room] and [guest_room]. *)
Definition room_handler (c : Clock) (client : Client) : M ListenTogether ApiError Response :=
  r ← api (ListenTogether.room c client); mret (json_response 200 None (room_json r)).

Definition open_room_handler (c : Clock) (token_uuids key_uuids : list byte)
    : M ListenTogether ApiError Response :=
  r ← api (open c token_uuids key_uuids); mret (json_response 201 None (room_json r)).

Definition close_room_handler (c : Clock) : M ListenTogether ApiError Response :=
  _ ← api (close c); mret (mkResponse 204 None None None (Some []) [] None).

(** ** Event streams *)

Definition closed_frame : list byte :=
  bs "event: room-closed" ++ [x0a] ++ bs "data: {}" ++ [x0a; x0a].
Definition keep_alive_frame : list byte := bs ": keep-alive" ++ [x0a; x0a].

Definition state_frame (s : RoomState) (invite : option str) : list byte :=
  let s := match invite with Some u => with_invite_url (Some u) s | None => s end in
  bs "id: " ++ encode (show (revision s)) ++ [x0a] ++
  bs "event: room-state" ++ [x0a] ++ bs "data: " ++ room_json s ++ [x0a; x0a].

Definition frame (f : Feed) (invite : option str) : list byte * bool :=
  match f with
  | Closed => (closed_frame, true)
  | State s => (state_frame s invite, false)
  end.

(** What one poll of an event stream finds: whether its session has ended,
    whether the feed changed (or lost its sender) and what it holds now, and
    whether the keep-alive interval ticked. *)
Record Poll := mkPoll {
  session_over : bool;
  feed_changed : bool;
  feed_gone : bool;
  feed_now : Feed;
  ticked : bool
}.

Inductive Polled := Pending | Ended | Item (chunk : list byte) (last : bool).

(** [EventStream::next]: [select!] is biased, so the order of the tests counts. *)
Definition next (guest : bool) (invite : option str) (p : Poll) : Polled :=
  if guest && session_over p then
    match feed_now p with
    | Closed => Item closed_frame true
    | State _ => Ended
    end
  else if feed_changed p then
    let '(chunk, last) := (if feed_gone p then frame Closed None else frame (feed_now p) invite) in
    Item chunk last
  else if ticked p then Item keep_alive_frame false
  else Pending.

(** The [unfold] of later frames over the polls a connection makes. *)
Fixpoint later_frames (guest : bool) (invite : option str) (polls : list Poll)
    : list (list byte) :=
  match polls with
  | [] => []
  | p :: polls =>
      match next guest invite p with
      | Pending => later_frames guest invite polls
      | Ended => []
      | Item chunk last => chunk :: if last then [] else later_frames guest invite polls
      end
  end.

(** [event_stream]: the current snapshot, then the later frames. *)
Definition event_stream (current : Feed) (invite : option str) (guest : bool)
    (polls : list Poll) : list (list byte) :=
  let '(first, ended) := frame current invite in
  first :: if ended then [] else later_frames guest invite polls.
End Handlers.

(** ** Where a JSON value holds what *)

Inductive Step := Item_ (n : nat) | Field_ (n : nat) (name : str).

Fixpoint at_path (p : list Step) (v : Json) : option Json :=
  match p with
  | [] => Some v
  | Item_ n :: p =>
      match v with JArray items => items !! n ≫= at_path p | _ => None end
  | Field_ n name :: p =>
      match v with
      | JObject fields =>
          kv ← fields !! n; if bool_decide (kv.1 = name) then at_path p kv.2 else None
      | _ => None
      end
  end.

Definition visible (p : list Step) : Prop := ∀ n, Field_ n FILE_PATH ∉ p.

Lemma at_path_app p q v : at_path (p ++ q) v = at_path p v ≫= at_path q.
Proof.
  revert v. induction p as [|[n|n k] p IH]; intros v; [done|..]; destruct v; try done; simpl.
  - destruct (items !! n); simpl; [apply IH|done].
  - destruct (fields !! n) as [kv|]; simpl; [|done]. case_bool_decide; [apply IH|done].
Qed.

Lemma blank_visible p v : visible p →
  at_path p (blank_file_paths v) = blank_file_paths <$> at_path p v.
Proof.
  revert v. induction p as [|[n|n k] p IH]; intros v Hp; [done|..];
    assert (visible p) as Hp' by (intros m Hm; apply (Hp m); by right);
    destruct v as [| | | |items|fields]; try done; simpl.
  - rewrite list_lookup_fmap. destruct (items !! n); simpl; [by apply IH|done].
  - rewrite list_lookup_fmap. destruct (fields !! n) as [kv|]; simpl; [|done].
    case_bool_decide; [|done]. subst. rewrite bool_decide_eq_false_2; [by apply IH|].
    intros E. apply (Hp n). rewrite E. by left.
Qed.

Lemma blank_field n v :
  at_path [Field_ n FILE_PATH] (blank_file_paths v) =
    (λ _, JString []) <$> at_path [Field_ n FILE_PATH] v.
Proof.
  destruct v as [| | | | |fields]; try done. cbn [at_path blank_file_paths].
  rewrite list_lookup_fmap. destruct (fields !! n) as [[k w]|]; cbn; [|done].
  by case_bool_decide.
Qed.

Lemma visible_split p : visible p ∨ ∃ q n r, p = q ++ Field_ n FILE_PATH :: r ∧ visible q.
Proof.
  induction p as [|s p IH]; [left; intros n; apply not_elem_of_nil|].
  assert ((∃ n, s = Field_ n FILE_PATH) ∨ ∀ n, s ≠ Field_ n FILE_PATH) as [[n ->]|Hs].
  { destruct s as [n|n k]; [by right|].
    destruct (decide (k = FILE_PATH)) as [->|Hk]; [left; eauto|right; congruence]. }
  - right. exists [], n, p. split; [done|]. intros m; apply not_elem_of_nil.
  - destruct IH as [IH|(q & n & r & -> & Hq)].
    + left. intros n [?|?]%elem_of_cons; [by apply (Hs n)|by apply (IH n)].
    + right. exists (s :: q), n, r. split; [done|].
      intros m [?|?]%elem_of_cons; [by apply (Hs m)|by apply (Hq m)].
Qed.

(** What a Guest may read of a JSON value: a [filePath] anywhere in it is empty
    text, and everything outside such fields is as it was. *)
Record paths_hidden (v v' : Json) : Prop := {
  hidden_fields : ∀ p n w, at_path (p ++ [Field_ n FILE_PATH]) v' = Some w → w = JString [];
  kept_shape : ∀ p, visible p → is_Some (at_path p v') ↔ is_Some (at_path p v);
  kept_text : ∀ p x, visible p → at_path p v' = Some (JString x) ↔ at_path p v = Some (JString x);
  kept_number : ∀ p x, visible p → at_path p v' = Some (JNumber x) ↔ at_path p v = Some (JNumber x)
}.

Lemma blank_file_paths_hidden v : paths_hidden v (blank_file_paths v).
Proof.
  split.
  - intros p n w. destruct (visible_split p) as [Hp|(q & m & r & -> & Hq)].
    + rewrite at_path_app, blank_visible by done.
      destruct (at_path p v) as [u|]; [|done]. cbn [fmap option_fmap option_map mbind option_bind].
      rewrite blank_field. destruct (at_path _ u); simpl; congruence.
    + rewrite <-(assoc_L (++)), at_path_app, blank_visible by done.
      destruct (at_path q v) as [u|]; [|done]. cbn [fmap option_fmap option_map mbind option_bind].
      change (((Field_ m FILE_PATH :: r) ++ [Field_ n FILE_PATH]))
        with ([Field_ m FILE_PATH] ++ (r ++ [Field_ n FILE_PATH])).
      rewrite at_path_app, blank_field. destruct (at_path _ u); simpl; [|done].
      by destruct r as [|[] r].
  - intros p Hp. rewrite blank_visible by done. by rewrite fmap_is_Some.
  - intros p x Hp. rewrite blank_visible by done. destruct (at_path p v) as [[]|]; simpl; split; congruence.
  - intros p x Hp. rewrite blank_visible by done. destruct (at_path p v) as [[]|]; simpl; split; congruence.
Qed.

(** ** The gate *)

(** The session a cookie's value stands for under [authenticate]'s lock. *)
Definition live_guest `{Crypto} (c : Clock) (s : ListenTogether) (token : str)
    : option GuestSession :=
  r ← slot s;
  if closes_at r <=? at_lock c then None
  else g ← guests r !! session_key token; Some (mkSession (session_key token) (revoked g)).

Lemma authenticate_live `{Crypto} c token s : inv s →
  ∃ s', authenticate c token s = (Ok (live_guest c s token), s') ∧ inv s'.
Proof.
  intros Hinv. pose proof (authenticate_keeps c token s Hinv) as Hk.
  unfold live_guest. destruct (slot s) as [r|] eqn:Hr; simpl.
  - destruct (Z.leb_spec (closes_at r) (at_lock c)).
    + assert (authenticate c token s = (Ok None, closed_room r s)) as E.
      { unfold authenticate, mbind at 1, M_bind. by rewrite (lock_expired c s r). }
      rewrite E in *. by exists (closed_room r s).
    + exists s. by rewrite (authenticate_open c s r).
  - exists s. unfold authenticate, lock. run_m. by rewrite Hr.
Qed.

(** *** What a Guest may ask for

    Without a session: the three public routes, and pages outside the server's
    own trees. With one: the session routes. *)
Definition below (prefix path : str) : Prop := path = prefix ∨ ∃ rest, path = prefix ++ st "/" ++ rest.

Definition for_anyone (request : Request) : Prop :=
  match route request with
  | Some r => (method request, r) ∈ PUBLIC_ROUTES
  | None => (method request = st "GET" ∨ method request = st "HEAD") ∧
      ¬ below (st "/api") (path request) ∧ ¬ below (st "/docs") (path request)
  end.

Definition for_guests (request : Request) : Prop :=
  ∃ r, route request = Some r ∧ (method request, r) ∈ SESSION_ROUTES.

(** A route that changes something belongs to Listen Together. *)
Definition read_only (method route : str) : Prop :=
  method = st "GET" ∨ method = st "HEAD" ∨ ∃ rest, route = st "/api/v1/listen-together/" ++ rest.

(** The allowance a read draws on. *)
Definition spends (method route : str) (b : Budget) : Prop :=
  method ≠ st "POST" ∧
  match b with
  | Photos => route = st "/api/v1/library/artists/{artist_id}/photo"
  | Lookups => route ≠ ARTIST_PHOTO ∧ route ∈ LOOKUP_ROUTES
  | Limits.Room => route ≠ ARTIST_PHOTO ∧ (route ∉ LOOKUP_ROUTES) ∧ ∃ rest, route = st "/api/v1/listen-together/" ++ rest
  | Library => route ≠ ARTIST_PHOTO ∧ (route ∉ LOOKUP_ROUTES) ∧ ¬ ∃ rest, route = st "/api/v1/listen-together/" ++ rest
  end.

Lemma under_below path prefix : under path prefix = true ↔ below prefix path.
Proof.
  unfold under, below. destruct (strip_prefix prefix path) as [rest|] eqn:E.
  - apply strip_prefix_Some in E as ->. rewrite orb_true_iff, bool_decide_eq_true, starts_with_iff. split.
    + intros [->|[r ->]]; [left; by rewrite app_nil_r|right; by exists r].
    + intros [H|[r H]]; [left|right; exists r]; [|by apply app_inv_head in H].
      rewrite <-(app_nil_r prefix) in H at 2. by apply app_inv_head in H.
  - split; [done|]. intros [->|[r ->]]; exfalso.
    + rewrite <-(app_nil_r prefix) in E at 2. by rewrite strip_prefix_app in E.
    + by rewrite strip_prefix_app in E.
Qed.

Lemma spends_budget method route b : budget method route = Some b ↔ spends method route b.
Proof.
  unfold budget, spends. destruct (decide (method = st "POST")) as [->|Hm].
  { rewrite bool_decide_eq_true_2 by done. split; [done|by intros [? _]]. }
  rewrite (bool_decide_eq_false_2 (method = _)) by done. fold ARTIST_PHOTO.
  case_bool_decide as Hp; [|case_bool_decide as Hl; [|destruct (starts_with _ route) eqn:Hs]].
  - split; [intros [= <-]; by split|]. destruct b; naive_solver.
  - split; [intros [= <-]; by split|]. destruct b; naive_solver.
  - apply starts_with_iff in Hs. split; [intros [= <-]; by split|]. destruct b; naive_solver.
  - assert (¬ ∃ rest, route = st "/api/v1/listen-together/" ++ rest) as Hn by (rewrite <-starts_with_iff; congruence).
    split; [intros [= <-]; by split|]. destruct b; naive_solver.
Qed.

Lemma classify_access request :
  match classify (method request) (route request) (path request) with
  | Public => for_anyone request
  | Session => for_guests request ∧ ¬ for_anyone request
  | Denied => ¬ for_anyone request ∧ ¬ for_guests request
  end.
Proof.
  unfold classify, for_anyone, for_guests. destruct (route request) as [r|].
  - case_bool_decide; [done|]. case_bool_decide; [eauto|]. naive_solver.
  - pose proof (under_below (path request) (st "/api")) as Ha. pose proof (under_below (path request) (st "/docs")) as Hd.
    unfold is_web_client_path.
    match goal with |- context [if ?b then Public else Denied] => destruct b eqn:E end.
    + apply andb_true_iff in E as [E1 E2]. apply orb_true_iff in E1. rewrite !bool_decide_eq_true in E1.
      apply andb_true_iff in E2 as [E2 E3]. apply negb_true_iff in E2, E3. split; [done|]. split; intros Hb.
      * apply Ha in Hb. congruence.
      * apply Hd in Hb. congruence.
    + split; [|by intros (? & ? & _)]. intros (Hm & Hna & Hnd). apply andb_false_iff in E as [E|E].
      * apply orb_false_iff in E as [E1 E2]. apply bool_decide_eq_false in E1, E2. tauto.
      * apply andb_false_iff in E as [E|E]; apply negb_false_iff in E; [apply Hna, Ha, E|apply Hnd, Hd, E].
Qed.

Lemma routes_read_only : ∀ m r, (m, r) ∈ PUBLIC_ROUTES ++ SESSION_ROUTES → read_only m r.
Proof.
  assert (Forall (λ mr : str * str, read_only mr.1 mr.2) (PUBLIC_ROUTES ++ SESSION_ROUTES)) as H.
  { unfold PUBLIC_ROUTES, SESSION_ROUTES. cbn [app].
    repeat (apply Forall_cons; split; [unfold read_only; cbn [fst snd]; first [by left|by right; left|right; right; eexists; by vm_compute]|]).
    by apply Forall_nil. }
  rewrite Forall_forall in H. intros m r Hin. exact (H _ Hin).
Qed.

(** How the router's answer comes back through the gate. *)
Definition answered (o : outcome RoomError Response * ListenTogether) (f : Response → Response)
    : outcome RoomError Response * ListenTogether :=
  match o.1 with
  | Ok a => (Ok (f a), o.2)
  | Err e => (Err e, o.2)
  | Panic => (Panic, o.2)
  | OutOfFuel => (OutOfFuel, o.2)
  end.

Section Theorems.
Context `{Crypto} `{Codec}.

(** The request wants a Track's audio. *)
Definition wants_audio (request : Request) : Prop := route request = Some TRACK_STREAM ∧ method request = st "GET".

(** Why a live Guest is refused: the Room reached its hour, the allowance the
    request draws on is spent, or four streams run and none is of this Track. *)
Definition refusal (c2 c3 : Clock) (request : Request) (session : GuestSession) (s : ListenTogether) (e : RoomError) : Prop :=
  ∃ r g, slot s = Some r ∧ guests r !! key session = Some g ∧
    (e = RoomNotFound ∧ (closes_at r <= at_lock c2 ∨ closes_at r <= at_lock c3) ∨
     e = RateLimited ∧
       ((∃ rt b, route request = Some rt ∧ spends (method request) rt b ∧ (reads_take (reads g) b (at_action c2)).1 = false) ∨
        (wants_audio request ∧ MAX_AUDIO_STREAMS <= zlen (audio_streams g) ∧
         Forall (λ a, target a ≠ path request) (audio_streams g)))).

(** An admitted request was charged to its allowance and has its audio stream. *)
Definition admission (c2 : Clock) (request : Request) (session : GuestSession) (s s1 : ListenTogether) : Prop :=
  ∃ r g r1 g1, slot s = Some r ∧ guests r !! key session = Some g ∧ slot s1 = Some r1 ∧ guests r1 !! key session = Some g1 ∧
    (∀ rt b, route request = Some rt → spends (method request) rt b → reads_take (reads g) b (at_action c2) = (true, reads g1)) ∧
    (wants_audio request → ∃ id, last (audio_streams g1) = Some (mkStream id (path request))).

Lemma bind_step {S E A B} (m : M S E A) (f : A → M S E B) s a s' : m s = (Ok a, s') → (m ≫= f) s = f a s'.
Proof. intros Hm. unfold mbind, M_bind. by rewrite Hm. Qed.

Lemma keeps_step {A} (m : Service A) s o s' : keeps inv m (λ _, inv) → inv s → m s = (o, s') → returns o → inv s'.
Proof. intros Hm Hs Ho Hr. specialize (Hm s Hs). rewrite Ho in Hm. by destruct o. Qed.

(** The allowance: a refusal, or a charge that touches nothing else of the Guest. *)
Lemma read_step c2 c3 request session s r g : inv s → slot s = Some r → guests r !! key session = Some g →
  (∃ e s', inv s' ∧ refusal c2 c3 request session s e ∧
     try (match route request ≫= budget (method request) with None => mret tt | Some b => take_read c2 session b end) s
     = (Ok (Err e), s')) ∨
  (∃ s' r' g', inv s' ∧ slot s' = Some r' ∧ guests r' !! key session = Some g' ∧ closes_at r' = closes_at r ∧
     audio_streams g' = audio_streams g ∧
     (∀ rt b, route request = Some rt → spends (method request) rt b → reads_take (reads g) b (at_action c2) = (true, reads g')) ∧
     try (match route request ≫= budget (method request) with None => mret tt | Some b => take_read c2 session b end) s
     = (Ok (Ok tt), s')).
Proof.
  intros Hinv Hr Hg. destruct (route request ≫= budget (method request)) as [b|] eqn:Hb.
  2: { right. exists s, r, g. split_and!; try done. intros rt b Hrt Hsp%spends_budget. rewrite Hrt in Hb. simpl in Hb. congruence. }
  destruct (route request) as [rt|] eqn:Hrt; [|done]. simpl in Hb. pose proof (proj1 (spends_budget _ _ _) Hb) as Hsp.
  assert (∀ b', spends (method request) rt b' → b' = b) as Huniq by (intros b' Hb'%spends_budget; congruence).
  unfold try. destruct (Z.le_gt_cases (closes_at r) (at_lock c2)) as [Hc|Hc].
  - left. exists RoomNotFound, (closed_room r s). split; [by apply close_room_inv|]. split; [exists r, g; split; [done|]; split; [done|]; by left; auto|].
    unfold take_read. by rewrite (with_room_expired c2 _ s r).
  - pose proof (take_read_open c2 session b s r g Hr Hc Hg) as Ht. cbv zeta in Ht.
    pose proof (keeps_step _ s _ _ (take_read_keeps c2 session b) Hinv Ht) as Hk. rewrite Ht.
    destruct (reads_take (reads g) b (at_action c2)) as [[] reads'] eqn:Htake; cbn [fst snd] in *.
    + right. eexists _, _, (guest_with_reads reads' g). split; [by apply Hk|]. split; [done|]. split; [apply lookup_insert_eq|].
      split_and!; try done. intros rt' b' [= <-] Hb'. by rewrite (Huniq b' Hb').
    + left. exists RateLimited. eexists. split; [by apply Hk|]. split; [|done]. exists r, g. split; [done|]. split; [done|].
      right. split; [done|]. left. exists rt, b. by rewrite Htake.
Qed.

(** The audio stream: a refusal, or a stream that is the Guest's newest. *)
Lemma audio_step c2 c3 request session s s2 r g r2 g2 :
  inv s2 → slot s = Some r → guests r !! key session = Some g →
  slot s2 = Some r2 → guests r2 !! key session = Some g2 → closes_at r2 = closes_at r → audio_streams g2 = audio_streams g →
  (∀ rt b, route request = Some rt → spends (method request) rt b → reads_take (reads g) b (at_action c2) = (true, reads g2)) →
  let m := try (if bool_decide (route request = Some TRACK_STREAM) && bool_decide (method request = st "GET")
                then slot ← open_audio_stream c3 session (path request); mret (Some slot) else mret None) in
  (∃ e s', inv s' ∧ refusal c2 c3 request session s e ∧ m s2 = (Ok (Err e), s')) ∨
  (∃ audio s', inv s' ∧ admission c2 request session s s' ∧ m s2 = (Ok (Ok audio), s')).
Proof.
  intros Hinv Hr Hg Hr2 Hg2 Hcl Hau Hch m. subst m.
  destruct (bool_decide (route request = Some TRACK_STREAM) && bool_decide (method request = st "GET")) eqn:Hw.
  2: { right. exists None, s2. split; [done|]. split; [|done]. exists r, g, r2, g2. split_and!; try done.
       intros [H1 H2]. rewrite !bool_decide_eq_true_2 in Hw by done. done. }
  bool_to_prop. assert (wants_audio request) as Hwants by (split; tauto).
  unfold try, mbind, M_bind. destruct (Z.le_gt_cases (closes_at r) (at_lock c3)) as [Hc|Hc].
  - left. exists RoomNotFound, (closed_room r2 s2). split; [by apply close_room_inv|]. split; [exists r, g; split; [done|]; split; [done|]; by left; auto|].
    unfold open_audio_stream. rewrite (with_room_expired c3 _ s2 r2); [done..|lia].
  - pose proof (open_audio_stream_outcome c3 session (path request) s2 r2 g2 Hinv Hr2 ltac:(lia) Hg2) as Ho.
    assert (∀ o s3, open_audio_stream c3 session (path request) s2 = (o, s3) → returns o → inv s3) as Hk
      by (intros o s3; apply keeps_step; [apply open_audio_stream_keeps|done]).
    destruct (open_audio_stream c3 session (path request) s2) as [o s3]. specialize (Hk o s3 eq_refl).
    case_bool_decide as Hfull.
    + destruct Ho as [-> ->]. left. exists RateLimited, s2. split; [done|]. split; [|done]. exists r, g. split; [done|].
      split; [done|]. right. split; [done|]. right. by rewrite <-Hau.
    + destruct Ho as (r3 & g3 & kept & -> & Hr3 & Hg3 & Hre & Hst & _). right. eexists _, s3. split; [by apply Hk|]. split; [|done].
      exists r, g, r3, g3. split_and!; try done; [by rewrite Hre|]. intros _. eexists. by rewrite Hst, last_snoc.
Qed.

Lemma admit_session_cases settings c1 c2 c3 request s : inv s →
  match session_cookie settings (cookies request) ≫= live_guest c1 s with
  | None => ∃ s', inv s' ∧ admit_session settings c1 c2 c3 request s =
      (Ok (inl (error_response (api_error 401 (st "unauthorized")
             (st "join the Room through its Invite Link first")))), s')
  | Some session =>
      (∃ e s', inv s' ∧ refusal c2 c3 request session s e ∧ admit_session settings c1 c2 c3 request s =
         (Ok (inl (error_response (room_api_error e))), s')) ∨
      (∃ audio s', inv s' ∧ admission c2 request session s s' ∧ admit_session settings c1 c2 c3 request s =
         (Ok (inr (session, audio)), s'))
  end.
Proof.
  intros Hinv. unfold admit_session, guest_session.
  destruct (session_cookie settings (cookies request)) as [token|]; cbn [mbind option_bind].
  2: { exists s. done. }
  destruct (live_guest c1 s token) as [session|] eqn:Hlive.
  2: { destruct (authenticate_live c1 token s Hinv) as (s1 & Ha & Hinv1). exists s1. split; [done|].
       unfold mbind, M_bind. by rewrite Ha, Hlive. }
  pose proof Hlive as Hl. unfold live_guest in Hl. destruct (slot s) as [r|] eqn:Hr; [|done]. simpl in Hl.
  destruct (Z.leb_spec (closes_at r) (at_lock c1)); [done|].
  destruct (guests r !! session_key token) as [g|] eqn:Hg; [|done]. simpl in Hl. injection Hl as <-.
  set (session := mkSession (session_key token) (revoked g)).
  assert (authenticate c1 token s = (Ok (Some session), s)) as Ha.
  { rewrite (authenticate_open c1 s r) by done. by rewrite Hg. }
  rewrite (bind_step _ _ _ _ _ Ha). cbn iota.
  destruct (read_step c2 c3 request session s r g Hinv Hr Hg)
    as [(e & s2 & Hinv2 & Href & Hs2)|(s2 & r2 & g2 & Hinv2 & Hr2 & Hg2 & Hcl & Hau & Hch & Hs2)];
    rewrite (bind_step _ _ _ _ _ Hs2); cbn iota; [left; by exists e, s2|].
  destruct (audio_step c2 c3 request session s s2 r g r2 g2 Hinv2 Hr Hg Hr2 Hg2 Hcl Hau Hch)
    as [(e & s3 & Hinv3 & Href & Hs3)|(audio & s3 & Hinv3 & Hadm & Hs3)];
    rewrite (bind_step _ _ _ _ _ Hs3); [left; by exists e, s3|right; by exists audio, s3].
Qed.

(** C11: the Guest Listener denies by default. A request that is neither for
    anyone (a public route, or a page outside /api and /docs) nor for Guests (a
    session route) gets 404 and touches nothing; a public one reaches the router
    without a session. One for Guests reaches it only when the cookie stands for
    a Guest of the open Room, with exactly that Guest's session, charged to the
    allowance the route draws on and, for audio, with a stream of its own; it is
    refused only when the Room reached its hour, that allowance is spent or four
    other streams run. On a library route the router's JSON comes back with
    every file path emptied and nothing else changed; a Track stream comes back
    tied to the session's revocation. Outside Listen Together every route there
    is only reads. *)
Theorem gate_denies_by_default settings c1 c2 c3 request s : inv s →
  (∀ m r, (m, r) ∈ PUBLIC_ROUTES ++ SESSION_ROUTES → read_only m r) ∧
  (for_anyone request → ∀ next, guest_gate settings c1 c2 c3 next request s = next request None s) ∧
  (¬ for_anyone request → ¬ for_guests request → ∀ next,
     guest_gate settings c1 c2 c3 next request s = (Ok (error_response (not_found (st "not found"))), s)) ∧
  (for_guests request → ¬ for_anyone request →
      match session_cookie settings (cookies request) ≫= live_guest c1 s with
      | None => ∃ s', inv s' ∧ ∀ next, guest_gate settings c1 c2 c3 next request s =
          (Ok (error_response (api_error 401 (st "unauthorized")
                 (st "join the Room through its Invite Link first"))), s')
      | Some session =>
          (∃ e s', inv s' ∧ refusal c2 c3 request session s e ∧ ∀ next, guest_gate settings c1 c2 c3 next request s =
             (Ok (error_response (room_api_error e)), s')) ∨
          (∃ s1 answer, inv s1 ∧ admission c2 request session s s1 ∧
             (∀ next, guest_gate settings c1 c2 c3 next request s =
                answered (next request (Some session) s1) answer) ∧
             ∀ r, route request = Some r →
               (r = TRACK_STREAM → ∀ a, SessionRevoked (revoked_rx session) ∈ stops (answer a)) ∧
               (r ≠ TRACK_STREAM → starts_with (st "/api/v1/library/") r = true →
                  ∀ a d v, content_type a = Some (bs "application/json") →
                    response_body a = Some d → from_slice d = Some v →
                    ∃ v', response_body (answer a) = Some (to_vec v') ∧ paths_hidden v v'))
      end).
Proof.
  intros Hinv. split; [exact routes_read_only|]. pose proof (classify_access request) as Hcl.
  unfold guest_gate. destruct (classify _ _ _).
  - split; [done|]. split; [by intros ?|]. by intros _ ?.
  - destruct Hcl as [Hg Hn]. split; [by intros ?|]. split; [by intros _ ?|]. intros _ _.
    pose proof (admit_session_cases settings c1 c2 c3 request s Hinv) as Hadmit.
    destruct (session_cookie _ _ ≫= _) as [session|].
    + destruct Hadmit as [(e & s' & Hs' & Href & Ha)|(audio & s' & Hs' & Hadm & Ha)].
      * left. exists e, s'. split; [done|]. split; [done|]. intros next. unfold mbind, M_bind. by rewrite Ha.
      * right. exists s', (finish_session request session audio). split; [done|]. split; [done|]. split.
        { intros next. unfold answered, mbind, M_bind. rewrite Ha.
          by destruct (next request (Some session) s') as [[] s4]. }
        intros r Hr. unfold finish_session. rewrite Hr. split.
        { intros -> a. rewrite bool_decide_eq_true_2 by done.
          destruct audio as [slot|]; simpl; [right; by left|by left]. }
        intros Hne Hlib a d v Hct Hb Hd. rewrite bool_decide_eq_false_2, Hlib by done.
        unfold without_file_paths. rewrite Hct, Hb, Hd. simpl.
        eexists. split; [done|]. apply blank_file_paths_hidden.
    + destruct Hadmit as (s' & Hs' & Ha). exists s'. split; [done|]. intros next.
      unfold mbind, M_bind. by rewrite Ha.
  - destruct Hcl. split; [by intros ?|]. split; [done|]. by intros ?.
Qed.

(** ** The cookie a join sets *)

Context `{Wire}.

(** Text a cookie carries unchanged: no separator, no blanks. *)
Definition cookie_text (s : str) : Prop := ∀ c, c ∈ s → c ≠ 59 ∧ is_whitespace c = false.

Lemma session_cookie_single settings token : cookie_text token →
  session_cookie settings [Some (cookie_name settings ++ st "=" ++ token)] = Some token.
Proof.
  intros Ht. set (name := cookie_name settings).
  assert (Hname : cookie_text name ∧ 61 ∉ name).
  { assert (forallb (λ c, negb (c =? 59) && negb (is_whitespace c) && negb (c =? 61)) name = true)
      as Hb by (unfold name, cookie_name; by destruct (is_secure settings)).
    rewrite forallb_forall in Hb. setoid_rewrite <-list_elem_of_In in Hb.
    split; [intros c Hc|intros Hc]; specialize (Hb _ Hc); bool_to_prop; done. }
  destruct Hname as [Hn Heq].
  assert (Hall : cookie_text (name ++ st "=" ++ token)).
  { intros c. rewrite !elem_of_app. intros [?|[Hc|?]]; [by apply Hn| |by apply Ht].
    apply list_elem_of_singleton in Hc as ->. done. }
  unfold session_cookie. fold name. cbn [omap list_omap mbind list_bind]. rewrite app_nil_r.
  rewrite split_no by (intros c Hc; apply Z.eqb_neq; by destruct (Hall c Hc)).
  cbn [omap list_omap]. rewrite trim_id by (intros c Hc; apply (Hall c Hc)).
  rewrite (proj2 (split_once_Some 61 _ name token)) by done.
  rewrite filter_cons_True by done. done.
Qed.

Lemma join_room_session c token current uuids r s j s' :
  slot s = Some r → join_room c token current uuids r s = (Ok j, s') →
  ∃ r' g, slot s' = Some r' ∧ closes_at r' = closes_at r ∧
    guests r' !! session_key (session_token j) = Some g.
Proof.
  intros Hr. unfold join_room. destruct (negb _); [done|].
  destruct (live_session r current) as [t|] eqn:Hl.
  - intros [= <- <-]. unfold live_session in Hl. destruct current as [t'|]; [|done].
    case_bool_decide as Hg; [|done]. injection Hl as ->. destruct Hg as [g Hg]. by exists r, g.
  - destruct (_ <=? _); [done|]. unfold set_room, publish. run_m.
    destruct (empty_err _) as [st'|e| |]; [|done..]. intros [= <- <-]. simpl.
    eexists _, _. split; [done|]. split; [done|]. simpl. by rewrite lookup_insert_eq.
Qed.

(** A refusal with a client error that changed nothing but the join budget. *)
Ltac refused := first [done | simpl; split; [reflexivity | simpl; lia]].

(** a join's cookie is the session. When the join handler answers, the
    Set-Cookie it sends, returned by the browser as a Cookie header, is read back
    as the session's token and authenticates to a session of the still open Room;
    a join refused for whatever reason answers a client error and changes nothing
    but the join budget. *)
Theorem join_handler_sets_session settings c1 c2 uuids cookies body s r :
  inv s → slot s = Some r → at_lock c2 < closes_at r → revision (state r) < i64_max →
  (∀ value, header_value value = Some value) → (∀ d, cookie_text (base64_url d)) →
  (∀ t, session_cookie settings cookies = Some t → cookie_text t) →
  match join_handler settings c1 c2 uuids cookies body s with
  | (Ok a, s') => ∃ token attributes,
      set_cookie a = Some (cookie_name settings ++ st "=" ++ token ++ attributes) ∧
      session_cookie settings [Some (cookie_name settings ++ st "=" ++ token)] = Some token ∧
      ∀ c, at_lock c < closes_at r →
        is_Some (live_guest c s' token)
  | (Err e, s') => s' = with_joins (joins s') s ∧ 400 <= status e < 500
  | _ => False
  end.
Proof.
  intros Hinv Hr Hc Hmax Hhv Hb64 Hcur. unfold join_handler.
  assert (∃ ok b, take_join c1 s = (if ok : bool then Ok tt else Err RateLimited, with_joins b s))
    as (ok & b & Hj1).
  { unfold take_join, mbind, M_bind, get.
    destruct (bucket_take (joins s) (at_action c1)) as [[] b]; [by exists true, b|by exists false, b]. }
  unfold mbind at 1, M_bind at 1, api at 1. rewrite Hj1. clear Hj1.
  destruct ok; [|refused]. cbn [map_err]. unfold mbind, M_bind, lift.
  destruct (decode_body parse_join body MAX_JOIN_BYTES) as [token|e| |] eqn:Hd.
  2,3,4: unfold decode_body in Hd; destruct (to_bytes _ _); cbn in Hd;
    [destruct (parse_join _); simplify_eq/=; refused|simplify_eq/=; refused].
  destruct (_ || _); [refused|].
  set (s1 := with_joins b s).
  assert (Hr1 : slot s1 = Some r) by done.
  assert (Hinv1 : inv s1) by (by apply with_joins_inv).
  unfold api, join, map_not_found. rewrite (with_room_open c2 _ s1 r Hr1 Hc).
  pose proof (join_room_keeps c2 token (session_cookie settings cookies) uuids r s1
    (conj Hinv1 Hr1)) as Hk.
  destruct (join_room c2 token (session_cookie settings cookies) uuids r s1) as [[j|e| |] s2] eqn:Hj;
    simpl; try done.
  - destruct (join_room_session _ _ _ _ _ _ _ _ Hr1 Hj) as (r' & g & Hr' & Hcl & Hg).
    unfold set_session_cookie. rewrite Hhv. simpl.
    exists (session_token j), (st "; Path=/; HttpOnly; SameSite=Strict" ++
      (if is_secure settings then st "; Secure" else []) ++ []).
    split; [done|]. split.
    + apply session_cookie_single. revert Hj. unfold join_room. destruct (negb _); [done|].
      destruct (live_session r (session_cookie settings cookies)) as [t|] eqn:Hl.
      * intros [= <- _]. simpl. apply Hcur. unfold live_session in Hl.
        destruct (session_cookie settings cookies); [|done]. case_bool_decide; congruence.
      * destruct (_ <=? _); [done|]. unfold set_room, publish. run_m.
        destruct (empty_err _) as [st'|e| |]; [|done..]. intros [= <- _]. apply Hb64.
    + intros c Hcc. unfold live_guest. rewrite Hr'. simpl.
      rewrite (proj2 (Z.leb_gt _ _)) by congruence. rewrite Hg. eauto.
  - revert Hj. unfold join_room. destruct (negb _); [intros [= <- <-]; refused|].
    destruct (live_session _ _); [done|]. destruct (_ <=? _); [intros [= <- <-]; refused|].
    unfold set_room, publish. run_m. by destruct (set_guest_count _ _) as [st'|[]| |].
  - revert Hj Hk. unfold join_room. destruct (negb _); [done|].
    destruct (live_session _ _); [done|]. destruct (_ <=? _); [done|]. unfold set_room, publish. run_m.
    destruct (set_guest_count _ _) as [st'|[]| |]; simpl; try done. intros [= <-]. unfold worn, top. simpl. rewrite Hr. simpl. lia.
Qed.

(** ** Event streams *)

Lemma next_item guest invite p :
  match next guest invite p with
  | Item chunk true => chunk = closed_frame
  | Item chunk false => chunk = keep_alive_frame ∨ ∃ s, chunk = state_frame s invite
  | _ => True
  end.
Proof.
  unfold next. destruct (guest && session_over p); [by destruct (feed_now p)|].
  destruct (feed_changed p); [|destruct (ticked p); auto].
  destruct (feed_gone p); [done|]. destruct (feed_now p); simpl; eauto.
Qed.

Lemma later_frames_shape guest invite polls : ∃ frames closing,
  later_frames guest invite polls = frames ++ closing ∧
  Forall (λ c, c = keep_alive_frame ∨ ∃ s, c = state_frame s invite) frames ∧
  (closing = [] ∨ closing = [closed_frame]).
Proof.
  induction polls as [|p polls (frames & closing & IH & Hf & Hcl)]; simpl.
  { exists [], []. auto. }
  pose proof (next_item guest invite p) as Hn.
  destruct (next guest invite p) as [| |chunk []]; [by exists frames, closing|exists [], []; auto| |].
  - subst. exists [], [closed_frame]. auto.
  - exists (chunk :: frames), closing. rewrite IH. auto.
Qed.

Lemma later_frames_revoked invite pre p post : session_over p = true → ∃ tail,
  later_frames true invite (pre ++ p :: post) = later_frames true invite pre ++ tail ∧
  (tail = [] ∨ tail = [closed_frame]).
Proof.
  intros Hp. induction pre as [|q pre (tail & IH & Ht)]; simpl.
  { unfold next. rewrite Hp. simpl. destruct (feed_now p); eexists; split; eauto. }
  destruct (next true invite q) as [| |chunk []]; [by exists tail|exists []; auto|exists []; auto|].
  exists tail. by rewrite IH.
Qed.

(** what an event stream carries. Every frame but the last is a snapshot
    with the stream's own invite (none for a Guest) or a keep-alive comment;
    [room-closed] comes at most once, last, and ends the stream; and once a
    Guest's session is over, the stream adds nothing more than [room-closed]. *)
Theorem event_stream_ends current invite guest polls :
  (∃ frames closing, event_stream current invite guest polls = frames ++ closing ∧
     Forall (λ c, c = keep_alive_frame ∨ ∃ s, c = state_frame s invite) frames ∧
     (closing = [] ∨ closing = [closed_frame])) ∧
  (current = Closed → event_stream current invite guest polls = [closed_frame]) ∧
  (∀ pre p post, polls = pre ++ p :: post → guest = true → session_over p = true →
     ∃ tail, event_stream current invite guest polls = event_stream current invite guest pre ++ tail ∧
             (tail = [] ∨ tail = [closed_frame])).
Proof.
  unfold event_stream. split_and!.
  - destruct current as [s|]; simpl; [|exists [], [closed_frame]; auto].
    destruct (later_frames_shape guest invite polls) as (frames & closing & -> & Hf & Hc).
    exists (state_frame s invite :: frames), closing. split_and!; [done| |done].
    constructor; eauto.
  - by intros ->.
  - intros pre p post -> -> Hp. destruct current as [s|]; simpl; [|exists []; auto].
    destruct (later_frames_revoked invite pre p post Hp) as (tail & -> & Ht). by exists tail.
Qed.
End Theorems.

(** ** Witnesses *)

Definition example_codec : Codec := {|
  error_response := λ e, mkResponse (status e) None None None (Some (encode (message (body e)))) [] None;
  from_slice := λ d, Some (JObject [(st "id", JString (st "1"));
                                    (FILE_PATH, JString (st "/music/a.flac"))]);
  to_vec := λ v, match at_path [Field_ 1 FILE_PATH] v with Some (JString s) => encode s | _ => [] end
|}.

(** Two letters for each byte, like a base16 alphabet without digits. *)
Definition letter_crypto : Crypto := {|
  sha256 := λ l, l; hmac_sha256 := λ k m, k ++ m; hex_encode := λ l, b2z <$> l;
  base64_url := λ l, l ≫= λ b, [97 + b2z b / 16; 97 + b2z b mod 16]
|}.

Lemma letter_cookie_text d : cookie_text (@base64_url letter_crypto d).
Proof.
  intros c (b & Hc & _)%list_elem_of_bind. pose proof (b2z_range b) as Hb.
  assert (97 <= c <= 112) as Hr.
  { repeat (apply elem_of_cons in Hc as [->|Hc]; [Z.div_mod_to_equations; lia|]).
    by apply not_elem_of_nil in Hc. }
  split; [lia|]. unfold is_whitespace, in_range. settle. done.
Qed.

Definition example_wire : Wire := {|
  RawBody := str; to_bytes := λ t _, Some (encode t); parse_join := from_utf8;
  parse_command := λ _, None; room_json := λ _, []; header_value := Some
|}.

Definition example_request : Request :=
  mkRequest (st "GET") (Some (st "/api/v1/library/tracks/{track_id}"))
    (st "/api/v1/library/tracks/1") [Some (st "harmony_guest=g1")].

Definition example_owner_request : Request :=
  mkRequest (st "DELETE") (Some (st "/api/v1/listen-together/room"))
    (st "/api/v1/listen-together/room") [].

Definition example_gate (next : Request → option GuestSession → Service Response) (r : Request) :=
  @guest_gate example_crypto example_codec None (example_clock 3) (example_clock 3)
    (example_clock 3) next r example_joined.

(** A Guest of the open Room reads a Track; the Owner's routes stay closed. *)
Lemma gate_denies_by_default_witness :
  (∀ next, example_gate next example_owner_request =
     (Ok (@error_response example_codec (not_found (st "not found"))), example_joined)) ∧
  ∃ s1 answer, ∀ next, example_gate next example_request =
    answered (next example_request (Some (mkSession (st "g1") 1)) s1) answer.
Proof.
  pose proof (λ r, @gate_denies_by_default example_crypto example_codec None (example_clock 3)
    (example_clock 3) (example_clock 3) r example_joined example_inv) as H.
  split.
  - destruct (H example_owner_request) as (_ & _ & Hdeny & _). apply Hdeny.
    + intros Ha. change ((method example_owner_request, st "/api/v1/listen-together/room") ∈ PUBLIC_ROUTES) in Ha.
      vm_compute in Ha. by repeat (apply elem_of_cons in Ha as [Ha|Ha]; [discriminate|]); apply not_elem_of_nil in Ha.
    + intros (r & [= <-] & Ha). vm_compute in Ha.
      by repeat (apply elem_of_cons in Ha as [Ha|Ha]; [discriminate|]); apply not_elem_of_nil in Ha.
  - destruct (H example_request) as (_ & _ & _ & Hg).
    assert (for_guests example_request) as E1.
    { exists (st "/api/v1/library/tracks/{track_id}"). split; [reflexivity|].
      by apply (bool_decide_eq_true _); vm_compute. }
    assert (¬ for_anyone example_request) as E2.
    { intros Ha. change ((method example_request, st "/api/v1/library/tracks/{track_id}") ∈ PUBLIC_ROUTES) in Ha.
      by apply (bool_decide_eq_true _) in Ha; vm_compute in Ha. }
    specialize (Hg E1 E2).
    assert (session_cookie None (cookies example_request) ≫=
              @live_guest example_crypto (example_clock 3) example_joined =
            Some (mkSession (st "g1") 1)) as E' by (vm_compute; reflexivity).
    rewrite E' in Hg.
    destruct Hg as [(e & s' & _ & _ & Hg)|(s1 & answer & _ & _ & Hg & _)]; [|by exists s1, answer].
    specialize (Hg (λ _ _ s, (Ok (mkResponse 7 None None None None [] None), s))).
    assert (∀ e, response_status (@error_response example_codec (room_api_error e)) ≠ 7) as Hne
      by (intros []; discriminate).
    destruct (Hne e). apply (f_equal (λ x, match x.1 with Ok a => response_status a | _ => 7 end)) in Hg.
    cbn [fst] in Hg. rewrite <-Hg. vm_compute. reflexivity.
Defined.

Definition letter_open : ListenTogether :=
  (@run_call letter_crypto (example_clock 1) (CallOpen (bs "t") (bs "key")) example_start).2.
Definition letter_room : Room := default dummy_room (slot letter_open).

Lemma join_handler_sets_session_witness :
  ∃ a s' token,
    @join_handler letter_crypto example_wire None (example_clock 2) (example_clock 2) (bs "u") []
      (st "he") letter_open = (Ok a, s') ∧
    is_Some (@live_guest letter_crypto (example_clock 3) s' token).
Proof.
  assert (Hinv : inv letter_open).
  { apply (@reachable_inv letter_crypto 1). apply reach_call; [|done|by vm_compute]. apply reach_start. lia. }
  pose proof (@join_handler_sets_session letter_crypto example_wire None (example_clock 2)
    (example_clock 2) (bs "u") [] (st "he") letter_open letter_room Hinv
    ltac:(vm_compute; reflexivity) ltac:(vm_compute; reflexivity) ltac:(vm_compute; reflexivity) (λ v, eq_refl)
    letter_cookie_text ltac:(vm_compute; discriminate)) as H.
  set (outcome_ := join_handler _ _ _ _ _ _ _) in *.
  assert (match fst outcome_ with Ok _ => true | _ => false end = true) as Hok
    by (vm_compute; reflexivity).
  clearbody outcome_. destruct outcome_ as [[a|e| |] s']; try discriminate Hok.
  destruct H as (token & attributes & _ & _ & H).
  exists a, s', token. split; [reflexivity|]. apply H. vm_compute. reflexivity.
Defined.

Lemma event_stream_ends_witness :
  let poll over := mkPoll over true false (State (new 2 [] 0)) false in
  ∃ tail, @event_stream example_wire (State (new 2 [] 0)) None true [poll false; poll true; poll false] =
    @event_stream example_wire (State (new 2 [] 0)) None true [poll false] ++ tail ∧
    (tail = [] ∨ tail = [closed_frame]).
Proof.
  intros poll. apply (@event_stream_ends example_wire (State (new 2 [] 0)) None true
    [poll false; poll true; poll false]) with (p := poll true) (post := [poll false]); reflexivity.
Defined.
