(* ===== verification/ServeFile.v ===== *)
(** Serving a Track's file with preconditions and byte ranges
    (playback/serve_file.rs). Times are [SystemTime]s in nanoseconds since the
    Unix epoch; the crates that print and read HTTP dates, guess MIME types,
    check header values and print hexadecimal are parameters. *)

From stdpp Require Import gmap.
From S2P Require Import Prelude Text.

Class HttpLibs := {
  parse_http_date : str → option Z;
  fmt_http_date : Z → str;
  mime_from_ext : str → option str;
  header_valid : str → bool;
  hex : list byte → str
}.

Definition MAX_RANGES : Z := 200.

Definition is_blank (c : Z) : bool := (c =? 32) || (c =? 9).
Definition trim_blanks (s : str) : str := trim_matches is_blank s.

(** ** Content types *)

(** [extension] is what [Path::extension] and [OsStr::to_str] give. *)
Definition content_type `{HttpLibs} (extension : option str) : str :=
  let extension := ascii_lower <$> default [] extension in
  if bool_decide (extension = st "mp3") then st "audio/mpeg"
  else if bool_decide (extension = st "flac") then st "audio/flac"
  else if bool_decide (extension = st "ogg") || bool_decide (extension = st "opus")
  then st "audio/ogg"
  else if bool_decide (extension = st "m4a") then st "audio/mp4"
  else if bool_decide (extension = st "wav") then st "audio/wav"
  else default (st "application/octet-stream") (mime_from_ext extension).

(** ** Ranges *)

Record Range := mkRange { start : Z; length_ : Z }.

Definition content_range (r : Range) (size : Z) : str :=
  st "bytes " ++ show (start r) ++ st "-" ++ show (start r + length_ r - 1) ++ st "/" ++ show size.

Inductive RangeError := Invalid | NoOverlap.

(** One spec of the header: a range, [None] when it selects nothing of the
    file, and [Ok None] is told apart from an empty spec by the caller. *)
Definition parse_spec (spec : str) (size : Z) : outcome RangeError (option Range) :=
  '(start, end_) ← ok_or (split_once 45 spec) Invalid;
  let start := trim_blanks start in
  let end_ := trim_blanks end_ in
  if bool_decide (start = []) then
    if bool_decide (end_ = []) || starts_with (st "-") end_ then Err Invalid else
    suffix ← ok_or (parse_i64 end_) Invalid;
    if suffix <? 0 then Err Invalid else
    let suffix := Z.min suffix size in
    if suffix =? 0 then Ok None else Ok (Some (mkRange (size - suffix) suffix))
  else
    first ← ok_or (parse_i64 start) Invalid;
    if first <? 0 then Err Invalid else
    if size <=? first then Ok None else
    length ←
      (if bool_decide (end_ = []) then Ok (size - first)
       else
         last ← ok_or (parse_i64 end_) Invalid;
         if last <? first then Err Invalid
         else Ok (Z.min last (size - 1) - first + 1));
    Ok (Some (mkRange first length)).

(** The loop of [parse_range]: the ranges, and whether a spec selected nothing. *)
Fixpoint parse_specs (specs : list str) (size : Z) : outcome RangeError (list Range * bool) :=
  match specs with
  | [] => Ok ([], false)
  | spec :: specs =>
      let spec := trim_blanks spec in
      if bool_decide (spec = []) then parse_specs specs size
      else
        r ← parse_spec spec size;
        '(ranges, no_overlap) ← parse_specs specs size;
        match r with
        | Some r => Ok (r :: ranges, no_overlap)
        | None => Ok (ranges, true)
        end
  end.

Definition parse_range (header : str) (size : Z) : outcome RangeError (list Range) :=
  if bool_decide (header = []) then Ok []
  else match strip_prefix (st "bytes=") header with
  | None => Err Invalid
  | Some specs =>
      let specs := split (Z.eqb 44) specs in
      if MAX_RANGES <? zlen specs then Ok []
      else
        '(ranges, no_overlap) ← parse_specs specs size;
        if (no_overlap : bool) && bool_decide (ranges = []) then Err NoOverlap else Ok ranges
  end.

(** ** Preconditions *)

Inductive Condition := CNone | CTrue | CFalse.

#[export] Instance condition_eq_dec : EqDecision Condition.
Proof. solve_decision. Defined.

(** A request's headers in order, [None] for a value [to_str] refuses. *)
Abbreviation Headers := (list (str * option str)).

Definition header_text (headers : Headers) (name : str) : str :=
  default [] (head (filter (λ h, h.1 = name) headers) ≫= snd).

(** An entity tag's characters up to its closing quote, and what follows. *)
Fixpoint scan_tag (s : str) : option (str * str) :=
  match s with
  | [] => None
  | c :: s' =>
      if c =? 34 then Some ([], s')
      else if (c =? 33) || in_range 35 126 c || (128 <=? c) then
        match scan_tag s' with
        | Some (tag, rest) => Some (c :: tag, rest)
        | None => None
        end
      else None
  end.

Definition scan_etag (text : str) : option (str * str) :=
  let text := trim_blanks text in
  let start := if starts_with (st "W/") text then 2 else 0 in
  if str_len text <? start + 2 then None else
  match drop (Z.to_nat start) text with
  | 34 :: s =>
      match scan_tag s with
      | Some (tag, rest) => Some (take (Z.to_nat start) text ++ 34 :: tag ++ [34], rest)
      | None => None
      end
  | _ => None
  end.

(** The loop of [check_if_match] and [check_if_none_match]: [on_star] when it
    meets a star, [on_end] when the list is used up or broken. *)
Fixpoint tag_loop (fuel : nat) (on_star on_end : Condition) (value : str)
    : outcome Empty_set Condition :=
  match fuel with
  | O => OutOfFuel
  | S fuel =>
      let value := trim_blanks value in
      if bool_decide (value = []) then Ok on_end
      else match strip_prefix (st ",") value with
      | Some rest => tag_loop fuel on_star on_end rest
      | None =>
          if starts_with (st "*") value then Ok on_star
          else match scan_etag value with
               | Some (_, rest) => tag_loop fuel on_star on_end rest
               | None => Ok on_end
               end
      end
  end.

(** Every step drops a character, so the length and one more is enough fuel. *)
Definition check_tags (on_star on_end : Condition) (value : str) : outcome Empty_set Condition :=
  if bool_decide (value = []) then Ok CNone
  else tag_loop (S (length value)) on_star on_end value.

Definition check_if_match (headers : Headers) : outcome Empty_set Condition :=
  check_tags CTrue CFalse (header_text headers (st "if-match")).

Definition check_if_none_match (headers : Headers) : outcome Empty_set Condition :=
  check_tags CFalse CTrue (header_text headers (st "if-none-match")).

Definition seconds (time : Z) : Z := if time <? 0 then 0 else time / 1000000000.

Definition is_zero_time (modified : option Z) : bool :=
  match modified with None => true | Some m => m =? 0 end.

Definition GET : str := st "GET".
Definition HEAD : str := st "HEAD".
Definition reads (method : str) : bool := bool_decide (method = GET) || bool_decide (method = HEAD).

Section Serve.
Context `{HttpLibs}.

Definition parse_time (text : str) : option Z := seconds <$> parse_http_date text.

Definition check_if_unmodified_since (headers : Headers) (modified : option Z) : Condition :=
  let value := header_text headers (st "if-unmodified-since") in
  if bool_decide (value = []) || is_zero_time modified then CNone
  else match parse_time value, modified with
  | Some since, Some modified => if seconds modified <=? since then CTrue else CFalse
  | _, _ => CNone
  end.

Definition check_if_modified_since (method : str) (headers : Headers) (modified : option Z)
    : Condition :=
  if negb (reads method) then CNone else
  let value := header_text headers (st "if-modified-since") in
  if bool_decide (value = []) || is_zero_time modified then CNone
  else match parse_time value, modified with
  | Some since, Some modified => if seconds modified <=? since then CFalse else CTrue
  | _, _ => CNone
  end.

Definition check_if_range (method : str) (headers : Headers) (modified : option Z) : Condition :=
  if negb (reads method) then CNone else
  let value := header_text headers (st "if-range") in
  if bool_decide (value = []) then CNone
  else if bool_decide (is_Some (scan_etag value)) then CFalse
  else match modified with
  | None => CFalse
  | Some modified =>
      match parse_time value with
      | Some time => if time =? seconds modified then CTrue else CFalse
      | None => CFalse
      end
  end.

(** ** Responses *)

Inductive IoError := IoNotFound | IoOther.
Inductive ServeError := ServeNotFound | ServeIo (e : IoError).

(** The body's frames, in order: data, or the failure to read it. *)
Record Response := mkResponse {
  status : Z;
  headers : gmap str str;
  body : list (outcome IoError (list byte))
}.

Definition CONTENT_TYPE : str := st "content-type".
Definition CONTENT_LENGTH : str := st "content-length".
Definition CONTENT_RANGE : str := st "content-range".
Definition CONTENT_ENCODING : str := st "content-encoding".
Definition LAST_MODIFIED : str := st "last-modified".
Definition ACCEPT_RANGES : str := st "accept-ranges".

Definition plain_error (s : Z) (message : str) (hs : gmap str str) : Response :=
  let hs := delete CONTENT_LENGTH (delete LAST_MODIFIED (delete (st "etag")
              (delete CONTENT_ENCODING (delete (st "cache-control") hs)))) in
  let hs := <[st "x-content-type-options" := st "nosniff"]>
              (<[CONTENT_TYPE := st "text/plain; charset=utf-8"]> hs) in
  mkResponse s hs [Ok (encode (message ++ [10]))].

Definition not_modified (hs : gmap str str) : Response :=
  mkResponse 304 (delete CONTENT_ENCODING (delete CONTENT_LENGTH (delete CONTENT_TYPE hs))) [].

(** What the file system answers while one request is served: the metadata, the
    opened file's content, the seek, and the content each part of a multipart
    answer finds when it opens the file again. *)
Record FileSystem := mkFileSystem {
  metadata : outcome IoError (Z * option Z);
  opened : outcome IoError (list byte);
  seeked : outcome IoError unit;
  reopened : nat → outcome IoError (list byte)
}.

Definition missing (e : IoError) : ServeError :=
  match e with IoNotFound => ServeNotFound | e => ServeIo e end.

Definition random_boundary (uuids : list byte) : str := hex (take 30 uuids).

Definition CRLF : str := [13; 10].

Definition part_header (boundary ctype : str) (size : Z) (index : nat) (r : Range) : str :=
  (if bool_decide (index = 0%nat) then [] else CRLF) ++ st "--" ++ boundary ++ CRLF ++
  st "Content-Range: " ++ content_range r size ++ CRLF ++
  st "Content-Type: " ++ ctype ++ CRLF ++ CRLF.

Definition closing (boundary : str) : str := CRLF ++ st "--" ++ boundary ++ st "--" ++ CRLF.

(** The frames of one part: its header, then the range or the failure to open
    the file again. *)
Definition part_frames (fs : FileSystem) (boundary ctype : str) (size : Z) (index : nat)
    (r : Range) : list (outcome IoError (list byte)) :=
  [Ok (encode (part_header boundary ctype size index r));
   (λ d, sub d (start r) (length_ r)) <$> reopened fs index].

Definition total (ns : list Z) : Z := foldr Z.add 0 ns.

(** A sum of [u64]s in a release build. *)
Definition sum_u64 (ns : list Z) : Z := total ns mod 2 ^ 64.

(** [serve], after the preconditions let the request through. *)
Definition serve_ranges (method : str) (fs : FileSystem) (uuids : list byte) (ctype : str)
    (size : Z) (hs : gmap str str) (data : list byte) (ranges : list Range)
    : outcome ServeError Response :=
  let is_head := bool_decide (method = HEAD) in
  let frames (l : list (outcome IoError (list byte))) := if is_head then [] else l in
  match ranges with
  | [] => Ok (mkResponse 200 (<[CONTENT_LENGTH := show size]> hs) (frames [Ok data]))
  | [range] =>
      _ ← map_err ServeIo (seeked fs);
      Ok (mkResponse 206
            (<[CONTENT_LENGTH := show (length_ range)]>
               (<[CONTENT_RANGE := content_range range size]> hs))
            (frames [Ok (sub data (start range) (length_ range))]))
  | ranges =>
      let boundary := random_boundary uuids in
      let length :=
        (sum_u64 (imap (λ i r, str_len (part_header boundary ctype size i r) + length_ r) ranges)
         + str_len (closing boundary)) mod 2 ^ 64 in
      let hs := <[CONTENT_LENGTH := show length]>
                  (<[CONTENT_TYPE := st "multipart/byteranges; boundary=" ++ boundary]> hs) in
      Ok (mkResponse 206 hs
            (frames (concat (imap (part_frames fs boundary ctype size) ranges)
                     ++ [Ok (encode (closing boundary))])))
  end.

(** What [parse_range]'s answer becomes: the ranges to send, or a 416. *)
Definition choose_ranges (range_header : str) (size : Z) (hs : gmap str str)
    : outcome Empty_set (Response + list Range) :=
  match parse_range range_header size with
  | Ok ranges =>
      Ok (inr (if size <? sum_u64 (length_ <$> ranges) then [] else ranges))
  | Err NoOverlap =>
      if size =? 0 then Ok (inr [])
      else Ok (inl (plain_error 416 (st "invalid range: failed to overlap")
                      (<[CONTENT_RANGE := st "bytes */" ++ show size]> hs)))
  | Err Invalid => Ok (inl (plain_error 416 (st "invalid range") hs))
  | Panic => Panic
  | OutOfFuel => OutOfFuel
  end.

Definition no_err {A} (o : outcome Empty_set A) : outcome ServeError A :=
  map_err (λ e : Empty_set, match e with end) o.

(** The precondition checks in their order: an early answer, or none. *)
Definition preconditions (method : str) (request : Headers) (modified : option Z)
    (hs : gmap str str) : outcome Empty_set (option Response) :=
  c ← check_if_match request;
  let c := if bool_decide (c = CNone) then check_if_unmodified_since request modified else c in
  if bool_decide (c = CFalse) then Ok (Some (mkResponse 412 hs [])) else
  c ← check_if_none_match request;
  match c with
  | CFalse => Ok (Some (if reads method then not_modified hs else mkResponse 412 hs []))
  | CNone =>
      if bool_decide (check_if_modified_since method request modified = CFalse)
      then Ok (Some (not_modified hs)) else Ok None
  | CTrue => Ok None
  end.

(** The headers every answer starts from. *)
Definition base_headers (ctype : str) (modified : option Z) : gmap str str :=
  let hs := <[CONTENT_TYPE := if header_valid ctype then ctype else st "application/octet-stream"]>
              {[ACCEPT_RANGES := st "bytes"]} in
  match modified with
  | Some m => if is_zero_time modified then hs
              else <[LAST_MODIFIED := fmt_http_date (seconds m * 1000000000)]> hs
  | None => hs
  end.

(** [serve]. *)
Definition serve (method : str) (request : Headers) (extension : option str) (fs : FileSystem)
    (uuids : list byte) : outcome ServeError Response :=
  '(size, modified) ← map_err missing (metadata fs);
  data ← map_err missing (opened fs);
  let ctype := content_type extension in
  let hs := base_headers ctype modified in
  early ← no_err (preconditions method request modified hs);
  match early with
  | Some response => Ok response
  | None =>
      let range_header := header_text request (st "range") in
      let range_header :=
        if negb (bool_decide (range_header = []))
           && bool_decide (check_if_range method request modified = CFalse)
        then [] else range_header in
      chosen ← no_err (choose_ranges range_header size hs);
      match chosen with
      | inl response => Ok response
      | inr ranges => serve_ranges method fs uuids ctype size hs data ranges
      end
  end.
End Serve.

(** ** What a Range header asks for *)

(** The specs of RFC 7233's byte ranges, as a client writes and means them. *)
Inductive ByteSpec := FromTo (first last : Z) | From (first : Z) | Suffix (n : Z).

Definition spec_ok (s : ByteSpec) : Prop :=
  match s with
  | FromTo first last => 0 <= first <= last ∧ last <= i64_max
  | From first => 0 <= first <= i64_max
  | Suffix n => 0 <= n <= i64_max
  end.

Definition render_spec (s : ByteSpec) : str :=
  match s with
  | FromTo first last => show first ++ 45 :: show last
  | From first => show first ++ [45]
  | Suffix n => 45 :: show n
  end.

(** The bytes a spec selects of a file of [size] bytes. *)
Definition resolve (size : Z) (s : ByteSpec) : option Range :=
  match s with
  | FromTo first last =>
      if size <=? first then None else Some (mkRange first (Z.min last (size - 1) - first + 1))
  | From first => if size <=? first then None else Some (mkRange first (size - first))
  | Suffix n =>
      if Z.min n size =? 0 then None else Some (mkRange (size - Z.min n size) (Z.min n size))
  end.

Definition inside (size : Z) (r : Range) : Prop :=
  0 <= start r ∧ 1 <= length_ r ∧ start r + length_ r <= size.

Lemma digit_not_blank c : is_digit c = true → is_blank c = false.
Proof. intros (Hr & _)%digit_class. unfold is_blank. settle. done. Qed.

Lemma trim_blanks_show n : 0 <= n → trim_blanks (show n) = show n.
Proof.
  intros Hn. apply trim_matches_id. intros c Hc. apply digit_not_blank.
  by eapply all_digits_elem, Hc; apply show_digits.
Qed.

Lemma show_no_dash n : 0 <= n → starts_with (st "-") (show n) = false.
Proof.
  intros Hn. apply bool_decide_eq_false_2. intros [rest H%strip_prefix_Some].
  apply (show_not_elem n 45 Hn); [done|]. rewrite H. by left.
Qed.

Lemma parse_render_spec s size : spec_ok s → 0 <= size →
  parse_spec (render_spec s) size = Ok (resolve size s).
Proof.
  intros Hs Hsize.
  assert (∀ n, 0 <= n <= i64_max → parse_i64 (show n) = Some n) as Hp.
  { intros n Hn. apply parse_show. unfold is_i64, i64_min. lia. }
  destruct s as [first last|first|n]; simpl in Hs; unfold parse_spec, render_spec, resolve.
  - rewrite (proj2 (split_once_Some 45 _ (show first) (show last))) by
      (split; [done|apply show_not_elem; [lia|done]]). cbn [ok_or mbind outcome_bind].
    rewrite !trim_blanks_show, bool_decide_eq_false_2 by (try apply show_not_nil; lia).
    rewrite (Hp first) by lia. cbn [ok_or mbind outcome_bind]. settle.
    destruct (Z.leb_spec size first); [done|].
    rewrite bool_decide_eq_false_2 by (apply show_not_nil; lia).
    rewrite (Hp last) by lia. cbn [ok_or mbind outcome_bind]. settle. done.
  - rewrite (proj2 (split_once_Some 45 _ (show first) [])) by
      (split; [done|apply show_not_elem; [lia|done]]). cbn [ok_or mbind outcome_bind].
    rewrite trim_blanks_show, bool_decide_eq_false_2 by (try apply show_not_nil; lia).
    rewrite (Hp first) by lia. cbn [ok_or mbind outcome_bind]. settle.
    destruct (Z.leb_spec size first); done.
  - rewrite (proj2 (split_once_Some 45 (45 :: show n) [] (show n))) by
      (split; [done|apply not_elem_of_nil]). cbn [ok_or mbind outcome_bind].
    change (trim_blanks []) with (@nil Z). rewrite bool_decide_eq_true_2 by done.
    rewrite trim_blanks_show, bool_decide_eq_false_2 by (try apply show_not_nil; lia).
    rewrite show_no_dash by lia. cbn [ok_or mbind outcome_bind]. rewrite (Hp n) by lia. cbn [ok_or mbind outcome_bind]. settle.
    destruct (Z.min n size =? 0); done.
Qed.

Lemma render_spec_chars s c : spec_ok s → c ∈ render_spec s → is_digit c = true ∨ c = 45.
Proof.
  intros Hs Hc. destruct s as [first last|first|n]; simpl in Hs; unfold render_spec in Hc;
    rewrite ?elem_of_app, ?elem_of_cons in Hc;
    repeat match goal with
    | H : _ ∨ _ |- _ => destruct H as [H|H]
    | H : c ∈ show _ |- _ => left; eapply all_digits_elem, H; apply show_digits; lia
    | H : c ∈ [] |- _ => by apply not_elem_of_nil in H
    end; auto.
Qed.

Lemma trim_render_spec s : spec_ok s →
  trim_blanks (render_spec s) = render_spec s ∧ render_spec s ≠ [] ∧
  ∀ c, c ∈ render_spec s → (44 =? c) = false.
Proof.
  intros Hs. split_and!.
  - apply trim_matches_id. intros c [Hd| ->]%render_spec_chars; [by apply digit_not_blank|done|done].
  - destruct s; simpl in *; [| |done]; by intros [? ?]%app_nil.
  - intros c [Hd| ->]%render_spec_chars; [|done|done]. apply digit_class in Hd. lia.
Qed.

Lemma parse_specs_render specs size : Forall spec_ok specs → 0 <= size →
  parse_specs (render_spec <$> specs) size =
    Ok (omap (resolve size) specs, negb (forallb (λ s, bool_decide (is_Some (resolve size s))) specs)).
Proof.
  intros Hs Hsize. induction Hs as [|s specs Hs _ IH]; [done|].
  cbn [fmap list_fmap parse_specs omap list_omap forallb].
  destruct (trim_render_spec s Hs) as (-> & Hne & _).
  rewrite bool_decide_eq_false_2 by done. rewrite parse_render_spec by done.
  cbn [mbind outcome_bind]. setoid_rewrite IH. cbn [mbind outcome_bind].
  by destruct (resolve size s).
Qed.

Lemma resolve_inside s size r : spec_ok s → 0 <= size → resolve size s = Some r → inside size r.
Proof.
  intros Hs Hsize. unfold inside. destruct s; simpl in *; case_match; intros [= <-]; simpl;
    bool_to_prop; lia.
Qed.

(** ranges mean what RFC 7233 says. For every list of byte-range specs a
    client can write (numbers that fit 63 bits, a first byte not past the last),
    the header's text parses to the bytes each spec selects of the file, clipped
    to its end, in their order; specs that select nothing are dropped, a header
    whose specs all select nothing is the error the 416 answer needs, and a
    header of more than 200 specs is ignored. *)
Theorem parse_range_specs specs size :
  Forall spec_ok specs → specs ≠ [] → 0 <= size →
  parse_range (st "bytes=" ++ join [44] (render_spec <$> specs)) size =
    if MAX_RANGES <? zlen specs then Ok []
    else match omap (resolve size) specs with
         | [] => Err NoOverlap
         | ranges => Ok ranges
         end.
Proof.
  intros Hs Hne Hsize. unfold parse_range.
  rewrite bool_decide_eq_false_2 by done.
  rewrite (proj2 (strip_prefix_Some (st "bytes=") _ (join [44] (render_spec <$> specs)))) by done.
  rewrite split_join; [|done|by destruct specs|].
  2: { apply Forall_fmap. eapply Forall_impl; [done|]. intros s Hok.
       by destruct (trim_render_spec s Hok) as (_ & _ & Hc). }
  unfold zlen. rewrite length_fmap. destruct (MAX_RANGES <? _); [done|].
  rewrite parse_specs_render by done. cbn [mbind outcome_bind].
  destruct (omap (resolve size) specs) as [|r rs] eqn:Ho.
  - destruct specs as [|s specs]; [done|]. cbn [omap list_omap] in Ho. cbn [forallb].
    by destruct (resolve size s).
  - by rewrite andb_false_r.
Qed.

Lemma parse_range_specs_witness :
  parse_range (st "bytes=" ++ join [44] (render_spec <$> [FromTo 0 99; Suffix 0; From 900])) 1000 =
    Ok [mkRange 0 100; mkRange 900 100].
Proof.
  rewrite (parse_range_specs [FromTo 0 99; Suffix 0; From 900] 1000); [reflexivity| |discriminate|lia].
  repeat constructor; simpl; unfold i64_max; lia.
Defined.

(** ** Any Range header *)

Lemma parse_spec_returns spec size : returns (parse_spec spec size).
Proof.
  unfold parse_spec. apply returns_bind; [auto with rust|]. intros [a b] _.
  repeat first [done | case_match | apply returns_bind; [auto with rust|intros ? _]].
Qed.

Lemma parse_spec_inside spec size r : 0 <= size →
  parse_spec spec size = Ok (Some r) → inside size r.
Proof.
  unfold parse_spec, inside. intros Hsize H. peel_binds. destruct x as [a b].
  peel_binds; simplify_eq/=; bool_to_prop; try lia.
  all: repeat match goal with H : Ok _ = Ok _ |- _ => injection H as <- end; simpl; try lia.
Qed.

Lemma parse_specs_returns specs size : returns (parse_specs specs size).
Proof.
  induction specs as [|spec specs IH]; simpl; [done|]. case_bool_decide; [done|].
  apply returns_bind; [apply parse_spec_returns|]. intros r _.
  apply returns_bind; [done|]. intros [rs b] _. by destruct r.
Qed.

Lemma parse_specs_inside specs size rs b : 0 <= size →
  parse_specs specs size = Ok (rs, b) → Forall (inside size) rs ∧ zlen rs <= zlen specs.
Proof.
  intros Hsize. revert rs b. induction specs as [|spec specs IH]; intros rs b; simpl.
  { intros [= <- <-]. split; [constructor|done]. }
  rewrite zlen_cons. case_bool_decide.
  { intros [? ?]%IH. split; [done|lia]. }
  intros H1. apply bind_Ok in H1 as (r & Hr & H1).
  apply bind_Ok in H1 as ([rs' b'] & Hrs & H1).
  apply IH in Hrs as [Hin Hlen]. destruct r as [r|]; simplify_eq/=.
  - rewrite zlen_cons. split; [|lia]. constructor; [by eapply parse_spec_inside|done].
  - split; [done|lia].
Qed.

Lemma parse_range_bounds header size : 0 <= size →
  match parse_range header size with
  | Ok ranges => Forall (inside size) ranges ∧ zlen ranges <= MAX_RANGES
  | Err e => header ≠ []
  | Panic | OutOfFuel => False
  end.
Proof.
  intros Hsize. unfold parse_range. case_bool_decide; [split; [constructor|done]|].
  destruct (strip_prefix _ header) as [specs|]; [|done].
  destruct (Z.ltb_spec MAX_RANGES (zlen (split (Z.eqb 44) specs))); [split; [constructor|done]|].
  pose proof (parse_specs_returns (split (Z.eqb 44) specs) size) as Hret.
  destruct (parse_specs _ size) as [[rs b]|e| |] eqn:Hp; try done. cbn [mbind outcome_bind].
  apply parse_specs_inside in Hp as [Hin Hlen]; [|done].
  destruct (b && bool_decide (rs = [])); [done|]. split; [done|lia].
Qed.

(** no Range header reaches outside the file. Whatever a client sends,
    [parse_range] ends (no arithmetic underflows, no index is out of bounds) and
    every range it admits is a non-empty part of the file, at most 200 of them,
    so that the header's text of the last byte and the reads stay in the file. *)
Theorem parse_range_inside header size : 0 <= size →
  match parse_range header size with
  | Ok ranges => Forall (inside size) ranges ∧ zlen ranges <= MAX_RANGES
  | Err e => header ≠ []
  | Panic | OutOfFuel => False
  end.
Proof.
  exact (parse_range_bounds header size).
Qed.

Lemma parse_range_inside_witness :
  match parse_range (st "bytes=5-,-3,70-9999") 100 with
  | Ok ranges => Forall (inside 100) ranges ∧ zlen ranges <= MAX_RANGES
  | _ => False
  end.
Proof. apply (parse_range_inside (st "bytes=5-,-3,70-9999") 100). lia. Defined.

(** ** Entity tag lists *)

Lemma scan_tag_shorter s tag rest : scan_tag s = Some (tag, rest) → (length rest < length s)%nat.
Proof.
  revert tag. induction s as [|c s IH]; intros tag; simpl; [done|].
  case_match; [intros [= <- <-]; lia|]. case_match; [|done].
  destruct (scan_tag s) as [[tag' rest']|]; [|done]. intros [= <- <-].
  specialize (IH _ eq_refl). lia.
Qed.

Lemma scan_etag_shorter s tag rest : scan_etag s = Some (tag, rest) → (length rest < length s)%nat.
Proof.
  unfold scan_etag. set (t := trim_blanks s).
  assert (length t <= length s)%nat by apply trim_matches_le.
  case_match; [done|]. destruct (drop _ t) as [|c s'] eqn:Hd; [done|].
  assert (length (drop (Z.to_nat (if starts_with (st "W/") t then 2 else 0)) t) = S (length s'))
    as Hl by (by rewrite Hd).
  rewrite length_drop in Hl.
  intros He. assert (∃ tag', scan_tag s' = Some (tag', rest)) as [tag' Ht].
  { destruct (scan_tag s') as [[tag' rest']|]; repeat (case_match; try done); simplify_eq; eauto. }
  apply scan_tag_shorter in Ht. lia.
Qed.

Lemma strip_prefix_shorter p s rest : strip_prefix [p] s = Some rest → length s = S (length rest).
Proof. intros ->%strip_prefix_Some. done. Qed.

Lemma tag_loop_ends fuel a b value : (length value < fuel)%nat →
  ∃ c, tag_loop fuel a b value = Ok c ∧ (c = a ∨ c = b).
Proof.
  revert value. induction fuel as [|fuel IH]; intros value Hf; [lia|]. cbn [tag_loop].
  pose proof (trim_matches_le is_blank value) as Hl. fold (trim_blanks value) in Hl.
  case_bool_decide; [eauto|].
  destruct (strip_prefix _ _) as [rest|] eqn:Hp.
  - apply strip_prefix_shorter in Hp. apply IH. lia.
  - destruct (starts_with _ _); [eauto|]. destruct (scan_etag _) as [[tag rest]|] eqn:Hs; [|eauto].
    apply scan_etag_shorter in Hs. apply IH. lia.
Qed.

(** A list of entity tags as a client writes it; [None] is a star. *)
Definition tag_text (t : bool * str) : str :=
  (if t.1 then st "W/" else []) ++ 34 :: t.2 ++ [34].
Definition tag_chars (t : bool * str) : Prop :=
  ∀ c, c ∈ t.2 → c ≠ 34 ∧ 33 <= c <= 126.
Definition item_text (t : option (bool * str)) : str :=
  match t with Some t => tag_text t | None => st "*" end.
Definition tag_list (ts : list (option (bool * str))) : str := join (st ", ") (item_text <$> ts).

Lemma scan_tag_text s rest : (∀ c, c ∈ s → c ≠ 34 ∧ 33 <= c <= 126) →
  scan_tag (s ++ 34 :: rest) = Some (s, rest).
Proof.
  induction s as [|c s IH]; intros Hs; simpl; [done|].
  destruct (Hs c) as [Hne Hr]; [by left|]. rewrite (proj2 (Z.eqb_neq c 34)) by done.
  assert ((c =? 33) || in_range 35 126 c || (128 <=? c) = true) as ->.
  { unfold in_range. destruct (Z.eqb_spec c 33); [done|]. settle. done. }
  rewrite IH; [done|]. intros d Hd. apply Hs. by right.
Qed.

Lemma tag_text_ends t : head (item_text t) = Some (34) ∨ head (item_text t) = Some 87 ∨
  head (item_text t) = Some 42.
Proof. destruct t as [[[] s]|]; simpl; auto. Qed.

Lemma tag_text_last t : last (item_text t) = Some 34 ∨ last (item_text t) = Some 42.
Proof.
  destruct t as [[b s]|]; [|by right]. left. unfold item_text, tag_text. simpl.
  change (34 :: s ++ [34]) with ((34 :: s) ++ [34]). rewrite (assoc_L (++)). apply last_snoc.
Qed.

Lemma last_app_some {A} (l k : list A) x : last k = Some x → last (l ++ k) = Some x.
Proof. intros [k' ->]%last_Some. rewrite (assoc_L (++)). apply last_snoc. Qed.

Lemma tag_list_cons t u ts :
  tag_list (t :: u :: ts) = item_text t ++ 44 :: 32 :: tag_list (u :: ts).
Proof. done. Qed.

Lemma tag_list_last t ts : ∃ d, last (tag_list (t :: ts)) = Some d ∧ is_blank d = false.
Proof.
  revert t. induction ts as [|u ts IH]; intros t.
  - destruct (tag_text_last t) as [H|H]; eauto.
  - destruct (IH u) as (d & Hd & Hb). exists d. split; [|done].
    rewrite tag_list_cons. by apply last_app_some, (last_app_some [44; 32]).
Qed.

Lemma trim_tag_list t ts : trim_blanks (tag_list (t :: ts)) = tag_list (t :: ts).
Proof.
  destruct (tag_list_last t ts) as (d & Hd & Hb).
  assert (∃ c, head (tag_list (t :: ts)) = Some c ∧ is_blank c = false) as (c & Hc & Hcb).
  { assert (∀ x, head (item_text t) = Some x → head (tag_list (t :: ts)) = Some x) as Hh.
    { intros x. destruct ts as [|u ts]; [done|]. rewrite tag_list_cons. by destruct (item_text t). }
    destruct (tag_text_ends t) as [H|[H|H]]; apply Hh in H; eauto. }
  by apply (trim_matches_ends _ _ c d).
Qed.

Lemma str_len_pos c s : 1 + str_len s <= str_len (c :: s).
Proof. change (str_len (c :: s)) with (utf8_width c + str_len s). unfold utf8_width. repeat case_match; lia. Qed.

Lemma long_tag s rest : 1 <= str_len (s ++ 34 :: rest).
Proof.
  rewrite str_len_app. pose proof (str_len_pos 34 rest). pose proof (str_len_nonneg s).
  pose proof (str_len_nonneg rest). lia.
Qed.

(** A tag followed by the rest of its list. *)
Lemma scan_etag_text t rest : tag_chars t → (trim_blanks (tag_text t ++ rest) = tag_text t ++ rest) →
  scan_etag (tag_text t ++ rest) = Some (tag_text t, rest).
Proof.
  intros Ht Htrim. unfold scan_etag. rewrite Htrim. clear Htrim. destruct t as [weak s].
  unfold tag_text, tag_chars in *; cbn [fst snd] in *. destruct weak; simpl app.
  - change (starts_with (st "W/") _) with true. cbv iota.
    assert (2 + 2 <= str_len (87 :: 47 :: 34 :: (s ++ [34]) ++ rest)) as Hlen.
    { rewrite <-(assoc_L (++)). simpl app. pose proof (str_len_pos 34 (s ++ 34 :: rest)).
      pose proof (str_len_pos 47 (34 :: s ++ 34 :: rest)).
      pose proof (str_len_pos 87 (47 :: 34 :: s ++ 34 :: rest)). pose proof (long_tag s rest). lia. }
    rewrite (proj2 (Z.ltb_ge _ _)) by exact Hlen. simpl drop.
    rewrite <-(assoc_L (++)). simpl app. rewrite scan_tag_text by done. done.
  - change (starts_with (st "W/") _) with false. cbv iota.
    assert (0 + 2 <= str_len (34 :: (s ++ [34]) ++ rest)) as Hlen.
    { rewrite <-(assoc_L (++)). simpl app.
      pose proof (str_len_pos 34 (s ++ 34 :: rest)). pose proof (long_tag s rest). lia. }
    rewrite (proj2 (Z.ltb_ge _ _)) by exact Hlen. simpl drop.
    rewrite <-(assoc_L (++)). simpl app. rewrite scan_tag_text by done. done.
Qed.

Definition item_ok (t : option (bool * str)) : Prop :=
  match t with Some t => tag_chars t | None => True end.

Lemma tag_loop_blank fuel a b v : tag_loop fuel a b (32 :: v) = tag_loop fuel a b v.
Proof. by destruct fuel. Qed.

Lemma tag_text_not t rest p : p = 44 ∨ p = 42 →
  strip_prefix [p] (tag_text t ++ rest) = None.
Proof. destruct t as [[] s]; intros [-> | ->]; done. Qed.

Lemma tag_loop_tag fuel a b t rest : tag_chars t →
  trim_blanks (tag_text t ++ rest) = tag_text t ++ rest →
  tag_loop (S fuel) a b (tag_text t ++ rest) = tag_loop fuel a b rest.
Proof.
  intros Ht Htrim. cbn [tag_loop]. rewrite Htrim.
  rewrite bool_decide_eq_false_2 by (by destruct t as [[] s]).
  change (st ",") with [44]. rewrite tag_text_not by auto.
  replace (starts_with (st "*") (tag_text t ++ rest)) with false.
  2: { symmetry. apply bool_decide_eq_false_2. change (st "*") with [42].
       rewrite tag_text_not by auto. by intros [? ?]. }
  by rewrite scan_etag_text.
Qed.

Lemma tag_loop_list fuel a b t ts : Forall item_ok (t :: ts) →
  (length (tag_list (t :: ts)) < fuel)%nat →
  tag_loop fuel a b (tag_list (t :: ts)) = Ok (if bool_decide (None ∈ t :: ts) then a else b).
Proof.
  revert fuel t. induction ts as [|u ts IH]; intros fuel t Hok Hf;
    destruct fuel as [|fuel]; try lia; inversion_clear Hok as [|? ? Ht Hts].
  - pose proof (trim_tag_list t []) as Htrim. destruct t as [t|]; [|done].
    change (tag_list [Some t]) with (tag_text t) in *. rewrite <-(app_nil_r (tag_text t)) in *.
    rewrite tag_loop_tag by done. rewrite bool_decide_eq_false_2.
    + rewrite app_nil_r in Hf. destruct fuel; [by destruct t as [[] s]; simpl in Hf; lia|done].
    + by intros ?%list_elem_of_singleton.
  - pose proof (trim_tag_list t (u :: ts)) as Htrim. rewrite tag_list_cons in *.
    destruct t as [t|]; cbn [item_text] in *.
    2: { cbn [tag_loop]. rewrite Htrim. rewrite (bool_decide_eq_true_2 (None ∈ _)); [done|].
         apply elem_of_cons; auto. }
    rewrite tag_loop_tag by done. rewrite length_app in Hf. cbn [length] in Hf.
    destruct fuel as [|fuel]; [lia|]. cbn [tag_loop].
    assert (trim_blanks (44 :: 32 :: tag_list (u :: ts)) = 44 :: 32 :: tag_list (u :: ts)) as ->.
    { destruct (tag_list_last u ts) as (d & Hd & Hb).
      by apply (trim_matches_ends _ _ 44 d); [|apply (last_app_some [44; 32])| |]. }
    rewrite bool_decide_eq_false_2 by done.
    change (strip_prefix (st ",") (44 :: 32 :: tag_list (u :: ts)))
      with (Some (32 :: tag_list (u :: ts))). cbv iota.
    rewrite tag_loop_blank, IH; [|done|lia]. f_equal.
    assert (bool_decide (None ∈ u :: ts) = bool_decide (None ∈ Some t :: u :: ts)) as ->; [|done].
    apply bool_decide_ext. rewrite (elem_of_cons (u :: ts)). split; [auto|by intros [|?]].
Qed.

Lemma header_text_first name v (request : Headers) :
  header_text ((name, Some v) :: request) name = v.
Proof. unfold header_text. by rewrite filter_cons_True. Qed.

Lemma tag_preconditions_ends (request : Headers) :
  ∃ c c', check_if_match request = Ok c ∧ check_if_none_match request = Ok c'.
Proof.
  assert (∀ a b v, ∃ c, check_tags a b v = Ok c) as Hends.
  { intros a b v. unfold check_tags. case_bool_decide; [eauto|].
    destruct (tag_loop_ends (S (length v)) a b v) as (c & -> & _); [lia|eauto]. }
  unfold check_if_match, check_if_none_match.
  destruct (Hends CTrue CFalse (header_text request (st "if-match"))) as [c Hc].
  destruct (Hends CFalse CTrue (header_text request (st "if-none-match"))) as [c' Hc']. eauto.
Qed.

(** the entity tag preconditions. Both header walks end on every header,
    and on a list of well-formed tags they say what RFC 7232 asks of a response
    without an ETag: If-Match holds and If-None-Match fails exactly when the
    list has a star. *)
Theorem tag_preconditions (request : Headers) (ts : list (option (bool * str))) :
  (∃ c c', check_if_match request = Ok c ∧ check_if_none_match request = Ok c') ∧
  (Forall item_ok ts → ts ≠ [] →
   check_if_match ((st "if-match", Some (tag_list ts)) :: request) =
     Ok (if bool_decide (None ∈ ts) then CTrue else CFalse) ∧
   check_if_none_match ((st "if-none-match", Some (tag_list ts)) :: request) =
     Ok (if bool_decide (None ∈ ts) then CFalse else CTrue)).
Proof.
  split; [apply tag_preconditions_ends|].
  intros Hok Hne. destruct ts as [|t ts]; [done|].
    assert (∀ a b, check_tags a b (tag_list (t :: ts)) =
      Ok (if bool_decide (None ∈ t :: ts) then a else b)) as Hl.
    { intros a b. unfold check_tags. rewrite bool_decide_eq_false_2.
      - apply tag_loop_list; [done|lia].
      - destruct (tag_list_last t ts) as (d & Hd & _). by intros E; rewrite E in Hd. }
    unfold check_if_match, check_if_none_match. by rewrite !header_text_first, !Hl.
Qed.

Lemma tag_preconditions_witness :
  let ts := [Some (false, st "a"); Some (true, st "b"); None] in
  tag_list ts = [34; 97; 34] ++ st ", W/" ++ [34; 98; 34] ++ st ", *" ∧
  check_if_match [(st "if-match", Some (tag_list ts))] = Ok CTrue ∧
  check_if_none_match [(st "if-none-match", Some (tag_list ts))] = Ok CFalse.
Proof.
  intros ts. destruct (tag_preconditions [] ts) as [_ H]. split; [reflexivity|].
  apply H; [|discriminate].
  assert (∀ b c, 97 <= c <= 98 → item_ok (Some (b, [c]))) as Hok.
  { intros b c Hc d Hd. apply list_elem_of_singleton in Hd. simpl in Hd. lia. }
  constructor; [exact (Hok false 97 ltac:(lia))|].
  constructor; [exact (Hok true 98 ltac:(lia))|]. by repeat constructor.
Defined.

(** ** Answers *)

(** A body that is delivered whole, as the bytes [d]. *)
Definition delivers (frames : list (outcome IoError (list byte))) (d : list byte) : Prop :=
  ∃ ds, frames = Ok <$> ds ∧ d = concat ds.

(** The body of a multipart/byteranges answer (RFC 7233): each part after a line
    with the boundary, which all but the first begin with a line's end, its range and
    type, and an empty line; then the file's bytes of its range; at last the closing
    boundary. *)
Fixpoint multipart (boundary ctype : str) (data : list byte) (first : bool) (ranges : list Range) : list byte :=
  match ranges with
  | [] => encode ([13; 10] ++ st "--" ++ boundary ++ st "--" ++ [13; 10])
  | r :: ranges =>
      encode ((if first then [] else [13; 10]) ++ st "--" ++ boundary ++ [13; 10] ++
        st "Content-Range: bytes " ++ show (start r) ++ st "-" ++ show (start r + length_ r - 1) ++ st "/" ++ show (zlen data) ++ [13; 10] ++
        st "Content-Type: " ++ ctype ++ [13; 10; 13; 10]) ++
      take (Z.to_nat (length_ r)) (drop (Z.to_nat (start r)) data) ++
      multipart boundary ctype data false ranges
  end.

(** A file that stays as it is while a request is served. *)
Definition stable (data : list byte) (modified : option Z) : FileSystem :=
  mkFileSystem (Ok (zlen data, modified)) (Ok data) (Ok tt) (λ _, Ok data).

Lemma total_bound {A} (f : nat → A → Z) (l : list A) B :
  0 <= B → (∀ i x, x ∈ l → 0 <= f i x <= B) → 0 <= total (imap f l) <= zlen l * B.
Proof.
  intros HB. revert f. induction l as [|x l IH]; intros f Hf; [done|].
  rewrite imap_cons, zlen_cons. cbn [total foldr].
  change (foldr Z.add 0 ?l) with (total l).
  specialize (IH (f ∘ S) (λ i y Hy, Hf (S i) y ltac:(by right))).
  specialize (Hf 0%nat x ltac:(by left)). nia.
Qed.

Lemma total_fmap_bound (l : list Range) size : 0 <= size → Forall (inside size) l →
  0 <= total (length_ <$> l) <= zlen l * size.
Proof.
  intros Hs. induction 1 as [|r l (H1 & H2 & H3) _ IH]; [done|].
  rewrite fmap_cons, zlen_cons. cbn [total foldr].
  change (foldr Z.add 0 ?l) with (total l). nia.
Qed.

(** The parts of a multipart answer, each the header [h] gives it and its bytes. *)
Definition parts (h : nat → Range → str) (data : list byte) (ranges : list Range) : list byte :=
  concat (imap (λ i r, encode (h i r) ++ sub data (start r) (length_ r)) ranges).

Lemma delivers_parts (h : nat → Range → str) data ranges :
  Forall (inside (zlen data)) ranges →
  delivers (concat (imap (λ i r, [Ok (encode (h i r)); Ok (sub data (start r) (length_ r))]) ranges)) (parts h data ranges) ∧
  zlen (parts h data ranges) = total (imap (λ i r, str_len (h i r) + length_ r) ranges).
Proof.
  intros Hin. revert h. induction Hin as [|r ranges (H1 & H2 & H3) _ IH]; intros h.
  { split; [|done]. by exists []. }
  destruct (IH (h ∘ S)) as ((ds & Hds & Hparts) & Hd).
  assert (parts h data (r :: ranges) = encode (h 0%nat r) ++ sub data (start r) (length_ r) ++ parts (h ∘ S) data ranges) as ->.
  { unfold parts. rewrite imap_cons. cbn [concat]. by rewrite <-(assoc_L (++)). }
  split.
  - exists (encode (h 0%nat r) :: sub data (start r) (length_ r) :: ds). split; [|cbn [concat]; by rewrite <-Hparts].
    rewrite imap_cons. cbn [concat app fmap list_fmap]. do 2 f_equal. exact Hds.
  - rewrite imap_cons, !zlen_app, zlen_encode, zlen_sub by lia. cbn [total foldr].
    change (foldr Z.add 0 ?l) with (total l).
    change (imap ((λ i r, str_len (h i r) + length_ r) ∘ S) ranges)
      with (imap (λ i r, str_len ((h ∘ S) i r) + length_ r) ranges). lia.
Qed.

Lemma multipart_parts boundary ctype data n ranges :
  parts (λ i, part_header boundary ctype (zlen data) (n + i)%nat) data ranges ++ encode (closing boundary) =
  multipart boundary ctype data (bool_decide (n = 0%nat)) ranges.
Proof.
  revert n. induction ranges as [|r ranges IH]; intros n; [done|]. cbn [multipart].
  change false with (bool_decide (S n = 0%nat)). rewrite <-IH. unfold parts. rewrite imap_cons. cbn [concat].
  rewrite <-!(assoc_L (++)). unfold sub. f_equal.
  - unfold part_header, content_range. rewrite Nat.add_0_r. by rewrite <-!(assoc_L (++)).
  - do 3 f_equal. apply imap_ext. intros i x _. unfold compose. by rewrite Nat.add_succ_comm.
Qed.

Section Answers.
Context `{HttpLibs}.

Lemma preconditions_cases method request modified hs :
  ∃ early, preconditions method request modified hs = Ok early ∧
    match early with
    | Some r => (status r = 412 ∨ status r = 304) ∧ body r = [] ∧
                (headers r !! CONTENT_LENGTH = None ∨ headers r = hs)
    | None => True
    end.
Proof.
  unfold preconditions. destruct (tag_preconditions_ends request) as (c & c' & -> & ->).
  cbn [mbind outcome_bind].
  match goal with |- context [bool_decide (?x = CFalse)] => destruct (bool_decide (x = CFalse)) end.
  { eexists. split; [done|]. simpl. auto. }
  assert (∀ hs, headers (not_modified hs) !! CONTENT_LENGTH = None) as Hnm.
  { intros hs'. simpl. rewrite lookup_delete_ne by done. apply lookup_delete_eq. }
  destruct c'; [destruct (bool_decide _)| |destruct (reads method)]; eexists;
    (split; [reflexivity|]); try done; (split; [simpl; auto|]); (split; [done|]); auto.
Qed.

Lemma base_headers_length ctype modified : base_headers ctype modified !! CONTENT_LENGTH = None.
Proof.
  unfold base_headers. assert (∀ v, (<[CONTENT_TYPE := v]>
    {[ACCEPT_RANGES := st "bytes"]} : gmap str str) !! CONTENT_LENGTH = None) as Hb.
  { intros v. rewrite lookup_insert_ne by done. by apply lookup_singleton_ne. }
  destruct modified as [m|]; [|apply Hb]. destruct (is_zero_time (Some m)); [apply Hb|].
  rewrite lookup_insert_ne by done. apply Hb.
Qed.

Lemma choose_ranges_cases header size hs : 0 <= size →
  ∃ chosen, choose_ranges header size hs = Ok chosen ∧
    match chosen with
    | inl r => status r = 416 ∧ headers r !! CONTENT_LENGTH = None ∧ ∃ d, body r = [Ok d]
    | inr ranges => Forall (inside size) ranges ∧ zlen ranges <= MAX_RANGES ∧
                    (ranges ≠ [] → parse_range header size = Ok ranges)
    end.
Proof.
  intros Hsize. unfold choose_ranges. pose proof (parse_range_bounds header size Hsize) as Hp.
  assert (∀ s m hs, headers (plain_error s m hs) !! CONTENT_LENGTH = None) as Hpe.
  { intros. simpl. rewrite !lookup_insert_ne by done. apply lookup_delete_eq. }
  destruct (parse_range header size) as [ranges|[]| |]; try done.
  - eexists. split; [done|]. destruct (_ <? _); [by repeat split|by destruct Hp].
  - eexists. split; [done|]. split_and!; [done|apply Hpe|by eexists].
  - destruct (size =? 0); eexists; (split; [done|]).
    + by repeat split.
    + split_and!; [done|apply Hpe|by eexists].
Qed.

Lemma part_header_bound boundary ctype size i r :
  inside size r → size < 2 ^ 50 → str_len boundary + str_len ctype < 2 ^ 32 →
  0 <= str_len (part_header boundary ctype size i r) <= 2 ^ 33.
Proof.
  intros (H1 & H2 & H3) Hsize Hlen. split; [apply str_len_nonneg|].
  unfold part_header, content_range. rewrite !str_len_app.
  pose proof (str_len_show (start r) 50 ltac:(lia) ltac:(lia)).
  pose proof (str_len_show (start r + length_ r - 1) 50 ltac:(lia) ltac:(lia)).
  pose proof (str_len_show size 50 ltac:(lia) ltac:(lia)).
  change (str_len CRLF) with 2. change (str_len (st "--")) with 2.
  change (str_len (st "Content-Range: ")) with 15. change (str_len (st "bytes ")) with 6.
  change (str_len (st "-")) with 1. change (str_len (st "/")) with 1.
  change (str_len (st "Content-Type: ")) with 14.
  assert (str_len (if bool_decide (i = 0%nat) then [] else CRLF) <= 2) by (case_match; done).
  change (2 ^ 33) with (2 * 2 ^ 32). change (2 ^ 32) with 4294967296 in *. lia.
Qed.

Lemma serve_ranges_stable method data modified uuids ctype hs ranges :
  zlen data < 2 ^ 50 → str_len (random_boundary uuids) + str_len ctype < 2 ^ 32 →
  Forall (inside (zlen data)) ranges → zlen ranges <= MAX_RANGES →
  ∃ r d, serve_ranges method (stable data modified) uuids ctype (zlen data) hs data ranges = Ok r ∧
    status r = (if bool_decide (ranges = []) then 200 else 206) ∧
    headers r !! CONTENT_LENGTH = Some (show (zlen d)) ∧
    (if bool_decide (method = HEAD) then body r = [] else delivers (body r) d) ∧
    match ranges with
    | [] => d = data
    | [range] => d = sub data (start range) (length_ range) ∧
                 headers r !! CONTENT_RANGE = Some (content_range range (zlen data))
    | ranges => d = multipart (random_boundary uuids) ctype data true ranges ∧
                headers r !! CONTENT_TYPE = Some (st "multipart/byteranges; boundary=" ++ random_boundary uuids)
    end.
Proof.
  intros Hsize Hlen Hin Hmax. pose proof (zlen_nonneg data). unfold serve_ranges.
  assert (∀ l d, delivers l d → if bool_decide (method = HEAD)
    then (if bool_decide (method = HEAD) then [] else l) = []
    else delivers (if bool_decide (method = HEAD) then [] else l) d) as Hbody
    by (intros l d ?; by case_bool_decide).
  destruct ranges as [|r1 [|r2 ranges]].
  - eexists _, data. split; [done|]. split_and!; [done|apply lookup_insert_eq| |done].
    apply Hbody. exists [data]. by simpl; rewrite app_nil_r.
  - apply Forall_cons in Hin as [(H1 & H2 & H3) _].
    eexists _, (sub data (start r1) (length_ r1)). split; [done|].
    split_and!; [done| | |done|].
    + rewrite zlen_sub by lia. apply lookup_insert_eq.
    + apply Hbody. exists [sub data (start r1) (length_ r1)]. by simpl; rewrite app_nil_r.
    + simpl. rewrite lookup_insert_ne by done. apply lookup_insert_eq.
  - set (rs := r1 :: r2 :: ranges) in *.
    destruct (delivers_parts (part_header (random_boundary uuids) ctype (zlen data)) data rs Hin)
      as (Hd & Hlend).
    set (d := parts _ data rs) in *.
    assert (0 <= total (imap (λ i r, str_len (part_header (random_boundary uuids) ctype
        (zlen data) i r) + length_ r) rs) <= zlen rs * (2 ^ 51)) as Hb.
    { apply total_bound; [lia|]. intros i r Hr. rewrite Forall_forall in Hin.
      specialize (Hin r Hr).
      pose proof (part_header_bound (random_boundary uuids) ctype (zlen data) i r Hin Hsize Hlen).
      destruct Hin as (? & ? & ?). split; lia. }
    assert (0 <= str_len (closing (random_boundary uuids)) <= 2 ^ 33) as Hc.
    { split; [apply str_len_nonneg|]. unfold closing. rewrite !str_len_app.
      change (str_len CRLF) with 2. change (str_len (st "--")) with 2.
      pose proof (str_len_nonneg ctype). lia. }
    unfold MAX_RANGES in Hmax.
    eexists _, (d ++ encode (closing (random_boundary uuids))).
    split; [done|]. split_and!; [done| | | |].
    + cbn [headers]. rewrite lookup_insert_eq. rewrite zlen_app, zlen_encode, Hlend.
      unfold sum_u64. rewrite (Z.mod_small (total _)) by lia.
      rewrite Z.mod_small by lia. done.
    + apply Hbody. destruct Hd as (ds & Hds & Hconcat).
      exists (ds ++ [encode (closing (random_boundary uuids))]). split.
      * rewrite fmap_app, <-Hds. done.
      * by rewrite concat_app, <-Hconcat; simpl; rewrite app_nil_r.
    + apply (multipart_parts _ _ _ 0).
    + cbn [headers]. rewrite lookup_insert_ne by done. apply lookup_insert_eq.
Qed.

Definition sends (r : Response) : bool := (status r =? 200) || (status r =? 206).

(** C32: what arrives is what was announced. For a file that stays as it is and
    any GET request, [serve] always answers; every body is delivered whole, a
    Content-Length header, present on each 200 and 206, is the exact number of
    bytes in it (multipart separators included); a 200 carries the file, a 206 for
    one range the bytes its Content-Range names, and a 206 for several the multipart
    body of the boundary its Content-Type names, each part with its range's bytes. *)
Theorem serve_length_exact request extension data modified uuids :
  zlen data < 2 ^ 50 →
  str_len (random_boundary uuids) + str_len (content_type extension) < 2 ^ 32 →
  ∃ r d, serve GET request extension (stable data modified) uuids = Ok r ∧
    delivers (body r) d ∧
    (∀ text, headers r !! CONTENT_LENGTH = Some text → text = show (zlen d)) ∧
    (sends r = true → is_Some (headers r !! CONTENT_LENGTH)) ∧
    (status r = 200 → d = data) ∧
    (status r = 206 → ∃ ranges, ranges ≠ [] ∧
       parse_range (header_text request (st "range")) (zlen data) = Ok ranges ∧
       (∀ range, ranges = [range] → d = sub data (start range) (length_ range) ∧
         headers r !! CONTENT_RANGE = Some (content_range range (zlen data))) ∧
       ((2 <= length ranges)%nat →
         d = multipart (random_boundary uuids) (content_type extension) data true ranges ∧
         headers r !! CONTENT_TYPE = Some (st "multipart/byteranges; boundary=" ++ random_boundary uuids))).
Proof.
  intros Hsize Hlen. pose proof (zlen_nonneg data) as Hz. unfold serve. cbn [metadata opened stable].
  cbn [map_err mbind outcome_bind].
  set (hs := base_headers (content_type extension) modified).
  pose proof (base_headers_length (content_type extension) modified) as Hhs. fold hs in Hhs.
  destruct (preconditions_cases GET request modified hs) as (early & -> & He).
  cbn [no_err map_err mbind outcome_bind]. destruct early as [r|].
  { destruct He as (Hst & Hb & Hh). exists r, []. split; [done|]. split; [by exists []; rewrite Hb|].
    assert (headers r !! CONTENT_LENGTH = None) as Hn by (destruct Hh as [?| ->]; done).
    unfold sends. rewrite Hn.
    split_and!; try done; intros Hs; destruct Hst as [Hst|Hst]; by rewrite Hst in Hs. }
  match goal with |- context [choose_ranges ?h _ _] =>
    set (header := h); destruct (choose_ranges_cases header (zlen data) hs Hz) as (chosen & -> & Hch)
  end.
  cbn [no_err map_err mbind outcome_bind]. destruct chosen as [r|ranges].
  { destruct Hch as (Hst & Hn & d & Hd). exists r, d. split; [done|].
    split; [exists [d]; by rewrite Hd; simpl; rewrite app_nil_r|]. unfold sends. rewrite Hn, Hst. done. }
  destruct Hch as (Hin & Hmax & Hparse).
  destruct (serve_ranges_stable GET data modified uuids (content_type extension) hs ranges)
    as (r & d & Hr & Hst & Hcl & Hb & Hd); [done..|].
  assert ((ranges = [] ∧ status r = 200) ∨ status r = 206) as Hcase
    by (clear -Hst; rewrite Hst; case_bool_decide; auto).
  exists r, d. split; [done|]. split; [done|]. rewrite Hcl. split_and!.
  - by intros text [= <-].
  - eauto.
  - intros E. destruct Hcase as [[-> _]|Hs]; [done|]. rewrite Hs in E. discriminate E.
  - intros Hs. assert (ranges ≠ []) as Hne by (intros ->; rewrite Hst in Hs; discriminate Hs).
    exists ranges. split; [done|]. split.
    { specialize (Hparse Hne). unfold header in Hparse. destruct (_ && _); [by injection Hparse as <-|done]. }
    split; [by intros range ->|]. destruct ranges as [|r1 [|r2 ranges]]; cbn [length]; [lia..|done].
Qed.

(** HEAD answers what GET answers. For every request and every state of the
    file system, HEAD has GET's status and headers (or its error), and no body
    where GET sends the file. *)
Theorem serve_head_matches_get request extension fs uuids :
  match serve GET request extension fs uuids with
  | Ok r => ∃ r', serve HEAD request extension fs uuids = Ok r' ∧
      status r' = status r ∧ headers r' = headers r ∧
      body r' = if sends r then [] else body r
  | Err e => serve HEAD request extension fs uuids = Err e
  | Panic => serve HEAD request extension fs uuids = Panic
  | OutOfFuel => serve HEAD request extension fs uuids = OutOfFuel
  end.
Proof.
  unfold serve. destruct (metadata fs) as [[size modified]|e| |]; [|done..].
  destruct (opened fs) as [data|e| |]; [|done..]. cbn [map_err mbind outcome_bind].
  set (hs := base_headers _ _).
  change (preconditions HEAD request modified hs) with (preconditions GET request modified hs).
  destruct (preconditions_cases GET request modified hs) as (early & -> & He).
  cbn [no_err map_err mbind outcome_bind]. destruct early as [r|].
  { exists r. split; [done|]. destruct He as ([Hst|Hst] & -> & _); unfold sends; by rewrite Hst. }
  change (check_if_range HEAD request modified) with (check_if_range GET request modified).
  match goal with |- context [choose_ranges ?h _ _] => set (header := h) end.
  destruct (choose_ranges header size hs) as [[r|ranges]|[]| |] eqn:Hch; [| |done..].
  - cbn. exists r. split; [done|]. split_and!; [done..|].
    unfold sends. unfold choose_ranges in Hch.
    destruct (parse_range header size) as [?|[]| |]; try done; [|case_match; [done|]];
      by injection Hch as <-.
  - cbn [no_err map_err mbind outcome_bind]. unfold serve_ranges.
    destruct ranges as [|r1 [|r2 ranges]]; [by eexists| |by eexists].
    destruct (seeked fs); [by eexists|done..].
Qed.
End Answers.

Definition example_libs : HttpLibs := {|
  parse_http_date := parse_i64; fmt_http_date := show; mime_from_ext := λ _, None;
  header_valid := λ _, true; hex := λ l, l ≫= λ b, [97 + b2z b / 16; 97 + b2z b mod 16]
|}.

Lemma serve_length_exact_witness :
  let request := [(st "range", Some (st "bytes=2-4"))] in
  ∃ r d, @serve example_libs GET request (Some (st "FLAC")) (stable (bs "0123456789") (Some 5)) (bs "u") = Ok r ∧
    delivers (body r) d ∧ status r = 206 ∧ d = bs "234".
Proof.
  intros request.
  destruct (@serve_length_exact example_libs request (Some (st "FLAC")) (bs "0123456789") (Some 5) (bs "u"))
    as (r & d & Hr & Hd & _ & _ & _ & H206); [vm_compute; reflexivity..|].
  assert (Hs : status r = 206).
  { assert (match @serve example_libs GET request (Some (st "FLAC"))
        (stable (bs "0123456789") (Some 5)) (bs "u") with Ok r => status r | _ => 0 end = 206) as E
      by (vm_compute; reflexivity).
    rewrite Hr in E. exact E. }
  exists r, d. split; [exact Hr|]. split; [exact Hd|]. split; [exact Hs|].
  destruct (H206 Hs) as (ranges & _ & Hp & H1 & _).
  assert (ranges = [mkRange 2 3]) as -> by (vm_compute in Hp; congruence).
  destruct (H1 (mkRange 2 3) eq_refl) as [-> _]. reflexivity.
Defined.
