(* ===== verification/Failure.v ===== *)
(** Inspection failures (inspect/errors.rs) and the values an inspection
    produces (the data types of inspect/mod.rs). *)

From S2P Require Import Prelude Text.

Inductive Code :=
| FileRead | UnsupportedFormat | InvalidMetadata | MissingArtwork | InvalidArtwork
| AudioDecode | ValidationCancelled.

#[export] Instance code_eq_dec : EqDecision Code.
Proof. solve_decision. Defined.

Definition as_str (c : Code) : str :=
  match c with
  | FileRead => st "file_read_failed"
  | UnsupportedFormat => st "unsupported_format"
  | InvalidMetadata => st "invalid_metadata"
  | MissingArtwork => st "missing_artwork"
  | InvalidArtwork => st "invalid_artwork"
  | AudioDecode => st "audio_decode_failed"
  | ValidationCancelled => st "validation_cancelled"
  end.

Definition public_reason (c : Code) (message : str) : str :=
  match c with
  | InvalidMetadata =>
      match split_once_str (st ": ") message with
      | Some (reason, _) => reason
      | None => message
      end
  | MissingArtwork => message
  | FileRead => st "file could not be read"
  | UnsupportedFormat => st "file container or audio codec is not supported"
  | InvalidArtwork => st "embedded artwork is invalid"
  | AudioDecode => st "audio stream failed full decode"
  | ValidationCancelled => st "validation failed"
  end.

Record Issue := mkIssue { issue_code : Code; issue_field : str; issue_reason : str }.

Record InspectionError := mkInspectionError {
  code : Code;
  field : str;
  reason : str;
  message : str
}.

Inductive Leaf := Inspection (e : InspectionError) | Other (text : str).

#[export] Instance inspection_error_eq_dec : EqDecision InspectionError.
Proof. solve_decision. Defined.
#[export] Instance leaf_eq_dec : EqDecision Leaf.
Proof. solve_decision. Defined.

(** Independent failures in check order. *)
Abbreviation Failure := (list Leaf).

Definition error (c : Code) (f : str) (m : str) : Failure :=
  [Inspection (mkInspectionError c f (public_reason c m) m)].

Definition other (m : str) : Failure := [Other m].

Definition cancelled : Failure :=
  error ValidationCancelled (st "validation") (st "context canceled").

(** [Failure::join]. *)
Definition fjoin (parts : list (option Failure)) : Failure :=
  concat (omap (λ p, p) parts).

Definition into_result (f : Failure) : outcome Failure unit :=
  if bool_decide (f = []) then Ok tt else Err f.

Definition inspection_errors (f : Failure) : list InspectionError :=
  omap (λ l, match l with Inspection e => Some e | Other _ => None end) f.

Definition issues (f : Failure) : list Issue :=
  (λ e, mkIssue (code e) (field e) (reason e)) <$> inspection_errors f.

Definition first (f : Failure) : option InspectionError := head (inspection_errors f).

Definition exclude_fields (f : Failure) (fields : list str) : Failure :=
  filter (λ l, match l with
               | Inspection e => negb (bool_decide (field e ∈ fields))
               | Other _ => true end = true) f.

Definition fields (f : Failure) : list str := field <$> inspection_errors f.

Definition has_code (f : Failure) (c : Code) : bool :=
  existsb (λ e, bool_decide (code e = c)) (inspection_errors f).

(** [Display] of a leaf and of a failure. *)
Definition show_leaf (l : Leaf) : str :=
  match l with
  | Other text => text
  | Inspection e =>
      if bool_decide (field e = []) then
        st "inspect: " ++ as_str (code e) ++ st ": " ++ message e
      else st "inspect " ++ field e ++ st ": " ++ as_str (code e) ++ st ": " ++ message e
  end.
Definition show_failure (f : Failure) : str := join [10] (show_leaf <$> f).

(** ** What an inspection produces (inspect/mod.rs) *)

Record AlbumArtwork := mkArtwork {
  warning : str;
  mime_type : str;
  width : Z;
  height : Z;
  artwork_data : list byte;
  sha256 : str
}.

Definition no_artwork : AlbumArtwork := mkArtwork [] [] 0 0 [] [].

Record TechnicalAudio := mkAudio {
  format : str;
  container : str;
  codec : str;
  duration_ms : Z;
  sample_rate_hz : Z;
  channel_count : Z;
  bit_depth : Z;
  bitrate_kbps : Z
}.

Record Progress := mkProgress { decoded_samples : Z; total_samples : Z; percent : Z }.

Definition INVALID_ARTWORK_WARNING : str :=
  st "Embedded artwork is invalid; choose another cover or continue without artwork".

Definition optional_artwork (result : outcome Failure AlbumArtwork)
    : outcome Failure AlbumArtwork :=
  match result with
  | Err failure =>
      match code <$> first failure with
      | Some MissingArtwork => Ok no_artwork
      | Some InvalidArtwork => Ok (mkArtwork INVALID_ARTWORK_WARNING [] 0 0 [] [])
      | _ => Err failure
      end
  | result => result
  end.

(** An I/O error as the inspectors word it. *)
Inductive IoError := UnexpectedEof | IoText (text : str).
Definition io_message (e : IoError) : str :=
  match e with UnexpectedEof => st "unexpected EOF" | IoText text => text end.

Definition audio_error (m : str) : Failure := error AudioDecode (st "audio") m.
Definition file_error (m : str) : Failure := error FileRead (st "file") m.

(** ** Lemmas *)

Lemma error_not_nil c f m : error c f m ≠ [].
Proof. done. Qed.

Lemma fjoin_cons p ps : fjoin (p :: ps) = default [] p ++ fjoin ps.
Proof. by destruct p. Qed.

Lemma fjoin_nil_iff ps : fjoin ps = [] ↔ Forall (λ p, default [] p = []) ps.
Proof.
  induction ps as [|p ps IH]; [done|]. rewrite fjoin_cons, Forall_cons, <-IH.
  split; [intros [? ?]%app_nil; auto|intros [-> ->]; done].
Qed.

Lemma returns_into_result f : returns (into_result f).
Proof. unfold into_result. by case_bool_decide. Qed.

Lemma returns_optional_artwork r : returns r → returns (optional_artwork r).
Proof. destruct r as [|e| |]; try done. simpl. intros _. destruct (first e) as [[[] ? ? ?]|]; done. Qed.

Lemma optional_artwork_err r e : optional_artwork r = Err e → r = Err e.
Proof.
  destruct r as [a|f| |]; simpl; try done.
  destruct (first f) as [[[] ? ? ?]|]; simpl; congruence.
Qed.

#[export] Hint Resolve returns_into_result returns_optional_artwork : rust.
