(* ===== verification/Inspector.v ===== *)
(** The ground every inspector stands on (inspect/mod.rs): reads of one open
    file, cancellation, progress and the whole-file hash.

    A [World] is what the inspection meets outside itself: the file's bytes,
    which reads and seeks fail and how much each read grants, at which polls the
    caller has cancelled, and what the progress reporter answers. *)

From S2P Require Import Prelude Crash Text Failure.

Class World := {
  file : list byte;
  fault : nat → option IoError;
  granted : nat → Z;
  is_cancelled : nat → bool;
  reporter : option (nat → Progress → option Failure);
  sha256_hex : list byte → str
}.

(** The file position, the operations and cancellation polls made so far, and
    the progress reported, latest first. *)
Record Io := mkIo { pos : Z; ops : nat; polls : nat; reported : list Progress }.

Definition io_start : Io := mkIo 0 0 0 [].

Definition with_pos (p : Z) (s : Io) : Io := mkIo p (ops s) (polls s) (reported s).
Definition one_op (s : Io) : Io := mkIo (pos s) (S (ops s)) (polls s) (reported s).

Section Inspector.
Context `{World}.

Definition file_len : Z := zlen file.

(** [File::read] into a buffer of [n] bytes: at least one byte unless the
    buffer is empty or the file has ended. *)
Definition read (n : Z) : M Io IoError (list byte) := fun s =>
  let s' := one_op s in
  match fault (ops s) with
  | Some e => (Err e, s')
  | None =>
      let rest := file_len - pos s in
      if (n <=? 0) || (rest <=? 0) then (Ok [], s')
      else
        let k := Z.max 1 (Z.min (granted (ops s)) (Z.min n rest)) in
        (Ok (sub file (pos s) k), with_pos (pos s + k) s')
  end.

Definition seek (p : Z) : M Io IoError unit := fun s =>
  match fault (ops s) with
  | Some e => (Err e, one_op s)
  | None => (Ok tt, with_pos p (one_op s))
  end.

(** How a loop of reads ended. *)
Inductive Fill := Full | AtEof | Broken (e : IoError).

(** Reads until [n] bytes are there; every round reads at least one. A caller that
    tries an interrupted read again ([read_exact], [wav::read_full],
    [ogg::read_page]) meets a [fault] where those tries end in another error. *)
Fixpoint fill_fuel (fuel : nat) (n : Z) : M Io IoError (list byte * Fill) :=
  if n <=? 0 then mret ([], Full) else
  match fuel with
  | O => lift OutOfFuel
  | S fuel =>
      r ← try (read n);
      match r with
      | Ok [] => mret ([], AtEof)
      | Ok bs => '(rest, stop) ← fill_fuel fuel (n - zlen bs); mret (bs ++ rest, stop)
      | Err e => mret ([], Broken e)
      | Panic => lift Panic
      | OutOfFuel => lift OutOfFuel
      end
  end.
Definition fill (n : Z) : M Io IoError (list byte * Fill) := fill_fuel (S (Z.to_nat n)) n.

(** [Read::read_exact]. *)
Definition read_exact (n : Z) : M Io IoError (list byte) :=
  '(bs, stop) ← fill n;
  match stop with
  | Full => mret bs
  | AtEof => fail UnexpectedEof
  | Broken e => fail e
  end.

(** [read_up_to]: whatever stops a read is returned, an interruption included, so
    an interrupted read is a [fault] here, [Broken] like any other. *)
Definition read_up_to (n : Z) : M Io IoError (list byte) :=
  '(bs, stop) ← fill n;
  match stop with
  | Full | AtEof => mret bs
  | Broken e => fail e
  end.

(** [FileExt::read_exact_at]: the position stays where it was. *)
Definition read_exact_at (n p : Z) : M Io IoError (list byte) := fun s =>
  let '(o, s') := read_exact n (with_pos p s) in (o, with_pos (pos s) s').

(** [wav::read_full]: the bytes read and why it stopped short. *)
Definition read_full (n : Z) : M Io Failure (list byte * option str) :=
  on_err (λ e, other (io_message e)) (
    '(bs, stop) ← fill n;
    mret (bs, match stop with
              | Full => None
              | AtEof => Some (if bool_decide (bs = []) then st "EOF" else st "unexpected EOF")
              | Broken e => Some (io_message e)
              end)).

(** [Context::is_cancelled] and [Context::check]. *)
Definition poll : M Io Failure bool := fun s =>
  (Ok (is_cancelled (polls s)), mkIo (pos s) (ops s) (S (polls s)) (reported s)).

Definition check : M Io Failure unit :=
  c ← poll; if c : bool then fail cancelled else mret tt.

(** The percentage of [Context::report]; [i64] products that overflow panic. *)
Definition percent_of (decoded total encoded_bytes total_bytes : Z) (complete : bool)
    : outcome Failure Z :=
  p ← (if 0 <? total then Ok (as_i64 (decoded * 100 / total))
       else if 0 <? total_bytes then
         if encoded_bytes * 100 <=? i64_max then Ok (Z.quot (encoded_bytes * 100) total_bytes)
         else Panic
       else Ok 0);
  Ok (if complete then 100 else if 100 <=? p then 99 else p).

Definition report (decoded total encoded_bytes total_bytes : Z) (complete : bool)
    : M Io Failure unit :=
  match reporter with
  | None => mret tt
  | Some answer => fun s =>
      match percent_of decoded total encoded_bytes total_bytes complete with
      | Ok p =>
          let progress := mkProgress decoded total p in
          let s' := mkIo (pos s) (ops s) (polls s) (progress :: reported s) in
          match answer (length (reported s)) progress with
          | None => (Ok tt, s')
          | Some f => (Err f, s')
          end
      | Err e => (Err e, s)
      | Panic => (Panic, s)
      | OutOfFuel => (OutOfFuel, s)
      end
  end.

(** ** Hashing *)

Inductive HashError := HashCancelled | HashIo (text : str).

Definition HASH_BUFFER : Z := 256 * 1024.

Fixpoint hash_loop (fuel : nat) (hashed : list byte) : M Io HashError (list byte) :=
  match fuel with
  | O => lift OutOfFuel
  | S fuel =>
      c ← on_err (λ _, HashCancelled) poll;
      if c : bool then fail HashCancelled else
      bs ← on_err (λ e, HashIo (st "hash file: " ++ io_message e)) (read HASH_BUFFER);
      match bs with
      | [] => mret hashed
      | bs => hash_loop fuel (hashed ++ bs)
      end
  end.

(** Every round but the last reads a byte, so the file's length and one more
    rounds are enough. *)
Definition hash_and_rewind : M Io HashError (str * Z) :=
  hashed ← hash_loop (S (length file)) [];
  _ ← on_err (λ e, HashIo (st "rewind file: " ++ io_message e)) (seek 0);
  mret (sha256_hex hashed, zlen hashed).

Definition hash_file : M Io Failure (str * Z) :=
  on_err (λ e, match e with
               | HashCancelled =>
                   error ValidationCancelled (st "validation") (st "hash file: context canceled")
               | HashIo text => file_error text
               end) hash_and_rewind.

(** [average_bitrate_kbps], in [i64]: a sum that overflows panics. *)
Definition average_bitrate_kbps {E} (encoded_bytes duration_ms : Z) : outcome E Z :=
  if (encoded_bytes <=? 0) || (duration_ms <=? 0) then Ok 0
  else
    bits ← mul_i64 encoded_bytes 8;
    rounded ← add_i64 bits (duration_ms / 2);
    Ok (rounded / duration_ms).
End Inspector.

(** ** Reading *)

Definition at_file (s : Io) : Prop := 0 <= pos s.

Section ReadLemmas.
Context `{World}.

Lemma read_cases n s : at_file s →
  match read n s with
  | (Ok bs, s') =>
      pos s' = pos s + zlen bs ∧ bs = sub file (pos s) (zlen bs) ∧
      zlen bs <= Z.max 0 n ∧ pos s + zlen bs <= Z.max (pos s) file_len ∧
      (bs = [] → n <= 0 ∨ file_len <= pos s) ∧
      polls s' = polls s ∧ reported s' = reported s
  | (Err e, s') => pos s' = pos s ∧ polls s' = polls s ∧ reported s' = reported s
  | _ => False
  end.
Proof.
  unfold at_file. intros Hp. unfold read. destruct (fault (ops s)) as [e|]; [done|].
  destruct ((n <=? 0) || (file_len - pos s <=? 0)) eqn:Hc; simpl.
  - split_and!; try done; try (change (zlen []) with 0; lia).
  - bool_to_prop. set (k := Z.max 1 _). assert (1 <= k <= Z.min n (file_len - pos s)) as Hk by lia.
    unfold file_len in *. rewrite zlen_sub by lia.
    split_and!; try done; try lia. intros E. apply (f_equal zlen) in E.
    rewrite zlen_sub in E by lia. change (zlen []) with 0 in E. lia.
Qed.

Lemma fill_cases fuel n s : at_file s → n <= Z.of_nat fuel →
  ∃ bs stop s', fill_fuel fuel n s = (Ok (bs, stop), s') ∧
    pos s' = pos s + zlen bs ∧ bs = sub file (pos s) (zlen bs) ∧
    zlen bs <= Z.max 0 n ∧ pos s + zlen bs <= Z.max (pos s) file_len ∧
    polls s' = polls s ∧ reported s' = reported s ∧
    match stop with
    | Full => zlen bs = Z.max 0 n
    | AtEof => file_len <= pos s'
    | Broken _ => True
    end.
Proof.
  revert n s. induction fuel as [|fuel IH]; intros n s Hs Hf; cbn [fill_fuel];
    destruct (Z.leb_spec n 0); try lia.
  1,2: exists [], Full, s; split; [done|]; change (zlen []) with 0; split_and!; done || lia.
  pose proof (read_cases n s Hs) as Hr. unfold try, mbind, M_bind.
  destruct (read n s) as [[bs|e| |] s1]; try done.
  - destruct Hr as (Hpos & Hsub & Hle & Hin & Hnil & Hpl & Hrep).
    destruct bs as [|b bs].
    { exists [], AtEof, s1. change (zlen []) with 0 in *.
      split; [done|]. split_and!; try done; try lia. destruct (Hnil eq_refl); lia. }
    set (l := b :: bs) in *.
    assert (1 <= zlen l) by (unfold l; rewrite zlen_cons; pose proof (zlen_nonneg bs); lia).
    destruct (IH (n - zlen l) s1) as (rest & stop & s2 & -> & Hpos2 & Hsub2 & Hle2 & Hin2 & Hpl2 & Hrep2 & Hstop).
    { unfold at_file in *. lia. } { lia. }
    pose proof (zlen_nonneg rest).
    exists (l ++ rest), stop, s2. split; [done|]. rewrite zlen_app. split_and!; try lia; try congruence.
    + rewrite <-sub_app by (unfold at_file in Hs; lia). rewrite <-Hpos.
      f_equal; [exact Hsub|exact Hsub2].
    + destruct stop; lia.
  - exists [], (Broken e), s1. change (zlen []) with 0. destruct Hr as (-> & -> & ->).
    split; [done|]. split_and!; done || lia.
Qed.

Lemma fill_keeps n : preserves at_file (fill n).
Proof.
  intros s Hs. unfold fill.
  destruct (fill_cases (S (Z.to_nat n)) n s Hs ltac:(lia)) as (bs & stop & s' & -> & Hp & _).
  split; [|done]. unfold at_file in *. simpl. pose proof (zlen_nonneg bs). lia.
Qed.

Lemma read_keeps n : preserves at_file (read n).
Proof.
  intros s Hs. pose proof (read_cases n s Hs) as Hr.
  destruct (read n s) as [[bs|e| |] s']; try done; unfold at_file in *; simpl;
    (split; [|done]); [|destruct Hr; lia].
  destruct Hr as (-> & _). pose proof (zlen_nonneg bs). lia.
Qed.

Lemma seek_keeps p : 0 <= p → preserves at_file (seek p).
Proof. intros Hp s Hs. unfold seek. by destruct (fault (ops s)). Qed.

Lemma read_exact_keeps n : preserves at_file (read_exact n).
Proof.
  apply preserves_bind; [apply fill_keeps|]. intros [bs []]; auto with rust.
Qed.

Lemma read_up_to_keeps n : preserves at_file (read_up_to n).
Proof. apply preserves_bind; [apply fill_keeps|]. intros [bs []]; auto with rust. Qed.

Lemma read_full_keeps n : preserves at_file (read_full n).
Proof.
  apply preserves_on_err, preserves_bind; [apply fill_keeps|]. intros [bs stop]; auto with rust.
Qed.

Lemma poll_keeps : preserves at_file poll.
Proof. intros s Hs. by split. Qed.

Lemma check_keeps : preserves at_file check.
Proof. apply preserves_bind; [apply poll_keeps|]. intros []; auto with rust. Qed.

(** A successful [read_exact] got the next [n] bytes. *)
Lemma read_exact_Ok n s bs s' : at_file s → 0 <= n → read_exact n s = (Ok bs, s') →
  zlen bs = n ∧ bs = sub file (pos s) n ∧ pos s' = pos s + n ∧ pos s + n <= Z.max (pos s) file_len.
Proof.
  intros Hs Hn. unfold read_exact, fill, mbind, M_bind.
  destruct (fill_cases (S (Z.to_nat n)) n s Hs ltac:(lia))
    as (bs' & stop & s1 & -> & Hp & Hsub & Hle & Hin & _ & _ & Hstop).
  destruct stop; intros [= <- <-]. rewrite Z.max_r in Hstop by lia.
  rewrite <-Hstop. done.
Qed.

Lemma read_up_to_Ok n s bs s' : at_file s → 0 <= n → read_up_to n s = (Ok bs, s') →
  bs = sub file (pos s) (zlen bs) ∧ zlen bs <= n ∧ pos s' = pos s + zlen bs ∧
  (zlen bs < n → file_len <= pos s').
Proof.
  intros Hs Hn. unfold read_up_to, fill, mbind, M_bind.
  destruct (fill_cases (S (Z.to_nat n)) n s Hs ltac:(lia))
    as (bs' & stop & s1 & -> & Hp & Hsub & Hle & Hin & _ & _ & Hstop).
  destruct stop; intros [= <- <-]; split_and!; done || lia.
Qed.

Lemma seek_Ok p s s' : seek p s = (Ok tt, s') → pos s' = p.
Proof. unfold seek. destruct (fault (ops s)); [done|]. by intros [= <-]. Qed.

Lemma read_exact_at_keeps n p : 0 <= p → preserves at_file (read_exact_at n p).
Proof.
  intros Hp s Hs. unfold read_exact_at.
  destruct (read_exact_keeps n (with_pos p s) Hp) as [_ Hr]. by destruct (read_exact n _) as [o s'].
Qed.

Lemma read_exact_at_Ok n p s bs s' : 0 <= p → 0 <= n → read_exact_at n p s = (Ok bs, s') →
  zlen bs = n ∧ bs = sub file p n ∧ pos s' = pos s ∧ p + n <= Z.max p file_len.
Proof.
  intros Hp Hn. unfold read_exact_at. destruct (read_exact n _) as [o s1] eqn:Hr. intros [= -> <-].
  apply read_exact_Ok in Hr as (? & ? & _ & ?); [done|done|done].
Qed.

Lemma check_pos s : pos (check s).2 = pos s.
Proof. unfold check, poll. run_m. by destruct (is_cancelled _). Qed.

(** ** Hashing the whole file *)

Lemma hash_loop_cases fuel hashed s : at_file s → hashed = sub file 0 (pos s) →
  pos s <= file_len → file_len - pos s < Z.of_nat fuel →
  match hash_loop fuel hashed s with
  | (Ok h, s') => h = file
  | (Err e, s') => True
  | _ => False
  end ∧ at_file (hash_loop fuel hashed s).2.
Proof.
  revert hashed s. induction fuel as [|fuel IH]; intros hashed s Hs Hh Hin Hf; [lia|].
  cbn [hash_loop]. unfold on_err, poll, mbind, M_bind. cbn [map_err].
  destruct (is_cancelled (polls s)); [done|].
  set (s0 := mkIo (pos s) (ops s) (S (polls s)) (reported s)).
  pose proof (read_cases HASH_BUFFER s0 Hs) as Hr.
  destruct (read HASH_BUFFER s0) as [[bs|e| |] s1]; try done.
  2: { split; [done|]. unfold at_file in *. simpl. by destruct Hr as (-> & _). }
  destruct Hr as (Hpos & Hsub & _ & Hle & Hnil & _ & _). cbn [map_err]. change (pos s0) with (pos s) in *.
  pose proof (zlen_nonneg bs). unfold at_file in *.
  assert (hashed ++ bs = sub file 0 (pos s1)) as Hnext.
  { rewrite Hh, Hsub, Hpos. rewrite (sub_app file 0 (pos s) (zlen bs)) by lia. done. }
  destruct bs as [|b bs].
  - simpl. split; [|lia]. destruct (Hnil eq_refl) as [Hn|Hn]; [done|].
    rewrite Hh. replace (pos s) with file_len by lia. apply sub_whole.
  - apply IH; unfold at_file; try lia; [done|].
    assert (1 <= zlen (b :: bs)) by (rewrite zlen_cons; pose proof (zlen_nonneg bs); lia). lia.
Qed.

Lemma hash_file_cases s : pos s = 0 →
  match hash_file s with
  | (Ok (h, n), s') => h = sha256_hex file ∧ n = file_len ∧ pos s' = 0
  | (Err f, s') => at_file s' ∧
      (f = error ValidationCancelled (st "validation") (st "hash file: context canceled") ∨
       ∃ text, f = file_error text)
  | _ => False
  end.
Proof.
  intros Hs. unfold hash_file, hash_and_rewind, on_err at 1, mbind, M_bind.
  destruct (hash_loop_cases (S (length file)) [] s) as [Hl Hp];
    [unfold at_file; lia|by rewrite Hs|rewrite Hs; apply zlen_nonneg|
     unfold file_len, zlen; lia|].
  destruct (hash_loop _ [] s) as [[h|[|text]| |] s1]; try done; simpl in *; eauto.
  subst h. unfold on_err, seek. destruct (fault (ops s1)) as [e|]; simpl; eauto.
Qed.

(** the recorded hash is the file's. Hashing ends whatever sizes the reads
    grant; when it succeeds it hashed the whole file, counted its bytes and left
    the position at its start, and it fails only as a cancelled validation or a
    file that could not be read. *)
Theorem hash_file_whole :
  match hash_file io_start with
  | (Ok (h, n), s') => h = sha256_hex file ∧ n = file_len ∧ pos s' = 0
  | (Err f, _) => ∃ c, code <$> first f = Some c ∧ c ∈ [ValidationCancelled; FileRead]
  | _ => False
  end.
Proof.
  pose proof (hash_file_cases io_start eq_refl) as Hc.
  destruct (hash_file io_start) as [[[h n]|f| |] s']; try done.
  destruct Hc as [_ [-> |[text ->]]]; eexists; (split; [done|]); rewrite !elem_of_cons; auto.
Qed.

(** ** Progress *)

Lemma percent_of_spec decoded total encoded_bytes total_bytes complete :
  0 <= decoded <= total → 0 <= encoded_bytes <= total_bytes → total_bytes <= 2 ^ 56 →
  ∃ p, percent_of decoded total encoded_bytes total_bytes complete = Ok p ∧
    0 <= p <= 100 ∧ (p = 100 ↔ complete = true).
Proof.
  intros Hd He Ht. unfold percent_of.
  assert (∃ q, (if 0 <? total then Ok (as_i64 (decoded * 100 / total))
       else if 0 <? total_bytes then
         if encoded_bytes * 100 <=? i64_max then Ok (Z.quot (encoded_bytes * 100) total_bytes)
         else Panic
       else Ok 0) = @Ok Failure Z q ∧ 0 <= q <= 100) as (q & -> & Hq).
  { destruct (Z.ltb_spec 0 total).
    - assert (0 <= decoded * 100 / total <= 100)
        by (split; [apply Z.div_pos; lia|apply Z.div_le_upper_bound; lia]).
      eexists. split; [done|]. rewrite as_i64_id by (unfold is_i64, i64_min, i64_max; lia). done.
    - destruct (Z.ltb_spec 0 total_bytes); [|eexists; split; [done|lia]].
      rewrite (proj2 (Z.leb_le _ _)) by (unfold i64_max; lia).
      eexists. split; [done|]. rewrite Z.quot_div_nonneg by lia.
      split; [apply Z.div_pos; lia|apply Z.div_le_upper_bound; lia]. }
  cbn [mbind outcome_bind]. eexists. split; [done|].
  destruct complete; [lia|]. destruct (Z.leb_spec 100 q); split; lia || (split; [lia|done]).
Qed.

(** progress a client can trust. For counts within their totals no product
    overflows, the percentage stays between 0 and 100, and 100 is reported
    exactly when the inspection says it is complete. *)
Theorem report_percent decoded total encoded_bytes total_bytes complete s :
  0 <= decoded <= total → 0 <= encoded_bytes <= total_bytes → total_bytes <= 2 ^ 56 →
  returns (report decoded total encoded_bytes total_bytes complete s).1 ∧
  match reported (report decoded total encoded_bytes total_bytes complete s).2 with
  | p :: ps => reporter = None ∨
      ps = reported s ∧ decoded_samples p = decoded ∧ total_samples p = total ∧
      0 <= percent p <= 100 ∧ (percent p = 100 ↔ complete = true)
  | [] => reporter = None
  end.
Proof.
  intros Hd He Ht.
  destruct (percent_of_spec decoded total encoded_bytes total_bytes complete Hd He Ht) as (p & Hp & Hr & H100).
  unfold report. destruct reporter as [answer|]; [|split; [done|]; simpl; by destruct (reported s); auto].
  rewrite Hp. destruct (answer _ _); (split; [done|]); right; cbn; tauto.
Qed.

Lemma report_keeps decoded total encoded_bytes total_bytes complete :
  0 <= decoded <= total → 0 <= encoded_bytes <= total_bytes → total_bytes <= 2 ^ 56 →
  preserves at_file (report decoded total encoded_bytes total_bytes complete).
Proof.
  intros Hd He Ht s Hs.
  destruct (percent_of_spec decoded total encoded_bytes total_bytes complete Hd He Ht) as (p & Hp & _).
  unfold report. destruct reporter as [answer|]; [|done].
  rewrite Hp. by destruct (answer _ _).
Qed.

Lemma report_pos decoded total encoded_bytes total_bytes complete s :
  pos (report decoded total encoded_bytes total_bytes complete s).2 = pos s.
Proof.
  unfold report. destruct reporter as [answer|]; [|done].
  destruct (percent_of _ _ _ _ _); try done. by destruct (answer _ _).
Qed.

(** With a known total nothing can overflow. *)
Lemma report_total_keeps decoded total encoded_bytes total_bytes complete : 0 < total →
  preserves at_file (report decoded total encoded_bytes total_bytes complete).
Proof.
  intros Ht s Hs. unfold report. destruct reporter as [answer|]; [|done].
  unfold percent_of. rewrite (proj2 (Z.ltb_lt 0 total)) by lia. cbn [mbind outcome_bind].
  by destruct (answer _ _).
Qed.
End ReadLemmas.

#[export] Hint Resolve read_exact_keeps read_up_to_keeps read_full_keeps read_keeps
  poll_keeps check_keeps : rust.

(** ** Computations that end

    [ends_or C P m]: from a place in the file, [m] ends, again at a place in the
    file, with a failure or a value in [P], and with a panic only if [C];
    [ends P m] is that it ends without a panic. *)

Section Ends.
Context `{World}.

Definition ends_or {E A} (C : Prop) (P : A → Prop) (m : M Io E A) : Prop :=
  ∀ s, at_file s → wp m (λ a s', at_file s' ∧ P a) (λ _, at_file) (λ _, C) s.
End Ends.

(** The average bitrate of positive sizes and times. *)
Lemma average_bitrate_cases {E} encoded duration : 0 < encoded → 0 < duration →
  match @average_bitrate_kbps E encoded duration with
  | Ok n => n = (encoded * 8 + duration / 2) / duration
  | Panic => i64_max < encoded * 8 + duration / 2
  | _ => False
  end.
Proof.
  intros He Hd. unfold average_bitrate_kbps. destruct (_ || _) eqn:Hc; [bool_to_prop; lia|].
  assert (0 <= duration / 2) by (apply Z.div_pos; lia).
  pose proof (mul_i64_cases (E:=E) encoded 8) as Hm.
  destruct (mul_i64 encoded 8) as [m|e| |]; try done; cbn in *; [|unfold i64_min in *; lia].
  destruct Hm as [-> _]. pose proof (add_i64_cases (E:=E) (encoded * 8) (duration / 2)) as Ha.
  destruct (add_i64 _ _) as [m|e| |]; try done; cbn in *; [|unfold i64_min in *; lia]. by destruct Ha as [-> _].
Qed.

Abbreviation ends := (ends_or False).

Section EndsRules.
Context `{World} {C : Prop}.

Lemma ends_ret {E A} (P : A → Prop) a : P a → ends_or C P (mret a : M Io E A).
Proof. intros ? s Hs. by split. Qed.

Lemma ends_fail {E A} (P : A → Prop) e : ends_or C P (fail e : M Io E A).
Proof. intros s Hs. exact Hs. Qed.

Lemma ends_lift {E A} (P : A → Prop) (o : outcome E A) :
  (∀ a, o = Ok a → P a) → returns o → ends_or C P (lift o : M Io E A).
Proof. intros HP Hr s Hs. apply wp_lift. destruct o; try done. split; auto. Qed.

(** A value that may panic. *)
Lemma ends_lift_or {E A} (P : A → Prop) (o : outcome E A) :
  match o with Ok a => P a | Err _ => True | Panic => C | OutOfFuel => False end →
  ends_or C P (lift o : M Io E A).
Proof. intros HP s Hs. apply wp_lift. by destruct o. Qed.

Lemma ends_bind {E A B} (P : A → Prop) (Q : B → Prop) (m : M Io E A) (f : A → M Io E B) :
  ends_or C P m → (∀ a, P a → ends_or C Q (f a)) → ends_or C Q (m ≫= f).
Proof.
  intros Hm Hf s Hs. apply wp_bind. eapply wp_conseq; [by apply Hm|..]; [|done..].
  intros a s' [Hs' Ha]. by apply Hf.
Qed.

Lemma ends_lift_bind {E A B} (Q : B → Prop) (a : A) (f : A → M Io E B) :
  ends_or C Q (f a) → ends_or C Q (lift (Ok a) ≫= f).
Proof. done. Qed.

Lemma ends_panic_bind {E A B} (Q : B → Prop) (f : A → M Io E B) : C → ends_or C Q (lift Panic ≫= f).
Proof. intros HC s _. exact HC. Qed.

Lemma ends_weaken {E A} (P Q : A → Prop) (m : M Io E A) :
  ends_or C P m → (∀ a, P a → Q a) → ends_or C Q m.
Proof. intros Hm HPQ s Hs. eapply wp_conseq; [by apply Hm|..]; [|done..]. intros a s' []. auto. Qed.

(** What ends without a panic ends. *)
Lemma ends_calm {E A} (P : A → Prop) (m : M Io E A) : ends P m → ends_or C P m.
Proof. intros Hm s Hs. by eapply wp_conseq; [by apply Hm|..]. Qed.

Lemma ends_on_err {E F A} (P : A → Prop) (f : E → F) (m : M Io E A) :
  ends_or C P m → ends_or C P (on_err f m).
Proof. intros Hm s Hs. apply wp_on_err. by apply Hm. Qed.

Lemma ends_try {E A} (P : A → Prop) (m : M Io E A) :
  ends_or C P m → ends_or C (λ o, match o with Ok a => P a | Err _ => True | _ => False end) (try m).
Proof. intros Hm s Hs. apply wp_try. eapply wp_conseq; [by apply Hm|..]; done. Qed.

Lemma ends_if {E A} (b : bool) (P : A → Prop) (m n : M Io E A) :
  (b = true → ends_or C P m) → (b = false → ends_or C P n) → ends_or C P (if b then m else n).
Proof. destruct b; auto. Qed.

(** From what [preserves] says and what a successful run did. *)
Lemma ends_keeps {E A} (P : A → Prop) (m : M Io E A) :
  preserves at_file m → (∀ s a s', at_file s → m s = (Ok a, s') → P a) → ends_or C P m.
Proof.
  intros Hm HP s Hs. destruct (Hm s Hs) as [H1 H2]. unfold wp.
  destruct (m s) as [[a|e| |] s'] eqn:E'; try done. split; [done|by apply (HP s a s')].
Qed.

Lemma ends_any {E A} (m : M Io E A) : preserves at_file m → ends_or C (λ _, True) m.
Proof. intros Hm. by apply ends_keeps. Qed.

Lemma ends_preserves {E A} (P : A → Prop) (m : M Io E A) : ends P m → preserves at_file m.
Proof. intros Hm s Hs. specialize (Hm s Hs). unfold wp in Hm. destruct (m s) as [[] s']; try done. by destruct Hm. Qed.

Lemma ends_read_exact_at n p : 0 <= p → 0 <= n →
  ends_or C (λ d, zlen d = n ∧ p + n <= Z.max p file_len) (read_exact_at n p).
Proof.
  intros Hp Hn. apply ends_keeps; [by apply read_exact_at_keeps|]. intros s a s2 Hs Hr.
  apply read_exact_at_Ok in Hr as (? & _ & _ & ?); auto.
Qed.

End EndsRules.

(** ** A concrete world: a file, no faults, nobody cancels *)

Definition plain_world (d : list byte) : World := {|
  file := d; fault := λ _, None; granted := λ _, 4096; is_cancelled := λ _, false;
  reporter := Some (λ _ _, None); sha256_hex := λ l, st "sha256:" ++ (b2z <$> l)
|}.

Lemma report_percent_witness :
  match reported (@report (plain_world []) 5 10 0 0 false io_start).2 with
  | p :: _ => percent p = 50
  | [] => False
  end.
Proof.
  pose proof (@report_percent (plain_world []) 5 10 0 0 false io_start
    ltac:(lia) ltac:(lia) ltac:(lia)) as [_ H].
  destruct (reported _) as [|p ps] eqn:E; [discriminate H|].
  destruct H as [H|(_ & _ & _ & H & _)]; [discriminate H|].
  apply (f_equal (λ l, percent <$> head l)) in E. vm_compute in E. injection E as ->. reflexivity.
Defined.
