(* ===== verification/Metadata.v ===== *)
(** Tag normalization shared by every inspector (inspect/metadata.rs,
    library/genres.rs): what makes a file's tags the title, credits, positions,
    genres and year the library stores, and which failures it reports. *)

From stdpp Require Import gmap.
From S2P Require Import Prelude Text Float64 Failure.

(** Unicode's case mappings and NFC, and the parser of decimal floats. *)
Class Unicode := {
  to_uppercase : Z → list Z;
  to_lowercase : Z → list Z;
  str_to_lowercase : str → str;
  nfc : str → str;
  parse_f64 : str → option f64
}.

Definition MAX_IDENTITY_VALUE_BYTES : Z := 200.
Definition MAX_MEDIA_POSITION : Z := 9999.

(** Raw tag values by upper-case key. *)
Abbreviation Tags := (gmap (list Z) (list (list Z))).

Definition INVALID_UTF8_MARKER : Z := 65534.

Definition tag_string (bytes : list byte) : str :=
  match from_utf8 bytes with
  | Some value => value
  | None => INVALID_UTF8_MARKER :: from_utf8_lossy bytes
  end.

Definition without_marker (value : str) : str :=
  default value (strip_prefix [INVALID_UTF8_MARKER] value).

Definition values_of (tags : Tags) (key : str) : list str := default [] (tags !! key).
Definition has_values (tags : Tags) (key : str) : bool := negb (bool_decide (values_of tags key = [])).

(** ** Identity values *)

Definition is_unsafe_identity_char (c : Z) : bool :=
  is_control c
  || (c =? 0x061C) || (c =? 0x200E) || (c =? 0x200F) || in_range 0x202A 0x202E c
  || in_range 0x2066 0x2069 c || in_range 0xFDD0 0xFDEF c || (Z.land c 0xFFFE =? 0xFFFE).

Record MediaPosition := mkPosition { number : Z; total : Z }.

Record ReplayGain := mkReplayGain {
  track_gain_db : option f64;
  track_peak : option f64;
  album_gain_db : option f64;
  album_peak : option f64
}.

Definition no_replay_gain : ReplayGain := mkReplayGain None None None None.

Record NormalizedMetadata := mkMetadata {
  album_identity_key : str;
  title : str;
  artists : list str;
  album_artists : list str;
  album : str;
  track_position : MediaPosition;
  disc_position : MediaPosition;
  has_disc_number : bool;
  genres : list str;
  year : Z;
  replay_gain : ReplayGain;
  lyrics : str
}.

(** [MediaInspection], what a completed inspection hands the import. *)
Record MediaInspection := mkInspection {
  inspected : NormalizedMetadata;
  album_artwork : AlbumArtwork;
  audio : TechnicalAudio;
  file_sha256 : str
}.

(** [strconv.Quote] for the values that reach error messages. *)
Definition hex_lower (n : Z) : Z := if n <? 10 then 48 + n else 87 + n.
Definition go_quote_char (c : Z) : str :=
  if c =? 34 then [92; 34]
  else if c =? 92 then [92; 92]
  else if c =? 10 then st "\n"
  else if c =? 9 then st "\t"
  else if c =? 13 then st "\r"
  else if (c <? 0x20) || (c =? 0x7f) then st "\x" ++ [hex_lower (c / 16); hex_lower (c mod 16)]
  else [c].
Definition go_quote (value : str) : str := 34 :: (value ≫= go_quote_char) ++ [34].

Definition strip_sign (value : str) : str :=
  match value with
  | c :: d => if (c =? 43) || (c =? 45) then d else value
  | [] => value
  end.

Definition looks_numeric (value : str) : bool :=
  let digits := strip_sign value in negb (bool_decide (digits = [])) && all_digits digits.

Definition atoi (value : str) : option Z :=
  if looks_numeric value then parse_i64 value else None.

Definition atoi_error (value : str) : str :=
  if looks_numeric value then
    st "strconv.Atoi: parsing " ++ go_quote value ++ st ": value out of range"
  else st "strconv.Atoi: parsing " ++ go_quote value ++ st ": invalid syntax".

Definition parse_position (value : str) : outcome str MediaPosition :=
  let parts := split (Z.eqb 47) value in
  if 2 <? zlen parts then Err (st "too many position parts") else
  first ← index parts 0;
  let first := trim first in
  number ← ok_or (atoi first) (atoi_error first);
  if (number <=? 0) || (MAX_MEDIA_POSITION <? number) then
    Err (st "position is outside the supported range")
  else if zlen parts =? 1 then Ok (mkPosition number 0)
  else
    second ← index parts 1;
    let second := trim second in
    if bool_decide (second = []) then Ok (mkPosition number 0)
    else match atoi second with
    | Some total =>
        if (number <=? total) && (total <=? MAX_MEDIA_POSITION) then Ok (mkPosition number total)
        else Err (st "position total is invalid")
    | None => Err (st "position total is invalid")
    end.

Section Normalize.
Context `{Unicode}.

(** [go_upper] and [go_lower]: one character for each character. *)
Definition go_upper (value : str) : str :=
  (λ c, match to_uppercase c with [u] => u | _ => c end) <$> value.
Definition go_lower (value : str) : str := (λ c, default c (head (to_lowercase c))) <$> value.

Definition tag_key (raw : str) : str := go_upper (trim raw).

Definition normalize_value (value : str) : option str :=
  if existsb is_unsafe_identity_char value then None else
  let value := nfc (trim value) in
  if (MAX_IDENTITY_VALUE_BYTES <? str_len value) || existsb is_unsafe_identity_char value
  then None
  else
    let value := join [32] (split_whitespace value) in
    if bool_decide (value = []) then None else Some value.

(** ** ReplayGain *)

Fixpoint trim_signs (s : str) : str :=
  match s with c :: s' => if (c =? 43) || (c =? 45) then trim_signs s' else s | [] => [] end.

Definition go_parse_float (value : str) : option f64 :=
  let lower := trim_signs (ascii_lower <$> value) in
  if bool_decide (lower = st "inf") || bool_decide (lower = st "infinity")
     || bool_decide (lower = st "nan") then None
  else parsed ← parse_f64 value; if is_finite parsed then Some parsed else None.

Definition parse_replay_gain_value (value : str) : option f64 :=
  let value := str_to_lowercase (trim value) in
  go_parse_float (trim (default value (strip_suffix (st "db") value))).

Definition parse_replay_gain_peak (value : str) : option f64 :=
  peak ← parse_replay_gain_value value; if fle (of_Z 0) peak then Some peak else None.

(** [replay_gain_from_strings]: the pairs in the order they arrive; a later
    pair whose key has the same upper case replaces an earlier one. *)
Definition replay_gain_from_strings (raw : list (str * str)) : ReplayGain :=
  let values : gmap str str := foldl (λ m kv, <[go_upper kv.1 := kv.2]> m) ∅ raw in
  let get key := default [] (values !! key) in
  mkReplayGain
    (parse_replay_gain_value (get (st "REPLAYGAIN_TRACK_GAIN")))
    (parse_replay_gain_peak (get (st "REPLAYGAIN_TRACK_PEAK")))
    (parse_replay_gain_value (get (st "REPLAYGAIN_ALBUM_GAIN")))
    (parse_replay_gain_peak (get (st "REPLAYGAIN_ALBUM_PEAK"))).

(** [replay_gain_from_tags] over the map's entries in the order it iterates. *)
Definition replay_gain_from_tags (entries : list (str * list str)) : ReplayGain :=
  replay_gain_from_strings
    (omap (λ kv, (λ v, (kv.1, v)) <$> head kv.2) entries).

(** ** Genres *)

Definition is_genre_delimiter (c : Z) : bool := (c =? 59) || (c =? 47) || (c =? 124) || (c =? 44).

(** Keeps the values whose lower case was not seen yet, in order. *)
Fixpoint keep_new (seen : list str) (l : list str) : list str * list str :=
  match l with
  | [] => ([], seen)
  | g :: l =>
      let key := str_to_lowercase g in
      if bool_decide (key ∈ seen) then keep_new seen l
      else let '(out, seen) := keep_new (key :: seen) l in (g :: out, seen)
  end.

(** [genres::split_genres]. The pattern matches runs of delimiters; splitting at
    each delimiter only adds empty parts, which are dropped either way. *)
Definition split_genres (raw : str) : list str :=
  let raw := trim raw in
  if bool_decide (raw = []) then []
  else (keep_new [] (filter (λ p, p ≠ []) (trim <$> split is_genre_delimiter raw))).1.

Definition split_genre_tag_values (values : list str) : list str :=
  (keep_new [] (values ≫= λ v, split_genres (without_marker v))).1.

(** ** Required and optional tags *)

(** The values of a tag that must be there, or the first failure. *)
Fixpoint normalize_all (key : str) (raw : list str) : outcome Failure (list str) :=
  match raw with
  | [] => Ok []
  | v :: raw =>
      v ← ok_or (normalize_value v)
            (error InvalidMetadata key
               (st "tag is empty, too long, or contains unsafe characters"));
      vs ← normalize_all key raw; Ok (v :: vs)
  end.

Definition required_tags (tags : Tags) (key : str) : outcome Failure (list str) :=
  let raw := values_of tags key in
  if bool_decide (raw = []) then Err (error InvalidMetadata key (st "required tag is missing"))
  else normalize_all key raw.

Definition required_single_tag (tags : Tags) (key : str) : outcome Failure str :=
  values ← required_tags tags key;
  match values with
  | [v] => Ok v
  | _ => Err (error InvalidMetadata key (st "expected exactly one value"))
  end.

Definition required_artist_credits (tags : Tags) (key : str) : outcome Failure (list str) :=
  let plural := key ++ st "S" in
  if bool_decide (is_Some (tags !! plural)) then required_tags tags plural
  else required_tags tags key.

(** [optional_lyrics]: the first non-empty lyrics, with normalized line ends. *)
Definition clean_lyrics (value : str) : str :=
  trim (replace [13] [10] (replace [13; 10] [10] (without_marker value))).
Definition optional_lyrics (tags : Tags) : str :=
  let all := [st "LYRICS"; st "UNSYNCEDLYRICS"; st "UNSYNCED LYRICS"] ≫= values_of tags in
  default [] (head (filter (λ l, l ≠ []) (clean_lyrics <$> all))).

Definition required_position (tags : Tags) (key : str) : outcome Failure MediaPosition :=
  value ← required_single_tag tags key;
  map_err (λ cause, error InvalidMetadata key
             (st "position must be between 1 and " ++ show MAX_MEDIA_POSITION ++
              st " with an optional total: " ++ cause)) (parse_position value).

Definition optional_total (tags : Tags) (key : str) : outcome Failure (option Z) :=
  if negb (has_values tags key) then Ok None else
  value ← required_single_tag tags key;
  let bad := Err (error InvalidMetadata key
               (st "total must be between 1 and " ++ show MAX_MEDIA_POSITION)) in
  match atoi value with
  | Some total => if (0 <? total) && (total <=? MAX_MEDIA_POSITION) then Ok (Some total) else bad
  | None => bad
  end.

Definition merge_position_total (tags : Tags) (position : MediaPosition) (total_key : str)
    : outcome Failure MediaPosition :=
  t ← optional_total tags total_key;
  match t with
  | None => Ok position
  | Some t =>
      if (0 <? total position) && negb (total position =? t) then
        Err (error InvalidMetadata total_key (st "total conflicts with the position tag"))
      else if t <? number position then
        Err (error InvalidMetadata total_key (st "total must not be less than the position"))
      else Ok (mkPosition (number position) t)
  end.

Definition track_position_of (tags : Tags) : outcome Failure MediaPosition :=
  position ← required_position tags (st "TRACKNUMBER");
  merge_position_total tags position (st "TOTALTRACKS").

Definition disc_position_of (tags : Tags) : outcome Failure MediaPosition :=
  let has := has_values tags (st "DISCNUMBER") in
  position ← (if has then required_position tags (st "DISCNUMBER") else Ok (mkPosition 1 0));
  position ← merge_position_total tags position (st "TOTALDISCS");
  if negb has && (1 <? total position) then
    Err (error InvalidMetadata (st "DISCNUMBER") (st "required for a multi-disc Album"))
  else Ok position.

Definition optional_year (tags : Tags) : outcome Failure Z :=
  if negb (has_values tags (st "DATE")) then Ok 0 else
  value ← required_single_tag tags (st "DATE");
  let bad := Err (error InvalidMetadata (st "DATE") (st "date must begin with a four-digit year")) in
  let bytes := encode value in
  if zlen bytes <? 4 then bad else
  prefix ← slice bytes 0 4;
  match from_utf8 prefix with
  | None => bad
  | Some prefix =>
      match atoi prefix with
      | Some year => if 0 <? year then Ok year else bad
      | None => bad
      end
  end.

(** [normalize]: every failure of the seven checks, in their order, or the
    normalized metadata. *)
Definition normalize (tags : Tags) (rg : ReplayGain) : outcome Failure NormalizedMetadata :=
  let title := required_single_tag tags (st "TITLE") in
  let artists := required_artist_credits tags (st "ARTIST") in
  let album_artists := required_artist_credits tags (st "ALBUMARTIST") in
  let album := required_single_tag tags (st "ALBUM") in
  let genres := split_genre_tag_values (values_of tags (st "GENRE")) in
  let track := track_position_of tags in
  let disc := disc_position_of tags in
  let year := optional_year tags in
  let failure := fjoin [err_of title; err_of artists; err_of album_artists; err_of album;
                        err_of track; err_of disc; err_of year] in
  if negb (bool_decide (failure = [])) then Err failure else
  title ← title; artists ← artists; album_artists ← album_artists; album ← album;
  track ← track; disc ← disc; year ← year;
  Ok {|
    album_identity_key := []; title := title; artists := artists;
    album_artists := album_artists; album := album; track_position := track;
    disc_position := disc; has_disc_number := has_values tags (st "DISCNUMBER");
    genres := genres; year := year; replay_gain := rg; lyrics := optional_lyrics tags
  |}.
End Normalize.

(** ** Identity values *)

(** Text fit to identify a Track, credit or Album. *)
Record identity_value (v : str) : Prop := {
  identity_nonempty : v ≠ [];
  identity_short : str_len v <= MAX_IDENTITY_VALUE_BYTES;
  identity_safe : ∀ c, c ∈ v → is_unsafe_identity_char c = false;
  identity_spaces : ∀ c, c ∈ v → is_whitespace c = true → c = 32;
  identity_words : v = join [32] (split_whitespace v)
}.

Lemma index_0 {E A} (x : A) l : @index E A (x :: l) 0 = Ok x.
Proof. done. Qed.
Lemma index_1 {E A} (x y : A) l : @index E A (x :: y :: l) 1 = Ok y.
Proof. done. Qed.

Section NormalizeLemmas.
Context `{Unicode}.

Lemma existsb_false {A} (p : A → bool) (l : list A) x :
  existsb p l = false → x ∈ l → p x = false.
Proof.
  intros Hp Hx. destruct (p x) eqn:Hpx; [|done].
  rewrite <-Hp. symmetry. apply existsb_exists. exists x. by rewrite <-list_elem_of_In.
Qed.

Lemma normalize_value_identity value v : normalize_value value = Some v → identity_value v.
Proof.
  unfold normalize_value. destruct (existsb _ value); [done|].
  set (n := nfc (trim value)). destruct (_ || _) eqn:Hc; [done|].
  destruct (bool_decide (join [32] (split_whitespace n) = [])) eqn:Hv; [done|]. bool_to_prop.
  intros [= <-].
  assert (split_whitespace n ≠ []) as Hne by (intros E; apply Hv; by rewrite E).
  destruct (split_whitespace_join n Hne) as (Hlen & Hstable & Hchars).
  split; [done|lia| | |by rewrite Hstable].
  - intros c [->|[Hin _]]%Hchars; [done|]. by eapply existsb_false.
  - intros c Hin Hw. apply Hchars in Hin as [?|[_ Hf]]; congruence.
Qed.

(** what identifies a Track is clean. Any value [normalize_value] accepts is
    not empty, at most 200 bytes of UTF-8, free of control, bidirectional and
    noncharacter code points, and its only whitespace is one space between two
    words; a value that was not valid UTF-8 in the file, which carries the marker,
    is never accepted. *)
Theorem normalize_value_sound value :
  match normalize_value value with
  | Some v => identity_value v ∧ INVALID_UTF8_MARKER ∉ v
  | None => True
  end.
Proof.
  destruct (normalize_value value) as [v|] eqn:Hv; [|done].
  pose proof (normalize_value_identity value v Hv) as Hid. split; [done|].
  intros Hin. pose proof (identity_safe v Hid _ Hin) as Hs. by vm_compute in Hs.
Qed.

(** ** Positions *)

Definition valid_position (p : MediaPosition) : Prop :=
  1 <= number p <= MAX_MEDIA_POSITION ∧
  (total p = 0 ∨ number p <= total p <= MAX_MEDIA_POSITION).

Lemma parse_position_cases value :
  match parse_position value with
  | Ok p => valid_position p
  | Err _ => True
  | _ => False
  end.
Proof.
  unfold parse_position, valid_position. destruct (Z.ltb_spec 2 (zlen (split (Z.eqb 47) value))); [done|].
  pose proof (split_ne (Z.eqb 47) value) as Hne.
  destruct (split (Z.eqb 47) value) as [|p1 [|p2 ps]]; [done|..];
    rewrite index_0, ?index_1; cbn [mbind outcome_bind].
  - destruct (atoi (trim p1)); cbn [ok_or mbind outcome_bind]; [|done].
    destruct ((_ <=? 0) || _) eqn:Hc; [done|]. bool_to_prop. simpl. unfold MAX_MEDIA_POSITION in *. lia.
  - destruct (atoi (trim p1)); cbn [ok_or mbind outcome_bind]; [|done].
    destruct ((_ <=? 0) || _) eqn:Hc; [done|]. bool_to_prop.
    rewrite !zlen_cons. pose proof (zlen_nonneg ps).
    rewrite (proj2 (Z.eqb_neq _ 1)) by lia. unfold MAX_MEDIA_POSITION in *.
    destruct (bool_decide _); [simpl; lia|]. destruct (atoi (trim p2)); [|done].
    destruct (_ && _) eqn:Hc; [|done]. bool_to_prop. simpl. lia.
Qed.

Lemma trim_show n : 0 <= n → trim (show n) = show n.
Proof.
  intros Hn. apply trim_id. intros c Hc. apply digit_class.
  by eapply all_digits_elem, Hc; apply show_digits.
Qed.

Lemma atoi_show n : 0 <= n <= i64_max → atoi (show n) = Some n.
Proof.
  intros Hn. unfold atoi, looks_numeric.
  assert (strip_sign (show n) = show n) as ->.
  { pose proof (show_digits n ltac:(lia)) as Hd. destruct (show n) as [|c s]; [done|].
    cbn [all_digits forallb] in Hd. apply andb_true_iff in Hd as [Hd _].
    apply digit_class in Hd as [Hd _]. simpl. settle. done. }
  rewrite bool_decide_eq_false_2 by (apply show_not_nil; lia).
  rewrite show_digits by lia. simpl. apply parse_show. unfold is_i64, i64_min. lia.
Qed.

(** track and disc positions. No text makes [parse_position] panic; a
    position it accepts is between 1 and 9999 with a total that is absent or no
    smaller; and every such position, written with or without its total, is read
    back as it is. *)
Theorem parse_position_correct value n t :
  match parse_position value with
  | Ok p => valid_position p
  | Err _ => True
  | _ => False
  end ∧
  (1 <= n <= MAX_MEDIA_POSITION → parse_position (show n) = Ok (mkPosition n 0) ∧
   (n <= t <= MAX_MEDIA_POSITION →
      parse_position (show n ++ 47 :: show t) = Ok (mkPosition n t))).
Proof.
  split; [apply parse_position_cases|]. unfold MAX_MEDIA_POSITION. intros Hn.
  assert (∀ m c, 0 <= m → c ∈ show m → (47 =? c) = false) as Hslash.
  { intros m c Hm Hc. apply Z.eqb_neq. intros <-. by apply (show_not_elem m 47). }
  unfold parse_position, MAX_MEDIA_POSITION. split.
  - rewrite split_no by (intros c; apply Hslash; lia).
    rewrite index_0. cbn [mbind outcome_bind].
    rewrite trim_show, atoi_show by (unfold i64_max; lia). cbn [ok_or mbind outcome_bind]. by settle.
  - intros Ht. rewrite split_app by (done || (intros c; apply Hslash; lia)).
    rewrite split_no by (intros c; apply Hslash; lia).
    rewrite index_0, index_1. cbn [mbind outcome_bind].
    rewrite (trim_show n), (atoi_show n) by (unfold i64_max; lia).
    cbn [ok_or mbind outcome_bind]. settle.
    change (zlen [show n; show t]) with 2. cbn [Z.ltb Z.eqb Z.compare Pos.compare Pos.compare_cont Pos.eqb].
    rewrite (trim_show t), bool_decide_eq_false_2 by (try apply show_not_nil; lia).
    rewrite (atoi_show t) by (unfold i64_max; lia). by settle.
Qed.

(** ** The seven checks *)

(** A check of the tags [keys]: its value satisfies [P], or it fails with one
    invalid-metadata error about one of them. *)
Definition checks {A} (keys : list str) (P : A → Prop) (o : outcome Failure A) : Prop :=
  match o with
  | Ok a => P a
  | Err f => ∃ key m, key ∈ keys ∧ f = error InvalidMetadata key m
  | _ => False
  end.

Lemma checks_bind {A B} keys P Q (o : outcome Failure A) (f : A → outcome Failure B) :
  checks keys P o → (∀ a, P a → checks keys Q (f a)) → checks keys Q (o ≫= f).
Proof. destruct o; simpl; auto. Qed.

Lemma checks_weaken {A} keys keys' (P Q : A → Prop) o :
  checks keys P o → (∀ k, k ∈ keys → k ∈ keys') → (∀ a, P a → Q a) → checks keys' Q o.
Proof. destruct o; simpl; auto. intros (k & m & ? & ?) Hk _. exists k, m. auto. Qed.

Lemma checks_err {A} (P : A → Prop) keys key m : key ∈ keys →
  checks keys P (Err (error InvalidMetadata key m)).
Proof. intros. by exists key, m. Qed.

Lemma normalize_all_checks key raw :
  checks [key] (λ vs, Forall identity_value vs ∧ length vs = length raw) (normalize_all key raw).
Proof.
  induction raw as [|v raw IH]; [done|]. cbn [normalize_all].
  destruct (normalize_value v) as [n|] eqn:Hv; [|apply checks_err; by left].
  cbn [ok_or mbind outcome_bind]. eapply checks_bind; [exact IH|].
  intros vs [Hvs Hlen]. split; [|simpl; lia]. constructor; [by eapply normalize_value_identity|done].
Qed.

Lemma required_tags_checks tags key :
  checks [key] (λ vs, vs ≠ [] ∧ Forall identity_value vs) (required_tags tags key).
Proof.
  unfold required_tags. case_bool_decide as Hr; [apply checks_err; by left|].
  eapply checks_weaken; [apply normalize_all_checks|done|]. intros vs [Hvs Hlen].
  split; [|done]. intros ->. by destruct (values_of tags key).
Qed.

Lemma required_single_tag_checks tags key :
  checks [key] identity_value (required_single_tag tags key).
Proof.
  unfold required_single_tag. eapply checks_bind; [apply required_tags_checks|].
  intros [|v [|w vs]] [Hne Hvs]; try (apply checks_err; by left). by inversion Hvs.
Qed.

Lemma required_artist_credits_checks tags key :
  checks [key; key ++ st "S"] (λ vs, vs ≠ [] ∧ Forall identity_value vs)
    (required_artist_credits tags key).
Proof.
  unfold required_artist_credits.
  case_bool_decide; (eapply checks_weaken; [apply required_tags_checks| |done]);
    intros k ->%list_elem_of_singleton; rewrite !elem_of_cons; auto.
Qed.

Lemma required_position_checks tags key :
  checks [key] valid_position (required_position tags key).
Proof.
  unfold required_position. eapply checks_bind; [apply required_single_tag_checks|].
  intros v _. pose proof (parse_position_cases v) as Hp.
  destruct (parse_position v); try done. apply checks_err. by left.
Qed.

Lemma merge_position_total_checks tags p key : valid_position p →
  checks [key] (λ p', valid_position p' ∧ number p' = number p ∧
                      (total p' = total p ∨ total p = 0)) (merge_position_total tags p key).
Proof.
  intros Hp. unfold merge_position_total. eapply (checks_bind _
    (λ t, match t with Some t => 1 <= t <= MAX_MEDIA_POSITION | None => True end)).
  - unfold optional_total. destruct (negb _); [done|].
    eapply checks_bind; [apply required_single_tag_checks|]. intros v _.
    destruct (atoi v) as [t|]; [|apply checks_err; by left].
    destruct (_ && _) eqn:Hc; [|apply checks_err; by left]. bool_to_prop. simpl. lia.
  - intros [t|] Ht; [|simpl; auto].
    destruct (_ && _) eqn:Hc; [apply checks_err; by left|].
    destruct (t <? number p) eqn:Hlt; [apply checks_err; by left|]. bool_to_prop.
    unfold valid_position in *. simpl. split_and!; try lia.
Qed.

Lemma track_position_checks tags :
  checks [st "TRACKNUMBER"; st "TOTALTRACKS"] valid_position (track_position_of tags).
Proof.
  unfold track_position_of. eapply checks_bind.
  - eapply checks_weaken; [apply required_position_checks| |done].
    intros k ->%list_elem_of_singleton. by left.
  - intros p Hp. eapply checks_weaken; [by apply merge_position_total_checks| |by intros q (? & _)].
    intros k ->%list_elem_of_singleton. rewrite !elem_of_cons. auto.
Qed.

Lemma disc_position_checks tags :
  checks [st "DISCNUMBER"; st "TOTALDISCS"]
    (λ p, valid_position p ∧
       (has_values tags (st "DISCNUMBER") = false → number p = 1 ∧ total p <= 1))
    (disc_position_of tags).
Proof.
  unfold disc_position_of. eapply (checks_bind _ (λ p, valid_position p ∧
    (has_values tags (st "DISCNUMBER") = false → number p = 1))).
  { destruct (has_values tags (st "DISCNUMBER")) eqn:Hh.
    - eapply checks_weaken; [apply required_position_checks| |done].
      intros k ->%list_elem_of_singleton. by left.
    - unfold valid_position, MAX_MEDIA_POSITION. simpl. split; [lia|done]. }
  intros p [Hp Hone]. eapply checks_bind.
  { eapply checks_weaken; [by apply merge_position_total_checks| |].
    - intros k ->%list_elem_of_singleton. rewrite !elem_of_cons. auto.
    - intros q Hq. exact Hq. }
  intros q (Hq & Hn & _). destruct (_ && _) eqn:Hc; [apply checks_err; by left|].
  split; [done|]. intros Hh. rewrite Hh in Hc. bool_to_prop.
  rewrite Hn. split; [by apply Hone|]. destruct Hc as [Hc|Hc]; bool_to_prop; [done|lia].
Qed.

Lemma zlen_take {A} (l : list A) n : 0 <= n → zlen (take (Z.to_nat n) l) <= n.
Proof. intros. unfold zlen. rewrite length_take. lia. Qed.

Lemma optional_year_checks tags : checks [st "DATE"] (λ y, 0 <= y) (optional_year tags).
Proof.
  unfold optional_year. destruct (negb _); [simpl; lia|].
  eapply checks_bind; [apply required_single_tag_checks|]. intros v _.
  destruct (Z.ltb_spec (zlen (encode v)) 4); [apply checks_err; by left|].
  rewrite slice_in by lia. cbn [mbind outcome_bind].
  destruct (from_utf8 _) as [p|]; [|apply checks_err; by left].
  destruct (atoi p) as [y|]; [|apply checks_err; by left].
  destruct (Z.ltb_spec 0 y); [simpl; lia|apply checks_err; by left].
Qed.

(** ** Genres *)

Lemma keep_new_spec seen l : ∀ out seen', keep_new seen l = (out, seen') →
  NoDup (str_to_lowercase <$> out) ∧
  (∀ g, g ∈ out → g ∈ l ∧ str_to_lowercase g ∉ seen) ∧
  (∀ g, g ∈ l → str_to_lowercase g ∈ seen ∨ str_to_lowercase g ∈ str_to_lowercase <$> out).
Proof.
  revert seen. induction l as [|g l IH]; intros seen out seen' Hk; cbn [keep_new] in Hk.
  { simplify_eq. split_and!; [constructor|by intros ? ?%not_elem_of_nil..]. }
  case_bool_decide as Hs.
  - destruct (IH _ _ _ Hk) as (H1 & H2 & H3). split_and!; [done| |].
    + intros x Hx. destruct (H2 x Hx). split; [by right|done].
    + intros x [->|Hx]%elem_of_cons; [by left|by apply H3].
  - destruct (keep_new (str_to_lowercase g :: seen) l) as [out1 seen1] eqn:Hk1. simplify_eq.
    destruct (IH _ _ _ Hk1) as (H1 & H2 & H3). split_and!.
    + rewrite fmap_cons. constructor; [|done].
      intros (x & Hx & Hin)%list_elem_of_fmap. destruct (H2 x Hin) as [_ Hn].
      apply Hn. rewrite Hx. by left.
    + intros x [->|Hx]%elem_of_cons; [split; [by left|done]|].
      destruct (H2 x Hx) as [? Hn]. split; [by right|]. intros ?. apply Hn. by right.
    + intros x [->|Hx]%elem_of_cons; [right; rewrite fmap_cons; by left|].
      rewrite fmap_cons, elem_of_cons.
      destruct (H3 x Hx) as [[->|?]%elem_of_cons|?]; auto.
Qed.

(** The parts of a genre value that are genres. *)
Definition genre_parts (value : str) : list str :=
  filter (λ p, p ≠ []) (trim <$> split is_genre_delimiter (trim (without_marker value))).

Lemma split_genres_spec value :
  (∀ g, g ∈ split_genres (without_marker value) → g ∈ genre_parts value) ∧
  (∀ g, g ∈ genre_parts value → ∃ g', g' ∈ split_genres (without_marker value) ∧
     str_to_lowercase g' = str_to_lowercase g).
Proof.
  unfold split_genres, genre_parts. case_bool_decide as He.
  - rewrite He. split; [by intros ? ?%not_elem_of_nil|].
    intros g [Hg Hin]%list_elem_of_filter. cbn in Hin. by apply list_elem_of_singleton in Hin.
  - set (parts := filter _ _). destruct (keep_new [] parts) as [out seen] eqn:Hk.
    destruct (keep_new_spec _ _ _ _ Hk) as (H1 & H2 & H3). simpl. split.
    + intros g Hg. by apply H2.
    + intros g Hg. destruct (H3 g Hg) as [[]%not_elem_of_nil|(g' & E & Hin)%list_elem_of_fmap].
      by exists g'.
Qed.

Lemma split_genre_tag_values_nodup (values : list str) :
  NoDup (str_to_lowercase <$> split_genre_tag_values values).
Proof.
  unfold split_genre_tag_values. destruct (keep_new [] _) as [out seen] eqn:Hk.
  by destruct (keep_new_spec _ _ _ _ Hk).
Qed.

(** genres. The stored genres are parts of the tag's values between the
    delimiters, trimmed and not empty; no two differ only by case; and every
    part of every value is among them up to case. *)
Theorem split_genre_tag_values_spec (values : list str) :
  NoDup (str_to_lowercase <$> split_genre_tag_values values) ∧
  (∀ g, g ∈ split_genre_tag_values values → g ≠ [] ∧ ∃ v, v ∈ values ∧ g ∈ genre_parts v) ∧
  (∀ v g, v ∈ values → g ∈ genre_parts v →
     str_to_lowercase g ∈ str_to_lowercase <$> split_genre_tag_values values).
Proof.
  unfold split_genre_tag_values. set (all := values ≫= _).
  destruct (keep_new [] all) as [out seen] eqn:Hk.
  destruct (keep_new_spec _ _ _ _ Hk) as (H1 & H2 & H3). simpl. split_and!; [done| |].
  - intros g Hg. destruct (H2 g Hg) as [(v & Hin & Hv)%list_elem_of_bind _].
    apply split_genres_spec in Hin. split; [|by exists v].
    by apply list_elem_of_filter in Hin as [? _].
  - intros v g Hv Hg. destruct (split_genres_spec v) as [_ Hs].
    destruct (Hs g Hg) as (g' & Hin & <-).
    destruct (H3 g') as [[]%not_elem_of_nil|?]; [|done].
    apply list_elem_of_bind. by exists v.
Qed.

(** ** [normalize] *)

Definition IDENTITY_FIELDS : list str := [
  st "TITLE"; st "ARTIST"; st "ARTISTS"; st "ALBUMARTIST"; st "ALBUMARTISTS"; st "ALBUM";
  st "TRACKNUMBER"; st "TOTALTRACKS"; st "DISCNUMBER"; st "TOTALDISCS"; st "DATE"
].

(** Metadata the library can store. *)
Record well_formed (tags : Tags) (m : NormalizedMetadata) : Prop := {
  wf_title : identity_value (title m);
  wf_album : identity_value (album m);
  wf_artists : artists m ≠ [] ∧ Forall identity_value (artists m);
  wf_album_artists : album_artists m ≠ [] ∧ Forall identity_value (album_artists m);
  wf_track : valid_position (track_position m);
  wf_disc : valid_position (disc_position m);
  wf_single_disc : has_disc_number m = false → number (disc_position m) = 1 ∧
                                               total (disc_position m) <= 1;
  wf_year : 0 <= year m;
  wf_genres : NoDup (str_to_lowercase <$> genres m)
}.

Definition identity_failure (l : Leaf) : Prop :=
  ∃ e, l = Inspection e ∧ code e = InvalidMetadata ∧ field e ∈ IDENTITY_FIELDS.

Lemma checks_failure {A} keys (P : A → Prop) o f :
  checks keys P o → bool_decide (Forall (λ k, k ∈ IDENTITY_FIELDS) keys) = true →
  err_of o = Some f →
  f ≠ [] ∧ Forall identity_failure f.
Proof.
  rewrite bool_decide_eq_true, Forall_forall.
  destruct o as [a|e| |]; simpl; try done. intros (k & m & Hk & ->) Hin [= <-].
  split; [done|]. constructor; [|constructor]. eexists. split; [done|]. by split; [|apply Hin].
Qed.

Lemma checks_Ok {A} keys (P : A → Prop) o : checks keys P o → default [] (err_of o) = [] →
  ∃ a, o = Ok a ∧ P a.
Proof.
  destruct o as [a|e| |]; simpl; try done; eauto. by intros (k & m & _ & ->).
Qed.

Lemma normalize_cases tags rg :
  match normalize tags rg with
  | Ok m => well_formed tags m ∧ replay_gain m = rg
  | Err f => f ≠ [] ∧ Forall identity_failure f
  | _ => False
  end.
Proof.
  pose proof (required_single_tag_checks tags (st "TITLE")) as C1.
  pose proof (required_artist_credits_checks tags (st "ARTIST")) as C2.
  pose proof (required_artist_credits_checks tags (st "ALBUMARTIST")) as C3.
  pose proof (required_single_tag_checks tags (st "ALBUM")) as C4.
  pose proof (track_position_checks tags) as C5.
  pose proof (disc_position_checks tags) as C6.
  pose proof (optional_year_checks tags) as C7.
  unfold normalize. set (failure := fjoin _). case_bool_decide as Hf; cbn [negb].
  - assert (Forall (λ p, default [] p = []) [err_of (required_single_tag tags (st "TITLE"));
      err_of (required_artist_credits tags (st "ARTIST"));
      err_of (required_artist_credits tags (st "ALBUMARTIST"));
      err_of (required_single_tag tags (st "ALBUM")); err_of (track_position_of tags);
      err_of (disc_position_of tags); err_of (optional_year tags)]) as Hall
      by (by apply fjoin_nil_iff).
    repeat (apply Forall_cons in Hall as [?E Hall]).
    apply (checks_Ok _ _ _ C1) in E as (ti & -> & ?).
    apply (checks_Ok _ _ _ C2) in E0 as (ar & -> & ?).
    apply (checks_Ok _ _ _ C3) in E1 as (aa & -> & ?).
    apply (checks_Ok _ _ _ C4) in E2 as (al & -> & ?).
    apply (checks_Ok _ _ _ C5) in E3 as (tr & -> & ?).
    apply (checks_Ok _ _ _ C6) in E4 as (di & -> & ? & ?).
    apply (checks_Ok _ _ _ C7) in E5 as (ye & -> & ?).
    cbn [mbind outcome_bind]. split; [|done]. split; try done.
    apply split_genre_tag_values_nodup.
  - split; [done|]. unfold failure. rewrite !fjoin_cons. repeat apply Forall_app_2; [..|done].
    all: match goal with |- Forall _ (default [] (err_of ?o)) =>
           destruct (err_of o) eqn:Ho; [|constructor]; simpl end.
    + by apply (checks_failure _ _ _ _ C1).
    + by apply (checks_failure _ _ _ _ C2).
    + by apply (checks_failure _ _ _ _ C3).
    + by apply (checks_failure _ _ _ _ C4).
    + by apply (checks_failure _ _ _ _ C5).
    + by apply (checks_failure _ _ _ _ C6).
    + by apply (checks_failure _ _ _ _ C7).
Qed.
(** C33: normalization is total and strict. On any tags it ends either with
    metadata the library can store (clean title, Album and credits, positions in
    range with consistent totals, a single disc when none is numbered, no genre
    twice), made of what its seven checks accepted, or with a non-empty list of
    failures, each an invalid-metadata error about one identity field. *)
Theorem normalize_correct tags rg :
  match normalize tags rg with
  | Ok m => well_formed tags m ∧ replay_gain m = rg ∧
      required_single_tag tags (st "TITLE") = Ok (title m) ∧
      required_artist_credits tags (st "ARTIST") = Ok (artists m) ∧
      required_artist_credits tags (st "ALBUMARTIST") = Ok (album_artists m) ∧
      required_single_tag tags (st "ALBUM") = Ok (album m) ∧
      track_position_of tags = Ok (track_position m) ∧
      disc_position_of tags = Ok (disc_position m) ∧ optional_year tags = Ok (year m)
  | Err f => f ≠ [] ∧ Forall identity_failure f
  | _ => False
  end.
Proof.
  pose proof (normalize_cases tags rg) as Hc.
  destruct (normalize tags rg) as [m|f| |] eqn:Hn; try done.
  destruct Hc as [Hw Hr]. split; [done|]. split; [done|].
  unfold normalize in Hn. destruct (negb _); [done|]. peel_binds. simpl. by split_and!.
Qed.
End NormalizeLemmas.

(** A date that begins with a sign and three digits is accepted as a year. *)
Lemma signed_year `{Unicode} tags :
  required_single_tag tags (st "DATE") = Ok (st "+123") → has_values tags (st "DATE") = true →
  optional_year tags = Ok 123.
Proof. intros Hs Hh. unfold optional_year. rewrite Hh, Hs. vm_compute. reflexivity. Qed.

(** Upper and lower case of ASCII, for evaluation. *)
Definition ascii_upper (c : Z) : Z := if in_range 97 122 c then c - 32 else c.
Definition ascii_unicode : Unicode := {|
  to_uppercase := λ c, [ascii_upper c]; to_lowercase := λ c, [ascii_lower c];
  str_to_lowercase := fmap ascii_lower; nfc := λ s, s;
  parse_f64 := λ s, of_Z <$> parse_i64 s
|}.

Lemma parse_position_correct_witness :
  parse_position (show 3) = Ok (mkPosition 3 0) ∧
  parse_position (st "3/12") = Ok (mkPosition 3 12).
Proof.
  destruct (parse_position_correct [] 3 12) as [_ Hp].
  destruct (Hp ltac:(unfold MAX_MEDIA_POSITION; lia)) as [H1 H2]. split; [exact H1|].
  exact (H2 ltac:(unfold MAX_MEDIA_POSITION; lia)).
Defined.

Lemma split_genre_tag_values_spec_witness :
  @split_genre_tag_values ascii_unicode [st "Rock; pop"; st "POP/Jazz"] = [st "Rock"; st "pop"; st "Jazz"] ∧
  st "jazz" ∈ @str_to_lowercase ascii_unicode <$>
    @split_genre_tag_values ascii_unicode [st "Rock; pop"; st "POP/Jazz"].
Proof.
  split; [vm_compute; reflexivity|].
  destruct (@split_genre_tag_values_spec ascii_unicode [st "Rock; pop"; st "POP/Jazz"]) as (_ & _ & H).
  apply (H (st "POP/Jazz") (st "Jazz")).
  - apply elem_of_cons. right. apply elem_of_cons. by left.
  - vm_compute. apply elem_of_cons. right. apply elem_of_cons. by left.
Defined.
