(* ===== verification/Artwork.v ===== *)
(** Embedded and uploaded artwork (inspect/artwork.rs): the format the bytes
    have, the walks that look for animation, and the checks in their order. The
    image crate that reads dimensions and decodes, and SHA-256, are parameters. *)

From S2P Require Import Prelude Text Failure.

Class Images := {
  dimensions : str → list byte → outcome str (Z * Z);
  decode_image : str → list byte → outcome str unit;
  digest_hex : list byte → str
}.

Definition MAX_ARTWORK_SIZE_BYTES : Z := 20 * 1024 * 1024.
Definition MAX_ARTWORK_PIXELS : Z := 50000000.
Definition JPEG_SIGNATURE : list byte := [xff; xd8; xff].
Definition PNG_SIGNATURE : list byte := [x89; x50; x4e; x47; x0d; x0a; x1a; x0a].
Definition FORMATS_DIFFER : str :=
  st "declared and detected image formats differ or are unsupported".

Inductive ArtworkFormat := Jpeg | Png | WebP.

Definition mime_of (f : ArtworkFormat) : str :=
  match f with
  | Jpeg => st "image/jpeg"
  | Png => st "image/png"
  | WebP => st "image/webp"
  end.

(** [<[u8]>::starts_with]. *)
Definition bytes_prefix (pre d : list byte) : bool := bool_decide (take (length pre) d = pre).

Definition detect_format (d : list byte) : outcome Failure (option ArtworkFormat) :=
  if bytes_prefix JPEG_SIGNATURE d then Ok (Some Jpeg)
  else if bytes_prefix PNG_SIGNATURE d then Ok (Some Png)
  else if 12 <=? zlen d then
    riff ← slice d 0 4; webp ← slice d 8 12;
    Ok (if bool_decide (riff = bs "RIFF") && bool_decide (webp = bs "WEBP")
        then Some WebP else None)
  else Ok None.

(** The walk over PNG chunks; every chunk takes at least 12 bytes. *)
Fixpoint png_loop (fuel : nat) (d : list byte) (offset : Z) : outcome Failure bool :=
  match fuel with
  | O => OutOfFuel
  | S fuel =>
      if zlen d <? offset + 12 then Ok false else
      size ← slice d offset (offset + 4);
      let length := be size in
      if zlen d - offset - 12 <? length then Ok false else
      name ← slice d (offset + 4) (offset + 8);
      if bool_decide (name = bs "acTL") then Ok true
      else png_loop fuel d (offset + (12 + length))
  end.
Definition has_png_animation_chunk (d : list byte) : outcome Failure bool :=
  png_loop (S (length d)) d (zlen PNG_SIGNATURE).

(** The walk over WebP chunks, padded to even sizes. *)
Fixpoint webp_loop (fuel : nat) (d : list byte) (offset : Z) : outcome Failure bool :=
  match fuel with
  | O => OutOfFuel
  | S fuel =>
      if zlen d <? offset + 8 then Ok false else
      size ← slice d (offset + 4) (offset + 8);
      let length := le size in
      let data_offset := offset + 8 in
      if zlen d - data_offset <? length then Ok false else
      chunk ← slice d offset (offset + 4);
      flagged ← (if bool_decide (chunk = bs "VP8X") && (0 <? length) then
                   b ← index d data_offset; Ok (negb (Z.land (b2z b) 2 =? 0))
                 else Ok false);
      if bool_decide (chunk = bs "ANIM") || bool_decide (chunk = bs "ANMF") || flagged
      then Ok true
      else webp_loop fuel d (data_offset + length + length mod 2)
  end.
Definition has_webp_animation (d : list byte) : outcome Failure bool :=
  webp_loop (S (length d)) d 12.

Definition is_animated (f : ArtworkFormat) (d : list byte) : outcome Failure bool :=
  match f with
  | Jpeg => Ok false
  | Png => has_png_animation_chunk d
  | WebP => has_webp_animation d
  end.

Definition invalid (m : str) : Failure := error InvalidArtwork (st "artwork") m.

Section Validate.
Context `{Images}.

Definition validate (mime : str) (d : list byte) : outcome Failure AlbumArtwork :=
  if (zlen d =? 0) || (MAX_ARTWORK_SIZE_BYTES <? zlen d) then
    Err (invalid (st "encoded artwork size is invalid"))
  else
    detected ← detect_format d;
    match detected with
    | Some f =>
        if negb (bool_decide (mime_of f = mime)) then Err (invalid FORMATS_DIFFER) else
        animated ← is_animated f d;
        if animated : bool then Err (invalid (st "animated artwork is not supported")) else
        '(w, h) ← map_err (λ c, invalid (st "decode image config: " ++ c)) (dimensions (mime_of f) d);
        if (w =? 0) || (h =? 0) || (MAX_ARTWORK_PIXELS <? w * h) then
          Err (invalid (st "decoded artwork dimensions are invalid"))
        else
          _ ← map_err (λ c, invalid (st "decode image: " ++ c)) (decode_image (mime_of f) d);
          Ok (mkArtwork [] (mime_of f) w h d (digest_hex d))
    | None => Err (invalid FORMATS_DIFFER)
    end.

Definition validate_uploaded (d : list byte) : outcome Failure AlbumArtwork :=
  detected ← detect_format d;
  match detected with
  | Some Jpeg => validate (mime_of Jpeg) d
  | Some Png => validate (mime_of Png) d
  | _ => Err (invalid (st "uploaded artwork must be JPEG or PNG"))
  end.
End Validate.

(** ** The walks end inside the image *)

Lemma detect_format_total d : ∃ o, detect_format d = Ok o.
Proof.
  unfold detect_format. destruct (bytes_prefix JPEG_SIGNATURE d); [eauto|].
  destruct (bytes_prefix PNG_SIGNATURE d); [eauto|].
  destruct (Z.leb_spec 12 (zlen d)); [|eauto]. rewrite !slice_in by lia. eauto.
Qed.

Lemma detect_format_returns d : returns (detect_format d).
Proof. by destruct (detect_format_total d) as [o ->]. Qed.

(** The chunks of a PNG from [offset] on, as the format lays them out: a chunk
    lies inside the image, and the next one follows its checksum. *)
Inductive png_chunk (d : list byte) : Z → Z → list byte → Prop :=
| png_here offset :
    offset + 12 <= zlen d → be (sub d offset 4) <= zlen d - offset - 12 →
    png_chunk d offset offset (sub d (offset + 4) 4)
| png_later offset at_ name :
    offset + 12 <= zlen d → be (sub d offset 4) <= zlen d - offset - 12 →
    png_chunk d (offset + (12 + be (sub d offset 4))) at_ name → png_chunk d offset at_ name.

Lemma png_loop_spec fuel d offset : 0 <= offset → (0 < fuel)%nat → zlen d - offset < Z.of_nat fuel →
  ∃ b, png_loop fuel d offset = Ok b ∧
    (b = true ↔ ∃ at_, png_chunk d offset at_ (bs "acTL")).
Proof.
  revert offset. induction fuel as [|fuel IH]; intros offset H0 Hpos Hf; [lia|]; cbn [png_loop].
  destruct (Z.ltb_spec (zlen d) (offset + 12)).
  { exists false. split; [done|]. split; [done|]. intros [at_ Hc]. inversion Hc; subst; lia. }
  rewrite (slice_in d offset (offset + 4)) by lia. cbn [mbind outcome_bind]. replace (offset + 4 - offset) with 4 by lia.
  pose proof (be_bound (sub d offset 4)) as [Hbe _].
  destruct (Z.ltb_spec (zlen d - offset - 12) (be (sub d offset 4))).
  { exists false. split; [done|]. split; [done|]. intros [at_ Hc]. inversion Hc; subst; lia. }
  rewrite (slice_in d (offset + 4) (offset + 8)) by lia. cbn [mbind outcome_bind].
  replace (offset + 8 - (offset + 4)) with 4 by lia.
  case_bool_decide as Hn.
  - exists true. split; [done|]. split; [|done]. intros _. exists offset. rewrite <-Hn.
    by constructor.
  - destruct (IH (offset + (12 + be (sub d offset 4)))) as (b & -> & Hb); [lia..|].
    exists b. split; [done|]. rewrite Hb. split; intros [at_ Hc]; exists at_.
    + by apply png_later.
    + inversion Hc; subst; [congruence|done].
Qed.

Inductive webp_chunk (d : list byte) : Z → Z → Z → list byte → Prop :=
| webp_here offset :
    offset + 8 <= zlen d → le (sub d (offset + 4) 4) <= zlen d - (offset + 8) →
    webp_chunk d offset (offset + 8) (le (sub d (offset + 4) 4)) (sub d offset 4)
| webp_later offset at_ n name :
    offset + 8 <= zlen d → le (sub d (offset + 4) 4) <= zlen d - (offset + 8) →
    webp_chunk d (offset + 8 + le (sub d (offset + 4) 4) + le (sub d (offset + 4) 4) mod 2)
      at_ n name →
    webp_chunk d offset at_ n name.

(** A chunk that makes a WebP animated: a frame or its parameters, or the
    extended header with the animation flag. *)
Definition animates (d : list byte) (at_ n : Z) (name : list byte) : Prop :=
  name = bs "ANIM" ∨ name = bs "ANMF" ∨
  name = bs "VP8X" ∧ 0 < n ∧ ∃ b, d !! Z.to_nat at_ = Some b ∧ Z.land (b2z b) 2 ≠ 0.

Lemma webp_loop_spec fuel d offset : 0 <= offset → (0 < fuel)%nat → zlen d - offset < Z.of_nat fuel →
  ∃ b, webp_loop fuel d offset = Ok b ∧
    (b = true ↔ ∃ at_ n name, webp_chunk d offset at_ n name ∧ animates d at_ n name).
Proof.
  revert offset. induction fuel as [|fuel IH]; intros offset H0 Hpos Hf; [lia|]; cbn [webp_loop].
  destruct (Z.ltb_spec (zlen d) (offset + 8)).
  { exists false. split; [done|]. split; [done|]. intros (at_ & n & name & Hc & _). inversion Hc; subst; lia. }
  rewrite (slice_in d (offset + 4) (offset + 8)) by lia. cbn [mbind outcome_bind]. replace (offset + 8 - (offset + 4)) with 4 by lia.
  pose proof (le_bound (sub d (offset + 4) 4)) as [Hle _]. set (n := le (sub d (offset + 4) 4)) in *.
  destruct (Z.ltb_spec (zlen d - (offset + 8)) n).
  { exists false. split; [done|]. split; [done|]. intros (at_ & m & name & Hc & _). inversion Hc; subst; lia. }
  rewrite (slice_in d offset (offset + 4)) by lia. cbn [mbind outcome_bind]. replace (offset + 4 - offset) with 4 by lia.
  set (name := sub d offset 4) in *.
  assert (∃ flagged, (if bool_decide (name = bs "VP8X") && (0 <? n) then
      b ← index d (offset + 8); Ok (negb (Z.land (b2z b) 2 =? 0)) else Ok false) = @Ok Failure bool flagged ∧
      (bool_decide (name = bs "ANIM") || bool_decide (name = bs "ANMF") || flagged = true ↔
       animates d (offset + 8) n name)) as (flagged & -> & Hfl).
  { unfold animates. destruct (bool_decide (name = bs "VP8X")) eqn:Hv; [destruct (Z.ltb_spec 0 n)|];
      cbn [andb].
    - destruct (@index_in Failure _ d (offset + 8)) as (b & -> & Hb); [lia..|].
      cbn [mbind outcome_bind]. eexists. split; [done|]. bool_to_prop.
      rewrite !orb_true_iff, !bool_decide_eq_true, negb_true_iff, Z.eqb_neq. split.
      + intros [[?|?]|?]; eauto 8.
      + intros [?|[?|(_ & _ & b' & Hb' & ?)]]; [auto..|]. simplify_eq. auto.
    - eexists. split; [done|]. rewrite !orb_true_iff, !bool_decide_eq_true. split.
      + intros [[?|?]|?]; auto. done.
      + intros [?|[?|(_ & ? & _)]]; [auto..|]. lia.
    - eexists. split; [done|]. rewrite !orb_true_iff, !bool_decide_eq_true. bool_to_prop. split.
      + intros [[?|?]|?]; auto. done.
      + intros [?|[?|(? & _)]]; [auto..|]. done. }
  cbn [mbind outcome_bind]. destruct (bool_decide (name = bs "ANIM") || _ || _).
  - exists true. split; [done|]. split; [|done]. intros _. exists (offset + 8), n, name.
    split; [|by apply Hfl]. by constructor.
  - assert (0 <= n mod 2) by (apply Z.mod_pos_bound; lia).
    destruct (IH (offset + 8 + n + n mod 2)) as (b & -> & Hb); [lia..|].
    exists b. split; [done|]. rewrite Hb. split; intros (at_ & m & nm & Hc & Ha); exists at_, m, nm.
    + split; [|done]. by apply webp_later.
    + split; [|done]. inversion Hc; subst; [|done]. by apply Hfl in Ha.
Qed.

(** animation is found exactly when it is there. On any bytes both walks end
    without reading outside the image; a PNG counts as animated exactly when its
    chunk sequence, as far as it lies inside the image, has an [acTL], and a WebP
    when it has an [ANIM] or [ANMF] chunk or an extended header whose animation
    flag is set. *)
Theorem animation_found d :
  (∃ b, is_animated Png d = Ok b ∧
     (b = true ↔ ∃ at_, png_chunk d (zlen PNG_SIGNATURE) at_ (bs "acTL"))) ∧
  (∃ b, is_animated WebP d = Ok b ∧
     (b = true ↔ ∃ at_ n name, webp_chunk d 12 at_ n name ∧ animates d at_ n name)).
Proof.
  split.
  - apply png_loop_spec; [done|lia|]. change (zlen PNG_SIGNATURE) with 8. unfold zlen. lia.
  - apply webp_loop_spec; [done|lia|]. unfold zlen. lia.
Qed.

Lemma is_animated_total f d : ∃ b, is_animated f d = Ok b.
Proof.
  destruct f; [by exists false|..]; simpl.
  - destruct (png_loop_spec (S (length d)) d (zlen PNG_SIGNATURE)) as (b & Hb & _); [done|lia| |].
    + change (zlen PNG_SIGNATURE) with 8. unfold zlen. lia.
    + unfold has_png_animation_chunk. rewrite Hb. eauto.
  - destruct (webp_loop_spec (S (length d)) d 12) as (b & Hb & _); [done|lia|unfold zlen; lia|].
    unfold has_webp_animation. rewrite Hb. eauto.
Qed.

Lemma is_animated_returns f d : returns (is_animated f d).
Proof. by destruct (is_animated_total f d) as [b ->]. Qed.

Section ValidateLemmas.
Context `{Images}.

Definition images_return : Prop :=
  ∀ m d, returns (dimensions m d) ∧ returns (decode_image m d).

Lemma validate_returns mime d : images_return → returns (validate mime d).
Proof.
  intros Hi. unfold validate. destruct (_ || _); [done|].
  apply returns_bind; [apply detect_format_returns|]. intros [f|] _; [|done].
  destruct (negb _); [done|]. apply returns_bind; [apply is_animated_returns|]. intros [] _; [done|].
  apply returns_bind; [apply returns_map_err, Hi|]. intros [w h] _.
  destruct (_ || _ || _); [done|]. apply returns_bind; [apply returns_map_err, Hi|]. done.
Qed.

(** What accepted artwork is. *)
Record still_image (mime : str) (d : list byte) (a : AlbumArtwork) : Prop := {
  image_size : 0 < zlen d <= MAX_ARTWORK_SIZE_BYTES;
  image_format : ∃ f, detect_format d = Ok (Some f) ∧ mime_of f = mime ∧
                      is_animated f d = Ok false;
  image_dimensions : dimensions mime d = Ok (width a, height a);
  image_pixels : width a ≠ 0 ∧ height a ≠ 0 ∧ width a * height a <= MAX_ARTWORK_PIXELS;
  image_decodes : decode_image mime d = Ok tt;
  image_kept : artwork_data a = d ∧ mime_type a = mime ∧ sha256 a = digest_hex d ∧ warning a = []
}.

Lemma validate_cases mime d :
  images_return →
  match validate mime d with
  | Ok a => still_image mime d a
  | Err f => code <$> first f = Some InvalidArtwork ∧
      optional_artwork (Err f) = Ok (mkArtwork INVALID_ARTWORK_WARNING [] 0 0 [] []) ∧
      ¬ ∃ a, still_image mime d a
  | _ => False
  end.
Proof.
  intros Hi. pose proof (zlen_nonneg d). unfold validate.
  assert (∀ m, (∀ a, ¬ still_image mime d a) → code <$> first (invalid m) = Some InvalidArtwork ∧
    optional_artwork (Err (invalid m)) = Ok (mkArtwork INVALID_ARTWORK_WARNING [] 0 0 [] []) ∧
    ¬ ∃ a, still_image mime d a) as Hno by (intros m Hm; split_and!; [done..|]; intros [a Ha]; by apply (Hm a)).
  destruct (_ || _) eqn:Hsize.
  { apply Hno. intros a [Hs _ _ _ _ _]. apply orb_true_iff in Hsize as [?|?]; bool_to_prop; lia. }
  destruct (detect_format_total d) as [[f|] Hdet]; rewrite Hdet; cbn [mbind outcome_bind].
  2: { apply Hno. intros a [_ (f & Hf & _) _ _ _ _]. congruence. }
  destruct (decide (mime_of f = mime)) as [Hm|Hm].
  2: { rewrite bool_decide_eq_false_2 by done. apply Hno.
       intros a [_ (f' & Hf & ? & _) _ _ _ _]. congruence. }
  rewrite bool_decide_eq_true_2 by done. cbn [negb].
  destruct (is_animated_total f d) as [b Hb]. rewrite Hb. cbn [mbind outcome_bind].
  destruct b.
  { apply Hno. intros a [_ (f' & Hf & _ & ?) _ _ _ _]. congruence. }
  destruct (Hi mime d) as [Hd Hdec]. rewrite Hm.
  destruct (dimensions mime d) as [[w h]|c| |] eqn:Hdim; try done; cbn [map_err mbind outcome_bind].
  2: { apply Hno. intros a [_ _ ? _ _ _]. congruence. }
  destruct (_ || _ || _) eqn:Hpix.
  { apply Hno. intros a [_ _ Hd' (? & ? & ?) _ _]. rewrite Hdim in Hd'. injection Hd' as -> ->.
    rewrite !orb_true_iff in Hpix. destruct Hpix as [[?|?]|?]; bool_to_prop; lia. }
  destruct (decode_image mime d) as [[]|c| |] eqn:Hde; try done; cbn [map_err mbind outcome_bind].
  - bool_to_prop. split; simpl; first [done|lia|by exists f|by split_and!|split_and!; lia].
  - apply Hno. intros a [_ _ _ _ ? _]. congruence.
Qed.

(** only a still image of the declared kind is stored. With an image library
    that answers, [validate] always ends; it accepts exactly the data within the
    size limit whose signature is the declared type's, that is not animated, has
    dimensions within the pixel limit and decodes completely, and keeps those
    bytes, that type and their digest; every refusal is an invalid-artwork error,
    which an import turns into a warning instead of a failure. *)
Theorem validate_correct mime d :
  images_return →
  match validate mime d with
  | Ok a => still_image mime d a
  | Err f => code <$> first f = Some InvalidArtwork ∧
      optional_artwork (Err f) = Ok (mkArtwork INVALID_ARTWORK_WARNING [] 0 0 [] []) ∧
      ¬ ∃ a, still_image mime d a
  | _ => False
  end.
Proof. apply validate_cases. Qed.
End ValidateLemmas.

(** A PNG signature alone, with an image library that knows one picture. *)
Definition example_images : Images := {|
  dimensions := λ m d, if bool_decide (d = PNG_SIGNATURE) then Ok (2, 3) else Err (st "unknown");
  decode_image := λ m d, Ok tt; digest_hex := λ d, b2z <$> d
|}.

Lemma example_images_return : @images_return example_images.
Proof. intros m d. split; [|exact I]. simpl. by case_bool_decide. Defined.

Lemma validate_correct_witness :
  @images_return example_images ∧
  @still_image example_images (st "image/png") PNG_SIGNATURE
    (mkArtwork [] (st "image/png") 2 3 PNG_SIGNATURE (b2z <$> PNG_SIGNATURE)).
Proof.
  pose proof example_images_return as Hi. split; [exact Hi|].
  pose proof (@validate_correct example_images (st "image/png") PNG_SIGNATURE Hi) as H.
  assert (@validate example_images (st "image/png") PNG_SIGNATURE =
    Ok (mkArtwork [] (st "image/png") 2 3 PNG_SIGNATURE (b2z <$> PNG_SIGNATURE))) as E
    by (vm_compute; reflexivity).
  rewrite E in H. exact H.
Defined.
