(* ===== verification/Id3.v ===== *)
(** Strict ID3v2 parsing shared by MP3 and WAV (inspect/id3.rs): the header, the
    frames, their texts and pictures, and the tag they make. *)

From stdpp Require Import gmap.
From S2P Require Import Prelude Text Float64 Failure Inspector Metadata Artwork.

Definition HEADER_SIZE_BYTES : Z := 10.
Definition MAX_TAG_SIZE_BYTES : Z := 32 * 1024 * 1024.
Definition FRONT_COVER_TYPE : Z := 3.
Definition OTHER_PICTURE_TYPE : Z := 0.
Definition LYRICS_TEXT_OFFSET : Z := 4.

Definition LATIN1 : Z := 0.
Definition UTF16 : Z := 1.
Definition UTF16BE : Z := 2.
Definition UTF8 : Z := 3.

Record Frame := mkFrame { name : str; payload : list byte }.

Record TaggedPicture := mkPicture {
  picture_mime : str;
  picture_data : list byte;
  picture_type : Z
}.

Record Values := mkValues {
  tags : Tags;
  replay_gains : gmap str str;
  pictures : list TaggedPicture
}.

Definition no_values : Values := mkValues ∅ ∅ [].

Definition invalid (m : str) : Failure := error InvalidMetadata (st "ID3") m.

(** ** Header and frames *)

Definition is_zero (d : list byte) : bool := forallb (λ b, b2z b =? 0) d.

(** [decode_sync_safe]: four groups of seven bits. *)
Fixpoint sync_safe (v : Z) (d : list byte) : option Z :=
  match d with
  | [] => Some v
  | b :: d => if 128 <=? b2z b then None else sync_safe (v * 128 + b2z b) d
  end.
Definition decode_sync_safe (d : list byte) : option Z :=
  if zlen d =? 4 then sync_safe 0 d else None.

Definition parse_header (header : list byte) : outcome Failure (Z * Z) :=
  if zlen header <? HEADER_SIZE_BYTES then Err (invalid (st "ID3v2 tag is required")) else
  mark ← slice header 0 3;
  if negb (bool_decide (mark = bs "ID3")) then Err (invalid (st "ID3v2 tag is required")) else
  version ← index header 3; revision ← index header 4;
  let version := b2z version in
  let revision := b2z revision in
  if negb (in_range 2 4 version) || negb (revision =? 0) then
    Err (invalid (st "unsupported ID3v2 version " ++ show version ++ st "." ++ show revision))
  else
    flags ← index header 5;
    if negb (b2z flags =? 0) then
      Err (invalid (st "ID3 tag flags are not supported by the Strict Import Profile"))
    else
      size ← slice header 6 10;
      match decode_sync_safe size with
      | Some size =>
          if (0 <? size) && (size <=? MAX_TAG_SIZE_BYTES) then Ok (version, size)
          else Err (invalid (st "ID3 tag size is invalid"))
      | None => Err (invalid (st "ID3 tag size is invalid"))
      end.

Definition name_size (version : Z) : Z := if version =? 2 then 3 else 4.
Definition header_size (version : Z) : Z := if version =? 2 then 6 else 10.

(** A frame name's characters: upper-case letters and digits. *)
Definition is_name_byte (b : byte) : bool := in_range 65 90 (b2z b) || in_range 48 57 (b2z b).

Definition parse_frame_header (d : list byte) (version : Z) : outcome Failure (option Z) :=
  name ← slice d 0 (name_size version);
  if negb (forallb is_name_byte name) then Ok None
  else if version =? 2 then size ← slice d 3 6; Ok (Some (be size))
  else
    flags ← slice d 8 10;
    if negb (is_zero flags) then Ok None
    else
      size ← slice d 4 8;
      Ok (if version =? 4 then decode_sync_safe size else Some (be size)).

(** The loop of [parse_frames]; each frame takes at least its header. *)
Fixpoint parse_frames_loop (fuel : nat) (d : list byte) (version offset : Z)
    : outcome Failure (list Frame) :=
  if zlen d <=? offset then Ok [] else
  match fuel with
  | O => OutOfFuel
  | S fuel =>
      rest ← slice_from d offset;
      if zlen d - offset <? header_size version then
        if is_zero rest then Ok [] else Err (invalid (st "ID3 frame header is truncated"))
      else
        name ← slice d offset (offset + name_size version);
        if is_zero name then
          if is_zero rest then Ok [] else Err (invalid (st "ID3 padding contains non-zero data"))
        else
          parsed ← parse_frame_header rest version;
          match parsed with
          | Some size =>
              if (0 <? size) && (size <=? zlen d - offset - header_size version) then
                let start := offset + header_size version in
                body ← slice d start (start + size);
                frames ← parse_frames_loop fuel d version (start + size);
                Ok (mkFrame (from_utf8_lossy name) body :: frames)
              else Err (invalid (st "ID3 frame size is invalid"))
          | None => Err (invalid (st "ID3 frame size is invalid"))
          end
  end.
Definition parse_frames (d : list byte) (version : Z) : outcome Failure (list Frame) :=
  parse_frames_loop (length d) d version 0.

(** ** Texts *)

(** [char::decode_utf16] with the replacement character for lone surrogates. *)
Fixpoint decode_units (units : list Z) : str :=
  match units with
  | [] => []
  | u :: rest =>
      if negb (in_range 0xD800 0xDFFF u) then u :: decode_units rest
      else match rest with
      | low :: rest' =>
          if (u <=? 0xDBFF) && in_range 0xDC00 0xDFFF low
          then 0x10000 + (u - 0xD800) * 1024 + (low - 0xDC00) :: decode_units rest'
          else REPLACEMENT_CHARACTER :: decode_units rest
      | [] => [REPLACEMENT_CHARACTER]
      end
  end.

(** [as_chunks::<2>]: pairs of bytes as 16-bit units. *)
Fixpoint units_of (little_endian : bool) (d : list byte) : list Z :=
  match d with
  | a :: b :: d =>
      (if little_endian then b2z a + 256 * b2z b else 256 * b2z a + b2z b)
        :: units_of little_endian d
  | _ => []
  end.

Definition decode_utf16 (d : list byte) (has_bom : bool) : outcome str str :=
  '(d, little_endian) ← (
    if has_bom then
      if zlen d <? 2 then Err (st "UTF-16 byte order mark is missing") else
      a ← index d 0; b ← index d 1;
      rest ← slice_from d 2;
      if (b2z a =? 0xff) && (b2z b =? 0xfe) then Ok (rest, true)
      else if (b2z a =? 0xfe) && (b2z b =? 0xff) then Ok (rest, false)
      else Err (st "UTF-16 byte order mark is invalid")
    else Ok (d, false));
  if negb (zlen d mod 2 =? 0) then Err (st "UTF-16 text has an odd byte count")
  else Ok (decode_units (units_of little_endian d)).

Definition decode_text (encoding : Z) (d : list byte) : outcome str str :=
  if encoding =? LATIN1 then Ok (b2z <$> d)
  else if encoding =? UTF16 then decode_utf16 d true
  else if encoding =? UTF16BE then decode_utf16 d false
  else if encoding =? UTF8 then ok_or (from_utf8 d) (st "ID3 text is not valid UTF-8")
  else Err (st "unsupported ID3 text encoding " ++ show encoding).

(** [position(|byte| byte == 0)], and the first aligned pair of zero bytes. *)
Fixpoint find_zero (d : list byte) : option Z :=
  match d with
  | [] => None
  | b :: d => if b2z b =? 0 then Some 0 else (λ n, n + 1) <$> find_zero d
  end.
Fixpoint find_wide_zero (d : list byte) : option Z :=
  match d with
  | a :: b :: d =>
      if (b2z a =? 0) && (b2z b =? 0) then Some 0 else (λ n, n + 2) <$> find_wide_zero d
  | _ => None
  end.

Definition split_encoded_field (encoding : Z) (d : list byte) : outcome str (str * list byte) :=
  let wide := (encoding =? UTF16) || (encoding =? UTF16BE) in
  separator ← ok_or (if wide then find_wide_zero d else find_zero d)
                (st "encoded text separator is missing");
  text ← slice d 0 separator;
  value ← decode_text encoding text;
  rest ← slice_from d (separator + if wide then 2 else 1);
  Ok (value, rest).

Definition decode_text_values (d : list byte) (version : Z) : outcome str (list str) :=
  if zlen d <? 2 then Err (st "text frame is empty") else
  encoding ← index d 0;
  rest ← slice_from d 1;
  value ← decode_text (b2z encoding) rest;
  Ok (if negb (version =? 4) then [value] else split (Z.eqb 0) value).

Section Frames.
Context `{Unicode}.

Definition decode_picture (d : list byte) (version : Z) : outcome str TaggedPicture :=
  if zlen d <? 6 then Err (st "embedded picture frame is truncated") else
  encoding ← index d 0;
  '(mime, offset) ← (
    if version =? 2 then
      fmt ← slice d 1 4;
      let fmt := go_upper (from_utf8_lossy fmt) in
      Ok (if bool_decide (fmt = st "JPG") || bool_decide (fmt = st "JPEG") then st "image/jpeg"
          else if bool_decide (fmt = st "PNG") then st "image/png" else [], 4)
    else
      rest ← slice_from d 1;
      end_ ← ok_or (find_zero rest) (st "embedded picture MIME type is truncated");
      mime ← slice d 1 (1 + end_);
      Ok (tag_string mime, 1 + end_ + 1));
  if zlen d <=? offset then Err (st "embedded picture type is truncated") else
  kind ← index d offset;
  rest ← slice_from d (offset + 1);
  match split_encoded_field (b2z encoding) rest with
  | Ok (_, data) =>
      if bool_decide (data = []) then
        Err (st "embedded picture description or data is truncated")
      else Ok (mkPicture mime data (b2z kind))
  | Err _ => Err (st "embedded picture description or data is truncated")
  | Panic => Panic
  | OutOfFuel => OutOfFuel
  end.

Definition canonical_name (n : str) (version : Z) : option str :=
  let named (a : string) : bool := bool_decide (n = st a) in
  let v2 := version =? 2 in
  let v34 := (version =? 3) || (version =? 4) in
  if (v2 && named "TT2") || (v34 && named "TIT2") then Some (st "TITLE")
  else if (v2 && named "TP1") || (v34 && named "TPE1") then Some (st "ARTIST")
  else if (v2 && named "TP2") || (v34 && named "TPE2") then Some (st "ALBUMARTIST")
  else if (v2 && named "TAL") || (v34 && named "TALB") then Some (st "ALBUM")
  else if (v2 && named "TRK") || (v34 && named "TRCK") then Some (st "TRACKNUMBER")
  else if (v2 && named "TPA") || (v34 && named "TPOS") then Some (st "DISCNUMBER")
  else if (v2 && named "TCO") || (v34 && named "TCON") then Some (st "GENRE")
  else if (v2 && named "TYE") || ((version =? 3) && named "TYER") || ((version =? 4) && named "TDRC")
  then Some (st "DATE")
  else None.

(** [entry(key).or_default().extend(values)]. *)
Definition extend_tag (key : str) (vs : list str) (v : Values) : Values :=
  mkValues (<[key := values_of (tags v) key ++ vs]> (tags v)) (replay_gains v) (pictures v).

Definition add_picture (p : TaggedPicture) (v : Values) : Values :=
  mkValues (tags v) (replay_gains v) (pictures v ++ [p]).

Definition add_gain (key value : str) (v : Values) : Values :=
  mkValues (tags v) (<[key := value]> (replay_gains v)) (pictures v).

Definition collect_lyrics (d : list byte) : M Values Failure unit :=
  if zlen d <? LYRICS_TEXT_OFFSET then fail (invalid (st "lyrics frame is truncated")) else
  encoding ← lift (index d 0);
  rest ← lift (slice_from d LYRICS_TEXT_OFFSET);
  '(_, remainder) ← lift (map_err invalid (split_encoded_field (b2z encoding) rest));
  text ← lift (map_err invalid (decode_text (b2z encoding) remainder));
  modify (extend_tag (st "LYRICS") [text]).

(** The NUL-separated credits of a custom ARTISTS or ALBUMARTISTS frame. *)
Definition credit_values (encoding : Z) (value : str) : list str :=
  let credits := default value (strip_suffix [0] value) in
  (λ credit, if encoding =? UTF16 then default credit (strip_prefix [0xFEFF] credit) else credit)
    <$> split (Z.eqb 0) credits.

Definition collect_user_text (d : list byte) : M Values str unit :=
  if zlen d <? 2 then fail (st "described text frame is truncated") else
  encoding ← lift (index d 0);
  rest ← lift (slice_from d 1);
  '(description, remainder) ← lift (split_encoded_field (b2z encoding) rest);
  value ← lift (decode_text (b2z encoding) remainder);
  let key := go_upper (trim description) in
  _ ← (if bool_decide (key = st "ARTISTS") || bool_decide (key = st "ALBUMARTISTS") then
         modify (extend_tag key (credit_values (b2z encoding) value))
       else mret tt);
  if starts_with (st "REPLAYGAIN_") key then
    v ← get;
    if bool_decide (is_Some (replay_gains v !! key)) then
      fail (st "duplicate " ++ key ++ st " tag")
    else modify (add_gain key value)
  else mret tt.

(** A genre or date frame that holds only its encoding byte says nothing. *)
Definition is_blank_text (key : str) (d : list byte) : bool :=
  (bool_decide (key = st "GENRE") || bool_decide (key = st "DATE")) &&
  match d with [b] => b2z b <=? UTF8 | _ => false end.

Definition collect_frame (frame : Frame) (version : Z) : M Values Failure unit :=
  let v2 := version =? 2 in
  let d := payload frame in
  match canonical_name (name frame) version with
  | Some key =>
      if is_blank_text key d then mret tt else
      vs ← lift (map_err (error InvalidMetadata key) (decode_text_values d version));
      let vs := if bool_decide (key = st "GENRE") then split_genre_tag_values vs else vs in
      modify (extend_tag key vs)
  | None =>
      _ ← (if bool_decide (name frame = if v2 then st "TXX" else st "TXXX")
           then on_err invalid (collect_user_text d) else mret tt);
      if bool_decide (name frame = if v2 then st "PIC" else st "APIC") then
        p ← lift (map_err (error InvalidArtwork (st "artwork")) (decode_picture d version));
        modify (add_picture p)
      else if bool_decide (name frame = if v2 then st "ULT" else st "USLT") then collect_lyrics d
      else mret tt
  end.

(** [collect_values]: every frame, with each frame's failure in order. *)
Fixpoint collect_all (frames : list Frame) (version : Z) (v : Values)
    : outcome Failure (Values * list (option Failure)) :=
  match frames with
  | [] => Ok (v, [])
  | frame :: frames =>
      match collect_frame frame version v with
      | (Ok _, v) => '(v, fs) ← collect_all frames version v; Ok (v, None :: fs)
      | (Err f, v) => '(v, fs) ← collect_all frames version v; Ok (v, Some f :: fs)
      | (Panic, _) => Panic
      | (OutOfFuel, _) => OutOfFuel
      end
  end.
Definition collect_values (frames : list Frame) (version : Z) : outcome Failure (Values * Failure) :=
  '(v, fs) ← collect_all frames version no_values; Ok (v, fjoin fs).

(** ** The tag *)

Definition artwork_error (m : str) : Failure := error InvalidArtwork (st "artwork") m.

Definition select_front_cover (ps : list TaggedPicture) : outcome Failure TaggedPicture :=
  match filter (λ p, picture_type p = FRONT_COVER_TYPE) ps with
  | [p] => Ok p
  | front =>
      if (1 <? zlen front) || (1 <? zlen ps) then
        Err (artwork_error (st "embedded front cover role is ambiguous"))
      else match ps with
      | p :: _ =>
          if picture_type p =? OTHER_PICTURE_TYPE then Ok p
          else Err (artwork_error (st "embedded picture is not a front cover"))
      | [] => Err (error MissingArtwork (st "artwork") (st "embedded front cover is required"))
      end
  end.

Context `{Images}.

Definition front_cover_artwork (ps : list TaggedPicture) : outcome Failure AlbumArtwork :=
  p ← select_front_cover ps; validate (picture_mime p) (picture_data p).

(** One ReplayGain frame's value. *)
Definition gain_of (v : Values) (key : str) (peak : bool) : outcome Failure (option f64) :=
  match replay_gains v !! key with
  | None => Ok None
  | Some value =>
      match (if peak then parse_replay_gain_peak value else parse_replay_gain_value value) with
      | Some x => Ok (Some x)
      | None => Err (error InvalidMetadata key (st "ReplayGain value is invalid"))
      end
  end.

Definition or_default {A} (o : outcome Failure (option A)) : option A :=
  match o with Ok a => a | _ => None end.

Definition normalize_values (v : Values) : outcome Failure NormalizedMetadata :=
  let track_gain := gain_of v (st "REPLAYGAIN_TRACK_GAIN") false in
  let track_peak := gain_of v (st "REPLAYGAIN_TRACK_PEAK") true in
  let album_gain := gain_of v (st "REPLAYGAIN_ALBUM_GAIN") false in
  let album_peak := gain_of v (st "REPLAYGAIN_ALBUM_PEAK") true in
  let rg := mkReplayGain (or_default track_gain) (or_default track_peak)
              (or_default album_gain) (or_default album_peak) in
  let normalized := normalize (tags v) rg in
  _ ← into_result (fjoin [err_of track_gain; err_of track_peak; err_of album_gain;
                          err_of album_peak; err_of normalized]);
  normalized.

Record Tag := mkTag {
  metadata : outcome Failure NormalizedMetadata;
  artwork : AlbumArtwork;
  offset : Z;
  failure : Failure
}.

(** The tag of [frames], as [inspect_tag] assembles it once they are read. *)
Definition assemble_tag (values : Values) (parse_failure : Failure) (tag_offset : Z)
    : outcome Failure Tag :=
  let failed_fields := fields parse_failure in
  let metadata := normalize_values values in
  let art := optional_artwork (front_cover_artwork (pictures values)) in
  let issue := find (λ i, bool_decide (issue_field i = st "artwork")) (issues parse_failure) in
  let '(art, parse_failure) :=
    match issue with
    | Some i => (optional_artwork (Err (artwork_error (issue_reason i))),
                 exclude_fields parse_failure [st "artwork"])
    | None => (art, parse_failure)
    end in
  match metadata, art with
  | Panic, _ | _, Panic => Panic
  | OutOfFuel, _ | _, OutOfFuel => OutOfFuel
  | _, _ =>
      let rest := exclude_fields (fjoin [err_of metadata; err_of art]) failed_fields in
      Ok (mkTag metadata (default no_artwork (ok_of art)) tag_offset
            (fjoin [Some parse_failure; Some rest]))
  end.

Context `{World}.

Definition read_frames : M Io Failure (list Frame * Z * Z) :=
  header ← on_err (λ c, invalid (st "read ID3 header: " ++ io_message c))
             (read_exact HEADER_SIZE_BYTES);
  '(version, size) ← lift (parse_header header);
  body ← on_err (λ c, invalid (st "read ID3 payload: " ++ io_message c)) (read_exact size);
  frames ← lift (parse_frames body version);
  mret (frames, version, HEADER_SIZE_BYTES + size).

Definition inspect_tag : M Io Failure Tag :=
  '(frames, version, tag_offset) ← read_frames;
  '(values, parse_failure) ← lift (collect_values frames version);
  lift (assemble_tag values parse_failure tag_offset).
End Frames.

(** ** Every parser ends inside its bytes *)

Lemma sync_safe_bound v d n : 0 <= v → sync_safe v d = Some n → 0 <= n < (v + 1) * 128 ^ zlen d.
Proof.
  revert v. induction d as [|b d IH]; intros v Hv; cbn [sync_safe].
  { intros [= <-]. change (zlen []) with 0. lia. }
  destruct (Z.leb_spec 128 (b2z b)); [done|]. pose proof (b2z_range b).
  intros Hs. apply IH in Hs; [|lia]. rewrite zlen_cons, Z.pow_add_r by (pose proof (zlen_nonneg d); lia).
  assert (0 < 128 ^ zlen d) by (apply Z.pow_pos_nonneg; [lia|apply zlen_nonneg]). nia.
Qed.

Lemma parse_header_cases header :
  match parse_header header with
  | Ok (version, size) => 2 <= version <= 4 ∧ 0 < size <= MAX_TAG_SIZE_BYTES ∧ 10 <= zlen header
  | Err f => ∃ m, f = invalid m
  | _ => False
  end.
Proof.
  unfold parse_header, HEADER_SIZE_BYTES. destruct (Z.ltb_spec (zlen header) 10); [by eexists|].
  destruct (@slice_total Failure _ header 0 3) as (mark & -> & _); [lia..|].
  cbn [mbind outcome_bind]. destruct (negb _); [by eexists|].
  destruct (@index_in Failure _ header 3) as (v & -> & _); [lia..|].
  destruct (@index_in Failure _ header 4) as (r & -> & _); [lia..|]. cbn [mbind outcome_bind].
  destruct (negb (in_range 2 4 (b2z v)) || _) eqn:Hv; [by eexists|].
  destruct (@index_in Failure _ header 5) as (fl & -> & _); [lia..|]. cbn [mbind outcome_bind].
  destruct (negb (b2z fl =? 0)); [by eexists|].
  destruct (@slice_total Failure _ header 6 10) as (size & -> & _); [lia..|]. cbn [mbind outcome_bind].
  destruct (decode_sync_safe size) as [n|]; [|by eexists].
  destruct ((0 <? n) && _) eqn:Hn; [|by eexists]. unfold in_range in *. bool_to_prop. lia.
Qed.

(** [header] starts a tag whose payload has [size] bytes: the size is in four bytes of
    seven bits. *)
Definition tag_header (header : list byte) (size : Z) : Prop :=
  take 3 header = bs "ID3" ∧ ∃ a b c d, sub header 6 4 = [a; b; c; d] ∧ Forall (λ x, b2z x < 128) [a; b; c; d] ∧
    size = b2z a * 2 ^ 21 + b2z b * 2 ^ 14 + b2z c * 2 ^ 7 + b2z d.

Lemma parse_header_tag header version size : parse_header header = Ok (version, size) → tag_header header size.
Proof.
  unfold parse_header, HEADER_SIZE_BYTES. destruct (Z.ltb_spec (zlen header) 10); [done|].
  intros (mark & (_ & _ & _ & ->)%slice_Ok & He)%bind_Ok. destruct (negb (bool_decide _)) eqn:Hm; [done|].
  apply negb_false_iff, bool_decide_eq_true in Hm. apply bind_Ok in He as (v & _ & He). apply bind_Ok in He as (r & _ & He).
  destruct (negb _ || _); [done|]. apply bind_Ok in He as (fl & _ & He). destruct (negb _); [done|].
  apply bind_Ok in He as (d & (_ & _ & _ & ->)%slice_Ok & He). split; [by rewrite <-Hm|].
  unfold decode_sync_safe in He. change (10 - 6) with 4 in He.
  pose proof (zlen_sub header 6 4 ltac:(lia) ltac:(lia) ltac:(lia)) as Hl. rewrite Hl in He. cbn [Z.eqb Pos.eqb] in He.
  destruct (sub header 6 4) as [|a [|b [|c [|d [|]]]]] eqn:Hsub; try (unfold zlen in Hl; cbn in Hl; lia).
  exists a, b, c, d. split; [done|]. cbn [sync_safe] in He.
  destruct (Z.leb_spec 128 (b2z a)), (Z.leb_spec 128 (b2z b)), (Z.leb_spec 128 (b2z c)), (Z.leb_spec 128 (b2z d)); try done.
  split; [by repeat constructor|]. destruct (_ && _); [|done]. injection He as _ <-. lia.
Qed.

Lemma parse_frame_header_total d version : header_size version <= zlen d →
  ∃ o, parse_frame_header d version = Ok o.
Proof.
  unfold header_size, parse_frame_header, name_size. intros Hd.
  destruct (version =? 2).
  - rewrite !slice_in by lia. cbn [mbind outcome_bind]. destruct (negb _); eauto.
  - rewrite !slice_in by lia. cbn [mbind outcome_bind]. repeat destruct (negb _); eauto.
Qed.

(** What a parsed frame is: a valid name and data that is not empty. *)
Definition frame_ok (f : Frame) : Prop := 0 < zlen (payload f).

Definition frames_size (version : Z) (fs : list Frame) : Z :=
  foldr (λ f n, header_size version + zlen (payload f) + n) 0 fs.

Lemma header_size_pos version : 6 <= header_size version.
Proof. unfold header_size. destruct (version =? 2); lia. Qed.

Lemma parse_frames_loop_cases fuel d version offset :
  0 <= offset <= zlen d → zlen d - offset <= Z.of_nat fuel →
  match parse_frames_loop fuel d version offset with
  | Ok fs => Forall frame_ok fs ∧ offset + frames_size version fs <= zlen d
  | Err f => ∃ m, f = invalid m
  | _ => False
  end.
Proof.
  revert offset. induction fuel as [|fuel IH]; intros offset Ho Hf; cbn [parse_frames_loop];
    destruct (Z.leb_spec (zlen d) offset); try lia.
  1,2: split; [constructor|simpl; lia].
  pose proof (header_size_pos version).
  destruct (@slice_from_in Failure _ d offset) as (rest & -> & Hrest); [lia..|].
  cbn [mbind outcome_bind].
  destruct (Z.ltb_spec (zlen d - offset) (header_size version)).
  { destruct (is_zero rest); [split; [constructor|simpl; lia]|by eexists]. }
  assert (0 <= name_size version <= header_size version)
    by (unfold name_size, header_size; destruct (version =? 2); lia).
  destruct (@slice_total Failure _ d offset (offset + name_size version)) as (nm & -> & _); [lia..|].
  cbn [mbind outcome_bind]. destruct (is_zero nm).
  { destruct (is_zero rest); [split; [constructor|simpl; lia]|by eexists]. }
  destruct (parse_frame_header_total rest version) as [o ->]; [lia|]. cbn [mbind outcome_bind].
  destruct o as [size|]; [|by eexists]. destruct ((0 <? size) && _) eqn:Hs; [|by eexists].
  bool_to_prop.
  destruct (@slice_total Failure _ d (offset + header_size version)
    (offset + header_size version + size)) as (body & -> & Hb); [lia..|].
  cbn [mbind outcome_bind].
  specialize (IH (offset + header_size version + size) ltac:(lia) ltac:(lia)).
  destruct (parse_frames_loop fuel _ _ _) as [fs|f| |]; try done.
  destruct IH as [Hfs Hsize]. cbn [mbind outcome_bind]. split.
  - constructor; [|done]. unfold frame_ok. simpl. lia.
  - cbn [frames_size foldr payload]. change (foldr _ 0 fs) with (frames_size version fs). lia.
Qed.

Lemma parse_frames_cases d version :
  match parse_frames d version with
  | Ok fs => Forall frame_ok fs ∧ frames_size version fs <= zlen d
  | Err f => ∃ m, f = invalid m
  | _ => False
  end.
Proof.
  pose proof (parse_frames_loop_cases (length d) d version 0) as H.
  unfold parse_frames. destruct (parse_frames_loop _ _ _ _); apply H; unfold zlen; lia.
Qed.

(** ** Frames written and read back *)

Definition name_byte (c : Z) : bool := in_range 65 90 c || in_range 48 57 c.

(** The size field of a frame: sync-safe in version 4, else big-endian. *)
Definition size_bytes (version n : Z) : list byte :=
  if version =? 2 then to_be 3 n
  else if version =? 4 then
    [z2b (n / 2097152 mod 128); z2b (n / 16384 mod 128); z2b (n / 128 mod 128); z2b (n mod 128)]
  else to_be 4 n.

Definition max_frame (version : Z) : Z :=
  if version =? 2 then 2 ^ 24 else if version =? 4 then 2 ^ 28 else 2 ^ 32.

Definition render_frame (version : Z) (f : Frame) : list byte :=
  (z2b <$> name f) ++ size_bytes version (zlen (payload f)) ++
  (if version =? 2 then [] else [x00; x00]) ++ payload f.

Definition writable (version : Z) (f : Frame) : Prop :=
  zlen (name f) = name_size version ∧ forallb name_byte (name f) = true ∧
  0 < zlen (payload f) < max_frame version.

Lemma zlen_fmap {A B} (f : A → B) l : zlen (f <$> l) = zlen l.
Proof. unfold zlen. by rewrite length_fmap. Qed.

Lemma name_byte_range c : name_byte c = true → 48 <= c <= 90.
Proof. unfold name_byte, in_range. intros [?|?]%orb_true_iff; bool_to_prop; lia. Qed.

Lemma name_bytes n : forallb name_byte n = true →
  forallb is_name_byte (z2b <$> n) = true ∧ from_utf8_lossy (z2b <$> n) = n ∧
  (n ≠ [] → is_zero (z2b <$> n) = false).
Proof.
  intros Hn. assert (encode n = z2b <$> n) as He.
  { induction n as [|c n IH]; [done|]. cbn [forallb] in Hn. apply andb_true_iff in Hn as [Hc Hn].
    change (encode (c :: n)) with (encode_char c ++ encode n). rewrite IH by done.
    apply name_byte_range in Hc. unfold encode_char. by rewrite (proj2 (Z.ltb_lt c 128)) by lia. }
  assert (∀ c, c ∈ n → 48 <= c <= 90 ∧ name_byte c = true) as Hc.
  { intros c Hc. rewrite forallb_forall in Hn. specialize (Hn c (proj1 (list_elem_of_In _ _) Hc)).
    split; [by apply name_byte_range|done]. }
  split_and!.
  - apply forallb_forall. intros b Hb%list_elem_of_In. apply list_elem_of_fmap in Hb as (c & -> & Hin).
    destruct (Hc c Hin) as [Hr Hnb]. unfold is_name_byte. by rewrite b2z_small by lia.
  - rewrite <-He. apply from_utf8_lossy_encode, forallb_forall. intros c Hin%list_elem_of_In.
    destruct (Hc c Hin) as [Hr _]. unfold scalar, in_range. settle. done.
  - destruct n as [|c n']; [done|]. intros _. destruct (Hc c ltac:(left)) as [Hr _].
    unfold is_zero. rewrite fmap_cons. cbn [forallb]. rewrite b2z_small by lia. by settle.
Qed.

Lemma decode_size version n : 2 <= version <= 4 → 0 <= n < max_frame version →
  zlen (size_bytes version n) = (if version =? 2 then 3 else 4) ∧
  (if version =? 4 then decode_sync_safe (size_bytes version n)
   else Some (be (size_bytes version n))) = Some n.
Proof.
  unfold size_bytes, max_frame. intros Hv Hn.
  destruct (Z.eqb_spec version 2) as [->|]; [|destruct (Z.eqb_spec version 4)].
  - unfold zlen. rewrite length_to_be. split; [done|]. cbn [Z.eqb Pos.eqb].
    rewrite be_to_be. f_equal. apply Z.mod_small. lia.
  - split; [done|]. unfold decode_sync_safe. change (zlen _ =? 4) with true. cbv iota.
    cbn [sync_safe]. rewrite !b2z_small by (Z.div_mod_to_equations; lia).
    repeat rewrite (proj2 (Z.leb_gt 128 _)) by (Z.div_mod_to_equations; lia).
    f_equal. Z.div_mod_to_equations; lia.
  - unfold zlen. rewrite length_to_be. split; [done|]. rewrite be_to_be. f_equal. apply Z.mod_small. lia.
Qed.

Lemma is_zero_replicate n : is_zero (replicate n x00) = true.
Proof. induction n; [done|]. simpl. done. Qed.

(** The header the loop meets at a written frame. *)
Lemma parse_rendered_header version f rest : 2 <= version <= 4 → writable version f →
  parse_frame_header (render_frame version f ++ rest) version = Ok (Some (zlen (payload f))).
Proof.
  intros Hv (Hlen & Hname & Hsize).
  destruct (name_bytes _ Hname) as (Hnb & _ & _).
  destruct (decode_size version (zlen (payload f)) Hv ltac:(lia)) as [Hsl Hdec].
  unfold parse_frame_header, render_frame. set (nm := z2b <$> name f) in *.
  assert (zlen nm = name_size version) as Hnm by (unfold nm; by rewrite zlen_fmap).
  set (sz := size_bytes version (zlen (payload f))) in *.
  rewrite <-!app_assoc.
  pose proof (slice_app (E:=Failure) [] nm (sz ++ (if version =? 2 then [] else [x00; x00]) ++ payload f ++ rest) 0 eq_refl) as Hs0.
  rewrite Hnm in Hs0. cbn [app] in Hs0. rewrite Z.add_0_l in Hs0. rewrite Hs0.
  cbn [mbind outcome_bind]. rewrite Hnb. cbv iota. unfold name_size in *.
  pose proof (slice_app (E:=Failure) nm sz ((if version =? 2 then [] else [x00; x00]) ++ payload f ++ rest) _ eq_refl) as Hs1.
  rewrite Hsl, Hnm in Hs1.
  destruct (Z.eqb_spec version 2) as [->|].
  - cbn [negb Z.eqb Pos.eqb] in *. change (3 + 3) with 6 in Hs1.
    rewrite Hs1. cbn [mbind outcome_bind]. by injection Hdec as ->.
  - cbn [negb].
    pose proof (slice_app (E:=Failure) (nm ++ sz) [x00; x00] (payload f ++ rest) 8) as Hs2.
    rewrite zlen_app, Hnm, Hsl, <-app_assoc in Hs2. change (8 + zlen [x00; x00]) with 10 in Hs2.
    rewrite Hs2 by done.
    change (is_zero [x00; x00]) with true. cbn [mbind outcome_bind negb].
    change (4 + 4) with 8 in Hs1. rewrite Hs1. cbn [mbind outcome_bind]. by rewrite Hdec.
Qed.

Lemma zlen_render version f : 2 <= version <= 4 → writable version f →
  zlen (render_frame version f) = header_size version + zlen (payload f).
Proof.
  intros Hv (Hlen & _ & Hsize).
  destruct (decode_size version (zlen (payload f)) Hv ltac:(lia)) as [Hsl _].
  unfold render_frame. rewrite !zlen_app, zlen_fmap, Hlen, Hsl.
  unfold name_size, header_size.
  destruct (version =? 2); [change (zlen (@nil byte)) with 0|change (zlen [x00; x00]) with 2]; lia.
Qed.

Lemma parse_frames_loop_padding fuel pre version n : Z.of_nat n <= Z.of_nat fuel →
  parse_frames_loop fuel (pre ++ replicate n x00) version (zlen pre) = Ok [].
Proof.
  intros Hf. pose proof (header_size_pos version) as Hh. destruct fuel as [|fuel].
  { assert (n = O) as -> by lia. cbn [replicate]. rewrite app_nil_r. cbn [parse_frames_loop].
    by rewrite Z.leb_refl. }
  cbn [parse_frames_loop]. destruct (Z.leb_spec (zlen (pre ++ replicate n x00)) (zlen pre)) as [|Hl]; [done|].
  rewrite slice_from_app by done. cbn [mbind outcome_bind]. rewrite is_zero_replicate.
  destruct (Z.ltb_spec (zlen (pre ++ replicate n x00) - zlen pre) (header_size version)) as [|Hg]; [done|].
  rewrite zlen_app in Hg.
  assert (0 <= name_size version <= header_size version) as Hns
    by (unfold name_size, header_size; destruct (version =? 2); lia).
  assert (zlen (replicate n x00) = Z.of_nat n) as Hrep by (unfold zlen; by rewrite length_replicate).
  replace (replicate n x00) with (replicate (Z.to_nat (name_size version)) x00 ++
    replicate (n - Z.to_nat (name_size version)) x00)
    by (rewrite <-replicate_add; f_equal; lia).
  pose proof (slice_app (E:=Failure) pre (replicate (Z.to_nat (name_size version)) x00)
    (replicate (n - Z.to_nat (name_size version)) x00) _ eq_refl) as Hs.
  unfold zlen in Hs at 3. rewrite length_replicate, Z2Nat.id in Hs by lia. rewrite Hs.
  cbn [mbind outcome_bind]. by rewrite is_zero_replicate.
Qed.

Lemma parse_frames_loop_rendered fuel pre version fs n : 2 <= version <= 4 →
  Forall (writable version) fs →
  zlen (concat (render_frame version <$> fs)) + Z.of_nat n <= Z.of_nat fuel →
  parse_frames_loop fuel (pre ++ concat (render_frame version <$> fs) ++ replicate n x00)
    version (zlen pre) = Ok fs.
Proof.
  intros Hv Hfs. revert fuel pre. pose proof (header_size_pos version) as Hh.
  induction Hfs as [|f fs Hw Hfs IH]; intros fuel pre Hf.
  - apply parse_frames_loop_padding. by change (zlen (concat _)) with 0 in Hf.
  - rewrite fmap_cons in *. cbn [concat] in *. rewrite zlen_app in Hf.
    rewrite (zlen_render version f Hv Hw) in Hf.
    pose proof (zlen_nonneg (concat (render_frame version <$> fs))).
    pose proof Hw as (Hlen & Hname & Hsize).
    destruct fuel as [|fuel]; [lia|]. cbn [parse_frames_loop].
    set (rest := concat (render_frame version <$> fs) ++ replicate n x00) in *.
    rewrite <-app_assoc. fold rest. pose proof (zlen_nonneg rest).
    assert (zlen (pre ++ render_frame version f ++ rest) =
      zlen pre + header_size version + zlen (payload f) + zlen rest) as Htotal
      by (rewrite !zlen_app, (zlen_render version f Hv Hw); lia).
    rewrite Htotal. rewrite (proj2 (Z.leb_gt _ _)) by lia.
    rewrite slice_from_app by done. cbn [mbind outcome_bind].
    rewrite (proj2 (Z.ltb_ge _ _)) by lia.
    destruct (name_bytes _ Hname) as (_ & Hlossy & Hnz).
    assert (slice (pre ++ render_frame version f ++ rest) (zlen pre) (zlen pre + name_size version)
      = @Ok Failure _ (z2b <$> name f)) as ->.
    { unfold render_frame. rewrite <-!app_assoc, <-Hlen, <-(zlen_fmap z2b). by apply slice_app. }
    cbn [mbind outcome_bind]. rewrite Hnz, parse_rendered_header, Hlossy; [|done..|].
    2: { intros E. rewrite E in Hlen. unfold name_size in Hlen. by destruct (version =? 2). }
    cbn [mbind outcome_bind].
    rewrite (proj2 (Z.ltb_lt 0 _)), (proj2 (Z.leb_le _ _)) by lia. cbn [andb].
    assert (pre ++ render_frame version f ++ rest =
      (pre ++ (z2b <$> name f) ++ size_bytes version (zlen (payload f)) ++
        (if version =? 2 then [] else [x00; x00])) ++ payload f ++ rest) as Hd
      by (unfold render_frame; by rewrite <-!app_assoc).
    destruct (decode_size version (zlen (payload f)) Hv ltac:(lia)) as [Hsl _].
    assert (zlen pre + header_size version = zlen (pre ++ (z2b <$> name f) ++
      size_bytes version (zlen (payload f)) ++ (if version =? 2 then [] else [x00; x00]))) as Hoff.
    { rewrite !zlen_app, zlen_fmap, Hlen, Hsl. unfold name_size, header_size.
      destruct (version =? 2); [change (zlen (@nil byte)) with 0|change (zlen [x00; x00]) with 2]; lia. }
    rewrite Hd at 1. rewrite slice_app by done. cbn [mbind outcome_bind].
    replace (zlen pre + header_size version + zlen (payload f))
      with (zlen (pre ++ render_frame version f))
      by (rewrite zlen_app, (zlen_render version f Hv Hw); lia).
    rewrite app_assoc. unfold rest. rewrite IH by lia. by destruct f.
Qed.

(** C38: frames survive being written. In every supported version, any frames
    with well-formed names and non-empty data that fit their size fields, written
    one after the other and padded with zero bytes, parse back to exactly those
    frames in order. *)
Theorem parse_frames_roundtrip version fs n :
  2 <= version <= 4 → Forall (writable version) fs →
  parse_frames (concat (render_frame version <$> fs) ++ replicate n x00) version = Ok fs.
Proof.
  intros Hv Hfs. unfold parse_frames.
  rewrite <-(parse_frames_loop_rendered (length (concat (render_frame version <$> fs) ++ replicate n x00))
    [] version fs n Hv Hfs); [done|].
  rewrite length_app, length_replicate. unfold zlen. lia.
Qed.

Lemma parse_frames_roundtrip_witness :
  parse_frames (concat (render_frame 3 <$>
    [mkFrame (st "TIT2") (bs "abc"); mkFrame (st "TPE1") (bs "d")]) ++ replicate 12 x00) 3
  = Ok [mkFrame (st "TIT2") (bs "abc"); mkFrame (st "TPE1") (bs "d")].
Proof.
  apply (parse_frames_roundtrip 3); [lia|].
  repeat constructor; vm_compute; (reflexivity || discriminate).
Defined.

(** ** Texts and pictures read inside their payloads *)

Lemma find_zero_bound d n : find_zero d = Some n → 0 <= n < zlen d.
Proof.
  revert n. induction d as [|b d IH]; intros n; [done|]. cbn [find_zero]. rewrite zlen_cons.
  pose proof (zlen_nonneg d). destruct (b2z b =? 0); [intros [= <-]; lia|].
  intros (k & Hk & ->)%fmap_Some. specialize (IH _ Hk). lia.
Qed.

Lemma find_wide_zero_bound k d n : (length d <= k)%nat → find_wide_zero d = Some n →
  0 <= n ∧ n + 2 <= zlen d.
Proof.
  revert d n. induction k as [|k IH]; intros [|a [|b d]] n Hk; try done; simpl in Hk; [lia|].
  cbn [find_wide_zero]. rewrite !zlen_cons. pose proof (zlen_nonneg d).
  destruct (_ && _); [intros [= <-]; lia|].
  intros (m & Hm & ->)%fmap_Some. apply IH in Hm; lia.
Qed.

Lemma decode_utf16_returns d bom : returns (decode_utf16 d bom).
Proof.
  unfold decode_utf16. apply returns_bind; [|intros [? ?] _; by destruct (negb _)].
  destruct bom; [|done]. destruct (Z.ltb_spec (zlen d) 2); [done|].
  destruct (@index_in str _ d 0) as (a & -> & _); [lia..|].
  destruct (@index_in str _ d 1) as (b & -> & _); [lia..|].
  destruct (@slice_from_in str _ d 2) as (r & -> & _); [lia..|]. cbn [mbind outcome_bind].
  by repeat case_match.
Qed.

Lemma decode_text_returns encoding d : returns (decode_text encoding d).
Proof.
  unfold decode_text. repeat case_match; auto using decode_utf16_returns with rust.
Qed.

Lemma split_encoded_field_returns encoding d : returns (split_encoded_field encoding d).
Proof.
  unfold split_encoded_field. set (wide := _ || _).
  assert (∀ n, (if wide then find_wide_zero d else find_zero d) = Some n →
    0 <= n ∧ n + (if wide then 2 else 1) <= zlen d) as Hb.
  { intros n. destruct wide; intros Hn.
    - apply (find_wide_zero_bound (length d)) in Hn; lia.
    - apply find_zero_bound in Hn. lia. }
  destruct (if wide then find_wide_zero d else find_zero d) as [n|]; [|done].
  destruct (Hb n eq_refl). cbn [ok_or mbind outcome_bind].
  assert (0 <= n <= zlen d) by (destruct wide; lia).
  apply returns_bind; [apply returns_slice; lia|]. intros text _.
  apply returns_bind; [apply decode_text_returns|]. intros value _.
  apply returns_bind; [|done].
  destruct (@slice_from_in str _ d (n + if wide then 2 else 1)) as (r & -> & _); [destruct wide; lia..|done].
Qed.

Lemma decode_text_values_returns d version : returns (decode_text_values d version).
Proof.
  unfold decode_text_values. destruct (Z.ltb_spec (zlen d) 2); [done|].
  destruct (@index_in str _ d 0) as (a & -> & _); [lia..|].
  destruct (@slice_from_in str _ d 1) as (r & -> & _); [lia..|]. cbn [mbind outcome_bind].
  apply returns_bind; [apply decode_text_returns|done].
Qed.

Section CollectLemmas.
Context `{Unicode}.

Lemma decode_picture_returns d version : returns (decode_picture d version).
Proof.
  unfold decode_picture. destruct (Z.ltb_spec (zlen d) 6); [done|].
  destruct (@index_in str _ d 0) as (e & -> & _); [lia..|]. cbn [mbind outcome_bind].
  set (head := if version =? 2 then _ else _).
  assert (returns head ∧ ∀ mime offset, head = Ok (mime, offset) → 0 <= offset) as [Hr Hoff].
  { unfold head. destruct (version =? 2).
    - destruct (@slice_total str _ d 1 4) as (f & -> & _); [lia..|]. cbn [mbind outcome_bind].
      split; [done|]. intros mime offset [= _ <-]. lia.
    - destruct (@slice_from_in str _ d 1) as (r & -> & Hlen); [lia..|]. cbn [mbind outcome_bind].
      destruct (find_zero r) as [n|] eqn:Hn; [|done]. apply find_zero_bound in Hn.
      cbn [ok_or mbind outcome_bind].
      destruct (@slice_total str _ d 1 (1 + n)) as (f & -> & _); [lia..|]. cbn [mbind outcome_bind].
      split; [done|]. intros mime offset [= _ <-]. lia. }
  apply returns_bind; [done|]. intros [mime offset] Hh. specialize (Hoff _ _ Hh).
  destruct (Z.leb_spec (zlen d) offset); [done|].
  destruct (@index_in str _ d offset) as (kind & -> & _); [lia..|].
  destruct (@slice_from_in str _ d (offset + 1)) as (r & -> & _); [lia..|]. cbn [mbind outcome_bind].
  pose proof (split_encoded_field_returns (b2z e) r).
  destruct (split_encoded_field (b2z e) r) as [[? ?]|?| |]; try done. by case_bool_decide.
Qed.

(** Collecting may put anything in the tables; what counts is that it ends. *)
Definition anything (v : Values) : Prop := True.

Lemma collect_lyrics_keeps d : preserves anything (collect_lyrics d).
Proof.
  unfold collect_lyrics, LYRICS_TEXT_OFFSET. destruct (Z.ltb_spec (zlen d) 4); [auto with rust|].
  apply preserves_bind; [apply preserves_lift, returns_index; lia|]. intros e.
  apply preserves_bind; [apply preserves_lift|].
  { by destruct (@slice_from_in Failure _ d 4) as (r & -> & _); [lia..|]. }
  intros r. apply preserves_bind; [apply preserves_lift, returns_map_err, split_encoded_field_returns|].
  intros [? remainder].
  apply preserves_bind; [apply preserves_lift, returns_map_err, decode_text_returns|].
  intros text. by apply preserves_modify.
Qed.

Lemma collect_user_text_keeps d : preserves anything (collect_user_text d).
Proof.
  unfold collect_user_text. destruct (Z.ltb_spec (zlen d) 2); [auto with rust|].
  apply preserves_bind; [apply preserves_lift, returns_index; lia|]. intros e.
  apply preserves_bind; [apply preserves_lift|].
  { by destruct (@slice_from_in str _ d 1) as (r & -> & _); [lia..|]. }
  intros r. apply preserves_bind; [apply preserves_lift, split_encoded_field_returns|].
  intros [description remainder].
  apply preserves_bind; [apply preserves_lift, decode_text_returns|]. intros value.
  apply preserves_bind; [destruct (_ || _); [by apply preserves_modify|auto with rust]|].
  intros []. destruct (starts_with _ _); [|auto with rust].
  apply preserves_bind; [auto with rust|]. intros v.
  case_bool_decide; [auto with rust|by apply preserves_modify].
Qed.

Lemma collect_frame_keeps frame version : preserves anything (collect_frame frame version).
Proof.
  unfold collect_frame. destruct (canonical_name _ _) as [key|].
  - destruct (is_blank_text _ _); [auto with rust|].
    apply preserves_bind; [apply preserves_lift, returns_map_err, decode_text_values_returns|].
    intros vs. by apply preserves_modify.
  - apply preserves_bind.
    { case_bool_decide; [|auto with rust]. apply preserves_on_err, collect_user_text_keeps. }
    intros []. repeat case_bool_decide; auto using collect_lyrics_keeps with rust.
    all: apply preserves_bind; [apply preserves_lift, returns_map_err, decode_picture_returns|];
      intros p; by apply preserves_modify.
Qed.

Lemma collect_all_total frames version v : ∃ r, collect_all frames version v = Ok r.
Proof.
  revert v. induction frames as [|f frames IH]; intros v; cbn [collect_all]; [eauto|].
  destruct (collect_frame_keeps f version v I) as [_ Hr].
  destruct (collect_frame f version v) as [[a|e| |] v']; try done;
    destruct (IH v') as [[? ?] ->]; eauto.
Qed.

Lemma collect_values_total frames version : ∃ r, collect_values frames version = Ok r.
Proof.
  unfold collect_values. destruct (collect_all_total frames version no_values) as [[? ?] ->]. eauto.
Qed.
End CollectLemmas.

(** ** The assembled tag *)

Definition not_artwork (l : Leaf) : Prop := ∃ e, l = Inspection e ∧ field e ≠ st "artwork".

Lemma identity_not_artwork l : identity_failure l → not_artwork l.
Proof.
  intros (e & -> & _ & Hin). exists e. split; [done|]. intros E. rewrite E in Hin.
  assert (bool_decide (st "artwork" ∈ IDENTITY_FIELDS) = false) as Hno by (vm_compute; reflexivity).
  by apply bool_decide_eq_false in Hno.
Qed.

Lemma exclude_artwork_keeps f keys : Forall not_artwork f → Forall (λ k, k = st "artwork") keys →
  exclude_fields f keys = f.
Proof.
  intros Hf Hk. unfold exclude_fields. induction Hf as [|l f (e & -> & He) Hf IH]; [done|].
  rewrite filter_cons_True; [by rewrite IH|].
  rewrite bool_decide_eq_false_2; [done|]. intros Hin. rewrite Forall_forall in Hk. by apply He, Hk.
Qed.

Lemma excluded_fields f : exclude_fields f [st "artwork"] = [] →
  Forall (λ k, k = st "artwork") (fields f).
Proof.
  unfold exclude_fields, fields, inspection_errors. induction f as [|[e|text] f IH]; [constructor| |].
  - destruct (decide (field e = st "artwork")) as [E|E].
    + rewrite filter_cons_False; [|rewrite bool_decide_eq_true_2; [done|by rewrite E; left]].
      intros Hf. cbn. constructor; auto.
    + rewrite filter_cons_True; [done|]. rewrite bool_decide_eq_false_2; [done|].
      by rewrite list_elem_of_singleton.
  - by rewrite filter_cons_True.
Qed.

Section TagLemmas.
Context `{Unicode, Images}.

Lemma gain_of_cases v key peak : key ≠ st "artwork" →
  returns (gain_of v key peak) ∧ Forall not_artwork (default [] (err_of (gain_of v key peak))).
Proof.
  intros Hk. unfold gain_of. destruct (replay_gains v !! key) as [text|]; [|by split; [|constructor]].
  destruct (if peak then _ else _); (split; [done|]); simpl; [constructor|].
  constructor; [|constructor]. by eexists.
Qed.

Lemma normalize_values_cases v :
  match normalize_values v with
  | Ok _ => True
  | Err f => f ≠ [] ∧ Forall not_artwork f
  | _ => False
  end.
Proof.
  unfold normalize_values. set (tg := gain_of v (st "REPLAYGAIN_TRACK_GAIN") false).
  set (tp := gain_of v (st "REPLAYGAIN_TRACK_PEAK") true).
  set (ag := gain_of v (st "REPLAYGAIN_ALBUM_GAIN") false).
  set (ap := gain_of v (st "REPLAYGAIN_ALBUM_PEAK") true).
  set (rg := mkReplayGain _ _ _ _).
  assert (∀ key peak, bool_decide (key = st "artwork") = false →
    Forall not_artwork (default [] (err_of (gain_of v key peak)))) as Hg.
  { intros key peak Hk. apply bool_decide_eq_false in Hk. by apply gain_of_cases. }
  pose proof (normalize_cases (tags v) rg) as Hn. unfold into_result. case_bool_decide as Hf.
  - cbn [mbind outcome_bind]. destruct (normalize (tags v) rg) as [m|f| |]; try done.
    destruct Hn as [Hne Hid]. split; [done|]. by eapply Forall_impl; [|apply identity_not_artwork].
  - split; [done|]. rewrite !fjoin_cons. repeat apply Forall_app_2; [..|constructor].
    1-4: apply Hg; vm_compute; reflexivity.
    destruct (normalize (tags v) rg) as [m|f| |]; simpl; try constructor.
    destruct Hn as [Hne Hid]. by eapply Forall_impl; [|apply identity_not_artwork].
Qed.

Lemma front_cover_returns ps : images_return → returns (front_cover_artwork ps).
Proof.
  intros Hi. unfold front_cover_artwork. apply returns_bind; [|intros; by apply validate_returns].
  unfold select_front_cover. repeat case_match; done.
Qed.

(** What [assemble_tag] promises of every tag. *)
Lemma assemble_tag_cases v pf n : images_return →
  ∃ t, assemble_tag v pf n = Ok t ∧ offset t = n ∧ metadata t = normalize_values v ∧
    (failure t = [] → ∃ m, metadata t = Ok m) ∧
    (st "artwork" ∈ issue_field <$> issues pf → warning (artwork t) = INVALID_ARTWORK_WARNING).
Proof.
  intros Hi. unfold assemble_tag. pose proof (normalize_values_cases v) as Hm.
  pose proof (returns_optional_artwork _ (front_cover_returns (pictures v) Hi)) as Hart.
  set (art0 := optional_artwork (front_cover_artwork (pictures v))) in *.
  set (issue := find _ _).
  set (pair := match issue with Some _ => _ | None => _ end).
  assert (∃ art pf', pair = (art, pf') ∧ returns art ∧ (pf' = [] → Forall (λ k, k = st "artwork") (fields pf)) ∧
    (st "artwork" ∈ issue_field <$> issues pf → ok_of art = Some (mkArtwork INVALID_ARTWORK_WARNING [] 0 0 [] [])))
    as (art & pf' & -> & Hr & Hpf & Hw).
  { unfold pair, issue. destruct (find _ (issues pf)) as [i|] eqn:Hfind.
    - do 2 eexists. split; [done|]. split_and!; [done| |done]. apply excluded_fields.
    - do 2 eexists. split; [done|]. split_and!; [done|by intros ->|].
      intros (j & Hj & Hin)%list_elem_of_fmap. apply list_elem_of_In in Hin.
      pose proof (find_none _ _ Hfind j Hin) as Hnone. simpl in Hnone.
      by apply bool_decide_eq_false in Hnone. }
  assert (∀ md : outcome Failure NormalizedMetadata,
    md = normalize_values v → returns md →
    fjoin [Some pf'; Some (exclude_fields (fjoin [err_of md; err_of art]) (fields pf))] = [] →
    ∃ m, md = Ok m) as Hno.
  { intros md -> Hret Hall. rewrite !fjoin_cons in Hall. apply app_nil in Hall as [Hp Hrest].
    simpl in Hp. specialize (Hpf Hp). destruct (normalize_values v) as [m|f| |] eqn:E; try done; [eauto|].
    destruct Hm as [Hne Hna]. simpl in Hrest. rewrite app_nil_r in Hrest.
    unfold exclude_fields in Hrest. rewrite filter_app in Hrest. apply app_nil in Hrest as [Hrest _].
    change (exclude_fields f (fields pf) = []) in Hrest. by rewrite (exclude_artwork_keeps f) in Hrest. }
  destruct (normalize_values v) as [m|f| |]; try done; destruct art as [a|e| |]; try done;
    (eexists; split; [done|]); cbn [offset metadata failure artwork]; split_and!; try done; eauto.
  all: intros Hin; specialize (Hw Hin); simpl in Hw; by simplify_eq.
Qed.

Context `{World}.

Lemma read_frames_keeps : preserves at_file read_frames.
Proof.
  unfold read_frames. apply preserves_bind; [auto with rust|]. intros header.
  apply preserves_bind.
  { apply preserves_lift. pose proof (parse_header_cases header). by destruct (parse_header header). }
  intros [version size]. apply preserves_bind; [auto with rust|]. intros body.
  apply preserves_bind; [|auto with rust]. apply preserves_lift.
  pose proof (parse_frames_cases body version). by destruct (parse_frames body version).
Qed.

Lemma read_frames_Ok s frames version n s' : at_file s →
  read_frames s = (Ok (frames, version, n), s') →
  2 <= version <= 4 ∧ 10 < n <= MAX_TAG_SIZE_BYTES + 10 ∧ pos s' = pos s + n ∧
  pos s' <= Z.max (pos s) file_len ∧ Forall frame_ok frames ∧ frames_size version frames + 10 <= n ∧
  parse_frames (sub file (pos s + 10) (n - 10)) version = Ok frames ∧ tag_header (sub file (pos s) 10) (n - 10).
Proof.
  intros Hs H2. unfold read_frames, HEADER_SIZE_BYTES in H2. peel_m.
  match goal with H : read_exact 10 s = _ |- _ => apply read_exact_Ok in H as (Hl & Hheader & Hp1 & _); [|done|lia] end.
  destruct x1 as [v size]. peel_m.
  match goal with H : lift (parse_header _) _ = _ |- _ => injection H as Hh <- end.
  pose proof (parse_header_tag _ _ _ Hh) as Htag.
  match type of Hh with parse_header ?h = _ => pose proof (parse_header_cases h) as Hc end.
  rewrite Hh in Hc. destruct Hc as (Hv & Hsz & _).
  unfold at_file in Hs.
  match goal with H : read_exact size _ = _ |- _ =>
    apply read_exact_Ok in H as (Hb & Hsub & Hp2 & Hin); [|unfold at_file; lia|lia] end.
  match goal with H : lift (parse_frames _ _) _ = _ |- _ => injection H as Hf <- end.
  simplify_eq. pose proof (parse_frames_cases (sub file (pos x0) size) version) as Hc. rewrite Hf in Hc.
  destruct Hc as [Hok Hfs]. split_and!; try done; try lia.
  - replace (10 + size - 10) with size by lia. by rewrite <-Hp1.
  - by replace (10 + size - 10) with size by lia.
Qed.

Lemma inspect_tag_cases s :
  images_return → at_file s →
  match inspect_tag s with
  | (Ok t, s') => 10 < offset t <= MAX_TAG_SIZE_BYTES + 10 ∧ pos s' = pos s + offset t ∧
      pos s' <= Z.max (pos s) file_len ∧ (failure t = [] → ∃ m, metadata t = Ok m) ∧
      tag_header (sub file (pos s) 10) (offset t - 10) ∧
      ∃ version frames v pf,
        parse_frames (sub file (pos s + 10) (offset t - 10)) version = Ok frames ∧
        collect_values frames version = Ok (v, pf) ∧ metadata t = normalize_values v ∧
        (st "artwork" ∈ issue_field <$> issues pf → warning (artwork t) = INVALID_ARTWORK_WARNING)
  | (Err f, s') => at_file s'
  | _ => False
  end.
Proof.
  intros Hi Hs. unfold inspect_tag. destruct (read_frames_keeps s Hs) as [Hat Hr].
  unfold mbind, M_bind. destruct (read_frames s) as [[[[frames version] n]|f| |] s1] eqn:Hrf; try done.
  destruct (collect_values_total frames version) as [[v pf] Hcv].
  unfold lift. rewrite Hcv. destruct (assemble_tag_cases v pf n Hi) as (t & -> & <- & Hm & Hf & Hw).
  apply read_frames_Ok in Hrf as (_ & Hn & Hp & Hin & _ & _ & Hparse & Htag); [|done].
  split_and!; try done; try lia. eauto 10.
Qed.

(** reading a tag. Reading an ID3 tag off a file always ends. A tag that is
    read took its header and its declared size and nothing more, at most the size
    limit, inside the file, and its frames are those the bytes hold; a tag without
    failures has valid metadata, so a malformed picture never hides a bad identity
    field; a malformed picture frame leaves the artwork warning and nothing else
    of the picture. *)
Theorem inspect_tag_correct s :
  images_return → at_file s →
  match inspect_tag s with
  | (Ok t, s') => 10 < offset t <= MAX_TAG_SIZE_BYTES + 10 ∧ pos s' = pos s + offset t ∧
      pos s' <= Z.max (pos s) file_len ∧ (failure t = [] → ∃ m, metadata t = Ok m) ∧
      tag_header (sub file (pos s) 10) (offset t - 10) ∧
      ∃ version frames v pf,
        parse_frames (sub file (pos s + 10) (offset t - 10)) version = Ok frames ∧
        collect_values frames version = Ok (v, pf) ∧ metadata t = normalize_values v ∧
        (st "artwork" ∈ issue_field <$> issues pf → warning (artwork t) = INVALID_ARTWORK_WARNING)
  | (Err f, s') => at_file s'
  | _ => False
  end.
Proof. apply inspect_tag_cases. Qed.
End TagLemmas.

(** One title frame and six bytes of padding. *)
Definition example_tag : list byte :=
  bs "ID3" ++ [x03; x00; x00; x00; x00; x00] ++ [z2b 20] ++
  render_frame 3 (mkFrame (st "TIT2") (z2b 0 :: bs "abc")) ++ replicate 6 x00.

Lemma inspect_tag_correct_witness :
  @images_return example_images ∧
  match @inspect_tag ascii_unicode example_images (plain_world example_tag) io_start with
  | (Ok t, s') => 10 < offset t <= MAX_TAG_SIZE_BYTES + 10 ∧ pos s' = 0 + offset t
  | _ => False
  end.
Proof.
  pose proof example_images_return as Hi. split; [exact Hi|].
  pose proof (@inspect_tag_correct ascii_unicode example_images (plain_world example_tag) io_start
    Hi ltac:(done)) as H.
  assert (bool_decide (is_Some (ok_of
    (@inspect_tag ascii_unicode example_images (plain_world example_tag) io_start).1)) = true) as E
    by (vm_compute; reflexivity).
  destruct (inspect_tag _) as [[t|f| |] s']; try discriminate E.
  destruct H as (H1 & H2 & _). split; [exact H1|exact H2].
Defined.

(** A tag with every identity frame. *)
Definition text_frame (n v : string) : list byte :=
  render_frame 3 (mkFrame (st n) (z2b 0 :: bs v)).

Definition example_frames : list byte :=
  text_frame "TIT2" "T" ++ text_frame "TPE1" "A" ++ text_frame "TPE2" "B" ++
  text_frame "TALB" "C" ++ text_frame "TRCK" "1".

Definition example_id3 : list byte :=
  bs "ID3" ++ [x03; x00; x00; x00; x00; x00] ++ [z2b (zlen example_frames)] ++ example_frames.
