(* ===== verification/Wav.v ===== *)
(** WAV files (inspect/wav.rs): integer PCM in a RIFF WAVE container with an ID3
    chunk for identity metadata. *)

From stdpp Require Import gmap.
From S2P Require Import Prelude Text Failure Inspector Metadata Artwork Id3.

Definition PCM : Z := 0x0001.
Definition EXTENSIBLE : Z := 0xfffe.
Definition RIFF_HEADER_SIZE_BYTES : Z := 12.
Definition FMT_MIN_SIZE_BYTES : Z := 16.
Definition FMT_WAVEFORMATEX_SIZE_BYTES : Z := 18.
Definition FMT_EXTENSIBLE_SIZE_BYTES : Z := 40.
Definition PCM_SUBFORMAT : list byte :=
  [x01; x00; x00; x00; x00; x00; x10; x00; x80; x00; x00; xaa; x00; x38; x9b; x71].

Record Format := mkFormat {
  audio_format : Z;
  channel_count : Z;
  sample_rate_hz : Z;
  bytes_per_second : Z;
  block_align : Z;
  bits_per_sample : Z;
  cb_size : Z;
  valid_bits : Z;
  sub_format : list byte
}.

Record Chunks := mkChunks {
  fmt_chunk : Format;
  data_offset : Z;
  data_size : Z;
  id3_tags : Tags;
  id3_pictures : list TaggedPicture
}.

(** serde_json's quoting of a string. *)
Class Json := { to_json : str → option str }.

Definition unsupported (m : str) : Failure := error UnsupportedFormat (st "container") m.

Definition u16_at {E} (d : list byte) (at_ : Z) : outcome E Z :=
  a ← index d at_; b ← index d (at_ + 1); Ok (le [a; b]).
Definition u32_at {E} (d : list byte) (at_ : Z) : outcome E Z :=
  w ← slice d at_ (at_ + 4); Ok (le w).

(** [{:04x}] of a 16-bit number. *)
Definition hex_digit (n : Z) : Z := if n <? 10 then 48 + n else 87 + n.
Definition hex4 (n : Z) : str :=
  [hex_digit (n / 4096); hex_digit (n / 256 mod 16); hex_digit (n / 16 mod 16); hex_digit (n mod 16)].

(** [{:02}] *)
Definition two_digits (n : Z) : str := if n <? 10 then st "0" ++ show n else show n.

(** ** The format *)

(** The checks of [validate_format] on the format it takes [f] for. *)
Definition validate_as (f : Format) (pcm : Z) : outcome Failure unit :=
  if negb (pcm =? PCM) then
    Err (unsupported (st "WAV audio format 0x" ++ hex4 (audio_format f) ++ st " is not integer PCM"))
  else if (channel_count f =? 0) || (8 <? channel_count f) then
    Err (audio_error (st "channel count " ++ show (channel_count f) ++ st " is invalid"))
  else if negb (in_range 8000 384000 (sample_rate_hz f)) then
    Err (audio_error (st "sample rate " ++ show (sample_rate_hz f) ++ st " is invalid"))
  else if negb (bits_per_sample f mod 8 =? 0) || negb (in_range 8 32 (bits_per_sample f)) then
    Err (audio_error (st "bit depth " ++ show (bits_per_sample f) ++ st " is invalid"))
  else if negb (block_align f =? channel_count f * (bits_per_sample f / 8)) then
    Err (audio_error (st "block align " ++ show (block_align f) ++
                      st " does not match channels and bit depth"))
  else if negb (bytes_per_second f =? sample_rate_hz f * block_align f mod 2 ^ 32) then
    Err (audio_error (st "byte rate does not match sample rate and block align"))
  else if (audio_format f =? EXTENSIBLE) &&
          ((valid_bits f =? 0) || (bits_per_sample f <? valid_bits f)) then
    Err (audio_error (st "valid bits " ++ show (valid_bits f) ++
      st " must be positive and no greater than container bit depth " ++ show (bits_per_sample f)))
  else Ok tt.

Definition validate_format (f : Format) : outcome Failure unit :=
  pcm ← (
    if audio_format f =? EXTENSIBLE then
      if negb (cb_size f =? FMT_EXTENSIBLE_SIZE_BYTES - FMT_WAVEFORMATEX_SIZE_BYTES) then
        Err (unsupported (st "extensible fmt extension size " ++ show (cb_size f) ++ st " is invalid"))
      else if negb (bool_decide (sub_format f = PCM_SUBFORMAT)) then
        Err (unsupported (st "WAV subformat is not integer PCM"))
      else Ok PCM
    else Ok (audio_format f));
  validate_as f pcm.

(** The body of [read_format] once its bytes are read. *)
Definition parse_format (body : list byte) (size : Z) : outcome Failure Format :=
  tag ← u16_at body 0; channels ← u16_at body 2; rate ← u32_at body 4;
  bytes ← u32_at body 8; align ← u16_at body 12; bits ← u16_at body 14;
  cb ← (if FMT_WAVEFORMATEX_SIZE_BYTES <=? size then u16_at body 16 else Ok 0);
  f ← (if tag =? EXTENSIBLE then
         if size <? FMT_EXTENSIBLE_SIZE_BYTES then
           Err (unsupported (st "extensible fmt chunk is truncated"))
         else
           valid ← u16_at body 18; sub ← slice body 24 40;
           Ok (mkFormat tag channels rate bytes align bits cb valid sub)
       else if negb (size =? FMT_MIN_SIZE_BYTES) &&
               (negb (size =? FMT_WAVEFORMATEX_SIZE_BYTES) || negb (cb =? 0)) then
         Err (unsupported (st "PCM fmt chunk size " ++ show size ++ st " is invalid"))
       else Ok (mkFormat tag channels rate bytes align bits cb 0 (replicate 16 x00)));
  _ ← validate_format f;
  Ok f.

Section Wav.
Context `{Unicode, Images, World, Json}.

Definition go_quote (value : str) : str := default [] (to_json value).

Definition read_format (size : Z) : M Io Failure Format :=
  if negb (in_range FMT_MIN_SIZE_BYTES FMT_EXTENSIBLE_SIZE_BYTES size) then
    fail (unsupported (st "fmt chunk size " ++ show size ++ st " is invalid"))
  else
    body ← on_err (λ c, file_error (st "read fmt chunk: " ++ io_message c)) (read_exact size);
    lift (parse_format body size).

(** [read_id3]: the shared strict ID3 parser over a bounded chunk, and what it
    makes of the chunk's bytes. *)
Definition parse_id3 (body : list byte) : outcome Failure (Tags * list TaggedPicture) :=
  '(version, tag_size) ← parse_header body;
  if negb (HEADER_SIZE_BYTES + tag_size =? zlen body) then
    Err (Id3.invalid (st "ID3 tag size is invalid"))
  else
    rest ← slice_from body HEADER_SIZE_BYTES;
    frames ← parse_frames rest version;
    '(values, failure) ← collect_values frames version;
    _ ← into_result failure;
    Ok (tags values, pictures values).

Definition read_id3 (size : Z) : M Io Failure (Tags * list TaggedPicture) :=
  if (size <? HEADER_SIZE_BYTES) || (MAX_TAG_SIZE_BYTES + HEADER_SIZE_BYTES <? size) then
    fail (Id3.invalid (st "ID3 chunk size " ++ show size ++ st " is invalid"))
  else
    body ← on_err (λ c, file_error (st "read ID3 chunk: " ++ io_message c)) (read_exact size);
    lift (parse_id3 body).

(** What the walk over the chunks has found so far. *)
Record Found := mkFound {
  found_format : option Format;
  found_data : option (Z * Z);
  found_id3 : option (Tags * list TaggedPicture)
}.

(** One chunk's body. *)
Definition read_chunk (id : list byte) (body_offset size : Z) (found : Found) : M Io Failure Found :=
  if bool_decide (id = bs "fmt ") then
    parsed ← read_format size;
    if bool_decide (is_Some (found_format found)) then
      fail (unsupported (st "multiple fmt chunks are ambiguous"))
    else mret (mkFound (Some parsed) (found_data found) (found_id3 found))
  else if bool_decide (id = bs "data") then
    if bool_decide (is_Some (found_data found)) then
      fail (unsupported (st "multiple data chunks are ambiguous"))
    else mret (mkFound (found_format found) (Some (body_offset, size)) (found_id3 found))
  else if bool_decide (id = bs "ID3 ") || bool_decide (id = bs "id3 ") then
    parsed ← read_id3 size;
    if bool_decide (is_Some (found_id3 found)) then
      fail (error InvalidMetadata (st "metadata") (st "multiple ID3 chunks are ambiguous"))
    else mret (mkFound (found_format found) (found_data found) (Some parsed))
  else mret found.

(** The loop of [read_chunks]: a chunk's header, its body and its padding. *)
Fixpoint chunk_loop (fuel : nat) (size_bytes offset : Z) (found : Found) : M Io Failure Found :=
  match fuel with
  | O => lift OutOfFuel
  | S fuel =>
      header ← on_err (λ c, unsupported (st "read RIFF chunk header: " ++ io_message c)) (read_exact 8);
      id ← lift (slice header 0 4);
      size ← lift (u32_at header 4);
      let body_offset := offset + 8 in
      if size_bytes <? body_offset + size then
        fail (unsupported (st "RIFF chunk " ++ go_quote (from_utf8_lossy id) ++
                           st " extends past the file"))
      else
        found ← read_chunk id body_offset size found;
        let next := body_offset + size in
        if (size mod 2 =? 1) && (size_bytes <=? next) then
          fail (unsupported (st "RIFF chunk " ++ go_quote (from_utf8_lossy id) ++
                             st " is missing its padding byte"))
        else
          let next := if size mod 2 =? 1 then next + 1 else next in
          if size_bytes <=? next then mret found
          else
            _ ← on_err (λ c, file_error (st "seek RIFF chunk: " ++ io_message c)) (seek next);
            chunk_loop fuel size_bytes next found
  end.

(** Every round moves on by a chunk header at least, so the file's length is
    enough rounds. *)
Definition read_chunks (size_bytes : Z) : M Io Failure Chunks :=
  _ ← on_err (λ c, file_error (st "seek past WAV header: " ++ io_message c))
        (seek RIFF_HEADER_SIZE_BYTES);
  found ← chunk_loop (S (Z.to_nat size_bytes)) size_bytes RIFF_HEADER_SIZE_BYTES
            (mkFound None None None);
  format ← lift (ok_or (found_format found) (unsupported (st "WAV fmt chunk is missing")));
  let '(offset, size) := default (0, 0) (found_data found) in
  if size =? 0 then fail (audio_error (st "WAV data chunk is missing or empty"))
  else
    '(ts, ps) ← lift (ok_or (found_id3 found) (error InvalidMetadata (st "metadata")
                        (st "WAV ID3 chunk is missing; identity metadata is required")));
    mret (mkChunks format offset size ts ps).

(** ** Samples *)

Definition PCM_BUFFER : Z := 1024 * 1024.

Fixpoint pcm_loop (fuel : nat) (align size frame_count remaining : Z) : M Io Failure unit :=
  if remaining <=? 0 then mret tt else
  match fuel with
  | O => lift OutOfFuel
  | S fuel =>
      _ ← check;
      '(bytes, stopped) ← read_full (Z.min remaining PCM_BUFFER);
      let remaining := remaining - zlen bytes in
      read_frames ← lift (div_u64 (size - remaining) align);
      _ ← report read_frames frame_count (size - remaining) size false;
      match stopped with
      | Some cause => fail (audio_error (st "read PCM samples: " ++ cause))
      | None => pcm_loop fuel align size frame_count remaining
      end
  end.

Definition decode_pcm (c : Chunks) : M Io Failure TechnicalAudio :=
  let f := fmt_chunk c in
  let size := data_size c in
  if negb (if block_align f =? 0 then size =? 0 else size mod block_align f =? 0) then
    fail (audio_error (st "data chunk size " ++ show size ++ st " is not a whole number of PCM frames"))
  else
    frame_count ← lift (div_u64 size (block_align f));
    _ ← on_err (λ e, file_error (st "seek WAV data chunk: " ++ io_message e)) (seek (data_offset c));
    _ ← check;
    _ ← pcm_loop (Z.to_nat size) (block_align f) size frame_count size;
    ms ← lift (mul_u64 frame_count 1000);
    duration_ms ← lift (div_u64 ms (sample_rate_hz f));
    if duration_ms <=? 0 then fail (audio_error (st "decoded duration is not positive")) else
    let bitrate_kbps := (bytes_per_second f * 8 + 500) / 1000 in
    if bitrate_kbps <=? 0 then fail (audio_error (st "average encoded bitrate is not positive"))
    else
      _ ← report frame_count frame_count size size true;
      mret (mkAudio (st "wav") (st "wav")
              (if bits_per_sample f =? 8 then st "pcm_u8"
               else st "pcm_s" ++ two_digits (bits_per_sample f) ++ st "le")
              duration_ms (sample_rate_hz f) (channel_count f)
              (if 0 <? valid_bits f then valid_bits f else bits_per_sample f) bitrate_kbps).

Definition inspect : M Io Failure MediaInspection :=
  '(sha, size_bytes) ← hash_file;
  header ← on_err (λ c, file_error (st "read WAV header: " ++ io_message c))
             (read_exact RIFF_HEADER_SIZE_BYTES);
  declared ← lift (u32_at header 4);
  if negb (declared + RIFF_HEADER_SIZE_BYTES - 4 =? size_bytes) then
    fail (unsupported (st "RIFF size " ++ show declared ++ st " does not match the file size " ++
                       show size_bytes))
  else
    chunks ← read_chunks size_bytes;
    let normalized := normalize (id3_tags chunks) no_replay_gain in
    let art := optional_artwork (front_cover_artwork (id3_pictures chunks)) in
    audio ← try (decode_pcm chunks);
    _ ← lift (into_result (fjoin [err_of normalized; err_of art; err_of audio]));
    m ← lift normalized; a ← lift art; t ← lift audio;
    mret (mkInspection m a t sha).
End Wav.

(** ** What is accepted as integer PCM *)

Record integer_pcm (f : Format) : Prop := {
  pcm_tag : audio_format f = PCM ∨
    audio_format f = EXTENSIBLE ∧ cb_size f = 22 ∧ sub_format f = PCM_SUBFORMAT ∧
    valid_bits f ≠ 0 ∧ valid_bits f <= bits_per_sample f;
  pcm_channels : channel_count f ≠ 0 ∧ channel_count f <= 8;
  pcm_rate : 8000 <= sample_rate_hz f <= 384000;
  pcm_bits : bits_per_sample f ∈ [8; 16; 24; 32];
  pcm_align : block_align f = channel_count f * (bits_per_sample f / 8);
  pcm_byte_rate : bytes_per_second f = sample_rate_hz f * block_align f mod 2 ^ 32
}.

Lemma whole_bytes n : n mod 8 = 0 ∧ 8 <= n <= 32 ↔ n ∈ [8; 16; 24; 32].
Proof. rewrite !elem_of_cons, elem_of_nil. split; [intros; Z.div_mod_to_equations; lia|]. intros [->|[->|[->|[->|[]]]]]; split; done || lia. Qed.

(** A check that accepts exactly [P] and otherwise blames the file's format or
    its audio. *)
Definition blames_format (e : Failure) : Prop :=
  ∃ c, code <$> first e = Some c ∧ c ∈ [UnsupportedFormat; AudioDecode].
Definition verdict (P : Prop) (o : outcome Failure unit) : Prop :=
  match o with Ok _ => P | Err e => ¬ P ∧ blames_format e | _ => False end.

Lemma blames_unsupported m : blames_format (unsupported m).
Proof. eexists. split; [done|]. by left. Qed.
Lemma blames_audio m : blames_format (audio_error m).
Proof. eexists. split; [done|]. right. by left. Qed.

Lemma verdict_iff P Q o : (P ↔ Q) → verdict P o → verdict Q o.
Proof. destruct o; simpl; tauto. Qed.

Lemma verdict_guard (b : bool) e rest P Q : (b = false ↔ P) → blames_format e →
  verdict Q rest → verdict (P ∧ Q) (if b then Err e else rest).
Proof. destruct b, rest; simpl; intuition congruence. Qed.

(** The checks [validate_format] makes of a plain format, in its order. *)
Definition plain_checks (f : Format) : Prop :=
  (channel_count f ≠ 0 ∧ channel_count f <= 8) ∧ (8000 <= sample_rate_hz f <= 384000) ∧
  (bits_per_sample f ∈ [8; 16; 24; 32]) ∧
  (block_align f = channel_count f * (bits_per_sample f / 8)) ∧
  (bytes_per_second f = sample_rate_hz f * block_align f mod 2 ^ 32) ∧
  (audio_format f = EXTENSIBLE → valid_bits f ≠ 0 ∧ valid_bits f <= bits_per_sample f) ∧ True.

Lemma integer_pcm_alt f : integer_pcm f ↔
  (audio_format f = PCM ∨
   audio_format f = EXTENSIBLE ∧ cb_size f = 22 ∧ sub_format f = PCM_SUBFORMAT) ∧ plain_checks f.
Proof.
  assert (PCM ≠ EXTENSIBLE) as Hpe by done. unfold plain_checks. split.
  - intros [Ht ? ? ? ? ?]. split; [tauto|]. split_and!; try tauto.
    all: intros E; destruct Ht as [Ht|Ht]; [congruence|tauto].
  - intros (Ht & ? & ? & ? & ? & ? & Hv & _). split; try done. tauto.
Qed.

(** the format gate. A format is accepted exactly when it is integer PCM,
    plain or as a well-formed extensible format, of one to eight channels, a rate
    within bounds, whole bytes per sample and consistent sizes; any other is
    refused as an unsupported container or a bad audio stream, and nothing
    panics. *)
Theorem validate_format_spec f : verdict (integer_pcm f) (validate_format f).
Proof.
  assert (PCM ≠ EXTENSIBLE) as Hpe by done.
  eapply verdict_iff; [symmetry; apply integer_pcm_alt|].
  assert (∀ pcm, verdict ((pcm = PCM) ∧ plain_checks f) (validate_as f pcm)) as Hchecks.
  { intros p. unfold validate_as. apply verdict_guard; [|apply blames_unsupported|].
    { rewrite negb_false_iff. apply Z.eqb_eq. }
    repeat apply verdict_guard; try apply blames_audio; [..|done];
      rewrite ?orb_false_iff, ?negb_false_iff, ?Z.eqb_eq, ?Z.eqb_neq, ?Z.ltb_ge; try done.
    - unfold in_range. rewrite andb_true_iff, !Z.leb_le. done.
    - unfold in_range. rewrite andb_true_iff, !Z.leb_le. apply whole_bytes.
    - rewrite andb_false_iff, orb_false_iff, Z.eqb_neq, Z.eqb_neq, Z.ltb_ge.
      destruct (decide (audio_format f = EXTENSIBLE)); tauto. }
  unfold validate_format.
  destruct (Z.eqb_spec (audio_format f) EXTENSIBLE) as [He|He].
  - destruct (Z.eqb_spec (cb_size f) 22) as [Hcb|Hcb].
    2: { unfold FMT_EXTENSIBLE_SIZE_BYTES, FMT_WAVEFORMATEX_SIZE_BYTES.
         change (40 - 18) with 22. rewrite (proj2 (Z.eqb_neq _ _) Hcb). split; [|apply blames_unsupported].
         intros [[?|?] _]; [congruence|tauto]. }
    rewrite Hcb. cbn [negb Z.eqb]. change (22 =? _) with true. cbn [negb].
    case_bool_decide as Hsub; cbn [negb].
    + cbn [mbind outcome_bind]. eapply verdict_iff; [|apply Hchecks]. tauto.
    + split; [|apply blames_unsupported]. intros [[?|?] _]; [congruence|tauto].
  - cbn [mbind outcome_bind]. eapply verdict_iff; [|apply Hchecks]. tauto.
Qed.

(** A format as the parser reads it: unsigned fields, and valid bits only in an
    extensible one. *)
Definition wav_format (f : Format) : Prop :=
  integer_pcm f ∧ 0 <= channel_count f ∧ 0 <= valid_bits f ∧
  (audio_format f ≠ EXTENSIBLE → valid_bits f = 0).

Lemma u16_at_in {E} (d : list byte) at_ : 0 <= at_ → at_ + 2 <= zlen d →
  ∃ v, @u16_at E d at_ = Ok v ∧ 0 <= v.
Proof.
  intros. unfold u16_at. destruct (@index_in E _ d at_) as (a & -> & _); [lia..|].
  destruct (@index_in E _ d (at_ + 1)) as (b & -> & _); [lia..|].
  eexists. split; [done|]. apply le_bound.
Qed.

Lemma u32_at_in {E} (d : list byte) at_ : 0 <= at_ → at_ + 4 <= zlen d →
  @u32_at E d at_ = Ok (le (sub d at_ 4)).
Proof.
  intros. unfold u32_at. rewrite slice_in by lia. by replace (at_ + 4 - at_) with 4 by lia.
Qed.

Lemma parse_format_cases body size :
  FMT_MIN_SIZE_BYTES <= size <= FMT_EXTENSIBLE_SIZE_BYTES → zlen body = size →
  match parse_format body size with
  | Ok f => wav_format f
  | Err e => blames_format e
  | _ => False
  end.
Proof.
  unfold FMT_MIN_SIZE_BYTES, FMT_EXTENSIBLE_SIZE_BYTES, FMT_WAVEFORMATEX_SIZE_BYTES, parse_format.
  intros Hs Hl.
  destruct (@u16_at_in Failure body 0) as (tag & -> & ?); [lia..|].
  destruct (@u16_at_in Failure body 2) as (channels & -> & ?); [lia..|].
  rewrite (u32_at_in body 4), (u32_at_in body 8) by lia.
  destruct (@u16_at_in Failure body 12) as (align & -> & ?); [lia..|].
  destruct (@u16_at_in Failure body 14) as (bits & -> & ?); [lia..|]. cbn [mbind outcome_bind].
  set (rate := le _). set (bytes := le _).
  assert (∃ cb, (if FMT_WAVEFORMATEX_SIZE_BYTES <=? size then u16_at body 16 else Ok 0)
    = @Ok Failure _ cb) as [cb Hcb].
  { unfold FMT_WAVEFORMATEX_SIZE_BYTES. destruct (Z.leb_spec 18 size); [|eauto].
    destruct (@u16_at_in Failure body 16) as (cb & -> & _); [lia..|eauto]. }
  rewrite Hcb. cbn [mbind outcome_bind].
  assert (∀ f, 0 <= channel_count f → 0 <= valid_bits f →
               (audio_format f ≠ EXTENSIBLE → valid_bits f = 0) →
               match (_ ← validate_format f; Ok f) with
               | Ok f => wav_format f | Err e => blames_format e | _ => False end) as Hv.
  { intros f ? ? ?. pose proof (validate_format_spec f) as Hvf. unfold wav_format.
    destruct (validate_format f); simpl in *; tauto. }
  destruct (Z.eqb_spec tag EXTENSIBLE).
  - destruct (Z.ltb_spec size FMT_EXTENSIBLE_SIZE_BYTES) as [|Hlong]; [apply blames_unsupported|].
    unfold FMT_EXTENSIBLE_SIZE_BYTES in Hlong.
    destruct (@u16_at_in Failure body 18) as (valid & -> & ?); [lia..|].
    rewrite (slice_in body 24 40) by lia. by apply Hv.
  - destruct (_ && _); [apply blames_unsupported|by apply Hv].
Qed.

(** A chunk of the file: its name, and where its body lies. *)
Record RiffChunk := mkRiffChunk { chunk_id : list byte; chunk_body : Z; chunk_size : Z }.

Definition is_fmt (c : RiffChunk) : Prop := chunk_id c = bs "fmt ".
Definition is_data (c : RiffChunk) : Prop := chunk_id c = bs "data".
Definition is_id3 (c : RiffChunk) : Prop := chunk_id c = bs "ID3 " ∨ chunk_id c = bs "id3 ".

#[export] Instance is_fmt_dec c : Decision (is_fmt c).
Proof. unfold is_fmt. apply _. Defined.
#[export] Instance is_data_dec c : Decision (is_data c).
Proof. unfold is_data. apply _. Defined.
#[export] Instance is_id3_dec c : Decision (is_id3 c).
Proof. unfold is_id3. apply _. Defined.

(** The chunk whose header is at [at_]. *)
Record chunk_at (d : list byte) (at_ : Z) (c : RiffChunk) : Prop := {
  at_id : chunk_id c = sub d at_ 4;
  at_size : chunk_size c = le (sub d (at_ + 4) 4);
  at_body : chunk_body c = at_ + 8;
  at_inside : chunk_body c + chunk_size c <= zlen d
}.

(** Where the chunk ends, its padding byte included. *)
Definition chunk_end (c : RiffChunk) : Z := chunk_body c + chunk_size c + chunk_size c mod 2.

(** The chunks of [d] from [at_] on tile it to its end. *)
Inductive riff (d : list byte) : Z → list RiffChunk → Prop :=
| riff_last at_ c : chunk_at d at_ c → chunk_end c = zlen d → riff d at_ [c]
| riff_more at_ c cs : chunk_at d at_ c → chunk_end c < zlen d → riff d (chunk_end c) cs →
    riff d at_ (c :: cs).

Definition body_of (d : list byte) (c : RiffChunk) : list byte := sub d (chunk_body c) (chunk_size c).

Lemma filter_one {A} (P : A → Prop) `{∀ x, Decision (P x)} x : P x → filter P [x] = [x].
Proof. intros Hx. by rewrite filter_cons_True. Qed.
Lemma filter_none {A} (P : A → Prop) `{∀ x, Decision (P x)} x : ¬ P x → filter P [x] = [].
Proof. intros Hx. by rewrite filter_cons_False. Qed.

Section ChunkLemmas.
Context `{Unicode, Images, World, Json}.

Lemma parse_id3_returns body : returns (parse_id3 body).
Proof.
  unfold parse_id3, HEADER_SIZE_BYTES. pose proof (parse_header_cases body) as Hc.
  destruct (parse_header body) as [[version size]|e| |]; try done. cbn [mbind outcome_bind].
  destruct Hc as (_ & _ & Hl).
  destruct (negb _); [done|]. destruct (@slice_from_in Failure _ body 10) as (r & -> & _); [lia..|].
  cbn [mbind outcome_bind]. pose proof (parse_frames_cases r version) as Hf.
  destruct (parse_frames r version) as [fs|e| |]; try done. cbn [mbind outcome_bind].
  destruct (collect_values_total fs version) as [[v f] ->]. cbn [mbind outcome_bind].
  apply returns_bind; [apply returns_into_result|done].
Qed.

Lemma read_format_cases size s : at_file s →
  match read_format size s with
  | (Ok f, s') => at_file s' ∧ wav_format f ∧ parse_format (sub file (pos s) size) size = Ok f
  | (Err e, s') => at_file s'
  | _ => False
  end.
Proof.
  intros Hs. unfold read_format. destruct (in_range _ _ size) eqn:Hr; cbn [negb]; [|done].
  unfold in_range in Hr. bool_to_prop.
  unfold FMT_MIN_SIZE_BYTES, FMT_EXTENSIBLE_SIZE_BYTES in *.
  unfold mbind, M_bind, on_err. destruct (read_exact_keeps size s Hs) as [Hk Hret].
  destruct (read_exact size s) as [[body|e| |] s1] eqn:Hre; try done. cbn [map_err].
  apply read_exact_Ok in Hre as (Hl & Hb & _); [|done|lia].
  pose proof (parse_format_cases body size ltac:(split; done) Hl) as Hp. unfold lift. subst body.
  destruct (parse_format _ size); done.
Qed.

Lemma read_id3_cases size s : at_file s →
  match read_id3 size s with
  | (Ok v, s') => at_file s' ∧ parse_id3 (sub file (pos s) size) = Ok v
  | (Err e, s') => at_file s'
  | _ => False
  end.
Proof.
  intros Hs. unfold read_id3, HEADER_SIZE_BYTES. destruct (_ || _) eqn:Hr; [done|]. bool_to_prop.
  unfold mbind, M_bind, on_err. destruct (read_exact_keeps size s Hs) as [Hk Hret].
  destruct (read_exact size s) as [[body|e| |] s1] eqn:Hre; try done. cbn [map_err].
  apply read_exact_Ok in Hre as (Hl & Hb & _); [|done|lia]. unfold lift. subst body.
  pose proof (parse_id3_returns (sub file (pos s) size)) as Hp. by destruct (parse_id3 _).
Qed.

(** What the walk holds once it has met [cs]: one entry per chunk of its kind. *)
Record gathers (found : Found) (cs : list RiffChunk) (found' : Found) : Prop := {
  gathers_fmt : ∃ fs, option_list (found_format found') = option_list (found_format found) ++ fs ∧
    Forall2 (λ c f, wav_format f ∧ parse_format (body_of file c) (chunk_size c) = Ok f)
      (filter is_fmt cs) fs;
  gathers_data : option_list (found_data found') =
    option_list (found_data found) ++ ((λ c, (chunk_body c, chunk_size c)) <$> filter is_data cs);
  gathers_id3 : ∃ vs, option_list (found_id3 found') = option_list (found_id3 found) ++ vs ∧
    Forall2 (λ c v, parse_id3 (body_of file c) = Ok v) (filter is_id3 cs) vs
}.

Lemma gathers_nothing found : gathers found [] found.
Proof. split; [exists []|..|exists []]; by rewrite ?app_nil_r. Qed.

Lemma gathers_app found cs found1 cs' found2 :
  gathers found cs found1 → gathers found1 cs' found2 → gathers found (cs ++ cs') found2.
Proof.
  intros [(fs & Hf & Hf2) Hd (vs & Hv & Hv2)] [(fs' & Hf' & Hf2') Hd' (vs' & Hv' & Hv2')].
  split.
  - exists (fs ++ fs'). rewrite filter_app, Hf', Hf, app_assoc. split; [done|]. by apply Forall2_app.
  - rewrite filter_app, fmap_app, Hd', Hd. by rewrite app_assoc.
  - exists (vs ++ vs'). rewrite filter_app, Hv', Hv, app_assoc. split; [done|]. by apply Forall2_app.
Qed.

Lemma read_chunk_cases c found s : at_file s → pos s = chunk_body c →
  match read_chunk (chunk_id c) (chunk_body c) (chunk_size c) found s with
  | (Ok found', s') => at_file s' ∧ gathers found [c] found'
  | (Err e, s') => at_file s'
  | _ => False
  end.
Proof.
  intros Hs Hp. unfold read_chunk.
  assert (bs "fmt " ≠ bs "data" ∧ bs "fmt " ≠ bs "ID3 " ∧ bs "fmt " ≠ bs "id3 " ∧
          bs "data" ≠ bs "ID3 " ∧ bs "data" ≠ bs "id3 ") as (N1 & N2 & N3 & N4 & N5) by done.
  assert (is_fmt c ↔ chunk_id c = bs "fmt ") as Ef by done.
  assert (is_data c ↔ chunk_id c = bs "data") as Ed by done.
  assert (is_id3 c ↔ chunk_id c = bs "ID3 " ∨ chunk_id c = bs "id3 ") as Ei by done.
  destruct (decide (chunk_id c = bs "fmt ")) as [E|E].
  { rewrite bool_decide_eq_true_2 by done. unfold mbind, M_bind.
    pose proof (read_format_cases (chunk_size c) s Hs) as Hr.
    destruct (read_format (chunk_size c) s) as [[f|e| |] s1]; try done. destruct Hr as (Hat & Hpcm & Hr).
    destruct found as [[f0|] data id3]; cbn; [done|]. split; [done|].
    split; rewrite ?filter_one by tauto; rewrite ?filter_none by intuition congruence.
    - exists [f]. split; [done|]. constructor; [|constructor]. split; [done|].
      unfold body_of. by rewrite <-Hp.
    - by rewrite app_nil_r.
    - exists []. by rewrite app_nil_r. }
  rewrite (bool_decide_eq_false_2 (chunk_id c = bs "fmt ")) by done.
  destruct (decide (chunk_id c = bs "data")) as [E'|E'].
  { rewrite bool_decide_eq_true_2 by done.
    destruct found as [fmt [d0|] id3]; cbn; [done|]. split; [done|].
    split; rewrite ?filter_one by tauto; rewrite ?filter_none by intuition congruence.
    - exists []. by rewrite app_nil_r.
    - done.
    - exists []. by rewrite app_nil_r. }
  rewrite (bool_decide_eq_false_2 (chunk_id c = bs "data")) by done.
  destruct (bool_decide (chunk_id c = bs "ID3 ") || bool_decide (chunk_id c = bs "id3 ")) eqn:E3.
  { apply orb_true_iff in E3. rewrite !bool_decide_eq_true in E3. unfold mbind, M_bind.
    pose proof (read_id3_cases (chunk_size c) s Hs) as Hr.
    destruct (read_id3 (chunk_size c) s) as [[v|e| |] s1]; try done. destruct Hr as (Hat & Hr).
    destruct found as [fmt data [v0|]]; cbn; [done|]. split; [done|].
    split; rewrite ?filter_none by tauto.
    - exists []. by rewrite app_nil_r.
    - by rewrite app_nil_r.
    - exists [v]. rewrite filter_one by tauto. split; [done|]. constructor; [|constructor].
      unfold body_of. by rewrite <-Hp. }
  apply orb_false_iff in E3. rewrite !bool_decide_eq_false in E3.
  split; [done|]. split; rewrite ?filter_none by tauto.
  - exists []. by rewrite app_nil_r.
  - by rewrite app_nil_r.
  - exists []. by rewrite app_nil_r.
Qed.

(** The header of a chunk, once eight bytes could be read for it. *)
Lemma chunk_header s header s' : at_file s → read_exact 8 s = (Ok header, s') →
  @slice Failure _ header 0 4 = Ok (sub file (pos s) 4) ∧
  @u32_at Failure header 4 = Ok (le (sub file (pos s + 4) 4)) ∧
  pos s' = pos s + 8 ∧ at_file s'.
Proof.
  intros Hs Hr. destruct (read_exact_keeps 8 s Hs) as [Hat _]. rewrite Hr in Hat.
  apply read_exact_Ok in Hr as (Hl & -> & Hp & _); [|done|lia]. unfold at_file in *.
  rewrite slice_in, u32_at_in, !sub_sub by lia. by rewrite Z.add_0_r.
Qed.

Lemma chunk_loop_cases fuel offset found s :
  pos s = offset → 0 <= offset → (0 < fuel)%nat → file_len - offset < Z.of_nat fuel →
  match chunk_loop fuel file_len offset found s with
  | (Ok found', s') => at_file s' ∧ ∃ cs, riff file offset cs ∧ gathers found cs found'
  | (Err e, s') => at_file s'
  | _ => False
  end.
Proof.
  revert offset found s. induction fuel as [|fuel IH]; intros offset found s Hp Ho H0f Hf; [lia|].
  cbn [chunk_loop]. assert (at_file s) as Hs by (unfold at_file; lia).
  unfold mbind at 1, M_bind at 1, on_err at 1. destruct (read_exact_keeps 8 s Hs) as [Hk Hret].
  destruct (read_exact 8 s) as [[header|e| |] s1] eqn:Hre; try done. cbn [map_err].
  apply chunk_header in Hre as (Hid & Hsize & Hp1 & Hs1); [|done].
  unfold mbind at 1, M_bind at 1, lift at 1. rewrite Hid.
  unfold mbind at 1, M_bind at 1, lift at 1. rewrite Hsize. rewrite Hp in *.
  set (c := mkRiffChunk (sub file offset 4) (offset + 8) (le (sub file (offset + 4) 4))).
  change (le (sub file (offset + 4) 4)) with (chunk_size c).
  change (sub file offset 4) with (chunk_id c). change (offset + 8) with (chunk_body c).
  assert (0 <= chunk_size c) as Hsz by apply le_bound.
  destruct (Z.ltb_spec file_len (chunk_body c + chunk_size c)) as [|Hin]; [done|].
  assert (chunk_at file offset c) as Hc by done.
  unfold mbind at 1, M_bind at 1.
  pose proof (read_chunk_cases c found s1 Hs1 Hp1) as Hr.
  destruct (read_chunk _ _ _ found s1) as [[found1|e| |] s2]; try done. destruct Hr as [Hs2 Hg].
  set (next := if chunk_size c mod 2 =? 1 then _ else _).
  assert (next = chunk_end c) as Hnext.
  { unfold next, chunk_end. destruct (Z.eqb_spec (chunk_size c mod 2) 1); Z.div_mod_to_equations; lia. }
  destruct ((chunk_size c mod 2 =? 1) && _) eqn:Hpad; [done|].
  assert (chunk_end c <= file_len) as Hend.
  { unfold chunk_end. apply andb_false_iff in Hpad as [?|?]; bool_to_prop;
      Z.div_mod_to_equations; lia. }
  rewrite Hnext. destruct (Z.leb_spec file_len (chunk_end c)) as [Hlast|Hmore].
  - split; [done|]. exists [c]. split; [|done]. apply riff_last; [done|]. unfold file_len in *. lia.
  - assert (offset + 8 <= chunk_end c) as Hadv.
    { unfold chunk_end. change (chunk_body c) with (offset + 8).
      pose proof (Z.mod_pos_bound (chunk_size c) 2). lia. }
    unfold mbind, M_bind, on_err.
    destruct (seek_keeps (chunk_end c) ltac:(lia) s2 Hs2) as [Hs3 Hret3].
    destruct (seek (chunk_end c) s2) as [[[]|e| |] s3] eqn:Hseek; try done. cbn [map_err].
    apply seek_Ok in Hseek.
    specialize (IH (chunk_end c) found1 s3 Hseek ltac:(lia) ltac:(lia) ltac:(lia)).
    destruct (chunk_loop fuel _ _ _ s3) as [[found2|e| |] s4]; try done.
    destruct IH as (Hs4 & cs & Hcs & Hg2). split; [done|]. exists (c :: cs). split.
    + by apply riff_more.
    + by apply (gathers_app found [c] found1 cs).
Qed.

Lemma riff_inside d at_ cs : riff d at_ cs →
  Forall (λ c, 0 <= chunk_size c < 2 ^ 32 ∧ at_ <= chunk_body c ∧
               chunk_body c + chunk_size c <= zlen d) cs.
Proof.
  assert (∀ at_ c, chunk_at d at_ c → 0 <= chunk_size c < 2 ^ 32) as Hb.
  { intros a c [_ -> _ _]. pose proof (le_bound (sub d (a + 4) 4)) as Hl.
    pose proof (sub_le d (a + 4) 4) as Hn.
    assert (256 ^ zlen (sub d (a + 4) 4) <= 256 ^ 4) by (apply Z.pow_le_mono_r; lia). lia. }
  induction 1 as [a c Hc _|a c cs Hc _ _ IH].
  - constructor; [|done]. pose proof (Hb a c Hc). destruct Hc. split_and!; lia.
  - pose proof (Hb a c Hc) as Hsz. constructor; [destruct Hc; split_and!; lia|].
    eapply Forall_impl; [exact IH|]. simpl. intros c' (? & ? & ?). destruct Hc.
    unfold chunk_end in *. pose proof (Z.mod_pos_bound (chunk_size c) 2). split_and!; lia.
Qed.

(** What the file says the chunks are: exactly one of each kind. *)
Definition describes (c : Chunks) : Prop :=
  ∃ cs f d i, riff file RIFF_HEADER_SIZE_BYTES cs ∧
    filter is_fmt cs = [f] ∧ parse_format (body_of file f) (chunk_size f) = Ok (fmt_chunk c) ∧
    filter is_data cs = [d] ∧ data_offset c = chunk_body d ∧ data_size c = chunk_size d ∧
    filter is_id3 cs = [i] ∧ parse_id3 (body_of file i) = Ok (id3_tags c, id3_pictures c).

Lemma read_chunks_cases s : at_file s →
  match read_chunks file_len s with
  | (Ok c, s') => at_file s' ∧ wav_format (fmt_chunk c) ∧ 0 < data_size c < 2 ^ 32 ∧
      12 <= data_offset c ∧ data_offset c + data_size c <= file_len ∧ describes c
  | (Err e, s') => at_file s'
  | _ => False
  end.
Proof.
  intros Hs. unfold read_chunks. unfold mbind at 1, M_bind at 1, on_err at 1.
  destruct (seek_keeps RIFF_HEADER_SIZE_BYTES ltac:(done) s Hs) as [Hs1 Hret].
  destruct (seek _ s) as [[[]|e| |] s1] eqn:Hseek; try done. cbn [map_err]. apply seek_Ok in Hseek.
  unfold mbind at 1, M_bind at 1.
  pose proof (chunk_loop_cases (S (Z.to_nat file_len)) RIFF_HEADER_SIZE_BYTES (mkFound None None None) s1
    Hseek ltac:(done) ltac:(lia) ltac:(unfold RIFF_HEADER_SIZE_BYTES; lia)) as Hl.
  destruct (chunk_loop _ _ _ _ s1) as [[found|e| |] s2]; try done.
  destruct Hl as (Hs2 & cs & Hcs & [(fs & Hf & Hf2) Hd (vs & Hv & Hv2)]). simpl in Hf, Hd, Hv.
  destruct found as [[fmt|] data id3]; [|done]. simpl in Hf. subst fs.
  apply Forall2_cons_inv_r in Hf2 as (f & fl & [Hpcm Hpf] & Hfl & Hff). apply Forall2_nil_inv_r in Hfl as ->.
  run_m. destruct data as [[off size]|]; simpl in Hd |- *; [|done].
  destruct (Z.eqb_spec size 0) as [|Hnz]; [done|].
  symmetry in Hd. apply fmap_cons_inv in Hd as (d & dl & E & Hdl & Hdd). injection E as -> ->.
  symmetry in Hdl. apply fmap_nil_inv in Hdl as ->.
  destruct id3 as [[ts ps]|]; simpl in Hv |- *; [|done]. subst vs.
  apply Forall2_cons_inv_r in Hv2 as (i & il & Hpi & Hil & Hii). apply Forall2_nil_inv_r in Hil as ->.
  assert (d ∈ cs) as Hin.
  { assert (d ∈ filter is_data cs) as [_ Hin]%list_elem_of_filter by (rewrite Hdd; by left). done. }
  pose proof (riff_inside _ _ _ Hcs) as Hall. rewrite Forall_forall in Hall.
  destruct (Hall d Hin) as (Hsz & Hlow & Hend). unfold RIFF_HEADER_SIZE_BYTES in Hlow.
  split_and!; try done; try (simpl; lia).
  by exists cs, f, d, i.
Qed.

(** the container is walked once and strictly. Walking a WAV file of the
    size that was hashed always ends. When it succeeds, the file from its twelfth
    byte to its end is a sequence of chunks and padding bytes, exactly one of them
    the format, exactly one the samples and exactly one the ID3 tag; the samples
    are not empty and lie inside the file, the format is integer PCM as read from
    its chunk, and the tags and pictures are those of the ID3 chunk. *)
Theorem read_chunks_correct s :
  at_file s →
  match read_chunks file_len s with
  | (Ok c, s') => integer_pcm (fmt_chunk c) ∧ 0 < data_size c ∧
      12 <= data_offset c ∧ data_offset c + data_size c <= file_len ∧
      ∃ cs f d i, riff file RIFF_HEADER_SIZE_BYTES cs ∧
        filter is_fmt cs = [f] ∧ parse_format (body_of file f) (chunk_size f) = Ok (fmt_chunk c) ∧
        filter is_data cs = [d] ∧ data_offset c = chunk_body d ∧ data_size c = chunk_size d ∧
        filter is_id3 cs = [i] ∧ parse_id3 (body_of file i) = Ok (id3_tags c, id3_pictures c)
  | (Err e, s') => at_file s'
  | _ => False
  end.
Proof.
  intros Hs. pose proof (read_chunks_cases s Hs) as Hc.
  destruct (read_chunks file_len s) as [[c|e| |] s']; try done.
  destruct Hc as (_ & [? _] & ? & ? & ? & ?). split_and!; done || lia.
Qed.
End ChunkLemmas.

Section SampleLemmas.
Context `{World}.

(** What a sample loop that ended well has read: everything. *)
Lemma pcm_loop_cases fuel align size frame_count remaining s :
  at_file s → 0 < align → size = frame_count * align → size <= 2 ^ 56 →
  0 <= remaining <= size → remaining <= Z.of_nat fuel →
  match pcm_loop fuel align size frame_count remaining s with
  | (Ok _, s') => pos s' = pos s + remaining
  | (Err e, s') => at_file s'
  | _ => False
  end.
Proof.
  intros Hs Ha Hsz Hmax. revert remaining s Hs.
  induction fuel as [|fuel IH]; intros remaining s Hs Hr Hf; cbn [pcm_loop];
    destruct (Z.leb_spec remaining 0); try (simpl; lia).
  destruct (check_keeps s Hs) as [Hk Hret]. unfold mbind at 1, M_bind at 1.
  pose proof (check_pos s) as Hpc.
  destruct (check s) as [[[]|e| |] s1]; try done. simpl in Hk, Hpc.
  unfold mbind at 1, M_bind at 1. unfold read_full, on_err, fill, mbind at 1, M_bind at 1.
  set (want := Z.min remaining PCM_BUFFER).
  assert (1 <= want <= remaining) as Hw by (unfold want, PCM_BUFFER; lia).
  destruct (fill_cases (S (Z.to_nat want)) want s1 Hk ltac:(lia))
    as (bytes & stop & s2 & -> & Hp2 & _ & Hle & _ & _ & _ & Hstop).
  cbn [map_err mret M_ret]. pose proof (zlen_nonneg bytes).
  assert (at_file s2) as Hs2 by (unfold at_file in *; lia).
  rewrite div_u64_Ok by lia.
  unfold mbind at 1, M_bind at 1, lift at 1.
  set (left := remaining - zlen bytes).
  assert (0 <= (size - left) / align <= frame_count) as Hframes.
  { split; [apply Z.div_pos; unfold left; lia|]. apply Z.div_le_upper_bound; unfold left; lia. }
  destruct (report_keeps ((size - left) / align) frame_count (size - left) size false Hframes
    ltac:(unfold left; lia) Hmax s2 Hs2) as [Hs3 Hret3].
  pose proof (report_pos ((size - left) / align) frame_count (size - left) size false s2) as Hp3.
  unfold mbind at 1, M_bind at 1.
  destruct (report _ _ _ _ _ s2) as [[[]|e| |] s3]; try done. simpl in Hp3.
  destruct stop as [| |e]; [|done|done].
  specialize (IH left s3 ltac:(done) ltac:(unfold left; lia) ltac:(unfold left; lia)).
  destruct (pcm_loop fuel _ _ _ left s3) as [[[]|e| |] s4]; try done. unfold left in IH. lia.
Qed.

(** The technical values of a format and its frames. *)
Record wav_audio (f : Format) (frames : Z) (t : TechnicalAudio) : Prop := {
  wav_container : Failure.format t = st "wav" ∧ container t = st "wav";
  wav_codec : codec t ∈ [st "pcm_u8"; st "pcm_s16le"; st "pcm_s24le"; st "pcm_s32le"];
  wav_rate : Failure.sample_rate_hz t = sample_rate_hz f;
  wav_channels : Failure.channel_count t = channel_count f;
  wav_duration : duration_ms t = frames * 1000 / sample_rate_hz f ∧ 0 < duration_ms t;
  wav_depth : bit_depth t = (if valid_bits f =? 0 then bits_per_sample f else valid_bits f) ∧
              1 <= bit_depth t <= bits_per_sample f;
  wav_bitrate : bitrate_kbps t = (bytes_per_second f * 8 + 500) / 1000 ∧ 0 < bitrate_kbps t
}.

Lemma wav_format_align f : wav_format f → 0 < block_align f.
Proof.
  intros [[_ [Hc0 _] _ Hb -> _] [Hc _]]. apply whole_bytes in Hb.
  assert (1 <= bits_per_sample f / 8) by (Z.div_mod_to_equations; lia). nia.
Qed.

Lemma wav_format_values f : wav_format f →
  (if bits_per_sample f =? 8 then st "pcm_u8" else st "pcm_s" ++ two_digits (bits_per_sample f) ++ st "le")
    ∈ [st "pcm_u8"; st "pcm_s16le"; st "pcm_s24le"; st "pcm_s32le"] ∧
  1 <= (if 0 <? valid_bits f then valid_bits f else bits_per_sample f) <= bits_per_sample f ∧
  (if 0 <? valid_bits f then valid_bits f else bits_per_sample f) =
    (if valid_bits f =? 0 then bits_per_sample f else valid_bits f).
Proof.
  intros [[Ht _ _ Hb _ _] (_ & Hv & Hp)]. split.
  - rewrite !elem_of_cons, elem_of_nil in Hb. destruct Hb as [->|[->|[->|[->|[]]]]];
      rewrite !elem_of_cons; [left|right; left|do 2 right; left|do 3 right; left]; vm_compute; reflexivity.
  - apply whole_bytes in Hb. assert (PCM ≠ EXTENSIBLE) by done.
    assert (valid_bits f <= bits_per_sample f) by (destruct Ht as [E|?]; [rewrite Hp by congruence|]; lia).
    destruct (Z.ltb_spec 0 (valid_bits f)), (Z.eqb_spec (valid_bits f) 0); lia.
Qed.

Lemma decode_pcm_cases c s :
  at_file s → wav_format (fmt_chunk c) → 0 <= data_offset c → 0 < data_size c < 2 ^ 32 →
  match decode_pcm c s with
  | (Ok t, s') => pos s' = data_offset c + data_size c ∧
      ∃ frames, data_size c = frames * block_align (fmt_chunk c) ∧ wav_audio (fmt_chunk c) frames t
  | (Err e, s') => at_file s'
  | _ => False
  end.
Proof.
  intros Hs Hf Ho Hsz. unfold decode_pcm. cbv zeta. set (f := fmt_chunk c) in *. set (size := data_size c) in *.
  pose proof (wav_format_align f Hf) as Ha.
  rewrite (proj2 (Z.eqb_neq (block_align f) 0)) by lia.
  destruct (Z.eqb_spec (size mod block_align f) 0) as [Hmod|]; cbn [negb]; [|done].
  rewrite div_u64_Ok by lia.
  unfold mbind at 1, M_bind at 1, lift at 1. set (frames := size / block_align f).
  assert (size = frames * block_align f) as Hframes by (unfold frames; Z.div_mod_to_equations; lia).
  assert (0 <= frames <= size) as Hfr by (split; [apply Z.div_pos; lia|nia]).
  unfold mbind at 1, M_bind at 1, on_err.
  destruct (seek_keeps (data_offset c) Ho s Hs) as [Hs1 Hret].
  destruct (seek _ s) as [[[]|e| |] s1] eqn:Hseek; try done. cbn [map_err]. apply seek_Ok in Hseek.
  unfold mbind at 1, M_bind at 1. destruct (check_keeps s1 Hs1) as [Hs2 Hret2].
  pose proof (check_pos s1) as Hpc.
  destruct (check s1) as [[[]|e| |] s2]; try done. simpl in Hs2, Hpc.
  unfold mbind at 1, M_bind at 1.
  pose proof (pcm_loop_cases (Z.to_nat size) (block_align f) size frames size s2 Hs2 Ha Hframes
    ltac:(lia) ltac:(lia) ltac:(lia)) as Hl.
  destruct (pcm_loop _ _ _ _ _ s2) as [[[]|e| |] s3]; try done.
  assert (at_file s3) as Hs3 by (unfold at_file in *; lia).
  rewrite mul_u64_Ok by (unfold u64_max; lia).
  unfold mbind at 1, M_bind at 1, lift at 1.
  destruct Hf as [Hpcm Hw]. pose proof (pcm_rate _ Hpcm) as Hrate.
  rewrite div_u64_Ok by lia.
  unfold mbind at 1, M_bind at 1, lift at 1.
  destruct (Z.leb_spec (frames * 1000 / sample_rate_hz f) 0); [done|].
  destruct (Z.leb_spec ((bytes_per_second f * 8 + 500) / 1000) 0); [done|].
  unfold mbind, M_bind.
  destruct (report_keeps frames frames size size true ltac:(lia) ltac:(lia) ltac:(lia) s3 Hs3) as [Hs4 Hr4].
  pose proof (report_pos frames frames size size true s3) as Hp4.
  destruct (report _ _ _ _ _ s3) as [[[]|e| |] s4]; try done. simpl in Hp4.
  destruct (wav_format_values f ltac:(split; done)) as (Hcodec & Hdepth & Hvb).
  split; [lia|]. exists frames. split; [done|]. by split.
Qed.

(** every sample is there. Decoding the samples of an accepted format always
    ends and divides by nothing that is zero. When it succeeds the whole data
    chunk was read, it is whole frames, and the duration, rates, depth and codec
    are those of the format and its frame count. *)
Theorem decode_pcm_correct c s :
  at_file s → wav_format (fmt_chunk c) → 0 <= data_offset c → 0 < data_size c < 2 ^ 32 →
  match decode_pcm c s with
  | (Ok t, s') => pos s' = data_offset c + data_size c ∧
      ∃ frames, data_size c = frames * block_align (fmt_chunk c) ∧ wav_audio (fmt_chunk c) frames t
  | (Err e, s') => at_file s'
  | _ => False
  end.
Proof. apply decode_pcm_cases. Qed.
End SampleLemmas.

Section InspectLemmas.
Context `{Unicode, Images, World, Json}.

(** What the inspection of a WAV file accepts. *)
Definition wav_accepted (m : MediaInspection) : Prop :=
  file_sha256 m = sha256_hex file ∧ le (sub file 4 4) + 8 = file_len ∧
  ∃ c frames, describes c ∧ wav_format (fmt_chunk c) ∧
    data_offset c + data_size c <= file_len ∧
    data_size c = frames * block_align (fmt_chunk c) ∧
    wav_audio (fmt_chunk c) frames (audio m) ∧
    normalize (id3_tags c) no_replay_gain = Ok (inspected m) ∧
    well_formed (id3_tags c) (inspected m) ∧
    optional_artwork (front_cover_artwork (id3_pictures c)) = Ok (album_artwork m).

Lemma inspect_cases s :
  images_return → pos s = 0 →
  match inspect s with
  | (Ok m, s') => wav_accepted m
  | (Err f, _) => True
  | _ => False
  end.
Proof.
  intros Hi Hs. unfold inspect. unfold mbind at 1, M_bind at 1.
  pose proof (hash_file_cases s Hs) as Hh.
  destruct (hash_file s) as [[[sha n]|f| |] s1]; try done. destruct Hh as (-> & -> & Hp1).
  assert (at_file s1) as Hs1 by (unfold at_file; lia).
  unfold mbind at 1, M_bind at 1, on_err.
  destruct (read_exact_keeps RIFF_HEADER_SIZE_BYTES s1 Hs1) as [Hs2 Hret].
  destruct (read_exact _ s1) as [[header|e| |] s2] eqn:Hre; try done. cbn [map_err]. simpl in Hs2.
  apply read_exact_Ok in Hre as (Hl & Hhead & _); [|done..]. rewrite Hp1 in Hhead.
  unfold RIFF_HEADER_SIZE_BYTES in Hl, Hhead.
  unfold mbind at 1, M_bind at 1, lift at 1. rewrite u32_at_in by lia.
  assert (sub header 4 4 = sub file 4 4) as -> by (rewrite Hhead, sub_sub by lia; done).
  destruct (Z.eqb_spec (le (sub file 4 4) + RIFF_HEADER_SIZE_BYTES - 4) file_len) as [Hsize|]; cbn [negb];
    [|done]. unfold RIFF_HEADER_SIZE_BYTES in Hsize.
  unfold mbind at 1, M_bind at 1. pose proof (read_chunks_cases s2 Hs2) as Hc.
  destruct (read_chunks _ s2) as [[c|e| |] s3]; try done. destruct Hc as (Hs3 & Hf & Hsz & Ho & Hin & Hd).
  unfold mbind at 1, M_bind at 1, try.
  pose proof (decode_pcm_cases c s3 Hs3 Hf ltac:(lia) Hsz) as Ha.
  pose proof (normalize_cases (id3_tags c) no_replay_gain) as Hn.
  pose proof (returns_optional_artwork _ (front_cover_returns (id3_pictures c) Hi)) as Hart.
  destruct (decode_pcm c s3) as [[t|e| |] s4]; try done.
  - destruct Ha as (_ & frames & Hfr & Ha). run_m.
    destruct (normalize (id3_tags c) no_replay_gain) as [m|f| |] eqn:Hm; try done.
    + destruct (optional_artwork _) as [a|f| |] eqn:Hoa; try done.
      * simpl. split; [done|]. split; [lia|]. exists c, frames. by destruct Hn.
      * unfold into_result. by case_bool_decide.
    + unfold into_result. by case_bool_decide; destruct (optional_artwork _).
  - run_m. unfold into_result. case_bool_decide; simpl; [|done].
    destruct (normalize (id3_tags c) no_replay_gain) as [m|f| |]; try done.
    destruct (optional_artwork _); done.
Qed.

(** C14: an imported WAV is what its bytes say. Inspecting a WAV file from its
    start always ends. When it succeeds, the recorded hash is the whole file's,
    the RIFF size is the file's, its chunks tile it with exactly one of each kind,
    the metadata is the normal form of the ID3 tags and can be stored, the artwork
    is the front cover or the reason there is none, and the technical values are
    those of the format and the frames that were read. *)
Theorem inspect_correct s :
  images_return → pos s = 0 →
  match inspect s with
  | (Ok m, s') => wav_accepted m
  | (Err f, _) => True
  | _ => False
  end.
Proof. apply inspect_cases. Qed.
End InspectLemmas.

(** ** A small file: eight samples and an ID3v2.3 tag *)

Definition riff_chunk (id : string) (body : list byte) : list byte :=
  bs id ++ to_le 4 (zlen body) ++ body.

Definition example_fmt : list byte :=
  to_le 2 1 ++ to_le 2 1 ++ to_le 4 8000 ++ to_le 4 8000 ++ to_le 2 1 ++ to_le 2 8.

Definition example_wav : list byte :=
  let body := bs "WAVE" ++ riff_chunk "fmt " example_fmt ++ riff_chunk "data" (replicate 8 x80) ++
              riff_chunk "ID3 " example_id3 in
  riff_chunk "RIFF" body.

Definition plain_json : Json := {| to_json := Some |}.

Definition example_world : World := plain_world example_wav.

Definition example_format : Format := mkFormat 1 1 8000 8000 1 8 0 0 (replicate 16 x00).

Lemma read_chunks_correct_witness :
  ∃ c s, @read_chunks ascii_unicode example_world plain_json 130 io_start = (Ok c, s) ∧
    data_size c = 8 ∧ integer_pcm (fmt_chunk c) ∧ data_offset c + data_size c <= 130.
Proof.
  pose proof (@read_chunks_correct ascii_unicode example_world plain_json io_start ltac:(done)) as H.
  change (@file_len example_world) with 130 in H.
  destruct (Ok_part data_size (@read_chunks ascii_unicode example_world plain_json 130 io_start) 8)
    as (c & s & E & Hd); [vm_compute; reflexivity|].
  rewrite E in H. destruct H as (Hpcm & _ & _ & Hin & _).
  exists c, s. exact (conj E (conj Hd (conj Hpcm Hin))).
Defined.

Lemma example_wav_format : wav_format example_format.
Proof.
  split; [|split_and!; done]. split; try done; [by left|]. apply whole_bytes. by vm_compute.
Defined.

Lemma decode_pcm_correct_witness :
  ∃ t s, @decode_pcm example_world (mkChunks example_format 44 8 ∅ []) io_start = (Ok t, s) ∧
    duration_ms t = 1 ∧ pos s = 52.
Proof.
  pose proof (@decode_pcm_correct example_world (mkChunks example_format 44 8 ∅ []) io_start
    ltac:(done) example_wav_format ltac:(done) ltac:(done)) as H.
  destruct (Ok_part duration_ms (@decode_pcm example_world (mkChunks example_format 44 8 ∅ []) io_start) 1)
    as (t & s & E & Hd); [vm_compute; reflexivity|].
  rewrite E in H. destruct H as [Hp _]. exists t, s. exact (conj E (conj Hd Hp)).
Defined.

Lemma inspect_correct_witness :
  ∃ m s, @inspect ascii_unicode example_images example_world plain_json io_start = (Ok m, s) ∧
    title (inspected m) = st "T" ∧ file_sha256 m = @sha256_hex example_world example_wav.
Proof.
  pose proof (@inspect_correct ascii_unicode example_images example_world plain_json io_start
    example_images_return eq_refl) as H.
  destruct (Ok_part (λ m, title (inspected m))
    (@inspect ascii_unicode example_images example_world plain_json io_start) (st "T"))
    as (m & s & E & Hd); [vm_compute; reflexivity|].
  rewrite E in H. destruct H as [Hsha _]. exists m, s. exact (conj E (conj Hd Hsha)).
Defined.
