(* ===== verification/Mp3.v ===== *)
(** MP3 files (inspect/mp3.rs): the frames of an MPEG Layer III stream between
    its ID3v2 tag and an optional APEv2 tag and ID3v1 trailer. *)

From S2P Require Import Prelude Text Failure Inspector Metadata Artwork Id3.

Definition ID3V1_TAG_SIZE_BYTES : Z := 128.
Definition BASE_SAMPLE_RATES : list Z := [44100; 48000; 32000].
Definition MPEG1_BITRATES : list Z :=
  [0; 32; 40; 48; 56; 64; 80; 96; 112; 128; 160; 192; 224; 256; 320].
Definition MPEG2_BITRATES : list Z :=
  [0; 8; 16; 24; 32; 40; 48; 56; 64; 80; 96; 112; 128; 144; 160].
Definition MPEG_VERSION_2_5 : Z := 0.
Definition MPEG_VERSION_RESERVED : Z := 1.
Definition MPEG_VERSION_2 : Z := 2.
Definition MPEG_VERSION_1 : Z := 3.

Record FrameHeader := mkFrameHeader {
  header_unsupported : bool;
  header_rate : Z;
  header_channels : Z;
  frame_size : Z;
  samples : Z
}.

Record StreamInfo := mkStreamInfo {
  stream_rate : Z;
  stream_channels : Z;
  total_samples : Z;
  encoded_bytes : Z;
  frames : list (Z * Z);
  go_mp3_unsupported : bool
}.

Definition empty_stream : StreamInfo := mkStreamInfo 0 0 0 0 [] false.

(** symphonia's Layer III decoder: whether it opens, and what the last packet of
    those it was given decodes to, a sample rate and a count of samples. *)
Class Mpa := {
  mpa_open : option str;
  mpa_decode : list (list byte) → outcome str (Z * Z)
}.

(** ** Frame headers *)

(** The [w] bits of [h] from bit [i] up. *)
Definition bits (h i w : Z) : Z := Z.land (Z.shiftr h i) (Z.ones w).

Definition parse_frame_header (data : list byte) : outcome Failure (option FrameHeader) :=
  let header := be data in
  let version := bits header 19 2 in
  let layer := bits header 17 2 in
  let bitrate_index := bits header 12 4 in
  let sample_rate_index := bits header 10 2 in
  if negb (Z.land header 0xffe00000 =? 0xffe00000) || (version =? MPEG_VERSION_RESERVED)
     || negb (layer =? 1) || (bitrate_index =? 0) || (bitrate_index =? 15)
     || (sample_rate_index =? 3)
  then Ok None
  else
    base ← index BASE_SAMPLE_RATES sample_rate_index;
    let sample_rate_hz :=
      if version =? MPEG_VERSION_2 then base / 2
      else if version =? MPEG_VERSION_2_5 then base / 4 else base in
    bitrate_kbps ← index (if version =? MPEG_VERSION_1 then MPEG1_BITRATES else MPEG2_BITRATES)
                     bitrate_index;
    let '(coefficient, samples) := if version =? MPEG_VERSION_1 then (144, 1152) else (72, 576) in
    let padding := bits header 9 1 in
    size ← div_u64 (coefficient * bitrate_kbps * 1000) sample_rate_hz;
    Ok (Some {|
      header_unsupported := (version =? MPEG_VERSION_2_5) || (bits header 0 2 =? 2);
      header_rate := sample_rate_hz;
      header_channels := if bits header 6 2 =? 3 then 1 else 2;
      frame_size := size + padding;
      samples := samples
    |}).

(** ** APEv2 *)

Definition APEV2_DESCRIPTOR_SIZE : Z := 32.
Definition APEV2_HAS_HEADER : Z := Z.shiftl 1 31.
Definition APEV2_IS_HEADER : Z := Z.shiftl 1 29.
Definition APEV2_ITEM_FLAGS : Z := 7.
Definition APEV2_MIN_ITEM_SIZE : Z := 11.
Definition APETAGEX : list byte := bs "APETAGEX".

Definition le_at {E} (d : list byte) (a b : Z) : outcome E Z := w ← slice d a b; Ok (le w).

(** Whether all the bits of [mask] that [allowed] lacks are clear in [flags]. *)
Definition bad_flags (flags allowed : Z) : bool := negb (Z.ldiff flags allowed =? 0).

Definition validate_apev2_descriptor (d : list byte) (is_header : bool) : outcome str unit :=
  flags ← le_at d 20 24; version ← le_at d 8 12;
  magic ← slice d 0 8;
  if negb (bool_decide (magic = APETAGEX)) || negb (version =? 2000) then
    Err (st "APEv2 signature or version is invalid")
  else
    let allowed := Z.lor (Z.lor APEV2_HAS_HEADER APEV2_IS_HEADER) APEV2_ITEM_FLAGS in
    reserved ← slice_from d 24;
    if bad_flags flags allowed
       || negb (Bool.eqb (negb (Z.land flags APEV2_IS_HEADER =? 0)) is_header)
       || (Z.land flags 6 =? 6) || negb (is_zero reserved)
    then Err (st "APEv2 flags or reserved bytes are invalid")
    else Ok tt.

(** The key's loop: where its terminating zero ends. *)
Fixpoint ape_key (fuel : nat) (d : list byte) (position length : Z) : outcome str Z :=
  match fuel with
  | O => OutOfFuel
  | S fuel =>
      match d !! Z.to_nat position with
      | None => Err (st "APEv2 item key is truncated: EOF")
      | Some b =>
          if (b2z b =? 0) && (2 <=? length) then Ok (position + 1)
          else if negb (in_range 32 126 (b2z b)) then Err (st "APEv2 item key is invalid")
          else if 255 <? length + 1 then Err (st "APEv2 item key exceeds length limit")
          else ape_key fuel d (position + 1) (length + 1)
      end
  end.

(** The items' loop of [validate_apev2_items]; a key ends within 256 bytes. *)
Fixpoint ape_items (count : nat) (d : list byte) (position : Z) : outcome str Z :=
  match count with
  | O => Ok position
  | S count =>
      room ← sub_u64 (zlen d) position;
      if room <? 8 then
        Err (st "read APEv2 item header: " ++
             if zlen d =? position then st "EOF" else st "unexpected EOF")
      else
        value_size ← le_at d position (position + 4);
        flags ← le_at d (position + 4) (position + 8);
        if bad_flags flags APEV2_ITEM_FLAGS || (Z.land flags 6 =? 6) then
          Err (st "APEv2 item flags are invalid")
        else
          position ← ape_key 256 d (position + 8) 0;
          room ← sub_u64 (zlen d) position;
          if room <? value_size then Err (st "APEv2 item exceeds tag boundaries: EOF")
          else ape_items count d (position + value_size)
  end.

Section Mp3.
Context `{World}.

Definition validate_apev2_items (offset size count : Z) : M Io str unit :=
  c ← on_err show_failure poll;
  if c : bool then fail (st "read APEv2 item header: context canceled") else
  d ← on_err (λ e, st "read APEv2 item header: " ++ io_message e) (read_exact_at size offset);
  position ← lift (ape_items (Z.to_nat count) d 0);
  if negb (position =? zlen d) then fail (st "APEv2 item count does not match tag size")
  else mret tt.

(** The header a tag's flags announce, compared with its footer. *)
Definition check_apev2_header (footer : list byte) (audio_offset start : Z) : M Io str Z :=
  if start <? audio_offset + APEV2_DESCRIPTOR_SIZE then
    fail (st "APEv2 header overlaps ID3 or audio start")
  else
    let start := start - APEV2_DESCRIPTOR_SIZE in
    header ← on_err (λ e, st "read APEv2 header: " ++ io_message e)
               (read_exact_at APEV2_DESCRIPTOR_SIZE start);
    _ ← lift (validate_apev2_descriptor header true);
    flags ← lift (le_at header 20 24);
    a ← lift (slice header 0 20); b ← lift (slice_from header 24);
    if negb (bool_decide (a ++ to_le 4 (Z.ldiff flags APEV2_IS_HEADER) ++ b = footer)) then
      fail (st "APEv2 header and footer disagree")
    else mret start.

Definition apev2_audio_end (audio_offset audio_end : Z) : M Io str Z :=
  room ← lift (sub_u64 audio_end audio_offset);
  if room <? APEV2_DESCRIPTOR_SIZE then mret audio_end else
  footer ← on_err (λ e, st "read APEv2 footer: " ++ io_message e)
             (read_exact_at APEV2_DESCRIPTOR_SIZE (audio_end - APEV2_DESCRIPTOR_SIZE));
  magic ← lift (slice footer 0 8);
  if negb (bool_decide (magic = APETAGEX)) then mret audio_end else
  _ ← lift (validate_apev2_descriptor footer false);
  size ← lift (le_at footer 12 16);
  count ← lift (le_at footer 16 20);
  if (size <? APEV2_DESCRIPTOR_SIZE) || (room <? size)
     || ((size - APEV2_DESCRIPTOR_SIZE) / APEV2_MIN_ITEM_SIZE <? count)
  then fail (st "APEv2 size or item count exceeds tag boundaries")
  else
    let start := audio_end - size in
    _ ← validate_apev2_items start (size - APEV2_DESCRIPTOR_SIZE) count;
    flags ← lift (le_at footer 20 24);
    if negb (Z.land flags APEV2_HAS_HEADER =? 0) then check_apev2_header footer audio_offset start
    else mret start.

(** ** Frames *)

(** The end of the audio before an ID3v1 trailer. *)
Definition audio_end (size_bytes : Z) : M Io str Z :=
  if size_bytes <? ID3V1_TAG_SIZE_BYTES then mret size_bytes else
  signature ← on_err (λ e, st "read ID3v1 signature: " ++ io_message e)
                (read_exact_at 3 (size_bytes - ID3V1_TAG_SIZE_BYTES));
  mret (if bool_decide (signature = bs "TAG") then size_bytes - ID3V1_TAG_SIZE_BYTES
        else size_bytes).

(** One frame added to what is known of the stream. *)
Definition add_frame (stream : StreamInfo) (offset : Z) (h : FrameHeader) : outcome Failure StreamInfo :=
  let first := total_samples stream =? 0 in
  if negb first && (negb (stream_rate stream =? header_rate h)
                    || negb (stream_channels stream =? header_channels h)) then
    Err (audio_error (st "MP3 stream properties change between frames"))
  else
    total ← add_u64 (total_samples stream) (samples h);
    Ok {|
      stream_rate := if first then header_rate h else stream_rate stream;
      stream_channels := if first then header_channels h else stream_channels stream;
      total_samples := total;
      encoded_bytes := encoded_bytes stream + frame_size h;
      frames := frames stream ++ [(offset, frame_size h)];
      go_mp3_unsupported := go_mp3_unsupported stream || header_unsupported h
    |}.

(** The loop of [inspect_frames]; every frame is at least its header. *)
Fixpoint frame_loop (fuel : nat) (offset audio_end : Z) (stream : StreamInfo) : M Io Failure StreamInfo :=
  if audio_end <=? offset then mret stream else
  match fuel with
  | O => lift OutOfFuel
  | S fuel =>
      _ ← check;
      data ← on_err (λ e, audio_error (st "read MP3 frame header: " ++ io_message e)) (read_exact 4);
      parsed ← lift (parse_frame_header data);
      match parsed with
      | Some h =>
          if frame_size h <=? audio_end - offset then
            stream ← lift (add_frame stream offset h);
            _ ← on_err (λ e, file_error (st "skip MP3 frame: " ++ io_message e))
                  (seek (offset + frame_size h));
            frame_loop fuel (offset + frame_size h) audio_end stream
          else fail (audio_error (st "MP3 frame is invalid or truncated"))
      | None => fail (audio_error (st "MP3 frame is invalid or truncated"))
      end
  end.

Definition inspect_frames (audio_offset size_bytes : Z) : M Io Failure StreamInfo :=
  last ← on_err file_error (audio_end size_bytes);
  last ← on_err (error InvalidMetadata (st "APEv2")) (apev2_audio_end audio_offset last);
  if last <=? audio_offset then fail (audio_error (st "MP3 audio stream is empty")) else
  _ ← on_err (λ e, file_error (st "seek MP3 audio: " ++ io_message e)) (seek audio_offset);
  frame_loop (Z.to_nat (last - audio_offset)) audio_offset last empty_stream.

(** ** Decoding *)

Context `{Mpa, Unicode, Images}.

(** The loop of [decode]; [history] is what the decoder was given, latest last. *)
Fixpoint decode_loop (stream : StreamInfo) (fs : list (Z * Z)) (history : list (list byte))
    (decoded : Z) : M Io Failure Z :=
  match fs with
  | [] => mret decoded
  | (offset, size) :: fs =>
      _ ← check;
      packet ← on_err (λ e, audio_error (io_message e)) (read_exact_at size offset);
      '(rate, n) ← lift (map_err audio_error (mpa_decode (history ++ [packet])));
      if negb (rate =? stream_rate stream) then
        fail (audio_error (st "decoded MP3 sample count or sample rate is inconsistent"))
      else
        decoded ← lift (add_u64 decoded n);
        _ ← report decoded (total_samples stream) 0 0 false;
        decode_loop stream fs (history ++ [packet]) decoded
  end.

Definition decode (stream : StreamInfo) : M Io Failure TechnicalAudio :=
  match mpa_open with
  | Some e => fail (audio_error e)
  | None =>
      if go_mp3_unsupported stream then
        fail (audio_error (st "MPEG 2.5 or reserved-emphasis frames are not supported"))
      else
        decoded ← decode_loop stream (frames stream) [] 0;
        _ ← report decoded (total_samples stream) 0 0 true;
        if negb (decoded =? total_samples stream) then
          fail (audio_error (st "decoded MP3 sample count or sample rate is inconsistent"))
        else
          ms ← lift (mul_u64 decoded 1000);
          duration_ms ← lift (div_u64 ms (stream_rate stream));
          let duration_ms := as_i64 duration_ms in
          let bitrate_kbps :=
            if 0 <? duration_ms then (encoded_bytes stream * 8 + duration_ms / 2) / duration_ms else 0 in
          if (duration_ms <=? 0) || (bitrate_kbps <=? 0) then
            fail (audio_error (st "decoded MP3 technical properties are invalid"))
          else
            mret (mkAudio (st "mp3") (st "mp3") (st "mp3") duration_ms (stream_rate stream)
                    (stream_channels stream) 0 bitrate_kbps)
  end.

Definition inspect : M Io Failure MediaInspection :=
  '(sha, size_bytes) ← hash_file;
  tag ← inspect_tag;
  stream ← try (inspect_frames (offset tag) size_bytes);
  audio ← match stream with
          | Ok stream => try (decode stream)
          | Err f => mret (Err f)
          | Panic => lift Panic
          | OutOfFuel => lift OutOfFuel
          end;
  _ ← lift (into_result (fjoin [Some (failure tag); err_of audio]));
  m ← lift (metadata tag); t ← lift audio;
  mret (mkInspection m (artwork tag) t sha).
End Mp3.

(** ** A frame header's size *)

Lemma bits_range h i w : 0 <= w → 0 <= bits h i w < 2 ^ w.
Proof. intros. unfold bits. rewrite Z.land_ones by lia. apply Z.mod_pos_bound. by apply Z.pow_pos_nonneg. Qed.

(** What a Layer III header says of its frame. *)
Record layer3 (h : FrameHeader) : Prop := {
  layer3_size : 24 <= frame_size h <= 1441;
  layer3_samples : samples h = 1152 ∨ samples h = 576;
  layer3_channels : header_channels h = 1 ∨ header_channels h = 2;
  layer3_rate : 8000 <= header_rate h <= 48000;
  layer3_duration : ∃ kbps padding, 8 <= kbps <= 320 ∧ 0 <= padding <= 1 ∧
    frame_size h = samples h * kbps * 125 / header_rate h + padding
}.

Lemma base_rate s : 0 <= s < 3 → ∃ r, @index Failure _ BASE_SAMPLE_RATES s = Ok r ∧ 32000 <= r <= 48000.
Proof.
  intros. assert (s = 0 ∨ s = 1 ∨ s = 2) as [->|[->| ->]] by lia; eexists; (split; [done|lia]).
Qed.

Lemma bitrate_of b (v1 : bool) : 1 <= b < 15 →
  ∃ k, @index Failure _ (if v1 then MPEG1_BITRATES else MPEG2_BITRATES) b = Ok k ∧
    (if v1 then 32 <= k <= 320 else 8 <= k <= 160).
Proof.
  intros. assert (b ∈ Z.of_nat <$> seq 1 14) as Hb.
  { apply list_elem_of_fmap. exists (Z.to_nat b). rewrite elem_of_seq. split; lia. }
  assert (Forall (λ b, ∀ v1 : bool, ∃ k,
    @index Failure _ (if v1 then MPEG1_BITRATES else MPEG2_BITRATES) b = Ok k ∧
    (if v1 then 32 <= k <= 320 else 8 <= k <= 160)) (Z.of_nat <$> seq 1 14)) as Hall.
  { repeat constructor; intros []; eexists; (split; [reflexivity|lia]). }
  rewrite Forall_forall in Hall. by apply Hall.
Qed.

Lemma quotient_bounds n d lo hi : 0 < d → lo * d <= n → n <= hi * d → lo <= n / d <= hi.
Proof. intros. split; [apply Z.div_le_lower_bound; lia|apply Z.div_le_upper_bound; lia]. Qed.

Lemma parse_frame_header_cases data :
  match parse_frame_header data with
  | Ok (Some h) => layer3 h
  | Ok None => True
  | _ => False
  end.
Proof.
  unfold parse_frame_header. set (header := be data).
  destruct (_ || (bits header 10 2 =? 3)) eqn:Hbad; [done|].
  repeat (apply orb_false_iff in Hbad as [Hbad ?]). bool_to_prop.
  pose proof (bits_range header 10 2 ltac:(lia)). pose proof (bits_range header 12 4 ltac:(lia)).
  pose proof (bits_range header 9 1 ltac:(lia)). pose proof (bits_range header 19 2 ltac:(lia)).
  destruct (base_rate (bits header 10 2)) as (base & -> & Hbase); [lia|]. cbn [mbind outcome_bind].
  destruct (bitrate_of (bits header 12 4) (bits header 19 2 =? MPEG_VERSION_1)) as (k & -> & Hk); [lia|].
  cbn [mbind outcome_bind].
  set (rate := if bits header 19 2 =? MPEG_VERSION_2 then _ else _).
  assert (8000 <= rate <= 48000 ∧
    (if bits header 19 2 =? MPEG_VERSION_1 then 32000 <= rate else rate <= 24000)) as [Hrate Hv].
  { unfold rate, MPEG_VERSION_2, MPEG_VERSION_2_5, MPEG_VERSION_1, MPEG_VERSION_RESERVED in *.
    destruct (Z.eqb_spec (bits header 19 2) 2) as [E|]; [rewrite E; cbn [Z.eqb Pos.eqb]; Z.div_mod_to_equations; lia|].
    destruct (Z.eqb_spec (bits header 19 2) 0) as [E|]; [rewrite E; cbn [Z.eqb Pos.eqb]; Z.div_mod_to_equations; lia|].
    destruct (Z.eqb_spec (bits header 19 2) 3); lia. }
  destruct (Z.eqb_spec (bits header 19 2) MPEG_VERSION_1) as [E|E].
  - rewrite div_u64_Ok by lia. cbn [mbind outcome_bind].
    pose proof (quotient_bounds (144 * k * 1000) rate 96 1440 ltac:(lia) ltac:(nia) ltac:(nia)).
    split; cbn [frame_size samples header_channels header_rate]; try lia.
    + destruct (_ =? 3); lia.
    + exists k, (bits header 9 1). split_and!; try lia. do 2 f_equal. lia.
  - rewrite div_u64_Ok by lia. cbn [mbind outcome_bind].
    assert (∀ q, q = 72 * k * 1000 / rate → 24 <= q <= 1440) as Hq.
    { intros q ->. apply quotient_bounds; nia. }
    specialize (Hq _ eq_refl).
    split; cbn [frame_size samples header_channels header_rate]; try lia.
    + destruct (_ =? 3); lia.
    + exists k, (bits header 9 1). split_and!; try lia. do 2 f_equal. lia.
Qed.

(** ** Frames that tile the audio *)

(** From [o] to [e] there is nothing but frames. *)
Inductive tiled (d : list byte) (e : Z) : Z → list (Z * Z) → list FrameHeader → Prop :=
| tiled_end : tiled d e e [] []
| tiled_frame o h fs hs : parse_frame_header (sub d o 4) = Ok (Some h) → layer3 h →
    tiled d e (o + frame_size h) fs hs → tiled d e o ((o, frame_size h) :: fs) (h :: hs).

Definition sum_samples (hs : list FrameHeader) : Z := foldr (λ h n, samples h + n) 0 hs.

Lemma tiled_le d e o fs hs : tiled d e o fs hs → o + 24 * zlen fs <= e ∧ zlen hs = zlen fs ∧
  0 <= sum_samples hs <= 48 * (e - o) ∧ Forall layer3 hs.
Proof.
  induction 1 as [|o h fs hs _ Hh _ IH]; [unfold zlen; simpl; split_and!; done || lia|].
  rewrite !zlen_cons. destruct IH as (? & ? & ? & ?). pose proof Hh as []. cbn [sum_samples foldr].
  unfold sum_samples in *. split_and!; try lia. by constructor.
Qed.

Lemma tiled_inside d e o fs hs : 0 <= o → tiled d e o fs hs →
  Forall (λ f, 0 <= f.1 ∧ 0 <= f.2 ∧ f.1 + f.2 <= e) fs.
Proof.
  intros Ho Ht. induction Ht as [|o h fs hs _ Hh Ht IH]; [constructor|]. destruct Hh.
  pose proof (tiled_le _ _ _ _ _ Ht). pose proof (zlen_nonneg fs). constructor; [simpl; lia|]. apply IH. lia.
Qed.

(** What a walk over the frames [hs] makes of [stream]. *)
Record walked (stream : StreamInfo) (fs : list (Z * Z)) (hs : list FrameHeader) (n : Z)
    (stream' : StreamInfo) : Prop := {
  walked_frames : frames stream' = frames stream ++ fs;
  walked_samples : total_samples stream' = total_samples stream + sum_samples hs;
  walked_bytes : encoded_bytes stream' = encoded_bytes stream + n;
  walked_same : Forall (λ h, header_rate h = stream_rate stream' ∧
                             header_channels h = stream_channels stream') hs;
  walked_first : total_samples stream ≠ 0 →
    stream_rate stream' = stream_rate stream ∧ stream_channels stream' = stream_channels stream;
  walked_go : go_mp3_unsupported stream' = go_mp3_unsupported stream || existsb header_unsupported hs
}.

Lemma walked_nothing stream : walked stream [] [] 0 stream.
Proof. split; rewrite ?app_nil_r, ?orb_false_r; try done; simpl; lia. Qed.

Lemma walked_frame stream o h stream1 fs hs n stream2 : layer3 h → 0 <= total_samples stream →
  add_frame stream o h = Ok stream1 → walked stream1 fs hs n stream2 →
  walked stream ((o, frame_size h) :: fs) (h :: hs) (frame_size h + n) stream2.
Proof.
  intros Hh Ht. unfold add_frame. destruct (negb _ && _) eqn:Hc; [done|].
  intros (t & Hadd & Heq)%bind_Ok. unfold add_u64 in Hadd. destruct (_ <? _); [done|].
  injection Hadd as <-. injection Heq as <-. intros [Hf Hs Hb Hsame Hfirst Hgo].
  cbn [frames total_samples encoded_bytes stream_rate stream_channels go_mp3_unsupported] in *.
  destruct Hh. assert (total_samples stream + samples h ≠ 0) as Hnz by lia.
  destruct (Hfirst Hnz) as [Hr Hch].
  assert (total_samples stream ≠ 0 → stream_rate stream = header_rate h ∧ stream_channels stream = header_channels h) as Hsm.
  { intros Hz. apply andb_false_iff in Hc as [Hc|Hc]; bool_to_prop; [done|]. done. }
  split.
  - by rewrite Hf, <-app_assoc.
  - rewrite Hs. unfold sum_samples. simpl. lia.
  - lia.
  - constructor; [|done]. rewrite Hr, Hch. destruct (Z.eqb_spec (total_samples stream) 0); [done|].
    destruct (Hsm ltac:(done)); split; congruence.
  - intros Hz. rewrite Hr, Hch. by rewrite (proj2 (Z.eqb_neq _ _) Hz).
  - rewrite Hgo. simpl. by rewrite orb_assoc.
Qed.

Lemma add_frame_cases stream o h : layer3 h → 0 <= total_samples stream <= 2 ^ 56 →
  match add_frame stream o h with
  | Ok stream' => total_samples stream' = total_samples stream + samples h
  | Err _ => True
  | _ => False
  end.
Proof.
  intros [] Ht. unfold add_frame. destruct (negb _ && _); [done|].
  by rewrite add_u64_Ok by (unfold u64_max; lia).
Qed.

(** ** APEv2 tags *)

(** A key of two to 255 printable characters and its zero, from [p] to [q]. *)
Definition ape_key_at (d : list byte) (p q : Z) : Prop :=
  2 <= q - 1 - p <= 255 ∧ d !! Z.to_nat (q - 1) = Some x00 ∧
  ∀ i, p <= i < q - 1 → ∃ b, d !! Z.to_nat i = Some b ∧ 32 <= b2z b <= 126.

(** Items that follow each other from [p] to [q]. *)
Inductive ape_tiled (d : list byte) (q : Z) : nat → Z → Prop :=
| ape_tiled_end : ape_tiled d q 0 q
| ape_tiled_item n p size flags k : le (sub d p 4) = size → le (sub d (p + 4) 4) = flags →
    Z.ldiff flags APEV2_ITEM_FLAGS = 0 → Z.land flags 6 ≠ 6 →
    ape_key_at d (p + 8) k → k + size <= zlen d →
    ape_tiled d q n (k + size) → ape_tiled d q (S n) p.

Lemma le_at_in {E} (d : list byte) a b : 0 <= a → a <= b → b <= zlen d →
  @le_at E d a b = Ok (le (sub d a (b - a))).
Proof. intros. unfold le_at. by rewrite slice_in. Qed.

Lemma ape_key_cases fuel d start p length : 0 <= start → p = start + length → 0 <= length <= 255 →
  255 - length < Z.of_nat fuel →
  (∀ i, start <= i < p → ∃ b, d !! Z.to_nat i = Some b ∧ 32 <= b2z b <= 126) →
  match ape_key fuel d p length with
  | Ok q => ape_key_at d start q ∧ q <= zlen d
  | Err _ => True
  | _ => False
  end.
Proof.
  intros Hs. revert p length. induction fuel as [|fuel IH]; intros p length Hp Hl Hf Hchars; [lia|].
  cbn [ape_key]. destruct (d !! Z.to_nat p) as [b|] eqn:Hb; [|done].
  destruct ((b2z b =? 0) && (2 <=? length)) eqn:Hz.
  - bool_to_prop. assert (b = x00) as -> by (apply b2z_inj; by rewrite H).
    apply lookup_lt_Some in Hb as Hlt. split; [|unfold zlen; lia]. split; [lia|].
    replace (p + 1 - 1) with p by lia. split; [done|]. intros i Hi. apply Hchars. lia.
  - destruct (in_range 32 126 (b2z b)) eqn:Hc; cbn [negb]; [|done].
    unfold in_range in Hc. bool_to_prop.
    destruct (Z.ltb_spec 255 (length + 1)); [done|].
    apply IH; [lia..|]. intros i Hi. destruct (decide (i = p)) as [->|]; [eauto|]. apply Hchars. lia.
Qed.

Lemma ape_items_cases n d p : 0 <= p <= zlen d →
  match ape_items n d p with
  | Ok q => ape_tiled d q n p ∧ q <= zlen d
  | Err _ => True
  | _ => False
  end.
Proof.
  revert p. induction n as [|n IH]; intros p Hp; cbn [ape_items].
  { split; [constructor|lia]. }
  rewrite sub_u64_Ok by lia. cbn [mbind outcome_bind].
  destruct (Z.ltb_spec (zlen d - p) 8); [done|].
  rewrite !le_at_in by lia. cbn [mbind outcome_bind].
  replace (p + 4 - p) with 4 by lia. replace (p + 8 - (p + 4)) with 4 by lia.
  set (size := le (sub d p 4)). set (flags := le (sub d (p + 4) 4)).
  pose proof (le_bound (sub d p 4)) as Hsz. fold size in Hsz.
  destruct (bad_flags flags APEV2_ITEM_FLAGS || _) eqn:Hfl; [done|].
  unfold bad_flags in Hfl. bool_to_prop.
  pose proof (ape_key_cases 256 d (p + 8) (p + 8) 0 ltac:(lia) ltac:(lia) ltac:(lia) ltac:(lia)
    ltac:(intros; lia)) as Hk.
  destruct (ape_key 256 d (p + 8) 0) as [k|e| |]; try done. destruct Hk as [Hk Hkd].
  cbn [mbind outcome_bind]. rewrite sub_u64_Ok by lia. cbn [mbind outcome_bind].
  destruct (Z.ltb_spec (zlen d - k) size); [done|].
  assert (0 <= k) by (destruct Hk; lia).
  specialize (IH (k + size) ltac:(lia)). destruct (ape_items n d (k + size)) as [q|e| |]; try done.
  destruct IH as [Ht Hq]. split; [|done]. apply (ape_tiled_item d q n p size flags k); done || lia.
Qed.

(** A tag that ends at [e] and begins at [b]: a footer whose counted items tile
    the bytes before it, and a header when the flags announce one. *)
Definition ape_tag (d : list byte) (b e : Z) : Prop :=
  let footer := sub d (e - 32) 32 in
  let size := le (sub d (e - 20) 4) in
  let items := sub d (e - size) (size - 32) in
  32 <= size ∧ sub d (e - 32) 8 = APETAGEX ∧
  ape_tiled items (zlen items) (Z.to_nat (le (sub d (e - 16) 4))) 0 ∧
  (b = e - size ∧ Z.land (le (sub d (e - 12) 4)) APEV2_HAS_HEADER = 0 ∨
   b = e - size - 32 ∧ Z.land (le (sub d (e - 12) 4)) APEV2_HAS_HEADER ≠ 0).

Lemma descriptor_returns d is_header : zlen d = 32 → returns (validate_apev2_descriptor d is_header).
Proof.
  intros Hd. unfold validate_apev2_descriptor. rewrite !le_at_in by lia. rewrite slice_in by lia.
  destruct (@slice_from_in str _ d 24) as (r & -> & _); [lia..|]. cbn [mbind outcome_bind].
  by repeat destruct (_ || _).
Qed.

Section WalkLemmas.
Context `{World}.

Lemma poll_io s : ∃ c s', on_err show_failure poll s = (Ok c, s') ∧ pos s' = pos s.
Proof. eexists _, _. split; [done|]. done. Qed.

Lemma validate_items_cases o size count s : at_file s → 0 <= o → 0 <= size → 0 <= count →
  match validate_apev2_items o size count s with
  | (Ok _, s') => pos s' = pos s ∧ o + size <= Z.max o file_len ∧
      ape_tiled (sub file o size) size (Z.to_nat count) 0
  | (Err _, s') => at_file s'
  | _ => False
  end.
Proof.
  intros Hs Ho Hsz Hc. unfold validate_apev2_items.
  unfold mbind at 1, M_bind at 1. destruct (poll_io s) as (c & s1 & -> & Hp1).
  assert (at_file s1) as Hs1 by (unfold at_file in *; lia). destruct c; [done|].
  unfold mbind at 1, M_bind at 1, on_err. destruct (read_exact_at_keeps size o Ho s1 Hs1) as [Hs2 Hret].
  destruct (read_exact_at size o s1) as [[d|e| |] s2] eqn:Hr; try done. cbn [map_err].
  apply read_exact_at_Ok in Hr as (Hl & Hd & Hp2 & Hin); [|done..].
  unfold mbind, M_bind, lift. pose proof (ape_items_cases (Z.to_nat count) d 0) as Hi.
  pose proof (zlen_nonneg d). specialize (Hi ltac:(lia)).
  destruct (ape_items _ d 0) as [q|e| |]; try done. destruct Hi as [Ht Hq].
  destruct (Z.eqb_spec q (zlen d)) as [->|]; cbn [negb]; [|done].
  split; [simpl; lia|]. split; [lia|]. subst d. by rewrite <-Hl at 2.
Qed.

Lemma check_header_cases footer o start s : at_file s → 0 <= o →
  match check_apev2_header footer o start s with
  | (Ok b, s') => pos s' = pos s ∧ b = start - 32 ∧ o <= b
  | (Err _, s') => at_file s'
  | _ => False
  end.
Proof.
  intros Hs Ho. unfold check_apev2_header, APEV2_DESCRIPTOR_SIZE.
  destruct (Z.ltb_spec start (o + 32)); [done|].
  unfold mbind at 1, M_bind at 1, on_err.
  destruct (read_exact_at_keeps 32 (start - 32) ltac:(lia) s Hs) as [Hs1 Hret].
  destruct (read_exact_at 32 _ s) as [[d|e| |] s1] eqn:Hr; try done. cbn [map_err].
  apply read_exact_at_Ok in Hr as (Hl & _ & Hp & _); [|lia..].
  unfold mbind at 1, M_bind at 1, lift at 1. pose proof (descriptor_returns d true Hl) as Hd.
  destruct (validate_apev2_descriptor d true) as [[]|e| |]; try done.
  unfold mbind, M_bind, lift. rewrite le_at_in, slice_in by lia.
  destruct (@slice_from_in str _ d 24) as (r & -> & _); [lia..|].
  case_bool_decide; cbn [negb]; [|done]. split; [simpl; lia|]. split; lia.
Qed.

Lemma apev2_cases o e s : at_file s → 0 <= o <= e → e <= file_len →
  match apev2_audio_end o e s with
  | (Ok b, s') => pos s' = pos s ∧ o <= b <= e ∧ (b = e ∨ ape_tag file b e)
  | (Err _, s') => at_file s'
  | _ => False
  end.
Proof.
  intros Hs Ho He. unfold apev2_audio_end, APEV2_DESCRIPTOR_SIZE.
  rewrite sub_u64_Ok by lia. unfold mbind at 1, M_bind at 1, lift at 1.
  destruct (Z.ltb_spec (e - o) 32) as [|Hroom]; [simpl; split; [done|lia]|].
  unfold mbind at 1, M_bind at 1, on_err.
  destruct (read_exact_at_keeps 32 (e - 32) ltac:(lia) s Hs) as [Hs1 Hret].
  destruct (read_exact_at 32 _ s) as [[d|err| |] s1] eqn:Hr; try done. cbn [map_err].
  apply read_exact_at_Ok in Hr as (Hl & Hd & Hp & _); [|lia..].
  unfold mbind at 1, M_bind at 1, lift at 1. rewrite slice_in by lia.
  replace (8 - 0) with 8 by lia.
  assert (∀ a n, 0 <= a → 0 <= n → a + n <= 32 → sub d a n = sub file (e - 32 + a) n) as Hsub.
  { intros a n ? ? ?. rewrite Hd. apply sub_sub; lia. }
  destruct (decide (sub d 0 8 = APETAGEX)) as [Hm|Hm].
  2: { rewrite bool_decide_eq_false_2 by done. simpl. split; [lia|]. lia. }
  rewrite bool_decide_eq_true_2 by done. cbn [negb].
  unfold mbind at 1, M_bind at 1, lift at 1. pose proof (descriptor_returns d false Hl) as Hdr.
  destruct (validate_apev2_descriptor d false) as [[]|err| |]; try done.
  unfold mbind at 1, M_bind at 1, lift at 1. rewrite le_at_in by lia.
  unfold mbind at 1, M_bind at 1, lift at 1. rewrite le_at_in by lia.
  replace (16 - 12) with 4 by lia. replace (20 - 16) with 4 by lia.
  rewrite !Hsub by lia. replace (e - 32 + 12) with (e - 20) by lia. replace (e - 32 + 16) with (e - 16) by lia.
  set (size := le (sub file (e - 20) 4)). set (count := le (sub file (e - 16) 4)).
  assert (0 <= count) as Hcount by apply le_bound.
  destruct (_ || (_ <? count)) eqn:Hg; [done|]. bool_to_prop.
  unfold mbind at 1, M_bind at 1. assert (at_file s1) as Hat by done.
  pose proof (validate_items_cases (e - size) (size - 32) count s1 Hat ltac:(lia) ltac:(lia) Hcount) as Hi.
  destruct (validate_apev2_items _ _ _ s1) as [[[]|err| |] s2]; try done. destruct Hi as (Hp2 & Hin & Ht).
  assert (at_file s2) as Hs2 by (unfold at_file in *; lia).
  unfold mbind at 1, M_bind at 1, lift at 1. rewrite le_at_in by lia.
  replace (24 - 20) with 4 by lia. rewrite Hsub by lia. replace (e - 32 + 20) with (e - 12) by lia.
  assert (∀ b, (b = e - size ∧ Z.land (le (sub file (e - 12) 4)) APEV2_HAS_HEADER = 0 ∨
    b = e - size - 32 ∧ Z.land (le (sub file (e - 12) 4)) APEV2_HAS_HEADER ≠ 0) → ape_tag file b e) as Htag.
  { intros b Hb. unfold ape_tag. fold size count.
    rewrite (zlen_sub file (e - size) (size - 32)) by (unfold file_len in *; lia).
    split_and!; [lia| |done|done]. rewrite <-Hm, Hsub by lia. f_equal. lia. }
  destruct (Z.eqb_spec (Z.land (le (sub file (e - 12) 4)) APEV2_HAS_HEADER) 0) as [Hz|Hnz]; cbn [negb].
  - simpl. split; [lia|]. split; [lia|]. right. apply Htag. by left.
  - pose proof (check_header_cases d o (e - size) s2 Hs2 ltac:(lia)) as Hc.
    destruct (check_apev2_header _ _ _ s2) as [[b|err| |] s3]; try done. destruct Hc as (Hp3 & -> & Hb).
    split; [simpl; lia|]. split; [lia|]. right. apply Htag. by right.
Qed.
End WalkLemmas.

Section FrameLemmas.
Context `{World}.

(** The frame whose header four read bytes are. *)
Lemma frame_header_read s data s' : at_file s → read_exact 4 s = (Ok data, s') →
  data = sub file (pos s) 4 ∧ pos s' = pos s + 4.
Proof. intros Hs Hr. apply read_exact_Ok in Hr as (_ & -> & -> & _); [done|done|lia]. Qed.

Lemma frame_loop_cases fuel o e stream s : pos s = o → 0 <= o <= e → e <= 2 ^ 48 →
  0 <= total_samples stream <= 48 * o → e - o <= Z.of_nat fuel →
  match frame_loop fuel o e stream s with
  | (Ok stream', s') => at_file s' ∧ ∃ fs hs, tiled file e o fs hs ∧ walked stream fs hs (e - o) stream'
  | (Err _, s') => at_file s'
  | _ => False
  end.
Proof.
  revert o stream s. induction fuel as [|fuel IH]; intros o stream s Hp Ho He Ht Hf; cbn [frame_loop];
    assert (at_file s) as Hs by (unfold at_file; lia);
    destruct (Z.leb_spec e o); try lia.
  1,2: assert (e = o) as -> by lia; split; [done|]; exists [], []; split; [constructor|];
    replace (o - o) with 0 by lia; apply walked_nothing.
  unfold mbind at 1, M_bind at 1. destruct (check_keeps s Hs) as [Hs1 Hret]. pose proof (check_pos s) as Hp1.
  destruct (check s) as [[[]|err| |] s1]; try done. simpl in Hs1, Hp1.
  unfold mbind at 1, M_bind at 1, on_err at 1. destruct (read_exact_keeps 4 s1 Hs1) as [Hs2 Hret2].
  destruct (read_exact 4 s1) as [[data|err| |] s2] eqn:Hr; try done. cbn [map_err].
  apply frame_header_read in Hr as [Hd Hp2]; [|done]. rewrite Hp1, Hp in Hd.
  unfold mbind at 1, M_bind at 1, lift at 1. pose proof (parse_frame_header_cases data) as Hh.
  destruct (parse_frame_header data) as [[h|]|err| |] eqn:Hparse; try done. subst data.
  destruct (Z.leb_spec (frame_size h) (e - o)); [|done].
  unfold mbind at 1, M_bind at 1, lift at 1.
  pose proof (add_frame_cases stream o h Hh ltac:(lia)) as Ha.
  destruct (add_frame stream o h) as [stream1|err| |] eqn:Hadd; try done.
  destruct (layer3_size h Hh) as [Hmin Hmax].
  unfold mbind, M_bind, on_err.
  destruct (seek_keeps (o + frame_size h) ltac:(lia) s2 Hs2) as [Hs3 Hret3].
  destruct (seek _ s2) as [[[]|err| |] s3] eqn:Hseek; try done. cbn [map_err]. apply seek_Ok in Hseek.
  assert (0 <= samples h <= 48 * frame_size h) as Hsam by (destruct (layer3_samples h Hh); lia).
  specialize (IH (o + frame_size h) stream1 s3 Hseek ltac:(lia) He ltac:(lia) ltac:(lia)).
  destruct (frame_loop fuel _ _ _ s3) as [[stream2|err| |] s4]; try done.
  destruct IH as (Hs4 & fs & hs & Htl & Hw). split; [done|].
  exists ((o, frame_size h) :: fs), (h :: hs). split; [by constructor|].
  replace (e - o) with (frame_size h + (e - (o + frame_size h))) by lia.
  eapply walked_frame; [done|lia|done|done].
Qed.

(** Where the audio ends before a trailer of the file, if its mark is there. *)
Definition trailer_end : Z :=
  if (128 <=? file_len) && bool_decide (sub file (file_len - 128) 3 = bs "TAG")
  then file_len - 128 else file_len.

Lemma audio_end_cases s : at_file s →
  match audio_end file_len s with
  | (Ok e, s') => pos s' = pos s ∧ e = trailer_end
  | (Err _, s') => at_file s'
  | _ => False
  end.
Proof.
  intros Hs. unfold audio_end, trailer_end, ID3V1_TAG_SIZE_BYTES.
  destruct (Z.ltb_spec file_len 128), (Z.leb_spec 128 file_len); try lia; [done|].
  unfold mbind, M_bind, on_err.
  assert (0 <= file_len - 128) as Hpos by lia.
  destruct (read_exact_at_keeps 3 (file_len - 128) Hpos s Hs) as [Hs1 Hret].
  destruct (read_exact_at 3 _ s) as [[d|e| |] s1] eqn:Hr; try done. cbn [map_err].
  apply read_exact_at_Ok in Hr as (_ & -> & Hp & _); [|lia..]. split; [done|]. done.
Qed.

Lemma trailer_end_le : 0 <= trailer_end <= file_len.
Proof.
  unfold trailer_end. pose proof (zlen_nonneg file). unfold file_len in *.
  destruct ((128 <=? zlen file) && _) eqn:E; [bool_to_prop|]; lia.
Qed.

(** The stream of the frames between [o] and [e]. *)
Definition stream_of (o e : Z) (stream : StreamInfo) : Prop :=
  ∃ hs, tiled file e o (frames stream) hs ∧ hs ≠ [] ∧
    total_samples stream = sum_samples hs ∧ encoded_bytes stream = e - o ∧
    Forall (λ h, header_rate h = stream_rate stream ∧ header_channels h = stream_channels stream) hs ∧
    go_mp3_unsupported stream = existsb header_unsupported hs.

Lemma inspect_frames_cases o s : at_file s → 0 <= o → file_len <= 2 ^ 48 →
  match inspect_frames o file_len s with
  | (Ok stream, s') => at_file s' ∧ ∃ e, o < e <= trailer_end ∧
      (e = trailer_end ∨ ape_tag file e trailer_end) ∧ stream_of o e stream
  | (Err _, s') => at_file s'
  | (Panic, s') => trailer_end < o
  | (OutOfFuel, _) => False
  end.
Proof.
  intros Hs Ho Hlen. unfold inspect_frames. unfold mbind at 1, M_bind at 1, on_err at 1.
  pose proof (audio_end_cases s Hs) as Ha. pose proof trailer_end_le as Htl.
  destruct (audio_end file_len s) as [[e0|err| |] s1]; try done. destruct Ha as [Hp1 ->]. cbn [map_err].
  assert (at_file s1) as Hs1 by (unfold at_file in *; lia).
  unfold mbind at 1, M_bind at 1, on_err at 1.
  destruct (decide (trailer_end < o)) as [Hlt|Hge].
  { unfold apev2_audio_end, mbind, M_bind, lift, sub_u64. by rewrite (proj2 (Z.ltb_lt trailer_end o)). }
  assert (0 <= o <= trailer_end ∧ trailer_end <= file_len) as [Hoe Hte] by lia.
  pose proof (apev2_cases o trailer_end s1 Hs1 Hoe Hte) as Hape.
  destruct (apev2_audio_end o trailer_end s1) as [[e|err| |] s2]; try done.
  destruct Hape as (Hp2 & He & Htag). cbn [map_err].
  assert (at_file s2) as Hs2 by (unfold at_file in *; lia).
  destruct (Z.leb_spec e o); [done|].
  unfold mbind, M_bind, on_err. destruct (seek_keeps o Ho s2 Hs2) as [Hs3 Hret].
  destruct (seek o s2) as [[[]|err| |] s3] eqn:Hseek; try done. cbn [map_err]. apply seek_Ok in Hseek.
  pose proof (frame_loop_cases (Z.to_nat (e - o)) o e empty_stream s3 Hseek ltac:(lia) ltac:(lia)
    ltac:(simpl; lia) ltac:(lia)) as Hl.
  destruct (frame_loop _ _ _ _ s3) as [[stream|err| |] s4]; try done.
  destruct Hl as (Hs4 & fs & hs & Ht & [Hf Hsm Hb Hsame _ Hgo]). split; [done|]. exists e.
  split; [lia|]. split; [done|]. simpl in *. exists hs. rewrite Hf. split_and!; try done; try lia.
  intros ->. inversion Ht; subst; lia.
Qed.
End FrameLemmas.

Section DecodeLemmas.
Context `{World, Mpa}.

(** What the decoder makes of the packets [fs], at one sample rate. *)
Fixpoint decoded_total (rate : Z) (fs : list (Z * Z)) (history : list (list byte)) : option Z :=
  match fs with
  | [] => Some 0
  | (o, n) :: fs =>
      let history := history ++ [sub file o n] in
      match mpa_decode history with
      | Ok (r, k) => if r =? rate then (λ m, k + m) <$> decoded_total rate fs history else None
      | _ => None
      end
  end.

(** A decoder that answers, with at most a Layer III frame of samples. *)
Definition mpa_answers : Prop := ∀ history, returns (mpa_decode history) ∧
  ∀ rate n, mpa_decode history = Ok (rate, n) → 0 <= n <= 1152.

Lemma decode_loop_cases stream fs history decoded s : mpa_answers → at_file s →
  0 < total_samples stream → Forall (λ f, 0 <= f.1 ∧ 0 <= f.2 ∧ f.1 + f.2 <= file_len) fs →
  0 <= decoded → decoded + 1152 * zlen fs <= u64_max →
  match decode_loop stream fs history decoded s with
  | (Ok n, s') => at_file s' ∧ 0 <= n <= u64_max ∧
      ∃ m, decoded_total (stream_rate stream) fs history = Some m ∧ n = decoded + m
  | (Err _, s') => at_file s'
  | _ => False
  end.
Proof.
  intros Hm Hs Htot Hfs. revert history decoded s Hs.
  induction Hfs as [|[o n] fs (Ho & Hn & Hin) Hfs IH]; intros history decoded s Hs Hd Hmax; cbn [decode_loop].
  { unfold zlen in Hmax. simpl in *. split; [done|]. split; [lia|]. exists 0. split; [done|lia]. }
  simpl in Ho, Hn, Hin. rewrite zlen_cons in Hmax. pose proof (zlen_nonneg fs).
  unfold mbind at 1, M_bind at 1. destruct (check_keeps s Hs) as [Hs1 Hret].
  destruct (check s) as [[[]|err| |] s1]; try done. simpl in Hs1.
  unfold mbind at 1, M_bind at 1, on_err. destruct (read_exact_at_keeps n o Ho s1 Hs1) as [Hs2 Hret2].
  destruct (read_exact_at n o s1) as [[packet|err| |] s2] eqn:Hr; try done. cbn [map_err].
  apply read_exact_at_Ok in Hr as (_ & -> & _ & _); [|done..]. simpl in Hs2.
  unfold mbind at 1, M_bind at 1, lift at 1.
  destruct (Hm (history ++ [sub file o n])) as [Hret3 Hbound]. cbn [decoded_total].
  destruct (mpa_decode (history ++ [sub file o n])) as [[rate k]|err| |] eqn:Hdec; try done.
  cbn [map_err]. specialize (Hbound rate k eq_refl).
  destruct (Z.eqb_spec rate (stream_rate stream)) as [->|]; cbn [negb]; [|done].
  unfold mbind at 1, M_bind at 1, lift at 1. rewrite add_u64_Ok by lia.
  unfold mbind at 1, M_bind at 1.
  destruct (report_total_keeps (decoded + k) (total_samples stream) 0 0 false Htot s2 Hs2) as [Hs3 Hret4].
  destruct (report _ _ _ _ _ s2) as [[[]|err| |] s3]; try done. simpl in Hs3.
  specialize (IH (history ++ [sub file o n]) (decoded + k) s3 Hs3 ltac:(lia) ltac:(lia)).
  destruct (decode_loop stream fs _ _ s3) as [[n'|err| |] s4]; try done.
  destruct IH as (Hs4 & Hn' & m & -> & ->). split; [done|]. split; [done|]. exists (k + m). split; [done|lia].
Qed.

(** The technical values of a stream. *)
Record mp3_audio (stream : StreamInfo) (t : TechnicalAudio) : Prop := {
  mp3_format : format t = st "mp3" ∧ codec t = st "mp3";
  mp3_rate : sample_rate_hz t = stream_rate stream;
  mp3_channels : channel_count t = stream_channels stream;
  mp3_duration : duration_ms t = total_samples stream * 1000 / stream_rate stream ∧ 0 < duration_ms t;
  mp3_bitrate : bitrate_kbps t = (encoded_bytes stream * 8 + duration_ms t / 2) / duration_ms t ∧
                0 < bitrate_kbps t
}.

Lemma decode_cases stream o e s : mpa_answers → at_file s → 0 <= o → e <= file_len → file_len <= 2 ^ 48 →
  stream_of o e stream →
  match decode stream s with
  | (Ok t, s') => mp3_audio stream t ∧ go_mp3_unsupported stream = false ∧
      decoded_total (stream_rate stream) (frames stream) [] = Some (total_samples stream)
  | (Err _, s') => at_file s'
  | _ => False
  end.
Proof.
  intros Hm Hs Ho He Hlen (hs & Ht & Hne & Hsum & Hbytes & Hsame & Hgo). unfold decode.
  destruct mpa_open; [done|]. destruct (go_mp3_unsupported stream) eqn:Hun; [done|].
  pose proof (tiled_le _ _ _ _ _ Ht) as (Hcount & _ & Hsam & Hl3).
  pose proof (tiled_inside _ _ _ _ _ Ho Ht) as Hins.
  destruct hs as [|h hs]; [done|]. apply Forall_cons in Hsame as [[Hrate _] _].
  apply Forall_cons in Hl3 as [Hh Hl3]. assert (0 <= sum_samples hs) as Hsum0.
  { clear -Hl3. induction Hl3 as [|h' hs Hh' _ IH]; [done|]. cbn [sum_samples foldr].
    unfold sum_samples in *. destruct (layer3_samples h' Hh'); lia. }
  destruct Hh as [_ Hs1 _ Hr _].
  assert (0 < total_samples stream) as Htot by (rewrite Hsum; cbn [sum_samples foldr]; unfold sum_samples in *; lia).
  unfold mbind at 1, M_bind at 1.
  assert (Forall (λ f, 0 <= f.1 ∧ 0 <= f.2 ∧ f.1 + f.2 <= file_len) (frames stream)) as Hfs
    by (eapply Forall_impl; [exact Hins|simpl; lia]).
  assert (0 + 1152 * zlen (frames stream) <= u64_max) as Hmax by (unfold u64_max; lia).
  pose proof (decode_loop_cases stream (frames stream) [] 0 s Hm Hs Htot Hfs (Z.le_refl 0) Hmax) as Hl.
  destruct (decode_loop _ _ _ _ s) as [[n|err| |] s1]; try done.
  destruct Hl as (Hs1' & Hn & m & Hdec & ->).
  unfold mbind at 1, M_bind at 1.
  destruct (report_total_keeps (0 + m) (total_samples stream) 0 0 true Htot s1 Hs1') as [Hs2 Hret].
  destruct (report _ _ _ _ _ s1) as [[[]|err| |] s2]; try done. simpl in Hs2.
  destruct (Z.eqb_spec (0 + m) (total_samples stream)) as [E|]; cbn [negb]; [|done].
  rewrite E. unfold mbind, M_bind, lift. rewrite mul_u64_Ok by (unfold u64_max; lia).
  rewrite div_u64_Ok by lia.
  assert (0 <= total_samples stream * 1000 / stream_rate stream <= 2 ^ 53) as Hq.
  { split; [apply Z.div_pos; lia|]. apply Z.div_le_upper_bound; lia. }
  rewrite as_i64_id by (unfold is_i64, i64_min, i64_max; lia).
  destruct ((_ <=? 0) || _) eqn:Hbad; [done|]. bool_to_prop.
  split; [|split; [done|by rewrite Hdec; f_equal; lia]].
  match goal with H : _ < total_samples stream * 1000 / _ |- _ => rewrite (proj2 (Z.ltb_lt _ _) H) in * end.
  by split.
Qed.
End DecodeLemmas.

Section InspectLemmas.
Context `{World, Mpa, Unicode, Images}.

(** What the inspection of an MP3 file accepts. *)
Definition mp3_accepted (m : MediaInspection) : Prop :=
  file_sha256 m = sha256_hex file ∧
  ∃ o e stream version ts v pf,
    parse_frames (sub file 10 (o - 10)) version = Ok ts ∧
    collect_values ts version = Ok (v, pf) ∧ normalize_values v = Ok (inspected m) ∧
    10 < o < e ∧ e <= trailer_end ∧ (e = trailer_end ∨ ape_tag file e trailer_end) ∧
    stream_of o e stream ∧ mp3_audio stream (audio m) ∧ go_mp3_unsupported stream = false ∧
    decoded_total (stream_rate stream) (frames stream) [] = Some (total_samples stream).

(** An ID3v1 mark 128 bytes before the end, inside the ID3v2 tag that the file starts
    with. *)
Definition trailer_in_tag : Prop :=
  sub file (file_len - 128) 3 = bs "TAG" ∧
  ∃ size, tag_header (sub file 0 10) size ∧ 0 <= file_len - 128 < 10 + size ∧ 10 + size <= file_len.

Lemma mp3_inspect_cases s :
  images_return → mpa_answers → pos s = 0 → file_len <= 2 ^ 48 →
  match inspect s with
  | (Ok m, _) => mp3_accepted m
  | (Err _, _) => True
  | (Panic, _) => trailer_in_tag
  | (OutOfFuel, _) => False
  end.
Proof.
  intros Hi Hm Hs Hlen. unfold inspect. unfold mbind at 1, M_bind at 1.
  pose proof (hash_file_cases s Hs) as Hh.
  destruct (hash_file s) as [[[sha n]|f| |] s1]; try done. destruct Hh as (-> & -> & Hp1).
  assert (at_file s1) as Hs1 by (unfold at_file; lia).
  unfold mbind at 1, M_bind at 1. pose proof (inspect_tag_cases s1 Hi Hs1) as Ht.
  destruct (inspect_tag s1) as [[t|f| |] s2]; try done.
  destruct Ht as (Ho & Hp2 & Hin & Hmeta & Htag & version & ts & v & pf & Hts & Hv & Hnv & _).
  assert (at_file s2) as Hs2 by (unfold at_file; lia).
  rewrite Hp1 in Hts. change (0 + 10) with 10 in Hts. pose proof trailer_end_le as Htl.
  unfold mbind at 1, M_bind at 1, try at 1.
  pose proof (inspect_frames_cases (offset t) s2 Hs2 ltac:(lia) Hlen) as Hf.
  destruct (inspect_frames _ _ s2) as [[stream|f| |] s3]; try done.
  - destruct Hf as (Hs3 & e & He & Hape & Hst).
    assert (0 <= offset t ∧ e <= file_len) as [Hot Hel] by lia.
    unfold mbind at 1, M_bind at 1, try.
    pose proof (decode_cases stream (offset t) e s3 Hm Hs3 Hot Hel Hlen Hst) as Hd.
    destruct (decode stream s3) as [[au|f| |] s4]; try done.
    + run_m. unfold into_result. case_bool_decide as Hnil; [|done].
      rewrite !fjoin_cons in Hnil. apply app_nil in Hnil as [Hft _]. simpl in Hft.
      destruct (Hmeta Hft) as [md Hmd]. rewrite Hmd. simpl. split; [done|].
      exists (offset t), e, stream, version, ts, v, pf. destruct Hd as (? & ? & ?).
      split_and!; try done; try lia. by rewrite <-Hnv.
    + run_m. unfold into_result. case_bool_decide as Hnil; [|done].
      rewrite !fjoin_cons in Hnil. apply app_nil in Hnil as [Hft _]. simpl in Hft.
      destruct (Hmeta Hft) as [md Hmd]. by rewrite Hmd.
  - run_m. unfold into_result. case_bool_decide as Hnil; [|done].
    rewrite !fjoin_cons in Hnil. apply app_nil in Hnil as [Hft _]. simpl in Hft.
    destruct (Hmeta Hft) as [md Hmd]. by rewrite Hmd.
  - simpl. rewrite Hp1 in Htag. unfold trailer_end in Hf, Htl.
    destruct ((128 <=? file_len) && _) eqn:E; [|exfalso; unfold file_len in *; lia].
    bool_to_prop. split; [done|]. exists (offset t - 10). split; [done|]. unfold file_len in *. lia.
Qed.

(** C35: an imported MP3 is what its bytes say. With a decoder and an image
    library that answer, inspecting an MP3 from its start ends. When it succeeds,
    the recorded hash is the whole file's, the metadata is the normal form of the
    ID3 frames, and what lies between the tag and the trailers is nothing but
    Layer III frames of one rate and channel count, each of which decoded; the
    duration and bitrate are those of their samples and bytes. A trailing APEv2
    tag is left out only if its items tile it. It panics only when the ID3v2 tag at
    the start, whose header gives its size, covers the first byte of a [TAG] trailer. *)
Theorem mp3_inspect_correct s :
  images_return → mpa_answers → pos s = 0 → file_len <= 2 ^ 48 →
  match inspect s with
  | (Ok m, _) => mp3_accepted m
  | (Err _, _) => True
  | (Panic, _) => trailer_in_tag
  | (OutOfFuel, _) => False
  end.
Proof. apply mp3_inspect_cases. Qed.
End InspectLemmas.

(** ** A small file: one frame of 24 bytes *)

Definition example_mp3 : list byte :=
  example_id3 ++ [xff; xf3; x14; xc0] ++ replicate 20 x00.

Definition example_mpa : Mpa := {| mpa_open := None; mpa_decode := λ _, Ok (24000, 576) |}.

Lemma mp3_inspect_correct_witness :
  ∃ m s, @inspect (plain_world example_mp3) example_mpa ascii_unicode example_images io_start = (Ok m, s) ∧
    (title (inspected m), duration_ms (audio m)) = (st "T", 24) ∧
    file_sha256 m = @sha256_hex (plain_world example_mp3) example_mp3.
Proof.
  assert (@mpa_answers example_mpa) as Hm.
  { intros h. split; [exact I|]. intros rate n E. injection E as <- <-. split; discriminate. }
  pose proof (@mp3_inspect_correct (plain_world example_mp3) example_mpa ascii_unicode example_images io_start
    example_images_return Hm eq_refl ltac:(vm_compute; discriminate)) as H.
  destruct (Ok_part (λ m, (title (inspected m), duration_ms (audio m)))
    (@inspect (plain_world example_mp3) example_mpa ascii_unicode example_images io_start) (st "T", 24))
    as (m & s & E & Hd); [vm_compute; reflexivity|].
  rewrite E in H. destruct H as [Hsha _]. exists m, s. exact (conj E (conj Hd Hsha)).
Defined.

(** A file that is one ID3v2 tag with [TAG] 128 bytes before its end: the audio
    would end before it begins, and the subtraction overflows. *)
Definition overlapping_mp3 : list byte :=
  bs "ID3" ++ [x03; x00; x00; x00; x00; x01; x0a] ++
  render_frame 3 (mkFrame (st "TXXX") (bs "TAG" ++ replicate 125 x00)).

Lemma overlapping_trailer_panics :
  (@inspect (plain_world overlapping_mp3) example_mpa ascii_unicode example_images io_start).1 = Panic.
Proof. vm_compute. reflexivity. Qed.
