(* ===== verification/Flac.v ===== *)
(** FLAC files (inspect/flac.rs): the metadata blocks before the audio, and the
    technical values once symphonia has decoded every frame. *)

From stdpp Require Import gmap.
From S2P Require Import Prelude Text Float64 Failure Inspector Metadata Artwork.

Definition STREAM_INFO_SIZE_BYTES : Z := 34.
Definition PICTURE_TYPE_FRONT_COVER : Z := 3.

Record Picture := mkPicture { picture_type : Z; picture_mime : str; picture_data : list byte }.

Record StreamInfo := mkStreamInfo {
  sample_rate : Z;
  channels : Z;
  bits_per_sample : Z;
  total_samples : Z
}.

Inductive Body := Comments (cs : list (str * str)) | BPicture (p : Picture) | BOther.

Record Block := mkBlock { block_length : Z; block_body : Body }.

Record Stream := mkStream { info : StreamInfo; blocks : list Block }.

(** The order in which a [HashMap] hands out its entries. *)
Class HashOrder := {
  entries : Tags → list (str * list str);
  entries_perm : ∀ t, entries t ≡ₚ map_to_list t
}.

(** symphonia's FLAC reader and decoder: whether the reader opens and finds an
    audio track, whether the decoder opens, the packets in their order, how many
    samples the last of the packets given decodes to, whether the decoded audio
    matched its MD5, and how many bytes were read by each report. *)
Class FlacLib := {
  flac_open : outcome str bool;
  flac_decoder : option str;
  flac_packet : nat → outcome str (option (list byte));
  flac_decode : list (list byte) → outcome str Z;
  flac_verified : list (list byte) → option bool;
  flac_read : nat → Z
}.

(** ** Fields of a block *)

(** [take]: the next [size] bytes of [d]; the state is the offset. *)
Definition take_field (d : list byte) (size : Z) : M Z str (list byte) :=
  offset ← get;
  room ← lift (sub_u64 (zlen d) offset);
  if room <? size then fail (st "unexpected EOF") else
  field ← lift (slice d offset (offset + size));
  _ ← put (offset + size);
  mret field.

Definition take_le (d : list byte) : M Z str Z := w ← take_field d 4; mret (le w).
Definition take_be (d : list byte) : M Z str Z := w ← take_field d 4; mret (be w).

(** The bytes before and after the first equals sign. *)
Fixpoint split_equals (d : list byte) : option (list byte * list byte) :=
  match d with
  | [] => None
  | b :: d =>
      if b2z b =? 61 then Some ([], d)
      else (λ kv, (b :: kv.1, kv.2)) <$> split_equals d
  end.

(** The comments' loop of [parse_comments]. *)
Fixpoint take_comments `{Debug} (count : nat) (d : list byte) : M Z str (list (str * str)) :=
  match count with
  | O => mret []
  | S count =>
      length ← take_le d;
      vector ← take_field d length;
      match split_equals vector with
      | None => fail (st "meta.Block.parseVorbisComment: unable to locate '=' in vector " ++
                      debug_str (from_utf8_lossy vector))
      | Some (key, value) =>
          rest ← take_comments count d;
          mret ((tag_string key, tag_string value) :: rest)
      end
  end.

Definition parse_comments `{Debug} (body : list byte) : outcome str (list (str * str)) :=
  ((vendor ← take_le body;
    _ ← take_field body vendor;
    count ← take_le body;
    take_comments (Z.to_nat count) body) 0).1.

Definition parse_picture (body : list byte) : outcome str Picture :=
  ((kind ← take_be body;
    mime_length ← take_be body;
    mime ← take_field body mime_length;
    description ← take_be body;
    _ ← take_field body description;
    _ ← take_field body 16;
    size ← take_be body;
    data ← take_field body size;
    mret (mkPicture kind (tag_string mime) data)) 0).1.

Definition parse_stream_info (body : list byte) : outcome str StreamInfo :=
  if zlen body <? STREAM_INFO_SIZE_BYTES then Err (st "unexpected EOF") else
  min_block ← slice body 0 2;
  if be min_block <? 16 then
    Err (st "meta.Block.parseStreamInfo: invalid minimum block size (" ++ show (be min_block) ++
         st "); expected >= 16")
  else
    max_block ← slice body 2 4;
    if be max_block <? 16 then
      Err (st "meta.Block.parseStreamInfo: invalid maximum block size (" ++ show (be max_block) ++
           st "); expected >= 16")
    else
      packed ← slice body 10 18;
      let packed := be packed in
      let sample_rate := Z.shiftr packed 44 mod 2 ^ 32 in
      if sample_rate =? 0 then
        Err (st "meta.Block.parseStreamInfo: invalid sample rate (0)")
      else
        Ok (mkStreamInfo sample_rate (Z.land (Z.shiftr packed 41) 7 + 1)
              (Z.land (Z.shiftr packed 36) 0x1f + 1) (Z.land packed 0xfffffffff)).

(** The loop of [verify_seek_table] over the points from [index] on. *)
Fixpoint seek_points (todo : nat) (body : list byte) (index : Z) : outcome str unit :=
  match todo with
  | O => Ok tt
  | S todo =>
      w ← slice body (index * 18) (index * 18 + 8);
      let sample := be w in
      if negb (sample =? u64_max) && (sample =? 0) then
        Err (st "meta.Block.parseSeekTable: duplicate seek point with sample number (" ++
             show sample ++ st ")")
      else seek_points todo body (index + 1)
  end.

Definition verify_seek_table (body : list byte) : outcome str unit :=
  let points := zlen body / 18 in
  if points <? 1 then Err (st "meta.Block.parseSeekTable: at least one seek point is required")
  else seek_points (Z.to_nat (points - 1)) body 1.

(** ** Blocks *)

Definition parse_body `{Debug} (block_type : Z) (body : list byte) : outcome str Body :=
  if block_type =? 0 then Err (st "meta.Block.Parse: duplicate StreamInfo block")
  else if block_type =? 1 then
    if existsb (λ b, negb (b2z b =? 0)) body then Err (st "invalid padding") else Ok BOther
  else if block_type =? 3 then _ ← verify_seek_table body; Ok BOther
  else if block_type =? 4 then cs ← parse_comments body; Ok (Comments cs)
  else if block_type =? 6 then p ← parse_picture body; Ok (BPicture p)
  else if block_type =? 127 then Err (st "meta.Block.Parse: invalid block type")
  else Ok BOther.

Section Flac.
Context `{World, Debug}.

Definition read_exact_text (n : Z) : M Io str (list byte) := on_err io_message (read_exact n).

Definition read_block : M Io str (bool * Z * list byte) :=
  header ← read_exact_text 4;
  first ← lift (index header 0);
  length ← lift (slice header 1 4);
  body ← read_exact_text (be length);
  mret (negb (Z.land (b2z first) 0x80 =? 0), Z.land (b2z first) 0x7f, body).

(** The blocks after STREAMINFO; each takes at least its header. *)
Fixpoint block_loop (fuel : nat) (is_last : bool) : M Io str (list Block) :=
  if is_last then mret [] else
  match fuel with
  | O => lift OutOfFuel
  | S fuel =>
      '(last, block_type, body) ← read_block;
      parsed ← lift (parse_body block_type body);
      rest ← block_loop fuel last;
      mret (mkBlock (zlen body) parsed :: rest)
  end.

Definition parse : M Io str Stream :=
  signature ← read_exact_text 4;
  if negb (bool_decide (signature = bs "fLaC")) then fail (st "FLAC signature is missing") else
  '(is_last, block_type, body) ← read_block;
  if negb (block_type =? 0) then
    fail (st "flac.parseStreamInfo: incorrect type of first metadata block; expected *meta.StreamInfo")
  else
    info ← lift (parse_stream_info body);
    blocks ← block_loop (length file) is_last;
    s ← get;
    _ ← on_err io_message (seek (pos s));
    mret (mkStream info blocks).

Context `{Unicode, Images, FlacLib, HashOrder}.

(** [tags.entry(key).or_default().push(value)] for every comment. *)
Definition add_comment (tags : Tags) (kv : str * str) : Tags :=
  let key := tag_key kv.1 in <[key := values_of tags key ++ [kv.2]]> tags.

Definition comments_of (b : Block) : list (str * str) :=
  match block_body b with Comments cs => cs | _ => [] end.
Definition collect_tags (bs : list Block) : Tags := foldl add_comment ∅ (bs ≫= comments_of).

Definition front_pictures (bs : list Block) : list Picture :=
  omap (λ b, match block_body b with
             | BPicture p => if picture_type p =? PICTURE_TYPE_FRONT_COVER then Some p else None
             | _ => None
             end) bs.

Definition front_cover (bs : list Block) : outcome Failure AlbumArtwork :=
  match front_pictures bs with
  | [] => Err (error MissingArtwork (st "artwork") (st "embedded front cover is required"))
  | [p] => validate (picture_mime p) (picture_data p)
  | _ => Err (error InvalidArtwork (st "artwork") (st "multiple front covers are ambiguous"))
  end.

(** ** Decoding *)

(** [File::try_clone]. *)
Definition try_clone : M Io IoError unit := fun s =>
  match fault (ops s) with Some e => (Err e, one_op s) | None => (Ok tt, one_op s) end.

(** The decoding loop: packet [i] on, what the decoder was given, the samples so
    far. It ends with the reader, after at most [fuel] packets. *)
Fixpoint packet_loop (fuel i : nat) (total size : Z) (history : list (list byte)) (decoded : Z)
    : M Io Failure (list (list byte) * Z) :=
  match fuel with
  | O => lift OutOfFuel
  | S fuel =>
      _ ← check;
      packet ← lift (map_err audio_error (flac_packet i));
      match packet with
      | None => mret (history, decoded)
      | Some packet =>
          let history := history ++ [packet] in
          frames ← lift (map_err audio_error (flac_decode history));
          if frames =? 0 then fail (audio_error (st "decoded frame contains no samples")) else
          decoded ← lift (add_u64 decoded frames);
          _ ← report decoded total (flac_read i) size false;
          packet_loop fuel (S i) total size history decoded
      end
  end.

Definition build_audio (stream : Stream) (md5_matches : option bool) (decoded size : Z)
    : outcome Failure TechnicalAudio :=
  let i := info stream in
  if decoded =? 0 then Err (audio_error (st "decoded stream has invalid technical properties"))
  else if negb (total_samples i =? 0) && negb (decoded =? total_samples i) then
    Err (audio_error (st "decoded sample count does not match STREAMINFO"))
  else if bool_decide (md5_matches = Some false) then
    Err (audio_error (st "decoded audio MD5 does not match STREAMINFO"))
  else
    ms ← mul_u64 decoded 1000;
    duration_ms ← div_u64 ms (sample_rate i);
    let duration_ms := as_i64 duration_ms in
    if duration_ms <=? 0 then Err (audio_error (st "decoded duration is not positive")) else
    let metadata_bytes := 4 + 4 + STREAM_INFO_SIZE_BYTES +
                          foldr (λ b n, 4 + block_length b + n) 0 (blocks stream) in
    let audio_bytes := size - metadata_bytes in
    if audio_bytes <=? 0 then Err (audio_error (st "encoded audio size is not positive")) else
    bitrate_kbps ← average_bitrate_kbps audio_bytes duration_ms;
    if bitrate_kbps <=? 0 then Err (audio_error (st "average encoded bitrate is not positive")) else
    Ok (mkAudio (st "flac") (st "flac") (st "flac") duration_ms (sample_rate i) (channels i)
          (bits_per_sample i) bitrate_kbps).

Definition decode (fuel : nat) (stream : Stream) (size : Z) : M Io Failure TechnicalAudio :=
  _ ← on_err (λ e, audio_error (io_message e)) try_clone;
  _ ← on_err (λ e, audio_error (io_message e)) (seek 0);
  track ← lift (map_err audio_error flac_open);
  if negb track then fail (audio_error (st "FLAC stream has no audio track")) else
  match flac_decoder with
  | Some e => fail (audio_error e)
  | None =>
      let total := total_samples (info stream) in
      '(history, decoded) ← packet_loop fuel 0 total size [] 0;
      t ← lift (build_audio stream (flac_verified history) decoded size);
      _ ← report decoded total (flac_read (length history)) size true;
      mret t
  end.

Definition inspect (fuel : nat) : M Io Failure MediaInspection :=
  '(sha, size) ← hash_file;
  stream ← on_err (error UnsupportedFormat (st "container")) parse;
  let tags := collect_tags (blocks stream) in
  let metadata := normalize tags (replay_gain_from_tags (entries tags)) in
  let art := optional_artwork (front_cover (blocks stream)) in
  audio ← try (decode fuel stream size);
  _ ← lift (into_result (fjoin [err_of metadata; err_of art; err_of audio]));
  m ← lift metadata; a ← lift art; t ← lift audio;
  mret (mkInspection m a t sha).
End Flac.

(** ** Blocks written and read back *)

(** A field behind its 32-bit length, little-endian in comments and big-endian in
    pictures. *)
Definition le_field (d : list byte) : list byte := to_le 4 (zlen d) ++ d.
Definition be_field (d : list byte) : list byte := to_be 4 (zlen d) ++ d.

Definition render_comment (kv : str * str) : list byte :=
  le_field (encode kv.1 ++ (x3d :: encode kv.2)).
Definition render_comments (vendor : list byte) (cs : list (str * str)) : list byte :=
  le_field vendor ++ to_le 4 (zlen cs) ++ concat (render_comment <$> cs).

(** Comments a block can hold: text, with no equals sign in the key. *)
Definition comment_ok (kv : str * str) : Prop :=
  forallb scalar kv.1 = true ∧ forallb scalar kv.2 = true ∧ (61 ∉ kv.1) ∧
  zlen (encode kv.1 ++ (x3d :: encode kv.2)) < 2 ^ 32.

(** A part of a block read at its place: [d] is [part] behind [pre]. *)
Definition reads_part {A} (d : list byte) (m : M Z str A) (part : list byte) (a : A) : Prop :=
  ∀ pre post, d = pre ++ part ++ post → m (zlen pre) = ((Ok a, zlen pre + zlen part)).

Lemma reads_bind {A B} d (m : M Z str A) (f : A → M Z str B) part part' a b :
  reads_part d m part a → reads_part d (f a) part' b → reads_part d (m ≫= f) (part ++ part') b.
Proof.
  intros Hm Hf pre post Hd. rewrite <-app_assoc in Hd. unfold mbind, M_bind.
  rewrite (Hm pre (part' ++ post) Hd), <-zlen_app.
  rewrite (Hf (pre ++ part) post) by (by rewrite <-app_assoc).
  by rewrite !zlen_app, Z.add_assoc.
Qed.

Lemma reads_ret {A} d (a : A) : reads_part d (mret a) [] a.
Proof. intros pre post _. cbn. change (zlen (@nil byte)) with 0. by rewrite Z.add_0_r. Qed.

Lemma reads_ret_bind {A B} d (m : M Z str A) (f : A → B) part a :
  reads_part d m part a → reads_part d (x ← m; mret (f x)) part (f a).
Proof. intros Hm. rewrite <-(app_nil_r part). by eapply reads_bind, reads_ret. Qed.

Lemma reads_take d size part : size = zlen part → reads_part d (take_field d size) part part.
Proof.
  intros -> pre post ->. unfold take_field. pose proof (zlen_nonneg part). pose proof (zlen_nonneg post).
  run_m. rewrite sub_u64_Ok by (rewrite !zlen_app; pose proof (zlen_nonneg pre); lia).
  destruct (Z.ltb_spec (zlen (pre ++ part ++ post) - zlen pre) (zlen part)) as [Hlt|_];
    [rewrite !zlen_app in Hlt; lia|].
  by rewrite slice_app.
Qed.

Lemma reads_le d n : 0 <= n < 2 ^ 32 → reads_part d (take_le d) (to_le 4 n) n.
Proof.
  intros Hn. unfold take_le. rewrite <-(Z.mod_small n (2 ^ 32)) at 2 by lia.
  change (2 ^ 32) with (256 ^ Z.of_nat 4). rewrite <-le_to_le.
  apply (reads_ret_bind d _ le), reads_take. unfold zlen. by rewrite length_to_le.
Qed.

Lemma reads_be d n : 0 <= n < 2 ^ 32 → reads_part d (take_be d) (to_be 4 n) n.
Proof.
  intros Hn. unfold take_be. rewrite <-(Z.mod_small n (2 ^ 32)) at 2 by lia.
  change (2 ^ 32) with (256 ^ Z.of_nat 4). rewrite <-be_to_be.
  apply (reads_ret_bind d _ be), reads_take. unfold zlen. by rewrite length_to_be.
Qed.

Lemma encode_char_equals c : scalar c = true → c ≠ 61 → Forall (λ b, b2z b ≠ 61) (encode_char c).
Proof.
  unfold scalar, in_range, encode_char. intros Hs Hc. rewrite orb_true_iff, !andb_true_iff, !Z.leb_le in Hs.
  destruct (Z.ltb_spec c 128); [|destruct (Z.ltb_spec c 2048); [|destruct (Z.ltb_spec c 65536)]];
    repeat constructor; rewrite b2z_small; Z.div_mod_to_equations; lia.
Qed.

Lemma split_equals_key k v : forallb scalar k = true → 61 ∉ k →
  split_equals (encode k ++ (x3d :: v)) = Some (encode k, v).
Proof.
  intros Hs Hk. assert (Forall (λ b, b2z b ≠ 61) (encode k)) as Hall.
  { unfold encode. induction k as [|c k IH]; [constructor|]. cbn [forallb] in Hs.
    apply andb_true_iff in Hs as [Hc Hs]. apply not_elem_of_cons in Hk as [Hne Hk].
    rewrite bind_cons. apply Forall_app. split; [by apply encode_char_equals|by apply IH]. }
  induction Hall as [|b d Hb Hd IH]; cbn [split_equals app]; [done|].
  rewrite (proj2 (Z.eqb_neq _ _) Hb), IH. done.
Qed.

Section RoundTrips.
Context `{Debug}.

Lemma reads_comments d cs : Forall comment_ok cs →
  reads_part d (take_comments (length cs) d) (concat (render_comment <$> cs)) cs.
Proof.
  induction 1 as [|[k v] cs (Hk & Hv & Hne & Hlen) Hcs IH]; cbn [length take_comments].
  { apply reads_ret. }
  simpl in Hk, Hv, Hne, Hlen. rewrite fmap_cons. cbn [concat]. unfold render_comment at 1, le_field.
  rewrite <-app_assoc. pose proof (zlen_nonneg (encode k ++ (x3d :: encode v))).
  eapply reads_bind; [by apply reads_le|].
  eapply reads_bind; [by apply reads_take|]. cbn [fst snd].
  rewrite split_equals_key by done. unfold tag_string. rewrite !from_utf8_encode by done.
  by apply (reads_ret_bind d _ (cons (k, v))).
Qed.

(** Vorbis comments survive being written. Any vendor string and any
    comments whose keys hold no equals sign, written as a comment block and
    followed by anything, read back as those comments in order. *)
Theorem parse_comments_roundtrip vendor cs rest :
  Forall comment_ok cs → zlen vendor < 2 ^ 32 → zlen cs < 2 ^ 32 →
  parse_comments (render_comments vendor cs ++ rest) = Ok cs.
Proof.
  intros Hcs Hv Hn. pose proof (zlen_nonneg vendor). pose proof (zlen_nonneg cs).
  set (d := render_comments vendor cs ++ rest). unfold parse_comments.
  match goal with |- (?m 0).1 = _ => assert (reads_part d m (render_comments vendor cs) cs) as Hr end.
  { unfold render_comments, le_field. rewrite <-app_assoc.
    eapply reads_bind; [by apply reads_le|]. eapply reads_bind; [by apply reads_take|].
    eapply reads_bind; [by apply reads_le|]. unfold zlen. rewrite Nat2Z.id. by apply reads_comments. }
  pose proof (Hr [] rest eq_refl) as E. change (zlen (@nil byte)) with 0 in E. by rewrite E.
Qed.
End RoundTrips.

Definition render_picture (p : Picture) (mime description extra : list byte) : list byte :=
  to_be 4 (picture_type p) ++ be_field mime ++ be_field description ++ extra ++ be_field (picture_data p).

(** pictures survive being written. A picture of any type, with its MIME type
    as text and data that fits its length field, any description and any sixteen
    bytes of dimensions, reads back from its block as that picture. *)
Theorem parse_picture_roundtrip p description extra rest :
  0 <= picture_type p < 2 ^ 32 → forallb scalar (picture_mime p) = true →
  zlen (encode (picture_mime p)) < 2 ^ 32 → zlen description < 2 ^ 32 → zlen extra = 16 →
  zlen (picture_data p) < 2 ^ 32 →
  parse_picture (render_picture p (encode (picture_mime p)) description extra ++ rest) = Ok p.
Proof.
  intros Ht Hm Hml Hdl Hx Hl. set (mime := encode (picture_mime p)) in *.
  pose proof (zlen_nonneg mime). pose proof (zlen_nonneg description).
  pose proof (zlen_nonneg (picture_data p)).
  set (d := render_picture p mime description extra ++ rest). unfold parse_picture.
  match goal with |- (?m 0).1 = _ => assert (reads_part d m (render_picture p mime description extra) p) as Hr end.
  { unfold render_picture, be_field. rewrite <-!app_assoc.
    eapply reads_bind; [by apply reads_be|]. eapply reads_bind; [by apply reads_be|].
    eapply reads_bind; [by apply reads_take|]. eapply reads_bind; [by apply reads_be|].
    eapply reads_bind; [by apply reads_take|]. eapply reads_bind; [by apply reads_take|].
    eapply reads_bind; [by apply reads_be|].
    pose proof (reads_ret_bind d (take_field d (zlen (picture_data p)))
      (λ data, mkPicture (picture_type p) (tag_string mime) data) (picture_data p) (picture_data p)
      (reads_take d _ _ eq_refl)) as Hlast.
    unfold tag_string in Hlast at 2. unfold mime in Hlast at 2. rewrite from_utf8_encode in Hlast by done.
    by destruct p. }
  pose proof (Hr [] rest eq_refl) as E. change (zlen (@nil byte)) with 0 in E. by rewrite E.
Qed.

(** ** Every block parser ends inside its block *)

Definition inside (d : list byte) (o : Z) : Prop := 0 <= o <= zlen d.

Lemma take_field_keeps d size : 0 <= size → preserves (inside d) (take_field d size).
Proof.
  intros Hs o Ho. unfold inside in *. unfold take_field. run_m. rewrite sub_u64_Ok by lia.
  destruct (Z.ltb_spec (zlen d - o) size); simpl; [done|].
  rewrite slice_in by lia. simpl. split; [lia|done].
Qed.

Lemma take_le_keeps d : preserves (inside d) (take_le d).
Proof. apply preserves_bind; [by apply take_field_keeps|auto with rust]. Qed.

Lemma take_be_keeps d : preserves (inside d) (take_be d).
Proof. apply preserves_bind; [by apply take_field_keeps|auto with rust]. Qed.

Lemma take_le_nonneg d o n o' : take_le d o = (Ok n, o') → 0 <= n.
Proof. unfold take_le. intros H. peel_m. apply le_bound. Qed.

Lemma take_be_nonneg d o n o' : take_be d o = (Ok n, o') → 0 <= n.
Proof. unfold take_be. intros H. peel_m. apply be_bound. Qed.

(** A field behind its length. *)
Lemma sized_keeps {A} d (m : M Z str Z) (f : Z → M Z str A) : preserves (inside d) m →
  (∀ o n o', m o = (Ok n, o') → 0 <= n) → (∀ n, 0 <= n → preserves (inside d) (f n)) →
  preserves (inside d) (m ≫= f).
Proof. intros Hm Hn Hf. eapply preserves_bind_with; [done|intros; by eapply Hn|done]. Qed.

Section BlockLemmas.
Context `{Debug}.

Lemma take_comments_keeps n d : preserves (inside d) (take_comments n d).
Proof.
  induction n as [|n IH]; cbn [take_comments]; [auto with rust|].
  eapply sized_keeps; [apply take_le_keeps|apply take_le_nonneg|]. intros len Hlen.
  apply preserves_bind; [by apply take_field_keeps|]. intros v.
  destruct (split_equals v) as [[key value]|]; [|auto with rust].
  apply preserves_bind; [done|auto with rust].
Qed.

Lemma parse_comments_returns d : returns (parse_comments d).
Proof.
  unfold parse_comments. match goal with |- returns (?m 0).1 => assert (preserves (inside d) m) as Hm end.
  { eapply sized_keeps; [apply take_le_keeps|apply take_le_nonneg|]. intros v Hv.
    apply preserves_bind; [by apply take_field_keeps|]. intros _.
    apply preserves_bind; [apply take_le_keeps|]. intros n. apply take_comments_keeps. }
  apply Hm. unfold inside. pose proof (zlen_nonneg d). lia.
Qed.

Lemma parse_picture_returns d : returns (parse_picture d).
Proof.
  unfold parse_picture. match goal with |- returns (?m 0).1 => assert (preserves (inside d) m) as Hm end.
  { apply preserves_bind; [apply take_be_keeps|]. intros kind.
    eapply sized_keeps; [apply take_be_keeps|apply take_be_nonneg|]. intros n Hn.
    apply preserves_bind; [by apply take_field_keeps|]. intros mime.
    eapply sized_keeps; [apply take_be_keeps|apply take_be_nonneg|]. intros n' Hn'.
    apply preserves_bind; [by apply take_field_keeps|]. intros _.
    apply preserves_bind; [by apply take_field_keeps|]. intros _.
    eapply sized_keeps; [apply take_be_keeps|apply take_be_nonneg|]. intros n'' Hn''.
    apply preserves_bind; [by apply take_field_keeps|auto with rust]. }
  apply Hm. unfold inside. pose proof (zlen_nonneg d). lia.
Qed.

(** What STREAMINFO says. *)
Record stream_info (body : list byte) (i : StreamInfo) : Prop := {
  stream_info_size : 34 <= zlen body;
  stream_info_rate : 0 < sample_rate i < 2 ^ 20;
  stream_info_channels : 1 <= channels i <= 8;
  stream_info_bits : 1 <= bits_per_sample i <= 32;
  stream_info_samples : 0 <= total_samples i < 2 ^ 36;
  stream_info_packed : be (sub body 10 8) =
    sample_rate i * 2 ^ 44 + (channels i - 1) * 2 ^ 41 + (bits_per_sample i - 1) * 2 ^ 36 + total_samples i
}.

Lemma parse_stream_info_cases body :
  match parse_stream_info body with
  | Ok i => stream_info body i
  | Err _ => True
  | _ => False
  end.
Proof.
  unfold parse_stream_info, STREAM_INFO_SIZE_BYTES. destruct (Z.ltb_spec (zlen body) 34); [done|].
  rewrite !slice_in by lia. cbn [mbind outcome_bind].
  destruct (be _ <? 16); [done|]. cbn [mbind outcome_bind]. destruct (be _ <? 16); [done|].
  cbn [mbind outcome_bind].
  replace (18 - 10) with 8 by lia. set (packed := be (sub body 10 8)).
  assert (0 <= packed < 2 ^ 64) as Hp.
  { unfold packed. pose proof (be_bound (sub body 10 8)) as Hb. by rewrite zlen_sub in Hb by lia. }
  rewrite !Z.shiftr_div_pow2 by lia. change 7 with (Z.ones 3). change 0x1f with (Z.ones 5).
  change 0xfffffffff with (Z.ones 36). rewrite !Z.land_ones by lia.
  rewrite (Z.mod_small (packed / 2 ^ 44)) by (Z.div_mod_to_equations; lia).
  destruct (Z.eqb_spec (packed / 2 ^ 44) 0); [done|].
  split; cbn [sample_rate channels bits_per_sample total_samples]; Z.div_mod_to_equations; lia.
Qed.

Lemma seek_points_returns n d i : 0 <= i → (i + Z.of_nat n) * 18 <= zlen d → returns (seek_points n d i).
Proof.
  revert i. induction n as [|n IH]; intros i Hi Hd; cbn [seek_points]; [done|].
  rewrite slice_in by lia. cbn [mbind outcome_bind]. destruct (_ && _); [done|]. apply IH; lia.
Qed.

Lemma verify_seek_table_returns d : returns (verify_seek_table d).
Proof.
  unfold verify_seek_table. destruct (Z.ltb_spec (zlen d / 18) 1); [done|].
  apply seek_points_returns; [lia|]. Z.div_mod_to_equations; lia.
Qed.

Lemma parse_body_returns ty d : returns (parse_body ty d).
Proof.
  unfold parse_body. repeat case_match; auto with rust.
  - apply returns_bind; [apply verify_seek_table_returns|done].
  - apply returns_bind; [apply parse_comments_returns|done].
  - apply returns_bind; [apply parse_picture_returns|done].
Qed.
End BlockLemmas.

(** A lone zero sample number is refused at any point but the first, repeated
    or not. *)
Lemma lone_zero_seek_point :
  verify_seek_table (to_be 8 1 ++ replicate 10 x00 ++ to_be 8 0 ++ replicate 10 x00) =
  Err (st "meta.Block.parseSeekTable: duplicate seek point with sample number (0)").
Proof. vm_compute. reflexivity. Qed.

(** ** The blocks of a file *)

(** A metadata block at [o]: whether it is the last, its type and its body. *)
Record block_at (d : list byte) (o : Z) (last : bool) (ty : Z) (body : list byte) : Prop := {
  block_header : ∃ h, d !! Z.to_nat o = Some h ∧ last = negb (Z.land (b2z h) 0x80 =? 0) ∧
                      ty = Z.land (b2z h) 0x7f;
  block_size : zlen body = be (sub d (o + 1) 3);
  block_bytes : body = sub d (o + 4) (zlen body);
  block_inside : o + 4 + zlen body <= zlen d
}.

(** The blocks from [o] to [e]; [last] tells whether the one before was the last. *)
Inductive flac_blocks `{Debug} (d : list byte) (e : Z) : Z → bool → list Block → Prop :=
| flac_blocks_end : flac_blocks d e e true []
| flac_blocks_next o last ty body parsed bs : block_at d o last ty body →
    parse_body ty body = Ok parsed → flac_blocks d e (o + 4 + zlen body) last bs →
    flac_blocks d e o false (mkBlock (zlen body) parsed :: bs).

Lemma flac_blocks_size `{Debug} d e o last bs : flac_blocks d e o last bs →
  e = o + foldr (λ b n, 4 + block_length b + n) 0 bs.
Proof. induction 1; simpl; lia. Qed.

Lemma flac_blocks_lengths `{Debug} d e o last bs : flac_blocks d e o last bs →
  Forall (λ b, 0 <= block_length b) bs.
Proof. induction 1; constructor; [apply zlen_nonneg|done]. Qed.

Lemma blocks_size_nonneg bs : Forall (λ b, 0 <= block_length b) bs →
  0 <= foldr (λ b n, 4 + block_length b + n) 0 bs.
Proof. induction 1; cbn; lia. Qed.

Section FileLemmas.
Context `{World, Debug}.

Lemma index_sub {E} (d : list byte) o n h : 0 <= o → 0 < n → @index E _ (sub d o n) 0 = Ok h →
  d !! Z.to_nat o = Some h.
Proof.
  intros Ho Hn. unfold index, sub. simpl. rewrite lookup_take, decide_True by lia.
  rewrite lookup_drop. change (Z.to_nat 0) with 0%nat. rewrite Nat.add_0_r.
  destruct (d !! Z.to_nat o) as [b|]; [|done]. by intros [= ->].
Qed.

Lemma read_block_cases s : at_file s →
  match read_block s with
  | (Ok (last, ty, body), s') => block_at file (pos s) last ty body ∧ pos s' = pos s + 4 + zlen body
  | (Err _, s') => at_file s'
  | _ => False
  end.
Proof.
  intros Hs. unfold read_block, read_exact_text. unfold mbind at 1, M_bind at 1, on_err at 1.
  destruct (read_exact_keeps 4 s Hs) as [Hs1 Hret].
  destruct (read_exact 4 s) as [[header|e| |] s1] eqn:Hr; try done. cbn [map_err].
  apply read_exact_Ok in Hr as (Hl & Hh & Hp1 & Hin); [|done|lia]. unfold at_file in Hs.
  unfold mbind at 1, M_bind at 1, lift at 1.
  destruct (@index_in str _ header 0) as (h & Hi & _); [lia..|]. rewrite Hi.
  unfold mbind at 1, M_bind at 1, lift at 1. rewrite slice_in by lia.
  assert (sub header 1 (4 - 1) = sub file (pos s + 1) 3) as -> by (rewrite Hh, sub_sub by lia; done).
  pose proof (be_bound (sub file (pos s + 1) 3)) as Hb. set (n := be (sub file (pos s + 1) 3)) in *.
  unfold mbind at 1, M_bind at 1, on_err. destruct (read_exact_keeps n s1 Hs1) as [Hs2 Hret2].
  destruct (read_exact n s1) as [[body|e| |] s2] eqn:Hr2; try done. cbn [map_err].
  apply read_exact_Ok in Hr2 as (Hl2 & Hbody & Hp2 & Hin2); [|done|lia].
  unfold file_len in *. split; [|simpl; lia]. split.
  - exists h. split; [|done]. subst header. by apply (index_sub _ _ 4 _) in Hi.
  - by rewrite Hl2.
  - by rewrite Hl2, <-Hp1.
  - lia.
Qed.

Lemma block_loop_cases fuel last s : at_file s → pos s <= file_len → file_len - pos s < Z.of_nat fuel →
  match block_loop fuel last s with
  | (Ok bs, s') => at_file s' ∧ flac_blocks file (pos s') (pos s) last bs
  | (Err _, s') => at_file s'
  | _ => False
  end.
Proof.
  revert last s. induction fuel as [|fuel IH]; intros last s Hs Hin Hf; [lia|]. cbn [block_loop].
  destruct last; [split; [done|constructor]|].
  unfold mbind at 1, M_bind at 1. pose proof (read_block_cases s Hs) as Hb.
  destruct (read_block s) as [[[[last ty] body]|e| |] s1]; try done. destruct Hb as [Hb Hp].
  pose proof (block_inside _ _ _ _ _ Hb) as Hbi. pose proof (zlen_nonneg body). unfold at_file, file_len in *.
  unfold mbind at 1, M_bind at 1, lift at 1. pose proof (parse_body_returns ty body).
  destruct (parse_body ty body) as [parsed|e| |] eqn:Hparse; try done; [|simpl; lia].
  unfold mbind, M_bind. specialize (IH last s1 ltac:(lia) ltac:(lia) ltac:(lia)).
  destruct (block_loop fuel last s1) as [[bs|e| |] s2]; try done. destruct IH as [Hs2 Hbs].
  split; [done|]. rewrite Hp in Hbs. by eapply flac_blocks_next.
Qed.

(** What a parsed stream is: the signature, STREAMINFO, and the other blocks up
    to [e]. *)
Definition stream_at (e : Z) (st_ : Stream) : Prop :=
  sub file 0 4 = bs "fLaC" ∧ ∃ last body, block_at file 4 last 0 body ∧
    parse_stream_info body = Ok (info st_) ∧ stream_info body (info st_) ∧
    flac_blocks file e (8 + zlen body) last (blocks st_).

Lemma parse_cases s : pos s = 0 →
  match parse s with
  | (Ok st_, s') => at_file s' ∧ pos s' <= file_len ∧ stream_at (pos s') st_
  | (Err _, s') => at_file s'
  | _ => False
  end.
Proof.
  intros Hs0. assert (at_file s) as Hs by (unfold at_file; lia).
  unfold parse. unfold mbind at 1, M_bind at 1, read_exact_text at 1, on_err at 1.
  destruct (read_exact_keeps 4 s Hs) as [Hs1 Hret].
  destruct (read_exact 4 s) as [[sig|e| |] s1] eqn:Hr; try done. cbn [map_err].
  apply read_exact_Ok in Hr as (Hl & Hsig & Hp1 & _); [|done|lia]. rewrite Hs0 in Hsig, Hp1.
  case_bool_decide as Hf; cbn [negb]; [|done]. simpl in Hs1.
  unfold mbind at 1, M_bind at 1. pose proof (read_block_cases s1 Hs1) as Hb.
  destruct (read_block s1) as [[[[last ty] body]|e| |] s2]; try done. destruct Hb as [Hb Hp2].
  rewrite Hp1 in Hb, Hp2. pose proof (block_inside _ _ _ _ _ Hb) as Hbi. pose proof (zlen_nonneg body).
  assert (at_file s2) as Hs2 by (unfold at_file; lia).
  destruct (Z.eqb_spec ty 0) as [->|]; cbn [negb]; [|done].
  unfold mbind at 1, M_bind at 1, lift at 1. pose proof (parse_stream_info_cases body) as Hi.
  destruct (parse_stream_info body) as [i|e| |] eqn:Hinfo; try done.
  unfold mbind at 1, M_bind at 1.
  assert (pos s2 <= file_len ∧ file_len - pos s2 < Z.of_nat (length file)) as [Hin2 Hfuel]
    by (unfold file_len, zlen in *; lia).
  pose proof (block_loop_cases (length file) last s2 Hs2 Hin2 Hfuel) as Hbl.
  destruct (block_loop (length file) last s2) as [[bs|e| |] s3]; try done. destruct Hbl as [Hs3 Hbs].
  unfold mbind, M_bind, get, on_err. destruct (seek_keeps (pos s3) Hs3 s3 Hs3) as [Hs4 Hret4].
  destruct (seek (pos s3) s3) as [[[]|e| |] s4] eqn:Hseek; try done. cbn [map_err]. apply seek_Ok in Hseek.
  split; [done|]. rewrite Hp2 in Hbs. rewrite Hseek. replace (0 + 4 + 4 + zlen body) with (8 + zlen body) in Hbs by lia.
  assert (∀ o last bs, flac_blocks file (pos s3) o last bs → o <= file_len → pos s3 <= file_len) as Hle.
  { clear. intros o last bs Hbs. induction Hbs as [|o last ty body parsed bs Hb _ _ IH]; [done|].
    intros _. apply IH. destruct Hb. unfold file_len. lia. }
  split; [eapply Hle; [done|lia]|]. split; [by rewrite <-Hsig|]. by exists last, body.
Qed.
End FileLemmas.

(** ** Decoding *)

Section DecodeLemmas.
Context `{World, FlacLib}.

(** A reader and decoder that answer: the packets end within [fuel], a frame has
    at most 65535 samples, and the bytes counted are a file's. *)
Record flac_answers (fuel : nat) : Prop := {
  answers_open : returns flac_open;
  answers_packet : ∀ i, returns (flac_packet i);
  answers_end : ∃ k, (k < fuel)%nat ∧ ∀ p, flac_packet k ≠ Ok (Some p);
  answers_decode : ∀ h, returns (flac_decode h);
  answers_frames : ∀ h n, flac_decode h = Ok n → 0 <= n <= 65535;
  answers_read : ∀ i, 0 <= flac_read i <= 2 ^ 56;
  answers_fuel : Z.of_nat fuel <= 2 ^ 37
}.

(** The first [k] packets, decoded one after the other. *)
Inductive played : nat → list (list byte) → Z → Prop :=
| played_none : played 0 [] 0
| played_packet k h d p n : played k h d → flac_packet k = Ok (Some p) →
    flac_decode (h ++ [p]) = Ok n → n ≠ 0 → played (S k) (h ++ [p]) (d + n).

Lemma report_bytes_keeps decoded total encoded size complete : 0 <= encoded <= 2 ^ 56 →
  preserves at_file (report decoded total encoded size complete).
Proof.
  intros He s Hs. unfold report. destruct reporter as [answer|]; [|done].
  unfold percent_of. rewrite (proj2 (Z.leb_le (encoded * 100) i64_max)) by (unfold i64_max; lia).
  destruct (0 <? total), (0 <? size); cbn [mbind outcome_bind]; by destruct (answer _ _).
Qed.

Lemma packet_loop_cases fuel0 fuel i k total size h d s : flac_answers fuel0 → at_file s →
  played i h d → 0 <= d <= 65535 * Z.of_nat i → (i <= k)%nat → (k < fuel0)%nat → (k - i < fuel)%nat →
  (∀ p, flac_packet k ≠ Ok (Some p)) →
  match packet_loop fuel i total size h d s with
  | (Ok (h', d'), s') => at_file s' ∧ 0 <= d' <= 65535 * Z.of_nat fuel0 ∧
      ∃ n, played n h' d' ∧ flac_packet n = Ok None
  | (Err _, s') => at_file s'
  | _ => False
  end.
Proof.
  intros Hlib. revert i h d s. induction fuel as [|fuel IH]; intros i h d s Hs Hpl Hd Hik Hk Hf Hend; [lia|].
  cbn [packet_loop]. unfold mbind at 1, M_bind at 1. destruct (check_keeps s Hs) as [Hs1 Hret].
  destruct (check s) as [[[]|e| |] s1]; try done. simpl in Hs1.
  unfold mbind at 1, M_bind at 1, lift at 1. pose proof (answers_packet _ Hlib i).
  destruct (flac_packet i) as [[p|]|e| |] eqn:Hp; try done; cbn [map_err].
  2: { split; [done|]. split; [lia|]. by exists i. }
  assert (i ≠ k) as Hne by (intros ->; by apply (Hend p)).
  unfold mbind at 1, M_bind at 1, lift at 1. pose proof (answers_decode _ Hlib (h ++ [p])).
  destruct (flac_decode (h ++ [p])) as [n|e| |] eqn:Hn; try done. cbn [map_err].
  pose proof (answers_frames _ Hlib _ _ Hn). pose proof (answers_fuel _ Hlib).
  destruct (Z.eqb_spec n 0); [done|].
  unfold mbind at 1, M_bind at 1, lift at 1. rewrite add_u64_Ok by (unfold u64_max; lia).
  unfold mbind at 1, M_bind at 1.
  destruct (report_bytes_keeps (d + n) total (flac_read i) size false (answers_read _ Hlib i) s1 Hs1)
    as [Hs2 Hret2].
  destruct (report _ _ _ _ _ s1) as [[[]|e| |] s2]; try done. simpl in Hs2.
  apply IH; try done; try lia. by eapply played_packet.
Qed.

(** The technical values of a stream of [decoded] samples. *)
Record flac_audio (stream : Stream) (verified : option bool) (decoded size : Z) (t : TechnicalAudio) : Prop := {
  flac_format : format t = st "flac" ∧ codec t = st "flac";
  flac_values : sample_rate_hz t = sample_rate (info stream) ∧ channel_count t = channels (info stream) ∧
                bit_depth t = bits_per_sample (info stream);
  flac_total : total_samples (info stream) ≠ 0 → decoded = total_samples (info stream);
  flac_md5 : verified ≠ Some false;
  flac_duration : duration_ms t = decoded * 1000 / sample_rate (info stream) ∧ 0 < duration_ms t;
  flac_bitrate : let encoded := size - (42 + foldr (λ b n, 4 + block_length b + n) 0 (blocks stream)) in
    0 < encoded ∧ bitrate_kbps t = (encoded * 8 + duration_ms t / 2) / duration_ms t ∧ 0 < bitrate_kbps t
}.

Lemma build_audio_cases stream v decoded size : 0 < sample_rate (info stream) →
  Forall (λ b, 0 <= block_length b) (blocks stream) → 0 <= decoded <= 65535 * 2 ^ 37 →
  match build_audio stream v decoded size with
  | Ok t => flac_audio stream v decoded size t
  | Err _ => True
  | Panic => 2 ^ 59 < size
  | OutOfFuel => False
  end.
Proof.
  intros Hr Hblocks Hd. unfold build_audio. destruct (decoded =? 0); [done|].
  destruct (negb _ && _) eqn:Ht; [done|]. case_bool_decide as Hv; [done|].
  rewrite mul_u64_Ok by (unfold u64_max; lia). cbn [mbind outcome_bind].
  rewrite div_u64_Ok by lia. cbn [mbind outcome_bind].
  assert (0 <= decoded * 1000 / sample_rate (info stream) <= decoded * 1000) as Hq.
  { split; [apply Z.div_pos; lia|]. apply Z.div_le_upper_bound; nia. }
  rewrite as_i64_id by (unfold is_i64, i64_min, i64_max; lia).
  destruct (Z.leb_spec (decoded * 1000 / sample_rate (info stream)) 0); [done|].
  set (encoded := size - _). destruct (Z.leb_spec encoded 0); [done|].
  assert (encoded <= size) as Hle.
  { unfold encoded, STREAM_INFO_SIZE_BYTES. pose proof (blocks_size_nonneg _ Hblocks). lia. }
  set (ms := decoded * 1000 / sample_rate (info stream)) in *.
  assert (ms / 2 <= 65535 * 2 ^ 37 * 500) by (apply Z.div_le_upper_bound; lia).
  pose proof (average_bitrate_cases (E:=Failure) encoded ms ltac:(lia) ltac:(lia)) as Hb.
  destruct (average_bitrate_kbps encoded ms) as [n|f| |]; try done; cbn [mbind outcome_bind]; [|unfold i64_max in Hb; lia].
  destruct (Z.leb_spec n 0); [done|]. subst n.
  split; try done. apply andb_false_iff in Ht as [Ht|Ht]; bool_to_prop; [done|]. done.
Qed.

Lemma flac_decode_cases fuel stream size s : flac_answers fuel → at_file s → 0 < sample_rate (info stream) →
  Forall (λ b, 0 <= block_length b) (blocks stream) →
  match decode fuel stream size s with
  | (Ok t, _) => ∃ n h decoded, played n h decoded ∧ flac_packet n = Ok None ∧
      flac_audio stream (flac_verified h) decoded size t
  | (Err _, _) => True
  | (Panic, _) => 2 ^ 59 < size
  | (OutOfFuel, _) => False
  end.
Proof.
  intros Hlib Hs Hrate Hblocks. unfold decode. unfold mbind at 1, M_bind at 1, on_err at 1, try_clone.
  destruct (fault (ops s)); [done|]. cbn [map_err].
  assert (at_file (one_op s)) as Hs1 by done.
  unfold mbind at 1, M_bind at 1, on_err at 1.
  destruct (seek_keeps 0 (Z.le_refl 0) (one_op s) Hs1) as [Hs2 Hret].
  destruct (seek 0 (one_op s)) as [[[]|e| |] s2]; try done. cbn [map_err]. simpl in Hs2.
  unfold mbind at 1, M_bind at 1, lift at 1. pose proof (answers_open _ Hlib).
  destruct flac_open as [track|e| |]; try done. cbn [map_err]. destruct track; cbn [negb]; [|done].
  destruct flac_decoder; [done|].
  unfold mbind at 1, M_bind at 1. destruct (answers_end _ Hlib) as (k & Hk & Hend).
  pose proof (packet_loop_cases fuel fuel 0 k (total_samples (info stream)) size [] 0 s2 Hlib Hs2
    played_none ltac:(lia) ltac:(lia) Hk ltac:(lia) Hend) as Hl.
  destruct (packet_loop _ _ _ _ _ _ s2) as [[[h d]|e| |] s3]; try done.
  destruct Hl as (Hs3 & Hd & n & Hpl & Hn). pose proof (answers_fuel _ Hlib).
  unfold mbind at 1, M_bind at 1, lift at 1.
  pose proof (build_audio_cases stream (flac_verified h) d size Hrate Hblocks ltac:(lia)) as Hb.
  destruct (build_audio _ _ _ _) as [t|e| |]; try done.
  unfold mbind, M_bind.
  destruct (report_bytes_keeps d (total_samples (info stream)) (flac_read (length h)) size true
    (answers_read _ Hlib _) s3 Hs3) as [Hs4 Hret4].
  destruct (report _ _ _ _ _ s3) as [[[]|e| |] s4]; try done. by exists n, h, d.
Qed.

Context `{Debug, Unicode, Images, HashOrder}.

Lemma flac_cover_returns bs : images_return → returns (front_cover bs).
Proof. intros Hi. unfold front_cover. case_match; [done|]. case_match; [by apply validate_returns|done]. Qed.

(** What the inspection of a FLAC file accepts. *)
Definition flac_accepted (m : MediaInspection) : Prop :=
  file_sha256 m = sha256_hex file ∧
  ∃ e stream n h decoded, stream_at e stream ∧ e <= file_len ∧
    played n h decoded ∧ flac_packet n = Ok None ∧
    flac_audio stream (flac_verified h) decoded file_len (audio m) ∧
    (let ts := collect_tags (blocks stream) in
     normalize ts (replay_gain_from_tags (entries ts)) = Ok (inspected m) ∧
     well_formed ts (inspected m)) ∧
    optional_artwork (front_cover (blocks stream)) = Ok (album_artwork m).

Lemma flac_inspect_cases fuel s :
  images_return → flac_answers fuel → pos s = 0 →
  match inspect fuel s with
  | (Ok m, _) => flac_accepted m
  | (Err _, _) => True
  | (Panic, _) => 2 ^ 59 < file_len
  | (OutOfFuel, _) => False
  end.
Proof.
  intros Hi Hlib Hs. unfold inspect. unfold mbind at 1, M_bind at 1.
  pose proof (hash_file_cases s Hs) as Hh.
  destruct (hash_file s) as [[[sha n]|f| |] s1]; try done. destruct Hh as (-> & -> & Hp1).
  unfold mbind at 1, M_bind at 1, on_err at 1. pose proof (parse_cases s1 Hp1) as Hp.
  destruct (parse s1) as [[stream|e| |] s2]; try done. cbn [map_err].
  destruct Hp as (Hs2 & Hin & Hst). pose proof Hst as (_ & last & body & _ & _ & [_ Hrate _ _ _ _] & Hblocks%flac_blocks_lengths).
  set (ts := collect_tags (blocks stream)).
  unfold mbind at 1, M_bind at 1, try. pose proof (flac_decode_cases fuel stream file_len s2 Hlib Hs2 ltac:(lia) Hblocks) as Hd.
  pose proof (normalize_cases ts (replay_gain_from_tags (entries ts))) as Hn.
  pose proof (returns_optional_artwork _ (flac_cover_returns (blocks stream) Hi)) as Hart.
  destruct (decode _ _ _ s2) as [[t|e| |] s3]; try done.
  - destruct Hd as (k & h & d & Hpl & Hk & Ha). run_m.
    destruct (normalize ts _) as [m|f| |] eqn:Hm; try done.
    + destruct (optional_artwork _) as [a|f| |] eqn:Hoa; try done.
      * simpl. split; [done|]. exists (pos s2), stream, k, h, d. fold ts. by destruct Hn.
      * unfold into_result. by case_bool_decide.
    + unfold into_result. by case_bool_decide; destruct (optional_artwork _).
  - run_m. unfold into_result. case_bool_decide; simpl; [|done].
    destruct (normalize ts _) as [m|f| |]; try done. destruct (optional_artwork _); done.
Qed.

(** C36: an imported FLAC is what its bytes say. With a decoder and an image
    library that answer, inspecting a FLAC from its start ends, and without a panic
    unless the file is above half an exbibyte, where the bitrate's sum overflows.
    When it succeeds, the recorded hash is the whole file's, STREAMINFO and the
    other blocks follow each other inside the file, the metadata is the normal
    form of the comments and can be stored, the artwork is the one front cover or
    the reason there is none, every packet decoded to samples, their number is
    the one STREAMINFO announces and their MD5 does not disagree. *)
Theorem flac_inspect_correct fuel s :
  images_return → flac_answers fuel → pos s = 0 →
  match inspect fuel s with
  | (Ok m, _) => flac_accepted m
  | (Err _, _) => True
  | (Panic, _) => 2 ^ 59 < file_len
  | (OutOfFuel, _) => False
  end.
Proof. apply flac_inspect_cases. Qed.
End DecodeLemmas.

(** ** A small file: STREAMINFO, five comments and one packet *)

#[local] Existing Instance plain_debug.

Definition example_comments : list (str * str) :=
  [(st "title", st "T"); (st "ARTIST", st "A"); (st "ALBUMARTIST", st "B"); (st "ALBUM", st "C");
   (st "TRACKNUMBER", st "1")].

Definition example_picture : Picture := mkPicture 3 (st "image/png") PNG_SIGNATURE.

Definition flac_block (first : Z) (body : list byte) : list byte :=
  z2b first :: to_be 3 (zlen body) ++ body.

Definition example_stream_info : list byte :=
  to_be 2 4096 ++ to_be 2 4096 ++ replicate 6 x00 ++
  to_be 8 (44100 * 2 ^ 44 + 2 ^ 41 + 15 * 2 ^ 36) ++ replicate 16 x00.

Definition example_flac : list byte :=
  bs "fLaC" ++ flac_block 0 example_stream_info ++
  flac_block 0x84 (render_comments (bs "v") example_comments) ++ replicate 20 x00.

Definition example_flac_lib : FlacLib := {|
  flac_open := Ok true; flac_decoder := None;
  flac_packet := λ i, Ok (if bool_decide (i = 0%nat) then Some [x00] else None);
  flac_decode := λ _, Ok 4410; flac_verified := λ _, Some true; flac_read := λ _, 42
|}.

Definition example_order : HashOrder := {| entries := map_to_list; entries_perm := λ t, reflexivity _ |}.

#[export] Instance comment_ok_dec kv : Decision (comment_ok kv).
Proof. unfold comment_ok. apply _. Defined.

Lemma example_comment_ok : Forall comment_ok example_comments.
Proof. apply (bool_decide_unpack _). vm_compute. exact I. Defined.

Lemma parse_comments_roundtrip_witness :
  parse_comments (render_comments (bs "v") example_comments ++ bs "rest") = Ok example_comments.
Proof. apply parse_comments_roundtrip; [exact example_comment_ok|reflexivity..]. Defined.

Lemma parse_picture_roundtrip_witness :
  parse_picture (render_picture example_picture (encode (st "image/png")) (bs "front") (replicate 16 x00)
    ++ bs "rest") = Ok example_picture.
Proof.
  apply (parse_picture_roundtrip example_picture); try reflexivity. split; [discriminate|reflexivity].
Defined.

Lemma flac_inspect_correct_witness :
  ∃ m s, @inspect (plain_world example_flac) plain_debug ascii_unicode example_images example_flac_lib
      example_order 2 io_start = (Ok m, s) ∧
    (title (inspected m), duration_ms (audio m)) = (st "T", 100) ∧
    file_sha256 m = @sha256_hex (plain_world example_flac) example_flac.
Proof.
  assert (@flac_answers example_flac_lib 2) as Hlib.
  { split; try (intros; exact I); simpl.
    - exists 1%nat. split; [lia|]. intros p. discriminate.
    - intros h n E. injection E as <-. lia.
    - intros i. lia.
    - lia. }
  pose proof (@flac_inspect_correct (plain_world example_flac) example_flac_lib plain_debug ascii_unicode
    example_images example_order 2 io_start example_images_return Hlib eq_refl) as H.
  destruct (Ok_part (λ m, (title (inspected m), duration_ms (audio m)))
    (@inspect (plain_world example_flac) plain_debug ascii_unicode example_images example_flac_lib
      example_order 2 io_start) (st "T", 100)) as (m & s & E & Hd); [vm_compute; reflexivity|].
  rewrite E in H. destruct H as [Hsha _]. exists m, s. exact (conj E (conj Hd Hsha)).
Defined.
