(* ===== verification/Mp4.v ===== *)
(** The atoms of an MP4 file (inspect/m4a.rs): reading them where they are, and
    the iTunes freeform credits inside [moov]. *)

From stdpp Require Import gmap.
From S2P Require Import Prelude Crash Text Failure Inspector Metadata.

Record Atom := mkAtom { name : list byte; data_start : Z; end_ : Z }.

Definition MAX_ATOM_DEPTH : Z := 8.

Definition CONTAINERS : list (list byte) := [bs "moov"; bs "udta"; bs "meta"; bs "ilst"].

Definition is_credit (mean nm : str) : bool :=
  bool_decide (mean = st "com.apple.iTunes")
  && (bool_decide (nm = st "ARTISTS") || bool_decide (nm = st "ALBUMARTISTS")).

(** [credits.entry(name).or_default().extend(values)]. *)
Definition add_credit (nm : str) (values : list str) (credits : Tags) : Tags :=
  <[nm := values_of credits nm ++ values]> credits.

Section Atoms.
Context `{World}.

Definition read_at (context : str) (n p : Z) : M Io str (list byte) :=
  on_err (λ e, context ++ st ": " ++ io_message e) (read_exact_at n p).

Definition read_atom (offset parent_end : Z) : M Io str Atom :=
  room ← lift (sub_u64 parent_end offset);
  if room <? 8 then fail (st "MP4 atom header is truncated") else
  header ← read_at (st "read MP4 atom header") 8 offset;
  let size := be (take 4 header) in
  '(size, header_size) ←
    (if size =? 1 then
       if room <? 16 then fail (st "extended MP4 atom header is truncated") else
       place ← lift (add_u64 offset 8);
       extended ← read_at (st "read extended MP4 atom header") 8 place;
       if room <? be extended then fail (st "extended MP4 atom exceeds parent")
       else mret (be extended, 16)
     else if size =? 0 then mret (room, 8)
     else mret (size, 8));
  if (size <? header_size) || (room <? size) then fail (st "MP4 atom size is invalid") else
  start ← lift (add_u64 offset header_size);
  stop ← lift (add_u64 offset size);
  mret (mkAtom (drop 4 header) start stop).

Definition read_atom_string (a : Atom) : M Io str str :=
  let header := if bool_decide (name a = bs "data") then 8 else 4 in
  room ← lift (sub_u64 (end_ a) (data_start a));
  if (room <? header) || (MAX_IDENTITY_VALUE_BYTES <? room - header) then
    fail (st "MP4 metadata value size is invalid")
  else
    start ← lift (add_u64 (data_start a) header);
    value ← read_at (st "read MP4 metadata value") (room - header) start;
    mret (tag_string value).

(** The loop of [read_freeform_credit] from [offset] on: what [mean], [name] and
    [values] end as. Every atom takes at least its header, so what is left to
    read is fuel enough, here and below. *)
Fixpoint freeform_loop (fuel : nat) (offset stop : Z) (mean nm : str) (values : list str)
    : M Io str (str * str * list str) :=
  if stop <=? offset then mret (mean, nm, values) else
  match fuel with
  | O => lift OutOfFuel
  | S fuel =>
      child ← read_atom offset stop;
      '(mean, nm, values) ←
        (if bool_decide (name child = bs "mean") then
           mean ← read_atom_string child; mret (mean, nm, values)
         else if bool_decide (name child = bs "name") then
           nm ← read_atom_string child; mret (mean, nm, values)
         else if bool_decide (name child = bs "data") && is_credit mean nm then
           value ← read_atom_string child; mret (mean, nm, values ++ [value])
         else mret (mean, nm, values));
      freeform_loop fuel (end_ child) stop mean nm values
  end.

Definition fuel_between (start stop : Z) : nat := S (Z.to_nat (stop - start)).

Definition read_freeform_credit (a : Atom) (credits : Tags) : M Io str Tags :=
  '(mean, nm, values) ←
    freeform_loop (fuel_between (data_start a) (end_ a)) (data_start a) (end_ a) [] [] [];
  mret (if is_credit mean nm then add_credit nm values credits else credits).

(** The loop of [walk], with the walk of each container inside it. *)
Fixpoint walk_loop (fuel : nat) (offset stop depth : Z) (credits : Tags) : M Io str Tags :=
  if stop <=? offset then mret credits else
  match fuel with
  | O => lift OutOfFuel
  | S fuel =>
      a ← read_atom offset stop;
      credits ← (if bool_decide (name a = bs "----") then read_freeform_credit a credits
                 else mret credits);
      credits ←
        (if bool_decide (name a ∈ CONTAINERS) then
           start ← lift (add_u64 (data_start a) (if bool_decide (name a = bs "meta") then 4 else 0));
           if end_ a <? start then fail (st "MP4 metadata container is truncated") else
           if MAX_ATOM_DEPTH <? depth + 1 then fail (st "MP4 metadata nesting exceeds limit") else
           walk_loop fuel start (end_ a) (depth + 1) credits
         else mret credits);
      walk_loop fuel (end_ a) stop depth credits
  end.

Definition walk (start stop depth : Z) (credits : Tags) : M Io str Tags :=
  if MAX_ATOM_DEPTH <? depth then fail (st "MP4 metadata nesting exceeds limit")
  else walk_loop (fuel_between start stop) start stop depth credits.

(** [File::open], and a step on the open file that only answers. *)
Definition open_file : M Io IoError unit := seek 0.
Definition file_size : M Io IoError Z := fun s =>
  match fault (ops s) with Some e => (Err e, one_op s) | None => (Ok file_len, one_op s) end.

(** The loop of [read_structured_credits]: the first [moov] atom of the file. *)
Fixpoint find_moov (fuel : nat) (offset size : Z) : M Io str Tags :=
  if size <=? offset then fail (st "MP4 metadata atom is missing") else
  match fuel with
  | O => lift OutOfFuel
  | S fuel =>
      a ← read_atom offset size;
      if bool_decide (name a = bs "moov") then walk (data_start a) (end_ a) 1 ∅
      else find_moov fuel (end_ a) size
  end.

Definition read_structured_credits : M Io str Tags :=
  _ ← on_err (λ e, st "open MP4 metadata: " ++ io_message e) open_file;
  size ← on_err (λ e, st "stat MP4 metadata: " ++ io_message e) file_size;
  find_moov (fuel_between 0 size) 0 size.
End Atoms.

(** ** Reading ends *)

Section Ends.
Context `{World}.

Definition atom_in (offset stop : Z) (a : Atom) : Prop :=
  offset + 8 <= data_start a <= end_ a ∧ end_ a <= stop.

Lemma ends_read_at context n p : 0 <= p → 0 <= n → ends (λ d, zlen d = n) (read_at context n p).
Proof. intros. apply ends_on_err. eapply ends_weaken; [by apply ends_read_exact_at|]. by intros d []. Qed.

Lemma read_atom_ends offset stop : 0 <= offset <= stop → stop <= i64_max →
  ends (atom_in offset stop) (read_atom offset stop).
Proof.
  unfold i64_max. intros Ho Hs. unfold read_atom. rewrite sub_u64_Ok by lia.
  apply ends_lift_bind.
  apply ends_if; intros Hroom; [apply ends_fail|]. bool_to_prop.
  eapply ends_bind; [apply ends_read_at; lia|]. intros header _.
  apply (ends_bind (λ '(size, n), n = 8 ∨ n = 16)).
  - apply ends_if; intros _; [|apply ends_if; intros _; apply ends_ret; auto].
    apply ends_if; intros _; [apply ends_fail|]. rewrite add_u64_Ok by (unfold u64_max; lia).
    apply ends_lift_bind.
    eapply ends_bind; [apply ends_read_at; lia|]. intros d _.
    apply ends_if; intros _; [apply ends_fail|apply ends_ret; auto].
  - intros [size n] Hn. apply ends_if; intros Hsize; [apply ends_fail|]. bool_to_prop.
    rewrite !add_u64_Ok by (unfold u64_max; lia).
    apply ends_lift_bind.
    apply ends_lift_bind.
    apply ends_ret. unfold atom_in. cbn. lia.
Qed.

Lemma read_atom_string_ends offset stop a : 0 <= offset → stop <= i64_max → atom_in offset stop a →
  ends (λ _, True) (read_atom_string a).
Proof.
  unfold i64_max. intros Ho Hs [Ha1 Ha2]. unfold read_atom_string. rewrite sub_u64_Ok by lia.
  apply ends_lift_bind.
  apply ends_if; intros Hsize; [apply ends_fail|]. bool_to_prop.
  set (h := if bool_decide (name a = bs "data") then 8 else 4) in *.
  assert (0 <= h) by (unfold h; case_bool_decide; lia).
  rewrite add_u64_Ok by (unfold u64_max; lia).
  apply ends_lift_bind.
  eapply ends_bind; [apply ends_read_at; lia|]. intros d _. by apply ends_ret.
Qed.

Lemma freeform_loop_ends fuel offset stop mean nm values : 0 <= offset → stop <= i64_max →
  stop - offset < Z.of_nat fuel → ends (λ _, True) (freeform_loop fuel offset stop mean nm values).
Proof.
  revert offset mean nm values. induction fuel as [|fuel IH]; intros offset mean nm values Ho Hs Hf;
    cbn [freeform_loop]; (apply ends_if; intros Hle; bool_to_prop; [by apply ends_ret|]); [lia|].
  eapply ends_bind; [apply read_atom_ends; lia|]. intros a Ha.
  assert (ends (λ _, True) (read_atom_string a)) as Hstr by (eapply read_atom_string_ends; [|done..]; done).
  apply (ends_bind (λ _, True)).
  - repeat (apply ends_if; intros _); try (by apply ends_ret);
      (eapply ends_bind; [exact Hstr|]; intros; by apply ends_ret).
  - intros [[mean' nm'] values'] _. destruct Ha. apply IH; lia.
Qed.

Lemma read_freeform_credit_ends offset stop a credits : 0 <= offset → stop <= i64_max → atom_in offset stop a →
  ends (λ _, True) (read_freeform_credit a credits).
Proof.
  intros Ho Hs Ha. eapply ends_bind; [apply freeform_loop_ends|by intros [[] ?] _; apply ends_ret];
    unfold fuel_between; destruct Ha; lia.
Qed.

Lemma walk_loop_ends fuel offset stop depth credits : 0 <= offset → stop <= i64_max →
  stop - offset < Z.of_nat fuel → ends (λ _, True) (walk_loop fuel offset stop depth credits).
Proof.
  revert offset stop depth credits. induction fuel as [|fuel IH]; intros offset stop depth credits Ho Hs Hf;
    cbn [walk_loop]; (apply ends_if; intros Hle; bool_to_prop; [by apply ends_ret|]); [lia|].
  eapply ends_bind; [apply read_atom_ends; lia|]. intros a Ha.
  apply (ends_bind (λ _, True)).
  { apply ends_if; intros _; [by eapply read_freeform_credit_ends|by apply ends_ret]. }
  intros credits' _. destruct Ha as [Ha1 Ha2].
  apply (ends_bind (λ _, True)).
  - apply ends_if; intros _; [|by apply ends_ret].
    set (n := if bool_decide (name a = bs "meta") then 4 else 0).
    assert (0 <= n <= 4) by (unfold n; case_bool_decide; lia).
    rewrite add_u64_Ok by (unfold u64_max, i64_max in *; lia).
    apply ends_lift_bind.
    apply ends_if; intros Hin; [apply ends_fail|]. bool_to_prop.
    apply ends_if; intros _; [apply ends_fail|]. apply IH; lia.
  - intros credits'' _. apply IH; lia.
Qed.

Lemma find_moov_ends fuel offset size : 0 <= offset → size <= i64_max → size - offset < Z.of_nat fuel →
  ends (λ _, True) (find_moov fuel offset size).
Proof.
  revert offset. induction fuel as [|fuel IH]; intros offset Ho Hs Hf; cbn [find_moov];
    (apply ends_if; intros Hle; bool_to_prop; [by apply ends_fail|]); [lia|].
  eapply ends_bind; [apply read_atom_ends; lia|]. intros a [Ha1 Ha2].
  apply ends_if; intros _; [|apply IH; lia]. apply ends_if; intros _; [apply ends_fail|].
  apply walk_loop_ends; unfold fuel_between; lia.
Qed.

Lemma open_file_ends : ends (λ _, True) open_file.
Proof. by apply ends_any, seek_keeps. Qed.

Lemma file_size_ends : ends (λ n, n = file_len) file_size.
Proof. intros s Hs. unfold wp, file_size. by destruct (fault (ops s)). Qed.

(** Reading the credits ends in every file, whatever its atoms claim. *)
Lemma read_structured_credits_ends : file_len <= i64_max → ends (λ _, True) read_structured_credits.
Proof.
  intros Hlen. unfold read_structured_credits.
  eapply ends_bind; [apply ends_on_err, open_file_ends|]. intros _ _.
  eapply ends_bind; [apply ends_on_err, file_size_ends|]. intros ? ->.
  apply find_moov_ends; unfold fuel_between; lia.
Qed.
End Ends.

(** ** Atoms written and read back *)

Section Written.
Context `{World}.

(** In a world without faults, [m] returns [a] wherever it starts. *)
Definition yields {E A} (m : M Io E A) (a : A) : Prop :=
  ∀ s, at_file s → ∃ s', m s = (Ok a, s') ∧ at_file s'.

Lemma yields_ret {E A} (a : A) : yields (mret a : M Io E A) a.
Proof. intros s Hs. by exists s. Qed.

Lemma yields_bind {E A B} (m : M Io E A) (f : A → M Io E B) a b :
  yields m a → yields (f a) b → yields (m ≫= f) b.
Proof.
  intros Hm Hf s Hs. destruct (Hm s Hs) as (s1 & E1 & H1). destruct (Hf s1 H1) as (s2 & E2 & H2).
  exists s2. split; [|done]. apply M_bind_Ok. eauto.
Qed.

Lemma yields_lift_bind {E A B} (a : A) (f : A → M Io E B) b : yields (f a) b → yields (lift (Ok a) ≫= f) b.
Proof. done. Qed.

Lemma yields_on_err {E F A} (f : E → F) (m : M Io E A) a : yields m a → yields (on_err f m) a.
Proof. intros Hm s Hs. destruct (Hm s Hs) as (s1 & E1 & H1). exists s1. by rewrite on_err_Ok. Qed.

(** The file holds [d] from [p] on. *)
Definition holds (p : Z) (d : list byte) : Prop :=
  0 <= p ∧ p + zlen d <= file_len ∧ sub file p (zlen d) = d.

Lemma holds_app p d e : holds p (d ++ e) ↔ holds p d ∧ holds (p + zlen d) e.
Proof.
  unfold holds. rewrite zlen_app. pose proof (zlen_nonneg d). pose proof (zlen_nonneg e). split.
  - intros (? & ? & Hs). rewrite <-sub_app in Hs by lia.
    apply app_inj_1 in Hs as [? ?]; [|unfold sub, file_len, zlen in *; rewrite length_take, length_drop; lia].
    split_and!; auto; lia.
  - intros [(? & ? & Hd) (? & ? & He)]. split_and!; [lia..|].
    rewrite <-sub_app by lia. by rewrite Hd, He.
Qed.

Context (no_faults : ∀ n, fault n = None).

Lemma fill_whole fuel n s : at_file s → 0 <= n → pos s + n <= file_len → n <= Z.of_nat fuel →
  ∃ s', fill_fuel fuel n s = (Ok (sub file (pos s) n, Full), s').
Proof using no_faults.
  revert n s. induction fuel as [|fuel IH]; intros n s Hs Hn Hin Hf; cbn [fill_fuel].
  - replace n with 0 by lia. exists s. by rewrite Z.leb_refl.
  - destruct (Z.leb_spec n 0); [replace n with 0 by lia; by exists s|].
    pose proof (read_cases n s Hs) as Hr. unfold try, mbind, M_bind.
    assert (∀ e, (read n s).1 ≠ Err e) as Hno.
    { intros e. unfold read. rewrite no_faults. by destruct (_ || _). }
    destruct (read n s) as [[bs|e| |] s1]; try done; [|by destruct (Hno e)].
    destruct Hr as (Hpos & Hsub & Hle & _ & Hnil & _). destruct bs as [|b bs].
    { exfalso. destruct (Hnil eq_refl); lia. }
    set (l := b :: bs) in *. pose proof (zlen_nonneg bs).
    assert (1 <= zlen l) by (unfold l; rewrite zlen_cons; lia). unfold at_file in *.
    destruct (IH (n - zlen l) s1) as [s2 ->]; [lia..|]. exists s2. unfold mret, M_ret.
    assert (l ++ sub file (pos s1) (n - zlen l) = sub file (pos s) n) as ->; [|done].
    rewrite Hpos. transitivity (sub file (pos s) (zlen l) ++ sub file (pos s + zlen l) (n - zlen l)); [by f_equal|].
    rewrite sub_app by lia. f_equal. lia.
Qed.

Lemma yields_read_exact_at p d : holds p d → yields (read_exact_at (zlen d) p) d.
Proof using no_faults.
  intros (Hp & Hin & Hd) s Hs. pose proof (zlen_nonneg d). unfold read_exact_at, read_exact, fill.
  destruct (fill_whole (S (Z.to_nat (zlen d))) (zlen d) (with_pos p s)) as [s1 E1];
    [done|lia|done|lia|]. unfold mbind, M_bind. rewrite E1. cbn in *. rewrite Hd. by eexists.
Qed.

Lemma yields_read_at context p d n : n = zlen d → holds p d → yields (read_at context n p) d.
Proof using no_faults. intros -> Hd. by apply yields_on_err, yields_read_exact_at. Qed.

(** An atom as it is written. *)
Definition box (n body : list byte) : list byte := to_be 4 (8 + zlen body) ++ n ++ body.

Lemma zlen_box n body : length n = 4%nat → zlen (box n body) = 8 + zlen body.
Proof.
  intros Hn. unfold box. rewrite !zlen_app.
  assert (zlen (to_be 4 (8 + zlen body)) = 4) as -> by (unfold zlen at 1; by rewrite length_to_be).
  unfold zlen at 1. lia.
Qed.

Lemma holds_box p n body : length n = 4%nat → holds p (box n body) → holds (p + 8) body.
Proof.
  intros Hn Hp. unfold box in Hp. rewrite app_assoc in Hp. apply holds_app in Hp as [_ Hp].
  assert (zlen (to_be 4 (8 + zlen body) ++ n) = 8) as Hl; [|by rewrite Hl in Hp].
  unfold zlen at 1. rewrite length_app, length_to_be, Hn. done.
Qed.

Lemma yields_read_atom p stop n body : length n = 4%nat → 8 + zlen body < 2 ^ 32 → holds p (box n body) →
  p + 8 + zlen body <= stop → stop <= i64_max →
  yields (read_atom p stop) (mkAtom n (p + 8) (p + 8 + zlen body)).
Proof using no_faults.
  intros Hn Hsize Hp Hstop Hmax. pose proof (zlen_nonneg body). unfold i64_max in *.
  assert (0 <= p) by apply Hp. unfold read_atom. rewrite sub_u64_Ok by lia. apply yields_lift_bind.
  rewrite (proj2 (Z.ltb_ge (stop - p) 8)) by lia.
  unfold box in Hp. rewrite app_assoc in Hp. apply holds_app in Hp as [Hhead Hbody].
  eapply yields_bind.
  { apply yields_read_at; [|exact Hhead]. rewrite zlen_app. unfold zlen. by rewrite length_to_be, Hn. }
  rewrite take_app_length', drop_app_length' by (by rewrite length_to_be).
  rewrite be_to_be, Z.mod_small by (change (256 ^ Z.of_nat 4) with (2 ^ 32); lia).
  rewrite (proj2 (Z.eqb_neq _ 1)), (proj2 (Z.eqb_neq _ 0)) by lia.
  eapply (yields_bind _ _ (8 + zlen body, 8)); [apply yields_ret|].
  rewrite (proj2 (Z.ltb_ge (8 + zlen body) 8)), (proj2 (Z.ltb_ge (stop - p) _)) by lia. cbn [orb].
  rewrite !add_u64_Ok by (unfold u64_max; lia). do 2 apply yields_lift_bind.
  rewrite Z.add_assoc. apply yields_ret.
Qed.

Lemma yields_read_atom_string n p body : holds p body →
  let header := if bool_decide (n = bs "data") then 8 else 4 in
  header <= zlen body <= header + MAX_IDENTITY_VALUE_BYTES → p + zlen body <= i64_max →
  yields (read_atom_string (mkAtom n p (p + zlen body))) (tag_string (drop (Z.to_nat header) body)).
Proof using no_faults.
  intros Hp header Hsize Hmax. assert (0 <= p) by apply Hp. unfold i64_max in *.
  unfold read_atom_string. cbn [name data_start end_]. fold header.
  assert (0 <= header) by (unfold header; case_bool_decide; lia).
  rewrite sub_u64_Ok by lia. apply yields_lift_bind.
  replace (p + zlen body - p) with (zlen body) by lia.
  rewrite (proj2 (Z.ltb_ge (zlen body) header)), (proj2 (Z.ltb_ge _ (zlen body - header))) by lia. cbn [orb].
  rewrite add_u64_Ok by (unfold u64_max; lia). apply yields_lift_bind.
  rewrite <-(take_drop (Z.to_nat header) body) in Hp. apply holds_app in Hp as [_ Hp].
  assert (zlen (take (Z.to_nat header) body) = header) as Hl.
  { unfold zlen in *. rewrite length_take. lia. }
  rewrite Hl in Hp. eapply yields_bind; [|apply yields_ret].
  apply yields_read_at; [|exact Hp]. unfold zlen in *. rewrite length_drop. lia.
Qed.

(** The atoms [walk] tells apart: those it skips, freeform metadata, and the
    containers it goes into; [meta] holds four bytes before its atoms. *)
#[warnings="-automation"]
Inductive Tree :=
| Raw (n body : list byte)
| Freeform (parts : list (list byte * list byte))
| Container (n : list byte) (children : list Tree).

Definition container_head (n : list byte) : list byte :=
  if bool_decide (n = bs "meta") then [x00; x00; x00; x00] else [].

Fixpoint render (t : Tree) : list byte :=
  match t with
  | Raw n body => box n body
  | Freeform parts => box (bs "----") (concat (map (λ '(n, body), box n body) parts))
  | Container n children => box n (container_head n ++ concat (map render children))
  end.
Definition render_all (ts : list Tree) : list byte := concat (map render ts).

(** What the parts of a freeform atom say: whose value it is, its name and the
    values. *)
Definition part_step (acc : str * str * list str) (part : list byte * list byte) : str * str * list str :=
  let '(mean, nm, values) := acc in
  let '(n, body) := part in
  if bool_decide (n = bs "mean") then (tag_string (drop 4 body), nm, values)
  else if bool_decide (n = bs "name") then (mean, tag_string (drop 4 body), values)
  else if bool_decide (n = bs "data") && is_credit mean nm
  then (mean, nm, values ++ [tag_string (drop 8 body)])
  else acc.

Definition freeform_credit (parts : list (list byte * list byte)) (credits : Tags) : Tags :=
  let '(mean, nm, values) := foldl part_step ([], [], []) parts in
  if is_credit mean nm then add_credit nm values credits else credits.

Fixpoint tree_credits (credits : Tags) (t : Tree) : Tags :=
  match t with
  | Raw _ _ => credits
  | Freeform parts => freeform_credit parts credits
  | Container _ children => fold_left tree_credits children credits
  end.

Definition part_ok (part : list byte * list byte) : Prop :=
  let '(n, body) := part in
  length n = 4%nat ∧ 8 + zlen body < 2 ^ 32 ∧
  (n = bs "mean" ∨ n = bs "name" → 4 <= zlen body <= 4 + MAX_IDENTITY_VALUE_BYTES) ∧
  (n = bs "data" → 8 <= zlen body <= 8 + MAX_IDENTITY_VALUE_BYTES).

(** Trees [walk] reads at [depth]. *)
Fixpoint tree_ok (depth : Z) (t : Tree) : Prop :=
  (zlen (render t) < 2 ^ 32) ∧
  (match t with
  | Raw n _ => length n = 4%nat ∧ (n ∉ CONTAINERS) ∧ n ≠ bs "----"
  | Freeform parts => Forall part_ok parts
  | Container n children =>
      n ∈ CONTAINERS ∧ depth < MAX_ATOM_DEPTH ∧
      fold_right (λ t (P : Prop), tree_ok (depth + 1) t ∧ P) True children
  end).
Definition trees_ok (depth : Z) (ts : list Tree) : Prop := fold_right (λ t (P : Prop), tree_ok depth t ∧ P) True ts.

Definition parts_bytes (parts : list (list byte * list byte)) : list byte :=
  concat (map (λ '(n, body), box n body) parts).

(** The loops stop at the end of what is written. *)
Lemma yields_freeform_loop parts fuel offset stop mean nm values :
  Forall part_ok parts → holds offset (parts_bytes parts) → stop = offset + zlen (parts_bytes parts) →
  stop <= i64_max → stop - offset < Z.of_nat fuel →
  yields (freeform_loop fuel offset stop mean nm values) (foldl part_step (mean, nm, values) parts).
Proof using no_faults.
  revert fuel offset mean nm values. induction parts as [|[n body] parts IH];
    intros fuel offset mean nm values Hok Hp -> Hmax Hf.
  { change (zlen (parts_bytes [])) with 0. rewrite Z.add_0_r.
    destruct fuel; cbn [freeform_loop]; rewrite Z.leb_refl; apply yields_ret. }
  apply Forall_cons in Hok as [(Hn & Hsize & Hmn & Hdata) Hok].
  change (parts_bytes ((n, body) :: parts)) with (box n body ++ parts_bytes parts) in *.
  rewrite zlen_app, zlen_box in * by done. pose proof (zlen_nonneg body). pose proof (zlen_nonneg (parts_bytes parts)).
  apply holds_app in Hp as [Hbox Hrest]. rewrite zlen_box in Hrest by done.
  destruct fuel as [|fuel]; [lia|]. cbn [freeform_loop]. rewrite (proj2 (Z.leb_gt _ offset)) by lia.
  eapply yields_bind; [apply (yields_read_atom _ _ n body); [done..|lia|done]|]. cbn [name end_].
  pose proof (holds_box _ _ _ Hn Hbox) as Hbody.
  pose proof (yields_read_atom_string n (offset + 8) body Hbody) as Hstr. cbn zeta in Hstr.
  assert (∀ acc, yields (freeform_loop fuel (offset + 8 + zlen body) (offset + (8 + zlen body + zlen (parts_bytes parts)))
    acc.1.1 acc.1.2 acc.2) (foldl part_step acc parts)) as Hloop.
  { intros [[mean' nm'] values']. apply IH; [done|by rewrite <-Z.add_assoc|lia..]. }
  change (foldl part_step (mean, nm, values) ((n, body) :: parts))
    with (foldl part_step (part_step (mean, nm, values) (n, body)) parts).
  apply (yields_bind _ _ (part_step (mean, nm, values) (n, body)));
    [|by destruct (part_step _ _) as [[mean' nm'] values']; apply (Hloop (mean', nm', values'))].
  unfold part_step.
  destruct (decide (n = bs "mean")) as [->|Hm].
  { rewrite bool_decide_eq_true_2 by done. eapply yields_bind; [apply Hstr; [apply Hmn; by left|lia]|apply yields_ret]. }
  rewrite (bool_decide_eq_false_2 _ Hm). destruct (decide (n = bs "name")) as [->|Hnm].
  { rewrite bool_decide_eq_true_2 by done. eapply yields_bind; [apply Hstr; [apply Hmn; by right|lia]|apply yields_ret]. }
  rewrite (bool_decide_eq_false_2 _ Hnm). destruct (decide (n = bs "data")) as [->|Hd].
  { rewrite bool_decide_eq_true_2 by done. cbn [andb]. destruct (is_credit mean nm); [|apply yields_ret].
    eapply yields_bind; [apply Hstr; [by apply Hdata|lia]|apply yields_ret]. }
  rewrite (bool_decide_eq_false_2 _ Hd). apply yields_ret.
Qed.

(** What [walk] does with the atom it read. *)
Definition visit (fuel : nat) (a : Atom) (depth : Z) (credits : Tags) : M Io str Tags :=
  credits ← (if bool_decide (name a = bs "----") then read_freeform_credit a credits else mret credits);
  if bool_decide (name a ∈ CONTAINERS) then
    start ← lift (add_u64 (data_start a) (if bool_decide (name a = bs "meta") then 4 else 0));
    if end_ a <? start then fail (st "MP4 metadata container is truncated") else
    if MAX_ATOM_DEPTH <? depth + 1 then fail (st "MP4 metadata nesting exceeds limit") else
    walk_loop fuel start (end_ a) (depth + 1) credits
  else mret credits.

Lemma yields_walk_step fuel t ts n body offset stop depth credits credits' :
  length n = 4%nat → render t = box n body → zlen (render t) < 2 ^ 32 → holds offset (render t) →
  stop = offset + (zlen (render t) + zlen (render_all ts)) → stop <= i64_max →
  (holds (offset + 8) body → yields (visit fuel (mkAtom n (offset + 8) (offset + 8 + zlen body)) depth credits) credits') →
  yields (walk_loop fuel (offset + zlen (render t)) stop depth credits') (fold_left tree_credits ts credits') →
  yields (walk_loop (S fuel) offset stop depth credits) (fold_left tree_credits ts credits').
Proof using no_faults.
  intros Hn Hr Hz Ht Hstop Hmax Hm Hrec. pose proof (zlen_box n body Hn) as Hl. rewrite Hr in *.
  pose proof (zlen_nonneg body). pose proof (zlen_nonneg (render_all ts)).
  cbn [walk_loop]. rewrite (proj2 (Z.leb_gt stop offset)) by lia.
  eapply yields_bind; [apply (yields_read_atom _ _ n body); [done|lia|done|lia|done]|].
  rewrite Hl, Z.add_assoc in Hrec. intros s Hs.
  destruct (Hm (holds_box _ _ _ Hn Ht) s Hs) as (s1 & E1 & Hs1).
  destruct (Hrec s1 Hs1) as (s2 & E2 & Hs2). exists s2. split; [|done].
  apply M_bind_Ok in E1 as (c0 & s0 & E0 & E1).
  apply M_bind_Ok. exists c0, s0. split; [exact E0|]. apply M_bind_Ok. exists credits', s1. by split.
Qed.

Lemma container_name n : n ∈ CONTAINERS → length n = 4%nat ∧ n ≠ bs "----".
Proof. unfold CONTAINERS. rewrite !elem_of_cons, elem_of_nil. naive_solver. Qed.

Lemma yields_freeform_credit parts offset credits : Forall part_ok parts → holds offset (parts_bytes parts) →
  offset + zlen (parts_bytes parts) <= i64_max →
  yields (read_freeform_credit (mkAtom (bs "----") offset (offset + zlen (parts_bytes parts))) credits)
    (freeform_credit parts credits).
Proof using no_faults.
  intros Hok Hp Hmax. unfold read_freeform_credit, freeform_credit. cbn [data_start end_].
  pose proof (zlen_nonneg (parts_bytes parts)).
  eapply yields_bind; [apply yields_freeform_loop; [done|done|done|lia|unfold fuel_between; lia]|].
  destruct (foldl part_step _ parts) as [[mean nm] values]. apply yields_ret.
Qed.

Lemma yields_walk_loop fuel ts offset stop depth credits :
  trees_ok depth ts → holds offset (render_all ts) → stop = offset + zlen (render_all ts) →
  stop <= i64_max → stop - offset < Z.of_nat fuel →
  yields (walk_loop fuel offset stop depth credits) (fold_left tree_credits ts credits).
Proof using no_faults.
  revert ts offset stop depth credits. induction fuel as [|fuel IH];
    intros ts offset stop depth credits Hok Hp Hstop Hmax Hf; [pose proof (zlen_nonneg (render_all ts)); lia|].
  destruct ts as [|t ts].
  { cbn [walk_loop]. change (zlen (render_all [])) with 0 in Hstop. subst. rewrite Z.add_0_r, Z.leb_refl. apply yields_ret. }
  destruct Hok as [Hok Hoks]. change (render_all (t :: ts)) with (render t ++ render_all ts) in *.
  rewrite zlen_app in Hstop. apply holds_app in Hp as [Ht Hrest].
  pose proof (zlen_nonneg (render_all ts)). pose proof (zlen_nonneg (render t)).
  assert (zlen (render t) < 2 ^ 32) as Hz by (destruct t; apply Hok).
  assert (∀ n body credits', length n = 4%nat → render t = box n body →
    (holds (offset + 8) body → yields (visit fuel (mkAtom n (offset + 8) (offset + 8 + zlen body)) depth credits) credits') →
    yields (walk_loop (S fuel) offset stop depth credits) (fold_left tree_credits ts credits')) as Hnext.
  { intros n body credits' Hn Hr Hm. pose proof (zlen_box n body Hn). rewrite Hr in *. pose proof (zlen_nonneg body).
    eapply (yields_walk_step fuel t ts n body); [done|done|by rewrite Hr|by rewrite Hr|by rewrite Hr|done|done|].
    rewrite Hr. apply IH; [done..|lia|done|lia]. }
  change (fold_left tree_credits (t :: ts) credits) with (fold_left tree_credits ts (tree_credits credits t)).
  destruct t as [n body|parts|n children]; cbn [tree_ok] in Hok; destruct Hok as [_ Hok].
  - destruct Hok as (Hn & Hc & Hf'). apply (Hnext n body); [done|done|]. intros _. unfold visit. cbn [name].
    rewrite (bool_decide_eq_false_2 _ Hf'), (bool_decide_eq_false_2 _ Hc).
    eapply yields_bind; apply yields_ret.
  - assert (zlen (render (Freeform parts)) = 8 + zlen (parts_bytes parts)) as Hl by (by apply zlen_box).
    apply (Hnext (bs "----") (parts_bytes parts)); [done|done|]. intros Hb. unfold visit. cbn [name].
    rewrite (bool_decide_eq_true_2 (bs "----" = bs "----")) by done. eapply yields_bind; [apply yields_freeform_credit; [done|done|lia]|].
    assert (bool_decide (bs "----" ∈ CONTAINERS) = false) as -> by (by vm_compute). apply yields_ret.
  - destruct Hok as (Hc & Hd & Hch). destruct (container_name n Hc) as [Hn Hne].
    assert (zlen (render (Container n children)) = 8 + zlen (container_head n ++ render_all children)) as Hl by (by apply zlen_box).
    apply (Hnext n (container_head n ++ render_all children)); [done|done|]. intros Hb. unfold visit.
    cbn [name data_start end_]. rewrite (bool_decide_eq_false_2 _ Hne), (bool_decide_eq_true_2 _ Hc).
    eapply yields_bind; [apply yields_ret|]. pose proof (zlen_nonneg (render_all children)).
    apply holds_app in Hb as [Hhead Hb].
    assert ((if bool_decide (n = bs "meta") then 4 else 0) = zlen (container_head n)) as ->.
    { unfold container_head. by case_bool_decide. }
    pose proof (zlen_nonneg (container_head n)). rewrite zlen_app in *. unfold i64_max in *.
    rewrite add_u64_Ok by (unfold u64_max; lia). apply yields_lift_bind.
    rewrite (proj2 (Z.ltb_ge _ (offset + 8 + zlen (container_head n)))) by lia.
    rewrite (proj2 (Z.ltb_ge MAX_ATOM_DEPTH _)) by lia. cbn [tree_credits].
    apply IH; [exact Hch|exact Hb|lia|unfold i64_max; lia|lia].
Qed.

(** Atoms before [moov] that are passed over. *)
Definition passed (part : list byte * list byte) : Prop :=
  length part.1 = 4%nat ∧ part.1 ≠ bs "moov" ∧ 8 + zlen part.2 < 2 ^ 32.

Lemma yields_find_moov before ts rest fuel offset size :
  Forall passed before → trees_ok 1 ts → 8 + zlen (render_all ts) < 2 ^ 32 →
  holds offset (parts_bytes before ++ box (bs "moov") (render_all ts) ++ rest) →
  size = offset + zlen (parts_bytes before ++ box (bs "moov") (render_all ts) ++ rest) →
  size <= i64_max → size - offset < Z.of_nat fuel →
  yields (find_moov fuel offset size) (fold_left tree_credits ts ∅).
Proof using no_faults.
  intros Hbefore Hok Hz. revert fuel offset. induction Hbefore as [|[n body] before (Hn & Hne & Hsize) _ IH];
    intros fuel offset Hp Hlen Hmax Hf.
  - change (parts_bytes []) with (@nil byte) in *. cbn [app] in *. rewrite zlen_app, zlen_box in Hlen by done.
    apply holds_app in Hp as [Hp _]. pose proof (zlen_nonneg rest). pose proof (zlen_nonneg (render_all ts)).
    destruct fuel as [|fuel]; [lia|]. cbn [find_moov]. rewrite (proj2 (Z.leb_gt size offset)) by lia.
    eapply yields_bind; [apply (yields_read_atom _ _ (bs "moov") (render_all ts)); [done|done|done|lia|done]|].
    cbn [name data_start end_]. rewrite bool_decide_eq_true_2 by done.
    unfold walk. rewrite (proj2 (Z.ltb_ge MAX_ATOM_DEPTH 1)) by done.
    apply yields_walk_loop; [done|by apply (holds_box _ (bs "moov"))|done|lia|unfold fuel_between; lia].
  - change (parts_bytes ((n, body) :: before)) with (box n body ++ parts_bytes before) in *. cbn [fst snd] in *.
    rewrite <-app_assoc in *. set (more := parts_bytes before ++ _) in *. rewrite zlen_app in Hlen.
    rewrite zlen_box in Hlen by done. apply holds_app in Hp as [Hp Hmore]. rewrite zlen_box in Hmore by done.
    pose proof (zlen_nonneg more). pose proof (zlen_nonneg body).
    destruct fuel as [|fuel]; [lia|]. cbn [find_moov]. rewrite (proj2 (Z.leb_gt size offset)) by lia.
    eapply yields_bind; [apply (yields_read_atom _ _ n body); [done|done|done|lia|done]|].
    cbn [name data_start end_]. rewrite (bool_decide_eq_false_2 _ Hne).
    apply IH; [by rewrite <-Z.add_assoc|lia|done|lia].
Qed.

(** the credits a writer put into the file's atoms are the credits the import
    reads. In a file that reads without faults, whatever atoms come before
    [moov] and whatever follows it, the structured credits are those of the
    freeform atoms inside [moov], in their order, however deep up to the limit. *)
Theorem written_credits_read before ts rest :
  file = parts_bytes before ++ box (bs "moov") (render_all ts) ++ rest → file_len <= i64_max →
  Forall passed before → trees_ok 1 ts → 8 + zlen (render_all ts) < 2 ^ 32 →
  (read_structured_credits io_start).1 = Ok (fold_left tree_credits ts ∅).
Proof using no_faults.
  intros Hfile Hlen Hbefore Hok Hz. assert (at_file io_start) as Hs by done.
  assert (yields read_structured_credits (fold_left tree_credits ts ∅)) as Hy.
  { unfold read_structured_credits. eapply yields_bind; [apply yields_on_err|].
    { intros s _. unfold open_file, seek. rewrite no_faults. by eexists. }
    eapply (yields_bind _ _ file_len); [apply yields_on_err|].
    { intros s Hs'. unfold file_size. rewrite no_faults. by eexists. }
    apply (yields_find_moov before ts rest); [exact Hbefore|exact Hok|exact Hz|rewrite <-Hfile..|exact Hlen|].
    - split; [done|]. split; [done|apply sub_whole].
    - done.
    - unfold fuel_between. pose proof (zlen_nonneg file). unfold file_len. lia. }
  destruct (Hy io_start Hs) as (s' & E1 & _). by rewrite E1.
Qed.
End Written.

(** A file with a [ftyp] atom, then credits in [moov/udta/meta/ilst]. *)
Definition example_parts : list (list byte * list byte) :=
  [(bs "mean", [x00; x00; x00; x00] ++ bs "com.apple.iTunes"); (bs "name", [x00; x00; x00; x00] ++ bs "ARTISTS");
   (bs "data", [x00; x00; x00; x01; x00; x00; x00; x00] ++ bs "A");
   (bs "data", [x00; x00; x00; x01; x00; x00; x00; x00] ++ bs "B")].
Definition example_tree : Tree :=
  Container (bs "udta") [Container (bs "meta") [Container (bs "ilst") [Raw (bs "xxxx") [x01]; Freeform example_parts]]].
Definition example_file : list byte :=
  parts_bytes [(bs "ftyp", bs "M4A ")] ++ box (bs "moov") (render_all [example_tree]) ++ bs "tail".

Lemma written_credits_read_witness :
  match (@read_structured_credits (plain_world example_file) io_start).1 with
  | Ok credits => credits !! st "ARTISTS" = Some [st "A"; st "B"]
  | _ => False
  end.
Proof.
  rewrite (@written_credits_read (plain_world example_file) (λ _, eq_refl) [(bs "ftyp", bs "M4A ")] [example_tree] (bs "tail")).
  - by vm_compute.
  - reflexivity.
  - by vm_compute.
  - apply Forall_singleton. by vm_compute.
  - split; [|done].
    do 2 (split; [by vm_compute|]; split; [unfold CONTAINERS; rewrite !elem_of_cons; auto|];
      split; [by vm_compute|]; split; [|done]).
    split; [by vm_compute|]. split; [unfold CONTAINERS; rewrite !elem_of_cons; auto|].
    split; [by vm_compute|]. split; [|split; [|done]].
    + split; [by vm_compute|]. split; [done|]. split; [|done]. unfold CONTAINERS. rewrite !elem_of_cons, elem_of_nil. by intuition.
    + split; [by vm_compute|]. unfold example_parts.
      repeat apply Forall_cons_2; try apply Forall_nil_2;
        (split; [done|]; split; [by vm_compute|]; split; [intros [Hn|Hn]|intros Hn]; vm_compute in Hn; try discriminate Hn; by vm_compute).
  - by vm_compute.
Defined.
