(* ===== verification/M4a.v ===== *)
(** M4A files (inspect/m4a.rs): what ffprobe and ffmpeg answer about one, and the
    inspection made of it. *)

From stdpp Require Import gmap sorting.
From S2P Require Import Prelude Crash Text Float64 Failure Inspector Metadata Artwork Mp4.

Definition ERROR_OUTPUT_LIMIT_BYTES : Z := 64 * 1024.
Definition PROBE_OUTPUT_LIMIT_BYTES : Z := 1024 * 1024.
Definition USIZE_MAX : Z := u64_max.

Record ProbeStream := mkStream {
  stream_index : Z;
  codec_name : str;
  codec_type : str;
  stream_sample_rate : str;
  stream_channels : Z;
  bits_per_raw_sample : str;
  stream_duration : str;
  disposition : gmap str Z
}.

Record Probe := mkProbe {
  streams : list ProbeStream;
  format_name : str;
  format_tags : gmap str str
}.

(** A program and its arguments. *)
Abbreviation Command := (list Z * list (list Z))%type.

(** The programs an inspection starts: why one could not be started; how many
    polls find it running before it ends; its status, once it ended or was killed;
    what its pipes deliver, in the pieces they are read in; and its lines, of
    which one may not be read. [decode_probe] is serde_json on a [Probe], and
    [raw_entries] the order a [HashMap] iterates in. *)
Class Tools := {
  spawn_error : Command → option str;
  busy : Command → nat;
  ended : Command → bool → str + option Z;
  stdout : Command → list (list byte);
  stderr : Command → list (list byte);
  stdout_lines : Command → list (option str);
  decode_probe : str → str + Probe;
  raw_entries : gmap str str → list (str * str)
}.

(** ** Running a program *)

Record Bounded := mkBounded { captured : list byte; truncated : bool }.

(** The reading loop of [capture]. *)
Definition capture_step (limit : Z) (b : Bounded) (chunk : list byte) : Bounded :=
  let room := Z.max 0 (limit - zlen (captured b)) in
  mkBounded (captured b ++ take (Z.to_nat (Z.min (zlen chunk) room)) chunk)
    (if room <? zlen chunk then true else truncated b).
Definition capture (limit : Z) (chunks : list (list byte)) : Bounded :=
  foldl (capture_step limit) (mkBounded [] false) chunks.

Inductive RunError := RunCancelled | RunFailed (text : str).

Definition command_failure (action cause : str) (errors : Bounded) : str :=
  let details := trim (from_utf8_lossy (captured errors)) ++
                 (if truncated errors then st " [truncated]" else []) in
  if bool_decide (details = []) then action ++ st ": " ++ cause
  else action ++ st ": " ++ cause ++ st ": " ++ details.

Definition exit_message (status : option Z) : str :=
  match status with Some code => st "exit status " ++ show code | None => st "signal: killed" end.

Section M4a.
Context `{World, Tools}.

(** The loop of [run]: cancellation is looked at before every wait. *)
Fixpoint wait_loop (rounds : nat) (action : str) (c : Command) : M Io RunError (option Z) :=
  stop ← on_err (λ _, RunCancelled) poll;
  if stop : bool then fail RunCancelled else
  match rounds with
  | S rounds => wait_loop rounds action c
  | O => match ended c false with
         | inl cause => fail (RunFailed (action ++ st ": " ++ cause))
         | inr status => mret status
         end
  end.

Definition run (action : str) (c : Command) (stdout_limit : Z) : M Io RunError Bounded :=
  match spawn_error c with
  | Some cause => fail (RunFailed (action ++ st ": " ++ cause))
  | None =>
      status ← wait_loop (busy c) action c;
      if bool_decide (status = Some 0) then mret (capture stdout_limit (stdout c))
      else fail (RunFailed (command_failure action (exit_message status)
                              (capture ERROR_OUTPUT_LIMIT_BYTES (stderr c))))
  end.

Definition run_failure (f : str → Failure) (e : RunError) : Failure :=
  match e with RunCancelled => cancelled | RunFailed text => f text end.

(** ** The probe *)

Definition container_error (m : str) : Failure := error UnsupportedFormat (st "container") m.

Definition eq_ignore_ascii_case (a b : str) : bool :=
  bool_decide (ascii_lower <$> a = ascii_lower <$> b).

(** [as_chunks::<4>]: the whole groups of four. *)
Fixpoint chunks4 (d : list byte) : list (list byte) :=
  match d with
  | a :: b :: c :: e :: d => [a; b; c; e] :: chunks4 d
  | _ => []
  end.

Definition is_m4a (p : Probe) : bool :=
  let tag key := default [] (format_tags p !! key) in
  if negb (contains (st "mp4") (format_name p)) && negb (contains (st "m4a") (format_name p)) then false
  else if eq_ignore_ascii_case (tag (st "major_brand")) (st "M4A ") then true
  else existsb (λ brand, eq_ignore_ascii_case (b2z <$> brand) (st "M4A "))
         (chunks4 (encode (tag (st "compatible_brands")))).

Definition probe_command (path : str) : Command :=
  (st "ffprobe", [st "-v"; st "error"; st "-print_format"; st "json"; st "-show_format";
                  st "-show_streams"; path]).

Definition probe (path : str) : M Io Failure Probe :=
  output ← on_err (run_failure container_error)
             (run (st "probe M4A container") (probe_command path) PROBE_OUTPUT_LIMIT_BYTES);
  if truncated output then fail (container_error (st "M4A probe output exceeds limit")) else
  match decode_probe (from_utf8_lossy (captured output)) with
  | inl cause => fail (container_error (st "decode M4A probe: " ++ cause))
  | inr p => if is_m4a p then mret p else fail (container_error (st "M4A brand is missing"))
  end.

Definition is_cover (s : ProbeStream) : bool :=
  bool_decide (codec_type s = st "video")
  && bool_decide (disposition s !! st "attached_pic" = Some 1).

(** The loop of [validate_streams]: the audio streams, the covers and the first
    stream that is neither. *)
Fixpoint sort_streams `{Debug} (ss : list ProbeStream) : outcome Failure (list ProbeStream * list ProbeStream) :=
  match ss with
  | [] => Ok ([], [])
  | s :: ss =>
      if bool_decide (codec_type s = st "audio") then
        '(audio, covers) ← sort_streams ss; Ok (s :: audio, covers)
      else if is_cover s then '(audio, covers) ← sort_streams ss; Ok (audio, s :: covers)
      else Err (container_error (st "unsupported M4A stream type " ++ debug_str (codec_type s)))
  end.

Definition codec_error (m : str) : Failure := error UnsupportedFormat (st "codec") m.

Definition validate_streams `{Debug} (p : Probe)
    : outcome Failure ProbeStream * outcome Failure ProbeStream :=
  match sort_streams (streams p) with
  | Ok ([s], covers) =>
      if bool_decide (codec_name s = st "aac") || bool_decide (codec_name s = st "alac") then
        (Ok s, match covers with
               | [] => Err (error MissingArtwork (st "artwork") (st "embedded front cover is required"))
               | [cover] => Ok cover
               | _ => Err (error InvalidArtwork (st "artwork") (st "multiple front covers are ambiguous"))
               end)
      else
        let failure := Err (codec_error (st "unsupported M4A codec " ++ debug_str (codec_name s))) in
        (failure, failure)
  | Ok _ =>
      let failure := Err (codec_error (st "exactly one M4A audio stream is required")) in
      (failure, failure)
  | Err f => (Err f, Err f)
  | Panic => (Panic, Panic)
  | OutOfFuel => (OutOfFuel, OutOfFuel)
  end.

(** ** Metadata *)

Section Tags.
Context `{Unicode}.

Definition metadata_key (key : str) : str :=
  let key := go_upper (trim key) in
  if bool_decide (key = st "ALBUM_ARTIST") then st "ALBUMARTIST"
  else if bool_decide (key = st "TRACK") then st "TRACKNUMBER"
  else if bool_decide (key = st "DISC") then st "DISCNUMBER"
  else key.

Definition sorted_keys (raw : gmap str str) : list str :=
  merge_sort str_le (map_to_list raw).*1.

Definition tags_of (raw : gmap str str) (credits : option Tags) : Tags :=
  let tags : Tags := foldl (λ t key, <[metadata_key key := [default [] (raw !! key)]]> t) ∅ (sorted_keys raw) in
  let genre := default [] (snd <$> head (filter (λ kv, eq_ignore_ascii_case kv.1 (st "genre") = true) (raw_entries raw))) in
  let genres := split_genre_tag_values [genre] in
  let tags := if bool_decide (genres = []) then tags else <[st "GENRE" := genres]> tags in
  default ∅ credits ∪ tags.

Definition normalize_probe (raw : gmap str str) (credits : option Tags) : outcome Failure NormalizedMetadata :=
  normalize (tags_of raw credits) (replay_gain_from_strings (raw_entries raw)).
End Tags.

(** ** Artwork *)

Definition extract_command (path : str) (index : Z) : Command :=
  (st "ffmpeg", [st "-v"; st "error"; st "-xerror"; st "-nostdin"; st "-i"; path; st "-map";
                 st "0:" ++ show index; st "-frames:v"; st "1"; st "-c"; st "copy"; st "-f";
                 st "image2pipe"; st "pipe:1"]).

Definition cover_mime (codec : str) : option str :=
  if bool_decide (codec = st "mjpeg") then Some (st "image/jpeg")
  else if bool_decide (codec = st "png") then Some (st "image/png")
  else if bool_decide (codec = st "webp") then Some (st "image/webp")
  else None.

Definition extract_artwork `{Debug, Images} (path : str) (s : ProbeStream) : M Io Failure AlbumArtwork :=
  match cover_mime (codec_name s) with
  | None => fail (invalid (st "unsupported embedded artwork codec " ++ debug_str (codec_name s)))
  | Some mime =>
      output ← on_err (run_failure invalid)
                 (run (st "extract embedded artwork") (extract_command path (stream_index s))
                    (MAX_ARTWORK_SIZE_BYTES + 1));
      lift (validate mime (captured output))
  end.

(** ** Audio *)

Definition decode_command (path map : str) : Command :=
  (st "ffmpeg", [st "-v"; st "error"; st "-xerror"; st "-nostdin"; st "-i"; path; st "-map"; map;
                 st "-f"; st "null"; st "-"; st "-progress"; st "pipe:1"; st "-nostats"]).

(** The loop of [decode_to_end] over the lines ffmpeg prints: the microseconds
    decoded, and the failure that stopped it. *)
Fixpoint progress_loop (ls : list (option str)) (progress : option (Z * Z)) (decoded : Z)
    : M Io Failure (Z * option Failure) :=
  match ls with
  | [] => mret (decoded, None)
  | line :: ls =>
      stop ← poll;
      if stop : bool then mret (decoded, Some cancelled) else
      match line with
      | None => mret (decoded, None)
      | Some line =>
          match value ← strip_prefix (st "out_time_us=") line; parse_u64 (trim value) with
          | None => progress_loop ls progress decoded
          | Some us =>
              let decoded := Z.max decoded us in
              match progress with
              | None => progress_loop ls progress decoded
              | Some (rate, duration) =>
                  samples ← lift (mul_u64 decoded rate);
                  total ← lift (mul_u64 (Z.max duration 0) rate);
                  reported ← try (report (samples / 1000000) (total / 1000) 0 0 false);
                  match reported with
                  | Err f => mret (decoded, Some f)
                  | _ => progress_loop ls progress decoded
                  end
              end
          end
      end
  end.

Definition decode_to_end (path map action : str) (progress : option (Z * Z)) : M Io Failure Z :=
  let c := decode_command path map in
  match spawn_error c with
  | Some cause => fail (audio_error (action ++ st ": " ++ cause))
  | None =>
      '(decoded, stopped) ← progress_loop (stdout_lines c) progress 0;
      killed ← (match stopped with Some _ => mret true | None => poll end);
      let status := ended c killed in
      stop ← poll;
      if stop : bool then fail cancelled else
      match stopped, status with
      | Some f, _ => fail f
      | None, inl cause => fail (audio_error (action ++ st ": " ++ cause))
      | None, inr status =>
          if bool_decide (status = Some 0) then mret decoded
          else fail (audio_error (command_failure action (exit_message status)
                                    (capture ERROR_OUTPUT_LIMIT_BYTES (stderr c))))
      end
  end.

Definition build_audio `{Unicode} (s : ProbeStream) : outcome Failure TechnicalAudio :=
  let positive o := match o with Some n => if 0 <? n then Some n else None | None => None end in
  match positive (atoi (stream_sample_rate s)) with
  | Some rate =>
      if stream_channels s <=? 0 then Err (audio_error (st "M4A stream has invalid technical properties")) else
      let seconds := default S754_nan (parse_f64 (trim (stream_duration s))) in
      if is_nan seconds || fle seconds (of_Z 0) then
        Err (audio_error (st "M4A stream has invalid probed duration"))
      else
        depth ← (if bool_decide (codec_name s = st "alac") then
                   ok_or (positive (atoi (bits_per_raw_sample s))) (audio_error (st "ALAC bit depth is missing"))
                 else Ok 0);
        Ok (mkAudio (st "m4a") (st "m4a") (codec_name s) (to_i64 (fmul seconds (of_Z 1000))) rate
              (stream_channels s) depth 0)
  | None => Err (audio_error (st "M4A stream has invalid technical properties"))
  end.

Definition measure_command (path : str) : Command :=
  (st "ffprobe", [st "-v"; st "error"; st "-show_entries"; st "packet=stream_index,size"; st "-of";
                  st "csv=p=0"; path]).

(** The loop of [measure_encoded_bytes] over the records of the packets. *)
Fixpoint sum_packets (wanted : str) (records : list str) (total : Z) : outcome Failure Z :=
  match records with
  | [] => Ok total
  | record :: records =>
      match split (Z.eqb 44) record with
      | stream :: size :: rest =>
          if existsb (λ f, negb (bool_decide (f = []))) rest then
            Err (audio_error (st "M4A packet record has unexpected fields"))
          else if negb (bool_decide (stream = wanted)) then sum_packets wanted records total
          else match parse_i64 size with
               | Some n => if 0 <=? n then total ← add_i64 total n; sum_packets wanted records total
                           else Err (audio_error (st "M4A packet size is invalid"))
               | None => Err (audio_error (st "M4A packet size is invalid"))
               end
      | _ => Err (audio_error (st "M4A packet record is invalid"))
      end
  end.

Definition measure_encoded_bytes (path : str) (index : Z) : M Io Failure Z :=
  output ← on_err (run_failure audio_error)
             (run (st "measure M4A packets") (measure_command path) USIZE_MAX);
  total ← lift (sum_packets (show index) (lines (from_utf8_lossy (captured output))) 0);
  if total <=? 0 then fail (audio_error (st "M4A encoded audio size is not positive")) else mret total.

Definition with_rates (a : TechnicalAudio) (duration bitrate : Z) : TechnicalAudio :=
  mkAudio (format a) (container a) (codec a) duration (sample_rate_hz a) (channel_count a)
    (bit_depth a) bitrate.

Definition inspect_audio `{Unicode} (path : str) (s : ProbeStream) : M Io Failure TechnicalAudio :=
  a ← lift (build_audio s);
  us ← decode_to_end path (st "0:" ++ show (stream_index s)) (st "decode M4A stream")
         (Some (sample_rate_hz a, duration_ms a));
  let duration := as_i64 (us / 1000) in
  if duration <=? 0 then fail (audio_error (st "decoded M4A duration is not positive")) else
  product ← lift (mul_u64 duration (sample_rate_hz a));
  let decoded := product / 1000 in
  _ ← report decoded decoded 0 0 true;
  encoded ← measure_encoded_bytes path (stream_index s);
  bits ← lift (mul_i64 encoded 8);
  rounded ← lift (add_i64 bits (duration / 2));
  let bitrate := rounded / duration in
  if bitrate <=? 0 then fail (audio_error (st "M4A average encoded bitrate is not positive")) else
  mret (with_rates a duration bitrate).

(** ** The inspection *)

Definition hash (path : str) : M Io Failure str :=
  _ ← on_err (λ e, file_error (st "open " ++ path ++ st ": " ++ io_message e)) open_file;
  '(sha, _) ← on_err (λ e, match e with HashCancelled => cancelled | HashIo text => file_error text end)
                hash_and_rewind;
  mret sha.

Definition inspect `{Unicode, Debug, Images} (path : str) : M Io Failure MediaInspection :=
  sha ← hash path;
  p ← probe path;
  let '(audio_stream, artwork_stream) := validate_streams p in
  s ← lift audio_stream;
  credits ← try (on_err (error InvalidMetadata (st "credits")) read_structured_credits);
  let normalized := normalize_probe (format_tags p) (ok_of credits) in
  let normalized :=
    match credits with
    | Err f => Err (fjoin [Some f; Some (exclude_fields (default [] (err_of normalized))
                                           [st "ARTIST"; st "ALBUMARTIST"])])
    | _ => normalized
    end in
  artwork ← try (cover ← lift artwork_stream; extract_artwork path cover);
  let artwork := optional_artwork artwork in
  audio ← try (inspect_audio path s);
  _ ← lift (into_result (fjoin [err_of normalized; err_of artwork; err_of audio]));
  m ← lift normalized; a ← lift artwork; t ← lift audio;
  mret (mkInspection m a t sha).
End M4a.

(** ** What an inspection accepts *)

Section Accepted.
Context `{World, Tools}.

(** The times ffmpeg reported, up to a line that could not be read. *)
Definition time_of (line : str) : option Z :=
  value ← strip_prefix (st "out_time_us=") line; parse_u64 (trim value).
Fixpoint times (ls : list (option str)) : list Z :=
  match ls with
  | Some line :: ls => match time_of line with Some us => us :: times ls | None => times ls end
  | _ => []
  end.

(** The records ffprobe printed about the packets. *)
Definition packet_records (path : str) : list str :=
  lines (from_utf8_lossy (captured (capture USIZE_MAX (stdout (measure_command path))))).

(** The program ended well, killed late or not. *)
Definition succeeded (c : Command) : Prop := spawn_error c = None ∧ ∃ killed, ended c killed = inr (Some 0).

(** What ffprobe printed about the file, read as a probe. *)
Definition probed (path : str) : str + Probe :=
  decode_probe (from_utf8_lossy (captured (capture PROBE_OUTPUT_LIMIT_BYTES (stdout (probe_command path))))).

(** The size in a record of a packet of the [wanted] stream. *)
Definition packet_size (wanted record : str) : option Z :=
  match split (Z.eqb 44) record with
  | stream :: size :: _ => if bool_decide (stream = wanted) then parse_i64 size else None
  | _ => None
  end.
Definition packet_total (wanted : str) (records : list str) : Z :=
  foldr (λ record, Z.add (Z.max 0 (default 0 (packet_size wanted record)))) 0 records.

(** The numbers that a probed stream's answers are multiplied to do not fit: a time
    ffmpeg reports by the sample rate, the probed duration by the sample rate, or
    the bits of the packets with half the duration. *)
Definition m4a_overflows `{Unicode} (path : str) : Prop :=
  ∃ p s a, probed path = inr p ∧ s ∈ streams p ∧ build_audio s = Ok a ∧
    let reported := times (stdout_lines (decode_command path (st "0:" ++ show (stream_index s)))) in
    (∃ us, us ∈ reported ∧ u64_max < us * sample_rate_hz a) ∨
    u64_max < duration_ms a * sample_rate_hz a ∨
    i64_max < packet_total (show (stream_index s)) (packet_records path) * 8 + foldl Z.max 0 reported / 1000 / 2.

(** The technical values: those of the probed stream, with the duration that was
    decoded and the bitrate its packets make over it. *)
Definition m4a_audio `{Unicode} (path : str) (s : ProbeStream) (t : TechnicalAudio) : Prop :=
  let c := decode_command path (st "0:" ++ show (stream_index s)) in
  ∃ a n, build_audio s = Ok a ∧ succeeded c ∧
    sum_packets (show (stream_index s)) (packet_records path) 0 = Ok n ∧ 0 < n ∧
    let duration := foldl Z.max 0 (times (stdout_lines c)) / 1000 in
    0 < duration ∧ t = with_rates a duration ((n * 8 + duration / 2) / duration) ∧ 0 < bitrate_kbps t.

Definition m4a_cover `{Images} (path : str) (covers : list ProbeStream) (a : AlbumArtwork) : Prop :=
  match covers with
  | [] => a = no_artwork
  | [cover] => warning a = INVALID_ARTWORK_WARNING ∨
      ∃ mime, cover_mime (codec_name cover) = Some mime ∧
        validate mime (captured (capture (MAX_ARTWORK_SIZE_BYTES + 1)
                                   (stdout (extract_command path (stream_index cover))))) = Ok a
  | _ => warning a = INVALID_ARTWORK_WARNING
  end.

Lemma poll_ends : ends (λ _, True) poll.
Proof. apply ends_any, poll_keeps. Qed.

Lemma wait_loop_ends rounds action c : ends (λ status, ended c false = inr status) (wait_loop rounds action c).
Proof.
  induction rounds as [|rounds IH]; cbn [wait_loop]; (eapply ends_bind; [apply ends_on_err, poll_ends|]);
    intros stop _; (apply ends_if; intros _; [apply ends_fail|]); [|exact IH].
  destruct (ended c false) as [cause|status]; [apply ends_fail|by apply ends_ret].
Qed.

Lemma run_ends action c limit :
  ends (λ out, out = capture limit (stdout c) ∧ succeeded c) (run action c limit).
Proof.
  unfold run. destruct (spawn_error c) as [cause|] eqn:Hspawn; [apply ends_fail|].
  eapply ends_bind; [apply wait_loop_ends|]. intros status Hended. cbn beta in Hended.
  apply ends_if; intros Hok; [|apply ends_fail]. bool_to_prop. subst.
  apply ends_ret. split; [done|]. split; [done|]. eauto.
Qed.

Lemma probe_ends path : ends (λ p, is_m4a p = true ∧ probed path = inr p) (probe path).
Proof.
  eapply ends_bind; [apply ends_on_err, run_ends|]. intros output [-> _].
  apply ends_if; intros _; [apply ends_fail|]. fold (probed path).
  destruct (probed path) as [cause|p] eqn:Hp; [apply ends_fail|].
  destruct (is_m4a p) eqn:Hm; [by apply ends_ret|apply ends_fail].
Qed.

(** How the extraction of the covers ended. *)
Definition cover_result `{Images} (path : str) (covers : list ProbeStream) (o : outcome Failure AlbumArtwork) : Prop :=
  match o, covers with
  | Ok a, _ => m4a_cover path covers a
  | Err f, [] => f = error MissingArtwork (st "artwork") (st "embedded front cover is required")
  | Err f, [_] => code <$> first f ≠ Some MissingArtwork
  | Err f, _ => ∃ m, f = error InvalidArtwork (st "artwork") m
  | _, _ => False
  end.

Lemma extract_artwork_ends `{Debug, Images} path s : images_return →
  ends (cover_result path [s]) (try (extract_artwork path s)).
Proof.
  intros Hi s0 Hs. apply wp_try. unfold extract_artwork. destruct (cover_mime _) as [mime|] eqn:Hm; [|by apply wp_fail].
  apply wp_bind, wp_on_err. eapply wp_conseq; [by apply run_ends|..]; [|intros [] s1 Hs1; by split|done].
  intros output s1 [Hs1 [-> _]]. apply wp_lift. set (out := captured _). pose proof (validate_cases mime out Hi) as Hv.
  destruct (validate mime out) as [a|f| |] eqn:E; try done.
  - split; [done|]. right. eauto.
  - split; [done|]. destruct Hv as [Hv _]. unfold cover_result. by rewrite Hv.
Qed.

(** Without byte counts a report is no panic. *)
Lemma report_samples_ends decoded total complete : ends (λ _, True) (report decoded total 0 0 complete).
Proof.
  apply ends_any. intros s Hs. unfold report. destruct reporter as [answer|]; [|done].
  assert (∃ p, percent_of decoded total 0 0 complete = Ok p) as [p ->].
  { unfold percent_of. destruct (0 <? total); by eexists. }
  by destruct (answer _ _).
Qed.

Lemma times_range ls us : us ∈ times ls → 0 <= us <= u64_max.
Proof.
  induction ls as [|[line|] ls IH]; cbn [times]; [by intros ?%elem_of_nil| |by intros ?%elem_of_nil].
  destruct (time_of line) as [n|] eqn:Hn; [|done]. intros [->|Hin]%elem_of_cons; [|auto].
  unfold time_of in Hn. destruct (strip_prefix _ line) as [value|]; [|done]. cbn [mbind option_bind] in Hn.
  by apply parse_u64_range in Hn.
Qed.

Lemma progress_loop_ends C ls rate duration decoded : 0 <= rate → 
  (∀ us, us ∈ decoded :: times ls → u64_max < us * rate → C) → (u64_max < duration * rate → C) →
  ends_or C (λ r, r.2 = None → r.1 = foldl Z.max decoded (times ls)) (progress_loop ls (Some (rate, duration)) decoded).
Proof.
  intros Hr Ht Hdur. revert decoded Ht. induction ls as [|line ls IH]; intros decoded Ht;
    cbn [progress_loop]; [by apply ends_ret|].
  eapply ends_bind; [apply ends_calm, poll_ends|]. intros stop _.
  apply ends_if; intros _; [by apply ends_ret|]. destruct line as [line|]; [|by apply ends_ret].
  cbn [times] in *. change (value ← strip_prefix (st "out_time_us=") line; parse_u64 (trim value)) with (time_of line).
  destruct (time_of line) as [us|] eqn:Hus; [|by apply IH]. cbn [foldl].
  assert (∀ us', us' ∈ Z.max decoded us :: times ls → u64_max < us' * rate → C) as Hnext.
  { intros us' [->|Hin]%elem_of_cons; apply Ht; [|by do 2 right].
    destruct (Z.max_spec decoded us) as [[_ ->]|[_ ->]]; [right; left|left]. }
  pose proof (mul_u64_cases (E:=Failure) (Z.max decoded us) rate) as Hm.
  destruct (mul_u64 (Z.max decoded us) rate) as [samples|e| |]; try done;
    [|apply ends_panic_bind, (Hnext (Z.max decoded us)); [left|done]].
  apply ends_lift_bind. pose proof (mul_u64_cases (E:=Failure) (Z.max duration 0) rate) as Hm2.
  destruct (mul_u64 (Z.max duration 0) rate) as [total|e| |]; try done;
    [|apply ends_panic_bind, Hdur; unfold u64_max in *; destruct (Z.max_spec duration 0) as [[_ E']|[_ E']]; rewrite E' in Hm2; lia].
  apply ends_lift_bind.
  eapply ends_bind; [apply ends_calm, ends_try, report_samples_ends|]. intros o Ho.
  destruct o as [x|f| |]; [|by apply ends_ret|done..]. by apply IH.
Qed.

Lemma decode_to_end_ends C path map action rate duration : let c := decode_command path map in
  0 <= rate → (∀ us, us ∈ times (stdout_lines c) → u64_max < us * rate → C) → (u64_max < duration * rate → C) →
  ends_or C (λ us, us = foldl Z.max 0 (times (stdout_lines c)) ∧ succeeded c)
    (decode_to_end path map action (Some (rate, duration))).
Proof.
  intros c Hr Ht Hdur. unfold decode_to_end. fold c. destruct (spawn_error c) as [cause|] eqn:Hspawn; [apply ends_fail|].
  eapply ends_bind; [apply progress_loop_ends; [done| |done]|].
  { intros us [->|Hin]%elem_of_cons; [unfold u64_max; lia|by apply Ht]. }
  intros [decoded stopped] Hdec. cbn in Hdec.
  apply (ends_bind (λ _, True)); [destruct stopped; [by apply ends_ret|apply ends_calm, poll_ends]|]. intros killed _.
  eapply ends_bind; [apply ends_calm, poll_ends|]. intros stop _. apply ends_if; intros _; [apply ends_fail|].
  destruct stopped as [f|]; [apply ends_fail|]. destruct (ended c killed) as [cause|status] eqn:Hended; [apply ends_fail|].
  apply ends_if; intros Hok; [|apply ends_fail]. bool_to_prop. subst.
  apply ends_ret. split; [by apply Hdec|]. split; eauto.
Qed.

Lemma packet_total_nonneg wanted records : 0 <= packet_total wanted records.
Proof. unfold packet_total. induction records as [|r rs IH]; [done|]. cbn [foldr]. lia. Qed.

(** The sum of the sizes, or a panic where they do not fit. *)
Lemma sum_packets_cases wanted records total : 0 <= total →
  match sum_packets wanted records total with
  | Ok n => n = total + packet_total wanted records
  | Err _ => True
  | Panic => i64_max < total + packet_total wanted records
  | OutOfFuel => False
  end.
Proof.
  revert total. induction records as [|record records IH]; intros total Ht; cbn [sum_packets packet_total foldr]; [lia|].
  fold (packet_total wanted records).
  pose proof (packet_total_nonneg wanted records).
  unfold packet_size. destruct (split (Z.eqb 44) record) as [|stream [|size rest]]; [done..|].
  destruct (existsb _ rest); [done|]. case_bool_decide; cbn [negb]; [|by apply IH].
  destruct (parse_i64 size) as [n|]; [|done]. destruct (Z.leb_spec 0 n); [|done]. change (default 0 (Some n)) with n.
  pose proof (add_i64_cases (E:=Failure) total n) as Ha.
  destruct (add_i64 total n) as [m|e| |]; try done; cbn [mbind outcome_bind i64_result] in *; [|unfold i64_min, i64_max in *; lia].
  destruct Ha as [-> _]. specialize (IH (total + n) ltac:(lia)).
  rewrite Z.max_r by done. destruct (sum_packets _ _ (total + n)); lia.
Qed.

Lemma measure_ends C path index : let total := packet_total (show index) (packet_records path) in
  (i64_max < total → C) →
  ends_or C (λ n, sum_packets (show index) (packet_records path) 0 = Ok n ∧ n = total ∧ 0 < n) (measure_encoded_bytes path index).
Proof.
  intros total HC. eapply ends_bind; [apply ends_calm, ends_on_err, run_ends|]. intros output [-> _].
  fold (packet_records path). pose proof (sum_packets_cases (show index) (packet_records path) 0 (Z.le_refl 0)) as Hs.
  rewrite Z.add_0_l in Hs. destruct (sum_packets _ _ 0) as [n|f| |]; [|apply ends_fail|by apply ends_panic_bind, HC|done].
  apply ends_lift_bind, ends_if; intros Hpos; [apply ends_fail|]. bool_to_prop. by apply ends_ret.
Qed.

Lemma build_audio_positive `{Unicode} s a : build_audio s = Ok a → 0 < sample_rate_hz a.
Proof.
  unfold build_audio. destruct (atoi _) as [rate|]; [|done]. destruct (Z.ltb_spec 0 rate); [|done].
  intros Ha.
  repeat case_match; simplify_eq/=; done.
Qed.

Lemma build_audio_returns `{Unicode} s : returns (build_audio s).
Proof. unfold build_audio. by repeat case_match. Qed.

Lemma times_max_bound ls d : 0 <= d <= u64_max → 0 <= foldl Z.max d (times ls) <= u64_max.
Proof.
  pose proof (times_range ls) as Hl. revert Hl. generalize (times ls). intros l. revert d.
  induction l as [|us l IH]; intros d Hl Hd; [done|]. cbn [foldl].
  pose proof (Hl us ltac:(by left)). apply IH; [|lia]. intros us' ?. apply Hl. by right.
Qed.

Lemma times_max_in l d : foldl Z.max d l = d ∨ foldl Z.max d l ∈ l.
Proof.
  revert d. induction l as [|us l IH]; intros d; [by left|]. cbn [foldl].
  destruct (IH (Z.max d us)) as [->|Hin]; [|by do 2 right].
  destruct (Z.max_spec d us) as [[_ ->]|[_ ->]]; [right; left|by left].
Qed.

Lemma inspect_audio_ends `{Unicode} path p s : probed path = inr p → s ∈ streams p →
  ends_or (m4a_overflows path) (m4a_audio path s) (inspect_audio path s).
Proof.
  intros Hp Hin. unfold inspect_audio.
  apply (ends_bind (λ a, build_audio s = Ok a)); [apply ends_lift; [done|apply build_audio_returns]|]. intros a Ha.
  pose proof (build_audio_positive _ _ Ha) as Hrate.
  set (c := decode_command path (st "0:" ++ show (stream_index s))). set (reported := times (stdout_lines c)).
  assert (∀ us, us ∈ reported → u64_max < us * sample_rate_hz a → m4a_overflows path) as Htimes.
  { intros us Hus Hover. exists p, s, a. split_and!; try done. left. by exists us. }
  eapply ends_bind; [apply decode_to_end_ends; [lia|exact Htimes|]|].
  { intros Hover. exists p, s, a. split_and!; try done. by right; left. }
  intros us [-> Hc]. fold c in Hc |- *. fold reported.
  pose proof (times_max_bound (stdout_lines c) 0 ltac:(by vm_compute)) as Hus. fold reported in Hus.
  set (us := foldl Z.max 0 reported) in *.
  assert (u64_max < us * sample_rate_hz a → m4a_overflows path) as Hmax.
  { destruct (times_max_in reported 0) as [E'|Hus']; [|by apply Htimes]. fold us in E'. rewrite E'. unfold u64_max. lia. }
  assert (0 <= us / 1000 <= us ∧ us / 1000 <= 2 ^ 62) as [Hms Hms2].
  { split; [split; [apply Z.div_pos; lia|]|]; apply Z.div_le_upper_bound; unfold u64_max in *; lia. }
  rewrite as_i64_id by (unfold is_i64, i64_min, i64_max; lia). set (ms := us / 1000) in *.
  apply ends_if; intros Hpos; [apply ends_fail|]. bool_to_prop.
  pose proof (mul_u64_cases (E:=Failure) ms (sample_rate_hz a)) as Hm.
  destruct (mul_u64 ms (sample_rate_hz a)) as [product|e| |]; try done; [|apply ends_panic_bind, Hmax; nia].
  apply ends_lift_bind. eapply ends_bind; [apply ends_calm, report_samples_ends|]. intros _ _.
  assert (0 <= ms / 2) by (apply Z.div_pos; lia).
  set (total := packet_total (show (stream_index s)) (packet_records path)).
  assert (i64_max < total * 8 + ms / 2 → m4a_overflows path) as Hbits.
  { intros Hover. exists p, s, a. split_and!; try done. by do 2 right. }
  eapply ends_bind; [apply measure_ends|].
  { fold total. intros Hover. apply Hbits. unfold i64_max in *. lia. }
  intros n (Hn & -> & Hnpos). fold total in Hnpos, Hn |- *.
  pose proof (mul_i64_cases (E:=Failure) total 8) as Hm8.
  destruct (mul_i64 total 8) as [bits|e| |]; try done; cbn [i64_result] in Hm8;
    [|apply ends_panic_bind, Hbits; unfold i64_min, i64_max in *; lia].
  destruct Hm8 as [-> _]. apply ends_lift_bind. pose proof (add_i64_cases (E:=Failure) (total * 8) (ms / 2)) as Hsum.
  destruct (add_i64 (total * 8) (ms / 2)) as [rounded|e| |]; try done; cbn [i64_result] in Hsum;
    [|apply ends_panic_bind, Hbits; unfold i64_min, i64_max in *; lia].
  destruct Hsum as [-> _]. apply ends_lift_bind.
  apply ends_if; intros Hbit; [apply ends_fail|]. bool_to_prop.
  apply ends_ret. exists a, total. split_and!; try done.
Qed.

Lemma hash_ends path : ends (λ sha, sha = sha256_hex file) (hash path).
Proof.
  intros s Hs. unfold hash, open_file. apply wp_bind, wp_on_err.
  assert (seek 0 s = (Ok tt, with_pos 0 (one_op s)) ∨ ∃ e, seek 0 s = (Err e, one_op s)) as Hseek.
  { unfold seek. destruct (fault (ops s)); eauto. }
  unfold wp at 1. destruct Hseek as [->|[e ->]]; [|done]. set (s1 := with_pos 0 (one_op s)).
  apply wp_bind, wp_on_err, wp_bind. unfold wp at 1.
  destruct (hash_loop_cases (S (length file)) [] s1) as [Hl Hat]; [done|done|apply zlen_nonneg|cbn; unfold file_len, zlen; lia|].
  destruct (hash_loop _ [] s1) as [[h|e| |] s2]; try done. cbn in Hl, Hat. subst h.
  apply wp_bind, wp_on_err. unfold wp at 1, seek. destruct (fault (ops s2)); [done|].
  apply wp_ret. by split.
Qed.

(** What [validate_streams] lets through. *)
Definition m4a_streams `{Debug} (p : Probe) (s : ProbeStream) (covers : list ProbeStream) : Prop :=
  sort_streams (streams p) = Ok ([s], covers) ∧ (codec_name s = st "aac" ∨ codec_name s = st "alac").

Lemma sort_streams_returns `{Debug} ss : returns (sort_streams ss).
Proof.
  induction ss as [|s ss IH]; [done|]. cbn [sort_streams]. case_bool_decide.
  - by destruct (sort_streams ss) as [[]| | |].
  - case_match; [|done]. by destruct (sort_streams ss) as [[]| | |].
Qed.

Lemma sort_streams_in `{Debug} ss audio covers : sort_streams ss = Ok (audio, covers) → ∀ s, s ∈ audio → s ∈ ss.
Proof.
  revert audio covers. induction ss as [|x ss IH]; cbn [sort_streams]; intros audio covers Hs s Hin.
  { injection Hs as <- <-. done. }
  case_bool_decide.
  - destruct (sort_streams ss) as [[au co]| | |]; try done. injection Hs as <- <-.
    apply elem_of_cons in Hin as [->|Hin]; [by left|]. right. by eapply IH.
  - case_match; [|done]. destruct (sort_streams ss) as [[au co]| | |]; try done. injection Hs as <- <-. right. by eapply IH.
Qed.

Lemma validate_streams_cases `{Debug} p :
  match validate_streams p with
  | (Ok s, cover) => ∃ covers, m4a_streams p s covers ∧ returns cover ∧
      match covers with
      | [] => cover = Err (error MissingArtwork (st "artwork") (st "embedded front cover is required"))
      | [c] => cover = Ok c
      | _ => ∃ m, cover = Err (error InvalidArtwork (st "artwork") m)
      end
  | (Err f, _) => True
  | _ => False
  end.
Proof.
  unfold validate_streams, m4a_streams. pose proof (sort_streams_returns (streams p)).
  destruct (sort_streams (streams p)) as [[[|s [|s' au]] covers]|f| |]; try done.
  destruct (_ || _) eqn:Hc; [|done]. exists covers. bool_to_prop. split; [|destruct covers as [|? [|? ?]]; eauto].
  split; [done|]. destruct Hc as [Hc|Hc]; bool_to_prop; auto.
Qed.

Definition m4a_accepted `{Unicode, Debug, Images} (path : str) (i : MediaInspection) : Prop :=
  file_sha256 i = sha256_hex file ∧
  ∃ p s covers credits, probed path = inr p ∧ is_m4a p = true ∧ m4a_streams p s covers ∧
    m4a_audio path s (audio i) ∧ m4a_cover path covers (album_artwork i) ∧
    (∃ s1 s2, read_structured_credits s1 = (Ok credits, s2)) ∧
    normalize_probe (format_tags p) (Some credits) = Ok (inspected i) ∧
    well_formed (tags_of (format_tags p) (Some credits)) (inspected i).

(** The credits, with what was read where. *)
Lemma credits_ends : file_len <= i64_max →
  ends (λ o, match o with
             | Ok c => ∃ s1 s2, read_structured_credits s1 = (Ok c, s2)
             | Err f => f ≠ []
             | _ => False end)
    (try (on_err (error InvalidMetadata (st "credits")) read_structured_credits)).
Proof.
  intros Hlen s Hs. apply wp_try, wp_on_err. pose proof (read_structured_credits_ends Hlen s Hs) as Hw.
  unfold wp in *. destruct (read_structured_credits s) as [[c|e| |] s'] eqn:E1; try done.
  destruct Hw as [? _]. split; eauto.
Qed.

Lemma optional_cover `{Images} path covers o a :
  cover_result path covers o → optional_artwork o = Ok a → m4a_cover path covers a.
Proof.
  unfold cover_result. destruct o as [b|f| |]; simpl; try done; [by intros ? [= <-]|].
  intros Hf Ho. destruct covers as [|c [|c' cs]].
  - subst f. cbn in Ho. by injection Ho as <-.
  - destruct (code <$> first f) as [[]|]; try done. left. by injection Ho as <-.
  - destruct Hf as [m ->]. cbn in Ho. by injection Ho as <-.
Qed.

Lemma cover_result_ends `{Debug, Images} path p s cover covers : images_return → m4a_streams p s covers →
  match covers with
  | [] => cover = Err (error MissingArtwork (st "artwork") (st "embedded front cover is required"))
  | [c] => cover = Ok c
  | _ => ∃ m, cover = Err (error InvalidArtwork (st "artwork") m)
  end →
  ends (cover_result path covers) (try (c ← lift cover; extract_artwork path c)).
Proof.
  intros Hi _ Hc. destruct covers as [|c [|c' cs]].
  - subst. intros s0 Hs. by split.
  - subst. by apply extract_artwork_ends.
  - destruct Hc as [m ->]. intros s0 Hs. split; [done|]. by exists m.
Qed.

Lemma m4a_inspect_ends `{Unicode, Debug, Images} path :
  images_return → file_len <= i64_max →
  ends_or (m4a_overflows path) (m4a_accepted path) (inspect path).
Proof.
  intros Hi Hlen. unfold inspect. eapply ends_bind; [apply ends_calm, hash_ends|]. intros sha ->.
  eapply ends_bind; [apply ends_calm, probe_ends|]. intros p [Hm Hp].
  pose proof (validate_streams_cases p) as Hv. destruct (validate_streams p) as [audio_stream cover].
  destruct audio_stream as [s|f| |]; [|apply ends_fail|done..]. destruct Hv as (covers & Hst & _ & Hc).
  apply ends_lift_bind. eapply ends_bind; [by apply ends_calm, credits_ends|]. intros credits Hcr.
  eapply ends_bind; [by eapply ends_calm, cover_result_ends|]. intros artwork Hart.
  eapply ends_bind; [eapply ends_try, inspect_audio_ends; [exact Hp|]|].
  { eapply (sort_streams_in (streams p)); [apply Hst|by left]. }
  intros audio Haud. cbv zeta.
  eapply ends_bind; [by apply (ends_lift (λ _, True)), returns_into_result|]. intros _ _.
  apply (ends_bind (λ m, ∃ c, credits = Ok c ∧ normalize_probe (format_tags p) (Some c) = Ok m)).
  { destruct credits as [c|f| |]; try done; [|exact (ends_fail _ _)]. apply ends_lift; [eauto|].
    pose proof (normalize_cases (tags_of (format_tags p) (Some c)) (replay_gain_from_strings (raw_entries (format_tags p)))).
    unfold normalize_probe. cbn [ok_of]. by destruct (normalize _ _). }
  intros m (c & -> & Hnorm).
  apply (ends_bind (λ a, m4a_cover path covers a)).
  { apply ends_lift; [intros a Ha; by eapply optional_cover|]. apply returns_optional_artwork. by destruct artwork. }
  intros a Ha. apply (ends_bind (m4a_audio path s)); [apply ends_lift; [by intros t ->|by destruct audio]|].
  intros t Ht. apply ends_ret. split; [done|]. exists p, s, covers, c. split_and!; try done.
  pose proof (normalize_cases (tags_of (format_tags p) (Some c)) (replay_gain_from_strings (raw_entries (format_tags p)))) as Hn.
  unfold normalize_probe in Hnorm. rewrite Hnorm in Hn. by destruct Hn.
Qed.

(** C37: an imported M4A is what the tools say of it. Inspecting an M4A ends,
    whatever bytes it has and whatever the tools answer, and it panics only when the
    answers about a stream of this file do not fit the integers: a time that ffmpeg
    reports, or the probed duration, times the sample rate passes 64 bits, or the
    bits of the stream's packets and half its duration pass 63. When it succeeds,
    the recorded hash is the whole file's, the probe named the M4A brand and one AAC
    or ALAC stream beside cover pictures, ffmpeg decoded that stream to its end and
    the duration and bitrate are those of what it decoded and of its packets, the
    metadata is the normal form of the tags with the credits of the file's atoms,
    and the artwork is the one cover, a warning, or none when there is none. *)
Theorem m4a_inspect_correct `{Unicode, Debug, Images} path s :
  images_return → file_len <= i64_max → at_file s →
  match inspect path s with
  | (Ok i, _) => m4a_accepted path i
  | (Err _, _) => True
  | (Panic, _) => m4a_overflows path
  | (OutOfFuel, _) => False
  end.
Proof.
  intros Hi Hlen Hs. pose proof (m4a_inspect_ends path Hi Hlen s Hs) as H'. unfold wp in H'.
  destruct (inspect path s) as [[i|f| |] s']; try done. by destruct H'.
Qed.
End Accepted.

(** ** A file with credits in its atoms, and tools that answer *)

#[local] Existing Instance plain_debug.
#[local] Existing Instance ascii_unicode.
#[local] Existing Instance example_images.

Definition example_stream : ProbeStream :=
  mkStream 0 (st "aac") (st "audio") (st "44100") 2 [] (st "1") ∅.
Definition example_probe : Probe :=
  mkProbe [example_stream] (st "mov,mp4,m4a")
    (list_to_map [(st "major_brand", st "M4A "); (st "title", st "T"); (st "album_artist", st "B");
                  (st "album", st "C"); (st "track", st "1/9")]).

#[local] Instance example_tools : Tools := {|
  spawn_error := λ _, None;
  busy := λ _, 2%nat;
  ended := λ _ _, inr (Some 0);
  stdout := λ c, if bool_decide (c = measure_command (st "x")) then [bs "0,1"; bs "000"; [x0a]; bs "0,500"] else [];
  stderr := λ _, [];
  stdout_lines := λ _, [Some (st "out_time_us=N/A"); Some (st "out_time_us=1000000"); Some (st "progress=end")];
  decode_probe := λ _, inr example_probe;
  raw_entries := map_to_list
|}.

#[local] Instance example_world : World := plain_world example_file.

Lemma m4a_inspect_correct_witness :
  ∃ i s, inspect (st "x") io_start = (Ok i, s) ∧
    (title (inspected i), artists (inspected i), duration_ms (audio i), bitrate_kbps (audio i))
      = (st "T", [st "A"; st "B"], 1000, 12) ∧ m4a_accepted (st "x") i.
Proof.
  assert (file_len <= i64_max) as Hlen by (vm_compute; discriminate).
  pose proof (m4a_inspect_correct (st "x") io_start example_images_return Hlen (Z.le_refl 0)) as H.
  destruct (Ok_part (λ i, (title (inspected i), artists (inspected i), duration_ms (audio i), bitrate_kbps (audio i)))
    (inspect (st "x") io_start) (st "T", [st "A"; st "B"], 1000, 12)) as (i & s & E & Hd); [vm_compute; reflexivity|].
  rewrite E in H. exists i, s. exact (conj E (conj Hd H)).
Defined.
