(* ===== verification/Ogg.v ===== *)
(** Ogg Vorbis and Ogg Opus files (inspect/ogg.rs): pages with valid checksums that
    continue one stream, the packets laced into them, their comments and what the
    packets decode to. *)

From stdpp Require Import gmap.
From S2P Require Import Prelude Crash Text Float64 Failure Inspector Metadata Artwork Mp4 M4a.
From S2P Require Flac.

Definition PAGE_HEADER_SIZE_BYTES : Z := 27.
Definition END_OF_STREAM_FLAG : Z := 0x04.
Definition BEGINNING_OF_STREAM_FLAG : Z := 0x02.
Definition CONTINUED_PACKET_FLAG : Z := 0x01.
Definition MAX_SEGMENT_SIZE : Z := 255.
Definition OPUS_SAMPLE_RATE_HZ : Z := 48000.
Definition MAX_PICTURE_COMMENT_BYTES : Z := (MAX_ARTWORK_SIZE_BYTES + 1024) * 2.
Definition MAX_HEADER_PACKET_BYTES : Z := MAX_PICTURE_COMMENT_BYTES + 64 * 1024.

Inductive Codec := Vorbis | Opus.

Record Page := mkPage {
  header_type : Z;
  granule : Z;
  serial : Z;
  sequence : Z;
  segments : list Z;
  payload : list byte
}.

Inductive PageError := Eof | Invalid (text : str).

Record Analysis := mkAnalysis { encoded_audio_bytes : Z; final_granule : Z }.

(** symphonia's Vorbis decoder: whether it opens with the extra data, and the
    frames the last of the packets it was given decodes to. *)
Class VorbisLib := {
  vorbis_decoder : list byte → option str;
  vorbis_decode : list (list byte) → outcome str Z
}.

(** The base64 crate. *)
Class Base64 := { base64_decode : str → str + list byte }.

Definition has_flag (flags flag : Z) : bool := negb (Z.land flags flag =? 0).

(** ** The checksum *)

Definition crc_bit (value : Z) : Z :=
  let doubled := Z.shiftl value 1 mod 2 ^ 32 in
  if Z.testbit value 31 then Z.lxor doubled 0x04c11db7 else doubled.

Definition CRC_TABLE : list Z :=
  Eval vm_compute in map (λ i, Nat.iter 8 crc_bit (Z.shiftl (Z.of_nat i) 24)) (seq 0 256).

Definition crc_byte (checksum : Z) (b : byte) : Z :=
  Z.lxor (Z.shiftl checksum 8 mod 2 ^ 32)
    (nth (Z.to_nat (Z.lxor (Z.shiftr checksum 24 mod 256) (b2z b))) CRC_TABLE 0).
Definition crc (checksum : Z) (data : list byte) : Z := foldl crc_byte checksum data.

Section Ogg.
Context `{World}.

(** ** Pages *)

(** [read_page] after its header of 27 bytes. *)
Definition page_after (header : list byte) : M Io PageError Page :=
  version ← lift (index header 4);
  if negb (bool_decide (take 4 header = bs "OggS")) || negb (b2z version =? 0) then
    fail (Invalid (st "OGG page header is invalid"))
  else
    count ← lift (index header 26);
    table ← on_err (λ e, Invalid (st "read OGG segment table: " ++ io_message e)) (read_exact (b2z count));
    let segments := b2z <$> table in
    let payload_size := foldr Z.add 0 segments in
    payload ← on_err (λ e, Invalid (st "read OGG page payload: " ++ io_message e)) (read_exact payload_size);
    let unsummed := take 22 header ++ [x00; x00; x00; x00] ++ drop 26 header in
    let checksum := crc (crc (crc 0 unsummed) table) payload in
    if negb (checksum =? le (sub header 22 4)) then fail (Invalid (st "OGG page checksum is invalid"))
    else
      flags ← lift (index header 5);
      mret (mkPage (b2z flags) (le (sub header 6 8)) (le (sub header 14 4)) (le (sub header 18 4))
              segments payload).

Definition read_page : M Io PageError Page :=
  '(header, stop) ← on_err (λ e, Invalid (io_message e)) (fill PAGE_HEADER_SIZE_BYTES);
  match stop with
  | Broken e => fail (Invalid (io_message e))
  | _ =>
      if bool_decide (header = []) then fail Eof
      else if zlen header <? PAGE_HEADER_SIZE_BYTES then fail (Invalid (st "unexpected EOF"))
      else page_after header
  end.

(** The next page, or the end of the stream. *)
Definition next_page {E} (f : str → E) : M Io E (option Page) := fun s =>
  match read_page s with
  | (Ok page, s') => (Ok (Some page), s')
  | (Err Eof, s') => (Ok None, s')
  | (Err (Invalid m), s') => (Err (f m), s')
  | (Panic, s') => (Panic, s')
  | (OutOfFuel, s') => (OutOfFuel, s')
  end.

(** The loop of [detect_codec]: the packet that the first short segment ends. *)
Fixpoint identification (segs : list Z) (size : Z) (data : list byte) : outcome str (list byte) :=
  match segs with
  | [] => Err (st "OGG identification packet spans pages")
  | s :: segs =>
      if s <? MAX_SEGMENT_SIZE then slice data 0 (size + s) else identification segs (size + s) data
  end.

Definition detect_codec : M Io str Codec :=
  page ← on_err (λ e, match e with
                      | Eof => st "read OGG page header: EOF"
                      | Invalid m => st "read OGG page header: " ++ m
                      end) read_page;
  packet ← lift (identification (segments page) 0 (payload page));
  if bytes_prefix (x01 :: bs "vorbis") packet then mret Vorbis
  else if bytes_prefix (bs "OpusHead") packet then mret Opus
  else fail (st "OGG stream codec is unsupported").

Inductive AnalysisError := AnalysisCancelled | AnalysisInvalid (text : str).

(** The variables of [analyze]'s loop. *)
Record Scan := mkScan {
  scan_serial : Z;
  expected_sequence : Z;
  partial : Z;
  packet_index : Z;
  has_page : bool;
  has_eos : bool;
  analysis : Analysis
}.

Definition validate_continuity (page : Page) (s : Scan) : outcome str unit :=
  if has_eos s then Err (st "OGG data follows end-of-stream page")
  else if negb (has_page s) && (negb (has_flag (header_type page) BEGINNING_OF_STREAM_FLAG)
                                || negb (sequence page =? 0)) then
    Err (st "OGG beginning-of-stream page is invalid")
  else if has_page s && (negb (serial page =? scan_serial s) || negb (sequence page =? expected_sequence s)
                         || has_flag (header_type page) BEGINNING_OF_STREAM_FLAG) then
    Err (st "OGG stream continuity is invalid")
  else if negb (Bool.eqb (has_flag (header_type page) CONTINUED_PACKET_FLAG) (0 <? partial s)) then
    Err (st "OGG continued-packet flag is invalid")
  else Ok tt.

(** One segment of a page; what is partial and counted has no more bytes than the
    file, so that the sums of [i64] do not overflow. *)
Definition scan_segment (header_packets : Z) (s : Scan) (segment : Z) : outcome str Scan :=
  let partial := partial s + segment in
  if (packet_index s <? header_packets) && (MAX_HEADER_PACKET_BYTES <? partial) then
    Err (st "OGG header packet exceeds maximum size")
  else if segment <? MAX_SEGMENT_SIZE then
    Ok (mkScan (scan_serial s) (expected_sequence s) 0 (packet_index s + 1) (has_page s) (has_eos s)
          (mkAnalysis (encoded_audio_bytes (analysis s) + (if header_packets <=? packet_index s then partial else 0))
             (final_granule (analysis s))))
  else
    Ok (mkScan (scan_serial s) (expected_sequence s) partial (packet_index s) (has_page s) (has_eos s)
          (analysis s)).

Fixpoint scan_segments (header_packets : Z) (s : Scan) (segs : list Z) : outcome str Scan :=
  match segs with
  | [] => Ok s
  | segment :: segs => s ← scan_segment header_packets s segment; scan_segments header_packets s segs
  end.

Definition scan_page (header_packets : Z) (s : Scan) (page : Page) : outcome str Scan :=
  _ ← validate_continuity page s;
  let s := mkScan (if has_page s then scan_serial s else serial page) ((sequence page + 1) mod 2 ^ 32)
             (partial s) (packet_index s) true (has_eos s) (analysis s) in
  s ← scan_segments header_packets s (segments page);
  Ok (if has_flag (header_type page) END_OF_STREAM_FLAG then
        mkScan (scan_serial s) (expected_sequence s) (partial s) (packet_index s) true true
          (mkAnalysis (encoded_audio_bytes (analysis s)) (granule page))
      else s).

(** Every page takes at least its header, so the file's length is enough fuel. *)
Fixpoint scan_loop (fuel : nat) (header_packets : Z) (s : Scan) : M Io AnalysisError Scan :=
  match fuel with
  | O => lift OutOfFuel
  | S fuel =>
      stop ← on_err (λ _, AnalysisCancelled) poll;
      if stop : bool then fail AnalysisCancelled else
      page ← next_page (λ m, AnalysisInvalid (st "read OGG page: " ++ m));
      match page with
      | Some page =>
          s ← lift (map_err AnalysisInvalid (scan_page header_packets s page));
          scan_loop fuel header_packets s
      | None => mret s
      end
  end.

Definition scan_start : Scan := mkScan 0 0 0 0 false false (mkAnalysis 0 0).

Definition incomplete (header_packets : Z) (s : Scan) : bool :=
  negb (has_page s) || negb (has_eos s) || negb (partial s =? 0) || (packet_index s <=? header_packets)
  || (encoded_audio_bytes (analysis s) <=? 0).

Definition analyze (header_packets : Z) : M Io AnalysisError Analysis :=
  _ ← on_err (λ e, AnalysisInvalid (st "rewind OGG stream analysis: " ++ io_message e)) (seek 0);
  s ← scan_loop (S (length file)) header_packets scan_start;
  if incomplete header_packets s then fail (AnalysisInvalid (st "OGG stream is incomplete"))
  else mret (analysis s).

(** ** Packets *)

Record OggPacket := mkPacket {
  packet_data : list byte;
  packet_granule : Z;
  last_on_page : bool;
  is_last : bool
}.

(** The segments of a page, with the packet they continue: the packets that end on
    it and the one that does not. *)
Fixpoint cut (g : Z) (segs : list Z) (offset : Z) (data partial : list byte)
    : outcome str (list OggPacket * list byte) :=
  match segs with
  | [] => Ok ([], partial)
  | segment :: segs =>
      piece ← slice data offset (offset + segment);
      let partial := partial ++ piece in
      if segment <? MAX_SEGMENT_SIZE then
        '(ps, rest) ← cut g segs (offset + segment) data [];
        Ok (mkPacket partial g false false :: ps, rest)
      else cut g segs (offset + segment) data partial
  end.

(** The last packet that ends on a page is marked. *)
Fixpoint mark_last (eos : bool) (ps : list OggPacket) : list OggPacket :=
  match ps with
  | [] => []
  | [p] => [mkPacket (packet_data p) (packet_granule p) true eos]
  | p :: ps => p :: mark_last eos ps
  end.

Fixpoint packet_loop (fuel : nat) (partial : list byte) : M Io str (list OggPacket) :=
  match fuel with
  | O => lift OutOfFuel
  | S fuel =>
      page ← next_page id;
      match page with
      | None => mret []
      | Some page =>
          '(ps, partial) ← lift (cut (granule page) (segments page) 0 (payload page) partial);
          more ← packet_loop fuel partial;
          mret (mark_last (has_flag (header_type page) END_OF_STREAM_FLAG) ps ++ more)
      end
  end.

Definition packets : M Io str (list OggPacket) :=
  _ ← on_err io_message (seek 0);
  packet_loop (S (length file)) [].

(** ** Comments *)

Section Comments.
Context `{Unicode}.

Definition comment_error (m : str) : Failure := error InvalidMetadata (st "comments") m.

Fixpoint collect_comments (comments : list str) (tags : Tags) : outcome Failure Tags :=
  match comments with
  | [] => Ok tags
  | comment :: comments =>
      match split_once 61 comment with
      | Some (key, value) =>
          if bool_decide (trim key = []) then Err (comment_error (st "vorbis comment is malformed"))
          else let key := tag_key key in
               collect_comments comments (<[key := values_of tags key ++ [value]]> tags)
      | None => Err (comment_error (st "vorbis comment is malformed"))
      end
  end.
Definition collect_comment_tags (comments : list str) : outcome Failure Tags := collect_comments comments ∅.

Definition read_length_prefixed (d : list byte) : outcome str (list byte * list byte) :=
  if zlen d <? 4 then Err (st "unexpected EOF") else
  let length := le (take 4 d) in
  if zlen d - 4 <? length then Err (st "unexpected EOF")
  else Ok (sub d 4 length, drop (Z.to_nat (4 + length)) d).

Fixpoint read_comments (count : nat) (d : list byte) : outcome str (list str) :=
  match count with
  | O => Ok []
  | S count =>
      '(value, d) ← read_length_prefixed d;
      rest ← read_comments count d;
      Ok (tag_string value :: rest)
  end.

Definition parse_comment_payload (d : list byte) : outcome str (list str) :=
  '(_, remaining) ← read_length_prefixed d;
  if zlen remaining <? 4 then Err (st "unexpected EOF") else
  let count := le (take 4 remaining) in
  let remaining := drop 4 remaining in
  if zlen remaining / 4 <? count then Err (st "vorbis comment count exceeds payload")
  else read_comments (Z.to_nat count) remaining.

(** [data.get(at..at + n)]. *)
Definition get_at (d : list byte) (p n : Z) : option (list byte) :=
  if p + n <=? zlen d then Some (sub d p n) else None.

(** The comments [lenient_vorbis_comments] could read, and nothing for the rest. *)
Fixpoint lenient_loop (count : nat) (d : list byte) (p : Z) : list str :=
  match count with
  | O => []
  | S count =>
      match get_at d p 4 with
      | None => replicate (S count) []
      | Some w =>
          match get_at d (p + 4) (le w) with
          | None => replicate (S count) []
          | Some value => tag_string value :: lenient_loop count d (p + 4 + le w)
          end
      end
  end.

Definition lenient_vorbis_comments (d : list byte) : list str :=
  match get_at d 0 4 with
  | None => []
  | Some vendor =>
      match get_at d (4 + le vendor) 4 with
      | None => []
      | Some w => if Z.shiftl 1 24 <? le w then []
                  else lenient_loop (Z.to_nat (le w)) d (4 + le vendor + 4)
      end
  end.

Context `{Base64, Images}.

Definition read_len (d : list byte) (p : Z) : Z := match get_at d p 4 with Some w => be w | None => 0 end.

Definition decode_picture_comment (value : str) : outcome str Flac.Picture :=
  if bool_decide (value = []) || (MAX_PICTURE_COMMENT_BYTES <? str_len value) then
    Err (st "encoded picture comment size is invalid")
  else
    match base64_decode value with
    | inl cause => Err (st "decode picture comment: " ++ cause)
    | inr data =>
        picture ← Flac.parse_picture data;
        let header := 32 + read_len data 4 + read_len data (8 + read_len data 4) in
        if (MAX_ARTWORK_SIZE_BYTES <? zlen (Flac.picture_data picture))
           || negb (header + zlen (Flac.picture_data picture) =? zlen data) then
          Err (st "picture data length is invalid")
        else Ok picture
    end.

(** The loop of [picture_comments_artwork]. *)
Fixpoint front_cover_of (values : list str) (cover : option Flac.Picture) : outcome Failure (option Flac.Picture) :=
  match values with
  | [] => Ok cover
  | value :: values =>
      picture ← map_err invalid (decode_picture_comment value);
      if negb (Flac.picture_type picture =? Flac.PICTURE_TYPE_FRONT_COVER) then front_cover_of values cover
      else if bool_decide (is_Some cover) then Err (invalid (st "multiple front covers are ambiguous"))
      else front_cover_of values (Some picture)
  end.

Definition picture_comments_artwork (values : list str) : outcome Failure AlbumArtwork :=
  cover ← front_cover_of values None;
  match cover with
  | Some picture => validate (Flac.picture_mime picture) (Flac.picture_data picture)
  | None => Err (error MissingArtwork (st "artwork") (st "embedded front cover is required"))
  end.

Definition metadata_and_artwork `{Flac.HashOrder} (tags : Tags)
    : outcome Failure NormalizedMetadata * outcome Failure AlbumArtwork :=
  (normalize tags (replay_gain_from_tags (Flac.entries tags)),
   optional_artwork (picture_comments_artwork (values_of tags (st "METADATA_BLOCK_PICTURE")))).
End Comments.

Definition finish (normalized : outcome Failure NormalizedMetadata) (artwork : outcome Failure AlbumArtwork)
    (audio : outcome Failure TechnicalAudio) : outcome Failure MediaInspection :=
  let metadata_failure := fjoin [err_of normalized; err_of artwork] in
  match audio with
  | Err f => Err (fjoin [Some metadata_failure; Some f])
  | _ =>
      _ ← into_result metadata_failure;
      m ← normalized; a ← artwork; t ← audio;
      Ok (mkInspection m a t [])
  end.

(** ** Vorbis *)

Record Position := mkPos { position : Z; decoded : Z; started : bool }.

(** One audio packet of [decode_vorbis]'s loop: the frames it adds, with where the
    stream stands; [None] before the first frame. *)
Definition place_packet (p : OggPacket) (frames : Z) (v : Position) : outcome Failure (option (Z * Position)) :=
  now ← add_i64 (position v) frames;
  if negb (started v) && (frames =? 0) then Ok None else
  let granule := as_i64 (packet_granule p) in
  '(frames, now) ←
    (if is_last p then
       discard ← sub_i64 now granule;
       Ok (if 0 <? discard then frames - discard else frames, granule)
     else Ok (frames, now));
  '(frames, now) ←
    (if negb (started v) && last_on_page p then
       offset ← sub_i64 granule now;
       frames ← (if offset <? 0 then add_i64 frames offset else Ok frames);
       Ok (frames, granule)
     else Ok (frames, now));
  if frames <? 0 then Err (audio_error (st "vorbis packet trims more samples than it decoded"))
  else
    decoded ← add_i64 (decoded v) frames;
    Ok (Some (frames, mkPos now decoded true)).

Section Decode.
Context `{VorbisLib}.

(** The loop from packet [first] on, the first of which only primes the decoder;
    [history] is what the decoder was given. *)
Fixpoint vorbis_loop (first : bool) (ps : list OggPacket) (history : list (list byte)) (v : Position)
    (length size : Z) : M Io Failure Z :=
  match ps with
  | [] => mret (decoded v)
  | p :: ps =>
      _ ← check;
      let history := history ++ [packet_data p] in
      count ← lift (map_err audio_error (vorbis_decode history));
      let frames := if first then 0 else count in
      placed ← lift (place_packet p frames v);
      match placed with
      | None => vorbis_loop false ps history (mkPos (position v + frames) (decoded v) false) length size
      | Some (_, v) =>
          _ ← report (decoded v) (Z.max length 0) 0 size false;
          vorbis_loop false ps history v length size
      end
  end.

Definition decode_vorbis (ps : list OggPacket) (size : Z) (a : Analysis) : M Io Failure TechnicalAudio :=
  ident ← lift (index ps 0);
  setup ← lift (index ps 2);
  let ident := packet_data ident in
  match vorbis_decoder (ident ++ packet_data setup) with
  | Some e => fail (audio_error e)
  | None =>
      channels ← lift (index ident 11);
      rate ← lift (slice ident 12 16);
      let channels := b2z channels in
      let rate := le rate in
      if (channels <=? 0) || (rate <=? 0) then
        fail (audio_error (st "vorbis stream has invalid technical properties"))
      else
        let length := as_i64 (final_granule a) in
        decoded ← vorbis_loop true (drop 3 ps) [] (mkPos 0 0 false) length size;
        if (length <=? 0) || negb (decoded =? length) then
          fail (audio_error (st "decoded sample count does not match OGG granule position"))
        else
          product ← lift (mul_i64 decoded 1000);
          let duration := Z.quot product rate in
          bitrate ← lift (average_bitrate_kbps (encoded_audio_bytes a) duration);
          if (duration <=? 0) || (bitrate <=? 0) then
            fail (audio_error (st "vorbis duration or bitrate is not positive"))
          else
            _ ← report decoded decoded size size true;
            mret (mkAudio (st "ogg") (st "ogg") (st "vorbis") duration rate channels 0 bitrate)
  end.
End Decode.

(** ** Opus *)

Record OpusHead := mkHead { version : Z; head_channels : Z; pre_skip : Z; mapping : Z }.

(** [opus_packet_samples]: samples at 48 kHz from the table of contents. *)
Definition opus_packet_samples (packet : list byte) : option Z :=
  match packet with
  | [] => None
  | toc :: rest =>
      let config := Z.shiftr (b2z toc) 3 in
      let frame_samples :=
        if config <=? 11 then nth (Z.to_nat (config mod 4)) [480; 960; 1920; 2880] 0
        else if config <=? 15 then nth (Z.to_nat (config mod 2)) [480; 960] 0
        else nth (Z.to_nat (config mod 4)) [120; 240; 480; 960] 0 in
      frames ← (let c := Z.land (b2z toc) 3 in
                if c =? 0 then Some 1
                else if c <=? 2 then Some 2
                else match rest with [] => None | b :: _ => Some (Z.land (b2z b) 0x3f) end);
      let samples := frames * frame_samples in
      if (0 <? frames) && (samples <=? 5760) then Some samples else None
  end.

Fixpoint opus_loop (ps : list OggPacket) (samples bytes last size : Z) : M Io Failure (Z * Z * Z) :=
  match ps with
  | [] => mret (samples, bytes, last)
  | p :: ps =>
      _ ← check;
      n ← lift (ok_or (opus_packet_samples (packet_data p)) (audio_error (st "opus packet decoded no samples")));
      samples ← lift (add_u64 samples n);
      bytes ← lift (add_i64 bytes (zlen (packet_data p)));
      _ ← report samples 0 bytes size false;
      opus_loop ps samples bytes (packet_granule p) size
  end.

Definition decode_opus `{Tools} (ps : list OggPacket) (head : OpusHead) (size : Z) (a : Analysis) (path : str)
    : M Io Failure TechnicalAudio :=
  audio_packets ← lift (slice_from ps 2);
  '(samples, bytes, last) ← opus_loop audio_packets 0 0 0 size;
  if negb (bytes =? encoded_audio_bytes a) || negb (last =? final_granule a) then
    fail (audio_error (st "decoded Opus packets do not match OGG stream analysis"))
  else
    _ ← decode_to_end path (st "0:a:0") (st "decode Opus stream") None;
    if (final_granule a <=? pre_skip head) || (samples <? final_granule a) then
      fail (audio_error (st "opus granule position is invalid"))
    else
      playable ← lift (sub_u64 (final_granule a) (pre_skip head));
      product ← lift (mul_u64 playable 1000);
      let duration := as_i64 (product / OPUS_SAMPLE_RATE_HZ) in
      bitrate ← lift (average_bitrate_kbps (encoded_audio_bytes a) duration);
      if (duration <=? 0) || (bitrate <=? 0) then
        fail (audio_error (st "opus duration or bitrate is not positive"))
      else
        _ ← report playable playable size size true;
        mret (mkAudio (st "opus") (st "ogg") (st "opus") duration OPUS_SAMPLE_RATE_HZ (head_channels head) 0 bitrate).

(** ** The inspection *)

Section Inspect.
Context `{Unicode, Base64, Images, Flac.HashOrder, VorbisLib, Tools}.

Definition comment_packet (ps : list OggPacket) : list byte :=
  match ps !! 1%nat with Some p => packet_data p | None => [] end.

Definition inspect_vorbis (size : Z) (a : Analysis) : M Io Failure MediaInspection :=
  ps ← on_err audio_error packets;
  ident ← lift (index ps 0);
  let ident := packet_data ident in
  sound ← (if zlen ident <=? 7 + 22 then mret false else
           zero ← lift (slice ident 7 11);
           framing ← lift (index ident (7 + 22));
           mret (bool_decide (zero = [x00; x00; x00; x00]) && negb (Z.land (b2z framing) 1 =? 0)));
  if negb sound then fail (comment_error (st "vorbis: decoding error")) else
  let comment := comment_packet ps in
  kind ← (if zlen comment <=? 6 then mret None else
          first ← lift (index comment 0);
          signature ← lift (slice comment 1 7);
          mret (if (Z.land (b2z first) 1 =? 1) && bool_decide (signature = bs "vorbis") then Some (b2z first) else None));
  match kind with
  | None => fail (comment_error (st "vorbis: invalid header"))
  | Some kind =>
      comments ← (if kind =? 3 then rest ← lift (slice_from comment 7); mret (lenient_vorbis_comments rest)
                  else if (kind =? 1) || (kind =? 5) then mret []
                  else fail (comment_error (st "vorbis: unknown header type")));
      tags ← lift (collect_comment_tags comments);
      let '(normalized, artwork) := metadata_and_artwork tags in
      audio ← try (decode_vorbis ps size a);
      lift (finish normalized artwork audio)
  end.

Definition inspect_opus (path : str) (size : Z) (a : Analysis) : M Io Failure MediaInspection :=
  ps ← on_err (error UnsupportedFormat (st "container")) packets;
  first ← lift (index ps 0);
  let d := packet_data first in
  if zlen d <? 19 then fail (error UnsupportedFormat (st "container") (st "bad header signature")) else
  v ← lift (index d 8); c ← lift (index d 9); skip ← lift (slice d 10 12); m ← lift (index d 18);
  let head := mkHead (b2z v) (b2z c) (le skip) (b2z m) in
  if negb (version head =? 1) || (head_channels head =? 0) || (2 <? head_channels head) || negb (mapping head =? 0) then
    fail (error UnsupportedFormat (st "audio") (st "opus stream channel layout is unsupported"))
  else
    let comment := comment_packet ps in
    if negb (bytes_prefix (bs "OpusTags") comment) then
      fail (comment_error (st "opus comment header is invalid"))
    else
      comments ← lift (map_err comment_error (parse_comment_payload (drop 8 comment)));
      tags ← lift (collect_comment_tags comments);
      let '(normalized, artwork) := metadata_and_artwork tags in
      audio ← try (decode_opus ps head size a path);
      lift (finish normalized artwork audio).

Definition inspect (path : str) : M Io Failure MediaInspection :=
  '(sha, size) ← hash_file;
  codec ← on_err (error UnsupportedFormat (st "container")) detect_codec;
  let header_packets := match codec with Opus => 2 | Vorbis => 3 end in
  a ← on_err (λ e, match e with
                   | AnalysisCancelled => cancelled
                   | AnalysisInvalid m => audio_error m
                   end) (analyze header_packets);
  _ ← on_err (λ e, file_error (st "rewind OGG stream: " ++ io_message e)) (seek 0);
  i ← (match codec with
       | Vorbis => inspect_vorbis size a
       | Opus => inspect_opus path size a
       end);
  mret (mkInspection (inspected i) (album_artwork i) (audio i) sha).
End Inspect.
End Ogg.
