(* ===== verification/OggStream.v ===== *)
(** What an Ogg inspection accepts: the pages tile the file and continue one
    stream, the analysis and the packets are read off the same pages, and the
    technical values are those of the packets; and the granule positions at which
    the decoder's position overflows. *)

From stdpp Require Import gmap.
From S2P Require Import Prelude Crash Text Float64 Failure Inspector Metadata Artwork Mp4 M4a Ogg.
From S2P Require Flac.

(** ** Pages *)

Definition page_size (page : Page) : Z := 27 + zlen (segments page) + zlen (payload page).

Section Pages.
Context `{World}.

Definition table_at (p : Z) : list byte := sub file (p + 27) (b2z (nth 26 (sub file p 27) x00)).
Definition data_at (p : Z) : list byte :=
  sub file (p + 27 + zlen (table_at p)) (foldr Z.add 0 (b2z <$> table_at p)).

(** The page that starts at [p], if one does. *)
Definition page_of (p : Z) : option Page :=
  let header := sub file p 27 in
  let unsummed := take 22 header ++ [x00; x00; x00; x00] ++ drop 26 header in
  if bool_decide (zlen header = 27) && bool_decide (zlen (table_at p) = b2z (nth 26 header x00))
     && bool_decide (zlen (data_at p) = foldr Z.add 0 (b2z <$> table_at p))
     && bool_decide (take 4 header = bs "OggS") && (b2z (nth 4 header x00) =? 0)
     && (crc (crc (crc 0 unsummed) (table_at p)) (data_at p) =? le (sub header 22 4))
  then Some (mkPage (b2z (nth 5 header x00)) (le (sub header 6 8)) (le (sub header 14 4))
               (le (sub header 18 4)) (b2z <$> table_at p) (data_at p))
  else None.

(** The pages that follow each other from [p] to the end of the file. *)
Inductive pages_at : Z → list Page → Prop :=
| pages_end p : file_len <= p → pages_at p []
| pages_next p page ps : page_of p = Some page → pages_at (p + page_size page) ps → pages_at p (page :: ps).

Lemma page_of_sound p page : page_of p = Some page →
  zlen (payload page) = foldr Z.add 0 (segments page) ∧
  Forall (λ s, 0 <= s <= 255) (segments page) ∧ 0 <= sequence page < 2 ^ 32 ∧ 0 <= granule page < 2 ^ 64.
Proof.
  unfold page_of. destruct (_ && _) eqn:Hc; [|done]. intros [= <-]. bool_to_prop. cbn. split; [done|].
  split; [|split].
  - apply Forall_fmap, Forall_true. intros b. cbn. pose proof (b2z_range b). lia.
  - pose proof (le_bound (sub (sub file p 27) 18 4)). pose proof (sub_le (sub file p 27) 18 4). pose proof (zlen_nonneg (sub (sub file p 27) 18 4)).
    split; [lia|]. eapply Z.lt_le_trans; [apply le_bound|]. change (2 ^ 32) with (256 ^ 4). apply Z.pow_le_mono_r; lia.
  - pose proof (le_bound (sub (sub file p 27) 6 8)). pose proof (sub_le (sub file p 27) 6 8). pose proof (zlen_nonneg (sub (sub file p 27) 6 8)).
    split; [lia|]. eapply Z.lt_le_trans; [apply le_bound|]. change (2 ^ 64) with (256 ^ 8). apply Z.pow_le_mono_r; lia.
Qed.

Lemma page_of_inside p page : 0 <= p → page_of p = Some page → p + page_size page <= file_len.
Proof.
  unfold page_of. intros Hp. destruct (_ && _) eqn:Hc; [|done]. intros [= <-]. bool_to_prop. unfold page_size. cbn.
  assert (∀ {A} (l : list A) a n, 0 <= a → 0 < zlen (sub l a n) → a + zlen (sub l a n) <= zlen l) as Hin.
  { intros A l a n Ha. unfold sub, zlen. rewrite length_take, length_drop. lia. }
  assert (zlen (b2z <$> table_at p) = zlen (table_at p)) as -> by (unfold zlen; by rewrite length_fmap).
  assert (p + 27 <= file_len) by (pose proof (Hin _ file p 27); unfold file_len; lia).
  assert (p + 27 + zlen (table_at p) <= file_len).
  { destruct (decide (zlen (table_at p) = 0)) as [->|]; [lia|]. pose proof (zlen_nonneg (table_at p)).
    apply Hin; [lia|unfold table_at in *; lia]. }
  destruct (decide (zlen (data_at p) = 0)) as [->|]; [lia|]. pose proof (zlen_nonneg (data_at p)).
  pose proof (zlen_nonneg (table_at p)). rewrite !Z.add_assoc. apply Hin; [lia|unfold data_at in *; lia].
Qed.

Lemma pages_at_unique p ps ps' : 0 <= p → pages_at p ps → pages_at p ps' → ps = ps'.
Proof.
  intros Hp Hps. revert ps' Hp. induction Hps as [p Hend|p page ps Hpage Hps IH]; intros ps' Hp Hps'.
  - inversion Hps' as [|? page ps2 Hpage]; [done|]. subst. apply page_of_inside in Hpage; [|done]. exfalso.
    unfold page_size in Hpage. pose proof (zlen_nonneg (segments page)). pose proof (zlen_nonneg (payload page)). lia.
  - inversion Hps' as [? Hend|? page' ps2 Hpage' Hps2]; subst.
    + apply page_of_inside in Hpage; [|done]. unfold page_size in Hpage.
      pose proof (zlen_nonneg (segments page)). pose proof (zlen_nonneg (payload page)). lia.
    + rewrite Hpage in Hpage'. injection Hpage' as <-. f_equal. apply IH; [|done].
      unfold page_size. pose proof (zlen_nonneg (segments page)). pose proof (zlen_nonneg (payload page)). lia.
Qed.

Lemma index_nth {E} (d : list byte) i n : zlen d = n → 0 <= i < n → @index E byte d i = Ok (nth (Z.to_nat i) d x00).
Proof.
  intros Hl Hi. destruct (index_in (E:=E) d i) as (x & -> & Hx); [lia|lia|]. f_equal.
  by erewrite nth_lookup_Some.
Qed.

Lemma sum_nonneg (l : list byte) : 0 <= foldr Z.add 0 (b2z <$> l).
Proof. induction l as [|b l IH]; [done|]. cbn. pose proof (b2z_range b). lia. Qed.

Lemma page_after_cases p s : at_file s → pos s = p + 27 → 0 <= p → zlen (sub file p 27) = 27 →
  match page_after (sub file p 27) s with
  | (Ok page, s') => page_of p = Some page ∧ pos s' = p + page_size page ∧ at_file s'
  | (Err Eof, _) => False
  | (Err (Invalid _), s') => at_file s'
  | _ => False
  end.
Proof.
  intros Hs Hpos Hp Hh. unfold page_after. rewrite !(index_nth _ _ 27) by (done || lia).
  set (h := sub file p 27) in *. unfold mbind at 1, M_bind at 1, lift at 1.
  destruct (_ || _) eqn:Hsig; [done|]. bool_to_prop. change (Z.to_nat 4) with 4%nat in *.
  unfold mbind at 1, M_bind at 1, lift at 1. change (Z.to_nat 26) with 26%nat.
  unfold mbind at 1, M_bind at 1, on_err at 1.
  destruct (read_exact_keeps (b2z (nth 26 h x00)) s Hs) as [Hk1 Hr1]. pose proof (b2z_range (nth 26 h x00)).
  destruct (read_exact (b2z (nth 26 h x00)) s) as [[table|e| |] s1] eqn:E1; try done. cbn [map_err].
  apply read_exact_Ok in E1 as (Hl1 & Ht & Hp1 & _); [|done|lia]. rewrite Hpos in Ht.
  assert (table = table_at p) as -> by done. pose proof (sum_nonneg (table_at p)).
  unfold mbind at 1, M_bind at 1, on_err at 1.
  destruct (read_exact_keeps (foldr Z.add 0 (b2z <$> table_at p)) s1 Hk1) as [Hk2 Hr2].
  destruct (read_exact (foldr Z.add 0 (b2z <$> table_at p)) s1) as [[data|e| |] s2] eqn:E2; try done. cbn [map_err].
  apply read_exact_Ok in E2 as (Hl2 & Hd & Hp2 & _); [|done|done].
  assert (pos s1 = p + 27 + zlen (table_at p)) as Hs1 by lia. rewrite Hs1 in Hd.
  assert (data = data_at p) as -> by done.
  destruct (_ =? _) eqn:Hcrc; [|done]. cbn [negb]. unfold mbind at 1, M_bind at 1, lift at 1.
  unfold mret, M_ret. split; [|split; [|done]].
  - unfold page_of. fold h. rewrite Hcrc, !bool_decide_eq_true_2 by done.
    match goal with H : _ = 0 |- _ => rewrite H end. done.
  - unfold page_size. cbn. assert (zlen (b2z <$> table_at p) = zlen (table_at p)) as -> by (unfold zlen; by rewrite length_fmap). lia.
Qed.

(** What [read_page] reads is the page that starts there. *)
Lemma read_page_cases s : at_file s →
  match read_page s with
  | (Ok page, s') => page_of (pos s) = Some page ∧ pos s' = pos s + page_size page ∧ at_file s'
  | (Err Eof, s') => file_len <= pos s ∧ at_file s'
  | (Err (Invalid _), s') => at_file s'
  | _ => False
  end.
Proof.
  intros Hs. unfold read_page, fill, PAGE_HEADER_SIZE_BYTES.
  destruct (fill_cases (S (Z.to_nat 27)) 27 s Hs ltac:(lia)) as (h & stop & s1 & E1 & Hp1 & Hh & Hle & _ & _ & _ & Hstop).
  unfold mbind at 1, M_bind at 1, on_err at 1. rewrite E1. cbn [map_err].
  pose proof (zlen_nonneg h). unfold at_file in Hs. assert (at_file s1) as Hs1 by (unfold at_file; lia).
  set (rest := if bool_decide (h = []) then _ else _).
  assert (stop ≠ Full ∨ zlen h = 27) as Hfull by (destruct stop; [right; lia|by left..]).
  assert (match rest s1 with
  | (Ok page, s') => page_of (pos s) = Some page ∧ pos s' = pos s + page_size page ∧ at_file s'
  | (Err Eof, s') => h = [] ∧ at_file s'
  | (Err (Invalid _), s') => at_file s'
  | _ => False
  end) as Hrest.
  { unfold rest. case_bool_decide as Hnil; [done|]. destruct (Z.ltb_spec (zlen h) 27); [done|].
    assert (zlen h = 27) as Hl by lia. rewrite Hl in Hh, Hp1. rewrite Hh.
    pose proof (page_after_cases (pos s) s1 Hs1 Hp1 Hs ltac:(by rewrite <-Hh)) as Hc.
    by destruct (page_after _ s1) as [[page|[|m]| |] s2]. }
  clearbody rest. destruct stop as [| |e]; [| |done]; destruct (rest s1) as [[page|[|m]| |] s2]; try done;
    destruct Hrest as [-> ?]; change (zlen []) with 0 in *; (split; [lia|done]).
Qed.
End Pages.

(** ** One stream, read twice *)

(** The scan of pages already read. *)
Fixpoint scan_pages (header_packets : Z) (s : Scan) (ps : list Page) : outcome str Scan :=
  match ps with
  | [] => Ok s
  | page :: ps => s ← scan_page header_packets s page; scan_pages header_packets s ps
  end.

(** The packets of pages already read. *)
Fixpoint packets_of (ps : list Page) (partial : list byte) : outcome str (list OggPacket) :=
  match ps with
  | [] => Ok []
  | page :: ps =>
      '(on_page, partial) ← cut (granule page) (segments page) 0 (payload page) partial;
      more ← packets_of ps partial;
      Ok (mark_last (has_flag (header_type page) END_OF_STREAM_FLAG) on_page ++ more)
  end.

(** The bytes of the packets after the first [n]. *)
Definition bytes_after (n : nat) (ps : list OggPacket) : Z :=
  foldr (λ p, Z.add (zlen (packet_data p))) 0 (drop n ps).

Lemma scan_segment_returns hp s segment : returns (scan_segment hp s segment).
Proof. unfold scan_segment. by repeat case_match. Qed.

Lemma scan_segments_returns hp s segs : returns (scan_segments hp s segs).
Proof.
  revert s. induction segs as [|g segs IH]; intros s; [done|]. cbn [scan_segments].
  apply returns_bind; [apply scan_segment_returns|auto].
Qed.

Lemma scan_page_returns hp s page : returns (scan_page hp s page).
Proof.
  unfold scan_page. apply returns_bind; [unfold validate_continuity; by repeat case_match|]. intros _ _.
  apply returns_bind; [apply scan_segments_returns|done].
Qed.

Section Streams.
Context `{World}.

Lemma next_page_cases {E} (f : str → E) s : at_file s →
  match next_page f s with
  | (Ok (Some page), s') => page_of (pos s) = Some page ∧ pos s' = pos s + page_size page ∧ at_file s'
  | (Ok None, s') => file_len <= pos s ∧ at_file s'
  | (Err _, s') => at_file s'
  | _ => False
  end.
Proof.
  intros Hs. pose proof (read_page_cases s Hs) as Hr. unfold next_page.
  by destruct (read_page s) as [[page|[|m]| |] s'].
Qed.

Lemma page_size_pos p page : 0 <= p → page_of p = Some page → 27 <= page_size page ∧ p + page_size page <= file_len.
Proof.
  intros Hp Hpage. split; [|by apply page_of_inside]. unfold page_size.
  pose proof (zlen_nonneg (segments page)). pose proof (zlen_nonneg (payload page)). lia.
Qed.

(** [analyze]'s loop scans the pages of the file. *)
Lemma scan_loop_cases fuel hp v s : at_file s → Z.max 0 (file_len - pos s) < Z.of_nat fuel →
  match scan_loop fuel hp v s with
  | (Ok v', s') => at_file s' ∧ ∃ ps, pages_at (pos s) ps ∧ scan_pages hp v ps = Ok v'
  | (Err _, s') => at_file s'
  | _ => False
  end.
Proof.
  revert v s. induction fuel as [|fuel IH]; intros v s Hs Hf; [lia|]. cbn [scan_loop].
  unfold mbind at 1, M_bind at 1, on_err at 1, poll. cbn [map_err]. destruct (is_cancelled (polls s)); [done|].
  set (s1 := mkIo (pos s) (ops s) (S (polls s)) (reported s)). unfold mbind at 1, M_bind at 1.
  pose proof (next_page_cases (λ m, AnalysisInvalid (st "read OGG page: " ++ m)) s1 Hs) as Hn.
  destruct (next_page _ s1) as [[[page|]|e| |] s2]; try done.
  - destruct Hn as (Hpage & Hpos & Hs2). change (pos s1) with (pos s) in *.
    destruct (page_size_pos _ _ Hs Hpage) as [Hsize Hin].
    unfold mbind at 1, M_bind at 1, lift. pose proof (scan_page_returns hp v page) as Hret.
    destruct (scan_page hp v page) as [v1|m| |] eqn:Hscan; try done. cbn [map_err].
    specialize (IH v1 s2 Hs2 ltac:(lia)). destruct (scan_loop fuel hp v1 s2) as [[v2|e| |] s3]; try done.
    destruct IH as [Hs3 (ps & Hps & Hall)]. split; [done|]. exists (page :: ps). split.
    + econstructor; [done|]. by rewrite <-Hpos.
    + cbn [scan_pages]. by rewrite Hscan.
  - destruct Hn as [Hend Hs2]. split; [done|]. exists []. split; [by constructor|done].
Qed.

(** What [analyze] accepts. *)
Lemma analyze_cases hp s : at_file s →
  match analyze hp s with
  | (Ok a, s') => at_file s' ∧ ∃ ps v, pages_at 0 ps ∧ scan_pages hp scan_start ps = Ok v ∧
      incomplete hp v = false ∧ a = analysis v
  | (Err _, s') => at_file s'
  | _ => False
  end.
Proof.
  intros Hs. unfold analyze. unfold mbind at 1, M_bind at 1, on_err at 1, seek.
  destruct (fault (ops s)) as [e|]; [done|]. cbn [map_err]. unfold mbind at 1, M_bind at 1.
  pose proof (scan_loop_cases (S (length file)) hp scan_start (with_pos 0 (one_op s)) ltac:(done)
    ltac:(cbn; unfold file_len, zlen; lia)) as Hl.
  destruct (scan_loop _ _ _ _) as [[v|e| |] s2]; try done. destruct Hl as [Hs2 (ps & Hps & Hv)].
  destruct (incomplete hp v) eqn:Hi; [done|]. split; [done|]. eauto 6.
Qed.
End Streams.

(** ** The analysis counts the packets *)

Definition page_fits (page : Page) : Prop :=
  Forall (λ s, 0 <= s <= 255) (segments page) ∧ foldr Z.add 0 (segments page) = zlen (payload page).

Lemma segments_nonneg segs : Forall (λ s, 0 <= s <= 255) segs → 0 <= foldr Z.add 0 segs.
Proof. induction 1; cbn; lia. Qed.

Lemma bytes_after_nil n : bytes_after n [] = 0.
Proof. unfold bytes_after. by rewrite drop_nil. Qed.

Lemma bytes_after_app n qs rs : bytes_after n (qs ++ rs) = bytes_after n qs + bytes_after (n - length qs) rs.
Proof.
  unfold bytes_after. rewrite drop_app. induction (drop n qs) as [|q l IH]; cbn; [done|]. lia.
Qed.

Lemma bytes_after_nonneg n qs : 0 <= bytes_after n qs.
Proof. unfold bytes_after. induction (drop n qs) as [|q l IH]; cbn; [done|]. pose proof (zlen_nonneg (packet_data q)). lia. Qed.

Lemma bytes_after_le n qs : bytes_after n qs <= bytes_after 0 qs.
Proof.
  unfold bytes_after. rewrite drop_0. revert n. induction qs as [|q qs IH]; intros n; [by rewrite drop_nil|].
  cbn [foldr]. pose proof (zlen_nonneg (packet_data q)). destruct n as [|n]; [done|]. cbn [drop]. specialize (IH n). lia.
Qed.

Lemma length_mark_last eos qs : length (mark_last eos qs) = length qs.
Proof. induction qs as [|q [|q' qs] IH]; [done..|]. cbn [mark_last length] in *. by rewrite IH. Qed.

Lemma mark_last_data eos qs : packet_data <$> mark_last eos qs = packet_data <$> qs.
Proof. induction qs as [|q [|q' qs] IH]; [done..|]. cbn [mark_last fmap list_fmap] in *. by rewrite IH. Qed.

Lemma bytes_after_data n qs rs : packet_data <$> qs = packet_data <$> rs → bytes_after n qs = bytes_after n rs.
Proof.
  intros Hd. apply (f_equal (drop n)) in Hd. rewrite <-!fmap_drop in Hd. unfold bytes_after. revert Hd.
  generalize (drop n qs), (drop n rs). clear. intros l. induction l as [|q l IH]; intros [|r k]; try done.
  cbn. intros [= -> Hd]. by rewrite (IH k).
Qed.

Lemma sub_fits {A} (l : list A) a n : 0 <= a → 0 <= n → a + n <= zlen l → zlen (sub l a n) = n.
Proof. intros Ha Hn Hl. unfold sub, zlen in *. rewrite length_take, length_drop. lia. Qed.

(** A page whose segments fit its payload is cut into packets, and the scan of its
    segments counts them. *)
Lemma cut_scans hp g segs offset data partial_bytes v v' :
  Forall (λ s, 0 <= s <= 255) segs → 0 <= offset → offset + foldr Z.add 0 segs = zlen data →
  zlen partial_bytes = partial v → 0 <= packet_index v → scan_segments hp v segs = Ok v' →
  ∃ qs rest, cut g segs offset data partial_bytes = Ok (qs, rest) ∧ zlen rest = partial v' ∧
    packet_index v' = packet_index v + zlen qs ∧
    encoded_audio_bytes (analysis v') =
      encoded_audio_bytes (analysis v) + bytes_after (Z.to_nat (hp - packet_index v)) qs ∧
    (scan_serial v', expected_sequence v', has_page v', has_eos v', final_granule (analysis v'))
      = (scan_serial v, expected_sequence v, has_page v, has_eos v, final_granule (analysis v)).
Proof.
  intros Hsegs. revert offset partial_bytes v. induction Hsegs as [|x segs Hx Hsegs IH];
    intros offset partial_bytes v Ho Hsum Hpart Hidx; cbn [cut scan_segments foldr] in *.
  { intros [= <-]. exists [], partial_bytes. rewrite bytes_after_nil. split_and!; try done; unfold zlen; cbn; lia. }
  pose proof (segments_nonneg _ Hsegs). rewrite slice_in by lia.
  cbn [mbind outcome_bind]. set (piece := sub data offset (offset + x - offset)).
  assert (zlen piece = x) as Hpiece by (unfold piece; rewrite sub_fits by lia; lia).
  assert (zlen (partial_bytes ++ piece) = partial v + x) as Hlen by (rewrite zlen_app; lia).
  unfold scan_segment. destruct (_ && _) eqn:Hmax; [done|]. unfold MAX_SEGMENT_SIZE in *.
  destruct (Z.ltb_spec x 255) as [Hend|Hend]; intros Hscan; cbn [mbind outcome_bind] in *.
  - edestruct (IH (offset + x) []) as (qs & rest & Hcut & Hr & Hi & He & Hsame); [| | | |exact Hscan|]; [lia|lia|done|cbn;lia|].
    rewrite Hcut. cbn [mbind outcome_bind]. eexists _, rest. split; [done|]. split; [done|]. cbn in Hi, He, Hsame. split; [|split; [|done]].
    + rewrite zlen_cons. lia.
    + rewrite He. destruct (Z.leb_spec hp (packet_index v)) as [Hh|Hh].
      * rewrite !Z2Nat.nonpos by lia. unfold bytes_after. cbn. rewrite !drop_0. lia.
      * replace (Z.to_nat (hp - packet_index v)) with (S (Z.to_nat (hp - (packet_index v + 1)))) by lia.
        unfold bytes_after. cbn [drop]. lia.
  - edestruct (IH (offset + x)) as (qs & rest & Hcut & Hr & Hi & He & Hsame); [| | | |exact Hscan|]; [lia|lia|done|done|].
    rewrite Hcut. by eexists qs, rest.
Qed.

(** The scan of the pages counts the packets of the pages. *)
Lemma pages_scan hp ps partial_bytes v v' : Forall page_fits ps →
  zlen partial_bytes = partial v → 0 <= packet_index v → scan_pages hp v ps = Ok v' →
  ∃ qs, packets_of ps partial_bytes = Ok qs ∧ packet_index v' = packet_index v + zlen qs ∧
    encoded_audio_bytes (analysis v') =
      encoded_audio_bytes (analysis v) + bytes_after (Z.to_nat (hp - packet_index v)) qs.
Proof.
  intros Hps. revert partial_bytes v. induction Hps as [|page ps [Hsegs Hfit] _ IH]; intros partial_bytes v Hpart Hidx;
    cbn [scan_pages packets_of].
  { intros [= <-]. exists []. rewrite bytes_after_nil. split_and!; try done; unfold zlen; cbn; lia. }
  unfold scan_page. destruct (validate_continuity page v) as [[]|m| |]; try done. cbn [mbind outcome_bind].
  match goal with |- context [scan_segments hp ?v0 _] => set (v1 := v0) end.
  destruct (scan_segments hp v1 (segments page)) as [v2|m| |] eqn:Hscan; try done. cbn [mbind outcome_bind].
  destruct (cut_scans hp (granule page) (segments page) 0 (payload page) partial_bytes v1 v2)
    as (qs & rest & Hcut & Hr & Hi & He & _); [done|done|lia|done|done|done|].
  rewrite Hcut. cbn [mbind outcome_bind]. match goal with |- context [scan_pages hp ?v0 _] => set (v3 := v0) end.
  intros Hrest. assert (partial v3 = partial v2 ∧ packet_index v3 = packet_index v2 ∧
    encoded_audio_bytes (analysis v3) = encoded_audio_bytes (analysis v2)) as (E1 & E2 & E3) by (unfold v3; by case_match).
  cbn [packet_index analysis v1] in Hi, He. pose proof (zlen_nonneg qs).
  destruct (IH rest v3) as (rs & -> & Hi2 & He2); [by rewrite E1|by rewrite E2; lia|done|].
  cbn [mbind outcome_bind]. eexists. split; [done|]. rewrite zlen_app.
  assert (zlen (mark_last (has_flag (header_type page) END_OF_STREAM_FLAG) qs) = zlen qs) as -> by (unfold zlen; by rewrite length_mark_last).
  split; [lia|]. rewrite bytes_after_app, length_mark_last, (bytes_after_data _ _ qs) by apply mark_last_data.
  rewrite He2, E3, E2, He, Hi.
  replace (Z.to_nat (hp - packet_index v) - length qs)%nat with (Z.to_nat (hp - (packet_index v + zlen qs))) by (unfold zlen; lia).
  cbn [v1 analysis packet_index encoded_audio_bytes]. lia.
Qed.

(** The bytes of the packets are inside the pages. *)
Lemma cut_sizes g segs offset data partial_bytes qs rest : Forall (λ s, 0 <= s <= 255) segs →
  cut g segs offset data partial_bytes = Ok (qs, rest) →
  zlen qs <= zlen segs ∧ bytes_after 0 qs + zlen rest <= zlen partial_bytes + foldr Z.add 0 segs ∧
  Forall (λ q, packet_granule q = g) qs.
Proof.
  intros Hsegs. revert offset partial_bytes qs rest. induction Hsegs as [|x segs Hx Hsegs IH];
    intros offset partial_bytes qs rest; cbn [cut foldr].
  { intros [= <- <-]. split_and!; cbn; [done|lia|done]. }
  destruct (slice data offset (offset + x)) as [piece|e| |] eqn:Hslice; try done. cbn [mbind outcome_bind].
  apply slice_Ok in Hslice as (Ho & _ & Hl & Hd). assert (zlen piece = x) as Hpiece by (rewrite Hd, sub_fits by lia; lia).
  rewrite zlen_cons. destruct (x <? MAX_SEGMENT_SIZE).
  - destruct (cut g segs _ data []) as [[qs' rest']|e| |] eqn:Hcut; try done. cbn [mbind outcome_bind].
    intros [= <- <-]. destruct (IH _ _ _ _ Hcut) as (H1 & H2 & H3). rewrite zlen_cons. split; [lia|]. split; [|by constructor].
    unfold bytes_after in *. rewrite drop_0 in *. cbn. rewrite zlen_app. change (zlen []) with 0 in *. lia.
  - intros Hcut. destruct (IH _ _ _ _ Hcut) as (H1 & H2 & H3). rewrite zlen_app in H2. split_and!; [lia|lia|done].
Qed.

Lemma packets_of_sizes ps partial_bytes qs : Forall page_fits ps → packets_of ps partial_bytes = Ok qs →
  zlen qs + bytes_after 0 qs <= zlen partial_bytes + foldr (λ page, Z.add (page_size page)) 0 ps ∧
  ∀ q, q ∈ qs → ∃ page, page ∈ ps ∧ packet_granule q = granule page.
Proof.
  intros Hps. revert partial_bytes qs. induction Hps as [|page ps [Hsegs Hfit] _ IH]; intros partial_bytes qs; cbn [packets_of foldr].
  { intros [= <-]. pose proof (zlen_nonneg partial_bytes). split; [rewrite bytes_after_nil; change (zlen []) with 0; lia|]. intros q Hq. by apply not_elem_of_nil in Hq. }
  destruct (cut _ _ _ _ _) as [[on_page rest]|e| |] eqn:Hcut; try done. cbn [mbind outcome_bind].
  destruct (cut_sizes _ _ _ _ _ _ _ Hsegs Hcut) as (H1 & H2 & H3).
  destruct (packets_of ps rest) as [more|e| |] eqn:Hmore; try done. cbn [mbind outcome_bind]. intros [= <-].
  destruct (IH _ _ Hmore) as [H4 H5]. set (eos := has_flag _ _).
  rewrite zlen_app, bytes_after_app, (bytes_after_data 0 (mark_last eos on_page) on_page) by apply mark_last_data.
  assert (zlen (mark_last eos on_page) = zlen on_page) as -> by (unfold zlen; by rewrite length_mark_last).
  rewrite Nat.sub_0_l. pose proof (eq_refl : page_size page = 27 + zlen (segments page) + zlen (payload page)). split; [lia|].
  intros q [Hq|Hq]%elem_of_app; [|destruct (H5 q Hq) as (page' & ? & ?); exists page'; split; [by right|done]].
  exists page. split; [by left|]. clear -H3 Hq. induction H3 as [|x [|y l] Hx Hl IH]; [by apply not_elem_of_nil in Hq|..].
  - cbn in Hq. by apply list_elem_of_singleton in Hq as ->.
  - change (q ∈ x :: mark_last eos (y :: l)) in Hq. apply elem_of_cons in Hq as [->|Hq]; auto.
Qed.

(** ** One stream *)

(** The pages of one stream, from its beginning to its end. *)
Definition one_stream (ps : list Page) (last_granule : Z) : Prop :=
  ∃ number, ∀ k page, ps !! k = Some page →
    serial page = number ∧ sequence page = Z.of_nat k mod 2 ^ 32 ∧
    has_flag (header_type page) BEGINNING_OF_STREAM_FLAG = bool_decide (k = 0%nat) ∧
    has_flag (header_type page) END_OF_STREAM_FLAG = bool_decide (S k = length ps) ∧
    (S k = length ps → granule page = last_granule).

Lemma scan_segments_same hp v segs v' : scan_segments hp v segs = Ok v' →
  (scan_serial v', expected_sequence v', has_page v', has_eos v', final_granule (analysis v'))
    = (scan_serial v, expected_sequence v, has_page v, has_eos v, final_granule (analysis v)).
Proof.
  revert v. induction segs as [|x segs IH]; intros v; cbn [scan_segments]; [by intros [= ->]|].
  destruct (scan_segment hp v x) as [v1|m| |] eqn:Hx; try done. cbn [mbind outcome_bind]. intros Hs.
  rewrite (IH _ Hs). unfold scan_segment in Hx. destruct (_ && _); [done|]. by destruct (_ <? _); injection Hx as <-.
Qed.

(** What scanning a page does to the scan, but for its packets. *)
Lemma scan_page_stream hp v page v' : scan_page hp v page = Ok v' →
  has_eos v = false ∧ has_page v' = true ∧
  has_eos v' = has_flag (header_type page) END_OF_STREAM_FLAG ∧
  (has_eos v' = true → final_granule (analysis v') = granule page) ∧
  scan_serial v' = serial page ∧ expected_sequence v' = (sequence page + 1) mod 2 ^ 32 ∧
  has_flag (header_type page) BEGINNING_OF_STREAM_FLAG = negb (has_page v) ∧
  (if has_page v then serial page = scan_serial v ∧ sequence page = expected_sequence v else sequence page = 0).
Proof.
  unfold scan_page. destruct (validate_continuity page v) as [[]|m| |] eqn:Hc; try done. cbn [mbind outcome_bind].
  match goal with |- context [scan_segments hp ?v0 _] => set (v1 := v0) end.
  destruct (scan_segments hp v1 (segments page)) as [v2|m| |] eqn:Hscan; try done. cbn [mbind outcome_bind].
  apply scan_segments_same in Hscan. injection Hscan as Hser Hseq Hpg Heos Hg. cbn [v1 scan_serial expected_sequence has_page has_eos analysis] in *.
  unfold validate_continuity in Hc. destruct (has_eos v) eqn:Hev; [done|].
  destruct (negb (has_page v) && _) eqn:Hfirst; [done|]. destruct (has_page v && _) eqn:Hnext; [done|].
  destruct (negb (Bool.eqb _ _)); [done|]. clear Hc. intros [= <-]. set (bos := has_flag (header_type page) BEGINNING_OF_STREAM_FLAG) in *.
  assert (bos = negb (has_page v) ∧
    (if has_page v then serial page = scan_serial v ∧ sequence page = expected_sequence v else sequence page = 0)) as [Hbos Hcont].
  { destruct (has_page v), bos; cbn in Hfirst, Hnext |- *; bool_to_prop; try done; rewrite ?orb_true_r in *; try done;
      (split; [done|]); bool_to_prop; done. }
  destruct (has_flag (header_type page) END_OF_STREAM_FLAG); cbn; split_and!; try done;
    try (by intros); rewrite ?Hser; destruct (has_page v); try done; destruct Hcont; congruence.
Qed.

(** The pages after the first continue its stream up to the last, which ends it. *)
Lemma scan_pages_continue hp n v ps v' : scan_pages hp v ps = Ok v' →
  has_page v = true → has_eos v' = true → expected_sequence v = n mod 2 ^ 32 → (has_eos v = true → ps = []) ∧
  ∀ k page, ps !! k = Some page →
    serial page = scan_serial v ∧ sequence page = (n + Z.of_nat k) mod 2 ^ 32 ∧
    has_flag (header_type page) BEGINNING_OF_STREAM_FLAG = false ∧
    has_flag (header_type page) END_OF_STREAM_FLAG = bool_decide (S k = length ps) ∧
    (S k = length ps → granule page = final_granule (analysis v')).
Proof.
  revert n v. induction ps as [|page ps IH]; intros n v; cbn [scan_pages]; [by intros|].
  destruct (scan_page hp v page) as [v1|m| |] eqn:Hpage; try done. cbn [mbind outcome_bind]. intros Hscan Hp Heos Hn.
  apply scan_page_stream in Hpage as (Hev & Hp1 & He1 & Hg1 & Hs1 & Hn1 & Hbos & Hc). rewrite Hp in *. destruct Hc as [Hser Hseq].
  split; [by rewrite Hev|].
  assert (expected_sequence v1 = (n + 1) mod 2 ^ 32) as Hn2 by (rewrite Hn1, Hseq, Hn, Z.add_mod_idemp_l; lia).
  destruct (IH (n + 1) v1 Hscan Hp1 Heos Hn2) as [Hlast Hall].
  assert (has_eos v1 = bool_decide (1%nat = S (length ps))) as Hends.
  { destruct ps as [|q ps]; [cbn in Hscan; by injection Hscan as ->|].
    rewrite (bool_decide_eq_false_2 (1%nat = S (length (q :: ps)))) by (cbn; lia).
    destruct (has_eos v1); [by discriminate Hlast|done]. }
  intros [|k] q Hq.
  - injection Hq as <-. rewrite Z.add_0_r, Hseq, Hn. split_and!; [done|done|done|by rewrite <-He1, Hends|].
    intros Hlen. cbn [length] in Hlen. destruct ps; [|done]. cbn in Hscan. injection Hscan as ->. symmetry. by apply Hg1.
  - destruct (Hall k q Hq) as (H1 & H2 & H3 & H4 & H5). rewrite H2. split_and!; [congruence|f_equal; lia|done| |].
    + rewrite H4. cbn [length]. apply bool_decide_ext. lia.
    + cbn [length]. intros ?. apply H5. lia.
Qed.

Lemma scan_one_stream hp ps v : scan_pages hp scan_start ps = Ok v → has_page v = true → has_eos v = true →
  one_stream ps (final_granule (analysis v)).
Proof.
  destruct ps as [|page ps]; cbn [scan_pages]; [by intros [= <-]|].
  destruct (scan_page hp scan_start page) as [v1|m| |] eqn:Hpage; try done. cbn [mbind outcome_bind]. intros Hscan _ Heos.
  apply scan_page_stream in Hpage as (_ & Hp1 & He1 & Hg1 & Hs1 & Hn1 & Hbos & Hseq). cbn in Hbos, Hseq.
  destruct (scan_pages_continue hp 1 v1 ps v Hscan Hp1 Heos) as [Hlast Hall]; [by rewrite Hn1, Hseq|].
  exists (serial page). intros [|k] q Hq.
  - injection Hq as <-. split_and!; [done|done|done| |].
    + rewrite <-He1. destruct ps as [|q ps]; [cbn in Hscan; by injection Hscan as ->|].
      rewrite (bool_decide_eq_false_2 _) by (cbn; lia). destruct (has_eos v1); [by discriminate Hlast|done].
    + intros Hlen. destruct ps; [|done]. cbn in Hscan. injection Hscan as ->. symmetry. by apply Hg1.
  - destruct (Hall k q Hq) as (H1 & H2 & H3 & H4 & H5). rewrite H1, H2. split_and!; [done|f_equal; lia|done| |].
    + rewrite H4. cbn [length]. apply bool_decide_ext. lia.
    + cbn [length]. intros ?. apply H5. lia.
Qed.

(** ** Reading the packets, and decoding them *)

Lemma page_of_fits `{World} p page : page_of p = Some page → page_fits page.
Proof. intros Hpage. apply page_of_sound in Hpage as (Hl & Hs & _). by split. Qed.

Lemma pages_at_fit `{World} p ps : pages_at p ps → Forall page_fits ps.
Proof. induction 1; constructor; [by eapply page_of_fits|done]. Qed.

Lemma pages_at_size `{World} p ps : 0 <= p → pages_at p ps →
  foldr (λ page, Z.add (page_size page)) 0 ps <= Z.max 0 (file_len - p).
Proof.
  intros Hp Hps. revert Hp. induction Hps as [p Hend|p page ps Hpage Hps IH]; intros Hp; cbn [foldr]; [lia|].
  destruct (page_size_pos p page Hp Hpage). specialize (IH ltac:(lia)). lia.
Qed.

Lemma cut_fits page partial_bytes : page_fits page →
  ∃ qs rest, cut (granule page) (segments page) 0 (payload page) partial_bytes = Ok (qs, rest).
Proof.
  intros [Hsegs Hfit]. assert (∀ segs offset partial_bytes, Forall (λ s, 0 <= s <= 255) segs → 0 <= offset →
    offset + foldr Z.add 0 segs <= zlen (payload page) →
    ∃ qs rest, cut (granule page) segs offset (payload page) partial_bytes = Ok (qs, rest)) as Hcut.
  { clear. intros segs offset partial_bytes Hsegs. revert offset partial_bytes.
    induction Hsegs as [|x segs Hx Hsegs IH]; intros offset partial_bytes Ho Hl; cbn [cut foldr] in *; [eauto|].
    pose proof (segments_nonneg _ Hsegs). rewrite slice_in by lia. cbn [mbind outcome_bind].
    destruct (x <? MAX_SEGMENT_SIZE); [|apply IH; lia].
    destruct (IH (offset + x) [] ltac:(lia) ltac:(lia)) as (qs & rest & ->). cbn. eauto. }
  apply Hcut; [done|done|lia].
Qed.

Section Decoding.
Context `{World}.

Lemma ogg_packet_loop_cases fuel partial_bytes s : at_file s → Z.max 0 (file_len - pos s) < Z.of_nat fuel →
  match packet_loop fuel partial_bytes s with
  | (Ok qs, s') => at_file s' ∧ ∃ ps, pages_at (pos s) ps ∧ packets_of ps partial_bytes = Ok qs
  | (Err _, s') => at_file s'
  | _ => False
  end.
Proof.
  revert partial_bytes s. induction fuel as [|fuel IH]; intros partial_bytes s Hs Hf; [lia|]. cbn [packet_loop].
  unfold mbind at 1, M_bind at 1. pose proof (next_page_cases id s Hs) as Hn.
  destruct (next_page id s) as [[[page|]|e| |] s1]; try done.
  - destruct Hn as (Hpage & Hpos & Hs1). destruct (page_size_pos _ _ Hs Hpage).
    destruct (cut_fits page partial_bytes) as (on_page & rest & Hcut); [by eapply page_of_fits|].
    unfold mbind at 1, M_bind at 1, lift at 1. rewrite Hcut. unfold mbind at 1, M_bind at 1.
    specialize (IH rest s1 Hs1 ltac:(lia)). destruct (packet_loop fuel rest s1) as [[more|e| |] s2]; try done.
    destruct IH as (Hs2 & ps & Hps & Hmore). split; [done|]. exists (page :: ps). split.
    + econstructor; [done|]. by rewrite <-Hpos.
    + cbn [packets_of]. rewrite Hcut. cbn [mbind outcome_bind]. by rewrite Hmore.
  - destruct Hn as [Hend Hs1]. split; [done|]. exists []. split; [by constructor|done].
Qed.

Lemma packets_ends : ends (λ qs, ∃ ps, pages_at 0 ps ∧ packets_of ps [] = Ok qs) packets.
Proof.
  intros s Hs. unfold packets, wp. unfold mbind at 1, M_bind at 1, on_err at 1, seek.
  destruct (fault (ops s)) as [e|]; [done|]. cbn [map_err].
  pose proof (ogg_packet_loop_cases (S (length file)) [] (with_pos 0 (one_op s)) ltac:(done) ltac:(cbn; unfold file_len, zlen; lia)) as Hl.
  by destruct (packet_loop _ _ _) as [[qs|e| |] s'].
Qed.

(** A decoder that answers with the samples of a packet, which are at most 8192. *)
Definition vorbis_answers `{VorbisLib} : Prop :=
  ∀ h, match vorbis_decode h with Ok n => 0 <= n <= 8192 | Err _ => True | _ => False end.

(** A granule position within 2^60 samples of zero. *)
Definition near_zero (granule : Z) : Prop := Z.abs (as_i64 granule) <= 2 ^ 60.
Definition near (p : OggPacket) : Prop := near_zero (packet_granule p).

(** A frame never adds more than was decoded; only positions far from zero panic. *)
Lemma place_packet_cases p frames v t : 0 <= frames <= 8192 → 0 <= decoded v <= t → t <= 2 ^ 60 →
  match place_packet p frames v with
  | Ok None => frames = 0
  | Ok (Some (_, v')) => 0 <= decoded v' <= t + 8192 ∧
      (near p → Z.abs (position v) <= 2 ^ 60 + t → Z.abs (position v') <= 2 ^ 60 + t + 8192)
  | Err _ => True
  | Panic => near p → Z.abs (position v) <= 2 ^ 60 + t → False
  | OutOfFuel => False
  end.
Proof.
  unfold near, near_zero, place_packet. intros Hf Hd Ht. set (g := as_i64 (packet_granule p)).
  assert (i64_min = - 2 ^ 63) as Hmin by done. assert (i64_max = 2 ^ 63 - 1) as Hmax by done.
  pose proof (add_i64_cases (E:=Failure) (position v) frames) as Hnow.
  destruct (add_i64 (position v) frames) as [now|e| |]; try done; cbn [mbind outcome_bind i64_result] in *; [|lia].
  destruct Hnow as [-> _]. destruct (negb (started v) && (frames =? 0)) eqn:Hnone; [by bool_to_prop|].
  set (placed := if is_last p then _ else _).
  assert (match placed with
    | Ok (f, now) => f <= 8192 ∧ (Z.abs g <= 2 ^ 60 → Z.abs (position v) <= 2 ^ 60 + t → - 2 ^ 62 <= f ∧ Z.abs now <= 2 ^ 60 + t + 8192)
    | Panic => Z.abs g <= 2 ^ 60 → Z.abs (position v) <= 2 ^ 60 + t → False
    | _ => False end) as H1.
  { unfold placed. destruct (is_last p); [|lia]. pose proof (sub_i64_cases (E:=Failure) (position v + frames) g) as Hs.
    destruct (sub_i64 _ _) as [d|e| |]; try done; cbn [mbind outcome_bind i64_result] in *; [|lia].
    destruct Hs as [-> _]. destruct (Z.ltb_spec 0 (position v + frames - g)); lia. }
  destruct placed as [[f now]|e| |]; try done; cbn [mbind outcome_bind]. destruct H1 as [Hf1 H1].
  set (placed2 := if negb (started v) && _ then _ else _).
  assert (match placed2 with
    | Ok (f, now) => f <= 8192 ∧ (Z.abs g <= 2 ^ 60 → Z.abs (position v) <= 2 ^ 60 + t → Z.abs now <= 2 ^ 60 + t + 8192)
    | Panic => Z.abs g <= 2 ^ 60 → Z.abs (position v) <= 2 ^ 60 + t → False
    | _ => False end) as H2.
  { unfold placed2. destruct (negb (started v) && last_on_page p); [|split; [done|intros ??; by apply H1]].
    pose proof (sub_i64_cases (E:=Failure) g now) as Hs.
    destruct (sub_i64 _ _) as [d|e| |]; try done; cbn [mbind outcome_bind i64_result] in *; [|lia].
    destruct Hs as [-> _]. destruct (Z.ltb_spec (g - now) 0); cbn [mbind outcome_bind]; [|lia].
    pose proof (add_i64_cases (E:=Failure) f (g - now)) as Ha.
    destruct (add_i64 _ _) as [d|e| |]; try done; cbn [mbind outcome_bind i64_result] in *; [|lia].
    destruct Ha as [-> _]. lia. }
  destruct placed2 as [[f2 now2]|e| |]; try done; cbn [mbind outcome_bind]. destruct H2 as [Hf2 H2].
  destruct (Z.ltb_spec f2 0); [done|]. rewrite add_i64_Ok by lia. cbn. auto with lia.
Qed.
End Decoding.

Section Accepted.
Context `{World, Unicode, Base64, Images, Flac.HashOrder, VorbisLib, Tools}.

Lemma vorbis_loop_ends C b ps history v length size t : vorbis_answers →
  C ∨ Forall near ps ∧ Z.abs (position v) <= 2 ^ 60 + t →
  0 <= decoded v <= t → t + 8192 * zlen ps <= 2 ^ 60 →
  ends_or C (λ d, 0 <= d <= t + 8192 * zlen ps ∧
    ∀ k, (k < List.length ps)%nat → ∃ n, vorbis_decode (history ++ take (S k) (packet_data <$> ps)) = Ok n)
  (vorbis_loop b ps history v length size).
Proof.
  intros Hlib. revert b history v t. induction ps as [|p ps IH]; intros b history v t Hnear Hd Ht; cbn [vorbis_loop].
  { apply ends_ret. split; [unfold zlen; cbn; lia|]. intros k Hk. cbn in Hk. lia. }
  rewrite zlen_cons in *. pose proof (zlen_nonneg ps). eapply ends_bind; [apply ends_any, check_keeps|]. intros _ _.
  pose proof (Hlib (history ++ [packet_data p])) as Hdec.
  destruct (vorbis_decode (history ++ [packet_data p])) as [n|e| |] eqn:Hn; cbn [map_err]; [|apply ends_fail|done..].
  apply ends_lift_bind. set (frames := if b then 0 else n).
  assert (0 <= frames <= 8192) as Hframes by (unfold frames; destruct b; lia).
  assert (∀ v' t', C ∨ Forall near ps ∧ Z.abs (position v') <= 2 ^ 60 + t' →
    0 <= decoded v' <= t' → t' + 8192 * zlen ps <= t + 8192 * (1 + zlen ps) →
    ends_or C (λ d, 0 <= d <= t + 8192 * (1 + zlen ps) ∧
      ∀ k, (k < S (List.length ps))%nat → ∃ n, vorbis_decode (history ++ take (S k) (packet_data <$> p :: ps)) = Ok n)
    (vorbis_loop false ps (history ++ [packet_data p]) v' length size)) as Hrest.
  { intros v' t' Hn' Hd' Ht'. eapply ends_weaken; [apply (IH false _ v' t'); [done|done|lia]|].
    intros d [Hd2 Hall]. split; [lia|]. intros [|k] Hk; [by exists n|].
    destruct (Hall k ltac:(lia)) as [m Hm]. exists m. rewrite <-Hm, <-app_assoc. done. }
  pose proof (place_packet_cases p frames v t Hframes Hd ltac:(lia)) as Hplace.
  destruct (place_packet p frames v) as [[[f v']|]|e| |]; [| |apply ends_fail| |done].
  - apply ends_lift_bind. destruct Hplace as [Hd' Hpos'].
    eapply ends_bind; [apply ends_any, Flac.report_bytes_keeps; lia|]. intros _ _.
    apply (Hrest v' (t + 8192)); [|lia..].
    destruct Hnear as [HC|[[Hp Hps]%Forall_cons Hpos]]; [by left|right]. specialize (Hpos' Hp Hpos). split; [done|lia].
  - apply ends_lift_bind. apply (Hrest _ t); cbn; [|lia..].
    destruct Hnear as [HC|[[Hp Hps]%Forall_cons Hpos]]; [by left|right]. split; [done|lia].
  - apply ends_panic_bind. destruct Hnear as [HC|[[Hp Hps]%Forall_cons Hpos]]; [done|]. by destruct (Hplace Hp Hpos).
Qed.

(** The samples of Opus packets. *)
Definition opus_samples (qs : list OggPacket) : option Z :=
  foldr (λ q total, n ← opus_packet_samples (packet_data q); m ← total; Some (n + m)) (Some 0) qs.

Lemma opus_packet_bound d n : opus_packet_samples d = Some n → 0 <= n <= 5760.
Proof.
  destruct d as [|toc rest]; [done|]. cbn [opus_packet_samples]. set (fs := if _ <=? 11 then _ else _).
  assert (0 <= fs) as Hfs.
  { unfold fs. repeat case_match; (destruct (Z.to_nat _) as [|[|[|[|i]]]]; cbn; try lia; by destruct i). }
  match goal with |- (?f ≫= _) = _ → _ => destruct f as [frames|]; [|done] end. cbn [mbind option_bind].
  destruct (_ && _) eqn:Hc; [|done]. intros [= <-]. bool_to_prop. nia.
Qed.

Lemma opus_loop_ends qs samples bytes last size : 0 <= samples → samples + 5760 * zlen qs <= 2 ^ 60 →
  0 <= bytes → bytes + bytes_after 0 qs <= 2 ^ 56 →
  ends (λ r, ∃ n, opus_samples qs = Some n ∧ 0 <= n <= 5760 * zlen qs ∧ r.1.1 = samples + n ∧ r.1.2 = bytes + bytes_after 0 qs)
    (opus_loop qs samples bytes last size).
Proof.
  revert samples bytes last. induction qs as [|q qs IH]; intros samples bytes last Hs Hsum Hb Hbsum; cbn [opus_loop].
  { apply ends_ret. exists 0. rewrite bytes_after_nil. split_and!; try done; cbn; lia. }
  rewrite zlen_cons in *. pose proof (zlen_nonneg qs).
  assert (bytes_after 0 (q :: qs) = zlen (packet_data q) + bytes_after 0 qs) as Hba by done. rewrite Hba in *.
  pose proof (zlen_nonneg (packet_data q)). pose proof (bytes_after_nonneg 0 qs).
  eapply ends_bind; [apply ends_any, check_keeps|]. intros _ _.
  destruct (opus_packet_samples (packet_data q)) as [n|] eqn:Hn; [|apply ends_fail].
  apply opus_packet_bound in Hn as Hnb. cbn [ok_or]. apply ends_lift_bind.
  rewrite add_u64_Ok by (unfold u64_max; lia). apply ends_lift_bind.
  rewrite add_i64_Ok by (unfold i64_min, i64_max; lia). apply ends_lift_bind.
  eapply ends_bind; [apply ends_any, Flac.report_bytes_keeps; lia|]. intros _ _.
  eapply ends_weaken; [apply IH; lia|]. intros [[sm by_] lst] (m & Hm & Hmb & E1 & E2). cbn in E1, E2 |- *.
  exists (n + m). unfold opus_samples in Hm. rewrite Hn. cbn [mbind option_bind]. rewrite Hm. cbn. split_and!; try done; lia.
Qed.

Lemma decode_unreported_ends path map action :
  ends (λ _, succeeded (decode_command path map)) (decode_to_end path map action None).
Proof.
  unfold decode_to_end. destruct (spawn_error _) as [cause|] eqn:Hspawn; [apply ends_fail|].
  apply (ends_bind (λ _, True)).
  { generalize 0. induction (stdout_lines _) as [|line ls IH]; intros d; cbn [progress_loop]; [by apply ends_ret|].
    eapply ends_bind; [apply poll_ends|]. intros stop _. apply ends_if; intros _; [by apply ends_ret|].
    destruct line as [line|]; [|by apply ends_ret]. case_match; apply IH. }
  intros [d stopped] _. apply (ends_bind (λ _, True)); [destruct stopped; [by apply ends_ret|apply poll_ends]|]. intros killed _.
  eapply ends_bind; [apply poll_ends|]. intros stop _. apply ends_if; intros _; [apply ends_fail|].
  destruct stopped as [f|]; [apply ends_fail|]. destruct (ended _ killed) as [cause|status] eqn:Hended; [apply ends_fail|].
  apply ends_if; intros Hok; [|apply ends_fail]. bool_to_prop. subst. apply ends_ret. split; eauto.
Qed.

(** The technical values of Vorbis packets: the identification and setup headers
    open the decoder, every packet after the three headers decodes, and the samples
    are those of the last granule. *)
Definition vorbis_audio (qs : list OggPacket) (a : Analysis) (t : TechnicalAudio) : Prop :=
  ∃ p0 p1 p2 audio, qs = p0 :: p1 :: p2 :: audio ∧
    let ident := packet_data p0 in
    let channels := b2z (nth 11 ident x00) in
    let rate := le (sub ident 12 4) in
    let duration := Z.quot (as_i64 (final_granule a) * 1000) rate in
    let bitrate := (encoded_audio_bytes a * 8 + duration / 2) / duration in
    vorbis_decoder (ident ++ packet_data p2) = None ∧
    (∀ k, (k < List.length audio)%nat → ∃ n, vorbis_decode (take (S k) (packet_data <$> audio)) = Ok n) ∧
    0 < channels ∧ 0 < rate ∧ 0 < as_i64 (final_granule a) ∧ 0 < duration ∧ 0 < bitrate ∧
    t = mkAudio (st "ogg") (st "ogg") (st "vorbis") duration rate channels 0 bitrate.

(** Those of Opus packets: ffmpeg decoded them to the end, and the samples of the
    last granule after the pre-skip are in the packets. *)
Definition opus_audio (path : str) (qs : list OggPacket) (head : OpusHead) (a : Analysis) (t : TechnicalAudio) : Prop :=
  ∃ samples, opus_samples (drop 2 qs) = Some samples ∧ succeeded (decode_command path (st "0:a:0")) ∧
    pre_skip head < final_granule a <= samples ∧
    let duration := (final_granule a - pre_skip head) * 1000 / OPUS_SAMPLE_RATE_HZ in
    let bitrate := (encoded_audio_bytes a * 8 + duration / 2) / duration in
    0 < duration ∧ 0 < bitrate ∧
    t = mkAudio (st "opus") (st "ogg") (st "opus") duration OPUS_SAMPLE_RATE_HZ (head_channels head) 0 bitrate.

Definition small (qs : list OggPacket) : Prop := zlen qs + bytes_after 0 qs <= 2 ^ 40.

(** Sizes and times that a small file has leave the bitrate room. *)
Lemma bitrate_ends C (encoded duration : Z) (P : TechnicalAudio → Prop) (f : Z → M Io Failure TechnicalAudio) :
  encoded <= 2 ^ 40 → 0 < duration <= 2 ^ 63 →
  (∀ n, 0 < n → n = (encoded * 8 + duration / 2) / duration → ends_or C P (f n)) →
  (∀ n, n <= 0 → ends_or C P (f n)) →
  ends_or C P (n ← lift (average_bitrate_kbps encoded duration); f n).
Proof.
  intros He Hd Hok Hbad. destruct (Z.leb_spec encoded 0) as [Hneg|Hpos].
  { unfold average_bitrate_kbps. rewrite (proj2 (Z.leb_le encoded 0)) by done. apply ends_lift_bind, Hbad. lia. }
  pose proof (average_bitrate_cases (E:=Failure) encoded duration Hpos ltac:(lia)) as Hb.
  assert (duration / 2 <= 2 ^ 62) by (apply Z.div_le_upper_bound; lia).
  destruct (average_bitrate_kbps encoded duration) as [n|e| |]; try done; [|unfold i64_max in Hb; lia].
  apply ends_lift_bind. destruct (Z.leb_spec n 0); [by apply Hbad|by apply Hok].
Qed.

Lemma decode_vorbis_ends C p0 p1 p2 audio size a : let qs := p0 :: p1 :: p2 :: audio in
  vorbis_answers → C ∨ Forall near qs → small qs → encoded_audio_bytes a <= 2 ^ 40 → 0 <= size <= 2 ^ 40 →
  16 <= zlen (packet_data p0) →
  ends_or C (vorbis_audio qs a) (decode_vorbis qs size a).
Proof.
  intros qs Hlib Hnear Hsmall Henc Hsize Hident. unfold decode_vorbis.
  change (@index Failure _ qs 0) with (@Ok Failure _ p0). change (@index Failure _ qs 2) with (@Ok Failure _ p2). do 2 apply ends_lift_bind. set (ident := packet_data p0) in *.
  destruct (vorbis_decoder _) as [e|] eqn:Hopen; [apply ends_fail|].
  rewrite (index_nth ident 11 (zlen ident)), slice_in by (done || lia). do 2 apply ends_lift_bind.
  change (Z.to_nat 11) with 11%nat. change (16 - 12) with 4. set (ch := b2z (nth 11 ident x00)). set (rate := le (sub ident 12 4)).
  apply ends_if; intros Hpos; [apply ends_fail|]. bool_to_prop.
  unfold small, qs in Hsmall. rewrite !zlen_cons in Hsmall. pose proof (zlen_nonneg audio). pose proof (bytes_after_nonneg 0 qs) as Hnn.
  unfold qs in Hnn. eapply ends_bind.
  { apply (vorbis_loop_ends C true audio [] (mkPos 0 0 false) _ size 0 Hlib); [|cbn; lia..].
    destruct Hnear as [HC|Hnear]; [by left|right]. split; [|cbn; lia]. by do 3 apply Forall_cons in Hnear as [_ Hnear]. }
  intros d [Hd Hall]. apply ends_if; intros Hlen; [apply ends_fail|]. apply orb_false_iff in Hlen as [Hlen Heq%negb_false_iff]. bool_to_prop. rewrite !Heq in *.
  rewrite mul_i64_Ok by (unfold i64_min, i64_max; lia). apply ends_lift_bind.
  set (duration := Z.quot _ _). assert (duration <= 2 ^ 63) as Hmax.
  { unfold duration. rewrite Z.quot_div_nonneg by lia. apply Z.div_le_upper_bound; nia. }
  destruct (Z.leb_spec duration 0) as [Hneg|Hdur].
  { unfold average_bitrate_kbps. rewrite (proj2 (Z.leb_le duration 0)), orb_true_r by done. apply ends_lift_bind, ends_fail. }
  apply bitrate_ends; [done|lia| |intros n Hn; rewrite (proj2 (Z.leb_le n 0)) by done; rewrite ?orb_true_r; apply ends_fail].
  intros n Hn En. rewrite (proj2 (Z.leb_gt n 0)) by done. cbn [orb].
  eapply ends_bind; [apply ends_any, Flac.report_bytes_keeps; lia|]. intros _ _. apply ends_ret. subst n.
  exists p0, p1, p2, audio. split_and!; try done; lia.
Qed.

Lemma decode_opus_ends path p0 p1 audio size a head : let qs := p0 :: p1 :: audio in
  small qs → encoded_audio_bytes a <= 2 ^ 40 → 0 <= size <= 2 ^ 40 → 0 <= pre_skip head →
  ends (opus_audio path qs head a) (decode_opus qs head size a path).
Proof.
  intros qs Hsmall Henc Hsize Hskip. unfold decode_opus, small in *. pose proof (zlen_nonneg audio).
  assert (bytes_after 0 qs = zlen (packet_data p0) + (zlen (packet_data p1) + bytes_after 0 audio)) as Hb by done.
  pose proof (zlen_nonneg (packet_data p0)). pose proof (zlen_nonneg (packet_data p1)). pose proof (bytes_after_nonneg 0 audio).
  unfold qs in Hsmall at 1. rewrite !zlen_cons in Hsmall.
  unfold slice_from. rewrite slice_in by (unfold qs; rewrite ?zlen_cons; lia).
  assert (sub qs 2 (zlen qs - 2) = audio) as ->.
  { unfold sub, qs. rewrite !zlen_cons. cbn [drop Z.to_nat]. change (Pos.to_nat 2) with 2%nat. cbn [drop].
    apply take_ge. unfold zlen. lia. }
  apply ends_lift_bind. eapply ends_bind; [apply opus_loop_ends; lia|].
  intros [[samples bytes] last] (n & Hn & Hnb & E1 & E2). cbn [fst snd] in E1, E2. rewrite Z.add_0_l in E1. subst samples.
  apply ends_if; intros Hagree; [apply ends_fail|].
  eapply ends_bind; [apply decode_unreported_ends|]. intros us Hdec. cbn beta in Hdec.
  apply ends_if; intros Hg; [apply ends_fail|]. bool_to_prop.
  rewrite sub_u64_Ok by lia. apply ends_lift_bind.
  rewrite mul_u64_Ok by (unfold u64_max; lia). apply ends_lift_bind.
  assert (0 <= (final_granule a - pre_skip head) * 1000 / OPUS_SAMPLE_RATE_HZ <= 2 ^ 60) as Hdur.
  { split; [apply Z.div_pos; [lia|done]|apply Z.div_le_upper_bound; [done|unfold OPUS_SAMPLE_RATE_HZ; lia]]. }
  rewrite as_i64_id by (unfold is_i64, i64_min, i64_max; lia). set (duration := _ / OPUS_SAMPLE_RATE_HZ) in *.
  destruct (Z.leb_spec duration 0) as [Hneg|Hpos].
  { unfold average_bitrate_kbps. rewrite (proj2 (Z.leb_le duration 0)), orb_true_r by done. apply ends_lift_bind, ends_fail. }
  apply bitrate_ends; [lia|lia| |intros r Hr; rewrite (proj2 (Z.leb_le r 0)) by done; rewrite ?orb_true_r; apply ends_fail].
  intros r Hr Er. rewrite (proj2 (Z.leb_gt r 0)) by done. cbn [orb].
  eapply ends_bind; [apply ends_any, Flac.report_bytes_keeps; lia|]. intros _ _. apply ends_ret. subst r.
  exists n. change (drop 2 qs) with audio. split_and!; try done; lia.
Qed.

(** ** What an inspection accepts *)

Definition header_packets (codec : Codec) : Z := match codec with Vorbis => 3 | Opus => 2 end.

(** The codec that the first page announces. *)
Definition ogg_codec (page : Page) : option Codec :=
  packet ← ok_of (identification (segments page) 0 (payload page));
  if bytes_prefix (x01 :: bs "vorbis") packet then Some Vorbis
  else if bytes_prefix (bs "OpusHead") packet then Some Opus
  else None.

Definition opus_head (d : list byte) : OpusHead :=
  mkHead (b2z (nth 8 d x00)) (b2z (nth 9 d x00)) (le (sub d 10 2)) (b2z (nth 18 d x00)).

Definition ogg_comments (codec : Codec) (comment : list byte) : outcome str (list str) :=
  match codec with
  | Vorbis => Ok (if b2z (nth 0 comment x00) =? 3 then lenient_vorbis_comments (drop 7 comment) else [])
  | Opus => parse_comment_payload (drop 8 comment)
  end.

Definition ogg_audio (codec : Codec) (path : str) (qs : list OggPacket) (a : Analysis) (t : TechnicalAudio) : Prop :=
  match codec with
  | Vorbis => vorbis_audio qs a t
  | Opus => ∃ p rest, qs = p :: rest ∧ let head := opus_head (packet_data p) in
      version head = 1 ∧ 0 < head_channels head <= 2 ∧ mapping head = 0 ∧ opus_audio path qs head a t
  end.

(** The metadata, the artwork and the technical values are those of the packets. *)
Definition packets_accepted (codec : Codec) (path : str) (qs : list OggPacket) (a : Analysis) (i : MediaInspection) : Prop :=
  ∃ comments tags, ogg_comments codec (comment_packet qs) = Ok comments ∧ collect_comment_tags comments = Ok tags ∧
    metadata_and_artwork tags = (Ok (inspected i), Ok (album_artwork i)) ∧ well_formed tags (inspected i) ∧
    ogg_audio codec path qs a (audio i).

Definition ogg_accepted (path : str) (i : MediaInspection) : Prop :=
  file_sha256 i = sha256_hex file ∧
  ∃ codec page ps qs a, pages_at 0 (page :: ps) ∧ ogg_codec page = Some codec ∧
    one_stream (page :: ps) (final_granule a) ∧ packets_of (page :: ps) [] = Ok qs ∧
    header_packets codec < zlen qs ∧
    encoded_audio_bytes a = bytes_after (Z.to_nat (header_packets codec)) qs ∧ 0 < encoded_audio_bytes a ∧
    packets_accepted codec path qs a i.

Lemma identification_returns segs size data : Forall (λ s, 0 <= s <= 255) segs → 0 <= size →
  size + foldr Z.add 0 segs <= zlen data → returns (identification segs size data).
Proof.
  intros Hsegs. revert size. induction Hsegs as [|x segs Hx Hsegs IH]; intros size Hs Hl; cbn [identification foldr] in *; [done|].
  pose proof (segments_nonneg _ Hsegs). destruct (x <? MAX_SEGMENT_SIZE); [by rewrite slice_in by lia|apply IH; lia].
Qed.

Lemma detect_codec_cases s : at_file s →
  match detect_codec s with
  | (Ok codec, s') => at_file s' ∧ ∃ page, page_of (pos s) = Some page ∧ ogg_codec page = Some codec
  | (Err _, s') => at_file s'
  | _ => False
  end.
Proof.
  intros Hs. unfold detect_codec. unfold mbind at 1, M_bind at 1, on_err at 1. pose proof (read_page_cases s Hs) as Hr.
  destruct (read_page s) as [[page|[|m]| |] s1]; try done; cbn [map_err]; [|by destruct Hr].
  destruct Hr as (Hpage & _ & Hs1). destruct (page_of_fits _ _ Hpage) as [Hsegs Hfit].
  pose proof (identification_returns (segments page) 0 (payload page) Hsegs ltac:(lia) ltac:(lia)) as Hi.
  unfold mbind at 1, M_bind at 1, lift at 1.
  assert (∀ c, ogg_codec page = Some c → at_file s1 ∧ ∃ q, page_of (pos s) = Some q ∧ ogg_codec q = Some c) as Hgoal by eauto.
  unfold ogg_codec in Hgoal at 1. destruct (identification _ _ _) as [packet|m| |]; try done. cbn [ok_of mbind option_bind] in Hgoal.
  repeat (case_match; [by apply Hgoal|]). done.
Qed.

Lemma picture_returns values : images_return → returns (picture_comments_artwork values).
Proof.
  intros Hi. unfold picture_comments_artwork. apply returns_bind.
  - generalize (@None Flac.Picture). induction values as [|value values IH]; intros cover; cbn [front_cover_of]; [done|].
    apply returns_bind.
    + apply returns_map_err. unfold decode_picture_comment. case_match; [done|]. destruct (base64_decode value) as [|data]; [done|].
      apply returns_bind; [apply Flac.parse_picture_returns|]. intros picture _. by case_match.
    + intros picture _. case_match; [done|]. case_match; [done|]. apply IH.
  - intros [picture|] _; [by apply validate_returns|done].
Qed.

Lemma finish_cases normalized artwork t : returns normalized → returns artwork → returns t →
  match finish normalized artwork t with
  | Ok i => normalized = Ok (inspected i) ∧ artwork = Ok (album_artwork i) ∧ t = Ok (audio i)
  | Err _ => True
  | _ => False
  end.
Proof.
  intros Hn Ha Ht. unfold finish. pose proof (returns_into_result (fjoin [err_of normalized; err_of artwork])) as Hr.
  destruct t as [t|f| |]; try done. destruct (into_result _) as [[]|g| |]; try done. cbn [mbind outcome_bind].
  destruct normalized as [m|g| |], artwork as [a|g'| |]; done.
Qed.

(** The end of both inspections. *)
Lemma finish_ends codec path qs a comments tags audio : images_return →
  ogg_comments codec (comment_packet qs) = Ok comments → collect_comment_tags comments = Ok tags →
  match audio with Ok t => ogg_audio codec path qs a t | Err _ => True | _ => False end →
  ends (packets_accepted codec path qs a)
    (let '(normalized, artwork) := metadata_and_artwork tags in lift (finish normalized artwork audio)).
Proof.
  intros Hi Hcom Htags Haud. unfold metadata_and_artwork.
  pose proof (normalize_cases tags (replay_gain_from_tags (Flac.entries tags))) as Hn.
  set (normalized := normalize _ _) in *. set (artwork := optional_artwork _).
  assert (returns artwork) as Ha by (by apply returns_optional_artwork, picture_returns).
  pose proof (finish_cases normalized artwork audio ltac:(by destruct normalized) Ha ltac:(by destruct audio)) as Hf.
  apply ends_lift; [|by destruct (finish _ _ _)]. intros i Hfin. rewrite Hfin in Hf. destruct Hf as (E1 & E2 & E3).
  rewrite E1 in Hn. rewrite E3 in Haud. exists comments, tags. unfold metadata_and_artwork. fold normalized artwork.
  split_and!; [done|done|by rewrite E1, E2|apply Hn|done].
Qed.

Lemma packets_are ps qs : pages_at 0 ps → packets_of ps [] = Ok qs → ends (eq qs) packets.
Proof.
  intros Hps Hqs. eapply ends_weaken; [apply packets_ends|]. intros qs' (ps' & Hps' & Hqs').
  rewrite <-(pages_at_unique 0 ps ps') in Hqs' by done. congruence.
Qed.

Lemma collect_returns comments : returns (collect_comment_tags comments).
Proof.
  unfold collect_comment_tags. generalize (∅ : Tags). induction comments as [|c cs IH]; intros t; [done|].
  cbn [collect_comments]. destruct (split_once 61 c) as [[key value]|]; [|done]. case_bool_decide; [done|apply IH].
Qed.

Lemma inspect_vorbis_ends C path ps qs size a : images_return → vorbis_answers →
  pages_at 0 ps → packets_of ps [] = Ok qs → 3 < zlen qs → C ∨ Forall near qs → small qs →
  encoded_audio_bytes a <= 2 ^ 40 → 0 <= size <= 2 ^ 40 →
  ends_or C (packets_accepted Vorbis path qs a) (inspect_vorbis size a).
Proof.
  intros Hi Hlib Hps Hqs Hlen Hnear Hsmall Henc Hsize. unfold inspect_vorbis.
  eapply ends_bind; [apply ends_on_err, ends_calm, (packets_are ps qs); done|]. intros ? <-.
  destruct qs as [|p0 [|p1 [|p2 audio]]]; [discriminate Hlen..|]. set (qs := p0 :: p1 :: p2 :: audio) in *.
  change (@index Failure _ qs 0) with (@Ok Failure _ p0). apply ends_lift_bind. set (ident := packet_data p0).
  apply (ends_bind (λ sound, sound = true → 16 <= zlen ident)).
  { destruct (Z.leb_spec (zlen ident) (7 + 22)); [by apply ends_ret|]. rewrite slice_in, (index_nth ident _ (zlen ident)) by (done || lia).
    do 2 apply ends_lift_bind. apply ends_ret. lia. }
  intros [] Hident; [|apply ends_fail]. specialize (Hident eq_refl). cbn [negb]. cbv zeta.
  change (comment_packet qs) with (packet_data p1). set (comment := packet_data p1).
  apply (ends_bind (λ kind, match kind with Some k => k = b2z (nth 0 comment x00) ∧ 6 < zlen comment | None => True end)).
  { destruct (Z.leb_spec (zlen comment) 6); [by apply ends_ret|]. rewrite (index_nth comment 0 (zlen comment)), slice_in by (done || lia).
    do 2 apply ends_lift_bind. apply ends_ret. by destruct (_ && _). }
  intros [kind|] Hkind; [|apply ends_fail]. destruct Hkind as [-> Hcl].
  apply (ends_bind (λ comments, ogg_comments Vorbis comment = Ok comments)).
  { unfold ogg_comments. destruct (b2z (nth 0 comment x00) =? 3).
    - unfold slice_from. rewrite slice_in by lia. apply ends_lift_bind, ends_ret. do 2 f_equal. unfold sub. rewrite take_ge; [done|].
      rewrite length_drop. unfold zlen. lia.
    - apply ends_if; intros _; [by apply ends_ret|apply ends_fail]. }
  intros comments Hcom. apply (ends_bind (λ tags, collect_comment_tags comments = Ok tags)).
  { apply ends_lift; [done|apply collect_returns]. }
  intros tags Htags. destruct (metadata_and_artwork tags) as [normalized artwork] eqn:Hma.
  eapply ends_bind; [by apply ends_try, decode_vorbis_ends|]. intros audio_outcome Haud.
  pose proof (finish_ends Vorbis path qs a comments tags audio_outcome Hi Hcom Htags) as Hf. rewrite Hma in Hf. apply ends_calm, Hf.
  by destruct audio_outcome.
Qed.

Lemma parse_comment_payload_returns d : returns (parse_comment_payload d).
Proof.
  assert (∀ d, returns (read_length_prefixed d)) as Hr by (intros; unfold read_length_prefixed; by repeat case_match).
  unfold parse_comment_payload. apply returns_bind; [done|]. intros [v rest] _. case_match; [done|]. case_match; [done|].
  set (n := Z.to_nat _). generalize (drop 4 rest). induction n as [|n IH]; intros e; cbn [read_comments]; [done|].
  apply returns_bind; [done|]. intros [value e'] _. apply returns_bind; [apply IH|done].
Qed.

Lemma inspect_opus_ends path ps qs size a : images_return →
  pages_at 0 ps → packets_of ps [] = Ok qs → 2 < zlen qs → small qs →
  encoded_audio_bytes a <= 2 ^ 40 → 0 <= size <= 2 ^ 40 →
  ends (packets_accepted Opus path qs a) (inspect_opus path size a).
Proof.
  intros Hi Hps Hqs Hlen Hsmall Henc Hsize. unfold inspect_opus.
  eapply ends_bind; [apply ends_on_err, (packets_are ps qs); done|]. intros ? <-.
  destruct qs as [|p0 [|p1 audio]]; [discriminate Hlen..|]. set (qs := p0 :: p1 :: audio) in *.
  change (@index Failure _ qs 0) with (@Ok Failure _ p0). apply ends_lift_bind. set (d := packet_data p0).
  destruct (Z.ltb_spec (zlen d) 19) as [|Hd]; [apply ends_fail|].
  rewrite (index_nth d 8 (zlen d)), (index_nth d 9 (zlen d)), (index_nth d 18 (zlen d)), slice_in by (done || lia).
  do 4 apply ends_lift_bind. set (head := mkHead _ _ _ _). assert (head = opus_head d) as Hhead by done.
  cbv zeta. apply ends_if; intros Hlayout; [apply ends_fail|].
  change (comment_packet qs) with (packet_data p1). set (comment := packet_data p1).
  apply ends_if; intros _; [apply ends_fail|].
  apply (ends_bind (λ comments, ogg_comments Opus comment = Ok comments)).
  { unfold ogg_comments. pose proof (parse_comment_payload_returns (drop 8 comment)).
    apply ends_lift; destruct (parse_comment_payload _); try done. by intros ? [= ->]. }
  intros comments Hcom. apply (ends_bind (λ tags, collect_comment_tags comments = Ok tags)).
  { apply ends_lift; [done|apply collect_returns]. }
  intros tags Htags. destruct (metadata_and_artwork tags) as [normalized artwork] eqn:Hma.
  eapply ends_bind; [apply ends_try, decode_opus_ends; [done..|]|].
  { apply le_bound. }
  intros audio_outcome Haud.
  pose proof (finish_ends Opus path qs a comments tags audio_outcome Hi Hcom Htags) as Hf. rewrite Hma in Hf. apply Hf.
  destruct audio_outcome as [t| | |]; try done. exists p0, (p1 :: audio). split; [done|]. fold d. rewrite <-Hhead. cbv zeta.
  repeat (apply orb_false_iff in Hlayout as [Hlayout ?]). bool_to_prop. split_and!; try done.
  assert (0 <= head_channels head) by apply b2z_range. lia.
Qed.

(** A Vorbis stream with a granule position more than 2^60 samples from zero. *)
Definition far_granule : Prop :=
  ∃ page ps, pages_at 0 (page :: ps) ∧ ogg_codec page = Some Vorbis ∧
    Exists (λ page, 2 ^ 60 < Z.abs (as_i64 (granule page))) (page :: ps).

Lemma far_or_near page ps qs : pages_at 0 (page :: ps) → ogg_codec page = Some Vorbis →
  packets_of (page :: ps) [] = Ok qs → far_granule ∨ Forall near qs.
Proof.
  intros Hps Hcodec Hqs. destruct (decide (Forall (λ page, near_zero (granule page)) (page :: ps))) as [Hnear|Hfar].
  - right. destruct (packets_of_sizes _ _ _ (pages_at_fit _ _ Hps) Hqs) as [_ Hgran].
    apply Forall_forall. intros q (page' & Hin & Hg)%Hgran. unfold near. rewrite Hg. by apply (proj1 (Forall_forall _ _) Hnear).
  - left. exists page, ps. split; [done|]. split; [done|]. apply not_Forall_Exists in Hfar; [|apply _].
    eapply Exists_impl; [exact Hfar|]. intros q Hq. unfold near_zero in Hq. cbn in Hq. lia.
Qed.

Lemma ogg_inspect_cases path s :
  images_return → vorbis_answers → file_len <= 2 ^ 40 → pos s = 0 →
  match inspect path s with
  | (Ok i, _) => ogg_accepted path i
  | (Err _, _) => True
  | (Panic, _) => far_granule
  | (OutOfFuel, _) => False
  end.
Proof.
  intros Hi Hlib Hlen Hs. unfold inspect. unfold mbind at 1, M_bind at 1. pose proof (hash_file_cases s Hs) as Hh.
  destruct (hash_file s) as [[[sha size]|f| |] s1]; try done. destruct Hh as (-> & -> & Hp1).
  unfold mbind at 1, M_bind at 1, on_err at 1. pose proof (detect_codec_cases s1 ltac:(unfold at_file; lia)) as Hd.
  destruct (detect_codec s1) as [[codec|f| |] s2]; try done. cbn [map_err]. destruct Hd as (Hs2 & page & Hpage & Hcodec).
  fold (header_packets codec). unfold mbind at 1, M_bind at 1, on_err at 1.
  pose proof (analyze_cases (header_packets codec) s2 Hs2) as Ha.
  destruct (analyze _ s2) as [[a|f| |] s3]; try done. cbn [map_err]. destruct Ha as (Hs3 & ps & v & Hps & Hscan & Hinc & ->).
  unfold incomplete in Hinc. repeat (apply orb_false_iff in Hinc as [Hinc ?]). bool_to_prop.
  pose proof (scan_one_stream _ _ _ Hscan ltac:(done) ltac:(done)) as Hone.
  destruct (pages_scan _ ps [] scan_start v (pages_at_fit _ _ Hps) eq_refl ltac:(done) Hscan) as (qs & Hqs & Hcount & Hbytes).
  cbn [scan_start packet_index analysis encoded_audio_bytes] in Hcount, Hbytes. rewrite Z.sub_0_r in Hbytes.
  destruct (packets_of_sizes _ _ _ (pages_at_fit _ _ Hps) Hqs) as [Hsize _].
  pose proof (pages_at_size 0 ps ltac:(done) Hps) as Htile. change (zlen []) with 0 in Hsize.
  pose proof (zlen_nonneg file) as Hfile. fold file_len in Hfile.
  assert (small qs) as Hsmall by (unfold small; lia).
  assert (∃ rest, ps = page :: rest) as [rest ->].
  { rewrite Hp1 in Hpage. destruct (page_size_pos 0 page ltac:(done) Hpage).
    inversion Hps as [? Hend|? page' rest Hpage' Hrest]; subst; [lia|]. rewrite Hpage in Hpage'. injection Hpage' as <-. eauto. }
  unfold mbind at 1, M_bind at 1, on_err at 1, seek. destruct (fault (ops s3)) as [e|]; [done|]. cbn [map_err].
  set (s4 := with_pos 0 (one_op s3)).
  assert (encoded_audio_bytes (analysis v) <= 2 ^ 40) as Henc.
  { pose proof (bytes_after_le (Z.to_nat (header_packets codec)) qs). pose proof (zlen_nonneg qs). unfold small, analysis in *. cbn. lia. }
  assert (ends_or far_granule (packets_accepted codec path qs (analysis v))
    (match codec with Vorbis => inspect_vorbis file_len (analysis v) | Opus => inspect_opus path file_len (analysis v) end)) as Hrest.
  { destruct codec; cbn [header_packets] in *; [eapply (inspect_vorbis_ends _ path (page :: rest) qs)|eapply ends_calm, (inspect_opus_ends path (page :: rest) qs)]; try done; try lia.
    by eapply far_or_near. }
  unfold mbind at 1, M_bind at 1. specialize (Hrest s4 ltac:(done)). unfold wp in Hrest.
  destruct (match codec with Vorbis => inspect_vorbis file_len (analysis v) | Opus => inspect_opus path file_len (analysis v) end s4) as [[i|f| |] s5]; try done. destruct Hrest as [_ Hacc].
  split; [done|]. exists codec, page, rest, qs, (analysis v). split_and!; try done; lia.
Qed.

(** C34: an imported Ogg file is what its bytes say. When the decoder answers and
    the file is below a tebibyte, inspecting an Ogg file from its start ends,
    whatever bytes it has, and it panics only for a Vorbis stream one of whose pages
    announces a granule position more than 2^60 samples from zero, where the
    decoder's position can overflow. When it succeeds, the recorded hash is the
    whole file's; the pages, each with its right checksum, tile the file and are one
    stream from its first page to its last; the encoded bytes that the analysis
    counted are those of the packets after the codec's headers, which the second
    reading cut from the same pages; the metadata and the artwork are those of the
    comment packet; and the technical values are those of packets that all decoded
    to the samples the last page announces. *)
Theorem ogg_inspect_correct path s :
  images_return → vorbis_answers → file_len <= 2 ^ 40 → pos s = 0 →
  match inspect path s with
  | (Ok i, _) => ogg_accepted path i
  | (Err _, _) => True
  | (Panic, _) => far_granule
  | (OutOfFuel, _) => False
  end.
Proof. apply ogg_inspect_cases. Qed.

(** Such a position does overflow: the last packet of a stream that ends at the
    least [i64]. *)
Lemma far_position_panics : place_packet (mkPacket [] (2 ^ 63) true true) 1 (mkPos 0 0 true) = Panic.
Proof. reflexivity. Qed.
End Accepted.

(** ** A small Vorbis file: its headers and a comment page, then two packets *)

Definition page_bytes (flags granule sequence : Z) (packets : list (list byte)) : list byte :=
  let table := (λ d, z2b (zlen d)) <$> packets in
  let start := bs "OggS" ++ [x00; z2b flags] ++ to_le 8 granule ++ to_le 4 7 ++ to_le 4 sequence in
  let count := [z2b (zlen packets)] in
  start ++ to_le 4 (crc (crc (crc 0 (start ++ [x00; x00; x00; x00] ++ count)) table) (concat packets))
    ++ count ++ table ++ concat packets.

Definition example_ident : list byte :=
  x01 :: bs "vorbis" ++ [x00; x00; x00; x00; x02] ++ to_le 4 1000 ++ replicate 13 x00 ++ [x01].
Definition example_ogg : list byte :=
  page_bytes 2 0 0 [example_ident] ++
  page_bytes 0 0 1 [x03 :: bs "vorbis" ++ Flac.render_comments (bs "v") Flac.example_comments ++ [x01];
                    x05 :: bs "vorbis"] ++
  page_bytes 4 10 2 [bs "ab"; bs "cde"].

#[local] Instance example_base64 : Base64 := {| base64_decode := λ _, inl (st "no picture") |}.
#[local] Instance example_vorbis : VorbisLib := {| vorbis_decoder := λ _, None; vorbis_decode := λ _, Ok 10 |}.
#[local] Existing Instance M4a.example_tools.
#[local] Existing Instance ascii_unicode.
#[local] Existing Instance example_images.
#[local] Existing Instance Flac.example_order.
#[local] Instance example_world : World := plain_world example_ogg.

Definition page_at (p : Z) : Page := default (mkPage 0 0 0 0 [] []) (page_of p).

Lemma example_pages : pages_at 0 [page_at 0; page_at 58; page_at 179].
Proof.
  assert (∀ p q ps, is_Some (page_of p) → p + page_size (page_at p) = q → pages_at q ps → pages_at p (page_at p :: ps)) as Hnext.
  { intros p q ps [page Hpage] <- Hps. unfold page_at in *. rewrite Hpage in *. by apply pages_next. }
  apply (Hnext 0 58); [vm_compute; by eexists|by vm_compute|].
  apply (Hnext 58 179); [vm_compute; by eexists|by vm_compute|].
  apply (Hnext 179 213); [vm_compute; by eexists|by vm_compute|].
  apply pages_end. by vm_compute.
Defined.

Lemma ogg_inspect_correct_witness :
  ∃ i s, inspect (st "x") io_start = (Ok i, s) ∧
    (title (inspected i), duration_ms (audio i), bitrate_kbps (audio i)) = (st "T", 10, 4) ∧ ogg_accepted (st "x") i.
Proof.
  assert (vorbis_answers) as Hlib by (intros h; cbn; lia).
  assert (file_len <= 2 ^ 40) as Hlen by (vm_compute; discriminate).
  pose proof (ogg_inspect_correct (st "x") io_start example_images_return Hlib Hlen eq_refl) as H.
  destruct (Ok_part (λ i, (title (inspected i), duration_ms (audio i), bitrate_kbps (audio i)))
    (inspect (st "x") io_start) (st "T", 10, 4)) as (i & s & E & Hd); [vm_compute; reflexivity|].
  rewrite E in H. exists i, s. exact (conj E (conj Hd H)).
Defined.
