(* ===== verification/Inspect.v ===== *)
(** The inspection of a stable file (inspect/mod.rs): its signature chooses the
    container, and every container's inspection ends, with the panics that are left. *)

From stdpp Require Import gmap.
From S2P Require Import Prelude Crash Text Failure Inspector Metadata Artwork Mp4.
From S2P Require Wav Mp3 Flac M4a Ogg OggStream.

Inductive Container := M4aFile | FlacFile | OggFile | Mp3File | WavFile.

(** The container that the first twelve bytes name. *)
Definition signature (header : list byte) : option Container :=
  if bool_decide (take 4 header = bs "fLaC") then Some FlacFile
  else if bool_decide (take 4 header = bs "OggS") then Some OggFile
  else if bool_decide (take 3 header = bs "ID3")
          || ((b2z (nth 0 header x00) =? 0xff) && (Z.land (b2z (nth 1 header x00)) 0xe0 =? 0xe0)) then Some Mp3File
  else if bool_decide (take 4 header = bs "RIFF") && bool_decide (sub header 8 4 = bs "WAVE") then Some WavFile
  else None.

Section Inspect.
Context `{World, Unicode, Debug, Images, Wav.Json, Mp3.Mpa, Flac.FlacLib, Flac.HashOrder}.
Context `{Ogg.VorbisLib, Ogg.Base64, M4a.Tools}.

Definition unsupported (m : str) : Failure := error UnsupportedFormat (st "container") m.

Definition read_signature : M Io Failure (list byte) :=
  on_err (λ e, file_error (st "read media signature: " ++ io_message e))
    (header ← read_up_to 12; _ ← seek 0; mret header).

(** [fuel] bounds the packets the FLAC decoder is asked for. *)
Definition inspect (fuel : nat) (path : str) : M Io Failure MediaInspection :=
  _ ← check;
  _ ← on_err (λ e, file_error (st "open " ++ path ++ st ": " ++ io_message e)) open_file;
  header ← read_signature;
  if (8 <=? zlen header) && bool_decide (sub header 4 4 = bs "ftyp") then M4a.inspect path
  else if zlen header <? 12 then
    fail (unsupported (st "read media signature: " ++ (if zlen header =? 0 then st "EOF" else st "unexpected EOF")))
  else
    match signature header with
    | Some FlacFile => Flac.inspect fuel
    | Some OggFile => Ogg.inspect path
    | Some Mp3File => Mp3.inspect
    | Some WavFile => Wav.inspect
    | _ => fail (unsupported (st "supported media signature is missing"))
    end.

(** What the file is, by its own first bytes. *)
Definition recognised : option Container :=
  let header := sub file 0 12 in
  if (8 <=? zlen header) && bool_decide (sub header 4 4 = bs "ftyp") then Some M4aFile
  else if zlen header <? 12 then None else signature header.

Definition accepted (c : Container) (path : str) (i : MediaInspection) : Prop :=
  match c with
  | M4aFile => M4a.m4a_accepted path i
  | FlacFile => Flac.flac_accepted i
  | OggFile => OggStream.ogg_accepted path i
  | Mp3File => Mp3.mp3_accepted i
  | WavFile => Wav.wav_accepted i
  end.

(** The libraries answer as they are documented to, and the file is below a
    tebibyte. *)
Record environment_answers (fuel : nat) : Prop := {
  env_images : images_return;
  env_mpa : Mp3.mpa_answers;
  env_flac : Flac.flac_answers fuel;
  env_vorbis : OggStream.vorbis_answers;
  env_size : file_len <= 2 ^ 40
}.

(** The panics that a file's bytes, or the answers about it, can still cause: an ID3v1
    mark inside an MP3's ID3v2 tag, a Vorbis page whose granule position is more than
    2^60 samples from zero, and numbers of an M4A's tools that do not fit. *)
Definition known_panic (path : str) (c : Container) : Prop :=
  match c with
  | Mp3File => Mp3.trailer_in_tag
  | OggFile => OggStream.far_granule
  | M4aFile => M4a.m4a_overflows path
  | FlacFile | WavFile => False
  end.

Lemma read_signature_cases s : pos s = 0 →
  match read_signature s with
  | (Ok header, s') => header = sub file 0 12 ∧ pos s' = 0
  | (Err f, s') => ∃ m, f = file_error m
  | _ => False
  end.
Proof.
  intros Hs. unfold read_signature. assert (at_file s) as Hat by (unfold at_file; lia).
  destruct (read_up_to_keeps 12 s Hat) as [_ Hret]. unfold on_err, mbind, M_bind.
  destruct (read_up_to 12 s) as [[h|e| |] s1] eqn:E1; try done; cbn; [|by eexists].
  apply read_up_to_Ok in E1 as (Hh & Hle & Hp1 & Hrest); [|done|lia]. rewrite Hs in Hh, Hp1.
  unfold seek. destruct (fault (ops s1)) as [e|]; cbn; [by eexists|]. split; [|done].
  destruct (Z.ltb_spec (zlen h) 12) as [Hshort|Hlong]; [|rewrite Hh; f_equal; lia].
  specialize (Hrest Hshort). pose proof (zlen_nonneg file). rewrite Hh. unfold file_len in Hrest.
  unfold sub. change (Z.to_nat 0) with 0%nat. rewrite !drop_0, !take_ge; [done|..]; unfold zlen in *; lia.
Qed.

(** C3: an import inspects every file as what it is. When the decoding libraries
    answer as documented and the file is below a tebibyte, inspecting it ends,
    whatever its bytes and whatever the programs it starts answer. It panics in three
    cases only, each told by the file: an MP3 whose last 128 bytes start with [TAG]
    inside its ID3v2 tag, a Vorbis file with a granule position more than 2^60
    samples from zero, and an M4A of which ffprobe or ffmpeg report numbers that do
    not fit the integers. It succeeds only for a file that its first twelve bytes
    name as M4A, FLAC, Ogg, MP3 or WAV, and then with what that container's
    inspection accepts and the hash of the whole file; a file with none of these
    signatures, a truncated one included, is an unsupported container unless the
    inspection was cancelled or the file could not be read. *)
Theorem inspect_by_signature fuel path s :
  environment_answers fuel →
  match inspect fuel path s with
  | (Ok i, _) => ∃ c, recognised = Some c ∧ accepted c path i ∧ file_sha256 i = sha256_hex file
  | (Err f, _) => recognised = None →
      ∃ c, code <$> first f = Some c ∧ c ∈ [ValidationCancelled; FileRead; UnsupportedFormat]
  | (Panic, _) => ∃ c, recognised = Some c ∧ known_panic path c
  | (OutOfFuel, _) => False
  end.
Proof.
  intros [Hi Hmpa Hflac Hvorbis Hsize]. unfold inspect. unfold mbind at 1, M_bind at 1, check, poll at 1.
  unfold mbind at 1, M_bind at 1. destruct (is_cancelled (polls s)).
  { intros _. exists ValidationCancelled. split; [done|]. rewrite !elem_of_cons. auto. }
  cbn [fst snd]. unfold mret at 1, M_ret at 1. unfold mbind at 1, M_bind at 1, on_err at 1, open_file, seek.
  destruct (fault _) as [e|]; cbn [map_err].
  { intros _. exists FileRead. split; [done|]. rewrite !elem_of_cons. auto. }
  match goal with |- context [with_pos 0 ?s0] => set (s1 := with_pos 0 s0) end.
  unfold mbind at 1, M_bind at 1. pose proof (read_signature_cases s1 eq_refl) as Hsig.
  destruct (read_signature s1) as [[header|f| |] s2]; try done; [|].
  2: { destruct Hsig as [m ->]. intros _. exists FileRead. split; [done|]. rewrite !elem_of_cons. auto. }
  destruct Hsig as [-> Hs2]. unfold recognised. set (header := sub file 0 12).
  assert (at_file s2) as Hat by (unfold at_file; lia).
  assert (file_len <= i64_max) as Hmax by (unfold i64_max; lia).
  assert (file_len <= 2 ^ 48) as Hmp3 by lia.
  destruct (_ && _).
  { pose proof (M4a.m4a_inspect_ends path Hi Hmax s2 Hat) as Hin. unfold wp in Hin.
    destruct (M4a.inspect path s2) as [[i|f| |] s3]; try done; [|by exists M4aFile].
    exists M4aFile. split; [done|]. destruct Hin as [_ Hacc]. split; [done|apply Hacc]. }
  assert (∀ m, ∃ c, code <$> first (unsupported m) = Some c ∧ c ∈ [ValidationCancelled; FileRead; UnsupportedFormat]) as Hun.
  { intros m. exists UnsupportedFormat. split; [done|]. rewrite !elem_of_cons. auto. }
  destruct (zlen header <? 12); [intros _; apply Hun|].
  destruct (signature header) as [[| | | |]|]; [intros ?; done| | | | |intros _; apply Hun].
  - pose proof (Flac.flac_inspect_cases fuel s2 Hi Hflac Hs2) as Hin.
    destruct (Flac.inspect fuel s2) as [[i|f| |] s3]; try done; [|lia]. exists FlacFile. split; [done|]. split; [done|apply Hin].
  - pose proof (OggStream.ogg_inspect_cases path s2 Hi Hvorbis Hsize Hs2) as Hin.
    destruct (Ogg.inspect path s2) as [[i|f| |] s3]; try done; [|by exists OggFile]. exists OggFile. split; [done|]. split; [done|apply Hin].
  - pose proof (Mp3.mp3_inspect_cases s2 Hi Hmpa Hs2 Hmp3) as Hin.
    destruct (Mp3.inspect s2) as [[i|f| |] s3]; try done; [|by exists Mp3File]. exists Mp3File. split; [done|]. split; [done|apply Hin].
  - pose proof (Wav.inspect_cases s2 Hi Hs2) as Hin.
    destruct (Wav.inspect s2) as [[i|f| |] s3]; try done. exists WavFile. split; [done|]. split; [done|apply Hin].
Qed.
End Inspect.

(** ** The Vorbis file, inspected by its signature *)

#[local] Existing Instance plain_debug.
#[local] Existing Instance ascii_unicode.
#[local] Existing Instance example_images.
#[local] Existing Instance Wav.plain_json.
#[local] Existing Instance Mp3.example_mpa.
#[local] Existing Instance Flac.example_flac_lib.
#[local] Existing Instance Flac.example_order.
#[local] Existing Instance M4a.example_tools.
#[local] Existing Instance OggStream.example_vorbis.
#[local] Existing Instance OggStream.example_base64.
#[local] Existing Instance OggStream.example_world.

Lemma inspect_by_signature_witness :
  ∃ i s, inspect 2 (st "x") io_start = (Ok i, s) ∧ recognised = Some OggFile ∧ title (inspected i) = st "T" ∧
    file_sha256 i = sha256_hex file.
Proof.
  assert (environment_answers 2) as Henv.
  { split; [exact example_images_return| | |intros h; cbn; lia|vm_compute; discriminate].
    - intros h. split; [exact I|]. intros rate n E. injection E as <- <-. split; discriminate.
    - split; try (intros; exact I); simpl.
      + exists 1%nat. split; [lia|]. intros p. discriminate.
      + intros h n E. injection E as <-. lia.
      + intros i. lia.
      + lia. }
  pose proof (inspect_by_signature 2 (st "x") io_start Henv) as H.
  destruct (Ok_part (λ i, title (inspected i)) (inspect 2 (st "x") io_start) (st "T")) as (i & s & E & Hd); [vm_compute; reflexivity|].
  rewrite E in H. destruct H as (c & _ & _ & Hsha).
  assert (recognised = Some OggFile) as Hr by (vm_compute; reflexivity).
  exists i, s. exact (conj E (conj Hr (conj Hd Hsha))).
Defined.
