(* ===== verification/ImportErrors.v ===== *)
(** Managed Import failures (managed_import/errors.rs) and the records storage,
    repository and service share (managed_import/types.rs), with the part of the
    service that turns a failure into what a client reads. *)

From S2P Require Import Prelude Text Failure.

Record Issue := mkIssue { code : str; field : str; reason : str }.

(** [From<inspect::Issue>]. *)
Definition issue_from (i : Failure.Issue) : Issue :=
  mkIssue (as_str (issue_code i)) (issue_field i) (issue_reason i).

Inductive Sentinel :=
| NotFound | InvalidState | RevisionConflict | ExactDuplicate | UploadTooLarge | BatchTooLarge
| UploadInterrupted | InvalidUpload | InsufficientStorage | UnsafeStoragePath | TrackNotFound
| AlbumNotFound | NotManagedTrack | DeletionConflict | ReplacementConflict | NotReplacementJob
| ReplacementRequired | Cancelled.

#[export] Instance sentinel_eq_dec : EqDecision Sentinel.
Proof. solve_decision. Defined.

Definition sentinel_message (s : Sentinel) : str :=
  match s with
  | NotFound => st "managed import job not found"
  | InvalidState => st "managed import job is not awaiting this operation"
  | RevisionConflict => st "managed import revision conflict"
  | ExactDuplicate => st "managed import file exactly duplicates a committed Track"
  | UploadTooLarge => st "managed import file exceeds upload limit"
  | BatchTooLarge => st "managed import batch exceeds upload limit"
  | UploadInterrupted => st "managed import upload was interrupted"
  | InvalidUpload => st "managed import upload is invalid"
  | InsufficientStorage => st "managed storage capacity is insufficient"
  | UnsafeStoragePath => st "managed storage path is unsafe"
  | TrackNotFound => st "track not found"
  | AlbumNotFound => st "album not found"
  | NotManagedTrack => st "track is not managed"
  | DeletionConflict => st "permanent track deletion preview changed"
  | ReplacementConflict => st "track replacement preview changed"
  | NotReplacementJob => st "managed import job does not replace a track"
  | ReplacementRequired => st "managed import job requires track replacement confirmation"
  | Cancelled => st "context canceled"
  end.

Record ValidationError := mkValidation {
  v_issues : list Issue;
  v_code : str;
  v_field : str;
  v_reason : str
}.

Definition validation_new (c f r : str) : ValidationError := mkValidation [] c f r.

Definition strict_reason (v : ValidationError) : str :=
  if bool_decide (v_reason v = []) then st "validation failed" else v_reason v.

Definition validation_issues (v : ValidationError) : list Issue :=
  if bool_decide (v_issues v = []) then [mkIssue (v_code v) (v_field v) (strict_reason v)]
  else v_issues v.

Record Error := mkError {
  sentinels : list Sentinel;
  validation : option ValidationError;
  text : str
}.

Definition error_new (m : str) : Error := mkError [] None m.
Definition sentinel (s : Sentinel) : Error := mkError [s] None (sentinel_message s).
Definition wrap (s : Sentinel) (detail : str) : Error :=
  mkError [s] None (sentinel_message s ++ st ": " ++ detail).
Definition error_validation (v : ValidationError) (m : str) : Error := mkError [] (Some v) m.

(** [Error::from_inspection]. *)
Definition from_inspection (f : Failure) : Error :=
  match first f with
  | Some e =>
      error_validation
        (mkValidation (issue_from <$> issues f) (as_str (Failure.code e)) (Failure.field e)
           (Failure.reason e))
        (show_failure f)
  | None => error_new (show_failure f)
  end.

(** [Error::context]. *)
Definition in_context (context : str) (e : Error) : Error :=
  mkError (sentinels e) (validation e) (context ++ st ": " ++ text e).

(** One round of [Error::join]'s loop. *)
Definition join_step (joined : option Error) (part : Error) : option Error :=
  Some (match joined with
        | None => part
        | Some e =>
            mkError (sentinels e ++ sentinels part)
              (match validation e with None => validation part | v => v end)
              (text e ++ [10] ++ text part)
        end).
Definition ejoin (parts : list (option Error)) : option Error :=
  foldl join_step None (omap id parts).

Definition error_is (e : Error) (s : Sentinel) : bool := bool_decide (s ∈ sentinels e).

(** [also]. *)
Definition also {A} (r : outcome Error A) (extra : option Error) : outcome Error A :=
  match r, extra with
  | Ok _, Some x => Err x
  | Err e, Some x => Err (default e (ejoin [Some e; Some x]))
  | _, _ => r
  end.

(** [result_of]. *)
Definition result_of (e : option Error) : outcome Error unit :=
  match e with Some e => Err e | None => Ok tt end.

(** ** What a client reads (service.rs) *)

Definition MAX_ORIGINAL_FILENAME_BYTES : Z := 255.

Definition safe_original_filename (value : str) : outcome Error str :=
  if existsb (λ c, (c =? 0) || (c =? 13) || (c =? 10)) value then
    Err (wrap InvalidUpload (st "filename contains forbidden characters"))
  else
    let value := trim value in
    if existsb (λ c, (c =? 47) || (c =? 92)) value || bool_decide (value = []) then
      Err (wrap InvalidUpload (st "filename must not contain path segments"))
    else if bool_decide (value = st ".") || (MAX_ORIGINAL_FILENAME_BYTES <? str_len value) then
      Err (wrap InvalidUpload (st "filename is missing or too long"))
    else Ok value.

Definition failure_details (e : Error) : str * str :=
  match validation e with
  | Some v => (v_code v, v_reason v)
  | None =>
      if error_is e UploadTooLarge then
        (st "upload_too_large", st "file exceeds the configured per-file byte limit")
      else if error_is e BatchTooLarge then
        (st "batch_upload_too_large", st "batch exceeds the configured byte limit")
      else if error_is e InvalidUpload then (st "invalid_upload", st "upload is invalid")
      else if error_is e InsufficientStorage then
        (st "insufficient_storage",
         st "Managed Storage does not have enough capacity for this import and its safety reserve")
      else if error_is e UnsafeStoragePath then
        (st "unsafe_storage_path", st "Managed Storage path failed containment checks")
      else if error_is e TrackNotFound then
        (st "track_not_found", st "the Track to replace no longer exists")
      else if error_is e NotManagedTrack then
        (st "not_managed_track", st "only Managed Tracks can be replaced")
      else if error_is e ReplacementConflict then
        (st "replacement_preview_changed", st "the Track to replace changed during validation")
      else if error_is e Cancelled then
        (st "validation_cancelled", st "file validation was canceled")
      else (st "inspection_failed", st "file validation failed")
  end.

(** ** Joined errors *)

Lemma ejoin_fold e parts :
  ∃ j, foldl join_step (Some e) parts = Some j ∧
    sentinels j = sentinels e ++ (parts ≫= sentinels) ∧
    validation j = (match validation e with Some v => Some v | None => head (omap validation parts) end).
Proof.
  revert e. induction parts as [|p parts IH]; intros e; simpl.
  { exists e. rewrite app_nil_r. split; [done|]. split; [done|]. by destruct (validation e). }
  destruct (IH (mkError (sentinels e ++ sentinels p)
    (match validation e with None => validation p | v => v end) (text e ++ [10] ++ text p)))
    as (j & Hj & Hs & Hv).
  exists j. split; [done|]. split; [by rewrite Hs; simpl; rewrite <-app_assoc|].
  rewrite Hv. simpl. destruct (validation e); [done|]. by destruct (validation p).
Qed.

Lemma ejoin_cases parts :
  match ejoin parts with
  | None => omap id parts = []
  | Some j => omap id parts ≠ [] ∧ sentinels j = omap id parts ≫= sentinels ∧
      validation j = head (omap validation (omap id parts))
  end.
Proof.
  unfold ejoin. destruct (omap id parts) as [|e es]; [done|]. cbn [foldl].
  change (join_step None e) with (Some e).
  destruct (ejoin_fold e es) as (j & -> & Hs & Hv). split; [done|]. split; [by rewrite Hs|].
  rewrite Hv. simpl. by destruct (validation e).
Qed.

Lemma ejoin_Some e parts : is_Some (ejoin (Some e :: parts)).
Proof. pose proof (ejoin_cases (Some e :: parts)). destruct (ejoin _); [done|]. done. Qed.

Lemma ejoin_None parts : ejoin parts = None ↔ ∀ p, p ∈ parts → p = None.
Proof.
  split.
  - intros H. pose proof (ejoin_cases parts) as Hj. rewrite H in Hj. intros [e|] Hp; [|done].
    assert (e ∈ omap id parts) as He by (apply list_elem_of_omap; by exists (Some e)).
    rewrite Hj in He. by apply not_elem_of_nil in He.
  - intros H. pose proof (ejoin_cases parts) as Hj. destruct (ejoin parts) as [j|]; [|done].
    destruct Hj as [Hne _]. destruct (omap id parts) as [|e es] eqn:He; [done|].
    assert (e ∈ omap id parts) as Hin by (rewrite He; left).
    apply list_elem_of_omap in Hin as (p & Hp & Hpe). apply H in Hp. by subst p.
Qed.

Lemma is_joined parts j s : ejoin parts = Some j →
  error_is j s = true ↔ ∃ e, Some e ∈ parts ∧ error_is e s = true.
Proof.
  intros Hj. pose proof (ejoin_cases parts) as H. rewrite Hj in H. destruct H as (_ & Hs & _).
  unfold error_is. rewrite bool_decide_eq_true, Hs, list_elem_of_bind. split.
  - intros (e & Hin & He). apply list_elem_of_omap in He as (p & Hp & Hpe).
    simpl in Hpe. subst p. exists e. split; [done|]. by apply bool_decide_eq_true.
  - intros (e & He & Hin). exists e. apply bool_decide_eq_true in Hin. split; [done|].
    apply list_elem_of_omap. by exists (Some e).
Qed.

(** a joined failure forgets nothing a caller asks for. It is missing exactly
    when no part failed; it carries a sentinel exactly when some part does; and
    its validation is that of the first part that has one. *)
Theorem joined_failure_keeps_causes parts :
  (ejoin parts = None ↔ ∀ p, p ∈ parts → p = None) ∧
  (∀ j, ejoin parts = Some j →
     (∀ s, error_is j s = true ↔ ∃ e, Some e ∈ parts ∧ error_is e s = true) ∧
     validation j = head (omap validation (omap id parts))).
Proof.
  split; [apply ejoin_None|]. intros j Hj. split; [intros s; by apply is_joined|].
  pose proof (ejoin_cases parts) as H. rewrite Hj in H. apply H.
Qed.

Lemma joined_failure_keeps_causes_witness :
  ∃ j, ejoin [Some (wrap UnsafeStoragePath (st "x")); None; Some (sentinel NotFound)] = Some j ∧
    error_is j NotFound = true ∧ validation j = None.
Proof.
  eexists. split; [reflexivity|].
  destruct (joined_failure_keeps_causes
    [Some (wrap UnsafeStoragePath (st "x")); None; Some (sentinel NotFound)]) as [_ H].
  destruct (H _ eq_refl) as [Hs _]. split; [|reflexivity].
  apply Hs. exists (sentinel NotFound). split; [right; right; left|reflexivity].
Defined.
