(* ===== verification/Disk.v ===== *)
(** The file system beneath the Managed Storage root, as cap_std's [Dir] shows
    it, and the relative paths managed_import/storage.rs builds. *)

From stdpp Require Import gmap.
From S2P Require Import Prelude Text.

(** ** Paths *)

Definition SLASH : Z := 47.

(** The components a relative path is resolved by. *)
Definition names (path : str) : list str :=
  filter (λ n, n ≠ [] ∧ n ≠ st ".") (split (λ c, c =? SLASH) path).

(** [join]. *)
Definition join_parts (parts : list str) : str := join [SLASH] (filter (λ p, p ≠ []) parts).

Definition join_dir (dir name : str) : str :=
  if bool_decide (dir = st ".") then name else dir ++ [SLASH] ++ name.

(** [parent]: what precedes the last slash, [.] without one. *)
Definition parent (path : str) : str :=
  match rsplit_at (λ c, c =? SLASH) path with
  | Some (dir, _) => dir
  | None => st "."
  end.

Definition base (path : str) : str :=
  match rsplit_at (λ c, c =? SLASH) path with
  | Some (_, rest) => drop 1 rest
  | None => path
  end.

Definition path_extension (path : str) : str :=
  match rsplit_at (λ c, c =? 46) (base path) with
  | Some (_, ext) => ext
  | None => []
  end.

(** ** The file system *)

Inductive Entry := EFile (data : list byte) | EDir | ELink.

#[export] Instance entry_eq_dec : EqDecision Entry.
Proof. solve_decision. Defined.

Inductive ErrorKind := KNotFound | KAlreadyExists | KLink | KOther.

#[export] Instance error_kind_eq_dec : EqDecision ErrorKind.
Proof. solve_decision. Defined.

Record FsError := mkFsError { kind : ErrorKind; fs_text : str }.

Definition not_found (e : FsError) : bool := bool_decide (kind e = KNotFound).

(** The operations of a [Dir] the code uses. [entry] is what lies under a path
    without following links; [fs_stat] follows them. *)
Class FileSystem := {
  Disk : Type;
  entry : Disk → list str → option Entry;
  fs_lstat : list str → Disk → FsError + Entry;
  fs_stat : list str → Disk → FsError + Entry;
  fs_rename : list str → list str → Disk → FsError + Disk;
  fs_create_new : list str → Disk → FsError + Disk;
  fs_append : list str → list byte → Disk → FsError + Disk;
  fs_remove_file : list str → Disk → FsError + Disk;
  fs_create_dir : list str → Disk → FsError + Disk;
  fs_remove_dir : list str → Disk → FsError + Disk;
  fs_read_dir : list str → Disk → FsError + list str
}.

(** The directory a path's last component lies in. *)
Definition init (p : list str) : list str := take (length p - 1) p.

Section Trees.
Context `{FS : FileSystem}.

(** No symbolic link lies in the tree, and whatever lies in it lies in a
    directory. *)
Record tree (d : Disk) : Prop := {
  tree_plain : ∀ p, entry d p ≠ Some ELink;
  tree_root : entry d [] = Some EDir;
  tree_parent : ∀ p e, entry d p = Some e → entry d (init p) = Some EDir
}.

(** No component before the last is a file. *)
Definition reachable_path (d : Disk) (p : list str) : Prop :=
  ∀ n x, (n < length p)%nat → entry d (take n p) ≠ Some (EFile x).

(** A path that stays below the root. *)
Definition inside (p : list str) : Prop := p ≠ [] ∧ st ".." ∉ p.

Definition updated (d d' : Disk) (p : list str) (e : option Entry) : Prop :=
  ∀ q, entry d' q = if decide (q = p) then e else entry d q.
End Trees.

(** What POSIX documents of those operations, on a tree without links. *)
Class FileSystemLaws `{FS : FileSystem} : Prop := {
  lstat_found d p e : tree d → inside p → entry d p = Some e → fs_lstat p d = inr e;
  lstat_missing d p : tree d → inside p → entry d p = None →
    ∃ e, fs_lstat p d = inl e ∧ (reachable_path d p → kind e = KNotFound);
  stat_lstat d p : tree d → inside p → fs_stat p d = fs_lstat p d;
  rename_missing d a b : tree d → inside a → inside b → entry d a = None →
    ∃ e, fs_rename a b d = inl e;
  rename_file d a b x d' : tree d → inside a → inside b → entry d a = Some (EFile x) →
    fs_rename a b d = inr d' →
    entry d (init b) = Some EDir ∧ entry d b ≠ Some EDir ∧
    ∀ q, entry d' q = if decide (q = b) then Some (EFile x)
                      else if decide (q = a) then None else entry d q;
  rename_works d a b x : tree d → inside a → inside b → entry d a = Some (EFile x) →
    entry d (init b) = Some EDir → entry d b ≠ Some EDir → ∃ d', fs_rename a b d = inr d';
  create_new_makes d p d' : tree d → inside p → fs_create_new p d = inr d' →
    entry d p = None ∧ entry d (init p) = Some EDir ∧ updated d d' p (Some (EFile []));
  create_new_exists d p e : tree d → inside p → entry d p = Some e →
    ∃ err, fs_create_new p d = inl err ∧ kind err = KAlreadyExists;
  create_new_works d p : tree d → inside p → entry d p = None →
    entry d (init p) = Some EDir → ∃ d', fs_create_new p d = inr d';
  append_writes d p x bs : tree d → inside p → entry d p = Some (EFile x) →
    ∃ d', fs_append p bs d = inr d' ∧ updated d d' p (Some (EFile (x ++ bs)));
  append_missing d p bs : tree d → inside p → (∀ x, entry d p ≠ Some (EFile x)) →
    ∃ e, fs_append p bs d = inl e;
  remove_file_removes d p d' : tree d → inside p → fs_remove_file p d = inr d' →
    (∃ x, entry d p = Some (EFile x)) ∧ updated d d' p None;
  remove_file_works d p x : tree d → inside p → entry d p = Some (EFile x) →
    ∃ d', fs_remove_file p d = inr d';
  remove_file_missing d p : tree d → inside p → entry d p = None →
    ∃ e, fs_remove_file p d = inl e ∧ (reachable_path d p → kind e = KNotFound);
  create_dir_makes d p d' : tree d → inside p → fs_create_dir p d = inr d' →
    entry d p = None ∧ entry d (init p) = Some EDir ∧ updated d d' p (Some EDir);
  create_dir_works d p : tree d → inside p → entry d p = None →
    entry d (init p) = Some EDir → ∃ d', fs_create_dir p d = inr d';
  remove_dir_removes d p d' : tree d → inside p → fs_remove_dir p d = inr d' →
    entry d p = Some EDir ∧ (∀ n, entry d (p ++ [n]) = None) ∧ updated d d' p None;
  remove_dir_works d p : tree d → inside p → entry d p = Some EDir →
    (∀ n, entry d (p ++ [n]) = None) → ∃ d', fs_remove_dir p d = inr d';
  read_dir_lists d p ns : tree d → inside p → fs_read_dir p d = inr ns →
    entry d p = Some EDir ∧ ∀ n, n ∈ ns ↔ is_Some (entry d (p ++ [n]));
  read_dir_works d p : tree d → inside p → entry d p = Some EDir →
    ∃ ns, fs_read_dir p d = inr ns;
  read_dir_missing d p : tree d → inside p → entry d p = None →
    ∃ e, fs_read_dir p d = inl e ∧ (reachable_path d p → kind e = KNotFound)
}.

(** ** Clean paths *)

(** A name that is one component and no step elsewhere. *)
Definition good_name (n : str) : Prop := n ≠ [] ∧ n ≠ st "." ∧ n ≠ st ".." ∧ SLASH ∉ n.

(** The path that names these components. *)
Definition path_of (ns : list str) : str := join [SLASH] ns.

Definition clean (p : str) : Prop := ∃ ns, ns ≠ [] ∧ Forall good_name ns ∧ p = path_of ns.

Lemma good_name_no_slash n c : good_name n → c ∈ n → (c =? SLASH) = false.
Proof. intros (_ & _ & _ & Hn) Hc. apply Z.eqb_neq. by intros ->. Qed.

Lemma names_path_of ns : Forall good_name ns → names (path_of ns) = ns.
Proof.
  intros Hns. unfold names, path_of. destruct ns as [|n ns]; [done|].
  rewrite split_join; [|done..|].
  - induction Hns as [|m l (H1 & H2 & _) Hl IH]; [done|]. rewrite filter_cons_True by done. by rewrite IH.
  - eapply Forall_impl; [exact Hns|]. intros w Hw c. by apply good_name_no_slash.
Qed.

Lemma clean_inside p : clean p → inside (names p).
Proof.
  intros (ns & Hne & Hns & ->). rewrite names_path_of by done. split; [done|].
  intros Hin. rewrite Forall_forall in Hns. by destruct (Hns _ Hin) as (_ & _ & ? & _).
Qed.

Lemma path_of_snoc ns n : ns ≠ [] → path_of (ns ++ [n]) = path_of ns ++ SLASH :: n.
Proof.
  unfold path_of. induction ns as [|m ns IH]; intros Hne; [done|].
  destruct ns as [|m' ns]; [done|]. cbn [app join]. cbn [app join] in IH. rewrite IH by done.
  by rewrite <-!app_assoc.
Qed.

Lemma rsplit_none p s : (∀ c, c ∈ s → p c = false) → rsplit_at p s = None.
Proof.
  induction s as [|c s IH]; intros Hs; [done|]. simpl. rewrite IH by set_solver.
  by rewrite Hs by set_solver.
Qed.

Lemma parent_path_of ns n : Forall good_name (ns ++ [n]) →
  parent (path_of (ns ++ [n])) = if decide (ns = []) then st "." else path_of ns.
Proof.
  intros Hns. apply Forall_app in Hns as [_ [Hn _]%Forall_cons].
  assert (∀ c, c ∈ n → (c =? SLASH) = false) as Hno by (intros c Hc; by eapply good_name_no_slash).
  unfold parent. destruct (decide (ns = [])) as [->|E].
  - simpl. by rewrite rsplit_none.
  - rewrite path_of_snoc by done. by rewrite (rsplit_at_last (λ c, c =? SLASH)).
Qed.

Lemma base_path_of ns n : Forall good_name (ns ++ [n]) → base (path_of (ns ++ [n])) = n.
Proof.
  intros Hns. apply Forall_app in Hns as [_ [Hn _]%Forall_cons].
  assert (∀ c, c ∈ n → (c =? SLASH) = false) as Hno by (intros c Hc; by eapply good_name_no_slash).
  unfold base. destruct ns as [|m ns].
  - simpl. by rewrite rsplit_none.
  - rewrite path_of_snoc by done. by rewrite (rsplit_at_last (λ c, c =? SLASH)).
Qed.

Lemma join_parts_snoc ns n : Forall good_name ns → good_name n →
  join_parts [path_of ns; n] = path_of (ns ++ [n]).
Proof.
  intros Hns Hn. unfold join_parts. destruct ns as [|m ns].
  - rewrite filter_cons_False by (by intros []). rewrite filter_cons_True by apply Hn. done.
  - rewrite !filter_cons_True; [|apply Hn|].
    + by rewrite path_of_snoc.
    + apply Forall_cons in Hns as [(Hm & _) _]. unfold path_of. destruct m; [done|].
      by destruct ns.
Qed.
