(* ===== verification/MapDisk.v ===== *)
(** A file system held in a finite map: it satisfies the laws of [Disk], so the
    theorems that assume them are about something. *)

From stdpp Require Import gmap.
From S2P Require Import Prelude Text Disk.

Abbreviation Tree := (gmap (list (list Z)) Entry).

Definition map_entry (d : Tree) (p : list str) : option Entry :=
  if decide (p = []) then Some EDir else d !! p.

Definition is_file (e : option Entry) : bool :=
  match e with Some (EFile _) => true | _ => false end.

(** [ENOENT], or [ENOTDIR] below a file. *)
Definition missing (d : Tree) (p : list str) : FsError :=
  if existsb (λ n, is_file (map_entry d (take n p))) (seq 0 (length p))
  then mkFsError KOther (st "Not a directory (os error 20)")
  else mkFsError KNotFound (st "No such file or directory (os error 2)").

Definition exists_error : FsError := mkFsError KAlreadyExists (st "File exists (os error 17)").
Definition refused : FsError := mkFsError KOther (st "Invalid argument (os error 22)").
Definition loop_error : FsError := mkFsError KLink (st "Too many levels of symbolic links (os error 40)").

Definition map_lstat (p : list str) (d : Tree) : FsError + Entry :=
  match map_entry d p with Some e => inr e | None => inl (missing d p) end.

Definition map_stat (p : list str) (d : Tree) : FsError + Entry :=
  match map_entry d p with
  | Some ELink => inl loop_error
  | Some e => inr e
  | None => inl (missing d p)
  end.

Definition has_parent (d : Tree) (p : list str) : bool :=
  bool_decide (p ≠ []) && bool_decide (map_entry d (init p) = Some EDir).

Definition map_rename (a b : list str) (d : Tree) : FsError + Tree :=
  match map_entry d a with
  | None => inl (missing d a)
  | Some EDir => inl refused
  | Some e =>
      if has_parent d b && bool_decide (map_entry d b ≠ Some EDir)
      then inr (<[b := e]> (delete a d)) else inl (missing d b)
  end.

Definition map_make (e : Entry) (p : list str) (d : Tree) : FsError + Tree :=
  match map_entry d p with
  | Some _ => inl exists_error
  | None => if has_parent d p then inr (<[p := e]> d) else inl (missing d p)
  end.

Definition map_append (p : list str) (bs : list byte) (d : Tree) : FsError + Tree :=
  match map_entry d p with
  | Some (EFile x) => inr (<[p := EFile (x ++ bs)]> d)
  | Some _ => inl refused
  | None => inl (missing d p)
  end.

Definition map_remove_file (p : list str) (d : Tree) : FsError + Tree :=
  match map_entry d p with
  | Some EDir => inl refused
  | Some _ => inr (delete p d)
  | None => inl (missing d p)
  end.

(** The names right below [p]. *)
Definition children (p : list str) (d : Tree) : list str :=
  omap (λ q, match reverse q with
             | n :: r => if decide (reverse r = p) then Some n else None
             | [] => None
             end) (map_to_list d).*1.

Definition map_remove_dir (p : list str) (d : Tree) : FsError + Tree :=
  match map_entry d p with
  | Some EDir =>
      if bool_decide (p ≠ []) && bool_decide (children p d = []) then inr (delete p d) else inl refused
  | Some _ => inl refused
  | None => inl (missing d p)
  end.

Definition map_read_dir (p : list str) (d : Tree) : FsError + list str :=
  match map_entry d p with
  | Some EDir => inr (children p d)
  | Some _ => inl refused
  | None => inl (missing d p)
  end.

#[export] Instance map_file_system : FileSystem := {|
  Disk := Tree;
  entry := map_entry;
  fs_lstat := map_lstat;
  fs_stat := map_stat;
  fs_rename := map_rename;
  fs_create_new := map_make (EFile []);
  fs_append := map_append;
  fs_remove_file := map_remove_file;
  fs_create_dir := map_make EDir;
  fs_remove_dir := map_remove_dir;
  fs_read_dir := map_read_dir
|}.

Lemma map_entry_insert d p e : p ≠ [] → updated (FS := map_file_system) d (<[p := e]> d) p (Some e).
Proof.
  intros Hp q. simpl. unfold map_entry. repeat case_decide; subst; try done.
  - by rewrite lookup_insert_eq.
  - by rewrite lookup_insert_ne.
Qed.

Lemma map_entry_delete d p : p ≠ [] → updated (FS := map_file_system) d (delete p d) p None.
Proof.
  intros Hp q. simpl. unfold map_entry. repeat case_decide; subst; try done.
  - by rewrite lookup_delete_eq.
  - by rewrite lookup_delete_ne.
Qed.

Lemma map_entry_Some d p e : p ≠ [] → map_entry d p = Some e ↔ d !! p = Some e.
Proof. intros Hp. unfold map_entry. by rewrite decide_False. Qed.

Lemma missing_reachable d p : reachable_path (FS := map_file_system) d p → kind (missing d p) = KNotFound.
Proof.
  intros Hr. unfold missing. destruct (existsb _ _) eqn:He; [|done]. exfalso.
  apply existsb_exists in He as (n & Hn & Hf). apply in_seq in Hn.
  specialize (Hr n). simpl in Hr. destruct (map_entry d (take n p)) as [[x| |]|] eqn:E; try done.
  eapply Hr; [lia|done].
Qed.

Lemma children_spec d p n : n ∈ children p d ↔ is_Some (map_entry d (p ++ [n])).
Proof.
  unfold children, map_entry. rewrite decide_False by (by destruct p).
  rewrite list_elem_of_omap. split.
  - intros (q & Hq & Hn). destruct (reverse q) as [|m r] eqn:Hr; [done|].
    case_decide; [|done]. injection Hn as ->.
    apply list_elem_of_fmap in Hq as ([q' e] & -> & Hin). simpl in *.
    apply elem_of_map_to_list in Hin. subst p.
    apply (f_equal reverse) in Hr. rewrite reverse_involutive, reverse_cons in Hr. subst q'. eauto.
  - intros [e He]. exists (p ++ [n]). split.
    + apply list_elem_of_fmap. exists (p ++ [n], e). by rewrite elem_of_map_to_list.
    + rewrite reverse_app. simpl. by rewrite reverse_involutive, decide_True.
Qed.

Lemma has_parent_true d p : has_parent d p = true ↔ p ≠ [] ∧ map_entry d (init p) = Some EDir.
Proof. unfold has_parent. by rewrite andb_true_iff, !bool_decide_eq_true. Qed.

Lemma map_make_cases e d p d' : p ≠ [] → map_make e p d = inr d' →
  map_entry d p = None ∧ map_entry d (init p) = Some EDir ∧
  updated (FS := map_file_system) d d' p (Some e).
Proof.
  intros Hp. unfold map_make. destruct (map_entry d p) eqn:E; [done|].
  destruct (has_parent d p) eqn:Hpar; [|done]. intros [= <-]. apply has_parent_true in Hpar as [_ ?].
  split; [done|]. split; [done|]. by apply map_entry_insert.
Qed.

Lemma map_make_works e d p : p ≠ [] → map_entry d p = None → map_entry d (init p) = Some EDir →
  ∃ d', map_make e p d = inr d'.
Proof.
  intros Hp Hn Hpar. unfold map_make. rewrite Hn.
  rewrite (proj2 (has_parent_true d p) (conj Hp Hpar)). eauto.
Qed.

#[export] Instance map_file_system_laws : FileSystemLaws (FS := map_file_system).
Proof.
  split; simpl; intros d.
  - intros p e _ _ He. unfold map_lstat. by rewrite He.
  - intros p _ _ He. unfold map_lstat. rewrite He. eexists; split; [done|apply missing_reachable].
  - intros p Ht _. unfold map_stat, map_lstat. pose proof (tree_plain _ Ht p) as Hp. simpl in Hp.
    by destruct (map_entry d p) as [[]|].
  - intros a b _ _ _ Ha. unfold map_rename. rewrite Ha. eauto.
  - intros a b x d' _ Hia [Hb _] Ha. unfold map_rename. rewrite Ha.
    destruct (has_parent d b) eqn:Hpar; [|done]. apply has_parent_true in Hpar as [_ Hpar].
    destruct (bool_decide_reflect (map_entry d b ≠ Some EDir)) as [Hne|]; [|done]. intros [= <-].
    split; [done|]. split; [done|]. intros q.
    rewrite (map_entry_insert _ b (EFile x) Hb q). case_decide; [done|].
    apply (map_entry_delete d a (proj1 Hia) q).
  - intros a b x _ _ [Hb _] Ha Hpar Hne. unfold map_rename. rewrite Ha.
    rewrite (proj2 (has_parent_true d b) (conj Hb Hpar)), bool_decide_eq_true_2 by done. eauto.
  - intros p d' _ [Hp _]. by apply map_make_cases.
  - intros p e _ _ He. unfold map_make. rewrite He. by eexists.
  - intros p _ [Hp _]. by apply map_make_works.
  - intros p x bs _ [Hp _] He. unfold map_append. rewrite He. eexists. split; [done|].
    by apply map_entry_insert.
  - intros p bs _ _ Hne. unfold map_append. destruct (map_entry d p) as [[x| |]|]; eauto.
    by destruct (Hne x).
  - intros p d' Ht [Hp _]. unfold map_remove_file. pose proof (tree_plain _ Ht p) as Hl. simpl in Hl.
    destruct (map_entry d p) as [[x| |]|]; try done. intros [= <-].
    split; [by exists x|]. by apply map_entry_delete.
  - intros p x _ _ He. unfold map_remove_file. rewrite He. eauto.
  - intros p _ _ He. unfold map_remove_file. rewrite He. eexists; split; [done|apply missing_reachable].
  - intros p d' _ [Hp _]. by apply map_make_cases.
  - intros p _ [Hp _]. by apply map_make_works.
  - intros p d' _ [Hp _]. unfold map_remove_dir. destruct (map_entry d p) as [[x| |]|]; try done.
    destruct (bool_decide_reflect (p ≠ [])) as [_|]; [|done].
    destruct (bool_decide_reflect (children p d = [])) as [Hc|]; [|done]. intros [= <-].
    split; [done|]. split; [|by apply map_entry_delete].
    intros n. destruct (map_entry d (p ++ [n])) eqn:E; [|done].
    assert (n ∈ children p d) as Hin by (apply children_spec; eauto).
    rewrite Hc in Hin. by apply not_elem_of_nil in Hin.
  - intros p _ [Hp _] He Hn. unfold map_remove_dir. rewrite He.
    rewrite bool_decide_eq_true_2 by done. rewrite bool_decide_eq_true_2; [eauto|].
    destruct (children p d) as [|n ns] eqn:Hc; [done|].
    assert (n ∈ children p d) as Hin by (rewrite Hc; left).
    apply children_spec in Hin. rewrite (Hn n) in Hin. by destruct Hin.
  - intros p ns _ _. unfold map_read_dir. destruct (map_entry d p) as [[x| |]|]; try done.
    intros [= <-]. split; [done|]. intros n. apply children_spec.
  - intros p _ _ He. unfold map_read_dir. rewrite He. eauto.
  - intros p _ _ He. unfold map_read_dir. rewrite He. eexists; split; [done|apply missing_reachable].
Qed.
