(* ===== verification/Storage.v ===== *)
(** Managed Storage (managed_import/storage.rs): every file an import, a Track
    Replacement or a deletion creates, moves, checks or removes, beneath one
    directory handle. *)

From stdpp Require Import gmap.
From S2P Require Import Prelude Text Crash Disk Failure Metadata ImportErrors.

(** What an operation that leaves the process meets: it is carried out; it fails
    for a reason of the host's (a full disk, a bad block), which is never a
    claim about what lies under a path; it is carried out but its answer is lost
    (a database's only; a file operation then fails); or the process ends
    before it. *)
Inductive Turn := Go | Refuse (reason : str) | Lost (reason : str) | Die.

(** The host: what each operation meets, the checks and values that come from
    outside, and the hash. [outside] is what
    opening or making a directory above the root answers, [cwd] the current
    directory, [same_root] whether the opened root is still the one at its path. *)
Class Host := {
  turn : nat → Turn;
  outside : nat → option FsError;
  same_root : nat → bool;
  free_bytes : nat → Z;
  granted : nat → Z;
  new_uuid : nat → str;
  cwd : str;
  digest_hex : list byte → str
}.

(** The durable state, and how many operations were made. *)
Record Machine `{FileSystem} (DB : Type) := mkMachine { disk : Disk; db : DB; clock : nat }.
Arguments mkMachine {_ _} _ _ _.
Arguments disk {_ _} _.
Arguments db {_ _} _.
Arguments clock {_ _} _.

Definition MAX_SLUG_BYTES : nat := 80.
Definition CANONICAL_LIBRARY_ROOT : str := st "library".
Definition STAGING : str := st ".staging".
Definition CAPACITY_CHECK_INTERVAL_BYTES : Z := 4194304.

Record StorageLimits := mkLimits { reserve_bytes : Z; file_bytes : Z; batch_bytes : Z }.
Record Requirement := mkRequirement { selected_bytes : Z; temporary_bytes : Z }.
Record StagedUpload := mkStaged { staged_path : str; staged_size : Z; staged_sha256 : str }.

Record CommitIdentity := mkIdentity {
  album_artist_id : str;
  album_id : str;
  track_id : str;
  existing_artwork_path : str;
  existing_artwork_sha256 : str
}.

Record PlacedFiles := mkPlaced {
  audio_path : str;
  artwork_path : str;
  audio_relative : str;
  artwork_relative : str;
  staged_relative : str;
  artwork_created : bool
}.

Record ReplacementTarget := mkTarget {
  target_track_id : str;
  target_album_id : str;
  relative_path_of : str;
  target_artwork_path : str;
  is_sole_track : bool
}.

Inductive ArtworkMode := ModeNone | ModeExisting | ModeCreate | ModeReplace.

#[export] Instance artwork_mode_eq_dec : EqDecision ArtworkMode.
Proof. solve_decision. Defined.

Record ReplacementPlacement := mkReplacement {
  r_audio_path : str;
  r_artwork_path : str;
  artwork_mode : ArtworkMode;
  r_staged : str;
  pending_audio : str;
  r_audio : str;
  previous_audio : str;
  retired_audio : str;
  pending_artwork : str;
  r_artwork : str;
  previous_artwork : str;
  retired_artwork : str;
  r_artwork_created : bool
}.

(** The phases a journal row can hold; a replacement has [swapped], a commit
    [cleaned]. *)
Inductive Phase :=
| Prepared | Placed | Verified | Swapped | DatabaseCommitted | Cleaned | Completed | RolledBack.

#[export] Instance phase_eq_dec : EqDecision Phase.
Proof. solve_decision. Defined.

Definition phase_text (p : Phase) : str :=
  match p with
  | Prepared => st "prepared"
  | Placed => st "placed"
  | Verified => st "verified"
  | Swapped => st "swapped"
  | DatabaseCommitted => st "database_committed"
  | Cleaned => st "cleaned"
  | Completed => st "completed"
  | RolledBack => st "rolled_back"
  end.

Record CommitJournal := mkCommitJournal {
  c_id : str;
  c_job_id : str;
  c_track_id : str;
  c_phase : Phase;
  c_staged_file_path : str;
  c_audio_file_path : str;
  c_artwork_file_path : str;
  c_audio_sha256 : str;
  c_artwork_sha256 : str;
  c_artwork_created : bool;
  c_recovery_reason : str
}.

Record ReplacementJournal := mkReplacementJournal {
  j_id : str;
  j_job_id : str;
  j_track_id : str;
  j_phase : Phase;
  staged_file_path : str;
  pending_audio_path : str;
  audio_file_path : str;
  previous_audio_path : str;
  retired_audio_path : str;
  j_audio_sha256 : str;
  previous_audio_sha256 : str;
  j_artwork_mode : ArtworkMode;
  pending_artwork_path : str;
  artwork_file_path : str;
  previous_artwork_path : str;
  retired_artwork_path : str;
  j_artwork_sha256 : str;
  previous_artwork_sha256 : str;
  is_artwork_created : bool;
  previous_album_id : str;
  recovery_reason : str
}.

(** ** Names of files *)

(** [absolute]: the components of a lexically cleaned absolute path. *)
Definition clean_step (clean : list str) (component : str) : list str :=
  if bool_decide (component = []) || bool_decide (component = st ".") then clean
  else if bool_decide (component = st "..") then removelast clean
  else clean ++ [component].
Definition absolute `{Host} (path : str) : list str :=
  let joined := if starts_with [SLASH] path then path else cwd ++ [SLASH] ++ path in
  foldl clean_step [] (split (λ c, c =? SLASH) joined).

Definition display_path (root : list str) : str := [SLASH] ++ join [SLASH] root.

Definition source_extension `{Debug} (format : str) : outcome Error str :=
  if bool_decide (format = st "flac") then Ok (st ".flac")
  else if bool_decide (format = st "wav") then Ok (st ".wav")
  else if bool_decide (format = st "m4a") then Ok (st ".m4a")
  else if bool_decide (format = st "mp3") then Ok (st ".mp3")
  else if bool_decide (format = st "ogg") then Ok (st ".ogg")
  else if bool_decide (format = st "opus") then Ok (st ".opus")
  else Err (error_validation (validation_new (st "unsupported_format") (st "format") [])
              (st "validated Source Audio Format " ++ debug_str format
                 ++ st " has no canonical extension")).

Definition artwork_extension (media_type : str) : str :=
  if bool_decide (media_type = st "image/jpeg") then st ".jpg"
  else if bool_decide (media_type = st "image/webp") then st ".webp"
  else st ".png".

Definition DASH : Z := 45.
Definition is_slug_char (c : Z) : bool := in_range 97 122 c || in_range 48 57 c.

(** [SLUG_SEPARATORS.replace_all]: a hyphen for each run of other characters;
    [skipping] while inside one. *)
Fixpoint replace_separators (skipping : bool) (s : str) : str :=
  match s with
  | [] => []
  | c :: s' =>
      if is_slug_char c then c :: replace_separators false s'
      else if skipping then replace_separators true s'
      else DASH :: replace_separators true s'
  end.

Definition slug `{Unicode} (value : str) : str :=
  let lowered := (λ c, if c <? 128 then c else DASH) <$> go_lower value in
  let trim_dashes := trim_matches (λ c, c =? DASH) in
  let slug := trim_dashes (replace_separators false lowered) in
  let slug := if (MAX_SLUG_BYTES <? length slug)%nat
              then trim_dashes (take MAX_SLUG_BYTES slug) else slug in
  if bool_decide (slug = []) then st "untitled" else slug.

(** [{:02}]. *)
Definition pad2 (n : Z) : str :=
  let s := show n in if (length s <? 2)%nat then 48 :: s else s.

(** ** The store *)

Record Storage := mkStorage {
  root : list str;
  initialization_error : option Error;
  reserve : Z;
  file_limit : Z;
  batch_limit : Z
}.

(** [Storage::with_capacity]. *)
Definition storage_new `{Host} (path : str) (limits : StorageLimits) : Storage :=
  let absolute_root := absolute path in
  mkStorage absolute_root
    (if bool_decide (trim path = []) then
       Some (error_new (st "managed storage root is not configured"))
     else if bool_decide (absolute_root = []) then
       Some (wrap UnsafeStoragePath (st "filesystem root cannot be Managed Storage"))
     else if (reserve_bytes limits <? 0) || (file_bytes limits <=? 0) || (batch_bytes limits <=? 0) then
       Some (error_new (st "managed storage limits are invalid"))
     else if (file_bytes limits =? i64_max) || (batch_bytes limits =? i64_max) then
       Some (error_new (st "managed import limits exceed supported byte counts"))
     else None)
    (reserve_bytes limits) (file_bytes limits) (batch_bytes limits).

(** [io]. *)
Definition io (context : str) (e : FsError) : Error := error_new (context ++ st ": " ++ fs_text e).

Section Store.
Context `{FS : FileSystem} {DB : Type} `{Host} `{Debug} `{Unicode}.

Abbreviation IO A := (M (Machine DB) FsError A).
Abbreviation Do A := (M (Machine DB) Error A).

(** ** Operations of the host *)

Definition tick (s : Machine DB) : Machine DB := mkMachine (disk s) (db s) (S (clock s)).

Definition fs_op {A} (go : Disk → FsError + (A * Disk)) : IO A := fun s =>
  match turn (clock s) with
  | Die => (Panic, tick s)
  | Refuse reason | Lost reason => (Err (mkFsError KOther reason), tick s)
  | Go =>
      match go (disk s) with
      | inl e => (Err e, tick s)
      | inr (a, d) => (Ok a, mkMachine d (db s) (S (clock s)))
      end
  end.

(** An operation outside the store, or one whose effect is not modelled. *)
Definition host_op : IO unit := fs_op (λ d, inr (tt, d)).

(** Opening or making a directory on the way to the root. *)
Definition outside_op : IO unit := fun s =>
  match host_op s, outside (clock s) with
  | (Ok _, s'), Some e => (Err e, s')
  | r, _ => r
  end.

Definition effect (f : Disk → FsError + Disk) : IO unit :=
  fs_op (λ d, match f d with inl e => inl e | inr d' => inr (tt, d') end).
Definition query {A} (f : Disk → FsError + A) : IO A :=
  fs_op (λ d, match f d with inl e => inl e | inr a => inr (a, d) end).

Definition symlink_metadata (p : str) : IO Entry := query (fs_lstat (names p)).
Definition metadata (p : str) : IO Entry := query (fs_stat (names p)).
Definition rename (a b : str) : IO unit := effect (fs_rename (names a) (names b)).
Definition remove_file (p : str) : IO unit := effect (fs_remove_file (names p)).
Definition create_dir (p : str) : IO unit := effect (fs_create_dir (names p)).
Definition remove_dir (p : str) : IO unit := effect (fs_remove_dir (names p)).
Definition create_new (p : str) : IO unit := effect (fs_create_new (names p)).
Definition read_dir (p : str) : IO (list str) := query (fs_read_dir (names p)).

(** [write_all]: it may stop anywhere, so the bytes go out in two parts. *)
Definition write_all (p : str) (data : list byte) : IO unit := fun s =>
  let k := Z.to_nat (granted (clock s)) in
  (_ ← effect (fs_append (names p) (take k data)); effect (fs_append (names p) (drop k data))) s.

(** A value the host decides at each operation. *)
Definition ask {A} (f : nat → A) : Do A := fun s => (Ok (f (clock s)), tick s).

(** The error of a step that may fail without failing the caller ([.err()]). *)
Definition catch {A} (m : Do A) : Do (Error + A) := fun s =>
  match m s with
  | (Ok a, s') => (Ok (inr a), s')
  | (Err e, s') => (Ok (inl e), s')
  | (Panic, s') => (Panic, s')
  | (OutOfFuel, s') => (OutOfFuel, s')
  end.
Definition errs {A} (m : Do A) : Do (option Error) :=
  r ← catch m; mret (match r with inl e => Some e | inr _ => None end).

(** [Error::join(parts).unwrap()] as the caller's error. *)
Definition fail_join {A} (parts : list (option Error)) : Do A :=
  match ejoin parts with Some e => fail e | None => lift Panic end.

Definition join_result (parts : list (option Error)) : Do unit := lift (result_of (ejoin parts)).

(** ** The root *)

Definition OPEN_ROOT : str := st "open Managed Storage root".

(** An operation whose failure the code looks at. *)
Definition attempt {A} (m : IO A) : Do (FsError + A) := fun s =>
  match m s with
  | (Ok a, s') => (Ok (inr a), s')
  | (Err e, s') => (Ok (inl e), s')
  | (Panic, s') => (Panic, s')
  | (OutOfFuel, s') => (OutOfFuel, s')
  end.

(** The answer of the last attempt to open a component. *)
Definition component_opened (component : str) (opened : FsError + unit) : Do unit :=
  match opened with
  | inr _ => mret tt
  | inl e =>
      if bool_decide (kind e = KLink) then
        fail (in_context OPEN_ROOT
                (wrap UnsafeStoragePath (component ++ st " changed or is a symbolic link")))
      else fail (io (OPEN_ROOT ++ st ": open " ++ component) e)
  end.

Definition open_component (name : str) : Do unit :=
  let component := st "Managed Storage root component " ++ debug_str name in
  opened ← attempt outside_op;
  opened ← (match opened with
            | inl e =>
                if not_found e then
                  created ← attempt outside_op;
                  match created with
                  | inl e =>
                      if bool_decide (kind e = KAlreadyExists) then attempt outside_op
                      else fail (io (OPEN_ROOT ++ st ": create " ++ component) e)
                  | _ => attempt outside_op
                  end
                else mret opened
            | _ => mret opened
            end);
  component_opened component opened.

Fixpoint open_components (root : list str) : Do unit :=
  match root with
  | [] => mret tt
  | name :: root => _ ← open_component name; open_components root
  end.

Definition open_root (store : Storage) : Do unit :=
  match initialization_error store with
  | Some e => fail e
  | None =>
      _ ← on_err (io (OPEN_ROOT ++ st ": open filesystem root")) host_op;
      _ ← open_components (root store);
      _ ← on_err (io (st "inspect opened Managed Storage root")) host_op;
      _ ← on_err (io (st "inspect Managed Storage root identity")) host_op;
      same ← ask same_root;
      if same : bool then mret tt
      else fail (wrap UnsafeStoragePath (st "Managed Storage root changed while opening"))
  end.

(** ** Paths beneath the root *)

Definition relative_path (store : Storage) (path : str) : outcome Error str :=
  let absolute_path := absolute path in
  if bool_decide (take (length (root store)) absolute_path = root store)
     && bool_decide (absolute_path ≠ root store)
  then Ok (join [SLASH] (drop (length (root store)) absolute_path))
  else Err (wrap UnsafeStoragePath (st "path " ++ debug_str path ++ st " escapes Managed Storage")).

Definition optional_relative_path (store : Storage) (path : str) : outcome Error str :=
  if bool_decide (path = []) then Ok [] else relative_path store path.

Definition absolute_path (store : Storage) (relative : str) : str :=
  if starts_with [SLASH] relative then relative
  else display_path (root store) ++ [SLASH] ++ relative.

Definition optional_absolute_path (store : Storage) (relative : str) : str :=
  if bool_decide (relative = []) then [] else absolute_path store relative.

(** ** Room *)

Definition validate_upload_length (store : Storage) (content_length : Z) : outcome Error unit :=
  if file_limit store <? content_length then Err (sentinel UploadTooLarge)
  else if batch_limit store <? content_length then Err (sentinel BatchTooLarge)
  else Ok tt.

Definition upload_reservation_size (store : Storage) (content_length : Z) : outcome Error Z :=
  _ ← validate_upload_length store content_length; Ok (Z.max content_length 0).

Definition stream_limit (store : Storage) : Z * Sentinel :=
  if batch_limit store <? file_limit store then (batch_limit store, BatchTooLarge)
  else (file_limit store, UploadTooLarge).

Definition checked_sum (ns : list Z) : option Z :=
  foldl (λ acc n, s ← acc; if bool_decide (is_i64 (s + n)) then Some (s + n) else None) (Some 0) ns.

Definition preflight (store : Storage) (r : Requirement) : Do unit :=
  if (selected_bytes r <? 0) || (temporary_bytes r <? 0) then
    fail (error_new (st "managed storage preflight byte counts must not be negative"))
  else
    _ ← open_root store;
    required ← lift (ok_or (checked_sum [reserve store; selected_bytes r; temporary_bytes r])
                       (error_new (st "managed storage preflight byte count overflow")));
    _ ← on_err (io (st "inspect Managed Storage capacity")) host_op;
    available ← ask free_bytes;
    if available <? required then
      fail (wrap InsufficientStorage
              (show available ++ st " bytes available, " ++ show required ++ st " bytes required"))
    else mret tt.

(** ** Shared steps *)

Definition remove_rooted_file (path description : str) : Do unit :=
  r ← attempt (remove_file path);
  match r with
  | inl e => if not_found e then mret tt
             else fail (io (st "remove " ++ description ++ st " " ++ debug_str path) e)
  | _ => mret tt
  end.

Definition restore_rooted_file (from to : str) : Do unit :=
  on_err (io (st "restore Managed Import staging file from " ++ debug_str from ++ st " to "
                ++ debug_str to)) (rename from to).

Fixpoint ensure_components (current : str) (components : list str) : Do unit :=
  match components with
  | [] => mret tt
  | component :: components =>
      let current := join_parts [current; component] in
      found ← attempt (symlink_metadata current);
      _ ← (match found with
           | inl e =>
               if not_found e then
                 on_err (io (st "create Managed Storage directory " ++ debug_str current))
                   (create_dir current)
               else fail (io (st "inspect Managed Storage directory " ++ debug_str current) e)
           | inr ELink => fail (wrap UnsafeStoragePath
                                 (st "directory " ++ debug_str current ++ st " is a symbolic link"))
           | inr (EFile _) => fail (error_new (st "managed storage path " ++ debug_str current
                                                ++ st " is not a directory"))
           | _ => mret tt
           end);
      ensure_components current components
  end.

Definition ensure_directory (path : str) : Do unit :=
  _ ← ensure_components [] (names path);
  on_err (io (st "protect Managed Storage directory " ++ debug_str path)) host_op.

Fixpoint reject_links (current : str) (components : list str) : Do unit :=
  match components with
  | [] => mret tt
  | component :: components =>
      let current := join_parts [current; component] in
      found ← on_err (io (st "inspect Managed Storage path " ++ debug_str current))
                (symlink_metadata current);
      match found with
      | ELink => fail (wrap UnsafeStoragePath
                         (st "path " ++ debug_str current ++ st " is a symbolic link"))
      | _ => reject_links current components
      end
  end.
Definition reject_symlinks (path : str) : Do unit := reject_links [] (names path).

Definition IS_A_DIRECTORY : FsError := mkFsError KOther (st "Is a directory (os error 21)").

(** The read loop of [verify_rooted_file_hash]: every read grants at least one
    byte until the file ends. An interrupted read is tried again and is no turn. *)
Fixpoint hash_loop (fuel : nat) (cancelled : nat → bool) (hashed rest : list byte)
    : Do (list byte) :=
  match fuel with
  | O => lift OutOfFuel
  | S fuel =>
      stop ← ask cancelled;
      if stop : bool then
        fail (in_context (st "hash Managed Storage file") (sentinel Cancelled))
      else
        _ ← on_err (io (st "hash Managed Storage file")) host_op;
        k ← ask granted;
        let k := S (Z.to_nat (Z.min k 262143)) in
        if bool_decide (rest = []) then mret hashed
        else hash_loop fuel cancelled (hashed ++ take k rest) (drop k rest)
  end.

Definition verify_rooted_file_hash (path expected : str) (cancelled : nat → bool) : Do unit :=
  _ ← reject_symlinks path;
  opened ← on_err (io (st "open Managed Storage file for verification")) (metadata path);
  data ← (match opened with
          | EFile data => hash_loop (S (length data)) cancelled [] data
          | _ => fail (io (st "hash Managed Storage file") IS_A_DIRECTORY)
          end);
  let actual := digest_hex data in
  if bool_decide (actual = expected) then mret tt
  else fail (error_new (st "verify Managed Storage file hash: got " ++ actual ++ st ", want "
                          ++ expected)).

Definition never : nat → bool := λ _, false.

Definition ERROR_CODE_ALBUM_ARTWORK_CONFLICT : str := st "album_artwork_conflict".

Definition verify_matching_artwork (path expected : str) : Do unit :=
  on_err (λ e, error_validation
                 (validation_new ERROR_CODE_ALBUM_ARTWORK_CONFLICT (st "artwork")
                    (st "canonical Album Artwork differs from the selected Album")) (text e))
    (verify_rooted_file_hash path expected never).

(** [write_rooted_artwork]: whether this call created the file. *)
Definition write_rooted_artwork (path : str) (data : list byte) (expected : str)
    (created : option (Do unit)) : Do bool :=
  opened ← attempt (create_new path);
  match opened with
  | inl e =>
      if bool_decide (kind e = KAlreadyExists) then
        _ ← verify_matching_artwork path expected; mret false
      else fail (io (st "create canonical Album Artwork") e)
  | _ =>
      let abandon e :=
        removed ← errs (remove_rooted_file path (st "Canonical Album Artwork"));
        fail_join [Some e; removed] in
      marked ← catch (match created with Some m => m | None => mret tt end);
      match marked with
      | inl e => abandon e
      | _ =>
          written ← attempt (write_all path data);
          match written with
          | inl e => abandon (io (st "write Album Artwork") e)
          | _ =>
              verified ← catch (verify_rooted_file_hash path expected never);
              match verified with
              | inl e => abandon e
              | _ => mret true
              end
          end
      end
  end.

(** The walk up of [remove_empty_directories_under]; the directory's components
    are fuel enough. *)
Fixpoint remove_empty_up (fuel : nat) (directory boundary : str) : Do unit :=
  if bool_decide (directory = st ".") || bool_decide (directory = [])
     || bool_decide (directory = boundary) then mret tt
  else
    match fuel with
    | O => lift OutOfFuel
    | S fuel =>
        let up := remove_empty_up fuel (parent directory) boundary in
        listed ← attempt (read_dir directory);
        match listed with
        | inl e =>
            if not_found e then up
            else fail (io (st "open Managed Storage directory " ++ debug_str directory
                             ++ st " for cleanup") e)
        | inr (_ :: _) => mret tt
        | _ =>
            removed ← attempt (remove_dir directory);
            match removed with
            | inl e =>
                if not_found e then up
                else fail (io (st "remove empty Managed Storage directory " ++ debug_str directory) e)
            | _ => up
            end
        end
    end.
Definition remove_empty_directories_under (directory boundary : str) : Do unit :=
  remove_empty_up (S (length directory)) directory boundary.
(** ** Staging *)

Record StageEnd := mkEnd {
  end_failure : option Error;
  interrupted : bool;
  over_limit : bool;
  written : Z;
  staged_data : list byte
}.

(** The loop of [stage_upload] over the chunks of the body; the next chunk is
    itself a computation, because asking for it reserves room in the batch. *)
Fixpoint stage_chunks (store : Storage) (relative : str) (content_length limit : Z)
    (body : list (Do (list byte))) (checked : bool) (since_check : Z) (staged : list byte)
    : Do StageEnd :=
  match body with
  | [] => mret (mkEnd None false false (zlen staged) staged)
  | next :: body =>
      chunk ← catch next;
      match chunk with
      | inl e =>
          mret (mkEnd (Some e) (error_is e UploadInterrupted || error_is e Cancelled) false
                  (zlen staged) staged)
      | inr chunk =>
          if limit <? zlen staged + zlen chunk then
            mret (mkEnd None false true (zlen staged) staged)
          else
            let check := negb checked || (CAPACITY_CHECK_INTERVAL_BYTES <=? since_check + zlen chunk) in
            let remaining := if 0 <=? content_length then content_length - zlen staged else -1 in
            let probe := if (0 <=? remaining) && (remaining <? CAPACITY_CHECK_INTERVAL_BYTES)
                         then remaining else CAPACITY_CHECK_INTERVAL_BYTES in
            let probe := Z.max probe (zlen chunk) in
            room ← (if check then errs (preflight store (mkRequirement probe 0)) else mret None);
            match room with
            | Some e => mret (mkEnd (Some e) false false (zlen staged) staged)
            | None =>
                wrote ← attempt (write_all relative chunk);
                match wrote with
                | inl e =>
                    mret (mkEnd (Some (io (st "write Managed Import staging file") e)) false false
                            (zlen staged) staged)
                | _ =>
                    stage_chunks store relative content_length limit body true
                      ((if check then 0 else since_check) + zlen chunk) (staged ++ chunk)
                end
            end
      end
  end.

Definition STAGING_FILE : str := st "Managed Import staging file".

Definition stage_upload (store : Storage) (body : list (Do (list byte))) (content_length : Z)
    : Do StagedUpload :=
  _ ← lift (validate_upload_length store content_length);
  _ ← (if 0 <? content_length then preflight store (mkRequirement content_length 0) else mret tt);
  _ ← open_root store;
  _ ← ensure_directory STAGING;
  uuid ← ask new_uuid;
  let relative := STAGING ++ st "/.import-" ++ uuid ++ st ".upload" in
  _ ← on_err (io (st "create " ++ STAGING_FILE)) (create_new relative);
  let '(limit, limit_sentinel) := stream_limit store in
  e ← stage_chunks store relative content_length limit body false 0 [];
  close ← attempt host_op;
  let close := match close with inl c => Some (io (st "close " ++ STAGING_FILE) c) | _ => None end in
  let short := (0 <=? content_length) && (written e <? content_length) in
  if over_limit e || bool_decide (is_Some (end_failure e)) || bool_decide (is_Some close) || short then
    removed ← errs (remove_rooted_file relative STAGING_FILE);
    if over_limit e then fail_join [Some (sentinel limit_sentinel); removed]
    else if short || interrupted e then
      fail_join [Some (sentinel UploadInterrupted); Some (error_new (st "unexpected EOF"));
                 end_failure e; close; removed]
    else fail_join [end_failure e; close; removed]
  else
    mret (mkStaged (absolute_path store relative) (written e) (digest_hex (staged_data e))).

Definition staged_file_size (store : Storage) (path : str) : Do Z :=
  relative ← lift (relative_path store path);
  _ ← open_root store;
  _ ← reject_symlinks relative;
  found ← on_err (io (st "stat staged Managed Track")) (metadata relative);
  match found with
  | EFile data => mret (zlen data)
  | _ => fail (wrap UnsafeStoragePath (st "staged Managed Track is not a regular file"))
  end.

Definition remove_staged (store : Storage) (path : str) : Do unit :=
  relative ← lift (relative_path store path);
  _ ← open_root store;
  remove_rooted_file relative STAGING_FILE.

Definition is_upload_name (name : str) : bool :=
  starts_with (st ".import-") name && bool_decide (is_Some (strip_suffix (st ".upload") name)).

(** The loop of [remove_all_staged], with the failures so far. *)
Fixpoint remove_uploads (entries : list str) (failures : list (option Error)) : Do unit :=
  match entries with
  | [] => join_result failures
  | name :: entries =>
      _ ← on_err (io (st "list Managed Import staging files")) host_op;
      if is_upload_name name then
        failure ← errs (remove_rooted_file (STAGING ++ st "/" ++ name) STAGING_FILE);
        remove_uploads entries (failures ++ [failure])
      else remove_uploads entries failures
  end.

Definition remove_all_staged (store : Storage) : Do unit :=
  _ ← open_root store;
  listed ← attempt (read_dir STAGING);
  match listed with
  | inl e => if not_found e then mret tt
             else fail (io (st "open Managed Import staging directory") e)
  | inr entries => remove_uploads entries []
  end.

(** ** Placing a Track *)

Definition album_directory (inspection : MediaInspection) (identity : CommitIdentity) : outcome Error str :=
  artist ← index (album_artists (inspected inspection)) 0;
  Ok (join_parts [CANONICAL_LIBRARY_ROOT;
                  slug artist ++ [DASH] ++ album_artist_id identity;
                  slug (album (inspected inspection)) ++ [DASH] ++ album_id identity]).

Definition plan_placement_in_album (store : Storage) (staged_path : str)
    (inspection : MediaInspection) (track_id album_relative artwork_relative : str)
    : outcome Error PlacedFiles :=
  staged ← relative_path store staged_path;
  extension ← source_extension (format (audio inspection));
  let m := inspected inspection in
  let filename := pad2 (number (disc_position m)) ++ [DASH] ++ pad2 (number (track_position m))
                  ++ [DASH] ++ slug (title m) ++ [DASH] ++ track_id ++ extension in
  let audio := album_relative ++ [SLASH] ++ filename in
  Ok (mkPlaced (absolute_path store audio) (optional_absolute_path store artwork_relative)
        audio artwork_relative staged false).

(** [existing_canonical_album]: the artwork and the album directory. *)
Definition existing_canonical_album (store : Storage) (identity : CommitIdentity)
    : outcome Error (str * str) :=
  artwork ← relative_path store (existing_artwork_path identity);
  let album := parent artwork in
  let ends id part := bool_decide (is_Some (strip_suffix ([DASH] ++ id) part)) in
  let canonical :=
    match split (λ c, c =? SLASH) album with
    | [a; b; c] =>
        bool_decide (a = CANONICAL_LIBRARY_ROOT) && ends (album_artist_id identity) b
        && ends (album_id identity) c && starts_with (st "cover.") (base artwork)
    | _ => false
    end in
  if canonical then Ok (artwork, album)
  else Err (wrap UnsafeStoragePath (st "existing Album Artwork path is not canonical")).

Definition cover_name (inspection : MediaInspection) : str :=
  st "cover" ++ artwork_extension (mime_type (album_artwork inspection)).

Definition plan_placement (store : Storage) (staged_path : str) (inspection : MediaInspection)
    (identity : CommitIdentity) : outcome Error PlacedFiles :=
  album ← album_directory inspection identity;
  let artwork := if bool_decide (sha256 (album_artwork inspection) = []) then []
                 else album ++ [SLASH] ++ cover_name inspection in
  '(artwork, album) ← (if bool_decide (existing_artwork_path identity = []) then Ok (artwork, album)
                       else existing_canonical_album store identity);
  plan_placement_in_album store staged_path inspection (track_id identity) album artwork.

Definition with_created (p : PlacedFiles) (created : bool) : PlacedFiles :=
  mkPlaced (audio_path p) (artwork_path p) (audio_relative p) (artwork_relative p)
    (staged_relative p) created.

(** [prepare_artwork]: the placement with the path of existing artwork, and
    whether artwork is to be created. *)
Definition prepare_artwork (p : PlacedFiles) (inspection : MediaInspection)
    (identity : CommitIdentity) : Do (PlacedFiles * bool) :=
  if bool_decide (existing_artwork_path identity = []) then
    if bool_decide (artwork_relative p = []) then mret (p, false)
    else
      found ← attempt (metadata (artwork_relative p));
      match found with
      | inr _ =>
          _ ← verify_matching_artwork (artwork_relative p) (sha256 (album_artwork inspection));
          mret (p, false)
      | inl e => if not_found e then mret (p, true)
                 else fail (io (st "inspect Canonical Album Artwork path") e)
      end
  else
    let p := mkPlaced (audio_path p) (existing_artwork_path identity) (audio_relative p)
               (artwork_relative p) (staged_relative p) (artwork_created p) in
    _ ← on_err (in_context (st "verify existing Album Artwork"))
          (verify_rooted_file_hash (artwork_relative p) (existing_artwork_sha256 identity) never);
    mret (p, false).

Definition place_planned (store : Storage) (p : PlacedFiles) (inspection : MediaInspection)
    (identity : CommitIdentity) (audio_operation : str) (created : option (Do unit))
    : Do PlacedFiles :=
  _ ← open_root store;
  _ ← ensure_directory (parent (audio_relative p));
  '(p, should_create) ← prepare_artwork p inspection identity;
  _ ← on_err (io audio_operation) (rename (staged_relative p) (audio_relative p));
  if should_create : bool then
    let artwork := album_artwork inspection in
    made ← catch (write_rooted_artwork (artwork_relative p) (artwork_data artwork) (sha256 artwork) created);
    match made with
    | inr made => mret (with_created p made)
    | inl e =>
        restored ← errs (restore_rooted_file (audio_relative p) (staged_relative p));
        fail_join [Some e; restored]
    end
  else mret p.

Definition place (store : Storage) (staged_path : str) (inspection : MediaInspection)
    (identity : CommitIdentity) (created : option (Do unit)) : Do PlacedFiles :=
  p ← lift (plan_placement store staged_path inspection identity);
  place_planned store p inspection identity
    (st "place Managed Track at Canonical Library Path") created.

Definition verify_placement (store : Storage) (p : PlacedFiles) (audio_sha256 artwork_sha256 : str)
    : Do unit :=
  _ ← open_root store;
  _ ← on_err (in_context (st "verify canonical Managed Track"))
        (verify_rooted_file_hash (audio_relative p) audio_sha256 never);
  if bool_decide (artwork_relative p = []) then mret tt
  else on_err (in_context (st "verify canonical Album Artwork"))
         (verify_rooted_file_hash (artwork_relative p) artwork_sha256 never).

Definition cleanup_placement (store : Storage) (p : PlacedFiles) : Do unit :=
  remove_staged store (absolute_path store (staged_relative p)).

Definition remove_created_artwork (p : PlacedFiles) (description : str) : Do (option Error) :=
  if artwork_created p then errs (remove_rooted_file (artwork_relative p) description) else mret None.

Definition rollback (store : Storage) (p : PlacedFiles) : Do unit :=
  _ ← open_root store;
  artwork ← remove_created_artwork p (st "Canonical Album Artwork");
  restored ← errs (restore_rooted_file (audio_relative p) (staged_relative p));
  directories ← errs (remove_empty_directories_under (parent (audio_relative p)) CANONICAL_LIBRARY_ROOT);
  join_result [artwork; restored; directories].

Definition cleanup_prepared_placement (store : Storage) (p : PlacedFiles) : Do unit :=
  _ ← open_root store;
  artwork ← remove_created_artwork p (st "uncommitted Canonical Album Artwork");
  directories ← errs (remove_empty_directories_under (parent (audio_relative p)) CANONICAL_LIBRARY_ROOT);
  join_result [artwork; directories].

(** ** Managed files *)

Definition NOT_REGULAR : Error :=
  wrap UnsafeStoragePath (st "managed Track source is not a regular file").

Definition identity_changed (e : Error) : Error :=
  wrap UnsafeStoragePath (st "managed Track source identity changed: " ++ text e).

Definition resolve_managed_file (store : Storage) (path expected_hash : str) : Do (str * Z) :=
  relative ← lift (relative_path store path);
  _ ← open_root store;
  _ ← on_err (λ e, wrap UnsafeStoragePath (st "cannot resolve managed Track source: " ++ text e))
        (reject_symlinks relative);
  found ← attempt (metadata relative);
  match found with
  | inr (EFile data) =>
      _ ← on_err identity_changed (verify_rooted_file_hash relative expected_hash never);
      mret (relative, zlen data)
  | _ => fail NOT_REGULAR
  end.

(** [remove_managed_file]; [true] also when the file is already gone. *)
Definition remove_managed_file (store : Storage) (cancelled : nat → bool) (path expected_hash : str)
    : Do bool :=
  stop ← ask cancelled;
  if stop : bool then fail (sentinel Cancelled) else
  relative ← lift (relative_path store path);
  _ ← open_root store;
  _ ← on_err (λ e, wrap UnsafeStoragePath (st "cannot resolve managed Track directory: " ++ text e))
        (reject_symlinks (parent relative));
  found ← attempt (symlink_metadata relative);
  match found with
  | inl e => if not_found e then mret true else fail NOT_REGULAR
  | inr (EFile _) =>
      verified ← catch (verify_rooted_file_hash relative expected_hash cancelled);
      match verified with
      | inl e =>
          stop ← ask cancelled;
          if stop : bool then fail (sentinel Cancelled) else fail (identity_changed e)
      | _ =>
          stop ← ask cancelled;
          if stop : bool then fail (sentinel Cancelled) else
          _ ← on_err (io (st "remove Managed Track source")) (remove_file relative);
          mret true
      end
  | _ => fail NOT_REGULAR
  end.

(** ** Track Replacement *)

Definition album_artwork_conflict (reason : str) : Error :=
  error_validation (validation_new ERROR_CODE_ALBUM_ARTWORK_CONFLICT (st "artwork") reason) reason.

Definition with_artwork (p : ReplacementPlacement) (path : str) (mode : ArtworkMode)
    (relative pending previous retired : str) : ReplacementPlacement :=
  mkReplacement (r_audio_path p) path mode (r_staged p) (pending_audio p) (r_audio p)
    (previous_audio p) (retired_audio p) pending relative previous retired (r_artwork_created p).

Definition plan_replacement_artwork (store : Storage) (p : ReplacementPlacement)
    (planned : PlacedFiles) (inspection : MediaInspection) (identity : CommitIdentity)
    (target : ReplacementTarget) (album_relative : str) : outcome Error ReplacementPlacement :=
  let is_moving_album := bool_decide (album_id identity ≠ target_album_id target) in
  let existing := existing_artwork_path identity in
  previous ← (if is_moving_album && is_sole_track target
                 && bool_decide (target_artwork_path target ≠ [])
              then relative_path store (target_artwork_path target) else Ok []);
  if bool_decide (existing = []) && bool_decide (sha256 (album_artwork inspection) = []) then
    Ok (with_artwork p [] ModeNone [] [] previous [])
  else if bool_decide (existing = []) then
    Ok (with_artwork p (artwork_path planned) ModeCreate (artwork_relative planned) [] previous [])
  else
    existing_relative ← relative_path store existing;
    if bool_decide (existing_artwork_sha256 identity = sha256 (album_artwork inspection)) then
      Ok (with_artwork p existing ModeExisting existing_relative [] previous [])
    else if is_moving_album || negb (is_sole_track target) then
      Err (album_artwork_conflict (st "embedded Album Artwork differs from the existing Album"))
    else
      Ok (with_artwork p (artwork_path planned) ModeReplace (artwork_relative planned)
            (album_relative ++ st "/.replacement-cover"
               ++ artwork_extension (mime_type (album_artwork inspection)))
            existing_relative
            (album_relative ++ st "/.retired-cover" ++ path_extension existing_relative)).

Definition plan_replacement_placement (store : Storage) (staged_path : str)
    (inspection : MediaInspection) (identity : CommitIdentity) (target : ReplacementTarget)
    : outcome Error ReplacementPlacement :=
  album ← (if bool_decide (existing_artwork_path identity = []) then album_directory inspection identity
           else '(_, album) ← existing_canonical_album store identity; Ok album);
  extension ← source_extension (format (audio inspection));
  staged ← relative_path store staged_path;
  planned ← plan_placement_in_album store staged_path inspection (track_id identity) album
              (album ++ [SLASH] ++ cover_name inspection);
  plan_replacement_artwork store
    (mkReplacement (audio_path planned) [] ModeNone staged
       (album ++ st "/.replacement-" ++ track_id identity ++ extension)
       (audio_relative planned) (relative_path_of target)
       (join_dir (parent (relative_path_of target))
          (st ".retired-" ++ track_id identity ++ path_extension (relative_path_of target)))
       [] [] [] [] false)
    planned inspection identity target album.

Definition r_with_created (p : ReplacementPlacement) (created : bool) : ReplacementPlacement :=
  mkReplacement (r_audio_path p) (r_artwork_path p) (artwork_mode p) (r_staged p) (pending_audio p)
    (r_audio p) (previous_audio p) (retired_audio p) (pending_artwork p) (r_artwork p)
    (previous_artwork p) (retired_artwork p) created.

Definition place_replacement (store : Storage) (p : ReplacementPlacement)
    (inspection : MediaInspection) (identity : CommitIdentity) (created : option (Do unit))
    : Do ReplacementPlacement :=
  _ ← open_root store;
  _ ← ensure_directory (parent (r_audio p));
  _ ← on_err (io (st "place replacement Managed Track on pending path"))
        (rename (r_staged p) (pending_audio p));
  let artwork := album_artwork inspection in
  made ← catch (match artwork_mode p with
              | ModeNone => mret false
              | ModeExisting =>
                  on_err (in_context (st "verify existing Album Artwork"))
                    (_ ← verify_rooted_file_hash (r_artwork p) (existing_artwork_sha256 identity) never;
                     mret false)
              | ModeReplace =>
                  write_rooted_artwork (pending_artwork p) (artwork_data artwork) (sha256 artwork) created
              | ModeCreate =>
                  write_rooted_artwork (r_artwork p) (artwork_data artwork) (sha256 artwork) created
              end);
  match made with
  | inr made => mret (r_with_created p made)
  | inl e =>
      restored ← errs (restore_rooted_file (pending_audio p) (r_staged p));
      fail_join [Some e; restored]
  end.

Definition verify_replacement (store : Storage) (p : ReplacementPlacement)
    (audio_sha256 artwork_sha256 : str) : Do unit :=
  _ ← open_root store;
  _ ← on_err (in_context (st "verify pending replacement Managed Track"))
        (verify_rooted_file_hash (pending_audio p) audio_sha256 never);
  let artwork := if bool_decide (artwork_mode p = ModeReplace) then pending_artwork p else r_artwork p in
  if bool_decide (artwork = []) then mret tt
  else on_err (in_context (st "verify replacement Album Artwork"))
         (verify_rooted_file_hash artwork artwork_sha256 never).

Definition undo_audio_swap (p : ReplacementPlacement) : Do unit :=
  replacement ← errs (restore_rooted_file (r_audio p) (pending_audio p));
  previous ← errs (restore_rooted_file (retired_audio p) (previous_audio p));
  join_result [replacement; previous].

Definition swap_replacement (store : Storage) (p : ReplacementPlacement) : Do unit :=
  _ ← open_root store;
  _ ← on_err (io (st "retire previous Managed Track")) (rename (previous_audio p) (retired_audio p));
  placed ← attempt (rename (pending_audio p) (r_audio p));
  match placed with
  | inl e =>
      restored ← errs (restore_rooted_file (retired_audio p) (previous_audio p));
      join_result [Some (io (st "place replacement Managed Track at Canonical Library Path") e); restored]
  | _ =>
      if bool_decide (artwork_mode p ≠ ModeReplace) then mret tt else
      retired ← attempt (rename (previous_artwork p) (retired_artwork p));
      match retired with
      | inl e =>
          undone ← errs (undo_audio_swap p);
          join_result [Some (io (st "retire previous Album Artwork") e); undone]
      | _ =>
          placed ← attempt (rename (pending_artwork p) (r_artwork p));
          match placed with
          | inl e =>
              restored ← errs (restore_rooted_file (retired_artwork p) (previous_artwork p));
              undone ← errs (undo_audio_swap p);
              join_result [Some (io (st "place replacement Album Artwork") e); restored; undone]
          | _ => mret tt
          end
      end
  end.

Definition stream_swapped_replacement (store : Storage) (p : ReplacementPlacement)
    (audio_sha256 : str) : Do unit :=
  _ ← open_root store;
  _ ← on_err (in_context (st "verify canonical replacement Managed Track"))
        (verify_rooted_file_hash (r_audio p) audio_sha256 never);
  _ ← on_err (io (st "open canonical replacement stream")) (metadata (r_audio p));
  on_err (io (st "stream canonical replacement Managed Track")) host_op.

Definition restore_if_present (from to : str) : Do unit :=
  found ← attempt (symlink_metadata from);
  match found with
  | inl e => if not_found e then mret tt
             else fail (io (st "inspect " ++ debug_str from ++ st " before restore") e)
  | _ =>
      taken ← attempt (symlink_metadata to);
      match taken with
      | inr _ => fail (wrap UnsafeStoragePath
                        (st "restore target " ++ debug_str to ++ st " already exists"))
      | _ => restore_rooted_file from to
      end
  end.

Definition undo_retired_swap (retired previous canonical pending : str) : Do unit :=
  found ← attempt (symlink_metadata retired);
  match found with
  | inl e => if not_found e then mret tt
             else fail (io (st "inspect retired Managed Storage file " ++ debug_str retired) e)
  | _ =>
      replacement ← errs (restore_if_present canonical pending);
      kept ← errs (restore_if_present retired previous);
      join_result [replacement; kept]
  end.

Definition rollback_replacement (store : Storage) (p : ReplacementPlacement) : Do unit :=
  _ ← open_root store;
  let replaces := bool_decide (artwork_mode p = ModeReplace) in
  artwork_swap ←
    (if replaces then
       errs (undo_retired_swap (retired_artwork p) (previous_artwork p) (r_artwork p) (pending_artwork p))
     else mret None);
  audio_swap ←
    errs (undo_retired_swap (retired_audio p) (previous_audio p) (r_audio p) (pending_audio p));
  pending ← errs (restore_if_present (pending_audio p) (r_staged p));
  artwork ←
    (if r_artwork_created p then
       errs (remove_rooted_file (if replaces then pending_artwork p else r_artwork p)
               (st "uncommitted replacement Album Artwork"))
     else mret None);
  directories ← errs (remove_empty_directories_under (parent (r_audio p)) CANONICAL_LIBRARY_ROOT);
  join_result [artwork_swap; audio_swap; pending; artwork; directories].

(** [complete_replacement_files]: how many files were deleted, and how it ended. *)
Definition complete_replacement_files (store : Storage) (cancelled : nat → bool)
    (j : ReplacementJournal) (p : ReplacementPlacement) : Do (Z * option Error) :=
  audio ← catch (remove_managed_file store cancelled (retired_audio_path j) (previous_audio_sha256 j));
  match audio with
  | inr true =>
      let artwork_path := if bool_decide (retired_artwork_path j = []) then previous_artwork_path j
                          else retired_artwork_path j in
      let finish deleted :=
        opened ← catch (open_root store);
        match opened with
        | inl e => mret (deleted, ejoin [None; Some e])
        | _ =>
            directories ← errs (remove_empty_directories_under (parent (previous_audio p))
                                  CANONICAL_LIBRARY_ROOT);
            mret (deleted, ejoin [None; directories])
        end in
      if bool_decide (artwork_path = []) then finish 1
      else
        artwork ← catch (remove_managed_file store cancelled artwork_path (previous_artwork_sha256 j));
        match artwork with
        | inr true => finish 2
        | inr false => mret (1, None)
        | inl e => mret (1, ejoin [None; Some e])
        end
  | inr false => mret (0, None)
  | inl e => mret (0, Some e)
  end.

(** ** Placements a journal describes *)

Definition placement_from_journal (store : Storage) (j : CommitJournal) : outcome Error PlacedFiles :=
  audio ← relative_path store (c_audio_file_path j);
  artwork ← optional_relative_path store (c_artwork_file_path j);
  staged ← relative_path store (c_staged_file_path j);
  Ok (mkPlaced (c_audio_file_path j) (c_artwork_file_path j) audio artwork staged (c_artwork_created j)).

Definition replacement_placement_from_journal (store : Storage) (j : ReplacementJournal)
    : outcome Error ReplacementPlacement :=
  staged ← optional_relative_path store (staged_file_path j);
  pending ← optional_relative_path store (pending_audio_path j);
  audio ← optional_relative_path store (audio_file_path j);
  previous ← optional_relative_path store (previous_audio_path j);
  retired ← optional_relative_path store (retired_audio_path j);
  artwork ← optional_relative_path store (artwork_file_path j);
  p_artwork ← optional_relative_path store (pending_artwork_path j);
  v_artwork ← optional_relative_path store (previous_artwork_path j);
  r_artwork ← optional_relative_path store (retired_artwork_path j);
  Ok (mkReplacement (audio_file_path j) (artwork_file_path j) (j_artwork_mode j) staged pending audio
        previous retired p_artwork artwork v_artwork r_artwork (is_artwork_created j)).
End Store.
