(* ===== verification/Paths.v ===== *)
(** The absolute paths a journal holds and the relative ones beneath the root
    (storage.rs) stand for each other. *)

From S2P Require Import Prelude Text Disk ImportErrors Storage.

Lemma split_join_slash ns : Forall good_name ns → ns ≠ [] → split (λ c, c =? SLASH) (path_of ns) = ns.
Proof.
  intros Hns Hne. unfold path_of. rewrite split_join; [done|done|done|].
  eapply Forall_impl; [exact Hns|]. intros w Hw c. by apply good_name_no_slash.
Qed.

Lemma clean_step_good clean n : good_name n → clean_step clean n = clean ++ [n].
Proof.
  intros (H1 & H2 & H3 & _). unfold clean_step. rewrite !bool_decide_eq_false_2 by done. done.
Qed.

Lemma clean_steps_good ns clean : Forall good_name ns → foldl clean_step clean ns = clean ++ ns.
Proof.
  intros Hns. revert clean. induction Hns as [|n ns Hn _ IH]; intros clean; [by rewrite app_nil_r|].
  simpl. rewrite clean_step_good by done. by rewrite IH, <-app_assoc.
Qed.

Section Absolute.
Context `{Machinery : Host} `{Dbg : Debug}.

Lemma path_of_app ns ms : ns ≠ [] → ms ≠ [] → path_of (ns ++ ms) = path_of ns ++ SLASH :: path_of ms.
Proof.
  unfold path_of. induction ns as [|n ns IH]; intros Hn Hm; [done|].
  destruct ns as [|n' ns].
  - destruct ms; [done|]. reflexivity.
  - cbn [app join]. cbn [app join] in IH. rewrite IH by done. by rewrite <-!app_assoc.
Qed.

Lemma absolute_clean ns : Forall good_name ns → ns ≠ [] → absolute (SLASH :: path_of ns) = ns.
Proof.
  intros Hns Hne. unfold absolute.
  change (starts_with [SLASH] (SLASH :: path_of ns)) with true. cbv iota zeta.
  change (SLASH :: path_of ns) with ([] ++ SLASH :: path_of ns).
  assert ([] ++ SLASH :: path_of ns = join [SLASH] ([] :: ns)) as -> by (by destruct ns).
  rewrite split_join; [|done|done|].
  - change (foldl clean_step [] ([] :: ns)) with (foldl clean_step [] ns). by rewrite clean_steps_good.
  - constructor; [by intros c ?%not_elem_of_nil|].
    eapply Forall_impl; [exact Hns|]. intros w Hw c. by apply good_name_no_slash.
Qed.

Lemma starts_with_good ns : Forall good_name ns → ns ≠ [] → starts_with [SLASH] (path_of ns) = false.
Proof.
  intros Hns Hne. destruct Hns as [|n ns (Hn & _ & _ & Hs) _]; [done|].
  destruct n as [|c n]; [done|]. unfold path_of.
  assert (c ≠ SLASH) as Hc by (intros ->; apply Hs; left).
  assert ((SLASH =? c) = false) as E by (apply Z.eqb_neq; congruence).
  unfold starts_with. apply bool_decide_eq_false_2.
  destruct ns; cbn [app join strip_prefix]; rewrite E; by intros [].
Qed.

(** What [absolute_path] makes of a relative path, [relative_path] undoes. *)
Lemma relative_absolute store rel : Forall good_name (root store) → root store ≠ [] → clean rel →
  relative_path store (absolute_path store rel) = Ok rel.
Proof.
  intros Hroot Hne (ns & Hns & Hg & ->). unfold absolute_path. rewrite starts_with_good by done.
  assert (display_path (root store) ++ [SLASH] ++ path_of ns = SLASH :: path_of (root store ++ ns)) as ->.
  { rewrite path_of_app by done. reflexivity. }
  unfold relative_path. rewrite absolute_clean; [|by apply Forall_app|by destruct (root store)].
  rewrite take_app_length, drop_app_length, !bool_decide_eq_true_2; [done| |done].
  intros E. apply (f_equal length) in E. rewrite length_app in E. destruct ns; [done|simpl in E; lia].
Qed.

Lemma optional_absolute store rel : Forall good_name (root store) → root store ≠ [] →
  (rel = [] ∨ clean rel) → optional_relative_path store (optional_absolute_path store rel) = Ok rel.
Proof.
  intros Hroot Hne Hrel. destruct (decide (rel = [])) as [->|Hr]; [done|].
  destruct Hrel as [|Hc]; [done|]. unfold optional_relative_path, optional_absolute_path.
  rewrite (bool_decide_eq_false_2 (rel = [])) by done.
  rewrite bool_decide_eq_false_2; [by apply relative_absolute|].
  unfold absolute_path, display_path. destruct (starts_with _ _) eqn:Es; [done|]. done.
Qed.

(** The components of an absolute path are good names. *)
Lemma absolute_good (path : str) : Forall good_name (absolute path).
Proof.
  unfold absolute. cbv zeta. generalize (if starts_with [SLASH] path then path else cwd ++ [SLASH] ++ path). intros joined.
  assert (∀ l acc : list str, Forall (λ w : str, SLASH ∉ w) l → Forall good_name acc → Forall good_name (foldl clean_step acc l))
    as Hfold.
  { intros l. induction l as [|w l IH]; intros acc Hl Hacc; [done|]. simpl. apply Forall_cons in Hl as [Hw Hl].
    apply IH; [done|]. unfold clean_step. case_bool_decide; [done|]. simpl. case_bool_decide; [done|]. simpl.
    case_bool_decide.
    - apply Forall_forall. intros x Hx. rewrite Forall_forall in Hacc. apply Hacc.
      destruct (exists_last (l := acc)) as (acc' & y & ->); [by intros ->; apply not_elem_of_nil in Hx|].
      rewrite removelast_last in Hx. apply elem_of_app. by left.
    - apply Forall_app. split; [done|]. constructor; [|done]. done. }
  apply Hfold; [|done]. apply Forall_forall. intros w Hw Hin.
  by destruct (split_parts _ _ _ _ Hw Hin) as [_ E].
Qed.
End Absolute.
