(* ===== verification/StoreSteps.v ===== *)
(** What each step of Managed Storage does to the files of a tree: the rules the
    crash-safety theorems are proved with. A step that fails, or before which the
    process ends, changes no file. *)

From stdpp Require Import gmap.
From S2P Require Import Prelude Text Crash Disk Failure Metadata ImportErrors Storage.

Section Steps.
Context `{FS : FileSystem} `{Laws : !FileSystemLaws} {DB : Type} `{Machinery : Host} `{Dbg : Debug} `{Uni : Unicode}.
Implicit Types (s : Machine DB) (d : Disk) (p q : list str).

(** The regular file under a path. *)
Definition file_at d p : option (list byte) :=
  match entry d p with Some (EFile x) => Some x | _ => None end.

(** A tree with a staging directory, in which none of the paths [ks] is taken by
    a directory or lies below a file. *)
Record sound (ks : list (list str)) d : Prop := {
  sound_tree : tree d;
  sound_staging : entry d [STAGING] = Some EDir;
  sound_keys : ∀ p, p ∈ ks → inside p ∧ entry d p ≠ Some EDir;
  sound_free : ∀ p q n, p ∈ ks → q ∈ ks → (n < length q)%nat → take n q ≠ p;
  sound_reach : ∀ q, q ∈ ks → reachable_path d q
}.

(** Files that appear at paths of [ks] only leave the others within reach. *)
Lemma reach_kept ks d d' : sound ks d →
  (∀ q x, entry d' q = Some (EFile x) → q ∈ ks ∨ ∃ y, entry d q = Some (EFile y)) →
  ∀ q, q ∈ ks → reachable_path d' q.
Proof.
  intros Hs Hf q Hq n x Hn E. destruct (Hf _ _ E) as [Hk|[y Hy]].
  - exact (sound_free _ _ Hs _ _ _ Hk Hq Hn eq_refl).
  - exact (sound_reach _ _ Hs q Hq n y Hn Hy).
Qed.

(** The host fails some operation, or the root is not what it was. *)
Definition faulty : Prop :=
  (∃ n r, turn n = Refuse r ∨ turn n = Lost r) ∨ (∃ n, outside n ≠ None) ∨
  (∃ n, same_root n = false).

Definition same s s' : Prop := disk s' = disk s ∧ db s' = db s.

(** From [s] to [s'] the files changed as [f] says, and nothing else that matters. *)
Definition became (ks : list (list str)) (f : list str → option (list byte)) s s' : Prop :=
  sound ks (disk s') ∧ db s' = db s ∧ ∀ q, file_at (disk s') q = f q.

Lemma same_refl s : same s s.
Proof. done. Qed.

Lemma same_trans s1 s2 s3 : same s1 s2 → same s2 s3 → same s1 s3.
Proof. intros [H1 H2] [H3 H4]. split; congruence. Qed.

Lemma file_entry ks d p : sound ks d → p ∈ ks →
  match file_at d p with
  | Some x => entry d p = Some (EFile x)
  | None => entry d p = None
  end.
Proof.
  intros Hs Hp. destruct (sound_keys _ _ Hs p Hp) as [_ Hd]. unfold file_at.
  pose proof (tree_plain _ (sound_tree _ _ Hs) p) as Hl.
  by destruct (entry d p) as [[x| |]|].
Qed.

(** A failure that is the host's alone. *)
Definition refusal (e : FsError) : Prop := kind e = KOther ∧ faulty.

Lemma wp_fs_op {A} (go : Disk → FsError + (A * Disk)) (Q : A → Machine DB → Prop)
    (X : FsError → Machine DB → Prop) (C : Machine DB → Prop) s :
  C (tick s) → (∀ r, faulty → X (mkFsError KOther r) (tick s)) →
  match go (disk s) with
  | inl e => X e (tick s)
  | inr (a, d') => Q a (mkMachine d' (db s) (S (clock s)))
  end →
  wp (fs_op go) Q X C s.
Proof.
  intros HC HX HQ. unfold wp, fs_op. destruct (turn (clock s)) eqn:Ht; try done.
  - by destruct (go (disk s)) as [e|[a d']].
  - apply HX. left. eauto.
  - apply HX. left. eauto.
Qed.

Lemma wp_host_op (Q : unit → Machine DB → Prop) X C s :
  (∀ s', same s s' → Q tt s' ∧ (∀ e, faulty → X e s') ∧ C s') →
  wp host_op Q X C s.
Proof.
  intros Hs. destruct (Hs (tick s)) as (HQ & HX & HC); [done|].
  apply wp_fs_op; [done| |done]. intros r Hr. by apply HX.
Qed.

Lemma wp_outside_op (Q : unit → Machine DB → Prop) X C s :
  (∀ s', same s s' → Q tt s' ∧ (∀ e, faulty → X e s') ∧ C s') →
  wp outside_op Q X C s.
Proof.
  intros Hs. destruct (Hs (tick s)) as (HQ & HX & HC); [done|].
  unfold wp, outside_op, host_op, fs_op.
  destruct (turn (clock s)) eqn:Ht, (outside (clock s)) eqn:Ho; try done;
    apply HX; first [left; by eauto|right; left; exists (clock s); by rewrite Ho].
Qed.

Lemma wp_query {A} (f : Disk → FsError + A) (Q : A → Machine DB → Prop)
    (X : FsError → Machine DB → Prop) (C : Machine DB → Prop) s :
  (∀ s', same s s' →
     (∀ a, f (disk s) = inr a → Q a s') ∧
     (∀ e, refusal e ∨ f (disk s) = inl e → X e s') ∧ C s') →
  wp (query f) Q X C s.
Proof.
  intros Hs. destruct (Hs (tick s)) as (HQ & HX & HC); [done|].
  apply wp_fs_op; [done|intros r Hr; apply HX; by left|]. destruct (f (disk s)); auto.
Qed.

Lemma wp_effect (f : Disk → FsError + Disk) (Q : unit → Machine DB → Prop)
    (X : FsError → Machine DB → Prop) (C : Machine DB → Prop) s :
  (∀ s', same s s' → (∀ e, refusal e ∨ f (disk s) = inl e → X e s') ∧ C s') →
  (∀ s', db s' = db s → f (disk s) = inr (disk s') → Q tt s') →
  wp (effect f) Q X C s.
Proof.
  intros Hs HQ. destruct (Hs (tick s)) as (HX & HC); [done|].
  apply wp_fs_op; [done|intros r Hr; apply HX; by left|]. destruct (f (disk s)); auto.
Qed.

Lemma wp_attempt {A} (m : M (Machine DB) FsError A) (Q : FsError + A → Machine DB → Prop)
    (X : Error → Machine DB → Prop) C s :
  wp m (λ a, Q (inr a)) (λ e, Q (inl e)) C s → wp (attempt m) Q X C s.
Proof. unfold wp, attempt. by destruct (m s) as [[] ?]. Qed.

Lemma wp_catch {A} (m : M (Machine DB) Error A) (Q : Error + A → Machine DB → Prop)
    (X : Error → Machine DB → Prop) C s :
  wp m (λ a, Q (inr a)) (λ e, Q (inl e)) C s → wp (catch m) Q X C s.
Proof. unfold wp, catch. by destruct (m s) as [[] ?]. Qed.

Lemma wp_ask {A} (f : nat → A) (Q : A → Machine DB → Prop) X C s :
  (∀ s', same s s' → Q (f (clock s)) s') → wp (ask f) Q X C s.
Proof. intros HQ. by apply HQ. Qed.

Lemma wp_errs {A} (m : M (Machine DB) Error A) (Q : option Error → Machine DB → Prop)
    (X : Error → Machine DB → Prop) C s :
  wp m (λ _, Q None) (λ e, Q (Some e)) C s → wp (errs m) Q X C s.
Proof. intros Hm. apply wp_bind, wp_catch. unfold wp in *. by destruct (m s) as [[] ?]. Qed.

Lemma wp_join_result parts (Q : unit → Machine DB → Prop) X C s :
  (ejoin parts = None → Q tt s) → (∀ e, ejoin parts = Some e → X e s) →
  wp (join_result parts) Q X C s.
Proof. intros HQ HX. apply wp_lift. unfold result_of. destruct (ejoin parts); auto. Qed.

Lemma wp_fail_join {A} e parts (Q : A → Machine DB → Prop) X C s :
  (∀ e, X e s) → wp (fail_join (Some e :: parts)) Q X C s.
Proof.
  intros HX. unfold fail_join. destruct (ejoin_Some e parts) as [j ->]. by apply wp_fail.
Qed.

(** A computation that changes nothing, however it ends. *)
Definition quiet {A} (m : M (Machine DB) Error A) : Prop :=
  ∀ s, wp m (λ _, same s) (λ _, same s) (same s) s.

Lemma wp_quiet {A} (m : M (Machine DB) Error A) (Q : A → Machine DB → Prop)
    (X : Error → Machine DB → Prop) (C : Machine DB → Prop) s :
  quiet m → (∀ a s', same s s' → Q a s') → (∀ e s', same s s' → X e s') →
  (∀ s', same s s' → C s') → wp m Q X C s.
Proof. intros Hm HQ HX HC. eapply wp_conseq; [apply Hm|..]; auto. Qed.

Lemma quiet_ret {A} (a : A) : quiet (mret a).
Proof. intros s. by apply wp_ret. Qed.

Lemma quiet_fail {A} e : quiet (fail e : M (Machine DB) Error A).
Proof. intros s. by apply wp_fail. Qed.

Lemma quiet_bind {A B} (m : M (Machine DB) Error A) (f : A → M (Machine DB) Error B) :
  quiet m → (∀ a, quiet (f a)) → quiet (m ≫= f).
Proof.
  intros Hm Hf s. apply wp_bind. apply (wp_quiet m); [done|..]; try done.
  intros a s' Hs. apply (wp_quiet (f a)); [done|..]; intros; by eapply same_trans.
Qed.

Lemma quiet_catch {A} (m : M (Machine DB) Error A) : quiet m → quiet (catch m).
Proof. intros Hm s. apply wp_catch. apply Hm. Qed.

Lemma quiet_errs {A} (m : M (Machine DB) Error A) : quiet m → quiet (errs m).
Proof. intros Hm s. apply wp_errs. apply Hm. Qed.

Lemma quiet_lift {A} (o : outcome Error A) : o ≠ OutOfFuel → quiet (lift o).
Proof. intros Ho s. apply wp_lift. by destruct o. Qed.

Lemma quiet_ask {A} (f : nat → A) : quiet (ask f).
Proof. intros s. by apply wp_ask. Qed.

Lemma quiet_attempt_query {A} (f : Disk → FsError + A) : quiet (attempt (query f)).
Proof. intros s. by apply wp_attempt, wp_query. Qed.

Lemma quiet_attempt_host : quiet (attempt host_op).
Proof. intros s. by apply wp_attempt, wp_host_op. Qed.

Lemma quiet_attempt_outside : quiet (attempt outside_op).
Proof. intros s. by apply wp_attempt, wp_outside_op. Qed.

Lemma quiet_on_err_query {A} g (f : Disk → FsError + A) : quiet (on_err g (query f)).
Proof. intros s. by apply wp_on_err, wp_query. Qed.

Lemma quiet_on_err_host g : quiet (on_err g host_op).
Proof. intros s. by apply wp_on_err, wp_host_op. Qed.

Lemma quiet_on_err {A} g (m : M (Machine DB) Error A) : quiet m → quiet (on_err g m).
Proof. intros Hm s. apply wp_on_err. apply Hm. Qed.

Lemma quiet_if {A} (b : bool) (m n : M (Machine DB) Error A) :
  quiet m → quiet n → quiet (if b then m else n).
Proof. by destruct b. Qed.
End Steps.

Create HintDb store.
#[export] Hint Resolve quiet_ret quiet_fail quiet_bind quiet_catch quiet_errs quiet_ask quiet_attempt_query
  quiet_attempt_host quiet_attempt_outside quiet_on_err_query quiet_on_err_host quiet_on_err quiet_if : store.

Section Quiet.
Context `{FS : FileSystem} `{Laws : !FileSystemLaws} {DB : Type} `{Machinery : Host} `{Dbg : Debug} `{Uni : Unicode}.
Implicit Types (s : Machine DB) (d : Disk) (p q : list str).

Lemma quiet_open_component name : quiet (open_component name : M (Machine DB) Error unit).
Proof.
  unfold open_component. apply quiet_bind; [apply quiet_attempt_outside|]. intros o.
  apply quiet_bind.
  - destruct o as [e|]; auto with store. apply quiet_if; auto with store.
    apply quiet_bind; [apply quiet_attempt_outside|]. intros []; auto with store.
  - intros [e|]; unfold component_opened; auto with store.
Qed.

Lemma quiet_open_root store : quiet (open_root store : M (Machine DB) Error unit).
Proof.
  unfold open_root. destruct (initialization_error store); [auto with store|].
  apply quiet_bind; [auto with store|]. intros _. apply quiet_bind.
  { induction (root store) as [|name l IH]; cbn [open_components]; [auto with store|].
    apply quiet_bind; [apply quiet_open_component|done]. }
  intros _. apply quiet_bind; [auto with store|]. intros _.
  apply quiet_bind; [auto with store|]. intros _. apply quiet_bind; [auto with store|].
  intros []; auto with store.
Qed.

Lemma quiet_reject_symlinks path : quiet (reject_symlinks path : M (Machine DB) Error unit).
Proof.
  unfold reject_symlinks. generalize (@nil Z) as current.
  induction (names path) as [|c cs IH]; intros current; cbn [reject_links]; [auto with store|].
  apply quiet_bind; [apply quiet_on_err_query|]. intros []; [apply IH|apply IH|auto with store].
Qed.

(** The loop reads the file to its end, whatever each read grants. *)
Lemma wp_hash_loop fuel cancelled hashed rest (Q : list byte → Machine DB → Prop) X C s :
  (length rest < fuel)%nat →
  (∀ s', same s s' → Q (hashed ++ rest) s' ∧
     (∀ e, faulty ∨ (∃ n, cancelled n = true) → X e s') ∧ C s') →
  wp (hash_loop fuel cancelled hashed rest) Q X C s.
Proof.
  revert hashed rest s. induction fuel as [|fuel IH]; intros hashed rest s Hf HQ; [lia|].
  cbn [hash_loop]. apply wp_bind, wp_ask. intros s1 H1. apply wp_if; intros Hstop.
  { apply wp_fail. apply (HQ s1); [done|]. right. eauto. }
  apply wp_bind, wp_on_err, wp_host_op. intros s2 H2.
  assert (same s s2) as H02 by (by eapply same_trans).
  split; [|split; [intros e ?; apply (HQ s2); [done|by left]|by apply (HQ s2)]].
  apply wp_bind, wp_ask. intros s3 H3. assert (same s s3) as H03 by (by eapply same_trans).
  case_bool_decide as Hr.
  - apply wp_ret. subst rest. rewrite app_nil_r in HQ. by apply (HQ s3).
  - apply IH.
    + rewrite length_drop. destruct rest; [done|]. simpl in *. lia.
    + intros s' Hs'. rewrite <-app_assoc, take_drop. apply HQ. by eapply same_trans.
Qed.

Lemma wp_verify path expected cancelled (Q : unit → Machine DB → Prop) X C s :
  tree (disk s) → inside (names path) →
  (∀ s', same s s' →
     (∀ x, file_at (disk s) (names path) = Some x → digest_hex x = expected → Q tt s') ∧
     (∀ e, X e s') ∧ C s') →
  wp (verify_rooted_file_hash path expected cancelled) Q X C s.
Proof.
  intros Ht Hin HQ. unfold verify_rooted_file_hash. apply wp_bind.
  apply (wp_quiet (reject_symlinks path)); [apply quiet_reject_symlinks|..];
    [|intros e s' Hs; by apply HQ|intros s' Hs; by apply HQ].
  intros _ s1 H1. apply wp_bind, wp_on_err, wp_query. intros s2 H2.
  assert (same s s2) as H02 by (by eapply same_trans).
  split; [|split; [intros e _; by apply (HQ s2)|by apply (HQ s2)]].
  intros e He. rewrite (proj1 H1) in He. rewrite stat_lstat in He by done.
  apply wp_bind. destruct e as [x| |].
  - apply wp_hash_loop; [simpl; lia|]. intros s3 H3.
    assert (same s s3) as H03 by (by eapply same_trans).
    split; [|split; [intros e _; by apply (HQ s3)|by apply (HQ s3)]].
    simpl. case_bool_decide as Hd; [|apply wp_fail; by apply (HQ s3)].
    apply wp_ret. apply (proj1 (HQ s3 H03) x); [|done]. unfold file_at.
    destruct (entry (disk s) (names path)) as [e|] eqn:E.
    + rewrite (lstat_found _ _ _ Ht Hin E) in He. by injection He as ->.
    + destruct (lstat_missing _ _ Ht Hin E) as (err & Hl & _). by rewrite Hl in He.
  - apply wp_fail. by apply (HQ s2).
  - apply wp_fail. by apply (HQ s2).
Qed.

Lemma wp_verify_matching path expected (Q : unit → Machine DB → Prop) X C s :
  tree (disk s) → inside (names path) →
  (∀ s', same s s' →
     (∀ x, file_at (disk s) (names path) = Some x → digest_hex x = expected → Q tt s') ∧
     (∀ e, X e s') ∧ C s') →
  wp (verify_matching_artwork path expected) Q X C s.
Proof. intros Ht Hin HQ. apply wp_on_err, wp_verify; [done..|]. intros s' Hs. destruct (HQ s' Hs) as (? & ? & ?). auto. Qed.

(** ** Steps that move files *)

Lemma init_snoc p n : init (p ++ [n]) = p.
Proof. unfold init. rewrite length_app. simpl. by rewrite Nat.add_sub, take_app_length. Qed.

Lemma snoc_init q : q ≠ [] → ∃ n, q = init q ++ [n].
Proof.
  intros Hq. destruct (exists_last Hq) as (q' & n & ->). exists n. by rewrite init_snoc.
Qed.

Lemma no_children d p n : tree d → entry d p ≠ Some EDir → entry d (p ++ [n]) = None.
Proof.
  intros Ht Hp. destruct (entry d (p ++ [n])) as [e|] eqn:E; [|done]. exfalso. apply Hp.
  apply (tree_parent _ Ht) in E. by rewrite init_snoc in E.
Qed.

Lemma tree_updated d d' p e : tree d → inside p → updated d d' p e → e ≠ Some ELink →
  (e ≠ None → entry d (init p) = Some EDir) →
  (e ≠ Some EDir → ∀ n, entry d (p ++ [n]) = None) → tree d'.
Proof.
  intros [Hplain Hroot Hpar] [Hne _] Hu Hl Hp Hc. split.
  - intros q. rewrite (Hu q). by case_decide.
  - rewrite (Hu []). by case_decide as E.
  - intros q e' Hq. rewrite (Hu q) in Hq. rewrite (Hu (init q)).
    case_decide as E1; case_decide as E2.
    + exfalso. destruct (snoc_init p Hne) as [n Hn]. rewrite E1 in E2. rewrite E2 in Hn.
      apply (f_equal length) in Hn. rewrite length_app in Hn. simpl in Hn. lia.
    + rewrite E1. apply Hp. by rewrite Hq.
    + destruct (decide (e = Some EDir)) as [->|Hd]; [done|]. exfalso.
      destruct q as [|n q]; [by rewrite <-E2 in Hne|]. destruct (snoc_init (n :: q)) as [m Hm]; [done|].
      rewrite E2 in Hm. rewrite Hm in Hq. by rewrite Hc in Hq.
    + by eapply Hpar.
Qed.

Lemma sound_update ks d d' p e : sound ks d → p ∈ ks → updated d d' p e →
  e ≠ Some EDir → e ≠ Some ELink → (e ≠ None → entry d (init p) = Some EDir) → sound ks d'.
Proof.
  intros Hs Hk Hu He Hl Hp. destruct (sound_keys _ _ Hs p Hk) as [Hin Hd]. split.
  - eapply tree_updated; [apply Hs|done..|]. intros _ n. apply no_children; [apply Hs|done].
  - rewrite (Hu [STAGING]). pose proof (sound_staging _ _ Hs). case_decide as E; [|done].
    by rewrite <-E in Hd.
  - intros q Hq. destruct (sound_keys _ _ Hs q Hq) as [? ?]. split; [done|].
    rewrite (Hu q). by case_decide.
  - apply Hs.
  - apply (reach_kept ks d); [done|]. intros q x. rewrite (Hu q). case_decide; subst; eauto.
Qed.

(** Making and removing an empty directory moves no file. *)
Lemma sound_make_dir ks d d' p : sound ks d → inside p → p ∉ ks → updated d d' p (Some EDir) →
  entry d p = None → entry d (init p) = Some EDir → sound ks d' ∧ ∀ q, file_at d' q = file_at d q.
Proof.
  intros Hs Hin Hk Hu Hn Hp. split; [split|].
  - eapply tree_updated; [apply Hs|done..].
  - rewrite (Hu [STAGING]). case_decide; [done|apply Hs].
  - intros q Hq. destruct (sound_keys _ _ Hs q Hq) as [? ?]. split; [done|].
    rewrite (Hu q). by case_decide; subst.
  - apply Hs.
  - apply (reach_kept ks d); [done|]. intros q x. rewrite (Hu q). case_decide; [done|eauto].
  - intros q. unfold file_at. rewrite (Hu q). case_decide; [subst; by rewrite Hn|done].
Qed.

Lemma sound_remove_dir ks d d' p : sound ks d → inside p → p ≠ [STAGING] → updated d d' p None →
  entry d p = Some EDir → (∀ n, entry d (p ++ [n]) = None) →
  sound ks d' ∧ ∀ q, file_at d' q = file_at d q.
Proof.
  intros Hs Hin Hst Hu Hd Hc. split; [split|].
  - eapply tree_updated; [apply Hs|done..].
  - rewrite (Hu [STAGING]). case_decide as E; [by rewrite E in Hst|apply Hs].
  - intros q Hq. destruct (sound_keys _ _ Hs q Hq) as [? ?]. split; [done|].
    rewrite (Hu q). by case_decide.
  - apply Hs.
  - apply (reach_kept ks d); [done|]. intros q x. rewrite (Hu q). case_decide; [done|eauto].
  - intros q. unfold file_at. rewrite (Hu q). case_decide; [subst; by rewrite Hd|done].
Qed.

Lemma file_updated d d' p e q : updated d d' p e →
  file_at d' q = if decide (q = p) then match e with Some (EFile x) => Some x | _ => None end
                 else file_at d q.
Proof. intros Hu. unfold file_at. rewrite (Hu q). by case_decide. Qed.

(** The files after moving [a] to [b]. *)
Definition moved (f : list str → option (list byte)) (a b q : list str) : option (list byte) :=
  if decide (q = b) then f a else if decide (q = a) then None else f q.

Lemma sound_rename ks d d' a b x : sound ks d → a ∈ ks → b ∈ ks → entry d a = Some (EFile x) →
  fs_rename a b d = inr d' → sound ks d' ∧ ∀ q, file_at d' q = moved (file_at d) a b q.
Proof.
  intros Hs Ha Hb Hx Hr. destruct (sound_keys _ _ Hs a Ha) as [Hia _].
  destruct (sound_keys _ _ Hs b Hb) as [Hib _].
  destruct (rename_file d a b x d' (sound_tree _ _ Hs) Hia Hib Hx Hr) as (Hpar & Hnd & He).
  assert (∀ q, file_at d' q = moved (file_at d) a b q) as Hfiles.
  { intros q. unfold moved, file_at. rewrite (He q). repeat case_decide; by rewrite ?Hx. }
  split; [|done]. destruct (sound_tree _ _ Hs) as [Hplain Hroot Hparent].
  assert (∀ q, entry d' q = Some EDir ↔ entry d q = Some EDir) as Hdirs.
  { intros q. rewrite (He q). repeat case_decide; subst; [|by rewrite Hx|done]. by split. }
  split; [split|..].
  - intros q. rewrite (He q). repeat case_decide; done.
  - by apply Hdirs.
  - intros q e Hq. apply Hdirs. rewrite (He q) in Hq. repeat case_decide; subst; try done.
    by eapply Hparent.
  - apply Hdirs, Hs.
  - intros q Hq. destruct (sound_keys _ _ Hs q Hq) as [? ?]. split; [done|]. by rewrite Hdirs.
  - apply Hs.
  - apply (reach_kept ks d); [done|]. intros q y. rewrite (He q).
    repeat case_decide; subst; eauto.
Qed.

(** Why moving a file can fail. *)
Definition unmovable s (from to : str) : Prop :=
  faulty ∨ file_at (disk s) (names from) = None ∨ entry (disk s) (init (names to)) ≠ Some EDir.

Lemma wp_rename ks from to (Q : unit → Machine DB → Prop) X C s :
  sound ks (disk s) → names from ∈ ks → names to ∈ ks →
  (∀ s', same s s' → (∀ e, unmovable s from to → X e s') ∧ C s') →
  (∀ s' x, file_at (disk s) (names from) = Some x →
     became ks (moved (file_at (disk s)) (names from) (names to)) s s' → Q tt s') →
  wp (rename from to) Q X C s.
Proof.
  intros Hs Hf Ht HXC HQ. pose proof (file_entry _ _ _ Hs Hf) as He.
  destruct (sound_keys _ _ Hs _ Hf) as [Hif _]. destruct (sound_keys _ _ Hs _ Ht) as [Hit Hnd].
  apply wp_effect.
  - intros s' Hs'. split; [|by apply HXC]. intros e Hr. apply HXC; [done|]. unfold unmovable.
    destruct Hr as [[_ Hr]|Hr]; [by left|right].
    destruct (file_at (disk s) (names from)) as [x|]; [right|by left]. intros Hd.
    destruct (rename_works _ _ _ x (sound_tree _ _ Hs) Hif Hit He Hd Hnd) as [d' Hd']. congruence.
  - intros s' Hdb Hr. destruct (file_at (disk s) (names from)) as [x|] eqn:Hx.
    + destruct (sound_rename _ _ _ _ _ _ Hs Hf Ht He Hr) as [Hs' Hfiles]. eapply HQ; [done|].
      split; [done|]. split; [done|]. done.
    + exfalso. destruct (rename_missing (disk s) (names from) (names to)) as [e Hn];
        [apply Hs|done..|]. by rewrite Hn in Hr.
Qed.

Lemma wp_restore ks from to (Q : unit → Machine DB → Prop) X C s :
  sound ks (disk s) → names from ∈ ks → names to ∈ ks →
  (∀ s', same s s' → (∀ e, unmovable s from to → X e s') ∧ C s') →
  (∀ s' x, file_at (disk s) (names from) = Some x →
     became ks (moved (file_at (disk s)) (names from) (names to)) s s' → Q tt s') →
  wp (restore_rooted_file from to) Q X C s.
Proof.
  intros Hs Hf Ht HXC HQ. apply wp_on_err. apply (wp_rename ks); [done..| |done].
  intros s' Hs'. split; intros; by apply HXC.
Qed.
End Quiet.

#[export] Hint Resolve quiet_open_component quiet_open_root quiet_reject_symlinks : store.

Section Moves.
Context `{FS : FileSystem} `{Laws : !FileSystemLaws} {DB : Type} `{Machinery : Host} `{Dbg : Debug} `{Uni : Unicode}.
Implicit Types (s : Machine DB) (d : Disk) (p q : list str).

(** The files without [p]. *)
Definition without (f : list str → option (list byte)) p q : option (list byte) :=
  if decide (q = p) then None else f q.

(** The files with [p] holding [x]. *)
Definition holding (f : list str → option (list byte)) p (x : list byte) q : option (list byte) :=
  if decide (q = p) then Some x else f q.

Lemma became_same ks s s' : sound ks (disk s) → same s s' → became ks (file_at (disk s)) s s'.
Proof. intros Hs [Hd ?]. unfold became. by rewrite Hd. Qed.

Lemma became_trans ks f g s1 s2 s3 :
  became ks f s1 s2 → became ks g s2 s3 → became ks g s1 s3.
Proof. intros (_ & H1 & _) (? & H2 & ?). split; [done|]. split; [congruence|done]. Qed.

Lemma became_same_l ks f s s1 s2 : same s s1 → became ks f s1 s2 → became ks f s s2.
Proof. intros [_ H1] (? & H2 & ?). split; [done|]. split; [congruence|done]. Qed.

Lemma wp_remove_rooted ks path description (Q : unit → Machine DB → Prop) X C s :
  sound ks (disk s) → names path ∈ ks →
  (∀ s', same s s' → (∀ e, faulty → X e s') ∧ C s') →
  (∀ s', became ks (without (file_at (disk s)) (names path)) s s' → Q tt s') →
  wp (remove_rooted_file path description) Q X C s.
Proof.
  intros Hs Hk HXC HQ. destruct (sound_keys _ _ Hs _ Hk) as [Hin Hnd].
  pose proof (sound_tree _ _ Hs) as Ht. pose proof (file_entry _ _ _ Hs Hk) as Hf.
  unfold remove_rooted_file. apply wp_bind, wp_attempt, wp_effect.
  - intros s' Hs'. split; [|by apply HXC]. intros e [[He Hr]|He].
    { unfold not_found. rewrite bool_decide_eq_false_2 by congruence. apply wp_fail. by apply HXC. }
    destruct (file_at (disk s) (names path)) as [x|] eqn:Hx.
    { destruct (remove_file_works _ _ _ Ht Hin Hf) as [d' Hd]. congruence. }
    destruct (remove_file_missing _ _ Ht Hin Hf) as (e' & He' & Hkind).
    assert (e = e') as -> by congruence.
    unfold not_found. rewrite bool_decide_eq_true_2 by (by apply Hkind, Hs). apply wp_ret, HQ.
    destruct (became_same ks s s' Hs Hs') as (? & ? & Hfiles). split; [done|]. split; [done|].
    intros q. rewrite Hfiles. unfold without. case_decide; by subst.
  - intros s' Hdb E. apply wp_ret, HQ.
    destruct (remove_file_removes _ _ _ Ht Hin E) as [_ Hu].
    split; [|split; [done|]].
    + by eapply sound_update.
    + intros q. rewrite (file_updated _ _ _ _ _ Hu). done.
Qed.

(** [m] moves no file and takes no path of [ks], however it ends. *)
Definition harmless ks {A} (m : M (Machine DB) Error A) : Prop := ∀ s, sound ks (disk s) →
  wp m (λ _, became ks (file_at (disk s)) s) (λ _, became ks (file_at (disk s)) s)
    (became ks (file_at (disk s)) s) s.

Lemma became_files ks f g s s' : became ks f s s' → (∀ q, f q = g q) → became ks g s s'.
Proof. intros (? & ? & Hf) Hg. split; [done|]. split; [done|]. intros q. by rewrite Hf. Qed.

Lemma harmless_quiet ks {A} (m : M (Machine DB) Error A) : quiet m → harmless ks m.
Proof. intros Hm s Hs. apply (wp_quiet m); [done|..]; intros; by apply became_same. Qed.

Lemma harmless_bind ks {A B} (m : M (Machine DB) Error A) (f : A → M (Machine DB) Error B) :
  harmless ks m → (∀ a, harmless ks (f a)) → harmless ks (m ≫= f).
Proof.
  intros Hm Hf s Hs. apply wp_bind. eapply wp_conseq; [by apply Hm|..]; try done.
  intros a s1 H1. destruct H1 as (Hs1 & Hdb & Hfiles).
  assert (∀ s2, became ks (file_at (disk s1)) s1 s2 → became ks (file_at (disk s)) s s2) as Hgo.
  { intros s2 (? & ? & Hf2). split; [done|]. split; [congruence|]. intros q. by rewrite Hf2. }
  eapply wp_conseq; [by apply Hf|..]; intros; by apply Hgo.
Qed.

Lemma harmless_use ks {A} (m : M (Machine DB) Error A) (Q : A → Machine DB → Prop)
    (X : Error → Machine DB → Prop) (C : Machine DB → Prop) s :
  harmless ks m → sound ks (disk s) →
  (∀ s', became ks (file_at (disk s)) s s' → (∀ a, Q a s') ∧ (∀ e, X e s') ∧ C s') →
  wp m Q X C s.
Proof. intros Hm Hs HQ. eapply wp_conseq; [by apply Hm|..]; intros; by apply HQ. Qed.

Lemma harmless_ensure ks ns cur : Forall good_name (cur ++ ns) →
  (∀ m, (length cur < m <= length (cur ++ ns))%nat → take m (cur ++ ns) ∉ ks) →
  harmless ks (ensure_components (path_of cur) ns).
Proof.
  revert cur. induction ns as [|n ns IH]; intros cur Hg Hk; cbn [ensure_components].
  { apply harmless_quiet. auto with store. }
  assert (Forall good_name (cur ++ [n])) as Hgn.
  { rewrite Forall_app in Hg |- *. destruct Hg as [? [? _]%Forall_cons]. split; [done|]. by constructor. }
  assert (join_parts [path_of cur; n] = path_of (cur ++ [n])) as ->.
  { rewrite Forall_app, Forall_singleton in Hgn. destruct Hgn. by apply join_parts_snoc. }
  assert (inside (names (path_of (cur ++ [n])))) as Hin.
  { apply clean_inside. exists (cur ++ [n]). split; [by destruct cur|]. done. }
  apply harmless_bind; [apply harmless_quiet, quiet_attempt_query|]. intros found.
  apply harmless_bind.
  - destruct found as [e|[x| |]]; [|apply harmless_quiet; auto with store..].
    destruct (not_found e); [|apply harmless_quiet; auto with store].
    intros s Hs. apply wp_on_err, wp_effect.
    + intros s' Hs'. split; [intros e' _|]; by apply became_same.
    + intros s' Hdb E. destruct (create_dir_makes _ _ _ (sound_tree _ _ Hs) Hin E) as (Hn & Hp & Hu).
      rewrite names_path_of in * by done.
      destruct (sound_make_dir ks _ (disk s') _ Hs Hin); [|done..].
      specialize (Hk (S (length cur))). rewrite length_app in Hk. simpl in Hk.
      replace (take (S (length cur)) (cur ++ n :: ns)) with (cur ++ [n]) in Hk
        by (rewrite (cons_middle n cur ns), app_assoc, take_app_length'; [done|rewrite length_app; simpl; lia]).
      apply Hk. lia.
  - intros _. apply IH; rewrite <-app_assoc; [done|]. intros m Hm. apply Hk.
    rewrite length_app in Hm. simpl in *. lia.
Qed.

Lemma harmless_ensure_directory ks ns : Forall good_name ns →
  (∀ m, (0 < m <= length ns)%nat → take m ns ∉ ks) → harmless ks (ensure_directory (path_of ns)).
Proof.
  intros Hg Hk. unfold ensure_directory. apply harmless_bind.
  - rewrite names_path_of by done. by apply (harmless_ensure ks ns []).
  - intros _. apply harmless_quiet. auto with store.
Qed.

Lemma length_path_of ns : Forall good_name ns → (length ns <= length (path_of ns))%nat.
Proof.
  unfold path_of. induction 1 as [|n ns (Hn & _) Hns IH]; [done|].
  destruct ns as [|m ns]; [destruct n; simpl; [done|lia]|].
  change (join [SLASH] (n :: m :: ns)) with (n ++ SLASH :: join [SLASH] (m :: ns)).
  rewrite length_app. simpl in *. lia.
Qed.

(** [m] moves no file, takes no path of [ks], and only fails when the host does. *)
Definition gentle ks {A} (m : M (Machine DB) Error A) : Prop := ∀ s, sound ks (disk s) →
  wp m (λ _, became ks (file_at (disk s)) s) (λ _ s', faulty ∧ became ks (file_at (disk s)) s s')
    (became ks (file_at (disk s)) s) s.

Lemma gentle_use ks {A} (m : M (Machine DB) Error A) (Q : A → Machine DB → Prop)
    (X : Error → Machine DB → Prop) (C : Machine DB → Prop) s :
  gentle ks m → sound ks (disk s) →
  (∀ s', became ks (file_at (disk s)) s s' → (∀ a, Q a s') ∧ (faulty → ∀ e, X e s') ∧ C s') →
  wp m Q X C s.
Proof.
  intros Hm Hs HQ. eapply wp_conseq; [by apply Hm|..].
  - intros a s' H. by apply HQ.
  - intros e s' [Hf H]. by apply HQ.
  - intros s' H. by apply HQ.
Qed.

Lemma became_step ks s s1 s2 : became ks (file_at (disk s)) s s1 →
  became ks (file_at (disk s1)) s1 s2 → became ks (file_at (disk s)) s s2.
Proof.
  intros (_ & Hdb & Hf) (? & ? & Hf2). split; [done|]. split; [congruence|].
  intros q. by rewrite Hf2.
Qed.

Lemma gentle_ret ks {A} (a : A) : gentle ks (mret a).
Proof. intros s Hs. apply wp_ret. by apply became_same. Qed.

Lemma gentle_same ks {A} (m : M (Machine DB) Error A) s s1 : gentle ks m → sound ks (disk s) →
  became ks (file_at (disk s)) s s1 →
  wp m (λ _, became ks (file_at (disk s)) s) (λ _ s', faulty ∧ became ks (file_at (disk s)) s s')
    (became ks (file_at (disk s)) s) s1.
Proof.
  intros Hm Hs Hb. apply (gentle_use ks m); [done|apply Hb|]. intros s' Hb'.
  assert (became ks (file_at (disk s)) s s') by (by eapply became_step). done.
Qed.

Lemma gentle_remove_up ks fuel ns boundary k : Forall good_name ns → head ns ≠ Some STAGING →
  k ∈ ks → ns = take (length ns) k → (length ns < length k)%nat → (length ns < fuel)%nat →
  gentle ks (remove_empty_up fuel (path_of ns) boundary).
Proof.
  revert ns. induction fuel as [|fuel IH]; intros ns Hg Hst Hk Hpre Hlen Hf; [lia|].
  cbn [remove_empty_up]. destruct (_ || _ || _) eqn:E; [apply gentle_ret|].
  destruct (decide (ns = [])) as [->|Hne]; [by rewrite bool_decide_eq_true_2, orb_true_r in E|].
  destruct (exists_last Hne) as (ns' & n & ->). rewrite length_app in Hpre, Hlen, Hf. simpl in Hpre, Hlen, Hf.
  assert (ns' = take (length ns') k) as Hpre'.
  { apply (f_equal (take (length ns'))) in Hpre. rewrite take_app_length, take_take in Hpre.
    by rewrite Nat.min_l in Hpre by lia. }
  assert (gentle ks (remove_empty_up fuel (parent (path_of (ns' ++ [n]))) boundary)) as Hup.
  { rewrite parent_path_of by done. destruct (decide (ns' = [])) as [E'|E'].
    - destruct fuel; cbn [remove_empty_up]; apply gentle_ret.
    - apply IH; [by apply Forall_app in Hg as [? _]|by destruct ns'|done..|lia|lia]. }
  assert (clean (path_of (ns' ++ [n]))) as Hcl.
  { exists (ns' ++ [n]). split; [by destruct ns'|]. done. }
  assert (inside (names (path_of (ns' ++ [n])))) as Hin by (by apply clean_inside).
  rewrite names_path_of in Hin by done.
  intros s Hs. pose proof (sound_tree _ _ Hs) as Ht.
  assert (reachable_path (disk s) (ns' ++ [n])) as Hreach.
  { intros m x Hm. rewrite length_app in Hm. simpl in Hm. rewrite Hpre, take_take, Nat.min_l by lia.
    apply (sound_reach _ _ Hs k Hk). lia. }
  assert (∀ x, entry (disk s) (ns' ++ [n]) ≠ Some (EFile x)) as Hnofile.
  { intros x Hx. rewrite Hpre in Hx. eapply (sound_reach _ _ Hs k Hk); [|done]. lia. }
  apply wp_bind, wp_attempt, wp_query. rewrite names_path_of by done. intros s1 H1.
  assert (became ks (file_at (disk s)) s s1) as Hb1 by (by apply became_same).
  split; [|split; [|done]].
  - intros [|m ms] Hl; [|by apply wp_ret].
    destruct (read_dir_lists _ _ _ Ht Hin Hl) as [Hd Hc].
    assert (∀ m, entry (disk s) (ns' ++ [n] ++ [m]) = None) as Hempty.
    { intros m. destruct (entry (disk s) (ns' ++ [n] ++ [m])) eqn:Em; [|done].
      rewrite app_assoc in Em. assert (m ∈ []) as Hm by (apply Hc; eauto). by apply not_elem_of_nil in Hm. }
    apply wp_bind, wp_attempt, wp_effect; rewrite names_path_of by done; rewrite (proj1 H1).
    + intros s2 H2. assert (became ks (file_at (disk s)) s s2) as Hb2
        by (apply became_same; [done|by eapply same_trans]). split; [|done].
      intros e [[He Hr]|He].
      * unfold not_found. rewrite bool_decide_eq_false_2 by congruence. by apply wp_fail.
      * destruct (remove_dir_works _ _ Ht Hin Hd) as [d' Hd']; [|congruence].
        intros m. rewrite <-app_assoc. apply Hempty.
    + intros s2 Hdb Hr. destruct (remove_dir_removes _ _ _ Ht Hin Hr) as (_ & Hc' & Hu).
      assert (ns' ++ [n] ≠ [STAGING]) as Hne' by (by destruct ns' as [|? []]; intros [= ->]).
      destruct (sound_remove_dir ks _ (disk s2) _ Hs Hin Hne' Hu Hd Hc') as [Hs2 Hf2].
      apply (gentle_same ks _ s); [done..|]. split; [done|]. split; [|done]. by rewrite Hdb, (proj2 H1).
  - intros e [[He Hr]|He].
    { unfold not_found. rewrite bool_decide_eq_false_2 by congruence. by apply wp_fail. }
    destruct (entry (disk s) (ns' ++ [n])) as [[x| |]|] eqn:Ee.
    + by destruct (Hnofile x).
    + destruct (read_dir_works _ _ Ht Hin Ee) as [l Hl]. congruence.
    + by destruct (tree_plain _ Ht (ns' ++ [n])).
    + destruct (read_dir_missing _ _ Ht Hin Ee) as (e' & He' & Hkind).
      assert (e = e') as -> by congruence. unfold not_found.
      rewrite bool_decide_eq_true_2 by (by apply Hkind). by apply (gentle_same ks _ s).
Qed.

Lemma gentle_remove_empty ks ns boundary k : Forall good_name ns → head ns ≠ Some STAGING →
  k ∈ ks → ns = take (length ns) k → (length ns < length k)%nat →
  gentle ks (remove_empty_directories_under (path_of ns) boundary).
Proof.
  intros Hg Hst Hk Hpre Hlen. apply (gentle_remove_up _ _ _ _ k); [done..|].
  pose proof (length_path_of ns Hg). lia.
Qed.

(** ** Moving a file back *)

Lemma query_missing ks (p : str) s e : sound ks (disk s) → names p ∈ ks →
  refusal e ∨ fs_lstat (names p) (disk s) = inl e →
  (not_found e = true ∧ file_at (disk s) (names p) = None) ∨ (not_found e = false ∧ faulty).
Proof.
  intros Hs Hk He. destruct (sound_keys _ _ Hs _ Hk) as [Hin Hnd].
  pose proof (file_entry _ _ _ Hs Hk) as Hf. unfold not_found.
  destruct He as [[He Hr]|He]; [right; by rewrite bool_decide_eq_false_2 by congruence|left].
  destruct (file_at _ _) as [x|].
  { by rewrite (lstat_found _ _ _ (sound_tree _ _ Hs) Hin Hf) in He. }
  destruct (lstat_missing _ _ (sound_tree _ _ Hs) Hin Hf) as (e' & He' & Hkind).
  assert (e = e') as -> by congruence. by rewrite bool_decide_eq_true_2 by (by apply Hkind, Hs).
Qed.

Lemma query_found ks (p : str) s e : sound ks (disk s) → names p ∈ ks →
  fs_lstat (names p) (disk s) = inr e → is_Some (file_at (disk s) (names p)).
Proof.
  intros Hs Hk He. destruct (sound_keys _ _ Hs _ Hk) as [Hin Hnd].
  pose proof (file_entry _ _ _ Hs Hk) as Hf. destruct (file_at _ _) as [x|]; [eauto|].
  destruct (lstat_missing _ _ (sound_tree _ _ Hs) Hin Hf) as (err & Hl & _). by rewrite Hl in He.
Qed.

(** Why moving a file back can fail. *)
Definition unrestorable s (from to : str) : Prop :=
  faulty ∨ is_Some (file_at (disk s) (names from)) ∧
    (is_Some (file_at (disk s) (names to)) ∨ entry (disk s) (init (names to)) ≠ Some EDir).

(** The file is gone, or it moves. One at the target is only overwritten when
    looking for it failed. *)
Lemma wp_restore_if_present ks from to (Q : unit → Machine DB → Prop) X C s :
  sound ks (disk s) → names from ∈ ks → names to ∈ ks →
  (∀ s', same s s' → (∀ e, unrestorable s from to → X e s') ∧ C s') →
  (∀ s', same s s' → file_at (disk s) (names from) = None → Q tt s') →
  (∀ s' x, file_at (disk s) (names from) = Some x →
     (file_at (disk s) (names to) = None ∨ faulty) →
     became ks (moved (file_at (disk s)) (names from) (names to)) s s' → Q tt s') →
  wp (restore_if_present from to) Q X C s.
Proof.
  intros Hs Hf Ht HXC HQn HQ. unfold restore_if_present. apply wp_bind, wp_attempt, wp_query.
  intros s1 H1. split; [|split; [|by apply HXC]].
  - intros e He. pose proof (query_found _ _ _ _ Hs Hf He) as Hsome.
    apply wp_bind, wp_attempt, wp_query. intros s2 H2.
    assert (same s s2) as H02 by (by eapply same_trans).
    assert (file_at (disk s) (names to) = None ∨ faulty →
      wp (restore_rooted_file from to) Q X C s2) as Hgo.
    { intros Hto. pose proof H02 as [Hd Hdb]. apply (wp_restore ks); rewrite ?Hd; try done.
      - intros s' Hs'. assert (same s s') as Hss by (by eapply same_trans).
        split; [|by apply HXC]. intros e' Hu. apply HXC; [done|]. unfold unmovable in Hu.
        rewrite Hd in Hu. destruct Hu as [?|[Hn|?]]; [by left|by rewrite Hn in Hsome; destruct Hsome|].
        right. auto.
      - intros s' x Hx Hb. eapply HQ; [done..|]. eapply became_same_l; [|done]. done. }
    rewrite (proj1 H1). split; [|split; [|by apply HXC]].
    + intros e' He'. apply wp_fail. apply HXC; [done|]. right. split; [done|]. left.
      by eapply query_found.
    + intros e' He'. apply Hgo. destruct (query_missing _ _ _ _ Hs Ht He') as [[_ ?]|[_ ?]]; auto.
  - intros e He. destruct (query_missing _ _ _ _ Hs Hf He) as [[-> Hn]|[-> Hfault]].
    + apply wp_ret. by apply HQn.
    + apply wp_fail. apply HXC; [done|]. by left.
Qed.

(** [m] changes nothing, and only fails when the host does. *)
Definition steady {A} (m : M (Machine DB) Error A) : Prop := ∀ s,
  wp m (λ _, same s) (λ _ s', faulty ∧ same s s') (same s) s.

Lemma wp_steady {A} (m : M (Machine DB) Error A) (Q : A → Machine DB → Prop)
    (X : Error → Machine DB → Prop) (C : Machine DB → Prop) s :
  steady m → (∀ a s', same s s' → Q a s') → (faulty → ∀ e s', same s s' → X e s') →
  (∀ s', same s s' → C s') → wp m Q X C s.
Proof. intros Hm HQ HX HC. eapply wp_conseq; [apply Hm|auto|intros e s' []; auto|auto]. Qed.

Lemma steady_bind {A B} (m : M (Machine DB) Error A) (f : A → M (Machine DB) Error B) :
  steady m → (∀ a, steady (f a)) → steady (m ≫= f).
Proof.
  intros Hm Hf s. apply wp_bind. apply (wp_steady m); [done|..]; try done.
  intros a s' Hs. apply (wp_steady (f a)); [done|..]; intros; try split; try done;
    by eapply same_trans.
Qed.

Lemma steady_ret {A} (a : A) : steady (mret a).
Proof. intros s. by apply wp_ret. Qed.

Lemma steady_host g : steady (on_err g host_op).
Proof. intros s. apply wp_on_err, wp_host_op. intros s' Hs. split; [done|]. by split. Qed.

Lemma wp_attempt_outside (Q : FsError + unit → Machine DB → Prop) X C s :
  (∀ o s', same s s' → (∀ e, o = inl e → faulty) → Q o s') → (∀ s', same s s' → C s') →
  wp (attempt outside_op) Q X C s.
Proof.
  intros HQ HC. apply wp_attempt, wp_outside_op. intros s' Hs.
  split; [by apply HQ|]. split; [|by apply HC]. intros e Hf. by apply HQ.
Qed.

Lemma steady_open_component name : steady (open_component name).
Proof.
  intros s. unfold open_component. cbv zeta. set (component := _ ++ _).
  assert (∀ o s', same s s' → (∀ e, o = inl e → faulty) → wp (component_opened component o)
    (λ _, same s) (λ _ s', faulty ∧ same s s') (same s) s') as Hend.
  { intros [e|] s' Hs Ho; [|by apply wp_ret]. apply wp_if; intros _; apply wp_fail; split; eauto. }
  assert (∀ s', same s s' → wp (attempt outside_op) (λ o, wp (component_opened component o)
    (λ _, same s) (λ _ s', faulty ∧ same s s') (same s)) (λ _ s', faulty ∧ same s s') (same s) s')
    as Hagain.
  { intros s' Hs. apply wp_attempt_outside; [|intros; by eapply same_trans].
    intros o s2 H2 Ho. apply Hend; [by eapply same_trans|done]. }
  apply wp_bind, wp_attempt_outside; [|done]. intros o s1 H1 Ho. apply wp_bind.
  destruct o as [e|]; [|by apply wp_ret, Hend]. apply wp_if; intros _; [|by apply wp_ret, Hend].
  apply wp_bind, wp_attempt_outside; [|intros; by eapply same_trans]. intros o s2 H2 Ho2.
  assert (same s s2) by (by eapply same_trans). destruct o as [e'|]; [|by apply Hagain].
  apply wp_if; intros _; [by apply Hagain|]. apply wp_fail. split; [by eapply Ho|done].
Qed.

(** Opening the root moves nothing. *)
Lemma wp_open_root store (Q : unit → Machine DB → Prop) (X : Error → Machine DB → Prop)
    (C : Machine DB → Prop) s :
  (∀ s', same s s' → Q tt s' ∧
     (∀ e, faulty ∨ initialization_error store ≠ None → X e s') ∧ C s') →
  wp (open_root store) Q X C s.
Proof.
  intros HQ. unfold open_root. destruct (initialization_error store) eqn:Ei.
  { apply wp_fail. apply (HQ s); [done|]. by right. }
  assert (∀ l, steady (open_components l)) as Hopen.
  { induction l as [|n l IH]; [apply steady_ret|]. apply steady_bind; [apply steady_open_component|done]. }
  apply wp_steady.
  - apply steady_bind; [apply steady_host|]. intros _. apply steady_bind; [apply Hopen|]. intros _.
    apply steady_bind; [apply steady_host|]. intros _. apply steady_bind; [apply steady_host|].
    intros _ s1. apply wp_bind, wp_ask. intros s2 H2. apply wp_if; intros Hsame; [by apply wp_ret|].
    apply wp_fail. split; [|done]. right; right. eauto.
  - intros [] s' Hs. by apply HQ.
  - intros Hf e s' Hs. apply HQ; [done|]. by left.
  - intros s' Hs. by apply HQ.
Qed.

(** ** Writing a new file *)

Definition near ks (path : str) s s' : Prop :=
  sound ks (disk s') ∧ ∀ q, q ≠ names path → file_at (disk s') q = file_at (disk s) q.

Lemma near_refl ks path s s' : sound ks (disk s) → disk s' = disk s → near ks path s s'.
Proof. intros Hs Hd. unfold near. by rewrite Hd. Qed.

Lemma near_trans ks path s s1 s2 : near ks path s s1 → near ks path s1 s2 → near ks path s s2.
Proof. intros [_ H1] [? H2]. split; [done|]. intros q Hq. by rewrite H2, H1. Qed.

Lemma near_update ks path s s' e : sound ks (disk s) → names path ∈ ks →
  updated (disk s) (disk s') (names path) e → e ≠ Some EDir → e ≠ Some ELink →
  (e ≠ None → entry (disk s) (init (names path)) = Some EDir) → near ks path s s'.
Proof.
  intros Hs Hk Hu ? ? ?. split; [by eapply sound_update|]. intros q Hq.
  by rewrite (file_updated _ _ _ _ _ Hu), decide_False.
Qed.

Lemma dir_of_file s q x ks : sound ks (disk s) → file_at (disk s) q = Some x →
  entry (disk s) (init q) = Some EDir.
Proof.
  intros Hs Hx. unfold file_at in Hx. destruct (entry (disk s) q) as [[y| |]|] eqn:E; try done.
  by eapply (tree_parent _ (sound_tree _ _ Hs)).
Qed.

Lemma wp_append ks path bs (Q : unit → Machine DB → Prop) (X : FsError → Machine DB → Prop)
    (C : Machine DB → Prop) s : sound ks (disk s) → names path ∈ ks →
  (∀ s', near ks path s s' → db s' = db s → (∀ a, Q a s') ∧ (∀ e, X e s') ∧ C s') →
  wp (effect (fs_append (names path) bs)) Q X C s.
Proof.
  intros Hs Hk HQ. destruct (sound_keys _ _ Hs _ Hk) as [Hin _]. pose proof (sound_tree _ _ Hs) as Ht.
  apply wp_effect.
  - intros s' [Hd Hdb]. destruct (HQ s') as (_ & HX & HC); [by apply near_refl|done|]. split; [|done].
    intros e _. apply HX.
  - intros s' Hdb E. apply HQ; [|done].
    destruct (entry (disk s) (names path)) as [[x| |]|] eqn:Ee.
    1: { destruct (append_writes _ _ _ bs Ht Hin Ee) as (d' & Hd & Hu).
         assert (d' = disk s') as -> by congruence.
         eapply near_update; [done|done|exact Hu|done|done|]. intros _.
         eapply dir_of_file; [done|]. unfold file_at. by rewrite Ee. }
    all: exfalso; destruct (append_missing (disk s) (names path) bs) as [e He];
      [done|done|intros x; rewrite Ee; congruence|congruence].
Qed.

Lemma wp_write_all ks path data (Q : unit → Machine DB → Prop) (X : FsError → Machine DB → Prop)
    (C : Machine DB → Prop) s : sound ks (disk s) → names path ∈ ks →
  (∀ s', near ks path s s' → db s' = db s → (∀ a, Q a s') ∧ (∀ e, X e s') ∧ C s') →
  wp (write_all path data) Q X C s.
Proof.
  intros Hs Hk HQ. unfold wp, write_all. cbv zeta. set (k := Z.to_nat _).
  apply (wp_bind (effect (fs_append (names path) (take k data)))
           (λ _, effect (fs_append (names path) (drop k data)))).
  apply (wp_append ks); [done..|]. intros s1 H1 Hdb. split; [|by apply HQ]. intros _.
  apply (wp_append ks); [apply H1|done|]. intros s2 H2 Hdb2. apply HQ; [by eapply near_trans|congruence].
Qed.

Lemma quiet_hash_loop fuel cancelled hashed rest : (length rest < fuel)%nat →
  quiet (hash_loop fuel cancelled hashed rest : M (Machine DB) Error (list byte)).
Proof. intros Hf s. by apply wp_hash_loop. Qed.

Lemma quiet_verify path expected cancelled :
  quiet (verify_rooted_file_hash path expected cancelled : M (Machine DB) Error unit).
Proof.
  apply quiet_bind; [auto with store|]. intros _. apply quiet_bind; [apply quiet_on_err_query|]. intros e.
  apply quiet_bind; [|intros data; auto with store].
  destruct e; [apply quiet_hash_loop; lia|auto with store..].
Qed.

(** What a journal mark may do: anything to the journal that keeps [D], nothing
    to the files. *)
Definition marks (D : DB → Prop) (created : option (M (Machine DB) Error unit)) : Prop :=
  ∀ m s, created = Some m → D (db s) →
    wp m (λ _ s', disk s' = disk s ∧ D (db s')) (λ _ s', disk s' = disk s ∧ D (db s'))
      (λ s', disk s' = disk s ∧ D (db s')) s.

Lemma wp_write_rooted ks D path data expected created (Q : bool → Machine DB → Prop)
    (X : Error → Machine DB → Prop) (C : Machine DB → Prop) s :
  sound ks (disk s) → names path ∈ ks → marks D created → D (db s) →
  (∀ s', near ks path s s' → D (db s') → (∀ b, Q b s') ∧ (∀ e, X e s') ∧ C s') →
  wp (write_rooted_artwork path data expected created) Q X C s.
Proof.
  intros Hs Hk Hm HD HQ. destruct (sound_keys _ _ Hs _ Hk) as [Hin _]. pose proof (sound_tree _ _ Hs) as Ht.
  assert (∀ s', same s s' → near ks path s s' ∧ D (db s')) as Hsame.
  { intros s' [Hd Hdb]. split; [by apply near_refl|by rewrite Hdb]. }
  apply wp_bind, wp_attempt, wp_effect.
  - intros s1 H1. destruct (Hsame s1 H1). split; [|by apply HQ]. intros e _.
    apply wp_if; intros _; [|by apply wp_fail, HQ]. apply wp_bind.
    apply (wp_quiet (verify_matching_artwork path expected)); [apply quiet_on_err, quiet_verify|..];
      intros; try apply wp_ret; apply HQ; apply Hsame; by eapply same_trans.
  - intros s1 Hdb1 E. destruct (create_new_makes _ _ _ Ht Hin E) as (_ & Hdir & Hu).
    assert (near ks path s s1) as H1 by (by eapply near_update).
    assert (D (db s1)) as HD1 by (by rewrite Hdb1).
    cbv zeta. set (abandon := λ e : Error, _).
    assert (∀ e s', near ks path s s' → D (db s') → wp (abandon e) Q X C s') as Hgive.
    { intros e s' Hn HD'. apply wp_bind, wp_errs, (wp_remove_rooted ks); [apply Hn|done| |].
      - intros s2 [Hd2 Hdb2]. assert (near ks path s s2 ∧ D (db s2)) as [? ?].
        { split; [eapply near_trans; [done|apply near_refl; [apply Hn|done]]|by rewrite Hdb2]. }
        split; [|by apply HQ]. intros e' _. apply wp_fail_join. intros e''. by apply HQ.
      - intros s2 (Hs2 & Hdb2 & Hf2). apply wp_fail_join. intros e''. apply HQ; [|by rewrite Hdb2].
        eapply near_trans; [done|]. split; [done|]. intros q Hq. rewrite Hf2. unfold without.
        by rewrite decide_False. }
    assert (∀ s', disk s' = disk s1 → near ks path s s') as Hnear.
    { intros s' Hd. eapply near_trans; [done|]. apply near_refl; [apply H1|done]. }
    apply wp_bind, wp_catch.
    assert (∀ s2, disk s2 = disk s1 → D (db s2) → wp (written ← attempt (write_all path data);
        match written with
        | inl e => abandon (io (st "write Album Artwork") e)
        | _ => verified ← catch (verify_rooted_file_hash path expected never);
               match verified with inl e => abandon e | _ => mret true end
        end) Q X C s2) as Hrest.
    { intros s2 Hd2 HD2. pose proof (Hnear s2 Hd2) as H2.
      apply wp_bind, wp_attempt, (wp_write_all ks); [apply H2|done|]. intros s3 H3 Hdb3.
      assert (near ks path s s3) as H03 by (by eapply near_trans).
      assert (D (db s3)) as HD3 by (by rewrite Hdb3).
      split; [|split; [intros e; by apply Hgive|by apply HQ]]. intros _.
      apply wp_bind, wp_catch, (wp_quiet (verify_rooted_file_hash path expected never));
        [apply quiet_verify|..].
      + intros _ s4 [Hd4 Hdb4]. apply wp_ret, HQ; [|by rewrite Hdb4].
        eapply near_trans; [done|]. apply near_refl; [apply H03|done].
      + intros e s4 [Hd4 Hdb4]. apply Hgive; [|by rewrite Hdb4].
        eapply near_trans; [done|]. apply near_refl; [apply H03|done].
      + intros s4 [Hd4 Hdb4]. apply HQ; [|by rewrite Hdb4].
        eapply near_trans; [done|]. apply near_refl; [apply H03|done]. }
    destruct created as [m|].
    + eapply wp_conseq; [by apply Hm|..].
      * intros _ s2 [Hd2 HD2]. by apply Hrest.
      * intros e s2 [Hd2 HD2]. apply Hgive; [by apply Hnear|done].
      * intros s2 [Hd2 HD2]. apply HQ; [by apply Hnear|done].
    + apply wp_ret. by apply Hrest.
Qed.

(** ** Checking and removing a managed file *)

Lemma prefix_exists d ns e : tree d → entry d ns = Some e →
  ∀ m, (m <= length ns)%nat → is_Some (entry d (take m ns)).
Proof.
  intros Ht. revert e. induction ns as [|n ns IH] using rev_ind; intros e He m Hm.
  - rewrite take_nil. eauto.
  - rewrite length_app in Hm. simpl in Hm. destruct (decide (m = S (length ns))) as [->|Hne].
    + rewrite firstn_all2; [eauto|rewrite length_app; simpl; lia].
    + rewrite take_app_le by lia. eapply (IH EDir); [|lia].
      rewrite <-(init_snoc ns n). by eapply (tree_parent _ Ht).
Qed.

Lemma wp_reject_good ns cur (Q : unit → Machine DB → Prop) (X : Error → Machine DB → Prop)
    (C : Machine DB → Prop) s : tree (disk s) → Forall good_name (cur ++ ns) →
  (∀ m, (length cur < m <= length (cur ++ ns))%nat → is_Some (entry (disk s) (take m (cur ++ ns)))) →
  (∀ s', same s s' → Q tt s' ∧ (faulty → ∀ e, X e s') ∧ C s') →
  wp (reject_links (path_of cur) ns) Q X C s.
Proof.
  revert cur s. induction ns as [|n ns IH]; intros cur s Ht Hg Hm HQ; cbn [reject_links].
  { apply wp_ret. by apply HQ. }
  assert (Forall good_name (cur ++ [n])) as Hgn.
  { rewrite Forall_app in Hg |- *. destruct Hg as [? [? _]%Forall_cons]. split; [done|]. by constructor. }
  assert (join_parts [path_of cur; n] = path_of (cur ++ [n])) as ->.
  { rewrite Forall_app, Forall_singleton in Hgn. destruct Hgn. by apply join_parts_snoc. }
  assert (inside (names (path_of (cur ++ [n])))) as Hin.
  { apply clean_inside. exists (cur ++ [n]). split; [by destruct cur|]. done. }
  assert (is_Some (entry (disk s) (cur ++ [n]))) as [e He].
  { specialize (Hm (S (length cur))). rewrite (cons_middle n cur ns), app_assoc in Hm.
    rewrite take_app_length' in Hm by (rewrite length_app; simpl; lia). apply Hm.
    rewrite !length_app. simpl. lia. }
  rewrite <-(names_path_of (cur ++ [n])) in He by done.
  apply wp_bind, wp_on_err, wp_query. intros s1 H1. split; [|split; [|by apply HQ]].
  - intros e' Hl. rewrite (lstat_found _ _ _ Ht Hin He) in Hl. injection Hl as <-.
    assert (wp (reject_links (path_of (cur ++ [n])) ns) Q X C s1) as Hrec.
    { apply IH; rewrite ?(proj1 H1); [done|by rewrite <-app_assoc| |].
      - intros m Hlt. rewrite <-app_assoc in Hlt |- *. apply Hm. rewrite length_app in Hlt. simpl in *. lia.
      - intros s' H'. apply HQ. by eapply same_trans. }
    destruct e; [done..|]. by destruct (tree_plain _ Ht (names (path_of (cur ++ [n])))).
  - intros e' [[_ Hf]|Hl]; [by apply HQ|]. by rewrite (lstat_found _ _ _ Ht Hin He) in Hl.
Qed.

Lemma wp_reject_symlinks_good ns e (Q : unit → Machine DB → Prop) (X : Error → Machine DB → Prop)
    (C : Machine DB → Prop) s : tree (disk s) → Forall good_name ns → entry (disk s) ns = Some e →
  (∀ s', same s s' → Q tt s' ∧ (faulty → ∀ e, X e s') ∧ C s') →
  wp (reject_symlinks (path_of ns)) Q X C s.
Proof.
  intros Ht Hg He HQ. unfold reject_symlinks. rewrite names_path_of by done.
  apply (wp_reject_good ns []); [done|done| |done]. intros m [_ Hm]. by eapply prefix_exists.
Qed.

Lemma file_at_entry d q x : file_at d q = Some x → entry d q = Some (EFile x).
Proof. unfold file_at. destruct (entry d q) as [[]|]; congruence. Qed.

(** The hash of a file that is there and has it is found, unless the host fails. *)
Lemma wp_verify_good ns x expected (Q : unit → Machine DB → Prop) (X : Error → Machine DB → Prop)
    (C : Machine DB → Prop) s : tree (disk s) → ns ≠ [] → Forall good_name ns →
  file_at (disk s) ns = Some x → digest_hex x = expected →
  (∀ s', same s s' → Q tt s' ∧ (faulty → ∀ e, X e s') ∧ C s') →
  wp (verify_rooted_file_hash (path_of ns) expected never) Q X C s.
Proof.
  intros Ht Hne Hg Hx Hdig HQ. pose proof (file_at_entry _ _ _ Hx) as He.
  assert (inside ns) as Hin by (rewrite <-(names_path_of ns) by done; apply clean_inside; by exists ns).
  apply wp_bind. eapply wp_reject_symlinks_good; [done..|]. intros s1 H1.
  split; [|split; [by apply HQ|by apply HQ]].
  apply wp_bind, wp_on_err, wp_query. rewrite names_path_of by done. rewrite (proj1 H1), stat_lstat by done.
  rewrite (lstat_found _ _ _ Ht Hin He). intros s2 H2. assert (same s s2) as H02 by (by eapply same_trans).
  split; [|split; [intros e [[_ Hf]|]; [by apply HQ|done]|by apply HQ]].
  intros e [= <-]. apply wp_bind, wp_hash_loop; [simpl; lia|]. intros s3 H3.
  assert (same s s3) as H03 by (by eapply same_trans).
  split; [|split; [intros e [Hf|[n Hn]]; [by apply HQ|done]|by apply HQ]].
  simpl. rewrite Hdig, bool_decide_true by done. by apply HQ.
Qed.

(** Every directory is still there. *)
Definition dirs_kept d d' : Prop := ∀ q, entry d q = Some EDir → entry d' q = Some EDir.

Lemma dirs_updated d d' p x : entry d p = Some (EFile x) → updated d d' p None → dirs_kept d d'.
Proof. intros Hp Hu q Hq. rewrite Hu. case_decide; congruence. Qed.

(** [remove_managed_file] removes that file or nothing. *)
Lemma wp_remove_managed ks store path rel expected (Q : bool → Machine DB → Prop)
    (X : Error → Machine DB → Prop) (C : Machine DB → Prop) s :
  relative_path store path = Ok rel → sound ks (disk s) → names rel ∈ ks →
  (∀ s', same s s' → (∀ e, X e s') ∧ C s') →
  (∀ s', became ks (without (file_at (disk s)) (names rel)) s s' → dirs_kept (disk s) (disk s') → Q true s') →
  wp (remove_managed_file store never path expected) Q X C s.
Proof.
  intros Hrel Hs Hk HXC HQ. destruct (sound_keys _ _ Hs _ Hk) as [Hin Hnd]. pose proof (sound_tree _ _ Hs) as Ht.
  apply wp_bind, wp_ask. intros s0 H0. simpl. rewrite Hrel. apply wp_bind, wp_lift, wp_bind.
  apply (wp_quiet (open_root store)); [auto with store| |intros; apply HXC; by eapply same_trans..].
  intros _ s1 H1. assert (same s s1) as H01 by (by eapply same_trans). apply wp_bind.
  apply (wp_quiet (on_err _ (reject_symlinks _))); [apply quiet_on_err; auto with store| |intros; apply HXC; by eapply same_trans..].
  intros _ s2 H2. assert (same s s2) as H02 by (by eapply same_trans).
  apply wp_bind, wp_attempt, wp_query. intros s3 H3. assert (same s s3) as H03 by (by eapply same_trans).
  rewrite (proj1 H02). split; [|split; [|by apply HXC]].
  - intros [x| |] Hl; [|by apply wp_fail, HXC..]. apply wp_bind, wp_catch.
    apply (wp_quiet (verify_rooted_file_hash _ _ _)); [apply quiet_verify|..].
    + intros _ s4 H4. assert (same s s4) as H04 by (by eapply same_trans).
      apply wp_bind, wp_ask. intros s5 H5. assert (same s s5) as H05 by (by eapply same_trans). simpl.
      apply wp_bind, wp_on_err, wp_effect.
      * intros s6 H6. assert (same s s6) as H06 by (by eapply same_trans). split; [intros e _|]; by apply HXC.
      * intros s6 Hdb E. rewrite (proj1 H05) in E. destruct (remove_file_removes _ _ _ Ht Hin E) as [[y Hy] Hu].
        apply wp_ret, HQ; [|by eapply dirs_updated].
        split; [by eapply sound_update|]. split; [by rewrite Hdb, (proj2 H05)|].
        intros q. rewrite (file_updated _ _ _ _ _ Hu). done.
    + intros e s4 H4. assert (same s s4) as H04 by (by eapply same_trans).
      apply wp_bind, wp_ask. intros s5 H5. simpl. apply wp_fail, HXC. by eapply same_trans.
    + intros s4 H4. apply HXC. by eapply same_trans.
  - intros e He. destruct (query_missing _ _ _ _ Hs Hk He) as [[-> Hn]|[-> _]]; [|by apply wp_fail, HXC].
    apply wp_ret, HQ; [|intros q; by rewrite (proj1 H03)]. destruct (became_same ks s s3 Hs H03) as (? & ? & Hf3). split; [done|].
    split; [done|]. intros q. rewrite Hf3. unfold without. destruct (decide (q = names rel)) as [->|]; done.
Qed.

(** It only fails when the host does, if the file is not there or has the hash,
    and its directory is still there. *)
Lemma wp_remove_managed_good ks store path ns n expected (Q : bool → Machine DB → Prop)
    (X : Error → Machine DB → Prop) (C : Machine DB → Prop) s :
  initialization_error store = None → relative_path store path = Ok (path_of (ns ++ [n])) →
  Forall good_name (ns ++ [n]) → ns ≠ [] → sound ks (disk s) → ns ++ [n] ∈ ks →
  entry (disk s) ns = Some EDir →
  (∀ x, file_at (disk s) (ns ++ [n]) = Some x → digest_hex x = expected) →
  (∀ s', same s s' → (faulty → ∀ e, X e s') ∧ C s') →
  (∀ s', became ks (without (file_at (disk s)) (ns ++ [n])) s s' → dirs_kept (disk s) (disk s') → Q true s') →
  wp (remove_managed_file store never path expected) Q X C s.
Proof.
  intros Hstore Hrel Hg Hne Hs Hk Hdir Hdig HXC HQ.
  destruct (sound_keys _ _ Hs _ Hk) as [Hin Hnd]. pose proof (sound_tree _ _ Hs) as Ht.
  pose proof (file_entry _ _ _ Hs Hk) as Hfile.
  assert (∀ s', same s s' → (faulty → ∀ e, X e s') ∧ C s') as HX by done.
  apply wp_bind, wp_ask. intros s0 H0. simpl. rewrite Hrel. apply wp_bind, wp_lift, wp_bind, wp_open_root.
  intros s1 H1. assert (same s s1) as H01 by (by eapply same_trans).
  split; [|split; [intros e [Hf|Hi]; [by apply HX|congruence]|by apply HX]].
  rewrite parent_path_of, decide_False by done. apply wp_bind, wp_on_err.
  eapply wp_reject_symlinks_good; [by rewrite (proj1 H01)|by apply Forall_app in Hg as [? _]|by rewrite (proj1 H01)|].
  intros s2 H2. assert (same s s2) as H02 by (by eapply same_trans).
  split; [|split; [intros Hf e; by apply HX|by apply HX]].
  apply wp_bind, wp_attempt, wp_query. intros s3 H3. assert (same s s3) as H03 by (by eapply same_trans).
  rewrite (proj1 H02). split; [|split; [|by apply HX]].
  - intros e Hl. rewrite names_path_of in Hl by done.
    destruct (file_at (disk s) (ns ++ [n])) as [x|] eqn:Ex.
    2: { destruct (lstat_missing _ _ Ht Hin Hfile) as (e' & Hl' & _). congruence. }
    rewrite (lstat_found _ _ _ Ht Hin Hfile) in Hl. injection Hl as <-. apply wp_bind, wp_catch.
    eapply (wp_verify_good (ns ++ [n]) x); rewrite ?(proj1 H03); [done|by destruct ns|done|done|by apply Hdig|].
    intros s4 H4. assert (same s s4) as H04 by (by eapply same_trans). split; [|split; [|by apply HX]].
    + apply wp_bind, wp_ask. intros s5 H5. assert (same s s5) as H05 by (by eapply same_trans). simpl.
      apply wp_bind, wp_on_err, wp_effect; rewrite names_path_of, (proj1 H05) by done.
      * intros s6 H6. assert (same s s6) as H06 by (by eapply same_trans). split; [|by apply HX].
        intros e [[_ Hf]|He]; [by apply HX|].
        destruct (remove_file_works _ _ _ Ht Hin Hfile) as [d' Hd']. congruence.
      * intros s6 Hdb E. destruct (remove_file_removes _ _ _ Ht Hin E) as [[y Hy] Hu].
        apply wp_ret, HQ; [|by eapply dirs_updated].
        split; [by eapply sound_update|]. split; [by rewrite Hdb, (proj2 H05)|].
        intros q. rewrite (file_updated _ _ _ _ _ Hu). done.
    + intros Hf e. apply wp_bind, wp_ask. intros s5 H5. simpl. apply wp_fail, HX; [|done]. by eapply same_trans.
  - intros e He. rewrite <-(names_path_of (ns ++ [n])) in Hk by done.
    destruct (query_missing _ _ _ _ Hs Hk He) as [[-> Hn]|[-> Hf]]; [|by apply wp_fail, HX].
    rewrite names_path_of in Hn by done.
    apply wp_ret, HQ; [|intros q; by rewrite (proj1 H03)]. destruct (became_same ks s s3 Hs H03) as (? & ? & Hf3). split; [done|].
    split; [done|]. intros q. rewrite Hf3. unfold without. destruct (decide (q = ns ++ [n])) as [->|]; done.
Qed.
End Moves.
