(* ===== verification/Journal.v ===== *)
(** The journals of Managed Import (replacement.rs, commit.rs, repository.rs):
    the tables a crash leaves behind, the statements on them and their
    transactions. *)

From stdpp Require Import gmap.
From S2P Require Import Prelude Text Crash Disk Failure Metadata ImportErrors Storage StoreSteps.

Definition STATUS_AWAITING_CONFIRMATION : str := st "awaiting_confirmation".
Definition STATUS_COMMITTED : str := st "committed".
Definition HISTORY_RESULT_COMPLETED : str := st "completed".

(** The columns of a job the commits read and write; a NULL reads as empty. *)
Record ImportJob := mkJob {
  job_id : str;
  job_status : str;
  job_revision : Z;
  job_batch_id : str;
  job_staged_file_path : str;
  job_content_sha256 : str;
  job_track_id : str;
  job_outcome : str;
  replace_track_id : str
}.

(** The tables. The journals are in the order they are read, oldest first; what
    other tables hold is [Library]. *)
Record Tables (Library : Type) := mkTables {
  replacements : list ReplacementJournal;
  commits : list CommitJournal;
  jobs : list ImportJob;
  library : Library
}.
Arguments mkTables {_} _ _ _ _.
Arguments replacements {_} _.
Arguments commits {_} _.
Arguments jobs {_} _.
Arguments library {_} _.

(** [UPDATE]: the rows after it, and how many were affected. *)
Definition update_where {R} (sel : R → bool) (f : R → R) (rows : list R) : list R * nat :=
  ((λ r, if sel r then f r else r) <$> rows, length (filter sel rows)).

Definition is_open (p : Phase) : bool :=
  bool_decide (p ≠ Completed) && bool_decide (p ≠ RolledBack).

Definition r_set (r : ReplacementJournal) (phase : Phase) (created : bool) (reason : str) : ReplacementJournal :=
  mkReplacementJournal (j_id r) (j_job_id r) (j_track_id r) phase (staged_file_path r)
    (pending_audio_path r) (audio_file_path r) (previous_audio_path r) (retired_audio_path r)
    (j_audio_sha256 r) (previous_audio_sha256 r) (j_artwork_mode r) (pending_artwork_path r)
    (artwork_file_path r) (previous_artwork_path r) (retired_artwork_path r) (j_artwork_sha256 r)
    (previous_artwork_sha256 r) created (previous_album_id r) reason.
Definition r_phase (r : ReplacementJournal) (phase : Phase) : ReplacementJournal :=
  r_set r phase (is_artwork_created r) (recovery_reason r).
Definition r_reason (r : ReplacementJournal) (reason : str) : ReplacementJournal :=
  r_set r (j_phase r) (is_artwork_created r) reason.

(** [INSERT] into managed_track_replacements, whose id is unique, and whose job
    and track are among the open ones. *)
Definition insert_replacement (j : ReplacementJournal) (rows : list ReplacementJournal)
    : option (list ReplacementJournal) :=
  if existsb (λ r, bool_decide (j_id r = j_id j)
        || is_open (j_phase r) && is_open (j_phase j)
           && (bool_decide (j_job_id r = j_job_id j) || bool_decide (j_track_id r = j_track_id j))) rows
  then None else Some (rows ++ [j]).

Section Journal.
Context `{FS : FileSystem} `{Machinery : Host} {Library : Type}.
Abbreviation DB := (Tables Library).
Abbreviation Do A := (M (Machine DB) Error A).

(** The database's answer to a statement it refuses by itself. *)
Definition CONSTRAINT : str := st "constraint failed".

(** One statement: it fails by a constraint, the host's failure, or lost answer. *)
Definition sql {A} (operation : str) (run : DB → option (A * DB)) : Do A := fun s =>
  let failed reason := in_context operation (error_new reason) in
  match turn (clock s), run (db s) with
  | Die, _ => (Panic, tick s)
  | Refuse reason, _ => (Err (failed reason), tick s)
  | Go, None | Lost _, None => (Err (failed CONSTRAINT), tick s)
  | Go, Some (a, d) => (Ok a, mkMachine (disk s) d (S (clock s)))
  | Lost reason, Some (_, d) => (Err (failed reason), mkMachine (disk s) d (S (clock s)))
  end.

Definition restored (s : Machine DB) (d : DB) : Machine DB := mkMachine (disk s) d (clock s).

(** [begin], the statements, [commit]: one that fails or is interrupted leaves the
    tables as they were. *)
Definition transaction {A} (operation : str) (body : Do A) : Do A := fun s =>
  match sql (st "begin " ++ operation) (λ d, Some (tt, d)) s with
  | (Ok _, s1) =>
      match body s1 with
      | (Ok a, s2) =>
          match turn (clock s2) with
          | Go => (Ok a, tick s2)
          | Lost reason => (Err (in_context (st "commit " ++ operation) (error_new reason)), tick s2)
          | Refuse reason =>
              (Err (in_context (st "commit " ++ operation) (error_new reason)), restored (tick s2) (db s))
          | Die => (Panic, restored (tick s2) (db s))
          end
      | (Err e, s2) => (Err e, restored s2 (db s))
      | (Panic, s2) => (Panic, restored s2 (db s))
      | (OutOfFuel, s2) => (OutOfFuel, s2)
      end
  | (Err e, s1) => (Err e, s1)
  | (Panic, s1) => (Panic, s1)
  | (OutOfFuel, s1) => (OutOfFuel, s1)
  end.

Definition require_one (affected : nat) : Do unit :=
  if bool_decide (affected = 1%nat) then mret tt else fail (sentinel InvalidState).

(** ** managed_track_replacements *)

Definition with_replacements (d : DB) (rows : list ReplacementJournal) : DB :=
  mkTables rows (commits d) (jobs d) (library d).

Definition update_replacements (operation : str) (sel : ReplacementJournal → bool)
    (f : ReplacementJournal → ReplacementJournal) : Do unit :=
  affected ← sql operation (λ d, let '(rows, n) := update_where sel f (replacements d) in
                                 Some (n, with_replacements d rows));
  require_one affected.

Definition create_replacement_journal (j : ReplacementJournal) : Do unit :=
  sql (st "create Track Replacement journal")
    (λ d, rows ← insert_replacement j (replacements d); Some (tt, with_replacements d rows)).

Definition update_replacement_phase `{Debug} (id : str) (from to : Phase) : Do unit :=
  update_replacements (st "journal Track Replacement phase " ++ debug_str (phase_text to))
    (λ r, bool_decide (j_id r = id) && bool_decide (j_phase r = from)) (λ r, r_phase r to).

Definition mark_replacement_artwork_created (id : str) : Do unit :=
  update_replacements (st "journal Track Replacement artwork creation")
    (λ r, bool_decide (j_id r = id) && bool_decide (j_phase r = Prepared))
    (λ r, r_set r (j_phase r) true (recovery_reason r)).

Definition rollback_replacement_journal (id reason : str) : Do unit :=
  update_replacements (st "roll back Track Replacement journal")
    (λ r, bool_decide (j_id r = id) && negb (bool_decide (j_phase r = DatabaseCommitted))
          && is_open (j_phase r))
    (λ r, r_set r RolledBack (is_artwork_created r) reason).

Definition record_replacement_recovery_reason (id reason : str) : Do unit :=
  update_replacements (st "record Track Replacement recovery reason")
    (λ r, bool_decide (j_id r = id) && is_open (j_phase r)) (λ r, r_reason r reason).

(** [replacement_journals], by its [JournalFilter]. *)
Inductive JournalFilter :=
| ById (id : str) | IncompleteForJob (job : str) | LatestForJob (job : str) | AllIncomplete.

Definition selected_journals (f : JournalFilter) (rows : list ReplacementJournal) : list ReplacementJournal :=
  match f with
  | ById id => filter (λ r, j_id r = id) rows
  | IncompleteForJob job => filter (λ r, j_job_id r = job ∧ is_open (j_phase r) = true) rows
  | LatestForJob job => match last (filter (λ r, j_job_id r = job) rows) with Some r => [r] | None => [] end
  | AllIncomplete => filter (λ r, is_open (j_phase r) = true) rows
  end.

Definition replacement_journals (f : JournalFilter) : Do (list ReplacementJournal) :=
  sql (st "read Track Replacement journal") (λ d, Some (selected_journals f (replacements d), d)).

Definition find_incomplete_replacement_journal (job : str) : Do (option ReplacementJournal) :=
  rows ← replacement_journals (IncompleteForJob job); mret (head rows).

Definition get_replacement_journal (id : str) : Do ReplacementJournal :=
  rows ← replacement_journals (ById id);
  lift (ok_or (head rows) (sentinel NotFound)).

(** ** managed_import_jobs *)

Definition with_jobs (d : DB) (rows : list ImportJob) : DB :=
  mkTables (replacements d) (commits d) rows (library d).

Definition get_job `{Debug} (id : str) : Do ImportJob :=
  rows ← sql (st "get Managed Import Job " ++ debug_str id)
           (λ d, Some (filter (λ j, job_id j = id) (jobs d), d));
  lift (ok_or (head rows) (sentinel NotFound)).

(** A step on the other tables, which their own constraints can refuse. *)
Definition on_library {A} (f : DB → Error + (A * Library)) : Do A := fun s =>
  match turn (clock s) with
  | Die => (Panic, tick s)
  | Refuse reason | Lost reason => (Err (error_new reason), tick s)
  | Go =>
      match f (db s) with
      | inl e => (Err e, tick s)
      | inr (a, l) =>
          (Ok a, mkMachine (disk s) (mkTables (replacements (db s)) (commits (db s)) (jobs (db s)) l)
                   (S (clock s)))
      end
  end.
End Journal.

(** ** What statements do *)

Section Statements.
Context `{FS : FileSystem} `{Laws : !FileSystemLaws} `{Machinery : Host} `{Dbg : Debug} {Library : Type}.
Implicit Types (s : Machine (Tables Library)) (d : Tables Library).

Lemma wp_sql {A} operation (run : Tables Library → option (A * Tables Library))
    (Q : A → Machine (Tables Library) → Prop) (X : Error → Machine (Tables Library) → Prop)
    (C : Machine (Tables Library) → Prop) s :
  (∀ s', same s s' → (∀ e, faulty ∨ run (db s) = None → X e s') ∧ C s') →
  (∀ a d s', run (db s) = Some (a, d) → disk s' = disk s → db s' = d →
     Q a s' ∧ (∀ e, faulty → X e s')) →
  wp (sql operation run) Q X C s.
Proof.
  intros Hno Hyes. destruct (Hno (tick s)) as [HX HC]; [done|]. unfold wp, sql.
  destruct (turn (clock s)) eqn:Ht, (run (db s)) as [[a d]|] eqn:Hr; try done.
  - by eapply Hyes.
  - apply HX. by right.
  - apply HX. left. left. eauto.
  - apply HX. by right.
  - eapply Hyes; [done..|]. left. eauto.
  - apply HX. by right.
Qed.

Lemma update_last {R} (sel : R → bool) f rows r : Forall (λ r', sel r' = false) rows →
  update_where sel f (rows ++ [r]) = if sel r then (rows ++ [f r], 1%nat) else (rows ++ [r], 0%nat).
Proof.
  intros Hrows. unfold update_where. rewrite fmap_app, filter_app.
  assert (((λ r, if sel r then f r else r) <$> rows) = rows ∧ filter sel rows = []) as [-> ->].
  { induction Hrows as [|r' rows Hr' _ [IH1 IH2]]; [done|]. cbn [fmap list_fmap]. rewrite Hr'. split.
    - f_equal. exact IH1.
    - rewrite filter_cons_False; [exact IH2|rewrite Hr'; by intros []]. }
  cbn. destruct (sel r) eqn:E; by rewrite ?E.
Qed.

(** An update of the last row, the only one it can select. *)
Lemma wp_update_last operation sel f rows r c js l (Q : unit → Machine (Tables Library) → Prop)
    (X : Error → Machine (Tables Library) → Prop) (C : Machine (Tables Library) → Prop) s :
  db s = mkTables (rows ++ [r]) c js l → Forall (λ r', sel r' = false) rows →
  (∀ s', same s s' → (∀ e, faulty ∨ sel r = false → X e s') ∧ C s') →
  (∀ s', sel r = true → disk s' = disk s → db s' = mkTables (rows ++ [f r]) c js l →
     Q tt s' ∧ (∀ e, faulty → X e s')) →
  wp (update_replacements operation sel f) Q X C s.
Proof.
  intros Hdb Hrows Hno Hyes. unfold update_replacements. apply wp_bind, wp_sql.
  - intros s' Hs. split; [|by apply Hno]. intros e [Hf|Hn]; [apply Hno; auto|].
    exfalso. by destruct (update_where _ _ _) in Hn.
  - intros a d s' Hr Hd Hdb'. rewrite Hdb in Hr. cbn [replacements] in Hr.
    rewrite update_last in Hr by done. destruct (sel r) eqn:E; injection Hr as <- <-.
    + destruct (Hyes s') as [HQ HX]; [done..|]. split; [exact HQ|done].
    + assert (same s s') as Hss by (split; [done|by rewrite Hdb']).
      split; [|intros e _; apply Hno; auto]. exact (proj1 (Hno s' Hss) _ (or_intror eq_refl)).
Qed.

Lemma wp_get_journal rows r c js l (Q : ReplacementJournal → Machine (Tables Library) → Prop)
    (X : Error → Machine (Tables Library) → Prop) (C : Machine (Tables Library) → Prop) s :
  db s = mkTables (rows ++ [r]) c js l → Forall (λ r', j_id r' ≠ j_id r) rows →
  (∀ s', same s s' → Q r s' ∧ (∀ e, faulty → X e s') ∧ C s') →
  wp (get_replacement_journal (j_id r)) Q X C s.
Proof.
  intros Hdb Hrows HQ. unfold get_replacement_journal, replacement_journals. apply wp_bind, wp_sql.
  - intros s' Hs. destruct (HQ s' Hs) as (? & HX & ?). split; [|done]. intros e [Hf|]; [by apply HX|done].
  - intros a d s' [= <- <-] Hd Hdb'. destruct (HQ s') as (? & ? & ?); [by split|]. split; [|done].
    rewrite Hdb. cbn [replacements selected_journals]. rewrite filter_app.
    assert (filter (λ r', j_id r' = j_id r) rows = []) as ->.
    { clear Hdb. induction Hrows as [|r' rows Hr' _ IH]; [done|]. by rewrite filter_cons_False. }
    rewrite filter_cons_True by done. done.
Qed.

(** A transaction ends with what its statements did, or with nothing done. *)
Lemma wp_transaction {A} operation (body : M (Machine (Tables Library)) Error A)
    (Q : A → Machine (Tables Library) → Prop) (X : Error → Machine (Tables Library) → Prop)
    (C : Machine (Tables Library) → Prop) s :
  (∀ s', same s s' → (∀ e, faulty → X e s') ∧ C s') →
  (∀ s1, same s s1 → wp body
     (λ a s', Q a (tick s') ∧ (∀ e, faulty → X e (tick s')) ∧
        (∀ s2, disk s2 = disk s' → db s2 = db s → (∀ e, faulty → X e s2) ∧ C s2))
     (λ e s', ∀ s2, disk s2 = disk s' → db s2 = db s → X e s2)
     (λ s', ∀ s2, disk s2 = disk s' → db s2 = db s → C s2) s1) →
  wp (transaction operation body) Q X C s.
Proof.
  intros Hno Hbody. destruct (Hno (tick s)) as [HX HC]; [done|]. unfold wp at 1, transaction, sql.
  destruct (turn (clock s)) eqn:Ht; try done.
  - specialize (Hbody (mkMachine (disk s) (db s) (S (clock s)))). unfold wp in Hbody.
    destruct (body _) as [[a|e| |] s2]; try (apply Hbody; done).
    destruct Hbody as (HQ & HX2 & Hback); [done|].
    destruct (turn (clock s2)) eqn:Ht2; [done|..].
    + destruct (Hback (restored (tick s2) (db s))) as [H' _]; [done..|]. apply H'. left. eauto.
    + apply HX2. left. eauto.
    + by apply (Hback (restored (tick s2) (db s))).
  - apply HX. left. eauto.
  - apply HX. left. eauto.
Qed.

Lemma wp_on_library {A} (f : Tables Library → Error + (A * Library))
    (Q : A → Machine (Tables Library) → Prop) (X : Error → Machine (Tables Library) → Prop)
    (C : Machine (Tables Library) → Prop) s :
  (∀ s', same s s' → (∀ e, faulty ∨ f (db s) = inl e → X e s') ∧ C s') →
  (∀ a l s', f (db s) = inr (a, l) → disk s' = disk s →
     db s' = mkTables (replacements (db s)) (commits (db s)) (jobs (db s)) l → Q a s') →
  wp (on_library f) Q X C s.
Proof.
  intros Hno Hyes. destruct (Hno (tick s)) as [HX HC]; [done|]. unfold wp, on_library.
  destruct (turn (clock s)) eqn:Ht; [|apply HX; left; left; by eauto..|done].
  destruct (f (db s)) as [e|[a l]] eqn:E; [apply HX; by right|by eapply Hyes].
Qed.
End Statements.
