(* ===== verification/Swap.v ===== *)
(** The swap of one managed file for another (storage.rs): a file waits at a
    pending path, the previous file is retired, the pending one takes the
    canonical path, and every step can be undone. *)

From stdpp Require Import gmap.
From S2P Require Import Prelude Text Crash Disk Failure Metadata ImportErrors Storage StoreSteps.

(** The four paths of a swap. *)
Record Slots := mkSlots { s_prev : list str; s_canon : list str; s_pend : list str; s_ret : list str }.

Definition slot_keys (k : Slots) : list (list str) := [s_prev k; s_canon k; s_pend k; s_ret k].

(** The canonical path may be the previous one; the others are their own, next to
    the file they stand in for. *)
Record good_slots (k : Slots) : Prop := {
  pend_ret : s_pend k ≠ s_ret k;
  pend_prev : s_pend k ≠ s_prev k;
  pend_canon : s_pend k ≠ s_canon k;
  ret_prev : s_ret k ≠ s_prev k;
  ret_canon : s_ret k ≠ s_canon k;
  same_canon : init (s_canon k) = init (s_pend k);
  same_prev : init (s_prev k) = init (s_ret k)
}.

Lemma slots_in k : s_prev k ∈ slot_keys k ∧ s_canon k ∈ slot_keys k ∧ s_pend k ∈ slot_keys k ∧
  s_ret k ∈ slot_keys k.
Proof. unfold slot_keys. rewrite !elem_of_cons. tauto. Qed.

Lemma ejoin_keeps e parts : Some e ∈ parts → ejoin parts ≠ None.
Proof. intros He Hj. by apply ((proj1 (ejoin_None _) Hj) (Some e)) in He. Qed.

Abbreviation Files := (list str → option (list byte)).

(** Where the previous file [o] and the new one [n] are. *)
Definition at_rest (k : Slots) (o : list byte) (n : option (list byte)) (f : Files) : Prop :=
  f (s_prev k) = Some o ∧ f (s_ret k) = None ∧ f (s_pend k) = n ∧
  (s_canon k ≠ s_prev k → f (s_canon k) = None).
Definition half_way (k : Slots) (o : list byte) (n : option (list byte)) (f : Files) : Prop :=
  f (s_ret k) = Some o ∧ f (s_pend k) = n ∧ f (s_prev k) = None ∧ f (s_canon k) = None.
Definition swapped (k : Slots) (o : list byte) (n : option (list byte)) (f : Files) : Prop :=
  f (s_ret k) = Some o ∧ f (s_canon k) = n ∧ is_Some n ∧ f (s_pend k) = None ∧
  (s_canon k ≠ s_prev k → f (s_prev k) = None).
(** The previous file is back though the new one never left the canonical path. *)
Definition both (k : Slots) (o : list byte) (n : option (list byte)) (f : Files) : Prop :=
  f (s_prev k) = Some o ∧ f (s_canon k) = n ∧ is_Some n ∧ f (s_pend k) = None ∧
  f (s_ret k) = None ∧ s_canon k ≠ s_prev k.

Lemma moved_at f a b q : moved f a b q = if decide (q = b) then f a else if decide (q = a) then None else f q.
Proof. done. Qed.

(** ** The moves of a swap, forward and back *)

Ltac by_path Hg := unfold at_rest, half_way, swapped, both in *; destruct_and?;
  rewrite ?Hg; unfold moved; repeat case_decide; simplify_eq; repeat split; (done || congruence || naive_solver).

Section Moves.
Context (k : Slots) (Hk : good_slots k) (o : list byte) (n : option (list byte)) (f g : Files).

Lemma retire_previous : (∀ q, g q = moved f (s_prev k) (s_ret k) q) →
  at_rest k o n f → half_way k o n g.
Proof. destruct Hk. intros Hg Hf. by_path Hg. Qed.

Lemma place_pending : (∀ q, g q = moved f (s_pend k) (s_canon k) q) → is_Some n →
  half_way k o n f → swapped k o n g.
Proof. destruct Hk. intros Hg Hn Hf. by_path Hg. Qed.

Lemma undo_placed : (∀ q, g q = moved f (s_canon k) (s_pend k) q) →
  swapped k o n f → half_way k o n g.
Proof. destruct Hk. intros Hg Hf. by_path Hg. Qed.

Lemma undo_retired : (∀ q, g q = moved f (s_ret k) (s_prev k) q) →
  half_way k o n f → at_rest k o n g.
Proof. destruct Hk. intros Hg Hf. by_path Hg. Qed.

Lemma undo_retired_only : (∀ q, g q = moved f (s_ret k) (s_prev k) q) →
  swapped k o n f → at_rest k o None g ∨ both k o n g.
Proof.
  destruct Hk. intros Hg Hf. destruct (decide (s_canon k = s_prev k)) as [E|E]; [left|right]; by_path Hg.
Qed.

Lemma lose_pending : (∀ q, q ∈ slot_keys k → g q = if decide (q = s_pend k) then None else f q) →
  (at_rest k o n f → at_rest k o None g) ∧ (half_way k o n f → half_way k o None g) ∧
  (is_Some (f (s_pend k)) → ¬ swapped k o n f ∧ ¬ both k o n f).
Proof.
  destruct Hk. destruct (slots_in k) as (H1 & H2 & H3 & H4). intros Hg.
  unfold at_rest, half_way, swapped, both. rewrite !Hg by done. repeat case_decide; try congruence.
  split; [tauto|]. split; [tauto|]. intros [x Hx]. split; intros Hst; destruct_and!; congruence.
Qed.

Lemma drop_pending : (∀ q, q ≠ s_pend k → g q = f q) → at_rest k o n f → at_rest k o (g (s_pend k)) g.
Proof. destruct Hk. intros Hg (? & ? & ? & ?). unfold at_rest. rewrite (Hg (s_prev k)), (Hg (s_ret k)), (Hg (s_canon k)) by congruence. auto. Qed.
End Moves.

Section Swap.
Context `{FS : FileSystem} `{Laws : !FileSystemLaws} {DB : Type} `{Machinery : Host} `{Dbg : Debug} `{Uni : Unicode}.
Implicit Types (s : Machine DB) (k : Slots) (f : Files).

Definition settled k o n f : Prop :=
  at_rest k o n f ∨ (faulty ∧ (at_rest k o None f ∨ both k o n f)).
Definition config k o n f : Prop := settled k o n f ∨ half_way k o n f ∨ swapped k o n f.

(** The previous file is always at one of its two paths. *)
Lemma config_keeps k o n f : config k o n f → f (s_prev k) = Some o ∨ f (s_ret k) = Some o.
Proof. unfold config, settled, at_rest, both, half_way, swapped. tauto. Qed.

Lemma config_lose k o n f (g : Files) : good_slots k →
  (∀ q, q ∈ slot_keys k → g q = if decide (q = s_pend k) then None else f q) →
  is_Some (f (s_pend k)) → config k o n f → config k o None g.
Proof.
  intros Hk Hg Hs Hc. destruct (lose_pending k Hk o n f g Hg) as (? & ? & Hno).
  destruct (lose_pending k Hk o None f g Hg) as (? & _). destruct (Hno Hs). unfold config, settled in *. tauto.
Qed.

(** Only the paths of the swap changed, and [P] holds of the files. *)
Definition swaps ks k (P : Files → Prop) s s' : Prop :=
  sound ks (disk s') ∧ db s' = db s ∧ P (file_at (disk s')) ∧
  ∀ q, q ∉ slot_keys k → file_at (disk s') q = file_at (disk s) q.

Lemma swaps_same ks k (P : Files → Prop) s s' : sound ks (disk s) → P (file_at (disk s)) →
  same s s' → swaps ks k P s s'.
Proof. intros Hs HP [Hd Hdb]. unfold swaps. by rewrite Hd. Qed.

Lemma swaps_conseq ks k (P P' : Files → Prop) s s' : swaps ks k P s s' → (∀ f, P f → P' f) →
  swaps ks k P' s s'.
Proof. intros (? & ? & HP & ?) Himp. split; [done|]. split; [done|]. split; [by apply Himp|done]. Qed.

Lemma swaps_trans ks k (P P' : Files → Prop) s s1 s2 : swaps ks k P s s1 → swaps ks k P' s1 s2 →
  swaps ks k P' s s2.
Proof.
  intros (_ & H1 & _ & F1) (? & H2 & ? & F2). split; [done|]. split; [congruence|].
  split; [done|]. intros q Hq. by rewrite F2, F1.
Qed.

Lemma swaps_moved ks k (P : Files → Prop) a b s s' : a ∈ slot_keys k → b ∈ slot_keys k →
  became ks (moved (file_at (disk s)) a b) s s' →
  ((∀ q, file_at (disk s') q = moved (file_at (disk s)) a b q) → P (file_at (disk s'))) →
  swaps ks k P s s'.
Proof.
  intros Ha Hb (Hs & Hdb & Hf) HP. split; [done|]. split; [done|]. split; [by apply HP|].
  intros q Hq. rewrite Hf. unfold moved. rewrite !decide_False; [done|..]; by intros ->.
Qed.

Section One.
Context (ks : list (list str)) (prev canon pend ret : str) (o : list byte) (n : option (list byte)).
Abbreviation k := (mkSlots (names prev) (names canon) (names pend) (names ret)).
Context (Hgood : good_slots k) (Hks : ∀ q, q ∈ slot_keys k → q ∈ ks).

Lemma slot_prev : names prev ∈ ks ∧ names canon ∈ ks ∧ names pend ∈ ks ∧ names ret ∈ ks.
Proof. repeat split; apply Hks, (slots_in k). Qed.

(** Moving the canonical file back. *)
Lemma wp_undo_canon s (Q : option Error → Machine DB → Prop) (X : Error → Machine DB → Prop) C :
  sound ks (disk s) → (half_way k o n (file_at (disk s)) ∨ swapped k o n (file_at (disk s))) →
  (∀ s', swaps ks k (half_way k o n) s s' → Q None s') →
  (∀ e s', faulty → same s s' → swapped k o n (file_at (disk s)) ∨ half_way k o n (file_at (disk s)) →
     Q (Some e) s') →
  (∀ s', same s s' → C s') →
  wp (errs (restore_if_present canon pend)) Q X C s.
Proof.
  intros Hs Hc HQ HE HC. destruct slot_prev as (Hp & Hca & Hpe & Hr).
  pose proof (same_canon _ Hgood) as Hsc; pose proof (same_prev _ Hgood) as Hsp. cbn [s_prev s_canon s_pend s_ret] in *.
  apply wp_errs, (wp_restore_if_present ks); [done..| | |].
  - intros s' Hss. split; [|by auto]. intros e [Hf|[[x Hx] [[y Hy]|Hd]]].
    + apply HE; [done..|]. tauto.
    + exfalso. destruct Hc as [(_ & _ & _ & Hn)|(_ & _ & _ & Hn & _)]; cbn in Hn; congruence.
    + exfalso. apply Hd. rewrite <-Hsc. by eapply dir_of_file.
  - intros s' Hss Hn. apply HQ. apply swaps_same; [done| |done].
    destruct Hc as [Hc|(_ & Hc & Hsome & _)]; [done|]. cbn in Hc. rewrite Hn in Hc. subst n.
    by destruct Hsome.
  - intros s' x Hx _ Hb. apply HQ. eapply swaps_moved; [..|exact Hb|]; [apply (slots_in k)|apply (slots_in k)|].
    intros Hf. destruct Hc as [(_ & _ & _ & Hn)|Hc]; [cbn in Hn; congruence|]. by eapply undo_placed.
Qed.

(** Moving the previous file back. *)
Lemma wp_undo_prev s (Q : option Error → Machine DB → Prop) (X : Error → Machine DB → Prop) C :
  sound ks (disk s) →
  half_way k o n (file_at (disk s)) ∨ (faulty ∧ swapped k o n (file_at (disk s))) →
  (∀ s', swaps ks k (settled k o n) s s' → Q None s') →
  (∀ e s', faulty → same s s' → Q (Some e) s') →
  (∀ s', same s s' → C s') →
  wp (errs (restore_if_present ret prev)) Q X C s.
Proof.
  intros Hs Hc HQ HE HC. destruct slot_prev as (Hp & Hca & Hpe & Hr).
  pose proof (same_canon _ Hgood) as Hsc; pose proof (same_prev _ Hgood) as Hsp. cbn [s_prev s_canon s_pend s_ret] in *.
  assert (file_at (disk s) (names ret) = Some o) as Ho
    by (destruct Hc as [(Ho & _)|[_ (Ho & _)]]; exact Ho).
  apply wp_errs, (wp_restore_if_present ks); [done..| | |].
  - intros s' Hss. split; [|by auto]. intros e [Hf|[[x Hx] [[y Hy]|Hd]]]; [by apply HE|..].
    + destruct Hc as [(_ & _ & Hn & _)|[Hf _]]; [cbn in Hn; congruence|by apply HE].
    + exfalso. apply Hd. rewrite Hsp. by eapply dir_of_file.
  - intros s' _ Hn. congruence.
  - intros s' x Hx _ Hb. apply HQ. eapply swaps_moved; [..|exact Hb|]; [apply (slots_in k)|apply (slots_in k)|].
    intros Hf. destruct Hc as [Hc|[Hfault Hc]].
    + left. by eapply undo_retired.
    + right. split; [done|]. by eapply undo_retired_only.
Qed.

(** [undo_retired_swap] undoes whatever part of the swap was made. *)
Lemma wp_undo_retired_swap s (Q : unit → Machine DB → Prop) (X : Error → Machine DB → Prop)
    (C : Machine DB → Prop) :
  sound ks (disk s) → config k o n (file_at (disk s)) →
  (∀ s', swaps ks k (settled k o n) s s' → Q tt s') →
  (∀ e s', faulty → swaps ks k (config k o n) s s' → X e s') →
  (∀ s', swaps ks k (config k o n) s s' → C s') →
  wp (undo_retired_swap ret prev canon pend) Q X C s.
Proof.
  intros Hs Hc HQ HX HC. destruct slot_prev as (Hp & Hca & Hpe & Hr).
  assert (∀ s', same s s' → swaps ks k (config k o n) s s') as Hsame
    by (intros s' Hss; by apply swaps_same).
  unfold undo_retired_swap. apply wp_bind, wp_attempt, wp_query. intros s1 H1.
  split; [|split; [|by auto]].
  2: { intros e He. destruct (query_missing _ _ _ _ Hs Hr He) as [[-> Hn]|[-> Hf]].
       - apply wp_ret, HQ. apply swaps_same; [done| |done].          destruct Hc as [Hc|[(Hc & _)|(Hc & _)]]; [done|cbn in Hc; congruence..].
       - apply wp_fail. by apply HX, Hsame. }
  intros e He. destruct (query_found _ _ _ _ Hs Hr He) as [x Hx].
  assert (half_way k o n (file_at (disk s1)) ∨ swapped k o n (file_at (disk s1))) as Hc1.
  { rewrite (proj1 H1).     destruct Hc as [[(_ & Hc & _)|[_ [(_ & Hc & _)|(_ & _ & _ & _ & Hc & _)]]]|Hc];
      [cbn in Hc; congruence..|done]. }
  assert (sound ks (disk s1)) as Hs1 by (by rewrite (proj1 H1)).
  assert (∀ s2, swaps ks k (config k o n) s1 s2 → swaps ks k (config k o n) s s2) as Hup.
  { intros s2 H2. eapply swaps_trans; [by apply Hsame|done]. }
  apply wp_bind, wp_undo_canon; [done..| | |].
  - intros s2 H2. assert (swaps ks k (config k o n) s1 s2) as Hc2.
    { eapply swaps_conseq; [done|]. intros f Hf. right. by left. }
    pose proof H2 as (Hs2 & _ & Hh2 & _).
    apply wp_bind, wp_undo_prev; [done|by left|..].
    + intros s3 H3. apply wp_join_result; [|done]. intros _. apply HQ.
      eapply swaps_trans; [by apply Hsame|]. by eapply swaps_trans.
    + intros e' s3 Hf H3. apply wp_join_result; [intros []%(ejoin_keeps e'); rewrite !elem_of_cons; auto|].
      intros e'' _. apply HX; [done|]. apply Hup. eapply swaps_trans; [done|].
      apply swaps_same; [done| |done]. right. by left.
    + intros s3 H3. apply HC, Hup. eapply swaps_trans; [done|].
      apply swaps_same; [done| |done]. right. by left.
  - intros e' s2 Hf H2 Hc2. assert (sound ks (disk s2)) as Hs2 by (by rewrite (proj1 H2)).
    assert (config k o n (file_at (disk s2))) as Hcfg.
    { rewrite (proj1 H2). right. tauto. }
    assert (swaps ks k (config k o n) s1 s2) as H12.
    { apply swaps_same; [done| |done]. by rewrite (proj1 H2) in Hcfg. }
    assert (∀ j, ejoin [Some e'; j] ≠ None) as Hne.
    { intros j. apply (ejoin_keeps e'). rewrite elem_of_cons. by left. }
    apply wp_bind, wp_undo_prev; [done|rewrite (proj1 H2); tauto|..].
    + intros s3 H3. apply wp_join_result; [by intros ?%Hne|]. intros e'' _. apply HX; [done|].
      apply Hup. eapply swaps_trans; [done|]. eapply swaps_conseq; [done|]. intros f Hf'. by left.
    + intros e'' s3 _ H3. apply wp_join_result; [by intros ?%Hne|]. intros e3 _. apply HX; [done|].
      apply Hup. eapply swaps_trans; [done|]. by apply swaps_same.
    + intros s3 H3. apply HC, Hup. eapply swaps_trans; [done|]. by apply swaps_same.
  - intros s2 H2. apply HC, Hup, swaps_same; [done| |done]. right. tauto.
Qed.

(** With nothing retired there is nothing to undo. *)
Lemma wp_undo_nothing s (Q : unit → Machine DB → Prop) (X : Error → Machine DB → Prop)
    (C : Machine DB → Prop) : sound ks (disk s) → file_at (disk s) (names ret) = None →
  (∀ s', same s s' → Q tt s' ∧ (faulty → ∀ e, X e s') ∧ C s') →
  wp (undo_retired_swap ret prev canon pend) Q X C s.
Proof.
  intros Hs Hn HQ. destruct slot_prev as (_ & _ & _ & Hr). apply wp_bind, wp_attempt, wp_query.
  intros s1 H1. destruct (HQ s1 H1) as (? & HX & ?). split; [|split; [|done]].
  - intros e He. destruct (query_found _ _ _ _ Hs Hr He) as [x Hx]. congruence.
  - intros e He. destruct (query_missing _ _ _ _ Hs Hr He) as [[-> _]|[-> Hf]]; [by apply wp_ret|].
    apply wp_fail. by apply HX.
Qed.
End One.
End Swap.
