(* ===== verification/ReplaceFiles.v ===== *)
(** The files of a Track Replacement (storage.rs): whatever fails, and wherever
    the process ends, the previous Track and the previous Album Artwork are each
    under one of two known paths, and rolling back puts every file where it was. *)

From stdpp Require Import gmap.
From S2P Require Import Prelude Text Crash Disk Failure Metadata ImportErrors Storage StoreSteps Swap.

#[local] Arguments init : simpl never.

Definition audio_slots (p : ReplacementPlacement) : Slots :=
  mkSlots (names (previous_audio p)) (names (r_audio p)) (names (pending_audio p)) (names (retired_audio p)).
Definition artwork_slots (p : ReplacementPlacement) : Slots :=
  mkSlots (names (previous_artwork p)) (names (r_artwork p)) (names (pending_artwork p))
    (names (retired_artwork p)).

(** The paths a replacement writes. *)
Definition audio_keys (p : ReplacementPlacement) : list (list str) :=
  names (r_staged p) :: slot_keys (audio_slots p).
Definition artwork_keys (p : ReplacementPlacement) : list (list str) :=
  match artwork_mode p with
  | ModeReplace => slot_keys (artwork_slots p)
  | ModeCreate => [names (r_artwork p)]
  | _ => []
  end.
Definition written_keys (p : ReplacementPlacement) : list (list str) :=
  audio_keys p ++ artwork_keys p.

(** The Album Artwork an emptied Album leaves behind is removed at the end. *)
Definition left_artwork (p : ReplacementPlacement) : list (list str) :=
  if bool_decide (artwork_mode p ≠ ModeReplace ∧ previous_artwork p ≠ [])
  then [names (previous_artwork p)] else [].
Definition replacement_keys (p : ReplacementPlacement) : list (list str) :=
  written_keys p ++ left_artwork p.

(** What [plan_replacement_placement] makes sure of. *)
Record good_placement (p : ReplacementPlacement) : Prop := {
  gp_audio : good_slots (audio_slots p);
  gp_staged : names (r_staged p) ∉ slot_keys (audio_slots p);
  gp_staging : init (names (r_staged p)) = [STAGING];
  gp_dir : ∃ ns n, Forall good_name (ns ++ [n]) ∧ ns ≠ [] ∧ head ns ≠ Some STAGING ∧
             r_audio p = path_of (ns ++ [n]);
  gp_previous : ∃ ns n, Forall good_name (ns ++ [n]) ∧ ns ≠ [] ∧ head ns ≠ Some STAGING ∧
             previous_audio p = path_of (ns ++ [n]);
  gp_artwork : artwork_mode p = ModeReplace → good_slots (artwork_slots p);
  gp_apart : ∀ q, q ∈ artwork_keys p → q ∉ audio_keys p;
  gp_left : ∀ q, q ∈ left_artwork p → q ∉ written_keys p;
  gp_created : r_artwork_created p = true → artwork_mode p = ModeCreate ∨ artwork_mode p = ModeReplace
}.

(** Predicates of the files that only look at the paths of a swap. *)
Lemma states_ext k o n (f g : Files) : (∀ q, q ∈ slot_keys k → f q = g q) →
  (at_rest k o n f → at_rest k o n g) ∧ (half_way k o n f → half_way k o n g) ∧
  (swapped k o n f → swapped k o n g) ∧ (both k o n f → both k o n g).
Proof.
  intros Hfg. destruct (slots_in k) as (H1 & H2 & H3 & H4).
  unfold at_rest, half_way, swapped, both. rewrite !Hfg by done. tauto.
Qed.

Section Files.
Context `{FS : FileSystem} `{Laws : !FileSystemLaws} {DB : Type} `{Machinery : Host} `{Dbg : Debug} `{Uni : Unicode}.
Implicit Types (s : Machine DB) (f g : Files).

Lemma config_ext k o n f g : (∀ q, q ∈ slot_keys k → f q = g q) → config k o n f → config k o n g.
Proof.
  intros Hfg. destruct (states_ext k o n f g Hfg) as (? & ? & ? & ?).
  destruct (states_ext k o None f g Hfg) as (? & _). unfold config, settled. tauto.
Qed.

Section Placement.
Context (p : ReplacementPlacement) (Hp : good_placement p).
Context (previous new artwork : list byte).
Abbreviation ka := (audio_slots p).
Abbreviation kw := (artwork_slots p).
Abbreviation ks := (replacement_keys p).
Abbreviation staged := (names (r_staged p)).

(** The upload waits in the staging directory; it was taken from there and the
    swap is at some point; or the host failed, and only the previous Track counts. *)
Definition waiting f : Prop := f staged = Some new ∧ at_rest ka previous None f.
Definition taken f : Prop := f staged = None ∧ at_rest ka previous (Some new) f.
Definition under_way f : Prop := f staged = None ∧
  (half_way ka previous (Some new) f ∨ swapped ka previous (Some new) f).
Definition audio_kept f : Prop :=
  waiting f ∨ taken f ∨ under_way f ∨ (faulty ∧ ∃ n, config ka previous n f).

Definition artwork_rest f : Prop :=
  match artwork_mode p with ModeReplace => ∃ n, at_rest kw artwork n f | _ => True end.
Definition artwork_kept f : Prop :=
  match artwork_mode p with ModeReplace => ∃ n, config kw artwork n f | _ => True end.

Definition artwork_in_place f : Prop :=
  match artwork_mode p with ModeReplace => ∃ n, swapped kw artwork n f | _ => True end.

Lemma artwork_in_place_kept f : artwork_in_place f → artwork_kept f.
Proof. unfold artwork_in_place, artwork_kept, config. destruct (artwork_mode p); naive_solver. Qed.

Lemma audio_kept_previous f : audio_kept f →
  f (names (previous_audio p)) = Some previous ∨ f (names (retired_audio p)) = Some previous.
Proof.
  intros [[_ Hf]|[[_ Hf]|[[_ Hf]|[_ [n Hf]]]]];
    eapply (config_keeps ka); unfold config, settled; eauto.
Qed.

Lemma artwork_kept_previous f : artwork_mode p = ModeReplace → artwork_kept f →
  f (names (previous_artwork p)) = Some artwork ∨ f (names (retired_artwork p)) = Some artwork.
Proof. unfold artwork_kept. intros ->. intros [n Hf]. by eapply (config_keeps kw). Qed.

Lemma artwork_rest_kept f : artwork_rest f → artwork_kept f.
Proof. unfold artwork_rest, artwork_kept, config, settled. destruct (artwork_mode p); naive_solver. Qed.

Lemma audio_states_ext f g : (∀ q, q ∈ audio_keys p → f q = g q) →
  (waiting f → waiting g) ∧ (taken f → taken g) ∧ (under_way f → under_way g) ∧
  (audio_kept f → audio_kept g).
Proof.
  intros Hfg. assert (∀ q, q ∈ slot_keys ka → f q = g q) as Hk by (intros q Hq; apply Hfg; by right).
  assert (f staged = g staged) as Hst by (apply Hfg; by left).
  destruct (states_ext ka previous (Some new) f g Hk) as (? & ? & ? & _).
  destruct (states_ext ka previous None f g Hk) as (? & _).
  assert (∀ n, config ka previous n f → config ka previous n g) by (intros n; by apply config_ext).
  unfold audio_kept, waiting, taken, under_way. rewrite Hst. naive_solver.
Qed.

Lemma artwork_states_ext f g : (∀ q, q ∈ artwork_keys p → f q = g q) →
  (artwork_rest f → artwork_rest g) ∧ (artwork_kept f → artwork_kept g).
Proof.
  unfold artwork_keys, artwork_rest, artwork_kept. destruct (artwork_mode p); try done.
  intros Hfg. split; intros [n Hf]; exists n.
  - by apply (states_ext kw artwork n f g).
  - by apply (config_ext kw artwork n f g).
Qed.

(** ** What a step leaves *)

(** A predicate of the files that only looks at the paths [l]. *)
Definition looks (l : list (list str)) (A : Files → Prop) : Prop :=
  ∀ f g, (∀ q, q ∈ l → f q = g q) → A f → A g.

Lemma written_audio q : q ∈ audio_keys p → q ∈ written_keys p.
Proof. intros Hq. apply elem_of_app. by left. Qed.

Lemma written_artwork q : q ∈ artwork_keys p → q ∈ written_keys p.
Proof. intros Hq. apply elem_of_app. by right. Qed.

Lemma keys_audio q : q ∈ audio_keys p → q ∈ ks.
Proof. intros Hq. apply elem_of_app. left. by apply written_audio. Qed.

Lemma keys_artwork q : q ∈ artwork_keys p → q ∈ ks.
Proof. intros Hq. apply elem_of_app. left. by apply written_artwork. Qed.

Lemma keys_slots q : q ∈ slot_keys ka → q ∈ ks.
Proof. intros Hq. apply keys_audio. by right. Qed.

Lemma looks_audio : looks (audio_keys p) waiting ∧ looks (audio_keys p) taken ∧
  looks (audio_keys p) under_way ∧ looks (audio_keys p) audio_kept.
Proof. repeat apply conj; intros f g Hfg; by apply audio_states_ext. Qed.

Lemma looks_artwork : looks (artwork_keys p) artwork_rest ∧ looks (artwork_keys p) artwork_kept.
Proof. split; intros f g Hfg; by apply artwork_states_ext. Qed.

(** From [s] on, only the paths of the replacement changed, and those as said. *)
Definition stays (A W : Files → Prop) (f0 : Files) (d0 : DB) s : Prop :=
  sound ks (disk s) ∧ db s = d0 ∧ A (file_at (disk s)) ∧ W (file_at (disk s)) ∧
  ∀ q, q ∉ written_keys p → file_at (disk s) q = f0 q.

Lemma stays_same A W f0 d0 s s' : stays A W f0 d0 s → same s s' → stays A W f0 d0 s'.
Proof. intros (? & ? & ? & ? & ?) [Hd Hdb]. unfold stays. by rewrite Hd, Hdb. Qed.

Lemma stays_conseq (A A' W W' : Files → Prop) f0 d0 s : stays A W f0 d0 s → (∀ f, A f → A' f) →
  (∀ f, W f → W' f) → stays A' W' f0 d0 s.
Proof. intros (? & ? & ? & ? & ?) ? ?. split; auto. Qed.

Lemma stays_became A W f0 d0 s s' : looks (audio_keys p) A → looks (artwork_keys p) W →
  stays A W f0 d0 s → became ks (file_at (disk s)) s s' → stays A W f0 d0 s'.
Proof.
  intros HA HW (_ & <- & Ha & Hw & Hf0) (Hs & Hdb & Hf). split; [done|]. split; [done|].
  split; [|split].
  - eapply HA; [|exact Ha]. intros q _. by rewrite Hf.
  - eapply HW; [|exact Hw]. intros q _. by rewrite Hf.
  - intros q Hq. by rewrite Hf, Hf0.
Qed.

(** Only paths of the audio changed, or only paths of the artwork. *)
Lemma stays_audio A A' W f0 d0 s s' : looks (artwork_keys p) W → stays A W f0 d0 s →
  sound ks (disk s') → db s' = db s →
  (∀ q, q ∉ audio_keys p → file_at (disk s') q = file_at (disk s) q) →
  A' (file_at (disk s')) → stays A' W f0 d0 s'.
Proof using Hp.
  intros HW (_ & <- & _ & Hw & Hf0) Hs Hdb Hf HA. split; [done|]. split; [done|]. split; [done|]. split.
  - eapply HW; [|exact Hw]. intros q Hq. symmetry. by apply Hf, (gp_apart _ Hp).
  - intros q Hq. rewrite Hf; [by apply Hf0|]. intros Ha. by apply Hq, written_audio.
Qed.

Lemma stays_artwork A W W' f0 d0 s s' : looks (audio_keys p) A → stays A W f0 d0 s →
  sound ks (disk s') → db s' = db s →
  (∀ q, q ∉ artwork_keys p → file_at (disk s') q = file_at (disk s) q) →
  W' (file_at (disk s')) → stays A W' f0 d0 s'.
Proof using Hp.
  intros HA (_ & <- & Ha & _ & Hf0) Hs Hdb Hf HW. split; [done|]. split; [done|]. split; [|split; [done|]].
  - eapply HA; [|exact Ha]. intros q Hq. symmetry. apply Hf. intros Hw. by apply (gp_apart _ Hp) in Hw.
  - intros q Hq. rewrite Hf; [by apply Hf0|]. intros Hw. by apply Hq, written_artwork.
Qed.

(** A file of the audio, or of the artwork, moved to another of its paths. *)
Lemma stays_moved A (A' W : Files → Prop) f0 d0 s s' a b : looks (artwork_keys p) W →
  stays A W f0 d0 s → a ∈ slot_keys ka → b ∈ slot_keys ka →
  became ks (moved (file_at (disk s)) a b) s s' →
  (∀ g, (∀ q, g q = moved (file_at (disk s)) a b q) → g staged = file_at (disk s) staged → A' g) →
  stays A' W f0 d0 s'.
Proof using Hp.
  intros HW Hst Ha Hb (Hs & Hdb & Hf) HA. pose proof (gp_staged _ Hp) as Hk.
  assert (∀ q, q ∉ slot_keys ka → file_at (disk s') q = file_at (disk s) q) as Hsame.
  { intros q Hq. rewrite Hf. unfold moved. rewrite !decide_False; [done|..]; by intros ->. }
  eapply stays_audio; [done..| |].
  - intros q Hq. apply Hsame. intros Hin. apply Hq. by right.
  - apply HA; [done|by apply Hsame].
Qed.

Lemma stays_moved_artwork A (W W' : Files → Prop) f0 d0 s s' a b : artwork_mode p = ModeReplace →
  looks (audio_keys p) A → stays A W f0 d0 s → a ∈ slot_keys kw → b ∈ slot_keys kw →
  became ks (moved (file_at (disk s)) a b) s s' →
  (∀ g, (∀ q, g q = moved (file_at (disk s)) a b q) → W' g) → stays A W' f0 d0 s'.
Proof using Hp.
  intros Hm HA Hst Ha Hb (Hs & Hdb & Hf) HW. eapply stays_artwork; [done..| |by apply HW].
  intros q Hq. unfold artwork_keys in Hq. rewrite Hm in Hq. rewrite Hf. unfold moved.
  rewrite !decide_False; [done|..]; by intros ->.
Qed.

(** A step of the audio swap. *)
Lemma stays_swapped (P A A' W : Files → Prop) f0 d0 s s' : looks (artwork_keys p) W →
  stays A W f0 d0 s → swaps ks ka P s s' →
  (∀ f, P f → f staged = file_at (disk s) staged → A' f) → stays A' W f0 d0 s'.
Proof using Hp.
  intros HW Hst (Hs & Hdb & HP & Hf) HA'. eapply stays_audio; [done..| |].
  - intros q Hq. apply Hf. intros Hk. apply Hq. by right.
  - apply HA'; [done|]. apply Hf, Hp.
Qed.

Lemma stays_replaced (P A W W' : Files → Prop) f0 d0 s s' : artwork_mode p = ModeReplace →
  looks (audio_keys p) A → stays A W f0 d0 s → swaps ks kw P s s' →
  (∀ f, P f → W' f) → stays A W' f0 d0 s'.
Proof using Hp.
  intros Hm HA Hst (Hs & Hdb & HP & Hf) HW'. eapply stays_artwork; [done..| |by apply HW'].
  unfold artwork_keys. by rewrite Hm.
Qed.

(** ** Small steps *)

Lemma wp_stays_quiet {A} (m : M (Machine DB) Error A) Au Wo f0 d0 (Q : A → Machine DB → Prop)
    (X : Error → Machine DB → Prop) (C : Machine DB → Prop) s :
  quiet m → stays Au Wo f0 d0 s →
  (∀ s', stays Au Wo f0 d0 s' → same s s' → (∀ a, Q a s') ∧ (∀ e, X e s') ∧ C s') → wp m Q X C s.
Proof.
  intros Hm Hst HQ. apply (wp_quiet m); [done|..]; intros; apply HQ; try done; by eapply stays_same.
Qed.

Lemma keys_in : names (previous_audio p) ∈ ks ∧ names (r_audio p) ∈ ks ∧ names (pending_audio p) ∈ ks ∧
  names (retired_audio p) ∈ ks ∧ staged ∈ ks.
Proof. repeat split; try (apply keys_slots, (slots_in ka)). apply keys_audio. by left. Qed.

Lemma keys_artwork_in : artwork_mode p = ModeReplace →
  names (previous_artwork p) ∈ ks ∧ names (r_artwork p) ∈ ks ∧ names (pending_artwork p) ∈ ks ∧
  names (retired_artwork p) ∈ ks.
Proof.
  intros Hm. repeat split; apply keys_artwork; unfold artwork_keys; rewrite Hm; apply (slots_in kw).
Qed.

Lemma wp_stays A W f0 d0 {B} (m : M (Machine DB) Error B) (Q : B → Machine DB → Prop)
    (X : Error → Machine DB → Prop) (C : Machine DB → Prop) s :
  stays A W f0 d0 s → (sound ks (disk s) → wp m Q X C s) → wp m Q X C s.
Proof. intros Hst Hm. apply Hm, Hst. Qed.

#[local] Hint Extern 1 (looks _ _) => first [apply looks_audio | apply looks_artwork | assumption] : store.

Definition in_place f : Prop := f staged = None ∧ swapped ka previous (Some new) f.

Lemma under_way_kept f : under_way f → audio_kept f.
Proof. unfold audio_kept. auto. Qed.

(** Undoing the audio swap, the previous Track is kept. *)
Lemma wp_undo_audio_swap W f0 d0 (Q : option Error → Machine DB → Prop) X (C : Machine DB → Prop) s :
  looks (artwork_keys p) W → stays in_place W f0 d0 s →
  (∀ e s', stays audio_kept W f0 d0 s' → Q e s') → (∀ s', stays audio_kept W f0 d0 s' → C s') →
  wp (errs (undo_audio_swap p)) Q X C s.
Proof using Hp Laws.
  intros HW Hst HQ HC. destruct keys_in as (Hkp & Hkc & Hkn & Hkr & _).
  destruct (slots_in ka) as (Hsp & Hsc & Hsn & Hsr). pose proof (gp_audio _ Hp) as Hg.
  assert (∀ s', stays in_place W f0 d0 s' → stays audio_kept W f0 d0 s') as Hkeep.
  { intros s' H'. eapply stays_conseq; [done|intros f [? ?]|done]. right; right; left. split; auto. }
  apply wp_errs, wp_bind, wp_errs. apply (wp_restore ks); [apply Hst|done..| |].
  - intros s1 H1. assert (stays in_place W f0 d0 s1) as Hst1 by (by eapply stays_same).
    split; [|by apply HC, Hkeep]. intros e [Hf|[Hn|Hd]].
    + apply wp_bind, wp_errs, (wp_restore ks); [apply Hst1|done..| |].
      * intros s2 H2. assert (stays audio_kept W f0 d0 s2) by (by eapply Hkeep, stays_same).
        split; [|by apply HC]. intros e' _. apply wp_join_result; [intros []%(ejoin_keeps e); by left|auto].
      * intros s2 x _ Hb. apply wp_join_result; [intros []%(ejoin_keeps e); by left|].
        intros e' _. apply HQ. eapply stays_moved; [done|exact Hst1|exact Hsr|exact Hsp|done|].
        intros g Hgf _. right; right; right. split; [done|]. destruct Hst1 as (_ & _ & [_ Hsw] & _).
        destruct (undo_retired_only _ Hg _ _ _ g Hgf Hsw); [exists None|exists (Some new)];
          unfold config, settled; auto.
    + exfalso. destruct Hst as (_ & _ & [_ (_ & Hc & _)] & _). cbn in Hc. congruence.
    + exfalso. apply Hd. destruct Hst as (Hs & _ & [_ (_ & Hc & _)] & _).
      pose proof (same_canon _ Hg) as Hdir. cbn in Hdir, Hc. rewrite <-Hdir. by eapply dir_of_file.
  - intros s1 x _ Hb.
    assert (stays (λ f, f staged = None ∧ half_way ka previous (Some new) f) W f0 d0 s1) as Hst1.
    { eapply stays_moved; [done|exact Hst|exact Hsc|exact Hsn|done|]. intros g Hgf ->.
      destruct Hst as (_ & _ & [? ?] & _). split; [done|]. by eapply undo_placed. }
    assert (∀ s2, same s1 s2 → stays audio_kept W f0 d0 s2) as Hkeep1.
    { intros s2 H2. eapply stays_same; [|done]. eapply stays_conseq; [exact Hst1|intros f [? ?]|done].
      apply under_way_kept. split; auto. }
    apply wp_bind, wp_errs, (wp_restore ks); [apply Hst1|done..| |].
    + intros s2 H2. split; [|by apply HC, Hkeep1]. intros e _.
      apply wp_join_result; intros; by apply HQ, Hkeep1.
    + intros s2 y _ Hb2. assert (stays audio_kept W f0 d0 s2).
      { eapply stays_moved; [done|exact Hst1|exact Hsr|exact Hsp|done|]. intros g Hgf Hgs.
        destruct Hst1 as (_ & _ & [? ?] & _). right; left. split; [congruence|]. by eapply undo_retired. }
      apply wp_join_result; intros; by apply HQ.
Qed.

Lemma in_place_kept f : in_place f → audio_kept f.
Proof. intros [? ?]. apply under_way_kept. split; auto. Qed.

Lemma taken_kept f : taken f → audio_kept f.
Proof. unfold audio_kept. auto. Qed.

(** The artwork half of the swap, once the audio is in place. *)
Lemma wp_swap_artwork f0 d0 (Q : unit → Machine DB → Prop) (X : Error → Machine DB → Prop)
    (C : Machine DB → Prop) s (m := retired ← attempt (rename (previous_artwork p) (retired_artwork p));
      match retired with
      | inl e => undone ← errs (undo_audio_swap p);
                 join_result [Some (io (st "retire previous Album Artwork") e); undone]
      | _ =>
          placed ← attempt (rename (pending_artwork p) (r_artwork p));
          match placed with
          | inl e =>
              restored ← errs (restore_rooted_file (retired_artwork p) (previous_artwork p));
              undone ← errs (undo_audio_swap p);
              join_result [Some (io (st "place replacement Album Artwork") e); restored; undone]
          | _ => mret tt
          end
      end) :
  artwork_mode p = ModeReplace → stays in_place artwork_rest f0 d0 s →
  (∀ s', stays in_place artwork_in_place f0 d0 s' → Q tt s') →
  (∀ e s', stays audio_kept artwork_kept f0 d0 s' → X e s') →
  (∀ s', stays audio_kept artwork_kept f0 d0 s' → C s') → wp m Q X C s.
Proof using Hp Laws.
  intros Hm Hst HQ HX HC. destruct (keys_artwork_in Hm) as (Hkp & Hkc & Hkn & Hkr).
  destruct (slots_in kw) as (Hsp & Hsc & Hsn & Hsr). pose proof (gp_artwork _ Hp Hm) as Hg.
  assert (looks (audio_keys p) in_place) as Hlook.
  { intros f g Hfg [Hf Hsw]. split; [by rewrite <-Hfg by (by left)|].
    eapply states_ext; [|exact Hsw]. intros q Hq. apply Hfg. by right. }
  assert (∀ s', stays in_place artwork_kept f0 d0 s' → stays audio_kept artwork_kept f0 d0 s') as Hall.
  { intros s' H'. eapply stays_conseq; [done|apply in_place_kept|done]. }
  assert (∀ f n, half_way kw artwork n f ∨ at_rest kw artwork n f → artwork_kept f) as Hart.
  { intros f n Hf. unfold artwork_kept. rewrite Hm. exists n. unfold config, settled. tauto. }
  apply wp_bind, wp_attempt, (wp_rename ks); [apply Hst|done..| |].
  - intros s1 H1. assert (stays in_place artwork_kept f0 d0 s1) as Hst1.
    { eapply stays_same; [|done]. eapply stays_conseq; [exact Hst|done|apply artwork_rest_kept]. }
    split; [|by apply HC, Hall]. intros e _. apply wp_bind.
    eapply (wp_undo_audio_swap artwork_kept); [auto with store|exact Hst1| |done].
    intros e' s2 H2. apply wp_join_result; intros; [exfalso; by eapply ejoin_keeps, H; left|by apply HX].
  - intros s1 x Hx Hb. pose proof Hst as (_ & _ & _ & Hw & _).
    assert (∃ n, at_rest kw artwork n (file_at (disk s))) as [n Hn].
    { unfold artwork_rest in Hw. by rewrite Hm in Hw. }
    assert (stays in_place (half_way kw artwork n) f0 d0 s1) as Hst1.
    { eapply (stays_moved_artwork in_place artwork_rest _ f0 d0 s s1);
        [done|exact Hlook|exact Hst|exact Hsp|exact Hsr|done|].
      intros g Hgf. by eapply retire_previous. }
    assert (∀ s2, stays in_place (half_way kw artwork n) f0 d0 s2 → stays in_place artwork_kept f0 d0 s2)
      as Hwk.
    { intros s2 H2. eapply stays_conseq; [exact H2|done|]. intros f Hf. eapply Hart; eauto. }
    apply wp_bind, wp_attempt, (wp_rename ks); [apply Hst1|done..| |].
    + intros s2 H2. assert (stays in_place (half_way kw artwork n) f0 d0 s2) as Hst2
        by (by eapply stays_same). split; [|by apply HC, Hall, Hwk]. intros e _.
      assert (∀ r s3, stays in_place artwork_kept f0 d0 s3 →
        wp (undone ← errs (undo_audio_swap p);
            join_result [Some (io (st "place replacement Album Artwork") e); r; undone]) Q X C s3) as Hend.
      { intros r s3 H3. apply wp_bind. eapply (wp_undo_audio_swap artwork_kept); [auto with store|exact H3| |done].
        intros e' s4 H4. apply wp_join_result; intros;
          [exfalso; by eapply ejoin_keeps, H; left|by apply HX]. }
      apply wp_bind, wp_errs, (wp_restore ks); [apply Hst2|done..| |].
      * intros s3 H3. assert (stays in_place artwork_kept f0 d0 s3) by (eapply Hwk, stays_same; done).
        split; [|by apply HC, Hall]. intros e' _. by apply Hend.
      * intros s3 y _ Hb3. apply Hend.
        eapply (stays_moved_artwork in_place _ _ f0 d0 s2 s3);
          [done|exact Hlook|exact Hst2|exact Hsr|exact Hsp|done|].
        intros g Hgf. destruct Hst2 as (_ & _ & _ & Hh & _). apply (Hart _ n). right. by eapply undo_retired.
    + intros s2 y Hy Hb2. apply HQ.
      eapply (stays_moved_artwork in_place _ _ f0 d0 s1 s2);
        [done|exact Hlook|exact Hst1|exact Hsn|exact Hsc|done|].
      intros g Hgf. destruct Hst1 as (_ & _ & _ & Hh & _). unfold artwork_in_place. rewrite Hm.
      exists n. eapply place_pending; [done..| |done].
      destruct Hh as (_ & Hh & _). cbn in Hh. rewrite <-Hh, Hy. eauto.
Qed.

(** ** The operations *)

Context (store : Storage) (Hstore : initialization_error store = None).

(** The upload is back, unless the host failed. *)
Definition back f : Prop := waiting f ∨ (faulty ∧ audio_kept f).

Lemma back_kept f : back f → audio_kept f.
Proof. unfold back, audio_kept. tauto. Qed.

Lemma looks_more : looks (audio_keys p) in_place ∧ looks (audio_keys p) back.
Proof.
  split; intros f g Hfg.
  - intros [Hf Hsw]. split; [by rewrite <-Hfg by (by left)|].
    eapply states_ext; [|exact Hsw]. intros q Hq. apply Hfg. by right.
  - intros [Hf|[? Hf]]; [left|right; split; [done|]]; by eapply looks_audio.
Qed.

Lemma wp_stays_open A W f0 d0 (Q : unit → Machine DB → Prop) (X : Error → Machine DB → Prop)
    (C : Machine DB → Prop) s : stays A W f0 d0 s →
  (∀ s', stays A W f0 d0 s' → Q tt s' ∧ (faulty → ∀ e, X e s') ∧ C s') → wp (open_root store) Q X C s.
Proof.
  intros Hst HQ. apply wp_open_root. intros s' Hs. destruct (HQ s') as (? & HX & ?); [by eapply stays_same|].
  split; [done|]. split; [|done]. intros e [Hf|Hi]; [by apply HX|]. by rewrite Hstore in Hi.
Qed.

(** The upload moves to the pending path, and back. *)
Lemma staged_moved (f g : Files) n : at_rest ka previous n f →
  (∀ q, g q = moved f staged (names (pending_audio p)) q) → at_rest ka previous (f staged) g ∧ g staged = None.
Proof.
  intros Hf Hg. destruct (gp_audio _ Hp). pose proof (gp_staged _ Hp) as Hk. destruct (slots_in ka) as (? & ? & ? & ?).
  assert (∀ q, q ∈ slot_keys ka → q ≠ staged) as Hne by (by intros q Hq ->).
  split; [|rewrite Hg; unfold moved; rewrite decide_False, decide_True; [done..|]; by apply not_eq_sym, Hne].
  unfold at_rest in *. cbn [s_prev s_canon s_pend s_ret audio_slots] in *. rewrite !Hg. unfold moved.
  destruct Hf as (? & ? & ? & ?).
  rewrite (decide_True (P := names (pending_audio p) = names (pending_audio p))) by done.
  rewrite !(decide_False (P := _ = staged)) by (by apply Hne).
  rewrite !(decide_False (P := _ = names (pending_audio p))) by congruence. done.
Qed.

Lemma pending_moved (f g : Files) n : at_rest ka previous n f →
  (∀ q, g q = moved f (names (pending_audio p)) staged q) → at_rest ka previous None g ∧ g staged = n.
Proof.
  intros Hf Hg. destruct (gp_audio _ Hp). pose proof (gp_staged _ Hp) as Hk. destruct (slots_in ka) as (? & ? & ? & ?).
  assert (∀ q, q ∈ slot_keys ka → q ≠ staged) as Hne by (by intros q Hq ->).
  unfold at_rest in *. cbn [s_prev s_canon s_pend s_ret audio_slots] in *. rewrite !Hg. unfold moved.
  destruct Hf as (? & ? & ? & ?).
  rewrite (decide_True (P := names (pending_audio p) = names (pending_audio p))) by done.
  rewrite (decide_True (P := staged = staged)) by done.
  rewrite !(decide_False (P := _ = staged)) by (by apply Hne).
  rewrite !(decide_False (P := _ = names (pending_audio p))) by congruence. done.
Qed.

Lemma stays_staged A (A' W : Files → Prop) f0 d0 s s' a b : looks (artwork_keys p) W →
  stays A W f0 d0 s → a ∈ audio_keys p → b ∈ audio_keys p →
  became ks (moved (file_at (disk s)) a b) s s' →
  (∀ g, (∀ q, g q = moved (file_at (disk s)) a b q) → A' g) → stays A' W f0 d0 s'.
Proof.
  intros HW Hst Ha Hb (Hs & Hdb & Hf) HA. eapply stays_audio; [done..| |by apply HA].
  intros q Hq. rewrite Hf. unfold moved. rewrite !decide_False; [done|..]; by intros ->.
Qed.

Definition stays_with (D : DB → Prop) A W f0 s : Prop := ∃ d, D d ∧ stays A W f0 d s.

(** Writing artwork leaves the audio alone, and the artwork paths as they were
    but for the one written. *)
Lemma stays_near D A f0 s s' path : looks (audio_keys p) A →
  names path = names (match artwork_mode p with ModeReplace => pending_artwork p | _ => r_artwork p end) →
  artwork_mode p = ModeReplace ∨ artwork_mode p = ModeCreate →
  stays_with D A artwork_rest f0 s → near ks path s s' → D (db s') →
  stays_with D A artwork_rest f0 s'.
Proof.
  intros HA Hpath Hm (d & _ & Hs0 & _ & Ha & Hw & Hf0) [Hs Hf] HD.
  assert (names path ∈ artwork_keys p) as Hk.
  { rewrite Hpath. unfold artwork_keys. destruct Hm as [->| ->]; [apply (slots_in kw)|by left]. }
  exists (db s'). split; [done|]. split; [done|]. split; [done|]. split; [|split].
  - eapply HA; [|exact Ha]. intros q Hq. symmetry. apply Hf. intros ->. by apply (gp_apart _ Hp) in Hk.
  - unfold artwork_rest in *. destruct (artwork_mode p) eqn:E; try done. destruct Hw as [n Hn].
    eexists. eapply (drop_pending kw (gp_artwork _ Hp E)); [|exact Hn]. intros q Hq. apply Hf. by rewrite Hpath.
  - intros q Hq. rewrite Hf; [by apply Hf0|]. intros ->. by apply Hq, written_artwork.
Qed.

Lemma harmless_album d : sound ks d → harmless ks (ensure_directory (parent (r_audio p)) : M (Machine DB) Error unit).
Proof.
  intros Hs. destruct (gp_dir _ Hp) as (ns & n & Hg & Hne & _ & E).
  rewrite E, parent_path_of, decide_False by done. apply harmless_ensure_directory.
  { by apply Forall_app in Hg as [? _]. }
  intros m [_ Hm] Hin. destruct keys_in as (_ & Hk & _). rewrite E, names_path_of in Hk by done.
  apply (sound_free _ _ Hs _ _ m Hin Hk); [rewrite length_app; simpl; lia|].
  by rewrite take_app_le by lia.
Qed.

Lemma gentle_previous : gentle ks (remove_empty_directories_under (parent (previous_audio p)) CANONICAL_LIBRARY_ROOT
  : M (Machine DB) Error unit).
Proof.
  destruct (gp_previous _ Hp) as (ns & n & Hg & Hne & Hst & E). destruct keys_in as (Hk & _).
  rewrite E, names_path_of in Hk by done. rewrite E, parent_path_of, decide_False by done.
  apply (gentle_remove_empty _ _ _ (ns ++ [n])); [|done|done| |].
  - by apply Forall_app in Hg as [? _].
  - by rewrite take_app_length.
  - rewrite length_app. simpl. lia.
Qed.

Lemma gentle_album : gentle ks (remove_empty_directories_under (parent (r_audio p)) CANONICAL_LIBRARY_ROOT
  : M (Machine DB) Error unit).
Proof.
  destruct (gp_dir _ Hp) as (ns & n & Hg & Hne & Hst & E). destruct keys_in as (_ & Hk & _).
  rewrite E, names_path_of in Hk by done. rewrite E, parent_path_of, decide_False by done.
  apply (gentle_remove_empty _ _ _ (ns ++ [n])); [|done|done| |].
  - by apply Forall_app in Hg as [? _].
  - by rewrite take_app_length.
  - rewrite length_app. simpl. lia.
Qed.

(** Where [place_replacement] can leave things. *)
Definition may_create (made : bool) : Prop :=
  made = true → artwork_mode p = ModeCreate ∨ artwork_mode p = ModeReplace.
Definition is_placed D f0 (p' : ReplacementPlacement) s : Prop :=
  ∃ made, p' = r_with_created p made ∧ may_create made ∧ stays_with D taken artwork_rest f0 s.

Lemma stays_with_conseq (D : DB → Prop) (A A' W W' : Files → Prop) f0 s : stays_with D A W f0 s →
  (∀ f, A f → A' f) → (∀ f, W f → W' f) → stays_with D A' W' f0 s.
Proof. intros (d & ? & Hst) ? ?. exists d. split; [done|]. by eapply stays_conseq. Qed.

Lemma stays_with_same D A W f0 s s' : stays_with D A W f0 s → same s s' → stays_with D A W f0 s'.
Proof. intros (d & ? & Hst) ?. exists d. split; [done|]. by eapply stays_same. Qed.

Lemma wp_unplace D f0 e (Q : ReplacementPlacement → Machine DB → Prop) s :
  stays_with D taken artwork_rest f0 s →
  wp (restored ← errs (restore_rooted_file (pending_audio p) (r_staged p)); fail_join [Some e; restored])
    Q (λ _ s', stays_with D back artwork_rest f0 s') (λ s', stays_with D audio_kept artwork_rest f0 s') s.
Proof using Hp Laws.
  intros (d & HDd & H). destruct keys_in as (_ & _ & Hkn & _ & Hks).
  destruct (slots_in ka) as (_ & _ & Hsn & _).
  apply wp_bind, wp_errs, (wp_restore ks); [apply H|done..| |].
  - intros s1 H1. assert (stays taken artwork_rest f0 d s1) as H1' by (by eapply stays_same).
    split; [|exists d; split; [done|]; eapply stays_conseq; [exact H1'|apply taken_kept|done]].
    intros e' [Hf|[Hn|Hd]]; [|exfalso..].
    + apply wp_fail_join. intros _. exists d. split; [done|]. eapply stays_conseq; [exact H1'| |done].
      intros f Hf'. right. split; [done|]. by apply taken_kept.
    + destruct H as (_ & _ & [_ (_ & _ & Hpn & _)] & _). cbn in Hpn. congruence.
    + apply Hd. rewrite (gp_staging _ Hp). apply H.
  - intros s1 y _ Hb. apply wp_fail_join. intros _. exists d. split; [done|].
    eapply stays_staged; [auto with store|exact H|by right|by left|done|]. intros g Hg.
    destruct H as (_ & _ & [_ Hr] & _). left. by destruct (pending_moved _ _ _ Hr Hg).
Qed.

(** Verifying or writing the artwork of the placement. *)
Lemma wp_place_artwork D inspection identity created f0 s
    (m := match artwork_mode p with
          | ModeNone => mret false
          | ModeExisting =>
              on_err (in_context (st "verify existing Album Artwork"))
                (_ ← verify_rooted_file_hash (r_artwork p) (existing_artwork_sha256 identity) never;
                 mret false)
          | ModeReplace =>
              write_rooted_artwork (pending_artwork p) (artwork_data (album_artwork inspection))
                (sha256 (album_artwork inspection)) created
          | ModeCreate =>
              write_rooted_artwork (r_artwork p) (artwork_data (album_artwork inspection))
                (sha256 (album_artwork inspection)) created
          end : M (Machine DB) Error bool) :
  (may_create true → marks D created) → stays_with D taken artwork_rest f0 s →
  wp m (λ made s', may_create made ∧ stays_with D taken artwork_rest f0 s')
    (λ _ s', stays_with D taken artwork_rest f0 s') (λ s', stays_with D taken artwork_rest f0 s') s.
Proof using Hp Laws.
  intros Hmark Hst.
  assert (∀ path data expected, artwork_mode p = ModeReplace ∨ artwork_mode p = ModeCreate →
    path = (match artwork_mode p with ModeReplace => pending_artwork p | _ => r_artwork p end) →
    wp (write_rooted_artwork path data expected created)
      (λ made s', may_create made ∧ stays_with D taken artwork_rest f0 s')
      (λ _ s', stays_with D taken artwork_rest f0 s')
      (λ s', stays_with D taken artwork_rest f0 s') s) as Hwrite.
  { intros path data expected Hm ->. pose proof Hst as (d & HDd & Hs & Hdb & _).
    apply (wp_write_rooted ks D); [done| |apply Hmark; unfold may_create; tauto|by rewrite Hdb|].
    - apply keys_artwork. unfold artwork_keys. destruct Hm as [->| ->]; [apply (slots_in kw)|by left].
    - intros s' Hn HD'. assert (stays_with D taken artwork_rest f0 s') as H' by
        (eapply (stays_near D taken f0 s); [auto with store|..]; try done; by destruct Hm as [->| ->]).
      split; [|done]. intros b. split; [|done]. intros _. tauto. }
  unfold m, may_create in *. destruct (artwork_mode p) eqn:Em.
  - by apply wp_ret.
  - apply wp_on_err, wp_bind, (wp_quiet (verify_rooted_file_hash _ _ never)); [apply quiet_verify|..].
    all: intros; try apply wp_ret; try split; try (by eapply stays_with_same); done.
  - apply Hwrite; auto.
  - apply Hwrite; auto.
Qed.

(** [place_replacement]: the upload waits at the pending path, or is back. *)
Lemma wp_place_replacement D inspection identity created f0 s :
  (may_create true → marks D created) → stays_with D waiting artwork_rest f0 s →
  wp (place_replacement store p inspection identity created) (is_placed D f0)
    (λ _ s', stays_with D back artwork_rest f0 s')
    (λ s', stays_with D audio_kept artwork_rest f0 s') s.
Proof using Hp Laws Hstore.
  intros Hmark Hst. destruct keys_in as (_ & _ & Hkn & _ & Hks).
  destruct (slots_in ka) as (_ & _ & Hsn & _).
  assert (∀ s', stays_with D waiting artwork_rest f0 s' → stays_with D back artwork_rest f0 s') as Hb.
  { intros s' H'. eapply stays_with_conseq; [done|by left|done]. }
  assert (∀ s', stays_with D waiting artwork_rest f0 s' → stays_with D audio_kept artwork_rest f0 s') as Hk.
  { intros s' H'. eapply stays_with_conseq; [done|by left|done]. }
  destruct Hst as (d0 & HD & Hst).
  apply wp_bind, (wp_stays_open _ _ _ _ _ _ _ _ Hst). intros s1 H1.
  assert (stays_with D waiting artwork_rest f0 s1) as H1' by (by exists d0).
  split; [|auto]. apply wp_bind.
  eapply harmless_use; [apply (harmless_album _ (proj1 H1))|apply H1|]. intros s2 Hb2.
  assert (stays waiting artwork_rest f0 d0 s2) as H2 by (eapply stays_became; eauto with store).
  assert (stays_with D waiting artwork_rest f0 s2) as H2' by (by exists d0).
  split; [intros _|auto]. apply wp_bind, wp_on_err, (wp_rename ks); [apply H2|done..| |].
  { intros s3 H3. assert (stays_with D waiting artwork_rest f0 s3) by (by eapply stays_with_same). auto. }
  intros s3 x Hx Hb3. apply wp_bind, wp_catch. eapply wp_conseq; [apply (wp_place_artwork D)|..].
  - done.
  - exists d0. split; [done|]. eapply stays_staged; [auto with store|exact H2|by left|by right|done|].
    intros g Hg. destruct H2 as (_ & _ & [Hw Hr] & _). destruct (staged_moved _ _ _ Hr Hg) as [Hr' ?].
    rewrite Hw in Hr'. by split.
  - intros made s4 [Hm H4]. apply wp_ret. by exists made.
  - intros e s4 H4. by apply wp_unplace.
  - intros s4 H4. eapply stays_with_conseq; [done|apply taken_kept|done].
Qed.

(** [verify_replacement] and [stream_swapped_replacement] change no file. *)
Lemma quiet_verify_replacement (p' : ReplacementPlacement) audio_sha256 artwork_sha256 :
  quiet (verify_replacement store p' audio_sha256 artwork_sha256 : M (Machine DB) Error unit).
Proof.
  apply quiet_bind; [auto with store|]. intros _. apply quiet_bind; [apply quiet_on_err, quiet_verify|].
  intros _. apply quiet_if; [auto with store|apply quiet_on_err, quiet_verify].
Qed.

Lemma quiet_stream (p' : ReplacementPlacement) audio_sha256 :
  quiet (stream_swapped_replacement store p' audio_sha256 : M (Machine DB) Error unit).
Proof.
  apply quiet_bind; [auto with store|]. intros _. apply quiet_bind; [apply quiet_on_err, quiet_verify|].
  intros _. apply quiet_bind; [apply quiet_on_err_query|auto with store].
Qed.

(** [swap_replacement]: the previous Track is kept wherever it ends. *)
Lemma wp_swap_replacement f0 d0 s : stays taken artwork_rest f0 d0 s →
  wp (swap_replacement store p) (λ _ s', stays in_place artwork_in_place f0 d0 s')
    (λ _ s', stays audio_kept artwork_kept f0 d0 s')
    (λ s', stays audio_kept artwork_kept f0 d0 s') s.
Proof using Hp Laws Hstore.
  intros Hst. destruct keys_in as (Hkp & Hkc & Hkn & Hkr & _).
  destruct (slots_in ka) as (Hsp & Hsc & Hsn & Hsr). pose proof (gp_audio _ Hp) as Hg.
  assert (∀ s', stays taken artwork_rest f0 d0 s' → stays audio_kept artwork_kept f0 d0 s') as Hk.
  { intros s' H'. eapply stays_conseq; [done|apply taken_kept|apply artwork_rest_kept]. }
  apply wp_bind, (wp_stays_open _ _ _ _ _ _ _ _ Hst). intros s1 H1. split; [|auto].
  apply wp_bind, wp_on_err, (wp_rename ks); [apply H1|done..| |].
  { intros s2 H2. assert (stays taken artwork_rest f0 d0 s2) by (by eapply stays_same). auto. }
  intros s2 x Hx Hb2. pose (half f := f staged = None ∧ half_way ka previous (Some new) f).
  assert (stays half artwork_rest f0 d0 s2) as H2.
  { eapply stays_moved; [auto with store|exact H1|exact Hsp|exact Hsr|done|]. intros g Hgf Hgs.
    destruct H1 as (_ & _ & [? ?] & _). split; [congruence|]. by eapply retire_previous. }
  assert (∀ s', stays half artwork_rest f0 d0 s' → stays audio_kept artwork_kept f0 d0 s') as Hhalf.
  { intros s' H'. eapply stays_conseq; [exact H'| |apply artwork_rest_kept]. intros f [? ?].
    apply under_way_kept. split; auto. }
  apply wp_bind, wp_attempt, (wp_rename ks); [apply H2|done..| |].
  - intros s3 H3. assert (stays half artwork_rest f0 d0 s3) as H3' by (by eapply stays_same).
    split; [|auto]. intros e _. apply wp_bind, wp_errs, (wp_restore ks); [apply H3'|done..| |].
    + intros s4 H4. assert (stays half artwork_rest f0 d0 s4) by (by eapply stays_same).
      split; [|auto]. intros e' _. apply wp_join_result; [intros Hj; exfalso; by eapply ejoin_keeps, Hj; left|auto].
    + intros s4 y _ Hb4. apply wp_join_result; [intros Hj; exfalso; by eapply ejoin_keeps, Hj; left|]. intros e' _.
      apply Hk. eapply stays_moved; [auto with store|exact H3'|exact Hsr|exact Hsp|done|].
      intros g Hgf Hgs. destruct H3' as (_ & _ & [? ?] & _). split; [congruence|]. by eapply undo_retired.
  - intros s3 y _ Hb3. assert (stays in_place artwork_rest f0 d0 s3) as H3.
    { eapply stays_moved; [auto with store|exact H2|exact Hsn|exact Hsc|done|]. intros g Hgf Hgs.
      destruct H2 as (_ & _ & [? ?] & _). split; [congruence|]. by eapply place_pending. }
    apply wp_if; intros Hm; [|apply bool_decide_eq_false in Hm].
    + apply bool_decide_eq_true in Hm. apply wp_ret. eapply stays_conseq; [exact H3|done|].
      intros f _. unfold artwork_in_place. by destruct (artwork_mode p).
    + eapply wp_swap_artwork; [by apply dec_stable|exact H3|done..].
Qed.

(** ** Rolling back *)

Definition artwork_undone f : Prop := artwork_rest f ∨ (faulty ∧ artwork_kept f).

(** The artwork is as it was: what the replacement wrote is gone. *)
Definition artwork_back f : Prop :=
  match artwork_mode p with
  | ModeReplace => (∃ n, at_rest kw artwork n f ∧ (r_artwork_created p = true → n = None)) ∨
                   (faulty ∧ artwork_kept f)
  | ModeCreate => (r_artwork_created p = true → f (names (r_artwork p)) = None) ∨ faulty
  | _ => True
  end.
Definition audio_undone f : Prop := waiting f ∨ taken f ∨ (faulty ∧ ∃ n, config ka previous n f).

Lemma artwork_undone_kept f : artwork_undone f → artwork_kept f.
Proof. intros [Hf|[_ ?]]; [by apply artwork_rest_kept|done]. Qed.

Lemma artwork_back_kept f : artwork_back f → artwork_kept f.
Proof.
  unfold artwork_back, artwork_kept, config, settled. destruct (artwork_mode p); try done.
  intros [(n & Hf & _)|[_ ?]]; [|done]. exists n. auto.
Qed.

Lemma audio_undone_kept f : audio_undone f → audio_kept f.
Proof. unfold audio_undone, audio_kept. tauto. Qed.

Lemma looks_undone : looks (artwork_keys p) artwork_undone ∧ looks (audio_keys p) audio_undone ∧
  looks (artwork_keys p) artwork_back.
Proof.
  repeat apply conj; intros f g Hfg.
  - intros [Hf|[? Hf]]; [left|right; split; [done|]]; by eapply looks_artwork.
  - intros [Hf|[Hf|[? [n Hf]]]]; [left|right; left|right; right]; [by eapply looks_audio..|].
    split; [done|]. exists n. eapply config_ext; [|exact Hf]. intros q Hq. apply Hfg. by right.
  - unfold artwork_back. destruct (artwork_mode p) eqn:Em; try done.
    + rewrite (Hfg (names (r_artwork p))); [done|]. unfold artwork_keys. rewrite Em. by left.
    + assert (∀ q, q ∈ slot_keys kw → f q = g q) as Hk.
      { intros q Hq. apply Hfg. unfold artwork_keys. by rewrite Em. }
      intros [(n & Hf & ?)|[? Hf]]; [left|right; split; [done|by eapply looks_artwork]].
      exists n. split; [|done]. by eapply states_ext.
Qed.

#[local] Hint Extern 1 (looks _ _) =>
  first [apply looks_audio | apply looks_artwork | apply looks_undone | apply looks_more] : store.

(** A step of the rollback: it fails only when the host does. *)
Definition undoes (A A' W W' : Files → Prop) (m : M (Machine DB) Error (option Error)) : Prop :=
  ∀ f0 d0 s, stays A W f0 d0 s →
    wp m (λ o s', (o = None ∨ faulty) ∧ stays A' W' f0 d0 s') (λ _ _, False)
      (λ s', stays audio_kept artwork_kept f0 d0 s') s.

Lemma undo_artwork_swap :
  undoes audio_kept audio_kept artwork_kept artwork_undone
    (if bool_decide (artwork_mode p = ModeReplace) then
       errs (undo_retired_swap (retired_artwork p) (previous_artwork p) (r_artwork p) (pending_artwork p))
     else mret None).
Proof.
  intros f0 d0 s Hst. apply wp_if; intros Hm.
  - apply bool_decide_eq_true in Hm. pose proof Hst as (Hs & _ & _ & Hw & _).
    unfold artwork_kept in Hw. rewrite Hm in Hw. destruct Hw as [n Hn].
    apply wp_errs, (wp_undo_retired_swap ks _ _ _ _ artwork n (gp_artwork _ Hp Hm)); [|done|done|..].
    { intros q Hq. apply keys_artwork. unfold artwork_keys. by rewrite Hm. }
    + intros s' H'. split; [by left|]. eapply (stays_replaced _ audio_kept); [done|auto with store|done|done|].
      intros f Hf. unfold artwork_undone, artwork_rest, artwork_kept. rewrite Hm. unfold settled, config in *.
      destruct Hf as [?|[? [?|?]]]; [left; eauto|right; split; [done|]..].
      { exists None. by left; left. }
      exists n. left; right. auto.
    + intros e s' Hf H'. split; [by right|].
      eapply (stays_replaced _ audio_kept); [done|auto with store|done|done|].
      intros f Hc. right. split; [done|]. unfold artwork_kept. rewrite Hm. by exists n.
    + intros s' H'. eapply (stays_replaced _ audio_kept); [done|auto with store|done|done|].
      intros f Hc. unfold artwork_kept. rewrite Hm. by exists n.
  - apply bool_decide_eq_false in Hm. apply wp_ret. split; [by left|].
    eapply stays_conseq; [done|done|]. intros f _. left. unfold artwork_rest. by destruct (artwork_mode p).
Qed.

Lemma undo_audio : undoes audio_kept audio_undone artwork_undone artwork_undone
  (errs (undo_retired_swap (retired_audio p) (previous_audio p) (r_audio p) (pending_audio p))).
Proof.
  intros f0 d0 s Hst. pose proof Hst as (Hs & _ & Ha & _). pose proof (gp_audio _ Hp) as Hg.
  assert (∀ s', stays audio_undone artwork_undone f0 d0 s' → stays audio_kept artwork_kept f0 d0 s') as Hk.
  { intros s' H'. eapply stays_conseq; [done|apply audio_undone_kept|apply artwork_undone_kept]. }
  assert (∀ n s', (file_at (disk s) staged = None ∧ n = Some new) ∨ faulty →
    swaps ks ka (config ka previous n) s s' →
    stays audio_kept artwork_undone f0 d0 s' ∧ (faulty → stays audio_undone artwork_undone f0 d0 s')) as Hcfg.
  { intros n s' Hn Hsw. split; [|intros Hf]; (eapply stays_swapped; [auto with store|exact Hst|exact Hsw|]);
      intros f Hc Hfs.
    - destruct Hn as [[Hn ->]|Hn]; [|right; right; right; eauto].
      rewrite Hn in Hfs. destruct Hc as [[?|[? [?|?]]]|?]; [right; left; by split|..].
      + right; right; right. split; [done|]. exists None. by left; left.
      + right; right; right. split; [done|]. exists (Some new). left; right. auto.
      + right; right; left. by split.
    - right; right. eauto. }
  assert (∀ n, (file_at (disk s) staged = None ∧ n = Some new) ∨ faulty →
    config ka previous n (file_at (disk s)) →
    wp (errs (undo_retired_swap (retired_audio p) (previous_audio p) (r_audio p) (pending_audio p)))
      (λ o s', (o = None ∨ faulty) ∧ stays audio_undone artwork_undone f0 d0 s') (λ _ _, False)
      (λ s', stays audio_kept artwork_kept f0 d0 s') s) as Hall.
  { intros n Hn Hc. apply wp_errs, (wp_undo_retired_swap ks _ _ _ _ previous n Hg keys_slots _ _ _ _ Hs Hc).
    - intros s' H'. split; [by left|]. eapply stays_swapped; [auto with store|exact Hst|exact H'|].
      intros f Hc' Hfs. destruct Hn as [[Hn ->]|Hn]; [|right; right; split; [done|]; exists n; by left].
      destruct Hc' as [?|[? [?|?]]]; [right; left; split; [congruence|done]|right; right; split; [done|]..].
      + exists None. by left; left.
      + exists (Some new). left; right. auto.
    - intros e s' Hf H'. split; [by right|]. by apply (Hcfg n s' Hn H').
    - intros s' H'. eapply stays_conseq; [exact (proj1 (Hcfg n s' Hn H'))|done|apply artwork_undone_kept]. }
  destruct Ha as [Hw|[[Hn Ht]|[[Hn Hu]|[Hf [n Hc]]]]].
  - assert (∀ s', same s s' → stays audio_undone artwork_undone f0 d0 s') as Hsame.
    { intros s' H'. eapply stays_same; [|done]. destruct Hst as (? & ? & _ & ?). split; [done|].
      split; [done|]. split; [by left|done]. }
    apply wp_errs, (wp_undo_nothing ks _ _ _ _ keys_slots); [done|apply Hw|].
    intros s' H'. pose proof (Hsame s' H'). split; [split; [by left|done]|]. split; [|by apply Hk].
    intros Hf e. split; [by right|done].
  - apply (Hall (Some new)); [by left|]. left. by left.
  - apply (Hall (Some new)); [by left|]. by right.
  - apply (Hall n); [by right|done].
Qed.

(** The upload moves back from the pending path. *)
Lemma undo_pending : undoes audio_undone back artwork_undone artwork_undone
  (errs (restore_if_present (pending_audio p) (r_staged p))).
Proof.
  intros f0 d0 s Hst. pose proof Hst as (Hs & _ & Ha & _). pose proof (gp_audio _ Hp) as Hg.
  destruct keys_in as (_ & _ & Hkn & _ & Hks). destruct (slots_in ka) as (_ & _ & Hsn & _).
  assert (∀ s', stays audio_undone artwork_undone f0 d0 s' → stays audio_kept artwork_kept f0 d0 s') as Hk.
  { intros s' H'. eapply stays_conseq; [done|apply audio_undone_kept|apply artwork_undone_kept]. }
  assert (∀ f, audio_undone f → faulty → back f) as Hback.
  { intros f Hf ?. right. split; [done|]. by apply audio_undone_kept. }
  apply wp_errs, (wp_restore_if_present ks); [done|done|done|..].
  - intros s1 H1. assert (stays audio_undone artwork_undone f0 d0 s1) as H1' by (by eapply stays_same).
    split; [|by apply Hk]. intros e Hu.
    assert faulty as Hf; [|split; [by right|]; eapply stays_conseq; [exact H1'|auto|done]].
    destruct Hu as [Hf|[[x Hx] Hto]]; [done|].
    destruct Ha as [[_ (_ & _ & Hpn & _)]|[[Hno _]|[Hf _]]]; [cbn in Hpn; congruence| |done].
    destruct Hto as [Hy|Hd]; [rewrite Hno in Hy; by destruct Hy|]. destruct Hd. rewrite (gp_staging _ Hp). apply Hs.
  - intros s1 H1 Hn. split; [by left|]. eapply stays_same; [|exact H1].
    destruct Hst as (? & ? & _ & ?). split; [done|]. split; [done|]. split; [|done].
    destruct Ha as [?|[[_ (_ & _ & Hpn & _)]|[? ?]]]; [by left|cbn in Hpn; congruence|].
    apply Hback; [by right; right|done].
  - intros s1 x Hx _ Hb. split; [by left|].
    eapply stays_staged; [auto with store|exact Hst|by right|by left|exact Hb|]. intros g Hgf.
    destruct Ha as [[_ (_ & _ & Hpn & _)]|[[Hno Hr]|[Hf [n Hc]]]]; [cbn in Hpn; congruence|..].
    + left. by destruct (pending_moved _ _ _ Hr Hgf).
    + apply Hback; [|done]. right; right. split; [done|]. exists None.
      apply (config_lose ka previous n (file_at (disk s))); [done| |cbn; eauto|done].
      intros q Hq. rewrite Hgf. unfold moved. rewrite decide_False; [done|]. intros ->.
      by apply (gp_staged _ Hp).
Qed.

(** What the replacement wrote goes away. *)
Lemma remove_artwork : undoes back back artwork_undone artwork_back
  (if r_artwork_created p then
     errs (remove_rooted_file (if bool_decide (artwork_mode p = ModeReplace) then pending_artwork p else r_artwork p)
             (st "uncommitted replacement Album Artwork"))
   else mret None).
Proof.
  intros f0 d0 s Hst. pose proof Hst as (Hs & _ & _ & Hw & _).
  assert (∀ f, artwork_undone f → r_artwork_created p = false → artwork_back f) as Hno.
  { intros f Hf Hcr. unfold artwork_back, artwork_undone, artwork_rest, artwork_kept in *. rewrite Hcr.
    destruct (artwork_mode p); [done|done|by left|]. destruct Hf as [[n ?]|?]; [left; exists n; by split|by right]. }
  assert (∀ f, artwork_undone f → faulty → artwork_back f) as Hfail.
  { intros f Hf Hft. pose proof (artwork_undone_kept _ Hf) as Hk. unfold artwork_back. unfold artwork_kept in *.
    destruct (artwork_mode p); auto. }
  apply wp_if; intros Hcr; [|apply wp_ret; split; [by left|eapply stays_conseq; [done|done|auto]]].
  set (path := if bool_decide _ then _ else _).
  assert (names path ∈ artwork_keys p) as Hk.
  { unfold path, artwork_keys. destruct (gp_created _ Hp Hcr) as [->| ->]; simpl; [by left|apply (slots_in kw)]. }
  apply wp_errs, (wp_remove_rooted ks); [done|by apply keys_artwork|..].
  - intros s1 H1. assert (stays back artwork_undone f0 d0 s1) as H1' by (by eapply stays_same).
    split; [|eapply stays_conseq; [done|apply back_kept|apply artwork_undone_kept]].
    intros e Hf. split; [by right|]. eapply stays_conseq; [done|done|auto].
  - intros s1 (Hs1 & Hdb & Hf1). split; [by left|].
    eapply stays_artwork; [eauto with store|exact Hst|done|done| |].
    + intros q Hq. rewrite Hf1. unfold without. rewrite decide_False; [done|]. by intros ->.
    + unfold artwork_back, artwork_undone, artwork_rest, artwork_kept in *. unfold path in *.
      destruct (gp_created _ Hp Hcr) as [Em|Em]; rewrite Em in *; cbn [bool_decide decide] in *.
      * left. intros _. rewrite Hf1. unfold without. by rewrite decide_True.
      * assert (∀ q, q ∈ slot_keys kw → file_at (disk s1) q =
          if decide (q = s_pend kw) then None else file_at (disk s) q) as Hg by (intros q _; apply Hf1).
        assert (good_slots kw) as Hgw by (by apply (gp_artwork _ Hp)).
        destruct Hw as [[n Hn]|[Hf [n Hc]]].
        -- left. exists None. split; [|done]. by apply (lose_pending kw Hgw artwork n (file_at (disk s))).
        -- right. split; [done|]. destruct (file_at (disk s) (s_pend kw)) as [x|] eqn:Ex.
           ++ exists None. by apply (config_lose kw artwork n (file_at (disk s))).
           ++ exists n. eapply config_ext; [|exact Hc]. intros q Hq. rewrite Hg by done.
              destruct (decide (q = s_pend kw)) as [->|]; [by rewrite Ex|done].
Qed.

Lemma undo_directories : undoes back back artwork_back artwork_back
  (errs (remove_empty_directories_under (parent (r_audio p)) CANONICAL_LIBRARY_ROOT)).
Proof.
  intros f0 d0 s Hst. apply wp_errs. eapply gentle_use; [apply gentle_album|apply Hst|].
  intros s1 Hb. assert (stays back artwork_back f0 d0 s1) as H1 by (eapply stays_became; eauto with store).
  split; [split; [by left|done]|]. split; [intros Hf e; split; [by right|done]|].
  eapply stays_conseq; [done|apply back_kept|apply artwork_back_kept].
Qed.

Lemma ejoin_faulty parts e : Forall (λ o : option Error, o = None ∨ faulty) parts → ejoin parts = Some e → faulty.
Proof.
  intros Hall Hj. destruct (decide (Forall (λ o : option Error, o = None) parts)) as [Hn|Hn].
  - rewrite (proj2 (ejoin_None parts)) in Hj; [done|]. by apply Forall_forall.
  - apply not_Forall_Exists in Hn; [|apply _]. apply Exists_exists in Hn as (o & Ho & Hne).
    rewrite Forall_forall in Hall. by destruct (Hall o Ho).
Qed.

(** [rollback_replacement] fails only when the host does, and otherwise puts every
    file back. *)
Lemma wp_rollback_replacement f0 d0 s : stays audio_kept artwork_kept f0 d0 s →
  wp (rollback_replacement store p) (λ _ s', stays back artwork_back f0 d0 s')
    (λ _ s', faulty ∧ stays audio_kept artwork_kept f0 d0 s')
    (λ s', stays audio_kept artwork_kept f0 d0 s') s.
Proof using Hp Laws Hstore.
  intros Hst. apply wp_bind, (wp_stays_open _ _ _ _ _ _ _ _ Hst). intros s1 H1. split; [|auto]. cbv zeta.
  apply wp_bind. eapply wp_conseq; [by apply undo_artwork_swap| |done|done]. intros o1 s2 [Ho1 H2].
  apply wp_bind. eapply wp_conseq; [by apply undo_audio| |done|done]. intros o2 s3 [Ho2 H3].
  apply wp_bind. eapply wp_conseq; [by apply undo_pending| |done|done]. intros o3 s4 [Ho3 H4].
  apply wp_bind. eapply wp_conseq; [by apply remove_artwork| |done|done]. intros o4 s5 [Ho4 H5].
  apply wp_bind. eapply wp_conseq; [by apply undo_directories| |done|done]. intros o5 s6 [Ho5 H6].
  apply wp_join_result; [done|]. intros e He. split.
  - eapply ejoin_faulty; [|exact He]. rewrite !Forall_cons. auto 10.
  - eapply stays_conseq; [done|apply back_kept|apply artwork_back_kept].
Qed.
End Placement.
End Files.
