(* ===== verification/Replacement.v ===== *)
(** Track Replacement (replacement.rs): the journal written around the moves of
    files, the commit, and what recovery does with an interrupted one. *)

From stdpp Require Import gmap.
From S2P Require Import Prelude Text Crash Disk Failure Metadata ImportErrors Storage StoreSteps Journal.
From S2P Require Import Swap ReplaceFiles.

(** The columns of the Track to replace that the commit uses. *)
Record Target := mkTargetRow {
  row_track_id : str;
  row_album_id : str;
  row_content_sha256 : str;
  row_artwork_sha256 : str
}.

Record ReplacementState := mkState {
  state_target : Target;
  state_identity : CommitIdentity;
  state_placement : ReplacementPlacement;
  state_inspection : MediaInspection;
  state_album_key : str
}.

Record TrackReplacementResult := mkResult {
  result_job_id : str;
  result_status : str;
  result_revision : Z;
  result_track_id : str;
  deleted_files : Z
}.

(** The tables of the Library and the Import History: what the statements of
    [write_replacement_data] and [archive_standalone] make of them. *)
Class LibraryRows (Library : Type) := {
  QueueInvalidation : Type;
  write_replacement_data : ImportJob → ReplacementState → ReplacementPlacement → Library →
    Error + (list QueueInvalidation * Library);
  archive_standalone : str → str → Tables Library → Error + (unit * Library)
}.

Section Service.
Context `{FS : FileSystem} `{Machinery : Host} `{Dbg : Debug} `{Uni : Unicode} {Library : Type}
  `{Rows : !LibraryRows Library} (store : Storage).
Abbreviation DB := (Tables Library).
Abbreviation Do A := (M (Machine DB) Error A).

Definition rollback_replacement_files (j : ReplacementJournal) (p : ReplacementPlacement) (reason : str)
    : Do unit :=
  rolled_back ← catch (rollback_replacement store p);
  match rolled_back with
  | inl e =>
      recorded ← errs (record_replacement_recovery_reason (j_id j)
                         (reason ++ st "; filesystem rollback failed"));
      fail_join [Some e; recorded]
  | _ => rollback_replacement_journal (j_id j) reason
  end.

(** The error a step failed with, joined with what undoing it failed with. *)
Definition abandon {A} (j : ReplacementJournal) (p : ReplacementPlacement) (reason : str) (e : Error) : Do A :=
  rolled_back ← errs (rollback_replacement_files j p reason);
  fail_join [Some e; rolled_back].

Definition advance_replacement_phase (j : ReplacementJournal) (p : ReplacementPlacement)
    (from to : Phase) : Do unit :=
  advanced ← catch (update_replacement_phase (j_id j) from to);
  match advanced with
  | inl e => abandon j p (st "journal update failed") e
  | _ => mret tt
  end.

(** The journal row, from [replacement_journal_paths] and the state. *)
Definition prepared_journal (job : ImportJob) (state : ReplacementState) (id : str) : ReplacementJournal :=
  let p := state_placement state in
  let inspection := state_inspection state in
  let target := state_target state in
  let previous_artwork_path := optional_absolute_path store (previous_artwork p) in
  mkReplacementJournal id (job_id job) (row_track_id target) Prepared (job_staged_file_path job)
    (absolute_path store (pending_audio p)) (r_audio_path p) (absolute_path store (previous_audio p))
    (absolute_path store (retired_audio p)) (file_sha256 inspection) (row_content_sha256 target)
    (artwork_mode p) (optional_absolute_path store (pending_artwork p)) (r_artwork_path p)
    previous_artwork_path (optional_absolute_path store (retired_artwork p))
    (sha256 (album_artwork inspection))
    (if bool_decide (previous_artwork_path = []) then [] else row_artwork_sha256 target)
    false (row_album_id target) [].

Definition prepare_replacement_journal (job : ImportJob) (state : ReplacementState) : Do ReplacementJournal :=
  uuid ← ask new_uuid;
  let j := prepared_journal job state uuid in
  _ ← create_replacement_journal j;
  mret j.

Definition place_and_verify_replacement (j : ReplacementJournal) (state : ReplacementState)
    : Do ReplacementPlacement :=
  placed ← catch (place_replacement store (state_placement state) (state_inspection state)
                    (state_identity state) (Some (mark_replacement_artwork_created (j_id j))));
  match placed with
  | inl e =>
      journaled ← errs (rollback_replacement_journal (j_id j) (st "pending placement failed"));
      fail_join [Some e; journaled]
  | inr p =>
      _ ← advance_replacement_phase j p Prepared Placed;
      verified ← catch (verify_replacement store p (j_audio_sha256 j) (j_artwork_sha256 j));
      match verified with
      | inl e => abandon j p (st "pending verification failed") e
      | _ => _ ← advance_replacement_phase j p Placed Verified; mret p
      end
  end.

Definition swap_and_stream_replacement (j : ReplacementJournal) (p : ReplacementPlacement)
    (state : ReplacementState) : Do unit :=
  swapped ← catch (swap_replacement store p);
  match swapped with
  | inl e => abandon j p (st "canonical swap failed") e
  | _ =>
      _ ← advance_replacement_phase j p Verified Swapped;
      streamed ← catch (stream_swapped_replacement store p (file_sha256 (state_inspection state)));
      match streamed with
      | inl e => abandon j p (st "canonical stream verification failed") e
      | _ => mret tt
      end
  end.

Definition commit_replacement_data (job : ImportJob) (state : ReplacementState) (p : ReplacementPlacement)
    (journal_id : str) : Do (list QueueInvalidation) :=
  transaction (st "Track Replacement commit")
    (invalidations ← on_library (λ d, write_replacement_data job state p (library d));
     _ ← update_replacements (st "journal Track Replacement database commit")
           (λ r, bool_decide (j_id r = journal_id) && bool_decide (j_phase r = Swapped))
           (λ r, r_phase r DatabaseCommitted);
     mret invalidations).

(** [REPLACED]: the job as [finalize_replacement] leaves it. *)
Definition job_replaced (j : ImportJob) : ImportJob :=
  mkJob (job_id j) STATUS_COMMITTED (job_revision j + 1) (job_batch_id j) [] (job_content_sha256 j)
    (replace_track_id j) (st "replaced") (replace_track_id j).

Definition finalize_replacement (job : ImportJob) (journal_id : str) : Do TrackReplacementResult :=
  transaction (st "Track Replacement finalization")
    (marked ← sql (st "mark Track Replacement committed")
       (λ d, let '(rows, n) := update_where
               (λ r, bool_decide (job_id r = job_id job)
                     && bool_decide (job_status r = STATUS_AWAITING_CONFIRMATION)
                     && bool_decide (job_revision r = job_revision job)) job_replaced (jobs d) in
             Some (n, with_jobs d rows));
     _ ← require_one marked;
     _ ← update_replacements (st "complete Track Replacement journal")
           (λ r, bool_decide (j_id r = journal_id) && bool_decide (j_phase r = DatabaseCommitted))
           (λ r, r_set r Completed (is_artwork_created r)
                   (if bool_decide (recovery_reason r = []) then st "replacement completed"
                    else recovery_reason r));
     _ ← on_library (archive_standalone (job_id job) HISTORY_RESULT_COMPLETED);
     mret (mkResult (job_id job) STATUS_COMMITTED (job_revision job + 1) (replace_track_id job) 0)).

Definition complete_replacement (job : ImportJob) (j : ReplacementJournal) (p : ReplacementPlacement)
    : Do TrackReplacementResult :=
  '(deleted, removed) ← complete_replacement_files store never j p;
  match removed with
  | Some e =>
      recorded ← errs (record_replacement_recovery_reason (j_id j)
                         (st "previous file cleanup failed: " ++ text e));
      fail_join [Some e; recorded]
  | None =>
      result ← finalize_replacement job (j_id j);
      mret (mkResult (result_job_id result) (result_status result) (result_revision result)
              (result_track_id result) deleted)
  end.

(** [commit_replacement]; the invalidations are published between the commit and
    the completion, and the test hooks are left out. *)
Definition commit_replacement (job : ImportJob) (state : ReplacementState) : Do TrackReplacementResult :=
  j ← prepare_replacement_journal job state;
  p ← place_and_verify_replacement j state;
  _ ← swap_and_stream_replacement j p state;
  committed ← catch (commit_replacement_data job state p (j_id j));
  match committed with
  | inl e =>
      persisted ← catch (get_replacement_journal (j_id j));
      match persisted with
      | inl read => fail_join [Some e; Some read]
      | inr row =>
          if bool_decide (j_phase row = Swapped) then abandon j p (st "database commit failed") e
          else fail e
      end
  | _ => complete_replacement job j p
  end.

Definition recover_replacement (j : ReplacementJournal) : Do unit :=
  match replacement_placement_from_journal store j with
  | Ok p =>
      match j_phase j with
      | Prepared | Placed | Verified | Swapped =>
          rollback_replacement_files j p
            (st "restart rolled back replacement from " ++ phase_text (j_phase j) ++ st " phase")
      | DatabaseCommitted =>
          job ← get_job (j_job_id j);
          _ ← complete_replacement job j p;
          mret tt
      | phase => fail (error_new (st "unsupported Track Replacement phase " ++ debug_str (phase_text phase)))
      end
  | Err e =>
      recorded ← errs (record_replacement_recovery_reason (j_id j) (st "unsafe journaled storage path"));
      fail_join [Some e; recorded]
  | Panic => lift Panic
  | OutOfFuel => lift OutOfFuel
  end.

(** The loop of [recover_pending_track_replacements]. *)
Fixpoint recover_journals (rows : list ReplacementJournal) (failures : list (option Error)) : Do unit :=
  match rows with
  | [] => join_result failures
  | j :: rows =>
      failure ← catch (recover_replacement j);
      recover_journals rows (failures ++
        [match failure with
         | inl e => Some (in_context (st "recover Track Replacement " ++ debug_str (j_id j)) e)
         | _ => None
         end])
  end.
Definition recover_pending_track_replacements : Do unit :=
  rows ← replacement_journals AllIncomplete; recover_journals rows [].
End Service.
