(* ===== verification/ReplaceSafety.v ===== *)
(** Track Replacement is crash safe: whatever step fails and wherever the process
    ends, either the Library is as it was and the previous Track is still there, or
    it names the replacement and the replacement is at the path it names; recovery
    then finishes or undoes what was begun. *)

From stdpp Require Import gmap.
From S2P Require Import Prelude Text Crash Disk Failure Metadata ImportErrors Storage Paths StoreSteps Journal.
From S2P Require Import Swap ReplaceFiles Replacement.

(** The phases before the database commit. *)
Definition early (ph : Phase) : Prop := ph ∈ [Prepared; Placed; Verified; Swapped].

Section Safety.
Context `{FS : FileSystem} `{Laws : !FileSystemLaws} `{Machinery : Host} `{Dbg : Debug} `{Uni : Unicode}
  {Library : Type} `{Rows : !LibraryRows Library}.
Context (store : Storage) (Hstore : initialization_error store = None).
Context (job : ImportJob) (state : ReplacementState) (previous new artwork : list byte).
Abbreviation DB := (Tables Library).
Abbreviation p := (state_placement state).
Context (Hp : good_placement p) (Hcreated : r_artwork_created p = false).

(** What was there before: the files and the tables. *)
Context (f0 : Files) (d0 : DB).
Implicit Types (s : Machine DB) (A W : Files → Prop) (id : str).

Abbreviation waiting := (waiting p previous new).
Abbreviation taken := (taken p previous new).
Abbreviation audio_kept := (audio_kept p previous new).
Abbreviation in_place := (in_place p previous new).
Abbreviation back := (back p previous new).
Abbreviation artwork_rest := (artwork_rest p artwork).
Abbreviation artwork_kept := (artwork_kept p artwork).
Abbreviation artwork_in_place := (artwork_in_place p artwork).
Abbreviation artwork_undone := (artwork_undone p artwork).
Abbreviation stays := (stays p).
Abbreviation stays_with := (stays_with p).

(** The row of this replacement, as it may be while it is under way. *)
Definition row id (ph : Phase) (created : bool) (reason : str) : ReplacementJournal :=
  r_set (prepared_journal store job state id) ph created reason.

Definition fresh id : Prop := Forall (λ r, j_id r ≠ id) (replacements d0).

Definition with_row (r : ReplacementJournal) (js : list ImportJob) (l : Library) : DB :=
  mkTables (replacements d0 ++ [r]) (commits d0) js l.

(** The journal is written and nothing else is. *)
Definition opened id (P : Phase → Prop) (d : DB) : Prop :=
  ∃ ph created reason, P ph ∧ may_create p created ∧
    d = with_row (row id ph created reason) (jobs d0) (library d0).

(** [P] holds of a state that only differs in its clock or its tables. *)
Lemma stays_db A W d s s' : stays A W f0 d s → disk s' = disk s → stays A W f0 (db s') s'.
Proof. intros (? & _ & ? & ? & ?) Hd. unfold ReplaceFiles.stays. by rewrite Hd. Qed.

Lemma opened_conseq id (P P' : Phase → Prop) d : opened id P d → (∀ ph, P ph → P' ph) → opened id P' d.
Proof. intros (ph & cr & rs & ? & ?) HP. exists ph, cr, rs. auto. Qed.

Lemma stays_opened id (P P' : Phase → Prop) A A' W W' s : stays_with (opened id P) A W f0 s →
  (∀ ph, P ph → P' ph) → (∀ f, A f → A' f) → (∀ f, W f → W' f) → stays_with (opened id P') A' W' f0 s.
Proof.
  intros (d & Hd & Hst) ? ? ?. exists d. split; [by eapply opened_conseq|]. by eapply stays_conseq.
Qed.

(** A statement on the row, whose selection its phase decides. *)
Lemma wp_row id (P P' : Phase → Prop) A W operation sel f s
    (Q : unit → Machine DB → Prop) (X : Error → Machine DB → Prop) (C : Machine DB → Prop) :
  fresh id → stays_with (opened id P) A W f0 s → (∀ r, sel r = true → j_id r = id) →
  (∀ ph cr rs, P ph → may_create p cr → sel (row id ph cr rs) = true ∧
     ∃ ph' cr' rs', P' ph' ∧ may_create p cr' ∧ f (row id ph cr rs) = row id ph' cr' rs') →
  (∀ s', stays_with (opened id P') A W f0 s' → Q tt s' ∧ (faulty → ∀ e, X e s')) →
  (∀ s', stays_with (opened id P) A W f0 s' → (faulty → ∀ e, X e s') ∧ C s') →
  wp (update_replacements operation sel f) Q X C s.
Proof.
  intros Hfresh (d & (ph & cr & rs & HP & Hcr & ->) & Hst) Hsel Hrow HQ HC.
  destruct (Hrow ph cr rs HP Hcr) as (Hyes & ph' & cr' & rs' & HP' & Hcr' & Hf).
  assert (db s = with_row (row id ph cr rs) (jobs d0) (library d0)) as Hdb by apply Hst.
  eapply wp_update_last; [exact Hdb|..].
  - eapply Forall_impl; [exact Hfresh|]. intros r Hr. simpl.
    destruct (sel r) eqn:E; [by apply Hsel in E|done].
  - intros s' [Hd Hdb']. destruct (HC s') as [HX ?].
    { exists (db s'). split; [rewrite Hdb', Hdb; by exists ph, cr, rs|by eapply stays_db]. }
    split; [|done]. intros e [Hft|Hno]; [by apply HX|congruence].
  - intros s' _ Hd Hdb'. destruct (HQ s') as [? HX].
    { exists (db s'). split; [rewrite Hdb', Hf; by exists ph', cr', rs'|by eapply stays_db]. }
    split; [done|]. intros e Hft. by apply HX.
Qed.

Ltac row_selected := repeat case_bool_decide; simpl in *; (done || congruence).

Lemma wp_advance id from to A W s (Q : unit → Machine DB → Prop)
    (X : Error → Machine DB → Prop) (C : Machine DB → Prop) :
  fresh id → stays_with (opened id (.= from)) A W f0 s →
  (∀ s', stays_with (opened id (.= to)) A W f0 s' → Q tt s' ∧ (faulty → ∀ e, X e s')) →
  (∀ s', stays_with (opened id (.= from)) A W f0 s' → (faulty → ∀ e, X e s') ∧ C s') →
  wp (update_replacement_phase id from to) Q X C s.
Proof.
  intros Hfresh Hst HQ HC. eapply wp_row; [done|exact Hst| | |exact HQ|exact HC].
  - intros r. row_selected.
  - intros ph cr rs -> Hcr. split; [row_selected|]. by exists to, cr, rs.
Qed.

Lemma wp_rolled id A W s reason (Q : unit → Machine DB → Prop)
    (X : Error → Machine DB → Prop) (C : Machine DB → Prop) :
  fresh id → stays_with (opened id early) A W f0 s →
  (∀ s', stays_with (opened id (.= RolledBack)) A W f0 s' → Q tt s' ∧ (faulty → ∀ e, X e s')) →
  (∀ s', stays_with (opened id early) A W f0 s' → (faulty → ∀ e, X e s') ∧ C s') →
  wp (rollback_replacement_journal id reason) Q X C s.
Proof.
  intros Hfresh Hst HQ HC. eapply wp_row; [done|exact Hst| | |exact HQ|exact HC].
  - intros r. row_selected.
  - intros ph cr rs Hph Hcr. split.
    + unfold early in Hph. simpl. rewrite bool_decide_true by done.
      repeat (apply elem_of_cons in Hph as [->|Hph]); try done. by apply not_elem_of_nil in Hph.
    + by exists RolledBack, cr, reason.
Qed.

Lemma wp_record id A W s reason (Q : unit → Machine DB → Prop)
    (X : Error → Machine DB → Prop) (C : Machine DB → Prop) :
  fresh id → stays_with (opened id early) A W f0 s →
  (∀ s', stays_with (opened id early) A W f0 s' → Q tt s' ∧ (∀ e, X e s') ∧ C s') →
  wp (record_replacement_recovery_reason id reason) Q X C s.
Proof.
  intros Hfresh Hst HQ. eapply (wp_row id early early); [done|exact Hst| | |..].
  - intros r. row_selected.
  - intros ph cr rs Hph Hcr. split.
    + unfold early in Hph. simpl. rewrite bool_decide_true by done.
      repeat (apply elem_of_cons in Hph as [->|Hph]); try done. by apply not_elem_of_nil in Hph.
    + by exists ph, cr, reason.
  - intros s' H'. destruct (HQ s' H') as (? & ? & ?). auto.
  - intros s' H'. destruct (HQ s' H') as (? & ? & ?). auto.
Qed.

(** ** Before the commit *)

Definition pending id s : Prop := stays_with (opened id early) audio_kept artwork_kept f0 s.
Definition rolled id s : Prop := stays_with (opened id (.= RolledBack)) back artwork_undone f0 s.
Definition begun id s : Prop := pending id s ∨ rolled id s.

Lemma good_created made : may_create p made → good_placement (r_with_created p made).
Proof using Hp. intros Hm. destruct Hp. by constructor. Qed.

Lemma early_phases : early Prepared ∧ early Placed ∧ early Verified ∧ early Swapped.
Proof. unfold early. rewrite !elem_of_cons. tauto. Qed.

Lemma to_pending id ph A W s : early ph → stays_with (opened id (.= ph)) A W f0 s →
  (∀ f, A f → audio_kept f) → (∀ f, W f → artwork_kept f) → begun id s.
Proof. intros Hph Hst HA HW. left. eapply stays_opened; [exact Hst|by intros ? ->|done..]. Qed.

Lemma back_undone made f : ReplaceFiles.artwork_back (r_with_created p made) artwork f → artwork_undone f.
Proof.
  unfold artwork_back, ReplaceFiles.artwork_undone, ReplaceFiles.artwork_rest, ReplaceFiles.artwork_kept. simpl.
  destruct (artwork_mode p); try by left. intros [(n & Hf & _)|[? Hf]]; [left; by exists n|by right].
Qed.

Lemma wp_rollback_files id made j reason s : fresh id → may_create p made → j_id j = id → pending id s →
  wp (rollback_replacement_files store j (r_with_created p made) reason) (λ _ s', rolled id s')
    (λ _ s', faulty ∧ begun id s') (begun id) s.
Proof using Hp Laws Hstore.
  intros Hfresh Hm <- (d & Hd & Hst). apply wp_bind, wp_catch.
  eapply wp_conseq; [eapply wp_rollback_replacement; [by apply good_created|exact Hstore|exact Hst]|..].
  - intros [] s1 H1.
    assert (stays_with (opened (j_id j) early) back artwork_undone f0 s1) as H1'.
    { exists d. split; [done|]. eapply stays_conseq; [exact H1|done|apply back_undone]. }
    assert (∀ s', stays_with (opened (j_id j) early) back artwork_undone f0 s' → begun (j_id j) s') as Hb.
    { intros s' H'. left. eapply stays_opened; [exact H'|done|apply back_kept|apply artwork_undone_kept]. }
    eapply wp_rolled; [done|exact H1'|..].
    + intros s2 H2. split; [done|]. intros Hf e. split; [done|by right].
    + intros s2 H2. split; [|by apply Hb]. intros Hf e. split; [done|by apply Hb].
  - intros e s1 [Hf H1]. assert (pending (j_id j) s1) as H1' by (exists d; by split).
    apply wp_bind, wp_errs. eapply wp_record; [done|exact H1'|].
    intros s2 H2. assert (pending (j_id j) s2) by exact H2.
    split; [|split; [intros e'|by left]]; apply wp_fail_join; intros _; (split; [done|by left]).
  - intros s1 H1. left. exists d. by split.
Qed.

Lemma wp_give_up {R} id made j reason e (Q : R → Machine DB → Prop) s :
  fresh id → may_create p made → j_id j = id → pending id s →
  wp (abandon store j (r_with_created p made) reason e) Q (λ _ s', begun id s') (begun id) s.
Proof using Hp Laws Hstore.
  intros Hfresh Hm Hj Hpend. apply wp_bind, wp_errs. eapply wp_conseq; [by apply wp_rollback_files|..].
  - intros ? s1 H1. apply wp_fail_join. intros _. by right.
  - intros e' s1 [_ H1]. by apply wp_fail_join.
  - done.
Qed.

Lemma wp_advance_phase id made j from to A W s :
  fresh id → may_create p made → j_id j = id → early from → early to →
  (∀ f, A f → audio_kept f) → (∀ f, W f → artwork_kept f) →
  stays_with (opened id (.= from)) A W f0 s →
  wp (advance_replacement_phase store j (r_with_created p made) from to)
    (λ _ s', stays_with (opened id (.= to)) A W f0 s') (λ _ s', begun id s') (begun id) s.
Proof using Hp Laws Hstore.
  intros Hfresh Hm <- Hfrom Hto HA HW Hst. apply wp_bind, wp_catch.
  assert (∀ ph s', early ph → stays_with (opened (j_id j) (.= ph)) A W f0 s' → pending (j_id j) s') as Hpend.
  { intros ph s' Hph H'. eapply stays_opened; [exact H'|by intros ? ->|done..]. }
  eapply wp_advance; [done|exact Hst|..].
  - intros s1 H1. split; [by apply wp_ret|]. intros _ e.
    apply (wp_give_up _ made); [done..|by apply (Hpend to)].
  - intros s1 H1. split; [intros _ e; apply (wp_give_up _ made); [done..|by apply (Hpend from)]|].
    left. by apply (Hpend from).
Qed.

Lemma marks_created id : fresh id → may_create p true →
  marks (opened id (.= Prepared)) (Some (mark_replacement_artwork_created id)).
Proof.
  intros Hfresh Hm m s [= <-] (ph & cr & rs & -> & Hcr & Hdb).
  eapply wp_update_last; [exact Hdb|..].
  - eapply Forall_impl; [exact Hfresh|]. intros r Hr. row_selected.
  - assert (∀ s', same s s' → disk s' = disk s ∧ opened id (.= Prepared) (db s')) as Hsame.
    { intros s' [Hd Hdb']. split; [done|]. rewrite Hdb', Hdb. by exists Prepared, cr, rs. }
    intros s' Hs. split; [intros e _|]; by apply Hsame.
  - intros s' _ Hd Hdb'. assert (disk s' = disk s ∧ opened id (.= Prepared) (db s')); [|done].
    split; [done|]. rewrite Hdb'. by exists Prepared, true, rs.
Qed.

Lemma wp_place_and_verify id j s : fresh id → j_id j = id →
  stays_with (opened id (.= Prepared)) waiting artwork_rest f0 s →
  wp (place_and_verify_replacement store j state)
    (λ p' s', ∃ made, p' = r_with_created p made ∧ may_create p made ∧
       stays_with (opened id (.= Verified)) taken artwork_rest f0 s')
    (λ _ s', begun id s') (begun id) s.
Proof using Hp Laws Hstore.
  intros Hfresh <- Hst. destruct early_phases as (Hepr & Hepl & Hever & _).
  apply wp_bind, wp_catch.
  eapply wp_conseq; [eapply (wp_place_replacement _ Hp previous new artwork store Hstore (opened (j_id j) (.= Prepared)))|..].
  - intros Hm. by apply marks_created.
  - exact Hst.
  - intros p' s1 (made & -> & Hm & H1). apply wp_bind.
    eapply wp_conseq; [eapply wp_advance_phase with (1 := Hfresh) (2 := Hm); [done|exact Hepr|exact Hepl| | |exact H1]|..];
      [apply taken_kept|apply artwork_rest_kept| |done|done].
    intros ? s2 H2. apply wp_bind, wp_catch.
    apply (wp_quiet (verify_replacement store _ _ _)); [apply quiet_verify_replacement|..].
    + intros ? s3 H3. assert (stays_with (opened (j_id j) (.= Placed)) taken artwork_rest f0 s3) as H3'
        by (eapply stays_with_same; [exact H2|exact H3]). apply wp_bind.
      eapply wp_conseq; [eapply wp_advance_phase with (1 := Hfresh) (2 := Hm); [done|exact Hepl|exact Hever| | |exact H3']|..];
        [apply taken_kept|apply artwork_rest_kept| |done|done].
      intros ? s4 H4. apply wp_ret. by exists made.
    + intros e s3 H3. apply (wp_give_up _ made); [done..|].
      eapply stays_opened; [eapply stays_with_same; [exact H2|exact H3]|by intros ? ->|apply taken_kept|apply artwork_rest_kept].
    + intros s3 H3. eapply to_pending; [exact Hepl|eapply stays_with_same; [exact H2|exact H3]|apply taken_kept|apply artwork_rest_kept].
  - intros e s1 H1.
    assert (∀ s', stays_with (opened (j_id j) early) back artwork_rest f0 s' → begun (j_id j) s') as Hb.
    { intros s' H'. left. eapply stays_opened; [exact H'|done|apply back_kept|apply artwork_rest_kept]. }
    apply wp_bind, wp_errs. eapply wp_rolled; [done|eapply stays_opened; [exact H1|by intros ? ->|done|done]|..].
    + intros s2 H2. assert (rolled (j_id j) s2).
      { eapply stays_opened; [exact H2|done|done|by left]. }
      split; [|intros _ e']; apply wp_fail_join; intros _; by right.
    + intros s2 H2. split; [intros _ e'; apply wp_fail_join; intros _|]; by apply Hb.
  - intros s1 H1. eapply to_pending; [exact Hepr|exact H1|done|apply artwork_rest_kept].
Qed.

(** Swapped in, and read back with the hash the journal holds. *)
Definition swapped_in id s : Prop := stays_with (opened id (.= Swapped)) in_place artwork_in_place f0 s.

Lemma swapped_pending id s : swapped_in id s → pending id s.
Proof.
  intros Hst. eapply stays_opened; [exact Hst| |apply in_place_kept|apply artwork_in_place_kept].
  intros ? ->. apply early_phases.
Qed.

Lemma wp_stream_hash id made s : swapped_in id s →
  wp (stream_swapped_replacement store (r_with_created p made) (file_sha256 (state_inspection state)))
    (λ _ s', swapped_in id s' ∧ digest_hex new = file_sha256 (state_inspection state))
    (λ _ s', swapped_in id s') (swapped_in id) s.
Proof.
  intros Hst. assert (∀ s', same s s' → swapped_in id s') as Hsame by (intros; by eapply stays_with_same).
  apply wp_bind, (wp_quiet (open_root store)); [auto with store| |by auto|by auto].
  intros [] s1 H1. destruct (Hsame s1 H1) as (d & _ & Hs1 & _ & [_ (_ & Hc & _)] & _).
  destruct (keys_in p) as (_ & Hk & _). destruct (sound_keys _ _ Hs1 _ Hk) as [Hin _].
  apply wp_bind, wp_on_err, wp_verify; [apply Hs1|done|]. intros s2 H2.
  assert (swapped_in id s2) as Hst2 by (apply Hsame; by eapply same_trans).
  split; [|done]. intros x Hx Hdig. 
  change (file_at (disk s1) (names (r_audio p)) = Some x) in Hx. cbn in Hc. rewrite Hc in Hx. injection Hx as <-.
  apply (wp_quiet (_ ← on_err _ (metadata _); on_err _ host_op)).
  - apply quiet_bind; [apply quiet_on_err_query|auto with store].
  - intros [] s3 H3. split; [|done]. apply Hsame. eapply same_trans; [exact H1|]. by eapply same_trans.
  - intros e s3 H3. apply Hsame. eapply same_trans; [exact H1|]. by eapply same_trans.
  - intros s3 H3. apply Hsame. eapply same_trans; [exact H1|]. by eapply same_trans.
Qed.

Lemma wp_swap_and_stream id made j s : fresh id → may_create p made → j_id j = id →
  stays_with (opened id (.= Verified)) taken artwork_rest f0 s →
  wp (swap_and_stream_replacement store j (r_with_created p made) state)
    (λ _ s', swapped_in id s' ∧ digest_hex new = file_sha256 (state_inspection state))
    (λ _ s', begun id s') (begun id) s.
Proof using Hp Laws Hstore.
  intros Hfresh Hm <- (d & Hd & Hst). destruct early_phases as (_ & _ & Hever & Hesw).
  apply wp_bind, wp_catch.
  eapply wp_conseq; [eapply wp_swap_replacement; [by apply good_created|exact Hstore|exact Hst]|..].
  - intros [] s1 H1.
    assert (stays_with (opened (j_id j) (.= Verified)) in_place artwork_in_place f0 s1) as H1' by (exists d; by split).
    apply wp_bind.
    eapply wp_conseq; [eapply wp_advance_phase with (1 := Hfresh) (2 := Hm); [done|exact Hever|exact Hesw| | |exact H1']|..];
      [apply in_place_kept|apply artwork_in_place_kept| |done|done].
    intros [] s2 H2. apply wp_bind, wp_catch. eapply wp_conseq; [by apply (wp_stream_hash (j_id j))|..].
    + intros [] s3 H3. by apply wp_ret.
    + intros e s3 H3. apply (wp_give_up _ made); [done..|by apply swapped_pending].
    + intros s3 H3. left. by apply swapped_pending.
  - intros e s1 H1. apply (wp_give_up _ made); [done..|]. exists d.
    split; [eapply opened_conseq; [exact Hd|by intros ? ->]|exact H1].
  - intros s1 H1. left. exists d. split; [eapply opened_conseq; [exact Hd|by intros ? ->]|exact H1].
Qed.

(** ** From the commit on *)

Definition done_audio (f : Files) : Prop :=
  f (names (r_staged p)) = None ∧ f (names (r_audio p)) = Some new ∧ f (names (pending_audio p)) = None ∧
  (f (names (retired_audio p)) = Some previous ∨ f (names (retired_audio p)) = None) ∧
  (names (r_audio p) ≠ names (previous_audio p) → f (names (previous_audio p)) = None).
Definition done_artwork (f : Files) : Prop :=
  artwork_mode p = ModeReplace → is_Some (f (names (r_artwork p))) ∧ f (names (pending_artwork p)) = None ∧
    (f (names (retired_artwork p)) = Some artwork ∨ f (names (retired_artwork p)) = None).

(** The files of a committed replacement. *)
Definition done_files d : Prop :=
  sound (replacement_keys p) d ∧ done_audio (file_at d) ∧ done_artwork (file_at d) ∧
  ∀ q, q ∉ written_keys p → file_at d q = f0 q ∨ (q ∈ left_artwork p ∧ file_at d q = None).

(** What the commit wrote to the Library. *)
Definition written (l : Library) : Prop :=
  digest_hex new = file_sha256 (state_inspection state) ∧
  ∃ made inv, write_replacement_data job state (r_with_created p made) (library d0) = inr (inv, l).

Definition committed id s : Prop := done_files (disk s) ∧
  ∃ created reason l, may_create p created ∧ written l ∧
    db s = with_row (row id DatabaseCommitted created reason) (jobs d0) l.

Definition finalized_jobs : list ImportJob :=
  (update_where (λ r, bool_decide (job_id r = job_id job)
     && bool_decide (job_status r = STATUS_AWAITING_CONFIRMATION)
     && bool_decide (job_revision r = job_revision job)) job_replaced (jobs d0)).1.

Definition completed id s : Prop := done_files (disk s) ∧
  file_at (disk s) (names (retired_audio p)) = None ∧
  ∃ created reason l l', written l ∧
    let r := row id Completed created reason in
    archive_standalone (job_id job) HISTORY_RESULT_COMPLETED (with_row r finalized_jobs l) = inr (tt, l') ∧
    db s = with_row r finalized_jobs l'.

Lemma in_place_done d s : stays in_place artwork_in_place f0 d s → done_files (disk s).
Proof.
  intros (Hs & _ & [Hst (Hret & Hcan & _ & Hpend & Hprev)] & Hw & Hf). split; [done|]. split; [|split; [|auto]].
  - split; [exact Hst|]. split; [exact Hcan|]. split; [exact Hpend|]. split; [by left|exact Hprev].
  - intros Hm. unfold ReplaceFiles.artwork_in_place in Hw. rewrite Hm in Hw.
    destruct Hw as (n & Hrt & Hc & Hn & Hpd & _). cbn in *. rewrite Hc. auto.
Qed.

Lemma wp_commit_data id made s : fresh id → may_create p made →
  digest_hex new = file_sha256 (state_inspection state) → swapped_in id s →
  wp (commit_replacement_data job state (r_with_created p made) id) (λ _ s', committed id s')
    (λ _ s', swapped_in id s' ∨ committed id s') (λ s', swapped_in id s') s.
Proof.
  intros Hfresh Hm Hdig (d & (ph & cr & rs & -> & Hcr & Hdb0) & Hst).
  assert (db s = with_row (row id Swapped cr rs) (jobs d0) (library d0)) as Hdb by (by rewrite <-Hdb0; apply Hst).
  assert (∀ s', disk s' = disk s → db s' = db s → swapped_in id s') as Hsame.
  { intros s' Hd Hdb'. exists (db s'). split; [rewrite Hdb', Hdb; by exists Swapped, cr, rs|by eapply stays_db]. }
  apply wp_transaction.
  { intros s' [Hd Hdb']. split; [intros e _; left|]; by apply Hsame. }
  intros s1 [Hd1 Hdb1]. apply wp_bind, wp_on_library.
  { intros s2 [Hd2 Hdb2]. split; [intros e _ s3 Hd3 Hdb3; left|intros s3 Hd3 Hdb3];
      (apply Hsame; [by rewrite Hd3, Hd2|done]). }
  intros inv l s2 Hw Hd2 Hdb2. rewrite Hdb1, Hdb in Hw, Hdb2. cbn in Hw, Hdb2.
  apply wp_bind. eapply wp_update_last; [exact Hdb2|..].
  - eapply Forall_impl; [exact Hfresh|]. intros r Hr. row_selected.
  - intros s3 [Hd3 _]. split; [intros e _ s4 Hd4 Hdb4; left|intros s4 Hd4 Hdb4];
      (apply Hsame; [by rewrite Hd4, Hd3, Hd2|done]).
  - intros s3 _ Hd3 Hdb3.
    assert (∀ s4, disk s4 = disk s3 → db s4 = db s3 → committed id s4) as Hdone.
    { intros s4 Hd4 Hdb4. split; [rewrite Hd4, Hd3, Hd2, Hd1; by eapply in_place_done|].
      exists cr, rs, l. split; [done|]. split; [split; [done|by exists made, inv]|].
      by rewrite Hdb4, Hdb3. }
    split; [|intros e _ s4 Hd4 Hdb4; left; apply Hsame; [by rewrite Hd4, Hd3, Hd2|done]].
    apply wp_ret. split; [by apply Hdone|]. split; [intros e _; right; by apply Hdone|].
    intros s4 Hd4 Hdb4. split; [intros e _; left|]; apply Hsame; [by rewrite Hd4, Hd3, Hd2|done|by rewrite Hd4, Hd3, Hd2|done].
Qed.

(** The journal's absolute paths stand for the relative ones of the placement. *)
Record good_paths : Prop := {
  root_good : Forall good_name (root store);
  root_some : root store ≠ [];
  pending_clean : clean (pending_audio p);
  previous_clean : clean (previous_audio p);
  retired_clean : clean (retired_audio p);
  audio_stored : optional_relative_path store (r_audio_path p) = Ok (r_audio p);
  artwork_stored : optional_relative_path store (r_artwork_path p) = Ok (r_artwork p);
  staged_stored : optional_relative_path store (job_staged_file_path job) = Ok (r_staged p);
  artwork_clean : pending_artwork p = [] ∨ clean (pending_artwork p);
  left_clean : previous_artwork p = [] ∨ clean (previous_artwork p);
  retired_artwork_clean : artwork_mode p = ModeReplace → clean (previous_artwork p) ∧ clean (retired_artwork p);
  retired_artwork_none : artwork_mode p ≠ ModeReplace → retired_artwork p = []
}.
Context (Hpaths : good_paths).

Lemma clean_nonempty q : clean q → q ≠ [].
Proof.
  intros (ns & Hne & Hg & ->). destruct Hg as [|n ns (Hn & _) _]; [done|].
  unfold path_of. destruct n; [done|]. by destruct ns.
Qed.

Lemma absolute_nonempty q : clean q → absolute_path store q ≠ [].
Proof.
  intros Hq E. unfold absolute_path, display_path in E.
  destruct (starts_with _ _); [by apply clean_nonempty in Hq|done].
Qed.

(** Removing a file of the replacement other than the new ones. *)
Lemma done_without key d d' : done_files d → key ∈ replacement_keys p → key ≠ names (r_audio p) →
  (artwork_mode p = ModeReplace → key ≠ names (r_artwork p)) → sound (replacement_keys p) d' →
  (∀ q, file_at d' q = without (file_at d) key q) → done_files d'.
Proof.
  intros (Hs & (H1 & H2 & H3 & H4 & H5) & Hw & Hf) Hk Hka Hkw Hs' Hd'.
  assert (∀ q, file_at d' q = file_at d q ∨ file_at d' q = None) as Hsub.
  { intros q. rewrite Hd'. unfold without. case_decide; auto. }
  split; [done|]. split; [|split].
  - repeat split.
    + destruct (Hsub (names (r_staged p))); congruence.
    + rewrite Hd'. unfold without. by rewrite decide_False.
    + destruct (Hsub (names (pending_audio p))); congruence.
    + destruct (Hsub (names (retired_audio p))) as [->| ->]; auto.
    + intros Hne. specialize (H5 Hne). destruct (Hsub (names (previous_audio p))); congruence.
  - intros Hm. destruct (Hw Hm) as (Hc & Hpd & Hrt). split; [|split].
    + rewrite Hd'. unfold without. rewrite decide_False; [done|]. by apply not_eq_sym, Hkw.
    + destruct (Hsub (names (pending_artwork p))); congruence.
    + destruct (Hsub (names (retired_artwork p))) as [->| ->]; auto.
  - intros q Hq. rewrite Hd'. unfold without. destruct (decide (q = key)) as [->|]; [|by apply Hf].
    right. split; [|done]. apply elem_of_app in Hk as [?|?]; done.
Qed.

Lemma done_same d d' : done_files d → sound (replacement_keys p) d' →
  (∀ q, file_at d' q = file_at d q) → done_files d'.
Proof.
  intros (_ & Ha & Hw & Hf) Hs' Hd'. split; [done|]. unfold done_audio, done_artwork in *.
  rewrite !Hd'. split; [done|]. split; [done|]. intros q. rewrite Hd'. apply Hf.
Qed.

Lemma retired_apart : names (retired_audio p) ≠ names (r_audio p) ∧
  (artwork_mode p = ModeReplace → names (retired_audio p) ≠ names (r_artwork p)).
Proof using Hp.
  split; [apply (ret_canon _ (gp_audio _ Hp))|]. intros Hm E.
  apply (gp_apart _ Hp (names (r_artwork p))).
  - unfold artwork_keys. rewrite Hm. apply (slots_in (artwork_slots p)).
  - rewrite <-E. right. apply (slots_in (audio_slots p)).
Qed.

(** The artwork [complete_replacement_files] removes. *)
Definition old_artwork : str :=
  if bool_decide (retired_artwork p = []) then previous_artwork p else retired_artwork p.

Lemma old_artwork_key : old_artwork ≠ [] → clean old_artwork ∧ names old_artwork ∈ replacement_keys p ∧
  names old_artwork ≠ names (r_audio p) ∧ (artwork_mode p = ModeReplace → names old_artwork ≠ names (r_artwork p)).
Proof using Hp Hpaths.
  unfold old_artwork. destruct (decide (artwork_mode p = ModeReplace)) as [Hm|Hm].
  - pose proof (proj2 (retired_artwork_clean Hpaths Hm)) as Hc. rewrite bool_decide_eq_false_2 by (by apply clean_nonempty).
    intros _. split; [done|]. destruct (keys_artwork_in p Hm) as (_ & _ & _ & Hk). split; [done|]. split.
    + intros E. apply (gp_apart _ Hp (names (r_audio p))); [|right; apply (slots_in (audio_slots p))].
      rewrite <-E. unfold artwork_keys. rewrite Hm. apply (slots_in (artwork_slots p)).
    + intros _. apply (ret_canon _ (gp_artwork _ Hp Hm)).
  - rewrite (retired_artwork_none Hpaths Hm), bool_decide_eq_true_2 by done. intros Hne.
    destruct (left_clean Hpaths) as [|Hc]; [done|]. split; [done|].
    assert (names (previous_artwork p) ∈ left_artwork p) as Hl.
    { unfold left_artwork. rewrite bool_decide_eq_true_2 by done. by left. }
    split; [apply elem_of_app; by right|]. split; [|done]. intros E.
    apply (gp_left _ Hp _ Hl). rewrite E. apply written_audio. right. apply (slots_in (audio_slots p)).
Qed.

Lemma old_artwork_path id ph cr rs :
  (if bool_decide (retired_artwork_path (row id ph cr rs) = []) then previous_artwork_path (row id ph cr rs)
   else retired_artwork_path (row id ph cr rs)) = optional_absolute_path store old_artwork.
Proof using Hpaths.
  unfold old_artwork. simpl. unfold optional_absolute_path.
  destruct (decide (retired_artwork p = [])) as [E|E].
  - by rewrite !(bool_decide_eq_true_2 (retired_artwork p = [])) by done.
  - rewrite !(bool_decide_eq_false_2 (retired_artwork p = [])) by done.
    destruct (decide (artwork_mode p = ModeReplace)) as [Hm|Hm].
    + by rewrite bool_decide_eq_false_2 by (by apply absolute_nonempty, Hpaths).
    + by rewrite (retired_artwork_none Hpaths Hm) in E.
Qed.

Lemma old_artwork_relative : old_artwork ≠ [] →
  optional_absolute_path store old_artwork ≠ [] ∧ relative_path store (optional_absolute_path store old_artwork) = Ok old_artwork.
Proof using Hp Hpaths.
  intros (Hc & _)%old_artwork_key. pose proof (optional_absolute store old_artwork (root_good Hpaths) (root_some Hpaths) (or_intror Hc)) as Hr.
  pose proof (absolute_nonempty _ Hc) as Hne. unfold optional_relative_path, optional_absolute_path in *.
  rewrite (bool_decide_eq_false_2 (old_artwork = [])) in * by (by apply clean_nonempty). split; [done|]. by rewrite bool_decide_eq_false_2 in Hr.
Qed.

(** [complete_replacement_files] takes away the old files only. *)
Lemma wp_complete_files id ph cr rs made s : done_files (disk s) →
  wp (complete_replacement_files store never (row id ph cr rs) (r_with_created p made))
    (λ r s', done_files (disk s') ∧ db s' = db s ∧ (r.2 = None → file_at (disk s') (names (retired_audio p)) = None))
    (λ _ _, False) (λ s', done_files (disk s') ∧ db s' = db s) s.
Proof using Hp Hpaths Hstore Laws.
  intros Hdone. destruct (keys_in p) as (_ & _ & _ & Hkr & _). destruct retired_apart as [Hra Hrw].
  apply wp_bind, wp_catch.
  eapply (wp_remove_managed (replacement_keys p) store _ (retired_audio p)); [|apply Hdone|done|..].
  { apply relative_absolute; apply Hpaths. }
  { intros s' [Hd Hdb]. rewrite Hd, Hdb. split; [|done]. intros e. apply wp_ret. split; [by rewrite Hd|].
    split; [done|]. done. }
  intros s1 (Hs1 & Hdb1 & Hf1) _.
  assert (done_files (disk s1)) as Hdone1 by (by eapply done_without).
  assert (file_at (disk s1) (names (retired_audio p)) = None) as Hret1.
  { rewrite Hf1. unfold without. by rewrite decide_True. }
  cbv zeta. set (finish := λ deleted : Z, _).
  assert (∀ deleted s2, done_files (disk s2) → db s2 = db s → file_at (disk s2) (names (retired_audio p)) = None →
    wp (finish deleted) (λ r s', done_files (disk s') ∧ db s' = db s ∧
        (r.2 = None → file_at (disk s') (names (retired_audio p)) = None))
      (λ _ _, False) (λ s', done_files (disk s') ∧ db s' = db s) s2) as Hfinish.
  { intros deleted s2 Hd2 Hdb2 Hret2. apply wp_bind, wp_catch, wp_open_root. intros s3 [Hd3 Hdb3].
    assert (done_files (disk s3) ∧ db s3 = db s) as H3 by (rewrite Hd3; split; [done|congruence]).
    split; [|split; [|done]].
    - apply wp_bind, wp_errs. eapply gentle_use; [apply (gentle_previous p Hp)|apply H3|].
      intros s4 (Hs4 & Hdb4 & Hf4).
      assert (done_files (disk s4) ∧ db s4 = db s ∧ file_at (disk s4) (names (retired_audio p)) = None) as H4.
      { rewrite Hf4, Hd3. split; [|split; [destruct H3; congruence|done]]. destruct H3. by eapply done_same. }
      split; [|split; [|split; apply H4]]; intros; apply wp_ret; by destruct H4 as (? & ? & ?).
    - intros e _. apply wp_ret. destruct H3. split; [done|]. split; [done|]. by rewrite Hd3. }
  rewrite old_artwork_path.
  apply wp_if; intros Hart.
  - by apply Hfinish.
  - apply bool_decide_eq_false in Hart. assert (old_artwork ≠ []) as Hold by (by intros E; rewrite E in Hart).
    destruct (old_artwork_key Hold) as (Hc & Hko & Hoa & How).
    apply wp_bind, wp_catch. eapply (wp_remove_managed (replacement_keys p) store _ old_artwork); [|done|done|..].
    { by apply old_artwork_relative. }
    { intros s2 [Hd2 Hdb2]. rewrite Hd2, Hdb2. split; [|split; [done|congruence]]. intros e. apply wp_ret.
      rewrite Hd2. split; [done|]. split; [congruence|done]. }
    intros s2 (Hs2 & Hdb2 & Hf2) _. apply Hfinish; [by eapply done_without|congruence|].
    rewrite Hf2. unfold without. case_decide; done.
Qed.

Lemma committed_db id s s' : committed id s → disk s' = disk s → db s' = db s → committed id s'.
Proof. intros [? ?] Hd Hdb. unfold committed. by rewrite Hd, Hdb. Qed.

(** [finalize_replacement] finishes the job and the journal together. *)
Lemma wp_finalize id s : fresh id → committed id s →
  file_at (disk s) (names (retired_audio p)) = None →
  wp (finalize_replacement job id)
    (λ _ s', completed id s') (λ _ s', committed id s' ∨ completed id s')
    (λ s', committed id s') s.
Proof.
  intros Hfresh Hc Hret. assert (∀ s', disk s' = disk s → db s' = db s → committed id s') as Hback
    by (intros; by eapply committed_db).
  destruct Hc as (Hfiles & cr & rs & l & Hcr & Hl & Hdb).
  apply wp_transaction.
  { intros s' [Hd Hdb']. split; [intros e _; left|]; by apply Hback. }
  intros s1 [Hd1 Hdb1].
  assert (∀ s2, disk s2 = disk s → ∀ s3, disk s3 = disk s2 → db s3 = db s → committed id s3) as Hundo.
  { intros s2 Hd2 s3 Hd3 Hdb3. apply Hback; congruence. }
  apply wp_bind, wp_sql.
  { intros s2 [Hd2 _]. split; [intros e _ s3 Hd3 Hdb3; left|intros s3 Hd3 Hdb3];
      (eapply (Hundo s2); [congruence|done|done]). }
  intros marked d s2 Hrun Hd2 Hdb2.
  assert (∀ (e : Error) s3, disk s3 = disk s2 → db s3 = db s → committed id s3 ∨ completed id s3) as HX2.
  { intros _ s3 Hd3 Hdb3. left. by eapply (Hundo s2); [congruence|..]. }
  split; [|intros e _; by apply (HX2 e)]. rewrite Hdb1, Hdb in Hrun. cbn [jobs with_row] in Hrun.
  destruct (update_where _ _ (jobs d0)) as [rows count] eqn:Erows. injection Hrun as <- <-.
  assert (finalized_jobs = rows) as Hjobs by (unfold finalized_jobs; by rewrite Erows).
  apply wp_bind. unfold require_one. apply wp_if; intros Hone.
  2: { apply wp_fail. by apply (HX2 (sentinel InvalidState)). }
  apply wp_ret, wp_bind. eapply wp_update_last; [exact Hdb2|..].
  - eapply Forall_impl; [exact Hfresh|]. intros r Hr. row_selected.
  - intros s3 [Hd3 _]. split; [intros e _ s4 Hd4 Hdb4; left|intros s4 Hd4 Hdb4];
      (eapply (Hundo s3); [congruence|done|done]).
  - intros s3 _ Hd3 Hdb3. assert (disk s3 = disk s) as Hd3' by congruence.
    split; [|intros e _ s4 Hd4 Hdb4; left; eapply (Hundo s3); done].
    apply wp_bind, wp_on_library.
    { intros s4 [Hd4 _]. split; [intros e _ s5 Hd5 Hdb5; left|intros s5 Hd5 Hdb5];
        (eapply (Hundo s4); [congruence|done|done]). }
    intros [] l' s4 Harch Hd4 Hdb4. rewrite Hdb3 in Harch, Hdb4.
    assert (∀ s5, disk s5 = disk s4 → db s5 = db s4 → completed id s5) as Hdone.
    { intros s5 Hd5 Hdb5. assert (disk s5 = disk s) as E by congruence.
      unfold completed. rewrite E. split; [done|]. split; [done|].
      exists cr, (if bool_decide (rs = []) then st "replacement completed" else rs), l, l'.
      rewrite Hjobs. split; [done|]. split; [exact Harch|]. by rewrite Hdb5, Hdb4. }
    apply wp_ret. split; [by apply Hdone|].
    split; [intros e _; right; by apply Hdone|].
    intros s5 Hd5 Hdb5. split; [intros e _; left|]; eapply (Hundo s4); congruence.
Qed.

Lemma wp_complete id j made s : fresh id → j_id j = id → (∃ ph cr rs, j = row id ph cr rs) → committed id s →
  wp (complete_replacement store job j (r_with_created p made))
    (λ _ s', completed id s') (λ _ s', committed id s' ∨ completed id s') (λ s', committed id s') s.
Proof using Hp Hpaths Hstore Laws.
  intros Hfresh Hj (ph & cr' & rs' & ->) Hc. pose proof Hc as (Hfiles & cr & rs & l & Hcr & Hl & Hdb).
  assert (∀ s', done_files (disk s') → db s' = db s → committed id s') as Hkeep.
  { intros s' Hd' Hdb'. split; [done|]. exists cr, rs, l. by rewrite Hdb'. }
  apply wp_bind. eapply wp_conseq; [by apply wp_complete_files|..]; [|done|intros s1 [? ?]; by apply Hkeep].
  intros [deleted [e|]] s1 (Hd1 & Hdb1 & Hret).
  - apply wp_bind, wp_errs. eapply wp_update_last; [rewrite Hdb1; exact Hdb|..].
    + eapply Forall_impl; [exact Hfresh|]. intros r Hr. row_selected.
    + intros s2 [Hd2 Hdb2].
      assert (committed id s2) by (apply Hkeep; [by rewrite Hd2|congruence]).
      split; [intros e' _; apply wp_fail_join; intros _; by left|done].
    + intros s2 _ Hd2 Hdb2.
      assert (committed id s2).
      { split; [by rewrite Hd2|]. eexists cr, _, l. split; [done|]. split; [done|]. exact Hdb2. }
      split; [|intros e' _]; apply wp_fail_join; intros _; by left.
  - apply wp_bind. simpl in Hret.
    assert (file_at (disk s1) (names (retired_audio p)) = None) as Hret' by auto.
    eapply wp_conseq; [eapply wp_finalize; [done|by apply Hkeep|done]|..]; [|done|by auto].
    intros r s2 H2. by apply wp_ret.
Qed.

(** ** The whole commit *)

Definition before s : Prop := stays waiting artwork_rest f0 d0 s.

Definition safe s : Prop :=
  before s ∨ ∃ id, fresh id ∧ (begun id s ∨ committed id s ∨ completed id s).

Lemma safe_begun id s : fresh id → begun id s → safe s.
Proof. unfold safe. eauto 10. Qed.

Lemma wp_prepare s : before s →
  wp (prepare_replacement_journal store job state)
    (λ j s', ∃ id, fresh id ∧ j = prepared_journal store job state id ∧
       stays_with (opened id (.= Prepared)) waiting artwork_rest f0 s')
    (λ _ s', safe s') safe s.
Proof.
  intros Hb. assert (∀ s', same s s' → safe s') as Hsame by (intros s' H'; left; by eapply stays_same).
  apply wp_bind, wp_ask. intros s1 H1. set (id := new_uuid (clock s)).
  apply wp_bind, wp_sql.
  - intros s2 H2. split; [intros e _|]; apply Hsame; by eapply same_trans.
  - intros [] d s2 Hrun Hd2 Hdb2. rewrite (proj2 H1) in Hrun. assert (db s = d0) as Hdb by apply Hb.
    rewrite Hdb in Hrun. unfold insert_replacement in Hrun. destruct (existsb _ _) eqn:Ex; [done|].
    injection Hrun as <-.
    assert (fresh id) as Hfresh.
    { apply Forall_forall. intros r Hr E. apply not_true_iff_false in Ex. apply Ex, existsb_exists.
      exists r. split; [by apply list_elem_of_In|]. by rewrite bool_decide_eq_true_2. }
    assert (stays_with (opened id (.= Prepared)) waiting artwork_rest f0 s2) as H2.
    { exists (db s2). split.
      - rewrite Hdb2. exists Prepared, false, []. split; [done|]. split; [done|]. reflexivity.
      - eapply stays_db; [exact Hb|]. by rewrite Hd2, (proj1 H1). }
    split; [apply wp_ret; by exists id|]. intros e _. apply (safe_begun id); [done|].
    eapply (to_pending id Prepared); [apply early_phases|exact H2|by left|apply artwork_rest_kept].
Qed.

Lemma opened_row id P A W s : stays_with (opened id P) A W f0 s →
  ∃ ph cr rs js l, P ph ∧ db s = with_row (row id ph cr rs) js l.
Proof. intros (d & (ph & cr & rs & HP & _ & ->) & Hst). exists ph, cr, rs. do 2 eexists. split; [done|]. apply Hst. Qed.

(** After a failed commit, the phase on record decides. *)
Lemma wp_commit_failed id made j e (Q : TrackReplacementResult → Machine DB → Prop) s :
  fresh id → may_create p made → j_id j = id → swapped_in id s ∨ committed id s →
  wp (persisted ← catch (get_replacement_journal (j_id j));
      match persisted with
      | inl read => fail_join [Some e; Some read]
      | inr row =>
          if bool_decide (j_phase row = Swapped)
          then abandon store j (r_with_created p made) (st "database commit failed") e
          else fail e
      end) Q (λ _ s', safe s') safe s.
Proof using Hp Hstore Laws.
  intros Hfresh Hm <- Hs.
  assert (∀ s', swapped_in (j_id j) s' ∨ committed (j_id j) s' → safe s') as Hsafe.
  { intros s' [H'|H']; [eapply safe_begun; [done|]; left; by apply swapped_pending|].
    right. exists (j_id j). auto. }
  assert (∃ ph cr rs js l, db s = with_row (row (j_id j) ph cr rs) js l ∧
    (ph = Swapped → swapped_in (j_id j) s)) as (ph & cr & rs & js & l & Hdb & Hph).
  { destruct Hs as [Hsw|Hc].
    - destruct (opened_row _ _ _ _ _ Hsw) as (ph & cr & rs & js & l & -> & Hdb). eauto 10.
    - destruct Hc as (_ & cr & rs & l & _ & _ & Hdb). do 5 eexists. split; [exact Hdb|done]. }
  assert (∀ s', same s s' → swapped_in (j_id j) s' ∨ committed (j_id j) s') as Hsame.
  { intros s' H'. destruct Hs as [Hsw|Hc]; [left; by eapply stays_with_same|right].
    destruct H'. by eapply committed_db. }
  apply wp_bind, wp_catch.
  change (j_id j) with (j_id (row (j_id j) ph cr rs)) at 1. eapply wp_get_journal; [exact Hdb|done|].
  intros s1 H1. split; [|split; [intros e' _; apply wp_fail_join; intros _; by apply Hsafe, Hsame|by apply Hsafe, Hsame]].
  apply wp_if; intros E.
  - apply bool_decide_eq_true in E. simpl in E.
    assert (pending (j_id j) s1) as Hpend.
    { apply swapped_pending. eapply stays_with_same; [by apply Hph|done]. }
    eapply wp_conseq; [by apply (wp_give_up (j_id j) made _ _ _ Q)|done| |].
    + intros ? s2 H2. by eapply safe_begun.
    + intros s2 H2. by eapply safe_begun.
  - apply wp_fail. by apply Hsafe, Hsame.
Qed.

Lemma wp_commit_replacement s : before s →
  wp (commit_replacement store job state)
    (λ _ s', ∃ id, fresh id ∧ completed id s')
    (λ _ s', safe s') safe s.
Proof using Hp Hpaths Hstore Laws.
  intros Hb. apply wp_bind. eapply wp_conseq; [by apply wp_prepare|..]; [|done|done].
  intros j s1 (id & Hfresh & -> & H1). apply wp_bind.
  assert (∀ s', begun id s' → safe s') as Hbegun by (intros; by eapply safe_begun).
  eapply wp_conseq; [by apply (wp_place_and_verify id)|..]; [|intros ? s'; apply Hbegun|exact Hbegun].
  intros p' s2 (made & -> & Hm & H2). apply wp_bind.
  eapply wp_conseq; [by apply (wp_swap_and_stream id made)|..]; [|intros ? s'; apply Hbegun|exact Hbegun].
  intros [] s3 [H3 Hdig]. apply wp_bind, wp_catch.
  eapply wp_conseq; [by apply (wp_commit_data id made)|..].
  - intros inv s4 H4.
    eapply wp_conseq; [apply (wp_complete id _ made); [done|done|by exists Prepared, false, []|done]|..].
    + intros r s5 H5. by exists id.
    + intros e s5 H5. right. exists id. tauto.
    + intros s5 H5. right. exists id. tauto.
  - intros e s4 H4. by apply (wp_commit_failed id made).
  - intros s4 H4. apply Hbegun. left. by apply swapped_pending.
Qed.

(** ** Recovery *)

Lemma placement_of_row id ph cr rs :
  replacement_placement_from_journal store (row id ph cr rs) = Ok (r_with_created p cr).
Proof using Hpaths.
  destruct Hpaths as [Hr Hn Hpe Hpr Hre Ha Hw Hs Hpa Hl Hra Hrn].
  assert (∀ q, clean q → optional_relative_path store (absolute_path store q) = Ok q) as Habs.
  { intros q Hq. pose proof (absolute_nonempty q Hq) as Hne. unfold optional_relative_path.
    rewrite bool_decide_eq_false_2 by done. by apply relative_absolute. }
  assert (retired_artwork p = [] ∨ clean (retired_artwork p)) as Hra'.
  { destruct (decide (artwork_mode p = ModeReplace)); [right; by apply Hra|auto]. }
  unfold replacement_placement_from_journal. cbn [row r_set prepared_journal staged_file_path pending_audio_path
    audio_file_path previous_audio_path retired_audio_path artwork_file_path pending_artwork_path
    previous_artwork_path retired_artwork_path].
  rewrite Hs, Ha, Hw, !Habs by done. cbn [mbind outcome_bind].
  rewrite !optional_absolute by done. reflexivity.
Qed.

(** Before the database commit, recovery rolls back. *)
Lemma wp_recover_early id ph cr rs s : fresh id → early ph → may_create p cr → pending id s →
  wp (recover_replacement store (row id ph cr rs)) (λ _ s', rolled id s')
    (λ _ s', faulty ∧ begun id s') (begun id) s.
Proof using Hp Hpaths Hstore Laws.
  intros Hfresh Hph Hcr Hs. unfold recover_replacement. rewrite placement_of_row.
  assert (∀ reason, wp (rollback_replacement_files store (row id ph cr rs) (r_with_created p cr) reason)
    (λ _ s', rolled id s') (λ _ s', faulty ∧ begun id s') (begun id) s) as Hroll
    by (intros; by apply wp_rollback_files).
  unfold early in Hph. repeat (apply elem_of_cons in Hph as [->|Hph]); try apply Hroll.
  by apply not_elem_of_nil in Hph.
Qed.

Context (Hjob : head (filter (λ j, job_id j = job_id job) (jobs d0)) = Some job).

Lemma wp_get_job (Q : ImportJob → Machine DB → Prop) (X : Error → Machine DB → Prop)
    (C : Machine DB → Prop) s : jobs (db s) = jobs d0 →
  (∀ s', same s s' → Q job s' ∧ (faulty → ∀ e, X e s') ∧ C s') →
  wp (get_job (job_id job)) Q X C s.
Proof using Hjob.
  intros Hdb HQ. apply wp_bind, wp_sql.
  - intros s' H'. destruct (HQ s' H') as (? & HX & ?). split; [|done]. intros e [Hf|]; [by apply HX|done].
  - intros rows d s' [= <- <-] Hd Hdb'. destruct (HQ s') as (? & HX & ?); [by split|].
    split; [|intros e Hf; by apply HX]. rewrite Hdb, Hjob. done.
Qed.

(** After it, recovery finishes. *)
Lemma wp_recover_committed id cr rs s : fresh id → committed id s →
  wp (recover_replacement store (row id DatabaseCommitted cr rs))
    (λ _ s', completed id s') (λ _ s', committed id s' ∨ completed id s') (λ s', committed id s') s.
Proof using Hp Hpaths Hstore Hjob Laws.
  intros Hfresh Hc. unfold recover_replacement. rewrite placement_of_row. cbn [j_phase row r_set j_job_id prepared_journal].
  assert (∀ s', same s s' → committed id s') as Hsame by (intros s' [? ?]; by eapply committed_db).
  apply wp_bind, wp_get_job.
  { destruct Hc as (_ & ? & ? & ? & _ & _ & ->). done. }
  intros s1 H1. split; [|split; [intros _ e; left|]; by apply Hsame].
  apply wp_bind. eapply wp_conseq; [apply (wp_complete id _ cr); [done|done|by eexists _, _, _|by apply Hsame]|..].
  - intros r s2 H2. by apply wp_ret.
  - done.
  - done.
Qed.

(** The directory of [q] is one the replacement does not empty: that of a new file, or of
    a file that is not its own. *)
Definition dir_kept (q : str) : Prop :=
  init (names q) = init (names (r_audio p)) ∨
  (artwork_mode p = ModeReplace ∧ init (names q) = init (names (r_artwork p))) ∨
  ∃ k y, (k ∉ replacement_keys p) ∧ init k = init (names q) ∧ f0 k = Some y.

(** Finishing only fails with the host when the directories of what is to be deleted are
    not emptied, what is to be deleted is what the journal says, the job is the one that
    was confirmed, and the Library archives it. *)
Record finishable : Prop := {
  audio_directory : dir_kept (retired_audio p);
  artwork_directory : old_artwork ≠ [] → dir_kept old_artwork;
  previous_hash : digest_hex previous = row_content_sha256 (state_target state);
  artwork_hash : artwork_mode p = ModeReplace → digest_hex artwork = row_artwork_sha256 (state_target state);
  left_hash : artwork_mode p ≠ ModeReplace → previous_artwork p ≠ [] → ∀ y,
    f0 (names (previous_artwork p)) = Some y → digest_hex y = row_artwork_sha256 (state_target state);
  clean_dirs : ∀ q, q = retired_audio p ∨ (q = old_artwork ∧ q ≠ []) →
    ∃ ns n, q = path_of (ns ++ [n]) ∧ ns ≠ [] ∧ Forall good_name (ns ++ [n]);
  one_job : (update_where (λ r, bool_decide (job_id r = job_id job)
     && bool_decide (job_status r = STATUS_AWAITING_CONFIRMATION)
     && bool_decide (job_revision r = job_revision job)) job_replaced (jobs d0)).2 = 1%nat;
  archivable : ∀ r l, written l → ∃ l',
    archive_standalone (job_id job) HISTORY_RESULT_COMPLETED (with_row r finalized_jobs l) = inr (tt, l')
}.
Context (Hfin : finishable).

Lemma kept_dir q s : done_files (disk s) → dir_kept q → entry (disk s) (init (names q)) = Some EDir.
Proof using Laws.
  intros (Hs & (_ & Hcan & _) & Hart & Hf) [Hq|[[Hm Hq]|(k & y & Hk & <- & Hy)]].
  - rewrite Hq. by eapply dir_of_file.
  - rewrite Hq. destruct (Hart Hm) as ([y Hy] & _). by eapply dir_of_file.
  - unfold replacement_keys in Hk. rewrite not_elem_of_app in Hk. destruct Hk as [Hkw Hkl].
    destruct (Hf k Hkw) as [Hy'|[? _]]; [|done]. eapply dir_of_file; [done|by rewrite Hy'].
Qed.

(** The artwork that is removed has the hash the journal says. *)
Lemma old_artwork_hash id ph cr rs d x : done_files d → old_artwork ≠ [] → file_at d (names old_artwork) = Some x →
  digest_hex x = previous_artwork_sha256 (row id ph cr rs).
Proof using Hp Hpaths Hfin.
  intros (_ & _ & Hart & Hf) Hne Hx.
  assert (previous_artwork p ≠ [] → previous_artwork_sha256 (row id ph cr rs) = row_artwork_sha256 (state_target state)) as Hrow.
  { intros Hprev. destruct (left_clean Hpaths) as [|Hc]; [done|]. cbn. unfold optional_absolute_path.
    rewrite (bool_decide_eq_false_2 (previous_artwork p = [])) by done. by rewrite bool_decide_eq_false_2 by (by apply absolute_nonempty). }
  unfold old_artwork in Hne, Hx. destruct (decide (artwork_mode p = ModeReplace)) as [Hm|Hm].
  - destruct (retired_artwork_clean Hpaths Hm) as [Hl Hc]. rewrite Hrow by (by apply clean_nonempty).
    rewrite bool_decide_eq_false_2 in Hx by (by apply clean_nonempty).
    destruct (Hart Hm) as (_ & _ & Hrt). rewrite <-(artwork_hash Hfin Hm). f_equal. destruct Hrt as [Hrt|Hrt]; congruence.
  - rewrite (retired_artwork_none Hpaths Hm), bool_decide_eq_true_2 in Hne, Hx by done. rewrite Hrow by done.
    assert (names (previous_artwork p) ∈ left_artwork p) as Hl.
    { unfold left_artwork. rewrite bool_decide_eq_true_2 by done. by left. }
    destruct (Hf (names (previous_artwork p))) as [Hf0|[_ Hn]]; [by apply (gp_left _ Hp)| |congruence].
    apply (left_hash Hfin Hm Hne). congruence.
Qed.

Lemma wp_complete_files_good id ph cr rs made s : done_files (disk s) →
  wp (complete_replacement_files store never (row id ph cr rs) (r_with_created p made))
    (λ r _, r.2 = None ∨ faulty) (λ _ _, False) (λ _, True) s.
Proof using Hp Hpaths Hstore Hfin Laws.
  intros Hdone. destruct (keys_in p) as (_ & _ & _ & Hkr & _). destruct retired_apart as [Hra Hrw].
  pose proof Hdone as (Hs & (_ & _ & _ & Hret & _) & _).
  destruct (clean_dirs Hfin (retired_audio p)) as (ns & n & Eret & Hns & Hgood); [by left|].
  pose proof (kept_dir _ _ Hdone (audio_directory Hfin)) as Hdir. rewrite Eret, names_path_of, init_snoc in Hdir by done.
  pose proof Hkr as Hkr'. rewrite Eret, names_path_of in Hkr' by done.
  apply wp_bind, wp_catch.
  eapply (wp_remove_managed_good (replacement_keys p) store _ ns n); try done.
  { rewrite <-Eret. apply relative_absolute; apply Hpaths. }
  { intros x Hx. rewrite Eret, names_path_of in Hret by done. cbn. rewrite <-(previous_hash Hfin).
    destruct Hret as [Hret|Hret]; congruence. }
  { intros s1 H1. split; [|done]. intros Hf e. apply wp_ret. by right. }
  intros s1 (Hs1 & Hdb1 & Hf1) _. rewrite <-(names_path_of (ns ++ [n])), <-Eret in Hf1 by done.
  assert (done_files (disk s1)) as Hdone1 by (by apply (done_without (names (retired_audio p)) (disk s))).
  cbv zeta. set (finish := λ deleted : Z, _).
  assert (∀ deleted s2, sound (replacement_keys p) (disk s2) →
    wp (finish deleted) (λ r _, r.2 = None ∨ faulty) (λ _ _, False) (λ _, True) s2) as Hfinish.
  { intros deleted s2 Hs2. apply wp_bind, wp_catch, wp_open_root. intros s3 [Hd3 Hdb3].
    split; [|split; [intros e [Hf|Hi]; [apply wp_ret; by right|congruence]|done]].
    apply wp_bind, wp_errs. eapply gentle_use; [apply (gentle_previous p Hp)|by rewrite Hd3|].
    intros s4 _. split; [intros _; apply wp_ret; by left|split; [intros Hf e; apply wp_ret; by right|done]]. }
  rewrite old_artwork_path. apply wp_if; intros Hart; [by apply Hfinish|].
  apply bool_decide_eq_false in Hart. assert (old_artwork ≠ []) as Hold by (by intros E; rewrite E in Hart).
  destruct (old_artwork_key Hold) as (_ & Hko & _). destruct (old_artwork_relative Hold) as [_ Hrel].
  destruct (clean_dirs Hfin old_artwork) as (ns' & n' & Er & Hns' & Hgood'); [by right|].
  pose proof (kept_dir _ _ Hdone1 (artwork_directory Hfin Hold)) as Hdir1.
  pose proof (λ x, old_artwork_hash id ph cr rs _ x Hdone1 Hold) as Hhash.
  rewrite Er, names_path_of in Hko, Hhash, Hdir1 by done. rewrite init_snoc in Hdir1.
  apply wp_bind, wp_catch. eapply (wp_remove_managed_good (replacement_keys p) store _ ns' n'); try done.
  + by rewrite <-Er.
  + intros s2 H2. split; [|done]. intros Hf e. apply wp_ret. by right.
  + intros s2 (Hs2 & _) _. by apply Hfinish.
Qed.

Lemma wp_finalize_good id s : fresh id → committed id s →
  wp (finalize_replacement job id) (λ _ _, True) (λ _ _, faulty) (λ _, True) s.
Proof using Hfin.
  intros Hfresh (_ & cr & rs & l & _ & Hl & Hdb). apply wp_transaction; [done|].
  intros s1 [_ Hdb1]. apply wp_bind, wp_sql.
  { intros s2 _. split; [|done]. intros e [Hf|Hn]; [by intros|].
    exfalso. by destruct (update_where _ _ (jobs (db s1))). }
  intros marked d s2 Hrun _ Hdb2. split; [|by intros e Hf].
  rewrite Hdb1, Hdb in Hrun. cbn [jobs with_row] in Hrun. pose proof (one_job Hfin) as Hone.
  pose proof (λ r, archivable Hfin r l Hl) as Harchive. unfold finalized_jobs in Harchive.
  destruct (update_where _ _ (jobs d0)) as [rows count]. simpl in Hone, Harchive. subst count. injection Hrun as <- <-.
  apply wp_bind. unfold require_one. rewrite bool_decide_eq_true_2 by done. apply wp_ret, wp_bind.
  eapply wp_update_last; [exact Hdb2|..].
  - eapply Forall_impl; [exact Hfresh|]. intros r Hr. row_selected.
  - intros s3 _. split; [|done]. intros e [Hf|Hno]; [by intros|]. exfalso. revert Hno. simpl.
    by rewrite !bool_decide_eq_true_2.
  - intros s3 _ _ Hdb3. split; [|by intros e Hf]. apply wp_bind, wp_on_library.
    + intros s4 _. split; [|done]. intros e [Hf|Hno]; [by intros|].
      edestruct Harchive as [l' Hl']. rewrite Hdb3 in Hno.
      pose proof (eq_trans (eq_sym Hno) Hl') as Hfalse. discriminate Hfalse.
    + intros [] l' s4 _ _ _. apply wp_ret. done.
Qed.

Lemma wp_complete_good id ph cr rs made s : fresh id → committed id s →
  wp (complete_replacement store job (row id ph cr rs) (r_with_created p made)) (λ _ _, True) (λ _ _, faulty)
    (λ _, True) s.
Proof using Hp Hpaths Hstore Hfin Laws.
  intros Hfresh Hc. pose proof Hc as (Hfiles & cr' & rs' & l & Hcr & Hl & Hdb). apply wp_bind.
  eapply wp_conseq; [apply wp_and; [by apply wp_complete_files|by apply wp_complete_files_good]|..];
    [|by intros ? ? []|done].
  intros [deleted [e|]] s1 [(Hd1 & Hdb1 & _) [E|Hf]]; [done| |..].
  - apply wp_bind, wp_errs. eapply wp_update_last; [rewrite Hdb1; exact Hdb|..].
    + eapply Forall_impl; [exact Hfresh|]. intros r Hr. row_selected.
    + intros s2 _. split; [intros e' _; by apply wp_fail_join|done].
    + intros s2 _ _ _. split; [|intros e' _]; by apply wp_fail_join.
  - apply wp_bind. eapply wp_conseq; [apply (wp_finalize_good id); [done|]|..]; try done.
    split; [done|]. exists cr', rs', l. by rewrite Hdb1.
  - apply wp_bind. eapply wp_conseq; [apply (wp_finalize_good id); [done|]|..]; try done.
    split; [done|]. exists cr', rs', l. by rewrite Hdb1.
Qed.

(** What recovery settles on: nothing was begun, or everything is undone, or all
    is finished. *)
Definition settled_state s : Prop := before s ∨ ∃ id, fresh id ∧ (rolled id s ∨ completed id s).

Context (Hclosed : Forall (λ r, is_open (j_phase r) = false) (replacements d0)).

Lemma open_rows (rows : list ReplacementJournal) : Forall (λ r, is_open (j_phase r) = false) rows →
  selected_journals AllIncomplete rows = [].
Proof.
  intros Hrows. cbn [selected_journals]. induction Hrows as [|r rows Hr _ IH]; [done|].
  rewrite filter_cons_False; [exact IH|by rewrite Hr].
Qed.

Lemma selected_last id ph cr rs :
  selected_journals AllIncomplete (replacements d0 ++ [row id ph cr rs]) =
  if is_open ph then [row id ph cr rs] else [].
Proof using Hclosed.
  pose proof (open_rows _ Hclosed) as Hno. cbn [selected_journals] in *. rewrite filter_app, Hno.
  cbn [j_phase row r_set]. destruct (is_open ph) eqn:E.
  - by rewrite filter_cons_True.
  - by rewrite filter_cons_False by (change (is_open ph ≠ true); by rewrite E).
Qed.

Lemma safe_same s s' : safe s → same s s' → safe s'.
Proof.
  intros [Hb|(id & Hfresh & [[Hs|Hs]|[Hs|Hs]])] Hss.
  - left. by eapply stays_same.
  - apply (safe_begun id); [done|]. left. by eapply stays_with_same.
  - apply (safe_begun id); [done|]. right. by eapply stays_with_same.
  - right. exists id. split; [done|]. right; left. destruct Hss. by eapply committed_db.
  - right. exists id. split; [done|]. right; right. destruct Hss as [Hd Hdb].
    unfold completed in *. by rewrite Hd, Hdb.
Qed.

(** Which journals a start finds to recover. *)
Lemma safe_rows s : safe s →
  (selected_journals AllIncomplete (replacements (db s)) = [] ∧ settled_state s) ∨
  ∃ id ph cr rs, fresh id ∧ selected_journals AllIncomplete (replacements (db s)) = [row id ph cr rs] ∧
    ((early ph ∧ may_create p cr ∧ pending id s) ∨ (ph = DatabaseCommitted ∧ committed id s)).
Proof using Hclosed.
  intros [Hb|(id & Hfresh & [[Hs|Hs]|[Hs|Hs]])].
  - left. split; [|by left]. assert (db s = d0) as -> by apply Hb. by apply open_rows.
  - right. destruct Hs as (d & (ph & cr & rs & Hph & Hcr & ->) & Hst). exists id, ph, cr, rs.
    split; [done|]. assert (db s = with_row (row id ph cr rs) (jobs d0) (library d0)) as Hdb by apply Hst.
    rewrite Hdb. cbn [replacements with_row]. rewrite selected_last. split.
    + unfold early in Hph. repeat (apply elem_of_cons in Hph as [->|Hph]); try done.
      by apply not_elem_of_nil in Hph.
    + left. split; [done|]. split; [done|]. eexists. split; [|exact Hst]. by exists ph, cr, rs.
  - left. split; [|right; exists id; auto]. destruct (opened_row _ _ _ _ _ Hs) as (ph & cr & rs & js & l & -> & Hdb).
    rewrite Hdb. apply selected_last.
  - right. pose proof Hs as (_ & cr & rs & l & _ & _ & Hdb). exists id, DatabaseCommitted, cr, rs.
    split; [done|]. rewrite Hdb. cbn [replacements with_row]. rewrite selected_last. auto.
  - left. split; [|right; exists id; auto]. pose proof Hs as (_ & _ & cr & rs & l & l' & _ & _ & Hdb).
    rewrite Hdb. apply selected_last.
Qed.

Lemma wp_recover id ph cr rs s : fresh id →
  (early ph ∧ may_create p cr ∧ pending id s) ∨ (ph = DatabaseCommitted ∧ committed id s) →
  wp (recover_replacement store (row id ph cr rs)) (λ _ s', settled_state s') (λ _ s', faulty ∧ safe s') safe s.
Proof using Hp Hpaths Hstore Hjob Hfin Laws.
  intros Hfresh [(Hph & Hcr & Hs)|(-> & Hs)].
  - eapply wp_conseq; [by apply wp_recover_early|..].
    + intros ? s1 H1. right. exists id. auto.
    + intros ? s1 [Hf H1]. split; [done|]. by apply (safe_begun id).
    + intros s1 H1. by apply (safe_begun id).
  - assert (wp (recover_replacement store (row id DatabaseCommitted cr rs)) (λ _ _, True) (λ _ _, faulty)
      (λ _, True) s) as Hgood.
    { unfold recover_replacement. rewrite placement_of_row. cbn [j_phase row r_set j_job_id prepared_journal].
      apply wp_bind, wp_get_job.
      { destruct Hs as (_ & ? & ? & ? & _ & _ & ->). done. }
      intros s1 [Hd1 Hdb1]. split; [|by split; [intros Hf e|]].
      apply wp_bind. eapply wp_conseq; [apply wp_complete_good; [done|by eapply committed_db]|..]; done. }
    eapply wp_conseq; [apply wp_and; [by apply wp_recover_committed|exact Hgood]|..].
    + intros ? s1 [H1 _]. right. exists id. auto.
    + intros e s1 [H1 Hf]. split; [done|]. right. exists id. tauto.
    + intros s1 [H1 _]. right. exists id. tauto.
Qed.

(** Recovery at the start of the process. *)
Lemma wp_recover_pending s : safe s →
  wp (recover_pending_track_replacements store) (λ _ s', settled_state s') (λ _ s', faulty ∧ safe s') safe s.
Proof using Hp Hpaths Hstore Hjob Hfin Hclosed Laws.
  intros Hs. apply wp_bind, wp_sql.
  - intros s1 H1. assert (safe s1) by (by eapply safe_same). split; [|done]. by intros e [Hf|].
  - intros rows d s1 [= <- <-] Hd Hdb. assert (safe s1) as H1 by (eapply safe_same; [exact Hs|by split]).
    rewrite <-Hdb. split; [|by intros e Hf].
    change (filter _ (replacements (db s1))) with (selected_journals AllIncomplete (replacements (db s1))).
    destruct (safe_rows s1 H1) as [[-> Hset]|(id & ph & cr & rs & Hfresh & -> & Hcase)].
    + by apply wp_ret.
    + apply wp_bind, wp_catch. eapply wp_conseq; [by apply wp_recover|..]; [| |done].
      * intros [] s2 H2. by apply wp_ret.
      * intros e s2 H2. cbn [recover_journals]. apply wp_join_result; [|by intros].
        intros Hj. exfalso. by eapply ejoin_keeps, Hj; left.
Qed.
End Safety.
