(* ===== verification/Restart.v ===== *)
(** The process is stopped only by the host: a computation over Managed Storage
    that ends in a crash met a turn at which the host ended it. Restarting it
    often enough therefore gets past every such turn. *)

From stdpp Require Import gmap.
From S2P Require Import Prelude Text Crash Disk Failure Metadata ImportErrors Storage Paths StoreSteps Journal.
From S2P Require Import Swap ReplaceFiles Replacement ReplaceSafety.

Section Mortal.
Context `{FS : FileSystem} {DB : Type} `{Machinery : Host} `{Dbg : Debug} `{Uni : Unicode}.
Implicit Types s : Machine DB.

Definition mortal {E A} (m : M (Machine DB) E A) : Prop := ∀ s,
  (clock s <= clock (m s).2)%nat ∧
  ((m s).1 = Panic → ∃ n, (clock s <= n < clock (m s).2)%nat ∧ turn n = Die).

Lemma mortal_ret {E A} (a : A) : mortal (mret a : M (Machine DB) E A).
Proof. intros s. by split; [|intros [=]]. Qed.

Lemma mortal_fail {E A} (e : E) : mortal (fail e : M (Machine DB) E A).
Proof. intros s. by split; [|intros [=]]. Qed.

Lemma mortal_lift {E A} (o : outcome E A) : o ≠ Panic → mortal (lift o : M (Machine DB) E A).
Proof. intros Ho s. by split. Qed.

Lemma mortal_bind {E A B} (m : M (Machine DB) E A) (f : A → M (Machine DB) E B) :
  mortal m → (∀ a, mortal (f a)) → mortal (m ≫= f).
Proof.
  intros Hm Hf s. unfold mbind, M_bind. destruct (Hm s) as [Hle Hp]. destruct (m s) as [[a|e| |] s1]; cbn in *.
  - destruct (Hf a s1) as [Hle1 Hp1]. split; [lia|]. intros HP.
    destruct (Hp1 HP) as (n & ? & ?). exists n. split; [lia|done].
  - by split; [|intros [=]].
  - split; [done|]. intros _. by apply Hp.
  - by split; [|intros [=]].
Qed.

Lemma mortal_same {E F A B} (m : M (Machine DB) E A) (m' : M (Machine DB) F B) : mortal m →
  (∀ s, (m' s).2 = (m s).2 ∧ ((m' s).1 = Panic → (m s).1 = Panic)) → mortal m'.
Proof.
  intros Hm Hs s. destruct (Hs s) as [-> HP]. destruct (Hm s) as [? Hd]. split; [done|]. intros Hp. by apply Hd, HP.
Qed.

Lemma mortal_on_err {E F A} (f : E → F) (m : M (Machine DB) E A) : mortal m → mortal (on_err f m).
Proof. intros Hm. apply (mortal_same m); [done|]. intros s. unfold on_err. by destruct (m s) as [[] ?]. Qed.

Lemma mortal_attempt {A} (m : M (Machine DB) FsError A) : mortal m → mortal (attempt m).
Proof. intros Hm. apply (mortal_same m); [done|]. intros s. unfold attempt. by destruct (m s) as [[] ?]. Qed.

Lemma mortal_catch {A} (m : M (Machine DB) Error A) : mortal m → mortal (catch m).
Proof. intros Hm. apply (mortal_same m); [done|]. intros s. unfold catch. by destruct (m s) as [[] ?]. Qed.

Lemma mortal_errs {A} (m : M (Machine DB) Error A) : mortal m → mortal (errs m).
Proof. intros Hm. apply mortal_bind; [by apply mortal_catch|]. intros r. apply mortal_ret. Qed.

Lemma mortal_if {E A} (b : bool) (m n : M (Machine DB) E A) : mortal m → mortal n → mortal (if b then m else n).
Proof. by destruct b. Qed.

Lemma mortal_ask {A} (f : nat → A) : mortal (ask f : M (Machine DB) Error A).
Proof. intros s. simpl. split; [lia|done]. Qed.

Lemma mortal_fs_op {A} (go : Disk → FsError + (A * Disk)) : mortal (fs_op go : M (Machine DB) FsError A).
Proof.
  intros s. unfold fs_op. destruct (turn (clock s)) eqn:Ht; cbn.
  - destruct (go (disk s)) as [e|[a d]]; cbn; (split; [lia|done]).
  - by split; [lia|].
  - by split; [lia|].
  - split; [lia|]. intros _. exists (clock s). split; [lia|done].
Qed.

Lemma mortal_outside : mortal (outside_op : M (Machine DB) FsError unit).
Proof.
  apply (mortal_same host_op); [apply mortal_fs_op|]. intros s. unfold outside_op.
  destruct (host_op s) as [[] ?]; destruct (outside (clock s)); done.
Qed.

Lemma mortal_join parts : mortal (join_result parts : M (Machine DB) Error unit).
Proof. apply mortal_lift. unfold result_of. by destruct (ejoin parts). Qed.

Lemma mortal_fail_join {A} e parts : mortal (fail_join (Some e :: parts) : M (Machine DB) Error A).
Proof. unfold fail_join. destruct (ejoin_Some e parts) as [j ->]. apply mortal_fail. Qed.
End Mortal.

Create HintDb clock.
#[export] Hint Resolve mortal_ret mortal_fail mortal_bind mortal_on_err mortal_attempt mortal_catch mortal_errs mortal_if
  mortal_ask mortal_fs_op mortal_outside mortal_join mortal_fail_join : clock.
#[export] Hint Extern 1 (mortal (query _)) => apply mortal_fs_op : clock.
#[export] Hint Extern 1 (mortal (effect _)) => apply mortal_fs_op : clock.
#[export] Hint Extern 1 (mortal host_op) => apply mortal_fs_op : clock.
#[export] Hint Extern 1 (mortal (symlink_metadata _)) => apply mortal_fs_op : clock.
#[export] Hint Extern 1 (mortal (metadata _)) => apply mortal_fs_op : clock.
#[export] Hint Extern 1 (mortal (rename _ _)) => apply mortal_fs_op : clock.
#[export] Hint Extern 1 (mortal (remove_file _)) => apply mortal_fs_op : clock.
#[export] Hint Extern 1 (mortal (remove_dir _)) => apply mortal_fs_op : clock.
#[export] Hint Extern 1 (mortal (read_dir _)) => apply mortal_fs_op : clock.

Ltac mortal_steps := repeat first
  [ solve [auto 1 with clock] | first
  [ apply mortal_bind; [|intros ?] | apply mortal_ret | apply mortal_fail | apply mortal_fail_join | apply mortal_join
  | apply mortal_on_err | apply mortal_attempt | apply mortal_catch | apply mortal_errs | apply mortal_if
  | apply mortal_ask | apply mortal_outside | apply mortal_fs_op | progress auto with clock
  | match goal with |- mortal (match ?x with _ => _ end) => destruct x end ] ].

Section Storage.
Context `{FS : FileSystem} {DB : Type} `{Machinery : Host} `{Dbg : Debug} `{Uni : Unicode}.
Implicit Types s : Machine DB.

Lemma mortal_open_root store : mortal (open_root store : M (Machine DB) Error unit).
Proof.
  unfold open_root. destruct (initialization_error store); [mortal_steps|].
  assert (∀ l, mortal (open_components l : M (Machine DB) Error unit)) as Hl.
  { induction l as [|n l IH]; cbn [open_components]; [mortal_steps|].
    apply mortal_bind; [|done]. unfold open_component, component_opened. mortal_steps. }
  mortal_steps; apply Hl.
Qed.

Lemma mortal_reject path : mortal (reject_symlinks path : M (Machine DB) Error unit).
Proof.
  unfold reject_symlinks. generalize (@nil Z) as current.
  induction (names path) as [|c cs IH]; intros current; cbn [reject_links]; mortal_steps; apply IH.
Qed.

Lemma mortal_verify path expected cancelled :
  mortal (verify_rooted_file_hash path expected cancelled : M (Machine DB) Error unit).
Proof.
  assert (∀ fuel hashed rest, mortal (hash_loop fuel cancelled hashed rest : M (Machine DB) Error (list byte))) as Hl.
  { induction fuel as [|fuel IH]; intros hashed rest; cbn [hash_loop]; [by apply mortal_lift|].
    mortal_steps; apply IH. }
  unfold verify_rooted_file_hash. apply mortal_bind; [apply mortal_reject|intros _]. mortal_steps; apply Hl.
Qed.

Lemma mortal_remove_empty directory boundary :
  mortal (remove_empty_directories_under directory boundary : M (Machine DB) Error unit).
Proof.
  unfold remove_empty_directories_under. generalize (S (length directory)) as fuel.
  intros fuel. revert directory. induction fuel as [|fuel IH]; intros directory; cbn [remove_empty_up];
    apply mortal_if; try apply mortal_ret; [by apply mortal_lift|]. mortal_steps; apply IH.
Qed.

Lemma mortal_remove_rooted path description : mortal (remove_rooted_file path description : M (Machine DB) Error unit).
Proof. unfold remove_rooted_file. mortal_steps. Qed.

Lemma mortal_restore from to : mortal (restore_rooted_file from to : M (Machine DB) Error unit).
Proof. unfold restore_rooted_file. mortal_steps. Qed.

Lemma mortal_restore_if from to : mortal (restore_if_present from to : M (Machine DB) Error unit).
Proof. unfold restore_if_present. mortal_steps; apply mortal_restore. Qed.

Lemma mortal_undo a b c d : mortal (undo_retired_swap a b c d : M (Machine DB) Error unit).
Proof. unfold undo_retired_swap. mortal_steps; apply mortal_restore_if. Qed.
End Storage.

#[export] Hint Resolve mortal_open_root mortal_reject mortal_verify mortal_remove_empty mortal_remove_rooted
  mortal_restore mortal_restore_if mortal_undo : clock.

Section Service.
Context `{FS : FileSystem} `{Laws : !FileSystemLaws} `{Machinery : Host} `{Dbg : Debug} `{Uni : Unicode}
  {Library : Type} `{Rows : !LibraryRows Library}.
Abbreviation DB := (Tables Library).
Implicit Types s : Machine DB.

Lemma mortal_sql {A} operation (run : DB → option (A * DB)) : mortal (sql operation run).
Proof.
  intros s. unfold sql. destruct (turn (clock s)) eqn:Ht, (run (db s)) as [[a d]|]; cbn;
    (split; [lia|]); try done; intros _; exists (clock s); (split; [lia|done]).
Qed.

Lemma mortal_on_library {A} (f : DB → Error + (A * Library)) : mortal (on_library f).
Proof.
  intros s. unfold on_library. destruct (turn (clock s)) eqn:Ht; cbn.
  - destruct (f (db s)) as [e|[a l]]; cbn; (split; [lia|intros [=]]).
  - split; [lia|done].
  - split; [lia|done].
  - split; [lia|]. intros _. exists (clock s). by split; [lia|].
Qed.

Lemma mortal_transaction {A} operation (body : M (Machine DB) Error A) : mortal body →
  mortal (transaction operation body).
Proof.
  intros Hb s. unfold transaction. pose proof (mortal_sql (st "begin " ++ operation) (λ d, Some (tt, d)) s) as Hbegin.
  destruct (sql _ _ s) as [[[]|e| |] s1]; cbn in *; destruct Hbegin as [Hle Hp];
    [|by split|split; [done|]; intros _; by apply Hp|by split].
  destruct (Hb s1) as [Hle1 Hp1].
  destruct (body s1) as [[a|e| |] s2]; cbn in *.
  - destruct (turn (clock s2)) eqn:Ht; cbn; (split; [lia|]); try done.
    intros _. exists (clock s2). by split; [lia|].
  - split; [lia|done].
  - split; [lia|]. intros _. destruct Hp1 as (n & ? & ?); [done|]. exists n. split; [lia|done].
  - split; [lia|done].
Qed.

Lemma mortal_require n : mortal (require_one n : M (Machine DB) Error unit).
Proof. unfold require_one. mortal_steps. Qed.

Lemma mortal_update operation sel f : mortal (update_replacements operation sel f : M (Machine DB) Error unit).
Proof. unfold update_replacements. apply mortal_bind; [apply mortal_sql|intros n; apply mortal_require]. Qed.
#[local] Hint Resolve mortal_sql mortal_on_library mortal_transaction mortal_require mortal_update : clock.

Lemma mortal_rollback store p : mortal (rollback_replacement store p : M (Machine DB) Error unit).
Proof. unfold rollback_replacement. mortal_steps. Qed.

Lemma mortal_remove_managed store cancelled path expected :
  mortal (remove_managed_file store cancelled path expected : M (Machine DB) Error bool).
Proof.
  unfold remove_managed_file. apply mortal_bind; [mortal_steps|]. intros []; [mortal_steps|].
  apply mortal_bind; [|intros rel; mortal_steps].
  apply mortal_lift. unfold relative_path. by case_match.
Qed.
#[local] Hint Resolve mortal_rollback mortal_remove_managed : clock.

Lemma mortal_complete_files store cancelled j p :
  mortal (complete_replacement_files store cancelled j p : M (Machine DB) Error _).
Proof.
  unfold complete_replacement_files. apply mortal_bind; [mortal_steps|]. intros [e|[]]; [mortal_steps| |mortal_steps].
  cbv zeta. mortal_steps.
Qed.
#[local] Hint Resolve mortal_complete_files : clock.

Lemma journal_placement_ends store j : (∃ p, replacement_placement_from_journal store j = Ok p) ∨
  (∃ e, replacement_placement_from_journal store j = Err e).
Proof.
  assert (∀ q, (∃ r, optional_relative_path store q = Ok r) ∨ (∃ e, optional_relative_path store q = Err e)) as Hq.
  { intros q. unfold optional_relative_path, relative_path. repeat case_match; by eauto. }
  assert (∀ q, (∃ r, relative_path store q = Ok r) ∨ (∃ e, relative_path store q = Err e)) as Hr.
  { intros q. unfold relative_path. repeat case_match; by eauto. }
  unfold replacement_placement_from_journal.
  repeat match goal with
  | |- context [optional_relative_path store ?q] =>
      destruct (Hq q) as [[? ->]|[? ->]]; [cbn [mbind outcome_bind]|right; by eexists]
  | |- context [relative_path store ?q] =>
      destruct (Hr q) as [[? ->]|[? ->]]; [cbn [mbind outcome_bind]|right; by eexists]
  end. left. by eexists.
Qed.

Lemma mortal_recover store j : mortal (recover_replacement store j : M (Machine DB) Error unit).
Proof.
  unfold recover_replacement.
  assert (∀ p reason, mortal (rollback_replacement_files store j p reason : M (Machine DB) Error unit)) as Hroll.
  { intros p reason. unfold rollback_replacement_files, rollback_replacement_journal,
      record_replacement_recovery_reason. mortal_steps. }
  assert (∀ job, mortal (finalize_replacement job (j_id j) : M (Machine DB) Error _)) as Hfin.
  { intros job. unfold finalize_replacement. apply mortal_transaction. mortal_steps. }
  assert (∀ job p, mortal (complete_replacement store job j p : M (Machine DB) Error _)) as Hcomp.
  { intros job p. unfold complete_replacement, record_replacement_recovery_reason. mortal_steps. }
  destruct (journal_placement_ends store j) as [[p ->]|[e ->]].
  - destruct (j_phase j); try apply Hroll; try apply mortal_fail. apply mortal_bind.
    + unfold get_job. apply mortal_bind; [apply mortal_sql|]. intros rows. apply mortal_lift. by destruct rows.
    + intros job. apply mortal_bind; [apply Hcomp|]. intros _. apply mortal_ret.
  - unfold record_replacement_recovery_reason. mortal_steps.
Qed.

Lemma mortal_recover_pending store :
  mortal (recover_pending_track_replacements store : M (Machine DB) Error unit).
Proof.
  unfold recover_pending_track_replacements, replacement_journals. apply mortal_bind; [apply mortal_sql|].
  intros rows. generalize (@nil (option Error)). induction rows as [|j rows IH]; intros l; cbn [recover_journals].
  - apply mortal_join.
  - apply mortal_bind; [apply mortal_catch, mortal_recover|]. intros r. apply IH.
Qed.

(** The process is started again until it gets through the recovery. *)
Fixpoint restarts (store : Storage) (again : nat) s : outcome Error unit * Machine DB :=
  match recover_pending_track_replacements store s with
  | (Panic, s') => match again with O => (Panic, s') | S again => restarts store again s' end
  | r => r
  end.

(** If every start leads to [Q], or to an ending that keeps [I], then enough of
    them lead to [Q]. *)
Lemma restarts_settle store (I : Machine DB → Prop) (Q : unit → Machine DB → Prop) (deaths : nat) s :
  (∀ s, I s → wp (recover_pending_track_replacements store) Q (λ _ _, False) I s) →
  (∀ n, turn n = Die → (n < deaths)%nat) → I s →
  match restarts store deaths s with (Ok a, s') => Q a s' | _ => False end.
Proof.
  intros Hstep Hdeaths. cut (∀ again s, I s → (deaths <= clock s + again)%nat →
    match restarts store again s with (Ok a, s') => Q a s' | _ => False end).
  { intros Hcut HI. apply Hcut; [done|lia]. }
  induction again as [|again IH]; intros s' HI Hle; cbn [restarts]; pose proof (Hstep s' HI) as Hw;
    pose proof (mortal_recover_pending store s') as [_ Hp]; unfold wp in Hw;
    destruct (recover_pending_track_replacements store s') as [[a|e| |] s2]; try done; cbn in *.
  - destruct Hp as (n & ? & Hn); [done|]. apply Hdeaths in Hn. lia.
  - destruct Hp as (n & ? & Hn); [done|]. apply Hdeaths in Hn. apply IH; [done|lia].
Qed.
End Service.
