(* ===== verification/TrackReplacement.v ===== *)
(** What Track Replacement promises: a Track is never lost, and what was
    interrupted is finished or undone. *)

From stdpp Require Import gmap.
From S2P Require Import Prelude Text Crash Disk MapDisk Failure Metadata ImportErrors Storage Paths StoreSteps Journal.
From S2P Require Import Swap ReplaceFiles Replacement ReplaceSafety Restart.

Section Promises.
Context `{FS : FileSystem} `{Machinery : Host} `{Dbg : Debug} `{Uni : Unicode} {Library : Type}
  `{Rows : !LibraryRows Library}.
Implicit Types (s : Machine (Tables Library)) (p : ReplacementPlacement).

(** The Library is the one before, and the previous Track, and the Album Artwork
    that was to be replaced, are each at their path or at the one they retire to. *)
Definition previous_kept p (previous artwork : list byte) (l0 : Library) s : Prop :=
  library (db s) = l0 ∧
  (file_at (disk s) (names (previous_audio p)) = Some previous ∨
   file_at (disk s) (names (retired_audio p)) = Some previous) ∧
  (artwork_mode p = ModeReplace →
   file_at (disk s) (names (previous_artwork p)) = Some artwork ∨
   file_at (disk s) (names (retired_artwork p)) = Some artwork).

(** The Library names the replacement, and the replacement is where it says, with
    the inspected hash. *)
Definition delivered (job : ImportJob) (state : ReplacementState) (new : list byte) (l0 : Library) s : Prop :=
  let p := state_placement state in
  file_at (disk s) (names (r_audio p)) = Some new ∧
  digest_hex new = file_sha256 (state_inspection state) ∧
  ∃ made invalidations l, write_replacement_data job state (r_with_created p made) l0 = inr (invalidations, l) ∧
    (library (db s) = l ∨ ∃ d, library d = l ∧
       archive_standalone (job_id job) HISTORY_RESULT_COMPLETED d = inr (tt, library (db s))).

(** Everything is as it was. *)
Definition undone p (previous new : list byte) (l0 : Library) s : Prop :=
  library (db s) = l0 ∧ file_at (disk s) (names (r_staged p)) = Some new ∧
  file_at (disk s) (names (previous_audio p)) = Some previous ∧
  file_at (disk s) (names (retired_audio p)) = None ∧ file_at (disk s) (names (pending_audio p)) = None.
End Promises.

Section Proofs.
Context `{FS : FileSystem} `{Laws : !FileSystemLaws} `{Machinery : Host} `{Dbg : Debug} `{Uni : Unicode}
  {Library : Type} `{Rows : !LibraryRows Library}.
Context (store : Storage) (job : ImportJob) (state : ReplacementState) (previous new artwork : list byte)
  (f0 : Files) (d0 : Tables Library).
Implicit Types s : Machine (Tables Library).
Abbreviation p := (state_placement state).
Abbreviation kept := (previous_kept p previous artwork (library d0)).
Abbreviation done := (delivered job state new (library d0)).

Lemma begun_kept id s : begun store job state previous new artwork f0 d0 id s → kept s.
Proof.
  intros Hb. assert (∃ A W, stays_with p (opened store job state d0 id (λ _, True)) A W f0 s ∧
    (∀ f, A f → audio_kept p previous new f) ∧ (∀ f, W f → artwork_kept p artwork f)) as (A & W & Hst & HA & HW).
  { destruct Hb as [Hb|Hb]; eexists _, _; (split; [by eapply stays_opened; [exact Hb|done..]|split]);
      auto using back_kept, artwork_undone_kept. }
  destruct Hst as (d & (ph & cr & rs & _ & _ & ->) & (_ & Hdb & Ha & Hw & _)).
  split; [by rewrite Hdb|]. split; [by eapply audio_kept_previous, HA|].
  intros Hm. eapply artwork_kept_previous; [done|by apply HW].
Qed.

Lemma committed_done id s : committed store job state previous new artwork f0 d0 id s → done s.
Proof.
  intros ((_ & (_ & Hc & _) & _) & cr & rs & l & _ & (Hdig & made & inv & Hw) & Hdb).
  split; [exact Hc|]. split; [exact Hdig|]. exists made, inv, l. split; [exact Hw|]. left. by rewrite Hdb.
Qed.

Lemma completed_done id s : completed store job state previous new artwork f0 d0 id s → done s.
Proof.
  intros ((_ & (_ & Hc & _) & _) & _ & cr & rs & l & l' & (Hdig & made & inv & Hw) & Ha & Hdb).
  split; [exact Hc|]. split; [exact Hdig|]. exists made, inv, l. split; [exact Hw|]. right.
  eexists. rewrite Hdb. by split; [|exact Ha].
Qed.

Lemma safe_kept s : safe store job state previous new artwork f0 d0 s → kept s ∨ done s.
Proof.
  intros [(_ & Hdb & Ha & Hw & _)|(id & _ & [H|[H|H]])].
  - left. split; [by rewrite Hdb|]. split.
    + eapply audio_kept_previous. by left.
    + intros Hm. eapply artwork_kept_previous; [done|by apply artwork_rest_kept].
  - left. by eapply begun_kept.
  - right. by eapply committed_done.
  - right. by eapply completed_done.
Qed.

Lemma settled_undone s : ¬ faulty → settled_state store job state previous new artwork f0 d0 s →
  undone p previous new (library d0) s ∨
  (done s ∧ file_at (disk s) (names (retired_audio p)) = None ∧ file_at (disk s) (names (r_staged p)) = None).
Proof.
  intros Hno [(_ & Hdb & [Hst (H1 & H2 & H3 & _)] & _)|(id & _ & [(d & (ph & cr & rs & _ & _ & ->) & Hst)|H])].
  - left. unfold undone. by rewrite Hdb.
  - left. destruct Hst as (_ & Hdb & [[Hs (H1 & H2 & H3 & _)]|[Hf _]] & _); [|by destruct Hno].
    split; [by rewrite Hdb|]. auto.
  - right. split; [by eapply completed_done|]. destruct H as ((_ & (? & _) & _) & ? & _). auto.
Qed.

Context (Hstore : initialization_error store = None) (Hp : good_placement p)
  (Hpaths : good_paths store job state).

(** C5: whatever fails while a Track is replaced, and wherever the process ends,
    either the Library is as it was and the previous Track and Album Artwork are
    still there, or it names the replacement and the replacement is in place. *)
Theorem replacement_never_loses_a_track s : before state previous new artwork f0 d0 s →
  wp (commit_replacement store job state)
    (λ _ s', delivered job state new (library d0) s' ∧ file_at (disk s') (names (retired_audio p)) = None)
    (λ _ s', previous_kept p previous artwork (library d0) s' ∨ delivered job state new (library d0) s')
    (λ s', previous_kept p previous artwork (library d0) s' ∨ delivered job state new (library d0) s') s.
Proof using Hp Hpaths Hstore Laws.
  intros Hb. eapply wp_conseq; [by apply (wp_commit_replacement store Hstore job state previous new artwork Hp f0 d0 Hpaths)|..].
  - intros r s1 (id & _ & H1). split; [by eapply completed_done|]. apply H1.
  - intros e s1 H1. by apply safe_kept.
  - intros s1 H1. by apply safe_kept.
Qed.

(** C6: on a host that only ever stops the process, and not forever, a Track
    Replacement that can be finished ends finished or undone once the process has been
    started often enough: with the new file in place and the old one gone, or with the
    upload staged again and the previous Track at its path. It can be finished when a
    file remains in each directory an old file is deleted from (one of the new files, or
    one that is not the replacement's), the old files have the hashes their rows give,
    the job is the one confirmed, with its revision, and the Library archives it; without
    the first, completion is blocked for good ([emptied_directory_blocks_completion]). *)
Theorem interrupted_replacement_settles (deaths : nat) s :
  head (filter (λ j, job_id j = job_id job) (jobs d0)) = Some job →
  finishable job state previous new artwork f0 d0 →
  Forall (λ r, is_open (j_phase r) = false) (replacements d0) →
  ¬ faulty → (∀ n, turn n = Die → (n < deaths)%nat) →
  before state previous new artwork f0 d0 s →
  match restarts store deaths (commit_replacement store job state s).2 with
  | (Ok _, s') => undone p previous new (library d0) s' ∨
      (done s' ∧ file_at (disk s') (names (retired_audio p)) = None ∧ file_at (disk s') (names (r_staged p)) = None)
  | _ => False
  end.
Proof using Hp Hpaths Hstore Laws.
  intros Hjob Hfin Hclosed Hno Hdeaths Hb.
  assert (safe store job state previous new artwork f0 d0 (commit_replacement store job state s).2) as Hs.
  { pose proof (wp_commit_replacement store Hstore job state previous new artwork Hp f0 d0 Hpaths s Hb) as Hw.
    unfold wp in Hw. destruct (commit_replacement store job state s) as [[r|e| |] s1]; try done.
    destruct Hw as (id & ? & ?). right. exists id. auto. }
  set (s1 := (commit_replacement store job state s).2) in *.
  assert (match restarts store deaths s1 with
          | (Ok _, s') => settled_state store job state previous new artwork f0 d0 s' | _ => False end) as Hr.
  { apply (restarts_settle store (safe store job state previous new artwork f0 d0)
      (λ _, settled_state store job state previous new artwork f0 d0)); [|done|done].
    intros s2 H2. eapply wp_conseq; [by apply (wp_recover_pending store Hstore job state previous new artwork Hp f0 d0)|..];
      [done|by intros e' s3 [? _]|done]. }
  destruct (restarts _ _ _) as [[[]|e| |] s2]; try done. by apply settled_undone.
Qed.
End Proofs.

(** ** A directory that is gone *)

Section Blocked.
Context `{FS : FileSystem} `{Laws : !FileSystemLaws} `{Machinery : Host} `{Dbg : Debug} `{Uni : Unicode}
  {Library : Type} `{Rows : !LibraryRows Library}.
Implicit Types s : Machine (Tables Library).

Lemma wp_reject_missing ns cur (Q : unit → Machine (Tables Library) → Prop) s :
  tree (disk s) → Forall good_name (cur ++ ns) → ns ≠ [] → entry (disk s) (cur ++ ns) = None →
  wp (reject_links (path_of cur) ns) Q (λ _ s', disk s' = disk s) (λ s', disk s' = disk s) s.
Proof using Laws.
  revert cur s. induction ns as [|n ns IH]; intros cur s Ht Hg Hne He; [done|]. cbn [reject_links].
  assert (Forall good_name (cur ++ [n])) as Hgn.
  { rewrite Forall_app in Hg |- *. destruct Hg as [? [? _]%Forall_cons]. split; [done|]. by constructor. }
  assert (join_parts [path_of cur; n] = path_of (cur ++ [n])) as ->.
  { rewrite Forall_app, Forall_singleton in Hgn. destruct Hgn. by apply join_parts_snoc. }
  assert (inside (names (path_of (cur ++ [n])))) as Hin.
  { apply clean_inside. exists (cur ++ [n]). split; [by destruct cur|]. done. }
  apply wp_bind, wp_on_err, wp_query. intros s1 [Hd1 _]. split; [|done]. intros e Hl.
  assert (ns ≠ [] → wp (reject_links (path_of (cur ++ [n])) ns) Q (λ _ s', disk s' = disk s)
    (λ s', disk s' = disk s) s1) as Hrec.
  { intros Hns. rewrite <-Hd1. apply IH; rewrite ?Hd1; [done|by rewrite <-app_assoc|done|by rewrite <-app_assoc]. }
  destruct ns as [|n' ns].
  - exfalso. rewrite names_path_of in Hl by done. rewrite names_path_of in Hin by done.
    destruct (lstat_missing _ _ Ht Hin He) as (e' & Hm & _). congruence.
  - destruct e; [by apply Hrec..|]. by apply wp_fail.
Qed.

Lemma wp_remove_missing_directory store path ns n expected (Q : bool → Machine (Tables Library) → Prop) s :
  relative_path store path = Ok (path_of (ns ++ [n])) → tree (disk s) → ns ≠ [] → Forall good_name (ns ++ [n]) →
  entry (disk s) ns = None →
  wp (remove_managed_file store never path expected) Q (λ _ s', disk s' = disk s) (λ s', disk s' = disk s) s.
Proof using Laws.
  intros Hrel Ht Hne Hg He. apply wp_bind, wp_ask. intros s1 [Hd1 _]. simpl. rewrite Hrel.
  apply wp_bind, wp_lift, wp_bind, (wp_quiet (open_root store)); [auto with store| |by intros ? s2 [-> _]|by intros s2 [-> _]].
  intros _ s2 [Hd2 _]. rewrite parent_path_of, decide_False by done. apply wp_bind, wp_on_err.
  unfold reject_symlinks. assert (Forall good_name ns) as Hns by (by apply Forall_app in Hg as [? _]).
  rewrite names_path_of by done. rewrite <-Hd1, <-Hd2.
  apply (wp_reject_missing ns []); rewrite ?Hd2, ?Hd1; done.
Qed.

Lemma wp_recorded {A} j reason e s0 s : disk s = disk s0 →
  wp (recorded ← errs (record_replacement_recovery_reason (j_id j) reason); fail_join [Some e; recorded]
        : M (Machine (Tables Library)) Error A)
    (λ _ _, False) (λ _ s', disk s' = disk s0) (λ s', disk s' = disk s0) s.
Proof.
  intros Hd. apply wp_bind, wp_errs. unfold record_replacement_recovery_reason, update_replacements.
  apply wp_bind, wp_sql.
  - intros s1 [Hd1 _]. split; [|congruence]. intros e1 _. apply wp_fail_join. congruence.
  - intros n d s1 _ Hd1 _. split; [|intros e1 _; apply wp_fail_join; congruence].
    unfold require_one. apply wp_if; intros _; [apply wp_ret|apply wp_fail]; apply wp_fail_join; congruence.
Qed.

(** The directory the previous Track retires to is gone. *)
Definition emptied store j s : Prop :=
  ∃ ns n, relative_path store (retired_audio_path j) = Ok (path_of (ns ++ [n])) ∧ ns ≠ [] ∧
    Forall good_name (ns ++ [n]) ∧ entry (disk s) ns = None.

(** once the directory of the previous Track is gone, a committed replacement
    that was not marked complete never completes: every recovery fails and
    changes no file. *)
Theorem emptied_directory_blocks_completion store j s :
  j_phase j = DatabaseCommitted → tree (disk s) → emptied store j s →
  wp (recover_replacement store j) (λ _ _, False) (λ _ s', disk s' = disk s) (λ s', disk s' = disk s) s.
Proof using Laws.
  intros Hph Ht (ns & n & Hrel & Hne & Hg & He). unfold recover_replacement.
  destruct (journal_placement_ends store j) as [[p ->]|[e ->]]; [|by apply wp_recorded].
  rewrite Hph. apply wp_bind. unfold get_job. apply wp_bind, wp_sql; [by intros s1 [-> _]|].
  intros rows d s1 _ Hd1 _. split; [|done]. apply wp_lift. destruct (head rows) as [job|]; [|done].
  apply wp_bind. unfold complete_replacement, complete_replacement_files. apply wp_bind, wp_bind, wp_catch.
  eapply wp_conseq;
    [apply (wp_remove_missing_directory store _ ns n _ (λ _ _, False)); rewrite ?Hd1; done|by intros ? ? []|..].
  - intros e s2 Hd2. apply wp_ret, wp_recorded. congruence.
  - intros s2 Hd2. congruence.
Qed.
End Blocked.

(** ** A Track replaced, the process ended on the way *)

(** Whether a finite tree is one the moves of [ks] are sound in. *)
Definition sound_ok (ks : list (list str)) (d : Tree) : bool :=
  bool_decide (map_Forall (λ q e, q ≠ [] ∧ e ≠ ELink ∧ map_entry d (init q) = Some EDir) d)
  && bool_decide (map_entry d [STAGING] = Some EDir)
  && forallb (λ q, bool_decide (q ≠ []) && bool_decide (st ".." ∉ q) && bool_decide (map_entry d q ≠ Some EDir)
                   && forallb (λ n, negb (is_file (map_entry d (take n q)))) (seq 0 (length q))) ks
  && forallb (λ q, forallb (λ r, forallb (λ n, bool_decide (take n q ≠ r)) (seq 0 (length q))) ks) ks.

Lemma sound_ok_sound ks d : sound_ok ks d = true → sound (FS := map_file_system) ks d.
Proof.
  unfold sound_ok. rewrite !andb_true_iff, !bool_decide_eq_true, !forallb_forall.
  intros (((Ht & Hst) & Hk) & Hf). split.
  - split.
    + intros q E. simpl in E. unfold map_entry in E. case_decide; [done|]. by destruct (Ht q ELink E) as (_ & ? & _).
    + done.
    + intros q e E. simpl in E. unfold map_entry in E. case_decide; [by subst|]. by apply (Ht q e E).
  - done.
  - intros q Hq. apply list_elem_of_In, Hk in Hq. rewrite !andb_true_iff, !bool_decide_eq_true in Hq.
    destruct Hq as [[[? ?] ?] _]. by split; [split|].
  - intros r q n Hr Hq Hn. apply list_elem_of_In, Hf in Hq. rewrite forallb_forall in Hq.
    apply list_elem_of_In, Hq in Hr. rewrite forallb_forall in Hr. specialize (Hr n).
    rewrite bool_decide_eq_true in Hr. apply Hr, in_seq. lia.
  - intros q Hq n x Hn E. apply list_elem_of_In, Hk in Hq. rewrite !andb_true_iff, forallb_forall in Hq.
    destruct Hq as [_ Hq]. specialize (Hq n). simpl in E. rewrite E in Hq. apply diff_false_true, Hq, in_seq. lia.
Qed.

#[local] Existing Instance plain_debug.
#[local] Existing Instance ascii_unicode.

(** The process ends with the previous cover retired and the new one not yet placed. *)
#[local] Instance example_host : Host := {|
  turn n := if (n =? 56)%nat then Die else Go;
  outside _ := None;
  same_root _ := true;
  free_bytes _ := 0;
  granted _ := 1;
  new_uuid _ := [117];
  cwd := [];
  digest_hex x := (λ b, Z.of_N (Byte.to_N b)) <$> x
|}.

#[local] Instance example_rows : LibraryRows str := {|
  QueueInvalidation := str;
  write_replacement_data _ _ _ _ := inr ([], [1]);
  archive_standalone _ _ d := inr (tt, library d)
|}.

Definition example_store : Storage := mkStorage [[114]] None 0 1 1.
Definition example_placement : ReplacementPlacement :=
  mkReplacement (st "/r/a/n") (st "/r/a/c") ModeReplace (st ".staging/u") (st "a/p") (st "a/n") (st "a/o")
    (st "a/r") (st "a/q") (st "a/c") (st "a/c") (st "a/k") false.
Definition example_state : ReplacementState :=
  mkState (mkTargetRow [116] [108] [1] [3]) (mkIdentity [] [108] [116] [] []) example_placement
    (mkInspection (mkMetadata [] [] [] [] [] (mkPosition 1 0) (mkPosition 1 0) false [] 0 no_replay_gain [])
       (mkArtwork [] [] 0 0 [Byte.x04] [4]) (mkAudio [] [] [] 0 0 0 0 0) [2]) [].
Definition example_job : ImportJob :=
  mkJob [106] STATUS_AWAITING_CONFIRMATION 1 [] (st "/r/.staging/u") [2] [] [] [116].
Definition example_tables : Tables str := mkTables [] [] [example_job] [0].
Definition example_disk : Tree :=
  list_to_map [([STAGING], EDir); ([st "a"], EDir); ([STAGING; st "u"], EFile [Byte.x02]);
    ([st "a"; st "o"], EFile [Byte.x01]); ([st "a"; st "c"], EFile [Byte.x03])].
Definition example_machine : Machine (H := map_file_system) (Tables str) :=
  mkMachine (H := map_file_system) example_disk example_tables 0.

Lemma example_clean c : c ≠ 47 → c ≠ 46 → Forall good_name ([st "a"] ++ [[c]]).
Proof.
  assert (∀ n, n ≠ 47 → n ≠ 46 → good_name [n]) as Hone.
  { intros n H1 H2. split; [done|]. split; [by intros [= ->]|]. split; [done|].
    by intros [=]%list_elem_of_singleton. }
  intros H1 H2. apply Forall_app. split; apply Forall_singleton; by apply Hone.
Qed.

Lemma example_good : good_placement example_placement.
Proof.
  split.
  - split; try done; vm_compute; congruence.
  - vm_compute. intros H. repeat (apply elem_of_cons in H as [H|H]; [congruence|]). by apply not_elem_of_nil in H.
  - done.
  - exists [st "a"], (st "n"). split; [by apply example_clean|]. done.
  - exists [st "a"], (st "o"). split; [by apply example_clean|]. done.
  - intros _. split; try done; vm_compute; congruence.
  - intros q Hq Ha. assert (q ∈ list_intersection (artwork_keys example_placement) (audio_keys example_placement)) as Hi by (by apply list_elem_of_intersection).
    vm_compute in Hi. by apply not_elem_of_nil in Hi.
  - intros q Hq. vm_compute in Hq. by apply not_elem_of_nil in Hq.
  - done.
Qed.

Lemma example_paths : good_paths example_store example_job example_state.
Proof.
  assert (∀ c, c ≠ 47 → c ≠ 46 → clean (st "a/" ++ [c])) as Hc.
  { intros c H1 H2. exists ([st "a"] ++ [[c]]). split; [done|]. split; [by apply example_clean|done]. }
  split; try done; try (by apply Hc); try (right; by apply Hc); try (intros _; split; by apply Hc).
  - apply Forall_singleton. split; [done|]. split; [done|]. split; [done|].
    by intros [=]%list_elem_of_singleton.
Qed.

Lemma example_finishable :
  finishable example_job example_state [Byte.x01] [Byte.x02] [Byte.x03] (file_at example_disk) example_tables.
Proof.
  split; try done.
  - by left.
  - intros _. by left.
  - intros q [->|[-> _]]; [exists [st "a"], (st "r")|exists [st "a"], (st "k")];
      (split; [done|]); (split; [done|]); by apply example_clean.
  - intros r l _. by exists l.
Qed.

Lemma example_before :
  before example_state [Byte.x01] [Byte.x02] [Byte.x03] (file_at example_disk) example_tables example_machine.
Proof.
  split; [apply sound_ok_sound; by vm_compute|]. split; [done|]. split; [|split; [|done]].
  - split; [by vm_compute|]. split; [by vm_compute|]. split; [by vm_compute|]. split; [by vm_compute|].
    intros _. by vm_compute.
  - exists None. split; [by vm_compute|]. split; [by vm_compute|]. split; [by vm_compute|].
    intros E. by destruct E.
Qed.

Lemma example_unfaulty : ¬ faulty.
Proof.
  intros [(n & r & Hn)|[[n Hn]|[n Hn]]]; [|done..]. simpl in Hn.
  destruct (n =? 56)%nat; destruct Hn; discriminate.
Qed.

Lemma replacement_never_loses_a_track_witness :
  wp (commit_replacement example_store example_job example_state)
    (λ _ s', delivered example_job example_state [Byte.x02] 
               [0] s' ∧ file_at (disk s') [st "a"; st "r"] = None)
    (λ _ s', previous_kept example_placement [Byte.x01] [Byte.x03] [0] s' ∨
             delivered example_job example_state [Byte.x02] [0] s')
    (λ s', previous_kept example_placement [Byte.x01] [Byte.x03] [0] s' ∨
           delivered example_job example_state [Byte.x02] [0] s') example_machine.
Proof.
  exact (replacement_never_loses_a_track example_store example_job example_state [Byte.x01] [Byte.x02] [Byte.x03]
    (file_at example_disk) example_tables eq_refl example_good example_paths example_machine example_before).
Defined.

Lemma interrupted_replacement_settles_witness :
  match restarts example_store 57 (commit_replacement example_store example_job example_state example_machine).2 with
  | (Ok _, s') => undone example_placement [Byte.x01] [Byte.x02] [0] s' ∨
      (delivered example_job example_state [Byte.x02] [0] s' ∧ file_at (disk s') [st "a"; st "r"] = None ∧
       file_at (disk s') [STAGING; st "u"] = None)
  | _ => False
  end.
Proof.
  refine (interrupted_replacement_settles example_store example_job example_state [Byte.x01] [Byte.x02] [Byte.x03]
    (file_at example_disk) example_tables eq_refl example_good example_paths 57 example_machine
    eq_refl example_finishable (List.Forall_nil _) example_unfaulty _ example_before).
  intros n Hn. simpl in Hn. destruct (Nat.eqb_spec n 56); [lia|discriminate].
Defined.

Definition example_emptied : ReplacementJournal :=
  mkReplacementJournal [117] [106] [116] DatabaseCommitted (st "/r/.staging/u") (st "/r/a/p") (st "/r/b/n") (st "/r/a/o")
    (st "/r/a/r") [2] [1] ModeNone [] [] [] [] [] [] false [108] [].

Definition example_emptied_disk : Tree :=
  list_to_map [([STAGING], EDir); ([st "b"], EDir); ([st "b"; st "n"], EFile [Byte.x02])].

Lemma emptied_directory_blocks_completion_witness :
  wp (recover_replacement example_store example_emptied) (λ _ _, False)
    (λ _ s', disk s' = example_emptied_disk) (λ s', disk s' = example_emptied_disk)
    (mkMachine (H := map_file_system) example_emptied_disk example_tables 0).
Proof.
  apply (emptied_directory_blocks_completion example_store example_emptied
    (mkMachine (H := map_file_system) example_emptied_disk example_tables 0)).
  - reflexivity.
  - apply (sound_ok_sound []). by vm_compute.
  - exists [st "a"], (st "r"). split; [by vm_compute|]. split; [done|]. split; [by apply example_clean|]. by vm_compute.
Defined.
