(* ===== verification/Values.v ===== *)
(** The JSON values the Desktop core looks into. serde_json is third-party code:
    a class with the accessors the source calls. *)

From S2P Require Import Prelude Float64.

(** [Value] and what is asked of one: [Value::get] with a key, [Value::pointer],
    the [as_*] and [is_*] tests, [to_uppercase] of the standard library, and the
    values [json!] builds. [parse_values] is [from_slice::<Vec<Value>>]. *)
Class SerdeJson := {
  Value : Type;
  value_eq_dec :: EqDecision Value;
  field : str → Value → option Value;
  pointer : str → Value → option Value;
  as_str : Value → option str;
  as_u64 : Value → option Z;
  as_f64 : Value → option f64;
  as_bool : Value → option bool;
  as_array : Value → option (list Value);
  is_object : Value → bool;
  is_number : Value → bool;
  Null : Value;
  String_ : str → Value;
  Bool_ : bool → Value;
  Float_ : f64 → Value;
  Int_ : Z → Value;
  Array_ : list Value → Value;
  Object_ : list (str * Value) → Value;
  insert_field : str → Value → Value → option Value;
  parse_values : list byte → str + list Value;
  to_uppercase : str → str
}.

Section Values.
Context `{SerdeJson}.

(** [value.get(key).and_then(Value::as_str)]. *)
Definition field_str (key : str) (v : Value) : option str := v ← field key v; as_str v.
Definition pointer_str (p : str) (v : Value) : option str := v ← pointer p v; as_str v.
End Values.

(** [u32::try_from], [u16::try_from] of a [u64]. *)
Definition to_u32 (n : Z) : option Z := if n <=? u32_max then Some n else None.
Definition to_u16 (n : Z) : option Z := if n <=? 65535 then Some n else None.

(** Values that are only numbers, to evaluate definitions with. *)
Definition numbers : SerdeJson := {|
  Value := Z; field _ _ := None; pointer _ _ := None; as_str _ := None; as_u64 v := Some v; as_f64 _ := None;
  as_bool _ := None; as_array _ := None; is_object _ := false; is_number _ := true; Null := 0; String_ _ := 0;
  Bool_ _ := 0; Float_ _ := 0; Int_ n := n; Array_ _ := 0; Object_ _ := 0; insert_field _ _ _ := None;
  parse_values _ := inr []; to_uppercase s := s
|}.
