(* ===== verification/PlayQueue.v ===== *)
(** The Desktop's Queue (desktop/core/src/playback_navigation.rs): the Playback
    Sources it holds, the order they play in, and stepping through it. *)

From S2P Require Import Prelude Text Float64 Values.

(** A Playback Source as serde reads it; what the flattened maps keep besides is
    not looked at. *)
Inductive PlaybackSource :=
| Track (id : str) (duration_ms : option f64) (playback_url : str) (queue_item_id : option str)
| RadioStation (id playback_url : str)
| CatalogPreview (station_uuid playback_url : str)
| ExternalTrack (id : str) (duration_ms : option f64) (playback_url : str).

(** What the derived [Deserialize] makes of a value, or its message. *)
Class SourceFormat `{SerdeJson} := { from_value : Value → str + PlaybackSource }.

Definition source_url (p : PlaybackSource) : str :=
  match p with
  | Track _ _ url _ | RadioStation _ url | CatalogPreview _ url | ExternalTrack _ _ url => url
  end.

Definition playback_url (p : PlaybackSource) : outcome str str :=
  if negb (bool_decide (source_url p = [])) then Ok (source_url p)
  else Err (st "Playback Source URL is missing.").

Definition kind (p : PlaybackSource) : str :=
  match p with
  | Track _ _ _ _ => st "track"
  | RadioStation _ _ => st "radio-station"
  | CatalogPreview _ _ => st "catalog-preview"
  | ExternalTrack _ _ _ => st "external-track"
  end.

Definition duration_seconds (p : PlaybackSource) : f64 :=
  let seconds duration :=
    match duration with
    | Some ms => if is_finite ms && flt (of_Z 0) ms then fdiv ms (of_Z 1000) else of_Z 0
    | None => of_Z 0
    end in
  match p with
  | Track _ duration _ _ | ExternalTrack _ duration _ => seconds duration
  | _ => of_Z 0
  end.

Definition identity (p : PlaybackSource) : str :=
  match p with
  | Track id _ _ item => default id item
  | RadioStation id _ | CatalogPreview id _ | ExternalTrack id _ _ => id
  end.

Inductive QueueDirection := Previous | Next.

Section Queue.
Context {SJ : SerdeJson} {SF : SourceFormat}.

Record PlaybackQueueContext := mkQueue {
  sources : list Value;
  order : list nat;
  current_index : option nat
}.

Definition empty_queue : PlaybackQueueContext := mkQueue [] [] None.

Definition parse (source : Value) : outcome str PlaybackSource :=
  match from_value source with
  | inl e => Err (st "Playback Source is invalid: " ++ e)
  | inr p => Ok p
  end.

Definition reset_order {E} : M PlaybackQueueContext E unit :=
  modify (λ q, mkQueue (sources q) (seq 0 (length (sources q))) (current_index q)).

Fixpoint parse_all (vs : list Value) : outcome str unit :=
  match vs with
  | [] => Ok tt
  | v :: vs => _ ← parse v; parse_all vs
  end.

Definition sync (vs : list Value) (current : option nat) : M PlaybackQueueContext str unit :=
  if match current with Some i => bool_decide (length vs ≤ i)%nat | None => false end then
    fail (st "Playback Queue current index is out of range.")
  else
    _ ← lift (parse_all vs);
    _ ← modify (λ q, mkQueue vs (order q) current);
    reset_order.

(** The first source with this identity. *)
Fixpoint find_identity (wanted : str) (vs : list Value) (i : nat) : outcome str (option nat) :=
  match vs with
  | [] => Ok None
  | v :: vs =>
      p ← parse v;
      if bool_decide (identity p = wanted) then Ok (Some i) else find_identity wanted vs (S i)
  end.

Definition align_to_source (source : Value) : M PlaybackQueueContext str unit :=
  p ← lift (parse source);
  q ← get;
  i ← lift (find_identity (identity p) (sources q) 0);
  modify (λ q, mkQueue (sources q) (order q) i).

(** [slice::swap], [slice::rotate_left] and [Iterator::position]. *)
Definition swap {E A} (l : list A) (i j : nat) : outcome E (list A) :=
  match l !! i, l !! j with
  | Some x, Some y => Ok (<[i := y]> (<[j := x]> l))
  | _, _ => Panic
  end.
Definition rotate_left {E A} (l : list A) (n : nat) : outcome E (list A) :=
  if bool_decide (n ≤ length l)%nat then Ok (drop n l ++ take n l) else Panic.
Definition position (i : nat) (l : list nat) : option nat := fst <$> list_find (i =.) l.

Definition set_order {E} (o : list nat) : M PlaybackQueueContext E unit :=
  modify (λ q, mkQueue (sources q) o (current_index q)).

(** The loop of [shuffle], from [index] down to 1; [random k] is what getrandom
    fills the eight bytes with, or its failure. *)
Fixpoint shuffle_loop (random : nat → option Z) (index : nat) : M PlaybackQueueContext str unit :=
  match index with
  | O => mret tt
  | S below =>
      match random index with
      | None => fail (st "Playback Queue shuffle could not be generated.")
      | Some r =>
          q ← get;
          o ← lift (swap (order q) index (Z.to_nat (r mod Z.of_nat (index + 1))));
          _ ← set_order o;
          shuffle_loop random below
      end
  end.

Definition avoid_sequential_successor : M PlaybackQueueContext str unit :=
  q ← get;
  match current_index q with
  | None => mret tt
  | Some current =>
      match position current (order q) with
      | None => mret tt
      | Some p =>
          o ← lift (rotate_left (order q) p);
          _ ← set_order o;
          if bool_decide (2 < length o)%nat then
            second ← lift (match o !! 1%nat with Some x => Ok x | None => Panic end);
            if bool_decide (second = (current + 1) `mod` length o)%nat then
              o ← lift (swap o 1 2); set_order o
            else mret tt
          else mret tt
      end
  end.

Definition shuffle (random : nat → option Z) : M PlaybackQueueContext str unit :=
  _ ← reset_order;
  q ← get;
  _ ← shuffle_loop random (pred (length (order q)));
  avoid_sequential_successor.

(** The position [adjacent_source] steps to. *)
Definition next_position (direction : QueueDirection) (should_wrap : bool) (p len : nat) : option nat :=
  match direction with
  | Previous => if bool_decide (0 < p)%nat then Some (p - 1)%nat
                else if should_wrap then if bool_decide (0 < len)%nat then Some (len - 1)%nat else None
                else None
  | Next => if bool_decide (p + 1 < len)%nat then Some (p + 1)%nat
            else if should_wrap && bool_decide (0 < len)%nat then Some 0%nat
            else None
  end.

Definition adjacent_source (q : PlaybackQueueContext) (direction : QueueDirection) (should_wrap : bool)
    : outcome str (option Value) :=
  match current_index q with
  | None => Ok None
  | Some current =>
      match position current (order q) with
      | None => Ok None
      | Some p =>
          match next_position direction should_wrap p (length (order q)) with
          | None => Ok None
          | Some next =>
              match order q !! next with
              | None => Panic
              | Some i => Ok (sources q !! i)
              end
          end
      end
  end.
End Queue.

(** ** A well-formed Queue *)

Section Lemmas.
Context {SJ : SerdeJson} {SF : SourceFormat}.

(** The order is one of all the sources, and the current source is among them. *)
Record wf (q : PlaybackQueueContext) : Prop := {
  wf_order : order q ≡ₚ seq 0 (length (sources q));
  wf_current : ∀ i, current_index q = Some i → (i < length (sources q))%nat
}.

Lemma wf_empty : wf empty_queue.
Proof. by split. Qed.

Lemma wf_length q : wf q → length (order q) = length (sources q).
Proof. intros [Ho _]. by rewrite Ho, length_seq. Qed.

Lemma wf_nodup q : wf q → NoDup (order q).
Proof. intros [Ho _]. rewrite Ho. apply NoDup_seq. Qed.

Lemma wf_elem q i : wf q → i ∈ order q ↔ (i < length (sources q))%nat.
Proof. intros [Ho _]. rewrite Ho, elem_of_seq. lia. Qed.

Lemma position_Some i l p : position i l = Some p → l !! p = Some i.
Proof.
  unfold position. destruct (list_find _ l) as [[p' x]|] eqn:Hf; [|done]. intros [= <-].
  apply list_find_Some in Hf as (Hx & -> & _). done.
Qed.

Lemma position_is i l p : NoDup l → l !! p = Some i → position i l = Some p.
Proof.
  intros Hl Hp. unfold position. assert (list_find (i =.) l = Some (p, i)) as ->; [|done].
  apply list_find_Some. split_and!; [done|done|]. intros j y Hj Hlt <-.
  pose proof (NoDup_lookup l j p i Hl Hj Hp). lia.
Qed.

Lemma position_current q c : wf q → current_index q = Some c → ∃ p, position c (order q) = Some p ∧ order q !! p = Some c.
Proof.
  intros Hq Hc. assert (c ∈ order q) as [p Hp]%list_elem_of_lookup by (apply wf_elem; [done|by apply Hq]).
  exists p. split; [by apply position_is; [apply wf_nodup|]|done].
Qed.

Lemma swap_permutation {E A} (l : list A) i j : (i < length l)%nat → (j < length l)%nat →
  ∃ l', @swap E A l i j = Ok l' ∧ l' ≡ₚ l ∧ l' !! i = l !! j ∧ (i ≠ j → l' !! j = l !! i).
Proof.
  intros [x Hx]%lookup_lt_is_Some [y Hy]%lookup_lt_is_Some. unfold swap. rewrite Hx, Hy. eexists. split; [done|].
  assert (i < length l)%nat as Hi by (by eapply lookup_lt_Some). assert (j < length l)%nat as Hj by (by eapply lookup_lt_Some).
  split; [|split].
  - destruct (decide (i = j)) as [<-|Hne].
    + rewrite Hx in Hy. injection Hy as ->. rewrite list_insert_insert_eq. by rewrite list_insert_id.
    + apply Permutation_inj. split; [by rewrite !length_insert|].
      exists (λ k, if decide (k = i) then j else if decide (k = j) then i else k). split.
      { intros a b. repeat case_decide; congruence. }
      intros k. case_decide; subst; [|case_decide; subst].
      * by rewrite list_lookup_insert_eq by (by rewrite length_insert).
      * by rewrite list_lookup_insert_ne, list_lookup_insert_eq by done.
      * by rewrite !list_lookup_insert_ne by done.
  - by rewrite list_lookup_insert_eq by (by rewrite length_insert).
  - intros ?. by rewrite list_lookup_insert_ne, list_lookup_insert_eq by done.
Qed.

Definition same_sources (q q' : PlaybackQueueContext) : Prop :=
  sources q' = sources q ∧ current_index q' = current_index q.

Lemma set_order_wf {E} o q : wf q → o ≡ₚ order q → wf (@set_order _ E o q).2.
Proof. intros [Ho Hc] Hp. split; [|done]. by rewrite <-Ho. Qed.

Lemma reset_order_wf {E} q : (∀ i, current_index q = Some i → (i < length (sources q))%nat) → wf (@reset_order _ E q).2.
Proof. intros Hc. by split. Qed.

Lemma shuffle_loop_wf random n q : wf q → (n < length (order q) ∨ n = 0)%nat →
  wf (shuffle_loop random n q).2 ∧ same_sources q (shuffle_loop random n q).2 ∧ returns (shuffle_loop random n q).1.
Proof.
  revert q. induction n as [|n IH]; intros q Hq Hn; cbn [shuffle_loop]; [done|].
  destruct (random (S n)) as [r|]; [|done]. run_m.
  assert (Z.to_nat (r mod Z.of_nat (S n + 1)) < length (order q))%nat as Hr.
  { pose proof (Z.mod_pos_bound r (Z.of_nat (S n + 1)) ltac:(lia)). lia. }
  destruct (@swap_permutation str _ (order q) (S n) (Z.to_nat (r mod Z.of_nat (S n + 1)))) as (o & Ho & Hp & _); [lia|done|].
  change (S n + 1)%nat with (S (n + 1)) in Ho. rewrite Ho. unfold set_order, modify. destruct (IH (mkQueue (sources q) o (current_index q))) as (H1 & H2 & H3).
  - split; [|apply Hq]. cbn. rewrite Hp. apply Hq.
  - cbn. rewrite Hp. lia.
  - done.
Qed.

Lemma avoid_cases q : wf q → let '(r, q') := avoid_sequential_successor q in
  r = Ok tt ∧ wf q' ∧ same_sources q q' ∧
  ∀ c, current_index q = Some c → order q' !! 0%nat = Some c ∧
    ((2 < length (sources q))%nat → order q' !! 1%nat ≠ Some ((c + 1) `mod` length (sources q))%nat).
Proof.
  intros Hq. unfold avoid_sequential_successor. run_m. destruct (current_index q) as [c|] eqn:Hc; [|done].
  destruct (position_current q c Hq Hc) as (p & -> & Hp). pose proof (wf_length q Hq) as Hlen.
  assert (p < length (order q))%nat as Hpl by (by eapply lookup_lt_Some).
  unfold rotate_left. rewrite bool_decide_eq_true_2 by lia. unfold set_order, modify.
  set (o := drop p (order q) ++ take p (order q)).
  assert (o ≡ₚ order q) as Ho by (unfold o; rewrite (Permutation_app_comm (drop p _)); by rewrite take_drop).
  assert (length o = length (sources q)) as Hol by (by rewrite Ho).
  assert (o !! 0%nat = Some c) as Hhead by (unfold o; rewrite lookup_app_l by (rewrite length_drop; lia); rewrite lookup_drop, Nat.add_0_r; done).
  assert (NoDup o) as Hnd by (rewrite Ho; by apply wf_nodup).
  assert (∀ o', o' ≡ₚ order q → wf (mkQueue (sources q) o' (current_index q))) as Hwf.
  { intros o' Hp'. split; cbn; [by rewrite Hp'; apply Hq|apply Hq]. }
  case_bool_decide as H2; [|split_and!; [done|by apply Hwf|by split|]].
  2: { intros c' [= <-]. split; [done|]. rewrite Hol in H2. lia. }
  destruct (lookup_lt_is_Some_2 o 1) as [x Hx]; [lia|]. rewrite Hx. rewrite Hol.
  case_bool_decide as Hx2.
  - destruct (@swap_permutation str _ o 1 2) as (o' & Ho' & Hp' & H1' & _); [lia..|]. rewrite Ho'.
    split_and!; [done|apply Hwf; by rewrite Hp'|by split|].
    intros c' [= <-]. split.
    + unfold swap in Ho'. rewrite Hx in Ho'. destruct (o !! 2%nat); [|done]. injection Ho' as <-. cbn.
      by rewrite !list_lookup_insert_ne.
    + intros _. cbn [order]. rewrite H1'. destruct (lookup_lt_is_Some_2 o 2) as [y Hy]; [lia|]. rewrite Hy. intros [= ->].
      subst x. pose proof (NoDup_lookup o 1 2 _ Hnd Hx Hy). lia.
  - split_and!; [done|by apply Hwf|by split|]. intros c' [= <-]. split; [done|]. intros _.
    cbn [order]. rewrite Hx. congruence.
Qed.


(** ** The orders [shuffle] makes *)

(** Fisher and Yates' choice for a wanted order. *)
Fixpoint choices (o wanted : list nat) (n : nat) : nat → option Z :=
  match n with
  | O => λ _, Some 0
  | S below =>
      let j := default 0%nat (wanted !! n ≫= λ x, position x o) in
      let rest := match @swap str _ o n j with Ok o' => choices o' wanted below | _ => λ _, Some 0 end in
      λ k, if decide (k = n) then Some (Z.of_nat j) else rest k
  end.

Lemma shuffle_loop_ext random random' n q : (∀ k, (0 < k ≤ n)%nat → random k = random' k) →
  shuffle_loop random n q = shuffle_loop random' n q.
Proof.
  revert q. induction n as [|n IH]; intros q Hk; [done|]. cbn [shuffle_loop].
  rewrite (Hk (S n)) by lia. destruct (random' (S n)); [|done]. run_m.
  destruct (swap _ _ _); [|done..]. apply IH. intros; apply Hk; lia.
Qed.

Lemma prefix_position (o wanted : list nat) n x : NoDup o → o ≡ₚ wanted → wanted !! n = Some x →
  drop (S n) o = drop (S n) wanted → ∃ j, (j ≤ n)%nat ∧ o !! j = Some x.
Proof.
  intros Hnd Hp Hx Hd. assert (x ∈ o) as [j Hj]%list_elem_of_lookup by (rewrite Hp; by eapply list_elem_of_lookup_2).
  exists j. split; [|done]. destruct (decide (j ≤ n)%nat); [done|]. exfalso.
  assert (wanted !! j = Some x) as Hj'.
  { replace j with (S n + (j - S n))%nat in Hj |- * by lia. by rewrite <-lookup_drop, <-Hd, lookup_drop. }
  rewrite Hp in Hnd. pose proof (NoDup_lookup wanted _ _ _ Hnd Hx Hj'). lia.
Qed.

Lemma swap_ends {E A} (l : list A) n j x : (j ≤ n)%nat → (n < length l)%nat → l !! j = Some x →
  ∃ l', @swap E A l n j = Ok l' ∧ l' ≡ₚ l ∧ drop n l' = x :: drop (S n) l.
Proof.
  intros Hj Hn Hx. destruct (@swap_permutation E A l n j) as (l' & Hs & Hp & Hl & _); [lia..|].
  exists l'. split_and!; [done..|]. rewrite Hx in Hl. rewrite (drop_S _ _ _ Hl). f_equal.
  unfold swap in Hs. rewrite Hx in Hs. destruct (l !! n); [|done]. injection Hs as <-.
  by rewrite !drop_insert_lt by lia.
Qed.

Lemma shuffle_loop_reaches n wanted q : NoDup (order q) → order q ≡ₚ wanted → (n < length wanted)%nat →
  drop (S n) (order q) = drop (S n) wanted →
  shuffle_loop (choices (order q) wanted n) n q = (Ok tt, mkQueue (sources q) wanted (current_index q)).
Proof.
  revert q. induction n as [|n IH]; intros q Hnd Hp Hn Hd.
  - cbn. destruct q as [v o c]. cbn in *. do 2 f_equal. destruct o as [|x o], wanted as [|y w]; cbn in *; [lia|by apply Permutation_length in Hp|lia|].
    rewrite !drop_0 in Hd. subst o. apply (Permutation_app_inv_r w [x] [y]) in Hp.
    by apply Permutation_singleton_inj in Hp as ->.
  - cbn [shuffle_loop choices]. rewrite decide_True by done. run_m.
    destruct (lookup_lt_is_Some_2 wanted (S n) Hn) as [x Hx].
    destruct (prefix_position _ _ _ _ Hnd Hp Hx Hd) as (j & Hj & Hoj). rewrite Hx. cbn [mbind option_bind].
    rewrite (position_is x _ j) by done. cbn [from_option id].
    assert (Z.to_nat (Z.of_nat j mod Z.of_nat (S (n + 1))) = j) as -> by (rewrite Z.mod_small; lia).
    destruct (@swap_ends str _ (order q) (S n) j x) as (o & Ho & Hpo & Hdo); [lia|by rewrite Hp|done|].
    rewrite Ho. unfold set_order, modify.
    rewrite (shuffle_loop_ext _ (choices o wanted n)) by (intros k Hk; by rewrite decide_False by lia).
    apply (IH (mkQueue (sources q) o (current_index q))); cbn.
    + by rewrite Hpo.
    + by rewrite Hpo.
    + lia.
    + rewrite Hdo, Hd. symmetry. by apply drop_S.
Qed.

Lemma choices_range wanted n o k r : choices o wanted n k = Some r → 0 ≤ r ≤ Z.of_nat (length o).
Proof.
  revert o. induction n as [|n IH]; intros o; cbn; [intros [= <-]; lia|].
  destruct (wanted !! S n) as [x|]; cbn; [destruct (position x o) as [j|] eqn:Hj|]; cbn.
  1: apply position_Some, lookup_lt_Some in Hj.
  all: case_decide; [intros [= <-]; lia|].
  all: unfold swap; repeat case_match; try (intros [= <-]; lia); intros Hk; simplify_eq; apply IH in Hk; rewrite !length_insert in Hk; lia.
Qed.

Lemma avoid_keeps q c : wf q → current_index q = Some c → order q !! 0%nat = Some c →
  ((2 < length (sources q))%nat → order q !! 1%nat ≠ Some ((c + 1) `mod` length (sources q))%nat) →
  avoid_sequential_successor q = (Ok tt, q).
Proof.
  intros Hq Hc H0 H1. unfold avoid_sequential_successor. run_m. rewrite Hc.
  rewrite (position_is c _ 0%nat) by (done || by apply wf_nodup).
  unfold rotate_left. rewrite bool_decide_eq_true_2 by lia. unfold set_order, modify.
  rewrite drop_0. cbn [take]. rewrite app_nil_r, (wf_length q Hq).
  assert (mkQueue (sources q) (order q) (current_index q) = q) as Heq by by destruct q.
  rewrite ?Hc. rewrite Hc in Heq. rewrite ?Heq. case_bool_decide as H2; [|done]. specialize (H1 H2).
  destruct (lookup_lt_is_Some_2 (order q) 1) as [x Hx]; [rewrite wf_length by done; lia|]. rewrite Hx.
  rewrite bool_decide_eq_false_2; [done|]. congruence.
Qed.

Lemma shuffle_cases random q : (∀ i, current_index q = Some i → (i < length (sources q))%nat) →
  let '(r, q') := shuffle random q in returns r ∧ wf q' ∧ same_sources q q' ∧
  (r = Ok tt → ∀ c, current_index q = Some c → order q' !! 0%nat = Some c ∧
    ((2 < length (sources q))%nat → order q' !! 1%nat ≠ Some ((c + 1) `mod` length (sources q))%nat)).
Proof.
  intros Hc. unfold shuffle, reset_order, modify. run_m. set (q0 := mkQueue _ (seq _ _) _).
  assert (wf q0) as H0 by by split.
  destruct (shuffle_loop_wf random (pred (length (order q0))) q0 H0) as (Hw & Hs & Hr); [lia|].
  fold q0. change (seq 0 (length (sources q))) with (order q0). destruct (shuffle_loop random _ q0) as [[[]|e| |] q1]; cbn in *; try done.
  pose proof (avoid_cases q1 Hw) as Ha. destruct (avoid_sequential_successor q1) as [r q2].
  destruct Ha as (-> & Hw2 & Hs2 & Ho). destruct Hs as [Hs1 Hs1'], Hs2 as [Hs2 Hs2']. cbn in *.
  split_and!; [done|done|split; congruence|]. intros _ c Hcc. rewrite <-Hs1. apply Ho. congruence.
Qed.

(** C19: [shuffle] makes exactly the orders that start with the current source
    and, among more than two sources, do not go on with the source that follows
    it in the Queue: whatever the random bytes are, an order it makes is such a
    one, and each of them is made for some random bytes. *)
Theorem shuffle_orders q c o : wf q → current_index q = Some c → Z.of_nat (length (sources q)) < 2 ^ 64 →
  (∃ random, (∀ k r, random k = Some r → 0 ≤ r < 2 ^ 64) ∧ shuffle random q = (Ok tt, mkQueue (sources q) o (Some c))) ↔
  o ≡ₚ seq 0 (length (sources q)) ∧ o !! 0%nat = Some c ∧
  ((2 < length (sources q))%nat → o !! 1%nat ≠ Some ((c + 1) `mod` length (sources q))%nat).
Proof.
  intros Hq Hc Hlen. split.
  - intros (random & _ & Hs). pose proof (shuffle_cases random q (wf_current q Hq)) as Hcases.
    rewrite Hs in Hcases. destruct Hcases as (_ & Hw & _ & Ho). split; [apply Hw|]. by apply Ho.
  - intros (Hp & H0 & H1). set (n := length (sources q)) in *.
    exists (choices (seq 0 n) o (pred n)). split.
    { intros k r Hr%choices_range. rewrite length_seq in Hr. lia. }
    assert (length o = n) as Hon by (by rewrite Hp, length_seq). apply lookup_lt_Some in H0 as Hpos.
    pose proof (shuffle_loop_reaches (pred n) o (mkQueue (sources q) (seq 0 n) (current_index q))) as Hr.
    cbn [order sources current_index] in Hr. unfold shuffle, reset_order, modify. run_m. fold n.
    rewrite length_seq, Hr; [|apply NoDup_seq|done|lia|rewrite !drop_ge; rewrite ?length_seq; done || lia].
    rewrite <-Hc. apply (avoid_keeps _ c); cbn; [split; cbn; [done|apply Hq]|done|done|done].
Qed.

(** ** Stepping through the Queue *)

(** Every source can be read, and no two have the same identity: only then does
    [align_to_source] find the source that was taken. *)
Definition distinct (q : PlaybackQueueContext) : Prop :=
  ∃ ps : list PlaybackSource, Forall2 (λ v p, parse v = Ok p) (sources q) ps ∧ NoDup (identity <$> ps).

Lemma find_identity_at vs ps k i v p : Forall2 (λ v p, parse v = Ok p) vs ps → NoDup (identity <$> ps) →
  vs !! i = Some v → parse v = Ok p → find_identity (identity p) vs k = Ok (Some (k + i)%nat).
Proof.
  intros H2. revert k i. induction H2 as [|w p' vs ps Hw H2 IH]; intros k i Hnd Hi Hv; [done|].
  cbn [find_identity]. rewrite Hw. cbn. apply NoDup_cons in Hnd as [Hni Hnd]. destruct i as [|i]; cbn in Hi.
  - injection Hi as ->. rewrite Hv in Hw. injection Hw as ->. rewrite bool_decide_eq_true_2 by done. by rewrite Nat.add_0_r.
  - rewrite bool_decide_eq_false_2.
    + rewrite (IH (S k) i) by done. do 2 f_equal. lia.
    + intros Heq. apply Hni. rewrite Heq. destruct (Forall2_lookup_l _ _ _ _ _ H2 Hi) as (p'' & Hp'' & Hp).
      rewrite Hv in Hp. injection Hp as <-. apply list_elem_of_fmap_2' with p; [|done]. by eapply list_elem_of_lookup_2.
Qed.

Lemma align_at q i v : distinct q → sources q !! i = Some v →
  align_to_source v q = (Ok tt, mkQueue (sources q) (order q) (Some i)).
Proof.
  intros (ps & H2 & Hnd) Hi. destruct (Forall2_lookup_l _ _ _ _ _ H2 Hi) as (p & Hp & Hv).
  unfold align_to_source. run_m. rewrite Hv. by rewrite (find_identity_at _ ps 0 i v p).
Qed.

Definition source_at (q : PlaybackQueueContext) (p : nat) : option Value :=
  i ← order q !! p; sources q !! i.

Lemma adjacent_at q c p d wrap : wf q → current_index q = Some c → position c (order q) = Some p →
  adjacent_source q d wrap = Ok (next_position d wrap p (length (order q)) ≫= source_at q).
Proof.
  intros Hq Hc Hp. unfold adjacent_source, source_at. rewrite Hc, Hp. destruct (next_position d wrap p _) as [n|] eqn:Hn; [|done]. cbn.
  assert (n < length (order q))%nat as [i ->]%lookup_lt_is_Some.
  { apply position_Some, lookup_lt_Some in Hp. unfold next_position in Hn. repeat case_match; simplify_eq; bool_to_prop; lia. }
  done.
Qed.

(** Playing the adjacent source, as [load_adjacent_source] does when the load
    succeeds: the source is taken, then the Queue is aligned to it. *)
Definition play_adjacent (d : QueueDirection) (wrap : bool) : M PlaybackQueueContext str (option Value) :=
  q ← get;
  next ← lift (adjacent_source q d wrap);
  match next with
  | None => mret None
  | Some v => _ ← align_to_source v; mret (Some v)
  end.

Fixpoint play_next (wrap : bool) (n : nat) : M PlaybackQueueContext str (list (option Value)) :=
  match n with
  | O => mret []
  | S n => v ← play_adjacent Next wrap; vs ← play_next wrap n; mret (v :: vs)
  end.

Definition at_position (q : PlaybackQueueContext) (p : nat) : PlaybackQueueContext :=
  mkQueue (sources q) (order q) (order q !! p).

Lemma play_adjacent_at q d wrap p p' : wf q → distinct q → (p < length (order q))%nat →
  next_position d wrap p (length (order q)) = Some p' →
  play_adjacent d wrap (at_position q p) = (Ok (source_at q p'), at_position q p') ∧ (p' < length (order q))%nat.
Proof.
  intros Hq Hd Hp Hn. assert (p' < length (order q))%nat as Hp'.
  { unfold next_position in Hn. repeat case_match; simplify_eq; bool_to_prop; lia. }
  split; [|done]. destruct (lookup_lt_is_Some_2 _ _ Hp) as [c Hc], (lookup_lt_is_Some_2 _ _ Hp') as [c' Hc'].
  assert (c' < length (sources q))%nat as [v Hv]%lookup_lt_is_Some.
  { apply wf_elem; [done|]. by eapply list_elem_of_lookup_2. }
  assert (wf (at_position q p)) as Hqp.
  { split; [apply Hq|]. cbn. intros i Hi. apply wf_elem; [done|]. by eapply list_elem_of_lookup_2. }
  unfold play_adjacent. run_m. rewrite (adjacent_at _ c p d wrap Hqp); [|done|apply position_is; [by apply wf_nodup|done]].
  cbn [order at_position sources]. rewrite Hn. unfold source_at, at_position. cbn.
  rewrite Hc'. cbn. rewrite Hv. by rewrite (align_at _ c' v).
Qed.

Lemma play_next_from q wrap p k : wf q → distinct q → (p + k < length (order q))%nat →
  play_next wrap k (at_position q p) = (Ok (source_at q <$> seq (S p) k), at_position q (p + k)).
Proof.
  intros Hq Hd. revert p. induction k as [|k IH]; intros p Hp; cbn [play_next].
  - by rewrite Nat.add_0_r.
  - run_m. destruct (play_adjacent_at q Next wrap p (S p) Hq Hd) as [-> _]; [lia| |].
    { unfold next_position. rewrite bool_decide_eq_true_2 by lia. f_equal. lia. }
    rewrite IH by lia. cbn. do 2 f_equal. f_equal. lia.
Qed.

Lemma play_next_app wrap m n q : play_next wrap (m + n) q =
  (vs ← play_next wrap m; ws ← play_next wrap n; mret (vs ++ ws)) q.
Proof.
  revert q. induction m as [|m IH]; intros q; cbn [play_next Nat.add].
  - run_m. by destruct (play_next wrap n q) as [[| | |] ?].
  - run_m. destruct (play_adjacent Next wrap q) as [[v| | |] q1]; try done. rewrite IH. run_m.
    destruct (play_next wrap m q1) as [[vs| | |] q2]; try done. by destruct (play_next wrap n q2) as [[ws| | |] q3].
Qed.

Lemma source_at_Some q p : wf q → (p < length (order q))%nat → ∃ v, source_at q p = Some v.
Proof.
  intros Hq [c Hc]%lookup_lt_is_Some. unfold source_at. rewrite Hc. cbn.
  apply lookup_lt_is_Some, wf_elem; [done|]. by eapply list_elem_of_lookup_2.
Qed.

Lemma fmap_lookup_seq {A} (l : list A) : (λ i, l !! i) <$> seq 0 (length l) = Some <$> l.
Proof.
  apply list_eq. intros k. rewrite !list_lookup_fmap. destruct (decide (k < length l)%nat) as [Hk|Hk].
  - rewrite lookup_seq_lt by done. cbn. destruct (lookup_lt_is_Some_2 l k Hk) as [x ->]. done.
  - by rewrite lookup_seq_ge, lookup_ge_None_2 by lia.
Qed.

Lemma sources_in_order q : wf q → source_at q <$> seq 0 (length (order q)) ≡ₚ Some <$> sources q.
Proof.
  intros Hq. assert (source_at q <$> seq 0 (length (order q)) = (λ i, sources q !! i) <$> order q) as ->.
  { apply list_eq. intros k. rewrite !list_lookup_fmap. destruct (decide (k < length (order q))%nat) as [Hk|Hk].
    - rewrite lookup_seq_lt by done. cbn. unfold source_at. by destruct (lookup_lt_is_Some_2 _ _ Hk) as [x ->].
    - by rewrite lookup_seq_ge, lookup_ge_None_2 by lia. }
  rewrite (wf_order q Hq). by rewrite fmap_lookup_seq.
Qed.

Lemma tour_from q p : wf q → distinct q → (p < length (order q))%nat →
  play_next true (length (order q)) (at_position q p) =
  (Ok (source_at q <$> seq (S p) (length (order q) - S p) ++ seq 0 (S p)), at_position q p).
Proof.
  intros Hq Hd Hp. set (n := length (order q)) in *.
  transitivity (play_next true ((n - S p) + (1 + p)) (at_position q p)); [do 2 f_equal; lia|].
  rewrite play_next_app. run_m.
  rewrite play_next_from by (done || lia). run_m. replace (p + (n - S p))%nat with (n - 1)%nat by lia.
  destruct (play_adjacent_at q Next true (n - 1) 0 Hq Hd) as [-> _]; [lia| |].
  { unfold next_position. fold n. rewrite bool_decide_eq_false_2, bool_decide_eq_true_2 by lia. done. }
  rewrite (play_next_from q true 0 p) by (done || lia). by rewrite fmap_app.
Qed.

Lemma step_back d wrap p p' n : (p < n)%nat → next_position d wrap p n = Some p' →
  next_position match d with Next => Previous | Previous => Next end wrap p' n = Some p.
Proof.
  unfold next_position. intros Hp. destruct d, wrap; cbn; repeat case_bool_decide; intros; simplify_eq; f_equal; lia.
Qed.

(** C20: Repeating, a Queue of sources with distinct identities plays each of its
    sources exactly once before it is back where it was; without repeating it
    stops after the last source of its order only; and stepping the other way
    returns to the source that was left. *)
Theorem queue_tour q c : wf q → distinct q → current_index q = Some c →
  (∃ played, play_next true (length (sources q)) q = (Ok (Some <$> played), q) ∧ played ≡ₚ sources q) ∧
  (adjacent_source q Next false = Ok None ↔ last (order q) = Some c) ∧
  (∀ d wrap v q', play_adjacent d wrap q = (Ok (Some v), q') →
     play_adjacent match d with Next => Previous | Previous => Next end wrap q' = (Ok (sources q !! c), q)).
Proof.
  intros Hq Hd Hc. destruct (position_current q c Hq Hc) as (p & Hpos & Hp). pose proof (wf_length q Hq) as Hlen.
  apply lookup_lt_Some in Hp as Hpl. assert (at_position q p = q) as Hqp.
  { unfold at_position. rewrite Hp, <-Hc. by destruct q. }
  split_and!.
  - pose proof (tour_from q p Hq Hd Hpl) as Ht. rewrite Hqp, Hlen in Ht. rewrite Ht.
    assert (source_at q <$> seq (S p) (length (sources q) - S p) ++ seq 0 (S p) ≡ₚ Some <$> sources q) as Hperm.
    { rewrite <-sources_in_order, Hlen by done. apply fmap_Permutation. rewrite Permutation_app_comm, <-seq_app.
      by replace (S p + (length (sources q) - S p))%nat with (length (sources q)) by lia. }
    apply Permutation_map_inv in Hperm as (played & -> & Hperm). by exists played.
  - rewrite (adjacent_at q c p) by done. rewrite last_lookup. unfold next_position. rewrite andb_false_l.
    case_bool_decide as Hn; cbn.
    + destruct (source_at_Some q (p + 1) Hq Hn) as [v ->]. split; [done|]. intros Hl.
      pose proof (NoDup_lookup _ _ _ _ (wf_nodup q Hq) Hl Hp). lia.
    + replace (pred (length (order q))) with p by lia. done.
  - intros d wrap v q' Hstep. destruct (next_position d wrap p (length (order q))) as [p'|] eqn:Hn.
    + destruct (play_adjacent_at q d wrap p p' Hq Hd Hpl Hn) as [Hplay Hp']. rewrite Hqp, Hstep in Hplay.
      injection Hplay as _ ->. apply step_back in Hn; [|done].
      destruct (play_adjacent_at q _ wrap p' p Hq Hd Hp' Hn) as [-> _]. rewrite Hqp. unfold source_at. by rewrite Hp.
    + revert Hstep. unfold play_adjacent. run_m. rewrite (adjacent_at q c p) by done. by rewrite Hn.
Qed.
End Lemmas.

(** A format in which each number is the radio station of that number. *)
#[local] Existing Instance numbers.
#[local] Instance stations : @SourceFormat numbers := {| from_value (v : @Value numbers) := inr (RadioStation [v] [v]) |}.

Lemma shuffle_orders_witness :
  let q : @PlaybackQueueContext numbers := mkQueue [10; 11; 12] [0; 1; 2]%nat (Some 1%nat) in
  (∃ random, (∀ k r, random k = Some r → 0 ≤ r < 2 ^ 64) ∧
     @shuffle numbers random q = (Ok tt, mkQueue [10; 11; 12] [1; 0; 2]%nat (Some 1%nat))).
Proof.
  refine (proj2 (@shuffle_orders numbers (mkQueue [10; 11; 12] [0; 1; 2]%nat (Some 1%nat)) 1%nat [1; 0; 2]%nat _ _ _) _).
  - split; [done|]. cbn. intros i [= <-]. lia.
  - done.
  - cbn. lia.
  - cbn. split_and!; [|done|done]. apply Permutation_swap.
Defined.

Lemma queue_tour_witness :
  let q : @PlaybackQueueContext numbers := mkQueue [10; 11] [1; 0]%nat (Some 1%nat) in
  ∃ played, @play_next numbers stations true 2 q = (Ok (Some <$> played), q) ∧ played ≡ₚ [10; 11].
Proof.
  refine (proj1 (@queue_tour numbers stations (mkQueue [10; 11] [1; 0]%nat (Some 1%nat)) 1%nat _ _ _)).
  - split; [apply Permutation_swap|]. cbn. intros i [= <-]. lia.
  - exists [RadioStation [10] [10]; RadioStation [11] [11]]. split; [repeat constructor|].
    apply (bool_decide_unpack _). vm_compute. done.
  - done.
Defined.
