(* ===== verification/Prog.v ===== *)
(** Programs of threads that share memory: a tree of atomic actions on the shared
    state, calls of the world outside, and locks. A program runs alone ([run]),
    or interleaved with others ([step]); what holds of every action of every
    program holds in every interleaving, and programs that take locks in order
    never wait for each other forever. *)

From Stdlib Require Import Sorted.
From S2P Require Import Prelude.

Inductive prog (S : Type) (C : Type → Type) (A : Type) : Type :=
| Done (a : A)
| Act {B : Type} (op : S → B * S) (k : B → prog S C A)
| Call {B : Type} (c : C B) (k : B → prog S C A)
| Lock (l : nat) (k : prog S C A)
| Unlock (l : nat) (k : prog S C A).
Arguments Done {S C A} a.
Arguments Act {S C A B} op k.
Arguments Call {S C A B} c k.
Arguments Lock {S C A} l k.
Arguments Unlock {S C A} l k.

#[export] Instance prog_ret {S C} : MRet (prog S C) := λ _ a, Done a.
#[export] Instance prog_bind {S C} : MBind (prog S C) := λ A B f,
  fix go p :=
    match p with
    | Done a => f a
    | Act op k => Act op (λ b, go (k b))
    | Call c k => Call c (λ b, go (k b))
    | Lock l k => Lock l (go k)
    | Unlock l k => Unlock l (go k)
    end.

(** One action, one call, and a part of a program that holds a lock. *)
Definition act {S C B} (op : S → B * S) : prog S C B := Act op Done.
Definition call {S} {C : Type → Type} {B} (c : C B) : prog S C B := Call c Done.
Definition read {S C B} (f : S → B) : prog S C B := act (λ s, (f s, s)).
Definition write {S C} (f : S → S) : prog S C unit := act (λ s, (tt, f s)).
Definition locked {S C A} (l : nat) (p : prog S C A) : prog S C A :=
  Lock l (a ← p; Unlock l (Done a)).

(** [?]: the rest of a program after a step that can fail. *)
Definition and_then {S C E A B} (p : prog S C (outcome E A)) (f : A → prog S C (outcome E B)) : prog S C (outcome E B) :=
  r ← p;
  match r with
  | Ok a => f a
  | Err e => Done (Err e)
  | Panic => Done Panic
  | OutOfFuel => Done OutOfFuel
  end.
Notation "x ←? m ; k" := (and_then m (λ x, k)) (at level 20, m at level 100, k at level 200, right associativity) : stdpp_scope.
Notation "' x ←? m ; k" := (and_then m (λ x, k)) (at level 20, x pattern, m at level 100, k at level 200, right associativity) : stdpp_scope.

(** [Result::map_err] of what a program returns. *)
Definition with_err {S C E F A} (f : E → F) (p : prog S C (outcome E A)) : prog S C (outcome F A) :=
  r ← p; Done (map_err f r).

(** A program on a part of the state, with its calls among those of a larger one. *)
Fixpoint zoom {S T C D A} (part : T → S) (back : S → T → T) (inj : ∀ B, C B → D B) (p : prog S C A) : prog T D A :=
  match p with
  | Done a => Done a
  | Act op k => Act (λ t, let '(b, s) := op (part t) in (b, back s t)) (λ b, zoom part back inj (k b))
  | Call c k => Call (inj _ c) (λ b, zoom part back inj (k b))
  | Lock l k => Lock l (zoom part back inj k)
  | Unlock l k => Unlock l (zoom part back inj k)
  end.

(** ** Alone *)

(** The program with no other thread beside it: [answer] is the world, and the
    result ends with the calls that were made, the last one first. *)
Fixpoint run {S C A W} (answer : ∀ B, C B → W → B * W) (p : prog S C A) (s : S) (w : W) (log : list (sigT C))
    : A * S * W * list (sigT C) :=
  match p with
  | Done a => (a, s, w, log)
  | Act op k => let '(b, s') := op s in run answer (k b) s' w log
  | Call c k => let '(b, w') := answer _ c w in run answer (k b) s w' (existT _ c :: log)
  | Lock _ k | Unlock _ k => run answer k s w log
  end.

Lemma run_bind {S C A B W} (answer : ∀ B, C B → W → B * W) (p : prog S C A) (f : A → prog S C B) s w log :
  run answer (p ≫= f) s w log = let '(a, s', w', log') := run answer p s w log in run answer (f a) s' w' log'.
Proof.
  revert s w log. induction p as [a|B' op k IH|B' c k IH|l k IH|l k IH]; intros s w log; cbn; try done.
  - destruct (op s) as [b s']. apply IH.
  - destruct (answer _ c w) as [b w']. apply IH.
Qed.

Lemma run_and_then {S C E A B W} (answer : ∀ B, C B → W → B * W) (p : prog S C (outcome E A)) (f : A → prog S C (outcome E B)) s w log :
  run answer (and_then p f) s w log =
  let '(r, s', w', log') := run answer p s w log in
  match r with
  | Ok a => run answer (f a) s' w' log'
  | Err e => (Err e, s', w', log')
  | Panic => (Panic, s', w', log')
  | OutOfFuel => (OutOfFuel, s', w', log')
  end.
Proof. unfold and_then. rewrite run_bind. by destruct (run answer p s w log) as [[[[] ?] ?] ?]. Qed.

Lemma run_locked {S C A W} (answer : ∀ B, C B → W → B * W) l (p : prog S C A) s w log :
  run answer (locked l p) s w log = run answer p s w log.
Proof. unfold locked. cbn [run]. rewrite run_bind. by destruct (run answer p s w log) as [[[? ?] ?] ?]. Qed.

(** How the program ends, without the calls it made. *)
Definition ends {S C A W} (answer : ∀ B, C B → W → B * W) (p : prog S C A) (s : S) (w : W) : A * S * W := (run answer p s w []).1.

Lemma run_log {S C A W} (answer : ∀ B, C B → W → B * W) (p : prog S C A) s w log :
  (run answer p s w log).1 = ends answer p s w.
Proof.
  unfold ends. generalize (@nil (sigT C)) at 1. revert s w log.
  induction p as [a|B op k IH|B c k IH|l k IH|l k IH]; intros s w log log'; cbn; try done.
  - destruct (op s). apply IH.
  - destruct (answer _ c w). apply IH.
Qed.

Lemma run_ends_bind {S C A B W} (answer : ∀ B, C B → W → B * W) (p : prog S C A) (f : A → prog S C B) s w :
  ends answer (p ≫= f) s w = let '(a, s', w') := ends answer p s w in ends answer (f a) s' w'.
Proof. unfold ends at 1 2. rewrite run_bind. destruct (run answer p s w []) as [[[a s'] w'] log]. apply run_log. Qed.

Lemma ends_and_then {S C E A B W} (answer : ∀ B, C B → W → B * W) (p : prog S C (outcome E A)) (f : A → prog S C (outcome E B)) s w :
  ends answer (and_then p f) s w =
  let '(r, s', w') := ends answer p s w in
  match r with
  | Ok a => ends answer (f a) s' w'
  | Err e => (Err e, s', w')
  | Panic => (Panic, s', w')
  | OutOfFuel => (OutOfFuel, s', w')
  end.
Proof. unfold and_then. rewrite run_ends_bind. by destruct (ends answer p s w) as [[[] ?] ?]. Qed.

Lemma ends_locked {S C A W} (answer : ∀ B, C B → W → B * W) l (p : prog S C A) s w :
  ends answer (locked l p) s w = ends answer p s w.
Proof. unfold ends. by rewrite run_locked. Qed.

(** [P] holds at every point of the run, so also where the process may end, and
    [Q] at its end. *)
Fixpoint always {S C A W} (answer : ∀ B, C B → W → B * W) (P : S → W → Prop) (p : prog S C A) (s : S) (w : W)
    (Q : A → S → W → Prop) : Prop :=
  P s w ∧
  match p with
  | Done a => Q a s w
  | Act op k => let '(b, s') := op s in always answer P (k b) s' w Q
  | Call c k => let '(b, w') := answer _ c w in always answer P (k b) s w' Q
  | Lock _ k | Unlock _ k => always answer P k s w Q
  end.

Lemma point_bind {S C A B W} (answer : ∀ B, C B → W → B * W) P (p : prog S C A) (f : A → prog S C B) s w Q R :
  always answer P p s w R → (∀ a s w, R a s w → always answer P (f a) s w Q) → always answer P (p ≫= f) s w Q.
Proof.
  intros Hp Hf. revert s w Hp. induction p as [a|B' op k IH|B' c k IH|l k IH|l k IH]; intros s w [HP Hp]; cbn.
  - by apply Hf.
  - split; [done|]. destruct (op s). by apply IH.
  - split; [done|]. destruct (answer _ c w). by apply IH.
  - split; [done|]. by apply IH.
  - split; [done|]. by apply IH.
Qed.

Lemma always_read {S C A B W} (answer : ∀ B, C B → W → B * W) P (f : S → B) (k : B → prog S C A) s w Q :
  P s w → always answer P (k (f s)) s w Q → always answer P (read f ≫= k) s w Q.
Proof. intros HP Hk. split; [exact HP|exact Hk]. Qed.

Lemma always_act {S C A B W} (answer : ∀ B, C B → W → B * W) P (op : S → B * S) (k : B → prog S C A) s w Q :
  P s w → always answer P (k (op s).1) (op s).2 w Q → always answer P (act op ≫= k) s w Q.
Proof. intros HP Hk. split; [exact HP|]. cbn. destruct (op s). exact Hk. Qed.

Lemma always_impl {S C A W} (answer : ∀ B, C B → W → B * W) (P P' : S → W → Prop) (p : prog S C A) s w (Q R : A → S → W → Prop) :
  (∀ s w, P s w → P' s w) → (∀ a s w, R a s w → Q a s w) → always answer P p s w R → always answer P' p s w Q.
Proof.
  intros HP' HRQ. revert s w. induction p as [a|B' op k IH|B' c k IH|l k IH|l k IH]; intros s w [HP Hp]; cbn; (split; [by apply HP'|]).
  - by apply HRQ.
  - destruct (op s). by apply IH.
  - destruct (answer _ c w). by apply IH.
  - by apply IH.
  - by apply IH.
Qed.

Lemma always_run {S C A W} (answer : ∀ B, C B → W → B * W) P (p : prog S C A) s w Q log : always answer P p s w Q →
  let '(a, s', w', _) := run answer p s w log in Q a s' w'.
Proof.
  revert s w log. induction p as [a|B' op k IH|B' c k IH|l k IH|l k IH]; intros s w log [HP Hp]; cbn.
  - done.
  - destruct (op s). by apply IH.
  - destruct (answer _ c w). by apply IH.
  - by apply IH.
  - by apply IH.
Qed.

(** ** Among others *)

Section Threads.
Context {S : Type} {C : Type → Type}.
(** What the world may answer, and the programs that may be started. *)
Variable reply_ok : ∀ B, C B → B → Prop.
Variable program : prog S C unit → Prop.

Record config := mkConfig {
  threads : list (prog S C unit);
  shared : S;
  holder : nat → option nat  (** the thread that holds a lock *)
}.

(** Thread [i] moves. *)
Inductive move (i : nat) : config → config → Prop :=
| move_act c B (op : S → B * S) k : threads c !! i = Some (Act op k) →
    move i c (mkConfig (<[i := k (op (shared c)).1]> (threads c)) (op (shared c)).2 (holder c))
| move_call c B (q : C B) k b : threads c !! i = Some (Call q k) → reply_ok B q b →
    move i c (mkConfig (<[i := k b]> (threads c)) (shared c) (holder c))
| move_lock c l k : threads c !! i = Some (Lock l k) → holder c l = None →
    move i c (mkConfig (<[i := k]> (threads c)) (shared c) (λ m, if decide (m = l) then Some i else holder c m))
| move_unlock c l k : threads c !! i = Some (Unlock l k) → holder c l = Some i →
    move i c (mkConfig (<[i := k]> (threads c)) (shared c) (λ m, if decide (m = l) then None else holder c m)).

(** A thread moves, or a program is started. *)
Inductive step : config → config → Prop :=
| step_start c p : program p → step c (mkConfig (threads c ++ [p]) (shared c) (holder c))
| step_move i c c' : move i c c' → step c c'.

Definition start (s : S) : config := mkConfig [] s (λ _, None).
Definition reachable (s : S) (c : config) : Prop := rtc step (start s) c.

(** *** Invariants *)

Section Invariant.
Variable I : S → Prop.

(** Every action of [p] keeps [I], whatever the world answers and whatever the
    other threads do in between, as long as they keep it too. *)
Fixpoint sound {A} (p : prog S C A) (Q : A → Prop) : Prop :=
  match p with
  | Done a => Q a
  | Act op k => ∀ s, I s → I (op s).2 ∧ sound (k (op s).1) Q
  | Call c k => ∀ b, reply_ok _ c b → sound (k b) Q
  | Lock _ k | Unlock _ k => sound k Q
  end.

Lemma sound_bind {A B} (p : prog S C A) (f : A → prog S C B) P Q :
  sound p P → (∀ a, P a → sound (f a) Q) → sound (p ≫= f) Q.
Proof.
  intros Hp Hf. induction p as [a|B' op k IH|B' c k IH|l k IH|l k IH]; cbn in *; auto.
  intros s Hs. destruct (Hp s Hs) as [HI Hk]. auto.
Qed.

Lemma sound_weaken {A} (p : prog S C A) (P Q : A → Prop) : (∀ a, P a → Q a) → sound p P → sound p Q.
Proof.
  intros HPQ Hp. induction p as [a|B' op k IH|B' c k IH|l k IH|l k IH]; cbn in *; auto.
  intros s Hs. destruct (Hp s Hs) as [HI Hk]. auto.
Qed.

Lemma sound_and_then {E A B} (p : prog S C (outcome E A)) (f : A → prog S C (outcome E B)) P Q :
  sound p (λ r, match r with Ok a => P a | Err e => Q (Err e) | Panic => Q Panic | OutOfFuel => Q OutOfFuel end) →
  (∀ a, P a → sound (f a) Q) → sound (and_then p f) Q.
Proof. intros Hp Hf. eapply sound_bind; [exact Hp|]. intros [] Hr; cbn; auto. Qed.

Lemma sound_locked {A} l (p : prog S C A) Q : sound p Q → sound (locked l p) Q.
Proof. intros Hp. cbn. eapply sound_bind; [exact Hp|]. intros a Ha. exact Ha. Qed.

Lemma sound_act {B} (op : S → B * S) (Q : B → Prop) :
  (∀ s, I s → I (op s).2 ∧ Q (op s).1) → sound (act op) Q.
Proof. intros H s Hs. exact (H s Hs). Qed.

Lemma sound_read {B} (f : S → B) (Q : B → Prop) : (∀ s, I s → Q (f s)) → sound (read f) Q.
Proof. intros H s Hs. split; [exact Hs|exact (H s Hs)]. Qed.

Lemma sound_write (f : S → S) (Q : unit → Prop) : (∀ s, I s → I (f s)) → Q tt → sound (write f) Q.
Proof. intros H HQ s Hs. split; [exact (H s Hs)|exact HQ]. Qed.

Lemma sound_call {B} (c : C B) (Q : B → Prop) : (∀ b, reply_ok B c b → Q b) → sound (call c) Q.
Proof. intros H b Hb. exact (H b Hb). Qed.

(** When the program runs alone, in a world that answers as it may. *)
Lemma run_sound {A W} (answer : ∀ B, C B → W → B * W) (p : prog S C A) (Q : A → Prop) s w log :
  (∀ B c w, reply_ok B c (answer B c w).1) → sound p Q → I s →
  let '(a, s', w', log') := run answer p s w log in Q a ∧ I s'.
Proof.
  intros Hans. revert s w log. induction p as [a|B' op k IH|B' c k IH|l k IH|l k IH]; intros s w log Hp Hs; cbn in *.
  - done.
  - destruct (Hp s Hs) as [HI Hk]. destruct (op s) as [b s']. by apply IH.
  - specialize (Hans _ c w). destruct (answer _ c w) as [b w']. apply IH; auto.
  - by apply IH.
  - by apply IH.
Qed.
End Invariant.

(** *** What the others do in between *)

Section Rely.
(** What holds of the state at any time, and how it may move on. *)
Variable I : S → Prop.
Variable R : S → S → Prop.
Context `{!PreOrder R}.

(** Every action of [p] keeps [I] and moves the state on as [R] allows, when the
    state it finds is one the others reached that way from the one [p] left, which
    is [s0] at first; [p] ends with what [Q] allows of the state it left last. *)
Fixpoint relies {A} (s0 : S) (p : prog S C A) (Q : S → A → Prop) : Prop :=
  match p with
  | Done a => Q s0 a
  | Act op k => ∀ s, I s → R s0 s → I (op s).2 ∧ R s (op s).2 ∧ relies (op s).2 (k (op s).1) Q
  | Call c k => ∀ b, reply_ok _ c b → relies s0 (k b) Q
  | Lock _ k | Unlock _ k => relies s0 k Q
  end.

Lemma relies_bind {A B} s0 (p : prog S C A) (f : A → prog S C B) P Q :
  relies s0 p P → (∀ s a, P s a → relies s (f a) Q) → relies s0 (p ≫= f) Q.
Proof.
  intros Hp Hf. revert s0 Hp. induction p as [a|B' op k IH|B' c k IH|l k IH|l k IH]; intros s0 Hp; cbn in *; auto.
  intros s Hs Hr. destruct (Hp s Hs Hr) as (HI & HR & Hk). auto.
Qed.

Lemma relies_weaken {A} s0 (p : prog S C A) (P Q : S → A → Prop) : (∀ s a, P s a → Q s a) → relies s0 p P → relies s0 p Q.
Proof.
  intros HPQ. revert s0. induction p as [a|B' op k IH|B' c k IH|l k IH|l k IH]; intros s0 Hp; cbn in *; auto.
  intros s Hs Hr. destruct (Hp s Hs Hr) as (HI & HR & Hk). auto.
Qed.

Lemma relies_and_then {E A B} s0 (p : prog S C (outcome E A)) (f : A → prog S C (outcome E B)) P Q :
  relies s0 p (λ s r, match r with Ok a => P s a | Err e => Q s (Err e) | Panic => Q s Panic | OutOfFuel => Q s OutOfFuel end) →
  (∀ s a, P s a → relies s (f a) Q) → relies s0 (and_then p f) Q.
Proof. intros Hp Hf. eapply relies_bind; [exact Hp|]. intros s [] Hr; cbn; auto. Qed.

Lemma relies_locked {A} s0 l (p : prog S C A) Q : relies s0 p Q → relies s0 (locked l p) Q.
Proof. intros Hp. cbn. eapply relies_bind; [exact Hp|]. intros s a Ha. exact Ha. Qed.

Lemma relies_read {B} s0 (f : S → B) (Q : S → B → Prop) : (∀ s, I s → R s0 s → Q s (f s)) → relies s0 (read f) Q.
Proof. intros H s Hs Hr. split; [exact Hs|]. split; [reflexivity|]. by apply H. Qed.

Lemma relies_write s0 (f : S → S) (Q : S → unit → Prop) :
  (∀ s, I s → R s0 s → I (f s) ∧ R s (f s) ∧ Q (f s) tt) → relies s0 (write f) Q.
Proof. intros H s Hs Hr. exact (H s Hs Hr). Qed.

Lemma relies_call {B} s0 (c : C B) (Q : S → B → Prop) : (∀ b, reply_ok B c b → Q s0 b) → relies s0 (call c) Q.
Proof. intros H b Hb. exact (H b Hb). Qed.

(** Every thread left the shared state somewhere before where it is, and relies on
    the others from there. *)
Definition relying (s : S) (c : config) : Prop :=
  I (shared c) ∧ R s (shared c) ∧ ∀ i p, threads c !! i = Some p → ∃ s0, R s0 (shared c) ∧ relies s0 p (λ _ _, True).

(** A thread goes on without touching the state. *)
Lemma relying_same s c i p k held : relying s c → threads c !! i = Some p → (∀ s0, relies s0 p (λ _ _, True) → relies s0 k (λ _ _, True)) →
  relying s (mkConfig (<[i := k]> (threads c)) (shared c) held).
Proof.
  intros (HI & HR & Hall) Hi Hk. split_and!; [done..|]. cbn. intros j q [(-> & <- & _)|[Hne Hj]]%list_lookup_insert_Some; [|by apply (Hall j)].
  destruct (Hall _ _ Hi) as (s0 & H0 & Hp). exists s0. split; [done|by apply Hk].
Qed.

Lemma relying_step s c c' : (∀ p s, program p → relies s p (λ _ _, True)) → relying s c → step c c' → relying s c'.
Proof.
  intros Hprog Hc Hstep. destruct Hstep as [c p Hp|i c c' Hm]; [|destruct Hm as [c B op k Hi|c B q k b Hi Hb|c l k Hi Hl|c l k Hi Hl]].
  - destruct Hc as (HI & HR & Hall). split_and!; [done..|]. cbn. intros j q [Hj|[_ Hj]]%lookup_app_Some; [by apply (Hall j)|].
    exists (shared c). split; [reflexivity|]. apply list_lookup_singleton_Some in Hj as [_ <-]. by apply Hprog.
  - destruct Hc as (HI & HR & Hall). destruct (Hall _ _ Hi) as (s0 & H0 & Hp). destruct (Hp _ HI H0) as (HI' & HR' & Hk).
    split_and!; cbn; [done|by transitivity (shared c)|]. intros j q [(-> & <- & _)|[Hne Hj]]%list_lookup_insert_Some; [by exists (op (shared c)).2|].
    destruct (Hall _ _ Hj) as (s1 & H1 & Hq). exists s1. split; [by transitivity (shared c)|done].
  - eapply relying_same; [done|exact Hi|]. intros s0 Hp. by apply Hp.
  - by eapply relying_same.
  - by eapply relying_same.
Qed.

(** Threads that rely on each other keep [I], in every interleaving. *)
Lemma reachable_relies s c : (∀ p s, program p → relies s p (λ _ _, True)) → I s → reachable s c → I (shared c) ∧ R s (shared c).
Proof.
  intros Hprog Hs Hr. assert (relying s c) as (HI & HR & _); [|done].
  assert (relying s (start s)) as H0. { split_and!; [done|reflexivity|by intros i p [=]]. }
  revert H0. induction Hr as [|c c1 c2 Hstep _ IH]; [done|]. intros Hc. apply IH. by eapply relying_step.
Qed.
End Rely.

(** *** Locks *)

Section Guarded.
Variable I : S → Prop.

(** [p], holding [held], takes only locks above those it holds, gives back what
    it took, and ends with [kept]; its actions keep [I], and it returns what [Q]
    allows. *)
Fixpoint guarded {A} (held : list nat) (p : prog S C A) (kept : list nat) (Q : A → Prop) : Prop :=
  match p with
  | Done a => held = kept ∧ Q a
  | Act op k => ∀ s, I s → I (op s).2 ∧ guarded held (k (op s).1) kept Q
  | Call c k => ∀ b, reply_ok _ c b → guarded held (k b) kept Q
  | Lock l k => Forall (λ h, (h < l)%nat) held ∧ guarded (l :: held) k kept Q
  | Unlock l k => ∃ held', held = l :: held' ∧ guarded held' k kept Q
  end.

Lemma guarded_bind {A B} (p : prog S C A) (f : A → prog S C B) h1 h2 h3 P Q :
  guarded h1 p h2 P → (∀ a, P a → guarded h2 (f a) h3 Q) → guarded h1 (p ≫= f) h3 Q.
Proof.
  intros Hp Hf. revert h1 Hp. induction p as [a|B' op k IH|B' c k IH|l k IH|l k IH]; intros h1 Hp; cbn in *; auto.
  - destruct Hp as [-> Ha]. auto.
  - intros s Hs. destruct (Hp s Hs) as [HI Hk]. auto.
  - destruct Hp as [Hl Hp]. auto.
  - destruct Hp as (h' & -> & Hp). eauto.
Qed.

Lemma guarded_weaken {A} held (p : prog S C A) kept (P Q : A → Prop) :
  (∀ a, P a → Q a) → guarded held p kept P → guarded held p kept Q.
Proof.
  intros HPQ. revert held. induction p as [a|B op k IH|B c k IH|l k IH|l k IH]; intros held Hp; cbn in *; auto.
  - destruct Hp as [-> Ha]. auto.
  - intros s Hs. destruct (Hp s Hs). auto.
  - destruct Hp. auto.
  - destruct Hp as (h & -> & Hp). eauto.
Qed.

(** [p] can be run by a thread that holds locks below [n] only. *)
Definition safe {A} (n : nat) (p : prog S C A) (Q : A → Prop) : Prop :=
  ∀ held, Forall (λ h, (h < n)%nat) held → guarded held p held Q.

Lemma safe_done {A} n (a : A) (Q : A → Prop) : Q a → safe n (Done a) Q.
Proof. by intros HQ held _. Qed.

Lemma safe_bind {A B} n (p : prog S C A) (f : A → prog S C B) P Q :
  safe n p P → (∀ a, P a → safe n (f a) Q) → safe n (p ≫= f) Q.
Proof. intros Hp Hf held Hh. eapply guarded_bind; [by apply Hp|]. intros a Ha. by apply Hf. Qed.

Lemma safe_and_then {E A B} n (p : prog S C (outcome E A)) (f : A → prog S C (outcome E B)) P Q :
  safe n p (λ r, match r with Ok a => P a | Err e => Q (Err e) | Panic => Q Panic | OutOfFuel => Q OutOfFuel end) →
  (∀ a, P a → safe n (f a) Q) → safe n (and_then p f) Q.
Proof. intros Hp Hf. eapply safe_bind; [exact Hp|]. intros [] Hr; [by apply Hf|by apply safe_done..]. Qed.

Lemma safe_weaken {A} n m (p : prog S C A) (P Q : A → Prop) :
  (n ≤ m)%nat → (∀ a, P a → Q a) → safe m p P → safe n p Q.
Proof.
  intros Hnm HPQ Hp held Hh. specialize (Hp held (Forall_impl _ _ _ Hh (λ h Hlt, Nat.lt_le_trans _ _ _ Hlt Hnm))).
  by eapply guarded_weaken.
Qed.

Lemma safe_locked {A} n l (p : prog S C A) Q : (n ≤ l)%nat → safe (l + 1) p Q → safe n (locked l p) Q.
Proof.
  intros Hl Hp held Hh. split; [eapply Forall_impl; [exact Hh|]; cbn; intros; lia|]. eapply guarded_bind; [apply Hp|].
  - constructor; [cbn; lia|]. eapply Forall_impl; [exact Hh|]. cbn. intros. lia.
  - intros a Ha. by exists held.
Qed.

Lemma safe_act {B} n (op : S → B * S) (Q : B → Prop) : (∀ s, I s → I (op s).2 ∧ Q (op s).1) → safe n (act op) Q.
Proof. intros H held _ s Hs. split; [|split; [done|]]; by apply H. Qed.

Lemma safe_read {B} n (f : S → B) (Q : B → Prop) : (∀ s, I s → Q (f s)) → safe n (read f) Q.
Proof. intros H. apply safe_act. intros s Hs. split; [exact Hs|exact (H s Hs)]. Qed.

Lemma safe_write n (f : S → S) (Q : unit → Prop) : (∀ s, I s → I (f s)) → Q tt → safe n (write f) Q.
Proof. intros H HQ. apply safe_act. intros s Hs. split; [exact (H s Hs)|exact HQ]. Qed.

Lemma safe_call {B} n (c : C B) (Q : B → Prop) : (∀ b, reply_ok B c b → Q b) → safe n (call c) Q.
Proof. intros H held _ b Hb. split; [done|by apply H]. Qed.

Lemma guarded_sound {A} held (p : prog S C A) kept Q : guarded held p kept Q → sound I p Q.
Proof.
  revert held. induction p as [a|B op k IH|B c k IH|l k IH|l k IH]; intros held Hp; cbn in *.
  - apply Hp.
  - intros s Hs. destruct (Hp s Hs). eauto.
  - eauto.
  - destruct Hp. eauto.
  - destruct Hp as (h & _ & Hp). eauto.
Qed.

Lemma safe_sound {A} n (p : prog S C A) Q : safe n p Q → sound I p Q.
Proof. intros Hp. by apply (guarded_sound []  _ []), Hp. Qed.

(** [held] is what each thread holds: as the configuration records it, taken in
    order, and given back by what is left of the thread. *)
Record disciplined (c : config) (held : nat → list nat) : Prop := {
  disc_inv : I (shared c);
  disc_ordered : ∀ i p, threads c !! i = Some p → guarded (held i) p [] (λ _, True);
  disc_sorted : ∀ i, StronglySorted (λ a b, (b < a)%nat) (held i);
  disc_holder : ∀ i l, holder c l = Some i ↔ l ∈ held i;
  disc_none : ∀ i, threads c !! i = None → held i = []
}.

Lemma disciplined_same c p s i held : threads c !! i = Some p → disciplined c held → I s →
  ∀ p', guarded (held i) p' [] (λ _, True) → disciplined (mkConfig (<[i := p']> (threads c)) s (holder c)) held.
Proof.
  intros Hi [_ H1 H2 H3 H4] Hs p' Hp'. split; cbn; [done| |done|done|].
  - intros j q. destruct (decide (i = j)) as [<-|Hne].
    + rewrite list_lookup_insert_eq by (by eapply lookup_lt_Some). intros [= <-]. done.
    + rewrite list_lookup_insert_ne by done. apply H1.
  - intros j Hj. apply H4. apply lookup_ge_None in Hj. apply lookup_ge_None. by rewrite length_insert in Hj.
Qed.

Lemma sorted_nodup (l : nat) (h : list nat) : StronglySorted (λ a b, (b < a)%nat) (l :: h) → l ∉ h.
Proof. intros [_ Hf]%StronglySorted_inv Hl. rewrite Forall_forall in Hf. specialize (Hf _ Hl). lia. Qed.

Lemma disciplined_change c p i k h held m : threads c !! i = Some p → disciplined c held →
  guarded h k [] (λ _, True) → StronglySorted (λ a b, (b < a)%nat) h →
  (∀ j x, m x = Some j ↔ x ∈ (if decide (j = i) then h else held j)) →
  disciplined (mkConfig (<[i := k]> (threads c)) (shared c) m) (λ j, if decide (j = i) then h else held j).
Proof.
  intros Hi [H0 H1 H2 H3 H4] Hk Hh Hm. split; cbn; [done| | |done|].
  - intros j q. destruct (decide (j = i)) as [->|Hne].
    + rewrite list_lookup_insert_eq by (by eapply lookup_lt_Some). by intros [= <-].
    + rewrite list_lookup_insert_ne by done. apply H1.
  - intros j. by destruct (decide (j = i)).
  - intros j Hj. apply lookup_ge_None in Hj. rewrite length_insert in Hj. apply lookup_lt_Some in Hi.
    rewrite decide_False by lia. apply H4. by apply lookup_ge_None.
Qed.

Lemma disciplined_step c c' held : (∀ p, program p → guarded [] p [] (λ _, True)) →
  step c c' → disciplined c held → ∃ held', disciplined c' held'.
Proof.
  intros Hprog Hstep Hd. destruct Hstep as [c p Hp|i c c' Hm].
  - exists held. destruct Hd as [H0 H1 H2 H3 H4]. split; cbn; [done| |done|done|].
    + intros i q [Hi|[Hge Hi]]%lookup_app_Some; [by apply H1|]. apply list_lookup_singleton_Some in Hi as [Hi <-].
      rewrite H4 by (apply lookup_ge_None; lia). by apply Hprog.
    + intros i Hi. apply H4. apply lookup_ge_None in Hi. apply lookup_ge_None. rewrite length_app in Hi. lia.
  - destruct Hm as [c B op k Hi|c B q k b Hi Hb|c l k Hi Hl|c l k Hi Hl]; pose proof (disc_ordered _ _ Hd _ _ Hi) as Ho; cbn in Ho.
    + exists held. destruct (Ho (shared c) (disc_inv _ _ Hd)) as [HI Hk]. by eapply disciplined_same.
    + exists held. eapply disciplined_same; [exact Hi|done|apply Hd|by apply Ho].
    + destruct Ho as [Hf Ho]. eexists. eapply (disciplined_change c _ i k (l :: held i)); [exact Hi|done|done| |].
      * constructor; [apply Hd|done].
      * intros j x. destruct Hd as [_ _ _ H3 _]. destruct (decide (j = i)) as [->|Hne], (decide (x = l)) as [->|Hx].
        -- rewrite elem_of_cons. naive_solver.
        -- rewrite elem_of_cons, H3. naive_solver.
        -- split; [naive_solver|]. intros Hx%H3. congruence.
        -- apply H3.
    + destruct Ho as (h & Hh & Ho). pose proof (disc_sorted _ _ Hd i) as Hs. rewrite Hh in Hs.
      eexists. eapply (disciplined_change c _ i k h); [exact Hi|done|done| |].
      * by apply StronglySorted_inv in Hs as [? _].
      * intros j x. destruct Hd as [_ _ _ H3 _]. destruct (decide (j = i)) as [->|Hne], (decide (x = l)) as [->|Hx].
        -- split; [done|]. intros Hx. by apply sorted_nodup in Hs.
        -- rewrite H3, Hh, elem_of_cons. naive_solver.
        -- split; [done|]. intros Hx%H3. congruence.
        -- apply H3.
Qed.

(** So in every interleaving. *)
Lemma reachable_disciplined s c : (∀ p, program p → guarded [] p [] (λ _, True)) → I s → reachable s c → ∃ held, disciplined c held.
Proof.
  intros Hprog Hs Hr. unfold reachable in Hr.
  assert (∃ held, disciplined (start s) held) as H0.
  { exists (λ _, []). split; cbn; [done|done|intros; constructor|intros; split; [done|by intros ?%not_elem_of_nil]|done]. }
  revert H0. induction Hr as [c|c c1 c2 Hstep _ IH]; intros [held Hd]; [by exists held|].
  apply IH. by eapply disciplined_step.
Qed.

Definition finished (p : prog S C unit) : Prop := match p with Done _ => True | _ => False end.

(** A thread that is not finished moves, or waits for a lock above its own. *)
Lemma moves_or_waits c held i p : (∀ B (q : C B), ∃ b, reply_ok B q b) → disciplined c held →
  threads c !! i = Some p → ¬ finished p →
  (∃ c', move i c c') ∨ ∃ l j, holder c l = Some j ∧ ∀ h, h ∈ held i → (h < l)%nat.
Proof.
  intros Hans Hd Hi Hp. pose proof (disc_ordered _ _ Hd _ _ Hi) as Ho. destruct p as [[]|B op k|B q k|l k|l k]; cbn in *.
  - done.
  - left. eexists. by apply (move_act i c B op k).
  - left. destruct (Hans B q) as [b Hb]. eexists. by apply (move_call i c B q k b).
  - destruct (holder c l) as [j|] eqn:Hl; [|left; eexists; by apply (move_lock i c l k)].
    right. exists l, j. split; [done|]. intros h Hh. destruct Ho as [Hf _]. rewrite Forall_forall in Hf. by apply Hf.
  - left. eexists. apply (move_unlock i c l k); [done|]. apply (disc_holder _ _ Hd). destruct Ho as (h & -> & _). by left.
Qed.

Lemma lock_bound c held : disciplined c held → ∃ n, ∀ i l, l ∈ held i → (l < n)%nat.
Proof.
  intros Hd. exists (Nat.succ (max_list (seq 0 (length (threads c)) ≫= held))). intros i l Hl.
  assert (i < length (threads c))%nat as Hi.
  { destruct (threads c !! i) as [p|] eqn:Hi; [by eapply lookup_lt_Some|]. rewrite (disc_none _ _ Hd _ Hi) in Hl. by apply not_elem_of_nil in Hl. }
  apply Nat.lt_succ_r, max_list_elem_of_le, list_elem_of_bind. exists i. split; [done|]. apply elem_of_seq. lia.
Qed.

Lemma holder_moves c held n : (∀ B (q : C B), ∃ b, reply_ok B q b) → disciplined c held →
  (∀ i l, l ∈ held i → (l < n)%nat) → ∀ d l j, (n - l <= d)%nat → holder c l = Some j → ∃ i c', move i c c'.
Proof.
  intros Hans Hd Hn d. induction d as [|d IH]; intros l j Hdl Hl.
  - apply (disc_holder _ _ Hd), Hn in Hl. lia.
  - apply (disc_holder _ _ Hd) in Hl as Hj. destruct (threads c !! j) as [p|] eqn:Hp.
    + destruct (moves_or_waits c held j p Hans Hd Hp) as [[c' Hc']|(l' & j' & Hl' & Hup)].
      * intros Hfin. destruct p; try done. pose proof (disc_ordered _ _ Hd _ _ Hp) as Ho. cbn in Ho.
        destruct Ho as [Ho _]. rewrite Ho in Hj. by apply not_elem_of_nil in Hj.
      * by exists j, c'.
      * apply (IH l' j'); [|done]. specialize (Hup l Hj). pose proof (Hn _ _ Hj). lia.
    + rewrite (disc_none _ _ Hd _ Hp) in Hj. by apply not_elem_of_nil in Hj.
Qed.

(** Programs that take their locks in order never all wait for each other. *)
Lemma some_thread_moves s c : (∀ B (q : C B), ∃ b, reply_ok B q b) → (∀ p, program p → guarded [] p [] (λ _, True)) → I s →
  reachable s c → (∃ i p, threads c !! i = Some p ∧ ¬ finished p) → ∃ i c', move i c c'.
Proof.
  intros Hans Hprog Hs Hr (i & p & Hi & Hp). destruct (reachable_disciplined s c Hprog Hs Hr) as [held Hd].
  destruct (lock_bound c held Hd) as [n Hn].
  destruct (moves_or_waits c held i p Hans Hd Hi Hp) as [[c' Hc']|(l & j & Hl & _)]; [by exists i, c'|].
  by apply (holder_moves c held n Hans Hd Hn n l j); [lia|].
Qed.
End Guarded.
End Threads.

(** A program that relies on others for a part of the state, on the whole. *)
Lemma relies_zoom {S T C D A} (reply_ok : ∀ B, C B → B → Prop) (reply_ok' : ∀ B, D B → B → Prop) (I : S → Prop) (J : T → Prop)
    (R : S → S → Prop) (R' : T → T → Prop) (part : T → S) back (inj : ∀ B, C B → D B) t0 (p : prog S C A) (Q : S → A → Prop) :
  (∀ t, J t → I (part t)) → (∀ t t', R' t t' → R (part t) (part t')) →
  (∀ s t, J t → I s → R (part t) s → J (back s t) ∧ R' t (back s t) ∧ part (back s t) = s) →
  (∀ B c b, reply_ok' _ (inj B c) b → reply_ok _ c b) →
  relies reply_ok I R (part t0) p Q → relies reply_ok' J R' t0 (zoom part back inj p) (λ t, Q (part t)).
Proof.
  intros Hpart HR Hback Hinj. revert t0. induction p as [a|B op k IH|B c k IH|l k IH|l k IH]; intros t0 Hp; cbn in *; auto.
  intros t Ht H0. destruct (Hp (part t) (Hpart t Ht) (HR _ _ H0)) as (HI & Hr & Hk). destruct (op (part t)) as [b s']. cbn in *.
  destruct (Hback s' t Ht HI Hr) as (HJ & HR' & Heq). split; [done|]. split; [done|]. apply IH. by rewrite Heq.
Qed.

(** A safe program on a part of the state is safe on the whole. *)
Lemma safe_zoom {S T C D A} (reply_ok : ∀ B, C B → B → Prop) (reply_ok' : ∀ B, D B → B → Prop) (I : S → Prop) (J : T → Prop)
    (part : T → S) back (inj : ∀ B, C B → D B) n (p : prog S C A) Q :
  (∀ t, J t → I (part t)) → (∀ s t, J t → I s → J (back s t)) → (∀ B c b, reply_ok' _ (inj B c) b → reply_ok _ c b) →
  safe reply_ok I n p Q → safe reply_ok' J n (zoom part back inj p) Q.
Proof.
  intros Hpart Hback Hinj Hp held Hh. specialize (Hp held Hh). revert Hp. generalize held at 1 3. clear Hh.
  induction p as [a|B op k IH|B c k IH|l k IH|l k IH]; intros h Hp; cbn in *; auto.
  - intros t Ht. destruct (Hp (part t) (Hpart t Ht)) as [HI Hk]. destruct (op (part t)) as [b s']. cbn in *. auto.
  - destruct Hp. auto.
  - destruct Hp as (h' & -> & Hp). eauto.
Qed.
