(* ===== verification/Telemetry.v ===== *)
(** What the Desktop reports of its audio path (desktop/core/src/telemetry.rs):
    the source, mpv's decoder, PipeWire's graph and the device, read from JSON. *)

From S2P Require Import Prelude Text Float64 Values.

Record AudioFormatObservation := mkFormat {
  sample_rate_hz : option Z;
  bit_depth : option Z;
  channels : option Z
}.
#[export] Instance format_eq_dec : EqDecision AudioFormatObservation.
Proof. solve_decision. Defined.

Definition unknown_format : AudioFormatObservation := mkFormat None None None.

Record SourceObservation := mkSource { codec : option str; bitrate_kbps : option Z; source_format : AudioFormatObservation }.
Definition unknown_source : SourceObservation := mkSource None None unknown_format.

Record ObservedMpvProperties := mkDecoder { pcm_format : option str; decoder_format : AudioFormatObservation }.
Definition unknown_decoder : ObservedMpvProperties := mkDecoder None unknown_format.

Record PipeWireObservation := mkPipeWire {
  graph_format : AudioFormatObservation;
  is_graph_resampling : option bool;
  device_name : option str;
  device_format : AudioFormatObservation;
  is_device_resampling : option bool
}.

Inductive SystemObservationKind := PipeWire | BrowserManaged | Bypassed | UnknownSystem.

Record SystemObservation := mkSystem { system_kind : SystemObservationKind; system_format : AudioFormatObservation; system_resampling : option bool }.
Record DeviceObservation := mkDevice { observed_name : option str; observed_format : AudioFormatObservation; observed_resampling : option bool }.

Record ProcessingObservation := mkProcessing {
  observed_profile : str;
  observed_volume : option f64;
  observed_replay_gain_mode : str;
  observed_effective_mode : str;
  is_equalizer_enabled : option bool
}.

Definition direct_processing : ProcessingObservation :=
  mkProcessing (st "direct") (Some (of_Z 1)) (st "off") (st "off") (Some false).
Definition unknown_processing : ProcessingObservation :=
  mkProcessing (st "unknown") None (st "unknown") (st "unknown") None.

Record PlaybackTelemetry := mkTelemetry {
  t_source : SourceObservation;
  t_decoder : ObservedMpvProperties;
  t_system : SystemObservation;
  t_device : DeviceObservation;
  t_processing : ProcessingObservation
}.

Definition compare_sample_rates (left right : AudioFormatObservation) : option bool :=
  l ← sample_rate_hz left; r ← sample_rate_hz right; Some (negb (l =? r)).

Definition observed_pipewire_path (pipewire : option PipeWireObservation) : SystemObservation * DeviceObservation :=
  match pipewire with
  | None => (mkSystem PipeWire unknown_format None, mkDevice None unknown_format None)
  | Some p => (mkSystem PipeWire (graph_format p) (is_graph_resampling p), mkDevice (device_name p) (device_format p) (is_device_resampling p))
  end.

Definition native_system_output (source : SourceObservation) (decoder : ObservedMpvProperties)
    (pipewire : option PipeWireObservation) (processing : ProcessingObservation) : PlaybackTelemetry :=
  let '(system, device) := observed_pipewire_path pipewire in
  let resampling := match system_resampling system with
                    | None => compare_sample_rates (decoder_format decoder) (system_format system)
                    | Some b => Some b
                    end in
  mkTelemetry source decoder (mkSystem (system_kind system) (system_format system) resampling) device processing.

Definition native_direct_alsa_output (source : SourceObservation) (decoder : ObservedMpvProperties) (name : str)
    (negotiated : option AudioFormatObservation) (processing : ProcessingObservation) : PlaybackTelemetry :=
  let format := default unknown_format negotiated in
  mkTelemetry source decoder (mkSystem Bypassed unknown_format (Some false))
    (mkDevice (Some name) format (compare_sample_rates (decoder_format decoder) format)) processing.

Section Values.
Context {SJ : SerdeJson}.

Definition value_u32 (v : Value) : option Z := n ← as_u64 v; to_u32 n.
Definition value_u16 (v : Value) : option Z := n ← as_u64 v; to_u16 n.
Definition observed_u32 (container : option Value) (key : str) : option Z :=
  c ← container; v ← field key c; value_u32 v.
Definition observed_u16 (container : option Value) (key : str) : option Z :=
  c ← container; v ← field key c; value_u16 v.

Definition observed_bit_depth (format : str) : option Z :=
  let normalized := to_uppercase format in
  snd <$> list_find (λ bits, let is_kind k := starts_with (st k ++ show bits) normalized in
    is_kind "S"%string || is_kind "U"%string || is_kind "F"%string = true) [8; 16; 24; 32; 64].

Definition from_playback_source (source : Value) : SourceObservation :=
  let source_type := field_str (st "type") source in
  let metadata :=
    if bool_decide (source_type = Some (st "track")) then field (st "track") source
    else if bool_decide (source_type = Some (st "radio-station")) then field (st "station") source
    else if bool_decide (source_type = Some (st "catalog-preview")) then field (st "result") source
    else None in
  let is_track := bool_decide (source_type = Some (st "track")) in
  mkSource
    (m ← metadata; s ← field_str (st (if is_track then "format" else "codec")%string) m; Some (to_uppercase s))
    (observed_u32 metadata (st (if is_track then "bitrateKbps" else "bitrate")%string))
    (mkFormat
      (if is_track then observed_u32 metadata (st "sampleRateHz") else None)
      (if is_track then observed_u16 metadata (st "bitDepth") else None)
      (if is_track then observed_u16 metadata (st "channels") else None)).

Definition from_audio_params (v : Value) : ObservedMpvProperties :=
  let pcm := field_str (st "format") v in
  mkDecoder pcm (mkFormat
    (r ← field (st "samplerate") v; value_u32 r)
    (f ← pcm; observed_bit_depth f)
    (c ← field (st "channel-count") v; value_u16 c)).

(** *** pw-dump *)

(** The first element a function answers for. *)
Fixpoint find_map {A B} (f : A → option B) (l : list A) : option B :=
  match l with
  | [] => None
  | x :: l => match f x with Some y => Some y | None => find_map f l end
  end.

Definition metadata_value (object : Value) (key : str) : option Value :=
  m ← field (st "metadata") object;
  entries ← as_array m;
  find_map (λ entry, k ← field_str (st "key") entry;
                     if bool_decide (k = key) then field (st "value") entry else None) entries.

Definition metadata_u32 (object : Value) (key : str) : option Z := v ← metadata_value object key; value_u32 v.

(** The first object a test accepts. *)
Definition find_object (test : Value → bool) (objects : list Value) : option Value :=
  snd <$> list_find (λ o, test o = true) objects.

Definition is_metadata (name : str) (object : Value) : bool :=
  bool_decide (pointer_str (st "/props/metadata.name") object = Some name).
Definition has_class (class : str) (object : Value) : bool :=
  bool_decide (pointer_str (st "/info/props/media.class") object = Some class).
Definition has_type (type : str) (object : Value) : bool :=
  bool_decide (field_str (st "type") object = Some type).

Definition observed_graph_rate (objects : list Value) : option Z :=
  settings ← find_object (is_metadata (st "settings")) objects;
  match (r ← metadata_u32 settings (st "clock.force-rate"); if 0 <? r then Some r else None) with
  | Some r => Some r
  | None => metadata_u32 settings (st "clock.rate")
  end.

Definition find_audio_sink (objects : list Value) (node_name : str) : option Value :=
  find_object (λ o, has_type (st "PipeWire:Interface:Node") o && has_class (st "Audio/Sink") o
    && bool_decide (pointer_str (st "/info/props/node.name") o = Some node_name)) objects.

Definition find_earthly_audio_stream (objects : list Value) : option Value :=
  find_object (λ o, has_class (st "Stream/Output/Audio") o
    && existsb (λ key, bool_decide (pointer_str (st "/info/props/" ++ key) o = Some (st "Harmony")))
         [st "application.name"; st "node.name"]) objects.

Definition find_routed_sink (objects : list Value) (stream : Value) : option Value :=
  stream_id ← (i ← field (st "id") stream; value_u32 i);
  sink_id ← find_map (λ link,
      if bool_decide ((v ← pointer (st "/info/output-node-id") link; value_u32 v) = Some stream_id)
      then v ← pointer (st "/info/input-node-id") link; value_u32 v else None)
    (filter (λ o, has_type (st "PipeWire:Interface:Link") o = true) objects);
  find_object (λ o, bool_decide ((i ← field (st "id") o; value_u32 i) = Some sink_id) && has_class (st "Audio/Sink") o) objects.

Definition observed_node_format (node : Value) : AudioFormatObservation :=
  let format := p ← pointer (st "/info/params/Format") node; formats ← as_array p; head formats in
  mkFormat
    (f ← format; r ← field (st "rate") f; value_u32 r)
    (f ← format; s ← field_str (st "format") f; observed_bit_depth s)
    (f ← format; c ← field (st "channels") f; value_u16 c).

Definition observed_device_name (node : Value) : option str :=
  find_map (λ key, n ← pointer_str (st "/info/props/" ++ key) node; if bool_decide (n = []) then None else Some n)
    [st "node.description"; st "node.nick"; st "node.name"].

Definition or_else {A} (a b : option A) : option A := match a with Some _ => a | None => b end.

Definition parse_pw_dump_for_node (input : list byte) (target : option str) : outcome str (option PipeWireObservation) :=
  match parse_values input with
  | inl e => Err (st "Failed to parse pw-dump JSON: " ++ e)
  | inr objects =>
      let stream := find_earthly_audio_stream objects in
      let sink := or_else (t ← target; find_audio_sink objects t) (s ← stream; find_routed_sink objects s) in
      let dev := default unknown_format (observed_node_format <$> sink) in
      let str_format := default unknown_format (observed_node_format <$> stream) in
      let graph := mkFormat (or_else (observed_graph_rate objects) (sample_rate_hz str_format))
                     (bit_depth str_format) (channels str_format) in
      if bool_decide (graph = unknown_format) && negb (bool_decide (is_Some sink)) then Ok None
      else Ok (Some (mkPipeWire graph None (s ← sink; observed_device_name s) dev (compare_sample_rates graph dev)))
  end.

Definition parse_pw_dump (input : list byte) : outcome str (option PipeWireObservation) := parse_pw_dump_for_node input None.
End Values.
