(* ===== verification/OutputDevices.v ===== *)
(** The Desktop's Output Devices (desktop/core/src/output_device.rs): the raw ALSA
    hardware aplay lists, the sink PipeWire plays to, and the catalog with the
    selected device. *)

From S2P Require Import Prelude Text Float64 Values Telemetry.

Record OutputDevice := mkOutput { device_id : str; output_name : str }.
#[export] Instance output_eq_dec : EqDecision OutputDevice.
Proof. solve_decision. Defined.

Inductive OutputDeviceError :=
| EnumerationFailed (message : str)
| NotRawHardware
| SelectedDeviceDisconnected (d : OutputDevice)
| Unavailable.

Inductive ActiveOutputError := QueryFailed (message : str) | NoActiveOutput | NotAlsaBacked.

(** [str::parse::<u32>]. *)
Definition parse_u32 (s : str) : option Z := n ← parse_u64 s; to_u32 n.

Definition is_raw_hardware_id (device_id : str) : bool :=
  match strip_prefix (st "hw:") device_id with
  | None => false
  | Some components =>
      match split (Z.eqb 44) components with
      | [card; device] => bool_decide (is_Some (parse_u32 card)) && bool_decide (is_Some (parse_u32 device))
      | _ => false
      end
  end.

(** [s.split(pat).nth(1)]. *)
Definition second_part (pat s : str) : option str :=
  '(_, rest) ← split_once_str pat s;
  Some (match split_once_str pat rest with Some (part, _) => part | None => rest end).

(** [format!("hw:{card},{device}")]. *)
Definition hardware_id (card device : Z) : str := st "hw:" ++ show card ++ st "," ++ show device.

Definition parse_aplay_device_line (line : str) : option OutputDevice :=
  let line := trim line in
  card ← strip_prefix (st "card ") line;
  '(card_number, remainder) ← split_once 58 card;
  device ← second_part (st ", device ") remainder;
  '(device_number, description) ← split_once 58 device;
  card_number ← parse_u32 (trim card_number);
  device_number ← parse_u32 (trim device_number);
  Some (mkOutput (hardware_id card_number device_number) (trim description)).

Definition parse_aplay_hardware (output : str) : list OutputDevice :=
  omap parse_aplay_device_line (lines output).

(** *** The catalog; [listed] is what aplay answers *)

Record OutputDeviceCatalog := mkCatalog { devices : list OutputDevice; selected : option OutputDevice }.
Definition new_catalog : OutputDeviceCatalog := mkCatalog [] None.

Definition list_devices (listed : str + list OutputDevice) : M OutputDeviceCatalog OutputDeviceError unit :=
  match listed with
  | inl e => fail (EnumerationFailed e)
  | inr ds => modify (λ c, mkCatalog ds (selected c))
  end.

Definition refresh (listed : str + list OutputDevice) : M OutputDeviceCatalog OutputDeviceError (list OutputDevice) :=
  _ ← list_devices listed;
  c ← get;
  match selected c with
  | Some s => if negb (existsb (λ d, bool_decide (device_id d = device_id s)) (devices c))
              then fail (SelectedDeviceDisconnected s) else mret (devices c)
  | None => mret (devices c)
  end.

Definition select (id : str) (listed : str + list OutputDevice) : M OutputDeviceCatalog OutputDeviceError OutputDevice :=
  if negb (is_raw_hardware_id id) then fail NotRawHardware
  else
    _ ← list_devices listed;
    c ← get;
    match list_find (λ d, device_id d = id) (devices c) with
    | None => fail Unavailable
    | Some (_, d) => _ ← modify (λ c, mkCatalog (devices c) (Some d)); mret d
    end.

(** *** The active output *)

Section Active.
Context {SJ : SerdeJson}.
(** [serde_json::from_str::<Value>], as an option. *)
Variable parse_value : str → option Value.

Definition metadata_target_name (metadata : Value) (key : str) : option str :=
  value ← metadata_value metadata key;
  match field_str (st "name") value with
  | Some n => Some n
  | None => encoded ← as_str value; v ← parse_value encoded; field_str (st "name") v
  end.

Definition default_sink_name (objects : list Value) : option str :=
  metadata ← find_object (is_metadata (st "default")) objects;
  find_map (metadata_target_name metadata) [st "default.audio.sink"; st "default.configured.audio.sink"].

Definition find_sink (objects : list Value) (name : str) : option Value :=
  find_object (λ o, has_class (st "Audio/Sink") o
    && bool_decide (pointer_str (st "/info/props/node.name") o = Some name)) objects.

Definition sink_property_u32 (sink : Value) (key : str) : option Z :=
  v ← pointer (st "/info/props/" ++ key) sink;
  or_else (value_u32 v) (s ← as_str v; parse_u32 s).

Definition raw_output_from_sink (sink : Value) : option OutputDevice :=
  card ← find_map (sink_property_u32 sink) [st "api.alsa.pcm.card"; st "api.alsa.card"; st "alsa.card"];
  device ← find_map (sink_property_u32 sink) [st "api.alsa.pcm.device"; st "api.alsa.device"; st "alsa.device"];
  Some (mkOutput (hardware_id card device) (default (st "ALSA " ++ hardware_id card device) (observed_device_name sink))).

Definition parse_active_raw_output (input : list byte) : outcome ActiveOutputError OutputDevice :=
  match parse_values input with
  | inl e => Err (QueryFailed e)
  | inr objects =>
      name ← ok_or (default_sink_name objects) NoActiveOutput;
      sink ← ok_or (find_sink objects name) NoActiveOutput;
      ok_or (raw_output_from_sink sink) NotAlsaBacked
  end.
End Active.

(** ** What is listed can be selected *)

Lemma parse_u32_show n : 0 ≤ n ≤ u32_max → parse_u32 (show n) = Some n.
Proof.
  unfold u32_max. intros [Hn Hm]. unfold parse_u32. rewrite parse_u64_show by (unfold u64_max; lia). cbn. unfold to_u32, u32_max.
  by rewrite (proj2 (Z.leb_le _ _)).
Qed.

Lemma parse_u32_range s n : parse_u32 s = Some n → 0 ≤ n ≤ u32_max.
Proof.
  unfold parse_u32, parse_u64, to_u32. destruct (bool_decide _ || _) eqn:Hb; [done|].
  bool_to_prop. destruct (_ <=? u64_max); [|done]. cbn. destruct (_ <=? u32_max) eqn:Hm; [|done].
  intros [= <-]. bool_to_prop. split; [by apply digits_value_nonneg|done].
Qed.

Lemma hardware_id_raw card device : 0 ≤ card ≤ u32_max → 0 ≤ device ≤ u32_max →
  is_raw_hardware_id (hardware_id card device) = true.
Proof.
  intros Hc Hd. unfold is_raw_hardware_id, hardware_id.
  assert (strip_prefix (st "hw:") (st "hw:" ++ show card ++ st "," ++ show device) = Some (show card ++ st "," ++ show device)) as ->
    by by apply strip_prefix_Some.
  change (st ",") with [44]. cbn [app]. rewrite split_app.
  - rewrite split_no.
    + by rewrite !parse_u32_show.
    + intros c Hin. apply Z.eqb_neq. intros <-. by apply (show_not_elem device 44) in Hin; [| lia|].
  - intros c Hin. apply Z.eqb_neq. intros <-. by apply (show_not_elem card 44) in Hin; [| lia|].
  - done.
Qed.

Lemma aplay_device_raw line d : parse_aplay_device_line line = Some d → is_raw_hardware_id (device_id d) = true.
Proof.
  unfold parse_aplay_device_line, mbind, option_bind. intros H. repeat case_match; simplify_eq.
  apply hardware_id_raw; by eapply parse_u32_range.
Qed.

(** Whatever aplay prints, each device it is read as can be selected: its id
    is one the catalog accepts, and the selection answers a listed device with
    that id and remembers it. *)
Theorem listed_device_selectable output d c : d ∈ parse_aplay_hardware output →
  ∃ d' c', select (device_id d) (inr (parse_aplay_hardware output)) c = (Ok d', c') ∧
    d' ∈ parse_aplay_hardware output ∧ device_id d' = device_id d ∧ selected c' = Some d' ∧
    refresh (inr (parse_aplay_hardware output)) c' = (Ok (parse_aplay_hardware output), c').
Proof.
  intros Hd. assert (is_raw_hardware_id (device_id d) = true) as Hraw.
  { apply list_elem_of_omap in Hd as (line & _ & Hl). by eapply aplay_device_raw. }
  unfold select. rewrite Hraw. cbn [negb]. unfold list_devices, refresh. run_m.
  destruct (list_find (λ d', device_id d' = device_id d) (parse_aplay_hardware output)) as [[i d']|] eqn:Hf.
  - apply list_find_Some in Hf as (Hi & Hid & _). apply list_elem_of_lookup_2 in Hi as Hin.
    eexists d', _. split_and!; [done|done|done|done|]. cbn.
    assert (existsb (λ d0, bool_decide (device_id d0 = device_id d')) (parse_aplay_hardware output) = true) as ->; [|done].
    apply existsb_exists. exists d'. split; [by apply list_elem_of_In|]. by rewrite bool_decide_eq_true.
  - apply list_find_None in Hf. rewrite Forall_forall in Hf. by destruct (Hf d Hd).
Qed.

Lemma listed_device_selectable_witness :
  ∃ d' c', select (st "hw:1,0") (inr (parse_aplay_hardware (st "card 1: PCH [HDA], device 0: ALC [Analog]"))) new_catalog = (Ok d', c') ∧
    device_id d' = st "hw:1,0".
Proof.
  destruct (listed_device_selectable (st "card 1: PCH [HDA], device 0: ALC [Analog]") (mkOutput (st "hw:1,0") (st "ALC [Analog]")) new_catalog)
    as (d' & c' & Hs & _ & Hid & _); [vm_compute; by left|].
  exists d', c'. split; [exact Hs|exact Hid].
Defined.
