(* ===== verification/Adaptive.v ===== *)
(** Adaptive System Rate (desktop/core/src/adaptive_system_rate.rs): forcing
    PipeWire's graph rate to the source's, and the marker that lets a later
    start undo it. *)

From S2P Require Import Prelude Text Float64 Values Telemetry OutputDevices Prog.

(** What the controller asks of its rate adapter and its cleanup marker. *)
Inductive acall : Type → Type :=
| EnsureAvailable : acall (outcome str unit)
| SetForcedRate (rate_hz : option Z) : acall (outcome str unit)
| ForcedRate : acall (outcome str (option Z))
| MarkerRequired : acall (outcome str bool)
| MarkRequired : acall (outcome str unit)
| ClearMarker : acall (outcome str unit).

Record AdaptiveSystemRateState := mkAdaptive { is_enabled : bool; forced_rate_hz : option Z }.
Definition default_adaptive : AdaptiveSystemRateState := mkAdaptive false None.

Abbreviation AdaptiveProg A := (prog AdaptiveSystemRateState acall (outcome str A)).

Definition set_forced (rate : option Z) : AdaptiveProg unit :=
  act (λ s, (Ok tt, mkAdaptive (is_enabled s) rate)).

Definition ensure_available : AdaptiveProg unit := call EnsureAvailable.

Definition enable : AdaptiveProg unit :=
  _ ←? call MarkRequired;
  act (λ s, (Ok tt, mkAdaptive true (forced_rate_hz s))).

Definition apply_source_sample_rate (rate_hz : option Z) : AdaptiveProg unit :=
  s ← read id;
  if negb (is_enabled s) then Done (Ok tt)
  else
    let rate_hz := r ← rate_hz; if 0 <? r then Some r else None in
    _ ←? call (SetForcedRate rate_hz);
    set_forced rate_hz.

Definition reset_force_rate : AdaptiveProg unit :=
  _ ←? call (SetForcedRate None);
  set_forced None.

Definition is_idle (s : AdaptiveSystemRateState) : bool :=
  negb (is_enabled s) && negb (bool_decide (is_Some (forced_rate_hz s))).

Definition disable : AdaptiveProg unit :=
  s ← read id;
  if is_idle s then Done (Ok tt)
  else
    _ ←? reset_force_rate;
    _ ←? call ClearMarker;
    act (λ _, (Ok tt, default_adaptive)).

Definition reset_for_recovery : AdaptiveProg unit :=
  s ← read id;
  if is_idle s then Done (Ok tt) else reset_force_rate.

(** The controller's [Drop]. *)
Definition drop_controller : AdaptiveProg unit :=
  s ← read id;
  if is_idle s then Done (Ok tt)
  else
    r ← call (SetForcedRate None);
    match r with
    | Ok _ => call ClearMarker
    | _ => Done (Ok tt)
    end.

(** A new controller, which the start of the Desktop makes. *)
Definition recover_startup : AdaptiveProg unit :=
  rate ←? call ForcedRate;
  _ ←? (if bool_decide (is_Some rate) then call (SetForcedRate None) else Done (Ok tt));
  act (λ _, (Ok tt, default_adaptive)).

Definition recover_startup_if_marked : AdaptiveProg unit :=
  required ←? call MarkerRequired;
  _ ←? (if required : bool then _ ←? call (SetForcedRate None); call ClearMarker else Done (Ok tt));
  act (λ _, (Ok tt, default_adaptive)).

(** *** The PipeWire adapter *)

(** The argument of pw-metadata. *)
Definition rate_argument (rate_hz : option Z) : str := show (default 0 rate_hz).

Definition parse_force_rate `{SerdeJson} (output : list byte) : outcome str (option Z) :=
  match parse_values output with
  | inl e => Err (st "Failed to parse PipeWire metadata: " ++ e)
  | inr objects =>
      match (settings ← find_object (is_metadata (st "settings")) objects; metadata_value settings (st "clock.force-rate")) with
      | None => Ok None
      | Some v =>
          rate ← ok_or (or_else (value_u32 v) (s ← as_str v; parse_u32 s))
                   (st "PipeWire clock.force-rate metadata was invalid.");
          Ok (if 0 <? rate then Some rate else None)
      end
  end.

(** ** The rate is never left forced without a marker *)

(** The system: the rate that is forced, and whether the marker is on disk. *)
Record System := mkWorld { forced : option Z; marked : bool }.

(** A system that does what it says, and may fail before or after doing it. *)
Class AdaptiveWorld := {
  answer : ∀ B, acall B → System → B * System;
  set_rate_ok r w : let '(o, w') := answer _ (SetForcedRate r) w in
    marked w' = marked w ∧ match o with Ok _ => forced w' = r | _ => forced w' = forced w ∨ forced w' = r end;
  mark_ok w : let '(o, w') := answer _ MarkRequired w in
    forced w' = forced w ∧ match o with Ok _ => marked w' = true | _ => marked w' = marked w ∨ marked w' = true end;
  clear_ok w : let '(o, w') := answer _ ClearMarker w in
    forced w' = forced w ∧ match o with Ok _ => marked w' = false | _ => marked w' = marked w end;
  required_ok w : let '(o, w') := answer _ MarkerRequired w in
    w' = w ∧ match o with Ok b => b = marked w | _ => True end;
  available_ok w : (answer _ EnsureAvailable w).2 = w;
  rate_ok w : (answer _ ForcedRate w).2 = w
}.

(** What the Desktop does with a controller. *)
Inductive request := Enable | Available | Apply (rate_hz : option Z) | Disable | Reset.

Definition perform (r : request) : AdaptiveProg unit :=
  match r with
  | Enable => enable
  | Available => ensure_available
  | Apply rate => apply_source_sample_rate rate
  | Disable => disable
  | Reset => reset_for_recovery
  end.

(** A session: the requests in any order, whatever each of them answers. *)
Fixpoint session (rs : list request) : prog AdaptiveSystemRateState acall unit :=
  match rs with
  | [] => Done tt
  | r :: rs => _ ← perform r; session rs
  end.

Section Safety.
Context `{AdaptiveWorld}.

(** At every point: a forced rate is one the marker remembers. *)
Definition remembered (_ : AdaptiveSystemRateState) (w : System) : Prop := is_Some (forced w) → marked w = true.

(** Between requests. *)
Record settled (s : AdaptiveSystemRateState) (w : System) : Prop := {
  settled_forced : is_Some (forced w) → marked w = true;
  settled_enabled : is_enabled s = true → marked w = true;
  settled_rate : is_Some (forced_rate_hz s) → is_enabled s = true
}.

Lemma set_rate_safe r s w (k : outcome str unit → AdaptiveProg unit) Q : settled s w →
  is_Some r → is_enabled s = true →
  (∀ o w', marked w' = true → (∀ u, o = Ok u → forced w' = r) → always answer remembered (k o) s w' Q) →
  always answer remembered (Call (SetForcedRate r) k) s w Q.
Proof.
  intros [H1 H2 H3] Hr He Hk. split; [exact H1|]. pose proof (set_rate_ok r w) as Ha.
  destruct (answer _ (SetForcedRate r) w) as [o w']. destruct Ha as [Hm Ho]. apply Hk; [rewrite Hm; auto|].
  intros u ->. exact Ho.
Qed.

Lemma clear_rate_safe s w (k : outcome str unit → AdaptiveProg unit) Q : remembered s w →
  (∀ o w', marked w' = marked w → remembered s w' → (∀ u, o = Ok u → forced w' = None) → always answer remembered (k o) s w' Q) →
  always answer remembered (Call (SetForcedRate None) k) s w Q.
Proof.
  intros H1 Hk. split; [exact H1|]. pose proof (set_rate_ok None w) as Ha.
  destruct (answer _ (SetForcedRate None) w) as [o w']. destruct Ha as [Hm Ho]. apply Hk; [done| |].
  - unfold remembered in *. rewrite Hm. destruct o; [by rewrite Ho; intros []|..]; destruct Ho as [-> | ->]; auto; by intros [].
  - intros u ->. exact Ho.
Qed.

Lemma mark_safe s w (k : outcome str unit → AdaptiveProg unit) Q : settled s w →
  (∀ o w', settled s w' → (∀ u, o = Ok u → marked w' = true) → always answer remembered (k o) s w' Q) →
  always answer remembered (Call MarkRequired k) s w Q.
Proof.
  intros [H1 H2 H3] Hk. split; [exact H1|]. pose proof (mark_ok w) as Ha.
  destruct (answer _ MarkRequired w) as [o w']. destruct Ha as [Hf Hm]. apply Hk.
  - assert (marked w = true → marked w' = true) as Hup by (intros; destruct o; [done|..]; destruct Hm; congruence).
    split; [rewrite Hf; auto|auto|auto].
  - intros u ->. exact Hm.
Qed.

Lemma clear_safe s w (k : outcome str unit → AdaptiveProg unit) Q : forced w = None →
  (∀ o w', forced w' = None → (∀ u, o = Ok u → marked w' = false) → ((∀ u, o ≠ Ok u) → marked w' = marked w) →
     always answer remembered (k o) s w' Q) →
  always answer remembered (Call ClearMarker k) s w Q.
Proof.
  intros H1 Hk. split; [intros Hf; rewrite H1 in Hf; by destruct Hf|]. pose proof (clear_ok w) as Ha.
  destruct (answer _ ClearMarker w) as [o w']. destruct Ha as [Hf Hm]. apply Hk; [congruence| |].
  - intros u ->. exact Hm.
  - intros Hne. destruct o; [by destruct (Hne a)|done..].
Qed.

(** One action, and the end. *)
Lemma act_safe {A} (op : AdaptiveSystemRateState → outcome str A * AdaptiveSystemRateState) s w Q :
  remembered s w → (let '(a, s') := op s in Q a s' w) → always answer remembered (act op) s w Q.
Proof. intros H1 HQ. split; [done|]. cbn. destruct (op s). by split. Qed.

Lemma idle_settled s w : settled s w → is_idle s = false → is_enabled s = true.
Proof.
  intros [_ _ H3]. unfold is_idle. destruct (is_enabled s); [done|]. cbn. rewrite negb_false_iff, bool_decide_eq_true.
  intros Hf. by apply H3.
Qed.

Lemma settled_remembered s w : settled s w → remembered s w.
Proof. by intros [H1 _ _]. Qed.

Lemma ends_settled {A} (o : outcome str A) s w : settled s w → always answer remembered (Done o) s w (λ _, settled).
Proof. intros Hs. split; [by apply settled_remembered|done]. Qed.

Lemma marked_settled s w : marked w = true → (is_Some (forced_rate_hz s) → is_enabled s = true) → settled s w.
Proof. intros Hm Hf. by split. Qed.

Lemma unforced_settled w : forced w = None → settled default_adaptive w.
Proof. intros Hf. split; [rewrite Hf; by intros []|done|by intros []]. Qed.

(** Giving the rate back, and forgetting it. *)
Lemma reset_safe s w (Q : outcome str unit → AdaptiveSystemRateState → System → Prop) : settled s w → is_enabled s = true →
  (∀ o w', marked w' = true → (∀ u, o = Ok u → forced w' = None) →
     Q o (match o with Ok _ => mkAdaptive (is_enabled s) None | _ => s end) w') →
  always answer remembered reset_force_rate s w Q.
Proof.
  intros Hs He HQ. unfold reset_force_rate, and_then, call. cbn [mbind prog_bind].
  apply clear_rate_safe; [by apply settled_remembered|]. intros o w' Hm Hrem Ho.
  assert (marked w' = true) as Hm' by (rewrite Hm; by apply (settled_enabled s w Hs)).
  specialize (HQ o w' Hm' Ho). destruct o as [[]|e| |]; [by apply act_safe|by split..].
Qed.

Lemma perform_safe r s w : settled s w → always answer remembered (perform r) s w (λ _, settled).
Proof.
  intros Hs. pose proof (settled_remembered s w Hs) as H1. destruct r as [| |rate| |]; cbn [perform].
  - unfold enable, and_then, call. cbn [mbind prog_bind]. apply mark_safe; [done|]. intros o w' Hs' Hm.
    destruct o as [[]|e| |]; [|by apply ends_settled..].
    apply act_safe; [by apply settled_remembered|]. apply marked_settled; [by eapply Hm|done].
  - split; [exact H1|]. pose proof (available_ok w) as Ha. destruct (answer _ EnsureAvailable w) as [o w']. cbn in Ha. subst.
    by apply ends_settled.
  - unfold apply_source_sample_rate. apply always_read; [exact H1|]. cbn [id]. destruct (is_enabled s) eqn:He; cbn [negb]; [|by apply ends_settled].
    assert (∀ w', marked w' = true → settled s w') as Hkeep by (intros; by apply marked_settled; [|intros; rewrite He]).
    set (r := rate ≫= _). destruct r as [z|] eqn:Hr; unfold and_then, call; cbn [mbind prog_bind].
    + apply set_rate_safe; [done..|]. intros o w' Hm _. destruct o as [[]|e| |]; [|by apply ends_settled, Hkeep..].
      apply act_safe; [by intros _|]. by apply marked_settled.
    + apply clear_rate_safe; [done|]. intros o w' Hm Hrem _.
      assert (marked w' = true) as Hm' by (rewrite Hm; by apply (settled_enabled s w Hs)).
      destruct o as [[]|e| |]; [|by apply ends_settled, Hkeep..]. apply act_safe; [done|]. by apply marked_settled.
  - unfold disable. apply always_read; [exact H1|]. cbn [id]. destruct (is_idle s) eqn:Hi; [by apply ends_settled|].
    pose proof (idle_settled s w Hs Hi) as He. eapply point_bind; [apply (reset_safe s w (λ o s' w', marked w' = true ∧
      (∀ u, o = Ok u → forced w' = None) ∧ is_enabled s' = true ∧ settled s' w')); [done..|]|].
    + intros o w' Hm Ho. destruct o as [[]|e| |]; (split_and!; [done|done|done|by apply marked_settled]).
    + intros o s1 w1 (Hm & Ho & He1 & Hs1). destruct o as [[]|e| |]; [|by apply ends_settled..].
      unfold and_then, call. cbn [mbind prog_bind]. apply clear_safe; [by eapply Ho|]. intros o w2 Hf Hok Herr.
      destruct o as [[]|e| |]; [|by apply ends_settled, marked_settled; [rewrite Herr|intros; rewrite He1]..].
      apply act_safe; [intros Hx; rewrite Hf in Hx; by destruct Hx|]. by apply unforced_settled.
  - unfold reset_for_recovery. apply always_read; [exact H1|]. cbn [id]. destruct (is_idle s) eqn:Hi; [by apply ends_settled|].
    pose proof (idle_settled s w Hs Hi) as He. apply reset_safe; [done..|]. intros o w' Hm Ho.
    destruct o as [[]|e| |]; by apply marked_settled.
Qed.

Lemma session_safe rs s w : settled s w → always answer remembered (session rs) s w (λ _, settled).
Proof.
  revert s w. induction rs as [|r rs IH]; intros s w Hs; cbn [session].
  - split; [by apply settled_remembered|done].
  - eapply point_bind; [by apply perform_safe|]. intros o s' w' Hs'. by apply IH.
Qed.

Lemma recover_marked_cases s w : remembered s w → always answer remembered recover_startup_if_marked s w
  (λ o s' w', o = Ok tt → s' = default_adaptive ∧ forced w' = None ∧ marked w' = false).
Proof.
  intros H1. unfold recover_startup_if_marked, and_then, call. cbn [mbind prog_bind]. split; [exact H1|].
  pose proof (required_ok w) as Ha. destruct (answer _ MarkerRequired w) as [o w']. destruct Ha as [-> Ho].
  destruct o as [[|]|e| |]; cbn [mbind prog_bind]; try by split.
  - apply clear_rate_safe; [done|]. intros o w' Hm Hrem Hok. destruct o as [[]|e| |]; cbn [mbind prog_bind]; try by split.
    apply clear_safe; [by eapply Hok|]. intros o w2 Hf Hok2 _. destruct o as [[]|e| |]; cbn [mbind prog_bind].
    + apply act_safe; [intros Hx; rewrite Hf in Hx; by destruct Hx|]. intros _. split_and!; [done|done|by eapply Hok2].
    + split; [intros Hx; rewrite Hf in Hx; by destruct Hx|done].
    + split; [intros Hx; rewrite Hf in Hx; by destruct Hx|done].
    + split; [intros Hx; rewrite Hf in Hx; by destruct Hx|done].
  - apply act_safe; [done|]. intros _. split_and!; [done| |done].
    destruct (forced w) as [r|] eqn:Hf; [|done]. unfold remembered in H1. rewrite Hf in H1. specialize (H1 ltac:(by eexists)). congruence.
Qed.

(** C10: The system rate is never left forced behind the Desktop's back. From a
    start that left it alone, whatever the Desktop asks of Adaptive System Rate
    and whatever fails, at every point where the process may end a forced rate is
    one the cleanup marker remembers; and a later start that succeeds leaves the
    rate free and the marker gone. *)
Theorem forced_rate_is_remembered rs w : forced w = None →
  always answer remembered (session rs) default_adaptive w (λ _, settled) ∧
  (∀ s w', remembered s w' → always answer remembered recover_startup_if_marked s w'
     (λ o s' w'', o = Ok tt → s' = default_adaptive ∧ forced w'' = None ∧ marked w'' = false)).
Proof.
  intros Hf. split; [|exact recover_marked_cases]. apply session_safe, unforced_settled, Hf.
Qed.
End Safety.

(** A system in which everything works. *)
#[local] Program Instance working_world : AdaptiveWorld := {|
  answer B (c : acall B) w :=
    match c in acall B return B * System with
    | EnsureAvailable => (Ok tt, w)
    | SetForcedRate r => (Ok tt, mkWorld r (marked w))
    | ForcedRate => (Ok (forced w), w)
    | MarkerRequired => (Ok (marked w), w)
    | MarkRequired => (Ok tt, mkWorld (forced w) true)
    | ClearMarker => (Ok tt, mkWorld (forced w) false)
    end
|}.
Solve All Obligations with done.

Lemma forced_rate_is_remembered_witness :
  always answer remembered (session [Enable; Apply (Some 96000); Disable]) default_adaptive (mkWorld None false) (λ _, settled).
Proof. exact (proj1 (forced_rate_is_remembered [Enable; Apply (Some 96000); Disable] (mkWorld None false) eq_refl)). Defined.
