(* ===== verification/SettingsFile.v ===== *)
(** A small file the Desktop keeps: written beside its place and then renamed
    over it (FileProcessingSettingsStorage in desktop/core/src/processing.rs,
    PlaybackSnapshotStore in playback_lifecycle.rs). *)

From S2P Require Import Prelude Text Prog.

(** Why a file could not be read. *)
Inductive read_error := NotFound | Unreadable (message : str).

(** The calls on the file system: the file itself, and the temporary one beside it. *)
Inductive fcall : Type → Type :=
| ReadFile : fcall (outcome read_error str)
| CreateParent : fcall (outcome str unit)
| WriteTemporary (text : str) : fcall (outcome str unit)
| RenameTemporary : fcall (outcome str unit).

Section File.
Context {S : Type}.

(** [None] when there is no file yet. *)
Definition load_file {E} (wrap : str → E) : prog S fcall (outcome E (option str)) :=
  r ← call ReadFile;
  Done match r with
       | Ok text => Ok (Some text)
       | Err NotFound => Ok None
       | Err (Unreadable e) => Err (wrap e)
       | Panic => Panic
       | OutOfFuel => OutOfFuel
       end.

(** [write] to the temporary path, then [rename]. *)
Definition replace_file {E} (not_written not_renamed : str → E) (text : str) : prog S fcall (outcome E unit) :=
  _ ←? with_err not_written (call (WriteTemporary text));
  with_err not_renamed (call RenameTemporary).

(** [create_dir_all] first. *)
Definition save_file {E} (no_parent not_written not_renamed : str → E) (text : str) : prog S fcall (outcome E unit) :=
  _ ←? with_err no_parent (call CreateParent);
  replace_file not_written not_renamed text.
End File.

(** ** A reader finds the old text or the new one *)

Record files := mkFiles { target : option str; temporary : option str }.

(** A file system: writing touches the temporary file only, whatever it leaves in
    it, and renaming moves it over the file or changes nothing. *)
Class FilesWorld := {
  file_answer : ∀ B, fcall B → files → B * files;
  read_ok w : let '(o, w') := file_answer _ ReadFile w in
    w' = w ∧ match o with Ok t => target w = Some t | Err NotFound => target w = None | _ => True end;
  create_ok w : target (file_answer _ CreateParent w).2 = target w;
  write_ok t w : let '(o, w') := file_answer _ (WriteTemporary t) w in
    target w' = target w ∧ match o with Ok _ => temporary w' = Some t | _ => True end;
  rename_ok w : let '(o, w') := file_answer _ RenameTemporary w in
    match o with Ok _ => target w' = temporary w | _ => target w' = target w end
}.

Section Atomic.
Context `{FilesWorld} {S : Type}.

(** The file is as it was, or holds [text]. *)
Definition old_or_new (old : option str) (text : str) (_ : S) (w : files) : Prop :=
  target w = old ∨ target w = Some text.

Lemma replace_file_cases {E} (e2 e3 : str → E) text s w :
  always file_answer (old_or_new (target w) text) (replace_file e2 e3 text) s w
    (λ o s' w', s' = s ∧ match o with Ok _ => target w' = Some text | _ => target w' = target w end).
Proof.
  unfold replace_file, and_then, with_err, call. cbn. split; [by left|].
  pose proof (write_ok text w) as H2. destruct (file_answer _ (WriteTemporary text) w) as [o w2]. destruct H2 as [H2 H2'].
  destruct o as [[]| | |]; cbn; try (split; [by left|by split]). split; [by left|].
  pose proof (rename_ok w2) as H3. destruct (file_answer _ RenameTemporary w2) as [[[]| | |] w3]; cbn;
    unfold old_or_new; rewrite H3, ?H2, ?H2'; auto.
Qed.

Lemma create_parent_cases {E} (e1 : str → E) text s w :
  always file_answer (old_or_new (target w) text) (with_err e1 (call CreateParent)) s w
    (λ o s' w', s' = s ∧ target w' = target w).
Proof.
  unfold with_err, call. cbn. split; [by left|]. pose proof (create_ok w) as H1.
  destruct (file_answer _ CreateParent w) as [o w1]. cbn in *. split; [by left|]. by split.
Qed.

Lemma save_file_cases {E} (e1 e2 e3 : str → E) text s w :
  always file_answer (old_or_new (target w) text) (save_file e1 e2 e3 text) s w
    (λ o s' w', s' = s ∧ match o with Ok _ => target w' = Some text | _ => target w' = target w end).
Proof.
  eapply point_bind; [apply create_parent_cases|]. intros o s1 w1 [-> Hw]. rewrite <-Hw.
  destruct o; [apply replace_file_cases|by (split; [left|])..].
Qed.
End Atomic.
