(* ===== verification/Processing.v ===== *)
(** The Processing Profile (desktop/core/src/processing.rs): software volume,
    ReplayGain and equalizer, what of them is persisted, and the configuration
    mpv gets. *)

From S2P Require Import Prelude Text Float64 Prog SettingsFile.

Inductive ProcessingProfile := Direct | Processed.
Inductive OutputMode := SystemOutput | DirectAlsa | AdaptiveSystemRate.
Inductive ReplayGainMode := GainOff | GainTrack | GainAlbum.
Inductive EffectiveReplayGainMode := EffOff | EffTrack | EffAlbum | TrackFallback | GainUnavailable | GainUnknown.
Inductive EqualizerPreset := Flat | BassBoost | Vocal | TrebleBoost | Custom.

#[export] Instance profile_eq_dec : EqDecision ProcessingProfile.
Proof. solve_decision. Defined.
#[export] Instance mode_eq_dec : EqDecision OutputMode.
Proof. solve_decision. Defined.
#[export] Instance gain_eq_dec : EqDecision ReplayGainMode.
Proof. solve_decision. Defined.
#[export] Instance preset_eq_dec : EqDecision EqualizerPreset.
Proof. solve_decision. Defined.

Record EqualizerState := mkEqualizer { eq_enabled : bool; preset : EqualizerPreset; gains_db : list f64 }.

Record ProcessingState := mkState {
  profile : ProcessingProfile;
  software_volume : f64;
  replay_gain_mode : ReplayGainMode;
  effective_replay_gain_mode : EffectiveReplayGainMode;
  replay_gain_preference : option ReplayGainMode;
  equalizer : EqualizerState;
  effective_audio_filters : list str;
  transition_notice : option str
}.

(** A decimal literal [n / d] of the source. *)
Definition dec (n d : Z) : f64 := fdiv (of_Z n) (of_Z d).

Definition EQ_FREQUENCIES_HZ : list f64 :=
  [dec 125 4; dec 125 2; of_Z 125; of_Z 250; of_Z 500; of_Z 1000; of_Z 2000; of_Z 4000; of_Z 8000; of_Z 16000].

Definition flat_gains : list f64 := repeat (of_Z 0) 10.
Definition flat_equalizer : EqualizerState := mkEqualizer false Flat flat_gains.

Definition default_state : ProcessingState :=
  mkState Direct (of_Z 1) GainOff EffOff None flat_equalizer [] None.

Definition preset_gains (p : EqualizerPreset) : list f64 :=
  match p with
  | Flat | Custom => flat_gains
  | BassBoost => [of_Z 5; of_Z 4; of_Z 3; dec 3 2; of_Z 0; of_Z 0; of_Z 0; of_Z 0; of_Z 0; of_Z 0]
  | Vocal => [of_Z (-2); of_Z (-1); of_Z 0; dec 3 2; of_Z 3; of_Z 3; of_Z 2; of_Z 1; of_Z 0; of_Z (-1)]
  | TrebleBoost => [of_Z 0; of_Z 0; of_Z 0; of_Z 0; of_Z 0; dec 1 2; dec 3 2; of_Z 3; of_Z 4; of_Z 5]
  end.

(** [f64::clamp]: NaN stays NaN. *)
Definition clamp (lo hi x : f64) : f64 :=
  let x := if flt x lo then lo else x in if flt hi x then hi else x.

(** [a == b] on [f64]. *)
Definition feq (a b : f64) : bool := SFeqb a b.

(** What the settings file holds. *)
Record PersistedProcessingSettings := mkPersisted {
  p_output_mode : OutputMode;
  p_device_id : option str;
  p_volumes : gmap str f64;
  p_profile : ProcessingProfile;
  p_volume : f64;
  p_gain_mode : ReplayGainMode;
  p_gain_preference : option ReplayGainMode;
  p_equalizer : EqualizerState
}.

Record MpvProcessingConfiguration := mkMpv {
  volume_percent : f64;
  mpv_gain_mode : ReplayGainMode;
  audio_filters : list str
}.

(** serde_json's text of the settings, and back. *)
Class SettingsFormat := {
  settings_to_string : PersistedProcessingSettings → outcome str str;
  settings_from_str : str → str + PersistedProcessingSettings
}.

(** The decimal text of a number. *)
Class FloatText := { show_f64 : f64 → str }.

Record ProcessingController := mkController {
  output_mode : OutputMode;
  selected_output_device_id : option str;
  volume_by_output_device : gmap str f64;
  pstate : ProcessingState
}.

Record ProcessingSnapshot := mkSnapshot { snapshot_state : ProcessingState; snapshot_volumes : gmap str f64 }.

Definition output_volume_key (mode : OutputMode) (device_id : option str) : str :=
  match mode, device_id with
  | DirectAlsa, Some id => st "alsa:" ++ id
  | _, _ => st "system"
  end.

Definition from_state (s : ProcessingState) (mode : OutputMode) (id : option str) (volumes : gmap str f64) : PersistedProcessingSettings :=
  mkPersisted mode id volumes (profile s) (software_volume s) (replay_gain_mode s) (replay_gain_preference s) (equalizer s).

Definition with_state (s : ProcessingState) (c : ProcessingController) : ProcessingController :=
  mkController (output_mode c) (selected_output_device_id c) (volume_by_output_device c) s.
Definition with_volumes (v : gmap str f64) (c : ProcessingController) : ProcessingController :=
  mkController (output_mode c) (selected_output_device_id c) v (pstate c).

(** *** Changes of the state *)

Definition transition_to_processed (is_transition : bool) (notice : str) (s : ProcessingState) : ProcessingState :=
  mkState (if is_transition then Processed else profile s) (software_volume s) (replay_gain_mode s)
    (effective_replay_gain_mode s) (replay_gain_preference s) (equalizer s) (effective_audio_filters s)
    (if is_transition then Some notice else None).

Definition clear_active_processing (s : ProcessingState) : ProcessingState :=
  mkState (profile s) (of_Z 1) GainOff EffOff (replay_gain_preference s) flat_equalizer (effective_audio_filters s) (transition_notice s).

Definition change_profile (p : ProcessingProfile) (s : ProcessingState) : ProcessingState :=
  let s := mkState p (software_volume s) (replay_gain_mode s) (effective_replay_gain_mode s) (replay_gain_preference s)
             (equalizer s) (effective_audio_filters s) None in
  if bool_decide (p = Direct) then clear_active_processing s else s.

Definition change_volume (volume : f64) (s : ProcessingState) : ProcessingState :=
  let is_transition := bool_decide (profile s = Direct) && negb (feq volume (of_Z 1)) in
  transition_to_processed is_transition (st "Software volume requires the Processed Profile.")
    (mkState (profile s) volume (replay_gain_mode s) (effective_replay_gain_mode s) (replay_gain_preference s)
       (equalizer s) (effective_audio_filters s) (transition_notice s)).

Definition change_replay_gain (mode : ReplayGainMode) (s : ProcessingState) : ProcessingState :=
  transition_to_processed (bool_decide (profile s = Direct)) (st "ReplayGain requires the Processed Profile.")
    (mkState (profile s) (software_volume s) mode GainUnknown (Some mode) (equalizer s) (effective_audio_filters s) (transition_notice s)).

Definition without_replay_gain (s : ProcessingState) : ProcessingState :=
  mkState (profile s) (software_volume s) GainOff EffOff (replay_gain_preference s) (equalizer s) (effective_audio_filters s) None.

Definition change_equalizer (is_transition : bool) (e : EqualizerState) (s : ProcessingState) : ProcessingState :=
  transition_to_processed is_transition (st "Equalizer changes require the Processed Profile.")
    (mkState (profile s) (software_volume s) (replay_gain_mode s) (effective_replay_gain_mode s) (replay_gain_preference s)
       e (effective_audio_filters s) (transition_notice s)).

Definition change_preset (p : EqualizerPreset) (s : ProcessingState) : ProcessingState :=
  let is_enabled := negb (bool_decide (p = Flat)) in
  change_equalizer (bool_decide (profile s = Direct) && is_enabled) (mkEqualizer is_enabled p (preset_gains p)) s.

Definition bounded_gain (value : f64) : f64 := if is_finite value then clamp (of_Z (-12)) (of_Z 12) value else of_Z 0.

Definition change_gain (index : nat) (value : f64) (s : ProcessingState) : outcome str ProcessingState :=
  if bool_decide (index < length (gains_db (equalizer s)))%nat then
    Ok (change_equalizer (bool_decide (profile s = Direct))
          (mkEqualizer true Custom (<[index := bounded_gain value]> (gains_db (equalizer s)))) s)
  else Err (st "Equalizer band index " ++ show (Z.of_nat index) ++ st " is out of range.").

Definition bounded_volume (value : f64) : f64 := if is_finite value then clamp (of_Z 0) (of_Z 1) value else of_Z 0.

Section Controller.
Context `{SettingsFormat, FloatText}.

Definition create_equalizer_filters (gains : list f64) : list str :=
  zip_with (λ frequency gain, st "equalizer=f=" ++ show_f64 frequency ++ st ":t=q:w=1:g=" ++ show_f64 gain) EQ_FREQUENCIES_HZ gains.

Definition mpv_configuration_for (s : ProcessingState) : MpvProcessingConfiguration :=
  mkMpv (fmul (software_volume s) (of_Z 100)) (replay_gain_mode s)
    (if eq_enabled (equalizer s) then create_equalizer_filters (gains_db (equalizer s)) else []).

(** [state_from_json]: the controller a settings file gives. *)
Definition state_from_json (value : str) : outcome str ProcessingController :=
  match settings_from_str value with
  | inl e => Err (st "Failed to parse Processing Profile settings: " ++ e)
  | inr p =>
      Ok (mkController (p_output_mode p) (p_device_id p) (p_volumes p)
            (mkState (p_profile p) (p_volume p) (p_gain_mode p)
               (if bool_decide (p_gain_mode p = GainOff) then EffOff else GainUnknown)
               (p_gain_preference p) (p_equalizer p) [] None))
  end.

Definition new_controller : ProcessingController := mkController SystemOutput None ∅ default_state.

(** Where the settings are, as the messages name it. *)
Variables settings_path settings_parent temporary_path : str.

Abbreviation Controlled A := (prog ProcessingController fcall (outcome str A)).

Definition file_save (text : str) : Controlled unit :=
  save_file
    (λ e, st "Failed to create settings directory " ++ settings_parent ++ st ": " ++ e)
    (λ e, st "Failed to persist Processing Profile settings to " ++ temporary_path ++ st ": " ++ e)
    (λ e, st "Failed to finalize Processing Profile settings at " ++ settings_path ++ st ": " ++ e) text.

Definition file_load : Controlled (option str) :=
  load_file (λ e, st "Failed to read Processing Profile settings from " ++ settings_path ++ st ": " ++ e).

(** [ProcessingController::open]. *)
Definition open_controller : Controlled unit :=
  loaded ←? file_load;
  c ←? Done match loaded with Some value => state_from_json value | None => Ok new_controller end;
  act (λ _, (Ok tt, c)).

Definition persist_settings (s : ProcessingState) (mode : OutputMode) (id : option str) : Controlled unit :=
  volumes ← read volume_by_output_device;
  value ←? Done (map_err (λ e, st "Failed to serialize Processing Profile settings: " ++ e)
                   (settings_to_string (from_state s mode id volumes)));
  file_save value.

Definition persist_state (s : ProcessingState) : Controlled unit :=
  c ← read id;
  persist_settings s (output_mode c) (selected_output_device_id c).

Definition set_state (s : ProcessingState) : Controlled unit := act (λ c, (Ok tt, with_state s c)).

Definition commit (change : ProcessingState → outcome str ProcessingState) : Controlled unit :=
  c ← read id;
  candidate ←? Done (change (pstate c));
  _ ←? persist_state candidate;
  set_state candidate.

Definition remembered_volume (c : ProcessingController) : option f64 :=
  volume_by_output_device c !! output_volume_key (output_mode c) (selected_output_device_id c).

Definition snapshot (c : ProcessingController) : ProcessingSnapshot := mkSnapshot (pstate c) (volume_by_output_device c).

Definition restore_snapshot (snap : ProcessingSnapshot) : Controlled unit :=
  _ ← write (λ c, with_volumes (snapshot_volumes snap) (with_state (snapshot_state snap) c));
  persist_state (snapshot_state snap).

Definition set_output_mode (mode : OutputMode) : Controlled unit :=
  c ← read id;
  _ ←? persist_settings (pstate c) mode (selected_output_device_id c);
  act (λ c, (Ok tt, mkController mode (selected_output_device_id c) (volume_by_output_device c) (pstate c))).

Definition select_output_device (id_ : str) : Controlled unit :=
  c ← read id;
  _ ←? persist_settings (pstate c) (output_mode c) (Some id_);
  act (λ c, (Ok tt, mkController (output_mode c) (Some id_) (volume_by_output_device c) (pstate c))).

Definition select_direct_alsa_output (id_ : str) : Controlled unit :=
  c ← read id;
  _ ←? persist_settings (pstate c) DirectAlsa (Some id_);
  act (λ c, (Ok tt, mkController DirectAlsa (Some id_) (volume_by_output_device c) (pstate c))).

Definition set_profile (p : ProcessingProfile) : Controlled unit := commit (λ s, Ok (change_profile p s)).

Definition set_software_volume (value : f64) : Controlled unit :=
  let volume := bounded_volume value in
  c ← read id;
  let key := output_volume_key (output_mode c) (selected_output_device_id c) in
  previous ← act (λ c, (volume_by_output_device c !! key, with_volumes (<[key := volume]> (volume_by_output_device c)) c));
  result ← commit (λ s, Ok (change_volume volume s));
  match result with
  | Ok _ => Done result
  | _ =>
      _ ← write (λ c, with_volumes (match previous with
                                    | Some v => <[key := v]> (volume_by_output_device c)
                                    | None => base.delete key (volume_by_output_device c)
                                    end) c);
      Done result
  end.

Definition disable_replay_gain : Controlled unit := commit (λ s, Ok (without_replay_gain s)).

Definition enable_replay_gain (mode : ReplayGainMode) : Controlled unit :=
  if bool_decide (mode = GainOff) then disable_replay_gain else commit (λ s, Ok (change_replay_gain mode s)).

Definition apply_equalizer_preset (p : EqualizerPreset) : Controlled unit := commit (λ s, Ok (change_preset p s)).

Definition set_equalizer_gain (index : nat) (value : f64) : Controlled unit := commit (change_gain index value).

Definition restore (s : ProcessingState) : Controlled unit :=
  _ ←? persist_state s;
  set_state s.
End Controller.
