(* ===== verification/ProcessingSafety.v ===== *)
(** What the Processing Profile (desktop/core/src/processing.rs) keeps: the Direct
    Profile changes nothing, every value stays in its range, and memory and the
    settings file agree. *)

From Stdlib Require Import SpecFloat.
From S2P Require Import Prelude Text Float64 Prog SettingsFile Processing.

(** ** Ranges *)

Definition ranged (lo hi x : f64) : Prop := is_finite x = true ∧ fle lo x = true ∧ fle x hi = true.

Lemma finite_not_nan x : is_finite x = true → is_nan x = false.
Proof. by destruct x. Qed.

Lemma clamp_ranged lo hi x : is_finite lo = true → is_finite hi = true → fle lo hi = true → is_finite x = true →
  ranged lo hi (clamp lo hi x).
Proof.
  intros Hlo Hhi Hle Hx. pose proof (finite_not_nan _ Hlo) as Nlo. pose proof (finite_not_nan _ Hhi) as Nhi.
  pose proof (finite_not_nan _ Hx) as Nx. unfold clamp. destruct (flt x lo) eqn:H1; cbn zeta.
  - destruct (flt hi lo) eqn:H2; [split_and!; [done|done|by apply fle_refl]|].
    split_and!; [done|by apply fle_refl|by apply not_flt_fle].
  - destruct (flt hi x) eqn:H2; [split_and!; [done|done|by apply fle_refl]|].
    split_and!; [done|by apply not_flt_fle|by apply not_flt_fle].
Qed.

(** [ranged] as a test, to evaluate. *)
Definition rangedb (lo hi x : f64) : bool := is_finite x && fle lo x && fle x hi.

Lemma ranged_spec lo hi x : ranged lo hi x ↔ rangedb lo hi x = true.
Proof. unfold ranged, rangedb. rewrite !andb_true_iff. tauto. Qed.

Lemma ranged_all lo hi l : forallb (rangedb lo hi) l = true → Forall (ranged lo hi) l.
Proof.
  intros Hl. rewrite forallb_forall in Hl. apply Forall_forall. intros x Hx. apply ranged_spec, Hl.
  by apply list_elem_of_In.
Qed.

Lemma bounded_volume_ranged v : ranged (of_Z 0) (of_Z 1) (bounded_volume v).
Proof.
  unfold bounded_volume. destruct (is_finite v) eqn:Hv; [|by vm_compute].
  apply clamp_ranged; [vm_compute; reflexivity..|done].
Qed.

Lemma bounded_gain_ranged v : ranged (of_Z (-12)) (of_Z 12) (bounded_gain v).
Proof.
  unfold bounded_gain. destruct (is_finite v) eqn:Hv; [|by vm_compute].
  apply clamp_ranged; [vm_compute; reflexivity..|done].
Qed.

Lemma feq_finite x sy my ey : feq x (S754_finite sy my ey) = true → x = S754_finite sy my ey.
Proof.
  unfold feq, SFeqb. destruct x as [[]|[]| |sx m e]; unfold SFcompare; [destruct sy; discriminate..|].
  change (Pos.compare_cont Eq m my) with (m ?= my)%positive.
  destruct sx, sy; try discriminate; destruct (e ?= ey) eqn:He; try discriminate; apply Z.compare_eq in He as ->;
    destruct (m ?= my)%positive eqn:Hm; try discriminate; by apply Pos.compare_eq in Hm as ->.
Qed.

Lemma feq_one v : feq v (of_Z 1) = true → v = of_Z 1.
Proof.
  assert (of_Z 1 = S754_finite false 4503599627370496 (-52)) as -> by (vm_compute; reflexivity). apply feq_finite.
Qed.

(** ** Requests *)

Inductive request :=
| SetMode (mode : OutputMode)
| SelectDevice (id : str)
| SelectDirect (id : str)
| SetProfile (p : ProcessingProfile)
| SetVolume (value : f64)
| EnableGain (mode : ReplayGainMode)
| DisableGain
| Preset (p : EqualizerPreset)
| Gain (index : nat) (value : f64)
| RestoreState (s : ProcessingState).

Section Requests.
Context `{SettingsFormat, FloatText} (path parent temporary : str).

Definition perform (r : request) : prog ProcessingController fcall (outcome str unit) :=
  match r with
  | SetMode mode => set_output_mode path parent temporary mode
  | SelectDevice id => select_output_device path parent temporary id
  | SelectDirect id => select_direct_alsa_output path parent temporary id
  | SetProfile p => set_profile path parent temporary p
  | SetVolume value => set_software_volume path parent temporary value
  | EnableGain mode => enable_replay_gain path parent temporary mode
  | DisableGain => disable_replay_gain path parent temporary
  | Preset p => apply_equalizer_preset path parent temporary p
  | Gain index value => set_equalizer_gain path parent temporary index value
  | RestoreState s => restore path parent temporary s
  end.

(** The values mpv gets are in range, and the Direct Profile changes nothing. *)
Record sane (s : ProcessingState) : Prop := {
  sane_volume : ranged (of_Z 0) (of_Z 1) (software_volume s);
  sane_bands : length (gains_db (equalizer s)) = 10%nat;
  sane_gains : Forall (ranged (of_Z (-12)) (of_Z 12)) (gains_db (equalizer s));
  sane_direct : profile s = Direct →
    software_volume s = of_Z 1 ∧ replay_gain_mode s = GainOff ∧ eq_enabled (equalizer s) = false
}.

Definition request_ok (r : request) : Prop := match r with RestoreState s => sane s | _ => True end.

Lemma sane_default : sane default_state.
Proof.
  split; [apply ranged_spec; vm_compute; reflexivity|reflexivity|apply ranged_all; vm_compute; reflexivity|done].
Qed.

Lemma preset_ranged p : length (preset_gains p) = 10%nat ∧ Forall (ranged (of_Z (-12)) (of_Z 12)) (preset_gains p).
Proof. destruct p; (split; [reflexivity|apply ranged_all; vm_compute; reflexivity]). Qed.

Lemma sane_profile p s : sane s → sane (change_profile p s).
Proof.
  intros [H1 H2 H3 H4]. unfold change_profile. case_bool_decide as Hp.
  - split; [apply ranged_spec; vm_compute; reflexivity|reflexivity|apply ranged_all; vm_compute; reflexivity|done].
  - split; [exact H1|exact H2|exact H3|]. intros Hd. by destruct (Hp Hd).
Qed.

Lemma sane_change_volume v s : sane s → sane (change_volume (bounded_volume v) s).
Proof.
  intros [H1 H2 H3 H4]. unfold change_volume, transition_to_processed. split; cbn; try done; [apply bounded_volume_ranged|].
  destruct (bool_decide (profile s = Direct)) eqn:Hp; cbn.
  - bool_to_prop. destruct (feq _ _) eqn:Hf; cbn; [|done]. intros _. apply feq_one in Hf. destruct (H4 Hp) as (_ & ? & ?). by split_and!.
  - bool_to_prop. by intros ?.
Qed.

Lemma sane_replay_gain mode s : sane s → sane (change_replay_gain mode s).
Proof.
  intros [H1 H2 H3 H4]. unfold change_replay_gain, transition_to_processed. split; cbn; try done.
  case_bool_decide as Hp; [done|]. by intros ?.
Qed.

Lemma sane_without_gain s : sane s → sane (without_replay_gain s).
Proof.
  intros [H1 H2 H3 H4]. split; cbn; try done. intros Hp. destruct (H4 Hp) as (? & _ & ?). by split_and!.
Qed.

Lemma sane_equalizer b e s : sane s → length (gains_db e) = 10%nat → Forall (ranged (of_Z (-12)) (of_Z 12)) (gains_db e) →
  (b = false → profile s = Direct → eq_enabled e = false) → sane (change_equalizer b e s).
Proof.
  intros [H1 H2 H3 H4] Hl Hg He. unfold change_equalizer, transition_to_processed. split; cbn; try done.
  destruct b; [done|]. intros Hp. destruct (H4 Hp) as (? & ? & _). split_and!; [done|done|by apply He].
Qed.

Lemma sane_preset p s : sane s → sane (change_preset p s).
Proof.
  intros Hs. destruct (preset_ranged p) as [Hl Hg]. apply sane_equalizer; [done..|]. cbn.
  intros Hb Hp. rewrite bool_decide_eq_true_2 in Hb by done. by destruct (negb _).
Qed.

Lemma sane_gain i v s s' : sane s → change_gain i v s = Ok s' → sane s'.
Proof.
  intros Hs. unfold change_gain. case_bool_decide as Hi; [|done]. intros [= <-]. apply sane_equalizer; cbn.
  - done.
  - rewrite length_insert. apply Hs.
  - apply Forall_insert; [apply Hs|apply bounded_gain_ranged].
  - intros Hb Hp. by rewrite bool_decide_eq_true_2 in Hb.
Qed.

(** *** What a request does to memory and to the file *)

Context `{FilesWorld}.

(** At every point the file holds what it held, or complete settings. *)
Definition complete (old : option str) (_ : ProcessingController) (w : files) : Prop :=
  target w = old ∨ ∃ p t, settings_to_string p = Ok t ∧ target w = Some t.

Definition persisted (c : ProcessingController) : PersistedProcessingSettings :=
  from_state (pstate c) (output_mode c) (selected_output_device_id c) (volume_by_output_device c).

(** The file holds what is in memory. *)
Definition stored (c : ProcessingController) (w : files) : Prop :=
  ∃ t, settings_to_string (persisted c) = Ok t ∧ target w = Some t.

Definition done_or_undone (c : ProcessingController) (w : files) (o : outcome str unit) (c' : ProcessingController) (w' : files) : Prop :=
  match o with Ok _ => stored c' w' | _ => c' = c ∧ target w' = target w end.

(** *** What a request asks of each setting *)

(** The value itself, or the bound it is beyond; zero for what is no number. *)
Definition within (lo hi v : f64) : f64 :=
  if is_finite v then if flt v lo then lo else if flt hi v then hi else v else of_Z 0.

Definition asked_mode (r : request) (mode : OutputMode) : OutputMode :=
  match r with SetMode m => m | SelectDirect _ => DirectAlsa | _ => mode end.
Definition asked_device (r : request) (device : option str) : option str :=
  match r with SelectDevice id | SelectDirect id => Some id | _ => device end.

(** What only the Processed Profile can do moves to it. *)
Definition asked_profile (r : request) (p : ProcessingProfile) : ProcessingProfile :=
  match r with
  | SetProfile p' => p'
  | SetVolume v => if feq (within (of_Z 0) (of_Z 1) v) (of_Z 1) then p else Processed
  | EnableGain GainTrack | EnableGain GainAlbum | Gain _ _ => Processed
  | Preset BassBoost | Preset Vocal | Preset TrebleBoost | Preset Custom => Processed
  | RestoreState s => profile s
  | _ => p
  end.
Definition asked_volume (r : request) (volume : f64) : f64 :=
  match r with
  | SetVolume v => within (of_Z 0) (of_Z 1) v
  | SetProfile Direct => of_Z 1
  | RestoreState s => software_volume s
  | _ => volume
  end.
Definition asked_gain (r : request) (mode : ReplayGainMode) : ReplayGainMode :=
  match r with
  | EnableGain m => m
  | DisableGain | SetProfile Direct => GainOff
  | RestoreState s => replay_gain_mode s
  | _ => mode
  end.

(** The mode to come back to: the last one that was enabled. *)
Definition asked_preference (r : request) (preference : option ReplayGainMode) : option ReplayGainMode :=
  match r with
  | EnableGain GainTrack => Some GainTrack
  | EnableGain GainAlbum => Some GainAlbum
  | RestoreState s => replay_gain_preference s
  | _ => preference
  end.
Definition asked_equalizer (r : request) (e : EqualizerState) : EqualizerState :=
  match r with
  | SetProfile Direct => mkEqualizer false Flat (repeat (of_Z 0) 10)
  | Preset Flat => mkEqualizer false Flat (repeat (of_Z 0) 10)
  | Preset p => mkEqualizer true p (preset_gains p)
  | Gain index v => mkEqualizer true Custom (<[index := within (of_Z (-12)) (of_Z 12) v]> (gains_db e))
  | RestoreState s => equalizer s
  | _ => e
  end.

(** Each route remembers its own volume. *)
Definition asked_remembered (r : request) (c : ProcessingController) : gmap str f64 :=
  match r with
  | SetVolume v =>
      <[match output_mode c, selected_output_device_id c with
        | DirectAlsa, Some id => st "alsa:" ++ id
        | _, _ => st "system"
        end := within (of_Z 0) (of_Z 1) v]> (volume_by_output_device c)
  | _ => volume_by_output_device c
  end.

(** [c'] is [c] with every setting as [r] asks, and there is such a band. *)
Definition asked (r : request) (c c' : ProcessingController) : Prop :=
  output_mode c' = asked_mode r (output_mode c) ∧
  selected_output_device_id c' = asked_device r (selected_output_device_id c) ∧
  volume_by_output_device c' = asked_remembered r c ∧
  profile (pstate c') = asked_profile r (profile (pstate c)) ∧
  software_volume (pstate c') = asked_volume r (software_volume (pstate c)) ∧
  replay_gain_mode (pstate c') = asked_gain r (replay_gain_mode (pstate c)) ∧
  replay_gain_preference (pstate c') = asked_preference r (replay_gain_preference (pstate c)) ∧
  equalizer (pstate c') = asked_equalizer r (equalizer (pstate c)) ∧
  match r with Gain index _ => (index < 10)%nat | _ => True end.

Lemma bounded_volume_within v : bounded_volume v = within (of_Z 0) (of_Z 1) v.
Proof. unfold bounded_volume, within, clamp. destruct (is_finite v); [|done]. by destruct (flt v (of_Z 0)). Qed.
Lemma bounded_gain_within v : bounded_gain v = within (of_Z (-12)) (of_Z 12) v.
Proof. unfold bounded_gain, within, clamp. destruct (is_finite v); [|done]. by destruct (flt v (of_Z (-12))). Qed.

Lemma to_processed_profile p (b : bool) : (if bool_decide (p = Direct) && b then Processed else p) = if b then Processed else p.
Proof. by destruct p, b. Qed.

Lemma persist_settings_cases s mode id c w :
  always file_answer (complete (target w)) (persist_settings path parent temporary s mode id) c w
    (λ o c' w', c' = c ∧ match o with
                         | Ok _ => ∃ t, settings_to_string (from_state s mode id (volume_by_output_device c)) = Ok t ∧ target w' = Some t
                         | _ => target w' = target w end).
Proof.
  unfold persist_settings. apply always_read; [by left|]. unfold and_then at 1. cbn [mbind prog_bind].
  destruct (settings_to_string _) as [t|e| |] eqn:Ht; cbn [map_err]; try (split; [by left|done]).
  unfold file_save. eapply always_impl; [| |apply save_file_cases].
  - intros c' w' [Hw|Hw]; [by left|right]. by eexists _, t.
  - intros o c' w' [-> Ho]. split; [done|]. destruct o; [by exists t|done..].
Qed.

(** Settings that are saved and then made the ones in memory. *)
Lemma persist_then s mode id f c w (Q : ProcessingController → Prop) :
  persisted (f c) = from_state s mode id (volume_by_output_device c) → Q (f c) →
  always file_answer (complete (target w))
    (_ ←? persist_settings path parent temporary s mode id; act (λ x, (Ok tt, f x))) c w
    (λ o c' w', done_or_undone c w o c' w' ∧ (is_Some (ok_of o) → Q c')).
Proof.
  intros Hp HQ. eapply point_bind; [apply persist_settings_cases|]. intros o c2 w' [-> Ho].
  destruct o as [[]|e| |]; cbn in *; try (split; [left; by rewrite Ho|split; [done|by intros []]]).
  destruct Ho as (t & Ht & Hw). rewrite <-Hp in Ht. split; [right; by eexists _, t|]. split; [right; by eexists _, t|].
  split; [by exists t|done].
Qed.

Lemma persist_state_then s c w (Q : ProcessingController → Prop) : Q (with_state s c) →
  always file_answer (complete (target w)) (_ ←? persist_state path parent temporary s; set_state s) c w
    (λ o c' w', done_or_undone c w o c' w' ∧ (is_Some (ok_of o) → Q c')).
Proof.
  intros HQ.
  apply (always_read file_answer _ id (λ c0, _ ←? persist_settings path parent temporary s (output_mode c0) (selected_output_device_id c0); set_state s));
    [by left|]. by apply (persist_then _ _ _ (with_state s) c w Q).
Qed.

Lemma commit_cases change c w (Q : ProcessingController → Prop) : returns (change (pstate c)) →
  (∀ s, change (pstate c) = Ok s → Q (with_state s c)) →
  always file_answer (complete (target w)) (commit path parent temporary change) c w
    (λ o c' w', done_or_undone c w o c' w' ∧ (is_Some (ok_of o) → Q c')).
Proof.
  intros Hr HQ. unfold commit. apply always_read; [by left|]. cbn [id]. unfold and_then at 1. cbn [mbind prog_bind].
  destruct (change (pstate c)) as [s|e| |]; [|split; [by left|split; [done|by intros []]]|done..].
  apply persist_state_then. by apply HQ.
Qed.

Lemma undo_volume key v c w c' w' (r : outcome str unit) (Q : ProcessingController → Prop) :
  c' = with_volumes (<[key := v]> (volume_by_output_device c)) c ∧ target w' = target w → ok_of r = None →
  always file_answer (complete (target w))
    (_ ← write (λ x, with_volumes (match volume_by_output_device c !! key with
                                   | Some previous => <[key := previous]> (volume_by_output_device x)
                                   | None => base.delete key (volume_by_output_device x)
                                   end) x); Done r) c' w'
    (λ o c' w', done_or_undone c w o c' w' ∧ (is_Some (ok_of o) → Q c')).
Proof.
  intros [-> Hw] Hr. split; [by left|]. cbn.
  assert (with_volumes (match volume_by_output_device c !! key with
                        | Some previous => <[key := previous]> (<[key := v]> (volume_by_output_device c))
                        | None => base.delete key (<[key := v]> (volume_by_output_device c)) end)
            (with_volumes (<[key := v]> (volume_by_output_device c)) c) = c) as ->.
  { destruct c as [m i vs s]. unfold with_volumes. cbn. f_equal. destruct (vs !! key) as [p|] eqn:Hk.
    - rewrite insert_insert_eq. by apply insert_id.
    - by apply delete_insert_id. }
  split; [by left|]. destruct r; cbn in *; [done|..]; (split; [done|by intros []]).
Qed.

(** The volume is remembered for the route before it is committed, and forgotten
    again when that fails. *)
Lemma set_volume_cases v c w : sane (pstate c) →
  always file_answer (complete (target w)) (set_software_volume path parent temporary v) c w
    (λ o c' w', done_or_undone c w o c' w' ∧ (is_Some (ok_of o) → sane (pstate c') ∧ asked (SetVolume v) c c')).
Proof.
  intros Hs. unfold set_software_volume. apply always_read; [by left|]. cbn [id].
  set (key := output_volume_key _ _).
  apply always_act; [by left|]. cbn [fst snd].
  set (c0 := with_volumes (<[key := bounded_volume v]> (volume_by_output_device c)) c).
  eapply point_bind; [apply (commit_cases _ c0 w (λ c', sane (pstate c') ∧ asked (SetVolume v) c c')); [done|]|].
  - intros s [= <-]. split; [by apply sane_change_volume|]. unfold asked. cbn -[feq of_Z]. rewrite bounded_volume_within, to_processed_profile.
    by destruct (feq _ _).
  - intros o c' w' [Ho HQ]. destruct o as [[]|e| |]; cbn [done_or_undone] in Ho.
    + destruct Ho as (t & Ht & Hw). split; [right; by eexists _, t|]. split; [by exists t|done].
    + by apply (undo_volume key (bounded_volume v)).
    + by apply (undo_volume key (bounded_volume v)).
    + by apply (undo_volume key (bounded_volume v)).
Qed.

(** What each request does, when it is done. *)
Lemma perform_cases r c w : request_ok r → sane (pstate c) →
  always file_answer (complete (target w)) (perform r) c w
    (λ o c' w', done_or_undone c w o c' w' ∧ (is_Some (ok_of o) → sane (pstate c') ∧ asked r c c')).
Proof.
  intros Hok Hs.
  destruct r as [mode|id|id|p|v|mode| |p|i v|s]; cbn [perform].
  - apply always_read; [by left|]. by apply (persist_then _ _ _ (λ c, mkController mode (selected_output_device_id c) (volume_by_output_device c) (pstate c)) c w (λ c', sane (pstate c') ∧ asked (SetMode mode) c c')).
  - apply always_read; [by left|]. by apply (persist_then _ _ _ (λ c, mkController (output_mode c) (Some id) (volume_by_output_device c) (pstate c)) c w (λ c', sane (pstate c') ∧ asked (SelectDevice id) c c')).
  - apply always_read; [by left|]. by apply (persist_then _ _ _ (λ c, mkController DirectAlsa (Some id) (volume_by_output_device c) (pstate c)) c w (λ c', sane (pstate c') ∧ asked (SelectDirect id) c c')).
  - apply (commit_cases _ c w (λ c', sane (pstate c') ∧ asked (SetProfile p) c c')); [done|]. intros s [= <-].
    split; [by apply sane_profile|by destruct p].
  - by apply set_volume_cases.
  - unfold enable_replay_gain. case_bool_decide as Hm.
    + apply (commit_cases _ c w (λ c', sane (pstate c') ∧ asked (EnableGain mode) c c')); [done|]. intros s [= <-].
      split; [by apply sane_without_gain|by subst].
    + apply (commit_cases _ c w (λ c', sane (pstate c') ∧ asked (EnableGain mode) c c')); [done|]. intros s [= <-].
      split; [by apply sane_replay_gain|]. unfold asked. cbn. by destruct mode, (profile (pstate c)).
  - apply (commit_cases _ c w (λ c', sane (pstate c') ∧ asked DisableGain c c')); [done|]. intros s [= <-].
    split; [by apply sane_without_gain|done].
  - apply (commit_cases _ c w (λ c', sane (pstate c') ∧ asked (Preset p) c c')); [done|]. intros s [= <-].
    split; [by apply sane_preset|]. unfold asked. cbn. by destruct p, (profile (pstate c)).
  - apply (commit_cases _ c w (λ c', sane (pstate c') ∧ asked (Gain i v) c c')); [unfold change_gain; by case_bool_decide|]. intros s Hc.
    split; [by eapply sane_gain|]. unfold change_gain in Hc. case_bool_decide as Hi; [|done]. injection Hc as <-.
    rewrite (sane_bands _ Hs) in Hi. unfold asked. cbn. rewrite bounded_gain_within. by destruct (profile (pstate c)).
  - by apply (persist_state_then s c w (λ c', sane (pstate c') ∧ asked (RestoreState s) c c')).
Qed.

(** C31: Every request that is done has changed exactly the settings it asks for,
    in memory and on disk alike: route, remembered volume, profile, volume, gain and
    equalizer are what it asks of each, within their bounds. One that is not done leaves
    memory and disk as they were. All values are ones mpv can get, the Direct Profile
    stays untouched by processing, and at every point the settings file is complete. *)
Theorem request_keeps_settings r c w : request_ok r → sane (pstate c) →
  always file_answer (complete (target w)) (perform r) c w
    (λ o c' w', done_or_undone c w o c' w' ∧ (is_Some (ok_of o) → asked r c c') ∧ sane (pstate c') ∧
       (profile (pstate c') = Direct → mpv_configuration_for (pstate c') = mkMpv (of_Z 100) GainOff [])).
Proof.
  intros Hok Hs.
  assert (∀ s, sane s → profile s = Direct → mpv_configuration_for s = mkMpv (of_Z 100) GainOff []) as Hdirect.
  { intros s [_ _ _ Hd] Hp. destruct (Hd Hp) as (Hv & Hg & He). unfold mpv_configuration_for. rewrite Hv, Hg, He. f_equal. }
  eapply always_impl; [done| |by apply perform_cases]. intros o c' w' [Ho HQ]. assert (sane (pstate c')) as Hc'.
  { destruct o; [by apply HQ|..]; destruct Ho as [-> _]; done. }
  split_and!; [done|intros Hdone; by apply HQ|done|by apply Hdirect].
Qed.
End Requests.

(** A format and a file system that answer. *)
#[local] Instance plain_format : SettingsFormat := {|
  settings_to_string _ := Ok (st "settings"); settings_from_str _ := inl (st "unreadable")
|}.
#[local] Instance plain_numbers : FloatText := {| show_f64 _ := st "0" |}.
#[local] Program Instance plain_files : FilesWorld := {|
  file_answer B (c : fcall B) w :=
    match c in fcall B return B * files with
    | ReadFile => (match target w with Some t => Ok t | None => Err NotFound end, w)
    | CreateParent => (Ok tt, w)
    | WriteTemporary t => (Ok tt, mkFiles (target w) (Some t))
    | RenameTemporary => (Ok tt, mkFiles (temporary w) None)
    end
|}.
Next Obligation. intros w. by destruct w as [[t|] m]. Qed.
Solve All Obligations with done.

Lemma request_keeps_settings_witness :
  always file_answer (complete (Some (st "old"))) (perform [] [] [] (SetVolume (dec 1 2))) new_controller (mkFiles (Some (st "old")) None)
    (λ o c' w', done_or_undone new_controller (mkFiles (Some (st "old")) None) o c' w' ∧
       (is_Some (ok_of o) → asked (SetVolume (dec 1 2)) new_controller c') ∧ sane (pstate c') ∧
       (profile (pstate c') = Direct → mpv_configuration_for (pstate c') = mkMpv (of_Z 100) GainOff [])).
Proof. exact (request_keeps_settings [] [] [] (SetVolume (dec 1 2)) new_controller (mkFiles (Some (st "old")) None) I sane_default). Defined.
