(* ===== verification/LoadTiming.v ===== *)
(** How long a Playback Source takes to start
    (desktop/core/src/playback_load_timing.rs). Times are in nanoseconds. *)

From S2P Require Import Prelude Text.

Inductive LoadTrigger := PlayCommand | QueueAdvance | Gapless | Repeat | RestoreSession | Reconnect | Recovery.

Definition trigger_name (t : LoadTrigger) : str :=
  match t with
  | PlayCommand => st "play"
  | QueueAdvance => st "queue"
  | Gapless => st "gapless"
  | Repeat => st "repeat"
  | RestoreSession => st "restore"
  | Reconnect => st "reconnect"
  | Recovery => st "recovery"
  end.

Inductive LoadMark := Accepted (revision : Z) | MarkFileLoaded | MarkPlaying | MarkFailed.

Record Load := mkLoad {
  revision : option Z;
  source_type : str;
  trigger : LoadTrigger;
  sent_at : Z;
  file_loaded : option Z
}.

Inductive LoadOutcome := Started | Failed | Replaced.

Definition outcome_name (o : LoadOutcome) : str :=
  match o with Started => st "started" | Failed => st "failed" | Replaced => st "replaced" end.

Record LoadReport := mkReport {
  r_outcome : LoadOutcome;
  r_source_type : str;
  r_trigger : LoadTrigger;
  r_file_loaded : option Z;
  r_elapsed : Z
}.

(** [Instant::elapsed]: never negative. *)
Definition elapsed_since (sent now : Z) : Z := Z.max 0 (now - sent).

Definition new_report (l : Load) (o : LoadOutcome) (now : Z) : LoadReport :=
  mkReport o (source_type l) (trigger l) (file_loaded l) (elapsed_since (sent_at l) now).

(** [Duration::as_millis]. *)
Definition as_millis (d : Z) : Z := d / 1000000.

Definition line (r : LoadReport) : str :=
  let fields := st "type=" ++ r_source_type r ++ st " start=" ++ trigger_name (r_trigger r) in
  let elapsed := show (as_millis (r_elapsed r)) in
  match r_outcome r with
  | Replaced => st "Playback Source replaced before it started: " ++ fields ++ st " load_to_replaced_ms=" ++ elapsed
  | Started =>
      let loaded := match r_file_loaded r with
                    | Some d => st " load_to_file_loaded_ms=" ++ show (as_millis d)
                    | None => []
                    end in
      st "Playback Source started: " ++ fields ++ loaded ++ st " load_to_playing_ms=" ++ elapsed
  | Failed => st "Playback Source failed to start: " ++ fields ++ st " load_to_failed_ms=" ++ elapsed
  end.

(** [LoadTimer]: the load being timed. *)
Definition start (rev : option Z) (ty : str) (trig : LoadTrigger) (now : Z) (t : option Load) : option LoadReport * option Load :=
  ((λ l, new_report l Replaced now) <$> t, Some (mkLoad rev ty trig now None)).

Definition observe (mark : LoadMark) (now : Z) (t : option Load) : option LoadReport * option Load :=
  match t with
  | None => (None, None)
  | Some l =>
      match mark with
      | Accepted rev =>
          (None, Some (if bool_decide (revision l = Some rev)
                       then mkLoad None (source_type l) (trigger l) (sent_at l) (file_loaded l) else l))
      | MarkFileLoaded =>
          if bool_decide (is_Some (revision l)) then (None, Some l)
          else (None, Some (mkLoad (revision l) (source_type l) (trigger l) (sent_at l)
                              (Some (default (elapsed_since (sent_at l) now) (file_loaded l)))))
      | MarkPlaying => if bool_decide (is_Some (revision l)) then (None, Some l) else (Some (new_report l Started now), None)
      | MarkFailed => if bool_decide (is_Some (revision l)) then (None, Some l) else (Some (new_report l Failed now), None)
      end
  end.

(** ** Every start is reported *)

(** What happens to a timer, each at its time. *)
Inductive timing := Starts (rev : option Z) (ty : str) (trig : LoadTrigger) (now : Z) | Observes (mark : LoadMark) (now : Z).

Definition perform (e : timing) (t : option Load) : option LoadReport * option Load :=
  match e with
  | Starts rev ty trig now => start rev ty trig now t
  | Observes mark now => observe mark now t
  end.

Fixpoint reports (es : list timing) (t : option Load) : list LoadReport * option Load :=
  match es with
  | [] => ([], t)
  | e :: es =>
      let '(r, t) := perform e t in
      let '(rs, t) := reports es t in
      (match r with Some r => r :: rs | None => rs end, t)
  end.

(** The source type and trigger of a start, of a report and of a pending load. *)
Definition started (es : list timing) : list (str * LoadTrigger) :=
  omap (λ e, match e with Starts _ ty trig _ => Some (ty, trig) | Observes _ _ => None end) es.
Definition told (rs : list LoadReport) : list (str * LoadTrigger) := (λ r, (r_source_type r, r_trigger r)) <$> rs.
Definition pending (t : option Load) : list (str * LoadTrigger) :=
  match t with Some l => [(source_type l, trigger l)] | None => [] end.

Lemma perform_told e t : let '(r, t') := perform e t in
  pending t ++ started [e] = told (match r with Some r => [r] | None => [] end) ++ pending t'.
Proof.
  destruct e as [rev ty trig now|mark now]; cbn; [by destruct t|].
  destruct t as [l|]; [|done]. destruct mark; cbn; [by case_bool_decide|by destruct (bool_decide _)..].
Qed.

(** Whatever starts and whatever mpv reports, every load that was started is
    reported exactly once, in order, with its own source type and trigger, except
    the one still being timed. *)
Theorem every_start_reported es : let '(rs, t) := reports es None in started es = told rs ++ pending t.
Proof.
  assert (∀ t, let '(rs, t') := reports es t in pending t ++ started es = told rs ++ pending t') as H; [|exact (H None)].
  induction es as [|e es IH]; intros t; cbn [reports]; [cbn; by rewrite app_nil_r|].
  pose proof (perform_told e t) as He. destruct (perform e t) as [r t1]. specialize (IH t1).
  destruct (reports es t1) as [rs t2]. change (e :: es) with ([e] ++ es). unfold started in *.
  rewrite omap_app, app_assoc, He, <-app_assoc, IH. by destruct r.
Qed.
