(* ===== verification/Lifecycle.v ===== *)
(** The Playback Session across windows, crashes and launches
    (desktop/core/src/playback_lifecycle.rs, playback_restore.rs): the snapshot
    and what makes one valid, the states of the player's life, the snapshot's
    file, and what of a saved session a launch keeps. *)

From S2P Require Import Prelude Text Float64 Values Prog SettingsFile.

Definition ALLOWED_REPEAT_MODES : list str := [st "off"; st "once"; st "loop"].

Inductive PlaybackLifecycleError :=
| InvalidSnapshot (message : str)
| InvalidState (message : str)
| ReadError (path source : str)
| DecodeError (path source : str)
| EncodeError (path source : str)
| WriteError (path source : str).

Definition validate_snapshot (playhead_seconds volume : f64) (repeat_mode : str) : outcome PlaybackLifecycleError unit :=
  if negb (is_finite playhead_seconds) || flt playhead_seconds (of_Z 0) then
    Err (InvalidSnapshot (st "Playback Session Snapshot playhead must be a non-negative finite number."))
  else if negb (is_finite volume) || negb (fle (of_Z 0) volume && fle volume (of_Z 1)) then
    Err (InvalidSnapshot (st "Playback Session Snapshot volume must be between zero and one."))
  else if negb (bool_decide (repeat_mode ∈ ALLOWED_REPEAT_MODES)) then
    Err (InvalidSnapshot (st "Playback Session Snapshot repeat mode '" ++ repeat_mode ++ st "' is unsupported."))
  else Ok tt.

(** [is_safe_path_segment]. *)
Definition is_reserved (c : Z) : bool := (c =? 47) || (c =? 63) || (c =? 35).
Definition is_safe_path_segment (value : str) : bool :=
  negb (bool_decide (value = [])) && negb (existsb is_reserved value).

Definition invalid_source (message : str) : PlaybackLifecycleError := InvalidSnapshot message.

Definition ends_with (suffix s : str) : bool := bool_decide (is_Some (strip_suffix suffix s)).

Section Snapshot.
Context {SJ : SerdeJson}.

Record PlaybackSessionSnapshot := mkSnapshot {
  source : option Value;
  playhead_seconds : f64;
  volume : f64;
  shuffle_enabled : bool;
  repeat_mode : str
}.

Definition new_snapshot (source : option Value) (playhead_seconds volume : f64) (shuffle_enabled : bool) (repeat_mode : str)
    : outcome PlaybackLifecycleError PlaybackSessionSnapshot :=
  _ ← validate_snapshot playhead_seconds volume repeat_mode;
  Ok (mkSnapshot source playhead_seconds volume shuffle_enabled repeat_mode).

(** [serde_json::to_value] of a session's state and [from_value] of the fields the
    snapshot takes. *)
Record PlaybackStateProjection := mkProjection {
  state_source : option Value;
  current_time : f64;
  state_volume : f64;
  state_shuffle : bool;
  state_repeat : str
}.

Definition from_serializable_state (reproject : PlaybackStateProjection → str + PlaybackStateProjection)
    (state : PlaybackStateProjection) : outcome PlaybackLifecycleError PlaybackSessionSnapshot :=
  match reproject state with
  | inl e => Err (InvalidState e)
  | inr p => new_snapshot (state_source p) (current_time p) (state_volume p) (state_shuffle p) (state_repeat p)
  end.

(** *** The URL of a saved source *)

Definition external_track_resource (source : Value) : outcome PlaybackLifecycleError str :=
  let url := default [] (field_str (st "playbackUrl") source) in
  let path := default [] (head (split (λ c, (c =? 63) || (c =? 35)) url)) in
  if ends_with (st "/playlist.m3u8") path then Ok (st "playlist.m3u8")
  else if ends_with (st "/stream") path then Ok (st "stream")
  else Err (invalid_source (st "External Track playback URL is invalid.")).

Definition playback_source_path (source : Value) : outcome PlaybackLifecycleError str :=
  let type := field_str (st "type") source in
  '(identifier_pointer, path_prefix) ←
    (if bool_decide (type = Some (st "track")) then Ok (st "/track/id", st "api/v1/tracks")
     else if bool_decide (type = Some (st "radio-station")) then Ok (st "/station/id", st "api/v1/radio/stations")
     else if bool_decide (type = Some (st "catalog-preview")) then Ok (st "/result/stationUuid", st "api/v1/radio/preview")
     else if bool_decide (type = Some (st "external-track")) then Ok (st "/externalTrack/id", st "api/v1/external/tracks")
     else Err (invalid_source (st "Playback Source type is unsupported.")));
  identifier ← ok_or (i ← pointer_str identifier_pointer source; if is_safe_path_segment i then Some i else None)
                 (invalid_source (st "Playback Source identifier is invalid."));
  resource ← (if bool_decide (type = Some (st "external-track")) then external_track_resource source else Ok (st "stream"));
  Ok (path_prefix ++ st "/" ++ identifier ++ st "/" ++ resource).

Definition rebind_media_proxy (base_url : str) (s : PlaybackSessionSnapshot) : outcome PlaybackLifecycleError PlaybackSessionSnapshot :=
  match source s with
  | None => Ok s
  | Some v =>
      path ← playback_source_path v;
      v' ← ok_or (insert_field (st "playbackUrl") (String_ (base_url ++ st "/" ++ path)) v)
             (invalid_source (st "Playback Source must be an object."));
      Ok (mkSnapshot (Some v') (playhead_seconds s) (volume s) (shuffle_enabled s) (repeat_mode s))
  end.

(** *** The player's life *)

Inductive PlaybackLifecycleState := Foreground | Background | Recovering | FailedState | Quitting.

Record PlaybackLifecycleFailure := mkFailure { code : str; message : str }.

Definition crash_loop : PlaybackLifecycleFailure :=
  mkFailure (st "mpv-crash-loop")
    (st "Native playback stopped after two consecutive mpv failures. Quit and reopen the Desktop Client to try again.").

Inductive PlaybackLifecycleAction :=
| KeepPlayerRunning
| PublishPlaybackState
| RestartPlayer (snapshot : PlaybackSessionSnapshot) (should_resume : bool)
| SurfaceActionableError (failure : PlaybackLifecycleFailure)
| StopPlayerAndExit.

Record PlaybackLifecycleTransition := mkTransition { next_state : PlaybackLifecycleState; action : PlaybackLifecycleAction }.

Record PlaybackLifecycle := mkLifecycle { life : PlaybackLifecycleState; has_recovery_attempted : bool }.

Definition new_lifecycle : PlaybackLifecycle := mkLifecycle Foreground false.

(** A transition from where [l] is now. *)
Definition transition (l : PlaybackLifecycle) (a : PlaybackLifecycleAction) : PlaybackLifecycleTransition * PlaybackLifecycle :=
  (mkTransition (life l) a, l).

Definition close_main_window (l : PlaybackLifecycle) : PlaybackLifecycleTransition * PlaybackLifecycle :=
  transition (mkLifecycle Background (has_recovery_attempted l)) KeepPlayerRunning.

Definition renderer_attached (l : PlaybackLifecycle) : PlaybackLifecycleTransition * PlaybackLifecycle :=
  transition l PublishPlaybackState.

Definition unexpected_player_exit (snapshot : PlaybackSessionSnapshot) (should_resume : bool) (l : PlaybackLifecycle)
    : PlaybackLifecycleTransition * PlaybackLifecycle :=
  if negb (has_recovery_attempted l) then transition (mkLifecycle Recovering true) (RestartPlayer snapshot should_resume)
  else transition (mkLifecycle FailedState (has_recovery_attempted l)) (SurfaceActionableError crash_loop).

Definition player_stabilized (l : PlaybackLifecycle) : PlaybackLifecycle :=
  mkLifecycle (match life l with Recovering => Foreground | s => s end) false.

(** *** The snapshot's file *)

(** serde_json's text of a snapshot, and back. *)
Class SnapshotFormat := {
  encode_snapshot : PlaybackSessionSnapshot → outcome str str;
  decode_snapshot : str → str + PlaybackSessionSnapshot
}.
Context {SF : SnapshotFormat}.

(** The paths, as the messages name them. *)
Variables path temporary_path : str.

Definition load {S} : prog S fcall (outcome PlaybackLifecycleError (option PlaybackSessionSnapshot)) :=
  contents ←? load_file (ReadError path);
  match contents with
  | None => Done (Ok None)
  | Some text =>
      match decode_snapshot text with
      | inl e => Done (Err (DecodeError path e))
      | inr s => Done (_ ← validate_snapshot (playhead_seconds s) (volume s) (repeat_mode s); Ok (Some s))
      end
  end.

Definition save {S} (s : PlaybackSessionSnapshot) : prog S fcall (outcome PlaybackLifecycleError unit) :=
  _ ←? with_err (WriteError path) (call CreateParent);
  contents ←? Done (map_err (EncodeError path) (encode_snapshot s));
  replace_file (WriteError temporary_path) (WriteError path) contents.

Definition explicit_quit (snapshot : PlaybackSessionSnapshot)
    : prog PlaybackLifecycle fcall (outcome PlaybackLifecycleError PlaybackLifecycleTransition) :=
  _ ←? save snapshot;
  act (λ l, let '(t, l) := transition (mkLifecycle Quitting (has_recovery_attempted l)) StopPlayerAndExit in (Ok t, l)).

(** *** What a launch keeps *)

(** Asking the Music Server: its status and body, or why it could not be asked. *)
Inductive rcall : Type → Type :=
| File {B} (c : fcall B) : rcall B
| Send (url : str) : rcall (outcome str (Z * list byte)).

(** [serde_json::from_slice::<Value>], as an option. *)
Variable parse_body : list byte → option Value.

Definition cleared_snapshot (s : PlaybackSessionSnapshot) : outcome PlaybackLifecycleError PlaybackSessionSnapshot :=
  new_snapshot None (of_Z 0) (volume s) (shuffle_enabled s) (repeat_mode s).

Definition on_file {A} (p : prog unit fcall A) : prog unit rcall A := zoom id (λ _ t, t) (λ B c, File c) p.

Definition is_type (type : str) (v : Value) : bool := bool_decide (field_str (st "type") v = Some type).

Definition is_saved_track_missing (s : PlaybackSessionSnapshot) : prog unit rcall (outcome str bool) :=
  match (v ← source s; if is_type (st "track") v then Some v else None) with
  | None => Done (Ok false)
  | Some v =>
      match (i ← pointer_str (st "/track/id") v; if is_safe_path_segment i then Some i else None) with
      | None => Done (Err (st "Saved playback track identifier is invalid."))
      | Some identifier =>
          '(status, body) ←? call (Send (st "/api/v1/library/tracks/" ++ identifier));
          if status =? 200 then Done (Ok false)
          else if (status =? 404) && bool_decide ((b ← parse_body body; field_str (st "code") b) = Some (st "not_found"))
               then Done (Ok true)
          else Done (Err (st "Music Server returned HTTP " ++ show status ++ st " while checking saved track " ++ identifier ++ st "."))
      end
  end.

Definition load_saved_playback (has_origin : bool) : prog unit rcall (outcome PlaybackLifecycleError (option PlaybackSessionSnapshot)) :=
  loaded ←? on_file load;
  match loaded with
  | None => Done (Ok None)
  | Some s =>
      let clear :=
        cleared ←? Done (cleared_snapshot s);
        _ ←? on_file (save cleared);
        Done (Ok (Some cleared)) in
      if match source s with Some v => is_type (st "external-track") v | None => false end then clear
      else if negb has_origin then Done (Ok (Some s))
      else
        missing ← is_saved_track_missing s;
        match missing with
        | Ok true => clear
        | _ => Done (Ok (Some s))
        end
  end.

Definition forget_saved_source : prog unit rcall (outcome PlaybackLifecycleError unit) :=
  loaded ←? on_file load;
  match loaded with
  | None => Done (Ok tt)
  | Some s => cleared ←? Done (cleared_snapshot s); on_file (save cleared)
  end.
End Snapshot.

(** ** Every snapshot is valid *)

Section Valid.
Context {SJ : SerdeJson} {SF : SnapshotFormat}.

(** What a player can be restored from. *)
Record valid (s : PlaybackSessionSnapshot) : Prop := {
  valid_playhead : is_finite (playhead_seconds s) = true ∧ flt (playhead_seconds s) (of_Z 0) = false;
  valid_volume : is_finite (volume s) = true ∧ fle (of_Z 0) (volume s) = true ∧ fle (volume s) (of_Z 1) = true;
  valid_repeat : repeat_mode s ∈ ALLOWED_REPEAT_MODES
}.

Lemma validate_valid s : validate_snapshot (playhead_seconds s) (volume s) (repeat_mode s) = Ok tt ↔ valid s.
Proof.
  unfold validate_snapshot. split.
  - destruct (_ || flt _ _) eqn:H1; [done|]. destruct (_ || negb (_ && _)) eqn:H2; [done|].
    destruct (bool_decide _) eqn:H3; [|done]. intros _. bool_to_prop. split; [done|split; [done|]|done]. tauto.
  - intros [[H1 H2] (H3 & H4 & H5) H6]. rewrite H1, H2, H3, H4, H5. cbn [negb orb andb]. by rewrite bool_decide_eq_true_2.
Qed.

Lemma validated_valid s u : validate_snapshot (playhead_seconds s) (volume s) (repeat_mode s) = Ok u → valid s.
Proof. destruct u. apply validate_valid. Qed.

Lemma new_snapshot_valid src p v sh r s : new_snapshot src p v sh r = Ok s → valid s ∧ s = mkSnapshot src p v sh r.
Proof.
  unfold new_snapshot. destruct (validate_snapshot p v r) as [u| | |] eqn:Hv; cbn; try done.
  intros [= <-]. split; [|done]. by apply (validated_valid (mkSnapshot src p v sh r) u).
Qed.

(** Clearing a valid snapshot always works. *)
Lemma cleared_valid s : valid s → cleared_snapshot s = Ok (mkSnapshot None (of_Z 0) (volume s) (shuffle_enabled s) (repeat_mode s)).
Proof.
  intros [_ Hv Hr]. unfold cleared_snapshot, new_snapshot.
  assert (valid (mkSnapshot None (of_Z 0) (volume s) (shuffle_enabled s) (repeat_mode s))) as Hc by (split; [by vm_compute|done|done]).
  apply validate_valid in Hc. cbn [playhead_seconds volume repeat_mode] in Hc. by rewrite Hc.
Qed.

Lemma rebind_valid base s s' : valid s → rebind_media_proxy base s = Ok s' → valid s'.
Proof.
  intros [H1 H2 H3]. unfold rebind_media_proxy. destruct (source s) as [v|].
  - intros (path & _ & H)%bind_Ok. apply bind_Ok in H as (v' & _ & H). injection H as <-. by split.
  - by intros [= <-].
Qed.

(** What a program can return, whatever the world answers. *)
Abbreviation returns_only Q p := (sound (λ _ _ _, True) (λ _, True) p Q).

Lemma load_valid path {S} : returns_only (λ r, ∀ s, r = Ok (Some s) → valid s) (@load SJ SF path S).
Proof.
  unfold load, load_file, and_then, call. cbn. intros r _. destruct r as [text|[|e]| |]; cbn; try done.
  destruct (decode_snapshot text) as [e|s]; cbn; [done|]. intros s'.
  destruct (validate_snapshot _ _ _) as [u| | |] eqn:Hv; cbn; try done. intros [= <-]. by eapply validated_valid.
Qed.

(** A snapshot, and what a launch makes of it. *)
Definition kept (s s' : PlaybackSessionSnapshot) : Prop :=
  s' = s ∨ cleared_snapshot s = Ok s'.

Lemma sound_zoom {S T C D A} (part : T → S) back (inj : ∀ B, C B → D B) (p : prog S C A) Q :
  returns_only Q p → returns_only Q (zoom part back inj p).
Proof.
  revert Q. induction p as [a|B op k IH|B c k IH|l k IH|l k IH]; intros Q Hp; cbn in *; auto.
  intros t _. split; [done|]. destruct (Hp (part t) I) as [_ Hk]. destruct (op (part t)). by apply IH.
Qed.

Lemma sound_any {S C A} (p : prog S C A) : returns_only (λ _, True) p.
Proof. induction p as [a|B op k IH|B c k IH|l k IH|l k IH]; cbn; auto. Qed.

Lemma load_saved_valid path temporary parse has_origin :
  returns_only (λ r, ∀ s', r = Ok (Some s') → valid s' ∧
      match source s' with Some v => is_type (st "external-track") v = false | None => True end)
    (load_saved_playback path temporary parse has_origin).
Proof.
  unfold load_saved_playback. eapply sound_bind; [apply sound_zoom, load_valid|]. intros r Hr.
  destruct r as [[s|]|e| |]; cbn beta iota; try done. specialize (Hr s eq_refl). rewrite (cleared_valid s Hr).
  set (c := mkSnapshot None _ _ _ _).
  assert (returns_only (λ r, ∀ s', r = Ok (Some s') → valid s' ∧
      match source s' with Some v => is_type (st "external-track") v = false | None => True end)
    (cleared ←? Done (Ok c); _ ←? on_file (save path temporary cleared); Done (Ok (Some cleared)))) as Hclear.
  { eapply (sound_bind _ _ (on_file (save path temporary c))); [apply sound_any|]. intros o _. destruct o; cbn; try done. intros s' [= <-].
    split; [|done]. destruct Hr as [_ Hv Hm]. split; [by vm_compute|done|done]. }
  destruct (match source s with Some v => _ | None => _ end) eqn:Hx; [exact Hclear|].
  assert (valid s ∧ match source s with Some v => is_type (st "external-track") v = false | None => True end) as Hs
    by (split; [done|]; by destruct (source s)).
  destruct has_origin; cbn [negb]; [|by cbn; intros s' [= <-]].
  eapply sound_bind; [apply sound_any|]. intros m _. destruct m as [[|]|e| |]; [exact Hclear|..]; by cbn; intros s' [= <-].
Qed.

(** C30: Every snapshot a session is restored from has a playhead, a volume and a
    repeat mode a player takes: whether it is made from a state, rebound to
    another proxy, read back from its file whatever the file holds, or left by a
    launch whatever the Music Server answers; and an External Track never
    survives a launch. *)
Theorem snapshots_valid :
  (∀ f state s, from_serializable_state f state = Ok s → valid s) ∧
  (∀ base s s', valid s → rebind_media_proxy base s = Ok s' → valid s') ∧
  (∀ path W (answer : ∀ B, fcall B → W → B * W) w r,
     (run answer (@load SJ SF path unit) tt w []).1.1.1 = Ok (Some r) → valid r) ∧
  (∀ path temporary parse has_origin W (answer : ∀ B, rcall B → W → B * W) w r,
     (run answer (load_saved_playback path temporary parse has_origin) tt w []).1.1.1 = Ok (Some r) →
     valid r ∧ match source r with Some v => is_type (st "external-track") v = false | None => True end).
Proof.
  split_and!.
  - intros f state s. unfold from_serializable_state. destruct (f state); [done|]. by intros [? _]%new_snapshot_valid.
  - exact rebind_valid.
  - intros path W answer w r Hr.
    pose proof (run_sound (λ _ _ _, True) (λ _, True) answer (load path) _ tt w [] (λ _ _ _, I) (load_valid path) I) as H.
    destruct (run answer (load path) tt w []) as [[[o ?] ?] ?]. by apply H.
  - intros path temporary parse has_origin W answer w r Hr.
    pose proof (run_sound (λ _ _ _, True) (λ _, True) answer _ _ tt w [] (λ _ _ _, I) (load_saved_valid path temporary parse has_origin) I) as H.
    destruct (run answer (load_saved_playback path temporary parse has_origin) tt w []) as [[[o ?] ?] ?]. by apply H.
Qed.
End Valid.

(** ** One restart until the player is stable again *)

Section Life.
Context {SJ : SerdeJson}.

Inductive life_event :=
| PlayerExits (snapshot : PlaybackSessionSnapshot) (should_resume : bool)
| PlayerStabilizes
| WindowCloses
| RendererAttaches.

Definition live_through (l : PlaybackLifecycle) (e : life_event) : PlaybackLifecycle :=
  match e with
  | PlayerExits snapshot should_resume => (unexpected_player_exit snapshot should_resume l).2
  | PlayerStabilizes => player_stabilized l
  | WindowCloses => (close_main_window l).2
  | RendererAttaches => (renderer_attached l).2
  end.

(** Whether the player exited since it was last stable. *)
Definition exited_since_stable (es : list life_event) : bool :=
  fold_left (λ exited e, match e with PlayerExits _ _ => true | PlayerStabilizes => false | _ => exited end) es false.

Lemma attempted_is_exited es : has_recovery_attempted (fold_left live_through es new_lifecycle) = exited_since_stable es.
Proof.
  induction es as [|e es IH] using rev_ind; [done|]. unfold exited_since_stable in *. rewrite !fold_left_app, <-IH. cbn.
  destruct e; cbn; try done. unfold unexpected_player_exit. by destruct (has_recovery_attempted _) eqn:Ha; cbn.
Qed.

(** A player that keeps exiting is restarted once. Whatever happened to the
    session before, an exit restarts the player with the snapshot of the session
    exactly when it was stable since the last one; otherwise the listener is told,
    and the session has failed until it is stable. *)
Theorem restarts_need_stability es snapshot should_resume :
  (unexpected_player_exit snapshot should_resume (fold_left live_through es new_lifecycle)).1 =
  if exited_since_stable es then mkTransition FailedState (SurfaceActionableError crash_loop)
  else mkTransition Recovering (RestartPlayer snapshot should_resume).
Proof. unfold unexpected_player_exit. rewrite attempted_is_exited. by destruct (exited_since_stable es). Qed.
End Life.

(** A snapshot whose text is its repeat mode. *)
#[local] Existing Instance numbers.
#[local] Instance plain_snapshots : SnapshotFormat := {|
  encode_snapshot s := Ok (repeat_mode s);
  decode_snapshot text := inr (mkSnapshot None (of_Z 0) (of_Z 1) false text)
|}.

Definition plain_answer B (c : fcall B) (w : str) : B * str :=
  (match c in fcall B return B with
   | ReadFile => Ok w
   | CreateParent => Ok tt
   | WriteTemporary _ => Ok tt
   | RenameTemporary => Ok tt
   end, w).

Lemma snapshots_valid_witness :
  (run plain_answer (@load numbers plain_snapshots (st "path") unit) tt (st "loop") []).1.1.1 =
    Ok (Some (mkSnapshot None (of_Z 0) (of_Z 1) false (st "loop"))) ∧
  valid (mkSnapshot None (of_Z 0) (of_Z 1) false (st "loop")).
Proof.
  assert ((run plain_answer (@load numbers plain_snapshots (st "path") unit) tt (st "loop") []).1.1.1 =
    Ok (Some (mkSnapshot None (of_Z 0) (of_Z 1) false (st "loop")))) as Hrun by (vm_compute; reflexivity).
  split; [exact Hrun|]. exact (proj1 (proj2 (proj2 (@snapshots_valid numbers plain_snapshots))) (st "path") str plain_answer (st "loop") _ Hrun).
Defined.
