(* ===== verification/Session.v ===== *)
(** The Playback Session's state (desktop/core/src/playback.rs): its fields, and the
    changes of it that commands and events make. *)

From S2P Require Import Prelude Text Float64 Values PlayQueue Telemetry OutputDevices Processing Lifecycle.

Inductive PlaybackStatus := Idle | Playing | Reconnecting | Paused | Ended | ErrorStatus.
#[export] Instance status_eq_dec : EqDecision PlaybackStatus.
Proof. solve_decision. Defined.

Definition is_active (s : PlaybackStatus) : bool :=
  match s with Playing | Reconnecting => true | _ => false end.

Inductive RepeatMode := RepeatOff | RepeatOnce | RepeatLoop.
#[export] Instance repeat_eq_dec : EqDecision RepeatMode.
Proof. solve_decision. Defined.

Record PlaybackStateError := mkStateError { error_code : str; error_message : str }.

Inductive OutputDeviceIssueCode := BusyOrUnsupported | Disconnected.
#[export] Instance issue_code_eq_dec : EqDecision OutputDeviceIssueCode.
Proof. solve_decision. Defined.

Record OutputDeviceIssue := mkIssue { issue_code : OutputDeviceIssueCode; issue_message : str }.

Definition DEFAULT_VOLUME : f64 := dec 4 5.
Definition GAPLESS_APPEND_LEAD_SECONDS : f64 := of_Z 10.
Definition MIN_PLAYBACK_RATE : f64 := dec 1 2.
Definition MAX_PLAYBACK_RATE : f64 := of_Z 2.
Definition MAX_TRANSITION_FADE_MS : Z := 2000.
Definition PLAYBACK_FAILED_MESSAGE : str := st "Playback failed. Check the source and try again.".
Definition ADAPTIVE_CLEANUP_FAILED_MESSAGE : str :=
  st "Playback stopped, but Adaptive System Rate could not reset the system audio rate. Restart the Desktop Client.".

Section Session.
Context {SJ : SerdeJson} {SF : SourceFormat}.

Record PlaybackSessionState := mkSession {
  s_source : option Value;
  s_output_mode : OutputMode;
  s_available_output_devices : list OutputDevice;
  s_selected_output_device : option OutputDevice;
  s_output_device_issue : option OutputDeviceIssue;
  s_status : PlaybackStatus;
  s_current_time : f64;
  s_duration : f64;
  s_buffered_end : option f64;
  s_volume : f64;
  s_playback_rate : f64;
  s_stop_after_current : bool;
  s_is_gapless : bool;
  s_shuffle_enabled : bool;
  s_repeat_mode : RepeatMode;
  s_error : option PlaybackStateError;
  s_processing : ProcessingState;
  s_telemetry : PlaybackTelemetry
}.

Definition set_source (x : option Value) (s : PlaybackSessionState) : PlaybackSessionState :=
  mkSession x (s_output_mode s) (s_available_output_devices s) (s_selected_output_device s) (s_output_device_issue
    s) (s_status s) (s_current_time s) (s_duration s) (s_buffered_end s) (s_volume s) (s_playback_rate s)
    (s_stop_after_current s) (s_is_gapless s) (s_shuffle_enabled s) (s_repeat_mode s) (s_error s) (s_processing s)
    (s_telemetry s).
Definition set_output_mode (x : OutputMode) (s : PlaybackSessionState) : PlaybackSessionState :=
  mkSession (s_source s) x (s_available_output_devices s) (s_selected_output_device s) (s_output_device_issue s)
    (s_status s) (s_current_time s) (s_duration s) (s_buffered_end s) (s_volume s) (s_playback_rate s)
    (s_stop_after_current s) (s_is_gapless s) (s_shuffle_enabled s) (s_repeat_mode s) (s_error s) (s_processing s)
    (s_telemetry s).
Definition set_available_output_devices (x : list OutputDevice) (s : PlaybackSessionState) : PlaybackSessionState :=
  mkSession (s_source s) (s_output_mode s) x (s_selected_output_device s) (s_output_device_issue s) (s_status s)
    (s_current_time s) (s_duration s) (s_buffered_end s) (s_volume s) (s_playback_rate s) (s_stop_after_current s)
    (s_is_gapless s) (s_shuffle_enabled s) (s_repeat_mode s) (s_error s) (s_processing s) (s_telemetry s).
Definition set_selected_output_device (x : option OutputDevice) (s : PlaybackSessionState) : PlaybackSessionState :=
  mkSession (s_source s) (s_output_mode s) (s_available_output_devices s) x (s_output_device_issue s) (s_status s)
    (s_current_time s) (s_duration s) (s_buffered_end s) (s_volume s) (s_playback_rate s) (s_stop_after_current s)
    (s_is_gapless s) (s_shuffle_enabled s) (s_repeat_mode s) (s_error s) (s_processing s) (s_telemetry s).
Definition set_output_device_issue (x : option OutputDeviceIssue) (s : PlaybackSessionState) : PlaybackSessionState
    :=
  mkSession (s_source s) (s_output_mode s) (s_available_output_devices s) (s_selected_output_device s) x (s_status
    s) (s_current_time s) (s_duration s) (s_buffered_end s) (s_volume s) (s_playback_rate s) (s_stop_after_current
    s) (s_is_gapless s) (s_shuffle_enabled s) (s_repeat_mode s) (s_error s) (s_processing s) (s_telemetry s).
Definition set_status (x : PlaybackStatus) (s : PlaybackSessionState) : PlaybackSessionState :=
  mkSession (s_source s) (s_output_mode s) (s_available_output_devices s) (s_selected_output_device s)
    (s_output_device_issue s) x (s_current_time s) (s_duration s) (s_buffered_end s) (s_volume s) (s_playback_rate
    s) (s_stop_after_current s) (s_is_gapless s) (s_shuffle_enabled s) (s_repeat_mode s) (s_error s) (s_processing
    s) (s_telemetry s).
Definition set_current_time (x : f64) (s : PlaybackSessionState) : PlaybackSessionState :=
  mkSession (s_source s) (s_output_mode s) (s_available_output_devices s) (s_selected_output_device s)
    (s_output_device_issue s) (s_status s) x (s_duration s) (s_buffered_end s) (s_volume s) (s_playback_rate s)
    (s_stop_after_current s) (s_is_gapless s) (s_shuffle_enabled s) (s_repeat_mode s) (s_error s) (s_processing s)
    (s_telemetry s).
Definition set_duration (x : f64) (s : PlaybackSessionState) : PlaybackSessionState :=
  mkSession (s_source s) (s_output_mode s) (s_available_output_devices s) (s_selected_output_device s)
    (s_output_device_issue s) (s_status s) (s_current_time s) x (s_buffered_end s) (s_volume s) (s_playback_rate s)
    (s_stop_after_current s) (s_is_gapless s) (s_shuffle_enabled s) (s_repeat_mode s) (s_error s) (s_processing s)
    (s_telemetry s).
Definition set_buffered_end (x : option f64) (s : PlaybackSessionState) : PlaybackSessionState :=
  mkSession (s_source s) (s_output_mode s) (s_available_output_devices s) (s_selected_output_device s)
    (s_output_device_issue s) (s_status s) (s_current_time s) (s_duration s) x (s_volume s) (s_playback_rate s)
    (s_stop_after_current s) (s_is_gapless s) (s_shuffle_enabled s) (s_repeat_mode s) (s_error s) (s_processing s)
    (s_telemetry s).
Definition set_volume (x : f64) (s : PlaybackSessionState) : PlaybackSessionState :=
  mkSession (s_source s) (s_output_mode s) (s_available_output_devices s) (s_selected_output_device s)
    (s_output_device_issue s) (s_status s) (s_current_time s) (s_duration s) (s_buffered_end s) x (s_playback_rate
    s) (s_stop_after_current s) (s_is_gapless s) (s_shuffle_enabled s) (s_repeat_mode s) (s_error s) (s_processing
    s) (s_telemetry s).
Definition set_playback_rate (x : f64) (s : PlaybackSessionState) : PlaybackSessionState :=
  mkSession (s_source s) (s_output_mode s) (s_available_output_devices s) (s_selected_output_device s)
    (s_output_device_issue s) (s_status s) (s_current_time s) (s_duration s) (s_buffered_end s) (s_volume s) x
    (s_stop_after_current s) (s_is_gapless s) (s_shuffle_enabled s) (s_repeat_mode s) (s_error s) (s_processing s)
    (s_telemetry s).
Definition set_stop_after_current (x : bool) (s : PlaybackSessionState) : PlaybackSessionState :=
  mkSession (s_source s) (s_output_mode s) (s_available_output_devices s) (s_selected_output_device s)
    (s_output_device_issue s) (s_status s) (s_current_time s) (s_duration s) (s_buffered_end s) (s_volume s)
    (s_playback_rate s) x (s_is_gapless s) (s_shuffle_enabled s) (s_repeat_mode s) (s_error s) (s_processing s)
    (s_telemetry s).
Definition set_is_gapless (x : bool) (s : PlaybackSessionState) : PlaybackSessionState :=
  mkSession (s_source s) (s_output_mode s) (s_available_output_devices s) (s_selected_output_device s)
    (s_output_device_issue s) (s_status s) (s_current_time s) (s_duration s) (s_buffered_end s) (s_volume s)
    (s_playback_rate s) (s_stop_after_current s) x (s_shuffle_enabled s) (s_repeat_mode s) (s_error s) (s_processing
    s) (s_telemetry s).
Definition set_shuffle_enabled (x : bool) (s : PlaybackSessionState) : PlaybackSessionState :=
  mkSession (s_source s) (s_output_mode s) (s_available_output_devices s) (s_selected_output_device s)
    (s_output_device_issue s) (s_status s) (s_current_time s) (s_duration s) (s_buffered_end s) (s_volume s)
    (s_playback_rate s) (s_stop_after_current s) (s_is_gapless s) x (s_repeat_mode s) (s_error s) (s_processing s)
    (s_telemetry s).
Definition set_repeat_mode (x : RepeatMode) (s : PlaybackSessionState) : PlaybackSessionState :=
  mkSession (s_source s) (s_output_mode s) (s_available_output_devices s) (s_selected_output_device s)
    (s_output_device_issue s) (s_status s) (s_current_time s) (s_duration s) (s_buffered_end s) (s_volume s)
    (s_playback_rate s) (s_stop_after_current s) (s_is_gapless s) (s_shuffle_enabled s) x (s_error s) (s_processing
    s) (s_telemetry s).
Definition set_error (x : option PlaybackStateError) (s : PlaybackSessionState) : PlaybackSessionState :=
  mkSession (s_source s) (s_output_mode s) (s_available_output_devices s) (s_selected_output_device s)
    (s_output_device_issue s) (s_status s) (s_current_time s) (s_duration s) (s_buffered_end s) (s_volume s)
    (s_playback_rate s) (s_stop_after_current s) (s_is_gapless s) (s_shuffle_enabled s) (s_repeat_mode s) x
    (s_processing s) (s_telemetry s).
Definition set_processing (x : ProcessingState) (s : PlaybackSessionState) : PlaybackSessionState :=
  mkSession (s_source s) (s_output_mode s) (s_available_output_devices s) (s_selected_output_device s)
    (s_output_device_issue s) (s_status s) (s_current_time s) (s_duration s) (s_buffered_end s) (s_volume s)
    (s_playback_rate s) (s_stop_after_current s) (s_is_gapless s) (s_shuffle_enabled s) (s_repeat_mode s) (s_error
    s) x (s_telemetry s).
Definition set_telemetry (x : PlaybackTelemetry) (s : PlaybackSessionState) : PlaybackSessionState :=
  mkSession (s_source s) (s_output_mode s) (s_available_output_devices s) (s_selected_output_device s)
    (s_output_device_issue s) (s_status s) (s_current_time s) (s_duration s) (s_buffered_end s) (s_volume s)
    (s_playback_rate s) (s_stop_after_current s) (s_is_gapless s) (s_shuffle_enabled s) (s_repeat_mode s) (s_error
    s) (s_processing s) x.

(** *** What is read of a source *)

Definition playback_url (source : Value) : outcome str str :=
  parsed ← PlayQueue.parse source;
  PlayQueue.playback_url parsed.

Definition track_duration (source : Value) : f64 :=
  match PlayQueue.parse source with
  | Ok p => duration_seconds p
  | _ => of_Z 0
  end.

Definition source_kind (source : Value) : str :=
  match PlayQueue.parse source with
  | Ok p => kind p
  | _ => st "unknown"
  end.

Definition is_live_source (source : Value) : bool :=
  bool_decide (field_str (st "type") source = Some (st "radio-station"))
  || bool_decide (field_str (st "type") source = Some (st "catalog-preview")).

Definition is_external_track_source (source : Value) : bool :=
  bool_decide (field_str (st "type") source = Some (st "external-track")).

Definition source_observation (source : option Value) : SourceObservation :=
  match source with Some v => from_playback_source v | None => unknown_source end.

(** *** Processing and telemetry *)

Definition processing_observation (p : ProcessingState) : ProcessingObservation :=
  mkProcessing
    (match profile p with Direct => st "direct" | Processed => st "processed" end)
    (Some (software_volume p))
    (match replay_gain_mode p with GainOff => st "off" | GainTrack => st "track" | GainAlbum => st "album" end)
    (match effective_replay_gain_mode p with
     | EffOff => st "off" | EffTrack => st "track" | EffAlbum => st "album"
     | TrackFallback => st "track-fallback" | GainUnavailable => st "unavailable" | GainUnknown => st "unknown"
     end)
    (Some (eq_enabled (equalizer p))).

Definition has_gain (p : str) (source : option Value) : bool :=
  match (v ← source; pointer p v) with Some g => is_number g | None => false end.

Definition effective_gain (mode : ReplayGainMode) (source : option Value) : EffectiveReplayGainMode :=
  let track_gain := has_gain (st "/track/replayGain/trackGainDb") source in
  let album_gain := has_gain (st "/track/replayGain/albumGainDb") source in
  match mode with
  | GainOff => EffOff
  | GainTrack => if track_gain then EffTrack else GainUnavailable
  | GainAlbum => if album_gain then EffAlbum else if track_gain then TrackFallback else GainUnavailable
  end.

(** [state.processing.effective_replay_gain_mode = ...] for [source]. *)
Definition set_effective_gain (source : option Value) (s : PlaybackSessionState) : PlaybackSessionState :=
  let p := s_processing s in
  set_processing (mkState (profile p) (software_volume p) (replay_gain_mode p) (effective_gain (replay_gain_mode p) source)
    (replay_gain_preference p) (equalizer p) (effective_audio_filters p) (transition_notice p)) s.

Definition telemetry_for_output_mode (s : PlaybackSessionState) (source : SourceObservation)
    (decoder : ObservedMpvProperties) (pipewire : option PipeWireObservation) : PlaybackTelemetry :=
  match (if bool_decide (s_output_mode s = DirectAlsa) then s_selected_output_device s else None) with
  | Some device =>
      let format := observed_format (t_device (s_telemetry s)) in
      native_direct_alsa_output source decoder (output_name device)
        (if negb (bool_decide (format = unknown_format)) then Some format else None)
        (processing_observation (s_processing s))
  | None => native_system_output source decoder pipewire (processing_observation (s_processing s))
  end.

Definition reset_output_telemetry (s : PlaybackSessionState) : PlaybackSessionState :=
  set_telemetry (telemetry_for_output_mode s (source_observation (s_source s)) (t_decoder (s_telemetry s)) None) s.

Definition default_session : PlaybackSessionState :=
  mkSession None SystemOutput [] None None Idle (of_Z 0) (of_Z 0) None DEFAULT_VOLUME (of_Z 1) false true false RepeatOff None
    default_state (native_system_output unknown_source unknown_decoder None unknown_processing).

(** *** Changes *)

Definition set_error_state (message : str) (s : PlaybackSessionState) : PlaybackSessionState :=
  set_error (Some (mkStateError (st "playback-failed") message)) (set_status ErrorStatus s).

Definition set_playing_source (source : Value) (negotiated : option AudioFormatObservation) (s : PlaybackSessionState) : PlaybackSessionState :=
  let s := set_duration (track_duration source) s in
  let s := set_effective_gain (Some source) s in
  let s := set_telemetry (telemetry_for_output_mode s (from_playback_source source) unknown_decoder None) s in
  let s := if bool_decide (s_output_mode s = DirectAlsa) then
      let t := s_telemetry s in
      let d := t_device t in
      set_telemetry (mkTelemetry (t_source t) (t_decoder t) (t_system t)
        (mkDevice (observed_name d) (default unknown_format negotiated) (observed_resampling d)) (t_processing t)) s
    else s in
  set_error None (set_buffered_end None (set_current_time (of_Z 0) (set_status Playing (set_source (Some source) s)))).

Definition update_playing_state (source : Value) (is_new_source : bool) (s : PlaybackSessionState) : PlaybackSessionState :=
  if is_new_source then set_playing_source source None s
  else set_error None (set_status Playing (set_source (Some source) s)).

Definition restore_snapshot_state (snapshot : PlaybackSessionSnapshot) (s : PlaybackSessionState) : PlaybackSessionState :=
  let src := Lifecycle.source snapshot in
  let s := set_source src s in
  let s := set_status (match src with Some _ => Paused | None => Idle end) s in
  let s := set_current_time (Lifecycle.playhead_seconds snapshot) s in
  let s := set_duration (match src with Some v => track_duration v | None => of_Z 0 end) s in
  let s := set_volume (Lifecycle.volume snapshot) s in
  let s := set_shuffle_enabled (Lifecycle.shuffle_enabled snapshot) s in
  let s := set_repeat_mode (if bool_decide (Lifecycle.repeat_mode snapshot = st "once") then RepeatOnce
                            else if bool_decide (Lifecycle.repeat_mode snapshot = st "loop") then RepeatLoop else RepeatOff) s in
  let s := set_effective_gain src s in
  let s := set_telemetry (telemetry_for_output_mode s (source_observation src) unknown_decoder None) s in
  set_error None s.

Definition publish_system_output (s : PlaybackSessionState) : PlaybackSessionState :=
  let s := set_output_device_issue None (set_output_mode SystemOutput s) in
  set_telemetry (native_system_output (source_observation (s_source s)) (t_decoder (s_telemetry s)) None
    (processing_observation (s_processing s))) s.

Definition publish_adaptive_system_output (s : PlaybackSessionState) : PlaybackSessionState :=
  let s := set_output_device_issue None (set_output_mode AdaptiveSystemRate s) in
  set_telemetry (native_system_output (source_observation (s_source s)) (t_decoder (s_telemetry s)) None
    (processing_observation (s_processing s))) s.

Definition busy_or_unsupported_device_issue (d : OutputDevice) : OutputDeviceIssue :=
  mkIssue BusyOrUnsupported (output_name d ++
    st " is busy or does not support this source format. Select Normal Output to continue through the system output.").

Definition disconnected_device_issue (d : OutputDevice) : OutputDeviceIssue :=
  mkIssue Disconnected (output_name d ++
    st " disconnected. Select Normal Output to continue through the active system output.").

Definition output_device_public_message (e : OutputDeviceError) : str :=
  match e with
  | EnumerationFailed _ => st "Raw ALSA Output Devices could not be listed. Check the local ALSA setup and try again."
  | NotRawHardware => st "Choose a raw ALSA hardware device from the available Output Device list."
  | SelectedDeviceDisconnected _ | Unavailable =>
      st "The selected raw ALSA Output Device is unavailable. Refresh the device list and choose another device."
  end.

(** [if state.source.is_some() { state.status = status }]. *)
Definition set_status_with_source (status : PlaybackStatus) (s : PlaybackSessionState) : PlaybackSessionState :=
  match s_source s with Some _ => set_status status s | None => s end.

Definition cycled_repeat_mode (r : RepeatMode) : RepeatMode :=
  match r with RepeatOff => RepeatOnce | RepeatOnce => RepeatLoop | RepeatLoop => RepeatOff end.

(** The name serde gives a repeat mode. *)
Definition repeat_name (r : RepeatMode) : str :=
  match r with RepeatOff => st "off" | RepeatOnce => st "once" | RepeatLoop => st "loop" end.

(** What the snapshot takes of the state. *)
Definition projection (s : PlaybackSessionState) : PlaybackStateProjection :=
  mkProjection (s_source s) (s_current_time s) (s_volume s) (s_shuffle_enabled s) (repeat_name (s_repeat_mode s)).
End Session.
