(* ===== verification/Desktop.v ===== *)
(** What the Desktop's playback threads share (desktop/core/src/playback.rs): the
    state behind each lock and each atomic, and what they ask of the world. *)

From S2P Require Import Prelude Text Float64 Values Prog PlayQueue Telemetry OutputDevices Adaptive Lifecycle LoadTiming Processing Session.

(** *** Events of mpv *)

Inductive MpvEvent :=
| LoadBoundary (revision : Z)
| Time (seconds : f64)
| Duration (seconds : f64)
| BufferedEnd (seconds : f64)
| PausedEvent (is_paused : bool)
| Decoder (decoder : ObservedMpvProperties)
| FileLoaded
| PlaybackRestart
| EndedEvent
| ErrorEvent (message : str)
| ExitedUnexpectedly (message : str).

(** What waiting for an event gives. *)
Inductive received := Event (e : MpvEvent) | NoEvent | ChannelClosed.

Inductive MpvOutputConfiguration := OutputSystem | OutputDirect (device_id : str).

Section Desktop.
Context {SJ : SerdeJson} {SF : SourceFormat}.

(** What the threads ask of the world: a command to the mpv process with that
    number (and whether its acceptance is marked in the events), starting and
    ending one, the next event of one, the exclusive use of a device, PipeWire's
    path, aplay's list, the system rate, the clock, sleeping, random numbers, and
    what is shown to the renderers or reported. *)
Inductive dcall : Type → Type :=
| Command (pid : nat) (command : Value) (event_boundary : option Z) : dcall (outcome str Value)
| StartPlayer : dcall (outcome str nat)
| ShutdownPlayer (pid : nat) : dcall unit
| Receive (pid : nat) : dcall received
| Acquire (device_id : str) : dcall (outcome str unit)
| Release : dcall (outcome str unit)
| ObservePath : dcall (outcome str (option PipeWireObservation))
| ListRawDevices : dcall (str + list OutputDevice)
| AskAdaptive {B} (c : acall B) : dcall B
| Now : dcall Z
| Sleep (duration : Z) : dcall unit
| Random : dcall (nat → option Z)
| Publish (s : PlaybackSessionState) : dcall unit
| ReportLoad (r : LoadReport) : dcall unit.

(** The state behind the locks and the atomics. [appended_urls] is the entry each
    mpv process has after its current file. *)
Record Shared := mkShared {
  process : nat;
  appended_urls : gmap nat str;
  session : PlaybackSessionState;
  queue : PlaybackQueueContext;
  lifecycle : PlaybackLifecycle;
  adaptive : AdaptiveSystemRateState;
  catalog : OutputDeviceCatalog;
  is_shutdown : bool;
  command_revision : Z;
  load_revision : Z;
  published_load_revision : Z;
  load_timer : option Load;
  transition_fade_ms : Z
}.

Definition put_process (x : nat) (s : Shared) : Shared :=
  mkShared x (appended_urls s) (session s) (queue s) (lifecycle s) (adaptive s) (catalog s) (is_shutdown s)
    (command_revision s) (load_revision s) (published_load_revision s) (load_timer s) (transition_fade_ms s).
Definition put_appended_urls (x : gmap nat str) (s : Shared) : Shared :=
  mkShared (process s) x (session s) (queue s) (lifecycle s) (adaptive s) (catalog s) (is_shutdown s)
    (command_revision s) (load_revision s) (published_load_revision s) (load_timer s) (transition_fade_ms s).
Definition put_session (x : PlaybackSessionState) (s : Shared) : Shared :=
  mkShared (process s) (appended_urls s) x (queue s) (lifecycle s) (adaptive s) (catalog s) (is_shutdown s)
    (command_revision s) (load_revision s) (published_load_revision s) (load_timer s) (transition_fade_ms s).
Definition put_queue (x : PlaybackQueueContext) (s : Shared) : Shared :=
  mkShared (process s) (appended_urls s) (session s) x (lifecycle s) (adaptive s) (catalog s) (is_shutdown s)
    (command_revision s) (load_revision s) (published_load_revision s) (load_timer s) (transition_fade_ms s).
Definition put_lifecycle (x : PlaybackLifecycle) (s : Shared) : Shared :=
  mkShared (process s) (appended_urls s) (session s) (queue s) x (adaptive s) (catalog s) (is_shutdown s)
    (command_revision s) (load_revision s) (published_load_revision s) (load_timer s) (transition_fade_ms s).
Definition put_adaptive (x : AdaptiveSystemRateState) (s : Shared) : Shared :=
  mkShared (process s) (appended_urls s) (session s) (queue s) (lifecycle s) x (catalog s) (is_shutdown s)
    (command_revision s) (load_revision s) (published_load_revision s) (load_timer s) (transition_fade_ms s).
Definition put_catalog (x : OutputDeviceCatalog) (s : Shared) : Shared :=
  mkShared (process s) (appended_urls s) (session s) (queue s) (lifecycle s) (adaptive s) x (is_shutdown s)
    (command_revision s) (load_revision s) (published_load_revision s) (load_timer s) (transition_fade_ms s).
Definition put_is_shutdown (x : bool) (s : Shared) : Shared :=
  mkShared (process s) (appended_urls s) (session s) (queue s) (lifecycle s) (adaptive s) (catalog s) x
    (command_revision s) (load_revision s) (published_load_revision s) (load_timer s) (transition_fade_ms s).
Definition put_command_revision (x : Z) (s : Shared) : Shared :=
  mkShared (process s) (appended_urls s) (session s) (queue s) (lifecycle s) (adaptive s) (catalog s) (is_shutdown
    s) x (load_revision s) (published_load_revision s) (load_timer s) (transition_fade_ms s).
Definition put_load_revision (x : Z) (s : Shared) : Shared :=
  mkShared (process s) (appended_urls s) (session s) (queue s) (lifecycle s) (adaptive s) (catalog s) (is_shutdown
    s) (command_revision s) x (published_load_revision s) (load_timer s) (transition_fade_ms s).
Definition put_published_load_revision (x : Z) (s : Shared) : Shared :=
  mkShared (process s) (appended_urls s) (session s) (queue s) (lifecycle s) (adaptive s) (catalog s) (is_shutdown
    s) (command_revision s) (load_revision s) x (load_timer s) (transition_fade_ms s).
Definition put_load_timer (x : option Load) (s : Shared) : Shared :=
  mkShared (process s) (appended_urls s) (session s) (queue s) (lifecycle s) (adaptive s) (catalog s) (is_shutdown
    s) (command_revision s) (load_revision s) (published_load_revision s) x (transition_fade_ms s).
Definition put_transition_fade_ms (x : Z) (s : Shared) : Shared :=
  mkShared (process s) (appended_urls s) (session s) (queue s) (lifecycle s) (adaptive s) (catalog s) (is_shutdown
    s) (command_revision s) (load_revision s) (published_load_revision s) (load_timer s) x.

(** The locks, in the order in which a thread that holds one may take another. *)
Definition PROCESS : nat := 0.
Definition ADAPTIVE : nat := 1.
Definition CATALOG : nat := 2.
Definition QUEUE : nat := 3.
Definition LIFECYCLE : nat := 4.
Definition STATE : nat := 5.

(** What the controller was set up with. *)
Record Setup := mkSetup {
  has_starter : bool;
  has_path_observer : bool;
  has_output_devices : bool;
  has_adaptive : bool
}.

Definition initial (pid : nat) : Shared :=
  mkShared pid ∅ default_session empty_queue new_lifecycle default_adaptive new_catalog false 0 0 0 None 0.
End Desktop.

(** A program of a playback thread that returns a result. *)
Abbreviation Desktop A := (prog Shared dcall (outcome str A)).
