(* ===== verification/Mpv.v ===== *)
(** The player process (desktop/core/src/playback.rs): the commands the Desktop
    sends mpv over JSON IPC, and the lines the worker reads back. The Unix
    build; the process itself, its socket and its threads are the world's. *)

From S2P Require Import Prelude Text Float64 Values Prog PlayQueue Telemetry OutputDevices Lifecycle Processing Session Desktop.

Section Mpv.
Context {SJ : SerdeJson} {SF : SourceFormat} {FT : FloatText}.

(** ** Commands *)

(** [json!] of a list that starts with names. *)
Definition names (ws : list string) (rest : list Value) : Value := Array_ (((λ w, String_ (st w)) <$> ws) ++ rest).

Definition command_with_event_boundary (pid : nat) (c : Value) (boundary : option Z) : Desktop Value := call (Command pid c boundary).
Definition command (pid : nat) (c : Value) : Desktop Value := command_with_event_boundary pid c None.

(** [.map(|_| ())]. *)
Definition ignored {A} (p : Desktop A) : Desktop unit := _ ←? p; Done (Ok tt).

Definition set_property (pid : nat) (name : string) (v : Value) : Desktop unit :=
  ignored (command pid (names ["set_property"%string; name] [v])).

Definition clear_appended (pid : nat) : prog Shared dcall unit := write (λ s, put_appended_urls (base.delete pid (appended_urls s)) s).

Definition load (pid : nat) (url : str) : Desktop unit :=
  _ ← clear_appended pid;
  ignored (command pid (names ["loadfile"%string] [String_ url; String_ (st "replace")])).

Definition append (pid : nat) (url : str) : Desktop unit :=
  _ ←? command pid (names ["loadfile"%string] [String_ url; String_ (st "append")]);
  act (λ s, (Ok tt, put_appended_urls (<[pid := url]> (appended_urls s)) s)).

Definition appended (pid : nat) : prog Shared dcall (option str) := read (λ s, appended_urls s !! pid).

Definition take_appended (pid : nat) : prog Shared dcall (option str) :=
  act (λ s, (appended_urls s !! pid, put_appended_urls (base.delete pid (appended_urls s)) s)).

Definition load_at (pid : nat) (url : str) (seconds : f64) : Desktop unit :=
  _ ← clear_appended pid;
  ignored (command pid (names ["loadfile"%string]
    [String_ url; String_ (st "replace"); Int_ (-1); Object_ [(st "start", String_ (show_f64 seconds))]])).

Definition set_paused (pid : nat) (is_paused : bool) : Desktop unit := set_property pid "pause" (Bool_ is_paused).
Definition seek (pid : nat) (seconds : f64) : Desktop unit :=
  ignored (command pid (names ["seek"%string] [Float_ seconds; String_ (st "absolute+exact")])).
Definition set_mpv_volume (pid : nat) (value : f64) : Desktop unit := set_property pid "volume" (Float_ (fmul value (of_Z 100))).
Definition set_speed (pid : nat) (rate : f64) : Desktop unit := set_property pid "speed" (Float_ rate).
Definition set_gapless (pid : nat) (enabled : bool) : Desktop unit :=
  set_property pid "gapless-audio" (String_ (st (if enabled then "weak" else "no")%string)).

Definition load_with_event_boundary (pid : nat) (url : str) (load_revision : Z) : Desktop unit :=
  _ ← clear_appended pid;
  ignored (command_with_event_boundary pid (names ["loadfile"%string] [String_ url; String_ (st "replace")]) (Some load_revision)).

Definition stop (pid : nat) : Desktop unit :=
  _ ← clear_appended pid;
  ignored (command pid (names ["stop"%string] [])).

Definition observe_properties (pid : nat) : Desktop unit :=
  _ ←? command pid (names ["observe_property"%string] [Int_ 1; String_ (st "time-pos")]);
  _ ←? command pid (names ["observe_property"%string] [Int_ 2; String_ (st "duration")]);
  _ ←? command pid (names ["observe_property"%string] [Int_ 3; String_ (st "pause")]);
  _ ←? command pid (names ["observe_property"%string] [Int_ 4; String_ (st "audio-params")]);
  ignored (command pid (names ["observe_property"%string] [Int_ 5; String_ (st "demuxer-cache-time")])).

(** [?] on each result in turn. *)
Definition all_ok (rs : list (outcome str unit)) : outcome str unit :=
  foldr (λ r rest, match r with Ok _ => rest | _ => r end) (Ok tt) rs.

(** Everything is tried; the first failure is the answer. *)
Definition restore_system_output (pid : nat) : Desktop unit :=
  disable_result ← set_property pid "aid" (String_ (st "no"));
  device_result ← set_property pid "audio-device" (String_ (st "auto"));
  release_result ← call Release;
  enable_result ← set_property pid "aid" (String_ (st "auto"));
  Done (all_ok [disable_result; device_result; release_result; enable_result]).

Definition exclusive_audio_device (device_id : str) : str := st "alsa/" ++ device_id.

(** What is left of a device that could not be used. *)
Definition give_back_output (pid : nat) (error : str) : Desktop (option AudioFormatObservation) :=
  restored ← restore_system_output pid;
  Done (Err match restored with
            | Err restore_error => error ++ st " System Output cleanup also failed: " ++ restore_error
            | _ => error
            end).

Definition configure_output (pid : nat) (configuration : MpvOutputConfiguration) : Desktop (option AudioFormatObservation) :=
  match configuration with
  | OutputSystem => _ ←? restore_system_output pid; Done (Ok None)
  | OutputDirect device_id =>
      _ ←? set_property pid "aid" (String_ (st "no"));
      acquired ← call (Acquire device_id);
      match acquired with
      | Ok _ =>
          result ← (_ ←? set_property pid "audio-device" (String_ (exclusive_audio_device device_id));
                    set_property pid "aid" (String_ (st "auto")));
          match result with
          | Ok _ => Done (Ok None)
          | Err error => give_back_output pid error
          | Panic => Done Panic
          | OutOfFuel => Done OutOfFuel
          end
      | Err error => give_back_output pid error
      | Panic => Done Panic
      | OutOfFuel => Done OutOfFuel
      end
  end.

Definition observe_output_format (pid : nat) : Desktop (option AudioFormatObservation) :=
  output ←? command pid (names ["get_property"; "audio-out-params"]%string []);
  Done (Ok (if is_object output then Some (decoder_format (from_audio_params output)) else None)).

(** [AppliedMpvProcessingConfiguration] has the fields of the one asked for. *)
Definition apply_processing (pid : nat) (c : MpvProcessingConfiguration) : Desktop MpvProcessingConfiguration :=
  let replay_gain := match mpv_gain_mode c with GainOff => st "no" | GainTrack => st "track" | GainAlbum => st "album" end in
  _ ←? set_property pid "volume" (Float_ (volume_percent c));
  _ ←? set_property pid "replaygain" (String_ replay_gain);
  _ ←? set_property pid "af" (String_ (join (st ",") (audio_filters c)));
  volume ←? command pid (names ["get_property"; "volume"]%string []);
  volume ←? Done (ok_or (as_f64 volume) (st "Pinned mpv returned an invalid effective volume."));
  mode ←? command pid (names ["get_property_string"; "replaygain"]%string []);
  mode ←? Done (let m := as_str mode in
                if bool_decide (m = Some (st "no")) then Ok GainOff
                else if bool_decide (m = Some (st "track")) then Ok GainTrack
                else if bool_decide (m = Some (st "album")) then Ok GainAlbum
                else Err (st "Pinned mpv returned an invalid effective ReplayGain mode."));
  filters ←? command pid (names ["get_property_string"; "af"]%string []);
  filters ←? Done (ok_or (as_str filters) (st "Pinned mpv returned invalid effective audio filters."));
  Done (Ok (mkMpv volume mode (if bool_decide (filters = []) then [] else split (Z.eqb 44) filters))).

Definition shutdown (pid : nat) : prog Shared dcall unit :=
  _ ← call (ShutdownPlayer pid);
  _ ← call Release;
  Done tt.

(** [RealMpvProcess::start_default]: a new process, with nothing after its file;
    it is dropped again when its properties cannot be observed. *)
Definition start_player : Desktop nat :=
  pid ←? call StartPlayer;
  _ ← clear_appended pid;
  observed ← observe_properties pid;
  match observed with
  | Ok _ => Done (Ok pid)
  | Err e => _ ← shutdown pid; Done (Err e)
  | Panic => Done Panic
  | OutOfFuel => Done OutOfFuel
  end.

(** ** What mpv answers *)

(** [serde_json::from_str::<Value>]. *)
Variable parse_line : str → str + Value.

Definition property_event (message : Value) : option MpvEvent :=
  let name := field_str (st "name") message in
  let data := field (st "data") message in
  if bool_decide (name = Some (st "time-pos")) then (d ← data; x ← as_f64 d; Some (Time x))
  else if bool_decide (name = Some (st "duration")) then (d ← data; x ← as_f64 d; Some (Duration x))
  else if bool_decide (name = Some (st "demuxer-cache-time")) then (d ← data; x ← as_f64 d; Some (BufferedEnd x))
  else if bool_decide (name = Some (st "pause")) then (d ← data; x ← as_bool d; Some (PausedEvent x))
  else if bool_decide (name = Some (st "audio-params")) then
    (d ← data; if is_object d then Some (Decoder (from_audio_params d)) else None)
  else None.

(** The event a line is, if any. *)
Definition mpv_event (message : Value) : option MpvEvent :=
  let event := field_str (st "event") message in
  let reason := field_str (st "reason") message in
  if bool_decide (event = Some (st "property-change")) then property_event message
  else if bool_decide (event = Some (st "file-loaded")) then Some FileLoaded
  else if bool_decide (event = Some (st "playback-restart")) then Some PlaybackRestart
  else if bool_decide (event = Some (st "end-file")) && bool_decide (reason = Some (st "eof")) then Some EndedEvent
  else if bool_decide (event = Some (st "end-file")) && bool_decide (reason = Some (st "error")) then
    Some (ErrorEvent (st "Native playback failed: "
      ++ default (st "media could not be decoded") (field_str (st "file_error") message) ++ st "."))
  else None.

Definition mpv_response_result (message : Value) : outcome str Value :=
  match field_str (st "error") message with
  | Some error =>
      if bool_decide (error = st "success") then Ok (default Null (field (st "data") message))
      else Err (st "Pinned mpv rejected command: " ++ error)
  | None => Err (st "Pinned mpv returned a command response without status.")
  end.

(** One read of the connection: a line, its end, nothing within the poll
    interval, or a failure. *)
Inductive ipc_read := Line (text : str) | Closed | Quiet | ReadFailed (message : str).

Inductive MpvMessage := Response (result : outcome str Value) | Other | Nothing.

(** The message, and the events it sends. *)
Definition read_mpv_message (request_id : Z) (r : ipc_read) : outcome str MpvMessage * list MpvEvent :=
  match r with
  | Closed => (Err (st "Pinned mpv closed its private IPC connection."), [])
  | Quiet => (Ok Nothing, [])
  | ReadFailed e => (Err (st "Pinned mpv IPC read failed: " ++ e), [])
  | Line text =>
      match parse_line text with
      | inl e => (Err (st "Pinned mpv returned invalid JSON IPC: " ++ e), [])
      | inr message =>
          if bool_decide ((i ← field (st "request_id") message; as_u64 i) = Some request_id)
          then (Ok (Response (mpv_response_result message)), [])
          else (Ok Other, match mpv_event message with Some e => [e] | None => [] end)
      end
  end.

(** [execute_mpv_command] once the request is written: [reads] are the reads
    before the deadline. The answer, the events sent, and the reads that are left. *)
Fixpoint await_response (request_id : Z) (reads : list ipc_read) : outcome str Value * list MpvEvent * list ipc_read :=
  match reads with
  | [] => (Err (st "Pinned mpv IPC response timed out."), [], [])
  | r :: reads =>
      let '(m, es) := read_mpv_message request_id r in
      match m with
      | Err e => (Err e, es, reads)
      | Ok (Response result) => (result, es, reads)
      | Panic => (Panic, es, reads)
      | OutOfFuel => (OutOfFuel, es, reads)
      | Ok _ => let '(result, es', rest) := await_response request_id reads in (result, es ++ es', rest)
      end
  end.

(** A command of the worker: what it answers and sends. [written] is the outcome
    of writing the request. *)
Definition worker_command (request_id : Z) (written : outcome str unit) (event_boundary : option Z) (reads : list ipc_read)
    : outcome str Value * list MpvEvent * list ipc_read :=
  let '(result, es, rest) :=
    match written with
    | Ok _ => await_response request_id reads
    | Err e => (Err e, [], reads)
    | Panic => (Panic, [], reads)
    | OutOfFuel => (OutOfFuel, [], reads)
    end in
  (result, es ++ match result, event_boundary with Ok _, Some revision => [LoadBoundary revision] | _, _ => [] end, rest).

(** [drain_mpv_event]: whether more may follow, and the events sent. *)
Definition drain_mpv_event (r : ipc_read) : bool * list MpvEvent :=
  match read_mpv_message u64_max r with
  | (Ok Nothing, es) => (false, es)
  | (Ok _, es) => (true, es)
  | (Err e, es) => (false, es ++ [ExitedUnexpectedly e])
  | (_, es) => (false, es)
  end.

(** ** The boundary of a load *)

(** The events of the lines a command read while it waited. *)
Definition events_of (request_id : Z) (reads : list ipc_read) : list MpvEvent :=
  reads ≫= (λ r, (read_mpv_message request_id r).2).

Definition is_response (m : outcome str MpvMessage) : Prop :=
  match m with Ok (Response _) => True | _ => False end.

Lemma read_returns request_id r : returns (read_mpv_message request_id r).1 ∧
  (is_response (read_mpv_message request_id r).1 → (read_mpv_message request_id r).2 = []) ∧
  (∀ x, (read_mpv_message request_id r).1 = Ok (Response x) → returns x).
Proof.
  unfold read_mpv_message. destruct r as [text| | |e]; try done. destruct (parse_line text) as [e|m]; [done|].
  case_bool_decide; [|done]. split_and!; [done|done|]. intros x [= <-]. unfold mpv_response_result.
  destruct (field_str _ m); [|done]. by case_bool_decide.
Qed.

Lemma await_cases request_id reads : let '(result, es, rest) := await_response request_id reads in
  returns result ∧ ∃ used, reads = used ++ rest ∧ es = events_of request_id used ∧
    ∀ v, result = Ok v → ∃ before line, used = before ++ [line] ∧
      (read_mpv_message request_id line).1 = Ok (Response (Ok v)) ∧
      Forall (λ r, ¬ is_response (read_mpv_message request_id r).1) before.
Proof.
  induction reads as [|r reads IH]; cbn [await_response]; [split; [done|]; by exists []|].
  pose proof (read_returns request_id r) as (Hr & He & Hx). destruct (read_mpv_message request_id r) as [m es] eqn:Hm. cbn in Hr, He, Hx.
  assert (events_of request_id [r] = es) as Hev by (unfold events_of; cbn; by rewrite Hm, app_nil_r).
  destruct m as [[x| |]|e| |]; try done.
  - split; [by apply Hx|]. exists [r]. split_and!; [done|by rewrite Hev|]. intros v ->. exists [], r. by rewrite Hm.
  - destruct (await_response request_id reads) as [[result es'] rest]. destruct IH as (Hret & used & -> & -> & Hv).
    split; [done|]. exists (r :: used). split_and!; [done|unfold events_of in *; cbn; by rewrite Hm|].
    intros v Hok. destruct (Hv v Hok) as (before & line & -> & Hl & Hb). exists (r :: before), line.
    split_and!; [done|done|]. constructor; [rewrite Hm; by intros []|done].
  - destruct (await_response request_id reads) as [[result es'] rest]. destruct IH as (Hret & used & -> & -> & Hv).
    split; [done|]. exists (r :: used). split_and!; [done|unfold events_of in *; cbn; by rewrite Hm|].
    intros v Hok. destruct (Hv v Hok) as (before & line & -> & Hl & Hb). exists (r :: before), line.
    split_and!; [done|done|]. constructor; [rewrite Hm; by intros []|done].
  - split; [done|]. exists [r]. split_and!; [done|by rewrite Hev|done].
Qed.

(** The boundary of a load separates the events of the file before it from
    those of its own: a load mpv accepted is marked right after the events of
    every line that came before its response, in their order, and before those
    of every later line; a load that was refused, timed out or could not be sent
    is not marked at all. *)
Theorem boundary_separates_loads request_id written revision reads : returns written →
  let '(result, es, rest) := worker_command request_id written (Some revision) reads in
  returns result ∧ ∃ used, reads = used ++ rest ∧
    match result with
    | Ok v => ∃ before line, used = before ++ [line] ∧ es = events_of request_id before ++ [LoadBoundary revision] ∧
        (read_mpv_message request_id line).1 = Ok (Response (Ok v)) ∧
        Forall (λ r, ¬ is_response (read_mpv_message request_id r).1) before
    | _ => es = events_of request_id used
    end.
Proof.
  intros Hw. unfold worker_command. destruct written as [[]|e| |]; try done.
  - pose proof (await_cases request_id reads) as Ha. destruct (await_response request_id reads) as [[result es] rest].
    destruct Ha as (Hr & used & -> & -> & Hv). split; [done|]. exists used. split; [done|].
    destruct result as [v|e| |]; rewrite ?app_nil_r; try done.
    destruct (Hv v eq_refl) as (before & line & -> & Hl & Hb). exists before, line. split_and!; [done| |done|done].
    f_equal. unfold events_of. rewrite bind_app. cbn. rewrite (proj1 (proj2 (read_returns request_id line))) by (by rewrite Hl).
    by rewrite !app_nil_r.
  - split; [done|]. by exists [].
Qed.
End Mpv.

(** Every line is the response of the request with its number. *)
#[local] Instance replies : SerdeJson := {|
  Value := Z; field _ v := Some v; pointer _ _ := None; as_str _ := Some (st "success"); as_u64 v := Some v; as_f64 _ := None;
  as_bool _ := None; as_array _ := None; is_object _ := false; is_number _ := true; Null := 0; String_ _ := 0;
  Bool_ _ := 0; Float_ _ := 0; Int_ n := n; Array_ _ := 0; Object_ _ := 0; insert_field _ _ _ := None;
  parse_values _ := inr []; to_uppercase s := s
|}.

Lemma boundary_separates_loads_witness :
  let parse_line := λ text : str, inr (Z.of_nat (length text)) : str + Value in
  worker_command parse_line 1 (Ok tt) (Some 7) [Quiet; Line (st "x"); Quiet] = (Ok 1, [LoadBoundary 7], [Quiet]) ∧
  returns (worker_command parse_line 1 (Ok tt) (Some 7) [Quiet; Line (st "x"); Quiet]).1.1.
Proof.
  intros parse_line. split; [vm_compute; reflexivity|].
  exact (proj1 (boundary_separates_loads parse_line 1 (Ok tt) 7 [Quiet; Line (st "x"); Quiet] I)).
Defined.
