(* ===== verification/Controller.v ===== *)
(** The commands of the Playback Session (desktop/core/src/playback.rs,
    PlaybackController): each a program that takes the locks the code takes and
    asks the world what the code asks it. Locks are never poisoned: no program
    panics (PlaybackSafety). Messages that are only logged are left out. *)

From S2P Require Import Prelude Text Float64 Values Prog PlayQueue Telemetry OutputDevices Adaptive SettingsFile Lifecycle LoadTiming Processing Session Desktop Mpv.

(** Durations, in nanoseconds. *)
Definition DIRECT_OUTPUT_READY_TIMEOUT : Z := 2000000000.
Definition DIRECT_OUTPUT_RETRY_INTERVAL : Z := 10000000.
Definition TRANSITION_FADE_STEP_MS : Z := 20.
Definition TRANSITION_FADE_STEP : Z := 20000000.

(** A counter of 64 bits, which wraps. *)
Definition wrapping_next (n : Z) : Z := (n + 1) mod 2 ^ 64.

Section Controller.
Context {SJ : SerdeJson} {SF : SourceFormat} {FT : FloatText} (setup : Setup).

(** ** Shared steps *)

Definition state : prog Shared dcall PlaybackSessionState := locked STATE (read session).

Definition update_shared_state (change : PlaybackSessionState → PlaybackSessionState) : prog Shared dcall PlaybackSessionState :=
  locked STATE (act (λ s, let next := change (session s) in (next, put_session next s))).

Definition update (change : PlaybackSessionState → PlaybackSessionState) : Desktop PlaybackSessionState :=
  next ← update_shared_state change;
  _ ← call (Publish next);
  Done (Ok next).

Definition with_process {A} (action : nat → prog Shared dcall A) : prog Shared dcall A :=
  locked PROCESS (pid ← read process; action pid).

(** A change of the Queue, with its lock held by the caller. *)
Definition queue_step {A} (m : M PlaybackQueueContext str A) : Desktop A :=
  act (λ s, let '(o, q) := m (queue s) in (o, put_queue q s)).

Definition catalog_step {E A} (m : M OutputDeviceCatalog E A) : prog Shared dcall (outcome E A) :=
  act (λ s, let '(o, c) := m (catalog s) in (o, put_catalog c s)).

Definition on_adaptive {A} (p : prog AdaptiveSystemRateState acall A) : prog Shared dcall A :=
  locked ADAPTIVE (zoom adaptive put_adaptive (λ B c, AskAdaptive c) p).

Definition advance_command_revision : prog Shared dcall unit :=
  write (λ s, put_command_revision (wrapping_next (command_revision s)) s).

Definition next_load_revision : prog Shared dcall Z :=
  act (λ s, let n := wrapping_next (load_revision s) in (n, put_load_revision n s)).

Definition report_load_line (report : option LoadReport) : prog Shared dcall unit :=
  match report with Some r => call (ReportLoad r) | None => Done tt end.

Definition start_load_timer (revision : option Z) (source_type : str) (trigger : LoadTrigger) : prog Shared dcall unit :=
  now ← call Now;
  report ← act (λ s, let '(r, t) := LoadTiming.start revision source_type trigger now (load_timer s) in (r, put_load_timer t s));
  report_load_line report.

Definition mark_player_stable : prog Shared dcall unit :=
  locked LIFECYCLE (write (λ s, put_lifecycle (player_stabilized (lifecycle s)) s)).

Definition align_queue_to_source (source : Value) : Desktop unit := locked QUEUE (queue_step (align_to_source source)).

Definition fail (message : str) : Desktop PlaybackSessionState :=
  _ ← update (set_error_state message);
  Done (Err message).

Definition fail_native : Desktop PlaybackSessionState := fail PLAYBACK_FAILED_MESSAGE.

(** [return self.fail_native(error)] when a step failed. *)
Definition or_fail_native {A} (r : outcome str A) (k : A → Desktop PlaybackSessionState) : Desktop PlaybackSessionState :=
  match r with
  | Ok a => k a
  | Err _ => fail_native
  | Panic => Done Panic
  | OutOfFuel => Done OutOfFuel
  end.

(** ** Fades *)

Definition active_fade : prog Shared dcall (option (f64 * Z)) :=
  fade_ms ← read transition_fade_ms;
  if fade_ms =? 0 then Done None
  else
    s ← state;
    Done (if is_active (s_status s) then Some (s_volume s, fade_ms) else None).

Fixpoint ramp_steps (from to : f64) (steps : Z) (ks : list nat) : prog Shared dcall unit :=
  match ks with
  | [] => Done tt
  | k :: ks =>
      let volume := fadd from (fmul (fsub to from) (fdiv (of_Z (Z.of_nat k)) (of_Z steps))) in
      r ← with_process (λ pid, set_mpv_volume pid volume);
      match r with
      | Ok _ =>
          if Z.of_nat k <? steps then _ ← call (Sleep TRANSITION_FADE_STEP); ramp_steps from to steps ks
          else ramp_steps from to steps ks
      | _ => Done tt
      end
  end.

Definition ramp_volume (from to : f64) (fade_ms : Z) : prog Shared dcall unit :=
  let steps := Z.max 1 (fade_ms / TRANSITION_FADE_STEP_MS) in
  ramp_steps from to steps (seq 1 (Z.to_nat steps)).

Definition fade_out : prog Shared dcall unit :=
  f ← active_fade;
  match f with Some (volume, fade_ms) => ramp_volume volume (of_Z 0) fade_ms | None => Done tt end.

Definition fade_in : prog Shared dcall unit :=
  f ← active_fade;
  match f with Some (volume, fade_ms) => ramp_volume (of_Z 0) volume fade_ms | None => Done tt end.

Definition restore_volume : prog Shared dcall unit :=
  fade_ms ← read transition_fade_ms;
  if fade_ms =? 0 then Done tt
  else
    s ← state;
    _ ← with_process (λ pid, set_mpv_volume pid (s_volume s));
    Done tt.

(** ** Adaptive System Rate *)

Definition ADAPTIVE_UNAVAILABLE : str := st "Adaptive System Rate is unavailable on this system.".

Definition apply_adaptive_rate_hz (rate_hz : option Z) : Desktop unit :=
  if has_adaptive setup then on_adaptive (apply_source_sample_rate rate_hz) else Done (Err ADAPTIVE_UNAVAILABLE).

Definition apply_adaptive_source_rate (source : Value) : Desktop unit :=
  s ← state;
  if negb (bool_decide (s_output_mode s = AdaptiveSystemRate)) then Done (Ok tt)
  else apply_adaptive_rate_hz (sample_rate_hz (source_format (from_playback_source source))).

Definition reset_adaptive_after_failure : prog Shared dcall unit :=
  if has_adaptive setup then _ ← on_adaptive reset_for_recovery; Done tt else Done tt.

Definition disable_adaptive_system_rate : Desktop unit :=
  if has_adaptive setup then
    with_err (λ _, st "Adaptive System Rate could not be disabled. Restart the Desktop Client.") (on_adaptive disable)
  else Done (Ok tt).

Definition adaptive_source_rate_hz : prog Shared dcall (option Z) :=
  s ← state;
  Done (v ← s_source s; sample_rate_hz (source_format (from_playback_source v))).

Definition enable_adaptive_controller : Desktop unit :=
  if has_adaptive setup then
    on_adaptive (
      _ ←? ensure_available;
      with_err (λ _, st "Adaptive System Rate could not be enabled because its cleanup safeguard could not be saved. Check Desktop Client storage permissions and try again.")
        enable)
  else Done (Err ADAPTIVE_UNAVAILABLE).

Definition fail_adaptive_setup : Desktop PlaybackSessionState :=
  _ ←? disable_adaptive_system_rate;
  fail_native.

Definition configure_system_output : Desktop unit :=
  with_process (λ pid, ignored (configure_output pid OutputSystem)).

Definition enable_adaptive_system_rate : Desktop PlaybackSessionState :=
  source_rate_hz ← adaptive_source_rate_hz;
  _ ←? enable_adaptive_controller;
  configured ← configure_system_output;
  match configured with
  | Ok _ =>
      applied ← apply_adaptive_rate_hz source_rate_hz;
      match applied with
      | Ok _ => update publish_adaptive_system_output
      | _ => fail_adaptive_setup
      end
  | _ => fail_adaptive_setup
  end.

(** ** Playing *)

Definition start_playback (source : Value) (should_load : bool) : Desktop (option Z) :=
  if negb should_load then
    _ ←? with_process (λ pid, set_paused pid false);
    Done (Ok None)
  else
    url ←? Done (playback_url source);
    load_revision ← next_load_revision;
    _ ← start_load_timer (Some load_revision) (source_kind source) PlayCommand;
    _ ←? with_process (λ pid,
      _ ←? load_with_event_boundary pid url load_revision;
      set_paused pid false);
    Done (Ok (Some load_revision)).

(** [play] once its source is known. *)
Definition play_source (current : PlaybackSessionState) (next_source : Value) (is_new_source : bool) : Desktop PlaybackSessionState :=
  fade_ms ← read transition_fade_ms;
  let should_fade_in := negb is_new_source && bool_decide (s_status current = Paused) && (0 <? fade_ms) in
  _ ← (if should_fade_in then _ ← with_process (λ pid, set_mpv_volume pid (of_Z 0)); Done tt else Done tt);
  rated ← (if is_new_source then apply_adaptive_source_rate next_source else Done (Ok tt));
  match rated with
  | Ok _ =>
      started ← start_playback next_source is_new_source;
      match started with
      | Ok load_revision =>
          next ←? update (update_playing_state next_source is_new_source);
          _ ← (match load_revision with Some r => write (put_published_load_revision r) | None => Done tt end);
          _ ←? align_queue_to_source next_source;
          _ ← mark_player_stable;
          _ ← (if should_fade_in then fade_in else Done tt);
          Done (Ok next)
      | _ => _ ← reset_adaptive_after_failure; or_fail_native started (λ _, Done Panic)
      end
  | _ => _ ← reset_adaptive_after_failure; or_fail_native rated (λ _, Done Panic)
  end.

Definition play (source : option Value) : Desktop PlaybackSessionState :=
  _ ← advance_command_revision;
  current ← state;
  match or_else source (s_source current) with
  | None => Done (Ok current)
  | Some next_source =>
      play_source current next_source (bool_decide (is_Some source) || bool_decide (s_status current = Ended))
  end.

Definition pause : Desktop PlaybackSessionState :=
  _ ← advance_command_revision;
  s ← state;
  match s_source s with
  | None => s ← state; Done (Ok s)
  | Some _ =>
      _ ← fade_out;
      paused ← with_process (λ pid, set_paused pid true);
      _ ← restore_volume;
      or_fail_native paused (λ _, update (set_status Paused))
  end.

Definition stopped_state (s : PlaybackSessionState) : PlaybackSessionState :=
  let s := set_effective_gain None (set_source None s) in
  let s := set_duration (of_Z 0) (set_buffered_end None (set_current_time (of_Z 0) (set_status Idle s))) in
  let s := set_error None s in
  set_telemetry (telemetry_for_output_mode s unknown_source unknown_decoder None) s.

Definition stop : Desktop PlaybackSessionState :=
  _ ← advance_command_revision;
  _ ← fade_out;
  stopped ← with_process Mpv.stop;
  _ ← restore_volume;
  or_fail_native stopped (λ _, update stopped_state).

Definition toggle_play : Desktop PlaybackSessionState :=
  s ← state;
  if is_active (s_status s) then pause else play None.

Definition seek (seconds : f64) : Desktop PlaybackSessionState :=
  if negb (is_finite seconds) || flt seconds (of_Z 0) then
    fail (st "Playback seek position must be a non-negative finite number.")
  else
    sought ← with_process (λ pid, Mpv.seek pid seconds);
    or_fail_native sought (λ _, update (set_current_time seconds)).

(** [apply_processing]'s state, from what mpv applied. *)
Definition applied_processing (p : ProcessingState) (applied : MpvProcessingConfiguration) (s : PlaybackSessionState) : PlaybackSessionState :=
  let p := mkState (profile p) (clamp (of_Z 0) (of_Z 1) (fdiv (volume_percent applied) (of_Z 100))) (mpv_gain_mode applied)
             (effective_gain (mpv_gain_mode applied) (s_source s)) (replay_gain_preference p)
             (mkEqualizer (negb (bool_decide (audio_filters applied = []))) (preset (equalizer p)) (gains_db (equalizer p)))
             (audio_filters applied) (transition_notice p) in
  let t := s_telemetry s in
  set_telemetry (mkTelemetry (t_source t) (t_decoder t) (t_system t) (t_device t) (processing_observation p))
    (set_processing p (set_volume (software_volume p) s)).

Definition apply_processing (p : ProcessingState) (configuration : MpvProcessingConfiguration) : Desktop PlaybackSessionState :=
  applied ← with_process (λ pid, Mpv.apply_processing pid configuration);
  or_fail_native applied (λ applied, update (applied_processing p applied)).

Definition set_playback_rate (rate : f64) : Desktop PlaybackSessionState :=
  if negb (is_finite rate) || negb (fle MIN_PLAYBACK_RATE rate && fle rate MAX_PLAYBACK_RATE) then
    fail (st "Playback speed must be between " ++ show_f64 MIN_PLAYBACK_RATE ++ st " and " ++ show_f64 MAX_PLAYBACK_RATE ++ st ".")
  else
    r ← with_process (λ pid, set_speed pid rate);
    or_fail_native r (λ _, update (Session.set_playback_rate rate)).

Definition set_gapless (enabled : bool) : Desktop PlaybackSessionState :=
  r ← with_process (λ pid, Mpv.set_gapless pid enabled);
  or_fail_native r (λ _, update (set_is_gapless enabled)).

Definition set_stop_after_current (enabled : bool) : Desktop PlaybackSessionState := update (Session.set_stop_after_current enabled).

Definition set_transition_fade_ms (milliseconds : Z) : Desktop PlaybackSessionState :=
  _ ← write (put_transition_fade_ms (Z.min milliseconds MAX_TRANSITION_FADE_MS));
  s ← state;
  Done (Ok s).

Definition cycle_repeat_mode : Desktop PlaybackSessionState :=
  update (λ s, set_repeat_mode (cycled_repeat_mode (s_repeat_mode s)) s).

(** ** The Queue *)

Definition shuffle_queue : Desktop unit :=
  random ← call Random;
  queue_step (shuffle random).

Definition toggle_shuffle : Desktop PlaybackSessionState :=
  s ←? update (λ s, set_shuffle_enabled (negb (s_shuffle_enabled s)) s);
  _ ←? locked QUEUE (if s_shuffle_enabled s then shuffle_queue else queue_step reset_order);
  Done (Ok s).

Definition sync_queue_context (sources : list Value) (current_index : option nat) : Desktop PlaybackSessionState :=
  s ← state;
  _ ←? locked QUEUE (
    _ ←? queue_step (sync sources current_index);
    _ ←? (match (v ← s_source s; if is_type (st "track") v then Some v else None) with
          | Some source => queue_step (align_to_source source)
          | None => Done (Ok tt)
          end);
    if s_shuffle_enabled s then shuffle_queue else Done (Ok tt));
  s ← state;
  Done (Ok s).

Definition adjacent (direction : QueueDirection) (should_wrap : bool) : Desktop (option Value) :=
  locked QUEUE (queue_step (λ q, (adjacent_source q direction should_wrap, q))).

Definition navigate (direction : QueueDirection) : Desktop PlaybackSessionState :=
  s ← state;
  next ←? adjacent direction (bool_decide (s_repeat_mode s = RepeatLoop));
  match next with
  | Some source =>
      _ ← fade_out;
      result ← play (Some source);
      _ ← (match result with Ok _ => fade_in | _ => restore_volume end);
      Done result
  | None => s ← state; Done (Ok s)
  end.

Definition previous : Desktop PlaybackSessionState := navigate Previous.
Definition next : Desktop PlaybackSessionState := navigate Next.

(** ** Output Devices *)

Definition output_device_error_message (e : OutputDeviceError) : str := output_device_public_message e.

(** The catalog looked up again: the devices, and the selected one when it is
    gone. The caller holds its lock. *)
Definition refresh_catalog : Desktop (list OutputDevice * option OutputDevice) :=
  listed ← call ListRawDevices;
  refreshed ← catalog_step (refresh listed);
  match refreshed with
  | Ok devices => Done (Ok (devices, None))
  | Err (SelectedDeviceDisconnected device) => devices ← read (λ s, OutputDevices.devices (catalog s)); Done (Ok (devices, Some device))
  | Err e => Done (Err (output_device_error_message e))
  | Panic => Done Panic
  | OutOfFuel => Done OutOfFuel
  end.

Definition refresh_output_catalog : Desktop (list OutputDevice * option OutputDevice) :=
  if has_output_devices setup then locked CATALOG refresh_catalog
  else Done (Err (st "Raw ALSA hardware enumeration is unavailable.")).

Definition is_disconnected_issue (i : option OutputDeviceIssue) : bool :=
  match i with Some i => bool_decide (issue_code i = Disconnected) | None => false end.

Definition publish_available_output_devices (devices : list OutputDevice) : Desktop PlaybackSessionState :=
  update (λ s, let s := set_available_output_devices devices s in
    if is_disconnected_issue (s_output_device_issue s) then set_output_device_issue None s else s).

Definition pause_after_output_failure : prog Shared dcall unit :=
  _ ← with_process (λ pid, set_paused pid true);
  Done tt.

(** The session of a device that was unplugged. *)
Definition disconnected_state (devices : list OutputDevice) (device : OutputDevice) (s : PlaybackSessionState) : PlaybackSessionState :=
  set_output_device_issue (Some (disconnected_device_issue device))
    (set_status_with_source Paused (set_available_output_devices devices s)).

Definition refresh_output_devices : Desktop PlaybackSessionState :=
  '(devices, disconnected) ←? refresh_output_catalog;
  match disconnected with
  | None => publish_available_output_devices devices
  | Some device =>
      s ← state;
      if negb (bool_decide (s_output_mode s = DirectAlsa)) then update (set_available_output_devices devices)
      else
        _ ← pause_after_output_failure;
        update (disconnected_state devices device)
  end.

Definition select_output_device (device_id : str) : Desktop OutputDevice :=
  if has_output_devices setup then
    with_err output_device_public_message
      (locked CATALOG (
        listed ← (if is_raw_hardware_id device_id then call ListRawDevices else Done (inr []));
        catalog_step (select device_id listed)))
  else Done (Err (st "Direct ALSA Output is unavailable.")).

Definition configure_direct_output (device : OutputDevice) : Desktop (option AudioFormatObservation) :=
  with_process (λ pid, configure_output pid (OutputDirect (device_id device))).

(** The polling of [observe_direct_output_if_ready]. *)
Fixpoint observe_loop (fuel : nat) (deadline : Z) (last_error : option str) : Desktop (option AudioFormatObservation) :=
  match fuel with
  | O => Done OutOfFuel
  | S fuel =>
      now ← call Now;
      if now <? deadline then
        observed ← with_process observe_output_format;
        match observed with
        | Ok (Some format) => Done (Ok (Some format))
        | Ok None => _ ← call (Sleep DIRECT_OUTPUT_RETRY_INTERVAL); observe_loop fuel deadline last_error
        | Err e => _ ← call (Sleep DIRECT_OUTPUT_RETRY_INTERVAL); observe_loop fuel deadline (Some e)
        | Panic => Done Panic
        | OutOfFuel => Done OutOfFuel
        end
      else Done (Err (default (st "Direct ALSA Output did not report an active audio format.") last_error))
  end.

(** Each round sleeps for the retry interval, so the timeout allows this many. *)
Definition OBSERVE_ROUNDS : nat := Z.to_nat (DIRECT_OUTPUT_READY_TIMEOUT / DIRECT_OUTPUT_RETRY_INTERVAL + 1).

Definition observe_direct_output_if_ready (configured : option AudioFormatObservation) (has_source : bool)
    : Desktop (option AudioFormatObservation) :=
  if bool_decide (is_Some configured) || negb has_source then Done (Ok configured)
  else
    now ← call Now;
    observe_loop OBSERVE_ROUNDS (now + DIRECT_OUTPUT_READY_TIMEOUT) None.

Definition direct_output_state (device : OutputDevice) (negotiated : option AudioFormatObservation) (s : PlaybackSessionState) : PlaybackSessionState :=
  let s := set_output_device_issue None (set_selected_output_device (Some device) (set_output_mode DirectAlsa s)) in
  set_telemetry (native_direct_alsa_output (source_observation (s_source s)) (t_decoder (s_telemetry s)) (output_name device)
    negotiated (processing_observation (s_processing s))) s.

Definition publish_direct_output (device : OutputDevice) (negotiated : option AudioFormatObservation) : Desktop PlaybackSessionState :=
  update (direct_output_state device negotiated).

Definition restore_safe_system_output : prog Shared dcall OutputMode :=
  _ ← configure_system_output;
  Done SystemOutput.

Definition restore_adaptive_output_route : prog Shared dcall OutputMode :=
  r ← enable_adaptive_system_rate;
  match r with
  | Ok _ => Done AdaptiveSystemRate
  | _ => restore_safe_system_output
  end.

Definition restore_output_route (previous : PlaybackSessionState) : prog Shared dcall OutputMode :=
  match s_output_mode previous with
  | AdaptiveSystemRate => restore_adaptive_output_route
  | mode =>
      result ← (match mode, s_selected_output_device previous with
                | DirectAlsa, Some device => ignored (configure_direct_output device)
                | DirectAlsa, None => Done (Err (st "Previous Direct ALSA Output Device is unavailable."))
                | _, _ => configure_system_output
                end);
      match result with
      | Ok _ => Done mode
      | _ => restore_safe_system_output
      end
  end.

(** The session after a device could not be opened. *)
Definition output_failure_state (previous : PlaybackSessionState) (attempted : OutputDevice) (restored_mode : OutputMode)
    (s : PlaybackSessionState) : PlaybackSessionState :=
  let s := set_output_mode restored_mode s in
  let s := set_selected_output_device (if bool_decide (restored_mode = DirectAlsa) then s_selected_output_device previous
                                       else Some attempted) s in
  let s := set_status_with_source Paused s in
  reset_output_telemetry (set_output_device_issue (Some (busy_or_unsupported_device_issue attempted)) s).

Definition handle_direct_output_failure (previous : PlaybackSessionState) (attempted : OutputDevice) : Desktop PlaybackSessionState :=
  restored_mode ← restore_output_route previous;
  _ ← pause_after_output_failure;
  update (output_failure_state previous attempted restored_mode).

Definition select_direct_alsa_output (device_id : str) : Desktop PlaybackSessionState :=
  previous ← state;
  device ←? select_output_device device_id;
  _ ←? disable_adaptive_system_rate;
  configured ← configure_direct_output device;
  match configured with
  | Ok format =>
      observed ← observe_direct_output_if_ready format (bool_decide (is_Some (s_source previous)));
      match observed with
      | Ok format => publish_direct_output device format
      | Err _ => handle_direct_output_failure previous device
      | Panic => Done Panic
      | OutOfFuel => Done OutOfFuel
      end
  | Err _ => handle_direct_output_failure previous device
  | Panic => Done Panic
  | OutOfFuel => Done OutOfFuel
  end.

Definition restore_adaptive_after_system_failure (previous_mode : OutputMode) : prog Shared dcall unit :=
  if bool_decide (previous_mode = AdaptiveSystemRate) then _ ← enable_adaptive_system_rate; Done tt else Done tt.

Definition fallback_to_system_output : Desktop PlaybackSessionState :=
  s ← state;
  _ ←? disable_adaptive_system_rate;
  configured ← configure_system_output;
  match configured with
  | Ok _ => update publish_system_output
  | _ => _ ← restore_adaptive_after_system_failure (s_output_mode s); or_fail_native configured (λ _, Done Panic)
  end.

(** ** Restoring and ending *)

Definition apply_snapshot_to_process (pid : nat) (snapshot : PlaybackSessionSnapshot) (should_resume : bool) (playback_rate : f64) : Desktop unit :=
  _ ←? set_paused pid true;
  _ ←? set_mpv_volume pid (Lifecycle.volume snapshot);
  _ ←? set_speed pid playback_rate;
  match Lifecycle.source snapshot with
  | None => Done (Ok tt)
  | Some source =>
      url ←? Done (playback_url source);
      _ ←? load_at pid url (Lifecycle.playhead_seconds snapshot);
      if should_resume then set_paused pid false else Done (Ok tt)
  end.

Definition restore_paused (snapshot : PlaybackSessionSnapshot) : Desktop PlaybackSessionState :=
  _ ← advance_command_revision;
  s ← state;
  _ ← (match Lifecycle.source snapshot with
       | Some source => start_load_timer None (source_kind source) RestoreSession
       | None => Done tt
       end);
  applied ← with_process (λ pid, apply_snapshot_to_process pid snapshot false (s_playback_rate s));
  or_fail_native applied (λ _,
    next ←? update (restore_snapshot_state snapshot);
    _ ← mark_player_stable;
    Done (Ok next)).

Definition shutdown_player : prog Shared dcall unit :=
  _ ← advance_command_revision;
  _ ← write (put_is_shutdown true);
  with_process Mpv.shutdown.

Definition shutdown : Desktop unit :=
  _ ←? disable_adaptive_system_rate;
  _ ← shutdown_player;
  Done (Ok tt).

(** The controller's [Drop], before it waits for the event thread. *)
Definition drop_playback : prog Shared dcall unit :=
  r ← shutdown;
  match r with Ok _ => Done tt | _ => shutdown_player end.
End Controller.
