(* ===== verification/Events.v ===== *)
(** The event thread of the Playback Session (desktop/core/src/playback.rs): what
    mpv's events do to the session, reconnecting Live Radio, following unplugged
    devices, and restarting a player that exited. *)

From S2P Require Import Prelude Text Float64 Values Prog PlayQueue Telemetry OutputDevices Adaptive Lifecycle LoadTiming Processing Session Desktop Mpv Controller.

Definition SECOND : Z := 1000000000.
Definition LIVE_RECONNECT_DELAY_STEPS : list Z := [1; 2; 4; 8; 15].
Definition LIVE_RECONNECT_READINESS_TIMEOUT : Z := 10 * SECOND.
Definition LIVE_RECONNECT_STABILITY_RESET : Z := 30 * SECOND.
Definition OUTPUT_DEVICE_REFRESH_INTERVAL : Z := 2 * SECOND.
Definition PATH_REFRESH_INTERVAL : Z := 2 * SECOND.

Section Events.
Context {SJ : SerdeJson} {SF : SourceFormat} {FT : FloatText} (setup : Setup).
(** The JSON round trip of a session's state ([from_serializable_state]). *)
Variable reproject : PlaybackStateProjection → str + PlaybackStateProjection.

(** ** Live Radio *)

Record LiveReconnectState := mkLive {
  armed_source : option Value;
  armed_revision : Z;  (** [command_revision] *)
  attempt : nat;
  retry_at : option Z;
  readiness_deadline : option Z;
  stability_deadline : option Z;
  accepted_load_revision : option Z
}.
Definition default_live : LiveReconnectState := mkLive None 0 0 None None None None.

Definition live_reconnect_delay (attempt : nat) : Z :=
  default 0 (LIVE_RECONNECT_DELAY_STEPS !! Nat.min attempt (length LIVE_RECONNECT_DELAY_STEPS - 1)) * SECOND.

Definition schedule_next_live_reconnect (now : Z) (l : LiveReconnectState) : LiveReconnectState :=
  mkLive (armed_source l) (armed_revision l) (attempt l + 1) (Some (now + live_reconnect_delay (attempt l))) None None
    (accepted_load_revision l).

Definition arm_live_reconnect_stability (now : Z) (l : LiveReconnectState) : LiveReconnectState :=
  if bool_decide (0 < attempt l)%nat && negb (bool_decide (is_Some (stability_deadline l))) then
    mkLive (armed_source l) (armed_revision l) (attempt l) (retry_at l) (readiness_deadline l)
      (Some (now + LIVE_RECONNECT_STABILITY_RESET)) (accepted_load_revision l)
  else l.

Definition due (deadline : option Z) (now : Z) : bool := match deadline with Some d => d <=? now | None => false end.

(** Whether the stream plays, and the state after noticing it. *)
Definition update_live_reconnect_stability (status : PlaybackStatus) (now : Z) (l : LiveReconnectState) : bool * LiveReconnectState :=
  if negb (bool_decide (status = Playing)) then (false, l)
  else (true, if due (stability_deadline l) now then
                mkLive (armed_source l) (armed_revision l) 0 (retry_at l) (readiness_deadline l) None (accepted_load_revision l)
              else l).

Definition schedule_expired_live_readiness (now : Z) (l : LiveReconnectState) : LiveReconnectState :=
  if due (readiness_deadline l) now then schedule_next_live_reconnect now l else l.

Definition is_reconnectable_live_interruption (e : MpvEvent) : bool :=
  match e with EndedEvent | ErrorEvent _ => true | _ => false end.

Definition is_stable_playback_event (e : MpvEvent) : bool :=
  match e with
  | Decoder _ => true
  | Time value => is_finite value && fle (of_Z 0) value
  | _ => false
  end.

Definition is_live (source : option Value) : bool := match source with Some v => is_live_source v | None => false end.

Definition handle_load_boundary (revision : Z) (l : LiveReconnectState) : prog Shared dcall LiveReconnectState :=
  current ← read load_revision;
  if current =? revision then
    l ← (if bool_decide (is_Some (armed_source l)) then
           commands ← read command_revision;
           Done (if negb (commands =? armed_revision l) then default_live else l)
         else Done l);
    Done (mkLive (armed_source l) (armed_revision l) (attempt l) (retry_at l) (readiness_deadline l) (stability_deadline l) (Some revision))
  else Done l.

Definition handle_live_stable_event (l : LiveReconnectState) : prog Shared dcall LiveReconnectState :=
  revision ← read load_revision;
  published ← read published_load_revision;
  if negb (bool_decide (accepted_load_revision l = Some revision)) || negb (published =? revision) then Done l
  else
    current ← state;
    if negb (is_active (s_status current)) || negb (is_live (s_source current)) then Done default_live
    else
      commands ← read command_revision;
      now ← call Now;
      let l := arm_live_reconnect_stability now
        (mkLive (s_source current) commands (attempt l) None None (stability_deadline l) (accepted_load_revision l)) in
      if bool_decide (s_status current = Reconnecting) then
        _ ← update (λ s, set_error None (set_status Playing s));
        Done l
      else Done l.

Definition start_live_reconnect (l : LiveReconnectState) : prog Shared dcall (bool * LiveReconnectState) :=
  should_reconnect ← locked STATE (read (λ s,
    is_active (s_status (session s)) && bool_decide (s_source (session s) = armed_source l)
    && is_live (s_source (session s)) && (command_revision s =? armed_revision l)));
  if negb should_reconnect then Done (false, l)
  else
    l ← (if bool_decide (is_Some (retry_at l)) then Done l
         else now ← call Now; Done (schedule_next_live_reconnect now l));
    _ ← update (λ s, set_error None (set_status Reconnecting s));
    Done (true, l).

Definition reconnect_live_source (l : LiveReconnectState) : Desktop unit :=
  commands ← read command_revision;
  if negb (commands =? armed_revision l) then Done (Err (st "playback source changed before reconnect"))
  else
    source ←? Done (ok_or (armed_source l) (st "live playback source is unavailable"));
    url ←? Done (playback_url source);
    with_process (λ pid,
      commands ← read command_revision;
      if negb (commands =? armed_revision l) then Done (Err (st "playback source changed while reconnect was waiting"))
      else
        revision ← next_load_revision;
        _ ← start_load_timer (Some revision) (source_kind source) Reconnect;
        _ ←? load_with_event_boundary pid url revision;
        _ ←? set_paused pid false;
        act (λ s, (Ok tt, put_published_load_revision revision s))).

Definition run_live_reconnect_attempt (l : LiveReconnectState) : prog Shared dcall LiveReconnectState :=
  let l := mkLive (armed_source l) (armed_revision l) (attempt l) None (readiness_deadline l) (stability_deadline l) (accepted_load_revision l) in
  result ← reconnect_live_source l;
  now ← call Now;
  Done match result with
       | Ok _ => mkLive (armed_source l) (armed_revision l) (attempt l) None (Some (now + LIVE_RECONNECT_READINESS_TIMEOUT))
                   (stability_deadline l) (accepted_load_revision l)
       | _ => schedule_next_live_reconnect now l
       end.

Definition poll_live_reconnect (l : LiveReconnectState) : prog Shared dcall LiveReconnectState :=
  if negb (bool_decide (is_Some (armed_source l))) then Done l
  else
    current ← state;
    commands ← read command_revision;
    if negb (bool_decide (s_source current = armed_source l) && (commands =? armed_revision l) && is_active (s_status current)) then
      Done default_live
    else
      now ← call Now;
      let '(playing, l) := update_live_reconnect_stability (s_status current) now l in
      if playing : bool then Done l
      else
        let l := schedule_expired_live_readiness now l in
        if negb (due (retry_at l) now) then Done l else run_live_reconnect_attempt l.

(** ** Timing *)

Definition mark_of (e : MpvEvent) : option LoadMark :=
  match e with
  | LoadBoundary revision => Some (Accepted revision)
  | FileLoaded => Some MarkFileLoaded
  | PlaybackRestart => Some MarkPlaying
  | ErrorEvent _ => Some MarkFailed
  | _ => None
  end.

Definition report_load_timing (e : MpvEvent) : prog Shared dcall unit :=
  match mark_of e with
  | None => Done tt
  | Some mark =>
      now ← call Now;
      report ← act (λ s, let '(r, t) := observe mark now (load_timer s) in (r, put_load_timer t s));
      report_load_line report
  end.

Definition ended_load_trigger : prog Shared dcall LoadTrigger :=
  s ← state;
  next ← with_process appended;
  Done (if bool_decide (s_repeat_mode s = RepeatOnce) then Repeat
        else if bool_decide (is_Some next) then Gapless else QueueAdvance).

Definition time_load_now (trigger : LoadTrigger) : prog Shared dcall unit :=
  s ← state;
  match (if bool_decide (s_status s = Playing) then s_source s else None) with
  | Some source => start_load_timer None (source_kind source) trigger
  | None => Done tt
  end.

(** ** The next Track *)

Definition append_next_source_near_end (seconds : f64) : prog Shared dcall unit :=
  current ← state;
  let is_near_end := flt (of_Z 0) (s_duration current)
                     && fle (fsub (s_duration current) seconds) GAPLESS_APPEND_LEAD_SECONDS in
  if negb is_near_end || negb (bool_decide (s_status current = Playing)) || s_stop_after_current current
     || bool_decide (s_repeat_mode current = RepeatOnce)
     || (match s_source current with Some v => is_live_source v | None => true end) then Done tt
  else
    next ← adjacent Next (bool_decide (s_repeat_mode current = RepeatLoop));
    match next with
    | Ok (Some source) =>
        match playback_url source with
        | Ok url =>
            with_process (λ pid,
              queued ← appended pid;
              if bool_decide (is_Some queued) then Done tt
              else _ ← append pid url; Done tt)
        | _ => Done tt
        end
    | _ => Done tt
    end.

Definition stop_appended_source (queued : option str) : prog Shared dcall unit :=
  match queued with
  | None => Done tt
  | Some _ => _ ← with_process Mpv.stop; Done tt
  end.

(** Whether the session follows the source's rate. *)
Definition is_adaptive : prog Shared dcall bool :=
  s ← state;
  Done (bool_decide (s_output_mode s = AdaptiveSystemRate)).

Definition EVENT_ADAPTIVE_UNAVAILABLE : str := st "Adaptive System Rate is unavailable.".

Definition apply_adaptive_rate_for_event (source : Value) : Desktop unit :=
  a ← is_adaptive;
  if negb a then Done (Ok tt)
  else if has_adaptive setup then on_adaptive (apply_source_sample_rate (sample_rate_hz (source_format (from_playback_source source))))
  else Done (Err EVENT_ADAPTIVE_UNAVAILABLE).

Definition reset_adaptive_after_event_failure : Desktop unit :=
  a ← is_adaptive;
  if negb a then Done (Ok tt)
  else if has_adaptive setup then with_err (λ _, st "Adaptive System Rate cleanup failed.") (on_adaptive reset_for_recovery)
  else Done (Err EVENT_ADAPTIVE_UNAVAILABLE).

Definition prepare_advanced_source_rate (source : Value) : Desktop unit :=
  applied ← apply_adaptive_rate_for_event source;
  match applied with
  | Err error =>
      cleaned ← reset_adaptive_after_event_failure;
      Done match cleaned with
           | Err _ => Err ADAPTIVE_CLEANUP_FAILED_MESSAGE
           | _ => Err error
           end
  | r => Done r
  end.

Definition start_advanced_source (source : Value) : Desktop unit :=
  url ←? Done (playback_url source);
  with_process (λ pid, _ ←? Mpv.load pid url; set_paused pid false).

(** A changed session, to be published by the caller. *)
Definition changed (change : PlaybackSessionState → PlaybackSessionState) : Desktop PlaybackSessionState :=
  next ← update_shared_state change;
  Done (Ok next).

Definition publish_adaptive_cleanup_failure : Desktop PlaybackSessionState :=
  changed (set_error_state ADAPTIVE_CLEANUP_FAILED_MESSAGE).

Definition publish_advanced_source_failure : Desktop PlaybackSessionState :=
  cleaned ← reset_adaptive_after_event_failure;
  match cleaned with
  | Err _ => publish_adaptive_cleanup_failure
  | _ => changed (set_error_state PLAYBACK_FAILED_MESSAGE)
  end.

Definition align_and_publish_advanced_source (source : Value) : Desktop PlaybackSessionState :=
  _ ←? align_queue_to_source source;
  changed (set_playing_source source None).

Definition load_advanced_source (source : Value) : Desktop PlaybackSessionState :=
  _ ←? prepare_advanced_source_rate source;
  started ← start_advanced_source source;
  match started with
  | Err _ => publish_advanced_source_failure
  | Ok _ => align_and_publish_advanced_source source
  | Panic => Done Panic
  | OutOfFuel => Done OutOfFuel
  end.

Definition repeat_current_source : Desktop PlaybackSessionState :=
  s ← state;
  match s_source s with
  | None => changed (set_status Ended)
  | Some source =>
      repeated ←? load_advanced_source source;
      if negb (bool_decide (s_status repeated = Playing)) then Done (Ok repeated)
      else changed (set_repeat_mode RepeatOff)
  end.

Definition handle_ended_event : Desktop PlaybackSessionState :=
  s ← state;
  queued ← with_process take_appended;
  if s_stop_after_current s then
    _ ← stop_appended_source queued;
    changed (λ s, set_status Ended (Session.set_stop_after_current false s))
  else if bool_decide (s_repeat_mode s = RepeatOnce)
          && negb (match s_source s with Some v => is_external_track_source v | None => false end) then
    repeat_current_source
  else
    next ←? adjacent Next (bool_decide (s_repeat_mode s = RepeatLoop));
    match next with
    | Some source =>
        if bool_decide (is_Some queued) && bool_decide (queued = ok_of (playback_url source)) then
          _ ←? prepare_advanced_source_rate source;
          align_and_publish_advanced_source source
        else load_advanced_source source
    | None =>
        _ ← stop_appended_source queued;
        changed (set_status Ended)
    end.

(** ** Failures of a file *)

Definition direct_error_device : prog Shared dcall (option OutputDevice) :=
  s ← state;
  Done (if bool_decide (s_output_mode s = DirectAlsa) then s_selected_output_device s else None).

Definition direct_mpv_error_state (device : OutputDevice) (s : PlaybackSessionState) : PlaybackSessionState :=
  reset_output_telemetry (set_output_device_issue (Some (busy_or_unsupported_device_issue device))
    (set_output_mode SystemOutput (set_status Paused s))).

Definition publish_direct_mpv_error (device : OutputDevice) : Desktop PlaybackSessionState :=
  with_process (λ pid,
    _ ←? set_paused pid true;
    _ ←? configure_output pid OutputSystem;
    changed (direct_mpv_error_state device)).

Definition handle_mpv_error : Desktop PlaybackSessionState :=
  cleanup ← reset_adaptive_after_event_failure;
  match cleanup with
  | Err _ => publish_adaptive_cleanup_failure
  | _ =>
      device ← direct_error_device;
      match device with
      | Some device => publish_direct_mpv_error device
      | None => changed (set_error_state PLAYBACK_FAILED_MESSAGE)
      end
  end.

(** ** Telemetry *)

Definition observe_pipewire_path : prog Shared dcall (option PipeWireObservation) :=
  if has_path_observer setup then
    r ← call ObservePath;
    Done match r with Ok o => o | _ => None end
  else Done None.

Definition refresh_pipewire_telemetry : prog Shared dcall unit :=
  pipewire ← observe_pipewire_path;
  _ ← update (λ s, set_telemetry (telemetry_for_output_mode s (source_observation (s_source s)) (t_decoder (s_telemetry s)) pipewire) s);
  Done tt.

Definition observe_ready_direct_format : prog Shared dcall (option AudioFormatObservation) :=
  s ← state;
  if negb (bool_decide (s_output_mode s = DirectAlsa)) then Done None
  else
    r ← with_process observe_output_format;
    Done match r with Ok format => format | _ => None end.

Definition decoder_state (decoder : ObservedMpvProperties) (pipewire : option PipeWireObservation)
    (negotiated : option AudioFormatObservation) (s : PlaybackSessionState) : PlaybackSessionState :=
  match (if bool_decide (s_output_mode s = DirectAlsa) then s_selected_output_device s else None) with
  | Some device =>
      set_telemetry (native_direct_alsa_output (source_observation (s_source s)) decoder (output_name device) negotiated
        (processing_observation (s_processing s))) s
  | None => set_telemetry (telemetry_for_output_mode s (source_observation (s_source s)) decoder pipewire) s
  end.

Definition update_decoder_telemetry (decoder : ObservedMpvProperties) : Desktop PlaybackSessionState :=
  pipewire ← observe_pipewire_path;
  negotiated ← observe_ready_direct_format;
  changed (decoder_state decoder pipewire negotiated).

Definition adaptive_decoder_failure_state (s : PlaybackSessionState) : PlaybackSessionState :=
  set_error_state (st "Adaptive System Rate could not follow this source. System Output was restored.") (set_output_mode SystemOutput s).

Definition apply_adaptive_decoder_rate (rate_hz : option Z) : prog Shared dcall unit :=
  a ← is_adaptive;
  result ← (if negb a then Done (Ok tt) else apply_adaptive_rate_hz setup rate_hz);
  match result with
  | Err _ =>
      _ ← reset_adaptive_after_failure setup;
      _ ← update adaptive_decoder_failure_state;
      Done tt
  | _ => Done tt
  end.

(** ** Reducing an event *)

Definition paused_state (is_paused : bool) (s : PlaybackSessionState) : PlaybackSessionState :=
  if bool_decide (is_Some (s_source s)) && negb (bool_decide (s_status s = Ended))
  then set_status (if is_paused then Paused else Playing) s else s.

(** The change of an event, or [None] when it makes none. *)
Definition reduce_mpv_event (e : MpvEvent) : option (Desktop PlaybackSessionState) :=
  match e with
  | Time value => if is_finite value && fle (of_Z 0) value then Some (changed (set_current_time value)) else None
  | Duration value => if is_finite value && flt (of_Z 0) value then Some (changed (set_duration value)) else None
  | BufferedEnd value => if is_finite value && fle (of_Z 0) value then Some (changed (set_buffered_end (Some value))) else None
  | PausedEvent is_paused => Some (changed (paused_state is_paused))
  | Decoder decoder => Some (update_decoder_telemetry decoder)
  | EndedEvent => Some handle_ended_event
  | ErrorEvent _ => Some handle_mpv_error
  | LoadBoundary _ | FileLoaded | PlaybackRestart | ExitedUnexpectedly _ => None
  end.

Definition handle_mpv_event (e : MpvEvent) : Desktop unit :=
  match reduce_mpv_event e with
  | None => Done (Ok tt)
  | Some p => next ←? p; _ ← call (Publish next); Done (Ok tt)
  end.

(** Whether the path was refreshed. *)
Definition process_mpv_event (e : MpvEvent) (last_path_refresh : Z) : prog Shared dcall bool :=
  let is_decoder_readiness := match e with Decoder _ => true | _ => false end in
  now ← call Now;
  let should_refresh_path := match e with Time _ => true | _ => false end
                             && (PATH_REFRESH_INTERVAL <=? elapsed_since last_path_refresh now) && has_path_observer setup in
  handled ← handle_mpv_event e;
  _ ← (match handled with Ok _ => if is_stable_playback_event e then mark_player_stable else Done tt | _ => Done tt end);
  _ ← (if should_refresh_path && negb is_decoder_readiness then refresh_pipewire_telemetry else Done tt);
  Done (is_decoder_readiness || should_refresh_path).

(** ** A player that exited *)

Record RecoveryFailure := mkRecovery { recovery_code : str; recovery_message : str }.

Definition recovery_public_message (code : str) : str :=
  if bool_decide (code = st "mpv-recovery-state-unavailable") then
    st "Native playback could not recover because Playback Session state is unavailable. Restart the Desktop Client."
  else if bool_decide (code = st "mpv-recovery-snapshot-failed") then
    st "Native playback could not preserve the interrupted session. Quit and reopen the Desktop Client to try again."
  else if bool_decide (code = st "mpv-recovery-lifecycle-unavailable") then
    st "Native playback could not recover because lifecycle state is unavailable. Restart the Desktop Client."
  else if bool_decide (code = st "mpv-restart-unavailable") then
    st "Native playback cannot restart in this session. Restart the Desktop Client."
  else if bool_decide (code = st "mpv-recovery-transition-invalid") then
    st "Native playback could not complete recovery. Quit and reopen the Desktop Client to try again."
  else st "Native playback could not restart. Quit and reopen the Desktop Client to try again.".

Definition internal_failure (code : string) : RecoveryFailure := mkRecovery (st code) (recovery_public_message (st code)).

Abbreviation Recovers A := (prog Shared dcall (outcome RecoveryFailure A)).

Definition restart_failed {A} (p : Desktop A) : Recovers A := with_err (λ _, internal_failure "mpv-restart-failed") p.

Definition interrupted_session_snapshot : Recovers (PlaybackSessionSnapshot * bool) :=
  current ← state;
  Done (snapshot ← map_err (λ _, internal_failure "mpv-recovery-snapshot-failed") (from_serializable_state reproject (projection current));
        Ok (snapshot, is_active (s_status current))).

Definition reset_adaptive_for_recovery : Recovers unit :=
  if has_adaptive setup then restart_failed (on_adaptive reset_for_recovery) else Done (Ok tt).

(** [*process.lock() = next]: the process that was there is dropped. *)
Definition replace_process (next_pid : nat) : prog Shared dcall unit :=
  with_process (λ old, _ ← Mpv.shutdown old; write (put_process next_pid)).

Definition recovered_state (snapshot : PlaybackSessionSnapshot) (should_resume : bool) (s : PlaybackSessionState) : PlaybackSessionState :=
  let s := restore_snapshot_state snapshot s in
  if should_resume && bool_decide (is_Some (s_source s)) then set_status Playing s else s.

(** A new process that a failure leaves behind is dropped. *)
Definition or_drop {A} (pid : nat) (p : Recovers A) : Recovers A :=
  r ← p;
  match r with
  | Ok _ => Done r
  | _ => _ ← Mpv.shutdown pid; Done r
  end.

Definition finish_player_restart (snapshot : PlaybackSessionSnapshot) (should_resume : bool) (next_pid : nat) : Recovers nat :=
  _ ←? or_drop next_pid (
    s ← state;
    _ ←? restart_failed (Mpv.set_gapless next_pid (s_is_gapless s));
    restart_failed (apply_snapshot_to_process next_pid snapshot should_resume (s_playback_rate s)));
  _ ← replace_process next_pid;
  _ ← update (recovered_state snapshot should_resume);
  Done (Ok next_pid).

Definition reset_reapplied_rate_after_failed_restart {A} (result : outcome RecoveryFailure A) : Recovers A :=
  match result with
  | Err failure =>
      cleaned ← reset_adaptive_for_recovery;
      Done (Err match cleaned with
                | Err _ => mkRecovery (recovery_code failure) (recovery_public_message (recovery_code failure))
                | _ => failure
                end)
  | r => Done r
  end.

Definition restart_player (snapshot : PlaybackSessionSnapshot) (should_resume : bool) : Recovers nat :=
  next_pid ←? restart_failed start_player;
  _ ←? or_drop next_pid (
    if has_adaptive setup then
      restart_failed (on_adaptive (apply_source_sample_rate
        (v ← Lifecycle.source snapshot; sample_rate_hz (source_format (from_playback_source v)))))
    else Done (Ok tt));
  result ← finish_player_restart snapshot should_resume next_pid;
  reset_reapplied_rate_after_failed_restart result.

Definition apply_recovery_transition (a : PlaybackLifecycleAction) : Recovers nat :=
  match a with
  | RestartPlayer snapshot should_resume =>
      if has_starter setup then restart_player snapshot should_resume
      else Done (Err (internal_failure "mpv-restart-unavailable"))
  | SurfaceActionableError e => Done (Err (mkRecovery (code e) (message e)))
  | _ => Done (Err (internal_failure "mpv-recovery-transition-invalid"))
  end.

Definition try_recover_after_player_exit : Recovers nat :=
  '(snapshot, should_resume) ←? interrupted_session_snapshot;
  _ ←? reset_adaptive_for_recovery;
  t ← locked LIFECYCLE (act (λ s, let '(t, l) := unexpected_player_exit snapshot should_resume (lifecycle s) in (t, put_lifecycle l s)));
  apply_recovery_transition (action t).

Definition lifecycle_failure_state (f : RecoveryFailure) (s : PlaybackSessionState) : PlaybackSessionState :=
  set_error (Some (mkStateError (recovery_code f) (recovery_message f))) (set_status ErrorStatus s).

(** The process whose events are read from now on, when there is a new one. *)
Definition recover_after_player_exit : prog Shared dcall (option nat) :=
  r ← try_recover_after_player_exit;
  match r with
  | Ok pid => Done (Some pid)
  | Err failure => _ ← update (lifecycle_failure_state failure); Done None
  | _ => Done None
  end.

(** ** Unplugged devices *)

Definition refresh_direct_output_device : prog Shared dcall unit :=
  if negb (has_output_devices setup) then Done tt
  else
    s ← state;
    if negb (bool_decide (s_output_mode s = DirectAlsa) && negb (is_disconnected_issue (s_output_device_issue s))) then Done tt
    else
      observed ← locked CATALOG refresh_catalog;
      match observed with
      | Ok (devices, Some disconnected) =>
          _ ← with_process (λ pid, set_paused pid true);
          _ ← update (disconnected_state devices disconnected);
          Done tt
      | Ok (devices, None) =>
          s ← state;
          if bool_decide (s_available_output_devices s = devices) then Done tt
          else _ ← update (set_available_output_devices devices); Done tt
      | _ => Done tt
      end.

(** ** The loop *)

(** What the thread keeps between events: the process it listens to, when it last
    looked at the path and the devices, and the Live Radio it follows. *)
Record EventThread := mkThread {
  events : nat;
  last_path_refresh : Z;
  last_output_device_refresh : Z;
  live : LiveReconnectState
}.

Definition dispatch_regular_playback_event (e : MpvEvent) (t : EventThread) : prog Shared dcall EventThread :=
  _ ← report_load_timing e;
  match e with
  | LoadBoundary revision =>
      l ← handle_load_boundary revision (live t);
      Done (mkThread (events t) (last_path_refresh t) (last_output_device_refresh t) l)
  | _ =>
      l ← (if is_stable_playback_event e then handle_live_stable_event (live t) else Done (live t));
      '(reconnecting, l) ← (if is_reconnectable_live_interruption e then start_live_reconnect l else Done (false, l));
      if reconnecting : bool then Done (mkThread (events t) (last_path_refresh t) (last_output_device_refresh t) l)
      else
        _ ← (match e with Time seconds => append_next_source_near_end seconds | _ => Done tt end);
        _ ← (match e with Decoder d => apply_adaptive_decoder_rate (sample_rate_hz (decoder_format d)) | _ => Done tt end);
        trigger ← (match e with EndedEvent => g ← ended_load_trigger; Done (Some g) | _ => Done None end);
        refreshed ← process_mpv_event e (last_path_refresh t);
        path ← (if refreshed : bool then call Now else Done (last_path_refresh t));
        _ ← (match trigger with Some g => time_load_now g | None => Done tt end);
        Done (mkThread (events t) path (last_output_device_refresh t) l)
  end.

Definition dispatch_playback_event (e : MpvEvent) (t : EventThread) : prog Shared dcall EventThread :=
  match e with
  | ExitedUnexpectedly _ =>
      next_events ← recover_after_player_exit;
      match next_events with
      | Some pid =>
          _ ← time_load_now Recovery;
          Done (mkThread pid (last_path_refresh t) (last_output_device_refresh t) (live t))
      | None => Done t
      end
  | _ => dispatch_regular_playback_event e t
  end.

(** Whether the loop goes on. *)
Definition receive_playback_event (t : EventThread) : prog Shared dcall (option EventThread) :=
  r ← call (Receive (events t));
  match r with
  | Event e => t ← dispatch_playback_event e t; Done (Some t)
  | NoEvent => Done (Some t)
  | ChannelClosed => Done None
  end.

(** [n] turns of the loop: it ends earlier on a shutdown or a closed channel. *)
Fixpoint run_playback_event_loop (n : nat) (t : EventThread) : prog Shared dcall unit :=
  match n with
  | O => Done tt
  | S n =>
      ended ← read is_shutdown;
      if ended : bool then Done tt
      else
        received ← receive_playback_event t;
        match received with
        | None => Done tt
        | Some t =>
            l ← poll_live_reconnect (live t);
            now ← call Now;
            if OUTPUT_DEVICE_REFRESH_INTERVAL <=? elapsed_since (last_output_device_refresh t) now then
              _ ← refresh_direct_output_device;
              now ← call Now;
              run_playback_event_loop n (mkThread (events t) (last_path_refresh t) now l)
            else run_playback_event_loop n (mkThread (events t) (last_path_refresh t) (last_output_device_refresh t) l)
        end
  end.

(** The event thread from its start. *)
Definition event_thread (n : nat) (pid : nat) : prog Shared dcall unit :=
  path ← call Now;
  devices ← call Now;
  run_playback_event_loop n (mkThread pid path devices default_live).
End Events.
