(* ===== verification/CommandSafety.v ===== *)
(** What every command of the Playback Session keeps (desktop/core/src/playback.rs):
    the session stays one the renderers and mpv can be given, the Queue stays
    well-formed, no command panics, and each takes its locks in order. *)

From S2P Require Import Prelude Text Float64 Values Prog PlayQueue Telemetry OutputDevices Adaptive Lifecycle LoadTiming Processing ProcessingSafety Session Desktop Mpv Controller.

#[local] Arguments of_Z : simpl never.

(** ** Numbers *)

(** A position that may be kept. *)
Definition time_ok (t : f64) : Prop := is_finite t = true ∧ flt t (of_Z 0) = false.

Lemma zero_time : time_ok (of_Z 0).
Proof. by vm_compute. Qed.

Lemma fle_not_flt t : fle (of_Z 0) t = true → flt t (of_Z 0) = false.
Proof. change (of_Z 0) with (S754_zero false). by destruct t as [s|[]| |[] m e]. Qed.

Lemma clamp_unit x : is_nan x = false → ranged (of_Z 0) (of_Z 1) (clamp (of_Z 0) (of_Z 1) x).
Proof.
  intros Hx. unfold clamp. destruct (flt x (of_Z 0)) eqn:H0; [by vm_compute|].
  destruct (flt (of_Z 1) x) eqn:H1; [by vm_compute|]. split_and!.
  - revert H0 H1. by destruct x as [s|[]| |s m e].
  - apply not_flt_fle; [done|by vm_compute|done].
  - apply not_flt_fle; [by vm_compute|done|done].
Qed.

Lemma percent_not_nan x : is_nan x = false → is_nan (fdiv x (of_Z 100)) = false.
Proof.
  replace (of_Z 100) with (S754_finite false 7036874417766400 (-46)) by (vm_compute; reflexivity).
  apply fdiv_not_nan.
Qed.

(** ** The rules, for results that are only known not to be a panic *)

Definition calm {E A} (r : outcome E A) : Prop := r ≠ Panic.

Lemma returns_calm {E A} (r : outcome E A) : returns r → calm r.
Proof. by destruct r. Qed.

Section Calm.
Context {S : Type} {C : Type → Type} {reply_ok : ∀ B, C B → B → Prop} {I : S → Prop}.

Abbreviation Safe n p Q := (safe reply_ok I n p Q).
Abbreviation Calm n p := (safe reply_ok I n p calm).
Abbreviation Quiet n p := (safe reply_ok I n p (λ _, True)).

Lemma calm_quiet {E A} n (p : prog S C (outcome E A)) : Calm n p → Quiet n p.
Proof. by apply safe_weaken. Qed.

Lemma calm_then {E A B} n (p : prog S C (outcome E A)) (f : A → prog S C (outcome E B)) :
  Calm n p → (∀ a, Calm n (f a)) → Calm n (and_then p f).
Proof.
  intros Hp Hf. apply (safe_and_then reply_ok I n p f (λ _, True)); [|auto].
  eapply safe_weaken; [done| |exact Hp]. by intros [].
Qed.

Lemma calm_bind {E A B} n (p : prog S C (outcome E A)) (f : outcome E A → prog S C B) Q :
  Calm n p → (∀ r, calm r → Safe n (f r) Q) → Safe n (p ≫= f) Q.
Proof. apply safe_bind. Qed.

Lemma silent_bind {A B} n (p : prog S C A) (f : A → prog S C B) Q :
  Quiet n p → (∀ r, Safe n (f r) Q) → Safe n (p ≫= f) Q.
Proof. intros Hp Hf. eapply safe_bind; [exact Hp|auto]. Qed.

Lemma calm_with_err {E F A} n (f : E → F) (p : prog S C (outcome E A)) : Calm n p → Calm n (with_err f p).
Proof. intros Hp. eapply safe_bind; [exact Hp|]. intros [] Hr; by apply safe_done. Qed.

Lemma bind_calm {E A B} (m : outcome E A) (f : A → outcome E B) : calm m → (∀ a, m = Ok a → calm (f a)) → calm (m ≫= f).
Proof. destruct m; simpl; auto; done. Qed.

Lemma map_err_calm {E F A} (f : E → F) (m : outcome E A) : calm m → calm (map_err f m).
Proof. by destruct m. Qed.

Lemma ok_or_calm {E A} (o : option A) (e : E) : calm (ok_or o e).
Proof. by destruct o. Qed.

Lemma calm_call {E A} n (c : C (outcome E A)) : (∀ r, reply_ok _ c r → returns r) → Calm n (call c).
Proof. intros H. apply safe_call. intros r Hr. by apply returns_calm, H. Qed.

Lemma done_calm {E A} n (r : outcome E A) : calm r → Calm n (Done r).
Proof. apply safe_done. Qed.

(** A result whose value, when there is one, satisfies [P]. *)
Definition giving {E A} (P : A → Prop) (r : outcome E A) : Prop := calm r ∧ ∀ a, r = Ok a → P a.

Lemma calm_giving {E A} n (p : prog S C (outcome E A)) : Calm n p → Safe n p (giving (λ _, True)).
Proof. apply safe_weaken; [done|]. by intros a Ha. Qed.

Lemma giving_then {E A B} n (p : prog S C (outcome E A)) (f : A → prog S C (outcome E B)) P R :
  Safe n p (giving P) → (∀ a, P a → Safe n (f a) (giving R)) → Safe n (and_then p f) (giving R).
Proof.
  intros Hp Hf. apply (safe_and_then reply_ok I n p f P); [|auto].
  eapply safe_weaken; [done| |exact Hp]. intros [a|e| |] [Hr Ha]; [by apply Ha|by split|done|by split].
Qed.

End Calm.

Section World.
Context {SJ : SerdeJson} {SF : SourceFormat}.

(** ** What the world may answer, and what is kept *)

Definition adaptive_reply_ok B (c : acall B) : B → Prop :=
  match c in acall B return B → Prop with
  | ForcedRate => λ r, returns r
  | MarkerRequired => λ r, returns r
  | EnsureAvailable | SetForcedRate _ | MarkRequired | ClearMarker => λ r, returns r
  end.

(** Calls come back, and a number of mpv's is a number. *)
Definition reply_ok B (c : dcall B) : B → Prop :=
  match c in dcall B return B → Prop with
  | Command _ _ _ => λ r, returns r ∧ ∀ v x, r = Ok v → as_f64 v = Some x → is_nan x = false
  | StartPlayer => λ r, returns r
  | Acquire _ | Release => λ r, returns r
  | ObservePath => λ r, returns r
  | AskAdaptive c => adaptive_reply_ok _ c
  | _ => λ _, True
  end.

Record session_ok (s : PlaybackSessionState) : Prop := {
  session_time : time_ok (s_current_time s);
  session_volume : ranged (of_Z 0) (of_Z 1) (s_volume s);
  session_rate : ranged MIN_PLAYBACK_RATE MAX_PLAYBACK_RATE (s_playback_rate s);
  session_device : s_output_mode s = DirectAlsa → is_Some (s_selected_output_device s)
}.

Record playback_ok (s : Shared) : Prop := {
  ok_session : session_ok (session s);
  ok_queue : PlayQueue.wf (queue s)
}.

Lemma initial_ok pid : playback_ok (initial pid).
Proof. split; [|apply PlayQueue.wf_empty]. split; [by vm_compute..|]. done. Qed.

Abbreviation Safe n p Q := (safe reply_ok playback_ok n p Q).
Abbreviation Calm n p := (safe reply_ok playback_ok n p calm).
Abbreviation Quiet n p := (safe reply_ok playback_ok n p (λ _, True)).

(** *** Actions that leave the session and the Queue alone *)

Lemma other_act {B} n (op : Shared → B * Shared) (Q : B → Prop) :
  (∀ s, session (op s).2 = session s ∧ queue (op s).2 = queue s) → (∀ s, Q (op s).1) → Safe n (act op) Q.
Proof.
  intros H HQ. apply safe_act. intros s [H1 H2]. destruct (H s) as [E1 E2]. split; [|apply HQ].
  split; [by rewrite E1|by rewrite E2].
Qed.

Lemma other_write n (f : Shared → Shared) : (∀ s, session (f s) = session s ∧ queue (f s) = queue s) → Quiet n (write f).
Proof. intros H. by apply other_act. Qed.

Lemma quiet_read {B} n (f : Shared → B) : Quiet n (read f).
Proof. by apply safe_read. Qed.

Lemma quiet_call {B} n (c : dcall B) : Quiet n (call c).
Proof. by apply safe_call. Qed.

(** *** Changes of the session *)

Definition keeps_session (f : PlaybackSessionState → PlaybackSessionState) : Prop := ∀ s, session_ok s → session_ok (f s).

(** A change that leaves the checked fields alone. *)
Definition untouched (f : PlaybackSessionState → PlaybackSessionState) : Prop := ∀ s,
  s_current_time (f s) = s_current_time s ∧ s_volume (f s) = s_volume s ∧ s_playback_rate (f s) = s_playback_rate s ∧
  s_output_mode (f s) = s_output_mode s ∧ s_selected_output_device (f s) = s_selected_output_device s.

Lemma untouched_keeps f : untouched f → keeps_session f.
Proof. intros H s [H1 H2 H3 H4]. destruct (H s) as (E1 & E2 & E3 & E4 & E5). split; by rewrite ?E1, ?E2, ?E3, ?E4, ?E5. Qed.

Lemma act_ok n (f : Shared → Shared) {A} : (∀ s, session (f s) = session s ∧ queue (f s) = queue s) →
  ∀ a : A, Calm n (act (λ s, (Ok (E := str) a, f s))).
Proof. intros H a. by apply other_act. Qed.

Lemma with_process_safe {A} n (p : nat → prog Shared dcall A) Q :
  n = PROCESS → (∀ pid, Safe (PROCESS + 1) (p pid) Q) → Safe n (with_process p) Q.
Proof. intros -> Hp. apply safe_locked; [done|]. apply silent_bind; [apply quiet_read|]. intros pid. apply Hp. Qed.
End World.

(** The tactic: one rule per step of a program. *)
Create HintDb safety.
Ltac safety_leaf :=
  solve [ done
        | match goal with H : calm Panic |- _ => exfalso; exact (H eq_refl) end
        | eauto with safety
        | apply calm_quiet; eauto with safety
        | apply calm_call; cbn; tauto
        | apply done_calm; eauto using ok_or_calm, map_err_calm with safety
        | apply quiet_call
        | apply quiet_read
        | apply other_write; intros; by split
        | apply act_ok; intros; by split
        | apply other_act; intros; repeat case_match; by split
        | apply done_calm; repeat case_match; done ].
Ltac safety_step :=
  match goal with
  | |- safe _ _ _ (and_then _ _) calm => apply calm_then; [|intros ?]
  | |- safe _ _ _ (with_err _ _) calm => apply calm_with_err
  | |- safe _ _ _ (with_process _) _ => apply with_process_safe; [reflexivity|intros ?]
  | |- safe _ _ _ (locked ?l _) _ => apply safe_locked; [unfold PROCESS, ADAPTIVE, CATALOG, QUEUE, LIFECYCLE, STATE in *; lia|]
  | |- safe _ _ _ ((match ?x with _ => _ end) ≫= _) _ => destruct x eqn:?
  | |- safe _ _ _ (?p ≫= _) _ =>
      match type of p with
      | prog _ _ (outcome _ _) => apply calm_bind; [|intros ? ?]
      | _ => apply silent_bind; [|intros ?]
      end
  | |- safe _ _ _ (match ?x with _ => _ end) _ => destruct x eqn:?; subst
  end.
Ltac safety := repeat first [safety_leaf | safety_step].

Ltac untouched := apply untouched_keeps; intros ?; split_and!; reflexivity.
#[export] Hint Extern 1 (_ ≤ _)%nat => unfold PROCESS, ADAPTIVE, CATALOG, QUEUE, LIFECYCLE, STATE; lia : safety.
#[export] Hint Extern 6 (keeps_session _) => untouched : safety.

Abbreviation Safe n p Q := (safe reply_ok playback_ok n p Q).
Abbreviation Calm n p := (safe reply_ok playback_ok n p calm).
Abbreviation Quiet n p := (safe reply_ok playback_ok n p (λ _, True)).

Section Commands.
Context {SJ : SerdeJson} {SF : SourceFormat} {FT : FloatText} (setup : Setup).

(** ** mpv *)

Lemma command_safe n pid c b : Calm n (command_with_event_boundary pid c b).
Proof. apply calm_call. by intros r [Hr _]. Qed.
#[local] Hint Resolve command_safe : safety.

Lemma ignored_safe {A} n (p : Desktop A) : Calm n p → Calm n (ignored p).
Proof. intros Hp. unfold ignored. safety. Qed.

Lemma set_property_safe n pid name v : Calm n (set_property pid name v).
Proof. apply ignored_safe, command_safe. Qed.
#[local] Hint Resolve set_property_safe : safety.

Lemma clear_appended_safe n pid : Quiet n (clear_appended pid).
Proof. unfold clear_appended. safety. Qed.
#[local] Hint Resolve clear_appended_safe : safety.

Lemma load_safe n pid url : Calm n (Mpv.load pid url).
Proof. unfold Mpv.load. apply silent_bind; [safety|]. intros _. apply ignored_safe, command_safe. Qed.
Lemma load_at_safe n pid url x : Calm n (load_at pid url x).
Proof. unfold load_at. apply silent_bind; [safety|]. intros _. apply ignored_safe, command_safe. Qed.
Lemma load_boundary_safe n pid url r : Calm n (load_with_event_boundary pid url r).
Proof. unfold load_with_event_boundary. apply silent_bind; [safety|]. intros _. apply ignored_safe, command_safe. Qed.
Lemma stop_safe n pid : Calm n (Mpv.stop pid).
Proof. unfold Mpv.stop. apply silent_bind; [safety|]. intros _. apply ignored_safe, command_safe. Qed.
Lemma append_safe n pid url : Calm n (append pid url).
Proof. unfold append, command. safety. Qed.
Lemma seek_safe n pid x : Calm n (Mpv.seek pid x).
Proof. apply ignored_safe, command_safe. Qed.
Lemma set_paused_safe n pid b : Calm n (set_paused pid b).
Proof. apply set_property_safe. Qed.
Lemma set_mpv_volume_safe n pid x : Calm n (set_mpv_volume pid x).
Proof. apply set_property_safe. Qed.
Lemma set_speed_safe n pid x : Calm n (set_speed pid x).
Proof. apply set_property_safe. Qed.
Lemma set_gapless_mpv_safe n pid b : Calm n (Mpv.set_gapless pid b).
Proof. apply set_property_safe. Qed.
Lemma shutdown_mpv_safe n pid : Quiet n (Mpv.shutdown pid).
Proof. unfold Mpv.shutdown. safety. Qed.
#[local] Hint Resolve load_safe load_at_safe load_boundary_safe stop_safe append_safe seek_safe set_paused_safe set_mpv_volume_safe
  set_speed_safe set_gapless_mpv_safe shutdown_mpv_safe : safety.

Lemma observe_properties_safe n pid : Calm n (observe_properties pid).
Proof. unfold observe_properties, command. safety. apply ignored_safe, command_safe. Qed.

Lemma all_ok_calm rs : Forall calm rs → calm (all_ok rs).
Proof. induction 1 as [|[] rs Hr _ IH]; cbn; done. Qed.

Lemma restore_output_safe n pid : Calm n (restore_system_output pid).
Proof.
  unfold restore_system_output. safety. apply done_calm, all_ok_calm. by repeat constructor.
Qed.
#[local] Hint Resolve observe_properties_safe restore_output_safe : safety.

Lemma give_back_output_safe n pid e : Calm n (give_back_output pid e).
Proof. unfold give_back_output. safety. Qed.
#[local] Hint Resolve give_back_output_safe : safety.

Lemma configure_output_safe n pid c : Calm n (configure_output pid c).
Proof. unfold configure_output. safety. Qed.

Lemma observe_format_safe n pid : Calm n (observe_output_format pid).
Proof. unfold observe_output_format, command. safety. Qed.
#[local] Hint Resolve configure_output_safe observe_format_safe : safety.

Lemma start_player_safe n : Calm n start_player.
Proof. unfold start_player. safety. Qed.
#[local] Hint Resolve start_player_safe : safety.

(** What mpv applied has a volume that is a number. *)
Lemma apply_mpv_processing_safe n pid c :
  Safe n (Mpv.apply_processing pid c) (giving (λ a, is_nan (volume_percent a) = false)).
Proof.
  unfold Mpv.apply_processing, command, command_with_event_boundary.
  do 3 (eapply giving_then; [apply calm_giving, set_property_safe|intros _ _]).
  apply (giving_then n _ _ (λ v, ∀ x, as_f64 v = Some x → is_nan x = false)).
  { apply safe_call. intros r [Hr Hx]. split; [by apply returns_calm|]. intros v -> x. by apply Hx. }
  intros v Hv. apply (giving_then n _ _ (λ x, is_nan x = false)).
  { apply safe_done. destruct (as_f64 v) as [x|]; (split; [done|]); [|done]. intros y [= <-]. by apply Hv. }
  intros x Hx. eapply giving_then; [apply calm_giving; safety|intros m _].
  eapply giving_then; [apply calm_giving; apply done_calm; cbn; by repeat case_match|intros mode _].
  eapply giving_then; [apply calm_giving; safety|intros fs _].
  eapply giving_then; [apply calm_giving; safety|intros filters _].
  apply safe_done. split; [done|]. by intros a [= <-].
Qed.

(** ** Adaptive System Rate *)

Abbreviation AdaptiveCalm n p := (safe (S := AdaptiveSystemRateState) adaptive_reply_ok (λ _, True) n p calm).

Lemma set_forced_safe n r : AdaptiveCalm n (set_forced r).
Proof. by apply safe_act. Qed.
#[local] Hint Resolve set_forced_safe : safety.

Lemma reset_force_rate_safe n : AdaptiveCalm n reset_force_rate.
Proof. unfold reset_force_rate. safety. Qed.
#[local] Hint Resolve reset_force_rate_safe : safety.

Lemma ensure_available_safe n : AdaptiveCalm n ensure_available.
Proof. unfold ensure_available. safety. Qed.
Lemma enable_safe n : AdaptiveCalm n enable.
Proof. unfold enable. safety. Qed.
Lemma apply_rate_safe n r : AdaptiveCalm n (apply_source_sample_rate r).
Proof. unfold apply_source_sample_rate. apply silent_bind; [by apply safe_read|]. intros s. safety. Qed.
Lemma disable_safe n : AdaptiveCalm n disable.
Proof. unfold disable. apply silent_bind; [by apply safe_read|]. intros s. safety. Qed.
Lemma reset_for_recovery_safe n : AdaptiveCalm n reset_for_recovery.
Proof. unfold reset_for_recovery. apply silent_bind; [by apply safe_read|]. intros s. safety. Qed.

Lemma on_adaptive_safe {E A} n (p : prog AdaptiveSystemRateState acall (outcome E A)) :
  (n ≤ ADAPTIVE)%nat → (∀ m, AdaptiveCalm m p) → Calm n (on_adaptive p).
Proof.
  intros Hn Hp. apply safe_locked; [done|]. eapply safe_zoom; [| | |apply Hp]; [done| |done].
  intros s t [H1 H2] _. by split.
Qed.

(** ** Steps the commands share *)

Lemma state_ok n : (n ≤ STATE)%nat → Safe n state session_ok.
Proof. intros Hn. apply safe_locked; [done|]. apply safe_read. by intros s [H _]. Qed.

Lemma state_safe n : (n ≤ STATE)%nat → Quiet n state.
Proof. intros Hn. by eapply safe_weaken, state_ok. Qed.

Lemma update_shared_ok n f : (n ≤ STATE)%nat → keeps_session f → Safe n (update_shared_state f) session_ok.
Proof.
  intros Hn Hf. apply safe_locked; [done|]. apply safe_act. intros s [H1 H2]. cbn. split; [split; [by apply Hf|done]|by apply Hf].
Qed.

Lemma update_safe n f : (n ≤ STATE)%nat → keeps_session f → Calm n (update f).
Proof.
  intros Hn Hf. unfold update. eapply safe_bind; [by apply update_shared_ok|]. intros s _. safety.
Qed.

Lemma queue_step_safe {A} n (m : M PlaybackQueueContext str A) :
  (∀ q, PlayQueue.wf q → PlayQueue.wf (m q).2 ∧ calm (m q).1) → Calm n (queue_step m).
Proof.
  intros Hm. apply safe_act. intros s [H1 H2]. destruct (Hm (queue s) H2) as [Hw Hc]. destruct (m (queue s)) as [o q]. by split; [split|].
Qed.

(** *** The Queue *)

Lemma parse_calm source : calm (PlayQueue.parse source).
Proof. unfold PlayQueue.parse. by destruct (from_value source). Qed.

Lemma find_identity_range wanted vs k : calm (find_identity wanted vs k) ∧
  ∀ i, find_identity wanted vs k = Ok (Some i) → (k ≤ i < k + length vs)%nat.
Proof.
  revert k. induction vs as [|v vs IH]; intros k; cbn [find_identity]; [done|].
  pose proof (parse_calm v) as Hv. destruct (PlayQueue.parse v) as [p|e| |]; cbn; try done.
  case_bool_decide; [split; [done|]; intros i [= <-]; cbn; lia|]. destruct (IH (S k)) as [H1 H2]. split; [done|].
  intros i Hi%H2. cbn. lia.
Qed.

Lemma align_safe source q : PlayQueue.wf q → PlayQueue.wf (align_to_source source q).2 ∧ calm (align_to_source source q).1.
Proof.
  intros Hq. unfold align_to_source. run_m. pose proof (parse_calm source) as Hs.
  destruct (PlayQueue.parse source) as [p|e| |]; cbn; try done.
  destruct (find_identity_range (identity p) (sources q) 0) as [H1 H2].
  destruct (find_identity (identity p) (sources q) 0) as [i|e| |]; cbn; try done. split; [|done]. split; cbn; [apply Hq|].
  intros j ->. destruct (H2 j eq_refl). lia.
Qed.

Lemma parse_all_calm vs : calm (parse_all vs).
Proof. induction vs as [|v vs IH]; cbn; [done|]. apply bind_calm; [apply parse_calm|done]. Qed.

Lemma sync_safe vs i q : PlayQueue.wf q → PlayQueue.wf (sync vs i q).2 ∧ calm (sync vs i q).1.
Proof.
  intros Hq. unfold sync. destruct (match i with Some j => _ | None => _ end) eqn:Hi; [done|]. run_m.
  pose proof (parse_all_calm vs) as Hp. destruct (parse_all vs) as [[]|e| |]; cbn; try done. split; [|done].
  split; cbn; [done|]. intros j ->. apply bool_decide_eq_false in Hi. lia.
Qed.

Lemma reset_order_safe {E} q : PlayQueue.wf q → PlayQueue.wf (@reset_order _ E q).2 ∧ calm (@reset_order _ E q).1.
Proof. intros Hq. split; [apply reset_order_wf, Hq|done]. Qed.

Lemma shuffle_safe random q : PlayQueue.wf q → PlayQueue.wf (shuffle random q).2 ∧ calm (shuffle random q).1.
Proof.
  intros Hq. pose proof (shuffle_cases random q (wf_current q Hq)) as H. destruct (shuffle random q) as [r q'].
  destruct H as (Hr & Hw & _). split; [done|by apply returns_calm].
Qed.

Lemma adjacent_calm q d wrap : PlayQueue.wf q → calm (adjacent_source q d wrap).
Proof.
  intros Hq. destruct (current_index q) as [c|] eqn:Hc; [|unfold adjacent_source; by rewrite Hc].
  destruct (position_current q c Hq Hc) as (p & Hp & _). by rewrite (adjacent_at q c p).
Qed.

Lemma adjacent_safe n d wrap : (n ≤ QUEUE)%nat → Calm n (adjacent d wrap).
Proof.
  intros Hn. apply safe_locked; [done|]. apply queue_step_safe. intros q Hq. split; [done|by apply adjacent_calm].
Qed.

Lemma align_queue_safe n source : (n ≤ QUEUE)%nat → Calm n (align_queue_to_source source).
Proof. intros Hn. apply safe_locked; [done|]. apply queue_step_safe. intros q. apply align_safe. Qed.

Lemma shuffle_queue_safe n : Calm n shuffle_queue.
Proof. unfold shuffle_queue. apply silent_bind; [apply quiet_call|]. intros r. apply queue_step_safe. intros q. apply shuffle_safe. Qed.

(** *** Changes of the session *)

Lemma keeps_id : keeps_session id.
Proof. by intros s. Qed.

Lemma keeps_comp f g : keeps_session f → keeps_session g → keeps_session (λ s, g (f s)).
Proof. intros Hf Hg s Hs. by apply Hg, Hf. Qed.

Lemma keeps_time t : time_ok t → keeps_session (set_current_time t).
Proof. intros Ht s [H1 H2 H3 H4]. by split. Qed.
Lemma keeps_volume v : ranged (of_Z 0) (of_Z 1) v → keeps_session (set_volume v).
Proof. intros Hv s [H1 H2 H3 H4]. by split. Qed.
Lemma keeps_rate r : ranged MIN_PLAYBACK_RATE MAX_PLAYBACK_RATE r → keeps_session (Session.set_playback_rate r).
Proof. intros Hv s [H1 H2 H3 H4]. by split. Qed.
Lemma keeps_mode m : m ≠ DirectAlsa → keeps_session (set_output_mode m).
Proof. intros Hm s [H1 H2 H3 H4]. by split. Qed.

Lemma set_error_state_keeps m : keeps_session (set_error_state m).
Proof. untouched. Qed.
Lemma set_playing_source_keeps source f : keeps_session (set_playing_source source f).
Proof.
  intros s [H1 H2 H3 H4]. unfold set_playing_source. case_match; split; try done; exact zero_time.
Qed.
Lemma update_playing_keeps source b : keeps_session (update_playing_state source b).
Proof. destruct b; [apply set_playing_source_keeps|]. untouched. Qed.
Lemma restore_snapshot_keeps snapshot : valid snapshot → keeps_session (restore_snapshot_state snapshot).
Proof. intros [Ht Hv _] s [H1 H2 H3 H4]. by split. Qed.
Lemma stopped_keeps : keeps_session stopped_state.
Proof. intros s [H1 H2 H3 H4]. by split. Qed.
Lemma publish_system_keeps : keeps_session publish_system_output.
Proof. intros s [H1 H2 H3 H4]. by split. Qed.
Lemma publish_adaptive_keeps : keeps_session publish_adaptive_system_output.
Proof. intros s [H1 H2 H3 H4]. by split. Qed.
Lemma direct_output_keeps device f : keeps_session (direct_output_state device f).
Proof. intros s [H1 H2 H3 H4]. by split. Qed.
Lemma status_with_source_keeps st : keeps_session (set_status_with_source st).
Proof. apply untouched_keeps. intros s. unfold set_status_with_source. destruct (s_source s); split_and!; reflexivity. Qed.
Lemma disconnected_keeps ds d : keeps_session (disconnected_state ds d).
Proof.
  intros s Hs. unfold disconnected_state.
  apply (keeps_comp (λ s, set_status_with_source Paused (set_available_output_devices ds s)) (set_output_device_issue _)); [|untouched|done].
  apply (keeps_comp (set_available_output_devices ds)); [untouched|apply status_with_source_keeps].
Qed.
Lemma output_failure_keeps previous attempted mode : (mode = DirectAlsa → is_Some (s_selected_output_device previous)) →
  keeps_session (output_failure_state previous attempted mode).
Proof.
  intros Hm s [H1 H2 H3 H4]. unfold output_failure_state, set_status_with_source. cbn.
  destruct (s_source s); split; try done; cbn; intros ->; by rewrite bool_decide_eq_true_2 by done; apply Hm.
Qed.
Lemma applied_processing_keeps p a : is_nan (volume_percent a) = false → keeps_session (applied_processing p a).
Proof. intros Ha s [H1 H2 H3 H4]. split; try done. by apply clamp_unit, percent_not_nan. Qed.

#[local] Hint Resolve ensure_available_safe enable_safe apply_rate_safe disable_safe reset_for_recovery_safe on_adaptive_safe
  state_safe adjacent_safe align_queue_safe shuffle_queue_safe : safety.
#[local] Hint Resolve set_error_state_keeps set_playing_source_keeps update_playing_keeps stopped_keeps publish_system_keeps
  publish_adaptive_keeps direct_output_keeps status_with_source_keeps disconnected_keeps zero_time : safety.
#[local] Hint Resolve update_safe : safety.

Lemma start_load_timer_safe n r t g : Quiet n (start_load_timer r t g).
Proof. unfold start_load_timer, report_load_line. safety. Qed.
Lemma mark_player_stable_safe n : (n ≤ LIFECYCLE)%nat → Quiet n mark_player_stable.
Proof. intros Hn. unfold mark_player_stable. safety. Qed.
Lemma advance_command_revision_safe n : Quiet n advance_command_revision.
Proof. unfold advance_command_revision. safety. Qed.
Lemma next_load_revision_safe n : Quiet n next_load_revision.
Proof. unfold next_load_revision. safety. Qed.
#[local] Hint Resolve start_load_timer_safe mark_player_stable_safe advance_command_revision_safe next_load_revision_safe : safety.

Lemma fail_safe m : Calm PROCESS (fail m).
Proof. unfold fail. safety. Qed.
#[local] Hint Resolve fail_safe : safety.

Lemma or_fail_native_safe {A} (r : outcome str A) k : calm r → (∀ a, r = Ok a → Calm PROCESS (k a)) → Calm PROCESS (or_fail_native r k).
Proof. intros Hr Hk. unfold or_fail_native, fail_native. safety. Qed.

(** *** Fades *)

Lemma active_fade_safe : Quiet PROCESS active_fade.
Proof. unfold active_fade. safety. Qed.
Lemma ramp_volume_safe from to ms : Quiet PROCESS (ramp_volume from to ms).
Proof.
  unfold ramp_volume. set (steps := Z.max 1 _). generalize (seq 1 (Z.to_nat steps)). intros ks.
  induction ks as [|k ks IH]; cbn [ramp_steps]; safety.
Qed.
#[local] Hint Resolve active_fade_safe ramp_volume_safe : safety.
Lemma fade_out_safe : Quiet PROCESS fade_out.
Proof. unfold fade_out. safety. Qed.
Lemma fade_in_safe : Quiet PROCESS fade_in.
Proof. unfold fade_in. safety. Qed.
Lemma restore_volume_safe : Quiet PROCESS restore_volume.
Proof. unfold restore_volume. safety. Qed.
#[local] Hint Resolve fade_out_safe fade_in_safe restore_volume_safe : safety.

(** *** Adaptive System Rate *)

Lemma apply_rate_hz_safe r : Calm PROCESS (apply_adaptive_rate_hz setup r).
Proof. unfold apply_adaptive_rate_hz. safety. Qed.
#[local] Hint Resolve apply_rate_hz_safe : safety.
Lemma apply_source_rate_safe source : Calm PROCESS (apply_adaptive_source_rate setup source).
Proof. unfold apply_adaptive_source_rate. safety. Qed.
Lemma reset_adaptive_safe : Quiet PROCESS (reset_adaptive_after_failure setup).
Proof. unfold reset_adaptive_after_failure. safety. Qed.
Lemma disable_adaptive_safe : Calm PROCESS (disable_adaptive_system_rate setup).
Proof. unfold disable_adaptive_system_rate. safety. Qed.
Lemma enable_controller_safe : Calm PROCESS (enable_adaptive_controller setup).
Proof. unfold enable_adaptive_controller. safety. apply on_adaptive_safe; [auto with safety|]. intros m. safety. Qed.
Lemma configure_system_safe : Calm PROCESS configure_system_output.
Proof. unfold configure_system_output. safety. apply ignored_safe. safety. Qed.
#[local] Hint Resolve apply_source_rate_safe reset_adaptive_safe disable_adaptive_safe enable_controller_safe configure_system_safe : safety.
Lemma fail_adaptive_setup_safe : Calm PROCESS (fail_adaptive_setup setup).
Proof. unfold fail_adaptive_setup, fail_native. safety. Qed.
#[local] Hint Resolve fail_adaptive_setup_safe : safety.
Lemma enable_adaptive_safe : Calm PROCESS (enable_adaptive_system_rate setup).
Proof. unfold enable_adaptive_system_rate, adaptive_source_rate_hz. safety. Qed.
#[local] Hint Resolve enable_adaptive_safe : safety.

(** *** Playing *)

Lemma playback_url_calm source : calm (Session.playback_url source).
Proof.
  unfold Session.playback_url. apply bind_calm; [apply parse_calm|]. intros p _. unfold PlayQueue.playback_url. by case_match.
Qed.
#[local] Hint Resolve playback_url_calm : safety.
Lemma start_playback_safe source b : Calm PROCESS (start_playback source b).
Proof. unfold start_playback. safety. Qed.
#[local] Hint Resolve start_playback_safe : safety.
Lemma play_source_safe current source b : Calm PROCESS (play_source setup current source b).
Proof. unfold play_source, or_fail_native, fail_native. safety. Qed.
#[local] Hint Resolve play_source_safe : safety.
Lemma play_safe source : Calm PROCESS (play setup source).
Proof. unfold play. safety. Qed.
#[local] Hint Resolve play_safe : safety.
Lemma pause_safe : Calm PROCESS pause.
Proof. unfold pause, or_fail_native, fail_native. safety. Qed.
Lemma stop_session_safe : Calm PROCESS Controller.stop.
Proof. unfold Controller.stop, or_fail_native, fail_native. safety. Qed.
#[local] Hint Resolve pause_safe stop_session_safe : safety.
Lemma toggle_play_safe : Calm PROCESS (toggle_play setup).
Proof. unfold toggle_play. safety. Qed.
Lemma seek_session_safe t : Calm PROCESS (Controller.seek t).
Proof.
  unfold Controller.seek, or_fail_native, fail_native. safety. apply update_safe; [auto with safety|]. apply keeps_time. bool_to_prop. by split.
Qed.
Lemma apply_processing_safe p c : Calm PROCESS (Controller.apply_processing p c).
Proof.
  unfold Controller.apply_processing. eapply safe_bind.
  { apply with_process_safe; [done|]. intros pid. apply apply_mpv_processing_safe. }
  intros r [Hr Ha]. unfold or_fail_native, fail_native. safety. apply update_safe; [auto with safety|]. by apply applied_processing_keeps, Ha.
Qed.
Lemma set_playback_rate_safe r : Calm PROCESS (Controller.set_playback_rate r).
Proof.
  unfold Controller.set_playback_rate, or_fail_native, fail_native. safety. apply update_safe; [auto with safety|]. apply keeps_rate.
  bool_to_prop. split; tauto.
Qed.
Lemma set_gapless_safe b : Calm PROCESS (Controller.set_gapless b).
Proof. unfold Controller.set_gapless, or_fail_native, fail_native. safety. Qed.
Lemma stop_after_safe b : Calm PROCESS (Controller.set_stop_after_current b).
Proof. unfold Controller.set_stop_after_current. safety. Qed.
Lemma set_fade_safe ms : Calm PROCESS (set_transition_fade_ms ms).
Proof. unfold set_transition_fade_ms. safety. Qed.
Lemma cycle_repeat_safe : Calm PROCESS cycle_repeat_mode.
Proof. unfold cycle_repeat_mode. safety. Qed.
Lemma toggle_shuffle_safe : Calm PROCESS toggle_shuffle.
Proof. unfold toggle_shuffle. safety. apply queue_step_safe. intros q. apply reset_order_safe. Qed.
Lemma sync_queue_safe vs i : Calm PROCESS (sync_queue_context vs i).
Proof. unfold sync_queue_context. safety; apply queue_step_safe; intros q; [apply sync_safe|apply align_safe]. Qed.
Lemma navigate_safe d : Calm PROCESS (navigate setup d).
Proof. unfold navigate. safety. Qed.

(** *** Output Devices *)

Lemma catalog_step_safe {E A} n (m : M OutputDeviceCatalog E A) : (∀ c, calm (m c).1) → Calm n (catalog_step m).
Proof. intros Hm. apply other_act; intros s; [by destruct (m (catalog s))|]. specialize (Hm (catalog s)). by destruct (m (catalog s)). Qed.

Lemma refresh_calm listed c : calm (refresh listed c).1.
Proof. unfold refresh, list_devices. run_m. destruct listed; run_m; [done|]. by repeat case_match. Qed.

Lemma select_calm id listed c : calm (select id listed c).1.
Proof.
  unfold select, list_devices. destruct (is_raw_hardware_id id); [|done]. cbn [negb]. run_m. destruct listed; run_m; [done|].
  by repeat case_match.
Qed.

Lemma refresh_catalog_safe n : Calm n refresh_catalog.
Proof.
  unfold refresh_catalog. apply silent_bind; [safety|]. intros listed. apply calm_bind; [apply catalog_step_safe; intros; apply refresh_calm|].
  intros r Hr. safety.
Qed.
#[local] Hint Resolve refresh_catalog_safe : safety.
Lemma refresh_output_catalog_safe : Calm PROCESS (refresh_output_catalog setup).
Proof. unfold refresh_output_catalog. safety. Qed.
#[local] Hint Resolve refresh_output_catalog_safe : safety.
Lemma publish_devices_safe ds : Calm PROCESS (publish_available_output_devices ds).
Proof.
  apply update_safe; [auto with safety|]. apply untouched_keeps. intros s. cbn. case_match; split_and!; reflexivity.
Qed.
Lemma pause_after_failure_safe : Quiet PROCESS pause_after_output_failure.
Proof. unfold pause_after_output_failure. safety. Qed.
#[local] Hint Resolve publish_devices_safe pause_after_failure_safe : safety.
Lemma refresh_output_devices_safe : Calm PROCESS (refresh_output_devices setup).
Proof. unfold refresh_output_devices. safety. Qed.
Lemma select_output_device_safe id : Calm PROCESS (select_output_device setup id).
Proof. unfold select_output_device. safety; apply catalog_step_safe; intros; apply select_calm. Qed.
Lemma configure_direct_safe d : Calm PROCESS (configure_direct_output d).
Proof. unfold configure_direct_output. safety. Qed.
Lemma observe_loop_safe fuel deadline e : Calm PROCESS (observe_loop fuel deadline e).
Proof. revert e. induction fuel as [|fuel IH]; intros e; cbn [observe_loop]; safety. Qed.
#[local] Hint Resolve select_output_device_safe configure_direct_safe observe_loop_safe : safety.
Lemma observe_direct_safe f b : Calm PROCESS (observe_direct_output_if_ready f b).
Proof. unfold observe_direct_output_if_ready. safety. Qed.
Lemma publish_direct_safe d f : Calm PROCESS (publish_direct_output d f).
Proof. unfold publish_direct_output. safety. Qed.
#[local] Hint Resolve observe_direct_safe publish_direct_safe : safety.

Definition restorable (previous : PlaybackSessionState) (mode : OutputMode) : Prop :=
  mode = DirectAlsa → is_Some (s_selected_output_device previous).

Lemma restore_safe_system_safe previous : Safe PROCESS restore_safe_system_output (restorable previous).
Proof. unfold restore_safe_system_output. safety. Qed.

Lemma restore_route_safe previous : Safe PROCESS (restore_output_route setup previous) (restorable previous).
Proof.
  unfold restore_output_route, restore_adaptive_output_route. pose proof (restore_safe_system_safe previous) as Hsafe.
  destruct (s_output_mode previous) eqn:Hmode.
  - safety; exact Hsafe || (apply safe_done; by intros ?).
  - destruct (s_selected_output_device previous) as [d|] eqn:Hd.
    + apply calm_bind; [apply ignored_safe; safety|]. intros r _. destruct r; try exact Hsafe. apply safe_done. intros _. by rewrite Hd.
    + exact Hsafe.
  - safety; exact Hsafe || (apply safe_done; by intros ?).
Qed.

Lemma direct_failure_safe previous d : Calm PROCESS (handle_direct_output_failure setup previous d).
Proof.
  unfold handle_direct_output_failure. eapply safe_bind; [apply restore_route_safe|]. intros mode Hm.
  apply silent_bind; [safety|]. intros _. apply update_safe; [auto with safety|]. by apply output_failure_keeps.
Qed.
#[local] Hint Resolve direct_failure_safe : safety.
Lemma select_direct_safe id : Calm PROCESS (select_direct_alsa_output setup id).
Proof. unfold select_direct_alsa_output. safety. Qed.
Lemma fallback_safe : Calm PROCESS (fallback_to_system_output setup).
Proof. unfold fallback_to_system_output, restore_adaptive_after_system_failure, or_fail_native, fail_native. safety. Qed.

(** *** Restoring and ending *)

Lemma apply_snapshot_safe n pid snapshot b rate : Calm n (apply_snapshot_to_process pid snapshot b rate).
Proof. unfold apply_snapshot_to_process. safety. Qed.
#[local] Hint Resolve apply_snapshot_safe : safety.
Lemma restore_paused_safe snapshot : valid snapshot → Calm PROCESS (restore_paused snapshot).
Proof.
  intros Hs. pose proof (restore_snapshot_keeps snapshot Hs) as Hk. unfold restore_paused, or_fail_native, fail_native. safety.
Qed.
Lemma shutdown_player_safe : Quiet PROCESS shutdown_player.
Proof. unfold shutdown_player. safety. Qed.
#[local] Hint Resolve shutdown_player_safe : safety.
Lemma shutdown_safe : Calm PROCESS (Controller.shutdown setup).
Proof. unfold Controller.shutdown. safety. Qed.
#[local] Hint Resolve shutdown_safe : safety.
Lemma drop_playback_safe : Quiet PROCESS (drop_playback setup).
Proof. unfold drop_playback. safety. Qed.
End Commands.

#[export] Hint Resolve command_safe set_property_safe clear_appended_safe load_safe load_at_safe load_boundary_safe
  stop_safe append_safe seek_safe set_paused_safe set_mpv_volume_safe set_speed_safe
  set_gapless_mpv_safe shutdown_mpv_safe observe_properties_safe restore_output_safe give_back_output_safe configure_output_safe
  observe_format_safe start_player_safe set_forced_safe reset_force_rate_safe ensure_available_safe enable_safe
  apply_rate_safe disable_safe reset_for_recovery_safe on_adaptive_safe state_safe adjacent_safe
  align_queue_safe shuffle_queue_safe set_error_state_keeps set_playing_source_keeps update_playing_keeps stopped_keeps
  publish_system_keeps publish_adaptive_keeps direct_output_keeps status_with_source_keeps disconnected_keeps zero_time
  update_safe start_load_timer_safe mark_player_stable_safe advance_command_revision_safe next_load_revision_safe fail_safe
  active_fade_safe ramp_volume_safe fade_out_safe fade_in_safe restore_volume_safe apply_rate_hz_safe
  apply_source_rate_safe reset_adaptive_safe disable_adaptive_safe enable_controller_safe configure_system_safe fail_adaptive_setup_safe
  enable_adaptive_safe playback_url_calm start_playback_safe play_source_safe play_safe pause_safe
  stop_session_safe refresh_catalog_safe refresh_output_catalog_safe publish_devices_safe pause_after_failure_safe select_output_device_safe
  configure_direct_safe observe_loop_safe observe_direct_safe publish_direct_safe direct_failure_safe apply_snapshot_safe
  shutdown_player_safe shutdown_safe : safety.
