(* ===== verification/PlaybackSafety.v ===== *)
(** What holds of the Playback Session whatever its threads do at the same time:
    the state stays one the renderers and mpv can be given, no program panics, and
    no two threads wait for each other forever. *)

From S2P Require Import Prelude Text Float64 Values Prog PlayQueue Telemetry OutputDevices Adaptive Lifecycle LoadTiming Processing Session Desktop Mpv Controller Events CommandSafety.

#[local] Arguments of_Z : simpl never.

Abbreviation Safe n p Q := (safe reply_ok playback_ok n p Q).
Abbreviation Calm n p := (safe reply_ok playback_ok n p calm).
Abbreviation Quiet n p := (safe reply_ok playback_ok n p (λ _, True)).

Section Safety.
Context {SJ : SerdeJson} {SF : SourceFormat} {FT : FloatText} (setup : Setup).
Variable reproject : PlaybackStateProjection → str + PlaybackStateProjection.

(** ** The event thread *)

Lemma changed_safe n f : (n ≤ STATE)%nat → keeps_session f → Calm n (changed f).
Proof. intros Hn Hf. unfold changed. eapply safe_bind; [by apply update_shared_ok|]. intros s _. safety. Qed.
#[local] Hint Resolve changed_safe : safety.

(** *** Live Radio *)

Lemma load_boundary_event_safe r l : Quiet PROCESS (handle_load_boundary r l).
Proof. unfold handle_load_boundary. safety. Qed.
Lemma live_stable_safe l : Quiet PROCESS (handle_live_stable_event l).
Proof. unfold handle_live_stable_event. safety. Qed.
Lemma start_live_reconnect_safe l : Quiet PROCESS (start_live_reconnect l).
Proof. unfold start_live_reconnect. safety. Qed.
Lemma reconnect_live_source_safe l : Calm PROCESS (reconnect_live_source l).
Proof. unfold reconnect_live_source. safety. Qed.
#[local] Hint Resolve load_boundary_event_safe live_stable_safe start_live_reconnect_safe reconnect_live_source_safe : safety.
Lemma reconnect_attempt_safe l : Quiet PROCESS (run_live_reconnect_attempt l).
Proof. unfold run_live_reconnect_attempt. safety. Qed.
#[local] Hint Resolve reconnect_attempt_safe : safety.
Lemma poll_live_safe l : Quiet PROCESS (poll_live_reconnect l).
Proof. unfold poll_live_reconnect. safety. Qed.

(** *** Timing, and the next Track *)

Lemma report_timing_safe e : Quiet PROCESS (report_load_timing e).
Proof. unfold report_load_timing, report_load_line. safety. Qed.
Lemma appended_safe n pid : Quiet n (appended pid).
Proof. apply quiet_read. Qed.
Lemma take_appended_safe n pid : Quiet n (take_appended pid).
Proof. unfold take_appended. safety. Qed.
#[local] Hint Resolve poll_live_safe report_timing_safe appended_safe take_appended_safe : safety.
Lemma ended_trigger_safe : Quiet PROCESS ended_load_trigger.
Proof. unfold ended_load_trigger. safety. Qed.
Lemma time_load_now_safe g : Quiet PROCESS (time_load_now g).
Proof. unfold time_load_now. safety. Qed.
Lemma append_near_end_safe t : Quiet PROCESS (append_next_source_near_end t).
Proof. unfold append_next_source_near_end. safety. Qed.
Lemma stop_appended_safe q : Quiet PROCESS (stop_appended_source q).
Proof. unfold stop_appended_source. safety. Qed.
Lemma is_adaptive_safe : Quiet PROCESS is_adaptive.
Proof. unfold is_adaptive. safety. Qed.
#[local] Hint Resolve ended_trigger_safe time_load_now_safe append_near_end_safe stop_appended_safe is_adaptive_safe : safety.
Lemma rate_for_event_safe source : Calm PROCESS (apply_adaptive_rate_for_event setup source).
Proof. unfold apply_adaptive_rate_for_event. safety. Qed.
Lemma reset_event_safe : Calm PROCESS (reset_adaptive_after_event_failure setup).
Proof. unfold reset_adaptive_after_event_failure. safety. Qed.
#[local] Hint Resolve rate_for_event_safe reset_event_safe : safety.
Lemma prepare_rate_safe source : Calm PROCESS (prepare_advanced_source_rate setup source).
Proof. unfold prepare_advanced_source_rate. safety. Qed.
Lemma start_advanced_safe source : Calm PROCESS (start_advanced_source source).
Proof. unfold start_advanced_source. safety. Qed.
Lemma cleanup_failure_safe : Calm PROCESS publish_adaptive_cleanup_failure.
Proof. unfold publish_adaptive_cleanup_failure. safety. Qed.
#[local] Hint Resolve prepare_rate_safe start_advanced_safe cleanup_failure_safe : safety.
Lemma advanced_failure_safe : Calm PROCESS (publish_advanced_source_failure setup).
Proof. unfold publish_advanced_source_failure. safety. Qed.
Lemma align_publish_safe source : Calm PROCESS (align_and_publish_advanced_source source).
Proof. unfold align_and_publish_advanced_source. safety. Qed.
#[local] Hint Resolve advanced_failure_safe align_publish_safe : safety.
Lemma load_advanced_safe source : Calm PROCESS (load_advanced_source setup source).
Proof. unfold load_advanced_source. safety. Qed.
#[local] Hint Resolve load_advanced_safe : safety.
Lemma repeat_current_safe : Calm PROCESS (repeat_current_source setup).
Proof. unfold repeat_current_source. safety. Qed.
#[local] Hint Resolve repeat_current_safe : safety.
Lemma handle_ended_safe : Calm PROCESS (handle_ended_event setup).
Proof. unfold handle_ended_event. safety. Qed.

(** *** Failures and telemetry *)

Lemma direct_mpv_error_keeps d : keeps_session (direct_mpv_error_state d).
Proof. intros s [H1 H2 H3 H4]. by split. Qed.
Lemma adaptive_decoder_failure_keeps : keeps_session adaptive_decoder_failure_state.
Proof. intros s [H1 H2 H3 H4]. by split. Qed.
Lemma decoder_state_keeps d p f : keeps_session (decoder_state d p f).
Proof. apply untouched_keeps. intros s. unfold decoder_state. by case_match. Qed.
Lemma paused_state_keeps b : keeps_session (paused_state b).
Proof. apply untouched_keeps. intros s. unfold paused_state. by case_match. Qed.
#[local] Hint Resolve direct_mpv_error_keeps adaptive_decoder_failure_keeps decoder_state_keeps paused_state_keeps handle_ended_safe : safety.
Lemma handle_error_safe : Calm PROCESS (handle_mpv_error setup).
Proof. unfold handle_mpv_error, direct_error_device, publish_direct_mpv_error. safety. Qed.
Lemma observe_pipewire_safe : Quiet PROCESS (observe_pipewire_path setup).
Proof. unfold observe_pipewire_path. safety. Qed.
Lemma observe_ready_safe : Quiet PROCESS observe_ready_direct_format.
Proof. unfold observe_ready_direct_format. safety. Qed.
#[local] Hint Resolve handle_error_safe observe_pipewire_safe observe_ready_safe : safety.
Lemma refresh_telemetry_safe : Quiet PROCESS (refresh_pipewire_telemetry setup).
Proof. unfold refresh_pipewire_telemetry. safety. Qed.
Lemma update_decoder_safe d : Calm PROCESS (update_decoder_telemetry setup d).
Proof. unfold update_decoder_telemetry. safety. Qed.
Lemma decoder_rate_safe r : Quiet PROCESS (apply_adaptive_decoder_rate setup r).
Proof. unfold apply_adaptive_decoder_rate. safety. Qed.
#[local] Hint Resolve refresh_telemetry_safe update_decoder_safe decoder_rate_safe : safety.

Lemma reduce_event_safe e p : reduce_mpv_event setup e = Some p → Calm PROCESS p.
Proof.
  unfold reduce_mpv_event. destruct e; intros He; try discriminate He; try (destruct (_ && _) eqn:Hb; [|discriminate He]);
    injection He as <-; safety.
  apply changed_safe; [auto with safety|]. apply keeps_time. apply andb_prop in Hb as [Hf Hz]. split; [done|]. by apply fle_not_flt.
Qed.
Lemma handle_event_safe e : Calm PROCESS (handle_mpv_event setup e).
Proof.
  unfold handle_mpv_event. destruct (reduce_mpv_event setup e) as [p|] eqn:He; [|safety].
  apply reduce_event_safe in He. safety.
Qed.
#[local] Hint Resolve handle_event_safe : safety.
Lemma process_event_safe e t : Quiet PROCESS (process_mpv_event setup e t).
Proof. unfold process_mpv_event. safety. Qed.
#[local] Hint Resolve process_event_safe : safety.

(** *** A player that exited *)

Lemma restart_failed_safe {A} n (p : Desktop A) : Calm n p → Calm n (restart_failed p).
Proof. apply calm_with_err. Qed.
#[local] Hint Resolve restart_failed_safe : safety.

Lemma new_snapshot_calm src t v b r : calm (new_snapshot src t v b r).
Proof. unfold new_snapshot, validate_snapshot. by repeat case_match. Qed.

Lemma interrupted_safe : Safe PROCESS (interrupted_session_snapshot reproject) (giving (λ p, valid p.1)).
Proof.
  unfold interrupted_session_snapshot. apply silent_bind; [safety|]. intros s. apply safe_done.
  unfold from_serializable_state. destruct (reproject (projection s)) as [e|p]; cbn; [done|].
  pose proof (new_snapshot_calm (state_source p) (current_time p) (state_volume p) (state_shuffle p) (state_repeat p)) as Hc.
  destruct (new_snapshot _ _ _ _ _) as [snapshot|e| |] eqn:Hn; cbn; try done. split; [done|]. intros a [= <-]. cbn.
  by eapply new_snapshot_valid.
Qed.

Lemma reset_recovery_safe : Calm PROCESS (reset_adaptive_for_recovery setup).
Proof. unfold reset_adaptive_for_recovery. safety. Qed.
Lemma replace_process_safe pid : Quiet PROCESS (replace_process pid).
Proof. unfold replace_process. safety. Qed.
Lemma status_keeps x : keeps_session (set_status x).
Proof. untouched. Qed.
Lemma recovered_keeps snapshot b : valid snapshot → keeps_session (recovered_state snapshot b).
Proof.
  intros Hs s Hok. apply (restore_snapshot_keeps snapshot Hs) in Hok. unfold recovered_state. case_match; [|exact Hok].
  by apply (status_keeps Playing).
Qed.
Lemma or_drop_safe {A} n pid (p : prog Shared dcall (outcome RecoveryFailure A)) : Calm n p → Calm n (or_drop pid p).
Proof. intros Hp. unfold or_drop. safety. Qed.
#[local] Hint Resolve reset_recovery_safe replace_process_safe or_drop_safe : safety.

Lemma finish_restart_safe snapshot b pid : valid snapshot → Calm PROCESS (finish_player_restart snapshot b pid).
Proof.
  intros Hs. pose proof (recovered_keeps snapshot b Hs) as Hk. unfold finish_player_restart. safety.
  apply or_drop_safe. safety.
Qed.
Lemma restart_player_safe snapshot b : valid snapshot → Calm PROCESS (restart_player setup snapshot b).
Proof.
  intros Hs. pose proof (finish_restart_safe snapshot b) as Hf. unfold restart_player, reset_reapplied_rate_after_failed_restart.
  safety. apply or_drop_safe. safety.
Qed.
Lemma try_recover_safe : Calm PROCESS (try_recover_after_player_exit setup reproject).
Proof.
  unfold try_recover_after_player_exit.
  apply (safe_weaken _ _ PROCESS PROCESS _ (giving (λ _ : nat, True))); [done|by intros r [Hr _]|].
  eapply giving_then; [apply interrupted_safe|]. intros [snapshot b] Hs. apply calm_giving. apply calm_then; [safety|]. intros _.
  apply (safe_bind _ _ _ _ _ (λ t, ∀ s' b', action t = RestartPlayer s' b' → valid s')).
  - apply safe_locked; [auto with safety|]. apply other_act; intros s; unfold unexpected_player_exit;
      destruct (has_recovery_attempted (lifecycle s)); cbn; [done|done|done|]. intros s' b' Hx. by simplify_eq.
  - intros t Ht. unfold apply_recovery_transition. destruct (action t) as [| |s' b'|f|]; safety.
    by eapply restart_player_safe, Ht.
Qed.
#[local] Hint Resolve try_recover_safe : safety.
Lemma recover_safe : Quiet PROCESS (recover_after_player_exit setup reproject).
Proof. unfold recover_after_player_exit. safety. Qed.
Lemma unplugged_safe : Quiet PROCESS (refresh_direct_output_device setup).
Proof. unfold refresh_direct_output_device. safety. Qed.
#[local] Hint Resolve recover_safe unplugged_safe : safety.

(** *** The loop *)

Lemma dispatch_regular_safe e t : Quiet PROCESS (dispatch_regular_playback_event setup e t).
Proof. unfold dispatch_regular_playback_event. safety. Qed.
#[local] Hint Resolve dispatch_regular_safe : safety.
Lemma dispatch_safe e t : Quiet PROCESS (dispatch_playback_event setup reproject e t).
Proof. unfold dispatch_playback_event. safety. Qed.
#[local] Hint Resolve dispatch_safe : safety.
Lemma receive_safe t : Quiet PROCESS (receive_playback_event setup reproject t).
Proof. unfold receive_playback_event. safety. Qed.
#[local] Hint Resolve receive_safe : safety.
Lemma event_loop_safe n t : Quiet PROCESS (run_playback_event_loop setup reproject n t).
Proof. revert t. induction n as [|n IH]; intros t; cbn [run_playback_event_loop]; safety. Qed.
#[local] Hint Resolve event_loop_safe : safety.
Lemma event_thread_safe n pid : Quiet PROCESS (event_thread setup reproject n pid).
Proof. unfold event_thread. safety. Qed.

(** ** All threads *)

(** What the renderers and the system ask of a session. *)
Inductive SessionCommand :=
| PlaySource (source : option Value)
| Pause
| Stop
| TogglePlay
| SeekTo (seconds : f64)
| ApplyProcessing (p : ProcessingState) (configuration : MpvProcessingConfiguration)
| SetPlaybackRate (rate : f64)
| SetGapless (enabled : bool)
| SetStopAfterCurrent (enabled : bool)
| SetTransitionFade (milliseconds : Z)
| CycleRepeatMode
| ToggleShuffle
| SyncQueue (sources : list Value) (current_index : option nat)
| PlayPrevious
| PlayNext
| RefreshOutputDevices
| SelectDirectAlsa (device_id : str)
| FallbackToSystem
| EnableAdaptive
| RestorePaused (snapshot : PlaybackSessionSnapshot).

Definition perform_command (c : SessionCommand) : Desktop PlaybackSessionState :=
  match c with
  | PlaySource source => play setup source
  | Pause => pause
  | Stop => Controller.stop
  | TogglePlay => toggle_play setup
  | SeekTo seconds => Controller.seek seconds
  | ApplyProcessing p configuration => Controller.apply_processing p configuration
  | SetPlaybackRate rate => Controller.set_playback_rate rate
  | SetGapless enabled => Controller.set_gapless enabled
  | SetStopAfterCurrent enabled => Controller.set_stop_after_current enabled
  | SetTransitionFade milliseconds => set_transition_fade_ms milliseconds
  | CycleRepeatMode => cycle_repeat_mode
  | ToggleShuffle => toggle_shuffle
  | SyncQueue sources current_index => sync_queue_context sources current_index
  | PlayPrevious => Controller.previous setup
  | PlayNext => Controller.next setup
  | RefreshOutputDevices => refresh_output_devices setup
  | SelectDirectAlsa device_id => select_direct_alsa_output setup device_id
  | FallbackToSystem => fallback_to_system_output setup
  | EnableAdaptive => enable_adaptive_system_rate setup
  | RestorePaused snapshot => restore_paused snapshot
  end.

(** A session is restored from a valid snapshot only. *)
Definition command_ok (c : SessionCommand) : Prop :=
  match c with RestorePaused snapshot => valid snapshot | _ => True end.

Inductive playback_thread : prog Shared dcall unit → Prop :=
| command_thread c : command_ok c → playback_thread (_ ← perform_command c; Done tt)
| shutdown_thread : playback_thread (_ ← Controller.shutdown setup; Done tt)
| drop_thread : playback_thread (drop_playback setup)
| events_thread n pid : playback_thread (event_thread setup reproject n pid).

Lemma perform_command_safe c : command_ok c → Calm PROCESS (perform_command c).
Proof.
  destruct c; cbn [perform_command command_ok]; intros Hc; unfold Controller.previous, Controller.next.
  all: auto using play_safe, pause_safe, stop_session_safe, toggle_play_safe, seek_session_safe, apply_processing_safe,
    set_playback_rate_safe, set_gapless_safe, stop_after_safe, set_fade_safe, cycle_repeat_safe, toggle_shuffle_safe,
    sync_queue_safe, navigate_safe, refresh_output_devices_safe, select_direct_safe, fallback_safe, enable_adaptive_safe,
    restore_paused_safe.
Qed.

Lemma playback_thread_guarded p : playback_thread p → guarded reply_ok playback_ok [] p [] (λ _, True).
Proof.
  assert (∀ p : prog Shared dcall unit, Quiet PROCESS p → guarded reply_ok playback_ok [] p [] (λ _, True)) as H by (intros q Hq; by apply Hq).
  intros [c Hc| | |n pid]; apply H; auto using drop_playback_safe, event_thread_safe.
  - pose proof (perform_command_safe c Hc). safety.
  - safety.
Qed.

Lemma reply_exists B (c : dcall B) : ∃ b, reply_ok B c b.
Proof.
  destruct c as [pid v b| |pid|pid|d| | | |B c| |d| |s|r].
  - exists (Err []). by split.
  - by exists (Err []).
  - by exists tt.
  - by exists NoEvent.
  - by exists (Err []).
  - by exists (Ok tt).
  - by exists (Err []).
  - by exists (inl []).
  - destruct c; by exists (Err []).
  - by exists 0.
  - by exists tt.
  - by exists (λ _, None).
  - by exists tt.
  - by exists tt.
Qed.

(** C2: Whatever commands are given, in whatever order and from whatever threads
    at once, and whatever mpv, the devices, the clock and the events answer: the
    position of the session stays a finite number that is not negative, its
    volume a number between zero and one, its rate one mpv takes, Direct ALSA
    Output always has a device, the Queue plays each of its sources once and its
    current source is one of them; and no command panics, whatever the other
    threads do meanwhile. *)
Theorem session_stays_valid pid c : reachable reply_ok playback_thread (initial pid) c →
  playback_ok (shared c) ∧
  ∀ command, command_ok command → sound reply_ok playback_ok (perform_command command) calm.
Proof.
  intros Hc. split.
  - destruct (reachable_disciplined reply_ok playback_thread playback_ok (initial pid) c) as [held Hd];
      [apply playback_thread_guarded|apply initial_ok|done|apply Hd].
  - intros command Hok. by eapply safe_sound, perform_command_safe.
Qed.

(** C9: The threads of a session never wait for each other forever: as long as one
    of them has something left to do, one of them can go on, because every command
    and the event thread take the locks in the same order and give each one back. *)
Theorem session_never_deadlocks pid c : reachable reply_ok playback_thread (initial pid) c →
  (∃ i p, threads c !! i = Some p ∧ ¬ finished p) → ∃ i c', move reply_ok i c c'.
Proof.
  intros Hc Hp. eapply (some_thread_moves reply_ok playback_thread playback_ok (initial pid) c);
    [apply reply_exists|apply playback_thread_guarded|apply initial_ok|done|done].
Qed.

(** A new player can be restored from what was kept of the old one. *)
Definition restorable (r : outcome RecoveryFailure (PlaybackSessionSnapshot * bool)) : Prop :=
  ∃ snapshot resume, r = Ok (snapshot, resume) ∧ valid snapshot.

(** A player that exits never costs the session: when it happens the session
    can be turned into a snapshot a new player can be restored from, whatever the
    other threads do meanwhile. [reproject] is the JSON round trip of the state,
    which keeps finite numbers. *)
Theorem crash_keeps_session :
  (∀ p, is_finite (current_time p) = true → is_finite (state_volume p) = true → reproject p = inr p) →
  sound reply_ok playback_ok (interrupted_session_snapshot reproject) restorable.
Proof.
  intros Hp. apply (safe_sound _ _ PROCESS). eapply safe_bind; [apply state_ok; auto with safety|]. intros s [[Ht1 Ht2] [Hv1 [Hv2 Hv3]] _ _].
  apply safe_done. unfold from_serializable_state. rewrite Hp by done.
  unfold new_snapshot, projection. cbn [state_source current_time state_volume state_shuffle state_repeat].
  assert (validate_snapshot (s_current_time s) (s_volume s) (repeat_name (s_repeat_mode s)) = Ok tt) as ->.
  { unfold validate_snapshot. rewrite Ht1, Ht2, Hv1, Hv2, Hv3. by destruct (s_repeat_mode s). }
  cbn. eexists _, _. split; [done|]. split; cbn; [done|done|]. destruct (s_repeat_mode s); set_solver.
Qed.
End Safety.

(** ** An example: a session in which the repeat mode is changed *)

#[local] Existing Instance numbers.
#[local] Instance number_stations : @SourceFormat numbers := {| from_value (v : @Value numbers) := inr (RadioStation [v] [v]) |}.
#[local] Instance no_digits : FloatText := {| show_f64 _ := [] |}.

Definition example_setup : Setup := mkSetup true true true true.
Definition example_thread : prog Shared dcall unit → Prop := playback_thread example_setup inr.

Lemma example_session_reachable : ∃ c, reachable reply_ok example_thread (initial 0) c ∧
  s_repeat_mode (session (shared c)) = RepeatOnce ∧ ∃ i p, threads c !! i = Some p ∧ ¬ finished p.
Proof.
  eexists. split; [|split].
  - eapply rtc_l; [apply step_start, (command_thread example_setup inr CycleRepeatMode I)|].
    eapply rtc_l; [eapply step_move, (move_lock _ 0); reflexivity|].
    eapply rtc_l; [eapply step_move, (move_act _ 0); reflexivity|]. apply rtc_refl.
  - reflexivity.
  - exists 0%nat. eexists. split; [reflexivity|]. intros [].
Qed.

Lemma session_stays_valid_witness : ∃ c : @config Shared dcall, s_repeat_mode (session (shared c)) = RepeatOnce ∧ playback_ok (shared c).
Proof.
  destruct example_session_reachable as (c & Hc & Hr & _). exists c. split; [exact Hr|].
  exact (proj1 (session_stays_valid example_setup inr 0 c Hc)).
Defined.

Lemma session_never_deadlocks_witness : ∃ (c : @config Shared dcall) i c', s_repeat_mode (session (shared c)) = RepeatOnce ∧ move reply_ok i c c'.
Proof.
  destruct example_session_reachable as (c & Hc & Hr & Hp). destruct (session_never_deadlocks example_setup inr 0 c Hc Hp) as (i & c' & Hm).
  exists c, i, c'. split; [exact Hr|exact Hm].
Defined.

Lemma crash_keeps_session_witness :
  sound reply_ok playback_ok (interrupted_session_snapshot inr) restorable.
Proof. exact (crash_keeps_session inr (λ _ _ _, eq_refl)). Defined.
