(* ===== verification/PlaybackRuns.v ===== *)
(** What single programs of the Playback Session do when nothing disturbs them:
    what the end of a file makes of the session and tells mpv, that waiting for a device ends,
    and that a dropped session always stops its player. *)

From S2P Require Import Prelude Text Float64 Values Prog PlayQueue Telemetry OutputDevices Adaptive Lifecycle LoadTiming Processing Session Desktop Mpv Controller Events CommandSafety.

(** ** The commands of a run *)

(** A command that an mpv process was given: the process, the command, and the
    boundary its events wait for. *)
Abbreviation Said := (nat * Value * option Z)%type.

Section Said.
Context {SJ : SerdeJson} {SF : SourceFormat} {FT : FloatText}.

(** The commands among the calls of a run, the first one first. *)
Fixpoint commands (log : list (sigT dcall)) : list Said :=
  match log with
  | [] => []
  | existT B c :: log => commands log ++ match c with Command pid v b => [(pid, v, b)] | _ => [] end
  end.

Lemma commands_app l k : commands (l ++ k) = commands k ++ commands l.
Proof. induction l as [|[B c] l IH]; [by rewrite app_nil_r|]. cbn [app commands]. by rewrite IH, app_assoc. Qed.

(** The two commands that replace what sounds, and the one that ends it, as mpv
    reads them. *)
Definition start_commands (url : str) : list Value :=
  [Array_ [String_ (st "loadfile"); String_ url; String_ (st "replace")];
   Array_ [String_ (st "set_property"); String_ (st "pause"); Bool_ false]].
Definition stop_commands : list Value := [Array_ [String_ (st "stop")]].
End Said.

(** An mpv: what sounds of it, and what its documentation says the commands do to
    that. *)
Class MpvPlayer `{SerdeJson} := {
  mpv : Type;
  sounding : mpv → option str;
  obey : mpv → Value → mpv;
  obey_load url m : sounding (obey m (Array_ [String_ (st "loadfile"); String_ url; String_ (st "replace")])) = Some url;
  obey_pause b m : sounding (obey m (Array_ [String_ (st "set_property"); String_ (st "pause"); Bool_ b])) = sounding m;
  obey_stop m : sounding (obey m (Array_ [String_ (st "stop")])) = None
}.

(** ** The end of a file *)

Section Ended.
Context {SJ : SerdeJson} {SF : SourceFormat} {FT : FloatText} (setup : Setup).

(** The next source takes over the session, or cannot be played; mpv is told to
    play it, unless it already does. *)
Definition play_on (plays : option str) (source : Value) (s : PlaybackSessionState) (q : PlaybackQueueContext)
    : outcome str PlaybackSessionState * PlaybackQueueContext * list Value :=
  match Session.playback_url source with
  | Ok url => let '(r, q') := align_to_source source q in
              (match r with Ok _ => Ok (set_playing_source source None s) | Err e => Err e | Panic => Panic | OutOfFuel => OutOfFuel end, q',
               if bool_decide (plays = Some url) then [] else start_commands url)
  | _ => (Ok (set_error_state PLAYBACK_FAILED_MESSAGE s), q, [])
  end.

(** Nothing comes next: mpv is stopped if it went on by itself. *)
Definition end_session (plays : option str) (s : PlaybackSessionState) (q : PlaybackQueueContext)
    : outcome str PlaybackSessionState * PlaybackQueueContext * list Value :=
  (Ok (set_status Ended s), q, if bool_decide (is_Some plays) then stop_commands else []).

(** The source once more, the last time. *)
Definition repeat_once (s : PlaybackSessionState) (q : PlaybackQueueContext)
    : outcome str PlaybackSessionState * PlaybackQueueContext * list Value :=
  match s_source s with
  | None => (Ok (set_status Ended s), q, [])
  | Some source =>
      let '(r, q', told) := play_on None source s q in
      (repeated ← r; Ok (if bool_decide (s_status repeated = Playing) then set_repeat_mode RepeatOff repeated else repeated), q', told)
  end.

(** What the end of a file means for the session and the Queue, and what mpv is told,
    when it went on by itself to what it [plays]. *)
Definition after_ended (plays : option str) (s : PlaybackSessionState) (q : PlaybackQueueContext)
    : outcome str PlaybackSessionState * PlaybackQueueContext * list Value :=
  if s_stop_after_current s then end_session plays (Session.set_stop_after_current false s) q
  else if bool_decide (s_repeat_mode s = RepeatOnce)
          && negb (match s_source s with Some v => is_external_track_source v | None => false end) then
    repeat_once s q
  else
    match adjacent_source q Next (bool_decide (s_repeat_mode s = RepeatLoop)) with
    | Ok (Some source) => play_on plays source s q
    | Ok None => end_session plays s q
    | Err e => (Err e, q, [])
    | Panic => (Panic, q, [])
    | OutOfFuel => (OutOfFuel, q, [])
    end.

Context {W : Type} (answer : ∀ B, dcall B → W → B * W).

(** mpv takes every command, and the system every rate. *)
Record accepting : Prop := {
  accepts_command pid v b w : ∃ x, answer _ (Command pid v b) w = (Ok x, w);
  accepts_rate r w : answer _ (AskAdaptive (SetForcedRate r)) w = (Ok tt, w)
}.
Hypothesis Haccepting : accepting.

Definition nothing_appended (s : Shared) : Prop := appended_urls s !! process s = None.

(** [p], run from [s], ends with [a] in [s'] and gives mpv the commands [cs]; the
    world stays as it was. *)
Definition tells {A} (p : prog Shared dcall A) (s : Shared) (a : A) (s' : Shared) (cs : list Said) : Prop :=
  ∀ w log, ∃ more, run answer p s w log = (a, s', w, more ++ log) ∧ commands more = cs.

Lemma tells_quiet {A} (p : prog Shared dcall A) s a s' :
  (∀ w log, run answer p s w log = (a, s', w, log)) → tells p s a s' [].
Proof. intros Hp w log. exists []. by rewrite Hp. Qed.

Lemma tells_done {A} (a : A) s : tells (Done a) s a s [].
Proof. by apply tells_quiet. Qed.

Lemma tells_bind {A B} (p : prog Shared dcall A) (f : A → prog Shared dcall B) s a s1 b s2 cs cs' :
  tells p s a s1 cs → tells (f a) s1 b s2 cs' → tells (p ≫= f) s b s2 (cs ++ cs').
Proof.
  intros Hp Hf w log. destruct (Hp w log) as (l & Hl & <-). destruct (Hf w (l ++ log)) as (k & Hk & <-).
  exists (k ++ l). rewrite run_bind, Hl, Hk, app_assoc, commands_app. done.
Qed.

Lemma tells_then {E A B} (p : prog Shared dcall (outcome E A)) (f : A → prog Shared dcall (outcome E B)) s a s1 b s2 cs cs' :
  tells p s (Ok a) s1 cs → tells (f a) s1 b s2 cs' → tells (and_then p f) s b s2 (cs ++ cs').
Proof. intros Hp Hf. unfold and_then. by eapply tells_bind. Qed.

(** With a part that tells mpv nothing. *)
Lemma tells_bind_after {A B} (p : prog Shared dcall A) (f : A → prog Shared dcall B) s a s1 b s2 cs :
  tells p s a s1 [] → tells (f a) s1 b s2 cs → tells (p ≫= f) s b s2 cs.
Proof. apply (tells_bind p f s a s1 b s2 [] cs). Qed.

Lemma tells_bind_before {A B} (p : prog Shared dcall A) (f : A → prog Shared dcall B) s a s1 b s2 cs :
  tells p s a s1 cs → tells (f a) s1 b s2 [] → tells (p ≫= f) s b s2 cs.
Proof. rewrite <-(app_nil_r cs) at 2. apply tells_bind. Qed.

Lemma tells_then_after {E A B} (p : prog Shared dcall (outcome E A)) (f : A → prog Shared dcall (outcome E B)) s a s1 b s2 cs :
  tells p s (Ok a) s1 [] → tells (f a) s1 b s2 cs → tells (and_then p f) s b s2 cs.
Proof. apply (tells_then p f s a s1 b s2 [] cs). Qed.

Lemma tells_locked {A} l (p : prog Shared dcall A) s a s' cs : tells p s a s' cs → tells (locked l p) s a s' cs.
Proof. intros Hp w log. destruct (Hp w log) as (more & Hm & Hc). exists more. by rewrite run_locked. Qed.

Lemma tells_with_process {A} (p : nat → prog Shared dcall A) s a s' cs :
  tells (p (process s)) s a s' cs → tells (with_process p) s a s' cs.
Proof. intros Hp. unfold with_process. apply tells_locked. eapply tells_bind_after; [|exact Hp]. by apply tells_quiet. Qed.

Lemma tells_state s : tells state s (session s) s [].
Proof. by apply tells_quiet. Qed.

Lemma tells_changed f s : tells (changed f) s (Ok (f (session s))) (put_session (f (session s)) s) [].
Proof. by apply tells_quiet. Qed.

Lemma tells_ignored_command pid v b s :
  tells (ignored (command_with_event_boundary pid v b)) s (Ok tt) s [(pid, v, b)].
Proof.
  intros w log. destruct (accepts_command Haccepting pid v b w) as [x Hx]. exists [existT _ (Command pid v b)].
  unfold ignored. rewrite run_and_then. cbn. by rewrite Hx.
Qed.

Lemma tells_clear s : nothing_appended s → tells (clear_appended (process s)) s tt s [].
Proof. intros Hs. apply tells_quiet. intros w log. cbn. rewrite delete_id by exact Hs. by destruct s. Qed.

(** The process of [s] is told [vs]. *)
Definition to_player (s : Shared) (vs : list Value) : list Said := (λ v, (process s, v, None)) <$> vs.

Lemma tells_start_url url s : nothing_appended s →
  tells (with_process (λ pid, _ ←? Mpv.load pid url; set_paused pid false)) s (Ok tt) s (to_player s (start_commands url)).
Proof.
  intros Hs. apply tells_with_process. change (to_player s _) with ([(process s, Array_ [String_ (st "loadfile"); String_ url; String_ (st "replace")], @None Z)] ++
    [(process s, Array_ [String_ (st "set_property"); String_ (st "pause"); Bool_ false], @None Z)]).
  eapply tells_then; [|apply tells_ignored_command]. unfold Mpv.load.
  eapply tells_bind_after; [by apply tells_clear|apply tells_ignored_command].
Qed.

Lemma tells_stop_appended queued s : nothing_appended s →
  tells (stop_appended_source queued) s tt s (to_player s (if bool_decide (is_Some queued) then stop_commands else [])).
Proof.
  intros Hs. destruct queued as [url|]; [|apply tells_done]. rewrite bool_decide_eq_true_2 by eauto. unfold stop_appended_source.
  eapply tells_bind_before; [|apply tells_done]. apply tells_with_process. unfold Mpv.stop. eapply tells_bind_after; [by apply tells_clear|apply tells_ignored_command].
Qed.

(** Adaptive System Rate tells mpv nothing. *)
Lemma tells_on_adaptive {A} (p : prog AdaptiveSystemRateState acall A) s r a :
  (∀ w log, ∃ more, run answer (zoom adaptive put_adaptive (λ B c, AskAdaptive c) p) s w log = (r, put_adaptive a s, w, more ++ log) ∧ commands more = []) →
  tells (on_adaptive p) s r (put_adaptive a s) [].
Proof. intros Hp. by apply tells_locked. Qed.

Lemma tells_is_adaptive s : tells is_adaptive s (bool_decide (s_output_mode (session s) = AdaptiveSystemRate)) s [].
Proof. by apply tells_quiet. Qed.

Lemma put_same_adaptive s : put_adaptive (adaptive s) s = s.
Proof. by destruct s. Qed.

(** The rate of the next source, followed when the session does. *)
Lemma tells_prepare source s : (s_output_mode (session s) = AdaptiveSystemRate → has_adaptive setup = true) →
  ∃ a, tells (prepare_advanced_source_rate setup source) s (Ok tt) (put_adaptive a s) [].
Proof.
  intros Hs. assert (∃ a, tells (apply_adaptive_rate_for_event setup source) s (Ok tt) (put_adaptive a s) []) as [a Ha].
  { unfold apply_adaptive_rate_for_event. pose proof (tells_is_adaptive s) as Hm. case_bool_decide as Hmode.
    2: { exists (adaptive s). rewrite put_same_adaptive. eapply tells_bind_after; [exact Hm|apply tells_done]. }
    specialize (Hs Hmode).
    assert (∃ a, tells (on_adaptive (apply_source_sample_rate (sample_rate_hz (source_format (from_playback_source source))))) s (Ok tt) (put_adaptive a s) []) as [a Ha].
    { unfold apply_source_sample_rate. destruct (is_enabled (adaptive s)) eqn:He.
      - set (r := v ← sample_rate_hz _; if 0 <? v then Some v else None). exists (mkAdaptive (is_enabled (adaptive s)) r).
        apply tells_on_adaptive. intros w log. exists [existT _ (AskAdaptive (SetForcedRate r))]. cbn. rewrite He. cbn. fold r.
        rewrite (accepts_rate Haccepting). cbn. by rewrite He.
      - exists (adaptive s). apply tells_on_adaptive. intros w log. exists []. cbn. by rewrite He, put_same_adaptive. }
    exists a. eapply tells_bind_after; [exact Hm|]. cbn [negb]. by rewrite Hs. }
  exists a. unfold prepare_advanced_source_rate. eapply tells_bind_after; [exact Ha|apply tells_done].
Qed.

Lemma tells_reset s : (s_output_mode (session s) = AdaptiveSystemRate → has_adaptive setup = true) →
  ∃ a, tells (reset_adaptive_after_event_failure setup) s (Ok tt) (put_adaptive a s) [].
Proof.
  intros Hs. unfold reset_adaptive_after_event_failure. pose proof (tells_is_adaptive s) as Hm. case_bool_decide as Hmode.
  2: { exists (adaptive s). rewrite put_same_adaptive. eapply tells_bind_after; [exact Hm|apply tells_done]. }
  specialize (Hs Hmode).
  assert (∃ a, tells (on_adaptive reset_for_recovery) s (Ok tt) (put_adaptive a s) []) as [a Ha].
  { unfold reset_for_recovery. destruct (is_idle (adaptive s)) eqn:Hi.
    - exists (adaptive s). apply tells_on_adaptive. intros w log. exists []. cbn. by rewrite Hi, put_same_adaptive.
    - exists (mkAdaptive (is_enabled (adaptive s)) None). apply tells_on_adaptive. intros w log. exists [existT _ (AskAdaptive (SetForcedRate None))].
      cbn. rewrite Hi. cbn. by rewrite (accepts_rate Haccepting). }
  exists a. eapply tells_bind_after; [exact Hm|]. cbn [negb]. rewrite Hs.
  unfold with_err. eapply tells_bind_after; [exact Ha|apply tells_done].
Qed.

(** The shared state once the session and the Queue are what [r] and [q] say. *)
Definition advanced (a : AdaptiveSystemRateState) (r : outcome str PlaybackSessionState) (q : PlaybackQueueContext) (s : Shared) : Shared :=
  put_adaptive a (put_queue q (match r with Ok s' => put_session s' s | _ => s end)).

Lemma url_cases source : (∃ url, Session.playback_url source = Ok url) ∨ ∃ e, Session.playback_url source = Err e.
Proof.
  unfold Session.playback_url, PlayQueue.parse. destruct (from_value source) as [e|p]; cbn; [by eauto|].
  unfold PlayQueue.playback_url. case_match; eauto.
Qed.

Lemma tells_align_publish plays source s url : Session.playback_url source = Ok url →
  let '(r, q, _) := play_on plays source (session s) (queue s) in
  tells (align_and_publish_advanced_source source) s r (advanced (adaptive s) r q s) [].
Proof.
  intros Hurl. unfold play_on. rewrite Hurl. destruct (align_to_source source (queue s)) as [r q] eqn:Hq. apply tells_quiet. intros w log.
  unfold align_and_publish_advanced_source. rewrite run_and_then. unfold align_queue_to_source. rewrite run_locked. cbn. rewrite Hq.
  destruct r; by destruct s.
Qed.

(** A source that mpv tells not play yet. *)
Lemma tells_play_on plays source s : nothing_appended s → (s_output_mode (session s) = AdaptiveSystemRate → has_adaptive setup = true) →
  plays = None ∨ plays ≠ ok_of (Session.playback_url source) →
  let '(r, q, told) := play_on plays source (session s) (queue s) in
  ∃ a, tells (load_advanced_source setup source) s r (advanced a r q s) (to_player s told).
Proof.
  intros Hs Hm Hplays. destruct (tells_prepare source s Hm) as [a Ha]. unfold load_advanced_source.
  assert (nothing_appended (put_adaptive a s)) as Hs' by exact Hs.
  destruct (url_cases source) as [[url Hurl]|[e Hurl]].
  - pose proof (tells_align_publish plays source (put_adaptive a s) url Hurl) as Hp.
    change (session (put_adaptive a s)) with (session s) in Hp. change (queue (put_adaptive a s)) with (queue s) in Hp.
    unfold play_on in *. rewrite Hurl in *. destruct (align_to_source source (queue s)) as [r q]. exists a.
    rewrite bool_decide_eq_false_2 by (destruct Hplays as [->|Hne]; [done|exact Hne]).
    eapply tells_then_after; [exact Ha|].
    apply (tells_bind_before _ _ _ (Ok tt) (put_adaptive a s)); [|by destruct r]. unfold start_advanced_source. rewrite Hurl.
    eapply tells_then_after; [apply tells_done|]. by apply (tells_start_url url (put_adaptive a s)).
  - destruct (tells_reset (put_adaptive a s) Hm) as [a' Ha']. unfold play_on. rewrite Hurl. exists a'.
    eapply tells_then_after; [exact Ha|].
    eapply tells_bind_after; [unfold start_advanced_source; rewrite Hurl; by apply tells_quiet|]. unfold publish_advanced_source_failure.
    eapply tells_bind_after; [exact Ha'|]. by apply tells_quiet; destruct s.
Qed.

Lemma tells_end queued f t : nothing_appended t →
  ∃ a, tells (_ ← stop_appended_source queued; changed f) t (Ok (f (session t))) (advanced a (Ok (f (session t))) (queue t) t)
    (to_player t (if bool_decide (is_Some queued) then stop_commands else [])).
Proof.
  intros Ht. exists (adaptive t). eapply tells_bind_before; [by apply tells_stop_appended|]. by apply tells_quiet; destruct t.
Qed.

Lemma tells_repeat t : nothing_appended t → (s_output_mode (session t) = AdaptiveSystemRate → has_adaptive setup = true) →
  let '(r, q, told) := repeat_once (session t) (queue t) in
  ∃ a, tells (repeat_current_source setup) t r (advanced a r q t) (to_player t told).
Proof.
  intros Ht Hm. unfold repeat_current_source, repeat_once. destruct (s_source (session t)) as [source|] eqn:Hsource.
  - pose proof (tells_play_on None source t Ht Hm (or_introl eq_refl)) as Hp. destruct (play_on None source (session t) (queue t)) as [[r q] told].
    destruct Hp as [a Ha]. exists a. eapply tells_bind_after; [apply tells_state|]. rewrite Hsource.
    unfold and_then. eapply tells_bind_before; [exact Ha|].
    destruct r as [s'|e| |]; [|apply tells_done..]. cbn [mbind outcome_bind]. destruct (bool_decide (s_status s' = Playing)); by apply tells_quiet.
  - exists (adaptive t). eapply tells_bind_after; [apply tells_state|]. rewrite Hsource. by apply tells_quiet; destruct t.
Qed.

(** The source that follows: mpv plays it already, or is told to. *)
Lemma tells_next queued source t : nothing_appended t → (s_output_mode (session t) = AdaptiveSystemRate → has_adaptive setup = true) →
  let '(r, q, told) := play_on queued source (session t) (queue t) in
  ∃ a, tells (if bool_decide (is_Some queued) && bool_decide (queued = ok_of (Session.playback_url source)) then
               _ ←? prepare_advanced_source_rate setup source; align_and_publish_advanced_source source
             else load_advanced_source setup source) t r (advanced a r q t) (to_player t told).
Proof.
  intros Ht Hm. destruct (bool_decide (is_Some queued) && _) eqn:Hq.
  - apply andb_prop in Hq as [[url' ->]%bool_decide_eq_true Hq%bool_decide_eq_true].
    destruct (url_cases source) as [[url Hurl]|[e Hurl]]; [|by rewrite Hurl in Hq]. rewrite Hurl in Hq. injection Hq as ->.
    destruct (tells_prepare source t Hm) as [a Ha]. pose proof (tells_align_publish (Some url) source (put_adaptive a t) url Hurl) as Hp.
    change (session (put_adaptive a t)) with (session t) in Hp. change (queue (put_adaptive a t)) with (queue t) in Hp.
    unfold play_on in *. rewrite Hurl in *. destruct (align_to_source source (queue t)) as [r q]. exists a.
    rewrite bool_decide_eq_true_2 by done. eapply tells_then_after; [exact Ha|]. by destruct r.
  - apply tells_play_on; [done..|]. destruct queued as [url|]; [right|by left].
    apply andb_false_iff in Hq as [Hq|Hq]; bool_to_prop; [by destruct Hq|done].
Qed.

Lemma tells_adjacent wrap t (k : option Value → Desktop PlaybackSessionState) r s' cs :
  tells (match adjacent_source (queue t) Next wrap with
        | Ok next => k next
        | Err e => Done (Err e)
        | Panic => Done Panic
        | OutOfFuel => Done OutOfFuel
        end) t r s' cs → tells (next ←? adjacent Next wrap; k next) t r s' cs.
Proof.
  intros Hk. unfold and_then. eapply tells_bind_after; [|exact Hk]. apply tells_quiet. intros w log. unfold adjacent.
  rewrite run_locked. by destruct t.
Qed.

(** The program, with the commands it gives mpv. *)
Lemma ended_event_tells s : (s_output_mode (session s) = AdaptiveSystemRate → has_adaptive setup = true) →
  let '(r, q, told) := after_ended (appended_urls s !! process s) (session s) (queue s) in
  ∃ a, tells (handle_ended_event setup) s r (advanced a r q (put_appended_urls (base.delete (process s) (appended_urls s)) s)) (to_player s told).
Proof.
  intros Hm. set (t := put_appended_urls _ s). assert (nothing_appended t) as Ht by (unfold nothing_appended, t; cbn; apply lookup_delete_eq).
  assert (∀ (k : PlaybackSessionState → option str → Desktop PlaybackSessionState) r s' cs,
    tells (k (session s) (appended_urls s !! process s)) t r s' cs → tells (x ← state; queued ← with_process take_appended; k x queued) s r s' cs) as Htake.
  { intros k r s' cs Hk. eapply tells_bind_after; [apply tells_state|]. eapply tells_bind_after; [|exact Hk]. by apply tells_quiet. }
  change (to_player s) with (to_player t). unfold handle_ended_event.
  set (queued := appended_urls s !! process s) in *. clearbody queued. change (session s) with (session t) in *. change (queue s) with (queue t).
  unfold after_ended.
  destruct (s_stop_after_current (session t)) eqn:Hstop.
  { destruct (tells_end queued (λ s, set_status Ended (Session.set_stop_after_current false s)) t Ht) as [a Ha]. exists a. apply Htake. by rewrite Hstop. }
  destruct (bool_decide _ && _) eqn:Hrepeat.
  { pose proof (tells_repeat t Ht Hm) as Hr. destruct (repeat_once (session t) (queue t)) as [[r q] told].
    destruct Hr as [a Ha]. exists a. apply Htake. by rewrite Hstop, Hrepeat. }
  set (wrap := bool_decide (s_repeat_mode (session t) = RepeatLoop)). pose proof (tells_adjacent wrap t) as Hadj.
  destruct (adjacent_source (queue t) Next wrap) as [[source|]|e| |];
    [| |exists (adaptive t); apply Htake; rewrite Hstop, Hrepeat; apply Hadj, tells_quiet; by destruct t..].
  - pose proof (tells_next queued source t Ht Hm) as Hp. destruct (play_on queued source (session t) (queue t)) as [[r q] told].
    destruct Hp as [a Ha]. exists a. apply Htake. rewrite Hstop, Hrepeat. by apply Hadj.
  - destruct (tells_end queued (set_status Ended) t Ht) as [a Ha]. exists a. apply Htake. rewrite Hstop, Hrepeat. by apply Hadj.
Qed.

Lemma playing_source source n s : s_source (set_playing_source source n s) = Some source ∧ s_status (set_playing_source source n s) = Playing.
Proof. unfold set_playing_source. case_bool_decide; by split. Qed.

(** What sounds of an mpv that was told what follows the end of a file. *)
Lemma after_ended_sounds `{!MpvPlayer} s q (m : mpv) : s_source s ≠ None →
  let '(r, _, told) := after_ended (sounding m) s q in
  match r with
  | Ok s' => match s_status s' with
             | Playing => ∃ v url, s_source s' = Some v ∧ Session.playback_url v = Ok url ∧ sounding (foldl obey m told) = Some url
             | Ended => sounding (foldl obey m told) = None
             | x => x = ErrorStatus
             end
  | _ => True
  end.
Proof.
  intros Hsource. assert (∀ plays source q, plays = None ∨ plays = sounding m → let '(r, _, told) := play_on plays source s q in
    match r with
    | Ok s' => (s_status s' = Playing ∧ s_source s' = Some source ∧ ∃ url, Session.playback_url source = Ok url ∧ sounding (foldl obey m told) = Some url) ∨
               s_status s' = ErrorStatus
    | _ => True
    end) as Hplay.
  { intros plays source q' Hplays. unfold play_on. destruct (Session.playback_url source) as [url|e| |] eqn:Hurl; [|by right..].
    destruct (align_to_source source q') as [[[]|e| |] q2]; try done. left. destruct (playing_source source None s) as [-> ->].
    do 2 (split; [done|]). exists url. split; [done|]. case_bool_decide as Hd.
    - cbn [foldl]. destruct Hplays; congruence.
    - unfold start_commands. cbn [foldl]. by rewrite obey_pause, obey_load. }
  assert (sounding (foldl obey m (if bool_decide (is_Some (sounding m)) then stop_commands else [])) = None) as Hstop.
  { case_bool_decide as Hd; cbn [foldl stop_commands]; [apply obey_stop|]. by apply eq_None_not_Some. }
  unfold after_ended, end_session. destruct (s_stop_after_current s); [exact Hstop|].
  destruct (bool_decide _ && _).
  { unfold repeat_once. destruct (s_source s) as [source|]; [|done]. specialize (Hplay None source q (or_introl eq_refl)).
    destruct (play_on None source s q) as [[[s'|e| |] q'] told]; try done. cbn [mbind outcome_bind].
    destruct Hplay as [(Hst & Hso & url & Hurl & Hsnd)|Hst].
    - rewrite (bool_decide_eq_true_2 _ Hst). cbn. rewrite Hst. by exists source, url.
    - rewrite bool_decide_eq_false_2 by (by rewrite Hst). by rewrite Hst. }
  destruct (adjacent_source _ _ _) as [[source|]|e| |]; try done.
  specialize (Hplay (sounding m) source q (or_intror eq_refl)). destruct (play_on _ source s q) as [[[s'|e| |] q'] told]; try done.
  destruct Hplay as [(Hst & Hso & url & Hurl & Hsnd)|Hst]; rewrite Hst; [by exists source, url|done].
Qed.

(** C4: The end of a file moves the session on, and mpv with it. When a file ends and
    mpv takes what it is told, the session and the Queue become what [after_ended]
    makes of them, nothing is appended afterwards, and mpv is given exactly these
    commands: none when the source that was appended is the next one and already
    plays, the load of the next source and the end of the pause otherwise, a stop
    when nothing follows and something was appended. So an mpv that went on by itself
    to what was appended, and obeys its commands as documented, plays the URL of the
    session's source if the session plays, and is silent if the session ended. *)
Theorem ended_event_advances `{!MpvPlayer} s (m : mpv) w :
  (s_output_mode (session s) = AdaptiveSystemRate → has_adaptive setup = true) →
  sounding m = appended_urls s !! process s →
  let '(r, q, told) := after_ended (appended_urls s !! process s) (session s) (queue s) in
  (∃ a log, run answer (handle_ended_event setup) s w [] =
      (r, advanced a r q (put_appended_urls (base.delete (process s) (appended_urls s)) s), w, log) ∧
    commands log = to_player s told) ∧
  (s_source (session s) ≠ None →
    match r with
    | Ok s' => match s_status s' with
               | Playing => ∃ v url, s_source s' = Some v ∧ Session.playback_url v = Ok url ∧ sounding (foldl obey m told) = Some url
               | Ended => sounding (foldl obey m told) = None
               | x => x = ErrorStatus
               end
    | _ => True
    end).
Proof.
  intros Hm Hplays. pose proof (ended_event_tells s Hm) as Htells. pose proof (after_ended_sounds (session s) (queue s) m) as Hsounds.
  rewrite Hplays in Hsounds. destruct (after_ended _ _ _) as [[r q] told]. split; [|exact Hsounds].
  destruct Htells as [a Ha]. destruct (Ha w []) as (more & Hrun & Hcs). exists a, more. by rewrite Hrun, app_nil_r.
Qed.
End Ended.

(** ** Waiting for a device *)

Section Waiting.
Context {SJ : SerdeJson} {SF : SourceFormat} {FT : FloatText} {W : Type} (answer : ∀ B, dcall B → W → B * W).

(** A clock that never goes back, and that a sleep moves on. *)
Class Clock := {
  clock : W → Z;
  clock_now w : (answer _ Now w).1 = clock w;
  clock_moves B (c : dcall B) w : clock w ≤ clock (answer _ c w).2;
  clock_sleep d w : clock w + d ≤ clock (answer _ (Sleep d) w).2;
  command_returns pid v b w : returns (answer _ (Command pid v b) w).1
}.
Context {HC : Clock}.

Lemma ends_call {B} (c : dcall B) (s : Shared) w : ends answer (call c) s w = ((answer _ c w).1, s, (answer _ c w).2).
Proof. unfold ends, call. cbn. by destruct (answer B c w). Qed.

Lemma observed_format pid s w : ∃ r w', ends answer (observe_output_format pid) s w = (r, s, w') ∧ returns r ∧ clock w ≤ clock w'.
Proof.
  unfold observe_output_format, command, command_with_event_boundary. rewrite ends_and_then, ends_call.
  pose proof (clock_moves _ (Command pid (names ["get_property"; "audio-out-params"]%string []) None) w) as Hc.
  pose proof (command_returns pid (names ["get_property"; "audio-out-params"]%string []) None w) as Hr.
  destruct (answer _ _ w) as [r w']. cbn [fst snd] in *. destruct r; try done; by eexists _, w'.
Qed.

Lemma observe_loop_ends fuel deadline e s w :
  deadline ≤ clock w + Z.of_nat fuel * DIRECT_OUTPUT_RETRY_INTERVAL →
  returns (ends answer (observe_loop (S fuel) deadline e) s w).1.1.
Proof.
  revert e s w. induction fuel as [|fuel IH]; intros e s w Hd; cbn [observe_loop]; rewrite run_ends_bind, ends_call, clock_now;
    pose proof (clock_moves _ Now w) as Hnow; destruct (answer _ Now w) as [x w1]; cbn [fst snd] in *.
  - rewrite (proj2 (Z.ltb_ge _ _)) by lia. done.
  - destruct (clock w <? deadline); [|done]. rewrite run_ends_bind. unfold with_process. rewrite ends_locked, run_ends_bind.
    change (ends answer (read process) s w1) with (process s, s, w1). cbn beta iota.
    destruct (observed_format (process s) s w1) as (r & w2 & -> & Hr & Hc). destruct r as [[f|]|e'| |]; try done.
    all: rewrite run_ends_bind, ends_call; cbn beta iota; pose proof (clock_sleep DIRECT_OUTPUT_RETRY_INTERVAL w2); apply IH; lia.
Qed.

(** What a command that chose a device is told once the device is in use, or not. *)
Definition device_answer (configured : option AudioFormatObservation) (has_source : bool) (s : Shared) (w : W) :=
  (ends answer (observe_direct_output_if_ready configured has_source) s w).1.1.

(** Choosing a device never hangs: however long mpv takes to report the format
    it plays in, waiting for it ends after at most the rounds that fit the timeout. *)
Theorem waiting_for_device_ends configured has_source s w :
  returns (device_answer configured has_source s w).
Proof.
  unfold device_answer, observe_direct_output_if_ready. case_match; [done|]. rewrite run_ends_bind, ends_call, clock_now.
  change OBSERVE_ROUNDS with (S (Z.to_nat (DIRECT_OUTPUT_READY_TIMEOUT / DIRECT_OUTPUT_RETRY_INTERVAL))).
  apply observe_loop_ends. pose proof (clock_moves _ Now w). rewrite Z2Nat.id by done. 
  change (DIRECT_OUTPUT_READY_TIMEOUT / DIRECT_OUTPUT_RETRY_INTERVAL * DIRECT_OUTPUT_RETRY_INTERVAL) with DIRECT_OUTPUT_READY_TIMEOUT. lia.
Qed.
End Waiting.

(** ** The end of a session *)

Section Dropped.
Context {SJ : SerdeJson} {SF : SourceFormat} {FT : FloatText} (setup : Setup) {W : Type} (answer : ∀ B, dcall B → W → B * W).
Variable reproject : PlaybackStateProjection → str + PlaybackStateProjection.

Lemma run_adaptive {A} (p : prog AdaptiveSystemRateState acall A) s w log :
  ∃ r a w' log', run answer (on_adaptive p) s w log = (r, put_adaptive a s, w', log').
Proof.
  unfold on_adaptive. setoid_rewrite run_locked. revert s w log.
  induction p as [r|B op k IH|B c k IH|l k IH|l k IH]; intros s w log; cbn.
  - exists r, (adaptive s), w, log. by destruct s.
  - destruct (op (adaptive s)) as [b a]. destruct (IH b (put_adaptive a s) w log) as (r & a' & w' & log' & ->). by exists r, a', w', log'.
  - destruct (answer _ (AskAdaptive c) w) as [b w']. apply IH.
  - apply IH.
  - apply IH.
Qed.

(** The session was [s] and is over: its player's process was ended, the commands
    that still wait will notice, and the event thread finds nothing to do. *)
Definition over (s s' : Shared) (w' : W) (log : list (sigT dcall)) : Prop :=
  In (existT _ (ShutdownPlayer (process s))) log ∧ is_shutdown s' = true ∧
  command_revision s' = wrapping_next (command_revision s) ∧
  ∀ n t, run answer (run_playback_event_loop setup reproject n t) s' w' log = (tt, s', w', log).

(** A session that is dropped always stops its player and its event thread,
    even when Adaptive System Rate cannot give the rate back: the player's process
    is ended, commands that wait notice that they are too late, and the event
    thread tells nothing more. *)
Theorem dropped_session_ends s w :
  let '(_, s', w', log) := run answer (drop_playback setup) s w [] in over s s' w' log.
Proof.
  assert (∀ a w log, let '(_, s', w', log') := run answer shutdown_player (put_adaptive a s) w log in
    In (existT _ (ShutdownPlayer (process s))) log' ∧ is_shutdown s' = true ∧ command_revision s' = wrapping_next (command_revision s)) as Hend.
  { clear. intros a w log. cbn. destruct (answer _ (ShutdownPlayer (process s)) w) as [[] w1].
    destruct (answer _ Release w1) as [r w2]. cbn. auto. }
  assert (∀ a w log, let '(_, s', w', log') := run answer shutdown_player (put_adaptive a s) w log in
    over s s' w' log') as Hstop.
  { intros a w0 log. specialize (Hend a w0 log). destruct (run answer shutdown_player _ w0 log) as [[[? s'] w'] log'].
    destruct Hend as (H1 & H2 & H3). split_and!; [done..|]. intros [|n] t; [done|]. cbn. by rewrite H2. }
  assert (∃ r a w' log', run answer (disable_adaptive_system_rate setup) s w [] = (r, put_adaptive a s, w', log')) as (r & a & w1 & log1 & Hd).
  { unfold disable_adaptive_system_rate, with_err. destruct (has_adaptive setup).
    - rewrite run_bind. destruct (run_adaptive disable s w []) as (r & a & w' & log' & ->). by eexists _, a, w', log'.
    - exists (Ok tt), (adaptive s), w, []. by destruct s. }
  unfold drop_playback, Controller.shutdown. rewrite run_bind, run_and_then, Hd. specialize (Hstop a w1 log1).
  destruct r as [[]|e| |]; [|exact Hstop..]. rewrite run_bind. by destruct (run answer shutdown_player _ w1 log1) as [[[? s'] w'] log'].
Qed.
End Dropped.

(** ** An example: a Queue of two radio stations *)

(** JSON values as trees, of which a number is a station. *)
#[local] Instance trees : SerdeJson := {|
  Value := gen_tree Z; field _ _ := None; pointer _ _ := None; as_str _ := None; as_u64 _ := None; as_f64 _ := None;
  as_bool _ := None; as_array _ := None; is_object _ := false; is_number _ := false; Null := GenNode 0 [];
  String_ s := GenNode 1 (GenLeaf <$> s); Bool_ b := GenNode 2 [GenLeaf (if b : bool then 1 else 0)]; Float_ _ := GenNode 3 [];
  Int_ n := GenLeaf n; Array_ vs := GenNode 4 vs; Object_ _ := GenNode 5 []; insert_field _ _ _ := None;
  parse_values _ := inr []; to_uppercase s := s
|}.
#[local] Instance tree_stations : @SourceFormat trees := {|
  from_value (v : @Value trees) := match v with GenLeaf n => inr (RadioStation [n] [n]) | _ => inl (st "no source") end
|}.

(** An mpv that is what sounds of it. *)
Definition leaf_of (t : gen_tree Z) : Z := match t with GenLeaf n => n | _ => 0 end.
#[local] Instance plain_mpv : MpvPlayer.
Proof.
  refine {|
    mpv := option str; sounding := id;
    obey m v := match v with
                | GenNode 4 (c :: rest) =>
                    if bool_decide (c = String_ (st "loadfile")) then
                      match rest with GenNode 1 url :: _ => Some (leaf_of <$> url) | _ => m end
                    else if bool_decide (c = String_ (st "stop")) then None else m
                | _ => m
                end
  |}.
  - intros url m. cbn. rewrite bool_decide_eq_true_2 by done. unfold id. f_equal. induction url as [|c url IH]; [done|]. cbn. by rewrite IH.
  - done.
  - done.
Defined.

(** A player that takes every command and never has a format to report; the
    world is its clock. *)
Definition willing B (c : dcall B) (now : Z) : B * Z :=
  match c in dcall B return B * Z with
  | Command _ _ _ => (Ok (Null : Value), now)
  | StartPlayer => (Ok 1%nat, now)
  | ShutdownPlayer _ => (tt, now)
  | Receive _ => (NoEvent, now)
  | Acquire _ | Release => (Ok tt, now)
  | ObservePath => (Ok None, now)
  | ListRawDevices => (inr [], now)
  | AskAdaptive c =>
      (match c in acall B return B with
       | ForcedRate => Ok None
       | MarkerRequired => Ok false
       | EnsureAvailable | SetForcedRate _ | MarkRequired | ClearMarker => Ok tt
       end, now)
  | Now => (now, now)
  | Sleep d => (tt, now + Z.max 0 d)
  | Random => (λ _, None, now)
  | Publish _ => (tt, now)
  | ReportLoad _ => (tt, now)
  end.

#[local] Instance willing_clock : Clock willing.
Proof.
  refine {| clock := id |}; unfold id.
  - done.
  - intros B c w. destruct c; cbn; lia.
  - intros d w. cbn. lia.
  - done.
Defined.

Definition two_stations : Shared :=
  put_queue (mkQueue [Int_ 10; Int_ 11] [0; 1]%nat (Some 0%nat))
    (put_session (set_status Playing (set_source (Some (Int_ 10)) default_session)) (put_appended_urls {[0%nat := [11]]} (initial 0))).

(** The second station was appended: mpv plays it and is told nothing. *)
Lemma ended_event_advances_witness : ∃ r q a log,
  after_ended (Some [11]) (session two_stations) (queue two_stations) = (Ok r, q, []) ∧ current_index q = Some 1%nat ∧
  run willing (handle_ended_event (mkSetup true false true false)) two_stations 0 [] =
    (Ok r, advanced a (Ok r) q (put_appended_urls ∅ two_stations), 0, log) ∧ commands log = [] ∧
  s_source r = Some (Int_ 11) ∧ Session.playback_url (Int_ 11) = Ok [11].
Proof.
  assert (accepting willing) as Hw by (split; intros; [by eexists|done]).
  pose proof (ended_event_advances (mkSetup true false true false) willing Hw two_stations (Some [11]) 0) as H.
  assert (∃ r q, after_ended (appended_urls two_stations !! process two_stations) (session two_stations) (queue two_stations) = (Ok r, q, []) ∧
    s_status r = Playing ∧ s_source r = Some (Int_ 11) ∧ current_index q = Some 1%nat) as (r & q & Hq & Hst & Hso & Hi) by (eexists _, _; vm_compute; done).
  rewrite Hq in H. destruct H as ((a & log & Hrun & Hcs) & Hsounds); [done|reflexivity|].
  specialize (Hsounds ltac:(done)). rewrite Hst in Hsounds. destruct Hsounds as (v & url & Hv & Hurl & Hsnd).
  exists r, q, a, log. split; [exact Hq|]. split; [exact Hi|]. split; [exact Hrun|]. split; [exact Hcs|]. split; [exact Hso|].
  rewrite Hso in Hv. injection Hv as <-. cbn in Hsnd. injection Hsnd as <-. exact Hurl.
Defined.

Lemma waiting_for_device_ends_witness :
  ∃ e, device_answer willing None true two_stations 0 = Err e ∧ returns (device_answer willing None true two_stations 0).
Proof.
  eexists. split; [vm_compute; reflexivity|]. exact (waiting_for_device_ends willing None true two_stations 0).
Defined.
