(* ===== verification/SearchData.v ===== *)
(** Library Search text (searchdata.rs): how a name and a query are brought to
    the same form before they are compared. Unicode's tables and the regex crate
    are third-party code: a class. *)

From S2P Require Import Prelude Text.

(** The general categories the code tells apart. *)
Inductive GeneralCategory :=
| UppercaseLetter | LowercaseLetter | TitlecaseLetter | ModifierLetter | OtherLetter
| NonspacingMark
| DecimalNumber
| OtherCategory.
#[export] Instance general_category_eq_dec : EqDecision GeneralCategory.
Proof. solve_decision. Defined.

(** [captured pattern text] is the first group of each match. *)
Class Normalization := {
  get_general_category : Z → GeneralCategory;
  default_case_fold_str : str → str;
  to_nfc : str → str;
  to_nfd : str → str;
  captured : str → str → list str
}.

Definition VERSION_WORDS : list str :=
  st <$> ["live"; "remix"; "acoustic"; "instrumental"; "demo"; "remaster"; "radio edit"]%string.

Record Text := mkText {
  original : str;
  faithful : str;
  folded : str;
  compact : str;
  versions : list str
}.

Section SearchData.
Context {NZ : Normalization}.

Definition is_letter (category : GeneralCategory) : bool :=
  bool_decide (category ∈ [UppercaseLetter; LowercaseLetter; TitlecaseLetter; ModifierLetter; OtherLetter]).

Definition is_letter_or_digit (character : Z) : bool :=
  let category := get_general_category character in
  is_letter category || bool_decide (category = DecimalNumber).

(** Go's [strings.Join(strings.Fields(s), " ")]. *)
Definition fields (value : str) : str := join [32] (split_whitespace value).

(** What the loop of [fold_words] pushes for one character. *)
Definition fold_char (is_compact : bool) (character : Z) : str :=
  let category := get_general_category character in
  if bool_decide (category = NonspacingMark) then []
  else if character =? 305 then [105]
  else if is_letter category || bool_decide (category = DecimalNumber) then [character]
  else if is_whitespace character then [32]
  else if (character =? 39) || (character =? 8217) then []
  else if negb is_compact then [32]
  else [].

Definition fold_words (value : str) (is_compact : bool) : str :=
  fields (to_nfd value ≫= fold_char is_compact).

Definition prepare_text (value : str) : Text :=
  let folded_case := to_nfc (default_case_fold_str value) in
  let faithful := fields folded_case in
  mkText value faithful (fold_words faithful false) (fold_words faithful true) [].

Definition find_versions (value : str) : list str :=
  let words := [32] ++ value ++ [32] in
  filter (λ version,
    contains ([32] ++ version ++ [32]) words = true ∨
    (version = st "remaster" ∧ contains (st " remastered ") words = true)) VERSION_WORDS.

Definition with_versions (text : Text) (found : list str) : Text :=
  mkText (original text) (faithful text) (folded text) (compact text) found.

Definition prepare_query (value : str) : Text :=
  let text := prepare_text value in
  with_versions text (find_versions (folded text)).

(** The parenthesized sections. *)
Definition VERSION_SECTIONS : str := st "\(([^()]*)\)".

Definition push_new (found : list str) (version : str) : list str :=
  if bool_decide (version ∈ found) then found else found ++ [version].

Definition title_versions (value : str) : list str :=
  let sections := captured VERSION_SECTIONS value in
  let sections :=
    match split_once_str (st " - ") value with
    | Some (_, suffix) => sections ++ [suffix]
    | None => sections
    end in
  foldl (λ found section, foldl push_new found (find_versions (folded (prepare_text section)))) [] sections.

Definition prepare_stored (value kind : str) : Text :=
  let text := prepare_text value in
  if bool_decide (kind = st "track") || bool_decide (kind = st "album") then with_versions text (title_versions value)
  else text.

(** ** The two forms of one text *)

(** [c] is [f] without some of its spaces. *)
Inductive fewer_spaces : str → str → Prop :=
| fewer_nil : fewer_spaces [] []
| fewer_keep x f c : fewer_spaces f c → fewer_spaces (x :: f) (x :: c)
| fewer_drop x f c : is_whitespace x = true → fewer_spaces f c → fewer_spaces (x :: f) c.

Lemma fewer_app s f c : fewer_spaces f c → fewer_spaces (s ++ f) (s ++ c).
Proof. intros H. induction s; [done|]. by constructor. Qed.

Lemma fold_fewer l : fewer_spaces (l ≫= fold_char false) (l ≫= fold_char true).
Proof.
  induction l as [|x l IH]; [constructor|]. cbn. unfold fold_char at 1 3.
  repeat case_match; try (by apply fewer_app); cbn in *; try done. by constructor.
Qed.

(** The words of one form are those of the other, neighbours joined. *)
Definition joined (parts wholes : list str) : Prop :=
  ∃ groups : list (list str), parts = concat groups ∧ wholes = map (@concat Z) groups ∧ Forall (λ g, g ≠ []) groups.

Lemma fewer_segments f c : fewer_spaces f c → ∃ g groups,
  split is_whitespace f = concat (g :: groups) ∧ split is_whitespace c = map (@concat Z) (g :: groups) ∧ g ≠ [].
Proof.
  induction 1 as [|x f c Hfc (g & groups & Hf & Hc & Hg)|x f c Hx Hfc (g & groups & Hf & Hc & Hg)].
  - by exists [[]], [].
  - cbn [split]. destruct (is_whitespace x) eqn:Hx.
    + exists [[]], (g :: groups). by rewrite Hf, Hc.
    + destruct g as [|w g]; [done|]. rewrite Hf, Hc. by exists ((x :: w) :: g), groups.
  - exists ([] :: g), groups. cbn [split]. rewrite Hx, Hf, Hc. done.
Qed.

Lemma concat_filter (g : list str) : concat (filter (λ w, w ≠ []) g) = concat g.
Proof.
  induction g as [|[|x w] g IH]; [done|exact IH|]. rewrite filter_cons_True by done. cbn. by rewrite IH.
Qed.

Lemma joined_words gs : joined (filter (λ w, w ≠ []) (concat gs)) (filter (λ w, w ≠ []) (map (@concat Z) gs)).
Proof.
  exists (filter (λ g, g ≠ []) ((λ g, filter (λ w, w ≠ []) g) <$> gs)).
  induction gs as [|g gs (IH1 & IH2 & IH3)]; [done|].
  cbn [concat map fmap list_fmap]. rewrite filter_app, IH1. destruct (filter (λ w, w ≠ []) g) as [|w ws] eqn:Hg.
  - rewrite (filter_cons_False _ (concat g)) by (rewrite <-concat_filter, Hg; auto).
    rewrite (filter_cons_False _ []) by auto. done.
  - assert (w ∈ filter (λ w, w ≠ []) g) as [Hw _]%list_elem_of_filter by (rewrite Hg; left).
    rewrite (filter_cons_True _ (concat g)) by (rewrite <-concat_filter, Hg; by destruct w).
    rewrite (filter_cons_True _ (w :: ws)) by done. cbn [concat map]. rewrite IH2, <-(concat_filter g), Hg.
    split_and!; [done|done|by constructor].
Qed.

Lemma fewer_joined f c : fewer_spaces f c → joined (split_whitespace f) (split_whitespace c).
Proof.
  intros (g & groups & Hf & Hc & _)%fewer_segments. unfold split_whitespace. rewrite Hf, Hc. apply joined_words.
Qed.

Lemma split_whitespace_fields s : split_whitespace (fields s) = split_whitespace s.
Proof.
  unfold fields. destruct (decide (split_whitespace s = [])) as [->|Hs]; [done|]. by apply split_whitespace_join.
Qed.

(** [compact] joins what punctuation separates within a word, and never words
    that whitespace separates. *)
Theorem compact_joins_words value :
  joined (split_whitespace (folded (prepare_text value))) (split_whitespace (compact (prepare_text value))).
Proof. unfold prepare_text. cbn [folded compact]. unfold fold_words. rewrite !split_whitespace_fields. apply fewer_joined, fold_fewer. Qed.

Lemma joined_nil parts wholes : joined parts wholes → parts = [] ↔ wholes = [].
Proof.
  intros (groups & -> & -> & Hg). destruct groups as [|g groups]; [done|]. apply Forall_cons in Hg as [Hg _].
  by destruct g.
Qed.
End SearchData.

(** Plain letters and digits, for the examples. *)
Definition plain_normalization : Normalization := {|
  get_general_category c :=
    if in_range 97 122 c then LowercaseLetter else if in_range 65 90 c then UppercaseLetter
    else if is_digit c then DecimalNumber else OtherCategory;
  default_case_fold_str := map ascii_lower;
  to_nfc s := s;
  to_nfd s := s;
  captured _ _ := []
|}.
