(* ===== verification/Search.v ===== *)
(** Library Search: the prepared index (modules/search/index.rs) and how entities
    are matched and ranked (modules/search/rank.rs). *)

From S2P Require Import Prelude Text SearchData.

(** ** index.rs *)

Record PreparedText := mkPrepared {
  text : Text;
  faithful_words : list str;
  folded_words : list str;
  compact_words : list str
}.

Record FieldRef := mkField { field_name : str; related_id : str; field_text : PreparedText }.

Record Entity := mkEntity { kind : str; id : str; primary : PreparedText; related : list FieldRef }.

(** [Index]: the entities in their order. *)
Abbreviation Index := (list Entity).

Definition entity_fields (e : Entity) (name : str) : list FieldRef := filter (λ f, field_name f = name) (related e).

Definition fields (value : str) : list str := split_whitespace value.

Definition split_faithful `{Normalization} (faithful : str) : list str :=
  filter (λ word, word ≠ []) (trim_matches (λ c, negb (is_letter_or_digit c)) <$> split_whitespace faithful).

Definition new_prepared `{Normalization} (text : Text) : PreparedText :=
  mkPrepared text (split_faithful (faithful text)) (fields (folded text)) (fields (compact text)).

(** ** rank.rs *)

Definition CLASS_FULL_NAME : Z := 1.
Definition CLASS_PRIMARY_ONLY : Z := 2.
Definition CLASS_PRIMARY_RELATED : Z := 3.
Definition MAX_TOTAL_EDITS : nat := 2.
Definition GROUP_LIMIT : nat := 5.
Definition RELATED_KINDS : list str := st <$> ["album"; "track_artist"; "album_artist"]%string.

Record Query := mkQuery {
  variants : list (list str);
  query_faithful : list str;
  query_versions : list str;
  single : bool
}.

Definition new_query `{Normalization} (t : Text) : Query :=
  mkQuery
    (fields (folded t) :: if bool_decide (compact t = folded t) then [] else [fields (compact t)])
    (split_faithful (faithful t)) (versions t) (bool_decide (length (folded t) = 1%nat)).

(** [Query::is_empty]; [self.variants[0]] is always there. *)
Definition is_empty {E} (q : Query) : outcome E bool :=
  first ← index (variants q) 0; Ok (bool_decide (first = [])).

Definition max_edits (word : str) : nat :=
  if (length word <=? 3)%nat then 0 else if (length word <=? 7)%nat then 1 else 2.

Inductive MatchKind := NoMatch | Full | Prefix | Fuzzy.
#[export] Instance match_kind_eq_dec : EqDecision MatchKind.
Proof. solve_decision. Defined.

(** The derived order of [MatchKind]. *)
Definition kind_rank (k : MatchKind) : nat := match k with NoMatch => 0 | Full => 1 | Prefix => 2 | Fuzzy => 3 end.

Record WordMatch := mkMatch { match_kind : MatchKind; edits : nat }.
#[export] Instance word_match_eq_dec : EqDecision WordMatch.
Proof. solve_decision. Defined.

Definition NO_MATCH : WordMatch := mkMatch NoMatch 0.

Definition matches (m : WordMatch) : bool := bool_decide (match_kind m ≠ NoMatch).

Definition better (a b : WordMatch) : bool :=
  if negb (matches a) || negb (matches b) then matches a
  else if bool_decide (edits a ≠ edits b) then (edits a <? edits b)%nat
  else (kind_rank (match_kind a) <? kind_rank (match_kind b))%nat.

Section Rank.
Context {NZ : Normalization} {E : Type}.

(** [v[i]] and [v[i] = x] panic outside the vector. *)
Definition get_at {A} (v : list A) (i : nat) : outcome E A :=
  match v !! i with Some x => Ok x | None => Panic end.
Definition set_at {A} (v : list A) (i : nat) (x : A) : outcome E (list A) :=
  if decide (i < length v)%nat then Ok (<[i := x]> v) else Panic.

(** A [for] loop whose body may panic. *)
Fixpoint for_each {A S} (body : A → S → outcome E S) (items : list A) (s : S) : outcome E S :=
  match items with
  | [] => Ok s
  | x :: items => s ← body x s; for_each body items s
  end.

(** The body of the inner loop of [edit_distance]. *)
Definition cell (left right : str) (older previous : list nat) (i j : nat) (current : list nat) : outcome E (list nat) :=
  x ← get_at left (i - 1); y ← get_at right (j - 1);
  let cost := if bool_decide (x = y) then 0%nat else 1%nat in
  above ← get_at previous j; before ← get_at current (j - 1); diagonal ← get_at previous (j - 1);
  let value := Nat.min (Nat.min (above + 1) (before + 1)) (diagonal + cost) in
  value ←
    if (1 <? i)%nat && (1 <? j)%nat then
      y' ← get_at right (j - 2);
      if bool_decide (x = y') then
        x' ← get_at left (i - 2);
        if bool_decide (x' = y) then swapped ← get_at older (j - 2); Ok (Nat.min value (swapped + 1))
        else Ok value
      else Ok value
    else Ok value;
  set_at current j value.

(** The body of the outer loop, on the rows [(older, previous, current)]. *)
Definition row (left right : str) (i : nat) (rows : list nat * list nat * list nat) : outcome E (list nat * list nat * list nat) :=
  let '(older, previous, current) := rows in
  current ← set_at current 0 i;
  current ← for_each (cell left right older previous i) (seq 1 (length right)) current;
  Ok (previous, current, older).

Definition edit_distance (a b : str) (limit : nat) : outcome E nat :=
  if bool_decide (a = b) then Ok 0%nat
  else if bool_decide (limit = 0%nat) then Ok 1%nat
  else if (limit <? Nat.max (length a) (length b) - Nat.min (length a) (length b))%nat then Ok (limit + 1)%nat
  else
    let width := S (length b) in
    '(_, previous, _) ← for_each (row a b) (seq 1 (length a)) (replicate width 0%nat, seq 0 width, replicate width 0%nat);
    get_at previous (length b).

(** The loop of [match_word] over the words of one variant: what it returns, or
    the best match so far. *)
Fixpoint match_words (word : str) (allow_prefix : bool) (limit : nat) (words : list str) (best : WordMatch)
    : outcome E (WordMatch + WordMatch) :=
  match words with
  | [] => Ok (inr best)
  | candidate :: words =>
      if bool_decide (candidate = word) then Ok (inl (mkMatch Full 0))
      else
        let best := if allow_prefix && starts_with word candidate then mkMatch Prefix 0 else best in
        best ←
          if (0 <? limit)%nat && bool_decide (match_kind best ≠ Prefix) then
            n ← edit_distance word candidate limit;
            Ok (if (n <=? limit)%nat && (negb (matches best) || (n <? edits best)%nat) then mkMatch Fuzzy n else best)
          else Ok best;
        match_words word allow_prefix limit words best
  end.

Definition match_word (word : str) (t : PreparedText) (allow_prefix : bool) (limit : nat) : outcome E WordMatch :=
  first ← match_words word allow_prefix limit (folded_words t) NO_MATCH;
  match first with
  | inl m => Ok m
  | inr best =>
      if bool_decide (compact (text t) = folded (text t)) then Ok best
      else
        second ← match_words word allow_prefix limit (compact_words t) best;
        Ok (match second with inl m | inr m => m end)
  end.

Record Candidate := mkCandidate {
  entity : Entity;
  class : Z;
  candidate_edits : nat;
  prefix_dependent : bool;
  faithful_count : nat;
  candidate_version_rank : Z;
  name : str;
  secondary : str
}.

Definition new_candidate (e : Entity) : Candidate := mkCandidate e 0 0 false 0 0 (folded (text (primary e))) [].

(** [<] on strings. *)
Definition str_ltb (a b : str) : bool := negb (str_leb b a).

Definition less (a b : Candidate) : bool :=
  if bool_decide (class a ≠ class b) then class a <? class b
  else if bool_decide (candidate_edits a ≠ candidate_edits b) then (candidate_edits a <? candidate_edits b)%nat
  else if bool_decide (prefix_dependent a ≠ prefix_dependent b) then negb (prefix_dependent a)
  else if bool_decide (faithful_count a ≠ faithful_count b) then (faithful_count b <? faithful_count a)%nat
  else if bool_decide (candidate_version_rank a ≠ candidate_version_rank b) then candidate_version_rank a <? candidate_version_rank b
  else if bool_decide (name a ≠ name b) then str_ltb (name a) (name b)
  else if bool_decide (secondary a ≠ secondary b) then str_ltb (secondary a) (secondary b)
  else if bool_decide (id (entity a) ≠ id (entity b)) then str_ltb (id (entity a)) (id (entity b))
  else str_ltb (kind (entity a)) (kind (entity b)).

(** The loop of [choose]; the accumulator is [(chosen, in_primary, total)]. *)
Fixpoint choose_loop (minimize_edits : bool) (primary related : list WordMatch) (acc : list WordMatch * nat * nat)
    : outcome E (list WordMatch * nat * nat) :=
  match primary with
  | [] => Ok acc
  | p :: primary =>
      match related with
      | [] => Panic
      | r :: related =>
          let '(chosen, in_primary, total) := acc in
          let use_primary := matches p && negb (minimize_edits && matches r && (edits r <? edits p)%nat) in
          let choice := if use_primary then p else r in
          choose_loop minimize_edits primary related
            (chosen ++ [choice], if use_primary then S in_primary else in_primary, (total + edits choice)%nat)
      end
  end.

(** What a title or name contribution costs more than what was chosen. *)
Definition cost (primary chosen : list WordMatch) (i : nat) : outcome E Z :=
  p ← get_at primary i; c ← get_at chosen i; Ok (Z.of_nat (edits p) - Z.of_nat (edits c)).

Definition cheapest (primary chosen : list WordMatch) (i : nat) (best : option nat) : outcome E (option nat) :=
  choice ← get_at primary i;
  if matches choice then
    match best with
    | None => Ok (Some i)
    | Some b => mine ← cost primary chosen i; theirs ← cost primary chosen b; Ok (Some (if mine <? theirs then i else b))
    end
  else Ok best.

Definition choose (primary related : list WordMatch) (minimize_edits : bool) : outcome E (list WordMatch * nat * nat) :=
  '(chosen, in_primary, total) ← choose_loop minimize_edits primary related ([], 0%nat, 0%nat);
  if minimize_edits && bool_decide (in_primary = 0%nat) then
    best ← for_each (cheapest primary chosen) (seq 0 (length primary)) None;
    match best with
    | Some b =>
        p ← get_at primary b; c ← get_at chosen b;
        let total := Z.to_nat ((Z.of_nat total + Z.of_nat (edits p) - Z.of_nat (edits c)) mod 2 ^ 64) in
        chosen ← set_at chosen b p;
        Ok (chosen, 1%nat, total)
    | None => Ok (chosen, in_primary, total)
    end
  else Ok (chosen, in_primary, total).

(** The loop over the words of [aligned_edits]: the edits, or that they are too many. *)
Fixpoint aligned_words (words primary : list str) (limits : list nat) (total : nat) : outcome E (option nat) :=
  match words with
  | [] => Ok (Some total)
  | word :: words =>
      match primary with
      | [] => Panic
      | other :: primary =>
          if bool_decide (word = other) then aligned_words words primary (tail limits) total
          else
            limit ← get_at limits 0;
            n ← edit_distance word other limit;
            if (limit <? n)%nat then Ok None else aligned_words words primary (tail limits) (total + n)
      end
  end.

Definition aligned_variant (words primary : list str) (limits : list nat) (best : option nat) : outcome E (option nat) :=
  if bool_decide (length primary ≠ length words) then Ok best
  else
    total ← aligned_words words primary limits 0;
    Ok (match total with
        | Some n => if (n <=? MAX_TOTAL_EDITS)%nat && match best with None => true | Some b => (n <? b)%nat end then Some n else best
        | None => best
        end).

Definition aligned_edits (words : list str) (t : PreparedText) (limits : list nat) : outcome E (option nat) :=
  best ← aligned_variant words (folded_words t) limits None;
  if bool_decide (compact (text t) = folded (text t)) then Ok best
  else aligned_variant words (compact_words t) limits best.

Definition has_faithful (t : PreparedText) (word : str) (allow_prefix : bool) : bool :=
  existsb (λ candidate, bool_decide (candidate = word) || (allow_prefix && starts_with word candidate)) (faithful_words t).

Definition faithful_score (query_words : list str) (item : Entity) (allow_prefix : bool) : nat :=
  let last := (Z.of_nat (length query_words) - 1) mod 2 ^ 64 in
  length (filter (λ '(i, word),
    let prefix := allow_prefix && (Z.of_nat i =? last) in
    has_faithful (primary item) word prefix || existsb (λ f, has_faithful (field_text f) word prefix) (related item) = true)
    (imap pair query_words)).

Definition version_rank (requested stored : list str) : Z :=
  if bool_decide (requested = []) then (if bool_decide (stored = []) then 0 else 1)
  else if existsb (λ version, negb (bool_decide (version ∈ stored))) requested then 1 else 0.

Definition secondary_text (item : Entity) : str :=
  join (st " / ") ((λ f, folded (text (field_text f))) <$> filter (λ f, field_name f ∈ RELATED_KINDS) (related item)).

Definition finish (class : Z) (n : nat) (prefix : bool) (query : Query) (item : Entity) (allow_prefix : bool) : Candidate :=
  mkCandidate item class n prefix (faithful_score (query_faithful query) item allow_prefix)
    (version_rank (query_versions query) (versions (text (primary item)))) (folded (text (primary item))) [].

(** The best match of a word among the related fields. *)
Definition match_related (word : str) (fields : list FieldRef) (allow_prefix : bool) (limit : nat) : outcome E WordMatch :=
  for_each (λ f best, candidate ← match_word word (field_text f) allow_prefix limit;
                      Ok (if better candidate best then candidate else best)) fields NO_MATCH.

(** The loop over the query's words: their matches in the primary text and in the
    related fields, or that one word has neither. *)
Fixpoint match_all (item : Entity) (last : nat) (limits : list nat) (i : nat) (words : list str)
    : outcome E (option (list WordMatch * list WordMatch)) :=
  match words with
  | [] => Ok (Some ([], []))
  | word :: words =>
      limit ← get_at limits i;
      p ← match_word word (primary item) (bool_decide (i = last)) limit;
      r ← match_related word (related item) (bool_decide (i = last)) limit;
      if negb (matches p) && negb (matches r) then Ok None
      else
        rest ← match_all item last limits (S i) words;
        Ok ('(ps, rs) ← rest; Some (p :: ps, r :: rs))
  end.

Definition evaluate_variant (item : Entity) (words : list str) (query : Query) (fuzzy : bool) : outcome E (option Candidate) :=
  let limits := if fuzzy then max_edits <$> words else replicate (length words) 0%nat in
  if single query then
    if bool_decide (words ≠ folded_words (primary item)) && bool_decide (words ≠ compact_words (primary item)) then Ok None
    else Ok (Some (finish CLASS_FULL_NAME 0 false query item false))
  else
    whole ← aligned_edits words (primary item) limits;
    match whole with
    | Some n => Ok (Some (finish CLASS_FULL_NAME n false query item false))
    | None =>
        match words with
        | [] => Panic
        | _ :: before =>
            found ← match_all item (length before) limits 0 words;
            match found with
            | None => Ok None
            | Some (ps, rs) =>
                first ← choose ps rs false;
                chosen ←
                  (if (MAX_TOTAL_EDITS <? first.2)%nat then
                     second ← choose ps rs true;
                     Ok (if (MAX_TOTAL_EDITS <? second.2)%nat then None else Some second)
                   else Ok (Some first));
                Ok ('(choices, in_primary, total) ← chosen;
                    class ←
                      (if bool_decide (in_primary = length words) then Some CLASS_PRIMARY_ONLY
                       else if (0 <? in_primary)%nat then Some CLASS_PRIMARY_RELATED
                       else None);
                    Some (finish class total (existsb (λ c, bool_decide (match_kind c = Prefix)) choices) query item true))
            end
        end
    end.

Definition set_secondary (c : Candidate) (text : str) : Candidate :=
  mkCandidate (entity c) (class c) (candidate_edits c) (prefix_dependent c) (faithful_count c) (candidate_version_rank c) (name c) text.

(** The body of the loop of [evaluate]. *)
Definition evaluate_next (item : Entity) (query : Query) (fuzzy : bool) (words : list str) (best : option Candidate)
    : outcome E (option Candidate) :=
  result ← evaluate_variant item words query fuzzy;
  Ok (match result, best with
      | Some r, Some b => if less r b then Some r else best
      | Some r, None => Some r
      | None, _ => best
      end).

Definition evaluate (item : Entity) (query : Query) (fuzzy : bool) : outcome E (option Candidate) :=
  best ← for_each (evaluate_next item query fuzzy) (variants query) None;
  Ok (match best with Some b => Some (set_secondary b (secondary_text item)) | None => None end).

Inductive Match := Direct | Corrected.
Definition match_str (m : Match) : str := match m with Direct => st "direct" | Corrected => st "corrected" end.

Record Ranked := mkRanked {
  best_match : option Entity;
  groups : gmap str (list Entity);
  matched : Match;
  total : nat
}.

(** [slice::sort_by], which is stable: [x] goes before the first element it is not
    greater than, among those that came after it. *)
Fixpoint insert_by {A} (compare : A → A → comparison) (x : A) (sorted : list A) : list A :=
  match sorted with
  | [] => [x]
  | y :: sorted => match compare x y with Gt => y :: insert_by compare x sorted | _ => x :: y :: sorted end
  end.
Definition sort_by {A} (compare : A → A → comparison) (l : list A) : list A := foldr (insert_by compare) [] l.

Definition compare_candidates (a b : Candidate) : comparison :=
  if less a b then Lt else if less b a then Gt else Eq.

(** The candidates among [items], in their order. *)
Fixpoint collect (query : Query) (fuzzy : bool) (items : list Entity) : outcome E (list Candidate) :=
  match items with
  | [] => Ok []
  | item :: items =>
      found ← evaluate item query fuzzy;
      rest ← collect query fuzzy items;
      Ok (match found with Some c => c :: rest | None => rest end)
  end.

Definition evaluate_all (index : Index) (query : Query) (fuzzy : bool) (hidden_kind : option str) : outcome E (list Candidate) :=
  candidates ← collect query fuzzy (filter (λ item, hidden_kind ≠ Some (kind item)) index);
  Ok (sort_by compare_candidates candidates).

Definition add_to_group (all : bool) (groups : gmap str (list Entity)) (c : Candidate) : gmap str (list Entity) :=
  let group := default [] (groups !! kind (entity c)) in
  <[kind (entity c) := if all || (length group <? GROUP_LIMIT)%nat then group ++ [entity c] else group]> groups.

Definition assemble (candidates : list Candidate) (matched : Match) (all : bool) : Ranked :=
  mkRanked None (foldl (add_to_group all) ∅ candidates) matched (length candidates).

Definition rank (index : Index) (query : Query) (all : bool) (hidden_kind : option str) : outcome E Ranked :=
  strong ← evaluate_all index query false hidden_kind;
  match strong with
  | best :: _ =>
      let ranked := assemble strong Direct all in
      Ok (mkRanked (Some (entity best)) (groups ranked) (matched ranked) (total ranked))
  | [] =>
      corrected ← evaluate_all index query true hidden_kind;
      Ok (assemble corrected Corrected all)
  end.
End Rank.

(** Two artists, for the examples. *)
#[local] Existing Instance plain_normalization.
Definition example_artist (name id : string) : Entity :=
  mkEntity (st "artist") (st id) (new_prepared (prepare_stored (st name) (st "artist"))) [].
Definition example_index : Index := [example_artist "AC/DC" "a1"; example_artist "Beyonce Knowles" "a2"].
Definition example_query (text : string) : Query := new_query (prepare_query (st text)).
