(* ===== verification/EditDistance.v ===== *)
(** The distance of two words ([edit_distance] of modules/search/rank.rs): the rows
    it fills hold, cell by cell, the cheapest way of turning one word into the
    other by inserting, dropping, replacing and swapping neighbouring characters. *)

From S2P Require Import Prelude Text SearchData Search.

(** [align a b n]: [n] edits turn [a] into [b], each character edited once. *)
Inductive align : str → str → nat → Prop :=
| align_nil : align [] [] 0
| align_keep x a b n : align a b n → align (x :: a) (x :: b) n
| align_replace x y a b n : align a b n → align (x :: a) (y :: b) (S n)
| align_drop x a b n : align a b n → align (x :: a) b (S n)
| align_insert y a b n : align a b n → align a (y :: b) (S n)
| align_swap x y a b n : align a b n → align (x :: y :: a) (y :: x :: b) (S n).

(** The fewest edits. *)
Definition distance (a b : str) (n : nat) : Prop := align a b n ∧ ∀ m, align a b m → (n <= m)%nat.

Lemma align_app a b c d n m : align a b n → align c d m → align (a ++ c) (b ++ d) (n + m).
Proof. intros H Hcd. induction H; cbn; by try constructor. Qed.

Lemma align_refl a : align a a 0.
Proof. induction a; by constructor. Qed.

Lemma align_zero a b : align a b 0 → a = b.
Proof. remember 0%nat as n. induction 1; try done. by rewrite IHalign. Qed.

Lemma align_length a b n : align a b n → (length a <= length b + n ∧ length b <= length a + n)%nat.
Proof. induction 1; cbn; lia. Qed.

Lemma align_reverse a b n : align a b n → align (reverse a) (reverse b) n.
Proof.
  induction 1 as [|x a b n _ IH|x y a b n _ IH|x a b n _ IH|y a b n _ IH|x y a b n _ IH]; rewrite ?reverse_cons; [constructor|..].
  - replace n with (n + 0)%nat by lia. apply align_app; [done|by repeat constructor].
  - replace (S n) with (n + 1)%nat by lia. apply align_app; [done|by repeat constructor].
  - rewrite <-(app_nil_r (reverse b)). replace (S n) with (n + 1)%nat by lia. apply align_app; [done|by repeat constructor].
  - rewrite <-(app_nil_r (reverse a)). replace (S n) with (n + 1)%nat by lia. apply align_app; [done|by repeat constructor].
  - rewrite <-!app_assoc. replace (S n) with (n + 1)%nat by lia. apply align_app; [done|apply align_swap, align_nil].
Qed.

Lemma distance_reverse a b n : distance (reverse a) (reverse b) n → distance a b n.
Proof.
  intros [H Hmin]. split.
  - rewrite <-(reverse_involutive a), <-(reverse_involutive b). by apply align_reverse.
  - intros m Hm. by apply Hmin, align_reverse.
Qed.

Lemma distance_nil_l b : distance [] b (length b).
Proof.
  split; [induction b; by constructor|]. intros m Hm%align_length. cbn in Hm. lia.
Qed.
Lemma distance_nil_r a : distance a [] (length a).
Proof.
  split; [induction a; by constructor|]. intros m Hm%align_length. cbn in Hm. lia.
Qed.

(** What a cell adds to its neighbours. *)
Definition cheapest_edit (x y : Z) (above before diagonal : nat) : nat :=
  Nat.min (Nat.min (above + 1) (before + 1)) (diagonal + (if bool_decide (x = y) then 0 else 1)).

Lemma cheapest_edit_reached x y a b u v w :
  align a (y :: b) u → align (x :: a) b v → align a b w → align (x :: a) (y :: b) (cheapest_edit x y u v w).
Proof.
  intros Hu Hv Hw. unfold cheapest_edit. case_bool_decide as Hxy;
    repeat (apply Nat.min_case); rewrite ?Nat.add_1_r, ?Nat.add_0_r; try (by constructor); subst; by constructor.
Qed.

(** A cell whose characters are not swapped. *)
Lemma distance_cell x y a b u v w :
  distance a (y :: b) u → distance (x :: a) b v → distance a b w →
  (∀ a' b', a = y :: a' → b = x :: b' → False) →
  distance (x :: a) (y :: b) (cheapest_edit x y u v w).
Proof.
  intros [Hu Hu'] [Hv Hv'] [Hw Hw'] Hno. split; [by apply cheapest_edit_reached|].
  intros m Hm. unfold cheapest_edit. inversion Hm; subst.
  all: try match goal with H : align _ _ _ |- _ => first [apply Hu' in H|apply Hv' in H|apply Hw' in H] end;
    try (case_bool_decide; [|done]); try lia.
  all: try (by edestruct Hno). all: case_bool_decide; lia.
Qed.

(** One whose characters are those before it, swapped. *)
Lemma distance_cell_swap x y a b u v w s :
  distance (y :: a) (y :: x :: b) u → distance (x :: y :: a) (x :: b) v → distance (y :: a) (x :: b) w → distance a b s →
  distance (x :: y :: a) (y :: x :: b) (Nat.min (cheapest_edit x y u v w) (s + 1)).
Proof.
  intros [Hu Hu'] [Hv Hv'] [Hw Hw'] [Hs Hs']. split.
  - apply Nat.min_case; [by apply cheapest_edit_reached|]. rewrite Nat.add_1_r. by constructor.
  - intros m Hm. unfold cheapest_edit. inversion Hm; subst.
    all: repeat match goal with H : align _ _ _ |- _ => first [apply Hu' in H|apply Hv' in H|apply Hw' in H|apply Hs' in H] end.
    all: case_bool_decide; try done; lia.
Qed.

(** ** The loops *)

(** A loop over consecutive numbers keeps what its body keeps. *)
Lemma for_each_seq {E T} (P : nat → T → Prop) (body : nat → T → outcome E T) start n s :
  P start s → (∀ k s, (start <= k < start + n)%nat → P k s → ∃ s', body k s = Ok s' ∧ P (S k) s') →
  ∃ s', for_each body (seq start n) s = Ok s' ∧ P (start + n)%nat s'.
Proof.
  revert start s. induction n as [|n IH]; intros start s Hs Hbody; cbn.
  - exists s. by rewrite Nat.add_0_r.
  - destruct (Hbody start s) as (s' & -> & Hs'); [lia|done|]. cbn.
    destruct (IH (S start) s' Hs') as (s'' & -> & Hs''); [|exists s''; split; [done|by rewrite Nat.add_succ_r]].
    intros k t Hk. apply Hbody. lia.
Qed.

Lemma get_at_lt {E A} (v : list A) i : (i < length v)%nat → ∃ x, v !! i = Some x ∧ @get_at E A v i = Ok x.
Proof. intros [x Hx]%lookup_lt_is_Some. exists x. unfold get_at. by rewrite Hx. Qed.

Lemma set_at_lt {E A} (v : list A) i x : (i < length v)%nat → @set_at E A v i x = Ok (<[i := x]> v).
Proof. intros Hi. unfold set_at. by rewrite decide_True. Qed.

(** The first [i] characters, last one first. *)
Definition back (l : str) (i : nat) : str := reverse (take i l).

Lemma back_S l i x : l !! i = Some x → back l (S i) = x :: back l i.
Proof. intros Hx. unfold back. by rewrite (take_S_r _ _ _ Hx), reverse_app. Qed.

Lemma back_all l : back l (length l) = reverse l.
Proof. unfold back. by rewrite take_ge. Qed.

Section Rows.
Context {E : Type} (left right : str).

(** The first [n] cells of row [i]. *)
Definition filled (i n : nat) (cells : list nat) : Prop :=
  length cells = S (length right) ∧
  ∀ j d, (j < n)%nat → cells !! j = Some d → distance (back left i) (back right j) d.

Definition width := S (length right).

Lemma cell_correct i j older previous current :
  (i < length left)%nat → (j < length right)%nat → (0 < i → filled (i - 1) width older)%nat → filled i width previous → filled (S i) (S j) current →
  ∃ current', @cell E left right older previous (S i) (S j) current = Ok current' ∧ filled (S i) (S (S j)) current'.
Proof.
  intros Hi Hj Holder [Hpl Hp] [Hcl Hc]. unfold width in *. unfold cell. rewrite !Nat.sub_succ, !Nat.sub_0_r.
  destruct (@get_at_lt E Z left i Hi) as (x & Hx & ->). destruct (@get_at_lt E Z right j Hj) as (y & Hy & ->).
  destruct (@get_at_lt E nat previous (S j) ltac:(lia)) as (u & Hu & ->).
  destruct (@get_at_lt E nat current j ltac:(lia)) as (v & Hv & ->).
  destruct (@get_at_lt E nat previous j ltac:(lia)) as (w & Hw & ->).
  cbn [mbind outcome_bind]. fold (cheapest_edit x y u v w).
  apply Hp in Hu; [|lia]. apply Hp in Hw; [|lia]. apply Hc in Hv; [|lia].
  rewrite (back_S _ _ _ Hx) in Hv. rewrite (back_S _ _ _ Hy) in Hu.
  assert (∀ n, distance (x :: back left i) (y :: back right j) n →
    ∃ current', @set_at E nat current (S j) n = Ok current' ∧ filled (S i) (S (S j)) current') as Hset.
  { intros n Hn. rewrite set_at_lt by lia. eexists. split; [done|]. split; [by rewrite length_insert|].
    intros k d Hk. destruct (decide (k = S j)) as [->|Hne].
    - rewrite list_lookup_insert_eq by lia. intros [= <-]. by rewrite (back_S _ _ _ Hx), (back_S _ _ _ Hy).
    - rewrite list_lookup_insert_ne by done. apply Hc. lia. }
  pose proof (distance_cell x y _ _ _ _ _ Hu Hv Hw) as Hcell.
  destruct i as [|i]; [cbn; apply Hset, Hcell; by intros|]. destruct j as [|j]; [cbn; apply Hset, Hcell; by intros|].
  destruct (Holder ltac:(lia)) as [Hol Ho]. cbn [Nat.sub] in *. rewrite !Nat.sub_0_r in *.
  destruct (@get_at_lt E Z right j ltac:(lia)) as (y' & Hy' & ->). destruct (@get_at_lt E Z left i ltac:(lia)) as (x' & Hx' & ->).
  destruct (@get_at_lt E nat older j ltac:(lia)) as (s & Hs & ->). apply Ho in Hs; [|lia].
  rewrite (back_S _ _ _ Hx'), (back_S _ _ _ Hy') in *. cbn [mbind outcome_bind Nat.ltb Nat.leb andb].
  case_bool_decide as H1; [case_bool_decide as H2|]; cbn; apply Hset; [|apply Hcell..].
  - subst. by apply distance_cell_swap.
  - intros ?? [= <- _]. done.
  - intros ?? _ [= <- _]. done.
Qed.

(** Before round [i] of the outer loop. *)
Definition rows_filled (i : nat) (rows : list nat * list nat * list nat) : Prop :=
  let '(older, previous, current) := rows in
  (0 < i)%nat ∧ length older = width ∧ ((1 < i)%nat → filled (i - 2) width older) ∧ filled (i - 1) width previous ∧ length current = width.

Lemma row_correct i rows : (0 < i <= length left)%nat → rows_filled i rows → ∃ rows', @row E left right i rows = Ok rows' ∧ rows_filled (S i) rows'.
Proof.
  intros Hi. destruct rows as [[older previous] current]. intros (_ & Hol & Ho & Hp & Hc). unfold width in *.
  destruct i as [|i]; [lia|]. cbn [row]. rewrite set_at_lt by lia. cbn [mbind outcome_bind].
  destruct (for_each_seq (filled (S i)) (@cell E left right older previous (S i)) 1 (length right) (<[0%nat := S i]> current)) as (c & -> & Hcc).
  - split; [by rewrite length_insert|]. intros j d Hj. destruct j; [|lia]. rewrite list_lookup_insert_eq by lia. intros [= <-].
    assert (S i = length (back left (S i))) as Hl by (unfold back; rewrite length_reverse, length_take; lia).
    rewrite Hl at 2. apply distance_nil_r.
  - intros [|j] s Hj Hs; [lia|]. cbn [Nat.add] in *. apply cell_correct; try done; try lia.
    + intros Hpos. specialize (Ho ltac:(lia)). by replace (i - 1)%nat with (S i - 2)%nat by lia.
    + by rewrite Nat.sub_succ, Nat.sub_0_r in Hp.
  - cbn. eexists. split; [done|]. cbn [Nat.sub Nat.add] in *. rewrite !Nat.sub_0_r in *.
    split; [lia|]. split; [apply Hp|]. split; [intros _; by replace (S (S i) - 2)%nat with i by lia|]. split; [by replace (S (S i) - 1)%nat with (S i) by lia|exact Hol].
Qed.

Lemma rows_correct : ∃ older previous current d,
  for_each (@row E left right) (seq 1 (length left)) (replicate width 0%nat, seq 0 width, replicate width 0%nat) = Ok (older, previous, current) ∧
  @get_at E nat previous (length right) = Ok d ∧ distance left right d.
Proof.
  destruct (for_each_seq rows_filled (@row E left right) 1 (length left) (replicate width 0%nat, seq 0 width, replicate width 0%nat))
    as ([[older previous] current] & -> & Hrows).
  - unfold width. cbn [rows_filled]. rewrite !length_replicate. split_and!; [lia|done|lia| |done].
    split; [by rewrite length_seq|]. intros j d Hj [-> Hd]%lookup_seq. cbn [Nat.sub Nat.add].
    assert (j = length (back right j)) as Hl by (unfold back; rewrite length_reverse, length_take; lia).
    rewrite Hl at 2. apply distance_nil_l.
  - intros k rows Hk. apply row_correct. lia.
  - destruct Hrows as (_ & _ & _ & [Hl Hp] & _). exists older, previous, current.
    destruct (@get_at_lt E nat previous (length right)) as (d & Hd & ->); [lia|]. exists d. split_and!; [done..|].
    apply Hp in Hd; [|unfold width; lia]. replace (1 + length left - 1)%nat with (length left) in Hd by lia.
    rewrite !back_all in Hd. by apply distance_reverse.
Qed.
End Rows.

(** C17: Whatever the limit, the result tells whether the distance is within it, and
    what it is then. *)
Theorem edit_distance_correct {E} a b limit :
  ∃ n d, @edit_distance E a b limit = Ok n ∧ distance a b d ∧ if (d <=? limit)%nat then n = d else (limit < n)%nat.
Proof.
  destruct (@rows_correct E a b) as (older & previous & current & d & Hrows & Hget & Hd). unfold edit_distance.
  destruct (decide (a = b)) as [->|Hab].
  { exists 0%nat, 0%nat. rewrite bool_decide_true by done. split_and!; [done| |done]. split; [apply align_refl|lia]. }
  rewrite (bool_decide_false _ Hab). assert (0 < d)%nat as Hpos.
  { destruct d; [|lia]. destruct Hd as [?%align_zero _]. done. }
  case_bool_decide as Hlim.
  { exists 1%nat, d. subst. split_and!; [done|done|]. destruct (Nat.leb_spec d 0); lia. }
  destruct (Nat.ltb_spec limit (Nat.max (length a) (length b) - Nat.min (length a) (length b))) as [Hlt|Hge].
  - exists (limit + 1)%nat, d. split_and!; [done|done|]. pose proof (align_length _ _ _ (proj1 Hd)).
    destruct (Nat.leb_spec d limit); lia.
  - unfold width in *. rewrite Hrows. cbn [mbind outcome_bind]. rewrite Hget. exists d, d. split_and!; [done|done|].
    by destruct (Nat.leb_spec d limit).
Qed.
