(* ===== verification/SearchMatch.v ===== *)
(** Which entities a query finds (modules/search/rank.rs): what one word matches,
    how the words are shared out between an entity's name and its credits, and
    that the cheapest way to do so is found. *)

From S2P Require Import Prelude Text SearchData Search EditDistance.

Section Matching.
Context {NZ : Normalization} {E : Type}.

(** ** One word *)

(** [candidate] reads as [word] with [n] edits. *)
Definition reads (word : str) (allow_prefix : bool) (limit : nat) (candidate : str) (n : nat) : Prop :=
  (allow_prefix = true ∧ starts_with word candidate = true ∧ n = 0%nat) ∨ (distance word candidate n ∧ (n <= limit)%nat).

(** The words of either variant of a text. *)
Definition all_words (t : PreparedText) : list str :=
  folded_words t ++ (if bool_decide (compact (text t) = folded (text t)) then [] else compact_words t).

Definition reads_in (words : list str) (word : str) (allow_prefix : bool) (limit n : nat) : Prop :=
  ∃ candidate, candidate ∈ words ∧ reads word allow_prefix limit candidate n.

(** [m] says whether a word of [words] reads as [word], and with how few edits. *)
Definition best_of (words : list str) (word : str) (allow_prefix : bool) (limit : nat) (m : WordMatch) : Prop :=
  if matches m then reads_in words word allow_prefix limit (edits m) ∧ ∀ n, reads_in words word allow_prefix limit n → (edits m <= n)%nat
  else ∀ n, ¬ reads_in words word allow_prefix limit n.

Lemma distance_unique a b n m : distance a b n → distance a b m → n = m.
Proof. intros [Hn Hn'] [Hm Hm']. specialize (Hn' _ Hm). specialize (Hm' _ Hn). lia. Qed.

Lemma distance_refl a : distance a a 0.
Proof. split; [apply align_refl|lia]. Qed.

Lemma reads_in_app ws vs word p limit n :
  reads_in (ws ++ vs) word p limit n ↔ reads_in ws word p limit n ∨ reads_in vs word p limit n.
Proof. unfold reads_in. setoid_rewrite elem_of_app. naive_solver. Qed.

Lemma reads_in_cons w ws word p limit n :
  reads_in (w :: ws) word p limit n ↔ reads word p limit w n ∨ reads_in ws word p limit n.
Proof. unfold reads_in. setoid_rewrite elem_of_cons. naive_solver. Qed.

Lemma best_of_nil word p limit : best_of [] word p limit NO_MATCH.
Proof. intros n (c & []%not_elem_of_nil & _). Qed.

(** An exact match, and a prefix, need no edits. *)
Lemma best_of_free ws word p limit m : matches m = true → edits m = 0%nat → reads_in ws word p limit 0 → best_of ws word p limit m.
Proof. intros Hm He Hr. unfold best_of. rewrite Hm, He. split; [done|lia]. Qed.

Lemma best_of_ext ws vs word p limit m :
  (∀ n, reads_in ws word p limit n ↔ reads_in vs word p limit n) → best_of ws word p limit m → best_of vs word p limit m.
Proof. intros H. unfold best_of. destruct (matches m); setoid_rewrite H; done. Qed.

Lemma best_of_swap ws v word p limit m : best_of (v :: ws) word p limit m ↔ best_of (ws ++ [v]) word p limit m.
Proof.
  split; apply best_of_ext; intros n; rewrite reads_in_app, !reads_in_cons; unfold reads_in;
    setoid_rewrite elem_of_nil; naive_solver.
Qed.

(** The body of the loop, for a candidate that is not the word itself. *)
Lemma best_of_next seen word p limit best candidate n d :
  best_of seen word p limit best → candidate ≠ word → p && starts_with word candidate = false →
  distance word candidate d → (if (d <=? limit)%nat then n = d else (limit < n)%nat) →
  best_of (candidate :: seen) word p limit
    (if (n <=? limit)%nat && (negb (matches best) || (n <? edits best)%nat) then mkMatch Fuzzy n else best).
Proof.
  intros Hbest Hne Hp Hd Hn.
  assert (∀ k, reads word p limit candidate k ↔ k = d ∧ (d <= limit)%nat) as Hreads.
  { intros k. unfold reads. split.
    - intros [(-> & Hs & _)|[Hk Hl]]; [by rewrite Hs in Hp|]. rewrite (distance_unique _ _ _ _ Hk Hd) in *. done.
    - intros [-> Hl]. by right. }
  assert (∀ k, reads_in (candidate :: seen) word p limit k ↔ (k = d ∧ (d <= limit)%nat) ∨ reads_in seen word p limit k) as Hin'.
  { intros k. by rewrite reads_in_cons, Hreads. }
  destruct (Nat.leb_spec d limit) as [Hl|Hl], (Nat.leb_spec n limit) as [Hl'|Hl']; try lia; subst; cbn [andb]; unfold best_of in *.
  - destruct (matches best) eqn:Hm; cbn [negb orb].
    + destruct Hbest as [Hin Hmin]. destruct (Nat.ltb_spec d (edits best)); [change (matches (mkMatch Fuzzy d)) with true|rewrite Hm]; cbn [edits].
      * split; [apply Hin'; by left|]. intros k [[-> _]|Hk]%Hin'; [lia|]. specialize (Hmin _ Hk). lia.
      * split; [apply Hin'; by right|]. intros k [[-> _]|Hk]%Hin'; [lia|by apply Hmin].
    + change (matches (mkMatch Fuzzy d)) with true. cbn [edits]. split; [apply Hin'; by left|].
      intros k [[-> _]|Hk]%Hin'; [lia|]. by apply Hbest in Hk.
  - destruct (matches best).
    + destruct Hbest as [Hin Hmin]. split; [apply Hin'; by right|]. intros k [[_ ?]|Hk]%Hin'; [lia|by apply Hmin].
    + intros k [[_ ?]|Hk]%Hin'; [lia|]. by apply Hbest in Hk.
Qed.

Lemma match_words_correct word p limit words seen best : best_of seen word p limit best →
  (match_kind best = Prefix → edits best = 0%nat) →
  ∃ r, @match_words E word p limit words best = Ok r ∧
    best_of (reverse words ++ seen) word p limit (match r with inl m | inr m => m end) ∧
    match r with inl m => m = mkMatch Full 0 | inr m => match_kind m = Prefix → edits m = 0%nat end.
Proof.
  revert seen best. induction words as [|candidate words IH]; intros seen best Hbest Hprefix; cbn [match_words].
  { by exists (inr best). }
  rewrite reverse_cons, <-app_assoc. cbn [app]. destruct (decide (candidate = word)) as [->|Hne].
  { rewrite bool_decide_true by done. exists (inl (mkMatch Full 0)). split; [done|]. split; [|done].
    apply best_of_free; [done..|]. rewrite reads_in_app, reads_in_cons. right. left. right. split; [apply distance_refl|lia]. }
  rewrite bool_decide_false by done.
  assert (∀ b, best_of (candidate :: seen) word p limit b → (match_kind b = Prefix → edits b = 0%nat) → ∃ r,
    @match_words E word p limit words b = Ok r ∧
    best_of (reverse words ++ candidate :: seen) word p limit (match r with inl m | inr m => m end) ∧
    match r with inl m => m = mkMatch Full 0 | inr m => match_kind m = Prefix → edits m = 0%nat end) as Hnext by (intros b; apply IH).
  destruct (p && starts_with word candidate) eqn:Hp.
  { rewrite (bool_decide_false (match_kind (mkMatch Prefix 0) ≠ Prefix)) by (intros H; by apply H). rewrite andb_false_r. cbn.
    apply Hnext; [|done]. apply andb_true_iff in Hp as [-> Hs]. apply best_of_free; [done..|]. rewrite reads_in_cons. by left; left. }
  destruct ((0 <? limit)%nat && bool_decide (match_kind best ≠ Prefix)) eqn:Hfuzzy; cbn.
  - destruct (@edit_distance_correct E word candidate limit) as (n & d & -> & Hd & Hn). cbn.
    apply Hnext; [by apply best_of_next with d|]. match goal with |- context [if ?b then mkMatch _ _ else _] => destruct b end; [by intros [=]|exact Hprefix].
  - apply Hnext; [|exact Hprefix]. unfold best_of in *. destruct (matches best) eqn:Hm.
    + destruct Hbest as [Hin Hmin]. setoid_rewrite reads_in_cons. split; [by right|].
      intros k [[(-> & Hs & _)|[Hd Hl]]|Hk]; [by rewrite Hs in Hp| |by apply Hmin].
      apply andb_false_iff in Hfuzzy as [Hz%Nat.ltb_ge|Hz%bool_decide_eq_false].
      * assert (k = 0%nat) as -> by lia. destruct Hd as [->%align_zero _]. done.
      * rewrite Hprefix; [lia|]. destruct (match_kind best); try done; by destruct Hz.
    + setoid_rewrite reads_in_cons. intros k [[(-> & Hs & _)|[Hd Hl]]|Hk]; [by rewrite Hs in Hp| |by apply Hbest in Hk].
      apply andb_false_iff in Hfuzzy as [Hz%Nat.ltb_ge|Hz%bool_decide_eq_false].
      * assert (k = 0%nat) as -> by lia. destruct Hd as [->%align_zero _]. done.
      * apply Hz. intros Heq. unfold matches in Hm. rewrite Heq in Hm. done.
Qed.

Lemma reads_in_reverse ws word p limit n : reads_in (reverse ws) word p limit n ↔ reads_in ws word p limit n.
Proof. unfold reads_in. by setoid_rewrite elem_of_reverse. Qed.

Lemma reads_in_nil word p limit n : ¬ reads_in [] word p limit n.
Proof. intros (c & []%not_elem_of_nil & _). Qed.

Lemma match_word_correct word t p limit : ∃ m, @match_word E word t p limit = Ok m ∧ best_of (all_words t) word p limit m.
Proof.
  unfold match_word, all_words.
  destruct (match_words_correct word p limit (folded_words t) [] NO_MATCH (best_of_nil _ _ _) ltac:(done)) as ([m|best] & -> & Hb & Hp); cbn.
  - exists m. split; [done|]. subst. apply best_of_free; [done..|]. apply reads_in_app. left.
    destruct Hb as [Hin _]. by rewrite app_nil_r, reads_in_reverse in Hin.
  - case_bool_decide.
    + exists best. split; [done|]. eapply best_of_ext; [|exact Hb]. intros n. by rewrite !app_nil_r, reads_in_reverse.
    + destruct (match_words_correct word p limit (compact_words t) _ best Hb Hp) as (r & -> & Hr & _). cbn.
      eexists. split; [done|]. eapply best_of_ext; [|exact Hr]. intros n.
      rewrite !reads_in_app, !reads_in_reverse. pose proof (reads_in_nil word p limit n). tauto.
Qed.

(** The words of all the related fields. *)
Definition related_words (fields : list FieldRef) : list str := fields ≫= λ f, all_words (field_text f).

Lemma best_of_better ws vs word p limit a b : best_of ws word p limit a → best_of vs word p limit b →
  best_of (ws ++ vs) word p limit (if better b a then b else a).
Proof.
  intros Ha Hb. unfold better, best_of in *. destruct (matches a) eqn:Hma, (matches b) eqn:Hmb; cbn [negb orb].
  - destruct Ha as [Ha Ha'], Hb as [Hb Hb'].
    destruct (if bool_decide (edits b ≠ edits a) then _ else _) eqn:Hif; [rewrite Hmb|rewrite Hma]; setoid_rewrite reads_in_app.
    + split; [by right|]. intros n [Hn%Ha'|Hn%Hb']; [|done]. revert Hif. case_bool_decide; [intros ?%Nat.ltb_lt|intros _]; lia.
    + split; [by left|]. intros n [Hn%Ha'|Hn%Hb']; [done|]. revert Hif. case_bool_decide; [intros ?%Nat.ltb_ge|intros _]; lia.
  - rewrite Hma. setoid_rewrite reads_in_app. destruct Ha as [Ha Ha']. split; [by left|]. intros n [Hn|Hn]; [by apply Ha'|by apply Hb in Hn].
  - rewrite Hmb. setoid_rewrite reads_in_app. destruct Hb as [Hb Hb']. split; [by right|]. intros n [Hn|Hn]; [by apply Ha in Hn|by apply Hb'].
  - rewrite Hma. setoid_rewrite reads_in_app. intros n [Hn|Hn]; [by apply Ha in Hn|by apply Hb in Hn].
Qed.

Lemma match_related_correct word fields p limit :
  ∃ m, @match_related E word fields p limit = Ok m ∧ best_of (related_words fields) word p limit m.
Proof.
  assert (∀ ws a, best_of ws word p limit a → ∃ m, for_each (λ f best,
    candidate ← @match_word E word (field_text f) p limit; Ok (if better candidate best then candidate else best)) fields a = Ok m ∧
    best_of (ws ++ related_words fields) word p limit m) as H.
  { induction fields as [|f fields IH]; intros ws a Ha; cbn [for_each].
    - exists a. split; [done|]. by rewrite app_nil_r.
    - destruct (match_word_correct word (field_text f) p limit) as (b & -> & Hb). cbn.
      destruct (IH _ _ (best_of_better _ _ _ _ _ _ _ Ha Hb)) as (m & -> & Hm). exists m. split; [done|].
      by rewrite <-app_assoc in Hm. }
  exact (H [] NO_MATCH (best_of_nil _ _ _)).
Qed.

(** ** Sharing the words out *)

(** A way to take each word from the name or from a related field: how many come
    from the name, and the edits in all. *)
Inductive picks : list WordMatch → list WordMatch → nat → nat → Prop :=
| picks_nil : picks [] [] 0 0
| picks_primary p r ps rs k t : matches p = true → picks ps rs k t → picks (p :: ps) (r :: rs) (S k) (edits p + t)
| picks_related p r ps rs k t : matches r = true → picks ps rs k t → picks (p :: ps) (r :: rs) k (edits r + t).

(** Every word is found somewhere, within two edits. *)
Definition found (p r : WordMatch) : Prop :=
  (matches p = true ∨ matches r = true) ∧ (matches p = true → (edits p <= 2)%nat) ∧ (matches r = true → (edits r <= 2)%nat).

Fixpoint sum_edits (ms : list WordMatch) : nat :=
  match ms with [] => 0 | m :: ms => edits m + sum_edits ms end.

Lemma picks_count ps rs k t : picks ps rs k t → (k <= length ps)%nat.
Proof. induction 1; cbn; lia. Qed.

Ltac same_triple := f_equal; f_equal; [f_equal|..]; first [lia|by rewrite <-app_assoc].

(** The loop that prefers the name uses it as often as can be. *)
Lemma choose_loop_most ps rs acc : Forall2 found ps rs →
  ∃ ch k t, @choose_loop E false ps rs acc = Ok (acc.1.1 ++ ch, (k + acc.1.2)%nat, (acc.2 + t)%nat) ∧ picks ps rs k t ∧
    ∀ k' t', picks ps rs k' t' → (k' <= k)%nat ∧ (k' = length ps → t' = t).
Proof.
  intros Hf. revert acc. induction Hf as [|p r ps rs [Hpr _] Hf IH]; intros [[ch0 k0] t0]; cbn [choose_loop fst snd].
  { exists [], 0%nat, 0%nat. rewrite app_nil_r, Nat.add_0_r. split_and!; [done|constructor|]. by inversion 1. }
  cbn [andb negb]. rewrite andb_true_r.
  destruct (IH (ch0 ++ [if matches p then p else r], if matches p then S k0 else k0, (t0 + edits (if matches p then p else r))%nat))
    as (ch & k & t & -> & Hp & Hmost). cbn [fst snd]. exists ((if matches p then p else r) :: ch).
  destruct (matches p) eqn:Hmp.
  - exists (S k), (edits p + t)%nat. split_and!; [by same_triple|by constructor|].
    intros k' t' Hk'. inversion Hk' as [|? ? ? ? k1 t1 _ H1|? ? ? ? k1 t1 _ H1]; subst.
    + destruct (Hmost _ _ H1) as [Hle Heq]. cbn. split; [lia|]. intros Hlen. rewrite Heq by lia. done.
    + destruct (Hmost _ _ H1) as [Hle Heq]. apply picks_count in H1. cbn. lia.
  - destruct Hpr as [?|Hmr]; [done|]. exists k, (edits r + t)%nat.
    split_and!; [by same_triple|by constructor|].
    intros k' t' Hk'. inversion Hk' as [|? ? ? ? k1 t1 Hm H1|? ? ? ? k1 t1 _ H1]; subst; [congruence|].
    destruct (Hmost _ _ H1) as [Hle Heq]. apply picks_count in H1. cbn. lia.
Qed.

(** What is left when the cheaper one is always a related field. *)
Definition outdone (p r : WordMatch) : Prop := matches r = true ∧ (matches p = true → (edits r < edits p)%nat).

Lemma choose_loop_cheapest ps rs acc : Forall2 found ps rs →
  ∃ ch k t, @choose_loop E true ps rs acc = Ok (acc.1.1 ++ ch, (k + acc.1.2)%nat, (acc.2 + t)%nat) ∧ picks ps rs k t ∧
    (∀ k' t', picks ps rs k' t' → (t <= t')%nat) ∧ (k = 0%nat → ch = rs ∧ t = sum_edits rs ∧ Forall2 outdone ps rs).
Proof.
  intros Hf. revert acc. induction Hf as [|p r ps rs [Hpr _] Hf IH]; intros [[ch0 k0] t0]; cbn [choose_loop fst snd].
  { exists [], 0%nat, 0%nat. rewrite app_nil_r, Nat.add_0_r. split_and!; [done|constructor|by inversion 1|]. done. }
  cbn [andb]. set (use := matches p && negb (matches r && (edits r <? edits p)%nat)).
  destruct (IH (ch0 ++ [if use then p else r], if use then S k0 else k0, (t0 + edits (if use then p else r))%nat))
    as (ch & k & t & -> & Hp & Hmin & Hzero). cbn [fst snd]. exists ((if use then p else r) :: ch).
  assert ((use = true ∧ matches p = true ∧ (matches r = true → (edits p <= edits r)%nat)) ∨ (use = false ∧ outdone p r)) as Huse.
  { subst use. unfold outdone. destruct (matches p), (matches r), (Nat.ltb_spec (edits r) (edits p)); cbn; naive_solver lia. }
  destruct Huse as [(-> & Hmp & Hle)|[-> Hout]].
  - exists (S k), (edits p + t)%nat. split_and!; [by same_triple|by constructor| |done].
    intros k' t' Hk'. inversion Hk' as [|? ? ? ? k1 t1 Hm H1|? ? ? ? k1 t1 Hm H1]; subst; apply Hmin in H1; [lia|]. specialize (Hle Hm). lia.
  - exists k, (edits r + t)%nat. destruct Hout as [Hmr Hlt].
    split_and!; [by same_triple|by constructor| |].
    + intros k' t' Hk'. inversion Hk' as [|? ? ? ? k1 t1 Hm H1|? ? ? ? k1 t1 Hm H1]; subst; apply Hmin in H1; [|lia]. specialize (Hlt Hm). lia.
    + intros Hk. destruct (Hzero Hk) as (-> & -> & Hout). split_and!; [done..|]. by constructor.
Qed.

(** When every word is cheaper in a related field, one of them has to change. *)
Lemma pick_one ps rs k t : Forall2 outdone ps rs → picks ps rs k t →
  (sum_edits rs <= t)%nat ∧
  ((0 < k)%nat → ∃ i p r, ps !! i = Some p ∧ rs !! i = Some r ∧ matches p = true ∧ (sum_edits rs + edits p <= t + edits r)%nat).
Proof.
  intros Hout Hp. induction Hp as [|p r ps rs k t Hm Hp IH|p r ps rs k t Hm Hp IH]; cbn; [lia|..];
    apply Forall2_cons_1 in Hout as [[Hmr Hlt] Hout]; destruct (IH Hout) as [Hle Hsome].
  - specialize (Hlt Hm). split; [lia|]. intros _. exists 0%nat, p, r. split_and!; [done..|lia].
  - split; [lia|]. intros Hk. destruct (Hsome Hk) as (i & p' & r' & Hp' & Hr' & Hm' & Hle'). exists (S i), p', r'. split_and!; [done..|lia].
Qed.

Lemma pick_swapped ps rs i p r : Forall2 outdone ps rs → ps !! i = Some p → rs !! i = Some r → matches p = true →
  ∃ t, picks ps rs 1 t ∧ (t + edits r = sum_edits rs + edits p)%nat.
Proof.
  intros Hout. revert i. induction Hout as [|p0 r0 ps rs [Hm0 _] Hout IH]; intros i; [done|]. destruct i as [|i]; cbn.
  - intros [= ->] [= ->] Hm. exists (edits p + sum_edits rs)%nat. split; [|lia]. constructor; [done|].
    clear IH. induction Hout as [|p1 r1 ps rs [Hm1 _] Hout IH]; [constructor|]. cbn. by constructor.
  - intros Hp Hr Hm. destruct (IH i Hp Hr Hm) as (t & Ht & Heq). exists (edits r0 + t)%nat. split; [by constructor|lia].
Qed.

(** The words before [n] that may be switched, and the one that costs least. *)
Definition cheapest_of (ps rs : list WordMatch) (n : nat) (best : option nat) : Prop :=
  match best with
  | None => ∀ i p, (i < n)%nat → ps !! i = Some p → matches p = false
  | Some b => ∃ p r, ps !! b = Some p ∧ rs !! b = Some r ∧ matches p = true ∧
      ∀ i p' r', (i < n)%nat → ps !! i = Some p' → rs !! i = Some r' → matches p' = true → (edits p + edits r' <= edits p' + edits r)%nat
  end.

Lemma cost_at ps rs i p r : ps !! i = Some p → rs !! i = Some r → @cost E ps rs i = Ok (Z.of_nat (edits p) - Z.of_nat (edits r)).
Proof. intros Hp Hr. unfold cost, get_at. by rewrite Hp, Hr. Qed.

Lemma cheapest_step ps rs n best : length ps = length rs → (n < length ps)%nat → cheapest_of ps rs n best →
  ∃ best', @cheapest E ps rs n best = Ok best' ∧ cheapest_of ps rs (S n) best'.
Proof.
  intros Hlen Hn Hbest. unfold cheapest. destruct (@get_at_lt E _ ps n Hn) as (p & Hp & ->). cbn [mbind outcome_bind].
  destruct (@get_at_lt E _ rs n ltac:(lia)) as (r & Hr & _). destruct (matches p) eqn:Hm.
  - destruct best as [b|]; cbn in Hbest.
    + destruct Hbest as (pb & rb & Hpb & Hrb & Hmb & Hmin). rewrite (cost_at _ _ _ _ _ Hp Hr), (cost_at _ _ _ _ _ Hpb Hrb). cbn [mbind outcome_bind].
      eexists. split; [done|]. destruct (Z.ltb_spec (Z.of_nat (edits p) - Z.of_nat (edits r)) (Z.of_nat (edits pb) - Z.of_nat (edits rb))).
      * exists p, r. split_and!; [done..|]. intros i p' r' Hi Hp' Hr' Hm'. destruct (decide (i = n)) as [->|]; [simplify_eq; lia|].
        specialize (Hmin i p' r' ltac:(lia) Hp' Hr' Hm'). lia.
      * exists pb, rb. split_and!; [done..|]. intros i p' r' Hi Hp' Hr' Hm'. destruct (decide (i = n)) as [->|]; [simplify_eq; lia|].
        by apply (Hmin i); [lia|..].
    + eexists. split; [done|]. exists p, r. split_and!; [done..|]. intros i p' r' Hi Hp' Hr' Hm'.
      destruct (decide (i = n)) as [->|]; [simplify_eq; lia|]. by rewrite (Hbest i p') in Hm' by (done || lia).
  - exists best. split; [done|]. destruct best as [b|]; cbn in *.
    + destruct Hbest as (pb & rb & Hpb & Hrb & Hmb & Hmin). exists pb, rb. split_and!; [done..|]. intros i p' r' Hi Hp' Hr' Hm'.
      destruct (decide (i = n)) as [->|]; [congruence|]. by apply (Hmin i); [lia|..].
    + intros i p' Hi Hp'. destruct (decide (i = n)) as [->|]; [congruence|]. by apply (Hbest i); [lia|].
Qed.

Lemma sum_edits_bound ps rs : Forall2 found ps rs → Forall2 outdone ps rs → (sum_edits rs <= 2 * length rs)%nat.
Proof.
  induction 1 as [|p r ps rs (_ & _ & Hr) _ IH]; intros Hout; cbn; [lia|]. apply Forall2_cons_1 in Hout as [[Hm _] Hout].
  specialize (IH Hout). specialize (Hr Hm). lia.
Qed.

(** A way with one word at least from the name, at the least cost. *)
Lemma choose_cheapest ps rs : Forall2 found ps rs → Z.of_nat (length ps) < 2 ^ 62 →
  ∃ ch k t, @choose E ps rs true = Ok (ch, k, t) ∧ picks ps rs k t ∧ ∀ k' t', picks ps rs (S k') t' → (0 < k)%nat ∧ (t <= t')%nat.
Proof.
  intros Hf Hlen. unfold choose. destruct (choose_loop_cheapest ps rs ([], 0%nat, 0%nat) Hf) as (ch & k & t & -> & Hp & Hmin & Hzero).
  cbn [fst snd mbind outcome_bind app andb]. rewrite Nat.add_0_r, Nat.add_0_l. case_bool_decide as Hk.
  2: { exists ch, k, t. split_and!; [done..|]. intros k' t' Hk'. split; [lia|by apply Hmin in Hk']. }
  destruct (Hzero Hk) as (-> & Ht & Hout). pose proof (Forall2_length _ _ _ Hf) as Hlr.
  destruct (for_each_seq (cheapest_of ps rs) (@cheapest E ps rs) 0 (length ps) None) as (best & -> & Hbest).
  { intros i p Hi. lia. } { intros n b Hn. apply cheapest_step; [done|lia]. }
  cbn [mbind outcome_bind Nat.add] in *. destruct best as [b|]; cbn in Hbest.
  - destruct Hbest as (p & r & Hpb & Hrb & Hm & Hbest). unfold get_at. rewrite Hpb, Hrb. cbn [mbind outcome_bind].
    rewrite set_at_lt by (by eapply lookup_lt_Some). cbn [mbind outcome_bind].
    destruct (pick_swapped ps rs b p r Hout Hpb Hrb Hm) as (t' & Ht' & Heq).
    replace (Z.to_nat _) with t'.
    + eexists _, _, _. split_and!; [done..|]. intros k' t'' Hk'.
      destruct (pick_one ps rs _ _ Hout Hk') as [_ (i & p' & r' & Hp' & Hr' & Hm' & Hle)]; [lia|].
      specialize (Hbest i p' r' (lookup_lt_Some _ _ _ Hp') Hp' Hr' Hm'). split; [lia|]. lia.
    + pose proof (sum_edits_bound ps rs Hf Hout). assert (edits p <= 2)%nat as Hp2.
      { destruct (Forall2_lookup_lr _ _ _ _ _ _ Hf Hpb Hrb) as (_ & H2 & _). by apply H2. }
      rewrite Z.mod_small by lia. lia.
  - exists rs, k, t. split_and!; [done..|]. intros k' t' Hk'. destruct (pick_one ps rs _ _ Hout Hk') as [_ (i & p' & r' & Hp' & _ & Hm' & _)]; [lia|].
    rewrite (Hbest i p') in Hm'; [done|by eapply lookup_lt_Some|done].
Qed.

(** The name used as often as can be. *)
Lemma choose_most ps rs : Forall2 found ps rs →
  ∃ ch k t, @choose E ps rs false = Ok (ch, k, t) ∧ picks ps rs k t ∧ ∀ k' t', picks ps rs k' t' → (k' <= k)%nat ∧ (k' = length ps → t' = t).
Proof.
  intros Hf. unfold choose. destruct (choose_loop_most ps rs ([], 0%nat, 0%nat) Hf) as (ch & k & t & -> & Hp & Hmost).
  cbn. rewrite Nat.add_0_r. by exists ch, k, t.
Qed.

(** ** One entity *)

Definition limit_of (fuzzy : bool) (word : str) : nat := if fuzzy then max_edits word else 0%nat.

(** The words, read in the entity's name ([k] of them) or in its related fields
    with [t] edits in all; the last one may be the start of a word. *)
Inductive explained (fuzzy : bool) (item : Entity) : list str → nat → nat → Prop :=
| explained_nil : explained fuzzy item [] 0 0
| explained_primary w ws k t n :
    reads_in (all_words (primary item)) w (bool_decide (ws = [])) (limit_of fuzzy w) n →
    explained fuzzy item ws k t → explained fuzzy item (w :: ws) (S k) (n + t)
| explained_related w ws k t n :
    reads_in (related_words (related item)) w (bool_decide (ws = [])) (limit_of fuzzy w) n →
    explained fuzzy item ws k t → explained fuzzy item (w :: ws) k (n + t).

Lemma max_edits_le word : (max_edits word <= 2)%nat.
Proof. unfold max_edits. repeat case_match; lia. Qed.

Lemma best_of_le ws w p fuzzy m : best_of ws w p (limit_of fuzzy w) m → matches m = true → (edits m <= 2)%nat.
Proof.
  unfold best_of. intros Hb Hm. rewrite Hm in Hb. destruct Hb as [(c & _ & [(_ & _ & ->)|[_ Hl]]) _]; [lia|].
  pose proof (max_edits_le w). unfold limit_of in Hl. destruct fuzzy; lia.
Qed.

(** [ps] and [rs] are what the words match. *)
Definition matched_words (fuzzy : bool) (item : Entity) (words : list str) (ps rs : list WordMatch) : Prop :=
  ∀ k t, (picks ps rs k t → explained fuzzy item words k t) ∧
    (explained fuzzy item words k t → ∃ t', picks ps rs k t' ∧ (t' <= t)%nat).

Lemma match_all_correct fuzzy item last limits i words :
  (i + length words = S last)%nat ∨ words = [] →
  (∀ j w, words !! j = Some w → limits !! (i + j)%nat = Some (limit_of fuzzy w)) →
  ∃ r, match_all (E:=E) item last limits i words = Ok r ∧
    match r with
    | None => ∀ k t, ¬ explained fuzzy item words k t
    | Some (ps, rs) => length ps = length words ∧ Forall2 found ps rs ∧ matched_words fuzzy item words ps rs
    end.
Proof.
  revert i. induction words as [|w words IH]; intros i Hlen Hlim; cbn [match_all].
  { eexists. split; [done|]. cbn. split; [done|]. split; [constructor|]. intros k t. split.
    - inversion 1; subst. constructor.
    - inversion 1; subst. exists 0%nat. split; [constructor|lia]. }
  pose proof (Hlim 0%nat w eq_refl) as Hl. rewrite Nat.add_0_r in Hl. unfold get_at. rewrite Hl. cbn [mbind outcome_bind].
  assert (bool_decide (i = last) = bool_decide (words = [])) as ->.
  { destruct Hlen as [Hlen|]; [|done]. cbn in Hlen. apply bool_decide_ext. destruct words; cbn in *; split; (done || lia). }
  destruct (match_word_correct w (primary item) (bool_decide (words = [])) (limit_of fuzzy w)) as (p & -> & Hp).
  destruct (match_related_correct w (related item) (bool_decide (words = [])) (limit_of fuzzy w)) as (r & -> & Hr).
  cbn [mbind outcome_bind]. pose proof (best_of_le _ _ _ _ _ Hp) as Hp2. pose proof (best_of_le _ _ _ _ _ Hr) as Hr2.
  destruct (negb (matches p) && negb (matches r)) eqn:Hnone.
  { apply andb_true_iff in Hnone as [Hmp%negb_true_iff Hmr%negb_true_iff]. unfold best_of in Hp, Hr. rewrite Hmp in Hp. rewrite Hmr in Hr.
    eexists. split; [done|]. cbn. intros k t Hk. inversion Hk; subst; [by eapply Hp|by eapply Hr]. }
  destruct (IH (S i)) as (rest & -> & Hrest).
  { destruct Hlen as [Hlen|]; [|done]. cbn in Hlen. left. lia. }
  { intros j v Hv. specialize (Hlim (S j) v Hv). by rewrite Nat.add_succ_r in Hlim. }
  cbn [mbind outcome_bind]. destruct rest as [[ps rs]|]; cbn.
  2: { eexists. split; [done|]. cbn. intros k t Hk. inversion Hk; subst; by eapply Hrest. }
  destruct Hrest as (Hlen' & Hfound & Hmatched). eexists. split; [done|]. cbn. split; [by rewrite Hlen'|].
  assert (matches p = true ∨ matches r = true) as Hsome.
  { destruct (matches p), (matches r); auto. }
  split; [by constructor|]. intros k t. unfold best_of in Hp, Hr. split.
  - inversion 1 as [|? ? ? ? k' t' Hm Hk|? ? ? ? k' t' Hm Hk]; subst; rewrite Hm in *; constructor; (apply Hp || apply Hr || by apply Hmatched).
  - inversion 1 as [|? ? k' t' n Hn Hk|? ? k' t' n Hn Hk]; subst; apply Hmatched in Hk as (t2 & Hk & Hle).
    + destruct (matches p) eqn:Hm; [|by apply Hp in Hn]. destruct Hp as [_ Hmin]. apply Hmin in Hn.
      exists (edits p + t2)%nat. split; [by constructor|lia].
    + destruct (matches r) eqn:Hm; [|by apply Hr in Hn]. destruct Hr as [_ Hmin]. apply Hmin in Hn.
      exists (edits r + t2)%nat. split; [by constructor|lia].
Qed.

(** The words are the whole name, one for one, with [n] edits. *)
Inductive aligned (fuzzy : bool) : list str → list str → nat → Prop :=
| aligned_nil : aligned fuzzy [] [] 0
| aligned_cons w v ws vs n t : distance w v n → (n <= limit_of fuzzy w)%nat → aligned fuzzy ws vs t → aligned fuzzy (w :: ws) (v :: vs) (n + t).

Definition name_variants (t : PreparedText) : list (list str) :=
  folded_words t :: (if bool_decide (compact (text t) = folded (text t)) then [] else [compact_words t]).

Definition whole_name (fuzzy : bool) (item : Entity) (words : list str) (n : nat) : Prop :=
  (n <= 2)%nat ∧ ∃ vs, vs ∈ name_variants (primary item) ∧ aligned fuzzy words vs n.

Lemma aligned_length fuzzy ws vs t : aligned fuzzy ws vs t → length vs = length ws.
Proof. induction 1; cbn; congruence. Qed.

Lemma aligned_words_correct fuzzy ws vs total : length vs = length ws →
  ∃ r, aligned_words (E:=E) ws vs (limit_of fuzzy <$> ws) total = Ok r ∧
    match r with Some n => ∃ t, n = (total + t)%nat ∧ ∀ t', aligned fuzzy ws vs t' ↔ t' = t | None => ∀ t, ¬ aligned fuzzy ws vs t end.
Proof.
  revert vs total. induction ws as [|w ws IH]; intros [|v vs] total; try done; intros Hlen; cbn [aligned_words].
  { eexists. split; [done|]. cbn. exists 0%nat. split; [lia|]. intros t'. split; [by inversion 1|intros ->; constructor]. }
  injection Hlen as Hlen. case_bool_decide as Hwv.
  - cbn [fmap list_fmap tail]. subst v. destruct (IH vs total Hlen) as (r & -> & Hr). exists r. split; [done|]. destruct r as [n|].
    + destruct Hr as (t & -> & Ht). exists t. split; [done|]. intros t'. split.
      * inversion 1 as [|? ? ? ? n t2 Hd Hl Hal]; subst. apply Ht in Hal as ->. by rewrite (distance_unique _ _ _ _ Hd (distance_refl w)).
      * intros ->. change t with (0 + t)%nat. constructor; [apply distance_refl|lia|by apply Ht].
    + intros t. inversion 1; subst. by eapply Hr.
  - cbn [fmap list_fmap tail]. unfold get_at. cbn [lookup list_lookup mbind outcome_bind].
    destruct (@edit_distance_correct E w v (limit_of fuzzy w)) as (n & d & -> & Hd & Hn). cbn [mbind outcome_bind].
    destruct (Nat.leb_spec d (limit_of fuzzy w)) as [Hl|Hl].
    + subst n. rewrite (proj2 (Nat.ltb_ge _ _) Hl). destruct (IH vs (total + d)%nat Hlen) as (r & -> & Hr). exists r. split; [done|].
      destruct r as [n|].
      * destruct Hr as (t & -> & Ht). exists (d + t)%nat. split; [lia|]. intros t'. split.
        -- inversion 1 as [|? ? ? ? n t2 Hd' Hl' Hal]; subst. apply Ht in Hal as ->. by rewrite (distance_unique _ _ _ _ Hd' Hd).
        -- intros ->. constructor; [done|done|by apply Ht].
      * intros t. inversion 1; subst. by eapply Hr.
    + rewrite (proj2 (Nat.ltb_lt _ _) Hn). eexists. split; [done|]. cbn. intros t. inversion 1 as [|? ? ? ? n' t2 Hd' Hl' Hal]; subst.
      rewrite (distance_unique _ _ _ _ Hd' Hd) in Hl'. lia.
Qed.

(** The fewest edits with which the words are one of the variants [seen]. *)
Definition best_aligned (fuzzy : bool) (ws : list str) (seen : list (list str)) (best : option nat) : Prop :=
  match best with
  | Some n => (n <= 2)%nat ∧ (∃ vs, vs ∈ seen ∧ aligned fuzzy ws vs n) ∧ ∀ vs t, vs ∈ seen → aligned fuzzy ws vs t → (n <= t)%nat
  | None => ∀ vs t, vs ∈ seen → (t <= 2)%nat → ¬ aligned fuzzy ws vs t
  end.

Lemma aligned_variant_correct fuzzy ws vs seen best : best_aligned fuzzy ws seen best →
  ∃ r, aligned_variant (E:=E) ws vs (limit_of fuzzy <$> ws) best = Ok r ∧ best_aligned fuzzy ws (seen ++ [vs]) r.
Proof.
  intros Hbest. unfold aligned_variant.
  assert ((∀ t, (t <= 2)%nat → ¬ aligned fuzzy ws vs t) → best_aligned fuzzy ws (seen ++ [vs]) best) as Hno.
  { intros Hno. destruct best as [n|]; cbn in *.
    - destruct Hbest as (Hn & (u & Hu & Hal) & Hmin). split; [done|]. split; [exists u; rewrite elem_of_app; auto|].
      intros u' t [Hu'| ->%list_elem_of_singleton]%elem_of_app Hal'; [by eapply Hmin|].
      destruct (decide (t <= 2)%nat); [by apply Hno in Hal'|lia].
    - intros u t [Hu| ->%list_elem_of_singleton]%elem_of_app Ht; [by apply Hbest|by apply Hno]. }
  case_bool_decide as Hlen.
  { eexists. split; [done|]. apply Hno. intros t _ Hal%aligned_length. done. }
  destruct (aligned_words_correct fuzzy ws vs 0) as (r & -> & Hr); [exact Hlen|]. cbn [mbind outcome_bind].
  eexists. split; [done|]. destruct r as [n|]; [|apply Hno; intros t _; apply Hr].
  destruct Hr as (t & -> & Ht). cbn [Nat.add]. unfold MAX_TOTAL_EDITS. destruct (Nat.leb_spec t 2) as [Hle|Hle]; cbn [andb].
  2: { apply Hno. intros t' Ht' ->%Ht. lia. }
  destruct (match best with Some _ => _ | None => _ end) eqn:Hbetter.
  - split; [done|]. split; [exists vs; rewrite elem_of_app, list_elem_of_singleton; split; [auto|by apply Ht]|].
    intros u t' [Hu| ->%list_elem_of_singleton]%elem_of_app Hal; [|by apply Ht in Hal as ->].
    destruct best as [b|]; cbn in Hbest.
    + destruct Hbest as (_ & _ & Hmin). apply Nat.ltb_lt in Hbetter. specialize (Hmin _ _ Hu Hal). lia.
    + destruct (decide (t' <= 2)%nat) as [Ht'|]; [by destruct (Hbest u t' Hu Ht')|lia].
  - destruct best as [b|]; [|done]. destruct Hbest as (Hb & (u & Hu & Hal) & Hmin). apply Nat.ltb_ge in Hbetter.
    split; [done|]. split; [exists u; rewrite elem_of_app; auto|].
    intros u' t' [Hu'| ->%list_elem_of_singleton]%elem_of_app Hal'; [by eapply Hmin|]. apply Ht in Hal' as ->. lia.
Qed.

Lemma aligned_edits_correct fuzzy ws t : ∃ r, aligned_edits (E:=E) ws t (limit_of fuzzy <$> ws) = Ok r ∧ best_aligned fuzzy ws (name_variants t) r.
Proof.
  unfold aligned_edits, name_variants.
  destruct (aligned_variant_correct fuzzy ws (folded_words t) [] None) as (r & -> & Hr).
  { intros vs n []%not_elem_of_nil. }
  cbn [mbind outcome_bind]. case_bool_decide; [by exists r|]. by apply (aligned_variant_correct fuzzy ws (compact_words t) [folded_words t]).
Qed.

(** What one variant of the query makes of an entity. *)
Definition variant_answer (fuzzy : bool) (item : Entity) (words : list str) (r : option Candidate) : Prop :=
  match r with
  | Some c => entity c = item ∧
      ((class c = CLASS_FULL_NAME ∧ whole_name fuzzy item words (candidate_edits c)) ∨
       ((∀ n, ¬ whole_name fuzzy item words n) ∧ (candidate_edits c <= 2)%nat ∧
        ∃ k, explained fuzzy item words (S k) (candidate_edits c) ∧
          (class c = CLASS_PRIMARY_ONLY ∧ S k = length words ∨
           class c = CLASS_PRIMARY_RELATED ∧ ∀ t, (t <= 2)%nat → ¬ explained fuzzy item words (length words) t)))
  | None => (∀ n, ¬ whole_name fuzzy item words n) ∧ ∀ k t, (t <= 2)%nat → ¬ explained fuzzy item words (S k) t
  end.

Lemma limits_of (fuzzy : bool) words : (if fuzzy then max_edits <$> words else replicate (length words) 0%nat) = limit_of fuzzy <$> words.
Proof. unfold limit_of. destruct fuzzy; [done|]. induction words; cbn; congruence. Qed.

Lemma explained_pick fuzzy item words ps rs k t : matched_words fuzzy item words ps rs →
  (t <= 2)%nat → explained fuzzy item words k t → ∃ t', picks ps rs k t' ∧ (t' <= 2)%nat.
Proof. intros Hm Ht Hk. apply Hm in Hk as (t' & Hk & Hle). exists t'. split; [done|lia]. Qed.

Lemma no_whole fuzzy item words : best_aligned fuzzy words (name_variants (primary item)) None → ∀ n, ¬ whole_name fuzzy item words n.
Proof. intros H n (Hn & vs & Hvs & Hal). by destruct (H vs n Hvs Hn). Qed.

(** The class of a way to read the words. *)
Definition class_of (n k : nat) : option Z :=
  if bool_decide (k = n) then Some CLASS_PRIMARY_ONLY else if (0 <? k)%nat then Some CLASS_PRIMARY_RELATED else None.

Lemma evaluate_variant_words item words query fuzzy ps rs : words ≠ [] → Z.of_nat (length words) < 2 ^ 62 →
  length ps = length words → Forall2 found ps rs → matched_words fuzzy item words ps rs → (∀ n, ¬ whole_name fuzzy item words n) →
  ∃ chosen, (first ← choose ps rs false;
    (if (MAX_TOTAL_EDITS <? first.2)%nat then
       second ← choose ps rs true; Ok (if (MAX_TOTAL_EDITS <? second.2)%nat then None else Some second)
     else Ok (Some first))) = @Ok E _ chosen ∧
  variant_answer fuzzy item words ('(choices, in_primary, total) ← chosen; class ← class_of (length words) in_primary;
    Some (finish class total (existsb (λ c, bool_decide (match_kind c = Prefix)) choices) query item true)).
Proof.
  intros Hne Hlen Hl Hf Hm Hno. destruct (choose_most ps rs Hf) as (ch & k & t & -> & Hp & Hmost). cbn [mbind outcome_bind snd].
  assert (∀ ch k t, picks ps rs k t → (t <= 2)%nat →
    (k = 0%nat → ∀ k' t', (t' <= 2)%nat → ¬ picks ps rs (S k') t') →
    (k ≠ length words → ∀ t', (t' <= 2)%nat → ¬ picks ps rs (length words) t') →
    variant_answer fuzzy item words (class ← class_of (length words) k;
      Some (finish class t (existsb (λ c, bool_decide (match_kind c = Prefix)) ch) query item true))) as Hanswer.
  { clear ch k t Hp Hmost. intros ch k t Hp Ht Hk0 Hkn. unfold class_of.
    pose proof (picks_count _ _ _ _ Hp) as Hcount. pose proof (proj1 (Hm k t) Hp) as Hex.
    case_bool_decide as Hk; [|destruct (Nat.ltb_spec 0 k) as [Hpos|Hpos]]; cbn.
    - split; [done|]. right. split; [done|]. split; [done|]. destruct k as [|k]; [by destruct words|]. exists k. split; [done|]. by left.
    - split; [done|]. right. split; [done|]. split; [done|]. destruct k as [|k]; [lia|]. exists k. split; [done|]. right. split; [done|].
      intros t' Ht' (t'' & Hp' & Hle)%(explained_pick _ _ _ _ _ _ _ Hm Ht'). by apply (Hkn Hk t'').
    - split; [done|]. intros k' t' Ht' (t'' & Hp' & Hle)%(explained_pick _ _ _ _ _ _ _ Hm Ht'). apply (Hk0 ltac:(lia) k' t''); done. }
  unfold MAX_TOTAL_EDITS. destruct (Nat.ltb_spec 2 t) as [Hbig|Hsmall].
  - assert (∀ t', (t' <= 2)%nat → ¬ picks ps rs (length words) t') as Hnofull.
    { intros t' Ht' Hp'. destruct (Hmost _ _ Hp') as [Hle Heq]. rewrite Heq in Ht' by done.  lia. }
    destruct (choose_cheapest ps rs Hf) as (ch2 & k2 & t2 & -> & Hp2 & Hmin); [by rewrite Hl|]. cbn [mbind outcome_bind snd].
    destruct (Nat.ltb_spec 2 t2) as [Hbig2|Hsmall2].
    + eexists. split; [done|]. cbn. split; [done|]. intros k' t' Ht' (t'' & Hp' & Hle)%(explained_pick _ _ _ _ _ _ _ Hm Ht').
      destruct (Hmin _ _ Hp'). lia.
    + eexists. split; [done|]. cbn. apply Hanswer; [done|done| |done].
      intros -> k' t' _ Hp'. destruct (Hmin _ _ Hp'). lia.
  - eexists. split; [done|]. cbn. apply Hanswer; [done|done| |].
    + intros -> k' t' _ Hp'. destruct (Hmost _ _ Hp'). lia.
    + intros Hk t' _ Hp'. apply Hk. destruct (Hmost _ _ Hp') as [Hle _]. apply picks_count in Hp. lia.
Qed.

Lemma evaluate_variant_correct item words query fuzzy : single query = false → words ≠ [] → Z.of_nat (length words) < 2 ^ 62 →
  ∃ r, evaluate_variant (E:=E) item words query fuzzy = Ok r ∧ variant_answer fuzzy item words r.
Proof.
  intros Hs Hne Hlen. unfold evaluate_variant. rewrite Hs, limits_of.
  destruct (aligned_edits_correct fuzzy words (primary item)) as (r & -> & Hr). cbn [mbind outcome_bind]. destruct r as [n|].
  { eexists. split; [done|]. cbn. split; [done|]. left. split; [done|]. destruct Hr as (Hn & Hvs & _). by split. }
  pose proof (no_whole fuzzy item words Hr) as Hno. destruct words as [|w before]; [done|].
  destruct (match_all_correct fuzzy item (length before) (limit_of fuzzy <$> (w :: before)) 0 (w :: before)) as (r & -> & Hfound).
  { by left. } { intros j v Hv. cbn [Nat.add]. by rewrite list_lookup_fmap, Hv. }
  cbn [mbind outcome_bind]. destruct r as [[ps rs]|].
  - destruct Hfound as (Hl & Hf & Hm).
    destruct (evaluate_variant_words item (w :: before) query fuzzy ps rs Hne Hlen Hl Hf Hm Hno) as (chosen & Hchosen & Hans).
    destruct (choose ps rs false) as [first| | |]; try done. cbn [mbind outcome_bind] in *. rewrite Hchosen. eexists. split; [done|exact Hans].
  - eexists. split; [done|]. split; [done|]. intros k t _. apply Hfound.
Qed.

(** What a query finds: for one character the exact name; otherwise the whole name,
    or words that are read in the name and the related fields, one in the name at
    least, with two edits in all. *)
Definition answers (fuzzy : bool) (item : Entity) (query : Query) (words : list str) : Prop :=
  if single query then words = folded_words (primary item) ∨ words = compact_words (primary item)
  else (∃ n, whole_name fuzzy item words n) ∨ ∃ k t, (t <= 2)%nat ∧ explained fuzzy item words (S k) t.

(** Every variant has words; and no vector has more elements than memory holds. *)
Definition searchable (query : Query) : Prop :=
  Forall (λ words, words ≠ [] ∧ Z.of_nat (length words) < 2 ^ 62) (variants query).

(** The edits a search may make. *)
Definition budget (fuzzy : bool) : nat := if fuzzy then 2%nat else 0%nat.

Lemma explained_exact item words k t : explained false item words k t → t = 0%nat.
Proof.
  induction 1 as [|w ws k t n (c & _ & Hr) _ ->|w ws k t n (c & _ & Hr) _ ->]; [done|..]; destruct Hr as [(_ & _ & ->)|[_ Hl]]; cbn in *; lia.
Qed.

Lemma aligned_exact ws vs t : aligned false ws vs t → t = 0%nat.
Proof. induction 1 as [|w v ws vs n t _ Hl _ ->]; cbn in *; lia. Qed.

Lemma evaluate_variant_answers item words query fuzzy : words ≠ [] → Z.of_nat (length words) < 2 ^ 62 →
  ∃ r, evaluate_variant (E:=E) item words query fuzzy = Ok r ∧ (is_Some r ↔ answers fuzzy item query words) ∧
    ∀ c, r = Some c → entity c = item ∧ (candidate_edits c <= budget fuzzy)%nat.
Proof.
  intros Hne Hlen. unfold answers. destruct (single query) eqn:Hs.
  - unfold evaluate_variant. rewrite Hs. do 2 case_bool_decide; cbn.
    all: eexists; split; [done|]; split; [|intros c; first [done|intros [= <-]; split; [done|cbn; lia]]].
    all: split; [intros Hx; first [by destruct Hx|naive_solver]|intros Hx; first [by eexists|naive_solver]].
  - destruct (evaluate_variant_correct item words query fuzzy Hs Hne Hlen) as (r & -> & Hr). exists r. split; [done|].
    destruct r as [c|]; cbn in Hr.
    + destruct Hr as [He Hr]. split.
      * split; [|by eexists]. intros _. destruct Hr as [[_ Hw]|(_ & Ht & k & Hk & _)]; [left; by eexists|right; by exists k, (candidate_edits c)].
      * intros c' [= <-]. split; [done|]. destruct Hr as [[_ (Hn & vs & _ & Hal)]|(_ & Ht & k & Hk & _)]; destruct fuzzy; cbn; try done.
        -- by rewrite (aligned_exact _ _ _ Hal).
        -- by rewrite (explained_exact _ _ _ _ Hk).
    + destruct Hr as [Hno Hnone]. split; [|done]. split; [by intros []|]. intros [[n Hn]|(k & t & Ht & Hk)]; [by destruct (Hno n)|by destruct (Hnone k t Ht)].
Qed.

Lemma evaluate_loop item query fuzzy words best :
  Forall (λ ws, ws ≠ [] ∧ Z.of_nat (length ws) < 2 ^ 62) words →
  (∀ c, best = Some c → entity c = item ∧ (candidate_edits c <= budget fuzzy)%nat) →
  ∃ r, for_each (evaluate_next (E:=E) item query fuzzy) words best = Ok r ∧
    (is_Some r ↔ is_Some best ∨ ∃ ws, ws ∈ words ∧ answers fuzzy item query ws) ∧
    ∀ c, r = Some c → entity c = item ∧ (candidate_edits c <= budget fuzzy)%nat.
Proof.
  intros Hwords. revert best. induction Hwords as [|ws words [Hne Hlen] Hwords IH]; intros best Hbest; cbn [for_each].
  - exists best. split; [done|]. split; [|done]. split; [by left|]. by intros [?|(ws & []%not_elem_of_nil & _)].
  - unfold evaluate_next at 2. destruct (evaluate_variant_answers item ws query fuzzy Hne Hlen) as (r & -> & Hr & Hc). cbn [mbind outcome_bind].
    set (next := match r with Some _ => _ | None => _ end).
    assert (∀ c, next = Some c → entity c = item ∧ (candidate_edits c <= budget fuzzy)%nat) as Hnext.
    { intros c. subst next. destruct r as [r|], best as [b|]; try done; [|by apply Hc|by apply Hbest].
      destruct (less r b); intros [= <-]; [by apply Hc|by apply Hbest]. }
    assert (is_Some next ↔ is_Some r ∨ is_Some best) as Hsome.
    { subst next. destruct r as [r|], best as [b|]; try destruct (less r b); split; intros; try (by eexists); naive_solver. }
    destruct (IH next Hnext) as (r' & -> & Hr' & Hc'). exists r'. split; [done|]. split; [|done].
    rewrite Hr', Hsome, Hr. setoid_rewrite elem_of_cons. naive_solver.
Qed.

(** C15: An entity is found exactly when it answers some variant of the query, and then
    with no more edits than the search may make. *)
Theorem evaluate_finds item query fuzzy : searchable query →
  ∃ r, evaluate (E:=E) item query fuzzy = Ok r ∧
    (is_Some r ↔ ∃ words, words ∈ variants query ∧ answers fuzzy item query words) ∧
    ∀ c, r = Some c → entity c = item ∧ (candidate_edits c <= budget fuzzy)%nat.
Proof.
  intros Hq. unfold evaluate. destruct (evaluate_loop item query fuzzy (variants query) None Hq) as (r & -> & Hr & Hc); [done|].
  cbn [mbind outcome_bind]. eexists. split; [done|]. split.
  - transitivity (is_Some r); [destruct r; split; intros []; (done || by eexists)|]. rewrite Hr. split; [by intros [[]|?]|by right].
  - destruct r as [b|]; [|done]. intros c [= <-]. cbn. by apply Hc.
Qed.
End Matching.

(** ** An example *)

#[local] Existing Instance plain_normalization.

Lemma evaluate_finds_witness :
  (∃ words, words ∈ variants (example_query "beyocne") ∧ answers true (example_artist "Beyonce Knowles" "a2") (example_query "beyocne") words) ∧
  ¬ ∃ words, words ∈ variants (example_query "beyocne") ∧ answers false (example_artist "Beyonce Knowles" "a2") (example_query "beyocne") words.
Proof.
  assert (searchable (example_query "beyocne")) as Hq by (repeat constructor; done).
  split.
  - destruct (evaluate_finds (E:=Empty_set) (example_artist "Beyonce Knowles" "a2") _ true Hq) as (r & Hr & Hfound & _).
    apply Hfound. vm_compute in Hr. injection Hr as <-. by eexists.
  - destruct (evaluate_finds (E:=Empty_set) (example_artist "Beyonce Knowles" "a2") _ false Hq) as (r & Hr & Hfound & _).
    rewrite <-Hfound. vm_compute in Hr. injection Hr as <-. by intros [].
Defined.
