(* ===== verification/SearchOrder.v ===== *)
(** How the entities a query finds are ordered (modules/search/rank.rs): [less] is a
    strict weak order that tells two entities apart, so sorting is defined, and the
    ranking does not depend on the order of the index. *)

From stdpp Require Import sorting.
From S2P Require Import Prelude Text SearchData Search EditDistance SearchMatch.

(** ** Strict weak orders *)

(** [same] is what remains when neither is less. *)
Record strict {A} (lt : A → A → bool) (same : A → A → Prop) : Prop := {
  strict_asym a b : lt a b = true → lt b a = false;
  strict_neg a b c : lt a b = false → lt b c = false → lt a c = false;
  strict_same a b : lt a b = false → lt b a = false → same a b
}.

(** A comparison of keys that are known to differ. *)
Record key_order {K} (lt : K → K → bool) : Prop := {
  key_flip x y : x ≠ y → lt y x = negb (lt x y);
  key_trans x y z : x ≠ y → y ≠ z → lt x y = true → lt y z = true → x ≠ z ∧ lt x z = true
}.

(** Comparing by a key first. *)
Lemma strict_by {A K} `{EqDecision K} (f : A → K) (lt : K → K → bool) (rest : A → A → bool) (same : A → A → Prop) :
  key_order lt → strict rest same →
  strict (λ a b, if bool_decide (f a ≠ f b) then lt (f a) (f b) else rest a b) (λ a b, f a = f b ∧ same a b).
Proof.
  intros [Hflip Htrans] [Hasym Hneg Hsame].
  assert (∀ x y, x ≠ y → lt x y = false → lt y x = true) as Hback by (intros x y Hne Hlt; by rewrite (Hflip x y Hne), Hlt).
  split.
  - intros a b. destruct (decide (f a = f b)) as [Heq|Hne].
    + rewrite !bool_decide_false by (rewrite Heq; auto). apply Hasym.
    + rewrite !bool_decide_true by auto. intros Hlt. by rewrite (Hflip (f a)), Hlt.
  - intros a b c. destruct (decide (f a = f b)) as [Hab|Hab], (decide (f b = f c)) as [Hbc|Hbc].
    + rewrite !bool_decide_false by (rewrite ?Hab, ?Hbc; auto). apply Hneg.
    + rewrite (bool_decide_false (f a ≠ f b)) by auto. rewrite !bool_decide_true by (rewrite ?Hab; auto). by rewrite Hab.
    + rewrite (bool_decide_false (f b ≠ f c)) by auto. rewrite !bool_decide_true by (rewrite <-?Hbc; auto). by rewrite Hbc.
    + rewrite (bool_decide_true (f a ≠ f b)), (bool_decide_true (f b ≠ f c)) by auto. intros H1%Hback H2%Hback; [|auto..].
      destruct (Htrans _ _ _ (not_eq_sym Hbc) (not_eq_sym Hab) H2 H1) as [Hne Hlt]. rewrite bool_decide_true by auto.
      by rewrite (Hflip (f c)), Hlt.
  - intros a b. destruct (decide (f a = f b)) as [Heq|Hne].
    + rewrite !bool_decide_false by (rewrite Heq; auto). auto.
    + rewrite !bool_decide_true by auto. intros H1 H2%Hback; [congruence|auto].
Qed.

Lemma strict_key {A K} `{EqDecision K} (f : A → K) (lt : K → K → bool) : key_order lt → (∀ x, lt x x = false) →
  strict (λ a b, lt (f a) (f b)) (λ a b, f a = f b).
Proof.
  intros Hk Hirr. destruct (strict_by f lt (λ _ _, false) (λ _ _, True) Hk) as [H1 H2 H3]; [by split|].
  assert (∀ a b, (if bool_decide (f a ≠ f b) then lt (f a) (f b) else false) = lt (f a) (f b)) as Heq.
  { intros a b. case_bool_decide as H; [done|]. by rewrite H, Hirr. }
  setoid_rewrite Heq in H1. setoid_rewrite Heq in H2. setoid_rewrite Heq in H3. split; [done..|]. intros a b Ha Hb. by destruct (H3 a b Ha Hb).
Qed.

(** ** Strings *)

Lemma str_leb_refl a : str_leb a a = true.
Proof. induction a as [|x a IH]; [done|]. cbn. by rewrite Z.eqb_refl. Qed.

Lemma str_leb_total a b : str_leb a b = true ∨ str_leb b a = true.
Proof.
  revert b. induction a as [|x a IH]; intros [|y b]; cbn; auto. rewrite (Z.eqb_sym y x). destruct (Z.eqb_spec x y); [apply IH|].
  destruct (Z.ltb_spec x y), (Z.ltb_spec y x); auto; lia.
Qed.

Lemma str_leb_antisym a b : str_leb a b = true → str_leb b a = true → a = b.
Proof.
  revert b. induction a as [|x a IH]; intros [|y b]; cbn; try done. rewrite (Z.eqb_sym y x). destruct (Z.eqb_spec x y) as [->|].
  - intros H1 H2. by rewrite (IH b).
  - rewrite !Z.ltb_lt. lia.
Qed.

Lemma str_leb_trans a b c : str_leb a b = true → str_leb b c = true → str_leb a c = true.
Proof.
  revert b c. induction a as [|x a IH]; intros [|y b] [|z c]; cbn; try done.
  destruct (Z.eqb_spec x y) as [->|], (Z.eqb_spec y z) as [->|]; rewrite ?Z.eqb_refl; try done.
  - apply IH.
  - destruct (Z.eqb_spec x z) as [->|]; [done|]. by rewrite Z.ltb_lt.
  - rewrite !Z.ltb_lt. destruct (Z.eqb_spec x z); lia.
Qed.

Lemma str_order : key_order str_ltb.
Proof.
  unfold str_ltb. split.
  - intros x y Hne. pose proof (str_leb_total x y). pose proof (str_leb_antisym x y).
    destruct (str_leb x y), (str_leb y x); naive_solver.
  - intros x y z Hxy Hyz H1%negb_true_iff H2%negb_true_iff.
    assert (str_leb z x = false) as Hzx.
    { destruct (str_leb z x) eqn:Hzx; [|done]. destruct (str_leb_total x y) as [H|H]; [|congruence]. by rewrite (str_leb_trans z x y) in H2. }
    rewrite Hzx. split; [|done]. intros ->. by rewrite str_leb_refl in Hzx.
Qed.

Lemma str_ltb_irrefl x : str_ltb x x = false.
Proof. unfold str_ltb. by rewrite str_leb_refl. Qed.

(** ** Candidates *)

(** What [less] cannot tell apart. *)
Definition same_place (a b : Candidate) : Prop :=
  class a = class b ∧ candidate_edits a = candidate_edits b ∧ prefix_dependent a = prefix_dependent b ∧
  faithful_count a = faithful_count b ∧ candidate_version_rank a = candidate_version_rank b ∧ name a = name b ∧
  secondary a = secondary b ∧ id (entity a) = id (entity b) ∧ kind (entity a) = kind (entity b).

Lemma z_order : key_order Z.ltb.
Proof. split; [intros x y ?; destruct (Z.ltb_spec x y), (Z.ltb_spec y x); done || lia|]. intros x y z _ _ ?%Z.ltb_lt ?%Z.ltb_lt. split; [lia|]. apply Z.ltb_lt. lia. Qed.
Lemma nat_order : key_order Nat.ltb.
Proof.
  split; [intros x y ?; destruct (Nat.ltb_spec x y), (Nat.ltb_spec y x); done || lia|].
  intros x y z _ _ ?%Nat.ltb_lt ?%Nat.ltb_lt. split; [lia|]. apply Nat.ltb_lt. lia.
Qed.
Lemma nat_order_down : key_order (λ x y, (y <? x)%nat).
Proof.
  split; [intros x y ?; destruct (Nat.ltb_spec x y), (Nat.ltb_spec y x); done || lia|].
  intros x y z _ _ ?%Nat.ltb_lt ?%Nat.ltb_lt. split; [lia|]. apply Nat.ltb_lt. lia.
Qed.
Lemma bool_order : key_order (λ x _, negb x).
Proof. split; [by intros [] []|by intros [] [] []]. Qed.

Lemma less_strict : strict less same_place.
Proof.
  apply (strict_by class Z.ltb); [apply z_order|].
  apply (strict_by candidate_edits Nat.ltb); [apply nat_order|].
  apply (strict_by prefix_dependent (λ x _, negb x)); [apply bool_order|].
  apply (strict_by faithful_count (λ x y, (y <? x)%nat)); [apply nat_order_down|].
  apply (strict_by candidate_version_rank Z.ltb); [apply z_order|].
  apply (strict_by name str_ltb); [apply str_order|].
  apply (strict_by secondary str_ltb); [apply str_order|].
  apply (strict_by (λ c, id (entity c)) str_ltb); [apply str_order|].
  apply (strict_key (λ c, kind (entity c)) str_ltb); [apply str_order|apply str_ltb_irrefl].
Qed.

(** [a] is a better answer than [b]: by the class of the match, then by fewer edits,
    whole words, more words written as asked, the version asked for, and at last
    by the names, the id and the kind. *)
Definition better_answer (a b : Candidate) : Prop :=
  class a < class b ∨ class a = class b ∧ (
  (candidate_edits a < candidate_edits b)%nat ∨ candidate_edits a = candidate_edits b ∧ (
  (prefix_dependent a = false ∧ prefix_dependent b = true) ∨ prefix_dependent a = prefix_dependent b ∧ (
  (faithful_count b < faithful_count a)%nat ∨ faithful_count a = faithful_count b ∧ (
  candidate_version_rank a < candidate_version_rank b ∨ candidate_version_rank a = candidate_version_rank b ∧ (
  str_leb (name b) (name a) = false ∨ name a = name b ∧ (
  str_leb (secondary b) (secondary a) = false ∨ secondary a = secondary b ∧ (
  str_leb (id (entity b)) (id (entity a)) = false ∨ id (entity a) = id (entity b) ∧
  str_leb (kind (entity b)) (kind (entity a)) = false))))))).

Lemma by_key {K} `{EqDecision K} (x y : K) (lt rest : bool) (lt' rest' : Prop) : (x ≠ y → lt = true ↔ lt') → (x = y → ¬ lt') →
  (rest = true ↔ rest') → (if bool_decide (x ≠ y) then lt else rest) = true ↔ lt' ∨ x = y ∧ rest'.
Proof. intros Hlt Hirr Hrest. case_bool_decide as Hxy; [rewrite Hlt by done|rewrite Hrest]; destruct (decide (x = y)); naive_solver. Qed.

Lemma by_str (x y : str) (rest : bool) (rest' : Prop) : (rest = true ↔ rest') →
  (if bool_decide (x ≠ y) then str_ltb x y else rest) = true ↔ str_leb y x = false ∨ x = y ∧ rest'.
Proof.
  intros Hrest. apply by_key; [intros _; unfold str_ltb; by rewrite negb_true_iff| |done]. intros -> H. by rewrite str_leb_refl in H.
Qed.

Lemma less_better a b : less a b = true ↔ better_answer a b.
Proof.
  unfold less, better_answer.
  apply by_key; [intros _; apply Z.ltb_lt|lia|]. apply by_key; [intros _; apply Nat.ltb_lt|lia|].
  apply by_key; [intros ?; by destruct (prefix_dependent a), (prefix_dependent b); naive_solver|intros -> [? ?]; congruence|].
  apply by_key; [intros _; apply Nat.ltb_lt|lia|]. apply by_key; [intros _; apply Z.ltb_lt|lia|].
  do 3 apply by_str. unfold str_ltb. by rewrite negb_true_iff.
Qed.

(** [a] may stand before [b]. *)
Definition precedes (a b : Candidate) : Prop := less b a = false.
Definition in_place (a b : Candidate) : Prop := ¬ better_answer b a.

Lemma precedes_in_place a b : precedes a b → in_place a b.
Proof. unfold precedes, in_place. rewrite <-less_better. by intros ->. Qed.

Lemma compare_precedes a b : (compare_candidates a b = Gt → precedes b a) ∧ (compare_candidates a b ≠ Gt → precedes a b).
Proof.
  unfold compare_candidates, precedes. destruct less_strict as [Hasym _ _].
  destruct (less a b) eqn:Hab; [by rewrite (Hasym _ _ Hab)|]. by destruct (less b a).
Qed.

(** ** Sorting *)

Section Sort.
Context {A : Type} (compare : A → A → comparison) (le : A → A → Prop).
Context (Hle : ∀ a b, (compare a b = Gt → le b a) ∧ (compare a b ≠ Gt → le a b)) (Htrans : ∀ a b c, le a b → le b c → le a c).

Lemma insert_by_perm x l : insert_by compare x l ≡ₚ x :: l.
Proof.
  induction l as [|y l IH]; [done|]. cbn. destruct (compare x y); [done..|]. rewrite IH. apply Permutation_swap.
Qed.

Lemma sort_by_perm l : sort_by compare l ≡ₚ l.
Proof. induction l as [|x l IH]; [done|]. cbn. by rewrite insert_by_perm, IH. Qed.

Lemma insert_by_sorted x l : StronglySorted le l → StronglySorted le (insert_by compare x l).
Proof.
  induction 1 as [|y l Hl IH Hy]; cbn; [repeat constructor|]. destruct (Hle x y) as [Hgt Hnot].
  destruct (compare x y) eqn:Hc.
  1,2: constructor; [by constructor|]; constructor; [by apply Hnot|]; eapply Forall_impl; [exact Hy|]; intros z Hz; eapply Htrans; [by apply Hnot|exact Hz].
  constructor; [exact IH|]. rewrite insert_by_perm. constructor; [by apply Hgt|exact Hy].
Qed.

Lemma sort_by_sorted l : StronglySorted le (sort_by compare l).
Proof. induction l as [|x l IH]; [constructor|]. by apply insert_by_sorted. Qed.

(** Which permutation is sorted does not matter, when elements in the same place are the same. *)
Lemma sort_by_unique l l' : l ≡ₚ l' → (∀ a b, a ∈ l → b ∈ l → le a b → le b a → a = b) → sort_by compare l = sort_by compare l'.
Proof.
  intros Hp Hsame. apply (StronglySorted_unique_strong le); [|apply sort_by_sorted..|by rewrite !sort_by_perm].
  intros a b Ha Hb. apply Hsame; [by rewrite <-(sort_by_perm l)|]. by rewrite Hp, <-(sort_by_perm l').
Qed.
End Sort.

Lemma precedes_trans a b c : precedes a b → precedes b c → precedes a c.
Proof. intros H1 H2. by eapply (strict_neg _ _ less_strict); [exact H2|]. Qed.

(** ** The ranking *)

Section Ranking.
Context {NZ : Normalization} {E : Type}.

(** [e] answers some variant of the query. *)
Definition found_by (query : Query) (fuzzy : bool) (e : Entity) : Prop :=
  ∃ words, words ∈ variants query ∧ answers fuzzy e query words.

(** [item] as a candidate, when it is found. *)
Definition candidate (query : Query) (fuzzy : bool) (item : Entity) : option Candidate :=
  match evaluate (E:=E) item query fuzzy with Ok c => c | _ => None end.

Lemma candidate_spec query fuzzy item : searchable query →
  evaluate (E:=E) item query fuzzy = Ok (candidate query fuzzy item) ∧ (is_Some (candidate query fuzzy item) ↔ found_by query fuzzy item) ∧
  ∀ c, candidate query fuzzy item = Some c → entity c = item ∧ (candidate_edits c <= budget fuzzy)%nat.
Proof. intros Hq. unfold candidate. by destruct (evaluate_finds (E:=E) item query fuzzy Hq) as (r & -> & Hr). Qed.

Lemma collect_candidates query fuzzy items : searchable query → collect (E:=E) query fuzzy items = Ok (omap (candidate query fuzzy) items).
Proof.
  intros Hq. induction items as [|item items IH]; [done|]. cbn [collect]. rewrite (proj1 (candidate_spec query fuzzy item Hq)), IH.
  cbn. by destruct (candidate query fuzzy item).
Qed.

Lemma candidate_entity query fuzzy item c : searchable query → candidate query fuzzy item = Some c → entity c = item.
Proof. intros Hq Hc. by apply (candidate_spec query fuzzy item Hq). Qed.

Lemma entities_sublist query fuzzy items : searchable query → entity <$> omap (candidate query fuzzy) items `sublist_of` items.
Proof.
  intros Hq. induction items as [|item items IH]; [done|]. cbn. destruct (candidate query fuzzy item) as [c|] eqn:Hc; cbn.
  - rewrite (candidate_entity _ _ _ _ Hq Hc). by apply sublist_skip.
  - by apply sublist_cons.
Qed.

Lemma entities_found query fuzzy (items : list Entity) e : searchable query →
  e ∈ entity <$> omap (candidate query fuzzy) items ↔ e ∈ items ∧ found_by query fuzzy e.
Proof.
  intros Hq. rewrite list_elem_of_fmap. setoid_rewrite list_elem_of_omap. split.
  - intros (c & -> & item & Hin & Hc). rewrite (candidate_entity _ _ _ _ Hq Hc). split; [done|].
    apply (candidate_spec query fuzzy item Hq). by eexists.
  - intros [Hin Hf]. apply (candidate_spec query fuzzy e Hq) in Hf as [c Hc]. exists c. split; [|by exists e].
    by rewrite (candidate_entity _ _ _ _ Hq Hc).
Qed.

(** What a candidate is judged by, given the words it answers. *)
Definition judged (query : Query) (fuzzy : bool) (words : list str) (c : Candidate) : Prop :=
  name c = folded (text (primary (entity c))) ∧
  (candidate_version_rank c = 0 ↔
     (query_versions query = [] → versions (text (primary (entity c))) = []) ∧
     (∀ v, v ∈ query_versions query → v ∈ versions (text (primary (entity c))))) ∧
  (candidate_version_rank c = 0 ∨ candidate_version_rank c = 1) ∧
  faithful_count c = faithful_score (query_faithful query) (entity c) (negb (class c =? CLASS_FULL_NAME)) ∧
  (class c = CLASS_FULL_NAME → prefix_dependent c = false) ∧
  (if single query then class c = CLASS_FULL_NAME ∧ candidate_edits c = 0%nat
   else variant_answer fuzzy (entity c) words (Some c)).

(** [c] is the best of what the variants of the query give for its entity, before
    the names it is shown with are set. *)
Definition judged_best (query : Query) (fuzzy : bool) (c : Candidate) : Prop :=
  secondary c = secondary_text (entity c) ∧ (∃ words, words ∈ variants query ∧ judged query fuzzy words c) ∧
  ∀ words c', words ∈ variants query → evaluate_variant (E:=E) (entity c) words query fuzzy = Ok (Some c') → in_place (set_secondary c []) c'.

Lemma version_rank_zero requested stored : (version_rank requested stored = 0 ↔
  (requested = [] → stored = []) ∧ (∀ v, v ∈ requested → v ∈ stored)) ∧ (version_rank requested stored = 0 ∨ version_rank requested stored = 1).
Proof.
  unfold version_rank. case_bool_decide as Hr.
  { subst. case_bool_decide; (split; [|by auto]); split; try done; intros H'; [split; [done|by intros v ?%not_elem_of_nil]|by destruct H' as [?%(λ f, f eq_refl) _]]. }
  destruct (existsb _ requested) eqn:Hx; (split; [|by auto]); split; try done.
  - intros [_ Hall]. apply existsb_exists in Hx as (v & Hv & Hn). apply list_elem_of_In, Hall in Hv.
    apply negb_true_iff, bool_decide_eq_false in Hn. done.
  - intros _. split; [done|]. intros v Hv. destruct (decide (v ∈ stored)) as [|Hn]; [done|]. exfalso.
    assert (existsb (λ version, negb (bool_decide (version ∈ stored))) requested = true) as Ht; [|congruence].
    apply existsb_exists. exists v. split; [by apply list_elem_of_In|]. by rewrite bool_decide_eq_false_2.
Qed.

Lemma evaluate_variant_form item words query fuzzy c : evaluate_variant (E:=E) item words query fuzzy = Ok (Some c) →
  ∃ cl n b, c = finish cl n b query item (negb (cl =? CLASS_FULL_NAME)) ∧ (cl = CLASS_FULL_NAME → b = false) ∧
    (single query = true → cl = CLASS_FULL_NAME ∧ n = 0%nat).
Proof.
  unfold evaluate_variant. destruct (single query).
  { case_match; intros [= <-]. by exists CLASS_FULL_NAME, 0%nat, false. }
  destruct (aligned_edits _ _ _) as [[n|]| | |]; try done; cbn [mbind outcome_bind].
  { intros [= <-]. by exists CLASS_FULL_NAME, n, false. }
  destruct words as [|w before]; [done|]. destruct (match_all _ _ _ _ _) as [[[ps rs]|]| | |]; try done; cbn [mbind outcome_bind].
  destruct (choose ps rs false) as [first| | |]; try done; cbn [mbind outcome_bind].
  destruct (if (MAX_TOTAL_EDITS <? first.2)%nat then _ else _) as [[[[choices k] total]|]| | |]; try done; cbn [mbind outcome_bind option_bind].
  case_bool_decide; [|destruct (0 <? k)%nat]; cbn [mbind option_bind]; intros [=]; subst c;
    [exists CLASS_PRIMARY_ONLY|exists CLASS_PRIMARY_RELATED]; by eexists total, _.
Qed.

Lemma evaluate_variant_judged item words query fuzzy c : words ≠ [] → Z.of_nat (length words) < 2 ^ 62 →
  evaluate_variant (E:=E) item words query fuzzy = Ok (Some c) → (entity c = item ∧ secondary c = []) ∧ judged query fuzzy words c.
Proof.
  intros Hne Hlen Hc. destruct (evaluate_variant_form _ _ _ _ _ Hc) as (cl & n & b & -> & Hb & Hs). split; [done|].
  split; [done|]. destruct (version_rank_zero (query_versions query) (versions (text (primary item)))) as [Hv Hv'].
  split; [exact Hv|]. split; [exact Hv'|]. split; [done|]. split; [exact Hb|].
  destruct (single query) eqn:Hx; [by apply Hs|].
  destruct (evaluate_variant_correct (E:=E) item words query fuzzy Hx Hne Hlen) as (r & Hr & Hans). rewrite Hc in Hr. by injection Hr as <-.
Qed.

Lemma evaluate_loop_judged item query fuzzy (Q : Candidate → Prop) ws best r c :
  (∀ w c, w ∈ ws → evaluate_variant (E:=E) item w query fuzzy = Ok (Some c) → Q c) → (∀ c, best = Some c → Q c) →
  for_each (evaluate_next (E:=E) item query fuzzy) ws best = Ok r → r = Some c → Q c.
Proof.
  revert best. induction ws as [|w ws IH]; intros best HQ Hbest; cbn [for_each]; [by intros [= <-]; apply Hbest|].
  destruct (evaluate_next item query fuzzy w best) as [best'| | |] eqn:Hx; try done. cbn [mbind outcome_bind].
  apply IH; [intros w' c' Hw'; apply HQ; by right|]. intros c' ->. revert Hx. unfold evaluate_next.
  destruct (evaluate_variant (E:=E) item w query fuzzy) as [x| | |] eqn:Hv; try done. cbn [mbind outcome_bind]. intros [= Hc].
  destruct x as [x|], best as [b|]; simplify_eq; try (by apply Hbest); try (by eapply HQ; [left|]).
  destruct (less x b); simplify_eq; [by eapply HQ; [left|]|by apply Hbest].
Qed.

Lemma precedes_refl a : precedes a a.
Proof. unfold precedes. destruct (less a a) eqn:H; [|done]. destruct less_strict as [Hasym _ _]. by rewrite (Hasym _ _ H) in H. Qed.

(** The loop keeps the best of what it starts with and of what each variant gives. *)
Lemma evaluate_loop_best item query fuzzy ws best r : for_each (evaluate_next (E:=E) item query fuzzy) ws best = Ok r →
  (∀ c', best = Some c' → ∃ c, r = Some c ∧ precedes c c') ∧
  (∀ w c', w ∈ ws → evaluate_variant (E:=E) item w query fuzzy = Ok (Some c') → ∃ c, r = Some c ∧ precedes c c').
Proof.
  revert best. induction ws as [|w ws IH]; intros best; cbn [for_each].
  { intros [= <-]. split; [intros c' ->|by intros w c' ?%not_elem_of_nil]. exists c'. split; [done|apply precedes_refl]. }
  destruct (evaluate_next item query fuzzy w best) as [best'| | |] eqn:Hx; try done. cbn [mbind outcome_bind].
  intros [Hstart Hrest]%IH. revert Hx. unfold evaluate_next.
  destruct (evaluate_variant (E:=E) item w query fuzzy) as [x| | |] eqn:Hv; try done. cbn [mbind outcome_bind]. intros [= Hc].
  assert (∀ c', best = Some c' ∨ x = Some c' → ∃ c, r = Some c ∧ precedes c c') as Hall.
  { intros c' Hc'. assert (∃ b, best' = Some b ∧ precedes b c') as (b & Hb & Hbc).
    { destruct x as [x|], best as [b|]; subst best'; try (destruct Hc' as [[=]|[=]]; subst; eexists; by split; [|apply precedes_refl]).
      destruct (less x b) eqn:Hl; destruct Hc' as [[= ->]|[= ->]]; eexists; (split; [done|]); try apply precedes_refl; [|done].
      destruct less_strict as [Hasym _ _]. by apply Hasym. }
    destruct (Hstart b Hb) as (c & Hr & Hcb). exists c. split; [done|]. by eapply precedes_trans. }
  split; [auto|]. intros w' c' [->|Hw]%elem_of_cons Hw'; [|by eapply Hrest]. apply Hall. right. rewrite Hv in Hw'. by injection Hw'.
Qed.

Lemma candidate_judged query fuzzy item c : searchable query → candidate query fuzzy item = Some c →
  judged_best query fuzzy c.
Proof.
  intros Hq. unfold candidate, evaluate. destruct (for_each _ _ _) as [r| | |] eqn:Hx; try done. cbn [mbind outcome_bind].
  destruct r as [b|]; [|done]. intros [= <-].
  assert ((entity b = item ∧ secondary b = []) ∧ ∃ words, words ∈ variants query ∧ judged query fuzzy words b) as [[He Hsec] (words & Hw & Hj)].
  { eapply (evaluate_loop_judged item query fuzzy (λ b, (entity b = item ∧ secondary b = []) ∧ ∃ words, words ∈ variants query ∧ judged query fuzzy words b) _ None _ b);
      [|by intros c [=]|exact Hx|done].
    intros w c Hw Hc. unfold searchable in Hq. rewrite Forall_forall in Hq. destruct (Hq w Hw) as [Hne Hlen].
    destruct (evaluate_variant_judged item w query fuzzy c Hne Hlen Hc) as [? ?]. eauto. }
  split; [cbn; by rewrite He|]. split; [exists words; split; [done|]; by destruct Hj as (H1 & H2 & H3 & H4 & H5 & H6); split_and!|].
  intros w c' Hw' Hc'. destruct (evaluate_loop_best _ _ _ _ _ _ Hx) as [_ Hbest]. cbn [entity set_secondary] in Hc'. rewrite He in Hc'.
  destruct (Hbest w c' Hw' Hc') as (b' & [= <-] & Hb). apply precedes_in_place. destruct b. cbn in *. by subst.
Qed.

(** The part of a kind in the groups: its first entities, or all of them. *)
Definition group_of (all : bool) (k : str) (es : list Entity) : list Entity :=
  let group := filter (λ e, kind e = k) es in if all then group else take GROUP_LIMIT group.

Lemma add_groups all cs m k : (all = false → (length (default [] (m !! k)) <= GROUP_LIMIT)%nat) →
  default [] (foldl (add_to_group all) m cs !! k) =
  (if all then λ l, l else take GROUP_LIMIT) (default [] (m !! k) ++ filter (λ e, kind e = k) (entity <$> cs)).
Proof.
  revert m. induction cs as [|c cs IH]; intros m Hm; cbn [foldl fmap list_fmap].
  { rewrite app_nil_r. destruct all; [done|]. by rewrite take_ge by auto. }
  destruct (decide (kind (entity c) = k)) as [Hk|Hk].
  - rewrite filter_cons_True by done. rewrite IH; unfold add_to_group; rewrite Hk, lookup_insert_eq; simpl default.
    + destruct all; cbn [orb]; [by rewrite <-app_assoc|]. destruct (Nat.ltb_spec (length (default [] (m !! k))) GROUP_LIMIT) as [Hlt|Hge].
      * by rewrite <-app_assoc.
      * rewrite !take_app_le by lia. done.
    + intros ->. cbn [orb]. destruct (Nat.ltb_spec (length (default [] (m !! k))) GROUP_LIMIT); [rewrite length_app; cbn; lia|by apply Hm].
  - rewrite filter_cons_False by done. rewrite IH; unfold add_to_group; by rewrite lookup_insert_ne.
Qed.

(** The ranking a search sends: [cs], in the order of [less]. *)
Definition sent (r : Ranked) (all : bool) (fuzzy : bool) (cs : list Candidate) : Prop :=
  matched r = (if fuzzy then Corrected else Direct) ∧ total r = length cs ∧
  best_match r = (if fuzzy then None else entity <$> head cs) ∧
  ∀ k, default [] (groups r !! k) = group_of all k (entity <$> cs).

Lemma assemble_sent cs matched_ all best : sent (mkRanked best (groups (assemble cs matched_ all)) matched_ (length cs)) all
    (match matched_ with Direct => false | Corrected => true end) cs ↔
  best = match matched_ with Direct => entity <$> head cs | Corrected => None end.
Proof.
  unfold sent. cbn [matched total best_match groups assemble]. split; [destruct matched_; by intros (_ & _ & -> & _)|].
  intros ->. split; [by destruct matched_|]. split; [done|]. split; [by destruct matched_|].
  intros k. rewrite add_groups by (intros _; rewrite lookup_empty; cbn; lia). rewrite lookup_empty. cbn. unfold group_of. by destruct all.
Qed.

Lemma evaluate_all_sorted index query fuzzy hidden_kind : searchable query → ∃ cs,
  evaluate_all (E:=E) index query fuzzy hidden_kind = Ok cs ∧ StronglySorted precedes cs ∧
  cs ≡ₚ omap (candidate query fuzzy) (filter (λ e, hidden_kind ≠ Some (kind e)) index).
Proof.
  intros Hq. unfold evaluate_all. rewrite collect_candidates by done. cbn. eexists. split; [done|]. split.
  - apply sort_by_sorted; [apply compare_precedes|apply precedes_trans].
  - apply sort_by_perm.
Qed.

Lemma rank_cases index query all hidden_kind : searchable query →
  let visible := filter (λ e, hidden_kind ≠ Some (kind e)) index in
  ∃ r fuzzy cs, rank (E:=E) index query all hidden_kind = Ok r ∧ sent r all fuzzy cs ∧
    (fuzzy = true ↔ ∀ e, e ∈ visible → ¬ found_by query false e) ∧
    StronglySorted in_place cs ∧ cs ≡ₚ omap (candidate query fuzzy) visible ∧
    (∀ c, c ∈ cs → (candidate_edits c <= budget fuzzy)%nat ∧ judged_best query fuzzy c) ∧
    (∀ e, e ∈ entity <$> cs ↔ e ∈ visible ∧ found_by query fuzzy e) ∧ (NoDup visible → NoDup (entity <$> cs)).
Proof.
  intros Hq visible. unfold rank.
  assert (∀ fuzzy cs, cs ≡ₚ omap (candidate query fuzzy) visible →
    (∀ c, c ∈ cs → (candidate_edits c <= budget fuzzy)%nat ∧ judged_best query fuzzy c) ∧
    (∀ e, e ∈ entity <$> cs ↔ e ∈ visible ∧ found_by query fuzzy e) ∧ (NoDup visible → NoDup (entity <$> cs))) as Hall.
  { intros fuzzy cs Hp. split; [|split].
    - intros c. rewrite Hp, list_elem_of_omap. intros (e & _ & Hc). split; [by apply (candidate_spec query fuzzy e Hq)|].
      by apply (candidate_judged query fuzzy e).
    - intros e. rewrite Hp. by apply entities_found.
    - intros Hnd. rewrite Hp. by eapply sublist_NoDup, entities_sublist. }
  assert (∀ cs, StronglySorted precedes cs → StronglySorted in_place cs) as Hplace.
  { induction 1 as [|c cs _ IH Hc]; constructor; [done|]. eapply Forall_impl; [exact Hc|]. intros d. apply precedes_in_place. }
  destruct (evaluate_all_sorted index query false hidden_kind Hq) as (strong & -> & Hsorted & Hp). cbn [mbind outcome_bind].
  destruct (Hall false strong Hp) as (He & Hin & Hnd). destruct strong as [|best strong].
  - destruct (evaluate_all_sorted index query true hidden_kind Hq) as (cs & -> & Hsorted' & Hp'). cbn [mbind outcome_bind].
    destruct (Hall true cs Hp') as (He' & Hin' & Hnd'). eexists _, true, cs. split; [done|].
    split; [by apply (assemble_sent cs Corrected)|]. split; [|by auto]. split; [|done]. intros _ e Hv Hf.
    assert (e ∈ entity <$> @nil Candidate) as []%not_elem_of_nil by (by apply Hin).
  - eexists _, false, (best :: strong). split; [done|]. split; [by apply (assemble_sent (best :: strong) Direct)|]. split; [|by auto].
    split; [done|]. intros Hno. assert (entity best ∈ entity <$> best :: strong) as [Hv Hf]%Hin by (by left). by destruct (Hno _ Hv).
Qed.

(** C16: A search sends what it finds without corrections, and with corrections only when
    it finds nothing: each kind's first entities from the best answer down, the
    count of all of them, and the first of all as the best match. The candidates
    are exactly the visible entities that are found, each once and judged by the
    class and edits of how it answers the query, its version and its names, by the
    best of the query's variants. *)
Theorem rank_correct index query all hidden_kind : searchable query →
  let visible := filter (λ e, hidden_kind ≠ Some (kind e)) index in
  ∃ r fuzzy cs, rank (E:=E) index query all hidden_kind = Ok r ∧ sent r all fuzzy cs ∧
    (fuzzy = true ↔ ∀ e, e ∈ visible → ¬ found_by query false e) ∧
    StronglySorted in_place cs ∧ cs ≡ₚ omap (candidate query fuzzy) visible ∧
    (∀ c, c ∈ cs → (candidate_edits c <= budget fuzzy)%nat ∧ judged_best query fuzzy c) ∧
    (∀ e, e ∈ entity <$> cs ↔ e ∈ visible ∧ found_by query fuzzy e) ∧ (NoDup visible → NoDup (entity <$> cs)).
Proof. apply rank_cases. Qed.

(** The ranking does not depend on the order in which the index holds its entities. *)
Theorem rank_order_free index index' query all hidden_kind : searchable query → NoDup ((λ e, (kind e, id e)) <$> index) → index ≡ₚ index' →
  rank (E:=E) index query all hidden_kind = rank index' query all hidden_kind.
Proof.
  intros Hq Hnd Hp. unfold rank.
  assert (∀ fuzzy, evaluate_all (E:=E) index query fuzzy hidden_kind = evaluate_all index' query fuzzy hidden_kind) as Hall; [|by rewrite !Hall].
  intros fuzzy. unfold evaluate_all. rewrite !collect_candidates by done. cbn. f_equal.
  apply (sort_by_unique compare_candidates precedes); [apply compare_precedes|apply precedes_trans|by rewrite Hp|].
  intros a b Ha Hb Hab Hba. apply list_elem_of_omap in Ha as (ea & Hea & Ha). apply list_elem_of_omap in Hb as (eb & Heb & Hb).
  destruct (strict_same _ _ less_strict a b Hba Hab) as (_ & _ & _ & _ & _ & _ & _ & Hid & Hkind).
  rewrite (candidate_entity _ _ _ _ Hq Ha), (candidate_entity _ _ _ _ Hq Hb) in Hid, Hkind.
  apply list_elem_of_filter in Hea as [_ Hea]. apply list_elem_of_filter in Heb as [_ Heb].
  apply list_elem_of_lookup in Hea as [i Hi]. apply list_elem_of_lookup in Heb as [j Hj].
  assert (i = j) as <- by (eapply (NoDup_lookup _ i j (kind ea, id ea) Hnd); by rewrite list_lookup_fmap, ?Hi, ?Hj; cbn; rewrite ?Hkind, ?Hid).
  congruence.
Qed.
End Ranking.

(** ** Examples *)

#[local] Existing Instance plain_normalization.

Lemma rank_correct_witness :
  ∃ r cs, rank (E:=Empty_set) example_index (example_query "beyocne") false None = Ok r ∧ matched r = Corrected ∧ sent r false true cs.
Proof.
  destruct (rank_correct (E:=Empty_set) example_index (example_query "beyocne") false None) as (r & fuzzy & cs & Hr & Hsent & _).
  { repeat constructor; done. }
  assert (matched r = Corrected) as Hm by (vm_compute in Hr; by injection Hr as <-).
  exists r, cs. split; [exact Hr|]. split; [exact Hm|]. destruct fuzzy; [exact Hsent|]. destruct Hsent as [Hm' _]. congruence.
Defined.

Lemma rank_order_free_witness :
  rank (E:=Empty_set) example_index (example_query "a") true None = rank (reverse example_index) (example_query "a") true None.
Proof.
  apply rank_order_free; [repeat constructor; done|apply (bool_decide_unpack _); vm_compute; exact I|].
  symmetry. apply reverse_Permutation.
Defined.
