(* ===== verification/SearchService.v ===== *)
(** Library Search, from the request to the answer: the index read from the database
    (modules/search/repository.rs), kept between searches (service.rs), and the
    handler that checks a query first (handlers.rs). *)

From stdpp Require Import sorting.
From S2P Require Import Prelude Text Http SearchData Search EditDistance SearchMatch SearchOrder Prog.

(** ** repository.rs *)

Inductive IndexError := Database (text : str) | Invalid (text : str).

(** A row of the fields statement, which orders its rows by kind and id, an
    entity's primary name first. *)
Record SourceRow := mkRow { row_kind : str; row_id : str; row_field : str; row_related_kind : str; row_related_id : str }.

(** What the two statements find for a user: kinds, ids and texts; and fields. *)
Record SearchRows := mkRows { text_rows : list (str * str * str); source_rows : list SourceRow }.

(** serde_json on a [Text]. *)
Class TextJson := { decode_text : str → str + SearchData.Text }.

Record Building := mkBuilding { b_kind : str; b_id : str; b_primary : option PreparedText; b_related : list FieldRef }.

Section Load.
Context {NZ : Normalization} {DB : Debug} {TJ : TextJson}.

Fixpoint load_texts (rows : list (str * str * str)) (texts : gmap (str * str) PreparedText)
    : outcome IndexError (gmap (str * str) PreparedText) :=
  match rows with
  | [] => Ok texts
  | (kind, id, text_json) :: rows =>
      match decode_text text_json with
      | inl error => Err (Invalid (st "decode Library Search " ++ kind ++ st " " ++ debug_str id ++ st " text: " ++ error))
      | inr text => load_texts rows (<[(kind, id) := new_prepared text]> texts)
      end
  end.

(** The body of the loop over the fields. *)
Definition add_source (texts : gmap (str * str) PreparedText) (source : SourceRow) (building : list Building)
    : outcome IndexError (list Building) :=
  text ← ok_or (texts !! (row_related_kind source, row_related_id source))
    (Invalid (st "prepared Library Search data for " ++ row_related_kind source ++ st " " ++ debug_str (row_related_id source)
              ++ st " is missing; rebuild derived data"));
  let is_current :=
    match last building with
    | Some current => bool_decide (b_kind current = row_kind source) && bool_decide (b_id current = row_id source)
    | None => false
    end in
  let building := if is_current then building else building ++ [mkBuilding (row_kind source) (row_id source) None []] in
  match last building with
  | None => Panic
  | Some current =>
      let current :=
        if bool_decide (row_field source = st "primary") then mkBuilding (b_kind current) (b_id current) (Some text) (b_related current)
        else mkBuilding (b_kind current) (b_id current) (b_primary current)
               (b_related current ++ [mkField (row_field source) (row_related_id source) text]) in
      Ok (<[(length building - 1)%nat := current]> building)
  end.

Fixpoint finish_entities (building : list Building) : outcome IndexError Index :=
  match building with
  | [] => Ok []
  | entity :: building =>
      primary ← ok_or (b_primary entity)
        (Invalid (st "searchable " ++ b_kind entity ++ st " " ++ debug_str (b_id entity) ++ st " has no primary name"));
      entities ← finish_entities building;
      Ok (mkEntity (b_kind entity) (b_id entity) primary (b_related entity) :: entities)
  end.

(** What [load] makes of the rows. *)
Definition load_index (rows : SearchRows) : outcome IndexError Index :=
  texts ← load_texts (text_rows rows) ∅;
  building ← for_each (add_source texts) (source_rows rows) [];
  finish_entities building.
End Load.

(** ** service.rs *)

Definition PLAYLIST_KIND : str := st "playlist".
Definition GROUP_ORDER : list str := [st "track"; st "album"; st "artist"; st "genre"; PLAYLIST_KIND].

Record Snapshot := mkSnapshot { snapshot_index : Index; snapshot_revision : Z; snapshot_user : str }.

(** What the searches share: the database, of which the revision says what it holds,
    and the kept snapshot. *)
Record SearchState := mkSearch { db_revision : Z; snapshot : option Snapshot }.

Definition put_snapshot (s : Snapshot) (st : SearchState) : SearchState := mkSearch (db_revision st) (Some s).

(** A statement, or a transaction's beginning or end: the database may fail it. *)
Inductive scall : Type → Type :=
| Statement : scall (option str).

Record Reference := mkReference { ref_id : str; ref_name : str }.
Record SearchResult := mkResult {
  result_album : option Reference;
  result_artists : option (list Reference);
  result_id : str;
  result_match : str;
  result_name : str;
  result_kind : str
}.
Record SearchResponse := mkResponse {
  albums : list SearchResult;
  artists : list SearchResult;
  response_best : option SearchResult;
  genres : list SearchResult;
  playlists : list SearchResult;
  response_total : nat;
  tracks : list SearchResult
}.

Definition to_result (e : Entity) (m : Match) : SearchResult :=
  let credits :=
    if bool_decide (kind e = st "track") then Some (st "track_artist")
    else if bool_decide (kind e = st "album") then Some (st "album_artist")
    else None in
  let reference f := mkReference (related_id f) (original (text (field_text f))) in
  mkResult
    (match entity_fields e (st "album") with [f] => Some (reference f) | _ => None end)
    ((λ credits, reference <$> entity_fields e credits) <$> credits)
    (id e) (match_str m) (original (text (primary e))) (kind e).

(** [groups.remove(kind)] as results. *)
Definition take_group (m : Match) (kind : str) (groups : gmap str (list Entity)) : list SearchResult * gmap str (list Entity) :=
  ((λ e, to_result e m) <$> default [] (groups !! kind), delete kind groups).

Section Service.
Context {NZ : Normalization} {DB : Debug} {TJ : TextJson}.
(** What the database holds at each revision, as a user sees it. *)
Variable contents : Z → str → SearchRows.

Abbreviation Searching A := (prog SearchState scall (outcome IndexError A)).

(** One statement of a sqlx query: carried out, or failed by the database. *)
Definition statement (failed : str → IndexError) : Searching unit :=
  failure ← call Statement;
  Done (match failure with None => Ok tt | Some error => Err (failed error) end).

Definition current_revision : Searching Z :=
  _ ←? statement Database; revision ← read db_revision; Done (Ok revision).

(** [Repository::load]: every statement of the transaction reads what the database
    held when the first one did. *)
Definition load (user_id : str) (reuse : Z → bool) : Searching (option Index * Z) :=
  _ ←? statement Database;
  _ ←? statement Database;
  revision ← read db_revision;
  if reuse revision then Done (Ok (None, revision))
  else
    let rows := contents revision user_id in
    _ ←? statement (λ error, Invalid (st "read Library Search texts: " ++ error));
    texts ←? Done (load_texts (text_rows rows) ∅);
    _ ←? statement (λ error, Invalid (st "read Library Search fields: " ++ error));
    _ ←? statement Database;
    building ←? Done (for_each (add_source texts) (source_rows rows) []);
    entities ←? Done (finish_entities building);
    Done (Ok (Some entities, revision)).

(** The lock around the snapshot. *)
Definition SNAPSHOT : nat := 0.

Definition is_current (revision : Z) (user_id : str) (s : Snapshot) : bool :=
  bool_decide (snapshot_revision s = revision) && bool_decide (snapshot_user s = user_id).

(** The part of [current_index] that holds the lock across the database. *)
Definition reload (user_id : str) : Searching Index :=
  kept ← read snapshot;
  '(index, revision) ←? load user_id (λ revision, match kept with Some current => is_current revision user_id current | None => false end);
  match index with
  | None => match kept with Some current => Done (Ok (snapshot_index current)) | None => Done Panic end
  | Some index => _ ← write (put_snapshot (mkSnapshot index revision user_id)); Done (Ok index)
  end.

Definition current_index (user_id : str) : Searching Index :=
  revision ←? current_revision;
  kept ← locked SNAPSHOT (read snapshot);
  match kept with
  | Some current => if is_current revision user_id current then Done (Ok (snapshot_index current)) else locked SNAPSHOT (reload user_id)
  | None => locked SNAPSHOT (reload user_id)
  end.

Definition respond (ranked : Ranked) : SearchResponse :=
  let '(tracks, groups1) := take_group (matched ranked) (st "track") (groups ranked) in
  let '(albums, groups2) := take_group (matched ranked) (st "album") groups1 in
  let '(artists, groups3) := take_group (matched ranked) (st "artist") groups2 in
  let '(genres, groups4) := take_group (matched ranked) (st "genre") groups3 in
  let '(playlists, _) := take_group (matched ranked) PLAYLIST_KIND groups4 in
  mkResponse albums artists ((λ e, to_result e Direct) <$> best_match ranked) genres playlists (total ranked) tracks.

Definition search (user_id : str) (query : Query) (all include_playlists : bool) : Searching SearchResponse :=
  index ←? current_index user_id;
  let hidden_kind := if negb include_playlists then Some PLAYLIST_KIND else None in
  ranked ←? Done (rank index query all hidden_kind);
  Done (Ok (respond ranked)).

(** ** handlers.rs *)

Definition MAX_QUERY_CHARACTERS : Z := 200.

(** auth.rs: the only user. *)
Definition DEFAULT_USER_ID : str := st "00000000-0000-0000-0000-000000000001".

Definition check_query (query : GoQuery) : outcome ApiError (Query * bool) :=
  let raw := query_get query (st "q") in
  if bool_decide (trim raw = []) then Err (bad_request (st "query parameter q is required"))
  else if MAX_QUERY_CHARACTERS <? zlen raw then
    Err (bad_request (st "query is longer than " ++ show MAX_QUERY_CHARACTERS ++ st " characters"))
  else
    let prepared := new_query (prepare_query raw) in
    none ← is_empty prepared;
    if none : bool then Err (bad_request (st "query has no searchable letters or digits"))
    else
      match values query (st "all") with
      | None => Ok (prepared, false)
      | Some [value] =>
          if bool_decide (value = st "true") then Ok (prepared, true)
          else if bool_decide (value = st "false") then Ok (prepared, false)
          else Err (bad_request (st "query parameter all must be true or false"))
      | Some _ => Err (bad_request (st "query parameter all must be true or false"))
      end.

Definition search_handler (guest : bool) (query : GoQuery) : prog SearchState scall (outcome ApiError SearchResponse) :=
  '(prepared, all) ←? Done (check_query query);
  with_err (λ _, api_error 500 (st "internal_error") (st "Library Search is unavailable"))
    (search DEFAULT_USER_ID prepared all (negb guest)).

(** ** What the rows become *)

Definition row_key (r : SourceRow) : str * str := (row_kind r, row_id r).
Definition building_key (b : Building) : str * str := (b_kind b, b_id b).

Lemma load_texts_returns rows texts : returns (load_texts rows texts).
Proof.
  revert texts. induction rows as [|[[k i] t] rows IH]; intros texts; [done|]. cbn [load_texts]. destruct (decode_text t); [done|apply IH].
Qed.

Lemma finish_entities_returns building : returns (finish_entities building).
Proof.
  induction building as [|b building IH]; [done|]. cbn [finish_entities]. destruct (b_primary b); [|done]. cbn.
  by destruct (finish_entities building).
Qed.

(** One row: it joins the last entity, or starts the next one. *)
Definition joins (building : list Building) (r : SourceRow) : bool :=
  match last building with
  | Some current => bool_decide (b_kind current = row_kind r) && bool_decide (b_id current = row_id r)
  | None => false
  end.

Lemma add_source_cases texts r building :
  (∃ e, add_source texts r building = Err e) ∨
  ∃ before current text, add_source texts r building = Ok (before ++
      [if bool_decide (row_field r = st "primary") then mkBuilding (b_kind current) (b_id current) (Some text) (b_related current)
       else mkBuilding (b_kind current) (b_id current) (b_primary current) (b_related current ++ [mkField (row_field r) (row_related_id r) text])]) ∧
    texts !! (row_related_kind r, row_related_id r) = Some text ∧ building_key current = row_key r ∧
    ((joins building r = true ∧ building = before ++ [current]) ∨
     (joins building r = false ∧ before = building ∧ current = mkBuilding (row_kind r) (row_id r) None [])).
Proof.
  unfold add_source. destruct (texts !! _) as [text|]; [|left; by eexists]. right. cbn [ok_or mbind outcome_bind]. fold (joins building r).
  destruct (joins building r) eqn:Hj.
  - unfold joins in Hj. destruct (last building) as [current|] eqn:Hlast; [|done].
    apply last_Some in Hlast as [before ->]. apply andb_true_iff in Hj as [?%bool_decide_eq_true ?%bool_decide_eq_true].
    exists before, current, text. split; [|split; [done|split; [by unfold building_key, row_key; f_equal|by left]]].
    rewrite length_app. cbn [length]. rewrite Nat.add_sub. by rewrite insert_app_r_alt, Nat.sub_diag by lia.
  - rewrite last_snoc. exists building, (mkBuilding (row_kind r) (row_id r) None []), text.
    split; [|split; [done|split; [done|by right]]]. rewrite length_app. cbn [length]. rewrite Nat.add_sub. by rewrite insert_app_r_alt, Nat.sub_diag by lia.
Qed.

Lemma add_sources_returns texts rows building : returns (for_each (add_source texts) rows building).
Proof.
  revert building. induction rows as [|r rows IH]; intros building; [done|]. cbn [for_each].
  destruct (add_source_cases texts r building) as [[e ->]|(before & current & text & -> & _)]; [done|apply IH].
Qed.

(** The order of the statement: by kind, then by id. *)
Definition key_le (a b : str * str) : Prop :=
  if decide (a.1 = b.1) then str_leb a.2 b.2 = true else str_leb a.1 b.1 = true.
Definition in_order (rows : list SourceRow) : Prop := StronglySorted (λ a b, key_le (row_key a) (row_key b)) rows.

Lemma key_le_antisym a b : key_le a b → key_le b a → a = b.
Proof.
  destruct a as [k i], b as [k' i']. unfold key_le. cbn. destruct (decide (k = k')) as [->|Hne].
  - rewrite decide_True by done. intros ??. f_equal. by apply str_leb_antisym.
  - rewrite decide_False by auto. intros ??. by destruct Hne; apply str_leb_antisym.
Qed.

Lemma key_le_trans a b c : key_le a b → key_le b c → key_le a c.
Proof.
  destruct a as [k i], b as [k' i'], c as [k'' i'']. unfold key_le. cbn. intros H1 H2.
  destruct (decide (k = k')) as [->|Hne], (decide (k' = k'')) as [->|Hne']; try done.
  2: by rewrite decide_False.
  - by eapply str_leb_trans.
  - destruct (decide (k = k'')) as [->|]; [|by eapply str_leb_trans]. destruct Hne. by apply str_leb_antisym.
Qed.

(** The related field of a row. *)
Definition field_of (texts : gmap (str * str) PreparedText) (r : SourceRow) : option FieldRef :=
  mkField (row_field r) (row_related_id r) <$> texts !! (row_related_kind r, row_related_id r).

Definition related_of (texts : gmap (str * str) PreparedText) (key : str * str) (rows : list SourceRow) : list FieldRef :=
  omap (field_of texts) (filter (λ r, row_key r = key ∧ row_field r ≠ st "primary") rows).

(** [building] holds the entities of the rows so far, each once. *)
Record built (texts : gmap (str * str) PreparedText) (rows : list SourceRow) (building : list Building) : Prop := {
  built_order : StronglySorted (λ a b, key_le a b ∧ a ≠ b) (building_key <$> building);
  built_keys k : k ∈ building_key <$> building ↔ k ∈ row_key <$> rows;
  built_related b : b ∈ building → b_related b = related_of texts (building_key b) rows
}.

Lemma related_of_snoc texts key rows r : related_of texts key (rows ++ [r]) =
  related_of texts key rows ++ (if decide (row_key r = key ∧ row_field r ≠ st "primary") then omap (field_of texts) [r] else []).
Proof. unfold related_of. rewrite filter_app, omap_app. f_equal. rewrite filter_cons. case_decide; done. Qed.

(** What a row makes of the entity it belongs to. *)
Lemma row_related texts r text current rows : texts !! (row_related_kind r, row_related_id r) = Some text → building_key current = row_key r →
  b_related current = related_of texts (row_key r) rows →
  b_related (if bool_decide (row_field r = st "primary") then mkBuilding (b_kind current) (b_id current) (Some text) (b_related current)
    else mkBuilding (b_kind current) (b_id current) (b_primary current) (b_related current ++ [mkField (row_field r) (row_related_id r) text]))
  = related_of texts (row_key r) (rows ++ [r]).
Proof.
  intros Htext Hkey Hrel. rewrite related_of_snoc. case_bool_decide as Hp; cbn [b_related].
  - rewrite decide_False by naive_solver. by rewrite app_nil_r.
  - rewrite decide_True by done. cbn. unfold field_of. rewrite Htext. cbn. by rewrite Hrel.
Qed.

Lemma related_of_other texts rows r key : row_key r ≠ key → related_of texts key (rows ++ [r]) = related_of texts key rows.
Proof. intros Hne. rewrite related_of_snoc, decide_False by naive_solver. by rewrite app_nil_r. Qed.

Lemma related_of_none texts rows key : key ∉ row_key <$> rows → related_of texts key rows = [].
Proof.
  intros Hno. unfold related_of. destruct (filter _ rows) as [|r l] eqn:Hf; [done|]. destruct Hno.
  assert (r ∈ r :: l) as [[<- _] Hr]%(λ H, proj1 (list_elem_of_filter _ _ _) (eq_ind_r (λ l, r ∈ l) H Hf)) by left.
  by apply list_elem_of_fmap_2.
Qed.

(** A row that starts an entity comes after all those before it. *)
Lemma starts_fresh texts rows r building : in_order (rows ++ [r]) → built texts rows building → joins building r = false →
  ∀ k, k ∈ building_key <$> building → key_le k (row_key r) ∧ k ≠ row_key r.
Proof.
  intros Hord [Hsort Hkeys _] Hj.
  assert (∀ k, k ∈ building_key <$> building → key_le k (row_key r)) as Hle.
  { intros k Hk%Hkeys. apply list_elem_of_fmap in Hk as (r' & -> & Hr'). 
    eapply (StronglySorted_app_1_elem_of _ _ _ _ _ Hord); [exact Hr'|]. by left. }
  intros k Hk. split; [by apply Hle|]. intros ->. unfold joins in Hj. destruct (last building) as [c|] eqn:Hlast.
  - apply last_Some in Hlast as [pre ->].
    assert (building_key c = row_key r) as Hc.
    { rewrite fmap_app in Hk, Hsort. apply elem_of_app in Hk as [Hk|Hk].
      - apply key_le_antisym; [apply Hle; rewrite fmap_app, elem_of_app; right; by left|].
        eapply (StronglySorted_app_1_elem_of _ _ _ _ _ Hsort); [exact Hk|]. by left.
      - by apply list_elem_of_singleton in Hk. }
    unfold building_key, row_key in Hc. injection Hc as H1 H2. rewrite H1, H2, !bool_decide_true in Hj; done.
  - apply last_None in Hlast as ->. by apply not_elem_of_nil in Hk.
Qed.

Lemma built_step texts rows r building building' : in_order (rows ++ [r]) → built texts rows building →
  add_source texts r building = Ok building' → built texts (rows ++ [r]) building'.
Proof.
  intros Hord Hb Hadd. destruct (add_source_cases texts r building) as [[e He]|(before & current & text & Hok & Htext & Hkey & Hcase)]; [congruence|].
  rewrite Hok in Hadd. injection Hadd as <-. pose proof (row_related texts r text current rows Htext Hkey) as Hnew.
  set (new := if bool_decide _ then _ else _) in *.
  assert (building_key new = row_key r) as Hnk by (subst new; case_bool_decide; exact Hkey).
  destruct Hcase as [[Hj ->]|(Hj & -> & ->)].
  - destruct Hb as [Hsort Hkeys Hrel].
    assert (building_key <$> before ++ [new] = building_key <$> before ++ [current]) as Hsame by (rewrite !fmap_app; cbn; by rewrite Hnk, Hkey).
    split; rewrite ?Hsame; [done| |].
    + intros k. rewrite Hkeys, fmap_app, elem_of_app. split; [by left|]. intros [?|Hk]; [done|]. apply list_elem_of_singleton in Hk as ->.
      apply Hkeys. rewrite fmap_app, elem_of_app, <-Hkey. right. by left.
    + intros b [Hin|Hin]%elem_of_app.
      * rewrite related_of_other; [apply Hrel; rewrite elem_of_app; by left|]. rewrite fmap_app in Hsort. intros Heq.
        destruct (StronglySorted_app_1_elem_of _ _ _ (building_key b) (building_key current) Hsort) as [_ Hne]; [by apply list_elem_of_fmap_2|by left|congruence].
      * apply list_elem_of_singleton in Hin as ->. rewrite Hnk. apply Hnew. rewrite <-Hkey. apply Hrel. rewrite elem_of_app. right. by left.
  - pose proof (starts_fresh texts rows r building Hord Hb Hj) as Hfresh. destruct Hb as [Hsort Hkeys Hrel]. split.
    + rewrite fmap_app. apply StronglySorted_app_2; [|done|repeat constructor]. cbn. rewrite Hnk. intros k k' Hk Hk'%list_elem_of_singleton. subst. by apply Hfresh.
    + intros k. rewrite !fmap_app, !elem_of_app, Hkeys. cbn. by rewrite Hnk.
    + intros b [Hin|Hin]%elem_of_app.
      * rewrite related_of_other; [by apply Hrel|]. intros Heq. destruct (Hfresh (building_key b)); [by apply list_elem_of_fmap_2|congruence].
      * apply list_elem_of_singleton in Hin as ->. rewrite Hnk. apply Hnew. cbn [b_related]. symmetry. apply related_of_none.
        intros Hk%Hkeys. by destruct (Hfresh _ Hk).
Qed.

Lemma built_all texts rows more building building' : in_order (rows ++ more) → built texts rows building →
  for_each (add_source texts) more building = Ok building' → built texts (rows ++ more) building'.
Proof.
  revert rows building. induction more as [|r more IH]; intros rows building Hord Hb; cbn [for_each].
  - intros [= <-]. by rewrite app_nil_r.
  - intros (next & Hadd & Hrest)%bind_Ok. replace (rows ++ r :: more) with ((rows ++ [r]) ++ more) in * by (by rewrite <-app_assoc).
    eapply IH; [done| |done]. eapply built_step; [by eapply StronglySorted_app_1_l|done|done].
Qed.

Definition entity_key (e : Entity) : str * str := (kind e, id e).

Lemma finish_same building index : finish_entities building = Ok index →
  Forall2 (λ b e, entity_key e = building_key b ∧ related e = b_related b) building index.
Proof.
  revert index. induction building as [|b building IH]; intros index; cbn [finish_entities]; [intros [= <-]; constructor|].
  intros (p & Hp & (es & Hes & [= <-])%bind_Ok)%bind_Ok. constructor; [done|by apply IH].
Qed.

(** The index holds one entity for every kind and id of the rows, with the related
    fields of its rows, in their order. *)
Theorem load_groups rows index : in_order (source_rows rows) → load_index rows = Ok index →
  ∃ texts, load_texts (text_rows rows) ∅ = Ok texts ∧ NoDup (entity_key <$> index) ∧
    (∀ k, k ∈ entity_key <$> index ↔ k ∈ row_key <$> source_rows rows) ∧
    ∀ e, e ∈ index → related e = related_of texts (entity_key e) (source_rows rows).
Proof.
  intros Hord (texts & Htexts & (building & Hbuild & Hfinish)%bind_Ok)%bind_Ok. exists texts. split; [exact Htexts|].
  destruct (built_all texts [] (source_rows rows) [] building Hord) as [Hsort Hkeys Hrel]; [|exact Hbuild|].
  { split; [constructor|done|by intros b ?%not_elem_of_nil]. }
  pose proof (finish_same _ _ Hfinish) as Hsame.
  assert (entity_key <$> index = building_key <$> building) as Hk.
  { clear -Hsame. induction Hsame as [|b e building index [Hk _] _ IH]; [done|]. cbn. by rewrite Hk, IH. }
  rewrite Hk. split; [|split; [exact Hkeys|]].
  - clear -Hsort. induction Hsort as [|k ks _ IH Hle]; constructor; [|done]. intros Hin. rewrite Forall_forall in Hle. by destruct (Hle k Hin).
  - intros e He. apply list_elem_of_lookup in He as [i Hi]. destruct (Forall2_lookup_r _ _ _ _ _ Hsame Hi) as (b & Hb & Hke & Hre).
    rewrite Hre, Hke. apply Hrel. by eapply list_elem_of_lookup_2.
Qed.

Lemma load_index_returns rows : returns (load_index rows).
Proof.
  unfold load_index. apply returns_bind; [apply load_texts_returns|]. intros texts _.
  apply returns_bind; [apply add_sources_returns|]. intros building _. apply finish_entities_returns.
Qed.

(** ** Searches and writes, side by side *)

(** The database may fail any statement. *)
Definition reply_ok (B : Type) (c : scall B) (b : B) : Prop := True.

(** The kept snapshot is what the database held for its user at its revision, which
    it had reached. *)
Definition kept (s : SearchState) : Prop :=
  ∀ c, snapshot s = Some c → snapshot_revision c <= db_revision s ∧
    load_index (contents (snapshot_revision c) (snapshot_user c)) = Ok (snapshot_index c).

(** The database moves on only. *)
Definition later (s s' : SearchState) : Prop := db_revision s <= db_revision s'.
#[local] Instance later_preorder : PreOrder later.
Proof. unfold later. split; [intros s|intros s s' s'']; lia. Qed.

(** [index] is what the database held for [user_id] at a revision between two. *)
Definition of_user (floor now : Z) (user_id : str) (index : Index) : Prop :=
  ∃ revision, floor <= revision <= now ∧ load_index (contents revision user_id) = Ok index.

(** What a program that can fail gives when it succeeds. *)
Definition giving {X A} (P : SearchState → A → Prop) (s : SearchState) (r : outcome X A) : Prop :=
  match r with Ok a => P s a | Err _ => True | Panic | OutOfFuel => False end.

Abbreviation relying s p Q := (relies reply_ok kept later s p (giving Q)).

Lemma giving_bind {X A B} s (p : prog SearchState scall (outcome X A)) (f : A → prog SearchState scall (outcome X B)) P Q :
  relying s p P → (∀ s a, P s a → relying s (f a) Q) → relying s (and_then p f) Q.
Proof. intros Hp Hf. eapply relies_and_then; [|exact Hf]. eapply relies_weaken; [|exact Hp]. by intros s' []. Qed.

Lemma giving_statement {B} s failed (f : unit → prog SearchState scall (outcome IndexError B)) Q :
  relying s (f tt) Q → relying s (and_then (statement failed) f) Q.
Proof. intros Hf failure _. by destruct failure. Qed.

Lemma giving_done {X A B} s (r : outcome X A) (f : A → prog SearchState scall (outcome X B)) Q :
  returns r → (∀ a, r = Ok a → relying s (f a) Q) → relying s (and_then (Done r) f) Q.
Proof. intros Hr Hf. destruct r; cbn; try done. by apply Hf. Qed.

Lemma giving_read {A B} s (f : SearchState → B) (k : B → prog SearchState scall A) Q :
  (∀ s', kept s' → later s s' → relies reply_ok kept later s' (k (f s')) Q) → relies reply_ok kept later s (read f ≫= k) Q.
Proof. intros Hk s' Hs Hr. split; [done|]. split; [reflexivity|by apply Hk]. Qed.

Lemma is_current_true revision user_id c : is_current revision user_id c = true → snapshot_revision c = revision ∧ snapshot_user c = user_id.
Proof. unfold is_current. intros [?%bool_decide_eq_true ?%bool_decide_eq_true]%andb_true_iff. done. Qed.

(** What is loaded, or may be reused, is of the revision the database is read at. *)
Lemma load_relies s user_id reuse : relying s (load user_id reuse) (λ s' p, db_revision s <= p.2 <= db_revision s' ∧
  match p.1 with Some index => load_index (contents p.2 user_id) = Ok index | None => reuse p.2 = true end).
Proof.
  unfold load. do 2 apply giving_statement. apply giving_read. intros s' _ Hr. unfold later in Hr.
  destruct (reuse (db_revision s')) eqn:Hreuse; [by cbn|].
  apply giving_statement, giving_done; [apply load_texts_returns|]. intros texts Htexts. do 2 apply giving_statement.
  apply giving_done; [apply add_sources_returns|]. intros building Hb. apply giving_done; [apply finish_entities_returns|]. intros index Hi.
  cbn. split; [lia|]. unfold load_index. by rewrite Htexts; cbn; rewrite Hb; cbn.
Qed.

Lemma reload_relies floor s user_id : floor <= db_revision s → relying s (reload user_id) (λ s', of_user floor (db_revision s') user_id).
Proof.
  intros Hfloor. unfold reload. apply giving_read. intros s1 Hs1 Hr1. unfold later in Hr1. eapply giving_bind; [apply load_relies|].
  intros s2 [[index|] revision] [Hrev Hl]; cbn in Hrev, Hl.
  - intros s3 Hs3 Hr3. unfold later in *. cbn. split; [|split; [lia|]].
    + intros c' [= <-]. cbn. split; [lia|done].
    + exists revision. split; [lia|done].
  - destruct (snapshot s1) as [c|] eqn:Hc; [|done]. apply is_current_true in Hl as [<- <-].
    destruct (Hs1 c Hc) as [_ Hindex]. exists (snapshot_revision c). split; [lia|done].
Qed.

Lemma current_index_relies s user_id : relying s (current_index user_id) (λ s', of_user (db_revision s) (db_revision s') user_id).
Proof.
  unfold current_index, current_revision.
  eapply giving_bind with (P := λ s' revision, db_revision s <= revision <= db_revision s').
  { apply giving_statement, giving_read. intros s' _ Hr. unfold later in Hr. by cbn. }
  intros s1 revision Hrev. eapply relies_bind with (P := λ s2 c, kept s2 ∧ later s1 s2 ∧ c = snapshot s2).
  { apply relies_locked, relies_read; [apply _|]. intros s2 Hs2 Hr2. by split_and!. }
  intros s2 c (Hs2 & Hr2 & ->). unfold later in Hr2.
  assert (relying s2 (locked SNAPSHOT (reload user_id)) (λ s', of_user (db_revision s) (db_revision s') user_id)) as Hreload.
  { apply relies_locked, reload_relies. lia. }
  destruct (snapshot s2) as [c|] eqn:Hc; [|exact Hreload]. destruct (is_current revision user_id c) eqn:Hcur; [|exact Hreload].
  apply is_current_true in Hcur as [<- <-]. destruct (Hs2 c Hc) as [_ Hindex]. exists (snapshot_revision c). split; [lia|done].
Qed.

(** The query of a request that is answered, in the memory there is. *)
Definition fits (query : GoQuery) : Prop :=
  ∀ q all, check_query query = Ok (q, all) → Forall (λ words : list str, Z.of_nat (length words) < 2 ^ 62) (variants q).

Lemma checked_searchable query q all : fits query → check_query query = Ok (q, all) → searchable q.
Proof.
  intros Hfits Hq. pose proof (Hfits _ _ Hq) as Hlen. unfold check_query in Hq. case_bool_decide; [done|].
  destruct (MAX_QUERY_CHARACTERS <? zlen _); [done|]. apply bind_Ok in Hq as (none & Hnone & Hq). destruct none; [done|].
  assert (q = new_query (prepare_query (query_get query (st "q")))) as ->.
  { destruct (values query (st "all")) as [[|v [|? ?]]|]; try done; repeat case_bool_decide; naive_solver. }
  unfold searchable. apply Forall_and. split; [|exact Hlen]. unfold is_empty, new_query in *. cbn [variants] in *.
  cbn in Hnone. injection Hnone as Hne%bool_decide_eq_false. constructor; [exact Hne|].
  case_bool_decide; [constructor|]. constructor; [|constructor]. intros Hc. apply Hne.
  by apply (joined_nil _ _ (compact_joins_words (query_get query (st "q")))).
Qed.

Definition all_results (r : SearchResponse) : list SearchResult :=
  tracks r ++ albums r ++ artists r ++ genres r ++ playlists r ++ option_list (response_best r).

Lemma take_group_in m kind groups r : r ∈ (take_group m kind groups).1 → ∃ e, r = to_result e m ∧ e ∈ default [] (groups !! kind).
Proof. cbn. intros (e & -> & He)%list_elem_of_fmap. by exists e. Qed.

Lemma deleted_in (k k' : str) (g : gmap str (list Entity)) e : e ∈ default [] (delete k g !! k') → e ∈ default [] (g !! k').
Proof.
  destruct (decide (k = k')) as [->|Hne]; [rewrite lookup_delete_eq; by intros ?%not_elem_of_nil|by rewrite lookup_delete_ne].
Qed.

Lemma respond_results ranked r : r ∈ all_results (respond ranked) →
  ∃ e m, r = to_result e m ∧ ((∃ k, e ∈ default [] (groups ranked !! k)) ∨ best_match ranked = Some e).
Proof.
  unfold all_results, respond. cbn. rewrite !elem_of_app. intros Hr.
  assert (∀ k (g : gmap str (list Entity)), (∀ e, e ∈ default [] (g !! k) → e ∈ default [] (groups ranked !! k)) →
    r ∈ (λ e, to_result e (matched ranked)) <$> default [] (g !! k) →
    ∃ e m, r = to_result e m ∧ ((∃ k, e ∈ default [] (groups ranked !! k)) ∨ best_match ranked = Some e)) as Hgroup.
  { intros k g Hg (e & -> & He)%list_elem_of_fmap. exists e, (matched ranked). split; [done|]. left. exists k. by apply Hg. }
  destruct Hr as [Hr|[Hr|[Hr|[Hr|[Hr|Hr]]]]]; [eapply Hgroup; [|exact Hr]; intros e He; by repeat apply deleted_in in He..|].
  destruct (best_match ranked) as [e|]; cbn in Hr; [|by apply not_elem_of_nil in Hr]. apply list_elem_of_singleton in Hr as ->.
  exists e, Direct. split; [done|]. by right.
Qed.

Lemma hidden_results index query all k ranked : searchable query → rank (E:=IndexError) index query all (Some k) = Ok ranked →
  ∀ r, r ∈ all_results (respond ranked) → result_kind r ≠ k.
Proof.
  intros Hq Hrank r (e & m & -> & He)%respond_results. cbn.
  destruct (rank_cases (E:=IndexError) index query all (Some k) Hq) as (r & fuzzy & cs & Hr & (_ & _ & Hbest & Hgroups) & _ & _ & _ & _ & Hin & _).
  rewrite Hrank in Hr. injection Hr as <-. assert (e ∈ entity <$> cs) as [Hv _]%Hin.
  - destruct He as [[k' He]|He].
    + rewrite Hgroups in He. unfold group_of in He. destruct all; [|apply elem_of_take in He as (i & He & _); apply list_elem_of_lookup_2 in He];
        by apply list_elem_of_filter in He as [_ He].
    + rewrite Hbest in He. destruct fuzzy; [done|]. destruct cs as [|c cs]; [done|]. injection He as <-. by left.
  - apply list_elem_of_filter in Hv as [Hv _]. congruence.
Qed.

Lemma rank_returns index query all hidden : searchable query → returns (rank (E:=IndexError) index query all hidden).
Proof. intros Hq. by destruct (rank_cases (E:=IndexError) index query all hidden Hq) as (r & fuzzy & cs & -> & _). Qed.

(** The response shows the entities of a ranking, kind by kind in their order. *)
Definition shows (ranked : Ranked) (response : SearchResponse) : Prop :=
  let group k := (λ e, to_result e (matched ranked)) <$> default [] (groups ranked !! st k) in
  tracks response = group "track" ∧ albums response = group "album" ∧ artists response = group "artist" ∧
  genres response = group "genre" ∧ playlists response = group "playlist" ∧
  response_best response = (λ e, to_result e Direct) <$> best_match ranked ∧ response_total response = total ranked.

Lemma respond_shows ranked response : shows ranked response ↔ response = respond ranked.
Proof.
  unfold shows, respond. cbn [take_group fst snd]. rewrite !lookup_delete_ne by done. unfold PLAYLIST_KIND.
  destruct response; cbn. split; [by intros (-> & -> & -> & -> & -> & -> & ->)|by intros [= -> -> -> -> -> -> ->]].
Qed.

(** The answer is what the library of the user, as it was at a revision between the
    two, ranks for the query. *)
Definition answer_of (floor now : Z) (guest : bool) (query : GoQuery) (response : SearchResponse) : Prop :=
  ∃ q all index ranked, check_query query = Ok (q, all) ∧ of_user floor now DEFAULT_USER_ID index ∧
    rank (E:=IndexError) index q all (if guest then Some PLAYLIST_KIND else None) = Ok ranked ∧ shows ranked response.

(** What a request ends in, which began at the one revision and ends at the other. *)
Definition search_ends (floor now : Z) (guest : bool) (query : GoQuery) (r : outcome ApiError SearchResponse) : Prop :=
  match r with
  | Ok response => answer_of floor now guest query response
  | Err e => check_query query = Err e ∧ status e = 400 ∨ (∃ p, check_query query = Ok p) ∧ status e = 500
  | Panic | OutOfFuel => False
  end.

Lemma is_empty_new {X} text : is_empty (E:=X) (new_query text) = Ok (bool_decide (fields (folded text) = [])).
Proof. done. Qed.

Lemma check_query_returns query : match check_query query with Ok _ => True | Err e => status e = 400 | Panic | OutOfFuel => False end.
Proof.
  unfold check_query. case_bool_decide; [done|]. destruct (MAX_QUERY_CHARACTERS <? zlen _); [done|]. rewrite is_empty_new. cbn [mbind outcome_bind].
  case_bool_decide; [done|]. destruct (values query (st "all")) as [[|v [|? ?]]|]; try done. by repeat case_bool_decide.
Qed.

Lemma search_relies s q all guest : searchable q → relying s (search DEFAULT_USER_ID q all (negb guest)) (λ s' response,
  ∃ index ranked, of_user (db_revision s) (db_revision s') DEFAULT_USER_ID index ∧
    rank (E:=IndexError) index q all (if guest then Some PLAYLIST_KIND else None) = Ok ranked ∧ response = respond ranked).
Proof.
  intros Hq. unfold search. eapply giving_bind; [apply current_index_relies|]. intros s' index Hi. rewrite negb_involutive.
  apply giving_done; [by apply rank_returns|]. intros ranked Hr. by exists index, ranked.
Qed.

Lemma search_handler_relies guest query s : fits query →
  relies reply_ok kept later s (search_handler guest query) (λ s', search_ends (db_revision s) (db_revision s') guest query).
Proof.
  intros Hfits. unfold search_handler. pose proof (check_query_returns query) as Hreturns.
  destruct (check_query query) as [[q all]|e| |] eqn:Hcheck; try done; cbn [and_then mbind prog_bind]; [|cbn; rewrite Hcheck; by left].
  unfold with_err. eapply relies_bind; [by apply search_relies, (checked_searchable query q all)|]. intros s' r Hr.
  destruct r as [response|e| |]; cbn in *; try done.
  - destruct Hr as (index & ranked & Hi & Hrank & Hshows%respond_shows). by exists q, all, index, ranked.
  - right. split; [by eexists|done].
Qed.

(** C18: A search is answered from the library as it was at one revision, not before the
    one the search began at, and not after the one it ends at, whatever other
    searches and writes do meanwhile; a query that cannot be searched for is refused
    as the client's mistake, and only the database can fail the rest. *)
Theorem searches_answered guest query s : fits query →
  relies reply_ok kept later s (search_handler guest query) (λ s', search_ends (db_revision s) (db_revision s') guest query).
Proof. apply search_handler_relies. Qed.

(** Playlists stay the owner's: a guest's search shows none, as a group, as the best
    match or otherwise. *)
Theorem guests_see_no_playlists floor now query response : fits query → answer_of floor now true query response →
  ∀ r, r ∈ all_results response → result_kind r ≠ PLAYLIST_KIND.
Proof.
  intros Hfits (q & all & index & ranked & Hq & _ & Hrank & ->%respond_shows). eapply hidden_results; [by eapply checked_searchable|exact Hrank].
Qed.

(** *** Requests and writes in any interleaving *)

(** A request that is over: the revision it began at, and what it was answered. *)
Record Answered := mkAnswered { began : Z; by_guest : bool; asked : GoQuery; answer : outcome ApiError SearchResponse }.

(** The shared state, and the requests that are over. *)
Record Served := mkServed { searching : SearchState; answers : list Answered }.
Definition with_searching (s : SearchState) (t : Served) : Served := mkServed s (answers t).

Definition request (guest : bool) (query : GoQuery) : prog Served scall unit :=
  floor ← read (λ t, db_revision (searching t));
  r ← zoom searching with_searching (λ B c, c) (search_handler guest query);
  write (λ t, mkServed (searching t) (mkAnswered floor guest query r :: answers t)).

(** Requests, and writes to the library, which move the revision. *)
Inductive search_thread : prog Served scall unit → Prop :=
| request_thread guest query : fits query → search_thread (request guest query)
| write_thread : search_thread (write (λ t, with_searching (mkSearch (db_revision (searching t) + 1) (snapshot (searching t))) t)).

(** Every request that is over was answered from a revision since it began. *)
Definition served (t : Served) : Prop :=
  kept (searching t) ∧
  ∀ a, a ∈ answers t → search_ends (began a) (db_revision (searching t)) (by_guest a) (asked a) (answer a).
Definition moved_on (t t' : Served) : Prop := later (searching t) (searching t').
#[local] Instance moved_on_preorder : PreOrder moved_on.
Proof. unfold moved_on. split; [intros t|intros t t' t'']; [done|apply transitivity]. Qed.

Lemma search_ends_later floor now now' guest query r : now <= now' → search_ends floor now guest query r → search_ends floor now' guest query r.
Proof.
  intros Hle. destruct r; try done. intros (q & all & index & ranked & Hq & (revision & Hrev & Hload) & Hrest).
  exists q, all, index, ranked. split; [done|]. split; [|done]. exists revision. split; [lia|done].
Qed.

Lemma served_later t s : served t → kept s → later (searching t) s → served (with_searching s t).
Proof. intros [_ Hans] Hs Hr. split; [done|]. intros a Ha. eapply search_ends_later; [exact Hr|by apply Hans]. Qed.

Lemma search_thread_relies p t : search_thread p → relies reply_ok served moved_on t p (λ _ _, True).
Proof.
  intros [guest query Hfits|].
  - unfold request. eapply relies_bind with (P := λ t' floor, floor = db_revision (searching t')); [by apply relies_read; [apply _|]|]. intros t1 floor ->.
    eapply relies_bind.
    { apply (relies_zoom reply_ok reply_ok kept served later moved_on) with (Q := λ s', search_ends (db_revision (searching t1)) (db_revision s') guest query).
      - by intros t' [? _].
      - done.
      - intros s t' Ht' Hs Hr. split; [by apply served_later|done].
      - done.
      - by apply search_handler_relies. }
    intros t2 r Hr. apply relies_write. intros t3 [Hs3 Hans] H3. split; [|split; [unfold moved_on, later; cbn; lia|done]]. split; [done|].
    intros a [->|Ha]%elem_of_cons; [|by apply Hans]. cbn. by eapply search_ends_later.
  - apply relies_write. intros t1 Ht1 _. assert (later (searching t1) (mkSearch (db_revision (searching t1) + 1) (snapshot (searching t1)))) as Hl.
    { unfold later. cbn. lia. }
    split; [apply served_later; [done| |done]|done]. intros c Hc. destruct (proj1 Ht1 c Hc) as [Hle Hindex]. cbn. split; [lia|done].
Qed.

(** [p] makes at most [n] more moves, and takes no lock but the snapshot's. *)
Fixpoint brief {S C A} (n : nat) (p : prog S C A) {struct p} : Prop :=
  match p, n with
  | Done _, _ => True
  | Act op k, S n => ∀ s, brief n (k (op s).1)
  | Call c k, S n => ∀ b, brief n (k b)
  | Lock l k, S n => l = SNAPSHOT ∧ brief n k
  | Unlock l k, S n => brief n k
  | _, O => False
  end.

Lemma brief_le {S C A} n m (p : prog S C A) : (n <= m)%nat → brief n p → brief m p.
Proof.
  revert n m. induction p as [a|B op k IH|B c k IH|l k IH|l k IH]; intros [|n] [|m] Hle; cbn; try done; try lia.
  - intros Hk s. eapply IH; [|apply Hk]. lia.
  - intros Hk b. eapply IH; [|apply Hk]. lia.
  - intros [-> Hk]. split; [done|]. eapply IH; [|done]. lia.
  - apply IH. lia.
Qed.

Lemma brief_bind {S C A B} n m (p : prog S C A) (f : A → prog S C B) : brief n p → (∀ a, brief m (f a)) → brief (n + m) (p ≫= f).
Proof.
  intros Hp Hf. revert n Hp. induction p as [a|B' op k IH|B' c k IH|l k IH|l k IH]; intros [|n] Hp; cbn in *; try done; eauto.
  - eapply brief_le; [|apply Hf]. lia.
  - destruct Hp. split; auto.
Qed.

Lemma brief_zoom {S T C D A} (part : T → S) back (inj : ∀ B, C B → D B) n (p : prog S C A) : brief n p → brief n (zoom part back inj p).
Proof.
  revert n. induction p as [a|B op k IH|B c k IH|l k IH|l k IH]; intros [|n] Hp; cbn in *; try done; auto.
  - intros t. specialize (Hp (part t)). destruct (op (part t)). by apply IH.
  - destruct Hp. auto.
Qed.

(** [p] takes the lock in order, gives it back, and is brief. *)
Definition tidy {S A} (level n : nat) (p : prog S scall A) : Prop :=
  brief n p ∧ safe reply_ok (λ _ : S, True) level p (λ _, True).

Lemma tidy_done {S A} level n (a : A) : tidy (S:=S) level n (Done a).
Proof. split; [by destruct n|by apply safe_done]. Qed.

Lemma tidy_bind {S A B} level n m (p : prog S scall A) (f : A → prog S scall B) :
  tidy level n p → (∀ a, tidy level m (f a)) → tidy level (n + m) (p ≫= f).
Proof. intros [Hp Hs] Hf. split; [apply brief_bind; [done|intros a; apply Hf]|]. eapply safe_bind; [exact Hs|]. intros a _. apply Hf. Qed.

Lemma tidy_and_then {S X A B} level n m (p : prog S scall (outcome X A)) (f : A → prog S scall (outcome X B)) :
  tidy level n p → (∀ a, tidy level m (f a)) → tidy level (n + m) (and_then p f).
Proof. intros Hp Hf. apply tidy_bind; [done|]. intros []; [apply Hf|apply tidy_done..]. Qed.

Lemma tidy_act {S B} level (op : S → B * S) : tidy level 1 (act op).
Proof. split; [done|by apply safe_act]. Qed.

Lemma tidy_statement level failed : tidy level 1 (statement failed).
Proof.
  split; [by intros []|]. apply (safe_bind reply_ok _ level _ _ (λ _, True)); [by apply safe_call|]. intros failure _. by apply safe_done.
Qed.

Lemma tidy_locked {S A} n (p : prog S scall A) : tidy (SNAPSHOT + 1) n p → tidy SNAPSHOT (2 + n) (locked SNAPSHOT p).
Proof.
  intros [Hp Hs]. split; [|by apply safe_locked]. cbn. split; [done|]. rewrite <-Nat.add_1_r. by apply brief_bind.
Qed.

Lemma tidy_zoom {S T A} (part : T → S) back level n (p : prog S scall A) : tidy level n p → tidy level n (zoom part back (λ B c, c) p).
Proof. intros [Hp Hs]. split; [by apply brief_zoom|]. by eapply safe_zoom; [..|exact Hs]. Qed.

Lemma load_tidy level user_id reuse : tidy level 6 (load user_id reuse).
Proof.
  unfold load. do 2 (apply (tidy_and_then level 1); [apply tidy_statement|intros _]).
  apply (tidy_bind level 1 3); [apply tidy_act|]. intros revision. destruct (reuse revision); [apply tidy_done|].
  apply (tidy_and_then level 1); [apply tidy_statement|]. intros _. apply (tidy_and_then level 0); [apply tidy_done|]. intros texts.
  do 2 (apply (tidy_and_then level 1); [apply tidy_statement|intros _]).
  apply (tidy_and_then level 0 0); [apply tidy_done|]. intros building. apply (tidy_and_then level 0 0); [apply tidy_done|]. intros. apply tidy_done.
Qed.

Lemma reload_tidy level user_id : tidy level 8 (reload user_id).
Proof.
  unfold reload. apply (tidy_bind level 1); [apply tidy_act|]. intros c. apply (tidy_and_then level 6 1); [apply load_tidy|].
  intros [[index|] revision]; [|by destruct c; apply tidy_done]. apply (tidy_bind level 1 0); [apply tidy_act|]. intros. apply tidy_done.
Qed.

Lemma search_handler_tidy guest query : tidy SNAPSHOT 15 (search_handler guest query).
Proof.
  unfold search_handler. apply (tidy_and_then _ 0 15); [apply tidy_done|]. intros [q all].
  apply (tidy_bind _ 15 0); [|intros; apply tidy_done]. unfold search. apply (tidy_and_then _ 15 0).
  - unfold current_index. apply (tidy_and_then _ 2 13).
    { apply (tidy_and_then _ 1 1); [apply tidy_statement|]. intros _. apply (tidy_bind _ 1 0); [apply tidy_act|]. intros. apply tidy_done. }
    intros revision. apply (tidy_bind _ 3 10); [apply (tidy_locked 1), tidy_act|]. intros c.
    assert (tidy SNAPSHOT 10 (locked SNAPSHOT (reload DEFAULT_USER_ID))) as Hreload by apply (tidy_locked 8), reload_tidy.
    destruct c as [c|]; [|exact Hreload]. destruct (is_current revision _ c); [apply tidy_done|exact Hreload].
  - intros index. apply (tidy_and_then _ 0 0); [apply tidy_done|]. intros. apply tidy_done.
Qed.

(** The moves of a request, and of a write. *)
Definition MOVES : nat := 17.

Lemma search_thread_tidy p : search_thread p → tidy SNAPSHOT MOVES p.
Proof.
  intros [guest query _|].
  - apply (tidy_bind _ 1 16); [apply tidy_act|]. intros floor. apply (tidy_bind _ 15 1); [apply tidy_zoom, search_handler_tidy|].
    intros r. apply tidy_act.
  - destruct (tidy_act SNAPSHOT (λ t, (tt, with_searching (mkSearch (db_revision (searching t) + 1) (snapshot (searching t))) t))) as [Hb Hs].
    split; [|exact Hs]. by eapply brief_le; [|exact Hb]; unfold MOVES; lia.
Qed.

(** What is left of a thread stays brief. *)
Lemma move_brief i c c' n (p : prog Served scall unit) : move reply_ok i c c' → threads c !! i = Some p → brief (S n) p →
  ∃ p', threads c' = <[i := p']> (threads c) ∧ brief n p'.
Proof.
  intros Hm Hi Hp. destruct Hm as [c B op k Hk|c B q k b Hk Hb|c l k Hk Hl|c l k Hk Hl]; rewrite Hk in Hi; injection Hi as <-; cbn in *; eauto.
  destruct Hp as [_ Hp]. eauto.
Qed.

Lemma reachable_brief s c : reachable reply_ok search_thread s c → ∀ i p, threads c !! i = Some p → brief MOVES p.
Proof.
  intros Hr. assert (∀ i p, threads (start (C:=scall) s) !! i = Some p → brief MOVES p) as H0 by (intros i p [=]).
  revert H0. induction Hr as [|c c1 c2 Hstep _ IH]; [done|]. intros Hc. apply IH. destruct Hstep as [c p Hp|i c c' Hm].
  - intros j q [Hj|[_ Hj]]%lookup_app_Some; [by eapply Hc|]. apply list_lookup_singleton_Some in Hj as [_ <-]. by apply search_thread_tidy.
  - assert (∃ p, threads c !! i = Some p) as [p Hi] by (destruct Hm; eauto).
    destruct (move_brief i c c' 16 p Hm Hi (Hc _ _ Hi)) as (p' & -> & Hp').
    intros j q [(-> & <- & _)|[_ Hj]]%list_lookup_insert_Some; [|by eapply Hc]. by eapply brief_le; [|exact Hp']; unfold MOVES; lia.
Qed.

(** A thread that holds the lock can move: there is none above it to wait for. *)
Lemma holder_can_move c held j : (∀ i p, threads c !! i = Some p → brief MOVES p) → disciplined reply_ok (λ _ : Served, True) c held →
  holder c SNAPSHOT = Some j → ∃ c', move reply_ok j c c'.
Proof.
  intros Hbrief Hd Hl. apply (disc_holder _ _ _ _ Hd) in Hl. destruct (threads c !! j) as [p|] eqn:Hp.
  2: { rewrite (disc_none _ _ _ _ Hd _ Hp) in Hl. by apply not_elem_of_nil in Hl. }
  pose proof (disc_ordered _ _ _ _ Hd _ _ Hp) as Ho. pose proof (Hbrief _ _ Hp) as Hb. destruct p as [[]|B op k|B q k|l k|l k]; cbn in Ho, Hb.
  - destruct Ho as [Ho _]. rewrite Ho in Hl. by apply not_elem_of_nil in Hl.
  - eexists. by apply (move_act reply_ok j c B op k).
  - destruct q. eexists. by apply (move_call reply_ok j c _ Statement k None).
  - destruct Ho as [Hf _], Hb as [-> _]. rewrite Forall_forall in Hf. specialize (Hf _ Hl). lia.
  - eexists. apply (move_unlock reply_ok j c l k); [done|]. apply (disc_holder _ _ _ _ Hd). destruct Ho as (h & -> & _). by left.
Qed.

(** C39: However requests and writes interleave, every request that is over was answered
    from the library as it was at a revision since it began, and the kept snapshot is
    what the database held at its revision. No request waits forever: each makes at
    most [MOVES] moves, and one that is not over can move, or waits for the lock
    around the snapshot, whose holder can. *)
Theorem searches_side_by_side s c : kept s → reachable reply_ok search_thread (mkServed s []) c →
  served (shared c) ∧
  ∀ i p, threads c !! i = Some p → brief MOVES p ∧ (∀ c' n, move reply_ok i c c' → brief (S n) p →
      ∃ p', threads c' !! i = Some p' ∧ brief n p') ∧
    (finished p ∨ (∃ c', move reply_ok i c c') ∨
     ∃ j c', holder c SNAPSHOT = Some j ∧ move reply_ok j c c').
Proof.
  intros Hs Hr. pose proof (reachable_brief _ _ Hr) as Hbrief. split.
  { apply (reachable_relies reply_ok search_thread served moved_on (mkServed s [])); [|split; [done|by intros a ?%not_elem_of_nil]|done].
    intros p t. apply search_thread_relies. }
  intros i p Hi. split; [by eapply Hbrief|]. split.
  { intros c' n Hm Hp. destruct (move_brief i c c' n p Hm Hi Hp) as (p' & -> & Hp'). exists p'. split; [|done].
    apply list_lookup_insert_eq. by eapply lookup_lt_Some. }
  destruct (reachable_disciplined reply_ok search_thread (λ _, True) (mkServed s []) c) as [held Hd]; [|done|done|].
  { intros q Hq. apply search_thread_tidy in Hq as [_ Hq]. by apply Hq. }
  destruct p as [[]|B op k|B q k|l k|l k]; [by left| | | |]; right.
  - left. eexists. by apply (move_act reply_ok i c B op k).
  - left. destruct q. eexists. by apply (move_call reply_ok i c _ Statement k None).
  - pose proof (Hbrief _ _ Hi) as [-> _]. destruct (holder c SNAPSHOT) as [j|] eqn:Hl.
    + right. destruct (holder_can_move c held j Hbrief Hd Hl) as [c' Hm]. by exists j, c'.
    + left. eexists. by apply (move_lock reply_ok i c SNAPSHOT k).
  - left. eexists. apply (move_unlock reply_ok i c l k); [done|]. apply (disc_holder _ _ _ _ Hd).
    destruct (disc_ordered _ _ _ _ Hd _ _ Hi) as (h & -> & _). by left.
Qed.
End Service.

(** ** An example: two artists and a playlist *)

#[local] Existing Instance plain_normalization.
#[local] Existing Instance plain_debug.
#[local] Instance plain_texts : TextJson := {| decode_text t := inr (prepare_stored t (st "artist")) |}.

Definition example_rows : SearchRows := mkRows
  [(st "artist", st "a1", st "Beyonce"); (st "artist", st "a2", st "Jay Z"); (st "playlist", st "p1", st "Beyonce mix")]
  [mkRow (st "artist") (st "a1") (st "primary") (st "artist") (st "a1");
   mkRow (st "artist") (st "a1") (st "album") (st "artist") (st "a2");
   mkRow (st "artist") (st "a2") (st "primary") (st "artist") (st "a2");
   mkRow (st "playlist") (st "p1") (st "primary") (st "playlist") (st "p1")].
Definition example_contents (revision : Z) (user_id : str) : SearchRows := example_rows.
Definition example_request : GoQuery := Http.parse (st "q=beyonce&all=true").
Definition example_loaded : Index := default [] (ok_of (load_index example_rows)).

Lemma example_fits : fits example_request.
Proof. intros q all Hq. vm_compute in Hq. injection Hq as <- <-. repeat constructor. Qed.

Lemma load_groups_witness : load_index example_rows = Ok example_loaded ∧ NoDup (entity_key <$> example_loaded) ∧
  entity_key <$> example_loaded = [(st "artist", st "a1"); (st "artist", st "a2"); (st "playlist", st "p1")].
Proof.
  assert (load_index example_rows = Ok example_loaded) as Hload by (vm_compute; reflexivity). split; [exact Hload|].
  split; [|vm_compute; reflexivity]. destruct (load_groups example_rows example_loaded) as (texts & _ & Hnd & _); [|exact Hload|exact Hnd].
  repeat constructor.
Defined.

Lemma searches_answered_witness : relies reply_ok (kept example_contents) later (mkSearch 1 None) (search_handler example_contents true example_request)
  (λ s', search_ends example_contents 1 (db_revision s') true example_request).
Proof. exact (searches_answered example_contents true example_request (mkSearch 1 None) example_fits). Defined.

Lemma guests_see_no_playlists_witness : ∃ response, answer_of example_contents 1 1 true example_request response ∧
  length (artists response) = 1%nat ∧ ∀ r, r ∈ all_results response → result_kind r ≠ PLAYLIST_KIND.
Proof.
  destruct (check_query example_request) as [[q all]| | |] eqn:Hq; [|vm_compute in Hq; discriminate Hq..].
  destruct (rank (E:=IndexError) example_loaded q all (Some PLAYLIST_KIND)) as [ranked| | |] eqn:Hrank.
  2-4: vm_compute in Hq; injection Hq as <- <-; vm_compute in Hrank; discriminate Hrank.
  assert (answer_of example_contents 1 1 true example_request (respond ranked)) as Hanswer.
  { exists q, all, example_loaded, ranked. split; [exact Hq|]. split; [exists 1; split; [lia|vm_compute; reflexivity]|]. split; [exact Hrank|by apply respond_shows]. }
  exists (respond ranked). split; [exact Hanswer|]. split; [|exact (guests_see_no_playlists _ _ _ _ _ example_fits Hanswer)].
  vm_compute in Hq. injection Hq as <- <-. vm_compute in Hrank. injection Hrank as <-. vm_compute. reflexivity.
Defined.

Definition example_request_thread : prog Served scall unit := request example_contents true example_request.
Definition example_searching : config := mkConfig [example_request_thread] (mkServed (mkSearch 1 None) []) (λ _, None).

Lemma searches_side_by_side_witness : reachable reply_ok (search_thread example_contents) (mkServed (mkSearch 1 None) []) example_searching ∧
  served example_contents (shared example_searching) ∧ brief MOVES example_request_thread.
Proof.
  assert (reachable reply_ok (search_thread example_contents) (mkServed (mkSearch 1 None) []) example_searching) as Hreach.
  { apply rtc_once, (step_start _ _ (start (mkServed (mkSearch 1 None) [])) example_request_thread). constructor. exact example_fits. }
  split; [exact Hreach|]. destruct (searches_side_by_side example_contents (mkSearch 1 None) example_searching) as [Hs Hall]; [|exact Hreach|].
  - intros c Hc. discriminate Hc.
  - split; [exact Hs|]. exact (proj1 (Hall 0%nat example_request_thread eq_refl)).
Defined.
