(* ===== verification/StreamUrl.v ===== *)
(** Which addresses the server may fetch (server/src/modules/radio/stream.rs):
    the check every stream, playlist, segment and artwork URL passes, the
    check of the addresses a name resolves to, and the rule for redirects. An
    IPv4 address is its 32 bits and an IPv6 address its 128 bits; the [url]
    crate's parser is the class [Urls]. *)

From S2P Require Import Prelude Text.

(** ** Addresses *)

Inductive IpAddr := V4 (ip : Z) | V6 (ip : Z).

(** [Ipv4Addr::octets]. *)
Definition octet (ip i : Z) : Z := (ip / 2 ^ (24 - 8 * i)) mod 256.

(** [Ipv6Addr::segments]. *)
Definition segment (ip i : Z) : Z := (ip / 2 ^ (112 - 16 * i)) mod 65536.

(** The Standard Library's predicates on an [Ipv4Addr]. *)
Definition is_loopback4 (ip : Z) : bool := octet ip 0 =? 127.
Definition is_private4 (ip : Z) : bool :=
  (octet ip 0 =? 10)
  || ((octet ip 0 =? 172) && in_range 16 31 (octet ip 1))
  || ((octet ip 0 =? 192) && (octet ip 1 =? 168)).
Definition is_link_local4 (ip : Z) : bool := (octet ip 0 =? 169) && (octet ip 1 =? 254).
Definition is_unspecified4 (ip : Z) : bool := ip =? 0.

(** [Ipv6Addr::to_ipv4_mapped]: an address [::ffff:a.b.c.d]. *)
Definition to_ipv4_mapped (ip : Z) : option Z :=
  if (segment ip 0 =? 0) && (segment ip 1 =? 0) && (segment ip 2 =? 0) && (segment ip 3 =? 0)
     && (segment ip 4 =? 0) && (segment ip 5 =? 65535)
  then Some (segment ip 6 * 65536 + segment ip 7)
  else None.

Definition is_blocked_v4 (ip : Z) : bool :=
  is_loopback4 ip
  || is_private4 ip
  || is_link_local4 ip
  || ((octet ip 0 =? 224) && (octet ip 1 =? 0) && (octet ip 2 =? 0))
  || is_unspecified4 ip.

Definition is_blocked_v6 (ip : Z) : bool :=
  let first := segment ip 0 in
  (ip =? 1)
  || (Z.land first 0xfe00 =? 0xfc00)
  || (Z.land first 0xffc0 =? 0xfe80)
  || (Z.land first 0xff0f =? 0xff02)
  || (ip =? 0).

Definition is_blocked_ip (ip : IpAddr) : bool :=
  match ip with
  | V4 ip => is_blocked_v4 ip
  | V6 ip =>
      match to_ipv4_mapped ip with
      | Some mapped => is_blocked_v4 mapped
      | None => is_blocked_v6 ip
      end
  end.

(** ** URLs *)

Inductive Host := Domain (name : str) | Ipv4 (ip : Z) | Ipv6 (ip : Z).

Inductive ParseError := RelativeUrlWithoutBase | OtherParse (text : str).

Class Urls := {
  Url : Type;
  url_parse : str → ParseError + Url;
  (** [Url::join], with its error's text. *)
  url_join : Url → str → str + Url;
  scheme : Url → str;
  host : Url → option Host;
  url_path : Url → str;
  as_str : Url → str;
  query_pairs : Url → list (str * str);
  (** How [RelativeUrlWithoutBase] is displayed. *)
  relative_url_text : str
}.

Definition UNSAFE : str := st "unsafe stream URL".

Section StreamUrl.
Context `{Urls}.

(** The checks on a URL that parsed. *)
Definition validate_parsed (parsed : Url) : outcome str unit :=
  if negb (bool_decide (scheme parsed = st "http")) && negb (bool_decide (scheme parsed = st "https"))
  then Err (UNSAFE ++ st ": unsupported scheme")
  else match host parsed with
  | None => Err (UNSAFE ++ st ": blocked host")
  | Some (Domain domain) =>
      let domain := ascii_lower <$> trim_end (Z.eqb 46) domain in
      if bool_decide (domain = []) || bool_decide (domain = st "localhost")
      then Err (UNSAFE ++ st ": blocked host")
      else Ok tt
  | Some (Ipv4 ip) => if is_blocked_ip (V4 ip) then Err (UNSAFE ++ st ": blocked IP") else Ok tt
  | Some (Ipv6 ip) => if is_blocked_ip (V6 ip) then Err (UNSAFE ++ st ": blocked IP") else Ok tt
  end.

Definition parse_error_text (e : ParseError) : str :=
  match e with
  | RelativeUrlWithoutBase => relative_url_text
  | OtherParse text => text
  end.

Definition validate_stream_url (raw : str) : outcome str unit :=
  match url_parse raw with
  | inr parsed => validate_parsed parsed
  | inl RelativeUrlWithoutBase => Err (UNSAFE ++ st ": unsupported scheme")
  | inl error => Err (parse_error_text error)
  end.

(** ** Names and redirects *)

(** [SafeResolver::resolve], given what the system's lookup of the name
    answered. *)
Definition resolve_host (looked_up : str + list IpAddr) : str + list IpAddr :=
  match looked_up with
  | inl error => inl (st "resolve stream host: " ++ error)
  | inr addresses =>
      if existsb is_blocked_ip addresses then inl (UNSAFE ++ st ": resolved to blocked IP")
      else inr addresses
  end.

(** The client's redirect policy: [None] follows, [Some] fails the request. *)
Definition redirect (previous : list Url) (next : Url) : option str :=
  if 5 <=? zlen previous then Some (st "too many redirects")
  else err_of (validate_stream_url (as_str next)).

(** [describe_request_error]: the innermost cause of a failed request, after
    its URL. [error] is the error's text and [sources] the texts of what
    caused it, outermost first. *)
Definition describe_request_error (url : Url) (error : str) (sources : list str) : str :=
  st "Get " ++ [34] ++ as_str url ++ [34] ++ st ": " ++ default error (last sources).

(** ** What the check means *)

(** A host on the public Internet: a name other than [localhost], or a literal
    address outside the blocked ranges. *)
Definition public_host (h : Host) : Prop :=
  match h with
  | Domain name =>
      (ascii_lower <$> trim_end (Z.eqb 46) name) ≠ []
      ∧ (ascii_lower <$> trim_end (Z.eqb 46) name) ≠ st "localhost"
  | Ipv4 ip => is_blocked_ip (V4 ip) = false
  | Ipv6 ip => is_blocked_ip (V6 ip) = false
  end.

Definition public_url (u : Url) : Prop :=
  (scheme u = st "http" ∨ scheme u = st "https") ∧ ∃ h, host u = Some h ∧ public_host h.

Lemma validate_parsed_ok u : validate_parsed u = Ok tt ↔ public_url u.
Proof.
  unfold validate_parsed, public_url, public_host.
  assert (negb (bool_decide (scheme u = st "http")) && negb (bool_decide (scheme u = st "https")) = true
          ↔ ¬ (scheme u = st "http" ∨ scheme u = st "https")) as Hs.
  { rewrite andb_true_iff, !negb_true_iff, !bool_decide_eq_false. tauto. }
  destruct (negb _ && _).
  { split; [done|]. intros [? _]. exfalso. by apply Hs. }
  assert (scheme u = st "http" ∨ scheme u = st "https") as Hweb.
  { destruct (decide (scheme u = st "http")), (decide (scheme u = st "https")); try tauto.
    assert (false = true); [apply Hs; tauto|done]. }
  destruct (host u) as [[d|ip|ip]|]; [| | |split; [done|by intros [_ (? & ? & _)]]].
  - destruct (bool_decide_reflect ((ascii_lower <$> trim_end (Z.eqb 46) d) = [])),
      (bool_decide_reflect ((ascii_lower <$> trim_end (Z.eqb 46) d) = st "localhost")); simpl;
      (split; [first [done | intros _; split; [done|]; eexists; split; [done|]; by split]
              |by intros (_ & ? & [= <-] & ? & ?)]).
  - destruct (is_blocked_ip (V4 ip)) eqn:Hb; (split; [try done; eauto|try done]).
    intros (_ & ? & [= <-] & ?). congruence.
  - destruct (is_blocked_ip (V6 ip)) eqn:Hb; (split; [try done; eauto|try done]).
    intros (_ & ? & [= <-] & ?). congruence.
Qed.

Lemma validate_parsed_returns u : returns (validate_parsed u).
Proof. unfold validate_parsed. repeat case_match; exact I. Qed.

Lemma validate_ok raw :
  validate_stream_url raw = Ok tt ↔ ∃ u, url_parse raw = inr u ∧ public_url u.
Proof.
  unfold validate_stream_url. destruct (url_parse raw) as [[|e]|u].
  1, 2: split; [done|intros (? & ? & ?); done].
  rewrite validate_parsed_ok. split; [eauto|]. by intros (? & [= <-] & ?).
Qed.

Lemma validate_stream_url_returns raw : returns (validate_stream_url raw).
Proof.
  unfold validate_stream_url. destruct (url_parse raw) as [[|e]|u]; try exact I.
  apply validate_parsed_returns.
Qed.

Lemma redirect_follows previous next :
  redirect previous next = None ↔
  zlen previous < 5 ∧ ∃ u, url_parse (as_str next) = inr u ∧ public_url u.
Proof.
  unfold redirect. rewrite <-validate_ok. pose proof (validate_stream_url_returns (as_str next)).
  destruct (Z.leb_spec 5 (zlen previous)); [split; [done|lia]|].
  destruct (validate_stream_url _) as [[]|e| |]; try done; simpl; split; try done; intros []; done.
Qed.

Lemma resolve_host_ok looked_up addresses :
  resolve_host looked_up = inr addresses ↔
  looked_up = inr addresses ∧ ∀ a, a ∈ addresses → is_blocked_ip a = false.
Proof.
  destruct looked_up as [e|l]; simpl; [split; [done|by intros [? _]]|].
  destruct (existsb is_blocked_ip l) eqn:He.
  - split; [done|]. intros [[= ->] Ha]. apply existsb_exists in He as (a & Hin & Hb).
    rewrite Ha in Hb; [done|]. by apply list_elem_of_In.
  - split; [intros [= <-]; split; [done|]|by intros [? _]].
    intros a Hin. destruct (is_blocked_ip a) eqn:Hb; [|done].
    assert (existsb is_blocked_ip l = true); [|congruence].
    apply existsb_exists. exists a. split; [by apply list_elem_of_In|done].
Qed.
End StreamUrl.

(** ** The blocked ranges as CIDR blocks *)

(** A range of addresses: its first one and the length of its prefix. *)
Record Cidr := mkCidr { net : Z; prefix : Z }.

Definition in_cidr (width ip : Z) (c : Cidr) : Prop :=
  ip / 2 ^ (width - prefix c) = net c / 2 ^ (width - prefix c).

Definition quad (a b c d : Z) : Z := ((a * 256 + b) * 256 + c) * 256 + d.

(** Loopback, the private ranges, link-local, the local multicast block and the
    unspecified address. *)
Definition BLOCKED_V4 : list Cidr := [
  mkCidr (quad 127 0 0 0) 8;
  mkCidr (quad 10 0 0 0) 8;
  mkCidr (quad 172 16 0 0) 12;
  mkCidr (quad 192 168 0 0) 16;
  mkCidr (quad 169 254 0 0) 16;
  mkCidr (quad 224 0 0 0) 24;
  mkCidr 0 32].

(** Loopback, the unspecified address, unique local, link-local, and the
    link-local multicast block of each of the 16 flag values. *)
Definition BLOCKED_V6 : list Cidr :=
  mkCidr 1 128 :: mkCidr 0 128 :: mkCidr (0xfc00 * 2 ^ 112) 7 :: mkCidr (0xfe80 * 2 ^ 112) 10
  :: ((λ flags, mkCidr ((0xff02 + 16 * Z.of_nat flags) * 2 ^ 112) 16) <$> seq 0 16).

(** The IPv6 addresses that stand for an IPv4 one: [::ffff:0:0/96]. *)
Definition MAPPED : Cidr := mkCidr (65535 * 2 ^ 32) 96.

Definition blocked (ip : IpAddr) : Prop :=
  match ip with
  | V4 ip => ∃ c, c ∈ BLOCKED_V4 ∧ in_cidr 32 ip c
  | V6 ip =>
      (in_cidr 128 ip MAPPED ∧ ∃ c, c ∈ BLOCKED_V4 ∧ in_cidr 32 (ip mod 2 ^ 32) c)
      ∨ (¬ in_cidr 128 ip MAPPED ∧ ∃ c, c ∈ BLOCKED_V6 ∧ in_cidr 128 ip c)
  end.

(** An address of its family's width. *)
Definition is_address (ip : IpAddr) : Prop :=
  match ip with V4 ip => 0 <= ip < 2 ^ 32 | V6 ip => 0 <= ip < 2 ^ 128 end.

(** ** The masks of the code are prefixes *)

Lemma land_high x k n : 0 <= k → 0 <= n → 0 <= x < 2 ^ (k + n) →
  Z.land x ((2 ^ k - 1) * 2 ^ n) = x / 2 ^ n * 2 ^ n.
Proof.
  intros Hk Hn Hx. rewrite <-(Z.shiftl_mul_pow2 _ n), <-Z.shiftl_mul_pow2, <-Z.shiftr_div_pow2 by lia.
  replace (2 ^ k - 1) with (Z.ones k) by (rewrite Z.ones_equiv; lia).
  apply Z.bits_inj'. intros i Hi. rewrite Z.land_spec, !Z.shiftl_spec by lia.
  destruct (decide (i < n)); [rewrite !(Z.testbit_neg_r _ (i - n)) by lia; apply andb_false_r|].
  rewrite Z.shiftr_spec by lia. replace (i - n + n) with i by lia.
  destruct (decide (i < k + n)).
  - rewrite Z.ones_spec_low by lia. apply andb_true_r.
  - rewrite Z.ones_spec_high by lia. rewrite andb_false_r. symmetry.
    destruct (decide (x = 0)) as [->|]; [apply Z.bits_0|].
    apply Z.bits_above_log2; [lia|].
    apply Z.log2_lt_pow2; [lia|]. eapply Z.lt_le_trans; [apply Hx|]. apply Z.pow_le_mono_r; lia.
Qed.

Lemma land_low x n : 0 <= n → Z.land x (2 ^ n - 1) = x mod 2 ^ n.
Proof.
  intros. replace (2 ^ n - 1) with (Z.ones n) by (rewrite Z.ones_equiv; lia). by apply Z.land_ones.
Qed.

(** [x & 0xff0f]: the high byte and the low four bits. *)
Lemma land_ff0f x : 0 <= x < 65536 → Z.land x 0xff0f = x / 256 * 256 + x mod 16.
Proof.
  intros Hx. replace 0xff0f with (Z.lor ((2 ^ 8 - 1) * 2 ^ 8) (2 ^ 4 - 1)) by reflexivity.
  rewrite Z.land_lor_distr_r, (land_high x 8 8), (land_low x 4) by lia.
  change (2 ^ 8) with 256. change (2 ^ 4) with 16.
  assert (Z.land (x / 256 * 256) (x mod 16) = 0) as Hdis.
  { apply Z.bits_inj'. intros i Hi. rewrite Z.land_spec, Z.bits_0.
    destruct (decide (i < 8)).
    - rewrite (Z.mul_pow2_bits_low (x / 256) 8) by lia. done.
    - rewrite (Z.mod_pow2_bits_high x 4) by lia. apply andb_false_r. }
  by rewrite <-Z.lxor_lor, <-Z.add_nocarry_lxor.
Qed.

(** ** The check is the list of blocked ranges *)

Lemma exists_elem {A} (P : A → Prop) (l : list A) : (∃ c, c ∈ l ∧ P c) ↔ Exists P l.
Proof. symmetry. apply Exists_exists. Qed.

Lemma octets ip : 0 <= ip < 2 ^ 32 →
  octet ip 0 = ip / 16777216 ∧ octet ip 1 = ip / 65536 mod 256 ∧ octet ip 2 = ip / 256 mod 256.
Proof.
  intros. unfold octet. change (2 ^ (24 - 8 * 0)) with 16777216.
  change (2 ^ (24 - 8 * 1)) with 65536. change (2 ^ (24 - 8 * 2)) with 256.
  split; [|split; reflexivity]. apply Z.mod_small. split; [apply Z.div_pos; lia|apply Z.div_lt_upper_bound; lia].
Qed.

Lemma blocked_v4 ip : 0 <= ip < 2 ^ 32 →
  is_blocked_v4 ip = true ↔ ∃ c, c ∈ BLOCKED_V4 ∧ in_cidr 32 ip c.
Proof.
  intros Hip. rewrite exists_elem. unfold BLOCKED_V4. rewrite !Exists_cons, Exists_nil.
  unfold in_cidr, quad. cbn [net prefix]. change (32 - 8) with 24. change (32 - 12) with 20. change (32 - 16) with 16.
  change (32 - 24) with 8. change (32 - 32) with 0. cbv [Z.pow Z.pow_pos Pos.iter Z.mul Pos.mul Pos.add Z.add].
  unfold is_blocked_v4, is_loopback4, is_private4, is_link_local4, is_unspecified4, in_range.
  destruct (octets ip Hip) as (-> & -> & ->).
  rewrite !orb_true_iff, !andb_true_iff, !Z.eqb_eq, !Z.leb_le.
  assert (ip / 65536 = 256 * (ip / 16777216) + ip / 65536 mod 256) as H16.
  { change 16777216 with (65536 * 256). rewrite <-(Z.div_div ip) by lia. apply Z.div_mod. lia. }
  assert (ip / 256 = 256 * (ip / 65536) + ip / 256 mod 256) as H8.
  { change 65536 with (256 * 256). rewrite <-(Z.div_div ip) by lia. apply Z.div_mod. lia. }
  assert (ip / 1048576 = (ip / 65536) / 16) as -> by (rewrite Z.div_div; [done|lia..]).
  rewrite Z.div_1_r, (Z.div_small 0 1) by lia.
  pose proof (Z.mod_pos_bound (ip / 65536) 256 ltac:(lia)). pose proof (Z.mod_pos_bound (ip / 256) 256 ltac:(lia)).
  change (2130706432 / 16777216) with 127. change (167772160 / 16777216) with 10.
  change (2886729728 / 1048576) with 2753. change (3232235520 / 65536) with 49320.
  change (2851995648 / 65536) with 43518. change (3758096384 / 256) with 14680064.
  generalize dependent (ip / 256 mod 256). generalize dependent (ip / 65536 mod 256).
  generalize (ip / 256) as e, (ip / 65536) as d, (ip / 16777216) as a. intros e d a b -> Hb c -> Hc.
  assert ((256 * a + b) / 16 = 2753 ↔ a = 172 ∧ 16 <= b <= 31) by (Z.to_euclidean_division_equations; lia).
  assert (256 * a + b = 49320 ↔ a = 192 ∧ b = 168) by lia.
  assert (256 * a + b = 43518 ↔ a = 169 ∧ b = 254) by lia.
  assert (256 * (256 * a + b) + c = 14680064 ↔ (a = 224 ∧ b = 0) ∧ c = 0) by lia.
  tauto.
Qed.

(** The segment at bit [k] of an address that has no higher bits. *)
Lemma top_segment ip k : 0 <= k → 0 <= ip < 2 ^ (k + 16) → ip / 2 ^ k mod 65536 = ip / 2 ^ k.
Proof.
  intros Hk Hip. apply Z.mod_small. split; [apply Z.div_pos; lia|].
  apply Z.div_lt_upper_bound; [lia|]. rewrite Z.pow_add_r in Hip by lia. lia.
Qed.

Lemma drop_segment ip k : 0 <= k → 0 <= ip < 2 ^ (k + 16) → ip / 2 ^ k mod 65536 = 0 → 0 <= ip < 2 ^ k.
Proof. intros Hk Hip. rewrite top_segment by done. intros. apply Z.div_small_iff in H; lia. Qed.

Lemma segment_first ip : 0 <= ip < 2 ^ 128 → segment ip 0 = ip / 2 ^ 112 ∧ 0 <= segment ip 0 < 65536.
Proof.
  intros Hip. unfold segment. change (112 - 16 * 0) with 112.
  rewrite <-(top_segment ip 112) at 2 by done. split; [done|]. by apply Z.mod_pos_bound.
Qed.

Lemma to_ipv4_mapped_Some ip : 0 <= ip < 2 ^ 128 →
  to_ipv4_mapped ip = if ip / 2 ^ 32 =? 65535 then Some (ip mod 2 ^ 32) else None.
Proof.
  intros Hip. unfold to_ipv4_mapped, segment.
  change (112 - 16 * 0) with 112. change (112 - 16 * 1) with 96. change (112 - 16 * 2) with 80.
  change (112 - 16 * 3) with 64. change (112 - 16 * 4) with 48. change (112 - 16 * 5) with 32.
  change (112 - 16 * 6) with 16. change (112 - 16 * 7) with 0.
  destruct (Z.eqb_spec (ip / 2 ^ 32) 65535) as [H32|H32].
  - assert (0 <= ip < 2 ^ 48) as H48.
    { split; [lia|]. rewrite (Z.div_mod ip (2 ^ 32)), H32 by lia.
      pose proof (Z.mod_pos_bound ip (2 ^ 32) ltac:(lia)). lia. }
    assert (∀ k, 48 <= k → ip / 2 ^ k = 0) as Hz.
    { intros k Hk. apply Z.div_small. split; [lia|]. eapply Z.lt_le_trans; [apply H48|].
      apply Z.pow_le_mono_r; lia. }
    replace (ip mod 2 ^ 32) with (ip / 2 ^ 16 mod 65536 * 65536 + ip / 2 ^ 0 mod 65536).
    + rewrite !Hz by lia. by rewrite ?H32.
    + change (2 ^ 32) with (65536 * 65536). change (2 ^ 16) with 65536. change (2 ^ 0) with 1.
      rewrite Z.rem_mul_r, Z.div_1_r by lia. ring.
  - destruct (_ && _) eqn:He; [|done]. exfalso. rewrite !andb_true_iff, !Z.eqb_eq in He.
    destruct He as (((((H0 & H1) & H2) & H3) & H4) & H5).
    apply drop_segment in H0; [|lia..]. apply drop_segment in H1; [|lia..].
    apply drop_segment in H2; [|lia..]. apply drop_segment in H3; [|lia..].
    apply drop_segment in H4; [|lia..]. rewrite top_segment in H5 by (simpl; lia). done.
Qed.

Lemma in_cidr_nested ip k n a : 0 <= k → 0 <= n → a / 2 ^ k mod 2 ^ n = 0 →
  ip / 2 ^ (k + n) = a / 2 ^ (k + n) ↔ ip / 2 ^ k / 2 ^ n = a / 2 ^ k / 2 ^ n.
Proof. intros. rewrite !Z.div_div, <-Z.pow_add_r by lia. done. Qed.

Lemma blocked_v6 ip : 0 <= ip < 2 ^ 128 →
  is_blocked_v6 ip = true ↔ ∃ c, c ∈ BLOCKED_V6 ∧ in_cidr 128 ip c.
Proof.
  intros Hip. destruct (segment_first ip Hip) as [Hs Hr]. unfold is_blocked_v6.
  change 0xfe00 with ((2 ^ 7 - 1) * 2 ^ 9). change 0xffc0 with ((2 ^ 10 - 1) * 2 ^ 6).
  rewrite (land_high _ 7 9), (land_high _ 10 6), land_ff0f by (simpl; lia).
  rewrite exists_elem. unfold BLOCKED_V6. rewrite !Exists_cons, Exists_fmap.
  unfold in_cidr. cbn [net prefix compose]. rewrite !orb_true_iff, !Z.eqb_eq.
  assert (Exists (λ n, ip / 2 ^ (128 - 16) = (0xff02 + 16 * Z.of_nat n) * 2 ^ 112 / 2 ^ (128 - 16)) (seq 0 16)
    ↔ segment ip 0 / 256 * 256 + segment ip 0 mod 16 = 0xff02) as Hm.
  { rewrite Exists_exists. change (128 - 16) with 112. setoid_rewrite elem_of_seq. rewrite <-Hs.
    setoid_rewrite Z.div_mul; [|lia]. split.
    - intros (n & Hn & ->). Z.to_euclidean_division_equations. lia.
    - intros He. exists (Z.to_nat ((segment ip 0 - 0xff02) / 16)). Z.to_euclidean_division_equations. lia. }
  unfold compose. cbn [net prefix]. rewrite Hm.
  assert (ip / 2 ^ (128 - 7) = segment ip 0 / 2 ^ 9) as -> by (rewrite Hs, Z.div_div by lia; done).
  assert (ip / 2 ^ (128 - 10) = segment ip 0 / 2 ^ 6) as -> by (rewrite Hs, Z.div_div by lia; done).
  change (2 ^ (128 - 128)) with 1. rewrite !Z.div_1_r.
  change (64512 * 2 ^ 112 / 2 ^ (128 - 7)) with 126. change (65152 * 2 ^ 112 / 2 ^ (128 - 10)) with 1018.
  change (2 ^ 9) with 512. change (2 ^ 6) with 64. generalize (segment ip 0 / 512), (segment ip 0 / 64).
  intros. assert (z * 512 = 64512 ↔ z = 126) as -> by lia. assert (z0 * 64 = 65152 ↔ z0 = 1018) as -> by lia.
  tauto.
Qed.

(** C28: the addresses the server refuses to connect to are exactly those of the
    listed CIDR blocks (loopback, private, link-local, local multicast,
    unspecified), an IPv4-mapped IPv6 address being read as the IPv4 one: the
    bit masks of the code are the prefixes, over the whole address space. *)
Theorem is_blocked_ip_correct (ip : IpAddr) (Hip : is_address ip) :
  is_blocked_ip ip = true ↔ blocked ip.
Proof.
  destruct ip as [ip|ip]; simpl in *; [by apply blocked_v4|].
  rewrite to_ipv4_mapped_Some by done. unfold in_cidr. cbn [net prefix MAPPED].
  change (65535 * 2 ^ 32 / 2 ^ (128 - 96)) with 65535. change (128 - 96) with 32.
  destruct (Z.eqb_spec (ip / 2 ^ 32) 65535) as [He|He].
  - rewrite blocked_v4 by (apply Z.mod_pos_bound; lia). unfold in_cidr. tauto.
  - rewrite blocked_v6 by done. unfold in_cidr. tauto.
Qed.

Lemma is_blocked_ip_correct_witness :
  is_blocked_ip (V6 (65535 * 2 ^ 32 + quad 192 168 1 1)) = true
  ∧ blocked (V6 (65535 * 2 ^ 32 + quad 192 168 1 1)) ∧ ¬ blocked (V4 (quad 8 8 8 8)).
Proof.
  split; [reflexivity|]. split.
  - apply is_blocked_ip_correct; [by split|reflexivity].
  - intros Hb. apply is_blocked_ip_correct in Hb; [discriminate|by split].
Defined.

(** ** A small instance

    A URL is its scheme and the rest; a host is always a name. *)
Definition example_urls : Urls := {|
  Url := str * str;
  url_parse raw :=
    match split_once_str (st "://") raw with
    | Some u => inr u
    | None => inl RelativeUrlWithoutBase
    end;
  url_join base reference :=
    match split_once_str (st "://") reference with
    | Some u => inr u
    | None => inr (base.1, default [] (head (split (Z.eqb 47) base.2)) ++ st "/" ++ reference)
    end;
  scheme := fst;
  host u := Some (Domain (default [] (head (split (Z.eqb 47) u.2))));
  url_path := snd;
  as_str u := u.1 ++ st "://" ++ u.2;
  query_pairs _ := [];
  relative_url_text := st "relative URL without a base"
|}.
