(* ===== verification/Icy.v ===== *)
(** ICY metadata and now playing (server/src/modules/radio/stream.rs,
    types.rs): a radio stream interleaves metadata blocks with its audio; the
    parser takes them out chunk by chunk, and what they name is kept per
    station. Clock readings are nanoseconds since the epoch. *)

From stdpp Require Import gmap.
From S2P Require Import Prelude Text GoJson.

Record NowPlaying := mkNowPlaying {
  title : str;
  artist : str;
  raw : str;
  updated_at : option str;
  stale : bool
}.

(** ** The latest now playing of each station *)

Definition NOW_PLAYING_STALE_AFTER : Z := 60 * NANOS.

Abbreviation NowPlayingCache := (gmap (list Z) (NowPlaying * option Z)).

Definition cache_set (station_id : str) (now_playing : NowPlaying) (updated : option Z)
    (items : NowPlayingCache) : NowPlayingCache :=
  <[station_id := (now_playing, updated)]> items.

(** [SystemTime::elapsed] at [now]: an error when the clock went back. *)
Definition elapsed (now updated : Z) : option Z :=
  if updated <=? now then Some (now - updated) else None.

Definition mark_stale (n : NowPlaying) : NowPlaying :=
  mkNowPlaying (title n) (artist n) (raw n) (updated_at n) true.

Definition cache_get (now : Z) (station_id : str) (items : NowPlayingCache) : option NowPlaying :=
  '(n, updated) ← items !! station_id;
  let old := match updated with
    | Some updated => match elapsed now updated with
        | Some age => NOW_PLAYING_STALE_AFTER <? age
        | None => false
        end
    | None => false
    end in
  Some (if (old : bool) then mark_stale n else n).

(** ** One metadata block *)

Definition parse_stream_title (raw : str) : str :=
  match split_once_str (st "StreamTitle='") raw with
  | None => []
  | Some (_, rest) =>
      match split_once_str (st "';") rest with
      | Some (title, _) => trim title
      | None => trim rest
      end
  end.

Definition is_padding (c : Z) : bool := (c =? 0) || (c =? 32).

Definition parse_icy_metadata (now : Z) (block : str) : option (NowPlaying * option Z) :=
  let raw := trim_matches is_padding block in
  if bool_decide (raw = []) then None
  else
    let title := parse_stream_title raw in
    if bool_decide (title = []) then Some (mkNowPlaying [] [] raw None false, None)
    else
      let '(artist, track_title) := match split_once_str (st " - ") title with
        | Some (artist, track) => (trim artist, trim track)
        | None => ([], title)
        end in
      Some (mkNowPlaying track_title artist title (Some (rfc3339_nano now)) false, Some now).

(** ** The parser *)

Record IcyParser := mkParser {
  metaint : Z;
  remaining : Z;
  pending : list byte
}.

Definition new_parser (metaint : Z) : IcyParser := mkParser metaint metaint [].

(** The loop of [feed]: the audio it adds, the metadata it reports and the
    parser it leaves. A turn takes a byte at least, so the pending bytes bound
    the turns. *)
Fixpoint feed_loop (fuel : nat) (p : IcyParser)
    : outcome Empty_set (list byte * list str * IcyParser) :=
  match fuel with
  | O => OutOfFuel
  | S fuel =>
      if 0 <? remaining p then
        let take_ := Z.min (remaining p) (zlen (pending p)) in
        if take_ =? 0 then Ok ([], [], p)
        else
          audio ← slice (pending p) 0 take_;
          rest ← slice_from (pending p) take_;
          '(more, reports, p) ← feed_loop fuel (mkParser (metaint p) (remaining p - take_) rest);
          Ok (audio ++ more, reports, p)
      else
        match pending p with
        | [] => Ok ([], [], p)
        | length_byte :: _ =>
            let length := b2z length_byte * 16 in
            if zlen (pending p) <? 1 + length then Ok ([], [], p)
            else
              block ← slice (pending p) 0 (1 + length);
              rest ← slice_from (pending p) (1 + length);
              report ← (if 0 <? length then text ← slice_from block 1; Ok [from_utf8_lossy text] else Ok []);
              '(audio, reports, p) ← feed_loop fuel (mkParser (metaint p) (metaint p) rest);
              Ok (audio, report ++ reports, p)
        end
  end.

(** [IcyParser::feed]. *)
Definition feed (p : IcyParser) (chunk : list byte)
    : outcome Empty_set (list byte * list str * IcyParser) :=
  let p := mkParser (metaint p) (remaining p) (pending p ++ chunk) in
  feed_loop (S (length (pending p))) p.

(** The chunks of a body, one after another. *)
Fixpoint feed_all (p : IcyParser) (chunks : list (list byte))
    : outcome Empty_set (list byte * list str * IcyParser) :=
  match chunks with
  | [] => Ok ([], [], p)
  | chunk :: chunks =>
      '(audio, reports, p) ← feed p chunk;
      '(more, later, p) ← feed_all p chunks;
      Ok (audio ++ more, reports ++ later, p)
  end.

(** ** What an ICY server sends

    [metaint] bytes of audio, a byte that counts the metadata's 16-byte units,
    the metadata; and again. *)
Record Frame := mkFrame { frame_audio : list byte; frame_meta : list byte }.

Definition frame_ok (metaint : Z) (f : Frame) : Prop :=
  zlen (frame_audio f) = metaint ∧ ∃ units, 0 <= units < 256 ∧ zlen (frame_meta f) = 16 * units.

Definition encode_frame (f : Frame) : list byte :=
  frame_audio f ++ z2b (zlen (frame_meta f) / 16) :: frame_meta f.

Definition wire (fs : list Frame) (last : list byte) : list byte := (fs ≫= encode_frame) ++ last.

(** The text of the blocks that are not empty. *)
Definition reported (fs : list Frame) : list str :=
  from_utf8_lossy <$> filter (λ m, m ≠ []) (frame_meta <$> fs).

(** ** The loop's equations *)

Definition after (audio : list byte) (reports : list str)
    (o : outcome Empty_set (list byte * list str * IcyParser)) :=
  '(more, later, p) ← o; Ok (audio ++ more, reports ++ later, p).

Lemma after_nil o : after [] [] o = o.
Proof. destruct o as [[[? ?] ?]| | |]; done. Qed.

Lemma after_after a r a' r' o : after a r (after a' r' o) = after (a ++ a') (r ++ r') o.
Proof. destruct o as [[[? ?] ?]| | |]; simpl; rewrite <-?(assoc_L (++)); done. Qed.

(** One turn of the loop, over natural offsets: the rest of the turns is [k]. *)
Definition turn (k : IcyParser → outcome Empty_set (list byte * list str * IcyParser)) (p : IcyParser) :=
  match p with
  | mkParser m r x =>
      if decide (0 < r) then
        if decide (x = []) then Ok ([], [], p)
        else let n := (Z.to_nat r `min` length x)%nat in
          after (take n x) [] (k (mkParser m (r - Z.of_nat n) (drop n x)))
      else match x with
        | [] => Ok ([], [], p)
        | b :: t =>
            let n := (Z.to_nat (b2z b) * 16)%nat in
            if decide (length t < n)%nat then Ok ([], [], p)
            else after [] (if decide (n = 0%nat) then [] else [from_utf8_lossy (take n t)])
                   (k (mkParser m m (drop n t)))
        end
  end.

Lemma turn_ext k k' p :
  (∀ q, (length (pending q) < length (pending p))%nat → k q = k' q) → turn k p = turn k' p.
Proof.
  intros Hk. destruct p as [m r x]. simpl in *. case_decide as Hr.
  - case_decide as Hx; [done|]. rewrite Hk; [done|]. simpl. rewrite length_drop.
    destruct x; [done|]. simpl. lia.
  - destruct x as [|b t]; [done|]. case_decide; [done|]. rewrite Hk; [done|].
    simpl. rewrite length_drop. lia.
Qed.

Lemma feed_loop_S fuel p : feed_loop (S fuel) p = turn (feed_loop fuel) p.
Proof.
  destruct p as [m r x]. cbn [feed_loop turn metaint remaining pending].
  destruct (Z.ltb_spec 0 r) as [Hr|Hr].
  - rewrite (decide_True _ _ Hr). destruct (Z.eqb_spec (Z.min r (zlen x)) 0) as [Hz|Hz].
    + rewrite decide_True; [done|]. apply length_zero_iff_nil. unfold zlen in *. lia.
    + rewrite decide_False by (intros ->; apply Hz; unfold zlen; simpl; lia).
      unfold slice_from. rewrite !slice_in by (unfold zlen in *; lia). cbn [mbind outcome_bind].
      unfold sub, after. rewrite Z.sub_0_r. change (Z.to_nat 0) with 0%nat. rewrite drop_0.
      assert (Z.to_nat (Z.min r (zlen x)) = (Z.to_nat r `min` length x)%nat) as -> by (unfold zlen in *; lia).
      assert (Z.min r (zlen x) = Z.of_nat (Z.to_nat r `min` length x)%nat) as -> by (unfold zlen in *; lia).
      rewrite (take_ge (drop _ x)) by (rewrite length_drop; unfold zlen; lia). done.
  - rewrite decide_False by lia. destruct x as [|b t]; [done|].
    pose proof (b2z_range b). rewrite zlen_cons.
    destruct (Z.ltb_spec (1 + zlen t) (1 + b2z b * 16)) as [Hl|Hl].
    + rewrite decide_True by (unfold zlen in *; lia). done.
    + rewrite decide_False by (unfold zlen in *; lia).
      unfold slice_from. rewrite (slice_in (b :: t) 0), (slice_in (b :: t) (1 + _)) by (rewrite ?zlen_cons; unfold zlen in *; lia).
      cbn [mbind outcome_bind]. unfold sub. rewrite Z.sub_0_r, zlen_cons. change (Z.to_nat 0) with 0%nat. rewrite drop_0.
      assert (Z.to_nat (1 + b2z b * 16) = S (Z.to_nat (b2z b) * 16)) as -> by lia. cbn [take drop].
      rewrite (take_ge (drop _ t)) by (rewrite length_drop; unfold zlen in *; lia).
      destruct (Z.ltb_spec 0 (b2z b * 16)).
      * rewrite decide_False by lia. rewrite slice_in; [|lia|rewrite zlen_cons; unfold zlen; lia|lia].
        cbn [mbind outcome_bind]. unfold sub. rewrite zlen_cons. change (Z.to_nat 1) with 1%nat. cbn [drop].
        rewrite drop_0, take_ge by (unfold zlen; lia). done.
      * rewrite decide_True by lia. done.
Qed.

Lemma feed_loop_fuel fuel p : (length (pending p) < fuel)%nat →
  feed_loop fuel p = feed_loop (S (length (pending p))) p.
Proof.
  revert p. induction fuel as [fuel IH] using lt_wf_ind. intros p Hf. destruct fuel as [|fuel]; [lia|].
  rewrite !feed_loop_S. apply turn_ext. intros q Hq.
  destruct (decide (fuel = length (pending p))) as [->|]; [done|].
  rewrite (IH fuel), (IH (length (pending p))) by lia. done.
Qed.

(** All the turns the pending bytes allow. *)
Definition drain (p : IcyParser) := feed_loop (S (length (pending p))) p.

Lemma drain_turn p : drain p = turn drain p.
Proof. unfold drain at 1. rewrite feed_loop_S. apply turn_ext. intros q Hq. by apply feed_loop_fuel. Qed.

Definition push (p : IcyParser) (chunk : list byte) : IcyParser :=
  mkParser (metaint p) (remaining p) (pending p ++ chunk).

Lemma feed_drain p chunk : feed p chunk = drain (push p chunk).
Proof. done. Qed.

(** ** Feeding in pieces *)

Lemma drain_take m r x y : zlen x <= r →
  drain (mkParser m r (x ++ y)) = after x [] (drain (mkParser m (r - zlen x) y)).
Proof.
  intros Hx. destruct (decide (x = [])) as [->|Hne].
  { change (zlen (A:=byte) []) with 0. by rewrite Z.sub_0_r, after_nil. }
  assert (0 < zlen x) as Hpos by (destruct x; [done|]; rewrite zlen_cons; pose proof (zlen_nonneg x); lia).
  rewrite drain_turn. unfold turn at 1. rewrite decide_True by lia.
  rewrite decide_False by (intros [? _]%app_nil; done). rewrite length_app.
  set (n := (Z.to_nat r `min` (length x + length y))%nat).
  rewrite take_app_ge, drop_app_ge by (unfold n, zlen in *; lia).
  destruct (decide (n = length x)) as [Hn|Hn].
  - rewrite Hn, Nat.sub_diag, take_0, drop_0, app_nil_r. unfold zlen. done.
  - rewrite (drain_turn (mkParser m (r - zlen x) y)). unfold turn at 1.
    rewrite decide_True by (unfold n, zlen in *; lia).
    rewrite decide_False by (intros ->; unfold n in Hn; simpl in Hn; unfold zlen in *; lia).
    rewrite after_after. change ([] ++ []) with (@nil str).
    assert (Z.to_nat (r - zlen x) `min` length y = n - length x)%nat as -> by (unfold n, zlen in *; lia).
    do 3 f_equal. unfold n, zlen in *. lia.
Qed.

(** A parser that waits for more bytes. *)
Definition settled (p : IcyParser) : Prop := drain p = Ok ([], [], p).

Lemma drain_pending_app p : 0 <= remaining p → 0 <= metaint p → ∃ a rs p',
  drain p = Ok (a, rs, p') ∧ (settled p' ∧ 0 <= remaining p' ∧ metaint p' = metaint p) ∧
  ∀ y, drain (push p y) = after a rs (drain (push p' y)).
Proof.
  remember (length (pending p)) as n eqn:Hn. revert p Hn.
  induction n as [n IH] using lt_wf_ind. intros p -> Hr Hm.
  assert (drain p = Ok ([], [], p) → ∃ a rs p',
    drain p = Ok (a, rs, p') ∧ (settled p' ∧ 0 <= remaining p' ∧ metaint p' = metaint p) ∧
    ∀ y, drain (push p y) = after a rs (drain (push p' y))) as Hstay.
  { intros Hp. exists [], [], p. split_and!; [done..|]. intros y. by rewrite after_nil. }
  rewrite drain_turn in Hstay |- *. destruct p as [m r x]. simpl in *. case_decide as Hpos.
  - case_decide as Hx; [by apply Hstay|]. clear Hstay.
    set (k := (Z.to_nat r `min` length x)%nat).
    assert (0 < length x)%nat by (destruct x; simpl; [done|lia]).
    destruct (IH (length (drop k x)) ltac:(rewrite length_drop; unfold k; lia)
      (mkParser m (r - Z.of_nat k) (drop k x)) eq_refl ltac:(simpl; unfold k; lia) Hm)
      as (a & rs & p' & Hd & Hs & Hy).
    exists (take k x ++ a), rs, p'. rewrite Hd. split; [done|]. split; [done|].
    intros y. unfold push in *. cbn [metaint remaining pending] in *.
    rewrite <-(take_drop k x) at 1. rewrite <-(assoc_L (++)), drain_take.
    + unfold zlen. rewrite length_take, (Nat.min_l k) by (unfold k; lia).
      rewrite Hy, after_after. done.
    + unfold zlen. rewrite length_take. unfold k. lia.
  - destruct x as [|b t]; [by apply Hstay|]. case_decide as Ht; [by apply Hstay|]. clear Hstay.
    set (k := (Z.to_nat (b2z b) * 16)%nat) in *.
    destruct (IH (length (drop k t)) ltac:(rewrite length_drop; simpl; lia)
      (mkParser m m (drop k t)) eq_refl Hm Hm) as (a & rs & p' & Hd & Hs & Hy).
    eexists _, _, p'. rewrite Hd. split; [done|]. split; [done|].
    intros y. unfold push in *. cbn [metaint remaining pending] in *.
    rewrite drain_turn. cbn [turn app]. rewrite decide_False by lia. fold k.
    rewrite length_app, decide_False by lia.
    rewrite take_app_le, drop_app_le by lia. rewrite Hy, after_after. done.
Qed.

Lemma feed_all_drain p chunks : 0 <= remaining p → 0 <= metaint p → settled p →
  feed_all p chunks = drain (push p (concat chunks)).
Proof.
  revert p. induction chunks as [|chunk chunks IH]; intros p Hr Hm Hs; cbn [feed_all concat].
  - unfold push. rewrite app_nil_r. by destruct p.
  - rewrite feed_drain. destruct (drain_pending_app (push p chunk)) as (a & rs & p' & Hd & Hs' & Hy); [done..|].
    rewrite Hd. cbn [mbind outcome_bind].
    assert (push p (chunk ++ concat chunks) = push (push p chunk) (concat chunks)) as ->
      by (unfold push; simpl; by rewrite (assoc_L (++))).
    rewrite Hy.
    destruct Hs' as (Hs' & Hr' & Hm'). simpl in Hm'.
    rewrite IH by (done || lia). done.
Qed.

Lemma drain_frame m f d : 0 < m → frame_ok m f →
  drain (mkParser m m (encode_frame f ++ d))
  = after (frame_audio f) (if decide (frame_meta f = []) then [] else [from_utf8_lossy (frame_meta f)])
      (drain (mkParser m m d)).
Proof.
  intros Hm [Ha (units & Hu & Hl)]. unfold encode_frame. rewrite <-(assoc_L (++)), drain_take by lia.
  rewrite Ha, Z.sub_diag. cbn [app].
  assert (zlen (frame_meta f) / 16 = units) as -> by (rewrite Hl, Z.mul_comm, Z.div_mul; lia).
  rewrite drain_turn. unfold turn. rewrite decide_False by lia.
  rewrite b2z_small by lia. rewrite length_app, decide_False by (unfold zlen in *; lia).
  rewrite take_app_length', drop_app_length' by (unfold zlen in *; lia).
  rewrite after_after, app_nil_r. cbn [app].
  destruct (decide (frame_meta f = [])) as [He|He].
  - rewrite decide_True; [done|]. rewrite He in Hl. unfold zlen in Hl. simpl in Hl. lia.
  - rewrite decide_False; [done|]. intros Hz. apply He, length_zero_iff_nil. unfold zlen in *. lia.
Qed.

Lemma drain_wire m fs last : 0 < m → Forall (frame_ok m) fs → zlen last <= m →
  drain (mkParser m m (wire fs last))
  = Ok (concat (frame_audio <$> fs) ++ last, reported fs, mkParser m (m - zlen last) []).
Proof.
  intros Hm Hfs Hl. unfold wire, reported. induction Hfs as [|f fs Hf _ IH].
  - change (drain _) with (drain (mkParser m m last)).
    rewrite <-(app_nil_r last) at 1. rewrite drain_take by done.
    rewrite drain_turn. unfold turn. case_decide; simpl; by rewrite app_nil_r.
  - rewrite bind_cons, <-(assoc_L (++)), drain_frame, IH by done.
    rewrite !fmap_cons, filter_cons. simpl.
    destruct (decide (frame_meta f = [])); [rewrite decide_False by auto|rewrite decide_True by auto];
      simpl; by rewrite (assoc_L (++)).
Qed.

(** Whatever chunks a station's stream arrives in, the listener gets its
    audio and nothing else, in order and with no byte held back at a boundary,
    and every metadata block that is not empty is reported once, in order: the
    parser undoes the server's interleaving. *)
Theorem icy_stripped (m : Z) (fs : list Frame) (last : list byte) (chunks : list (list byte))
    (Hm : 0 < m) (Hfs : Forall (frame_ok m) fs) (Hlast : zlen last <= m)
    (Hchunks : concat chunks = wire fs last) :
  feed_all (new_parser m) chunks
  = Ok (concat (frame_audio <$> fs) ++ last, reported fs, mkParser m (m - zlen last) []).
Proof.
  rewrite feed_all_drain; [|simpl; lia..|].
  - rewrite Hchunks. by apply drain_wire.
  - unfold settled, new_parser. rewrite drain_turn. unfold turn. rewrite decide_True by lia. done.
Qed.

Definition example_frames : list Frame := [
  mkFrame (bs "abcd") (bs "StreamTitle='Artist - Title';" ++ [x00; x00; x00]);
  mkFrame (bs "efgh") []].

Lemma icy_stripped_witness :
  feed_all (new_parser 4) [bs "ab"; bs "cd" ++ [x02] ++ bs "Stream"; bs "Title='Artist - Title';" ++ [x00; x00; x00]; bs "efgh" ++ [x00]; bs "ijk"]
  = Ok (bs "abcdefghijk", [st "StreamTitle='Artist - Title';" ++ [0; 0; 0]], mkParser 4 1 []).
Proof.
  rewrite (icy_stripped 4 example_frames (bs "ijk")); [reflexivity|lia| |by vm_compute|reflexivity].
  repeat constructor; [exists 2|exists 0]; (split; [lia|reflexivity]).
Defined.
