(* ===== verification/Hls.v ===== *)
(** HLS playlists through the proxy (server/src/modules/radio/stream.rs): the
    signed tokens that stand for a playlist's resources, the refusal of
    protected playlists, and the rewriting that turns every URI of a playlist
    into a link of this server. *)

From S2P Require Import Prelude Text GoJson StreamUrl.
From S2P Require Metadata ListenTogether.

(** The encodings of a token: base64url without padding as the [base64] crate
    decodes it, and the JSON serde writes and reads for the claims. *)
Record ResourceClaims := mkClaims { claim_s : str; claim_u : str; claim_e : Z }.

Class TokenCodec := {
  base64_url_decode : str → option (list byte);
  claims_to_json : ResourceClaims → list byte;
  claims_from_json : list byte → option ResourceClaims
}.

Inductive RewriteError := Drm | Invalid (message : str).

Definition show_rewrite_error (e : RewriteError) : str :=
  match e with Drm => st "DRM-protected HLS is unsupported" | Invalid message => message end.

(** An outcome without failures where one with failures is wanted. *)
Definition infallible {E A} (o : outcome Empty_set A) : outcome E A := map_err (Empty_set_rect _) o.

Lemma infallible_Ok {E A} (o : outcome Empty_set A) a : @infallible E A o = Ok a ↔ o = Ok a.
Proof. unfold infallible. destruct o as [?|[]| |]; simpl; split; congruence. Qed.

(** ** Tokens *)

Definition HLS_RESOURCE_TOKEN_TTL_SECONDS : Z := 3600.
Definition INVALID_TOKEN : str := st "invalid HLS resource token".

(** [unix_now], given the clock in nanoseconds since the epoch. *)
Definition unix_now (clock : Z) : Z := if clock <? 0 then 0 else as_i64 (clock / NANOS).

Section Tokens.
Context `{ListenTogether.Crypto} `{TokenCodec} `{Urls}.
Import ListenTogether.

(** [ResourceSigner::sign] with the signer's key. *)
Definition sign (key : list byte) (now : Z) (station_id resource_url : str) : outcome Empty_set str :=
  e ← add_i64 now HLS_RESOURCE_TOKEN_TTL_SECONDS;
  let payload := base64_url (claims_to_json (mkClaims station_id resource_url e)) in
  Ok (payload ++ st "." ++ base64_url (hmac_sha256 key (encode payload))).

Definition verify (key : list byte) (now : Z) (token station_id : str) : outcome str str :=
  '(payload, signature) ← ok_or (split_once 46 token) INVALID_TOKEN;
  signature ← ok_or (base64_url_decode signature) INVALID_TOKEN;
  if negb (bool_decide (hmac_sha256 key (encode payload) = signature)) then Err INVALID_TOKEN
  else
    payload ← ok_or (base64_url_decode payload) INVALID_TOKEN;
    claims ← ok_or (claims_from_json payload) INVALID_TOKEN;
    if negb (bool_decide (claim_s claims = station_id)) || (claim_e claims <=? now) then Err INVALID_TOKEN
    else
      _ ← map_err (λ error, INVALID_TOKEN ++ st ": " ++ error) (validate_stream_url (claim_u claims));
      Ok (claim_u claims).
End Tokens.

(** ** Protected playlists *)

Section Playlist.
Context `{Metadata.Unicode} `{Urls}.

Definition is_quote_or_space (c : Z) : bool := (c =? 34) || (c =? 32).

Definition KEYFORMAT : str := st "KEYFORMAT=".

Definition uppercase (s : str) : str := s ≫= Metadata.to_uppercase.

(** An index into the upper-case line is used on the line itself. *)
Definition has_unsupported_protection (line : str) : outcome Empty_set bool :=
  let upper := uppercase line in
  if negb (starts_with (st "#EXT-X-KEY:") upper) && negb (starts_with (st "#EXT-X-SESSION-KEY:") upper)
  then Ok false
  else if contains (st "METHOD=SAMPLE-AES") upper then Ok true
  else match split_once_str KEYFORMAT upper with
  | None => Ok false
  | Some (before, _) =>
      '(_, rest) ← split_bytes (str_len before + str_len KEYFORMAT) line;
      let key_format := trim_matches is_quote_or_space (default [] (head (split (Z.eqb 44) rest))) in
      Ok (negb (bool_decide (ascii_lower <$> key_format = ascii_lower <$> st "identity")))
  end.

(** ** Rewriting *)

Definition MARKER : str := st "URI=" ++ [34].

Section Links.
Variable base : Url.
Variable link : str → outcome RewriteError str.

(** The link for one reference of the playlist. *)
Definition proxy (reference : str) : outcome RewriteError str :=
  let invalid error := Invalid (st "invalid HLS playlist URL: " ++ error) in
  resolved ← match url_join base reference with
    | inl error => Err (invalid error)
    | inr resolved => Ok resolved
    end;
  _ ← map_err invalid (validate_stream_url (as_str resolved));
  link (as_str resolved).

(** The loop over the attributes of a line: [before] is what it has passed. *)
Fixpoint rewrite_attributes (fuel : nat) (before rest : str) : outcome RewriteError str :=
  match fuel with
  | O => OutOfFuel
  | S fuel =>
      match split_once_str MARKER rest with
      | None => Ok (before ++ rest)
      | Some (text, tail) =>
          match split_once 34 tail with
          | None => Err (Invalid (st "invalid HLS playlist: unterminated URI attribute"))
          | Some (uri, rest) =>
              rewritten ← proxy uri;
              rewrite_attributes fuel (before ++ text ++ MARKER ++ rewritten ++ [34]) rest
          end
      end
  end.

Definition rewrite_uri_attributes (line : str) : outcome RewriteError str :=
  rewrite_attributes (S (length line)) [] line.

Definition rewrite_line (line : str) : outcome RewriteError str :=
  if starts_with (st "#") line then
    protected ← infallible (has_unsupported_protection line);
    if (protected : bool) then Err Drm else rewrite_uri_attributes line
  else if bool_decide (trim line = []) then Ok line
  else proxy (trim line).

Fixpoint rewrite_lines (lines : list str) : outcome RewriteError (list str) :=
  match lines with
  | [] => Ok []
  | line :: lines =>
      rewritten ← rewrite_line line;
      rest ← rewrite_lines lines;
      Ok (rewritten :: rest)
  end.

Definition rewrite_playlist_with (playlist : str) : outcome RewriteError str :=
  if negb (starts_with (st "#EXTM3U") (trim playlist))
  then Err (Invalid (st "invalid HLS playlist: missing EXTM3U header"))
  else
    lines ← rewrite_lines (split (Z.eqb 10) playlist);
    Ok (join [10] lines).
End Links.

(** [rewrite_playlist]: the links of a station's own proxy. *)
Definition rewrite_playlist `{ListenTogether.Crypto} `{TokenCodec} (key : list byte) (now : Z)
    (playlist : str) (base : Url) (proxy_path station_id : str) : outcome RewriteError str :=
  rewrite_playlist_with base
    (λ resolved, token ← infallible (sign key now station_id resolved);
                 Ok (proxy_path ++ st "?resource=" ++ token)) playlist.
End Playlist.

(** ** What protection a player lacks *)

Lemma split_bytes_app a b : split_bytes (str_len a) (a ++ b) = Ok (a, b).
Proof.
  induction a as [|c a IH]; [by destruct b|]. rewrite str_len_cons.
  pose proof (utf8_width_range c). pose proof (str_len_nonneg a). cbn [app split_bytes].
  rewrite (proj2 (Z.eqb_neq _ 0)), (proj2 (Z.ltb_ge _ _)) by lia.
  replace (utf8_width c + str_len a - utf8_width c) with (str_len a) by lia. by rewrite IH.
Qed.

Lemma split_bytes_Ok n s a b : 0 <= n → split_bytes n s = Ok (a, b) ↔ s = a ++ b ∧ str_len a = n.
Proof.
  intros Hn. split; [|by intros [-> <-]; apply split_bytes_app]. revert n a Hn. induction s as [|c s IH]; intros n a Hn; cbn [split_bytes].
  - destruct (Z.eqb_spec n 0) as [->|]; [|done]. by intros [= <- <-].
  - destruct (Z.eqb_spec n 0) as [->|]; [by intros [= <- <-]|]. destruct (Z.ltb_spec n (utf8_width c)); [done|].
    destruct (split_bytes (n - utf8_width c) s) as [[a' b']| | |] eqn:Hs; try done. cbn. intros [= <- <-].
    apply IH in Hs as [-> Hl]; [|lia]. split; [done|]. rewrite str_len_cons. lia.
Qed.

Lemma trim_matches_parts p s : ∃ l r, s = l ++ trim_matches p s ++ r ∧ ∀ c, c ∈ l ++ r → p c = true.
Proof.
  unfold trim_matches, trim_end. destruct (trim_start_suffix p s) as (l & Hl & Hpl).
  destruct (trim_start_suffix p (reverse (trim_start p s))) as (r & Hr & Hpr). exists l, (reverse r). split.
  - rewrite Hl at 1. f_equal. by rewrite <-reverse_app, <-Hr, reverse_involutive.
  - rewrite forallb_forall in Hpl, Hpr. intros c [Hc|Hc]%elem_of_app; [by apply Hpl, list_elem_of_In|].
    by apply Hpr, list_elem_of_In, elem_of_reverse.
Qed.

Lemma trim_start_app p l s : (∀ c, c ∈ l → p c = true) → trim_start p (l ++ s) = trim_start p s.
Proof. induction l as [|c l IH]; intros Hl; [done|]. cbn. rewrite Hl by (by left). apply IH. intros d Hd. apply Hl. by right. Qed.

Lemma trim_matches_app p l v r : (∀ c, c ∈ l ++ r → p c = true) → (∀ c, c ∈ v → p c = false) → v ≠ [] → trim_matches p (l ++ v ++ r) = v.
Proof.
  intros Hlr Hv Hne. unfold trim_matches, trim_end. rewrite trim_start_app by (intros c Hc; apply Hlr, elem_of_app; by left).
  rewrite (trim_start_id p (v ++ r)).
  - rewrite reverse_app, trim_start_app.
    + rewrite trim_start_id; [apply reverse_involutive|]. intros c s' Hs. apply Hv. apply elem_of_reverse. rewrite Hs. by left.
    + intros c Hc. rewrite elem_of_reverse in Hc. apply Hlr, elem_of_app. by right.
  - intros c s' Hs. apply Hv. destruct v as [|x v]; [done|]. injection Hs as -> _. by left.
Qed.

Section Unprotected.
Context `{Metadata.Unicode}.

(** [upper] is a key tag. *)
Definition key_tag (upper : str) : Prop :=
  (∃ rest, upper = st "#EXT-X-KEY:" ++ rest) ∨ ∃ rest, upper = st "#EXT-X-SESSION-KEY:" ++ rest.

(** What [text] starts with, up to a comma if there is one, is the key format
    [identity] in any case, whatever quotes and blanks are around it. *)
Definition names_identity (text : str) : Prop :=
  ∃ l v r rest, text = l ++ v ++ r ++ rest ∧ (∀ c, c ∈ l ++ r → c = 34 ∨ c = 32) ∧ ascii_lower <$> v = st "identity" ∧
    (rest = [] ∨ ∃ more, rest = 44 :: more).

(** A line a player can play: unless it is a key tag, which must not ask for a
    SAMPLE-AES method, nor, in its first key format, for another than identity. *)
Definition playable (line : str) : Prop :=
  key_tag (uppercase line) →
  (¬ ∃ a b, uppercase line = a ++ st "METHOD=SAMPLE-AES" ++ b) ∧
  ∀ before after, uppercase line = before ++ st "KEYFORMAT=" ++ after → (¬ ∃ a b, before = a ++ st "KEYFORMAT=" ++ b) →
    ∃ a b, line = a ++ b ∧ str_len a = str_len (before ++ st "KEYFORMAT=") ∧ names_identity b.

Lemma first_field text : ∃ rest, text = default [] (head (split (Z.eqb 44) text)) ++ rest ∧
  (44 ∉ default [] (head (split (Z.eqb 44) text))) ∧ (rest = [] ∨ ∃ more, rest = 44 :: more).
Proof.
  induction text as [|c text (rest & Ht & Hno & Hrest)]; [exists []; split_and!; [done|apply not_elem_of_nil|by left]|].
  cbn [split]. destruct (Z.eqb_spec 44 c) as [<-|Hc].
  - exists (44 :: text). split_and!; [done|apply not_elem_of_nil|right; by exists text].
  - pose proof (split_ne (Z.eqb 44) text) as Hne. destruct (split (Z.eqb 44) text) as [|w ws]; [done|]. cbn in *. exists rest.
    split_and!; [by rewrite Ht at 1|by rewrite not_elem_of_cons|done].
Qed.

Lemma identity_chars v c : ascii_lower <$> v = st "identity" → c ∈ v → c ≠ 34 ∧ c ≠ 32 ∧ c ≠ 44.
Proof.
  intros Hv Hc. assert (ascii_lower c ∈ st "identity") as Hin by (rewrite <-Hv; by apply list_elem_of_fmap_2).
  split_and!; intros ->; vm_compute in Hin; set_solver.
Qed.

Lemma names_identity_iff text :
  ascii_lower <$> trim_matches is_quote_or_space (default [] (head (split (Z.eqb 44) text))) = st "identity" ↔ names_identity text.
Proof.
  split.
  - intros Hv. destruct (first_field text) as (rest & Ht & _ & Hrest). destruct (trim_matches_parts is_quote_or_space (default [] (head (split (Z.eqb 44) text)))) as (l & r & Hlr & Hp).
    exists l, (trim_matches is_quote_or_space (default [] (head (split (Z.eqb 44) text)))), r, rest. split_and!; [|..|done].
    + rewrite Ht at 1. rewrite Hlr at 1. by rewrite <-!(assoc_L (++)).
    + intros c Hc%Hp. unfold is_quote_or_space in Hc. rewrite orb_true_iff, !Z.eqb_eq in Hc. done.
    + done.
  - intros (l & v & r & rest & -> & Hlr & Hv & Hrest).
    assert (∀ c, c ∈ l ++ v ++ r → Z.eqb 44 c = false) as Hno.
    { intros c Hc. apply Z.eqb_neq. intros <-. rewrite !elem_of_app in Hc. destruct Hc as [Hc|[Hc|Hc]].
      - destruct (Hlr 44); [apply elem_of_app; by left|done..].
      - by destruct (identity_chars v 44 Hv Hc) as (_ & _ & ?).
      - destruct (Hlr 44); [apply elem_of_app; by right|done..]. }
    assert (default [] (head (split (Z.eqb 44) (l ++ v ++ r ++ rest))) = l ++ v ++ r) as ->.
    { replace (l ++ v ++ r ++ rest) with ((l ++ v ++ r) ++ rest) by (by rewrite <-!(assoc_L (++))).
      destruct Hrest as [->|[more ->]]; [by rewrite app_nil_r, split_no|by rewrite split_app]. }
    rewrite trim_matches_app; [done|..].
    + intros c Hc. unfold is_quote_or_space. rewrite orb_true_iff, !Z.eqb_eq. by apply Hlr.
    + intros c Hc. destruct (identity_chars v c Hv Hc) as (? & ? & _). unfold is_quote_or_space. by rewrite orb_false_iff, !Z.eqb_neq.
    + by intros ->.
Qed.

(** The part of the check on a key tag's first key format. *)
Lemma key_format_playable line :
  match split_once_str KEYFORMAT (uppercase line) with
  | None => Ok false
  | Some (before, _) =>
      '(_, rest) ← split_bytes (str_len before + str_len KEYFORMAT) line;
      Ok (negb (bool_decide (ascii_lower <$> trim_matches is_quote_or_space (default [] (head (split (Z.eqb 44) rest)))
                             = ascii_lower <$> st "identity")))
  end = Ok false ↔
  ∀ before after, uppercase line = before ++ KEYFORMAT ++ after → (¬ ∃ a b, before = a ++ KEYFORMAT ++ b) →
    ∃ a b, line = a ++ b ∧ str_len a = str_len (before ++ KEYFORMAT) ∧ names_identity b.
Proof.
  destruct (split_once_str KEYFORMAT (uppercase line)) as [[before after]|] eqn:Hs.
  - apply split_once_str_Some in Hs as [Hline Hno]; [|done].
    assert (∀ before' after', uppercase line = before' ++ KEYFORMAT ++ after' → (¬ ∃ a b, before' = a ++ KEYFORMAT ++ b) → before' = before) as Huniq.
    { intros b' a' Hl Hb'. rewrite <-contains_iff in Hb'. apply not_true_is_false in Hb'.
      assert (split_once_str KEYFORMAT (uppercase line) = Some (b', a')) as H1.
      { rewrite Hl. apply split_once_str_app; [|done]. vm_compute. set_solver. }
      assert (split_once_str KEYFORMAT (uppercase line) = Some (before, after)) as H2.
      { rewrite Hline. apply split_once_str_app; [|done]. vm_compute. set_solver. }
      congruence. }
    pose proof (str_len_nonneg before). pose proof (str_len_nonneg KEYFORMAT).
    split.
    + intros ((a & b) & Hab & [= Hf%negb_false_iff%bool_decide_eq_true])%bind_Ok before' after' Hl' Hb'.
      apply split_bytes_Ok in Hab as [Hab Hl]; [|lia].
      rewrite (Huniq _ _ Hl' Hb'). exists a, b. split; [done|]. split; [by rewrite str_len_app|]. by apply names_identity_iff.
    + intros Hall. assert (¬ ∃ a b, before = a ++ KEYFORMAT ++ b) as Hno' by (by rewrite <-contains_iff, Hno).
      destruct (Hall before after Hline Hno') as (a & b & -> & Hl & Hb%names_identity_iff).
      rewrite str_len_app in Hl. rewrite <-Hl, split_bytes_app. cbn. by rewrite bool_decide_true.
  - apply split_once_str_None in Hs. split; [|done]. intros _ before after Hl.
    assert (contains KEYFORMAT (uppercase line) = true) as Hc; [|congruence]. apply contains_iff. by exists before, after.
Qed.

Lemma unprotected_playable line : has_unsupported_protection line = Ok false ↔ playable line.
Proof.
  unfold has_unsupported_protection, playable, key_tag. rewrite <-!starts_with_iff, <-contains_iff.
  destruct (negb _ && negb _) eqn:Htag.
  { apply andb_true_iff in Htag as [->%negb_true_iff ->%negb_true_iff]. by split; [intros _ [?|?]|]. }
  assert (starts_with (st "#EXT-X-KEY:") (uppercase line) = true ∨ starts_with (st "#EXT-X-SESSION-KEY:") (uppercase line) = true) as Hk.
  { by destruct (starts_with (st "#EXT-X-KEY:") _); [left|right; destruct (starts_with _ _)]. }
  destruct (contains (st "METHOD=SAMPLE-AES") _); [by split; [|intros Hp; destruct (Hp Hk) as [[] _]]|].
  etransitivity; [apply key_format_playable|]. split; [by intros Hall _; split|]. intros Hp. by apply Hp.
Qed.
End Unprotected.

(** ** What rewriting a playlist means *)

Section Spec.
Context `{Metadata.Unicode} `{Urls}.
Variable base : Url.
Variable link : str → outcome RewriteError str.

(** [out] is the link for [reference], which names a public address. *)
Definition linked (reference out : str) : Prop :=
  ∃ u, url_join base reference = inr u ∧ validate_stream_url (as_str u) = Ok tt
       ∧ link (as_str u) = Ok out.

(** Each quoted URI attribute replaced by its link, all other text kept. *)
Inductive attributes_linked : str → str → Prop :=
| no_attribute text : contains MARKER text = false → attributes_linked text text
| attribute text uri l rest out :
    contains MARKER text = false → 34 ∉ uri → linked uri l →
    attributes_linked rest out →
    attributes_linked (text ++ MARKER ++ uri ++ 34 :: rest) (text ++ MARKER ++ l ++ 34 :: out).

Inductive line_linked : str → str → Prop :=
| tag_line line out :
    starts_with (st "#") line = true → playable line →
    attributes_linked line out → line_linked line out
| blank_line line :
    starts_with (st "#") line = false → trim line = [] → line_linked line line
| uri_line line out :
    starts_with (st "#") line = false → trim line ≠ [] → linked (trim line) out →
    line_linked line out.

Lemma proxy_Ok reference out : proxy base link reference = Ok out ↔ linked reference out.
Proof.
  unfold proxy, linked. destruct (url_join base reference) as [e|u]; simpl.
  - split; [done|]. by intros (? & ? & _).
  - destruct (validate_stream_url (as_str u)) as [[]|e| |] eqn:Hv; simpl;
      (split; [try done; eauto|intros (? & [= <-] & Hv' & Hl); congruence]).
Qed.

Lemma find_marker text b : contains MARKER text = false →
  split_once_str MARKER (text ++ MARKER ++ b) = Some (text, b).
Proof. apply split_once_str_app. vm_compute. set_solver. Qed.

Lemma marker_found text b : contains MARKER (text ++ MARKER ++ b) = true.
Proof. apply contains_iff. eauto. Qed.

#[local] Opaque MARKER.

(** The first attribute of a line determines its parts. *)
Lemma marker_unique text b text' b' :
  text ++ MARKER ++ b = text' ++ MARKER ++ b' →
  contains MARKER text = false → contains MARKER text' = false → text = text' ∧ b = b'.
Proof.
  intros He Ht Ht'. pose proof (find_marker text b Ht) as Hs.
  rewrite He, (find_marker text' b' Ht') in Hs. by simplify_eq.
Qed.

Lemma quote_unique uri rest uri' rest' :
  uri ++ 34 :: rest = uri' ++ 34 :: rest' → 34 ∉ uri → 34 ∉ uri' → uri = uri' ∧ rest = rest'.
Proof.
  intros He Hu Hu'. assert (split_once 34 (uri ++ 34 :: rest) = Some (uri, rest)) as Hs by by apply split_once_Some.
  assert (split_once 34 (uri' ++ 34 :: rest') = Some (uri', rest')) as Hs' by by apply split_once_Some.
  rewrite He, Hs' in Hs. by simplify_eq.
Qed.

Lemma rewrite_attributes_Ok fuel before rest out :
  (length rest < fuel)%nat →
  rewrite_attributes base link fuel before rest = Ok out
  ↔ ∃ out', out = before ++ out' ∧ attributes_linked rest out'.
Proof.
  revert before rest out. induction fuel as [|fuel IH]; intros before rest out Hf; [lia|].
  cbn [rewrite_attributes]. destruct (split_once_str MARKER rest) as [[text tail]|] eqn:Hm.
  - apply split_once_str_Some in Hm as [-> Htext]; [|done].
    destruct (split_once 34 tail) as [[uri rest']|] eqn:Hq.
    + apply split_once_Some in Hq as [-> Huri].
      assert (length rest' < fuel)%nat as Hf'.
      { rewrite !length_app in Hf. simpl in Hf. lia. }
      split.
      * intros He. apply bind_Ok in He as (l & Hl%proxy_Ok & He). apply IH in He as (out' & -> & Ho); [|done].
        exists (text ++ MARKER ++ l ++ 34 :: out'). split; [|by constructor].
        by rewrite <-!(assoc_L (++)).
      * intros (out' & -> & Ho).
        inversion Ho as [text0 Hnone He|text0 uri0 l rest0 out0 Htext0 Huri0 Hl Ho0 He]; subst;
          [by rewrite marker_found in Hnone|].
        apply marker_unique in He as [-> He]; [|done..]. apply quote_unique in He as [-> ->]; [|done..].
        apply proxy_Ok in Hl. rewrite Hl. cbn [mbind outcome_bind]. apply IH; [done|].
        exists out0. split; [by rewrite <-!(assoc_L (++))|done].
    + split; [done|]. intros (out' & -> & Ho). exfalso. apply split_once_None in Hq.
      inversion Ho as [text0 Hnone He|text0 uri0 l rest0 out0 Htext0 Huri0 Hl Ho0 He]; subst;
        [by rewrite marker_found in Hnone|].
      apply marker_unique in He as [-> <-]; [|done..]. apply Hq. set_solver.
  - apply split_once_str_None in Hm. split.
    + intros [= <-]. exists rest. split; [done|]. by constructor.
    + intros (out' & -> & Ho).
      inversion Ho as [text0 Hnone He|text0 uri0 l rest0 out0 Htext0 Huri0 Hl Ho0 He]; subst; [done|].
      by rewrite marker_found in Hm.
Qed.

Lemma rewrite_line_Ok line out : rewrite_line base link line = Ok out ↔ line_linked line out.
Proof.
  unfold rewrite_line, rewrite_uri_attributes. split.
  - destruct (starts_with (st "#") line) eqn:Hs.
    + intros He. apply bind_Ok in He as ([] & Hp%infallible_Ok & He); [done|]. apply unprotected_playable in Hp.
      apply rewrite_attributes_Ok in He as (out' & -> & Ho); [|lia]. by constructor.
    + destruct (bool_decide_reflect (trim line = [])) as [Ht|Ht].
      * intros [= <-]. by constructor.
      * intros ?%proxy_Ok. by constructor.
  - intros [l o Hs Hp Ho|l Hs Ht|l o Hs Ht Hl]; rewrite Hs.
    + apply unprotected_playable in Hp. rewrite (proj2 (infallible_Ok _ _) Hp). cbn [mbind outcome_bind]. apply rewrite_attributes_Ok; [lia|eauto].
    + by rewrite bool_decide_true.
    + rewrite bool_decide_false by done. by apply proxy_Ok.
Qed.

Lemma rewrite_lines_Ok lines outs : rewrite_lines base link lines = Ok outs ↔ Forall2 line_linked lines outs.
Proof.
  revert outs. induction lines as [|line lines IH]; intros outs; cbn [rewrite_lines].
  - split; [by intros [= <-]|]. by intros ->%Forall2_nil_inv_l.
  - split.
    + intros He. apply bind_Ok in He as (o & Ho%rewrite_line_Ok & He).
      apply bind_Ok in He as (os & Hos%IH & [= <-]). by constructor.
    + intros (o & os & Ho%rewrite_line_Ok & Hos%IH & ->)%Forall2_cons_inv_l. by rewrite Ho; cbn; rewrite Hos.
Qed.

(** C27: a playlist is rewritten exactly when it has its header, no line of it
    asks for a protection the player lacks and every URI of it names a public
    address; the result has the same lines, in which each URI (a line of its
    own, or any quoted URI attribute of a tag) is replaced by its link and
    nothing else is touched. *)
Theorem rewrite_playlist_correct (playlist out : str) :
  rewrite_playlist_with base link playlist = Ok out
  ↔ starts_with (st "#EXTM3U") (trim playlist) = true
    ∧ ∃ outs, Forall2 line_linked (split (Z.eqb 10) playlist) outs ∧ out = join [10] outs.
Proof.
  unfold rewrite_playlist_with. destruct (starts_with _ (trim playlist)); simpl; [|by split; [|intros [? _]]].
  split.
  - intros He. apply bind_Ok in He as (outs & ?%rewrite_lines_Ok & [= <-]). eauto.
  - intros (_ & outs & ->%rewrite_lines_Ok & ->). done.
Qed.
End Spec.

(** ** What a token stands for *)

(** What the encodings promise: decoding undoes encoding, and base64url text
    has no full stop. *)
Class TokenCodecLaws `{ListenTogether.Crypto} `{TokenCodec} : Prop := {
  base64_decodes b : base64_url_decode (ListenTogether.base64_url b) = Some b;
  base64_no_dot b : 46 ∉ ListenTogether.base64_url b;
  claims_decode c : claims_from_json (claims_to_json c) = Some c
}.

Section TokenSpec.
Context `{ListenTogether.Crypto} `{TokenCodec} `{Urls}.
Import ListenTogether.

(** An accepted token carries the MAC of its payload under the key, and claims
    for this station that have not expired, of a public URL. *)
Lemma verify_Ok key now token station url :
  verify key now token station = Ok url ↔
  ∃ payload signature claims json,
    split_once 46 token = Some (payload, signature)
    ∧ base64_url_decode signature = Some (hmac_sha256 key (encode payload))
    ∧ base64_url_decode payload = Some json ∧ claims_from_json json = Some claims
    ∧ claim_s claims = station ∧ claim_u claims = url ∧ now < claim_e claims
    ∧ validate_stream_url url = Ok tt.
Proof.
  unfold verify. split.
  - intros He. apply bind_Ok in He as ([payload sig] & Hp%ok_or_Ok & He).
    apply bind_Ok in He as (mac & Hs%ok_or_Ok & He).
    destruct (bool_decide_reflect (hmac_sha256 key (encode payload) = mac)) as [<-|]; [|done]. simpl in He.
    apply bind_Ok in He as (json & Hj%ok_or_Ok & He). apply bind_Ok in He as (claims & Hc%ok_or_Ok & He).
    destruct (bool_decide_reflect (claim_s claims = station)) as [Hst|]; [|done].
    destruct (Z.leb_spec (claim_e claims) now); [done|]. simpl in He.
    apply bind_Ok in He as ([] & Hv%map_err_Ok & [= <-]). eauto 15.
  - intros (payload & sig & claims & json & Hp & Hs & Hj & Hc & <- & <- & He & Hv).
    rewrite Hp. cbn. rewrite Hs. cbn. rewrite bool_decide_true by done. cbn. rewrite Hj. cbn. rewrite Hc. cbn.
    rewrite bool_decide_true by done. rewrite (proj2 (Z.leb_gt _ _)) by done. cbn. by rewrite Hv.
Qed.

(** a link made for a station works for that station and no other, for
    an hour and no longer, and only while its URL is a public one; it then
    stands for exactly the URL it was made for. *)
Theorem resource_token_roundtrip `{!TokenCodecLaws} (key : list byte) (now now' : Z)
    (station station' url url' token : str) (Hsign : sign key now station url = Ok token) :
  verify key now' token station' = Ok url'
  ↔ station' = station ∧ url' = url ∧ now' < now + HLS_RESOURCE_TOKEN_TTL_SECONDS
    ∧ validate_stream_url url = Ok tt.
Proof.
  unfold sign in Hsign. apply bind_Ok in Hsign as (e & He & [= <-]).
  assert (e = now + HLS_RESOURCE_TOKEN_TTL_SECONDS) as ->.
  { unfold add_i64 in He. by destruct (_ && _); simplify_eq. }
  set (payload := base64_url _). set (signature := base64_url (hmac_sha256 key _)).
  assert (split_once 46 (payload ++ st "." ++ signature) = Some (payload, signature)) as Hsplit.
  { apply split_once_Some. split; [done|]. apply base64_no_dot. }
  rewrite verify_Ok. split.
  - intros (p & s & claims & json & Hp & _ & Hj & Hc & <- & <- & Hnow & Hv).
    change (split_once 46 (payload ++ st "." ++ signature) = Some (p, s)) in Hp.
    rewrite Hsplit in Hp. injection Hp as <- <-. unfold payload in Hj. rewrite base64_decodes in Hj. injection Hj as <-.
    rewrite claims_decode in Hc. by injection Hc as <-.
  - intros (-> & -> & Hnow & Hv).
    eexists payload, signature, (mkClaims station url _), _. split; [done|].
    split; [apply base64_decodes|]. split; [apply base64_decodes|]. split; [apply claims_decode|]. done.
Qed.
End TokenSpec.

(** ** Protected lines *)

Section Protection.
Context `{Metadata.Unicode}.

(** Upper-casing keeps every character one of the same width, as it does for
    ASCII. *)
Definition keeps_width (line : str) : Prop :=
  ∀ c, c ∈ line → ∃ d, Metadata.to_uppercase c = [d] ∧ utf8_width d = utf8_width c.

Lemma uppercase_split line a b : keeps_width line → uppercase line = a ++ b →
  ∃ a' b', line = a' ++ b' ∧ str_len a' = str_len a.
Proof.
  intros Hk. revert a. induction line as [|c line IH]; intros a Ha.
  - exists [], []. unfold uppercase in Ha. symmetry in Ha. apply app_eq_nil in Ha as [-> ->]. done.
  - destruct a as [|x a]; [by exists [], (c :: line)|].
    destruct (Hk c) as (d & Hd & Hw); [by left|].
    unfold uppercase in *. rewrite bind_cons, Hd in Ha. simpl in Ha. injection Ha as -> Ha.
    destruct (IH ltac:(intros y Hy; apply Hk; by right) a Ha) as (a' & b' & -> & Hl).
    exists (c :: a'), b'. split; [done|]. rewrite !str_len_cons. lia.
Qed.

Lemma has_unsupported_protection_returns line : keeps_width line →
  returns (has_unsupported_protection line).
Proof.
  intros Hk. unfold has_unsupported_protection.
  destruct (negb _ && negb _); [exact I|]. destruct (contains _ _); [exact I|].
  destruct (split_once_str KEYFORMAT (uppercase line)) as [[before after]|] eqn:Hs; [|exact I].
  apply split_once_str_parts in Hs. rewrite (assoc_L (++)) in Hs.
  destruct (uppercase_split line (before ++ KEYFORMAT) after Hk Hs) as (a & b & -> & Hl).
  rewrite <-str_len_app, <-Hl, split_bytes_app. exact I.
Qed.
End Protection.

(** With the upper case of [ŉ], which is a byte longer, the index the code
    finds in the upper-case line can lie outside the line. *)
Definition long_uppercase : Metadata.Unicode := {|
  Metadata.to_uppercase c := if c =? 329 then [700; 78] else [c];
  Metadata.to_lowercase c := [c];
  Metadata.str_to_lowercase s := s;
  Metadata.nfc s := s;
  Metadata.parse_f64 _ := None
|}.

Example protected_line_panics :
  has_unsupported_protection (H := long_uppercase) (st "#EXT-X-KEY:" ++ [329] ++ st "KEYFORMAT=") = Panic.
Proof. vm_compute. reflexivity. Qed.

(** ** A small instance

    Base64 as one character per byte, and claims as the binary digits of their
    code. *)
Fixpoint digits_of (p : positive) : list byte :=
  match p with
  | xH => []
  | xO p => x00 :: digits_of p
  | xI p => x01 :: digits_of p
  end.

Fixpoint of_digits (d : list byte) : positive :=
  match d with
  | [] => xH
  | x00 :: d => xO (of_digits d)
  | _ :: d => xI (of_digits d)
  end.

Lemma of_digits_of p : of_digits (digits_of p) = p.
Proof. induction p; simpl; congruence. Qed.

Definition example_codec_crypto : ListenTogether.Crypto := {|
  ListenTogether.sha256 := λ l, l;
  ListenTogether.hmac_sha256 := λ k m, k ++ m;
  ListenTogether.hex_encode := λ l, b2z <$> l;
  ListenTogether.base64_url := λ l, (λ b, 256 + b2z b) <$> l |}.

Definition example_codec : TokenCodec := {|
  base64_url_decode s := Some ((λ c, z2b (c - 256)) <$> s);
  claims_to_json c := digits_of (countable.encode (claim_s c, claim_u c, claim_e c));
  claims_from_json d := '(s, u, e) ← countable.decode (of_digits d); Some (mkClaims s u e)
|}.

Lemma example_codec_laws : @TokenCodecLaws example_codec_crypto example_codec.
Proof.
  split.
  - intros b. simpl. f_equal. rewrite <-list_fmap_compose. rewrite <-(list_fmap_id b) at 2.
    apply list_fmap_ext. intros _ x _. unfold compose. rewrite Z.add_simpl_l. apply z2b_b2z.
  - intros b (x & Hx & _)%list_elem_of_fmap. pose proof (b2z_range x). lia.
  - intros [s u e]. simpl. by rewrite of_digits_of, countable.decode_encode.
Qed.

Definition example_token : str :=
  default [] (ok_of (@sign example_codec_crypto example_codec (bs "k") 100 (st "s1") (st "http://a.b/c"))).

Lemma resource_token_roundtrip_witness :
  @verify example_codec_crypto example_codec example_urls (bs "k") 3699 example_token (st "s1") = Ok (st "http://a.b/c")
  ∧ ∀ u, @verify example_codec_crypto example_codec example_urls (bs "k") 3700 example_token (st "s1") ≠ Ok u.
Proof.
  pose proof (λ now', @resource_token_roundtrip example_codec_crypto example_codec example_urls example_codec_laws
    (bs "k") 100 now' (st "s1") (st "s1") (st "http://a.b/c")) as Hrt.
  split.
  - apply (Hrt _ _ example_token); [vm_compute; reflexivity|]. split_and!; try reflexivity.
  - intros u. rewrite (Hrt _ _ example_token); [|vm_compute; reflexivity].
    intros (_ & _ & He & _). vm_compute in He. discriminate.
Defined.

(** A playlist with a key, a nested URI and a comment. *)
Example rewritten_playlist :
  rewrite_playlist_with (H := long_uppercase) (H0 := example_urls) (st "https", st "cdn.example/live.m3u8")
    (λ u, Ok (st "/x?" ++ u))
    (st "#EXTM3U" ++ [10] ++ st "#EXT-X-KEY:METHOD=AES-128,URI=" ++ [34] ++ st "k" ++ [34] ++ [10]
     ++ [10] ++ st "https://b.example/1.aac")
  = Ok (st "#EXTM3U" ++ [10] ++ st "#EXT-X-KEY:METHOD=AES-128,URI=" ++ [34] ++ st "/x?https://cdn.example/k" ++ [34] ++ [10]
     ++ [10] ++ st "/x?https://b.example/1.aac").
Proof. vm_compute. reflexivity. Qed.
