(* ===== verification/RadioProxy.v ===== *)
(** The radio stream proxy (server/src/modules/radio/stream.rs): which URL a
    request for a station may fetch, which headers of the answer it keeps, and
    what the listener gets: the station's audio without its metadata, or a
    playlist whose URIs lead back here. The upstream client is an argument; the
    state of a request is the URLs it has asked that client for. *)

From stdpp Require Import gmap.
From S2P Require Import Prelude Text GoJson Http StreamUrl Icy Hls.
From S2P Require Metadata ListenTogether.

(** ** Headers *)

(** A header value: its bytes, and its text where [to_str] reads it. *)
Record HeaderValue := mkHeader { value_bytes : list byte; to_str : option str }.

Definition from_static (s : string) : HeaderValue := mkHeader (bs s) (Some (st s)).

(** Headers by lower-case name, the first value of each. *)
Abbreviation HeaderMap := (gmap (list Z) HeaderValue).

Definition HLS_CONTENT_TYPE : string := "application/vnd.apple.mpegurl".

(** A media type without its parameters, in lower case. *)
Definition essence (value : str) : str :=
  ascii_lower <$> trim (default [] (head (split (Z.eqb 59) value))).

Definition STREAM_TYPES : list str := [
  st "video/mp2t"; st "application/ogg"; st "application/aac"; st "application/octet-stream";
  st HLS_CONTENT_TYPE; st "application/x-mpegurl"].

Definition is_stream_content_type (value : HeaderValue) : bool :=
  match to_str value with
  | None => false
  | Some text =>
      starts_with (st "audio/") (essence text) || bool_decide (essence text ∈ STREAM_TYPES)
  end.

Definition KEPT_HEADERS : list str := [
  st "cache-control"; st "content-range"; st "accept-ranges"; st "icy-name"; st "icy-genre";
  st "icy-br"; st "icy-url"].

Definition keep_header (from headers : HeaderMap) (name : str) : HeaderMap :=
  match from !! name with
  | Some value => if bool_decide (value_bytes value = []) then headers else <[name := value]> headers
  | None => headers
  end.

Definition copy_stream_headers (from : HeaderMap) (keep_content_length : bool) : HeaderMap :=
  let content_type := match from !! st "content-type" with
    | Some value => if is_stream_content_type value then value else from_static "application/octet-stream"
    | None => from_static "application/octet-stream"
    end in
  let headers :=
    <[st "content-security-policy" := from_static "sandbox"]>
    (<[st "x-content-type-options" := from_static "nosniff"]>
    (<[st "content-type" := content_type]> ∅)) in
  let headers := foldl (keep_header from) headers KEPT_HEADERS in
  if keep_content_length then
    match from !! st "content-length" with
    | Some value => <[st "content-length" := value]> headers
    | None => headers
    end
  else headers.

(** ** Upstream *)

(** A response and all its body's items: chunks, or what failed. *)
Record UpstreamResponse `{Urls} := mkUpstream {
  u_status : Z;
  u_headers : HeaderMap;
  u_url : Url;
  u_body : list (str + list byte)
}.

Definition HLS_TYPES : list str := [
  st HLS_CONTENT_TYPE; st "application/x-mpegurl"; st "audio/mpegurl"; st "audio/x-mpegurl"].

Definition is_hls_content `{Urls} (content_type : option str) (url : Url) : bool :=
  bool_decide (essence (default [] content_type) ∈ HLS_TYPES)
  || bool_decide (is_Some (strip_suffix (st ".m3u8") (ascii_lower <$> url_path url))).

Definition is_hls_playlist `{Urls} (response : UpstreamResponse) : bool :=
  is_hls_content (v ← u_headers response !! st "content-type"; to_str v) (u_url response).

(** ** The proxy *)

Record Station := mkStation { station_id : str; stream_url : str }.

(** What the listener gets. An audio body lists its items in order, and what
    the sink was told while they passed. *)
Inductive Body :=
| TextBody (text : str)
| AudioBody (items : list (str + list byte)) (reports : list (NowPlaying * option Z)).

Record StreamResponse := mkStream { s_status : Z; s_headers : HeaderMap; s_body : Body }.

Definition bad_gateway (message : str) : ApiError := api_error 502 (st "bad_gateway") message.

Definition MAX_HLS_PLAYLIST_BYTES : Z := 1024 * 1024.

(** The body of a playlist, read whole. *)
Fixpoint read_playlist (playlist : list byte) (body : list (str + list byte)) : outcome ApiError (list byte) :=
  match body with
  | [] => Ok playlist
  | inl _ :: _ => Err (bad_gateway (st "failed to read HLS playlist"))
  | inr chunk :: body =>
      let playlist := playlist ++ chunk in
      if MAX_HLS_PLAYLIST_BYTES <? zlen playlist
      then Err (bad_gateway (st "HLS playlist exceeds size limit"))
      else read_playlist playlist body
  end.

(** The audio of a body with metadata. [clocks] holds the clock at each item;
    an item that failed is passed on. *)
Fixpoint strip_metadata (p : IcyParser) (clocks : nat → Z) (body : list (str + list byte))
    : outcome Empty_set (list (str + list byte) * list (NowPlaying * option Z)) :=
  match body with
  | [] => Ok ([], [])
  | inl error :: body =>
      '(items, reports) ← strip_metadata p (λ i, clocks (S i)) body;
      Ok (inl error :: items, reports)
  | inr chunk :: body =>
      '(audio, texts, p) ← feed p chunk;
      '(items, reports) ← strip_metadata p (λ i, clocks (S i)) body;
      Ok (inr audio :: items, omap (parse_icy_metadata (clocks 0%nat)) texts ++ reports)
  end.

Definition icy_metaint (headers : HeaderMap) : option Z :=
  metaint ← (v ← headers !! st "icy-metaint"; text ← to_str v; parse_u64 (trim text));
  if 0 <? metaint then Some metaint else None.

Section Proxy.
Context `{Urls} `{Metadata.Unicode} `{ListenTogether.Crypto} `{TokenCodec}.
Variable key : list byte.
Variable upstream : Url → option HeaderValue → str + UpstreamResponse.

(** What a request has fetched. *)
Abbreviation Fetching := (M (list Url) ApiError).

Definition get_upstream (url : Url) (range : option HeaderValue) : Fetching UpstreamResponse := λ fetched,
  (match upstream url range with
   | inl error => Err (bad_gateway error)
   | inr response => Ok response
   end, fetched ++ [url]).

Definition playlist (now : Z) (response : UpstreamResponse) (proxy_path station : str)
    : outcome ApiError StreamResponse :=
  let headers := <[st "content-type" := from_static HLS_CONTENT_TYPE]>
    (copy_stream_headers (u_headers response) false) in
  bytes ← read_playlist [] (u_body response);
  match rewrite_playlist key now (from_utf8_lossy bytes) (u_url response) proxy_path station with
  | Ok rewritten => Ok (mkStream 200 headers (TextBody rewritten))
  | Err Drm => Err (api_error 415 (st "unsupported_media_type") (show_rewrite_error Drm))
  | Err error => Err (bad_gateway (show_rewrite_error error))
  | Panic => Panic
  | OutOfFuel => OutOfFuel
  end.

Definition audio (clocks : nat → Z) (response : UpstreamResponse) : outcome ApiError StreamResponse :=
  let headers := copy_stream_headers (u_headers response) false in
  '(items, reports) ← match icy_metaint (u_headers response) with
    | None => Ok (u_body response, [])
    | Some metaint => infallible (strip_metadata (new_parser metaint) clocks (u_body response))
    end;
  Ok (mkStream (u_status response) headers (AudioBody items reports)).

(** The URL a request is for: the station's own, or one its token signs. *)
Definition target (now : Z) (query : GoQuery) (station : Station) : outcome ApiError str :=
  if bool_decide (query_get query (st "resource") = []) then Ok (stream_url station)
  else map_err bad_request (verify key now (query_get query (st "resource")) (station_id station)).

Definition stream (now : Z) (clocks : nat → Z) (path : str) (query : GoQuery)
    (range : option HeaderValue) (station : Station) : Fetching StreamResponse :=
  match values query (st "url") with
  | Some _ => fail (bad_request INVALID_TOKEN)
  | None =>
      url ← lift (target now query station);
      _ ← lift (map_err bad_request (validate_stream_url url));
      url ← match url_parse url with
        | inr url => mret url
        | inl error => fail (bad_request (parse_error_text error))
        end;
      response ← get_upstream url range;
      if negb ((200 <=? u_status response) && (u_status response <? 300))
      then fail (bad_gateway (st "stream status " ++ show (u_status response)))
      else if is_hls_playlist response then lift (playlist now response path (station_id station))
      else lift (audio clocks response)
  end.
End Proxy.

(** ** What a request may fetch *)

Section Safety.
Context `{Urls} `{Metadata.Unicode} `{ListenTogether.Crypto} `{TokenCodec}.
Variable key : list byte.
Variable upstream : Url → option HeaderValue → str + UpstreamResponse.

(** The URL is the station's own, or one this server signed for it. *)
Definition asked_for (now : Z) (query : GoQuery) (station : Station) (u : Url) : Prop :=
  ∃ raw, url_parse raw = inr u
    ∧ ((query_get query (st "resource") = [] ∧ raw = stream_url station)
       ∨ (query_get query (st "resource") ≠ []
          ∧ verify key now (query_get query (st "resource")) (station_id station) = Ok raw)).

Lemma target_Ok now query station raw : target key now query station = Ok raw ↔
  (query_get query (st "resource") = [] ∧ raw = stream_url station)
  ∨ (query_get query (st "resource") ≠ []
     ∧ verify key now (query_get query (st "resource")) (station_id station) = Ok raw).
Proof.
  unfold target. case_bool_decide as He.
  - split; [intros [= <-]; by left|]. intros [[_ ->]|[? _]]; done.
  - rewrite map_err_Ok. split; [by right|]. by intros [[? _]|[_ ?]].
Qed.

(** C25: a request for a station makes the server fetch at most one URL, which
    is public and is either the station's own stream or a resource this server
    signed for that station less than an hour ago; a request that names a URL
    itself fetches nothing. *)
Theorem stream_fetches_public (now : Z) (clocks : nat → Z) (path : str) (query : GoQuery)
    (range : option HeaderValue) (station : Station) (fetched : list Url) :
  let after := (stream key upstream now clocks path query range station fetched).2 in
  after = fetched
  ∨ ∃ u, after = fetched ++ [u] ∧ public_url u ∧ asked_for now query station u
         ∧ values query (st "url") = None.
Proof.
  cbv zeta. unfold stream. destruct (values query (st "url")) as [|] eqn:Hq; [by left|].
  unfold mbind, M_bind, lift. destruct (target key now query station) as [raw|e| |] eqn:Ht; [|by left..].
  destruct (validate_stream_url raw) as [[]|e| |] eqn:Hv; [|by left..]. simpl.
  apply validate_ok in Hv as (u & Hu & Hp). rewrite Hu. simpl. right. exists u.
  split; [|split; [done|split; [|done]]].
  - unfold get_upstream. destruct (upstream u range); [done|]. case_match; [done|]. by case_match.
  - exists raw. split; [done|]. by apply target_Ok.
Qed.

(** ** What the answer can be read as *)

Lemma foldl_keep_header from names headers k v :
  foldl (keep_header from) headers names !! k = Some v →
  k ∈ names ∨ headers !! k = Some v.
Proof.
  revert headers. induction names as [|n names IH]; intros headers Hk; [by right|].
  cbn [foldl] in Hk. apply IH in Hk as [?|Hk]; [left; by right|].
  unfold keep_header in Hk. destruct (from !! n) as [value|]; [|by right].
  case_bool_decide; [by right|]. apply lookup_insert_Some in Hk as [[<- _]|[_ ?]]; [left; by left|by right].
Qed.

Lemma foldl_keep_other from names headers k :
  k ∉ names → foldl (keep_header from) headers names !! k = headers !! k.
Proof.
  revert headers. induction names as [|n names IH]; intros headers Hk; [done|].
  apply not_elem_of_cons in Hk as [Hn Hk]. cbn [foldl]. rewrite IH by done.
  unfold keep_header. destruct (from !! n); [|done]. case_bool_decide; [done|]. by rewrite lookup_insert_ne.
Qed.

Lemma copy_stream_headers_fixed from keep :
  (∃ v, copy_stream_headers from keep !! st "content-type" = Some v ∧ is_stream_content_type v = true)
  ∧ copy_stream_headers from keep !! st "x-content-type-options" = Some (from_static "nosniff")
  ∧ copy_stream_headers from keep !! st "content-security-policy" = Some (from_static "sandbox").
Proof.
  unfold copy_stream_headers. set (ct := match from !! st "content-type" with Some _ => _ | None => _ end).
  assert (is_stream_content_type ct = true) as Hct.
  { unfold ct. destruct (from !! st "content-type") as [v|]; [|by vm_compute].
    destruct (is_stream_content_type v) eqn:?; [done|by vm_compute]. }
  clearbody ct.
  assert (∀ k hs, k ∈ [st "content-type"; st "x-content-type-options"; st "content-security-policy"] →
    (if keep then match from !! st "content-length" with
      | Some value => <[st "content-length" := value]> (foldl (keep_header from) hs KEPT_HEADERS)
      | None => foldl (keep_header from) hs KEPT_HEADERS end
     else foldl (keep_header from) hs KEPT_HEADERS) !! k = hs !! k) as Hk.
  { intros k hs Hin.
    assert ((k ∉ KEPT_HEADERS) ∧ st "content-length" ≠ k) as [Hn Hl].
    { rewrite !elem_of_cons in Hin. destruct Hin as [->|[->|[->|Hin]]];
        [| | |by apply elem_of_nil in Hin];
        (split; [apply (bool_decide_unpack _); vm_compute; exact I|by vm_compute]). }
    assert (foldl (keep_header from) hs KEPT_HEADERS !! k = hs !! k) as Hf by by apply foldl_keep_other.
    destruct keep; [|done]. destruct (from !! st "content-length"); [|done]. by rewrite lookup_insert_ne. }
  rewrite !Hk by set_solver. split_and!.
  - exists ct. split; [|done]. rewrite !lookup_insert_ne by (by vm_compute). apply lookup_insert_eq.
  - rewrite lookup_insert_ne by (by vm_compute). apply lookup_insert_eq.
  - apply lookup_insert_eq.
Qed.

Lemma stream_Ok now clocks path query range station fetched r :
  (stream key upstream now clocks path query range station fetched).1 = Ok r →
  ∃ u response, upstream u range = inr response ∧ 200 <= u_status response < 300
    ∧ ((is_hls_playlist response = true ∧ playlist key now response path (station_id station) = Ok r)
       ∨ (is_hls_playlist response = false ∧ audio clocks response = Ok r)).
Proof.
  unfold stream. destruct (values query (st "url")); [done|].
  unfold mbind, M_bind, lift. destruct (target _ _ _ _) as [raw|?| |]; [|done..].
  destruct (validate_stream_url raw) as [[]|?| |]; [|done..]. simpl.
  destruct (url_parse raw) as [?|u]; [done|]. simpl. unfold get_upstream.
  destruct (upstream u range) as [?|response] eqn:Hu; [done|]. simpl.
  destruct (negb _) eqn:Hs; [done|]. apply negb_false_iff in Hs. bool_to_prop.
  destruct (is_hls_playlist response) eqn:Hh; simpl; intros Hr; exists u, response;
    (split; [done|]; split; [lia|]); [by left|by right].
Qed.

Lemma playlist_Ok now response path station r : playlist key now response path station = Ok r →
  ∃ bytes text, read_playlist [] (u_body response) = Ok bytes
    ∧ rewrite_playlist key now (from_utf8_lossy bytes) (u_url response) path station = Ok text
    ∧ r = mkStream 200 (<[st "content-type" := from_static HLS_CONTENT_TYPE]>
            (copy_stream_headers (u_headers response) false)) (TextBody text).
Proof.
  unfold playlist. intros He. apply bind_Ok in He as (bytes & Hb & He).
  destruct (rewrite_playlist _ _ _ _ _ _) as [text|[]| |] eqn:Ht; simplify_eq. eauto.
Qed.

Lemma audio_Ok clocks response r : audio clocks response = Ok r →
  s_headers r = copy_stream_headers (u_headers response) false ∧ s_status r = u_status response
  ∧ ∃ items reports, s_body r = AudioBody items reports.
Proof. unfold audio. intros He. apply bind_Ok in He as ([items reports] & _ & [= <-]). simpl. eauto. Qed.

(** an answer on this server's origin is never a page: whatever the
    station's server calls its content, the listener gets it as audio, a
    playlist or plain bytes, with sniffing off and sandboxed; a playlist is a
    successful answer of its own. *)
Theorem served_as_media (now : Z) (clocks : nat → Z) (path : str) (query : GoQuery)
    (range : option HeaderValue) (station : Station) (fetched : list Url) (r : StreamResponse)
    (Hr : (stream key upstream now clocks path query range station fetched).1 = Ok r) :
  (∃ v, s_headers r !! st "content-type" = Some v ∧ is_stream_content_type v = true)
  ∧ s_headers r !! st "x-content-type-options" = Some (from_static "nosniff")
  ∧ s_headers r !! st "content-security-policy" = Some (from_static "sandbox")
  ∧ 200 <= s_status r < 300.
Proof.
  apply stream_Ok in Hr as (u & response & _ & Hs & [[_ Hr]|[_ Hr]]).
  - apply playlist_Ok in Hr as (bytes & text & _ & _ & ->). simpl.
    destruct (copy_stream_headers_fixed (u_headers response) false) as (_ & Hn & Hc).
    rewrite lookup_insert_eq, !lookup_insert_ne by (by vm_compute). split_and!; [|done..].
    eexists. split; [done|]. by vm_compute.
  - apply audio_Ok in Hr as (-> & -> & _).
    destruct (copy_stream_headers_fixed (u_headers response) false) as (? & ? & ?). done.
Qed.
End Safety.

(** ** The audio of a station *)

Lemma strip_metadata_feed p now chunks audio reports p' :
  feed_all p chunks = Ok (audio, reports, p') →
  ∃ pieces, strip_metadata p (λ _, now) (inr <$> chunks) = Ok (inr <$> pieces, omap (parse_icy_metadata now) reports)
    ∧ concat pieces = audio.
Proof.
  revert p audio reports. induction chunks as [|chunk chunks IH]; intros p audio reports He; cbn [feed_all] in He.
  - simplify_eq. by exists [].
  - apply bind_Ok in He as ([[a r] q] & Hf & He). apply bind_Ok in He as ([[a' r'] q'] & Ha & [= <- <- <-]).
    destruct (IH q a' r' Ha) as (pieces & Hs & <-).
    exists (a :: pieces). split; [|done]. rewrite fmap_cons. cbn [strip_metadata]. rewrite Hf.
    cbn [mbind outcome_bind]. rewrite Hs. cbn [mbind outcome_bind]. by rewrite omap_app.
Qed.

(** C26: a listener of a station with metadata gets the station's audio, all of
    it and nothing else, however the stream is cut into chunks, and each title
    the station sends is reported once, in order. *)
Theorem station_audio `{Urls} (now m : Z) (fs : list Frame) (last : list byte) (chunks : list (list byte))
    (response : UpstreamResponse)
    (Hm : icy_metaint (u_headers response) = Some m)
    (Hbody : u_body response = inr <$> chunks)
    (Hfs : Forall (frame_ok m) fs) (Hlast : zlen last <= m) (Hchunks : concat chunks = wire fs last) :
  ∃ pieces, concat pieces = concat (frame_audio <$> fs) ++ last
    ∧ audio (λ _, now) response
      = Ok (mkStream (u_status response) (copy_stream_headers (u_headers response) false)
             (AudioBody (inr <$> pieces) (omap (parse_icy_metadata now) (reported fs)))).
Proof.
  assert (0 < m) as Hpos.
  { unfold icy_metaint in Hm. apply bind_Some in Hm as (n & _ & Hn).
    destruct (Z.ltb_spec 0 n); by simplify_eq. }
  destruct (strip_metadata_feed _ now _ _ _ _ (icy_stripped m fs last chunks Hpos Hfs Hlast Hchunks))
    as (pieces & Hs & Hp).
  exists pieces. split; [done|]. unfold audio. by rewrite Hm, Hbody, Hs.
Qed.

(** ** A station that calls its stream a page *)

Definition example_station : Station := mkStation (st "s1") (st "http://radio.example/live").

Definition example_response : @UpstreamResponse example_urls := @mkUpstream example_urls 200
  (<[st "content-type" := from_static "text/html"]> (<[st "icy-metaint" := from_static "4"]> ∅))
  (st "http", st "radio.example/live")
  [inr (bs "ab"); inr (bs "cd" ++ [x02] ++ bs "Stream");
   inr (bs "Title='Artist - Title';" ++ [x00; x00; x00]); inr (bs "efgh" ++ [x00]); inr (bs "ijk")].

Definition example_answer : StreamResponse := mkStream 200
  (copy_stream_headers (@u_headers example_urls example_response) false)
  (AudioBody [inr (bs "ab"); inr (bs "cd"); inr []; inr (bs "efgh"); inr (bs "ijk")]
     [(mkNowPlaying (st "Title") (st "Artist") (st "Artist - Title") (Some (st "1970-01-01T00:00:07Z")) false,
       Some (7 * NANOS))]).

Lemma served_as_media_witness :
  (@stream example_urls long_uppercase example_codec_crypto example_codec (bs "k") (λ _ _, inr example_response)
     0 (λ _, 7 * NANOS) (st "/stream") [] None example_station []).1 = Ok example_answer
  ∧ s_headers example_answer !! st "content-type" = Some (from_static "application/octet-stream")
  ∧ 200 <= s_status example_answer < 300.
Proof.
  assert ((@stream example_urls long_uppercase example_codec_crypto example_codec (bs "k") (λ _ _, inr example_response)
     0 (λ _, 7 * NANOS) (st "/stream") [] None example_station []).1 = Ok example_answer) as Hr
    by (vm_compute; reflexivity).
  split; [exact Hr|]. split; [vm_compute; reflexivity|].
  exact (proj2 (proj2 (proj2 (served_as_media _ _ _ _ _ _ _ _ _ _ Hr)))).
Defined.

Lemma station_audio_witness : ∃ pieces, concat pieces = bs "abcdefghijk"
  ∧ audio (H := example_urls) (λ _, 7 * NANOS) example_response
    = Ok (mkStream 200 (copy_stream_headers (@u_headers example_urls example_response) false)
            (AudioBody (inr <$> pieces) (omap (parse_icy_metadata (7 * NANOS)) (reported example_frames)))).
Proof.
  apply (station_audio (H := example_urls) (7 * NANOS) 4 example_frames (bs "ijk")
    [bs "ab"; bs "cd" ++ [x02] ++ bs "Stream"; bs "Title='Artist - Title';" ++ [x00; x00; x00];
     bs "efgh" ++ [x00]; bs "ijk"]).
  - vm_compute. reflexivity.
  - reflexivity.
  - repeat constructor; [exists 2|exists 0]; (split; [lia|reflexivity]).
  - vm_compute. discriminate.
  - reflexivity.
Defined.
