(* ===== verification/ExternalTokens.v ===== *)
(** External Track ids (server/src/modules/external_source/token.rs): what the
    server's own search found, signed, so that nothing else is ever resolved or
    fetched for a client. *)

From S2P Require Import Prelude Text StreamUrl Hls.
From S2P Require ListenTogether.

Definition MAX_ID_LENGTH : Z := 2048.
Definition INVALID_ID : str := st "invalid External Track id".

Record TrackRef := mkTrackRef { t_url : str; t_extractor : str; t_artwork_url : option str }.

Definition new_track_ref (url extractor : str) : TrackRef := mkTrackRef url extractor None.

(** The JSON serde writes and reads for a track reference. *)
Class TrackCodec := {
  track_to_json : TrackRef → list byte;
  track_from_json : list byte → option TrackRef
}.

Definition is_alphanumeric (c : Z) : bool := in_range 48 57 c || in_range 65 90 c || in_range 97 122 c.

(** The bytes of base64url text and of the full stop between its two parts. *)
Definition id_byte (c : Z) : bool := is_alphanumeric c || (c =? 45) || (c =? 95) || (c =? 46).

Definition bytes_all (p : Z → bool) (s : str) : bool := forallb p (b2z <$> encode s).

(** [is_extractor_key]: yt-dlp's extractors are identifiers. *)
Definition is_extractor_key (value : str) : bool :=
  negb (bool_decide (value = [])) && (str_len value <=? 64)
  && bytes_all (λ c, is_alphanumeric c || (c =? 95)) value.

Section Tokens.
Context `{Urls}.

Definition is_web_url (value : str) : bool :=
  match url_parse value with
  | inr url => bool_decide (scheme url = st "http") || bool_decide (scheme url = st "https")
  | inl _ => false
  end.

Definition is_artwork_url (value : str) : bool :=
  match url_parse value with
  | inr url => bool_decide (scheme url = st "https")
  | inl _ => false
  end && match validate_stream_url value with Ok _ => true | _ => false end.

(** What [verify] asks of a track once its signature is right. *)
Definition acceptable (track : TrackRef) : bool :=
  is_extractor_key (t_extractor track) && is_web_url (t_url track)
  && match t_artwork_url track with Some url => is_artwork_url url | None => true end.

Context `{ListenTogether.Crypto} `{TokenCodec} `{TrackCodec}.
Import ListenTogether.

(** [fingerprint]: what logs and HLS tokens name instead of the id. *)
Definition fingerprint (id : str) : str := hex_encode (take 8 (sha256 (encode id))).

(** [TokenSigner::sign]. *)
Definition sign_track (key : list byte) (track : TrackRef) : option str :=
  let payload := base64_url (track_to_json track) in
  let id := payload ++ st "." ++ base64_url (hmac_sha256 key (encode payload)) in
  if str_len id <=? MAX_ID_LENGTH then Some id else None.

(** [TokenSigner::verify]. *)
Definition verify_track (key : list byte) (id : str) : outcome str TrackRef :=
  if (MAX_ID_LENGTH <? str_len id) || negb (bytes_all id_byte id) then Err INVALID_ID
  else
    '(payload, signature) ← ok_or (split_once 46 id) INVALID_ID;
    signature ← ok_or (base64_url_decode signature) INVALID_ID;
    if negb (bool_decide (hmac_sha256 key (encode payload) = signature)) then Err INVALID_ID
    else
      payload ← ok_or (base64_url_decode payload) INVALID_ID;
      track ← ok_or (track_from_json payload) INVALID_ID;
      if negb (acceptable track) then Err INVALID_ID else Ok track.

(** ** What an id stands for *)

Definition base64_char (c : Z) : bool := is_alphanumeric c || (c =? 45) || (c =? 95).

(** Base64url is made of its alphabet, and decoding undoes encoding. *)
Class TrackCodecLaws : Prop := {
  base64_undone b : base64_url_decode (base64_url b) = Some b;
  base64_alphabet b : forallb base64_char (base64_url b) = true;
  track_decodes t : track_from_json (track_to_json t) = Some t
}.

Lemma verify_track_Ok key id track : verify_track key id = Ok track ↔
  str_len id <= MAX_ID_LENGTH ∧ bytes_all id_byte id = true
  ∧ ∃ payload signature json,
    split_once 46 id = Some (payload, signature)
    ∧ base64_url_decode signature = Some (hmac_sha256 key (encode payload))
    ∧ base64_url_decode payload = Some json ∧ track_from_json json = Some track
    ∧ acceptable track = true.
Proof.
  unfold verify_track. destruct (Z.ltb_spec MAX_ID_LENGTH (str_len id)); simpl; [split; [done|lia]|].
  destruct (bytes_all id_byte id); simpl; [|split; [done|by intros (_ & ? & _)]]. split.
  - intros He. split; [lia|]. split; [done|].
    apply bind_Ok in He as ([payload sig] & Hp%ok_or_Ok & He).
    apply bind_Ok in He as (mac & Hs%ok_or_Ok & He).
    destruct (bool_decide_reflect (hmac_sha256 key (encode payload) = mac)) as [<-|]; [|done]. simpl in He.
    apply bind_Ok in He as (json & Hj%ok_or_Ok & He). apply bind_Ok in He as (t & Ht%ok_or_Ok & He).
    destruct (acceptable t) eqn:Ha; [|done]. injection He as <-. eauto 10.
  - intros (_ & _ & payload & sig & json & Hp & Hs & Hj & Ht & Ha).
    rewrite Hp. cbn. rewrite Hs. cbn. rewrite bool_decide_true by done. cbn. rewrite Hj. cbn. rewrite Ht. cbn.
    by rewrite Ha.
Qed.

Lemma ascii_encode s p : (∀ c, p c = true → 0 <= c < 128) → forallb p s = true →
  b2z <$> encode s = s.
Proof.
  intros Hp. induction s as [|c s IH]; [done|]. intros [Hc Hs]%andb_true_iff.
  pose proof (Hp c Hc). change (encode (c :: s)) with (encode_char c ++ encode s). rewrite fmap_app, IH by done.
  assert (encode_char c = [z2b c]) as ->.
  { unfold encode_char. by rewrite (proj2 (Z.ltb_lt c 128)) by lia. }
  simpl. by rewrite b2z_small by lia.
Qed.

Lemma base64_char_range c : base64_char c = true → 0 <= c < 128 ∧ c ≠ 46.
Proof.
  unfold base64_char, is_alphanumeric, in_range. rewrite !orb_true_iff, !andb_true_iff, !Z.leb_le, !Z.eqb_eq. lia.
Qed.

Lemma base64_not_dot b `{!TrackCodecLaws} : 46 ∉ base64_url b.
Proof.
  intros Hin%list_elem_of_In. pose proof (base64_alphabet b) as Hb.
  rewrite forallb_forall in Hb. apply Hb in Hin. by apply base64_char_range in Hin as [_ ?].
Qed.

Lemma base64_id_bytes b `{!TrackCodecLaws} : forallb id_byte (base64_url b) = true.
Proof.
  apply forallb_forall. intros c Hc. pose proof (base64_alphabet b) as Ha.
  rewrite forallb_forall in Ha. apply Ha in Hc. unfold base64_char in Hc. unfold id_byte. by rewrite Hc.
Qed.

Lemma id_byte_range c : id_byte c = true → 0 <= c < 128.
Proof.
  unfold id_byte, is_alphanumeric, in_range.
  rewrite !orb_true_iff, !andb_true_iff, !Z.leb_le, !Z.eqb_eq. lia.
Qed.

(** an id the server issued stands for the track it was issued for and no
    other, as long as that track has an extractor's name, a web page and, if
    any, a public HTTPS cover; and no id is issued that would not be read. *)
Theorem track_id_roundtrip `{!TrackCodecLaws} (key : list byte) (track track' : TrackRef) (id : str)
    (Hsign : sign_track key track = Some id) :
  verify_track key id = Ok track' ↔ track' = track ∧ acceptable track = true.
Proof.
  unfold sign_track in Hsign. set (payload := base64_url _) in *. set (mac := base64_url (hmac_sha256 key _)) in *.
  destruct (Z.leb_spec (str_len (payload ++ st "." ++ mac)) MAX_ID_LENGTH) as [Hlen|]; [|done].
  injection Hsign as <-.
  assert (split_once 46 (payload ++ st "." ++ mac) = Some (payload, mac)) as Hsplit.
  { apply split_once_Some. split; [done|]. by apply base64_not_dot. }
  assert (bytes_all id_byte (payload ++ st "." ++ mac) = true) as Hbytes.
  { assert (forallb id_byte (payload ++ st "." ++ mac) = true) as Hb.
    { rewrite !forallb_app. change (forallb id_byte (st ".")) with true.
      unfold payload, mac. by rewrite !base64_id_bytes. }
    unfold bytes_all. by rewrite (ascii_encode _ id_byte id_byte_range). }
  rewrite verify_track_Ok. split.
  - intros (_ & _ & p & s & json & Hp & _ & Hj & Ht & Ha).
    change (split_once 46 (payload ++ st "." ++ mac) = Some (p, s)) in Hp. rewrite Hsplit in Hp.
    injection Hp as <- <-. unfold payload in Hj. rewrite base64_undone in Hj. injection Hj as <-.
    rewrite track_decodes in Ht. by injection Ht as <-.
  - intros [-> Ha]. split; [done|]. split; [done|]. exists payload, mac, (track_to_json track).
    split; [done|]. split; [apply base64_undone|]. split; [apply base64_undone|]. split; [apply track_decodes|done].
Qed.
End Tokens.

(** ** A small instance

    Two letters per byte, and a track as the binary digits of its code. *)
Definition letters (b : byte) : str := [97 + b2z b / 16; 97 + b2z b mod 16].

Fixpoint unletters (s : str) : option (list byte) :=
  match s with
  | [] => Some []
  | a :: b :: s => (z2b ((a - 97) * 16 + (b - 97)) ::.) <$> unletters s
  | [_] => None
  end.

Definition letters_crypto : ListenTogether.Crypto := {|
  ListenTogether.sha256 := λ l, l;
  ListenTogether.hmac_sha256 := λ k m, k;
  ListenTogether.hex_encode := λ l, l ≫= letters;
  ListenTogether.base64_url := λ l, l ≫= letters |}.

Definition letters_codec : TokenCodec := {|
  base64_url_decode := unletters;
  claims_to_json c := digits_of (countable.encode (claim_s c, claim_u c, claim_e c));
  claims_from_json d := '(s, u, e) ← countable.decode (of_digits d); Some (mkClaims s u e)
|}.

Definition example_track_codec : TrackCodec := {|
  track_to_json t := digits_of (countable.encode (t_url t, t_extractor t, t_artwork_url t));
  track_from_json d := '(u, e, a) ← countable.decode (of_digits d); Some (mkTrackRef u e a)
|}.

Lemma letters_undone b : unletters (b ≫= letters) = Some b.
Proof.
  induction b as [|x b IH]; [done|]. rewrite bind_cons. cbn [letters app unletters]. rewrite IH. simpl.
  do 2 f_equal. pose proof (b2z_range x).
  replace ((97 + b2z x / 16 - 97) * 16 + (97 + b2z x mod 16 - 97)) with (b2z x); [apply z2b_b2z|].
  pose proof (Z.div_mod (b2z x) 16). lia.
Qed.

Lemma letters_laws : @TrackCodecLaws letters_crypto letters_codec example_track_codec.
Proof.
  split.
  - apply letters_undone.
  - intros b. apply forallb_forall. intros c Hc%list_elem_of_In.
    apply list_elem_of_bind in Hc as (x & Hc & _). pose proof (b2z_range x).
    unfold base64_char, is_alphanumeric, in_range.
    rewrite !orb_true_iff, !andb_true_iff, !Z.leb_le, !Z.eqb_eq.
    assert (0 <= b2z x / 16 < 16) by (split; [apply Z.div_pos; lia|apply Z.div_lt_upper_bound; lia]).
    pose proof (Z.mod_pos_bound (b2z x) 16). unfold letters in Hc. set_unfold in Hc. lia.
  - intros [u e a]. simpl. by rewrite of_digits_of, countable.decode_encode.
Qed.

Definition example_track : TrackRef := mkTrackRef (st "http://a.b") (st "Yt") None.

Definition example_id : str := default [] (@sign_track letters_crypto example_track_codec (bs "k") example_track).

Lemma track_id_roundtrip_witness :
  @verify_track example_urls letters_crypto letters_codec example_track_codec (bs "k") example_id = Ok example_track.
Proof.
  apply (@track_id_roundtrip example_urls letters_crypto letters_codec example_track_codec letters_laws
    (bs "k") example_track); [vm_compute; reflexivity|]. split; reflexivity.
Defined.
