(* ===== verification/YtDlp.v ===== *)
(** yt-dlp as the External Source runs it
    (server/src/modules/external_source/yt_dlp.rs): the arguments it gets, how
    much of its output is read, and what is believed of what it prints. The
    process itself is an argument: what it would write, and how it ends. *)

From S2P Require Import Prelude Text Float64 StreamUrl ExternalTokens.
From S2P Require Import Values.
From Stdlib Require Import Floats.SpecFloat.

Inductive ExternalError :=
| Disabled
| BadRequest (message : str)
| Unplayable (message : str)
| ArtworkMissing
| Failed (message : str)
| Unavailable (message : str)
| Timeout (message : str).

Definition MAX_SEARCH_RESULTS : Z := 20.
Definition SEARCH_OUTPUT_LIMIT_BYTES : Z := 4 * 2 ^ 20.
Definition RESOLVE_OUTPUT_LIMIT_BYTES : Z := 8 * 2 ^ 20.
Definition ERROR_OUTPUT_LIMIT_BYTES : Z := 64 * 2 ^ 10.
Definition ERROR_MESSAGE_LIMIT_CHARS : nat := 300.
Definition MIN_CHUNK_SIZE_BYTES : Z := 256 * 2 ^ 10.
Definition ARTWORK_MIN_WIDTH : Z := 300.
Definition ARTWORK_MAX_WIDTH : Z := 1280.
Definition ARTWORK_URL_MAX_CHARS : Z := 1024.
Definition FORMAT_SELECTOR : str :=
  st "bestaudio[protocol^=http][protocol!*=dash]/bestaudio[protocol*=m3u8]/best[vcodec=none]".

Record SearchItem := mkItem {
  webpage_url : str;
  extractor : str;
  i_title : str;
  artist_name : option str;
  duration_ms : option Z;
  artwork_url : option str
}.

Record ResolvedFormat := mkFormat {
  f_url : str;
  f_hls : bool;
  f_headers : list (str * str);
  f_chunk_size : option Z
}.

(** ** Arguments *)

Definition extractor_args_flags (extractor_args : list str) : list str :=
  extractor_args ≫= λ item, [st "--extractor-args"; item].

Definition search_args (prefix query : str) (limit : Z) (extractor_args : list str) : list str :=
  [st "--ignore-config"; st "--no-warnings"; st "--flat-playlist"; st "--dump-json";
   st "--socket-timeout"; st "15"]
  ++ extractor_args_flags extractor_args
  ++ [st "--"; prefix ++ show limit ++ st ":" ++ query].

Definition resolve_args (url extractor : str) (extractor_args : list str) : list str :=
  [st "--ignore-config"; st "--no-warnings"; st "--no-playlist"; st "--dump-json";
   st "--use-extractors"; extractor; st "-f"; FORMAT_SELECTOR]
  ++ extractor_args_flags extractor_args
  ++ [st "--"; url].

(** ** Output *)

(** What a pipe delivers: the chunks of its reads, [None] for a failed one. An
    empty chunk is the end. *)
Fixpoint read_capped (limit : Z) (drain : bool) (kept : list byte) (truncated : bool)
    (reads : list (option (list byte))) : list byte * bool :=
  match reads with
  | [] | None :: _ | Some [] :: _ => (kept, truncated)
  | Some chunk :: reads =>
      let room := Z.max 0 (limit - zlen kept) in
      let more := room <? zlen chunk in
      if more && negb drain then (kept, true)
      else read_capped limit drain (kept ++ take (Z.to_nat (Z.min (zlen chunk) room)) chunk)
             (truncated || more) reads
  end.

Definition last_error_line (stderr : list byte) : option str :=
  line ← find (starts_with (st "ERROR:")) (trim <$> reverse (lines (from_utf8_lossy stderr)));
  Some (take ERROR_MESSAGE_LIMIT_CHARS line).

(** A run of the process, from waiting for a turn to its exit. *)
Record ProcessRun := mkRun {
  turn_error : option str;      (* the semaphore was closed *)
  spawn_error : option str;
  stdout : list (option (list byte));
  stderr : list (option (list byte));
  exit : str + (bool * str)     (* failed to wait; or success and the status' text *)
}.

(** [YtDlp::run]; [None] is a run the time limit, [limit_text], cut short. *)
Definition run (limit_text : str) (process : option ProcessRun) (output_limit : Z)
    : outcome ExternalError (list byte) :=
  match process with
  | None => Err (Timeout (st "yt-dlp did not finish within " ++ limit_text ++ st " s"))
  | Some p =>
      match turn_error p with
      | Some error => Err (Failed error)
      | None =>
      match spawn_error p with
      | Some error => Err (Unavailable (st "yt-dlp could not be started: " ++ error))
      | None =>
      let '(output, truncated) := read_capped output_limit false [] false (stdout p) in
      if (truncated : bool) then Err (Failed (st "yt-dlp output exceeds the size limit"))
      else
        let '(errors, _) := read_capped ERROR_OUTPUT_LIMIT_BYTES true [] false (stderr p) in
        match exit p with
        | inl error => Err (Failed (st "yt-dlp failed: " ++ error))
        | inr (false, status) => Err (Failed (default (st "yt-dlp " ++ status) (last_error_line errors)))
        | inr (true, _) => Ok output
        end
      end
      end
  end.

(** ** What it printed *)

(** serde_json on one text, and the entries of an object. *)
Class JsonText `{SerdeJson} := {
  from_str : str → option Value;
  as_object : Value → option (list (str * Value))
}.

(** [f64::round]: half away from zero. *)
Definition fround (x : f64) : f64 :=
  match x with
  | S754_finite s m e =>
      if e <? 0 then
        let n := (Z.pos m + 2 ^ (- e - 1)) / 2 ^ (- e) in
        binary_normalize prec emax (if s then - n else n) 0 s
      else x
  | _ => x
  end.

(** [Iterator::min_by_key]: the first of the least. *)
Fixpoint min_by_key (l : list (str * Z)) : option (str * Z) :=
  match l with
  | [] => None
  | x :: l => match min_by_key l with
      | Some y => if y.2 <? x.2 then Some y else Some x
      | None => Some x
      end
  end.

(** [Iterator::max_by_key]: the last of the greatest. *)
Fixpoint max_by_key (l : list (str * Z)) : option (str * Z) :=
  match l with
  | [] => None
  | x :: l => match max_by_key l with
      | Some y => if y.2 <? x.2 then Some x else Some y
      | None => Some x
      end
  end.

Section Parsing.
Context `{SerdeJson} `{!JsonText} `{Urls}.

(** [json_lines]: every line that is not blank is an object. *)
Fixpoint parse_lines (ls : list str) : outcome ExternalError (list Value) :=
  match ls with
  | [] => Ok []
  | line :: ls =>
      if bool_decide (trim line = []) then parse_lines ls
      else
        value ← match from_str line with
          | Some value => if is_object value then Ok value
                          else Err (Failed (st "yt-dlp printed output that is not JSON"))
          | None => Err (Failed (st "yt-dlp printed output that is not JSON"))
          end;
        values ← parse_lines ls;
        Ok (value :: values)
  end.

Definition json_lines (output : list byte) : outcome ExternalError (list Value) :=
  parse_lines (lines (from_utf8_lossy output)).

Definition text (value : Value) (key : str) : option str :=
  v ← field key value;
  s ← Values.as_str v;
  if bool_decide (trim s = []) then None else Some (trim s).

(** [Option::or_else]. *)
Definition or_else {A} (a b : option A) : option A := match a with Some _ => a | None => b end.

Definition usable (url : str) : bool := (str_len url <=? ARTWORK_URL_MAX_CHARS) && is_artwork_url url.

Definition only {A} (p : A → bool) (o : option A) : option A :=
  x ← o; if p x then Some x else None.

Definition candidate (thumbnail : Value) : option (str * option Z) :=
  url ← only usable (text thumbnail (st "url"));
  Some (url, only (Z.ltb 0) (v ← field (st "width") thumbnail; as_u64 v)).

Definition candidates (entry : Value) : list (str * option Z) :=
  omap candidate (default [] (v ← field (st "thumbnails") entry; as_array v)).

Definition sized (cs : list (str * option Z)) : list (str * Z) :=
  omap (λ c, width ← c.2; Some (c.1, width)) cs.

Definition is_medium (c : str * Z) : bool := in_range ARTWORK_MIN_WIDTH ARTWORK_MAX_WIDTH c.2.
Definition is_small (c : str * Z) : bool := c.2 <? ARTWORK_MIN_WIDTH.

Definition pick_artwork (entry : Value) : option str :=
  let cs := candidates entry in
  or_else (fst <$> or_else (min_by_key (filter is_medium (sized cs))) (max_by_key (filter is_small (sized cs))))
  (or_else (only usable (text entry (st "thumbnail")))
  (fst <$> find (λ c, bool_decide (c.2 = None)) (reverse cs))).

Definition first_text (value : Value) (keys : list str) : option str := head (omap (text value) keys).

Definition search_item (entry : Value) : option SearchItem :=
  extractor ← or_else (text entry (st "ie_key")) (text entry (st "extractor_key"));
  if negb (is_extractor_key extractor) || bool_decide (ascii_lower <$> extractor = st "generic") then None
  else
    url ← or_else (text entry (st "webpage_url")) (text entry (st "url"));
    _ ← ok_of (validate_stream_url url);
    let duration := only (λ d, is_finite d && fle (of_Z 0) d) (v ← field (st "duration") entry; as_f64 v) in
    Some (mkItem url extractor
      (default url (text entry (st "title")))
      (first_text entry [st "artist"; st "uploader"; st "channel"])
      ((λ d, to_i64 (fround (fmul d (of_Z 1000)))) <$> duration)
      (pick_artwork entry)).

Definition parse_search (output : list byte) (limit : Z) : outcome ExternalError (list SearchItem) :=
  entries ← json_lines output;
  Ok (take (Z.to_nat limit) (omap search_item entries)).

(** The format the selector chose, as [formats] lists it. *)
Definition chosen_format (entry : Value) : option Value :=
  id ← text entry (st "format_id");
  formats ← field (st "formats") entry;
  formats ← as_array formats;
  find (λ format, bool_decide (text format (st "format_id") = Some id)) formats.

Definition chunk_size (value : Value) : option Z :=
  only (Z.ltb 0) (v ← pointer (st "/downloader_options/http_chunk_size") value; as_u64 v).

Definition header_entries (entry : Value) : list (str * str) :=
  omap (λ h : str * Value, value ← Values.as_str h.2; Some (h.1, value))
    (default [] (v ← field (st "http_headers") entry; as_object v)).

Definition flag (entry : Value) (key : str) : bool :=
  bool_decide ((v ← field key entry; as_bool v) = Some true).

Definition unplayable {A} (message : string) : outcome ExternalError A := Err (Unplayable (st message)).

Definition is_hls_protocol (protocol : option str) : outcome ExternalError bool :=
  if bool_decide (protocol = Some (st "http")) || bool_decide (protocol = Some (st "https")) then Ok false
  else if bool_decide (protocol = Some (st "m3u8")) || bool_decide (protocol = Some (st "m3u8_native")) then Ok true
  else unplayable "the External Track's audio uses an unsupported protocol".

Definition parse_entry (entry : Value) : outcome ExternalError ResolvedFormat :=
  if flag entry (st "is_live")
     || bool_decide (text entry (st "live_status") = Some (st "is_live"))
     || bool_decide (text entry (st "live_status") = Some (st "is_upcoming"))
  then unplayable "live External Tracks cannot be played"
  else if flag entry (st "has_drm") then unplayable "the External Track is DRM-protected"
  else if bool_decide (text entry (st "acodec") = Some (st "none"))
  then unplayable "the External Track has no audio"
  else match only is_web_url (text entry (st "url")) with
  | None => unplayable "the External Track has no HTTP audio"
  | Some url =>
      hls ← is_hls_protocol (text entry (st "protocol"));
      let size := or_else (chunk_size entry) (format ← chosen_format entry; chunk_size format) in
      Ok (mkFormat url hls (header_entries entry) (Z.max MIN_CHUNK_SIZE_BYTES <$> size))
  end.

Definition parse_resolved (output : list byte) : outcome ExternalError ResolvedFormat :=
  entries ← json_lines output;
  match entries with
  | [] => Err (Failed (st "yt-dlp printed no External Track"))
  | [entry] => parse_entry entry
  | _ => Err (Unplayable (st "the External Track is a playlist, not one track"))
  end.

(** ** The two commands

    [process] is what the operating system makes of an argument vector. *)
Definition clamp_limit (limit : Z) : Z := Z.max 1 (Z.min MAX_SEARCH_RESULTS limit).

Definition search (process : list str → option ProcessRun) (limit_text prefix query : str) (limit : Z)
    (extractor_args : list str) : outcome ExternalError (list SearchItem) :=
  let limit := clamp_limit limit in
  output ← run limit_text (process (search_args prefix query limit extractor_args)) SEARCH_OUTPUT_LIMIT_BYTES;
  parse_search output limit.

Definition resolve (process : list str → option ProcessRun) (limit_text url extractor : str)
    (extractor_args : list str) : outcome ExternalError ResolvedFormat :=
  output ← run limit_text (process (resolve_args url extractor extractor_args)) RESOLVE_OUTPUT_LIMIT_BYTES;
  parse_resolved output.
End Parsing.

(** ** What a run can make of its output *)

Lemma read_capped_spec limit drain reads kept truncated : 0 <= limit → zlen kept <= limit →
  zlen (read_capped limit drain kept truncated reads).1 <= limit.
Proof.
  intros Hl. revert kept truncated. induction reads as [|[[|b chunk]|] reads IH]; intros kept truncated Hk; try done.
  cbn [read_capped]. destruct (_ && negb drain); [done|]. apply IH.
  rewrite zlen_app. unfold zlen in *. rewrite length_take. lia.
Qed.

(** The reads that count: up to the end or the first that failed. *)
Fixpoint delivered (reads : list (option (list byte))) : list byte :=
  match reads with
  | [] | None :: _ | Some [] :: _ => []
  | Some chunk :: reads => chunk ++ delivered reads
  end.

Lemma read_capped_whole limit drain reads kept truncated : zlen kept <= limit →
  zlen (kept ++ delivered reads) <= limit →
  read_capped limit drain kept truncated reads = (kept ++ delivered reads, truncated).
Proof.
  revert kept truncated. induction reads as [|[[|b chunk]|] reads IH]; intros kept truncated Hk Hd;
    cbn [read_capped delivered] in *; rewrite ?app_nil_r; [done..| |done].
  rewrite (assoc_L (++)), zlen_app in Hd. pose proof (zlen_nonneg (delivered reads)).
  rewrite zlen_app in Hd.
  rewrite (proj2 (Z.ltb_ge _ _)) by lia. cbn [andb]. rewrite orb_false_r.
  rewrite take_ge by (unfold zlen in *; lia).
  rewrite IH; [by rewrite (assoc_L (++))|rewrite zlen_app; lia|rewrite !zlen_app; lia].
Qed.

Lemma read_capped_truncated limit reads kept : zlen kept <= limit →
  limit < zlen (kept ++ delivered reads) →
  (read_capped limit false kept false reads).2 = true.
Proof.
  revert kept. induction reads as [|[[|b chunk]|] reads IH]; intros kept Hk Hd;
    cbn [read_capped delivered] in *; rewrite ?app_nil_r in Hd; [lia..| |lia].
  destruct (Z.ltb_spec (Z.max 0 (limit - zlen kept)) (zlen (b :: chunk))) as [Hm|Hm]; [done|]. cbn [andb orb].
  rewrite take_ge by (unfold zlen in *; lia).
  apply IH; [rewrite zlen_app; lia|by rewrite <-(assoc_L (++))].
Qed.

(** ** Which cover is chosen *)

Lemma min_by_key_Some l x : min_by_key l = Some x → x ∈ l ∧ ∀ y, y ∈ l → x.2 <= y.2.
Proof.
  revert x. induction l as [|z l IH]; intros x; [done|]. cbn [min_by_key].
  destruct (min_by_key l) as [m|] eqn:Hm.
  - destruct (IH m eq_refl) as [Hin Hle].
    destruct (Z.ltb_spec m.2 z.2); intros [= <-]; (split; [set_solver|]);
      intros y [->|Hy]%elem_of_cons; try lia; specialize (Hle y Hy); lia.
  - intros [= <-]. split; [set_solver|]. intros y [->|Hy]%elem_of_cons; [lia|].
    destruct l as [|a l]; [by apply elem_of_nil in Hy|]. simpl in Hm. by repeat case_match.
Qed.

Lemma max_by_key_Some l x : max_by_key l = Some x → x ∈ l ∧ ∀ y, y ∈ l → y.2 <= x.2.
Proof.
  revert x. induction l as [|z l IH]; intros x; [done|]. cbn [max_by_key].
  destruct (max_by_key l) as [m|] eqn:Hm.
  - destruct (IH m eq_refl) as [Hin Hle].
    destruct (Z.ltb_spec m.2 z.2); intros [= <-]; (split; [set_solver|]);
      intros y [->|Hy]%elem_of_cons; try lia; specialize (Hle y Hy); lia.
  - intros [= <-]. split; [set_solver|]. intros y [->|Hy]%elem_of_cons; [lia|].
    destruct l as [|a l]; [by apply elem_of_nil in Hy|]. simpl in Hm. by repeat case_match.
Qed.

Lemma min_by_key_None l : min_by_key l = None ↔ l = [].
Proof. destruct l as [|x l]; [done|]. simpl. split; [|done]. by repeat case_match. Qed.

Lemma max_by_key_None l : max_by_key l = None ↔ l = [].
Proof. destruct l as [|x l]; [done|]. simpl. split; [|done]. by repeat case_match. Qed.

Lemma only_Some {A} (p : A → bool) o x : only p o = Some x ↔ o = Some x ∧ p x = true.
Proof.
  unfold only. destruct o as [y|]; simpl; [|split; [done|by intros [? _]]].
  destruct (p y) eqn:Hp; (split; [|intros [[= ->] ?]]); naive_solver congruence.
Qed.

Lemma find_elem {A} (p : A → bool) l x : find p l = Some x → x ∈ l ∧ p x = true.
Proof. intros [??]%find_some. split; [by apply list_elem_of_In|done]. Qed.

Lemma elem_of_sized cs c : c ∈ sized cs ↔ (c.1, Some c.2) ∈ cs.
Proof.
  unfold sized. rewrite list_elem_of_omap. split.
  - intros ([u [w|]] & Hin & He); simpl in He; by simplify_eq/=.
  - intros Hin. exists (c.1, Some c.2). split; [done|]. by destruct c.
Qed.

Section Results.
Context `{SerdeJson} `{!JsonText} `{Urls}.

Lemma usable_candidates entry c : c ∈ candidates entry → usable c.1 = true.
Proof.
  unfold candidates. intros (v & _ & Hc)%list_elem_of_omap. unfold candidate in Hc.
  apply bind_Some in Hc as (u & [_ Hu]%only_Some & [= <-]). done.
Qed.

(** The sized covers of an entry that are between 300 and 1280 pixels wide, and
    those below. *)
Definition medium (entry : Value) : list (str * Z) := filter is_medium (sized (candidates entry)).
Definition small (entry : Value) : list (str * Z) := filter is_small (sized (candidates entry)).

Lemma pick_artwork_sized entry :
  (∀ x, min_by_key (medium entry) = Some x → pick_artwork entry = Some x.1)
  ∧ (medium entry = [] → ∀ x, max_by_key (small entry) = Some x → pick_artwork entry = Some x.1)
  ∧ (medium entry = [] → small entry = [] →
     pick_artwork entry = or_else (only usable (text entry (st "thumbnail")))
       (fst <$> find (λ c, bool_decide (c.2 = None)) (reverse (candidates entry)))).
Proof.
  unfold pick_artwork, medium, small. split_and!.
  - intros x ->. done.
  - intros -> x ->. done.
  - intros -> ->. done.
Qed.

Lemma pick_artwork_usable entry url : pick_artwork entry = Some url → usable url = true.
Proof.
  unfold pick_artwork. intros Hp.
  destruct (or_else (min_by_key _) (max_by_key _)) as [x|] eqn:Hs; simpl in Hp.
  - injection Hp as <-.
    assert (x ∈ sized (candidates entry)) as Hx.
    { unfold or_else in Hs. destruct (min_by_key _) as [m|] eqn:Hm.
      - injection Hs as ->. apply min_by_key_Some in Hm as [Hin _]. by apply list_elem_of_filter in Hin as [_ ?].
      - apply max_by_key_Some in Hs as [Hin _]. by apply list_elem_of_filter in Hin as [_ ?]. }
    apply elem_of_sized in Hx. by apply usable_candidates in Hx.
  - destruct (only usable _) as [t|] eqn:Ht; simpl in Hp.
    + injection Hp as <-. by apply only_Some in Ht as [_ ?].
    + apply fmap_Some in Hp as (c & [Hc _]%find_elem & ->). rewrite elem_of_reverse in Hc.
      by apply usable_candidates in Hc.
Qed.

(** a search result's cover is the narrowest listed one from 300 to 1280
    pixels wide, or else the widest below 300; only an entry without such sizes
    falls back to the thumbnail yt-dlp names, or the last one it lists without
    a size. Only short, public HTTPS addresses are ever considered. *)
Theorem pick_artwork_correct (entry : Value) :
  (medium entry ≠ [] → ∃ url width, pick_artwork entry = Some url ∧ (url, width) ∈ medium entry
     ∧ ∀ c, c ∈ medium entry → width <= c.2)
  ∧ (medium entry = [] → small entry ≠ [] → ∃ url width, pick_artwork entry = Some url
     ∧ (url, width) ∈ small entry ∧ ∀ c, c ∈ small entry → c.2 <= width)
  ∧ (medium entry = [] → small entry = [] →
     pick_artwork entry = or_else (only usable (text entry (st "thumbnail")))
       (fst <$> find (λ c, bool_decide (c.2 = None)) (reverse (candidates entry))))
  ∧ (∀ url, pick_artwork entry = Some url → str_len url <= 1024 ∧ is_artwork_url url = true).
Proof.
  destruct (pick_artwork_sized entry) as (Hmed & Hsmall & Hnone). split_and!.
  - intros Hne. destruct (min_by_key (medium entry)) as [[u w]|] eqn:Hm; [|by apply min_by_key_None in Hm].
    exists u, w. destruct (min_by_key_Some _ _ Hm). split; [by rewrite (Hmed _ eq_refl)|done].
  - intros He Hne. destruct (max_by_key (small entry)) as [[u w]|] eqn:Hm; [|by apply max_by_key_None in Hm].
    exists u, w. destruct (max_by_key_Some _ _ Hm). split; [by rewrite (Hsmall He _ eq_refl)|done].
  - done.
  - intros url Hu%pick_artwork_usable. unfold usable in Hu. bool_to_prop. done.
Qed.

(** ** What a search can bring in *)

Lemma is_artwork_url_public url : is_artwork_url url = true →
  ∃ u, url_parse url = inr u ∧ scheme u = st "https" ∧ public_url u.
Proof.
  unfold is_artwork_url. intros [Hs Hv]%andb_true_iff.
  destruct (validate_stream_url url) as [[]| | |] eqn:Hok; try done.
  apply validate_ok in Hok as (u & Hu & Hp). rewrite Hu in Hs. apply bool_decide_eq_true in Hs. eauto.
Qed.

Lemma search_item_safe entry item : search_item entry = Some item →
  is_extractor_key (extractor item) = true ∧ (ascii_lower <$> extractor item) ≠ st "generic"
  ∧ validate_stream_url (webpage_url item) = Ok tt
  ∧ (∀ a, artwork_url item = Some a → usable a = true).
Proof.
  unfold search_item. intros He. apply bind_Some in He as (e & _ & He).
  destruct (negb (is_extractor_key e)) eqn:Hk; [done|]. cbn [orb] in He. case_bool_decide as Hg; [done|].
  apply bind_Some in He as (url & _ & He). apply bind_Some in He as ([] & Hv & [= <-]). simpl.
  apply negb_false_iff in Hk. split_and!; [done|done| |apply pick_artwork_usable].
  by destruct (validate_stream_url url) as [[]| | |].
Qed.

Lemma parse_search_safe output limit items : parse_search output limit = Ok items →
  zlen items <= Z.max 0 limit ∧ ∀ item, item ∈ items → ∃ entry, search_item entry = Some item.
Proof.
  unfold parse_search. intros He. apply bind_Ok in He as (entries & _ & [= <-]). split.
  - unfold zlen. rewrite length_take. lia.
  - intros item (i & Hin & _)%elem_of_take. apply list_elem_of_lookup_2, list_elem_of_omap in Hin as (entry & _ & ?). eauto.
Qed.

(** whatever yt-dlp prints, a search brings in at most the results asked
    for (and at most 20), each naming an extractor other than the generic one
    and a public web page, with a public HTTPS cover or none. *)
Theorem search_results_safe (process : list str → option ProcessRun) (limit_text prefix query : str)
    (limit : Z) (extractor_args : list str) (items : list SearchItem)
    (Hsearch : search process limit_text prefix query limit extractor_args = Ok items) :
  zlen items <= 20
  ∧ ∀ item, item ∈ items →
      is_extractor_key (extractor item) = true ∧ (ascii_lower <$> extractor item) ≠ st "generic"
      ∧ (∃ u, url_parse (webpage_url item) = inr u ∧ public_url u)
      ∧ ∀ a, artwork_url item = Some a →
          str_len a <= 1024 ∧ ∃ u, url_parse a = inr u ∧ scheme u = st "https" ∧ public_url u.
Proof.
  unfold search in Hsearch. apply bind_Ok in Hsearch as (output & _ & Hp).
  apply parse_search_safe in Hp as [Hlen Hitems]. split.
  { unfold clamp_limit, MAX_SEARCH_RESULTS in Hlen. lia. }
  intros item Hin. destruct (Hitems item Hin) as (entry & He).
  apply search_item_safe in He as (Hk & Hg & Hv & Ha). split_and!; [done..| |].
  - by apply validate_ok.
  - intros a Hart. apply Ha in Hart. unfold usable in Hart. bool_to_prop. split; [done|]. by apply is_artwork_url_public.
Qed.
End Results.

(** ** A small instance

    An object has texts and sized thumbnails; a printed line is the page it
    names. *)
Inductive FlatValue :=
| FText (text : str)
| FNumber (n : Z)
| FThumbnails (l : list (str * Z))
| FObject (fields : list (str * str)) (thumbnails : list (str * Z)).

#[export] Instance flat_value_eq_dec : EqDecision FlatValue.
Proof. solve_decision. Defined.

Definition flat_field (k : str) (v : FlatValue) : option FlatValue :=
  match v with
  | FObject fields thumbnails =>
      if bool_decide (k = st "thumbnails") then Some (FThumbnails thumbnails)
      else if bool_decide (k = st "width") then FNumber ∘ snd <$> head thumbnails
      else FText ∘ snd <$> find (λ f, bool_decide (f.1 = k)) fields
  | _ => None
  end.

Definition flat : SerdeJson := {|
  Value := FlatValue;
  field := flat_field;
  pointer _ _ := None;
  Values.as_str v := match v with FText s => Some s | _ => None end;
  as_u64 v := match v with FNumber n => Some n | _ => None end;
  as_f64 _ := None; as_bool _ := None;
  as_array v := match v with
    | FThumbnails l => Some ((λ t, FObject [(st "url", t.1)] [t]) <$> l)
    | _ => None
    end;
  is_object v := match v with FObject _ _ => true | _ => false end;
  is_number _ := false; Null := FText []; String_ s := FText s; Bool_ _ := FText []; Float_ _ := FText [];
  Int_ := FNumber; Array_ _ := FText []; Object_ _ := FObject [] []; insert_field _ _ _ := None;
  parse_values _ := inr []; to_uppercase s := s
|}.

Definition flat_text : @JsonText flat := @Build_JsonText flat
  (λ line, Some (FObject [(st "ie_key", st "Yt"); (st "webpage_url", line)] []))
  (λ v, None).

Definition example_run : ProcessRun :=
  mkRun None None [Some (bs "http://a.b"); Some ([x0a] ++ bs "http://localhost"); None] [] (inr (true, [])).

Definition example_item : SearchItem := mkItem (st "http://a.b") (st "Yt") (st "http://a.b") None None None.

Lemma search_results_safe_witness :
  @search flat flat_text example_urls (λ _, Some example_run) (st "20") (st "ytsearch") (st "q") 99 []
  = Ok [example_item]
  ∧ is_extractor_key (extractor example_item) = true ∧ zlen [example_item] <= 20.
Proof.
  assert (@search flat flat_text example_urls (λ _, Some example_run) (st "20") (st "ytsearch") (st "q") 99 []
          = Ok [example_item]) as Hs by (vm_compute; reflexivity).
  destruct (@search_results_safe flat flat_text example_urls _ _ _ _ _ _ _ Hs) as [Hl Hi].
  split; [exact Hs|]. split; [exact (proj1 (Hi example_item ltac:(left)))|exact Hl].
Defined.

Definition example_entry : FlatValue := FObject [(st "thumbnail", st "https://t.example/x")]
  [(st "https://t.example/1", 200); (st "https://t.example/2", 720); (st "http://t.example/3", 400);
   (st "https://t.example/4", 500); (st "https://t.example/5", 1500)].

Lemma pick_artwork_correct_witness :
  @pick_artwork flat example_urls example_entry = Some (st "https://t.example/4")
  ∧ ∃ url width, @pick_artwork flat example_urls example_entry = Some url
      ∧ (url, width) ∈ @medium flat example_urls example_entry.
Proof.
  split; [vm_compute; reflexivity|].
  destruct (proj1 (@pick_artwork_correct flat example_urls example_entry)) as (url & width & Hp & Hin & _);
    [vm_compute; discriminate|].
  exists url, width. split; [exact Hp|exact Hin].
Defined.
