(* ===== verification/ExternalCache.v ===== *)
(** What the External Source remembers
    (server/src/modules/external_source/service.rs): where each Track's audio
    is, for as long as its signed URL lasts, and the request headers of each HLS
    Track, for as long as its resource tokens do. Instants are nanoseconds; the
    order a [HashMap] is walked in is the class [WalkOrder]. *)

From stdpp Require Import gmap.
From S2P Require Import Prelude Text GoJson StreamUrl Hls ExternalTokens YtDlp.

Inductive PlaybackFormat := Progressive | HlsFormat.

#[export] Instance playback_format_eq_dec : EqDecision PlaybackFormat.
Proof. solve_decision. Defined.

(** Request headers, lower-case names first. *)
Abbreviation RequestHeaders := (list (list Z * list Z)).

Record Resolved := mkResolved {
  r_url : str;
  r_format : PlaybackFormat;
  r_headers : RequestHeaders;
  r_chunk_size : option Z
}.

Definition FORWARDED_HEADERS : list str := [
  st "user-agent"; st "accept"; st "accept-language"; st "referer"; st "origin"; st "cookie";
  st "sec-fetch-mode"].

(** [Resolved::from]. *)
Definition from_format (f : ResolvedFormat) : Resolved := mkResolved
  (f_url f)
  (if f_hls f then HlsFormat else Progressive)
  (filter (λ h : str * str, h.1 ∈ FORWARDED_HEADERS) ((λ h : str * str, (ascii_lower <$> h.1, h.2)) <$> f_headers f))
  (f_chunk_size f).

(** ** Lifetimes *)

Definition CACHE_TTL : Z := 600.
Definition EXPIRY_MARGIN_SECONDS : Z := 30.

Definition is_expiry (name : str) : bool := bool_decide (name = st "expire") || bool_decide (name = st "expires").

Definition expires `{Urls} (url : str) : option Z :=
  match url_parse url with
  | inl _ => None
  | inr parsed =>
      '(_, value) ← find (λ p : str * str, is_expiry p.1) (query_pairs parsed);
      parse_i64 value
  end.

(** [cache_lifetime], in seconds. *)
Definition cache_lifetime `{Urls} (url : str) (now : Z) : outcome Empty_set Z :=
  match expires url with
  | Some e =>
      left ← sub_i64 e now;
      left ← sub_i64 left EXPIRY_MARGIN_SECONDS;
      Ok (Z.min CACHE_TTL (Z.max left 0))
  | None => Ok CACHE_TTL
  end.

(** ** The caches *)

(** An entry with the instant it ends at. *)
Record Kept (A : Type) := mkKept { kept : A; until : Z }.
Arguments mkKept {A} _ _.
Arguments kept {A} _.
Arguments until {A} _.

(** The order in which a [HashMap] hands out its entries. *)
Class WalkOrder := {
  walk {A} : gmap (list Z) A → list (list Z * A);
  walk_perm {A} (m : gmap (list Z) A) : walk m ≡ₚ map_to_list m
}.

(** The first of the entries that end soonest. *)
Fixpoint oldest {A} (l : list (list Z * Kept A)) : option (list Z * Kept A) :=
  match l with
  | [] => None
  | x :: l => match oldest l with
      | Some y => if until y.2 <? until x.2 then Some y else Some x
      | None => Some x
      end
  end.

Definition live {A} (now : Z) (m : gmap (list Z) (Kept A)) : gmap (list Z) (Kept A) :=
  filter (λ e, now < until e.2) m.

Definition lookup_live {A} (now : Z) (id : str) (m : gmap (list Z) (Kept A)) : option A :=
  e ← m !! id; if now <? until e then Some (kept e) else None.

Section Caches.
Context `{WalkOrder}.

Definition evict {A} (m : gmap (list Z) (Kept A)) : gmap (list Z) (Kept A) :=
  match oldest (walk m) with Some (id, _) => delete id m | None => m end.

Definition CACHE_CAPACITY : nat := 64.
Definition HLS_HEADERS_CAPACITY : nat := 256.

(** A resolution and the instant it was made. *)
Abbreviation ResolveEntries := (gmap (list Z) (Kept (Resolved * Z))).

(** [ResolveCache::get]. *)
Definition cache_get (now : Z) (id : str) (entries : ResolveEntries) : option Resolved :=
  fst <$> lookup_live now id entries.

(** [ResolveCache::headers]: of a stale entry too. *)
Definition cache_headers (id : str) (entries : ResolveEntries) : RequestHeaders :=
  default [] ((λ e, r_headers (kept e).1) <$> entries !! id).

(** [ResolveCache::insert_resolved_at]. *)
Definition insert_resolved_at (now : Z) (id : str) (resolved : Resolved) (lifetime resolved_at : Z)
    (entries : ResolveEntries) : ResolveEntries :=
  let entries := live now entries in
  let entries := if decide (CACHE_CAPACITY <= size entries)%nat then evict entries else entries in
  <[id := mkKept (resolved, resolved_at) (now + lifetime)]> entries.

(** [ResolveCache::insert], given its two readings of the clock. *)
Definition insert (resolved_at now : Z) (id : str) (resolved : Resolved) (lifetime : Z)
    (entries : ResolveEntries) : ResolveEntries :=
  insert_resolved_at now id resolved lifetime resolved_at entries.

Definition REFUSAL_GRACE : Z := 60 * NANOS.

(** [ResolveCache::forget_refused]; [Instant::elapsed] saturates. *)
Definition forget_refused (now : Z) (id : str) (entries : ResolveEntries) : ResolveEntries :=
  match entries !! id with
  | Some e => if REFUSAL_GRACE <=? Z.max 0 (now - (kept e).2) then delete id entries else entries
  | None => entries
  end.

Abbreviation HlsHeaders := (gmap (list Z) (Kept (list (list Z * list Z)))).

(** [HlsHeaders::keep_until]. *)
Definition keep_until (now : Z) (id : str) (headers : RequestHeaders) (until : Z)
    (entries : HlsHeaders) : HlsHeaders :=
  let entries := live now entries in
  let entries :=
    if negb (bool_decide (is_Some (entries !! id))) && bool_decide (HLS_HEADERS_CAPACITY <= size entries)%nat
    then evict entries else entries in
  <[id := mkKept headers until]> entries.

(** [HlsHeaders::keep], given its two readings of the clock. *)
Definition keep (now now' : Z) (id : str) (headers : RequestHeaders) (entries : HlsHeaders) : HlsHeaders :=
  keep_until now' id headers (now + HLS_RESOURCE_TOKEN_TTL_SECONDS * NANOS) entries.

Definition hls_get (now : Z) (id : str) (entries : HlsHeaders) : option RequestHeaders :=
  lookup_live now id entries.

(** ** Eviction *)

Lemma oldest_Some {A} (l : list (list Z * Kept A)) x : oldest l = Some x →
  x ∈ l ∧ ∀ y, y ∈ l → until x.2 <= until y.2.
Proof.
  revert x. induction l as [|z l IH]; intros x; [done|]. cbn [oldest].
  destruct (oldest l) as [m|] eqn:Hm.
  - destruct (IH m eq_refl) as [Hin Hle].
    destruct (Z.ltb_spec (until m.2) (until z.2)); intros [= <-]; (split; [set_solver|]);
      intros y [->|Hy]%elem_of_cons; try lia; specialize (Hle y Hy); lia.
  - intros [= <-]. split; [set_solver|]. intros y [->|Hy]%elem_of_cons; [lia|].
    destruct l as [|a l]; [by apply elem_of_nil in Hy|]. simpl in Hm. by repeat case_match.
Qed.

Lemma oldest_None {A} (l : list (list Z * Kept A)) : oldest l = None ↔ l = [].
Proof. destruct l as [|x l]; [done|]. simpl. split; [|done]. by repeat case_match. Qed.

(** Evicting a map that is not empty removes one entry, and no other entry
    ends sooner. *)
Lemma evict_spec {A} (m : gmap (list Z) (Kept A)) : m ≠ ∅ →
  ∃ id e, m !! id = Some e ∧ evict m = delete id m ∧ ∀ id' e', m !! id' = Some e' → until e <= until e'.
Proof.
  intros Hne. unfold evict. destruct (oldest (walk m)) as [[id e]|] eqn:Ho.
  - apply oldest_Some in Ho as [Hin Hle]. exists id, e. split; [|split; [done|]].
    + apply elem_of_map_to_list. by rewrite <-(walk_perm m).
    + intros id' e' He'. apply (Hle (id', e')). rewrite (walk_perm m). by apply elem_of_map_to_list.
  - exfalso. apply Hne, map_to_list_empty_iff. apply oldest_None in Ho.
    apply Permutation_nil_r. by rewrite <-Ho, (walk_perm m).
Qed.

Lemma size_evict {A} (m : gmap (list Z) (Kept A)) : size (evict m) = pred (size m).
Proof.
  destruct (decide (m = ∅)) as [->|Hne].
  - assert (evict (∅ : gmap (list Z) (Kept A)) = ∅) as ->; [|done].
    unfold evict. assert (walk (∅ : gmap (list Z) (Kept A)) = []) as ->; [|done].
    apply Permutation_nil_r. by rewrite (walk_perm ∅), map_to_list_empty.
  - destruct (evict_spec m Hne) as (id & e & He & -> & _). rewrite map_size_delete_Some by eauto. done.
Qed.

Lemma size_live {A} (now : Z) (m : gmap (list Z) (Kept A)) : (size (live now m) <= size m)%nat.
Proof. apply map_subseteq_size, map_filter_subseteq. Qed.

Lemma lookup_live_live {A} (now : Z) (m : gmap (list Z) (Kept A)) id e :
  live now m !! id = Some e ↔ m !! id = Some e ∧ now < until e.
Proof. unfold live. by rewrite map_lookup_filter_Some. Qed.

Lemma map_size_insert_le {A} (m : gmap (list Z) A) id x : (size (<[id:=x]> m) <= S (size m))%nat.
Proof. rewrite map_size_insert. destruct (m !! id); simpl; lia. Qed.

(** What inserting does to a cache of [capacity] entries: what is inserted is
    there, and any other entry that was live is too, unless the cache was full
    and that entry is the one that was evicted, the soonest to end. *)
Definition inserted {A} (now : Z) (capacity : nat) (id : str) (e : Kept A)
    (m m' : gmap (list Z) (Kept A)) : Prop :=
  m' !! id = Some e ∧ (size m' <= capacity)%nat
  ∧ (∀ id' e', id' ≠ id → m' !! id' = Some e' → m !! id' = Some e' ∧ now < until e')
  ∧ ∃ gone, ∀ id' e', id' ≠ id → m !! id' = Some e' → now < until e' →
      m' !! id' = Some e'
      ∨ (id' = gone ∧ (capacity <= size (live now m))%nat
         ∧ ∀ id'' e'', m !! id'' = Some e'' → now < until e'' → until e' <= until e'').

Lemma insert_inserted {A} (now : Z) (capacity : nat) id (e : Kept A) m (b : bool) :
  (0 < capacity)%nat → (size m <= capacity)%nat →
  (b = true → (capacity <= size (live now m))%nat) →
  (b = false → (size (<[id := e]> (live now m)) <= capacity)%nat) →
  inserted now capacity id e m (<[id := e]> (if b then evict (live now m) else live now m)).
Proof.
  intros Hc Hm Hb Hb'. pose proof (size_live now m).
  destruct b.
  - specialize (Hb eq_refl).
    assert (live now m ≠ ∅) as Hne by (intros He; rewrite He, map_size_empty in Hb; lia).
    destruct (evict_spec _ Hne) as (gone & g & Hg & He & Hle).
    split; [apply lookup_insert_eq|]. split.
    { pose proof (map_size_insert_le (evict (live now m)) id e). rewrite size_evict in *. lia. }
    rewrite He. split.
    + intros id' e' Hid. rewrite lookup_insert_ne by done. intros [_ Hl]%lookup_delete_Some. by apply lookup_live_live.
    + exists gone. intros id' e' Hid Hl Hn. rewrite lookup_insert_ne by done.
      destruct (decide (id' = gone)) as [->|Hg'].
      * right. split; [done|]. split; [done|]. intros id'' e'' Hl' Hn'.
        assert (live now m !! gone = Some e') as Hlive by (by apply lookup_live_live).
        rewrite Hg in Hlive. injection Hlive as <-. apply (Hle id''). by apply lookup_live_live.
      * left. rewrite lookup_delete_ne by done. by apply lookup_live_live.
  - split; [apply lookup_insert_eq|]. split; [by apply Hb'|]. split.
    + intros id' e' Hid. rewrite lookup_insert_ne by done. apply lookup_live_live.
    + exists id. intros id' e' Hid Hl Hn. left. rewrite lookup_insert_ne by done. by apply lookup_live_live.
Qed.
End Caches.

(** C29: neither cache grows past its capacity, what was just put in is there,
    and nothing that still counts is lost to make room but, when the cache is
    full, one entry, which is among those that end soonest. *)
Theorem caches_bounded `{WalkOrder} (now : Z) (id : str) (resolved : Resolved) (lifetime resolved_at : Z)
    (headers : RequestHeaders) (until_ : Z)
    (entries : gmap (list Z) (Kept (Resolved * Z))) (hls : gmap (list Z) (Kept RequestHeaders))
    (Hentries : (size entries <= CACHE_CAPACITY)%nat) (Hhls : (size hls <= HLS_HEADERS_CAPACITY)%nat) :
  inserted now CACHE_CAPACITY id (mkKept (resolved, resolved_at) (now + lifetime)) entries
    (insert_resolved_at now id resolved lifetime resolved_at entries)
  ∧ inserted now HLS_HEADERS_CAPACITY id (mkKept headers until_) hls (keep_until now id headers until_ hls).
Proof.
  split.
  - unfold insert_resolved_at. pose proof (size_live now entries).
    destruct (decide (CACHE_CAPACITY <= size (live now entries))%nat) as [Hf|Hf].
    + apply (insert_inserted now CACHE_CAPACITY id _ entries true); try done. unfold CACHE_CAPACITY. lia.
    + apply (insert_inserted now CACHE_CAPACITY id _ entries false); try done; [unfold CACHE_CAPACITY; lia|].
      intros _. pose proof (map_size_insert_le (live now entries) id (mkKept (resolved, resolved_at) (now + lifetime))). lia.
  - unfold keep_until.
    apply (insert_inserted now HLS_HEADERS_CAPACITY id _ hls); try done; [unfold HLS_HEADERS_CAPACITY; lia|..].
    + intros [_ Hf]%andb_true_iff. by apply bool_decide_eq_true in Hf.
    + intros Hf. pose proof (size_live now hls).
      apply andb_false_iff in Hf as [Hp|Hf].
      * apply negb_false_iff, bool_decide_eq_true in Hp. rewrite map_size_insert_Some by done. lia.
      * apply bool_decide_eq_false in Hf.
        pose proof (map_size_insert_le (live now hls) id (mkKept headers until_)). lia.
Qed.

(** ** Lifetimes end before the URL does *)

Lemma cache_lifetime_bound `{Urls} url now s : cache_lifetime url now = Ok s →
  0 <= s <= 600 ∧ ∀ e, expires url = Some e → 0 < s → now + s <= e - 30.
Proof.
  unfold cache_lifetime, CACHE_TTL, EXPIRY_MARGIN_SECONDS, sub_i64.
  destruct (expires url) as [e|]; [|intros [= <-]; split; [lia|done]].
  destruct (_ && _); [|done]. cbn [mbind outcome_bind]. destruct (_ && _); [|done]. cbn [mbind outcome_bind].
  intros [= <-]. split; [lia|]. intros ? [= <-]. lia.
Qed.

(** URLs with one query pair, to evaluate with. *)
Definition expiring_urls (value : str) : Urls := {|
  Url := Url (Urls := example_urls); url_parse := url_parse (Urls := example_urls);
  url_join := url_join (Urls := example_urls); scheme := scheme (Urls := example_urls);
  host := host (Urls := example_urls); url_path := url_path (Urls := example_urls);
  as_str := as_str (Urls := example_urls); query_pairs _ := [(st "expire", value)];
  relative_url_text := []
|}.

(** An [expire] so early that the difference is no [i64]. *)
Example cache_lifetime_panics :
  @cache_lifetime (expiring_urls (show i64_min)) (st "http://a.b") 1700000000 = Panic.
Proof. vm_compute. reflexivity. Qed.

Definition list_order : WalkOrder := {|
  walk A m := map_to_list m; walk_perm A m := reflexivity _ |}.

Lemma caches_bounded_witness :
  inserted 0 CACHE_CAPACITY (st "id") (mkKept (mkResolved (st "http://a.b") Progressive [] None, 0) (0 + 600)) ∅
    (insert_resolved_at (H := list_order) 0 (st "id") (mkResolved (st "http://a.b") Progressive [] None) 600 0 ∅).
Proof.
  apply (caches_bounded (H := list_order) 0 (st "id") (mkResolved (st "http://a.b") Progressive [] None) 600 0 [] 0 ∅ ∅);
    rewrite map_size_empty; unfold CACHE_CAPACITY, HLS_HEADERS_CAPACITY; lia.
Defined.
