(* ===== verification/ExternalSource.v ===== *)
(** The External Source service
    (server/src/modules/external_source/service.rs): searching, resolving an
    External Track once, and fetching its audio, its playlists and its cover
    under the guards of the radio proxy. A computation runs on the service's
    caches and the requests it has made; what the world answers (yt-dlp, the
    site's servers, the clock at each moment) is an argument. *)

From stdpp Require Import gmap.
From S2P Require Import Prelude Text GoJson StreamUrl Hls ExternalTokens YtDlp ExternalCache.
From S2P Require Metadata ListenTogether RadioProxy Values.

(** ** Data *)

Definition MAX_QUERY_CHARS : Z := 200.
Definition TRACKS_PATH : str := st "/api/v1/external/tracks".

Record ExternalTrack := mkExternalTrack {
  e_id : str;
  e_title : str;
  e_artist_name : option str;
  e_duration_ms : option Z;
  e_webpage_url : option str;
  e_extractor : str;
  e_has_artwork : bool
}.

Record Artwork := mkArtwork { media_type : str; data : list byte }.
Record SearchResults := mkResults { source : str; items : list ExternalTrack }.
Record Playback := mkPlayback { format : PlaybackFormat; stream_path_ : str }.

Inductive RangeRequest :=
| Whole
| Single (start : Z) (end_ : option Z)
| OtherRange (raw : list byte).

#[export] Instance range_request_eq_dec : EqDecision RangeRequest.
Proof. solve_decision. Defined.

Record MediaHeaders := mkMediaHeaders {
  content_type : option str;
  content_length : option str;
  content_range : option str;
  accept_ranges : option str;
  cache_control : option str
}.

(** A response and all its body's items. *)
Record Fetched `{Urls} := mkFetched {
  status : Z;
  fetched_url : Url;
  headers : MediaHeaders;
  body : list (str + list byte)
}.

Record Request `{Urls} := mkRequest {
  q_url : Url;
  q_range : RangeRequest;
  q_headers : RequestHeaders
}.

Inductive MediaStatus := Full | Partial | Unsatisfiable.

(** The chunks of a file that are fetched as the client reads on. *)
Record ChunkPlan `{Urls} := mkPlan {
  p_url : Url;
  p_next : Z;
  p_last : Z;
  p_chunk_size : Z;
  p_headers : RequestHeaders
}.

Record Media `{Urls} := mkMedia {
  m_status : MediaStatus;
  m_headers : MediaHeaders;
  m_body : list (str + list byte);
  m_rest : option ChunkPlan
}.

Inductive Resource `{Urls} := PlaylistText (text : str) | MediaResource (media : Media).

Arguments mkFetched {_} _ _ _ _.
Arguments mkRequest {_} _ _ _.
Arguments mkPlan {_} _ _ _ _ _.
Arguments mkMedia {_} _ _ _ _.
Arguments PlaylistText {_} _.
Arguments MediaResource {_} _.

(** [Media::from]: an answer passed on as it is. *)
Definition from_fetched `{Urls} (response : Fetched) : Media :=
  mkMedia
    (if status response =? 206 then Partial else if status response =? 416 then Unsatisfiable else Full)
    (headers response) (body response) None.

Definition stream_path (id : str) : str := TRACKS_PATH ++ st "/" ++ id ++ st "/stream".
Definition playlist_path (id : str) : str := TRACKS_PATH ++ st "/" ++ id ++ st "/playlist.m3u8".
Definition resource_path (id resource : str) : str :=
  TRACKS_PATH ++ st "/" ++ id ++ st "/resources/" ++ resource.

(** [bytes <first>-<last>/<total>]. *)
Definition parse_content_range (h : MediaHeaders) : option (Z * Z * Z) :=
  value ← content_range h;
  value ← strip_prefix (st "bytes ") (trim value);
  '(span, total) ← split_once 47 value;
  '(first, last) ← split_once 45 span;
  first ← parse_u64 first;
  last ← parse_u64 last;
  total ← parse_u64 total;
  Some (first, last, total).

Definition byte_range (first last : Z) : RangeRequest := Single first (Some last).

(** [u64::saturating_add]. *)
Definition sat_add (a b : Z) : Z := Z.min u64_max (a + b).

(** Where a computation reads the clock. *)
Inductive Moment := AtGet | AtResolved | AtInsert | AtRefusal | AtUnix | AtSign | AtVerify | AtKeep | AtKept | AtHeaders.

(** The caches, and the requests made so far. *)
Record External `{Urls} := mkExternal {
  entries : gmap (list Z) (Kept (Resolved * Z));
  hls_headers : gmap (list Z) (Kept RequestHeaders);
  requests : list Request
}.

Arguments mkExternal {_} _ _ _.

Record Config := mkConfig {
  search_prefix : option str;
  extractor_args : list str;
  search_limit : str;     (* the time limits, in seconds, as text *)
  resolve_limit : str
}.

Section Service.
Context `{Urls} `{Metadata.Unicode} `{ListenTogether.Crypto} `{TokenCodec} `{TrackCodec} `{WalkOrder}
  `{Values.SerdeJson} `{!JsonText}.
Variable config : Config.
(** The keys of the two signers. *)
Variables tracks_key resources_key : list byte.
(** What becomes of yt-dlp with given arguments, what the site's servers answer
    to a request after those made before, how a task that panicked is
    described. *)
Variable process : list str → option ProcessRun.
Variable fetcher : list Request → Request → str + Fetched.
Variable panic_text : str.

Abbreviation Service := (M External ExternalError).

(** ** Fetching *)

Definition with_entries (f : gmap (list Z) (Kept (Resolved * Z)) → gmap (list Z) (Kept (Resolved * Z)))
    (s : External) : External := mkExternal (f (entries s)) (hls_headers s) (requests s).
Definition with_hls (f : gmap (list Z) (Kept RequestHeaders) → gmap (list Z) (Kept RequestHeaders))
    (s : External) : External := mkExternal (entries s) (f (hls_headers s)) (requests s).

Definition ask {E} (q : Request) : M External E (str + Fetched) := λ s,
  (Ok (fetcher (requests s) q), mkExternal (entries s) (hls_headers s) (requests s ++ [q])).

Definition ensure_enabled : Service str := lift (ok_or (search_prefix config) Disabled).

(** The client's error names the URL; only its cause is kept. *)
Definition cause_of (error : str) : str :=
  match split_once_str ([34] ++ st ": ") error with
  | Some (_, cause) => cause
  | None => st "request failed"
  end.

Definition fetch (clock : Moment → Z) (id url : str) (hs : RequestHeaders) (range : RangeRequest) : Service Fetched :=
  _ ← lift (map_err Failed (validate_stream_url url));
  parsed ← match url_parse url with
    | inl error => fail (Failed (parse_error_text error))
    | inr parsed => mret parsed
    end;
  answer ← ask (mkRequest parsed range hs);
  match answer with
  | inl error => fail (Failed (st "the External Track's stream failed: " ++ cause_of error))
  | inr response =>
      if ((200 <=? status response) && (status response <=? 299)) || (status response =? 416)
      then mret response
      else
        _ ← (if bool_decide (status response ∈ [401; 403; 404; 410])
             then modify (with_entries (forget_refused (clock AtRefusal) id)) else mret tt);
        fail (Failed (st "the External Track's stream answered " ++ show (status response)))
  end.

(** ** Resolving *)

(** The task of a resolution: yt-dlp, then the cache. A panic in it reaches the
    waiting requests as a failure. *)
Definition resolve_task (clock : Moment → Z) (id : str) (track : TrackRef) : Service Resolved :=
  f ← lift (YtDlp.resolve process (resolve_limit config) (t_url track) (t_extractor track) (extractor_args config));
  let resolved := from_format f in
  match cache_lifetime (r_url resolved) (clock AtUnix) with
  | Ok lifetime =>
      _ ← modify (with_entries (ExternalCache.insert (clock AtResolved) (clock AtInsert) id resolved (lifetime * NANOS)));
      mret resolved
  | _ => fail (Failed (st "External Track resolution stopped: " ++ panic_text))
  end.

(** [resolve], when no other request is resolving the Track. *)
Definition resolve (clock : Moment → Z) (id : str) : Service Resolved :=
  _ ← ensure_enabled;
  track ← lift (map_err BadRequest (verify_track tracks_key id));
  s ← get;
  match cache_get (clock AtGet) id (entries s) with
  | Some resolved => mret resolved
  | None => resolve_task clock id track
  end.

(** ** Searching *)

(** The id of a result, with its cover if that fits. *)
Definition to_track (item : SearchItem) : option ExternalTrack :=
  let track := new_track_ref (webpage_url item) (extractor item) in
  '(id, has_artwork) ←
    match sign_track tracks_key (mkTrackRef (webpage_url item) (extractor item) (artwork_url item)) with
    | Some id => Some (id, bool_decide (is_Some (artwork_url item)))
    | None => id ← sign_track tracks_key track; Some (id, false)
    end;
  Some (mkExternalTrack id (i_title item) (artist_name item) (duration_ms item)
          (Some (webpage_url item)) (extractor item) has_artwork).

Definition search (query : str) (limit : Z) : Service SearchResults :=
  prefix ← ensure_enabled;
  let query := trim (filter (λ c, is_control c = false) query) in
  if bool_decide (query = []) || (MAX_QUERY_CHARS <? zlen query)
  then fail (BadRequest (st "q must be 1 to " ++ show MAX_QUERY_CHARS ++ st " characters"))
  else if negb ((1 <=? limit) && (limit <=? MAX_SEARCH_RESULTS))
  then fail (BadRequest (st "limit must be between 1 and " ++ show MAX_SEARCH_RESULTS))
  else
    found ← lift (YtDlp.search process (search_limit config) prefix query limit (extractor_args config));
    mret (mkResults prefix (omap to_track found)).

(** ** Playing *)

Definition playback (clock : Moment → Z) (id : str) : Service Playback :=
  resolved ← resolve clock id;
  mret (mkPlayback (r_format resolved)
    (match r_format resolved with Progressive => stream_path id | HlsFormat => playlist_path id end)).

Definition fetch_in_chunks (clock : Moment → Z) (id : str) (resolved : Resolved) (chunk_size start : Z)
    (end_ : option Z) (ranged head : bool) : Service Media :=
  room ← lift (sub_u64 chunk_size 1);
  let chunk_last := if head then start else sat_add start room in
  first ← fetch clock id (r_url resolved) (r_headers resolved)
    (byte_range start (match end_ with Some e => Z.min e chunk_last | None => chunk_last end));
  match (if status first =? 206 then parse_content_range (headers first) else None) with
  | None => mret (from_fetched first)
  | Some (_, served_last, total) =>
      _ ← lift (map_err Failed (validate_stream_url (as_str (fetched_url first))));
      let file_last := Z.max 0 (total - 1) in
      let last := match end_ with Some e => Z.min e file_last | None => file_last end in
      length ← (after ← lift (add_u64 last 1); lift (sub_u64 after start));
      let h := headers first in
      let hs := mkMediaHeaders (content_type h) (Some (show length))
        (if ranged then Some (st "bytes " ++ show start ++ st "-" ++ show last ++ st "/" ++ show total) else None)
        (Some (st "bytes")) (cache_control h) in
      let media_status := if ranged then Partial else Full in
      if head then mret (mkMedia media_status hs [] None)
      else
        next ← lift (add_u64 served_last 1);
        mret (mkMedia media_status hs (body first)
          (Some (mkPlan (fetched_url first) next last chunk_size (r_headers resolved))))
  end.

Definition open_stream (clock : Moment → Z) (id : str) (range : RangeRequest) (head : bool) : Service Media :=
  resolved ← resolve clock id;
  if negb (bool_decide (r_format resolved = Progressive))
  then fail (Unplayable (st "the External Track plays as HLS; use its playlist"))
  else
    let requested := match range with
      | Whole => Some (0, None)
      | Single start end_ => Some (start, end_)
      | OtherRange _ => None
      end in
    match r_chunk_size resolved, requested with
    | Some chunk_size, Some (start, end_) =>
        fetch_in_chunks clock id resolved chunk_size start end_ (negb (bool_decide (range = Whole))) head
    | _, _ =>
        response ← fetch clock id (r_url resolved) (r_headers resolved) range;
        mret (from_fetched response)
    end.

(** The rest of a chunked body, as the client reads it to its end. *)
Fixpoint read_chunks (fuel : nat) (plan : ChunkPlan) (next : Z) : M External Empty_set (list (str + list byte)) :=
  if p_last plan <? next then mret []
  else match fuel with
  | O => lift OutOfFuel
  | S fuel =>
      room ← lift (sub_u64 (p_chunk_size plan) 1);
      let chunk_last := Z.min (p_last plan) (sat_add next room) in
      answer ← ask (mkRequest (p_url plan) (byte_range next chunk_last) (p_headers plan));
      match answer with
      | inr response =>
          if (status response =? 206)
             && bool_decide ((λ r, (r.1.1, r.1.2)) <$> parse_content_range (headers response) = Some (next, chunk_last))
          then
            items ← read_chunks fuel plan (sat_add chunk_last 1);
            mret (body response ++ items)
          else
            items ← read_chunks fuel plan u64_max;
            mret (inl (st "the External Track's stream answered " ++ show (status response)
                       ++ st " for a later chunk") :: items)
      | inl _ =>
          items ← read_chunks fuel plan u64_max;
          mret (inl (st "the External Track's stream failed") :: items)
      end
  end.

(** Rounds enough for any plan: a chunk each, and one that may fail. *)
Definition chunk_rounds (plan : ChunkPlan) : nat :=
  S (Z.to_nat ((p_last plan - p_next plan) / p_chunk_size plan)).

(** The whole body of an answer. *)
Definition read_body (media : Media) : M External Empty_set (list (str + list byte)) :=
  match m_rest media with
  | None => mret (m_body media)
  | Some plan =>
      items ← read_chunks (chunk_rounds plan) plan (p_next plan);
      mret (m_body media ++ items)
  end.

(** ** HLS *)

Fixpoint read_playlist (playlist : list byte) (items : list (str + list byte)) : outcome ExternalError (list byte) :=
  match items with
  | [] => Ok playlist
  | inl _ :: _ => Err (Failed (st "failed to read the HLS playlist"))
  | inr chunk :: items =>
      let playlist := playlist ++ chunk in
      if RadioProxy.MAX_HLS_PLAYLIST_BYTES <? zlen playlist
      then Err (Failed (st "HLS playlist exceeds size limit"))
      else read_playlist playlist items
  end.

(** The link of one URI: signed for this Track, at the moment of rewriting. *)
Definition resource_link (now : Z) (id url : str) : outcome RewriteError str :=
  token ← infallible (sign resources_key now (fingerprint id) url);
  Ok (resource_path id token).

Definition rewrite_error (e : RewriteError) : ExternalError :=
  match e with
  | Drm => Unplayable (show_rewrite_error Drm)
  | Invalid message => Failed message
  end.

Definition rewrite (clock : Moment → Z) (id : str) (hs : RequestHeaders) (response : Fetched) : Service str :=
  if negb ((200 <=? status response) && (status response <? 300))
  then fail (Failed (st "the External Track's playlist answered " ++ show (status response)))
  else
    playlist ← lift (read_playlist [] (body response));
    rewritten ← lift (map_err rewrite_error
      (rewrite_playlist_with (fetched_url response) (resource_link (clock AtSign) id) (from_utf8_lossy playlist)));
    _ ← modify (with_hls (keep (clock AtKeep) (clock AtKept) id hs));
    mret rewritten.

Definition playlist (clock : Moment → Z) (id : str) : Service str :=
  resolved ← resolve clock id;
  if negb (bool_decide (r_format resolved = HlsFormat))
  then fail (Unplayable (st "the External Track plays progressively; use its stream"))
  else
    response ← fetch clock id (r_url resolved) (r_headers resolved) Whole;
    rewrite clock id (r_headers resolved) response.

Definition resource (clock : Moment → Z) (id token : str) (range : RangeRequest) : Service Resource :=
  _ ← ensure_enabled;
  _ ← lift (map_err BadRequest (verify_track tracks_key id));
  url ← lift (map_err BadRequest (verify resources_key (clock AtVerify) token (fingerprint id)));
  s ← get;
  let hs := default (cache_headers id (entries s)) (hls_get (clock AtHeaders) id (hls_headers s)) in
  response ← fetch clock id url hs range;
  if RadioProxy.is_hls_content (content_type (headers response)) (fetched_url response)
  then text ← rewrite clock id hs response; mret (PlaylistText text)
  else mret (MediaResource (from_fetched response)).

(** ** Artwork *)

Definition ARTWORK_MAX_BYTES : Z := 2 * 2 ^ 20.
Definition ARTWORK_MEDIA_TYPES : list str := [st "image/jpeg"; st "image/png"; st "image/webp"].

Definition too_large : ExternalError := Failed (st "the External Track's artwork exceeds 2 MiB").

Fixpoint read_artwork (bytes : list byte) (items : list (str + list byte)) : outcome ExternalError (list byte) :=
  match items with
  | [] => Ok bytes
  | inl _ :: _ => Err (Failed (st "failed to read the External Track's artwork"))
  | inr chunk :: items =>
      if ARTWORK_MAX_BYTES <? zlen bytes + zlen chunk then Err too_large
      else read_artwork (bytes ++ chunk) items
  end.

Definition artwork_type (h : MediaHeaders) : option str :=
  value ← content_type h;
  find (λ allowed, bool_decide (allowed = RadioProxy.essence value)) ARTWORK_MEDIA_TYPES.

Definition announced_too_large (h : MediaHeaders) : bool :=
  match n ← content_length h; parse_u64 n with
  | Some length => ARTWORK_MAX_BYTES <? length
  | None => false
  end.

Definition fetch_artwork (url : str) : Service Artwork :=
  if negb (is_artwork_url url) then fail (Failed (st "unsafe artwork URL"))
  else
    parsed ← match url_parse url with
      | inl error => fail (Failed (parse_error_text error))
      | inr parsed => mret parsed
      end;
    answer ← ask (mkRequest parsed Whole [(st "accept", st "image/jpeg, image/png, image/webp")]);
    match answer with
    | inl error => fail (Failed (st "the External Track's artwork failed: " ++ cause_of error))
    | inr response =>
        if negb (status response =? 200)
        then fail (Failed (st "the External Track's artwork answered " ++ show (status response)))
        else
          type ← lift (ok_or (artwork_type (headers response))
                    (Failed (st "the External Track's artwork is not an image")));
          if announced_too_large (headers response) then fail too_large
          else
            bytes ← lift (read_artwork [] (body response));
            mret (mkArtwork type bytes)
    end.

(** [in_time]: the cover arrived within 15 seconds. *)
Definition artwork (in_time : bool) (id : str) : Service Artwork :=
  _ ← ensure_enabled;
  track ← lift (map_err BadRequest (verify_track tracks_key id));
  url ← lift (ok_or (t_artwork_url track) ArtworkMissing);
  result ← try (fetch_artwork url);
  if in_time then lift result
  else fail (Timeout (st "the External Track's artwork did not arrive within 15 s")).
End Service.
