(* ===== verification/ExternalSafety.v ===== *)
(** What the External Source may ask of the network: only public addresses, and
    nothing for an id this server did not issue. *)

From stdpp Require Import gmap.
From S2P Require Import Prelude Text GoJson StreamUrl Hls ExternalTokens YtDlp ExternalCache ExternalSource.
From S2P Require Metadata ListenTogether RadioProxy Values.

(** ** The requests of a computation *)

Section Asks.
Context `{Urls}.

(** Whatever way [m] ends, the requests it adds satisfy [Q], and a value it
    returns satisfies [P]. *)
Definition asks {E A} (Q : Request → Prop) (P : A → Prop) (m : M External E A) : Prop :=
  ∀ s, (∃ qs, requests (m s).2 = requests s ++ qs ∧ Forall Q qs) ∧ ∀ a, (m s).1 = Ok a → P a.

Lemma asks_bind {E A B} Q (R : A → Prop) (P : B → Prop) (m : M External E A) (f : A → M External E B) :
  asks Q R m → (∀ a, R a → asks Q P (f a)) → asks Q P (m ≫= f).
Proof.
  intros Hm Hf s. destruct (Hm s) as [(qs & Hqs & HQ) HR]. unfold mbind, M_bind.
  destruct (m s) as [[a|e| |] s'] eqn:He; simpl in *; [|by split; eauto..].
  destruct (Hf a (HR a eq_refl) s') as [(qs' & Hqs' & HQ') HP]. split; [|done].
  exists (qs ++ qs'). rewrite Hqs', Hqs, <-(assoc_L (++)). split; [done|]. by apply Forall_app.
Qed.

Lemma asks_still {E A} Q (P : A → Prop) (m : M External E A) :
  (∀ s, requests (m s).2 = requests s) → (∀ s a, (m s).1 = Ok a → P a) → asks Q P m.
Proof. intros Hm HP s. split; [|apply HP]. exists []. rewrite app_nil_r. by split. Qed.

Lemma asks_ret {E A} Q (P : A → Prop) (a : A) : P a → asks Q P (mret a : M External E A).
Proof. intros HP. apply asks_still; [done|]. intros s b [= <-]. done. Qed.

Lemma asks_fail {E A} Q (P : A → Prop) (e : E) : asks Q P (fail e : M External E A).
Proof. by apply asks_still. Qed.

Lemma asks_lift {E A} Q (P : A → Prop) (o : outcome E A) : (∀ a, o = Ok a → P a) → asks Q P (lift o).
Proof. intros HP. by apply asks_still. Qed.

Lemma asks_get {E} Q : asks Q (λ _, True) (get : M External E External).
Proof. by apply asks_still. Qed.

Lemma asks_modify {E} Q (f : External → External) : (∀ s, requests (f s) = requests s) →
  asks Q (λ _, True) (modify f : M External E unit).
Proof. intros Hf. by apply asks_still. Qed.

Lemma asks_ask {E} fetcher Q q : Q q → asks Q (λ _, True) (ask fetcher q : M External E _).
Proof. intros HQ s. split; [|done]. exists [q]. by split; [|constructor]. Qed.

Lemma asks_weaken {E A} Q (P P' : A → Prop) (m : M External E A) :
  asks Q P m → (∀ a, P a → P' a) → asks Q P' m.
Proof. intros Hm HP s. destruct (Hm s) as [? HP']. split; [done|]. intros a Ha. by apply HP, HP'. Qed.

Lemma asks_allowed {E A} (Q Q' : Request → Prop) (P : A → Prop) (m : M External E A) :
  asks Q P m → (∀ q, Q q → Q' q) → asks Q' P m.
Proof.
  intros Hm HQ s. destruct (Hm s) as [(qs & Hqs & Hall) HP]. split; [|done].
  exists qs. split; [done|]. by eapply Forall_impl.
Qed.

Lemma asks_try {E A} Q (P : A → Prop) (m : M External E A) : asks Q P m →
  asks Q (λ _, True) (try m).
Proof.
  intros Hm s. destruct (Hm s) as [Hq _]. unfold try.
  by destruct (m s) as [[a|e| |] s'].
Qed.

Lemma asks_on_err {E F A} Q (P : A → Prop) (f : E → F) (m : M External E A) : asks Q P m →
  asks Q P (on_err f m).
Proof.
  intros Hm s. destruct (Hm s) as [Hq HP]. unfold on_err.
  destruct (m s) as [[a|e| |] s']; simpl in *; (split; [done|]); intros b Hb; try done.
  injection Hb as <-. by apply HP.
Qed.

Definition public_request (q : Request) : Prop := public_url (q_url q).

(** The rest of an answer's body is read from a public address. *)
Definition public_rest (media : Media) : Prop :=
  match m_rest media with Some plan => public_url (p_url plan) | None => True end.
End Asks.

(** Steps over one bind whose value nothing depends on. *)
Ltac asks_step := eapply (asks_bind _ (λ _, True)); [|intros ? _].
Tactic Notation "asks_step" "as" ident(x) := eapply (asks_bind _ (λ _, True)); [|intros x _].

Section Safety.
Context `{Urls} `{Metadata.Unicode} `{ListenTogether.Crypto} `{TokenCodec} `{TrackCodec} `{WalkOrder}
  `{Values.SerdeJson} `{!JsonText}.
Variable config : Config.
Variables tracks_key resources_key : list byte.
Variable process : list str → option ProcessRun.
Variable fetcher : list Request → Request → str + Fetched.
Variable panic_text : str.

(** A [url] crate that reads back what it writes. *)
Variable parse_as_str : ∀ u, url_parse (as_str u) = inr u.

Abbreviation fetch := (fetch fetcher).
Abbreviation resolve := (resolve config tracks_key process panic_text).
Abbreviation open_stream := (open_stream config tracks_key process fetcher panic_text).
Abbreviation playlist := (playlist config tracks_key resources_key process fetcher panic_text).
Abbreviation resource := (resource config tracks_key resources_key fetcher).
Abbreviation artwork := (artwork config tracks_key fetcher).

Lemma asks_fetch clock id url hs range :
  asks public_request (λ _, True) (fetch clock id url hs range).
Proof.
  unfold ExternalSource.fetch. eapply (asks_bind _ (λ _, validate_stream_url url = Ok tt)).
  { apply asks_lift. intros [] Hv. by apply map_err_Ok in Hv. }
  intros _ (u & Hu & Hp)%validate_ok. rewrite Hu.
  eapply (asks_bind _ (λ v, v = u)); [by apply asks_ret|]. intros ? ->.
  asks_step as answer; [by apply asks_ask|]. destruct answer as [e|response]; [apply asks_fail|].
  destruct (_ || _); [by apply asks_ret|]. asks_step; [|apply asks_fail].
  case_bool_decide; [by apply asks_modify|by apply asks_ret].
Qed.

(** [id] stands for [track] under this server's signature: up to its only full stop
    it is the base64url text of the track, and after it that of the MAC which the
    server's key gives of that text; and the track is a web page's. *)
Definition signed (id : str) (track : TrackRef) : Prop :=
  (∃ payload mac, id = payload ++ 46 :: mac ∧ 46 ∉ payload ∧
     base64_url_decode mac = Some (ListenTogether.hmac_sha256 tracks_key (encode payload)) ∧
     ∃ json, base64_url_decode payload = Some json ∧ track_from_json json = Some track) ∧
  ∃ u, url_parse (t_url track) = inr u ∧ (scheme u = st "http" ∨ scheme u = st "https").

Definition issued (id : str) : Prop := ∃ track, signed id track.

Lemma verified_signed id track : verify_track tracks_key id = Ok track → signed id track.
Proof.
  intros (_ & _ & payload & mac & json & [-> Hdot]%split_once_Some & Hmac & Hpayload & Hjson & Ha)%verify_track_Ok.
  split; [by eauto 10|]. unfold acceptable, is_web_url in Ha. apply andb_true_iff in Ha as [[_ Hweb]%andb_true_iff _].
  destruct (url_parse (t_url track)) as [|u]; [done|]. exists u. split; [done|].
  by apply orb_true_iff in Hweb as [?%bool_decide_eq_true|?%bool_decide_eq_true]; [left|right].
Qed.

Lemma asks_enabled Q : asks Q (λ _, True) (ensure_enabled config).
Proof. by apply asks_lift. Qed.

Lemma asks_verified Q id : asks Q (signed id)
  (lift (map_err BadRequest (verify_track tracks_key id)) : M External ExternalError TrackRef).
Proof. apply asks_lift. intros t Ht%map_err_Ok. by apply verified_signed. Qed.

Lemma asks_resolve_task Q clock id track :
  asks Q (λ _, True) (resolve_task config process panic_text clock id track).
Proof.
  unfold resolve_task. asks_step; [by apply asks_lift|].
  destruct (cache_lifetime _ _); [|apply asks_fail..].
  asks_step; [by apply asks_modify|by apply asks_ret].
Qed.

Lemma asks_resolve Q clock id : asks Q (λ _, issued id) (resolve clock id).
Proof.
  unfold ExternalSource.resolve. asks_step; [apply asks_enabled|].
  eapply asks_bind; [apply asks_verified|]. intros track Hid.
  asks_step; [apply asks_get|]. destruct (cache_get _ _ _); [by apply asks_ret; exists track|].
  eapply asks_weaken; [apply asks_resolve_task|]. by exists track.
Qed.

Lemma asks_chunks clock id resolved chunk_size start end_ ranged head :
  asks public_request public_rest (fetch_in_chunks fetcher clock id resolved chunk_size start end_ ranged head).
Proof.
  unfold fetch_in_chunks. asks_step as room; [by apply asks_lift|]. asks_step as first; [apply asks_fetch|].
  destruct (if status first =? 206 then parse_content_range (headers first) else None)
    as [[[? served] total]|]; [|by apply asks_ret].
  eapply (asks_bind _ (λ _, public_url (fetched_url first))).
  { apply asks_lift. intros [] Hv. apply map_err_Ok, validate_ok in Hv as (u & Hu & Hp).
    rewrite parse_as_str in Hu. by injection Hu as <-. }
  intros _ Hp. asks_step; [asks_step; by apply asks_lift|].
  destruct head; [by apply asks_ret|]. asks_step; [by apply asks_lift|]. by apply asks_ret.
Qed.

(** What a call for [id] may ask. *)
Definition allowed (id : str) (q : Request) : Prop := issued id ∧ public_request q.

Lemma asks_issued {A} id (P : A → Prop) (m : M External ExternalError A) :
  issued id → asks public_request P m → asks (allowed id) P m.
Proof. intros Hid Hm. eapply asks_allowed; [done|]. by split. Qed.

Lemma asks_open_stream clock id range head :
  asks (allowed id) (λ media, issued id ∧ public_rest media) (open_stream clock id range head).
Proof.
  unfold ExternalSource.open_stream. eapply asks_bind; [apply asks_resolve|]. intros resolved Hid.
  destruct (negb _); [apply asks_fail|].
  assert (asks public_request public_rest
    (response ← fetch clock id (r_url resolved) (r_headers resolved) range; mret (from_fetched response))) as Hwhole.
  { asks_step; [apply asks_fetch|]. by apply asks_ret. }
  eapply asks_weaken; [apply asks_issued; [done|]|by split].
  destruct (r_chunk_size resolved); [|done]. destruct range; [apply asks_chunks..|done].
Qed.

Lemma asks_read_chunks fuel plan next : public_url (p_url plan) →
  asks public_request (λ _, True) (read_chunks fetcher fuel plan next).
Proof.
  intros Hp. revert next. induction fuel as [|fuel IH]; intros next; cbn [read_chunks];
    (destruct (_ <? _); [by apply asks_ret|]); [by apply asks_lift|].
  asks_step as room; [by apply asks_lift|]. asks_step as answer; [by apply asks_ask|].
  destruct answer as [e|response]; [|destruct (_ && _)];
    (asks_step; [apply IH|by apply asks_ret]).
Qed.

Lemma asks_read_body media : public_rest media → asks public_request (λ _, True) (read_body fetcher media).
Proof.
  unfold public_rest, read_body. destruct (m_rest media) as [plan|]; intros Hp; [|by apply asks_ret].
  asks_step; [by apply asks_read_chunks|by apply asks_ret].
Qed.

Lemma asks_rewrite clock id hs response :
  asks public_request (λ _, True) (rewrite resources_key clock id hs response).
Proof.
  unfold rewrite. destruct (negb _); [apply asks_fail|]. asks_step; [by apply asks_lift|].
  asks_step; [by apply asks_lift|]. asks_step; [by apply asks_modify|by apply asks_ret].
Qed.

(** A request for a cover is for the URL its track names. *)
Definition cover_request (url : str) (q : Request) : Prop := public_request q ∧ url_parse url = inr (q_url q).

Lemma asks_fetch_artwork url : asks (cover_request url) (λ _, True) (fetch_artwork fetcher url).
Proof.
  unfold fetch_artwork. destruct (is_artwork_url url) eqn:Ha; [|apply asks_fail]. cbn [negb].
  apply is_artwork_url_public in Ha as (u & Hu & _ & Hp). rewrite Hu.
  eapply (asks_bind _ (λ v, v = u)); [by apply asks_ret|]. intros ? ->.
  asks_step as answer; [by apply asks_ask|]. destruct answer as [e|response]; [apply asks_fail|].
  destruct (negb _); [apply asks_fail|]. asks_step; [by apply asks_lift|].
  destruct (announced_too_large _); [apply asks_fail|]. asks_step; [by apply asks_lift|]. by apply asks_ret.
Qed.

(** ** The calls of the service *)

Inductive Call :=
| CallSearch (query : str) (limit : Z)
| CallPlayback (id : str)
| CallStream (id : str) (range : RangeRequest) (head : bool)
| CallPlaylist (id : str)
| CallResource (id token : str) (range : RangeRequest)
| CallArtwork (in_time : bool) (id : str).

Definition call_id (c : Call) : option str :=
  match c with
  | CallSearch _ _ => None
  | CallPlayback id | CallStream id _ _ | CallPlaylist id | CallResource id _ _ | CallArtwork _ id => Some id
  end.

(** A call and, for a stream, the body its client reads to the end. *)
Definition run_call (clock : Moment → Z) (c : Call) : M External ExternalError unit :=
  match c with
  | CallSearch query limit => _ ← search config tracks_key process query limit; mret tt
  | CallPlayback id => _ ← playback config tracks_key process panic_text clock id; mret tt
  | CallStream id range head =>
      media ← open_stream clock id range head;
      _ ← on_err (Empty_set_rect _) (read_body fetcher media); mret tt
  | CallPlaylist id => _ ← playlist clock id; mret tt
  | CallResource id token range => _ ← resource clock id token range; mret tt
  | CallArtwork in_time id => _ ← artwork in_time id; mret tt
  end.

(** What a call may ask the network: public addresses, for an id the server signed;
    and for a cover the one of the signed track, nothing else. *)
Definition may_ask (c : Call) (q : Request) : Prop :=
  ∃ id track, call_id c = Some id ∧ signed id track ∧ public_request q ∧
    ∀ in_time, c = CallArtwork in_time id → ∃ url, t_artwork_url track = Some url ∧ url_parse url = inr (q_url q).

Lemma allowed_may_ask {A} c id (P : A → Prop) (m : M External ExternalError A) :
  call_id c = Some id → (∀ in_time, c ≠ CallArtwork in_time id) → asks (allowed id) P m → asks (may_ask c) P m.
Proof.
  intros Hc Hno Hm. eapply asks_allowed; [exact Hm|]. intros q [[track Ht] Hq]. exists id, track. split_and!; [done..|].
  intros in_time Heq. by destruct (Hno in_time).
Qed.

Lemma asks_call clock c : asks (may_ask c) (λ _, True) (run_call clock c).
Proof.
  destruct c as [query limit|id|id range head|id|id token range|in_time id]; cbn [run_call];
    try (apply (allowed_may_ask _ id); [done|by intros in_time [=]|]).
  - asks_step; [|by apply asks_ret]. unfold search. asks_step; [apply asks_enabled|].
    destruct (_ || _); [apply asks_fail|]. destruct (negb _); [apply asks_fail|].
    asks_step; [by apply asks_lift|]. by apply asks_ret.
  - asks_step; [|by apply asks_ret]. unfold playback.
    eapply asks_bind; [apply asks_resolve|]. intros. by apply asks_ret.
  - eapply asks_bind; [apply asks_open_stream|]. intros media [Hid Hm]. apply asks_issued; [done|].
    asks_step; [by eapply asks_on_err, asks_read_body|]. by apply asks_ret.
  - asks_step; [|by apply asks_ret]. unfold ExternalSource.playlist.
    eapply asks_bind; [apply asks_resolve|]. intros resolved Hid. apply asks_issued; [done|].
    destruct (negb _); [apply asks_fail|]. asks_step; [apply asks_fetch|apply asks_rewrite].
  - asks_step; [|by apply asks_ret]. unfold ExternalSource.resource. asks_step; [apply asks_enabled|].
    eapply asks_bind; [apply asks_verified|]. intros track Hid. apply asks_issued; [by exists track|].
    asks_step; [by apply asks_lift|]. asks_step; [apply asks_get|].
    asks_step; [apply asks_fetch|]. destruct (RadioProxy.is_hls_content _ _); [|by apply asks_ret].
    asks_step; [apply asks_rewrite|]. by apply asks_ret.
  - asks_step; [|by apply asks_ret]. unfold ExternalSource.artwork. asks_step; [apply asks_enabled|].
    eapply asks_bind; [apply asks_verified|]. intros track Hid.
    eapply (asks_bind _ (λ url, t_artwork_url track = Some url)); [by apply asks_lift; intros url Hurl%ok_or_Ok|]. intros url Hurl.
    eapply (asks_allowed (cover_request url)).
    { asks_step; [by eapply asks_try, asks_fetch_artwork|]. destruct in_time; [by apply asks_lift|apply asks_fail]. }
    intros q [Hp Hq]. exists id, track. split_and!; [done..|]. intros ? [= <-]. by exists url.
Qed.

(** Calls one after another, each with the clock it reads. *)
Fixpoint run_calls (calls : list ((Moment → Z) * Call)) (s : External) : External :=
  match calls with
  | [] => s
  | (clock, c) :: calls => run_calls calls (run_call clock c s).2
  end.

(** C21: over any sequence of calls the External Source asks the network for
    public addresses only (streams, every later chunk of them, playlists, their
    resources and covers alike), and only in a call whose id carries the MAC this
    server's key gives of the track it names; for a cover it asks for that track's
    own: a client cannot choose what is fetched. *)
Theorem external_asks_only_public (calls : list ((Moment → Z) * Call)) (s : External) (q : Request)
    (Hq : q ∈ requests (run_calls calls s)) :
  q ∈ requests s
  ∨ (public_url (q_url q)
     ∧ ∃ clock c id track, (clock, c) ∈ calls ∧ call_id c = Some id ∧ signed id track ∧
         ∀ in_time, c = CallArtwork in_time id → ∃ url, t_artwork_url track = Some url ∧ url_parse url = inr (q_url q)).
Proof.
  revert s Hq. induction calls as [|[clock c] calls IH]; intros s Hq; [by left|].
  cbn [run_calls] in Hq. apply IH in Hq as [Hq|(Hp & clock' & c' & id & track & Hin & Hid)].
  - destruct (asks_call clock c s) as [(qs & Hqs & Hall) _]. rewrite Hqs in Hq.
    apply elem_of_app in Hq as [?|Hq]; [by left|right].
    apply (proj1 (Forall_forall _ _) Hall) in Hq as (id & track & Hc & Hsigned & Hp & Hcover). split; [done|].
    exists clock, c, id, track. split; [by left|done].
  - right. split; [done|]. exists clock', c', id, track. split; [by right|done].
Qed.
End Safety.

(** ** A small instance *)

(** URLs of the two web schemes, which the parser reads back as written. *)
Definition web_urls : Urls := {|
  Url := bool * str;
  url_parse raw :=
    match strip_prefix (st "http://") raw with
    | Some rest => inr (false, rest)
    | None => match strip_prefix (st "https://") raw with
        | Some rest => inr (true, rest)
        | None => inl RelativeUrlWithoutBase
        end
    end;
  url_join _ _ := inl [];
  scheme u := if (u.1 : bool) then st "https" else st "http";
  host u := Some (Domain (default [] (head (split (Z.eqb 47) u.2))));
  url_path := snd;
  as_str u := (if (u.1 : bool) then st "https://" else st "http://") ++ u.2;
  query_pairs _ := [];
  relative_url_text := []
|}.

Lemma web_urls_parse u : @url_parse web_urls (@as_str web_urls u) = inr u.
Proof.
  destruct u as [[] rest]; simpl.
  - assert (strip_prefix (st "http://") (st "https://" ++ rest) = None) as Hn by done.
    unfold st in *. simpl in *. done.
  - done.
Qed.

Definition example_config : Config := mkConfig (Some (st "ytsearch")) [] (st "20") (st "30").

Definition cover_id : str := default []
  (@sign_track letters_crypto example_track_codec (bs "k")
     (mkTrackRef (st "http://a.b") (st "Yt") (Some (st "https://t.b")))).

Definition cover_server (_ : list (@Request web_urls)) (_ : @Request web_urls) : str + @Fetched web_urls :=
  inr (mkFetched (H := web_urls) 200 (true, st "t.b")
    (mkMediaHeaders (Some (st "image/png")) None None None None) [inr (bs "png")]).

Definition run_cover : @External web_urls :=
  (@run_calls web_urls long_uppercase letters_crypto letters_codec example_track_codec list_order flat flat_text
     example_config (bs "k") (bs "r") (λ _, None) cover_server []
     [(λ _, 0, CallArtwork true cover_id)] (mkExternal (H := web_urls) ∅ ∅ [])).

Lemma external_asks_only_public_witness :
  length (@requests web_urls run_cover) = 1%nat
  ∧ ∀ q, q ∈ @requests web_urls run_cover → @public_url web_urls (@q_url web_urls q).
Proof.
  split; [vm_compute; reflexivity|]. intros q Hq.
  destruct (@external_asks_only_public web_urls long_uppercase letters_crypto letters_codec example_track_codec
    list_order flat flat_text example_config (bs "k") (bs "r") (λ _, None) cover_server [] web_urls_parse
    [(λ _, 0, CallArtwork true cover_id)] (mkExternal (H := web_urls) ∅ ∅ []) q Hq) as [Hin|[Hp _]].
  - by apply elem_of_nil in Hin.
  - exact Hp.
Defined.
