(* ===== verification/ExternalStream.v ===== *)
(** A file that a site serves only in pieces, as one stream
    (server/src/modules/external_source/service.rs, [fetch_in_chunks]): what a
    listener gets from a server that answers ranges as it should. *)

From stdpp Require Import gmap.
From S2P Require Import Prelude Text GoJson StreamUrl Hls ExternalTokens YtDlp ExternalCache ExternalSource ExternalSafety.
From S2P Require Metadata ListenTogether RadioProxy Values.

Definition content_range_text (first last total : Z) : str :=
  st "bytes " ++ show first ++ st "-" ++ show last ++ st "/" ++ show total.

Lemma parse_content_range_text h first last total :
  content_range h = Some (content_range_text first last total) →
  0 <= first <= u64_max → 0 <= last <= u64_max → 0 <= total <= u64_max →
  parse_content_range h = Some (first, last, total).
Proof.
  intros Hh Hf Hl Ht. unfold parse_content_range. rewrite Hh. cbn [mbind option_bind].
  assert (trim (content_range_text first last total) = content_range_text first last total) as ->.
  { destruct (show total) as [|d ds _] eqn:He using rev_ind; [exfalso; apply (show_not_nil total); [lia|done]|].
    assert (is_digit d = true) as Hd.
    { apply (all_digits_elem (show total)); [apply show_digits; lia|]. rewrite He. set_solver. }
    apply (trim_ends _ 98 d); [done| |done|by destruct (digit_class d Hd) as (_ & -> & _)].
    unfold content_range_text. rewrite He, !(assoc_L (++)). by rewrite last_snoc. }
  unfold content_range_text at 1. rewrite strip_prefix_app. cbn [mbind option_bind].
  assert (split_once 47 (show first ++ st "-" ++ show last ++ st "/" ++ show total)
          = Some (show first ++ st "-" ++ show last, show total)) as ->.
  { apply split_once_Some. split; [by rewrite <-!(assoc_L (++))|].
    rewrite !not_elem_of_app. split; [by apply show_not_elem; [lia|]|]. split; [|by apply show_not_elem; [lia|]].
    apply not_elem_of_cons. split; [done|apply not_elem_of_nil]. }
  cbn [mbind option_bind].
  assert (split_once 45 (show first ++ st "-" ++ show last) = Some (show first, show last)) as ->.
  { apply split_once_Some. split; [done|]. by apply show_not_elem; [lia|]. }
  cbn [mbind option_bind]. rewrite !parse_u64_show by done. done.
Qed.

(** Runs the first step of a computation. *)
Lemma M_step {S E A B} (m : M S E A) (f : A → M S E B) s a s1 :
  m s = (Ok a, s1) → (m ≫= f) s = f a s1.
Proof. intros Hm. unfold mbind, M_bind. by rewrite Hm. Qed.

Section Stream.
Context `{Urls}.
Variable fetcher : list Request → Request → str + Fetched.
Variable file : list byte.
Variable final : Url.

Definition total : Z := zlen file.

(** The server answers a range that starts in the file with that range, cut at
    the file's end, and says which it is; its body comes in any pieces. *)
Definition serves_ranges : Prop := ∀ log q first last,
  q_range q = Single first (Some last) → 0 <= first < total → first <= last →
  ∃ h pieces, fetcher log q = inr (mkFetched 206 final h (inr <$> pieces))
    ∧ content_range h = Some (content_range_text first (Z.min last (total - 1)) total)
    ∧ concat pieces = sub file first (Z.min last (total - 1) - first + 1).

Hypothesis serves : serves_ranges.
Hypothesis small : total <= u64_max.

(** The ranges of requests: within the file's part from [a] on, of at most [c]
    bytes. *)
Definition small_range (a c : Z) (q : Request) : Prop :=
  ∃ first last, q_range q = Single first (Some last) ∧ a <= first <= last ∧ last - first < c.

Lemma read_chunks_whole fuel plan next (s : External) :
  0 <= next → p_last plan < total → 0 <= p_last plan → 1 <= p_chunk_size plan <= u64_max →
  next <= p_last plan + 1 →
  (p_last plan - next < p_chunk_size plan * Z.of_nat fuel) →
  ∃ pieces s' qs, read_chunks fetcher fuel plan next s = (Ok (inr <$> pieces), s')
    ∧ concat pieces = sub file next (p_last plan + 1 - next)
    ∧ requests s' = requests s ++ qs ∧ Forall (small_range next (p_chunk_size plan)) qs.
Proof.
  intros Hn Hlast Hlast0 Hc. set (last := p_last plan) in *. set (c := p_chunk_size plan) in *.
  revert next s Hn. induction fuel as [|fuel IH]; intros next s Hn Hle Hfuel; cbn [read_chunks];
    fold last; fold c; destruct (Z.ltb_spec last next) as [Hd|Hd].
  1, 3: exists [], s, []; split; [done|]; split; [|by rewrite app_nil_r];
    replace (last + 1 - next) with 0 by lia; done.
  { lia. }
  rewrite sub_u64_Ok by lia. unfold lift at 1. cbn [mbind M_bind]. unfold mbind, M_bind.
  set (chunk_last := Z.min last (sat_add next (c - 1))).
  assert (next <= chunk_last <= last) as Hcl by (unfold chunk_last, sat_add, u64_max in *; lia).
  assert (chunk_last - next < c) as Hsmall by (unfold chunk_last, sat_add; lia).
  unfold ask at 1.
  destruct (serves (requests s) (mkRequest (p_url plan) (byte_range next chunk_last) (p_headers plan))
    next chunk_last eq_refl) as (h & pieces & Hf & Hh & Hp); [lia..|].
  rewrite Hf. cbn [status headers body].
  replace (Z.min chunk_last (total - 1)) with chunk_last in * by lia.
  rewrite (parse_content_range_text h next chunk_last total) by (done || (unfold u64_max in *; lia)).
  rewrite bool_decide_true by done. cbn [andb Z.eqb Pos.eqb].
  assert (sat_add chunk_last 1 = chunk_last + 1) as -> by (unfold sat_add, u64_max in *; lia).
  destruct (decide (chunk_last = last)) as [Hall|Hmore].
  - assert (read_chunks fetcher fuel plan (chunk_last + 1)
      (mkExternal (entries s) (hls_headers s)
        (requests s ++ [mkRequest (p_url plan) (byte_range next chunk_last) (p_headers plan)]))
      = (Ok [], mkExternal (entries s) (hls_headers s)
        (requests s ++ [mkRequest (p_url plan) (byte_range next chunk_last) (p_headers plan)]))) as Hend.
    { destruct fuel; cbn [read_chunks]; fold last; by rewrite (proj2 (Z.ltb_lt _ _)) by lia. }
    rewrite Hend. eexists pieces, _, [_]. split; [by rewrite app_nil_r|]. split; [|split; [done|]].
    + rewrite Hp. f_equal. lia.
    + constructor; [|done]. exists next, chunk_last. split; [done|lia].
  - assert (chunk_last = next + c - 1) as Hc' by (unfold chunk_last, sat_add, u64_max in *; lia).
    destruct (IH (chunk_last + 1) (mkExternal (entries s) (hls_headers s)
      (requests s ++ [mkRequest (p_url plan) (byte_range next chunk_last) (p_headers plan)])))
      as (more & s' & qs & Hrun & Hcat & Hqs & Hall); [lia..|].
    rewrite Hrun. eexists (pieces ++ more), s', (_ :: qs). split; [by rewrite fmap_app|]. split.
    + rewrite concat_app, Hp, Hcat. replace (chunk_last + 1) with (next + (chunk_last - next + 1)) by lia.
      rewrite sub_app by lia. f_equal. lia.
    + split; [rewrite Hqs; cbn [requests]; by rewrite <-(assoc_L (++))|]. constructor.
      * exists next, chunk_last. split; [done|lia].
      * eapply Forall_impl; [exact Hall|]. intros q (f & l & ? & ? & ?). exists f, l. split; [done|lia].
Qed.

(** The last byte a request from [start] to [end_] gets. *)
Definition last_byte (end_ : option Z) : Z :=
  match end_ with Some e => Z.min e (total - 1) | None => total - 1 end.

Lemma chunk_rounds_enough plan : 1 <= p_chunk_size plan →
  p_last plan - p_next plan < p_chunk_size plan * Z.of_nat (chunk_rounds plan).
Proof.
  intros Hc. unfold chunk_rounds. set (n := p_last plan - p_next plan). set (c := p_chunk_size plan) in *.
  pose proof (Z.mod_pos_bound n c ltac:(lia)). pose proof (Z.div_mod n c ltac:(lia)).
  destruct (Z.le_gt_cases 0 (n / c)) as [Hq|Hq]; nia.
Qed.
End Stream.

Section Delivery.
Context `{Urls} `{Metadata.Unicode} `{ListenTogether.Crypto} `{TokenCodec} `{TrackCodec} `{WalkOrder}
  `{Values.SerdeJson} `{!JsonText}.

(** C22: a Track whose site serves it only in ranges of limited size is one
    stream to the listener: from a server that answers ranges as it should, a
    request for the whole file or for a range that starts in it is answered
    with the right status, length and range, its body is exactly those bytes in
    order, and no request asks for more than a chunk or for anything before the
    range. *)
Theorem chunked_stream_delivers (config : Config) (tracks_key : list byte)
    (process : list str → option ProcessRun) (fetcher : list Request → Request → str + Fetched)
    (panic_text : str) (clock : Moment → Z) (id : str) (range : RangeRequest)
    (file : list byte) (final u : Url) (resolved : Resolved) (c start : Z) (end_ : option Z) (s s0 : External)
    (Hserves : serves_ranges fetcher file final) (Hsmall : total file <= u64_max)
    (Hresolve : resolve config tracks_key process panic_text clock id s = (Ok resolved, s0))
    (Hformat : r_format resolved = Progressive) (Hchunk : r_chunk_size resolved = Some c)
    (Hc : 1 <= c <= u64_max)
    (Hurl : url_parse (r_url resolved) = inr u) (Hpublic : public_url u)
    (Hfinal : validate_stream_url (as_str final) = Ok tt)
    (Hrange : (range = Whole ∧ start = 0 ∧ end_ = None) ∨ range = Single start end_)
    (Hstart : 0 <= start < total file) (Hend : ∀ e, end_ = Some e → start <= e) :
  ∃ media s1 pieces s2 qs,
    open_stream config tracks_key process fetcher panic_text clock id range false s = (Ok media, s1)
    ∧ read_body fetcher media s1 = (Ok (inr <$> pieces), s2)
    ∧ concat pieces = sub file start (last_byte file end_ + 1 - start)
    ∧ content_length (m_headers media) = Some (show (last_byte file end_ + 1 - start))
    ∧ (m_status media, content_range (m_headers media))
      = (if decide (range = Whole) then (Full, None)
         else (Partial, Some (content_range_text start (last_byte file end_) (total file))))
    ∧ requests s2 = requests s0 ++ qs ∧ Forall (small_range start c) qs.
Proof.
  set (n := total file) in *. set (last := last_byte file end_).
  assert (start <= last < n) as Hlast.
  { unfold last, last_byte. fold n. destruct end_ as [e|]; [specialize (Hend e eq_refl)|]; lia. }
  set (asked := match end_ with Some e => Z.min e (sat_add start (c - 1)) | None => sat_add start (c - 1) end).
  assert (start <= asked ∧ asked - start < c) as [Ha Hac].
  { unfold asked, sat_add, u64_max in *. destruct end_ as [e|]; [specialize (Hend e eq_refl)|]; lia. }
  assert (Z.min asked (n - 1) <= last) as Hal.
  { unfold asked, last, last_byte. fold n. destruct end_ as [e|]; lia. }
  destruct (Hserves (requests s0) (mkRequest u (byte_range start asked) (r_headers resolved)) start asked eq_refl)
    as (h & pieces & Hf & Hh & Hp); [done..|]. fold n in Hh, Hp.
  set (s1 := mkExternal (entries s0) (hls_headers s0)
    (requests s0 ++ [mkRequest u (byte_range start asked) (r_headers resolved)])).
  assert (fetch fetcher clock id (r_url resolved) (r_headers resolved) (byte_range start asked) s0
          = (Ok (mkFetched 206 final h (inr <$> pieces)), s1)) as Hfetch.
  { unfold fetch. assert (validate_stream_url (r_url resolved) = Ok tt) as ->
      by (apply validate_ok; eauto). rewrite Hurl. run_m. unfold ask. rewrite Hf. done. }
  set (next := Z.min asked (n - 1) + 1).
  set (plan := mkPlan final next last c (r_headers resolved)).
  destruct (read_chunks_whole fetcher file final Hserves Hsmall (chunk_rounds plan) plan next s1)
    as (more & s2 & qs & Hrun & Hcat & Hqs & Hall).
  1-5: unfold plan, next; cbn [p_last p_chunk_size]; fold n; lia.
  { apply chunk_rounds_enough. cbn. lia. }
  set (hs := mkMediaHeaders (content_type h) (Some (show (last + 1 - start)))
    (if decide (range = Whole) then None else Some (content_range_text start last n))
    (Some (st "bytes")) (cache_control h)).
  exists (mkMedia (if decide (range = Whole) then Full else Partial) hs (inr <$> pieces) (Some plan)), s1,
    (pieces ++ more), s2, (mkRequest u (byte_range start asked) (r_headers resolved) :: qs).
  split; [|split; [|split; [|split; [done|split; [|split]]]]].
  - assert (fetch_in_chunks fetcher clock id resolved c start end_ (negb (bool_decide (range = Whole))) false s0
      = (Ok (mkMedia (if decide (range = Whole) then Full else Partial) hs (inr <$> pieces) (Some plan)), s1)) as Hchunks.
    { unfold fetch_in_chunks. erewrite M_step by (rewrite sub_u64_Ok by lia; done). cbn zeta. fold asked.
      erewrite M_step by apply Hfetch. cbn [status headers fetched_url body Z.eqb Pos.eqb].
      rewrite (parse_content_range_text h start (Z.min asked (n - 1)) n) by (done || (unfold u64_max in *; lia)).
      erewrite M_step by (rewrite Hfinal; done).
      replace (Z.max 0 (n - 1)) with (n - 1) by lia.
      change (match end_ with Some e => Z.min e (n - 1) | None => n - 1 end) with last.
      assert ((after ← lift (add_u64 last 1); lift (sub_u64 after start) : M External ExternalError Z) s1
        = (Ok (last + 1 - start), s1)) as Hlen.
      { rewrite add_u64_Ok by (unfold u64_max in *; lia). run_m. by rewrite sub_u64_Ok by lia. }
      erewrite M_step by apply Hlen.
      rewrite add_u64_Ok by (unfold u64_max in *; lia). run_m.
      unfold hs, plan, next. case_bool_decide; case_decide; done. }
    unfold open_stream. erewrite M_step by apply Hresolve. rewrite Hformat, Hchunk. simpl.
    destruct Hrange as [(-> & -> & ->)| ->]; exact Hchunks.
  - unfold read_body. cbn [m_rest m_body]. change (p_next plan) with next. erewrite M_step by apply Hrun.
    by rewrite fmap_app.
  - rewrite concat_app, Hp, Hcat. unfold plan, next. cbn [p_last].
    replace (Z.min asked (n - 1) + 1) with (start + (Z.min asked (n - 1) - start + 1)) by lia.
    rewrite sub_app by lia. f_equal. lia.
  - cbn [m_status m_headers hs content_range]. by case_decide.
  - rewrite Hqs. unfold s1. cbn [requests]. by rewrite <-(assoc_L (++)).
  - constructor; [exists start, asked; split; [done|lia]|]. eapply Forall_impl; [exact Hall|].
    intros q (f & l & ? & ? & ?). exists f, l. unfold next, plan in *. cbn [p_chunk_size] in *. split; [done|lia].
Qed.
End Delivery.

(** ** A small instance *)

Definition example_file : list byte := bs "abcdefghijklmnop".
Definition example_final : @Url web_urls := (true, st "cdn.b").

(** A server of one file that answers a range with two pieces. *)
Definition range_server (file : list byte) (_ : list (@Request web_urls)) (q : @Request web_urls)
    : str + @Fetched web_urls :=
  match @q_range web_urls q with
  | Single first (Some last) =>
      let last := Z.min last (zlen file - 1) in
      inr (mkFetched (H := web_urls) 206 example_final
        (mkMediaHeaders (Some (st "audio/mp4")) None (Some (content_range_text first last (zlen file))) None None)
        (inr <$> [sub file first 1; sub file (first + 1) (last - first)]))
  | _ => inl (st "no range")
  end.

Lemma range_server_serves : @serves_ranges web_urls (range_server example_file) example_file example_final.
Proof.
  intros log q first last Hq Hf Hl. unfold range_server. rewrite Hq.
  eexists _, _. split; [reflexivity|]. split; [reflexivity|]. cbn [concat]. rewrite app_nil_r.
  unfold total in *. rewrite sub_app by lia. f_equal. lia.
Qed.

(** Codecs that read every id as one Track. *)
Definition one_crypto : ListenTogether.Crypto := {|
  ListenTogether.sha256 _ := []; ListenTogether.hmac_sha256 _ _ := [];
  ListenTogether.hex_encode _ := st "f"; ListenTogether.base64_url _ := st "A" |}.
Definition one_codec : TokenCodec := {|
  base64_url_decode _ := Some []; claims_to_json _ := []; claims_from_json _ := None |}.
Definition one_track : TrackCodec := {| track_to_json _ := []; track_from_json _ := Some example_track |}.

Definition example_resolved : Resolved := mkResolved (st "http://a.b/x") Progressive [] (Some 5).

Definition example_external : @External web_urls :=
  mkExternal (H := web_urls) {[ (st "A.A") := mkKept (example_resolved, 0) 100 ]} ∅ [].

Lemma chunked_stream_delivers_witness : ∃ media s1 pieces s2 qs,
  @open_stream web_urls one_crypto one_codec one_track list_order flat flat_text
    example_config (bs "k") (λ _, None) (range_server example_file) [] (λ _, 50) (st "A.A") (Single 2 (Some 13)) false
    example_external = (Ok media, s1)
  ∧ @read_body web_urls (range_server example_file) media s1 = (Ok (inr <$> pieces), s2)
  ∧ concat pieces = bs "cdefghijklmn" ∧ Forall (@small_range web_urls 2 5) qs.
Proof.
  destruct (@chunked_stream_delivers web_urls one_crypto one_codec one_track list_order flat flat_text
    example_config (bs "k") (λ _, None) (range_server example_file) [] (λ _, 50) (st "A.A") (Single 2 (Some 13))
    example_file example_final (false, st "a.b/x") example_resolved 5 2 (Some 13) example_external example_external)
    as (media & s1 & pieces & s2 & qs & Hopen & Hread & Hcat & _ & _ & _ & Hall);
    [exact range_server_serves|by vm_compute|vm_compute; reflexivity|reflexivity|reflexivity|by vm_compute|reflexivity
    | | |by right|by vm_compute|intros e [= <-]; lia|].
  - split; [by left|]. eexists. split; [reflexivity|]. by vm_compute.
  - reflexivity.
  - exists media, s1, pieces, s2, qs. split; [exact Hopen|]. split; [exact Hread|]. split; [exact Hcat|exact Hall].
Defined.

(** A server whose answer starts elsewhere, in a file shorter than the range. *)
Definition short_server (_ : list (@Request web_urls)) (_ : @Request web_urls) : str + @Fetched web_urls :=
  inr (mkFetched (H := web_urls) 206 example_final
    (mkMediaHeaders None None (Some (st "bytes 0-0/1")) None None) [inr (bs "a")]).

(** The length announced is computed without comparing the answer's range with
    the one asked for, and underflows. *)
Example short_answer_panics :
  (@fetch_in_chunks web_urls short_server (λ _, 0) [] example_resolved 5 10 None true true
     (mkExternal (H := web_urls) ∅ ∅ [])).1 = Panic.
Proof. vm_compute. reflexivity. Qed.
