(* ===== verification/ExternalFlight.v ===== *)
(** Requests that wait for one resolution
    (server/src/modules/external_source/service.rs, [resolve] and [resolution]):
    a request that misses the cache joins the run of yt-dlp for its Track or
    starts one; the run is a task of its own, which fills the cache, leaves the
    table and hands its result to whoever still waits. A step is what one of
    them does under a lock, in any order. *)

From stdpp Require Import gmap.
From S2P Require Import Prelude Text StreamUrl YtDlp ExternalCache.

(** What a task has done: waiting for yt-dlp; it answered; the cache has it; it
    has left the table. A task that panicked ends without leaving it. *)
Inductive TaskState :=
| Running
| Ended (result : ExternalError + Resolved)
| Stored (result : ExternalError + Resolved)
| Done (result : ExternalError + Resolved)
| Panicked (result : ExternalError + Resolved).

Record Task := mkTask { task_id : str; task_state : TaskState }.

(** A request, and how far it is: it missed the cache; it waits for a task; it
    is answered. *)
Inductive CallerState :=
| Missed
| Waiting (task : nat)
| Answered (result : ExternalError + Resolved).

Record Flight := mkFlight {
  entries : gmap (list Z) (Kept (Resolved * Z));
  in_flight : gmap (list Z) nat;
  tasks : list Task;
  callers : gmap nat (str * CallerState)
}.

Inductive Event :=
| Ask (caller : nat) (id : str) (now : Z)
| Join (caller : nat)
| Answer (task : nat) (result : ExternalError + ResolvedFormat)
| Store (task : nat) (unix resolved_at now : Z)
| Leave (task : nat)
| Receive (caller : nat)
| GoAway (caller : nat)
| Refuse (id : str) (now : Z).

Section Flight.
Context `{Urls} `{WalkOrder}.
Variable panic_text : str.

Definition set_caller (r : nat) (c : str * CallerState) (s : Flight) : Flight :=
  mkFlight (entries s) (in_flight s) (tasks s) (<[r := c]> (callers s)).
Definition set_task (t : nat) (task : Task) (s : Flight) : Flight :=
  mkFlight (entries s) (in_flight s) (<[t := task]> (tasks s)) (callers s).
Definition set_entries (e : gmap (list Z) (Kept (Resolved * Z))) (s : Flight) : Flight :=
  mkFlight e (in_flight s) (tasks s) (callers s).

(** A request for [id]: answered from the cache, or not. *)
Definition ask_step (r : nat) (id : str) (now : Z) (s : Flight) : option Flight :=
  match callers s !! r with
  | Some _ => None
  | None =>
      let state := match cache_get now id (entries s) with
        | Some resolved => Answered (inr resolved)
        | None => Missed
        end in
      Some (set_caller r (id, state) s)
  end.

(** [resolution], under the lock of the table. *)
Definition join_step (r : nat) (s : Flight) : option Flight :=
  match callers s !! r with
  | Some (id, Missed) =>
      match in_flight s !! id with
      | Some t => Some (set_caller r (id, Waiting t) s)
      | None =>
          let t := length (tasks s) in
          Some (mkFlight (entries s) (<[id := t]> (in_flight s)) (tasks s ++ [mkTask id Running])
                  (<[r := (id, Waiting t)]> (callers s)))
      end
  | _ => None
  end.

Definition answer_step (t : nat) (result : ExternalError + ResolvedFormat) (s : Flight) : option Flight :=
  match tasks s !! t with
  | Some (mkTask id Running) =>
      let result := match result with inl e => inl e | inr f => inr (from_format f) end in
      Some (set_task t (mkTask id (Ended result)) s)
  | _ => None
  end.

(** The cache's turn. A lifetime that overflows ends the task here. *)
Definition store_step (t : nat) (unix resolved_at now : Z) (s : Flight) : option Flight :=
  match tasks s !! t with
  | Some (mkTask id (Ended (inl e))) => Some (set_task t (mkTask id (Stored (inl e))) s)
  | Some (mkTask id (Ended (inr resolved))) =>
      match cache_lifetime (r_url resolved) unix with
      | Ok lifetime =>
          Some (set_task t (mkTask id (Stored (inr resolved)))
            (set_entries (insert resolved_at now id resolved (lifetime * GoJson.NANOS) (entries s)) s))
      | _ => Some (set_task t (mkTask id (Panicked (inr resolved))) s)
      end
  | _ => None
  end.

Definition leave_step (t : nat) (s : Flight) : option Flight :=
  match tasks s !! t with
  | Some (mkTask id (Stored result)) =>
      Some (mkFlight (entries s) (delete id (in_flight s)) (<[t := mkTask id (Done result)]> (tasks s)) (callers s))
  | _ => None
  end.

(** What a waiting request gets of a task that has ended. *)
Definition task_answer (state : TaskState) : option (ExternalError + Resolved) :=
  match state with
  | Done result => Some result
  | Panicked _ => Some (inl (Failed (st "External Track resolution stopped: " ++ panic_text)))
  | _ => None
  end.

Definition receive_step (r : nat) (s : Flight) : option Flight :=
  match callers s !! r with
  | Some (id, Waiting t) =>
      task ← tasks s !! t;
      result ← task_answer (task_state task);
      Some (set_caller r (id, Answered result) s)
  | _ => None
  end.

Definition step (e : Event) (s : Flight) : option Flight :=
  match e with
  | Ask r id now => ask_step r id now s
  | Join r => join_step r s
  | Answer t result => answer_step t result s
  | Store t unix resolved_at now => store_step t unix resolved_at now s
  | Leave t => leave_step t s
  | Receive r => receive_step r s
  | GoAway r => Some (mkFlight (entries s) (in_flight s) (tasks s) (delete r (callers s)))
  | Refuse id now => Some (set_entries (forget_refused now id (entries s)) s)
  end.

Definition idle : Flight := mkFlight ∅ ∅ [] ∅.

Inductive reachable : Flight → Prop :=
| at_start : reachable idle
| after e s s' : reachable s → step e s = Some s' → reachable s'.

(** ** What holds in every reachable state *)

(** The task still runs yt-dlp, or is on its way out of the table. *)
Definition unfinished (task : Task) : Prop :=
  match task_state task with Running | Ended _ | Stored _ => True | _ => False end.

Definition task_result (state : TaskState) : option (ExternalError + Resolved) :=
  match state with
  | Running => None
  | Ended result | Stored result | Done result | Panicked result => Some result
  end.

(** yt-dlp, run for [id], answered [resolved]. *)
Definition resolved_for (id : str) (resolved : Resolved) (s : Flight) : Prop :=
  ∃ t task, tasks s !! t = Some task ∧ task_id task = id ∧ task_result (task_state task) = Some (inr resolved).

Definition is_done (state : TaskState) : bool := match state with Done _ => true | _ => false end.

Record flight_ok (s : Flight) : Prop := {
  table_tasks id t : in_flight s !! id = Some t →
    ∃ task, tasks s !! t = Some task ∧ task_id task = id ∧ is_done (task_state task) = false;
  unfinished_listed t task : tasks s !! t = Some task → unfinished task → in_flight s !! task_id task = Some t;
  waiters r id t : callers s !! r = Some (id, Waiting t) → ∃ task, tasks s !! t = Some task ∧ task_id task = id;
  cached id e : entries s !! id = Some e → resolved_for id (kept e).1 s;
  answers r id resolved : callers s !! r = Some (id, Answered (inr resolved)) → resolved_for id resolved s
}.

Lemma resolved_for_tasks id resolved s s' :
  (∀ t task, tasks s !! t = Some task → ∀ res, task_result (task_state task) = Some res →
     ∃ task', tasks s' !! t = Some task' ∧ task_id task' = task_id task ∧ task_result (task_state task') = Some res) →
  resolved_for id resolved s → resolved_for id resolved s'.
Proof.
  intros Hmono (t & task & Ht & Hid & Hres). destruct (Hmono t task Ht _ Hres) as (task' & ? & ? & ?).
  exists t, task'. split; [done|]. split; [congruence|done].
Qed.

(** A task moves on: its result, once there, stays. *)
Lemma resolved_for_set_task t task task' id resolved s s' :
  tasks s !! t = Some task → task_id task' = task_id task →
  (∀ res, task_result (task_state task) = Some res → task_result (task_state task') = Some res) →
  tasks s' = <[t := task']> (tasks s) →
  resolved_for id resolved s → resolved_for id resolved s'.
Proof.
  intros Ht Hid Hres Hs. apply resolved_for_tasks. intros t0 task0 Ht0 res Hr. rewrite Hs.
  destruct (decide (t0 = t)) as [->|Hne].
  - rewrite Ht in Ht0. injection Ht0 as <-. exists task'. split; [|by split; [|apply Hres]].
    apply list_lookup_insert_eq. by eapply lookup_lt_Some.
  - exists task0. by rewrite list_lookup_insert_ne by done.
Qed.

Lemma resolved_for_same id resolved s s' : tasks s' = tasks s → resolved_for id resolved s → resolved_for id resolved s'.
Proof. intros Hs. unfold resolved_for. by rewrite Hs. Qed.

Lemma cache_get_entry (now : Z) (id : str) (es : gmap (list Z) (Kept (Resolved * Z))) (resolved : Resolved) :
  cache_get now id es = Some resolved → ∃ e, es !! id = Some e ∧ (kept e).1 = resolved.
Proof.
  unfold cache_get, lookup_live. intros (x & Hx & ->)%fmap_Some. apply bind_Some in Hx as (e & He & Hx).
  exists e. split; [done|]. by destruct (_ <? _); simplify_eq.
Qed.

Lemma evict_subset {A} (m : gmap (list Z) (Kept A)) (k : str) (e : Kept A) : evict m !! k = Some e → m !! k = Some e.
Proof. unfold evict. destruct (oldest _) as [[g x]|]; [|done]. by intros [_ ?]%lookup_delete_Some. Qed.

Lemma insert_entry (resolved_at now : Z) (id : str) (resolved : Resolved) (lifetime : Z) (es : gmap (list Z) (Kept (Resolved * Z)))
    (k : str) (e : Kept (Resolved * Z)) :
  insert resolved_at now id resolved lifetime es !! k = Some e →
  (k = id ∧ (kept e).1 = resolved) ∨ es !! k = Some e.
Proof.
  unfold insert, insert_resolved_at. intros [[<- <-]|[_ He]]%lookup_insert_Some; [by left|right].
  destruct (decide (_ <= _)%nat) in He; [apply evict_subset in He|]; by apply lookup_live_live in He as [? _].
Qed.

Lemma forget_entry (now : Z) (id : str) (es : gmap (list Z) (Kept (Resolved * Z))) (k : str) (e : Kept (Resolved * Z)) :
  forget_refused now id es !! k = Some e → es !! k = Some e.
Proof.
  unfold forget_refused. destruct (es !! id) as [x|]; [|done]. destruct (_ <=? _); [|done].
  by intros [_ ?]%lookup_delete_Some.
Qed.

(** A caller's state changes and nothing else. *)
Lemma ok_set_caller r c s : flight_ok s →
  (∀ t, c.2 = Waiting t → ∃ task, tasks s !! t = Some task ∧ task_id task = c.1) →
  (∀ resolved, c.2 = Answered (inr resolved) → resolved_for c.1 resolved s) →
  flight_ok (set_caller r c s).
Proof.
  intros [I1 I2 I3 I4 I5] Hw Ha. split; simpl; [done|done| |done|].
  - intros r' id t [[<- ->]|[_ Hr]]%lookup_insert_Some; [by apply Hw|eauto].
  - intros r' id resolved [[<- ->]|[_ Hr]]%lookup_insert_Some; [by apply (Ha resolved)|].
    by apply (I5 r').
Qed.

(** A task moves on, in the table or leaving it. *)
Lemma ok_set_task t task task' es fl s s' : flight_ok s →
  tasks s !! t = Some task → task_id task' = task_id task → unfinished task →
  (∀ res, task_result (task_state task) = Some res → task_result (task_state task') = Some res) →
  s' = mkFlight es fl (<[t := task']> (tasks s)) (callers s) →
  (fl = in_flight s ∧ is_done (task_state task') = false
   ∨ fl = delete (task_id task) (in_flight s) ∧ ¬ unfinished task') →
  (∀ id e, es !! id = Some e → resolved_for id (kept e).1 s') →
  flight_ok s'.
Proof.
  intros [I1 I2 I3 I4 I5] Ht Hid Hun Hres -> Hfl Hes.
  assert (t < length (tasks s))%nat as Hlt by by eapply lookup_lt_Some.
  pose proof (I2 t task Ht Hun) as Hlisted.
  split; simpl.
  - intros id t0 Hin. assert (in_flight s !! id = Some t0) as Hin0.
    { destruct Hfl as [[-> _]|[-> _]]; [done|]. by apply lookup_delete_Some in Hin as [_ ?]. }
    destruct (I1 id t0 Hin0) as (task0 & Ht0 & Hid0 & Hd0).
    destruct (decide (t0 = t)) as [->|Hne].
    + rewrite Ht in Ht0. injection Ht0 as <-. exists task'. rewrite list_lookup_insert_eq by done.
      split; [done|]. split; [congruence|]. destruct Hfl as [[_ ?]|[-> _]]; [done|].
      rewrite Hid0 in Hin. by rewrite lookup_delete_eq in Hin.
    + exists task0. by rewrite list_lookup_insert_ne by done.
  - intros t0 task0 Ht0 Hun0. destruct (decide (t0 = t)) as [->|Hne].
    + rewrite list_lookup_insert_eq in Ht0 by done. injection Ht0 as <-. rewrite Hid.
      destruct Hfl as [[-> _]|[_ Hn]]; [done|by destruct (Hn Hun0)].
    + rewrite list_lookup_insert_ne in Ht0 by done. pose proof (I2 t0 task0 Ht0 Hun0) as Hl0.
      destruct Hfl as [[-> _]|[-> _]]; [done|]. rewrite lookup_delete_ne; [done|].
      intros He. rewrite He, Hl0 in Hlisted. congruence.
  - intros r id t0 Hr. destruct (I3 r id t0 Hr) as (task0 & Ht0 & Hid0).
    destruct (decide (t0 = t)) as [->|Hne].
    + rewrite Ht in Ht0. injection Ht0 as <-. exists task'. rewrite list_lookup_insert_eq by done. split; congruence.
    + exists task0. by rewrite list_lookup_insert_ne by done.
  - done.
  - intros r id resolved Hr. eapply resolved_for_set_task; [exact Ht|exact Hid|exact Hres|reflexivity|]. by apply (I5 r).
Qed.

Lemma step_ok e s s' : flight_ok s → step e s = Some s' → flight_ok s'.
Proof.
  intros Hok Hs. pose proof Hok as [I1 I2 I3 I4 I5]. destruct e as [r id now|r|t result|t unix at_ now|t|r|r|id now]; simpl in Hs.
  - unfold ask_step in Hs. destruct (callers s !! r); [done|]. injection Hs as <-.
    destruct (cache_get now id (entries s)) as [resolved|] eqn:Hc; apply ok_set_caller; try done; simpl.
    intros ? [= <-]. apply cache_get_entry in Hc as (e & He & <-). by apply I4.
  - unfold join_step in Hs. destruct (callers s !! r) as [[id [| |]]|] eqn:Hr; try done.
    destruct (in_flight s !! id) as [t|] eqn:Hf; injection Hs as <-.
    + apply ok_set_caller; [done| |done]. simpl. intros ? [= <-].
      destruct (I1 id t Hf) as (task & ? & ? & _). eauto.
    + assert (∀ t task, tasks s !! t = Some task → (tasks s ++ [mkTask id Running]) !! t = Some task) as Hold.
      { intros t task Ht. rewrite lookup_app_l; [done|]. by eapply lookup_lt_Some. }
      assert ((tasks s ++ [mkTask id Running]) !! length (tasks s) = Some (mkTask id Running)) as Hnew.
      { rewrite lookup_app_r, Nat.sub_diag by lia. done. }
      assert (∀ k resolved, resolved_for k resolved s → resolved_for k resolved
        (mkFlight (entries s) (<[id := length (tasks s)]> (in_flight s)) (tasks s ++ [mkTask id Running])
           (<[r := (id, Waiting (length (tasks s)))]> (callers s)))) as Hres.
      { intros k resolved. apply resolved_for_tasks. intros t task Ht res Hr'. exists task. split; [by apply Hold|done]. }
      split; simpl.
      * intros k t [[<- <-]|[_ Hk]]%lookup_insert_Some; [by eexists|].
        destruct (I1 k t Hk) as (task & Ht & ?). exists task. split; [by apply Hold|done].
      * intros t task Ht Hun. destruct (decide (t = length (tasks s))) as [->|Hne].
        { rewrite Hnew in Ht. injection Ht as <-. simpl. apply lookup_insert_eq. }
        assert (tasks s !! t = Some task) as Ht'.
        { apply lookup_app_Some in Ht as [?|[Hge Ht]]; [done|]. apply lookup_lt_Some in Ht as Hl. simpl in Hl. lia. }
        rewrite lookup_insert_ne; [by apply I2|]. intros He. rewrite He, (I2 t task Ht' Hun) in Hf. done.
      * intros r' k t [[<- [= <- <-]]|[_ Hr']]%lookup_insert_Some; [by eexists|].
        destruct (I3 r' k t Hr') as (task & Ht & ?). exists task. split; [by apply Hold|done].
      * intros k e He. by apply Hres, I4.
      * intros r' k resolved [[<- [= ]]|[_ Hr']]%lookup_insert_Some. by apply Hres, (I5 r').
  - unfold answer_step in Hs. destruct (tasks s !! t) as [[id []]|] eqn:Ht; try done. injection Hs as <-.
    set (res := match result with inl e => inl e | inr f => inr (from_format f) end).
    eapply (ok_set_task t (mkTask id Running) (mkTask id (Ended res)) (entries s) (in_flight s)); try done; [by left|].
    intros k e He. eapply (resolved_for_set_task t (mkTask id Running) (mkTask id (Ended res))); [exact Ht|done..|by apply I4].
  - unfold store_step in Hs. destruct (tasks s !! t) as [[id [|[err|resolved]| | |]]|] eqn:Ht; try done.
    + injection Hs as <-.
      eapply (ok_set_task t (mkTask id (Ended (inl err))) (mkTask id (Stored (inl err))) (entries s) (in_flight s));
        try done; [by left|].
      intros k e He. eapply (resolved_for_set_task t (mkTask id (Ended (inl err))) (mkTask id (Stored (inl err))));
        [exact Ht|done..|by apply I4].
    + destruct (cache_lifetime (r_url resolved) unix) as [lifetime|?| |] eqn:Hlife; injection Hs as <-.
      * eapply (ok_set_task t (mkTask id (Ended (inr resolved))) (mkTask id (Stored (inr resolved)))
          (insert at_ now id resolved (lifetime * GoJson.NANOS) (entries s)) (in_flight s)); try done; [by left|].
        intros k e [[-> He]|He]%insert_entry.
        -- exists t, (mkTask id (Stored (inr resolved))). split; [|by rewrite He].
           apply list_lookup_insert_eq. by eapply lookup_lt_Some.
        -- eapply (resolved_for_set_task t (mkTask id (Ended (inr resolved))) (mkTask id (Stored (inr resolved))));
             [exact Ht|done..|by apply I4].
      * by destruct e.
      * eapply (ok_set_task t (mkTask id (Ended (inr resolved))) (mkTask id (Panicked (inr resolved)))
          (entries s) (in_flight s)); try done; [by left|].
        intros k e He. eapply (resolved_for_set_task t (mkTask id (Ended (inr resolved))) (mkTask id (Panicked (inr resolved))));
          [exact Ht|done..|by apply I4].
      * eapply (ok_set_task t (mkTask id (Ended (inr resolved))) (mkTask id (Panicked (inr resolved)))
          (entries s) (in_flight s)); try done; [by left|].
        intros k e He. eapply (resolved_for_set_task t (mkTask id (Ended (inr resolved))) (mkTask id (Panicked (inr resolved))));
          [exact Ht|done..|by apply I4].
  - unfold leave_step in Hs. destruct (tasks s !! t) as [[id [| |res| |]]|] eqn:Ht; try done. injection Hs as <-.
    eapply (ok_set_task t (mkTask id (Stored res)) (mkTask id (Done res)) (entries s) (delete id (in_flight s)));
      try done; [by right; split; [|intros []]|].
    intros k e He. eapply (resolved_for_set_task t (mkTask id (Stored res)) (mkTask id (Done res)));
      [exact Ht|done..|by apply I4].
  - unfold receive_step in Hs. destruct (callers s !! r) as [[id [|t|]]|] eqn:Hr; try done.
    apply bind_Some in Hs as (task & Ht & Hs). apply bind_Some in Hs as (res & Hres & [= <-]).
    apply ok_set_caller; [done|done|]. simpl. intros resolved [= ->].
    destruct (I3 r id t Hr) as (task' & Ht' & Hid). rewrite Ht in Ht'. injection Ht' as <-.
    exists t, task. split; [done|]. split; [done|].
    by destruct (task_state task).
  - injection Hs as <-. split; simpl; [done|done| |done|].
    + intros r' id t [_ Hr]%lookup_delete_Some. by apply (I3 r').
    + intros r' id resolved [_ Hr]%lookup_delete_Some. by apply (I5 r').
  - injection Hs as <-. split; simpl; [done|done|done| |done].
    intros k e He%forget_entry. by apply I4.
Qed.

Lemma idle_ok : flight_ok idle.
Proof. by split; intros *; simpl. Qed.

Lemma reachable_ok s : reachable s → flight_ok s.
Proof. induction 1; [apply idle_ok|by eapply step_ok]. Qed.

(** C23: however requests, runs of yt-dlp and the cache interleave, at most one
    run for an External Track is going on at a time, every request that waits
    for it waits for the run of its own Track, and what a request is answered or
    the cache holds for a Track is what yt-dlp answered for that Track. *)
Theorem one_run_per_track (s : Flight) (Hs : reachable s) :
  (∀ t t' task task', tasks s !! t = Some task → tasks s !! t' = Some task' →
     unfinished task → unfinished task' → task_id task = task_id task' → t = t')
  ∧ (∀ r id t, callers s !! r = Some (id, Waiting t) → ∃ task, tasks s !! t = Some task ∧ task_id task = id)
  ∧ (∀ r id resolved, callers s !! r = Some (id, Answered (inr resolved)) → resolved_for id resolved s)
  ∧ (∀ now id resolved, cache_get now id (entries s) = Some resolved → resolved_for id resolved s).
Proof.
  apply reachable_ok in Hs as [I1 I2 I3 I4 I5]. split; [|split; [done|split; [done|]]].
  - intros t t' task task' Ht Ht' Hu Hu' Hid. pose proof (I2 _ _ Ht Hu) as H1. pose proof (I2 _ _ Ht' Hu') as H2.
    rewrite Hid, H2 in H1. by injection H1.
  - intros now id resolved (e & He & <-)%cache_get_entry. by apply I4.
Qed.

(** ** Every request that stays is answered *)

(** How far a task is from its end, and a request from its answer. *)
Definition task_rank (state : TaskState) : nat :=
  match state with Running => 4 | Ended _ => 3 | Stored _ => 2 | Done _ | Panicked _ => 1 end.

Definition caller_rank (s : Flight) (state : CallerState) : nat :=
  match state with
  | Missed => 5
  | Waiting t => match tasks s !! t with Some task => task_rank (task_state task) | None => 0 end
  | Answered _ => 0
  end.

Definition rank (r : nat) (s : Flight) : option nat :=
  caller_rank s ∘ snd <$> callers s !! r.

(** The step a request waits for, given what yt-dlp will answer and the clock. *)
Definition next_event (r : nat) (result : ExternalError + ResolvedFormat) (unix resolved_at now : Z)
    (s : Flight) : option Event :=
  match callers s !! r with
  | Some (_, Missed) => Some (Join r)
  | Some (_, Waiting t) =>
      task ← tasks s !! t;
      Some match task_state task with
        | Running => Answer t result
        | Ended _ => Store t unix resolved_at now
        | Stored _ => Leave t
        | Done _ | Panicked _ => Receive r
        end
  | _ => None
  end.

Lemma rank_set_task r t task task' es fl s :
  tasks s !! t = Some task → (task_rank (task_state task') <= task_rank (task_state task))%nat →
  ∀ n, rank r s = Some n →
  ∃ n', rank r (mkFlight es fl (<[t := task']> (tasks s)) (callers s)) = Some n' ∧ (n' <= n)%nat.
Proof.
  intros Ht Hle n. unfold rank. simpl. destruct (callers s !! r) as [[id st]|]; [|done]. intros [= <-].
  eexists. split; [reflexivity|]. simpl. destruct st as [|t0|]; simpl; [done| |done].
  destruct (decide (t0 = t)) as [->|Hne].
  - rewrite list_lookup_insert_eq by (by eapply lookup_lt_Some). by rewrite Ht.
  - by rewrite list_lookup_insert_ne by done.
Qed.

Lemma step_rank e s s' r n : flight_ok s → step e s = Some s' → e ≠ GoAway r →
  rank r s = Some n → ∃ n', rank r s' = Some n' ∧ (n' <= n)%nat.
Proof.
  intros [I1 I2 I3 I4 I5] Hs Hne Hn.
  destruct e as [r' id now|r'|t result|t unix at_ now|t|r'|r'|id now]; simpl in Hs.
  - unfold ask_step in Hs. destruct (callers s !! r') eqn:Hr; [done|]. injection Hs as <-.
    exists n. split; [|done]. unfold rank in *. simpl. rewrite lookup_insert_ne; [done|]. intros ->. by rewrite Hr in Hn.
  - unfold join_step in Hs. destruct (callers s !! r') as [[id [| |]]|] eqn:Hr; try done.
    destruct (decide (r' = r)) as [->|Hrr].
    + unfold rank in Hn. rewrite Hr in Hn. simpl in Hn. injection Hn as <-.
      destruct (in_flight s !! id) as [t|] eqn:Hf; injection Hs as <-; unfold rank; simpl; rewrite lookup_insert_eq;
        (eexists; split; [reflexivity|]); simpl.
      * destruct (I1 id t Hf) as (task & Ht & _). simpl. rewrite Ht. destruct (task_state task); simpl; lia.
      * rewrite lookup_app_r, Nat.sub_diag by lia. simpl. lia.
    + exists n. split; [|done]. unfold rank in *.
      destruct (callers s !! r) as [[id' st]|] eqn:Hr'; [|done].
      destruct (in_flight s !! id) as [t|]; injection Hs as <-; simpl; rewrite lookup_insert_ne, Hr' by done; simpl; [done|].
      rewrite <-Hn. simpl. f_equal. destruct st as [|t|]; simpl; [done| |done].
      destruct (I3 r id' t Hr') as (task & Ht & _). rewrite lookup_app_l; [done|]. by eapply lookup_lt_Some.
  - unfold answer_step in Hs. destruct (tasks s !! t) as [[id []]|] eqn:Ht; try done. injection Hs as <-.
    eapply rank_set_task; [exact Ht|simpl; lia|done].
  - unfold store_step in Hs. destruct (tasks s !! t) as [[id [|[err|resolved]| | |]]|] eqn:Ht; try done.
    + injection Hs as <-. eapply rank_set_task; [exact Ht|simpl; lia|done].
    + destruct (cache_lifetime _ _); injection Hs as <-;
        (eapply rank_set_task; [exact Ht|simpl; lia|done]).
  - unfold leave_step in Hs. destruct (tasks s !! t) as [[id [| |res| |]]|] eqn:Ht; try done. injection Hs as <-.
    eapply rank_set_task; [exact Ht|simpl; lia|done].
  - unfold receive_step in Hs. destruct (callers s !! r') as [[id [|t|]]|] eqn:Hr; try done.
    apply bind_Some in Hs as (task & Ht & Hs). apply bind_Some in Hs as (res & Hres & [= <-]).
    unfold rank in *. simpl. destruct (decide (r' = r)) as [->|Hrr].
    + rewrite lookup_insert_eq. eexists. split; [reflexivity|]. simpl. lia.
    + rewrite lookup_insert_ne by done. exists n. split; [exact Hn|done].
  - injection Hs as <-. exists n. split; [|done]. unfold rank in *. simpl.
    rewrite lookup_delete_ne; [done|congruence].
  - injection Hs as <-. exists n. split; [exact Hn|done].
Qed.

Lemma next_event_steps r result unix at_ now s n : flight_ok s →
  rank r s = Some n → (0 < n)%nat →
  ∃ e s' n', next_event r result unix at_ now s = Some e ∧ step e s = Some s'
    ∧ rank r s' = Some n' ∧ (n' < n)%nat.
Proof.
  intros [I1 I2 I3 I4 I5] Hn Hpos. unfold rank in Hn. unfold next_event.
  destruct (callers s !! r) as [[id [|t|res]]|] eqn:Hr; simpl in Hn; [| |simplify_eq; lia|done]; injection Hn as <-.
  - exists (Join r). simpl. unfold join_step. rewrite Hr.
    destruct (in_flight s !! id) as [t|] eqn:Hf; (eexists _, _; split; [done|]; split; [done|]);
      unfold rank; simpl; rewrite lookup_insert_eq; (split; [reflexivity|]); simpl.
    + destruct (I1 id t Hf) as (task & Ht & _). rewrite Ht. destruct (task_state task); simpl; lia.
    + rewrite lookup_app_r, Nat.sub_diag by lia. simpl. lia.
  - destruct (I3 r id t Hr) as (task & Ht & Hid). rewrite Ht in Hpos |- *. simpl.
    assert (t < length (tasks s))%nat as Hlt by by eapply lookup_lt_Some.
    destruct task as [k [|res|res|res|res]]; simpl in *; subst k; eexists _.
    + eexists _, _. split; [done|]. simpl. unfold answer_step. rewrite Ht. split; [done|].
      unfold rank. simpl. rewrite Hr. simpl. rewrite list_lookup_insert_eq by done. split; [done|simpl; lia].
    + assert (∃ s' task', store_step t unix at_ now s = Some s' ∧ callers s' = callers s
        ∧ tasks s' !! t = Some task' ∧ (task_rank (task_state task') < 3)%nat) as (s' & task' & Hst & Hc & Ht' & Hl).
      { unfold store_step. rewrite Ht. destruct res as [err|resolved]; [|destruct (cache_lifetime _ _)];
          (eexists _, _; split; [done|]; split; [done|]; simpl; rewrite list_lookup_insert_eq by done; split; [done|simpl; lia]). }
      exists s', (task_rank (task_state task')). split; [done|]. split; [exact Hst|].
      unfold rank. rewrite Hc, Hr. simpl. by rewrite Ht'.
    + eexists _, _. split; [done|]. simpl. unfold leave_step. rewrite Ht. split; [done|].
      unfold rank. simpl. rewrite Hr. simpl. rewrite list_lookup_insert_eq by done. split; [done|simpl; lia].
    + eexists _, _. split; [done|]. simpl. unfold receive_step. rewrite Hr, Ht. simpl. split; [done|].
      unfold rank. simpl. rewrite lookup_insert_eq. split; [done|simpl; lia].
    + eexists _, _. split; [done|]. simpl. unfold receive_step. rewrite Hr, Ht. simpl. split; [done|].
      unfold rank. simpl. rewrite lookup_insert_eq. split; [done|simpl; lia].
Qed.

(** C24: a request for a Track that stays is answered: unless it already is, a
    step of its own or of the run it waits for can be taken, whatever yt-dlp
    answers and the clock shows; each such step brings the answer nearer, no
    step of anyone else moves it away, and five of them are enough. *)
Theorem every_request_answered (s : Flight) (r : nat) (id : str) (state : CallerState)
    (result : ExternalError + ResolvedFormat) (unix resolved_at now : Z)
    (Hs : reachable s) (Hr : callers s !! r = Some (id, state)) :
  (caller_rank s state <= 5)%nat
  ∧ ((∃ answer, state = Answered answer)
     ∨ ∃ e s' n', next_event r result unix resolved_at now s = Some e ∧ step e s = Some s'
         ∧ rank r s' = Some n' ∧ (n' < caller_rank s state)%nat)
  ∧ (∀ e s', step e s = Some s' → e ≠ GoAway r →
       ∃ n', rank r s' = Some n' ∧ (n' <= caller_rank s state)%nat).
Proof.
  apply reachable_ok in Hs. pose proof Hs as [I1 I2 I3 I4 I5].
  assert (rank r s = Some (caller_rank s state)) as Hn by (unfold rank; by rewrite Hr).
  split; [|split].
  - destruct state as [|t|]; simpl; [lia| |lia]. destruct (tasks s !! t) as [task|]; [|lia].
    destruct (task_state task); simpl; lia.
  - destruct state as [|t|answer]; [right..|left; eauto]; (apply next_event_steps; [done|done|]); simpl; [lia|].
    destruct (I3 r id t Hr) as (task & -> & _). destruct (task_state task); simpl; lia.
  - intros e s' Hst Hne. by eapply step_rank.
Qed.

(** ** A task that panicked stays in the table *)

Definition stuck (id : str) (t : nat) (result : ExternalError + Resolved) (s : Flight) : Prop :=
  in_flight s !! id = Some t ∧ tasks s !! t = Some (mkTask id (Panicked result)).

(** Once the task of a Track panicked, no step ever takes it out of the table:
    later requests that miss the cache are handed its failure. *)
Lemma stuck_step e id t result s s' : flight_ok s → stuck id t result s → step e s = Some s' → stuck id t result s'.
Proof.
  intros [I1 I2 I3 I4 I5] [Hf Ht] Hs.
  assert (∀ t' task es fl, tasks s !! t' ≠ Some (mkTask id (Panicked result)) → fl !! id = Some t →
    stuck id t result (mkFlight es fl (<[t' := task]> (tasks s)) (callers s))) as Hother.
  { intros t' task es fl Hne Hfl. split; [done|]. simpl. rewrite list_lookup_insert_ne; [done|]. by intros ->. }
  destruct e as [r' k now|r'|t' res|t' unix at_ now|t'|r'|r'|k now]; simpl in Hs.
  - unfold ask_step in Hs. destruct (callers s !! r'); by simplify_eq.
  - unfold join_step in Hs. destruct (callers s !! r') as [[k [| |]]|]; try done.
    destruct (in_flight s !! k) as [t'|] eqn:Hk; injection Hs as <-; [by split|]. split; simpl.
    + rewrite lookup_insert_ne; [done|]. intros ->. by rewrite Hf in Hk.
    + rewrite lookup_app_l; [done|]. by eapply lookup_lt_Some.
  - unfold answer_step in Hs. destruct (tasks s !! t') as [[k []]|] eqn:Ht'; try done. injection Hs as <-.
    apply Hother; [by rewrite Ht'|done].
  - unfold store_step in Hs. destruct (tasks s !! t') as [[k [|[err|resolved]| | |]]|] eqn:Ht'; try done;
      [|destruct (cache_lifetime _ _)]; injection Hs as <-; (apply Hother; [by rewrite Ht'|done]).
  - unfold leave_step in Hs. destruct (tasks s !! t') as [[k [| |res| |]]|] eqn:Ht'; try done. injection Hs as <-.
    apply Hother; [by rewrite Ht'|]. rewrite lookup_delete_ne; [done|]. intros ->.
    pose proof (I2 _ _ Ht' I) as Hl. simpl in Hl. rewrite Hf in Hl. injection Hl as ->. by rewrite Ht in Ht'.
  - unfold receive_step in Hs. destruct (callers s !! r') as [[k [|t'|]]|]; try done.
    apply bind_Some in Hs as (task & _ & Hs). by apply bind_Some in Hs as (res & _ & [= <-]).
  - by injection Hs as <-.
  - by injection Hs as <-.
Qed.
End Flight.

(** ** Two requests for one Track *)

Definition example_format : ResolvedFormat := mkFormat (st "http://a.b/x") false [] None.

Fixpoint run_events `{Urls} `{WalkOrder} (es : list Event) (s : Flight) : option Flight :=
  match es with
  | [] => Some s
  | e :: es => s' ← step [] e s; run_events es s'
  end.

Lemma run_events_reachable `{Urls} `{WalkOrder} es s s' : reachable [] s → run_events es s = Some s' → reachable [] s'.
Proof.
  revert s. induction es as [|e es IH]; intros s Hs; cbn [run_events]; [by intros [= <-]|].
  intros (s1 & H1 & Hr)%bind_Some. eapply IH; [|exact Hr]. by eapply after.
Qed.

Definition two_waiting : Flight := default idle
  (@run_events example_urls list_order [Ask 1 (st "x") 0; Ask 2 (st "x") 0; Join 1; Join 2] idle).

Lemma two_waiting_reachable : @reachable example_urls list_order [] two_waiting.
Proof.
  eapply (run_events_reachable [Ask 1 (st "x") 0; Ask 2 (st "x") 0; Join 1; Join 2] idle); [constructor|reflexivity].
Qed.

Lemma one_run_per_track_witness :
  length (tasks two_waiting) = 1%nat
  ∧ ∃ task, tasks two_waiting !! 0%nat = Some task ∧ task_id task = st "x".
Proof.
  split; [reflexivity|].
  destruct (one_run_per_track (H := example_urls) (H0 := list_order) [] two_waiting two_waiting_reachable) as (_ & Hw & _).
  apply (Hw 2%nat (st "x") 0%nat). reflexivity.
Defined.

Lemma every_request_answered_witness :
  ∃ e s', next_event 2 (inr example_format) 0 0 0 two_waiting = Some e
    ∧ @step example_urls list_order [] e two_waiting = Some s'.
Proof.
  destruct (every_request_answered (H := example_urls) (H0 := list_order) [] two_waiting 2 (st "x") (Waiting 0)
    (inr example_format) 0 0 0 two_waiting_reachable eq_refl) as (_ & [(a & Ha)|(e & s' & n' & He & Hs & _)] & _).
  - discriminate Ha.
  - exists e, s'. split; [exact He|exact Hs].
Defined.
