(* ===== verification/ExternalHttp.v ===== *)
(** The External Source over HTTP
    (server/src/modules/external_source/handlers.rs, http.rs): ranges read from
    requests and written to the site's server, headers in both directions, the
    errors a client sees, and the responses. *)

From stdpp Require Import gmap.
From S2P Require Import Prelude Text GoJson Http StreamUrl Hls RadioProxy ExternalTokens YtDlp ExternalCache ExternalSource.
From S2P Require Metadata ListenTogether Values.

(** ** Errors *)

Definition error_text (e : ExternalError) : str :=
  match e with
  | Disabled => st "the External Source is not configured"
  | ArtworkMissing => st "the External Track has no artwork"
  | BadRequest message | Unplayable message | Failed message | Unavailable message | Timeout message => message
  end.

(** [ApiError::from] an External Source error. *)
Definition external_api_error (e : ExternalError) : ApiError :=
  let '(status, code) := match e with
    | Disabled => (404, "external_source_disabled"%string)
    | BadRequest _ => (400, "bad_request"%string)
    | ArtworkMissing => (404, "external_track_artwork_missing"%string)
    | Unplayable _ => (422, "external_track_unplayable"%string)
    | Failed _ => (502, "external_source_failed"%string)
    | Unavailable _ => (503, "external_source_unavailable"%string)
    | Timeout _ => (504, "external_source_timeout"%string)
    end in
  api_error status (st code) (error_text e).

(** ** Ranges *)

(** A single [bytes=<start>-[<end>]] range; [None] for anything else. *)
Definition parse_range (value : HeaderValue) : option (Z * option Z) :=
  text ← to_str value;
  spec ← strip_prefix (st "bytes=") (trim text);
  '(start, end_) ← split_once 45 spec;
  start ← parse_u64 (trim start);
  end_ ← (if bool_decide (trim end_ = []) then Some None else Some <$> parse_u64 (trim end_));
  if (match end_ with Some e => start <=? e | None => true end : bool) then Some (start, end_) else None.

Definition range_request (value : option HeaderValue) : RangeRequest :=
  match value with
  | None => Whole
  | Some value =>
      match parse_range value with
      | Some (start, end_) => Single start end_
      | None => OtherRange (value_bytes value)
      end
  end.

(** The upstream [Range]; the client's own value is passed on as it was. *)
Definition text_value (s : str) : HeaderValue := mkHeader (encode s) (Some s).

Definition range_text (start : Z) (end_ : option Z) : str :=
  st "bytes=" ++ show start ++ st "-" ++ match end_ with Some e => show e | None => [] end.

Section Values.
(** [HeaderValue::from_bytes] and [HeaderValue::from_str]. *)
Variable header_value : list byte → option HeaderValue.
(** [HeaderName::from_bytes], as the name it reads. *)
Variable header_name : str → option str.

Definition range_header (range : RangeRequest) : option HeaderValue :=
  match range with
  | Whole => None
  | Single start end_ => Some (text_value (range_text start end_))
  | OtherRange raw => header_value raw
  end.

(** The request headers that are valid HTTP; a later value of a name replaces
    an earlier one. *)
Definition request_headers (hs : RequestHeaders) : HeaderMap :=
  foldl (λ map h,
    match header_name h.1, header_value (encode h.2) with
    | Some name, Some value => <[name := value]> map
    | _, _ => map
    end) ∅ hs.

(** ** Headers *)

Definition header_text (hs : HeaderMap) (name : string) : option str := v ← hs !! st name; to_str v.

(** The upstream headers the service reads or passes on. *)
Definition media_headers (hs : HeaderMap) : MediaHeaders := mkMediaHeaders
  (header_text hs "content-type") (header_text hs "content-length") (header_text hs "content-range")
  (header_text hs "accept-ranges") (header_text hs "cache-control").

Definition put_header (name : string) (value : option str) (hs : HeaderMap) : HeaderMap :=
  match value ← value; header_value (encode value) with
  | Some value => <[st name := value]> hs
  | None => hs
  end.

Definition header_map (h : MediaHeaders) : HeaderMap :=
  put_header "cache-control" (cache_control h)
  (put_header "accept-ranges" (accept_ranges h)
  (put_header "content-range" (content_range h)
  (put_header "content-length" (content_length h)
  (put_header "content-type" (content_type h) ∅)))).

(** ** Responses *)

Definition status_code (s : MediaStatus) : Z :=
  match s with Full => 200 | Partial => 206 | Unsatisfiable => 416 end.

(** A response: its status, its headers, and a body that is text, bytes or an
    upstream's. *)
Inductive ResponseBody `{Urls} := Text_ (text : str) | Bytes_ (bytes : list byte) | Stream_ (media : Media).
Record Response `{Urls} := mkResponse { code : Z; response_headers : HeaderMap; response_body : ResponseBody }.
Arguments Text_ {_} _.
Arguments Bytes_ {_} _.
Arguments Stream_ {_} _.
Arguments mkResponse {_} _ _ _.

(** [media]: served as a media type only. *)
Definition media_response `{Urls} (media : Media) : Response := mkResponse
  (status_code (m_status media)) (copy_stream_headers (header_map (m_headers media)) true) (Stream_ media).

Definition hls_response `{Urls} (playlist : str) : Response := mkResponse 200
  (<[st "cache-control" := from_static "no-store"]>
   (<[st "content-type" := from_static HLS_CONTENT_TYPE]> (copy_stream_headers ∅ false)))
  (Text_ playlist).

Definition image_response `{Urls} (artwork : Artwork) : Response := mkResponse 200
  (<[st "content-type" := text_value (media_type artwork)]>
   (<[st "x-content-type-options" := from_static "nosniff"]>
    (<[st "cache-control" := from_static "private, max-age=3600"]> ∅)))
  (Bytes_ (data artwork)).

Definition resource_response `{Urls} (r : Resource) : Response :=
  match r with PlaylistText text => hls_response text | MediaResource media => media_response media end.

(** The [limit] of a search. *)
Definition DEFAULT_SEARCH_LIMIT : Z := 10.

Definition search_limit_of (raw : str) : outcome ApiError Z :=
  if bool_decide (raw = []) then Ok DEFAULT_SEARCH_LIMIT
  else ok_or (parse_u64 raw) (with_field (st "limit") (bad_request (st "limit must be between 1 and 20"))).
End Values.

(** ** The routes *)

Section Routes.
Context `{Urls} `{Metadata.Unicode} `{ListenTogether.Crypto} `{TokenCodec} `{TrackCodec} `{WalkOrder}
  `{Values.SerdeJson} `{!JsonText}.
Variable config : Config.
Variables tracks_key resources_key : list byte.
Variable process : list str → option ProcessRun.
Variable fetcher : list Request → Request → str + Fetched.
Variable panic_text : str.
Variable header_value : list byte → option HeaderValue.

Definition api {A} (m : M External ExternalError A) : M External ApiError A := on_err external_api_error m.

Definition search_handler (query : GoQuery) : M External ApiError SearchResults :=
  _ ← api (ensure_enabled config);
  limit ← lift (search_limit_of (query_get query (st "limit")));
  api (search config tracks_key process (query_get query (st "q")) limit).

Definition playback_handler (clock : Moment → Z) (id : str) : M External ApiError Playback :=
  api (playback config tracks_key process panic_text clock id).

Definition stream_handler (clock : Moment → Z) (id method : str) (range : option HeaderValue)
    : M External ApiError Response :=
  media ← api (open_stream config tracks_key process fetcher panic_text clock id (range_request range)
                 (bool_decide (method = st "HEAD")));
  mret (media_response header_value media).

Definition playlist_handler (clock : Moment → Z) (id : str) : M External ApiError Response :=
  text ← api (playlist config tracks_key resources_key process fetcher panic_text clock id);
  mret (hls_response text).

Definition resource_handler (clock : Moment → Z) (id token : str) (range : option HeaderValue)
    : M External ApiError Response :=
  r ← api (resource config tracks_key resources_key fetcher clock id token (range_request range));
  mret (resource_response header_value r).

Definition artwork_handler (in_time : bool) (id : str) : M External ApiError Response :=
  a ← api (artwork config tracks_key fetcher in_time id);
  mret (image_response a).
End Routes.

(** ** Ranges reach the site's server as they were asked *)

(** A single range the handlers can read: within [u64], the end not before the
    start. *)
Definition range_ok (start : Z) (end_ : option Z) : Prop :=
  0 <= start <= u64_max ∧ ∀ e, end_ = Some e → start <= e <= u64_max.

Lemma no_space_digits n : 0 <= n → ∀ c, c ∈ show n → is_whitespace c = false.
Proof. intros Hn c Hc. apply digit_class. eapply all_digits_elem; [|done]. by apply show_digits. Qed.

Lemma range_text_spaceless start end_ : range_ok start end_ →
  ∀ c, c ∈ range_text start end_ → is_whitespace c = false.
Proof.
  intros [Hs He] c. unfold range_text. rewrite !elem_of_app. intros [Hc|[Hc|[Hc|Hc]]].
  - assert (forallb (λ c, negb (is_whitespace c)) (st "bytes=") = true) as Hall by done.
    rewrite forallb_forall in Hall. apply negb_true_iff, Hall. by apply list_elem_of_In.
  - by apply (no_space_digits start); [lia|].
  - assert (forallb (λ c, negb (is_whitespace c)) (st "-") = true) as Hall by done.
    rewrite forallb_forall in Hall. apply negb_true_iff, Hall. by apply list_elem_of_In.
  - destruct end_ as [e|]; [|by apply elem_of_nil in Hc]. specialize (He e eq_refl).
    by apply (no_space_digits e); [lia|].
Qed.

(** The range the server is sent is the one the handler read: writing a single
    range and reading it gives it back. *)
Lemma range_roundtrip start end_ : range_ok start end_ →
  range_request (Some (text_value (range_text start end_))) = Single start end_.
Proof.
  intros Hok. pose proof Hok as [Hs He]. unfold range_request, parse_range, text_value.
  cbn [to_str mbind option_bind]. rewrite (trim_id (range_text start end_)) by by apply range_text_spaceless.
  unfold range_text. rewrite strip_prefix_app. cbn [mbind option_bind].
  assert (split_once 45 (show start ++ st "-" ++ match end_ with Some e => show e | None => [] end)
    = Some (show start, match end_ with Some e => show e | None => [] end)) as ->.
  { apply split_once_Some. split; [done|]. by apply show_not_elem; [lia|]. }
  cbn [mbind option_bind]. rewrite (trim_id (show start)) by (apply no_space_digits; lia).
  rewrite parse_u64_show by lia. cbn [mbind option_bind].
  destruct end_ as [e|]; [|done]. specialize (He e eq_refl).
  rewrite (trim_id (show e)) by (apply no_space_digits; lia).
  rewrite bool_decide_false by (apply show_not_nil; lia). rewrite parse_u64_show by lia. simpl.
  by rewrite (proj2 (Z.leb_le _ _)) by lia.
Qed.

(** An answer with media is served as a media type, not sniffed and sandboxed. *)
Lemma media_response_fixed `{Urls} header_value media :
  (∃ v, response_headers (media_response header_value media) !! st "content-type" = Some v
        ∧ is_stream_content_type v = true)
  ∧ response_headers (media_response header_value media) !! st "x-content-type-options" = Some (from_static "nosniff")
  ∧ response_headers (media_response header_value media) !! st "content-security-policy" = Some (from_static "sandbox").
Proof. apply copy_stream_headers_fixed. Qed.
