(* ===== verification/Catalog.v ===== *)
(** The Library's tables, as Permanent Track Deletion uses them
    (server/src/modules/managed_import/deletion.rs, server/migrations/): the
    columns it reads, the statements it makes and the constraints that can refuse
    them. A table with a key is a map. Tables that only cascade with a Track, an
    Album or an Artist (genres, lyrics, waveforms) are left out. *)

From stdpp Require Import gmap sets sorting.
From S2P Require Import Prelude Text Journal.

(** ** Rows *)

Record TrackRow := mkTrack {
  t_title : str;
  t_title_sort : str;
  t_album : str;
  t_revision : Z;
  t_missing : bool;
  t_pending_commit : bool;
  t_disc_no : option Z;
  t_track_no : option Z;
  t_identified : bool
}.

Record SourceRow := mkSource {
  s_kind : str;
  s_path : str;
  s_sha256 : str;
  s_size : Z;
  s_revision : Z
}.

Record AlbumRow := mkAlbum { al_title : str; al_revision : Z; al_artist : str }.
Record ArtworkRow := mkArtworkRow { aw_source : str; aw_path : str; aw_sha256 : str }.

(** A row of permanent_track_deletions; a NULL reads as empty. *)
Record DeletionRow := mkDeletion {
  d_track : str;
  d_path : str;
  d_sha256 : str;
  d_artwork_path : str;
  d_artwork_sha256 : str
}.

(** Sources by Track, artwork by Album; a credit is a pair with its Artist, a
    playlist's entry a pair with its Track. The deletions are in the order they
    are read, oldest first. *)
Record Catalog := mkCatalog {
  tracks : gmap (list Z) TrackRow;
  sources : gmap (list Z) SourceRow;
  albums : gmap (list Z) AlbumRow;
  artwork : gmap (list Z) ArtworkRow;
  artists : gset (list Z);
  track_artists : gset (list Z * list Z);
  album_artists : gset (list Z * list Z);
  playlists : gmap (list Z) str;
  playlist_tracks : gset (list Z * list Z);
  queue : list (str * str);
  queue_state : gmap (list Z) (Z * Z);
  deletions : list DeletionRow
}.

Abbreviation DB := (Tables Catalog).

Definition with_library (d : DB) (c : Catalog) : DB := mkTables (replacements d) (commits d) (jobs d) c.

(** ** Orders *)

Definition str_compare (a b : str) : comparison :=
  if bool_decide (a = b) then Eq else if str_leb a b then Lt else Gt.
Definition lex (a b : comparison) : comparison := match a with Eq => b | c => c end.
Definition in_order {A} (compare : A → A → comparison) (x y : A) : Prop := compare x y ≠ Gt.

#[export] Instance in_order_dec {A} (compare : A → A → comparison) : RelDecision (in_order compare).
Proof. intros x y. unfold in_order. destruct (compare x y); [left|left|right]; congruence. Defined.

Definition order_by {A} (compare : A → A → comparison) (rows : list A) : list A :=
  merge_sort (in_order compare) rows.

(** ** What is read *)

Record PlaylistReference := mkPlaylist { pl_id : str; pl_name : str }.
Record QueueReference := mkQueue { q_user : str; q_count : Z }.
Record QueueInvalidation := mkInvalidation { i_user : str; i_revision : str; i_sequence : str }.

(** [list_playlists]. *)
Definition listed_playlists (track : str) (c : Catalog) : list PlaylistReference :=
  order_by (λ a b, lex (str_compare (pl_name a) (pl_name b)) (str_compare (pl_id a) (pl_id b)))
    (omap (λ e : list Z * list Z, if decide (e.2 = track) then mkPlaylist e.1 <$> playlists c !! e.1 else None)
      (elements (playlist_tracks c))).

Definition queue_holds (user track : str) (c : Catalog) : list (str * str) :=
  filter (λ e : str * str, e = (user, track)) (queue c).

(** [list_queues]. *)
Definition listed_queues (track : str) (c : Catalog) : list QueueReference :=
  (λ user, mkQueue user (zlen (queue_holds user track c))) <$>
    order_by str_compare
      (elements (list_to_set (fst <$> filter (λ e : str * str, e.2 = track) (queue c)) : gset (list Z))).

(** Another Track of the Album, the first by its id. *)
Definition album_tracks (album : str) (c : Catalog) : gset (list Z) :=
  dom (filter (λ e : list Z * TrackRow, t_album e.2 = album) (tracks c)).
Definition other_track (track album : str) (c : Catalog) : option str :=
  head (order_by str_compare (elements (album_tracks album c ∖ {[track]}))).

(** [track_and_album_artist_ids]. *)
Definition credited (track album : str) (c : Catalog) : gset (list Z) :=
  set_map snd (filter (λ e : list Z * list Z, e.1 = track) (track_artists c))
  ∪ set_map snd (filter (λ e : list Z * list Z, e.1 = album) (album_artists c)).

Definition pending_album (track : str) (c : Catalog) : option str :=
  if bool_decide (track ∈ (d_track <$> deletions c)) then t_album <$> tracks c !! track else None.

(** ** What is written *)

Definition with_tracks (f : gmap (list Z) TrackRow → gmap (list Z) TrackRow) (c : Catalog) : Catalog :=
  mkCatalog (f (tracks c)) (sources c) (albums c) (artwork c) (artists c) (track_artists c) (album_artists c)
    (playlists c) (playlist_tracks c) (queue c) (queue_state c) (deletions c).
Definition with_deletions (f : list DeletionRow → list DeletionRow) (c : Catalog) : Catalog :=
  mkCatalog (tracks c) (sources c) (albums c) (artwork c) (artists c) (track_artists c) (album_artists c)
    (playlists c) (playlist_tracks c) (queue c) (queue_state c) (f (deletions c)).
Definition with_artwork (f : gmap (list Z) ArtworkRow → gmap (list Z) ArtworkRow) (c : Catalog) : Catalog :=
  mkCatalog (tracks c) (sources c) (albums c) (f (artwork c)) (artists c) (track_artists c) (album_artists c)
    (playlists c) (playlist_tracks c) (queue c) (queue_state c) (deletions c).
Definition with_queue (f : list (str * str) → list (str * str)) (c : Catalog) : Catalog :=
  mkCatalog (tracks c) (sources c) (albums c) (artwork c) (artists c) (track_artists c) (album_artists c)
    (playlists c) (playlist_tracks c) (f (queue c)) (queue_state c) (deletions c).
Definition with_queue_state (f : gmap (list Z) (Z * Z) → gmap (list Z) (Z * Z)) (c : Catalog) : Catalog :=
  mkCatalog (tracks c) (sources c) (albums c) (artwork c) (artists c) (track_artists c) (album_artists c)
    (playlists c) (playlist_tracks c) (queue c) (f (queue_state c)) (deletions c).
Definition with_playlist_tracks (f : gset (list Z * list Z) → gset (list Z * list Z)) (c : Catalog) : Catalog :=
  mkCatalog (tracks c) (sources c) (albums c) (artwork c) (artists c) (track_artists c) (album_artists c)
    (playlists c) (f (playlist_tracks c)) (queue c) (queue_state c) (deletions c).

Definition set_missing (missing : bool) (t : TrackRow) : TrackRow :=
  mkTrack (t_title t) (t_title_sort t) (t_album t) (t_revision t) missing (t_pending_commit t)
    (t_disc_no t) (t_track_no t) (t_identified t).

(** [content_sha256]'s CHECK: 64 lowercase hexadecimal digits. *)
Definition is_sha256 (s : str) : bool :=
  (length s =? 64)%nat && forallb (λ c, in_range 48 57 c || in_range 97 102 c) s.

(** [INSERT INTO permanent_track_deletions], whose key is the Track. *)
Definition insert_deletion (r : DeletionRow) (c : Catalog) : option Catalog :=
  if bool_decide (d_track r ∉ (d_track <$> deletions c)) && bool_decide (is_Some (tracks c !! d_track r))
     && is_sha256 (d_sha256 r)
     && (if bool_decide (d_artwork_path r = []) then bool_decide (d_artwork_sha256 r = [])
         else is_sha256 (d_artwork_sha256 r))
  then Some (with_deletions (λ rows, rows ++ [r]) c) else None.

Definition hide_track (track : str) : Catalog → Catalog := with_tracks (alter (set_missing true) track).

(** Two Tracks shown at one position of an Album, which idx_tracks_active_album_position
    forbids. *)
Definition same_position (t u : TrackRow) : bool :=
  negb (t_missing t) && negb (t_missing u) && t_identified t && t_identified u
  && bool_decide (t_album t = t_album u) && bool_decide (is_Some (t_track_no t))
  && bool_decide (t_track_no t = t_track_no u)
  && (default 1 (t_disc_no t) =? default 1 (t_disc_no u)).

Definition show_track (track : str) (c : Catalog) : option Catalog :=
  match tracks c !! track with
  | None => Some c
  | Some t =>
      if bool_decide (map_Forall (λ k u, k = track ∨ same_position (set_missing false t) u = false) (tracks c))
      then Some (with_tracks (alter (set_missing false) track) c) else None
  end.

Definition delete_deletion (track : str) : Catalog → Catalog :=
  with_deletions (filter (λ r, d_track r ≠ track)).

(** The upsert of [advance_queues]. *)
Definition advanced_state (row : option (Z * Z)) : Z * Z :=
  match row with Some (revision, sequence) => (revision + 1, sequence + 1) | None => (1, 1) end.
Definition advance_queue (user : str) (c : Catalog) : QueueInvalidation * Catalog :=
  let row := advanced_state (queue_state c !! user) in
  (mkInvalidation user (show row.1) (show row.2), with_queue_state (insert user row) c).

Definition delete_queue_entries (track : str) : Catalog → Catalog :=
  with_queue (filter (λ e : str * str, e.2 ≠ track)).
Definition delete_playlist_entries (track : str) : Catalog → Catalog :=
  with_playlist_tracks (filter (λ e : list Z * list Z, e.2 ≠ track)).

Definition delete_artwork (album : str) : Catalog → Catalog := with_artwork (delete album).

(** The update's trigger: the new source must be a Track of the Album. *)
Definition move_artwork (other track album : str) (c : Catalog) : option Catalog :=
  match artwork c !! album with
  | Some w =>
      if bool_decide (aw_source w = track) then
        if bool_decide (t_album <$> tracks c !! other = Some album)
        then Some (with_artwork (insert album (mkArtworkRow other (aw_path w) (aw_sha256 w))) c)
        else None
      else Some c
  | None => Some c
  end.

(** [DELETE FROM tracks], refused while artwork or a job names the Track; what
    belongs to it goes with it. *)
Definition delete_track_row (track : str) (d : DB) : option DB :=
  let c := library d in
  if bool_decide (map_Forall (λ _ w, aw_source w ≠ track) (artwork c))
     && bool_decide (Forall (λ j, job_track_id j ≠ track) (jobs d))
  then Some (with_library d
    (mkCatalog (delete track (tracks c)) (delete track (sources c)) (albums c) (artwork c) (artists c)
       (filter (λ e : list Z * list Z, e.1 ≠ track) (track_artists c)) (album_artists c) (playlists c)
       (filter (λ e : list Z * list Z, e.2 ≠ track) (playlist_tracks c))
       (filter (λ e : str * str, e.2 ≠ track) (queue c)) (queue_state c)
       (filter (λ r, d_track r ≠ track) (deletions c))))
  else None.

(** [delete_album_if_empty], with the Album's artwork and credits. *)
Definition delete_album_if_empty (album : str) (c : Catalog) : Catalog :=
  if bool_decide (album_tracks album c = ∅) then
    mkCatalog (tracks c) (sources c) (delete album (albums c)) (delete album (artwork c)) (artists c)
      (track_artists c) (filter (λ e : list Z * list Z, e.1 ≠ album) (album_artists c)) (playlists c)
      (playlist_tracks c) (queue c) (queue_state c) (deletions c)
  else c.

Definition is_credited (artist : str) (c : Catalog) : bool :=
  bool_decide (artist ∈ (set_map snd (track_artists c) : gset (list Z)))
  || bool_decide (artist ∈ (set_map snd (album_artists c) : gset (list Z))).

(** One round of [delete_unreferenced_artists], refused while an Album names the
    Artist as its own. *)
Definition delete_artist_if_unreferenced (artist : str) (c : Catalog) : option Catalog :=
  if is_credited artist c then Some c
  else if bool_decide (map_Forall (λ _ a, al_artist a ≠ artist) (albums c)) then
    Some (mkCatalog (tracks c) (sources c) (albums c) (artwork c) (artists c ∖ {[artist]}) (track_artists c)
      (album_artists c) (playlists c) (playlist_tracks c) (queue c) (queue_state c) (deletions c))
  else None.
