(* ===== verification/Deletion.v ===== *)
(** Permanent Track Deletion and Album deletion
    (server/src/modules/managed_import/deletion.rs): the preview and its token,
    the journal written before a file is removed, the removal, what is made of
    the Library's tables, and what recovery does with an interrupted deletion.
    Publishing the Queue invalidations is left out. *)

From stdpp Require Import gmap sets.
From S2P Require Import Prelude Text GoJson Crash Disk Metadata ImportErrors Storage StoreSteps Journal Catalog.
From S2P Require ListenTogether Replacement.

(** ** Data *)

Record ManagedFile := mkFile { mf_path : str; mf_size : Z }.

Record TrackDeletionPreview := mkPreview {
  p_track_id : str;
  p_track_title : str;
  p_managed_file : ManagedFile;
  p_playlists : list PlaylistReference;
  p_queues : list QueueReference;
  p_token : str
}.

Record TrackDeletionState := mkDeletionState {
  preview : TrackDeletionPreview;
  x_album_id : str;
  x_file_path : str;
  x_sha256 : str;
  x_artwork_path : str;
  x_artwork_sha256 : str;
  x_track_revision : Z;
  x_source_revision : Z
}.

Record AlbumDeletionTrack := mkAlbumTrack { at_id : str; at_title : str; at_size : Z }.

Record AlbumDeletionPreview := mkAlbumPreview {
  ap_album_id : str;
  ap_title : str;
  ap_track_count : Z;
  ap_total_size : Z;
  ap_tracks : list AlbumDeletionTrack;
  ap_playlists : list PlaylistReference;
  ap_queues : list QueueReference;
  ap_token : str
}.

Record AlbumDeletionFailed := mkStopped { af_id : str; af_title : str; af_reason : str }.
Record AlbumDeletionResult := mkAlbumResult {
  deleted : list AlbumDeletionTrack;
  stopped_at : option AlbumDeletionFailed;
  deleted_files : Z
}.

(** ** Confirmation tokens *)

(** serde_json's text of a string. *)
Class JsonString := { json_string : str → str }.

Section Tokens.
Context `{ListenTogether.Crypto} `{JsonString}.

Definition json_field (name : string) (value : str) : str := [34] ++ st name ++ [34] ++ st ":" ++ value.
Definition json_object (fields : list str) : str := st "{" ++ join (st ",") fields ++ st "}".
Definition json_array (items : list str) : str := st "[" ++ join (st ",") items ++ st "]".

(** [token_of], of the payload serde_json writes. *)
Definition token_of (json : str) : str := ListenTogether.hex_encode (ListenTogether.sha256 (encode (escape_json json))).

Definition playlist_json (p : PlaylistReference) : str :=
  json_object [json_field "id" (json_string (pl_id p)); json_field "name" (json_string (pl_name p))].
Definition queue_json (q : QueueReference) : str :=
  json_object [json_field "userId" (json_string (q_user q)); json_field "itemCount" (show (q_count q))].

Definition deletion_token (x : TrackDeletionState) : str := token_of (json_object [
  json_field "TrackID" (json_string (p_track_id (preview x)));
  json_field "TrackTitle" (json_string (p_track_title (preview x)));
  json_field "AlbumID" (json_string (x_album_id x));
  json_field "FilePath" (json_string (x_file_path x));
  json_field "ContentSHA256" (json_string (x_sha256 x));
  json_field "ArtworkPath" (json_string (x_artwork_path x));
  json_field "ArtworkSHA256" (json_string (x_artwork_sha256 x));
  json_field "TrackRevision" (show (x_track_revision x));
  json_field "SourceRevision" (show (x_source_revision x));
  json_field "PlaylistReferences" (json_array (playlist_json <$> p_playlists (preview x)));
  json_field "QueueReferences" (json_array (queue_json <$> p_queues (preview x)))]).

Definition album_token (album_id : str) (revision : Z) (tokens : list str) : str := token_of (json_object [
  json_field "AlbumID" (json_string album_id);
  json_field "AlbumRevision" (show revision);
  json_field "TrackTokens" (json_array (json_string <$> tokens))]).
End Tokens.

(** [tokens_equal], byte by byte without an early end. *)
Definition tokens_equal (expected actual : str) : bool :=
  let a := b2z <$> encode expected in
  let b := b2z <$> encode actual in
  if negb (zlen a =? zlen b) then false
  else foldl (λ difference e, Z.lor difference (Z.lxor e.1 e.2)) 0 (zip a b) =? 0.

(** ** The repository *)

Section Repository.
Context `{FS : FileSystem} `{Machinery : Host} `{Dbg : Debug} `{ListenTogether.Crypto} `{JsonString}.
Context (store : Storage).
Abbreviation Do A := (M (Machine DB) Error A).

(** A query, which changes nothing. *)
Definition select {A} (operation : str) (f : Catalog → A) : Do A := sql operation (λ d, Some (f (library d), d)).

(** A statement on the Library's tables. *)
Definition exec (operation : str) (f : Catalog → option Catalog) : Do unit :=
  sql operation (λ d, c ← f (library d); Some (tt, with_library d c)).

Definition list_playlists (track : str) : Do (list PlaylistReference) :=
  select (st "list affected Playlists") (listed_playlists track).
Definition list_queues (track : str) : Do (list QueueReference) :=
  select (st "list affected Queues") (listed_queues track).

Fixpoint advance_queues (queues : list QueueReference) : Do (list QueueInvalidation) :=
  match queues with
  | [] => mret []
  | q :: queues =>
      invalidation ← sql (st "advance affected Queue revision")
        (λ d, let '(i, c) := advance_queue (q_user q) (library d) in Some (i, with_library d c));
      invalidations ← advance_queues queues;
      mret (invalidation :: invalidations)
  end.

Definition move_or_delete_artwork_reference (track album : str) : Do unit :=
  let operation := st "update Album Artwork source after Track deletion" in
  other ← select operation (other_track track album);
  match other with
  | None => exec operation (λ c, Some (delete_artwork album c))
  | Some other => exec operation (move_artwork other track album)
  end.

Definition track_and_album_artist_ids (track album : str) : Do (list str) :=
  select (st "list affected Artists") (λ c, elements (credited track album c)).

Fixpoint delete_unreferenced_artists (ids : list str) : Do unit :=
  match ids with
  | [] => mret tt
  | id :: ids =>
      _ ← exec (st "delete inactive Artist") (delete_artist_if_unreferenced id);
      delete_unreferenced_artists ids
  end.

(** The Album's Artwork, if the Track is the Album's only one. *)
Definition final_artwork (track album : str) (c : Catalog) : option ArtworkRow :=
  if bool_decide (album_tracks album c ∖ {[track]} = ∅) then artwork c !! album else None.

Definition with_token (x : TrackDeletionState) : TrackDeletionState :=
  let p := preview x in
  mkDeletionState (mkPreview (p_track_id p) (p_track_title p) (p_managed_file p) (p_playlists p) (p_queues p)
      (deletion_token x))
    (x_album_id x) (x_file_path x) (x_sha256 x) (x_artwork_path x) (x_artwork_sha256 x)
    (x_track_revision x) (x_source_revision x).

Definition load_track_deletion (track : str) : Do TrackDeletionState :=
  found ← select (st "load Managed Track deletion")
    (λ c, t ← tracks c !! track; s ← sources c !! track; if t_missing t then None else Some (t, s));
  '(t, s) ← lift (ok_or found (sentinel TrackNotFound));
  if negb (bool_decide (s_kind s = st "managed")) then fail (sentinel NotManagedTrack) else
  '(relative, size) ← resolve_managed_file store (s_path s) (s_sha256 s);
  if negb (s_size s =? size) then fail (wrap DeletionConflict (st "managed file size changed")) else
  playlists ← list_playlists track;
  queues ← list_queues track;
  found ← select (st "load final-Album Artwork") (final_artwork track (t_album t));
  _ ← match found with
      | Some w => on_err (in_context (st "validate final-Album Artwork"))
                    (resolve_managed_file store (aw_path w) (aw_sha256 w))
      | None => mret ([], 0)
      end;
  mret (with_token (mkDeletionState
    (mkPreview track (t_title t) (mkFile relative size) playlists queues []) (t_album t) (s_path s) (s_sha256 s)
    (default [] (aw_path <$> found)) (default [] (aw_sha256 <$> found)) (t_revision t) (s_revision s))).

Definition deletion_row (track : str) (x : TrackDeletionState) : DeletionRow :=
  mkDeletion track (x_file_path x) (x_sha256 x) (x_artwork_path x) (x_artwork_sha256 x).

Definition prepare_track_deletion (track token : str) : Do TrackDeletionState :=
  transaction (st "Permanent Track Deletion preparation")
    (x ← load_track_deletion track;
     if negb (tokens_equal (p_token (preview x)) token) then fail (sentinel DeletionConflict) else
     _ ← exec (st "journal Permanent Track Deletion") (insert_deletion (deletion_row track x));
     _ ← exec (st "hide pending Permanent Track Deletion") (λ c, Some (hide_track track c));
     mret x).

Definition cancel_track_deletion (track : str) : Do unit :=
  transaction (st "Permanent Track Deletion cancellation")
    (_ ← exec (st "restore Managed Track after failed deletion") (show_track track);
     exec (st "clear failed Permanent Track Deletion journal") (λ c, Some (delete_deletion track c))).

Definition delete_jobs (track : str) (d : DB) : DB :=
  mkTables (replacements d) (commits d) (filter (λ j, job_track_id j ≠ track) (jobs d)) (library d).

Definition finalize_track_deletion (track : str) : Do (list QueueInvalidation) :=
  transaction (st "Permanent Track Deletion finalization")
    (album ← select (st "load pending Permanent Track Deletion") (pending_album track);
     album ← lift (ok_or album (sentinel TrackNotFound));
     queues ← list_queues track;
     artist_ids ← track_and_album_artist_ids track album;
     invalidations ← advance_queues queues;
     _ ← exec (st "delete Queue references") (λ c, Some (delete_queue_entries track c));
     _ ← exec (st "delete Playlist references") (λ c, Some (delete_playlist_entries track c));
     _ ← sql (st "archive terminal Managed Import Jobs before Track deletion") (λ d, Some (tt, delete_jobs track d));
     _ ← move_or_delete_artwork_reference track album;
     _ ← sql (st "delete Managed Track") (λ d, d ← delete_track_row track d; Some (tt, d));
     _ ← exec (st "delete empty Album") (λ c, Some (delete_album_if_empty album c));
     _ ← delete_unreferenced_artists artist_ids;
     mret invalidations).

Definition list_pending_deletions : Do (list DeletionRow) :=
  select (st "list pending Permanent Track Deletions") deletions.

(** ** One Track *)

Definition preview_track_deletion (track : str) : Do TrackDeletionPreview :=
  x ← load_track_deletion track; mret (preview x).

(** Whether any file was removed, whether all were, and what failed. *)
Definition remove_prepared_deletion_files (r : DeletionRow) : Do (bool * bool * option Error) :=
  audio ← catch (remove_managed_file store never (d_path r) (d_sha256 r));
  match audio with
  | inl e => mret (false, false, Some e)
  | inr false => mret (false, false, None)
  | inr true =>
      if bool_decide (d_artwork_path r = []) then mret (true, true, None)
      else
        cover ← catch (remove_managed_file store never (d_artwork_path r) (d_artwork_sha256 r));
        match cover with
        | inl e => mret (true, false, Some e)
        | inr removed => mret (true, removed, None)
        end
  end.

Definition NOT_REMOVED : Error := error_new (st "managed file was not removed").

(** [delete_track], under its two locks; the number of files deleted. *)
Definition delete_track (track token : str) : Do Z :=
  x ← prepare_track_deletion track token;
  '(has_removed, all_removed, removed) ← remove_prepared_deletion_files (deletion_row track x);
  match removed, has_removed with
  | Some e, false =>
      cancelled ← errs (cancel_track_deletion track);
      fail_join [Some e; cancelled]
  | _, _ =>
      if negb all_removed then fail (default NOT_REMOVED removed) else
      finalized ← catch (finalize_track_deletion track);
      match finalized with
      | inl e => fail_join [removed; Some e]
      | inr _ =>
          match removed with
          | Some e => fail e
          | None => mret (if bool_decide (x_artwork_path x = []) then 1 else 2)
          end
      end
  end.

Fixpoint recover_deletions (rows : list DeletionRow) : Do unit :=
  match rows with
  | [] => mret tt
  | r :: rows =>
      '(_, all_removed, removed) ← remove_prepared_deletion_files r;
      if negb all_removed then
        fail (in_context (st "recover pending Permanent Track Deletion " ++ debug_str (d_track r))
                (default NOT_REMOVED removed))
      else
        finalized ← catch (finalize_track_deletion (d_track r));
        match finalized with
        | inl e =>
            on_err (in_context (st "finalize recovered Permanent Track Deletion " ++ debug_str (d_track r)))
              (fail_join [removed; Some e])
        | inr _ => recover_deletions rows
        end
  end.

Definition recover_pending_track_deletions : Do unit :=
  rows ← list_pending_deletions; recover_deletions rows.

(** ** An Album *)

Definition add_playlist (known : list PlaylistReference) (p : PlaylistReference) : list PlaylistReference :=
  if existsb (λ k, bool_decide (pl_id k = pl_id p)) known then known else known ++ [p].

(** The items of each user, in the order their users are first seen. *)
Fixpoint add_queue (q : QueueReference) (known : list QueueReference) : outcome Error (list QueueReference) :=
  match known with
  | [] => Ok [q]
  | k :: known =>
      if bool_decide (q_user k = q_user q) then count ← add_i64 (q_count k) (q_count q); Ok (mkQueue (q_user k) count :: known)
      else known ← add_queue q known; Ok (k :: known)
  end.
Fixpoint add_queues (qs known : list QueueReference) : outcome Error (list QueueReference) :=
  match qs with [] => Ok known | q :: qs => known ← add_queue q known; add_queues qs known end.

Record AlbumTotals := mkTotals {
  listed : list AlbumDeletionTrack;
  total_size : Z;
  all_playlists : list PlaylistReference;
  all_queues : list QueueReference;
  tokens : list str
}.

Fixpoint load_album_tracks (ids : list str) (totals : AlbumTotals) : Do AlbumTotals :=
  match ids with
  | [] => mret totals
  | id :: ids =>
      x ← load_track_deletion id;
      let size := mf_size (p_managed_file (preview x)) in
      total ← lift (add_i64 (total_size totals) size);
      queues ← lift (add_queues (p_queues (preview x)) (all_queues totals));
      load_album_tracks ids
        (mkTotals (listed totals ++ [mkAlbumTrack id (p_track_title (preview x)) size]) total
           (foldl add_playlist (all_playlists totals) (p_playlists (preview x))) queues
           (tokens totals ++ [p_token (preview x)]))
  end.

(** The Tracks of an Album that are shown, in the Album's order; a NULL number
    comes first. *)
Definition number_compare (a b : option Z) : comparison :=
  match a, b with
  | None, None => Eq
  | None, Some _ => Lt
  | Some _, None => Gt
  | Some a, Some b => a ?= b
  end.
Definition album_order (a b : list Z * TrackRow) : comparison :=
  lex (default 1 (t_disc_no a.2) ?= default 1 (t_disc_no b.2))
    (lex (number_compare (t_track_no a.2) (t_track_no b.2))
       (lex (str_compare (t_title_sort a.2) (t_title_sort b.2)) (str_compare a.1 b.1))).
Definition shown_tracks (album : str) (c : Catalog) : list str :=
  fst <$> order_by album_order
    (filter (λ e : list Z * TrackRow, t_album e.2 = album ∧ t_missing e.2 = false ∧ t_pending_commit e.2 = false)
       (map_to_list (tracks c))).

Definition load_album_deletion (album_id : str) : Do AlbumDeletionPreview :=
  found ← select (st "load Album deletion") (λ c, albums c !! album_id);
  album ← lift (ok_or found (sentinel AlbumNotFound));
  ids ← select (st "list Album Tracks for deletion") (shown_tracks album_id);
  if bool_decide (ids = []) then fail (sentinel AlbumNotFound) else
  totals ← load_album_tracks ids (mkTotals [] 0 [] [] []);
  mret (mkAlbumPreview album_id (al_title album) (zlen (listed totals)) (total_size totals) (listed totals)
    (all_playlists totals) (all_queues totals) (album_token album_id (al_revision album) (tokens totals))).

(** The loop of [delete_album]: a failure stops it and keeps what was deleted. *)
Fixpoint delete_album_tracks (ts : list AlbumDeletionTrack) (result : AlbumDeletionResult) : Do AlbumDeletionResult :=
  match ts with
  | [] => mret result
  | t :: ts =>
      deleted_ ← catch (x ← load_track_deletion (at_id t); delete_track (at_id t) (p_token (preview x)));
      match deleted_ with
      | inr files =>
          total ← lift (add_i64 (deleted_files result) files);
          delete_album_tracks ts (mkAlbumResult (deleted result ++ [t]) None total)
      | inl e =>
          mret (mkAlbumResult (deleted result) (Some (mkStopped (at_id t) (at_title t) (text e)))
                  (deleted_files result))
      end
  end.

Definition delete_album (album_id token : str) : Do AlbumDeletionResult :=
  p ← load_album_deletion album_id;
  if negb (tokens_equal (ap_token p) token)
  then fail (wrap DeletionConflict (st "album deletion preview changed"))
  else delete_album_tracks (ap_tracks p) (mkAlbumResult [] None 0).

(** The recovery at a start: [ManagedImport::start] up to the cleanup. *)
Definition recover_at_start `{Unicode} `{!Replacement.LibraryRows Catalog} : Do unit :=
  _ ← recover_pending_track_deletions;
  Replacement.recover_pending_track_replacements store.
End Repository.
