(* ===== verification/DeletionSteps.v ===== *)
(** What the finalization of a Permanent Track Deletion makes of the Library's
    tables: everything of the Track goes, everything else stays, and no row is
    left that names what is gone. *)

From stdpp Require Import gmap sets sorting.
From S2P Require Import Prelude Text Crash Disk ImportErrors Storage StoreSteps Journal Catalog Deletion.
From S2P Require ListenTogether.

(** ** Computations on the tables alone *)

Section Does.
Context `{FS : FileSystem} `{Laws : !FileSystemLaws} `{Machinery : Host} `{Dbg : Debug}.
Implicit Types (s : Machine DB) (d : DB) (c : Catalog).

(** From the tables [d], [m] leaves the disk alone; it ends as [R] says, or fails
    because the host does or [F] allows it. *)
Definition does {A} (m : M (Machine DB) Error A) d (F : Prop) (R : A → DB → Prop) : Prop :=
  ∀ s, db s = d →
    wp m (λ a s', disk s' = disk s ∧ R a (db s')) (λ _ s', disk s' = disk s ∧ (faulty ∨ F))
      (λ s', disk s' = disk s) s.

Lemma does_ret {A} (a : A) d F (R : A → DB → Prop) : R a d → does (mret a) d F R.
Proof. intros HR s <-. by apply wp_ret. Qed.

Lemma does_lift {A} (o : outcome Error A) d F (R : A → DB → Prop) a : o = Ok a → R a d → does (lift o) d F R.
Proof. intros -> HR s <-. by apply wp_lift. Qed.

Lemma does_bind {A B} (m : M (Machine DB) Error A) (f : A → M (Machine DB) Error B) d F R R' :
  does m d F R → (∀ a d', R a d' → does (f a) d' F R') → does (m ≫= f) d F R'.
Proof.
  intros Hm Hf s Hs. apply wp_bind. eapply wp_conseq; [by apply Hm|..]; cbn; [|done..].
  intros a s' [Hd HR]. eapply wp_conseq; [by eapply Hf|..]; cbn.
  - intros b s2 [-> ?]. by rewrite Hd.
  - intros e s2 [-> ?]. by rewrite Hd.
  - intros s2 ->. by rewrite Hd.
Qed.

Lemma does_weaken {A} (m : M (Machine DB) Error A) d (F F' : Prop) (R R' : A → DB → Prop) :
  does m d F R → (F → F') → (∀ a d', R a d' → R' a d') → does m d F' R'.
Proof.
  intros Hm HF HR s Hs. eapply wp_conseq; [by apply Hm|..]; cbn; [|intros e s' [? [?|?]]|]; naive_solver.
Qed.

Lemma does_sql {A} operation (run : DB → option (A * DB)) d (F : Prop) (R : A → DB → Prop) :
  (∀ a d', run d = Some (a, d') → R a d') → (run d = None → F) → does (sql operation run) d F R.
Proof.
  intros HR HF s Hs. apply wp_sql; rewrite Hs.
  - intros s' [Hd Hdb]. split; [|done]. intros e [Hf|Hn]; split; [done|by left|done|right; by apply HF].
  - intros a d' s' Hrun Hd Hdb. split; [|intros e Hf; split; [done|by left]].
    split; [done|]. rewrite Hdb. by apply HR.
Qed.

(** As a transaction it is done or undone. *)
Lemma wp_transaction_does {A} operation (body : M (Machine DB) Error A) F (R : A → DB → Prop) s :
  does body (db s) F R →
  wp (transaction operation body) (λ a s', disk s' = disk s ∧ R a (db s'))
    (λ _ s', disk s' = disk s ∧ (faulty ∨ F) ∧ (db s' = db s ∨ ∃ a, R a (db s')))
    (λ s', disk s' = disk s ∧ db s' = db s) s.
Proof.
  intros Hb. apply wp_transaction; [by intros s' [-> ->]; auto|]. intros s1 [Hd1 Hdb1].
  eapply wp_conseq; [by apply Hb|..]; cbn.
  - intros a s' [Hd HR]. rewrite Hd, Hd1. split; [done|]. split; [by eauto 6|].
    intros s2 -> ->. auto.
  - intros e s' [-> Hf] s2 -> ->. auto.
  - intros s' -> s2 -> ->. auto.
Qed.

Lemma does_select {A} operation (f : Catalog → A) d F (R : A → DB → Prop) :
  R (f (library d)) d → does (select operation f) d F R.
Proof. intros HR. apply does_sql; [|done]. by intros a d' [= <- <-]. Qed.

Lemma does_exec operation (f : Catalog → option Catalog) d (F : Prop) (R : unit → DB → Prop) :
  (∀ c, f (library d) = Some c → R tt (with_library d c)) → (f (library d) = None → F) →
  does (exec operation f) d F R.
Proof.
  intros HR HF. apply does_sql.
  - intros [] d' Hr. destruct (f (library d)) as [c|] eqn:E; [|done]. injection Hr as <-. by apply HR.
  - intros Hn. apply HF. by destruct (f (library d)).
Qed.

(** A statement that is never refused. *)
Lemma does_exec_all operation (f : Catalog → Catalog) d F (R : unit → DB → Prop) :
  R tt (with_library d (f (library d))) → does (exec operation (λ c, Some (f c))) d F R.
Proof. intros HR. apply does_exec; [|done]. by intros c [= <-]. Qed.

Lemma does_bind_sql {A B} operation (run : DB → option (A * DB)) (f : A → M (Machine DB) Error B) d F R a d' :
  run d = Some (a, d') → does (f a) d' F R → does (sql operation run ≫= f) d F R.
Proof.
  intros Hr Hf. eapply does_bind with (R := λ b e, b = a ∧ e = d').
  - apply does_sql; [|congruence]. intros b e Hb. split; congruence.
  - by intros _ _ [-> ->].
Qed.

Lemma does_bind_select {A B} operation (g : Catalog → A) (f : A → M (Machine DB) Error B) d F R :
  does (f (g (library d))) d F R → does (select operation g ≫= f) d F R.
Proof. by eapply does_bind_sql. Qed.

Lemma does_bind_exec {B} operation (g : Catalog → option Catalog) (f : unit → M (Machine DB) Error B) d F R c :
  g (library d) = Some c → does (f tt) (with_library d c) F R → does (exec operation g ≫= f) d F R.
Proof. intros Hg. eapply does_bind_sql. by rewrite Hg. Qed.

Lemma does_bind_lift {A B} (o : outcome Error A) (f : A → M (Machine DB) Error B) d F R a :
  o = Ok a → does (f a) d F R → does (lift o ≫= f) d F R.
Proof.
  intros Ho Hf. eapply does_bind with (R := λ b e, b = a ∧ e = d); [by eapply does_lift|]. by intros _ _ [-> ->].
Qed.
End Does.

(** ** Consistent tables *)

(** Every row that names another finds it, and what waits to be deleted is
    hidden. *)
Record consistent (d : DB) : Prop := {
  c_track : ∀ k t, tracks (library d) !! k = Some t → is_Some (albums (library d) !! t_album t);
  c_source : ∀ k, is_Some (sources (library d) !! k) → is_Some (tracks (library d) !! k);
  c_artwork : ∀ a w, artwork (library d) !! a = Some w →
    is_Some (albums (library d) !! a) ∧ t_album <$> tracks (library d) !! aw_source w = Some a;
  c_track_artist : ∀ k x, (k, x) ∈ track_artists (library d) →
    is_Some (tracks (library d) !! k) ∧ x ∈ artists (library d);
  c_album_artist : ∀ a x, (a, x) ∈ album_artists (library d) →
    is_Some (albums (library d) !! a) ∧ x ∈ artists (library d);
  c_album : ∀ a r, albums (library d) !! a = Some r → (a, al_artist r) ∈ album_artists (library d);
  c_playlist : ∀ p k, (p, k) ∈ playlist_tracks (library d) → is_Some (tracks (library d) !! k);
  c_queue : ∀ u k, (u, k) ∈ queue (library d) → is_Some (tracks (library d) !! k);
  c_job : ∀ j, j ∈ jobs d → job_track_id j = [] ∨ is_Some (tracks (library d) !! job_track_id j);
  c_deletion : NoDup (d_track <$> deletions (library d)) ∧
    ∀ r, r ∈ deletions (library d) → t_missing <$> tracks (library d) !! d_track r = Some true
}.

(** The tables after the deletion of a Track of [album]. *)
Record removed (track album : str) (d d' : DB) : Prop := {
  r_tracks : tracks (library d') = delete track (tracks (library d));
  r_sources : sources (library d') = delete track (sources (library d));
  r_albums : albums (library d') =
    if bool_decide (album_tracks album (library d) ∖ {[track]} = ∅) then delete album (albums (library d))
    else albums (library d);
  r_artwork_elsewhere : ∀ b, b ≠ album → artwork (library d') !! b = artwork (library d) !! b;
  r_artwork : if bool_decide (album_tracks album (library d) ∖ {[track]} = ∅) then artwork (library d') !! album = None
    else match artwork (library d) !! album with
         | None => artwork (library d') !! album = None
         | Some w => ∃ source, source ≠ track ∧ (aw_source w ≠ track → source = aw_source w) ∧
             artwork (library d') !! album = Some (mkArtworkRow source (aw_path w) (aw_sha256 w))
         end;
  r_track_artists : ∀ k x, (k, x) ∈ track_artists (library d') ↔ (k, x) ∈ track_artists (library d) ∧ k ≠ track;
  r_album_artists : ∀ a x, (a, x) ∈ album_artists (library d') ↔ (a, x) ∈ album_artists (library d) ∧
    (album_tracks album (library d) ∖ {[track]} = ∅ → a ≠ album);
  r_artists : ∀ x, x ∈ artists (library d') ↔ x ∈ artists (library d) ∧
    (x ∈ credited track album (library d) → is_credited x (library d') = true);
  r_playlists : playlists (library d') = playlists (library d);
  r_playlist_tracks : ∀ p k, (p, k) ∈ playlist_tracks (library d') ↔ (p, k) ∈ playlist_tracks (library d) ∧ k ≠ track;
  r_queue : queue (library d') = filter (λ e : str * str, e.2 ≠ track) (queue (library d));
  r_queue_state : ∀ u, queue_state (library d') !! u =
    if bool_decide ((u, track) ∈ queue (library d)) then Some (advanced_state (queue_state (library d) !! u))
    else queue_state (library d) !! u;
  r_deletions : deletions (library d') = filter (λ r, d_track r ≠ track) (deletions (library d));
  r_jobs : jobs d' = filter (λ j, job_track_id j ≠ track) (jobs d);
  r_journals : replacements d' = replacements d ∧ commits d' = commits d
}.

(** Removing keeps the tables consistent. *)
Lemma removed_consistent track album d d' : consistent d → t_album <$> tracks (library d) !! track = Some album →
  removed track album d d' →
  (∀ a w, artwork (library d') !! a = Some w → t_album <$> tracks (library d') !! aw_source w = Some a) →
  consistent d'.
Proof.
  intros Hc Ht Hr Haw.
  assert (∀ k, is_Some (tracks (library d) !! k) → k ≠ track → is_Some (tracks (library d') !! k)) as Hk.
  { intros k Hk Hn. rewrite (r_tracks _ _ _ _ Hr). by rewrite lookup_delete_ne. }
  assert (∀ k t, tracks (library d') !! k = Some t → k ≠ track ∧ tracks (library d) !! k = Some t) as Hback.
  { intros k t. rewrite (r_tracks _ _ _ _ Hr). by rewrite lookup_delete_Some; naive_solver. }
  assert (∀ k t, tracks (library d') !! k = Some t → is_Some (albums (library d') !! t_album t)) as Halb.
  { intros k t [Hn Hkt]%Hback. destruct (c_track _ Hc _ _ Hkt) as [r Hal]. rewrite (r_albums _ _ _ _ Hr).
    case_bool_decide as Hl; [|done]. rewrite lookup_delete_ne; [done|]. intros Heq.
    assert (k ∈ album_tracks album (library d) ∖ {[track]}) as Hin; [|by rewrite Hl in Hin; apply not_elem_of_empty in Hin].
    apply elem_of_difference. split; [|by rewrite elem_of_singleton].
    unfold album_tracks. apply elem_of_dom. exists t. by apply map_lookup_filter_Some. }
  assert (∀ a x, (a, x) ∈ album_artists (library d') → is_Some (albums (library d') !! a)) as Hcred.
  { intros a x. rewrite (r_album_artists _ _ _ _ Hr). intros [Hin Hn]. destruct (c_album_artist _ Hc _ _ Hin) as [[r Ha] _].
    rewrite (r_albums _ _ _ _ Hr). case_bool_decide as Hl; [|done]. rewrite lookup_delete_ne; [done|]. intros ->. by apply Hn. }
  split.
  - exact Halb.
  - intros k. rewrite (r_sources _ _ _ _ Hr). intros [r [Hn Hs]%lookup_delete_Some]. apply Hk; [|done]. apply (c_source _ Hc). by exists r.
  - intros a w Hw. pose proof (Haw a w Hw) as Hsrc. split; [|done].
    apply fmap_Some in Hsrc as (t & Hsrc & ->). by eapply Halb.
  - intros k x. rewrite (r_track_artists _ _ _ _ Hr). intros [Hin Hn]. destruct (c_track_artist _ Hc _ _ Hin) as [Ht' Hx].
    split; [by apply Hk|]. apply (r_artists _ _ _ _ Hr). split; [done|]. intros _. unfold is_credited.
    apply orb_true_iff. left. apply bool_decide_eq_true_2, elem_of_map. exists (k, x). split; [done|].
    by apply (r_track_artists _ _ _ _ Hr).
  - intros a x Hin. split; [by eapply Hcred|]. pose proof (proj1 (r_album_artists _ _ _ _ Hr _ _) Hin) as [Hin' _].
    apply (r_artists _ _ _ _ Hr). split; [by apply (c_album_artist _ Hc _ _ Hin')|]. intros _.
    apply orb_true_iff. right. apply bool_decide_eq_true_2, elem_of_map. by exists (a, x).
  - intros a r Ha. rewrite (r_albums _ _ _ _ Hr) in Ha. apply (r_album_artists _ _ _ _ Hr).
    case_bool_decide as Hl.
    + apply lookup_delete_Some in Ha as [Hn Ha]. split; [by apply (c_album _ Hc)|done].
    + split; [by apply (c_album _ Hc)|done].
  - intros p k. rewrite (r_playlist_tracks _ _ _ _ Hr). intros [Hin Hn]. apply Hk; [by eapply (c_playlist _ Hc)|done].
  - intros u k. rewrite (r_queue _ _ _ _ Hr). intros [Hn Hin]%list_elem_of_filter. apply Hk; [by eapply (c_queue _ Hc)|done].
  - intros j. rewrite (r_jobs _ _ _ _ Hr). intros [Hn Hin]%list_elem_of_filter.
    destruct (c_job _ Hc _ Hin) as [|Hj]; [by left|]. right. by apply Hk.
  - rewrite (r_deletions _ _ _ _ Hr). destruct (c_deletion _ Hc) as [Hnd Hdel]. split.
    + clear -Hnd. induction (deletions (library d)) as [|r rows IH]; [constructor|]. rewrite fmap_cons in Hnd.
      apply NoDup_cons in Hnd as [Hn Hnd]. rewrite filter_cons. case_decide; [|by apply IH]. rewrite fmap_cons. constructor; [|by apply IH].
      intros (r' & He & [_ Hin]%list_elem_of_filter)%list_elem_of_fmap. apply Hn. rewrite He. by apply list_elem_of_fmap_2.
    + intros r [Hn Hin]%list_elem_of_filter. rewrite (r_tracks _ _ _ _ Hr), lookup_delete_ne by done. by apply Hdel.
Qed.

(** ** The statements of the finalization *)

Lemma order_by_perm {A} (compare : A → A → comparison) rows : order_by compare rows ≡ₚ rows.
Proof. apply merge_sort_Permutation. Qed.

Lemma other_track_some track album c other : other_track track album c = Some other →
  other ≠ track ∧ t_album <$> tracks c !! other = Some album.
Proof.
  unfold other_track. intros Hh. assert (other ∈ album_tracks album c ∖ {[track]}) as Hin.
  { apply elem_of_elements. rewrite <-(order_by_perm str_compare). by apply head_Some_elem_of. }
  apply elem_of_difference in Hin as [Hin Hn]. split; [by rewrite elem_of_singleton in Hn|].
  unfold album_tracks in Hin. apply elem_of_dom in Hin as [t [-> ?]%map_lookup_filter_Some]. cbn in *. by subst.
Qed.

Lemma other_track_none track album c : other_track track album c = None ↔ album_tracks album c ∖ {[track]} = ∅.
Proof.
  unfold other_track. rewrite head_None. split.
  - intros Hn. apply leibniz_equiv, elements_empty_inv, Permutation_nil. by rewrite <-(order_by_perm str_compare (elements _)), Hn.
  - intros ->. by rewrite elements_empty.
Qed.

Lemma listed_queues_users track c :
  NoDup (q_user <$> listed_queues track c) ∧
  ∀ u, u ∈ (q_user <$> listed_queues track c) ↔ (u, track) ∈ queue c.
Proof.
  unfold listed_queues. rewrite <-list_fmap_compose. unfold compose. cbn [q_user]. rewrite list_fmap_id. split.
  - rewrite order_by_perm. apply NoDup_elements.
  - intros u. rewrite order_by_perm, elem_of_elements, elem_of_list_to_set, list_elem_of_fmap. split.
    + intros ([u' k] & -> & [Hk Hin]%list_elem_of_filter). cbn in *. by subst.
    + intros Hin. exists (u, track). split; [done|]. by apply list_elem_of_filter.
Qed.

Lemma album_tracks_delete track album c c' : tracks c' = delete track (tracks c) →
  album_tracks album c' = album_tracks album c ∖ {[track]}.
Proof. intros Ht. unfold album_tracks. by rewrite Ht, map_filter_delete, dom_delete_L. Qed.

Section Finalization.
Context `{FS : FileSystem} `{Laws : !FileSystemLaws} `{Machinery : Host} `{Dbg : Debug}.
Implicit Types (s : Machine DB) (d : DB) (c : Catalog).

Lemma does_advance queues d F : NoDup (q_user <$> queues) →
  does (advance_queues queues) d F (λ _ d', ∃ m, d' = with_library d (with_queue_state (λ _, m) (library d)) ∧
    ∀ u, m !! u = if bool_decide (u ∈ (q_user <$> queues)) then Some (advanced_state (queue_state (library d) !! u))
                  else queue_state (library d) !! u).
Proof using Laws.
  revert d. induction queues as [|q queues IH]; intros d Hnd; cbn [advance_queues].
  - apply does_ret. exists (queue_state (library d)). split; [by destruct d as [? ? ? []]|]. intros u.
    by rewrite bool_decide_eq_false_2 by apply not_elem_of_nil.
  - rewrite fmap_cons in Hnd. apply NoDup_cons in Hnd as [Hn Hnd].
    eapply does_bind with (R := λ _ d', d' = with_library d (advance_queue (q_user q) (library d)).2).
    { apply does_sql; [|done]. by intros a d' [= <- <-]. }
    intros i d1 ->. eapply does_bind; [by apply IH|]. intros is_ d2 (m & -> & Hm). apply does_ret.
    exists m. split; [done|]. intros u. rewrite Hm. cbn [library with_library advance_queue snd queue_state with_queue_state].
    rewrite fmap_cons. destruct (decide (u = q_user q)) as [->|Hu].
    + rewrite bool_decide_eq_false_2 by done. rewrite bool_decide_eq_true_2 by left. by rewrite lookup_insert_eq.
    + rewrite lookup_insert_ne by done. do 2 case_bool_decide; set_solver.
Qed.

Lemma does_artwork track album d F :
  (∀ a w, artwork (library d) !! a = Some w → t_album <$> tracks (library d) !! aw_source w = Some a) →
  t_album <$> tracks (library d) !! track = Some album →
  does (move_or_delete_artwork_reference track album) d F (λ _ d', ∃ m, d' = with_library d (with_artwork (λ _, m) (library d)) ∧
    (∀ b, b ≠ album → m !! b = artwork (library d) !! b) ∧
    if bool_decide (album_tracks album (library d) ∖ {[track]} = ∅) then m !! album = None
    else match artwork (library d) !! album with
         | None => m !! album = None
         | Some w => ∃ source, source ≠ track ∧ (aw_source w ≠ track → source = aw_source w) ∧
             t_album <$> tracks (library d) !! source = Some album ∧
             m !! album = Some (mkArtworkRow source (aw_path w) (aw_sha256 w))
         end).
Proof using Laws.
  intros Hc Ht. unfold move_or_delete_artwork_reference.
  eapply does_bind with (R := λ o d', o = other_track track album (library d) ∧ d' = d); [by apply does_select|].
  intros o d' [-> ->]. destruct (other_track _ _ _) as [other|] eqn:Ho.
  - rewrite bool_decide_eq_false_2 by (by rewrite <-other_track_none, Ho). apply other_track_some in Ho as [Hn Hal].
    apply does_exec; unfold move_artwork.
    + intros c. destruct (artwork (library d) !! album) as [w|] eqn:Hw.
      * case_bool_decide as Hs; [rewrite bool_decide_eq_true_2 by done|]; intros [= <-].
        -- exists (insert album (mkArtworkRow other (aw_path w) (aw_sha256 w)) (artwork (library d))). split; [done|].
           split; [intros; by rewrite lookup_insert_ne|]. exists other. by rewrite lookup_insert_eq.
        -- exists (artwork (library d)). split; [by destruct d as [? ? ? []]|]. split; [done|].
           exists (aw_source w). pose proof (Hc _ _ Hw). by destruct w.
      * intros [= <-]. exists (artwork (library d)). split; [by destruct d as [? ? ? []]|]. done.
    + destruct (artwork (library d) !! album) as [w|]; [|done]. by rewrite (bool_decide_eq_true_2 (_ <$> _ = _)); [case_bool_decide|].
  - rewrite bool_decide_eq_true_2 by (by apply other_track_none). apply does_exec_all.
    exists (delete album (artwork (library d))). split; [done|]. split; [|by rewrite lookup_delete_eq].
    intros b Hb. by rewrite lookup_delete_ne.
Qed.

Lemma does_artists ids d F :
  (∀ a r, albums (library d) !! a = Some r → (a, al_artist r) ∈ album_artists (library d)) →
  does (delete_unreferenced_artists ids) d F (λ _ d', ∃ A, d' = with_library d
    (mkCatalog (tracks (library d)) (sources (library d)) (albums (library d)) (artwork (library d)) A
       (track_artists (library d)) (album_artists (library d)) (playlists (library d)) (playlist_tracks (library d))
       (queue (library d)) (queue_state (library d)) (deletions (library d))) ∧
    ∀ x, x ∈ A ↔ x ∈ artists (library d) ∧ (x ∈ ids → is_credited x (library d) = true)).
Proof using Laws.
  revert d. induction ids as [|id ids IH]; intros d Hal; cbn [delete_unreferenced_artists].
  - apply does_ret. exists (artists (library d)). split; [by destruct d as [? ? ? []]|]. intros x. set_solver.
  - eapply does_bind with (R := λ _ d', ∃ A, d' = with_library d
      (mkCatalog (tracks (library d)) (sources (library d)) (albums (library d)) (artwork (library d)) A
         (track_artists (library d)) (album_artists (library d)) (playlists (library d)) (playlist_tracks (library d))
         (queue (library d)) (queue_state (library d)) (deletions (library d))) ∧
      ∀ x, x ∈ A ↔ x ∈ artists (library d) ∧ (x = id → is_credited x (library d) = true)).
    { apply does_exec; unfold delete_artist_if_unreferenced.
      - intros c. destruct (is_credited id (library d)) eqn:Hcr.
        + intros [= <-]. exists (artists (library d)). split; [by destruct d as [? ? ? []]|].
          intros x. split; [|by intros [? _]]. intros Hx. split; [done|]. by intros ->.
        + case_bool_decide; [|done]. intros [= <-]. eexists. split; [done|]. intros x.
          rewrite elem_of_difference, elem_of_singleton. split; [by intros [? ?]|].
          intros [Hx Hid]. split; [done|]. intros ->. specialize (Hid eq_refl). congruence.
      - destruct (is_credited id (library d)) eqn:Hcr; [done|]. case_bool_decide as Hm; [done|]. intros _. exfalso.
        apply Hm. intros a r Ha Heq. unfold is_credited in Hcr. apply orb_false_iff in Hcr as [_ Hcr].
        apply bool_decide_eq_false in Hcr. apply Hcr, elem_of_map. exists (a, id). split; [done|].
        rewrite <-Heq. by apply Hal. }
    intros [] d1 (A & -> & HA). eapply does_weaken; [by apply IH|done|]. cbn. intros _ d2 (A' & -> & HA'). exists A'. split; [done|].
    intros x. rewrite HA', HA, elem_of_cons. unfold is_credited. cbn. clear. naive_solver.
Qed.

(** Finalizing a pending deletion takes the Track and all that is its, and leaves
    the rest; it is refused only when the host fails. *)
Lemma wp_finalize_deletion track album s : consistent (db s) → pending_album track (library (db s)) = Some album →
  wp (finalize_track_deletion track)
    (λ _ s', disk s' = disk s ∧ removed track album (db s) (db s') ∧ consistent (db s'))
    (λ _ s', disk s' = disk s ∧ faulty ∧
       (db s' = db s ∨ removed track album (db s) (db s') ∧ consistent (db s')))
    (λ s', disk s' = disk s ∧ db s' = db s) s.
Proof using Laws.
  intros Hc Hp. set (d := db s) in *.
  assert (t_album <$> tracks (library d) !! track = Some album) as Ht.
  { unfold pending_album in Hp. by case_bool_decide. }
  eapply wp_conseq; [eapply (wp_transaction_does _ _ False (λ _ d', removed track album d d' ∧ consistent d'))|..]; cbn;
    [|done|intros _ s' (? & [?|[]] & [?|[_ ?]]); auto|done].
  fold d. apply does_bind_select. rewrite Hp. eapply does_bind_lift; [done|].
  apply does_bind_select, does_bind_select.
  destruct (listed_queues_users track (library d)) as [Hnd Husers].
  eapply does_bind; [by apply does_advance|]. intros invalidations d1 (m & -> & Hm).
  eapply does_bind_exec; [done|]. eapply does_bind_exec; [done|]. eapply does_bind_sql; [done|].
  assert (∀ a w, artwork (library d) !! a = Some w → t_album <$> tracks (library d) !! aw_source w = Some a) as Hart
    by (intros a w Hw; by apply (c_artwork _ Hc)).
  eapply does_bind; [by apply (does_artwork track album)|]. intros _ d5 (aw & -> & Haw & Ha).
  change (album_tracks album (library _)) with (album_tracks album (library d)) in Ha.
  change (artwork (library _)) with (artwork (library d)) in Haw, Ha.
  change (tracks (library _)) with (tracks (library d)) in Ha.
  assert (∀ b w, aw !! b = Some w → aw_source w ≠ track ∧ t_album <$> tracks (library d) !! aw_source w = Some b) as Hfree.
  { intros b w Hw. destruct (decide (b = album)) as [->|Hb].
    - case_bool_decide; [congruence|]. destruct (artwork (library d) !! album) as [v|]; [|congruence].
      destruct Ha as (src & Hn & _ & Hal & Hs). rewrite Hs in Hw. injection Hw as <-. done.
    - rewrite Haw in Hw by done. pose proof (Hart _ _ Hw) as Hal. split; [|done]. intros Heq. rewrite Heq in Hal. congruence. }
  eapply does_bind_sql.
  { unfold delete_track_row. rewrite (bool_decide_eq_true_2 (map_Forall _ _)), bool_decide_eq_true_2; [done| |].
    - apply Forall_forall. by intros j [? _]%list_elem_of_filter.
    - intros b w Hw. by eapply Hfree. }
  eapply does_bind_exec; [done|].
  pose proof (album_tracks_delete track album (library d)) as Hlast. unfold delete_album_if_empty.
  erewrite Hlast by done. clear Hlast.
  eapply does_bind.
  { apply does_artists. case_bool_decide as Hl; cbn; intros a r Hr.
    - apply lookup_delete_Some in Hr as [Hn Hr]. apply elem_of_filter. split; [done|]. by apply (c_album _ Hc).
    - by apply (c_album _ Hc). }
  intros _ d' (A & -> & HA). apply does_ret. cbn in HA |- *.
  match goal with |- removed _ _ _ ?e ∧ _ => set (d' := e) end.
  assert (removed track album d d') as Hr.
  { subst d'. split.
    - cbn. by destruct (bool_decide _).
    - cbn. by destruct (bool_decide _).
    - cbn. by destruct (bool_decide _).
    - cbn. intros b Hb. case_bool_decide; cbn; [rewrite lookup_delete_ne by done|]; by apply Haw.
    - cbn. case_bool_decide; cbn; [by rewrite lookup_delete_eq|].
      destruct (artwork (library d) !! album) as [w|]; [|done]. destruct Ha as (src & ? & ? & _ & ?). by exists src.
    - cbn. intros k x. destruct (bool_decide _); cbn; rewrite elem_of_filter; cbn; clear; tauto.
    - cbn. intros a x. case_bool_decide as Hl; cbn; rewrite ?elem_of_filter; cbn; clear -Hl; tauto.
    - cbn in HA |- *. intros x. specialize (HA x). rewrite elem_of_elements in HA. destruct (bool_decide _); exact HA.
    - cbn. by destruct (bool_decide _).
    - cbn. intros q k. destruct (bool_decide _); cbn; rewrite !elem_of_filter; cbn; clear; tauto.
    - cbn. destruct (bool_decide _); cbn; rewrite list_filter_filter; apply list_filter_iff; clear; tauto.
    - cbn. intros u.
      destruct (bool_decide (_ ∖ _ = _)); cbn; rewrite Hm; (rewrite (bool_decide_ext _ ((u, track) ∈ queue (library d))); [done|apply Husers]).
    - cbn. by destruct (bool_decide _).
    - cbn. by destruct (bool_decide _).
    - cbn. by case_bool_decide. }
  split; [exact Hr|]. eapply removed_consistent; [exact Hc|exact Ht|exact Hr|].
  intros a w Hw. assert (aw !! a = Some w) as Haw'.
  { subst d'. clear -Hw. cbn in Hw. destruct (bool_decide _); cbn in Hw; [|exact Hw]. by apply lookup_delete_Some in Hw as [_ Hw]. }
  destruct (Hfree _ _ Haw') as [Hn Hal]. rewrite (r_tracks _ _ _ _ Hr), lookup_delete_ne by done. exact Hal.
Qed.
End Finalization.
