(* ===== verification/DeletionSafety.v ===== *)
(** What Permanent Track Deletion promises
    (server/src/modules/managed_import/deletion.rs): whatever fails and wherever
    the process ends, a Track is kept whole, hidden and journaled, or gone with
    all that is its; and a recovery that the host does not fail finishes every
    journaled deletion. *)

From stdpp Require Import gmap sets.
From S2P Require Import Prelude Text Crash Disk MapDisk Metadata ImportErrors Storage StoreSteps Journal Catalog Deletion DeletionSteps.
From S2P Require ListenTogether TrackReplacement.

(** ** Tokens *)

Lemma fold_difference ps acc :
  foldl (λ (difference : Z) (e : Z * Z), Z.lor difference (Z.lxor e.1 e.2)) acc ps = 0 ↔ acc = 0 ∧ Forall (λ e, e.1 = e.2) ps.
Proof.
  revert acc. induction ps as [|[a b] ps IH]; intros acc; cbn [foldl].
  - split; [by intros ->|by intros [-> _]].
  - rewrite IH, Z.lor_eq_0_iff, Z.lxor_eq_0_iff, Forall_cons. tauto.
Qed.

Lemma zip_equal (xs ys : list Z) : length xs = length ys → Forall (λ e, e.1 = e.2) (zip xs ys) ↔ xs = ys.
Proof.
  revert ys. induction xs as [|x xs IH]; intros [|y ys] Hl; try done; cbn in *.
  rewrite Forall_cons, IH by lia. cbn. split; [by intros [-> ->]|by intros [= -> ->]].
Qed.

(** The comparison without an early end is equality of the bytes. *)
Lemma tokens_equal_iff a b : tokens_equal a b = true ↔ encode a = encode b.
Proof.
  unfold tokens_equal. transitivity (b2z <$> encode a = b2z <$> encode b).
  2: { split; [|by intros ->]. apply list_fmap_eq_inj. intros x y. apply b2z_inj. }
  unfold zlen. destruct (_ =? _) eqn:E; cbn [negb].
  - rewrite Z.eqb_eq, fold_difference, zip_equal by lia. tauto.
  - split; [done|]. intros Hab. apply Z.eqb_neq in E. by rewrite Hab in E.
Qed.

Section Paths.
Context `{FS : FileSystem} `{Machinery : Host} `{Dbg : Debug}.
Context (store : Storage).

(** What a managed path names below the root. *)
Definition key (path : str) : list str := match relative_path store path with Ok rel => names rel | _ => [] end.

(** The files a journaled deletion removes. *)
Definition keys (r : DeletionRow) : list (list str) :=
  key (d_path r) :: if bool_decide (d_artwork_path r = []) then [] else [key (d_artwork_path r)].

(** The file is gone or still has its hash, and its directory is there. *)
Definition removable (path sha : str) (d : Disk) : Prop :=
  initialization_error store = None ∧ ∃ ns n, relative_path store path = Ok (path_of (ns ++ [n])) ∧
    Forall good_name (ns ++ [n]) ∧ ns ≠ [] ∧ entry d ns = Some EDir ∧
    ∀ x, file_at d (ns ++ [n]) = Some x → digest_hex x = sha.

(** No file appeared or changed, no directory went. *)
Definition shrunk (d d' : Disk) : Prop :=
  dirs_kept d d' ∧ ∀ q x, file_at d' q = Some x → file_at d q = Some x.

Lemma shrunk_refl d : shrunk d d.
Proof. by split; intros ?. Qed.

Lemma shrunk_trans d1 d2 d3 : shrunk d1 d2 → shrunk d2 d3 → shrunk d1 d3.
Proof. intros [H1 H2] [H3 H4]. split; intros ?; auto. Qed.

Lemma removable_shrunk path sha d d' : shrunk d d' → removable path sha d → removable path sha d'.
Proof.
  intros [Hd Hf] (Hi & ns & n & Hr & Hg & Hne & Hdir & Hsha). split; [done|].
  exists ns, n. repeat (split; [by auto|]). auto.
Qed.
End Paths.

Section Removal.
Context `{FS : FileSystem} `{Laws : !FileSystemLaws} `{Machinery : Host} `{Dbg : Debug}.
Context (store : Storage) (ks : list (list str)).
Implicit Types s : Machine DB.

(** The path is one below the root, among [ks]. *)
Definition managed (path : str) : Prop := ∃ rel, relative_path store path = Ok rel ∧ names rel ∈ ks.

Lemma managed_key path : managed path → ∃ rel, relative_path store path = Ok rel ∧ names rel = key store path ∧ key store path ∈ ks.
Proof. intros (rel & Hr & Hk). exists rel. unfold key. by rewrite Hr. Qed.

Lemma became_shrunk p s s' : became ks (without (file_at (disk s)) p) s s' → dirs_kept (disk s) (disk s') →
  shrunk (disk s) (disk s').
Proof.
  intros (_ & _ & Hf) Hd. split; [done|]. intros q x. rewrite Hf. unfold without. by case_decide.
Qed.

(** One file is removed, or nothing is: because [F], or because the host fails. *)
Lemma wp_remove_one (F : Prop) path sha s : managed path → sound ks (disk s) → F ∨ removable store path sha (disk s) →
  wp (catch (remove_managed_file store never path sha))
    (λ r s', match r with
             | inl _ => same s s' ∧ (F ∨ faulty)
             | inr b => b = true ∧ became ks (without (file_at (disk s)) (key store path)) s s' ∧ dirs_kept (disk s) (disk s')
             end)
    (λ _ _, False) (same s) s.
Proof using Laws.
  intros (rel & Hrel & Hrk & Hin)%managed_key Hs HF. apply wp_catch. rewrite <-Hrk. rewrite <-Hrk in Hin.
  destruct HF as [HF|(Hi & ns & n & Hr & Hg & Hne & Hdir & Hsha)].
  - eapply wp_remove_managed; [done..| |]; [|done]. intros s' H'. split; [|done]. by split; [|left].
  - rewrite Hrel in Hr. injection Hr as ->. rewrite names_path_of in * by done.
    eapply wp_remove_managed_good; [done..| |]; [|done]. intros s' H'. split; [|done]. intros Hf e. by split; [|right].
Qed.


(** From [s] to [s'] nothing but files of the row went. *)
Definition partly (r : DeletionRow) s s' : Prop :=
  sound ks (disk s') ∧ db s' = db s ∧ shrunk (disk s) (disk s') ∧
  ∀ q, file_at (disk s') q = file_at (disk s) q ∨ q ∈ keys store r.

Definition cleared (r : DeletionRow) s s' : Prop :=
  sound ks (disk s') ∧ db s' = db s ∧ shrunk (disk s) (disk s') ∧
  ∀ q, file_at (disk s') q = if decide (q ∈ keys store r) then None else file_at (disk s) q.

Lemma same_partly r s s' : sound ks (disk s) → same s s' → partly r s s'.
Proof. intros Hs [Hd ?]. unfold partly. rewrite Hd. split; [done|]. split; [done|]. split; [apply shrunk_refl|auto]. Qed.

Lemma cleared_partly r s s' : cleared r s s' → partly r s s'.
Proof. intros (? & ? & ? & Hf). do 3 (split; [done|]). intros q. rewrite Hf. case_decide; auto. Qed.

Definition row_managed (r : DeletionRow) : Prop :=
  managed (d_path r) ∧ (d_artwork_path r ≠ [] → managed (d_artwork_path r)).
Definition row_removable (r : DeletionRow) (d : Disk) : Prop :=
  removable store (d_path r) (d_sha256 r) d ∧
  (d_artwork_path r ≠ [] → removable store (d_artwork_path r) (d_artwork_sha256 r) d).

Lemma wp_remove_files (F : Prop) r s : row_managed r → sound ks (disk s) → F ∨ row_removable r (disk s) →
  wp (remove_prepared_deletion_files store r)
    (λ res s', match res with
               | (true, true, None) => cleared r s s'
               | (false, false, Some _) => same s s' ∧ (F ∨ faulty)
               | (true, false, Some _) => partly r s s' ∧ (F ∨ faulty)
               | _ => False
               end)
    (λ _ _, False) (partly r s) s.
Proof using Laws.
  intros [Hm Hma] Hs HF. unfold remove_prepared_deletion_files. apply wp_bind.
  eapply wp_conseq; [apply (wp_remove_one F); [done|done|by destruct HF as [|[? _]]; [left|right]]| |done|intros; by apply same_partly]. cbn.
  intros [e|[]] s1 H1; [by apply wp_ret| |by destruct H1].
  destruct H1 as (_ & Hb & Hd). pose proof (became_shrunk _ _ _ Hb Hd) as Hsh. destruct Hb as (Hs1 & Hdb1 & Hf1).
  apply wp_if; intros Hart.
  - apply wp_ret. do 3 (split; [done|]). intros q. rewrite Hf1. unfold without, keys. rewrite Hart.
    do 2 case_decide; set_solver.
  - assert (d_artwork_path r ≠ []) as Hne by (by eapply bool_decide_eq_false).
    assert (∀ s2, same s1 s2 → partly r s s2) as Hpart.
    { intros s2 [Hd2 Hdb2]. unfold partly. rewrite Hd2, Hdb2. do 3 (split; [done|]). intros q. rewrite Hf1.
      unfold without, keys. case_decide as Hq; [rewrite Hq; right; left|by left]. }
    apply wp_bind. eapply wp_conseq; [apply (wp_remove_one F); [by apply Hma|done|]| |done|exact Hpart].
    { destruct HF as [|[_ HF]]; [by left|right]. eapply removable_shrunk; [done|]. by apply HF. }
    cbn. intros [e|b] s2 H2; apply wp_ret; [destruct H2; by split; [apply Hpart|]|].
    destruct H2 as (-> & Hb2 & Hd2). pose proof (became_shrunk _ _ _ Hb2 Hd2) as Hsh2. destruct Hb2 as (Hs2 & Hdb2 & Hf2).
    split; [done|]. split; [congruence|]. split; [by eapply shrunk_trans|]. intros q. rewrite Hf2. unfold without.
    rewrite Hf1. unfold without, keys. rewrite Hart. repeat case_decide; set_solver.
Qed.
End Removal.

(** ** Preparing and cancelling *)

Section Preparing.
Context `{FS : FileSystem} `{Laws : !FileSystemLaws} `{Machinery : Host} `{Dbg : Debug}
  `{Cry : ListenTogether.Crypto} `{Js : JsonString}.
Context (store : Storage).
Implicit Types (s : Machine DB) (d : DB) (x : TrackDeletionState).

(** What is loaded of a Track says what the tables do: its row and its source, and the
    cover of its Album as its own, only when the Album has no other Track. *)
Record loaded (track : str) d x : Prop := {
  l_row : ∃ t sr, tracks (library d) !! track = Some t ∧ sources (library d) !! track = Some sr ∧
    t_missing t = false ∧ x_album_id x = t_album t ∧ x_file_path x = s_path sr ∧ x_sha256 x = s_sha256 sr;
  l_path : ∃ rel, relative_path store (x_file_path x) = Ok rel;
  l_shared : (∃ k t, k ≠ track ∧ tracks (library d) !! k = Some t ∧ t_album t = x_album_id x) → x_artwork_path x = [];
  l_artwork : (∀ k t, tracks (library d) !! k = Some t → t_album t = x_album_id x → k = track) →
    match artwork (library d) !! x_album_id x with
    | None => x_artwork_path x = []
    | Some w => x_artwork_path x = aw_path w ∧ x_artwork_sha256 x = aw_sha256 w ∧
        ∃ rel, relative_path store (aw_path w) = Ok rel
    end;
  l_token : p_token (preview x) = deletion_token x
}.

(** The tables with the Track hidden and its deletion journaled. *)
Definition journaled (track : str) x d : DB :=
  with_library d (hide_track track (with_deletions (λ rows, rows ++ [deletion_row track x]) (library d))).

Lemma does_quiet {A} (m : M (Machine DB) Error A) d : quiet m → does m d True (λ _ d', d' = d).
Proof.
  intros Hm s <-. apply (wp_quiet m); [done|..].
  - by intros a s' [].
  - intros e s' []. by split; [|right].
  - by intros s' [].
Qed.

Lemma does_fail {A} e d (R : A → DB → Prop) : does (fail e) d True R.
Proof. intros s <-. apply wp_fail. by split; [|right]. Qed.

Lemma does_resolve path sha d :
  does (resolve_managed_file store path sha) d True (λ r d', d' = d ∧ relative_path store path = Ok r.1).
Proof.
  unfold resolve_managed_file. destruct (relative_path store path) as [rel|e| |] eqn:Hrel;
    [|intros s <-; apply wp_bind, wp_lift; by split; [|right]|unfold relative_path in Hrel; by repeat case_match..].
  eapply does_bind_lift; [done|].
  eapply does_bind; [apply does_quiet; auto with store|]. intros _ ? ->.
  eapply does_bind; [apply does_quiet; auto with store|]. intros _ ? ->.
  eapply does_bind; [apply does_quiet; apply quiet_attempt_query|]. intros [e|[data| |]] ? ->; try apply does_fail.
  eapply does_bind; [apply does_quiet; apply quiet_on_err, quiet_verify|]. intros _ ? ->. by apply does_ret.
Qed.

Lemma does_on_err {A} f (m : M (Machine DB) Error A) d F R : does m d F R → does (on_err f m) d F R.
Proof. intros Hm s Hs. apply wp_on_err. by apply Hm. Qed.

(** [final_artwork] finds a cover for the last Track of its Album only. *)
Lemma final_artwork_last track album (c : Catalog) :
  ((∃ k t, k ≠ track ∧ tracks c !! k = Some t ∧ t_album t = album) → final_artwork track album c = None) ∧
  ((∀ k t, tracks c !! k = Some t → t_album t = album → k = track) → final_artwork track album c = artwork c !! album).
Proof.
  assert (∀ k, k ∈ album_tracks album c ∖ {[track]} ↔ ∃ t, k ≠ track ∧ tracks c !! k = Some t ∧ t_album t = album) as Hin.
  { intros k. rewrite elem_of_difference, elem_of_singleton. unfold album_tracks. rewrite elem_of_dom. unfold is_Some.
    setoid_rewrite map_lookup_filter_Some. cbn. naive_solver. }
  unfold final_artwork. split.
  - intros (k & Hk). rewrite bool_decide_eq_false_2; [done|]. intros He. apply Hin in Hk. rewrite He in Hk. by apply not_elem_of_empty in Hk.
  - intros Hall. rewrite bool_decide_eq_true_2; [done|]. apply set_eq. intros k. split; [|by intros ?%not_elem_of_empty].
    intros (t & Hne & Ht & Ha)%Hin. by destruct Hne; eapply Hall.
Qed.

Lemma does_load track d :
  does (load_track_deletion store track) d True (λ x d', d' = d ∧ loaded track d x).
Proof using Laws.
  unfold load_track_deletion. apply does_bind_select.
  destruct (tracks (library d) !! track) as [t|] eqn:Ht; cbn [mbind option_bind];
    [|intros s <-; apply wp_bind, wp_lift; by split; [|right]].
  destruct (sources (library d) !! track) as [sr|] eqn:Hsr; cbn [mbind option_bind];
    [|intros s <-; apply wp_bind, wp_lift; by split; [|right]].
  destruct (t_missing t) eqn:Hmiss; [intros s <-; apply wp_bind, wp_lift; by split; [|right]|].
  eapply does_bind_lift; [done|]. cbn beta iota. case_match; [apply does_fail|].
  eapply does_bind; [apply does_resolve|]. intros [rel size] ? [-> Hrel]. cbn in Hrel.
  case_match; [apply does_fail|]. apply does_bind_select, does_bind_select, does_bind_select.
  destruct (final_artwork track (t_album t) (library d)) as [w|] eqn:Hw.
  - eapply does_bind; [apply does_on_err, does_resolve|]. intros [wrel wsize] ? [-> Hwrel]. apply does_ret. split; [done|].
    destruct (final_artwork_last track (t_album t) (library d)) as [Hshared Hlast]. rewrite Hw in Hshared, Hlast.
    split; cbn; [by exists t, sr|by eexists|by intros ?%Hshared|intros Hall; rewrite <-(Hlast Hall); by eauto|done].
  - eapply does_bind; [by apply does_ret with (R := λ _ d', d' = d)|]. intros _ ? ->. apply does_ret. split; [done|].
    destruct (final_artwork_last track (t_album t) (library d)) as [_ Hlast]. rewrite Hw in Hlast.
    split; cbn; [by exists t, sr|by eexists|done|intros Hall; by rewrite <-(Hlast Hall)|done].
Qed.

(** A preparation journals what the token was made of, or does nothing. *)
Lemma wp_prepare_deletion track token s :
  wp (prepare_track_deletion store track token)
    (λ x s', disk s' = disk s ∧ loaded track (db s) x ∧ db s' = journaled track x (db s)
             ∧ encode (deletion_token x) = encode token)
    (λ _ s', disk s' = disk s ∧ (db s' = db s ∨ ∃ x, loaded track (db s) x ∧ db s' = journaled track x (db s)))
    (λ s', disk s' = disk s ∧ db s' = db s) s.
Proof using Laws.
  eapply wp_conseq; [eapply (wp_transaction_does _ _ True (λ x d', loaded track (db s) x ∧ d' = journaled track x (db s)
    ∧ encode (deletion_token x) = encode token))|..]; cbn; [|done|intros _ s' (? & _ & [?|(x & ? & ? & _)]); eauto|done].
  eapply does_bind; [apply does_load|]. intros x ? [-> Hx]. destruct (tokens_equal _ _) eqn:Htok; [|apply does_fail]. apply tokens_equal_iff in Htok. cbn.
  eapply does_bind with (R := λ _ d', d' = with_library (db s) (with_deletions (λ rows, rows ++ [deletion_row track x]) (library (db s)))).
  { apply does_exec; [|done]. unfold insert_deletion. intros c. case_match; [|done]. by intros [= <-]. }
  intros _ ? ->. eapply does_bind_exec; [done|]. apply does_ret. split; [done|]. split; [done|].
  by rewrite <-(l_token _ _ _ Hx).
Qed.

Lemma loaded_not_pending track d x : consistent d → loaded track d x → track ∉ (d_track <$> deletions (library d)).
Proof.
  intros Hc Hx Hin. destruct (l_row _ _ _ Hx) as (t & sr & Ht & _ & Hmiss & _).
  apply list_elem_of_fmap in Hin as (r & -> & Hr). apply (c_deletion _ Hc) in Hr. rewrite Ht in Hr. cbn in Hr. congruence.
Qed.

Lemma journaled_tracks track x d k :
  tracks (library (journaled track x d)) !! k =
    if decide (k = track) then set_missing true <$> tracks (library d) !! k else tracks (library d) !! k.
Proof. cbn. case_decide as E; [subst; apply lookup_alter_eq|by apply lookup_alter_ne]. Qed.

Lemma journaled_album track x d k :
  t_album <$> tracks (library (journaled track x d)) !! k = t_album <$> tracks (library d) !! k.
Proof. rewrite journaled_tracks. case_decide; [|done]. by destruct (tracks (library d) !! k). Qed.

Lemma journaled_some track x d k :
  is_Some (tracks (library (journaled track x d)) !! k) ↔ is_Some (tracks (library d) !! k).
Proof. rewrite journaled_tracks. case_decide; [|done]. by rewrite fmap_is_Some. Qed.

Lemma journaled_consistent track x d : consistent d → loaded track d x → consistent (journaled track x d).
Proof.
  intros Hc Hx. pose proof (loaded_not_pending _ _ _ Hc Hx) as Hnew. split.
  - intros k t Hk. assert (t_album <$> tracks (library d) !! k = Some (t_album t)) as Hal
      by (by rewrite <-(journaled_album track x), Hk).
    apply fmap_Some in Hal as (t0 & Ht0 & ->). exact (c_track _ Hc _ _ Ht0).
  - intros k Hk. apply journaled_some. by apply (c_source _ Hc).
  - intros a w Hw. rewrite journaled_album. exact (c_artwork _ Hc _ _ Hw).
  - intros k y Hk. rewrite journaled_some. exact (c_track_artist _ Hc _ _ Hk).
  - exact (c_album_artist _ Hc).
  - exact (c_album _ Hc).
  - intros p k Hk. apply journaled_some. exact (c_playlist _ Hc _ _ Hk).
  - intros u k Hk. apply journaled_some. exact (c_queue _ Hc _ _ Hk).
  - intros j Hj. rewrite journaled_some. exact (c_job _ Hc _ Hj).
  - destruct (c_deletion _ Hc) as [Hnd Hdel]. cbn [journaled hide_track with_library library with_tracks with_deletions deletions].
    rewrite fmap_app. split.
    + apply NoDup_app. split; [done|]. split; [|apply NoDup_singleton]. intros k Hk ->%list_elem_of_singleton. done.
    + intros r Hin. cut (t_missing <$> tracks (library (journaled track x d)) !! d_track r = Some true); [done|]. rewrite journaled_tracks.
      apply elem_of_app in Hin as [Hr| ->%list_elem_of_singleton].
      * case_decide as E; [|by apply Hdel]. exfalso. apply Hnew. rewrite <-E. by apply list_elem_of_fmap_2.
      * cbn. rewrite decide_True by done. destruct (l_row _ _ _ Hx) as (t & sr & Ht & _). by rewrite Ht.
Qed.

Lemma journaled_album_tracks track x d a : album_tracks a (library (journaled track x d)) = album_tracks a (library d).
Proof.
  apply set_eq. intros k. unfold album_tracks. rewrite !elem_of_dom. unfold is_Some.
  setoid_rewrite map_lookup_filter_Some. rewrite journaled_tracks. case_decide; [|done].
  destruct (tracks (library d) !! k) as [t|]; cbn; [|naive_solver]. split; intros (u & [= <-] & ?); by eexists.
Qed.

Lemma journaled_pending track x d : loaded track d x →
  pending_album track (library (journaled track x d)) = Some (x_album_id x).
Proof.
  intros Hx. destruct (l_row _ _ _ Hx) as (t & sr & Ht & _ & _ & -> & _). unfold pending_album. rewrite journaled_album, Ht.
  rewrite bool_decide_eq_true_2; [done|]. cbn. rewrite fmap_app. apply elem_of_app. right. by left.
Qed.

(** Deleting from the journaled tables is deleting from those before. *)
Lemma removed_journaled track x album d d' : consistent d → loaded track d x →
  removed track album (journaled track x d) d' → removed track album d d'.
Proof.
  intros Hc Hx Hr. pose proof (loaded_not_pending _ _ _ Hc Hx) as Hnew.
  destruct Hr as [H1 H2 H3 H4 H5 H6 H7 H8 H9 H10 H11 H12 H13 H14 H15]. rewrite journaled_album_tracks in *. split; try done.
  - rewrite H1. cbn. apply delete_alter_eq.
  - rewrite H13. cbn. rewrite filter_app, filter_cons_False by naive_solver. by rewrite app_nil_r.
Qed.

Lemma does_cancel track x d : consistent d → loaded track d x →
  does (_ ← exec (st "restore Managed Track after failed deletion") (show_track track);
        exec (st "clear failed Permanent Track Deletion journal") (λ c, Some (delete_deletion track c)))
    (journaled track x d) True (λ _ d', d' = d).
Proof using Laws.
  intros Hc Hx. pose proof (loaded_not_pending _ _ _ Hc Hx) as Hnew. destruct (l_row _ _ _ Hx) as (t & sr & Ht & _ & Hmiss & _).
  assert (tracks (library (journaled track x d)) !! track = Some (set_missing true t)) as Hj.
  { by rewrite journaled_tracks, decide_True, Ht. }
  eapply does_bind with (R := λ _ d', d' = with_library (journaled track x d)
    (with_tracks (alter (set_missing false) track) (library (journaled track x d)))).
  { apply does_exec; [|done]. unfold show_track. rewrite Hj. intros c. case_bool_decide; [|done]. by intros [= <-]. }
  intros _ ? ->. apply does_exec_all. destruct d as [rs cs js c].
  unfold journaled, hide_track, delete_deletion, with_library, with_tracks, with_deletions. cbn in *. destruct c as [ts ? ? ? ? ? ? ? ? ? ? ds].
  cbn in *. f_equal. f_equal.
  - apply map_eq. intros k. destruct (decide (k = track)) as [->|Hk]; [|by rewrite !lookup_alter_ne].
    rewrite !lookup_alter_eq, Ht. cbn. f_equal. rewrite <-Hmiss. by destruct t.
  - rewrite filter_app, filter_cons_False by naive_solver. rewrite filter_nil, app_nil_r.
    clear -Hnew. induction ds as [|r ds IH]; [done|]. rewrite fmap_cons, not_elem_of_cons in Hnew. destruct Hnew as [Hn Hnew].
    rewrite filter_cons_True by done. by rewrite IH.
Qed.
End Preparing.

(** ** One deletion, whatever fails *)

Section Safety.
Context `{FS : FileSystem} `{Laws : !FileSystemLaws} `{Machinery : Host} `{Dbg : Debug}
  `{Cry : ListenTogether.Crypto} `{Js : JsonString}.
Context (store : Storage) (ks : list (list str)).
Implicit Types (s : Machine DB) (d : DB) (x : TrackDeletionState).

(** The Library's paths, those below the root at least, are among [ks]. *)
Definition mapped d : Prop :=
  (∀ k r rel, sources (library d) !! k = Some r → relative_path store (s_path r) = Ok rel → names rel ∈ ks) ∧
  (∀ a w rel, artwork (library d) !! a = Some w → relative_path store (aw_path w) = Ok rel → names rel ∈ ks).

Definition put (d : DB) s : Machine DB := mkMachine (disk s) d (clock s).

(** What a deletion leaves of a Track: all of it; a hidden and journaled one, whose
    files may be gone; or nothing. *)
Inductive left_of (track : str) s s' : Prop :=
  | Kept : same s s' → left_of track s s'
  | Pending x : loaded store track (db s) x →
      partly store ks (deletion_row track x) (put (journaled track x (db s)) s) s' →
      consistent (db s') → row_managed store ks (deletion_row track x) → left_of track s s'
  | Gone x : loaded store track (db s) x → removed track (x_album_id x) (db s) (db s') → consistent (db s') →
      cleared store ks (deletion_row track x) (put (db s') s) s' → left_of track s s'.

Lemma loaded_managed track d x : mapped d → loaded store track d x → row_managed store ks (deletion_row track x).
Proof.
  intros [Hsrc Hart] Hx. destruct (l_row _ _ _ _ Hx) as (t & sr & _ & Hs & _ & _ & Hp & _).
  destruct (l_path _ _ _ _ Hx) as [rel Hrel]. split; cbn.
  - exists rel. split; [done|]. eapply Hsrc; [done|]. by rewrite <-Hp.
  - intros Hne. assert (∀ k t, tracks (library d) !! k = Some t → t_album t = x_album_id x → k = track) as Hlast.
    { intros k t' Hk Ha. destruct (decide (k = track)) as [|Hn]; [done|]. destruct Hne. apply (l_shared _ _ _ _ Hx). by exists k, t'. }
    pose proof (l_artwork _ _ _ _ Hx Hlast) as Hw. destruct (artwork (library d) !! x_album_id x) as [w|] eqn:Hl; [|done].
    destruct Hw as (Hp' & _ & wrel & Hwrel). exists wrel. rewrite Hp'. split; [done|]. by eapply Hart.
Qed.

(** The finalization after the files went. *)
Lemma wp_finalize_journaled track x s s1 : consistent (db s) → loaded store track (db s) x →
  cleared store ks (deletion_row track x) (put (journaled track x (db s)) s) s1 →
  let gone := λ s', removed track (x_album_id x) (db s) (db s') ∧ consistent (db s') ∧
    cleared store ks (deletion_row track x) (put (db s') s) s' in
  wp (finalize_track_deletion track) (λ _ s', gone s')
    (λ _ s', same s1 s' ∨ gone s') (same s1) s1.
Proof using Laws.
  intros Hc Hx (Hs1 & Hdb1 & Hsh & Hf) gone. cbn in Hdb1.
  assert (∀ s', disk s' = disk s1 → removed track (x_album_id x) (db s1) (db s') ∧ consistent (db s') → gone s') as Hgone.
  { intros s' Hd [Hr Hc']. split; [|split; [done|]].
    - rewrite Hdb1 in Hr. by eapply removed_journaled.
    - split; [by rewrite Hd|]. split; [done|]. rewrite Hd. done. }
  eapply wp_conseq; [apply (wp_finalize_deletion track (x_album_id x))|..]; cbn.
  - rewrite Hdb1. by eapply journaled_consistent.
  - rewrite Hdb1. by eapply journaled_pending.
  - intros _ s' (Hd & Hr). by apply Hgone.
  - intros _ s' (Hd & _ & [Hdb|Hr]); [by left|right]. by apply Hgone.
  - intros s' [Hd Hdb]. done.
Qed.

(** A removal that failed before any file went is undone. *)
Lemma wp_cancel track x s s1 : consistent (db s) → loaded store track (db s) x → row_managed store ks (deletion_row track x) →
  same (put (journaled track x (db s)) s) s1 → sound ks (disk s) →
  wp (cancel_track_deletion track) (λ _ s', left_of track s s') (λ _ s', left_of track s s') (left_of track s) s1.
Proof using Laws.
  intros Hc Hx Hm [Hd Hdb] Hs. cbn in Hd, Hdb.
  assert (∀ s', disk s' = disk s1 → db s' = db s1 → left_of track s s') as Hpend.
  { intros s' Hd' Hdb'. apply (Pending _ _ _ x); [done| |by rewrite Hdb', Hdb; eapply journaled_consistent|done].
    apply same_partly; [done|]. split; cbn; congruence. }
  eapply wp_conseq; [eapply (wp_transaction_does _ _ True (λ _ d', d' = db s)); rewrite Hdb; by eapply does_cancel|..]; cbn.
  - intros _ s' [Hd' Hdb']. apply Kept. split; congruence.
  - intros _ s' (Hd' & _ & [Hdb'|[_ Hdb']]); [by apply Hpend|apply Kept; split; congruence].
  - intros s' [Hd' Hdb']. by apply Hpend.
Qed.

(** C7: Deleting a Track permanently is safe wherever the host fails and wherever
    the process ends: the Track is whole, or hidden and journaled with what may
    have gone of its own files, or gone from consistent tables with its files and
    no others. When the deletion returns, the Track is gone and the token was
    the one of what the tables said of it. *)
Theorem deletion_keeps_hides_or_removes track token s : consistent (db s) → sound ks (disk s) → mapped (db s) →
  wp (delete_track store track token)
    (λ n s', ∃ x, loaded store track (db s) x ∧ encode (deletion_token x) = encode token ∧
       removed track (x_album_id x) (db s) (db s') ∧ consistent (db s') ∧
       cleared store ks (deletion_row track x) (put (db s') s) s' ∧ n = zlen (keys store (deletion_row track x)))
    (λ _ s', left_of track s s') (left_of track s) s.
Proof using Laws.
  intros Hc Hs Hmap. unfold delete_track. apply wp_bind. eapply wp_conseq; [apply wp_prepare_deletion|..]; cbn beta.
  2: { intros _ s' [Hd [Hdb|(x & Hx & Hdb)]]; [by apply Kept|]. apply (Pending _ _ _ x); [done| | |by eapply loaded_managed].
       - apply same_partly; [done|]. by split.
       - rewrite Hdb. by eapply journaled_consistent. }
  2: { intros s' [Hd Hdb]. by apply Kept. }
  intros x s1 (Hd1 & Hx & Hdb1 & Htok). pose proof (loaded_managed _ _ _ Hmap Hx) as Hm.
  assert (same (put (journaled track x (db s)) s) s1) as H1 by done.
  assert (∀ s', partly store ks (deletion_row track x) s1 s' → left_of track s s') as Hpart.
  { intros s' (Hs' & Hdb' & Hsh & Hf). apply (Pending _ _ _ x); [done| | |done].
    - split; [done|]. split; [cbn; congruence|]. cbn. by rewrite <-Hd1.
    - rewrite Hdb', Hdb1. by eapply journaled_consistent. }
  apply wp_bind. eapply wp_conseq; [apply (wp_remove_files store ks True); [done|by rewrite Hd1|by left]|..]; cbn beta;
    [|done|exact Hpart].
  intros [[[] []] [e|]] s2 H2; try done; cbn [negb].
  - assert (∀ s', same s2 s' → left_of track s s') as Hstop.
    { intros s' Hs'. apply Hpart. pose proof (cleared_partly _ _ _ _ _ H2) as (Hs2 & Hdb2 & Hsh & Hf).
      destruct Hs' as [Hd' Hdb']. unfold partly. by rewrite Hd', Hdb'. }
    destruct H2 as (Hs2 & Hdb2 & Hsh & Hf). rewrite Hd1 in Hsh, Hf.
    apply wp_bind, wp_catch. eapply wp_conseq; [eapply (wp_finalize_journaled track x s s2); [done..|]|..]; cbn beta; [|..|done].
    + split; [done|]. split; [cbn; congruence|]. by split.
    + intros _ s' (Hr & Hc' & Hcl). apply wp_ret. exists x. do 5 (split; [done|]). unfold keys. cbn.
      by destruct (bool_decide _).
    + intros e s' H'. apply wp_fail_join. intros _. destruct H' as [H'|(Hr & Hc' & Hcl)]; [by apply Hstop|]. by eapply Gone.
  - apply wp_fail, Hpart, H2.
  - destruct H2 as [H2 _]. apply wp_bind, wp_errs.
    eapply wp_conseq; [apply (wp_cancel track x s s2); [done..|by eapply same_trans|done]|..]; cbn beta; [..|done].
    + intros _ s' Hl. by apply wp_fail_join.
    + intros e' s' Hl. by apply wp_fail_join.
Qed.
End Safety.

(** ** Recovery *)

Section Recovery.
Context `{FS : FileSystem} `{Laws : !FileSystemLaws} `{Machinery : Host} `{Dbg : Debug}.
Context (store : Storage) (ks : list (list str)).
Implicit Types (s : Machine DB) (d : DB).

(** Every journaled file is gone or still has its hash, in a directory that is there. *)
Definition recoverable s : Prop :=
  consistent (db s) ∧ sound ks (disk s) ∧
  ∀ r, r ∈ deletions (library (db s)) → row_managed store ks r ∧ row_removable store r (disk s).

(** The tables after the deletions of [rows], one after the other, and nothing else. *)
Fixpoint removed_all (rows : list DeletionRow) d d' : Prop :=
  match rows with
  | [] => d' = d
  | r :: rows => ∃ album d1, t_album <$> tracks (library d) !! d_track r = Some album ∧
      removed (d_track r) album d d1 ∧ removed_all rows d1 d'
  end.

(** From [s] to [s'] the journaled deletions [rows] were finished: every table is what
    their removal leaves, and their files are the only ones that went. *)
Record finished (rows : list DeletionRow) s s' : Prop := {
  f_journal : deletions (library (db s')) = [];
  f_tables : removed_all rows (db s) (db s');
  f_files : ∀ q, file_at (disk s') q = if bool_decide (q ∈ mbind (keys store) rows) then None else file_at (disk s) q
}.

(** From [s] to [s'] the first of the journaled deletions [rows] were finished, the rest
    is journaled still, and no file but theirs went. *)
Definition left_with (rows : list DeletionRow) s s' : Prop :=
  ∃ gone, rows = gone ++ deletions (library (db s')) ∧ removed_all gone (db s) (db s') ∧
    ∀ q, file_at (disk s') q = file_at (disk s) q ∨ (file_at (disk s') q = None ∧ q ∈ mbind (keys store) rows).

Lemma row_removable_shrunk r (d d' : Disk) : shrunk d d' → row_removable store r d → row_removable store r d'.
Proof. intros Hsh [H1 H2]. split; [by eapply removable_shrunk|]. intros Hne. eapply removable_shrunk; [done|auto]. Qed.

Lemma recoverable_partly r s s' : partly store ks r s s' → recoverable s → recoverable s'.
Proof.
  intros (Hs & Hdb & Hsh & _) (Hc & _ & Hrow). split; [by rewrite Hdb|]. split; [done|]. rewrite Hdb. intros r' Hr'.
  destruct (Hrow r' Hr') as [Hm Hrem]. split; [done|]. by eapply row_removable_shrunk.
Qed.

Lemma filter_other (r : DeletionRow) (rows : list DeletionRow) : NoDup (d_track <$> r :: rows) → filter (λ r', d_track r' ≠ d_track r) (r :: rows) = rows.
Proof.
  rewrite fmap_cons, NoDup_cons. intros [Hn _]. rewrite filter_cons_False by naive_solver.
  induction rows as [|r' rows IH]; [done|]. rewrite fmap_cons, not_elem_of_cons in Hn. destruct Hn as [Hn Hn'].
  rewrite filter_cons_True by done. by rewrite IH.
Qed.

Lemma files_next {A} (q : list str) (first rest : list (list str)) (x : option A) :
  (if bool_decide (q ∈ rest) then None else if decide (q ∈ first) then None else x)
  = if bool_decide (q ∈ first ++ rest) then None else x.
Proof. rewrite (bool_decide_ext _ _ (elem_of_app first rest q)). repeat case_bool_decide; try case_decide; tauto. Qed.

(** Files of the first row went, or some of them. *)
Lemma left_partly r rows s s' : deletions (library (db s)) = r :: rows → partly store ks r s s' → left_with (r :: rows) s s'.
Proof.
  intros Hrows (_ & Hdb & [_ Hsh] & Hf). exists []. rewrite Hdb. split; [done|]. split; [done|]. intros q. destruct (Hf q) as [|Hq]; [by left|].
  destruct (file_at (disk s') q) as [y|] eqn:Hy; [left; symmetry; by apply Hsh|]. right. split; [done|]. apply elem_of_app. by left.
Qed.

(** The first row is finished, and then some of the others. *)
Lemma left_next r rows album s s2 s3 : t_album <$> tracks (library (db s)) !! d_track r = Some album →
  removed (d_track r) album (db s) (db s2) → (∀ q, file_at (disk s2) q = if decide (q ∈ keys store r) then None else file_at (disk s) q) →
  left_with rows s2 s3 → left_with (r :: rows) s s3.
Proof.
  intros Hal Hr Hf (gone & -> & Hgone & Hf3). exists (r :: gone). split; [done|]. split; [by exists album, (db s2)|].
  intros q. cbn [mbind list_bind]. rewrite elem_of_app. specialize (Hf q).
  destruct (Hf3 q) as [Hq|[Hq Hin]]; rewrite Hq, ?Hf; [|by auto]. case_decide; auto.
Qed.

Lemma finished_next r rows album s s2 s3 : t_album <$> tracks (library (db s)) !! d_track r = Some album →
  removed (d_track r) album (db s) (db s2) → (∀ q, file_at (disk s2) q = if decide (q ∈ keys store r) then None else file_at (disk s) q) →
  finished rows s2 s3 → finished (r :: rows) s s3.
Proof.
  intros Hal Hr Hf [H1 H2 H3]. split; [done|by exists album, (db s2)|]. intros q. rewrite H3, Hf. apply files_next.
Qed.

(** What the finalization of the first row, after its files went, leaves to do. *)
Lemma wp_finalize_next r rows s s1 : consistent (db s) → deletions (library (db s)) = r :: rows → cleared store ks r s s1 →
  let next := λ s', disk s' = disk s1 ∧ deletions (library (db s')) = rows ∧ consistent (db s') ∧
    ∃ album, t_album <$> tracks (library (db s)) !! d_track r = Some album ∧ removed (d_track r) album (db s) (db s') in
  wp (finalize_track_deletion (d_track r)) (λ _ s', next s') (λ _ s', faulty ∧ (same s1 s' ∨ next s')) (same s1) s1.
Proof using Laws.
  intros Hc Hrows (_ & Hdb1 & _) next.
  destruct (c_deletion _ Hc) as [Hnd Hdel]. pose proof (Hdel r ltac:(rewrite Hrows; left)) as Hmiss.
  apply fmap_Some in Hmiss as (t & Ht & _).
  assert (pending_album (d_track r) (library (db s1)) = Some (t_album t)) as Hpa.
  { rewrite Hdb1. unfold pending_album. rewrite Hrows, bool_decide_eq_true_2 by (rewrite fmap_cons; left). by rewrite Ht. }
  assert (∀ s', disk s' = disk s1 → removed (d_track r) (t_album t) (db s1) (db s') ∧ consistent (db s') → next s') as Hnext.
  { intros s' Hd' [Hr Hc']. pose proof (r_deletions _ _ _ _ Hr) as Hj. rewrite Hdb1, Hrows in Hj.
    rewrite filter_other in Hj by (by rewrite <-Hrows). rewrite Hdb1 in Hr. split_and!; [done..|]. exists (t_album t). by rewrite Ht. }
  eapply wp_conseq; [apply (wp_finalize_deletion _ (t_album t)); [by rewrite Hdb1|done]|..]; cbn beta.
  - intros _ s2 (Hd2 & Hr2). by apply Hnext.
  - intros e s2 (Hd2 & Hf & H2). split; [done|]. destruct H2 as [Hdb2|Hr2]; [by left|right; by apply Hnext].
  - intros s2 [Hd2 Hdb2]. done.
Qed.

Lemma wp_recover_rows (rows : list DeletionRow) s : recoverable s → deletions (library (db s)) = rows →
  wp (recover_deletions store rows) (λ _ s', recoverable s' ∧ finished rows s s')
    (λ _ s', faulty ∧ recoverable s' ∧ left_with rows s s') (λ s', recoverable s' ∧ left_with rows s s') s.
Proof using Laws.
  revert s. induction rows as [|r rows IH]; intros s Hrec Hrows; cbn [recover_deletions].
  { apply wp_ret. split; [done|]. split; [done..|]. intros q. by rewrite bool_decide_eq_false_2 by apply not_elem_of_nil. }
  pose proof Hrec as (Hc & Hs & Hrow). destruct (Hrow r) as [Hm Hrem]; [rewrite Hrows; left|].
  assert (∀ s', partly store ks r s s' → recoverable s' ∧ left_with (r :: rows) s s') as Hpart.
  { intros s' Hp. split; [by eapply recoverable_partly|by apply left_partly]. }
  apply wp_bind. eapply wp_conseq; [by apply (wp_remove_files store ks False); [..|right]| |done|exact Hpart]; cbn beta.
  intros [[has all] removed_] s1 H1. destruct has, all, removed_ as [e|]; try done; cbn [negb].
  2: { destruct H1 as [H1 [[]|Hf]]. apply wp_fail. auto. }
  2: { destruct H1 as [H1 [[]|Hf]]. apply wp_fail. split; [done|]. apply Hpart. by apply same_partly. }
  pose proof (cleared_partly _ _ _ _ _ H1) as Hp1. destruct (Hpart _ Hp1) as [(_ & Hs1 & Hrow1) _].
  pose proof H1 as (_ & Hdb1 & _ & Hf1).
  assert (∀ s', same s1 s' → recoverable s' ∧ left_with (r :: rows) s s') as Hsame.
  { intros s' [Hd' Hdb']. apply Hpart. destruct Hp1 as (? & ? & ? & ?). unfold partly. by rewrite Hd', Hdb'. }
  assert (∀ s2, disk s2 = disk s1 → deletions (library (db s2)) = rows → consistent (db s2) → recoverable s2) as Hrec2.
  { intros s2 Hd2 Hrows2 Hc2. split; [done|]. rewrite Hd2, Hrows2. split; [done|]. intros r' Hr'. apply Hrow1. rewrite Hdb1, Hrows. by right. }
  apply wp_bind, wp_catch. eapply wp_conseq; [by eapply wp_finalize_next|..]; cbn beta; [| |exact Hsame].
  - intros _ s2 (Hd2 & Hrows2 & Hc2 & album & Hal & Hr2).
    assert (∀ q, file_at (disk s2) q = if decide (q ∈ keys store r) then None else file_at (disk s) q) as Hf2 by (by rewrite Hd2).
    eapply wp_conseq; [by apply IH; [apply Hrec2|]|..]; cbn beta.
    + intros _ s3 [Hrec3 Hfin]. split; [done|]. by eapply finished_next.
    + intros _ s3 (Hf & Hrec3 & Hl). do 2 (split; [done|]). by eapply left_next.
    + intros s3 (Hrec3 & Hl). split; [done|]. by eapply left_next.
  - intros e s2 (Hf & H2). apply wp_on_err, wp_fail_join. intros _. split; [done|].
    destruct H2 as [H2|(Hd2 & Hrows2 & Hc2 & album & Hal & Hr2)]; [by apply Hsame|]. split; [by apply Hrec2|].
    eapply left_next; [done|done|by rewrite Hd2|]. exists []. split; [done|]. split; [done|]. by left.
Qed.

(** C8: If each file that waits to be removed is gone or still has its hash, and its
    directory is there, a recovery the host does not fail finishes every journaled
    deletion, one after the other: no journal row is left, every table (Tracks, Albums,
    covers, credits, Artists, Playlists, Queues, jobs, journals) is what the removal of
    these Tracks leaves, and no other file went. It fails only with the host, and
    wherever it fails or the process ends, the deletions it came to are finished,
    nothing but theirs was touched, and the next recovery can finish the rest. *)
Theorem recovery_finishes_pending_deletions s : recoverable s →
  wp (recover_pending_track_deletions store)
    (λ _ s', recoverable s' ∧ finished (deletions (library (db s))) s s')
    (λ _ s', faulty ∧ recoverable s' ∧ left_with (deletions (library (db s))) s s')
    (λ s', recoverable s' ∧ left_with (deletions (library (db s))) s s') s.
Proof using Laws.
  intros Hrec. assert (∀ s', same s s' → recoverable s' ∧ left_with (deletions (library (db s))) s s') as Hsame.
  { intros s' [Hd Hdb]. unfold recoverable, left_with. rewrite Hd, Hdb. split; [done|]. exists []. split; [done|]. split; [done|]. by left. }
  apply wp_bind, wp_sql.
  - intros s' H'. split; [|by apply Hsame]. intros e [Hf|Hn]; [|done]. split; [done|by apply Hsame].
  - intros a d' s' [= <- <-] Hd Hdb. split; [|intros e Hf; split; [done|by apply Hsame]].
    eapply wp_conseq; [apply wp_recover_rows; [by apply Hsame|by rewrite Hdb]|..]; cbn beta.
    + intros _ s2 [Hrec2 [H1 H2 H3]]. split; [done|]. rewrite Hdb in H2. rewrite Hd in H3. by split.
    + intros _ s2 (Hf & Hrec2 & Hl). do 2 (split; [done|]). unfold left_with in *. by rewrite Hd, Hdb in Hl.
    + intros s2 (Hrec2 & Hl). split; [done|]. unfold left_with in *. by rewrite Hd, Hdb in Hl.
Qed.

(** *** A file that changed *)







End Recovery.

(** ** An Album of one Track and its cover *)

#[local] Existing Instance plain_debug.
#[local] Existing Instance ascii_unicode.

#[local] Instance example_host : Host := {|
  turn _ := Go;
  outside _ := None;
  same_root _ := true;
  free_bytes _ := 0;
  granted _ := 1;
  new_uuid _ := [117];
  cwd := [];
  digest_hex x := replicate 63 97 ++ ((λ b, 48 + Z.of_N (Byte.to_N b)) <$> x)
|}.

#[local] Instance example_crypto : ListenTogether.Crypto := {|
  ListenTogether.sha256 x := x;
  ListenTogether.hmac_sha256 k x := k ++ x;
  ListenTogether.hex_encode x := (λ b, Z.of_N (Byte.to_N b)) <$> x;
  ListenTogether.base64_url x := (λ b, Z.of_N (Byte.to_N b)) <$> x
|}.

#[local] Instance example_json : JsonString := {| json_string s := [34] ++ s ++ [34] |}.

#[local] Instance example_rows : Replacement.LibraryRows Catalog := {|
  Replacement.QueueInvalidation := str;
  Replacement.write_replacement_data _ _ _ c := inr ([], c);
  Replacement.archive_standalone _ _ d := inr (tt, library d)
|}.

Definition example_sha (digit : Z) : str := replicate 63 97 ++ [digit].
Definition example_store : Storage := mkStorage [[114]] None 0 1 1.
Definition example_row : DeletionRow := mkDeletion [116] (st "/r/a/o") (example_sha 49) (st "/r/a/c") (example_sha 51).
Definition example_catalog (missing : bool) (rows : list DeletionRow) : Catalog :=
  mkCatalog {[ [116] := mkTrack [84] [84] [97] 1 missing false None None false ]}
    {[ [116] := mkSource (st "managed") (st "/r/a/o") (example_sha 49) 1 1 ]} {[ [97] := mkAlbum [65] 1 [120] ]}
    {[ [97] := mkArtworkRow [116] (st "/r/a/c") (example_sha 51) ]} {[ [120] ]} {[ ([116], [120]) ]} {[ ([97], [120]) ]}
    {[ [112] := [80] ]} {[ ([112], [116]) ]} [([117], [116])] ∅ rows.
Definition example_disk (byte : byte) : Tree :=
  list_to_map [([STAGING], EDir); ([st "a"], EDir); ([st "a"; st "o"], EFile [byte]); ([st "a"; st "c"], EFile [Byte.x03])].
Definition example_machine (byte : byte) (missing : bool) (rows : list DeletionRow) : Machine (H := map_file_system) DB :=
  mkMachine (H := map_file_system) (example_disk byte) (mkTables [] [] [] (example_catalog missing rows)) 0.
Definition example_keys : list (list str) := [[st "a"; st "o"]; [st "a"; st "c"]].

Lemma example_sound byte : sound (FS := map_file_system) example_keys (example_disk byte).
Proof. apply TrackReplacement.sound_ok_sound. destruct byte; by vm_compute. Qed.

Lemma example_key path : path = st "/r/a/o" ∨ path = st "/r/a/c" → managed example_store example_keys path.
Proof. intros [->| ->]; eexists; (split; [by vm_compute|]); [left|right; left]. Qed.

Lemma example_consistent missing rows : rows = [] ∨ missing = true ∧ rows = [example_row] →
  consistent (mkTables [] [] [] (example_catalog missing rows)).
Proof.
  intros Hrows. split; cbn.
  - by intros k t [<- <-]%lookup_singleton_Some.
  - intros k [r [<- <-]%lookup_singleton_Some]. by eexists.
  - intros a w [<- <-]%lookup_singleton_Some. split; [by eexists|]. by vm_compute.
  - intros k x [= -> ->]%elem_of_singleton. split; [by eexists|]. by apply elem_of_singleton.
  - intros k x [= -> ->]%elem_of_singleton. split; [by eexists|]. by apply elem_of_singleton.
  - intros a r [<- <-]%lookup_singleton_Some. by apply elem_of_singleton.
  - intros p k [= -> ->]%elem_of_singleton. by eexists.
  - intros u k [= -> ->]%list_elem_of_singleton. by eexists.
  - by intros j ?%elem_of_nil.
  - destruct Hrows as [->|[-> ->]]; [split; [constructor|by intros r ?%elem_of_nil]|].
    split; [apply NoDup_singleton|]. by intros r ->%list_elem_of_singleton.
Qed.

Definition example_shown : Machine (H := map_file_system) DB := example_machine Byte.x01 false [].
Definition example_pending (byte : byte) : Machine (H := map_file_system) DB := example_machine byte true [example_row].

(** The token a preview shows. *)
Definition example_token : str :=
  match (preview_track_deletion example_store [116] example_shown).1 with Ok p => p_token p | _ => [] end.

Lemma example_mapped : mapped example_store example_keys (db example_shown).
Proof.
  assert (∀ path rel, path = st "/r/a/o" ∨ path = st "/r/a/c" → relative_path example_store path = Ok rel →
    names rel ∈ example_keys) as Hkey.
  { intros path rel Hp Hrel. destruct (example_key path Hp) as (rel' & Hrel' & Hin). rewrite Hrel' in Hrel. by injection Hrel as <-. }
  split; cbn.
  - intros k r rel [<- <-]%lookup_singleton_Some. apply Hkey. by left.
  - intros k r rel [<- <-]%lookup_singleton_Some. apply Hkey. by right.
Qed.

Lemma example_removable : row_removable example_store example_row (example_disk Byte.x01).
Proof.
  assert (Forall good_name [st "a"; st "o"] ∧ Forall good_name [st "a"; st "c"]) as [Ho Hc].
  { split; by apply (TrackReplacement.example_clean). }
  split; [|intros _]; (split; [done|]); exists [st "a"]; eexists; (split; [by vm_compute|]).
  - do 3 (split; [done|]). intros x Hx. vm_compute in Hx. by injection Hx as <-.
  - do 3 (split; [done|]). intros x Hx. vm_compute in Hx. by injection Hx as <-.
Qed.

Lemma deletion_keeps_hides_or_removes_witness :
  (delete_track example_store [116] example_token example_shown).1 = Ok 2 ∧
  wp (delete_track example_store [116] example_token)
    (λ n s', ∃ x, loaded example_store [116] (db example_shown) x ∧ encode (deletion_token x) = encode example_token ∧
       removed [116] (x_album_id x) (db example_shown) (db s') ∧ consistent (db s') ∧
       cleared example_store example_keys (deletion_row [116] x) (put (db s') example_shown) s' ∧
       n = zlen (keys example_store (deletion_row [116] x)))
    (λ _ s', left_of example_store example_keys [116] example_shown s')
    (left_of example_store example_keys [116] example_shown) example_shown.
Proof.
  split; [by vm_compute|]. apply deletion_keeps_hides_or_removes; [apply example_consistent; by left|apply example_sound|].
  exact example_mapped.
Defined.

Lemma recovery_finishes_pending_deletions_witness :
  wp (recover_pending_track_deletions example_store)
    (λ _ s', recoverable example_store example_keys s' ∧ finished example_store [example_row] (example_pending Byte.x01) s')
    (λ _ s', faulty ∧ recoverable example_store example_keys s' ∧ left_with example_store [example_row] (example_pending Byte.x01) s')
    (λ s', recoverable example_store example_keys s' ∧ left_with example_store [example_row] (example_pending Byte.x01) s')
    (example_pending Byte.x01).
Proof.
  apply (recovery_finishes_pending_deletions example_store example_keys (example_pending Byte.x01)).
  split; [apply example_consistent; by right|]. split; [apply example_sound|]. intros r ->%list_elem_of_singleton.
  split; [split; [|intros _]; apply example_key; auto|exact example_removable].
Defined.


